(* ===== verification/_CoqProject ===== *)
-Q . S2P
Prelude.v
Encoding.v
Kv.v
Batch.v
Watch.v
Store.v
Num.v
F64.v
Hashes.v
Sets.v
Lists.v
Bits.v
Strings.v
Hll.v
Estimate.v
HllOps.v
Keyspace.v
Gc.v
Zsets.v
Streams.v
Groups.v
GroupOps.v
S3fifo.v
Glob.v
Resp.v
Commands.v
Replies.v
Slot.v
Sched.v
Cache.v
