(* ===== verification/Prelude.v ===== *)
(** * Flint: a verification development

    Flint is a Redis-compatible server over RocksDB, with a proxy in front of
    its seats. This library models the parts of it that are programs in their
    own right, each as executable definitions translated from the source, and
    proves what they promise to each other. Arithmetic is a release build's:
    unsigned words wrap ([wrap]), the saturating operations saturate, and an
    operation that would panic answers a failure value of its own.

    ** The parts and the files

    The storage engine (src/crates/flint-storage/src). A store is a program
    over the [Kv] trait's operations, the clock, the version counter and a
    random stream, and runs on any engine that keeps the trait's contract.
    - [Prelude]: words, bytes, lists, the tactics and the hint database.
    - [Encoding] (encoding.rs): the row keys and the metadata rows of every
      type, with the order-preserving encodings and [VersionGen].
    - [Kv] (lib.rs): the trait, its contract as a class ([KvLaws]), the
      replica's view and the in-memory engine. [prog] is the monad the stores
      are written in, [run] its meaning on an engine.
    - [Batch] (batch.rs, apply_writes of rocks.rs): the write-batching overlay,
      an engine again. [Watch] (watch.rs): the version table behind WATCH.
    - [Store]: weakest preconditions of programs and the abstraction from rows
      to values that the typed stores share.
    - [Num], [F64]: integers and doubles as text, a double being its 64 bits
      and its arithmetic SpecFloat's at precision 53.
    - [Hashes], [Sets], [Lists], [Zsets], [Strings] with [Bits] (the files of
      those names): the typed stores. [Keyspace] (keyspace.rs): the commands
      of every type. [Gc] (gc.rs): the sweeper.
    - [Streams] (streams.rs): streams of entries by ID. [Groups] and
      [GroupOps] (streams/groups.rs): their consumer groups, the first file
      with the operations and what their rows hold, the second with what each
      operation does.
    - [Hll], [Estimate] and [HllOps] (hll.rs): HyperLogLog strings. The first
      file has the operations and relates both forms of the string, packed
      registers and run-length opcodes, to a list of registers ([sketch]); the
      second shows that the estimator's floating-point loops end; the third
      has the commands.
    - [S3fifo] (s3fifo.rs): the eviction policy as a state machine.

    The edge.
    - [Resp] (flint-resp/src/lib.rs): replies, encoders and the decoder.
    - [Replies] (flint-resp/src/lib.rs; repair_reply and EXEC's reply of
      flint-proxy/src/main.rs; reply shapes of
      flint-server/src/commands/streams.rs and streams/groups.rs): what the
      proxy, which reads its seats in RESP3, restores for each command.
    - [Commands] (flint-commands/src/lib.rs): the classes of commands and the
      keys of each.
    - [Slot] (flint-slot/src/lib.rs): the slot of a key and who owns it.
    - [Cache] (flint-proxy/src/cache.rs; cache_writeback,
      cache_invalidate_written and data_command_inner of
      flint-proxy/src/main.rs): the proxy's read cache.
    - [Glob] (flint-server/src/glob.rs): the pattern matcher.
    - [Sched] (flint-sched/src/lib.rs): the scheduler of recurring jobs.

    ** What the theorems show

    - Rows: keys parse back to their owners, metadata rows round trip, versions
      strictly increase whatever the clock does.
    - Engines: a program run on any lawful engine answers what it does on the
      finite map behind it; the batching overlay is such an engine and its
      flush leaves what the commands would have left one by one; the in-memory
      engine's chunked walks end and visit each row once; a write is never
      missed by WATCH.
    - Stores: each command refines the operation it names on the abstract value
      (a finite map, a set, a list, a map from members to scores, a byte string
      with its expiry, a stream of entries in ID order with its counters, a
      group of consumers and pending entries), with its counts and byte accounting, on every branch,
      refusals included; no other key is touched. These are statements of total
      correctness ([wp]): the program ends, in a state and with an answer that
      satisfy the specification.
    - Streams: IDs strictly increase whatever the clock does, and every entry a
      group has handed out is pending for exactly one consumer: the counters
      of groups and consumers and the index by owner, which the rows repeat,
      never drift, and a group's lag is the number of entries it has not read.
    - HyperLogLog: the registers are those of the set of elements offered, in
      whatever order, form and number of edits; PFADD raises them, PFMERGE
      joins them and PFCOUNT answers the estimate of the join, always.
    - The sweeper deletes only garbage whatever runs beside it, and all of it
      when nothing does.
    - The eviction policy's books stay exact in every reachable state, a
      reclaim reaches its target, and a scan leaves the working set alone.
    - The wire: what is encoded decodes to itself, a verdict never changes as
      bytes arrive, what is accepted is well formed, and through the proxy a
      client gets the bytes the seat would have sent.
    - CRC16 is polynomial division, interval maps route each slot to the one
      interval that covers it, the glob matcher ends and means what Redis globs
      mean, and every scheduled job runs again and again, spaced from the end
      of its last run.

    - The proxy's cache keeps its books and its budget, serves only what was
      last put and not dropped since, is fair among tenants, and after a write
      serves no key the write may have changed.

    Some theorems state behaviour that is not what the code intends: TTL and
    APPEND across an expiry, a reclaim that gives up, EXEC of bare pops, the
    cache's queue, and a reply cached after the write that outdated it.

    ** Bounds and fuel

    Loops whose end is not structural run on fuel that a theorem shows to be
    enough: the walks of [Kv] on the number of rows, [Glob] on
    (length of the string + 2) * (length of the pattern + 1), [S3fifo] on the
    budget the code itself computes and on the number of resident keys,
    XAUTOCLAIM's walk in [Groups] on one more than the pending entries, the
    decimal digits of a 64-bit number on 20, those of a double on 330. The
    estimator's loops in [Hll] stop within 1,076 turns: squaring takes the
    argument of sigma to zero, halving the weight of tau. The
    decoder recurses on the depth the code allows, 32. Where a 64-bit counter
    could wrap after more operations than a store can hold, the theorem says so
    in a hypothesis on the sizes.

    ** Not modelled

    Sockets, threads, files, configuration and processes: the server's and the
    proxy's connection handling, replication, consensus, backup, TLS, the
    operator tools and the test harnesses. RocksDB, Lua and serde_json are
    other people's code; the first is the contract of [Kv], the last an
    argument of the one function that prints a JSON number. The stores of
    Bloom filters and JSON values, and the vector and full-text indexes, are
    left out. A sparse HyperLogLog string cut off inside an opcode, which only
    SET can store, runs in the model as in the code, but the theorems are about
    strings whose opcodes are whole. *)

From stdpp Require Import base list gmap sorting.
From Stdlib Require Import ZArith Lia.
From Stdlib Require Strings.Byte Strings.String.

#[global] Open Scope Z_scope.

(** ** Bytes

    A Rust [u8] in a byte string is a [byte]; [b2z] reads its value and [z2b]
    is the truncating cast [as u8]. A [Vec<u8>] or [&[u8]] is a list. *)

Abbreviation byte := Byte.byte.
Abbreviation bytes := (list Byte.byte).

Definition b2z (b : byte) : Z := Z.of_N (Byte.to_N b).
Definition z2b (z : Z) : byte :=
  match Byte.of_N (Z.to_N (z mod 2 ^ 8)) with Some b => b | None => Byte.x00 end.

#[global] Instance byte_eq_decision : EqDecision byte := Byte.byte_eq_dec.
#[global] Instance byte_countable : Countable byte :=
  inj_countable Byte.to_N Byte.of_N Byte.of_to_N.

(** A byte-string literal, [b"..."]. *)
Definition bstr (s : String.string) : bytes := String.list_byte_of_string s.

Declare Scope flint_scope.
Delimit Scope flint_scope with flint.

(** The length of a byte string, as the [usize as u64] the code computes. *)
Abbreviation len l := (Z.of_nat (length l)).

(** The automation database of the development: closed facts on lengths and
    ranges, used by [auto with flint]. *)
Create HintDb flint.

(** ** Machine integers *)

(** Reduction of a mathematical integer to an unsigned [w]-bit one, which is
    what a release build's arithmetic and [as] casts do. *)
Definition wrap (w x : Z) : Z := x mod 2 ^ w.

(** Two's complement reading of an unsigned [w]-bit word. *)
Definition signed (w x : Z) : Z :=
  let y := wrap w x in if y <? 2 ^ (w - 1) then y else y - 2 ^ w.

Abbreviation u8 x := (wrap 8 x).
Abbreviation u16 x := (wrap 16 x).
Abbreviation u32 x := (wrap 32 x).
Abbreviation u64 x := (wrap 64 x).
Abbreviation i64 x := (signed 64 x).

Definition U64_MAX : Z := 2 ^ 64 - 1.
Definition I64_MAX : Z := 2 ^ 63 - 1.
Definition I64_MIN : Z := - 2 ^ 63.

(** [u64::saturating_sub] (and its narrower twins). *)
Definition saturating_sub (a b : Z) : Z := Z.max 0 (a - b).

(** [u64::saturating_mul]. *)
Definition saturating_mul (a b : Z) : Z := Z.min U64_MAX (a * b).

(** [i64::checked_add]. *)
Definition checked_add_i64 (a b : Z) : option Z :=
  if (I64_MIN <=? a + b) && (a + b <=? I64_MAX) then Some (a + b) else None.

(** [x] is the value of an unsigned [w]-bit word. *)
Definition in_width (w x : Z) : Prop := 0 <= x < 2 ^ w.

(** ** Big-endian words *)

(** [to_be_bytes] of an [8*n]-bit word. *)
Fixpoint be (n : nat) (x : Z) : bytes :=
  match n with
  | O => []
  | S n' => z2b (x / 2 ^ (8 * Z.of_nat n')) :: be n' x
  end.

(** [from_be_bytes]: the bytes of a word, most significant first. *)
Definition of_be (l : bytes) : Z := fold_left (λ a b, a * 2 ^ 8 + b2z b) l 0.

(** [to_le_bytes] and [from_le_bytes]. *)
Definition le_bytes (n : nat) (x : Z) : bytes := rev (be n x).
Definition of_le (l : bytes) : Z := of_be (rev l).

(** ** Slices *)

(** [&l[from..from+n]] where the code has checked the bounds. *)
Definition sub (l : bytes) (from n : nat) : bytes := take n (drop from l).

(** [l.get(from..from+n)]: [None] when the range leaves the slice. *)
Definition get_sub (l : bytes) (from n : nat) : option bytes :=
  if decide (from + n ≤ length l)%nat then Some (sub l from n) else None.

(** [&l[from..]] as [l.get(from..)]. *)
Definition get_from (l : bytes) (from : nat) : option bytes :=
  if decide (from ≤ length l)%nat then Some (drop from l) else None.

(** [copy_from_slice] of [v] over [l[from..from+v.len()]]. *)
Definition patch (l : bytes) (from : nat) (v : bytes) : bytes :=
  take from l ++ v ++ drop (from + length v) l.

(** [strip_prefix]: what follows [p] in [k]. *)
Fixpoint strip_prefix (p k : bytes) : option bytes :=
  match p, k with
  | [], _ => Some k
  | a :: p', b :: k' => if Byte.eqb a b then strip_prefix p' k' else None
  | _ :: _, [] => None
  end.

(** [k.starts_with(p)]. *)
Definition starts_with (k p : bytes) : bool :=
  match strip_prefix p k with Some _ => true | None => false end.

(** ** Byte order: [Ord for [u8]], lexicographic *)

Fixpoint bytes_cmp (a b : bytes) : comparison :=
  match a, b with
  | [], [] => Eq
  | [], _ :: _ => Lt
  | _ :: _, [] => Gt
  | x :: a', y :: b' =>
      match b2z x ?= b2z y with Eq => bytes_cmp a' b' | c => c end
  end.

Definition blt (a b : bytes) : bool :=
  match bytes_cmp a b with Lt => true | _ => false end.
Definition ble (a b : bytes) : bool :=
  match bytes_cmp a b with Gt => false | _ => true end.

(** The order the engine visits rows in. *)
Definition row_le (r s : bytes * bytes) : Prop := ble r.1 s.1 = true.

#[global] Instance row_le_dec : RelDecision row_le.
Proof. intros r s. unfold row_le. apply _. Defined.

(** ** The rows of an ordered store *)

(** A flat key-value store is a finite map; an ordered engine walks it in
    ascending key order. *)
Abbreviation kvmap :=
  (@gmap bytes (@list_eq_dec byte byte_eq_decision)
     (@list_countable byte byte_eq_decision byte_countable) bytes).

(** A set of byte strings. *)
Abbreviation keyset :=
  (@gset bytes (@list_eq_dec byte byte_eq_decision)
     (@list_countable byte byte_eq_decision byte_countable)).

(** Every row, ascending. *)
Definition rows_of (m : kvmap) : list (bytes * bytes) :=
  merge_sort row_le (map_to_list m).

(** The rows whose key starts with [p], ascending: [scan_prefix]. *)
Definition prefix_rows (m : kvmap) (p : bytes) : list (bytes * bytes) :=
  filter (λ r : bytes * bytes, starts_with r.1 p = true) (rows_of m).

(** The rows under [p] strictly after [a] ([a] empty: all of them). *)
Definition rows_from (m : kvmap) (p a : bytes) : list (bytes * bytes) :=
  filter (λ r : bytes * bytes, (match a with [] => true | _ => blt a r.1 end) = true)
    (prefix_rows m p).

(** The rows under [p] strictly before [b], the last first ([b] empty: all). *)
Definition rows_before (m : kvmap) (p b : bytes) : list (bytes * bytes) :=
  filter (λ r : bytes * bytes, (match b with [] => true | _ => blt r.1 b end) = true)
    (rev (prefix_rows m p)).

(** What a store holds under a prefix, keyed by what follows the prefix. *)
Definition sub_map (p : bytes) (m : kvmap) : kvmap :=
  list_to_map
    (omap (λ r : bytes * bytes, (λ f, (f, r.2)) <$> strip_prefix p r.1)
       (map_to_list m)).

(** * Lemmas *)

(** ** Machine integers *)

Lemma wrap_range w x : 0 <= w → 0 <= wrap w x < 2 ^ w.
Proof. intros. apply Z.mod_pos_bound. by apply Z.pow_pos_nonneg. Qed.

Lemma wrap_id w x : in_width w x → wrap w x = x.
Proof. intros [??]. by apply Z.mod_small. Qed.

Lemma wrap_in_width w x : 0 <= w → in_width w (wrap w x).
Proof. apply wrap_range. Qed.

Lemma wrap_add_l w x y : wrap w (wrap w x + y) = wrap w (x + y).
Proof. unfold wrap. apply Zplus_mod_idemp_l. Qed.

Lemma signed_id x : - 2 ^ 63 <= x < 2 ^ 63 → signed 64 x = x.
Proof.
  intros Hx. unfold signed, wrap. change (2 ^ (64 - 1)) with (2 ^ 63).
  destruct (Z.ltb_spec x 0).
  - rewrite <-(Z.mod_add x 1 (2 ^ 64)), Z.mod_small by lia.
    destruct (Z.ltb_spec (x + 1 * 2 ^ 64) (2 ^ 63)); lia.
  - rewrite Z.mod_small by lia. destruct (Z.ltb_spec x (2 ^ 63)); lia.
Qed.

Lemma wrap_wrap w x : wrap w (wrap w x) = wrap w x.
Proof. unfold wrap. by rewrite Zmod_mod. Qed.

#[export] Hint Resolve wrap_in_width : flint.

(** Decides [in_width] facts on numerals and bounds by arithmetic. *)
Ltac width := unfold in_width in *; first [lia | cbn in *; lia].

(** ** Bytes *)

Lemma b2z_range b : 0 <= b2z b < 2 ^ 8.
Proof. unfold b2z. pose proof (Byte.to_N_bounded b). lia. Qed.

Lemma b2z_z2b z : b2z (z2b z) = z mod 2 ^ 8.
Proof.
  unfold b2z, z2b. pose proof (Z.mod_pos_bound z (2 ^ 8) eq_refl).
  destruct (Byte.of_N _) eqn:E.
  - apply Byte.to_of_N in E. rewrite E. lia.
  - apply Byte.of_N_None_iff in E. lia.
Qed.

Lemma b2z_inj a b : b2z a = b2z b → a = b.
Proof.
  unfold b2z. intros E%(inj Z.of_N). apply (f_equal Byte.of_N) in E.
  rewrite !Byte.of_to_N in E. by simplify_eq.
Qed.

Lemma z2b_b2z b : z2b (b2z b) = b.
Proof. apply b2z_inj. rewrite b2z_z2b. apply Z.mod_small, b2z_range. Qed.

Lemma b2z_z2b_id z : in_width 8 z → b2z (z2b z) = z.
Proof. intros. rewrite b2z_z2b. by apply Z.mod_small. Qed.

Lemma z2b_eq x y : x mod 2 ^ 8 = y mod 2 ^ 8 → z2b x = z2b y.
Proof. intros E. apply b2z_inj. by rewrite !b2z_z2b. Qed.

(** ** Big-endian words *)

Lemma length_be n x : length (be n x) = n.
Proof. induction n; simpl; lia. Qed.

Lemma fold_be_acc l a :
  fold_left (λ a b, a * 2 ^ 8 + b2z b) l a =
  a * 2 ^ (8 * len l) + fold_left (λ a b, a * 2 ^ 8 + b2z b) l 0.
Proof.
  revert a. induction l as [|b l IH]; intros a.
  { simpl. rewrite Z.mul_1_r. lia. }
  cbn [fold_left length]. rewrite IH, (IH (0 * 2 ^ 8 + b2z b)).
  replace (8 * Z.of_nat (S (length l))) with (8 * len l + 8) by lia.
  rewrite Z.pow_add_r by lia. ring.
Qed.

Lemma of_be_cons b l : of_be (b :: l) = b2z b * 2 ^ (8 * len l) + of_be l.
Proof. unfold of_be at 1. cbn [fold_left]. rewrite fold_be_acc. unfold of_be. lia. Qed.

Lemma of_be_be n x : of_be (be n x) = x mod 2 ^ (8 * Z.of_nat n).
Proof.
  induction n as [|n IH]; [by rewrite Z.mod_1_r|].
  cbn [be]. rewrite of_be_cons, IH, length_be, b2z_z2b.
  replace (8 * Z.of_nat (S n)) with (8 * Z.of_nat n + 8) by lia.
  rewrite Z.pow_add_r, Z.rem_mul_r by (try apply Z.pow_nonzero; lia). lia.
Qed.

Lemma of_be_id n x : in_width (8 * Z.of_nat n) x → of_be (be n x) = x.
Proof. intros. rewrite of_be_be. by apply Z.mod_small. Qed.

Lemma be_inj n x y :
  in_width (8 * Z.of_nat n) x → in_width (8 * Z.of_nat n) y →
  be n x = be n y → x = y.
Proof. intros Hx Hy E. rewrite <-(of_be_id n x), <-(of_be_id n y) by done. by rewrite E. Qed.

Lemma of_le_id n x : in_width (8 * Z.of_nat n) x → of_le (le_bytes n x) = x.
Proof. unfold of_le, le_bytes. rewrite rev_involutive. apply of_be_id. Qed.

Lemma length_le_bytes n x : length (le_bytes n x) = n.
Proof. unfold le_bytes. by rewrite length_rev, length_be. Qed.

(** ** Slices *)

Lemma take_app_exact {A} n (l k : list A) : length l = n → take n (l ++ k) = l.
Proof. intros <-. by rewrite take_app_length. Qed.

Lemma drop_app_exact {A} n (l k : list A) : length l = n → drop n (l ++ k) = k.
Proof. intros <-. by rewrite drop_app_length. Qed.

Lemma sub_app a b c n k :
  length a = n → length b = k → sub (a ++ b ++ c) n k = b.
Proof. intros <- <-. unfold sub. by rewrite drop_app_length, take_app_length. Qed.

Lemma get_sub_app a b c n k :
  length a = n → length b = k → get_sub (a ++ b ++ c) n k = Some b.
Proof.
  intros Ha Hb. unfold get_sub. rewrite (sub_app _ _ _ _ _ Ha Hb).
  rewrite decide_True by (rewrite !length_app; lia). done.
Qed.

(** A field of a concatenation, located by what precedes and follows it. *)
Lemma get_sub_at l a b c n k :
  l = a ++ b ++ c → length a = n → length b = k → get_sub l n k = Some b.
Proof. intros ->. apply get_sub_app. Qed.

Lemma get_sub_app0 b c k : length b = k → get_sub (b ++ c) 0 k = Some b.
Proof. intros. apply (get_sub_app [] b c); done. Qed.

Lemma get_from_app a b n : length a = n → get_from (a ++ b) n = Some b.
Proof.
  intros <-. unfold get_from. rewrite drop_app_length, length_app.
  by rewrite decide_True by lia.
Qed.

Lemma length_patch l n v : (n + length v ≤ length l)%nat → length (patch l n v) = length l.
Proof.
  intros. unfold patch. rewrite !length_app, length_take, length_drop. lia.
Qed.

Lemma patch_app a b c n v :
  length a = n → length v = length b → patch (a ++ b ++ c) n v = a ++ v ++ c.
Proof.
  intros <- Hv. unfold patch. rewrite take_app_length. do 2 f_equal.
  rewrite <-drop_drop, drop_app_length, Hv. by rewrite drop_app_length.
Qed.

(** ** Prefixes *)

Lemma strip_prefix_Some p k r : strip_prefix p k = Some r ↔ k = p ++ r.
Proof.
  revert k. induction p as [|a p IH]; intros k; simpl; [naive_solver|].
  destruct k as [|b k]; [naive_solver|].
  destruct (Byte.eqb a b) eqn:E.
  2:{ apply Byte.eqb_false in E. naive_solver. }
  apply Byte.byte_dec_bl in E as ->.
  rewrite IH. naive_solver.
Qed.

Lemma strip_prefix_app p r : strip_prefix p (p ++ r) = Some r.
Proof. by apply strip_prefix_Some. Qed.

Lemma strip_prefix_None p k : strip_prefix p k = None ↔ ∀ r, k ≠ p ++ r.
Proof.
  split.
  - intros E r ->. by rewrite strip_prefix_app in E.
  - intros H. destruct (strip_prefix p k) eqn:E; [|done].
    apply strip_prefix_Some in E. naive_solver.
Qed.

Lemma starts_with_true k p : starts_with k p = true ↔ ∃ r, k = p ++ r.
Proof.
  unfold starts_with. destruct (strip_prefix p k) eqn:E.
  - apply strip_prefix_Some in E. naive_solver.
  - rewrite strip_prefix_None in E. naive_solver.
Qed.

Lemma starts_with_app p r : starts_with (p ++ r) p = true.
Proof. apply starts_with_true. eauto. Qed.

#[global] Instance app_bytes_inj (p : bytes) : Inj (=) (=) (app p).
Proof. intros a b. apply app_inv_head. Qed.

(** Two strings whose fronts have one length are equal piecewise. *)
Lemma app_inj_length {A} (a b c d : list A) :
  length a = length c → a ++ b = c ++ d → a = c ∧ b = d.
Proof. intros. by apply app_inj_1. Qed.

(** ** Byte order *)

Lemma bytes_cmp_refl a : bytes_cmp a a = Eq.
Proof. induction a; simpl; [done|]. by rewrite Z.compare_refl. Qed.

Lemma bytes_cmp_eq a b : bytes_cmp a b = Eq ↔ a = b.
Proof.
  split; [|intros ->; apply bytes_cmp_refl].
  revert b. induction a as [|x a IH]; intros [|y b]; simpl; try done.
  destruct (Z.compare_spec (b2z x) (b2z y)) as [E| |]; try done.
  apply b2z_inj in E. intros. f_equal; auto.
Qed.

Lemma bytes_cmp_opp a b : bytes_cmp b a = CompOpp (bytes_cmp a b).
Proof.
  revert b. induction a as [|x a IH]; intros [|y b]; simpl; try done.
  rewrite (Z.compare_antisym (b2z x) (b2z y)). destruct (b2z x ?= b2z y) eqn:E; simpl; auto.
Qed.

Lemma bytes_cmp_lt_trans a b c :
  bytes_cmp a b = Lt → bytes_cmp b c = Lt → bytes_cmp a c = Lt.
Proof.
  revert b c. induction a as [|x a IH]; intros [|y b] [|z c]; simpl; try done.
  destruct (Z.compare_spec (b2z x) (b2z y)), (Z.compare_spec (b2z y) (b2z z)); try done; intros;
    destruct (Z.compare_spec (b2z x) (b2z z)); try lia; try done; eauto.
Qed.

Lemma bytes_cmp_app p a b : bytes_cmp (p ++ a) (p ++ b) = bytes_cmp a b.
Proof. induction p; simpl; [done|]. by rewrite Z.compare_refl. Qed.

Lemma blt_true a b : blt a b = true ↔ bytes_cmp a b = Lt.
Proof. unfold blt. destruct (bytes_cmp a b); naive_solver. Qed.

Lemma ble_true a b : ble a b = true ↔ bytes_cmp a b ≠ Gt.
Proof. unfold ble. destruct (bytes_cmp a b); naive_solver. Qed.

Lemma ble_lt_or_eq a b : ble a b = true ↔ blt a b = true ∨ a = b.
Proof.
  rewrite ble_true, blt_true, <-bytes_cmp_eq. destruct (bytes_cmp a b); naive_solver.
Qed.

Lemma blt_irrefl a : blt a a = false.
Proof. unfold blt. by rewrite bytes_cmp_refl. Qed.

Lemma blt_trans a b c : blt a b = true → blt b c = true → blt a c = true.
Proof. rewrite !blt_true. apply bytes_cmp_lt_trans. Qed.

Lemma ble_trans a b c : ble a b = true → ble b c = true → ble a c = true.
Proof.
  rewrite !ble_lt_or_eq. intros [?| ->] [?| ->]; eauto using blt_trans.
Qed.

Lemma ble_blt a b : ble a b = negb (blt b a).
Proof.
  unfold ble, blt. rewrite (bytes_cmp_opp a b). by destruct (bytes_cmp a b).
Qed.

Lemma blt_total a b : a ≠ b → blt a b = false → blt b a = true.
Proof.
  rewrite <-bytes_cmp_eq. unfold blt. rewrite (bytes_cmp_opp a b).
  by destruct (bytes_cmp a b).
Qed.

Lemma ble_total a b : ble a b = true ∨ ble b a = true.
Proof. unfold ble. rewrite (bytes_cmp_opp a b). destruct (bytes_cmp a b); auto. Qed.

Lemma ble_antisym a b : ble a b = true → ble b a = true → a = b.
Proof.
  rewrite !ble_true, (bytes_cmp_opp a b), <-bytes_cmp_eq.
  by destruct (bytes_cmp a b).
Qed.

Lemma blt_app p a b : blt (p ++ a) (p ++ b) = blt a b.
Proof. unfold blt. by rewrite bytes_cmp_app. Qed.

Lemma ble_app p a b : ble (p ++ a) (p ++ b) = ble a b.
Proof. unfold ble. by rewrite bytes_cmp_app. Qed.

#[global] Instance row_le_trans : Transitive row_le.
Proof. intros ???. unfold row_le. apply ble_trans. Qed.

#[global] Instance row_le_total : Total row_le.
Proof. intros r s. apply ble_total. Qed.

(** A word's bytes are those of its value at that width. *)
Lemma be_mod_le n k z : (k ≤ n)%nat → be k z = be k (z mod 2 ^ (8 * Z.of_nat n)).
Proof.
  induction k as [|k IHk]; intros Hk; [done|]. cbn [be]. rewrite <-IHk by lia. f_equal.
  apply z2b_eq.
  rewrite <-!Z.land_ones, <-!Z.shiftr_div_pow2 by lia.
  apply Z.bits_inj'. intros i Hi. rewrite !Z.land_spec.
  destruct (Z.testbit (Z.ones 8) i) eqn:E; [|by rewrite !andb_false_r].
  rewrite !andb_true_r, !Z.shiftr_spec, Z.land_spec by lia.
  rewrite Z.testbit_ones in E by lia.
  rewrite Z.testbit_ones_nonneg by lia.
  replace (i + 8 * Z.of_nat k <? 8 * Z.of_nat n) with true by lia.
  by rewrite andb_true_r.
Qed.

Lemma be_mod n z : be n z = be n (z mod 2 ^ (8 * Z.of_nat n)).
Proof. by apply be_mod_le. Qed.

(** Big-endian words of one width sort as their values do. *)
Lemma bytes_cmp_be n x y r s :
  in_width (8 * Z.of_nat n) x → in_width (8 * Z.of_nat n) y →
  bytes_cmp (be n x ++ r) (be n y ++ s) =
  match x ?= y with Eq => bytes_cmp r s | c => c end.
Proof.
  revert x y. induction n as [|n IH]; intros x y Hx Hy.
  { unfold in_width in *. replace y with x by (cbn in *; lia).
    by rewrite Z.compare_refl. }
  cbn [be app bytes_cmp]. rewrite !b2z_z2b.
  assert (Hm : 0 < 2 ^ (8 * Z.of_nat n)) by (apply Z.pow_pos_nonneg; lia).
  assert (H8 : 2 ^ (8 * Z.of_nat (S n)) = 2 ^ 8 * 2 ^ (8 * Z.of_nat n)).
  { rewrite <-Z.pow_add_r by lia. f_equal. lia. }
  unfold in_width in *. rewrite H8 in *. set (M := 2 ^ (8 * Z.of_nat n)) in *.
  assert (Hq : ∀ z, 0 <= z < 2 ^ 8 * M → (z / M) mod 2 ^ 8 = z / M).
  { intros z Hz. apply Z.mod_small. split; [apply Z.div_pos; lia|].
    apply Z.div_lt_upper_bound; lia. }
  rewrite !Hq by done.
  rewrite (be_mod n x), (be_mod n y). fold M.
  rewrite IH by (apply Z.mod_pos_bound; lia).
  pose proof (Z.div_mod x M). pose proof (Z.div_mod y M).
  pose proof (Z.mod_pos_bound x M Hm). pose proof (Z.mod_pos_bound y M Hm).
  destruct (Z.compare_spec (x / M) (y / M)) as [E|E|E].
  - rewrite E in *.
    destruct (Z.compare_spec (x mod M) (y mod M)), (Z.compare_spec x y); try done; lia.
  - destruct (Z.compare_spec x y); try done; nia.
  - destruct (Z.compare_spec x y); try done; nia.
Qed.

Lemma blt_be n x y :
  in_width (8 * Z.of_nat n) x → in_width (8 * Z.of_nat n) y →
  blt (be n x) (be n y) = (x <? y).
Proof.
  intros. pose proof (bytes_cmp_be n x y [] []) as E. rewrite !app_nil_r in E.
  unfold blt. rewrite E by done. unfold Z.ltb. by destruct (x ?= y).
Qed.

Lemma filter_none {A} (P : A → Prop) `{∀ x, Decision (P x)} l :
  (∀ x, x ∈ l → ¬ P x) → filter P l = [].
Proof.
  induction l as [|x l IH]; intros Hl; [done|].
  rewrite filter_cons_False by (apply Hl; by constructor).
  apply IH. intros. apply Hl. by constructor.
Qed.

Lemma list_filter_iff' {A} (P Q : A → Prop) `{∀ x, Decision (P x)} `{∀ x, Decision (Q x)} (l : list A) :
  (∀ x, x ∈ l → P x ↔ Q x) → filter P l = filter Q l.
Proof.
  induction l as [|x l IH]; intros Hl; [done|].
  assert (Hx : P x ↔ Q x) by (apply Hl; by constructor).
  assert (E : filter P l = filter Q l) by (apply IH; intros; apply Hl; by constructor).
  destruct (decide (P x)).
  - rewrite !filter_cons_True by tauto. by rewrite E.
  - rewrite !filter_cons_False by tauto. done.
Qed.

Lemma list_filter_true {A} (P : A → Prop) `{∀ x, Decision (P x)} (l : list A) :
  (∀ x, x ∈ l → P x) → filter P l = l.
Proof.
  induction l as [|x l IH]; intros Hl; [done|].
  rewrite filter_cons_True by (apply Hl; by constructor).
  f_equal. apply IH. intros. apply Hl. by constructor.
Qed.

(** ** Rows *)

(** Strictly ascending keys. *)
Definition ascending (l : list (bytes * bytes)) : Prop :=
  StronglySorted (λ r s : bytes * bytes, blt r.1 s.1 = true) l.

Lemma elem_of_rows_of m k v : (k, v) ∈ rows_of m ↔ m !! k = Some v.
Proof. unfold rows_of. by rewrite merge_sort_Permutation, elem_of_map_to_list. Qed.

Lemma NoDup_rows_of m : NoDup (rows_of m).*1.
Proof. unfold rows_of. rewrite merge_sort_Permutation. apply NoDup_fst_map_to_list. Qed.

Lemma length_rows_of m : length (rows_of m) = size m.
Proof. unfold rows_of. by rewrite merge_sort_Permutation, length_map_to_list. Qed.

Lemma StronglySorted_impl_in {A} (R S : relation A) l :
  (∀ x y, x ∈ l → y ∈ l → R x y → S x y) → StronglySorted R l → StronglySorted S l.
Proof.
  intros H HR. induction HR as [|x l HR IH Hx]; constructor.
  - apply IH. intros. apply H; [by constructor..|done].
  - apply Forall_forall. intros y Hy. rewrite Forall_forall in Hx.
    apply H; [by constructor..|auto].
Qed.

(** Distinct keys in non-descending order ascend strictly. *)
Lemma ascending_nodup (l : list (bytes * bytes)) :
  StronglySorted row_le l → NoDup l.*1 → ascending l.
Proof.
  intros H. induction H as [|r l H IH Hr]; intros Hnd; constructor.
  - apply IH. by apply NoDup_cons in Hnd as [??].
  - apply NoDup_cons in Hnd as [Hn _]. rewrite Forall_forall in Hr |- *.
    intros s Hs. specialize (Hr s Hs). apply ble_lt_or_eq in Hr as [?|E]; [done|].
    destruct Hn. rewrite E. apply list_elem_of_fmap. eauto.
Qed.

Lemma ascending_rows_of m : ascending (rows_of m).
Proof.
  apply ascending_nodup; [|apply NoDup_rows_of].
  apply StronglySorted_merge_sort; apply _.
Qed.

Lemma ascending_unique l1 l2 :
  ascending l1 → ascending l2 → (∀ r, r ∈ l1 ↔ r ∈ l2) → l1 = l2.
Proof.
  intros H1 H2 E. assert (Hnd : ∀ l, ascending l → NoDup l).
  { intros l H. induction H as [|r l H IH Hr]; constructor; [|done].
    intros Hin. rewrite Forall_forall in Hr. specialize (Hr r Hin).
    by rewrite blt_irrefl in Hr. }
  apply (StronglySorted_unique_strong (λ r s : bytes * bytes, blt r.1 s.1 = true)); auto.
  - intros x y _ _ Hxy Hyx. pose proof (blt_trans _ _ _ Hxy Hyx) as H.
    by rewrite blt_irrefl in H.
  - apply NoDup_Permutation; auto.
Qed.

(** A strictly ascending list of a map's rows is the map's rows. *)
Lemma ascending_keys l : ascending l → StronglySorted (λ x y, blt x y = true) l.*1.
Proof.
  induction 1 as [|r l H IH Hr]; constructor; [done|]. apply Forall_fmap. done.
Qed.

Lemma rows_of_unique m l :
  ascending l → (∀ k v, (k, v) ∈ l ↔ m !! k = Some v) → l = rows_of m.
Proof.
  intros H E. apply ascending_unique; [done|apply ascending_rows_of|].
  intros [k v]. by rewrite E, elem_of_rows_of.
Qed.

Lemma ascending_filter (P : bytes * bytes → Prop) `{∀ x, Decision (P x)} l :
  ascending l → ascending (filter P l).
Proof.
  intros H0. induction H0 as [|r l H0 IH Hr]; [constructor|].
  rewrite filter_cons. case_decide; [|done]. constructor; [done|].
  rewrite Forall_forall in Hr |- *. intros s Hs. apply list_elem_of_filter in Hs as [_ ?]. auto.
Qed.

Lemma ascending_app l1 l2 :
  ascending (l1 ++ l2) ↔
  ascending l1 ∧ ascending l2 ∧ ∀ r s, r ∈ l1 → s ∈ l2 → blt r.1 s.1 = true.
Proof. unfold ascending. rewrite StronglySorted_app. naive_solver. Qed.

Lemma rows_of_empty : rows_of ∅ = [].
Proof. unfold rows_of. by rewrite map_to_list_empty. Qed.

(** ** The contents under a prefix *)

Lemma lookup_sub_map p m f : sub_map p m !! f = m !! (p ++ f).
Proof.
  apply option_eq. intros v. unfold sub_map.
  set (l := omap _ _).
  assert (Hl : ∀ g w, (g, w) ∈ l ↔ m !! (p ++ g) = Some w).
  { intros g w. unfold l. rewrite list_elem_of_omap. split.
    - intros ([k u] & Hin & E). apply elem_of_map_to_list in Hin. simpl in E.
      destruct (strip_prefix p k) as [f'|] eqn:Es; [|done]. simpl in E. simplify_eq.
      by apply strip_prefix_Some in Es as ->.
    - intros Hg. exists (p ++ g, w). rewrite elem_of_map_to_list. split; [done|].
      simpl. by rewrite strip_prefix_app. }
  assert (Hnd : NoDup l.*1).
  { assert (∀ L : list (bytes * bytes), NoDup L.*1 →
      NoDup (omap (λ r : bytes * bytes, (λ f, (f, r.2)) <$> strip_prefix p r.1) L).*1) as G.
    { induction L as [|[k u] L IH]; [done|]. simpl. intros Hd.
      apply NoDup_cons in Hd as [Hn Hd].
      destruct (strip_prefix p k) as [g|] eqn:Es; simpl; [|auto].
      constructor; [|auto]. intros Hin. apply Hn.
      apply list_elem_of_fmap in Hin as ([g' u'] & -> & Hin). simpl in *.
      apply list_elem_of_omap in Hin as ([k' w'] & Hin & E). simpl in E.
      destruct (strip_prefix p k') eqn:Es'; [|done]. simpl in E. simplify_eq.
      apply strip_prefix_Some in Es, Es'. subst.
      apply list_elem_of_fmap. by exists (p ++ g', u'). }
    apply G, NoDup_fst_map_to_list. }
  rewrite <-elem_of_list_to_map by done. apply Hl.
Qed.

Lemma sub_map_insert p m f v : sub_map p (<[p ++ f := v]> m) = <[f := v]> (sub_map p m).
Proof.
  apply map_eq. intros g. rewrite lookup_sub_map.
  destruct (decide (f = g)) as [->|Hn].
  - by rewrite !lookup_insert_eq.
  - rewrite !lookup_insert_ne by (try intros ?%(inj _); done). by rewrite lookup_sub_map.
Qed.

Lemma sub_map_delete p m f : sub_map p (delete (p ++ f) m) = delete f (sub_map p m).
Proof.
  apply map_eq. intros g. rewrite lookup_sub_map.
  destruct (decide (f = g)) as [->|Hn].
  - by rewrite !lookup_delete_eq.
  - rewrite !lookup_delete_ne by (try intros ?%(inj _); done). by rewrite lookup_sub_map.
Qed.

Lemma sub_map_insert_ne p m k v :
  strip_prefix p k = None → sub_map p (<[k := v]> m) = sub_map p m.
Proof.
  rewrite strip_prefix_None. intros Hk. apply map_eq. intros g.
  rewrite !lookup_sub_map. by rewrite lookup_insert_ne by naive_solver.
Qed.

Lemma sub_map_delete_ne p m k :
  strip_prefix p k = None → sub_map p (delete k m) = sub_map p m.
Proof.
  rewrite strip_prefix_None. intros Hk. apply map_eq. intros g.
  rewrite !lookup_sub_map. by rewrite lookup_delete_ne by naive_solver.
Qed.

(** The rows under a prefix are the rows of its contents, re-prefixed. *)
Lemma prefix_rows_sub_map m p :
  prefix_rows m p = prod_map (app p) id <$> rows_of (sub_map p m).
Proof.
  apply ascending_unique.
  - unfold prefix_rows. apply ascending_filter, ascending_rows_of.
  - unfold ascending. pose proof (ascending_rows_of (sub_map p m)) as H.
    unfold ascending in H. induction H as [|r l H IH Hr]; [constructor|].
    simpl. constructor; [done|]. apply Forall_fmap.
    eapply Forall_impl; [done|]. intros s Hs. simpl. by rewrite blt_app.
  - intros [k v]. unfold prefix_rows. rewrite list_elem_of_filter, elem_of_rows_of.
    rewrite list_elem_of_fmap. simpl. rewrite starts_with_true. split.
    + intros [[r ->] Hv]. exists (r, v). simpl. split; [done|].
      by rewrite elem_of_rows_of, lookup_sub_map.
    + intros ([g w] & E & Hin). simpl in E. simplify_eq.
      rewrite elem_of_rows_of, lookup_sub_map in Hin. eauto.
Qed.

(** ** Reading fields of a concatenation *)

Lemma sub_skip a l n k : (length a ≤ n)%nat → sub (a ++ l) n k = sub l (n - length a) k.
Proof. intros. unfold sub. by rewrite drop_app_ge. Qed.

Lemma sub_here b c k : length b = k → sub (b ++ c) 0 k = b.
Proof. intros <-. unfold sub. by rewrite drop_0, take_app_length. Qed.

Lemma sub_whole b k : length b = k → sub b 0 k = b.
Proof. intros <-. unfold sub. rewrite drop_0. by apply take_ge. Qed.

Lemma get_sub_skip a l n k :
  (length a ≤ n)%nat → get_sub (a ++ l) n k = get_sub l (n - length a) k.
Proof.
  intros. unfold get_sub. rewrite sub_skip by done. rewrite length_app.
  do 2 case_decide; try done; lia.
Qed.

Lemma get_sub_here b c k : length b = k → get_sub (b ++ c) 0 k = Some b.
Proof. apply get_sub_app0. Qed.

Lemma get_sub_whole b k : length b = k → get_sub b 0 k = Some b.
Proof. intros H. unfold get_sub. rewrite sub_whole by done. by rewrite decide_True by lia. Qed.

Lemma drop_skip {A} (a l : list A) n :
  (length a ≤ n)%nat → drop n (a ++ l) = drop (n - length a) l.
Proof. apply drop_app_ge. Qed.

Lemma lookup_skip {A} (a l : list A) n :
  (length a ≤ n)%nat → (a ++ l) !! n = l !! (n - length a)%nat.
Proof. apply lookup_app_r. Qed.

Lemma sub_cons x l n k : sub (x :: l) (S n) k = sub l n k.
Proof. done. Qed.

Lemma lookup_cons_S {A} (x : A) l n : (x :: l) !! S n = l !! n.
Proof. done. Qed.

Lemma lookup_cons_0 {A} (x : A) l : (x :: l) !! 0%nat = Some x.
Proof. done. Qed.

Lemma get_sub_cons x l n k : get_sub (x :: l) (S n) k = get_sub l n k.
Proof. unfold get_sub. rewrite sub_cons. cbn [length]. do 2 case_decide; done || lia. Qed.

(** Side conditions of the rules above, on words of known width. *)
Ltac lengths :=
  rewrite ?length_app, ?length_be, ?length_le_bytes; cbn [length]; lia.

(** Evaluates every field read off a concatenation of fields. *)
Ltac slices :=
  repeat first
    [ rewrite sub_here by lengths
    | rewrite get_sub_here by lengths
    | rewrite sub_whole by lengths
    | rewrite get_sub_whole by lengths
    | rewrite sub_cons
    | rewrite get_sub_cons
    | rewrite sub_skip by lengths
    | rewrite get_sub_skip by lengths
    | rewrite drop_skip by lengths
    | rewrite lookup_cons_S
    | rewrite lookup_cons_0
    | rewrite lookup_skip by lengths
    | progress rewrite ?length_be, ?length_le_bytes
    | progress cbn [length Nat.sub Nat.add] ].

(** ** Closed facts *)

(** Discharges the hypotheses of a theorem at a concrete input: conjunctions
    of equations, comparisons and list predicates that evaluate. *)
Ltac closed :=
  repeat match goal with
  | |- Forall _ _ => first [apply Forall_nil_2 | apply Forall_cons_2]
  | |- ?G => match eval hnf in G with _ ∧ _ => split end
  end;
  match goal with
  | |- _ = _ => vm_compute; reflexivity
  | |- (_ ≤ _)%nat => vm_compute; lia
  | |- (_ < _)%nat => vm_compute; lia
  | |- _ => first [vm_compute; discriminate | vm_compute; reflexivity | lia]
  end.

(** ** Hash maps

    [HashMap] and [HashSet] iterate in an order the program cannot know. The
    code that iterates one is modelled over any such order. *)

Class HashIter := {
  hash_iter : ∀ {V}, gmap bytes V → list (bytes * V);
  hash_iter_perm : ∀ {V} (m : gmap bytes V), hash_iter m ≡ₚ map_to_list m
}.

Definition canonical_iter : HashIter :=
  {| hash_iter V m := map_to_list m; hash_iter_perm V m := reflexivity _ |}.

Lemma NoDup_hash_iter `{HashIter} {V} (m : gmap bytes V) : NoDup (hash_iter m).*1.
Proof. rewrite hash_iter_perm. apply NoDup_fst_map_to_list. Qed.

Lemma list_to_map_hash_iter `{HashIter} {V} (m : gmap bytes V) : list_to_map (hash_iter m) = m.
Proof.
  rewrite <-(list_to_map_to_list m) at 2. apply list_to_map_proper; [apply NoDup_hash_iter|].
  apply hash_iter_perm.
Qed.
