(* ===== verification/Encoding.v ===== *)
(** * The key envelope and the metadata rows

    Models [crates/flint-storage/src/encoding.rs]: the column-family tags and
    value types, the row keys ([envelope], [subkey_envelope],
    [zscore_envelope] and their parsers), the metadata rows of every type with
    their encoders and decoders, and the order-preserving encodings of list
    indexes and scores.

    A row is a byte string. A Rust slice access that would panic is an
    [option] here, [None] being the panic; the stores turn it into one. A
    score is the 64 bits of its double. *)

From stdpp Require Import base list gmap strings sorting.
From Stdlib Require Import ZArith Lia.
From Stdlib Require Strings.Byte.
From S2P Require Import Prelude.

(** ** Tags *)

Inductive Cf := Metadata | Subkey | ZScore.

(** [cf as u8]: ['M'], ['S'], ['Z']. *)
Definition cf_byte (cf : Cf) : byte :=
  match cf with Metadata => Byte.x4d | Subkey => Byte.x53 | ZScore => Byte.x5a end.

Inductive ValueType :=
| TString | THash | TSet | TZSet | TList | TJson | TBloom | TStream
| TChunkedString.

#[global] Instance ValueType_eq_dec : EqDecision ValueType.
Proof. solve_decision. Defined.

(** [t as u8]. *)
Definition type_byte (t : ValueType) : Z :=
  match t with
  | TString => 0 | THash => 1 | TSet => 2 | TZSet => 3 | TList => 4
  | TJson => 5 | TBloom => 6 | TStream => 7 | TChunkedString => 8
  end.

Definition ValueType_ALL : list ValueType :=
  [TString; THash; TSet; TZSet; TList; TJson; TBloom; TStream; TChunkedString].

Definition from_flags (flags : Z) : option ValueType :=
  match Z.land flags 15 with
  | 0 => Some TString
  | 1 => Some THash
  | 2 => Some TSet
  | 3 => Some TZSet
  | 4 => Some TList
  | 5 => Some TJson
  | 6 => Some TBloom
  | 7 => Some TStream
  | 8 => Some TChunkedString
  | _ => None
  end.

Definition type_name (t : ValueType) : string :=
  match t with
  | TString => "string"
  | THash => "hash"
  | TSet => "set"
  | TZSet => "zset"
  | TList => "list"
  | TJson => "ReJSON-RL"
  | TBloom => "MBbloom--"
  | TStream => "stream"
  | TChunkedString => "string"
  end.

Definition ENCODING_V1 : Z := 0.
Definition ENCODING_V2 : Z := 1.
Definition HEADER_LEN : nat := 9.

Definition encoding_of (flags : Z) : Z := Z.land (Z.shiftr flags 4) 3.

Definition make_flags (t : ValueType) (encoding : Z) : Z :=
  Z.lor (type_byte t) (u8 (Z.shiftl encoding 4)).

Definition head_len (flags : Z) : nat :=
  if encoding_of flags =? ENCODING_V2 then (HEADER_LEN + 8)%nat else HEADER_LEN.

(** The write stamp of a row; 0 for a v1 row or a short one. *)
Definition written_ms_of (row : bytes) : Z :=
  match row with
  | f :: _ =>
      if encoding_of (b2z f) =? ENCODING_V2
      then match get_sub row HEADER_LEN 8 with Some b => of_be b | None => 0 end
      else 0
  | [] => 0
  end.

(** ** Envelopes *)

Definition envelope (cf : Cf) (ns : bytes) (slot : Z) (user_key : bytes) : bytes :=
  [cf_byte cf] ++ [z2b (len ns)] ++ ns ++ be 2 slot ++ user_key.

Definition slot_prefix (cf : Cf) (ns : bytes) (slot : Z) : bytes :=
  envelope cf ns slot [].

(** What [subkey_prefix] and [zscore_prefix] build once their assertion on
    the key's length has passed. *)
Definition framed_prefix (cf : Cf) (ns : bytes) (slot : Z) (user_key : bytes)
    (version : Z) : bytes :=
  [cf_byte cf] ++ [z2b (len ns)] ++ ns ++ be 2 slot ++
  be 2 (u16 (len user_key)) ++ user_key ++ be 8 version.

(** [None]: the hard assertion on the key's length frame. *)
Definition subkey_prefix (ns : bytes) (slot : Z) (user_key : bytes) (version : Z)
    : option bytes :=
  if len user_key <=? 65535
  then Some (framed_prefix Subkey ns slot user_key version) else None.

Definition subkey_envelope (ns : bytes) (slot : Z) (user_key : bytes) (version : Z)
    (field : bytes) : option bytes :=
  k ← subkey_prefix ns slot user_key version; Some (k ++ field).

Definition zscore_prefix (ns : bytes) (slot : Z) (user_key : bytes) (version : Z)
    : option bytes :=
  if len user_key <=? 65535
  then Some (framed_prefix ZScore ns slot user_key version) else None.

(** Order-preserving encoding of the 64 bits of a double. *)
Definition encode_score (bits : Z) : Z :=
  if Z.testbit bits 63 then u64 (Z.lnot bits) else Z.lor bits (2 ^ 63).

Definition decode_score (e : Z) : Z :=
  if Z.testbit e 63 then Z.land e (u64 (Z.lnot (2 ^ 63))) else u64 (Z.lnot e).

Definition zscore_envelope (ns : bytes) (slot : Z) (user_key : bytes) (version : Z)
    (score : Z) (member : bytes) : option bytes :=
  k ← zscore_prefix ns slot user_key version;
  Some (k ++ be 8 (encode_score score) ++ member).

Definition is_envelope_tag (cf : byte) : bool :=
  Byte.eqb cf (cf_byte Metadata) || Byte.eqb cf (cf_byte Subkey) ||
  Byte.eqb cf (cf_byte ZScore).

Definition ns_of_envelope (k : bytes) : option bytes :=
  cf ← head k;
  if negb (is_envelope_tag cf) then None else
  ns_len ← k !! 1%nat;
  get_sub k 2 (Z.to_nat (b2z ns_len)).

(** (ns, slot, user_key, version) of a subkey or score row. *)
Definition parse_subkey_envelope (k : bytes) : option (bytes * Z * bytes * Z) :=
  match k with
  | tag :: nl :: _ =>
      if Byte.eqb tag (cf_byte Subkey) || Byte.eqb tag (cf_byte ZScore) then
        let ns_len := Z.to_nat (b2z nl) in
        ns ← get_sub k 2 ns_len;
        let off := (2 + ns_len)%nat in
        slot ← of_be <$> get_sub k off 2;
        key_len ← Z.to_nat ∘ of_be <$> get_sub k (off + 2) 2;
        user_key ← get_sub k (off + 4) key_len;
        version ← of_be <$> get_sub k (off + 4 + key_len) 8;
        Some (ns, slot, user_key, version)
      else None
  | _ => None
  end.

(** ** The common header *)

Record MetaHeader := mkMetaHeader { h_flags : Z; h_expire_ms : Z }.

Definition MetaHeader_decode (row : bytes) : option MetaHeader :=
  match row with
  | f :: _ =>
      if decide (length row < HEADER_LEN)%nat then None
      else Some (mkMetaHeader (b2z f) (of_be (sub row 1 8)))
  | [] => None
  end.

Definition MetaHeader_encode (h : MetaHeader) : bytes :=
  [z2b (h_flags h)] ++ be 8 (h_expire_ms h).

(** [row[1..9].copy_from_slice(..)]. *)
Definition write_expire (row : bytes) (expire_ms : Z) : option bytes :=
  if decide (HEADER_LEN ≤ length row)%nat
  then Some (patch row 1 (be 8 expire_ms)) else None.

Definition expired_at (expire_ms now_ms : Z) : bool :=
  negb (expire_ms =? 0) && (expire_ms <=? now_ms).

Definition MetaHeader_is_expired (h : MetaHeader) (now_ms : Z) : bool :=
  expired_at (h_expire_ms h) now_ms.

Definition value_type (h : MetaHeader) : option ValueType := from_flags (h_flags h).

(** ** Collections *)

Record ComplexMeta := mkComplexMeta {
  c_header : MetaHeader;
  c_written_ms : Z;
  c_version : Z;
  c_size : Z;
  c_bytes : Z
}.

Definition COMPLEX_TAIL_LEN : nat := 20.

Definition ComplexMeta_new (t : ValueType) (version : Z) : ComplexMeta :=
  mkComplexMeta (mkMetaHeader (make_flags t ENCODING_V2) 0)
    (Z.shiftr version 20) version 0 0.

(** The flags [touch] and [encode] write: the type kept, at encoding v2. *)
Definition v2_flags (flags : Z) : Z :=
  make_flags (default THash (from_flags flags)) ENCODING_V2.

Definition ComplexMeta_touch (m : ComplexMeta) (now_ms : Z) : ComplexMeta :=
  mkComplexMeta
    (mkMetaHeader (v2_flags (h_flags (c_header m))) (h_expire_ms (c_header m)))
    now_ms (c_version m) (c_size m) (c_bytes m).

Definition ComplexMeta_encode (m : ComplexMeta) : bytes :=
  MetaHeader_encode
    (mkMetaHeader (v2_flags (h_flags (c_header m))) (h_expire_ms (c_header m))) ++
  be 8 (c_written_ms m) ++ be 8 (c_version m) ++ be 4 (c_size m) ++ be 8 (c_bytes m).

(** [row[off..off+8].copy_from_slice(..)] at the row's own header length. *)
Definition write_version (row : bytes) (version : Z) : option bytes :=
  f ← head row;
  let off := head_len (b2z f) in
  if decide (off + 8 ≤ length row)%nat
  then Some (patch row off (be 8 version)) else None.

Definition ComplexMeta_decode (row : bytes) : option ComplexMeta :=
  header ← MetaHeader_decode row;
  let off := head_len (h_flags header) in
  if decide (length row < off + COMPLEX_TAIL_LEN)%nat then None
  else Some (mkComplexMeta header (written_ms_of row)
               (of_be (sub row off 8)) (of_be (sub row (off + 8) 4))
               (of_be (sub row (off + 12) 8))).

(** ** Versions *)

(** One call of [VersionGen::next]: the new value of the process-wide
    counter, which is also what the call answers. *)
Definition version_next (last now_ms : Z) : Z :=
  let floor := u64 (Z.shiftl now_ms 20) in u64 (Z.max last floor + 1).

(** ** Strings *)

Record StringMeta := mkStringMeta {
  s_flags : Z;
  s_expire_ms : Z;
  s_written_ms : Z;
  s_payload : bytes
}.

Definition StringMeta_new_typed (t : ValueType) (payload : bytes)
    (expire_ms written_ms : Z) : StringMeta :=
  mkStringMeta (make_flags t ENCODING_V2) expire_ms written_ms payload.

Definition StringMeta_new (payload : bytes) (expire_ms written_ms : Z) : StringMeta :=
  mkStringMeta (make_flags TString ENCODING_V2) expire_ms written_ms payload.

Definition StringMeta_encode (m : StringMeta) : bytes :=
  [z2b (s_flags m)] ++ be 8 (s_expire_ms m) ++
  (if encoding_of (s_flags m) =? ENCODING_V2 then be 8 (s_written_ms m) else []) ++
  s_payload m.

Definition StringMeta_decode (row : bytes) : option StringMeta :=
  f ← head row;
  let off := head_len (b2z f) in
  if decide (length row < off)%nat then None
  else Some (mkStringMeta (b2z f) (of_be (sub row 1 8)) (written_ms_of row) (drop off row)).

Definition StringMeta_is_expired (m : StringMeta) (now_ms : Z) : bool :=
  expired_at (s_expire_ms m) now_ms.

(** ** Lists *)

(** [(i as u64) ^ (1 << 63)] and back. *)
Definition bias_index (i : Z) : Z := Z.lxor (u64 i) (2 ^ 63).
Definition unbias_index (b : Z) : Z := i64 (Z.lxor b (2 ^ 63)).

Record ListMeta := mkListMeta { l_base : ComplexMeta; l_head : Z; l_tail : Z }.

Definition ListMeta_new (version : Z) : ListMeta :=
  mkListMeta (ComplexMeta_new TList version) 0 0.

Definition ListMeta_encode (m : ListMeta) : bytes :=
  ComplexMeta_encode (l_base m) ++ be 8 (bias_index (l_head m)) ++
  be 8 (bias_index (l_tail m)).

Definition ListMeta_decode (row : bytes) : option ListMeta :=
  base ← ComplexMeta_decode row;
  f ← head row;
  let off := (head_len (b2z f) + COMPLEX_TAIL_LEN)%nat in
  if decide (length row < off + 16)%nat then None
  else Some (mkListMeta base (unbias_index (of_be (sub row off 8)))
               (unbias_index (of_be (sub row (off + 8) 8)))).

(** ** Streams *)

Record StreamId := mkStreamId { id_ms : Z; id_seq : Z }.

#[global] Instance StreamId_eq_dec : EqDecision StreamId.
Proof. solve_decision. Defined.

Definition StreamId_MIN : StreamId := mkStreamId 0 0.
Definition StreamId_MAX : StreamId := mkStreamId U64_MAX U64_MAX.

Definition StreamId_to_bytes (i : StreamId) : bytes := be 8 (id_ms i) ++ be 8 (id_seq i).

Definition StreamId_from_bytes (b : bytes) : option StreamId :=
  ms ← of_be <$> get_sub b 0 8;
  seq ← of_be <$> get_sub b 8 8;
  Some (mkStreamId ms seq).

(** [u64::checked_add(1)] and [u64::checked_sub(1)]. *)
Definition checked_succ (x : Z) : option Z := if x <? U64_MAX then Some (x + 1) else None.
Definition checked_pred (x : Z) : option Z := if 0 <? x then Some (x - 1) else None.

Definition StreamId_next (i : StreamId) : option StreamId :=
  match checked_succ (id_seq i) with
  | Some seq => Some (mkStreamId (id_ms i) seq)
  | None => ms ← checked_succ (id_ms i); Some (mkStreamId ms 0)
  end.

Definition StreamId_prev (i : StreamId) : option StreamId :=
  match checked_pred (id_seq i) with
  | Some seq => Some (mkStreamId (id_ms i) seq)
  | None => ms ← checked_pred (id_ms i); Some (mkStreamId ms U64_MAX)
  end.

(** The derived [Ord]: milliseconds, then sequence. *)
Definition StreamId_lt (a b : StreamId) : Prop :=
  id_ms a < id_ms b ∨ id_ms a = id_ms b ∧ id_seq a < id_seq b.

Record StreamMeta := mkStreamMeta {
  st_base : ComplexMeta;
  st_last_id : StreamId;
  st_max_deleted_id : StreamId;
  st_entries_added : Z
}.

Definition StreamMeta_new (version : Z) : StreamMeta :=
  mkStreamMeta (ComplexMeta_new TStream version) StreamId_MIN StreamId_MIN 0.

Definition StreamMeta_encode (m : StreamMeta) : bytes :=
  ComplexMeta_encode (st_base m) ++ StreamId_to_bytes (st_last_id m) ++
  StreamId_to_bytes (st_max_deleted_id m) ++ be 8 (st_entries_added m).

Definition StreamMeta_decode (row : bytes) : option StreamMeta :=
  base ← ComplexMeta_decode row;
  f ← head row;
  let off := (head_len (b2z f) + COMPLEX_TAIL_LEN)%nat in
  tail ← get_sub row off 40;
  last_id ← StreamId_from_bytes (sub tail 0 16);
  max_deleted_id ← StreamId_from_bytes (sub tail 16 16);
  Some (mkStreamMeta base last_id max_deleted_id (of_be (sub tail 32 8))).

(** ** Bloom filters *)

Record BloomLink := mkBloomLink {
  bl_k : Z; bl_block_bits_log2 : Z; bl_blocks : Z; bl_items : Z; bl_capacity : Z
}.

(** [bm_error] is the 64 bits of the requested error rate. *)
Record BloomMeta := mkBloomMeta {
  bm_base : ComplexMeta;
  bm_hash_id : Z;
  bm_layout : Z;
  bm_capacity : Z;
  bm_error : Z;
  bm_expansion : Z;
  bm_links : list BloomLink
}.

Definition BLOOM_TAIL_HEAD_LEN : nat := 20.
Definition BLOOM_LINK_LEN : nat := 26.

Definition BloomMeta_new (version capacity error expansion : Z) (first : BloomLink)
    : BloomMeta :=
  mkBloomMeta (ComplexMeta_new TBloom version) 1 1 capacity error expansion [first].

(** Items across the chain, a [u64] sum. *)
Definition BloomMeta_card (m : BloomMeta) : Z :=
  u64 (foldr (λ l a, bl_items l + a) 0 (bm_links m)).

Definition BloomLink_encode (l : BloomLink) : bytes :=
  [z2b (bl_k l)] ++ [z2b (bl_block_bits_log2 l)] ++ be 8 (bl_blocks l) ++ be 8 (bl_items l) ++
  be 8 (bl_capacity l).

Definition BloomMeta_encode (m : BloomMeta) : bytes :=
  ComplexMeta_encode (bm_base m) ++
  [z2b (bm_hash_id m)] ++ [z2b (bm_layout m)] ++ be 8 (bm_capacity m) ++
  be 8 (bm_error m) ++ [z2b (bm_expansion m)] ++ [z2b (Z.min 255 (len (bm_links m)))] ++
  concat (BloomLink_encode <$> bm_links m).

(** [row[p]] where the code has checked the bounds. *)
Definition byte_at (row : bytes) (p : nat) : Z := b2z (default Byte.x00 (row !! p)).

(** The link at offset [p]: the bounds were checked by the caller. *)
Definition BloomLink_at (row : bytes) (p : nat) : BloomLink :=
  mkBloomLink (byte_at row p) (byte_at row (p + 1))
    (of_be (sub row (p + 2) 8)) (of_be (sub row (p + 10) 8))
    (of_be (sub row (p + 18) 8)).

(** The [for _ in 0..n] loop of [decode]. *)
Fixpoint BloomMeta_links (row : bytes) (n p : nat) : option (list BloomLink) :=
  match n with
  | O => Some []
  | S n' =>
      if decide (length row < p + BLOOM_LINK_LEN)%nat then None
      else rest ← BloomMeta_links row n' (p + BLOOM_LINK_LEN);
           Some (BloomLink_at row p :: rest)
  end.

Definition BloomMeta_decode (row : bytes) : option BloomMeta :=
  base ← ComplexMeta_decode row;
  f ← head row;
  let off := (head_len (b2z f) + COMPLEX_TAIL_LEN)%nat in
  if decide (length row < off + BLOOM_TAIL_HEAD_LEN)%nat then None
  else
    let hash_id := byte_at row off in
    let layout := byte_at row (off + 1) in
    let capacity := of_be (sub row (off + 2) 8) in
    let error := of_be (sub row (off + 10) 8) in
    let expansion := byte_at row (off + 18) in
    let n := Z.to_nat (byte_at row (off + 19)) in
    links ← BloomMeta_links row n (off + BLOOM_TAIL_HEAD_LEN);
    Some (mkBloomMeta base hash_id layout capacity error expansion links).

(** * Lemmas *)

(** ** Flags *)

Lemma from_make_flags t e : from_flags (make_flags t e) = Some t.
Proof.
  unfold from_flags, make_flags. rewrite Z.land_lor_distr_l.
  assert (Z.land (u8 (Z.shiftl e 4)) 15 = 0) as ->.
  { unfold wrap. rewrite <-Z.land_ones, <-Z.land_assoc by lia.
    change (Z.land (Z.ones 8) 15) with (Z.ones 4).
    rewrite Z.land_ones, Z.shiftl_mul_pow2 by lia. apply Z_mod_mult. }
  by destruct t.
Qed.

Lemma encoding_make_flags t : encoding_of (make_flags t ENCODING_V2) = ENCODING_V2.
Proof. by destruct t. Qed.

Lemma head_len_v2 t : head_len (make_flags t ENCODING_V2) = 17%nat.
Proof. by destruct t. Qed.

Lemma b2z_make_flags t e :
  e = ENCODING_V1 ∨ e = ENCODING_V2 → b2z (z2b (make_flags t e)) = make_flags t e.
Proof. by intros [->| ->]; destruct t. Qed.

Lemma b2z_flags_v2 t : b2z (z2b (make_flags t ENCODING_V2)) = make_flags t ENCODING_V2.
Proof. by destruct t. Qed.

Lemma v2_make_flags t e : v2_flags (make_flags t e) = make_flags t ENCODING_V2.
Proof. unfold v2_flags. by rewrite from_make_flags. Qed.

(** ** Well-formed metadata: every field fits its column *)

Definition header_ok (t : ValueType) (h : MetaHeader) : Prop :=
  h_flags h = make_flags t ENCODING_V2 ∧ in_width 64 (h_expire_ms h).

Definition meta_ok (t : ValueType) (m : ComplexMeta) : Prop :=
  header_ok t (c_header m) ∧ in_width 64 (c_written_ms m) ∧
  in_width 64 (c_version m) ∧ in_width 32 (c_size m) ∧ in_width 64 (c_bytes m).

Lemma meta_ok_new t v : in_width 64 v → meta_ok t (ComplexMeta_new t v).
Proof.
  intros Hv. unfold meta_ok, header_ok. cbn. repeat split; try width.
  - apply Z.shiftr_nonneg. width.
  - rewrite Z.shiftr_div_pow2 by lia. apply Z.div_lt_upper_bound; width.
Qed.

(** The row a well-formed metadata record encodes to, field by field. *)
Lemma ComplexMeta_encode_fields t m :
  meta_ok t m →
  ComplexMeta_encode m =
  [z2b (make_flags t ENCODING_V2)] ++ be 8 (h_expire_ms (c_header m)) ++
  be 8 (c_written_ms m) ++ be 8 (c_version m) ++ be 4 (c_size m) ++ be 8 (c_bytes m).
Proof.
  intros [[Hf _] _]. unfold ComplexMeta_encode, MetaHeader_encode. cbn [h_flags h_expire_ms].
  by rewrite Hf, v2_make_flags, <-!app_assoc.
Qed.

Lemma length_ComplexMeta_encode m : length (ComplexMeta_encode m) = 37%nat.
Proof. unfold ComplexMeta_encode, MetaHeader_encode. lengths. Qed.

Lemma head_ComplexMeta_encode t m tail :
  meta_ok t m → head (ComplexMeta_encode m ++ tail) = Some (z2b (make_flags t ENCODING_V2)).
Proof. intros H. by rewrite (ComplexMeta_encode_fields t). Qed.

(** Decoding what was encoded, whatever a type appends after it. *)
Lemma ComplexMeta_decode_encode_app t m tail :
  meta_ok t m → ComplexMeta_decode (ComplexMeta_encode m ++ tail) = Some m.
Proof.
  intros Hm. pose proof Hm as (Hh & Hw & Hv & Hs & Hb). destruct Hh as [Hf He].
  rewrite (ComplexMeta_encode_fields t m Hm), <-!app_assoc.
  unfold ComplexMeta_decode, MetaHeader_decode. cbn [app].
  rewrite decide_False by (cbn [length]; unfold HEADER_LEN; lengths).
  cbn [mbind option_bind h_flags]. rewrite ?b2z_flags_v2, head_len_v2.
  rewrite decide_False by (cbn [length]; unfold COMPLEX_TAIL_LEN; lengths).
  unfold written_ms_of. rewrite ?b2z_flags_v2, encoding_make_flags. cbn [Z.eqb ENCODING_V2].
  unfold HEADER_LEN. slices.
  rewrite !of_be_id by done.
  destruct m as [[f e] w v s b]. cbn in *. by subst.
Qed.

Lemma MetaHeader_decode_encode_app t m tail :
  meta_ok t m → MetaHeader_decode (ComplexMeta_encode m ++ tail) = Some (c_header m).
Proof.
  intros Hm. pose proof (ComplexMeta_decode_encode_app t m tail Hm) as H.
  unfold ComplexMeta_decode in H.
  destruct (MetaHeader_decode _) as [h|]; [|done]. cbn in H.
  case_decide; [done|]. by apply (f_equal (fmap c_header)) in H.
Qed.

(** Patching the version of an encoded row is encoding the patched record:
    whatever a type keeps past the shared fields stays. *)
Lemma write_version_encode t m tail v :
  meta_ok t m →
  write_version (ComplexMeta_encode m ++ tail) v =
  Some (ComplexMeta_encode
          (mkComplexMeta (c_header m) (c_written_ms m) v (c_size m) (c_bytes m)) ++ tail).
Proof.
  intros Hm. unfold write_version. rewrite (head_ComplexMeta_encode t) by done.
  cbn [mbind option_bind]. rewrite ?b2z_flags_v2, head_len_v2.
  rewrite decide_True by (rewrite length_app, length_ComplexMeta_encode; lia).
  done.
Qed.

(** Rewriting the expiry of an encoded row changes that field only. *)
Lemma write_expire_encode t m tail e :
  meta_ok t m →
  write_expire (ComplexMeta_encode m ++ tail) e =
  Some (ComplexMeta_encode
          (mkComplexMeta (mkMetaHeader (h_flags (c_header m)) e) (c_written_ms m)
             (c_version m) (c_size m) (c_bytes m)) ++ tail).
Proof.
  intros Hm. unfold write_expire.
  rewrite decide_True by (rewrite length_app, length_ComplexMeta_encode; unfold HEADER_LEN; lia).
  done.
Qed.

(** ** Words with the top bit flipped *)

Lemma testbit_63 x : in_width 64 x → Z.testbit x 63 = (2 ^ 63 <=? x).
Proof.
  intros Hx. rewrite Z.testbit_odd, Z.shiftr_div_pow2 by lia.
  destruct (Z.leb_spec (2 ^ 63) x) as [H|H].
  - replace (x / 2 ^ 63) with 1; [done|]. apply Z.div_unique with (x - 2 ^ 63); width.
  - rewrite Z.div_small by width. done.
Qed.

Lemma land_low_pow63 x : 0 <= x < 2 ^ 63 → Z.land x (2 ^ 63) = 0.
Proof.
  intros Hx. apply Z.bits_inj'. intros i Hi. rewrite Z.land_spec, Z.bits_0.
  rewrite Z.pow2_bits_eqb by lia. destruct (Z.eqb_spec 63 i) as [<-|]; [|by rewrite andb_false_r].
  rewrite testbit_63 by width. apply andb_false_iff. left. lia.
Qed.

Lemma lxor_pow63 x :
  in_width 64 x → Z.lxor x (2 ^ 63) = if x <? 2 ^ 63 then x + 2 ^ 63 else x - 2 ^ 63.
Proof.
  intros Hx. destruct (Z.ltb_spec x (2 ^ 63)) as [H|H].
  - symmetry. apply Z.add_nocarry_lxor, land_low_pow63. width.
  - assert (E : x = Z.lxor (x - 2 ^ 63) (2 ^ 63)).
    { rewrite <-Z.add_nocarry_lxor; [lia|]. apply land_low_pow63. width. }
    rewrite E at 1. rewrite Z.lxor_assoc, Z.lxor_nilpotent, Z.lxor_0_r. lia.
Qed.

Lemma lor_pow63 x : 0 <= x < 2 ^ 63 → Z.lor x (2 ^ 63) = x + 2 ^ 63.
Proof.
  intros Hx. rewrite <-Z.lxor_lor by (by apply land_low_pow63).
  rewrite lxor_pow63 by width. by replace (x <? 2 ^ 63) with true by lia.
Qed.

Lemma u64_lnot x : in_width 64 x → u64 (Z.lnot x) = U64_MAX - x.
Proof.
  intros Hx. unfold wrap, Z.lnot, U64_MAX. symmetry.
  apply Z.mod_unique with (-1); width.
Qed.

Definition in_i64 (i : Z) : Prop := I64_MIN <= i <= I64_MAX.

Lemma bias_index_add i : in_i64 i → bias_index i = i + 2 ^ 63.
Proof.
  unfold in_i64, I64_MIN, I64_MAX. intros Hi. unfold bias_index.
  rewrite lxor_pow63 by (by apply wrap_range).
  destruct (decide (0 <= i)) as [H|H].
  - rewrite (wrap_id 64 i) by width. by replace (i <? 2 ^ 63) with true by lia.
  - assert (u64 i = i + 2 ^ 64) as ->.
    { unfold wrap. symmetry. apply Z.mod_unique with (-1); lia. }
    replace (i + 2 ^ 64 <? 2 ^ 63) with false by lia. lia.
Qed.

Lemma bias_index_width i : in_i64 i → in_width 64 (bias_index i).
Proof. intros H. rewrite bias_index_add by done. unfold in_i64, I64_MIN, I64_MAX in H. width. Qed.

Lemma unbias_bias_index i : in_i64 i → unbias_index (bias_index i) = i.
Proof.
  intros Hi. unfold unbias_index, bias_index.
  rewrite Z.lxor_assoc, Z.lxor_nilpotent, Z.lxor_0_r.
  unfold signed. rewrite wrap_wrap. unfold in_i64, I64_MIN, I64_MAX in Hi.
  destruct (decide (0 <= i)).
  - rewrite wrap_id by width. by replace (i <? 2 ^ (64 - 1)) with true by lia.
  - assert (u64 i = i + 2 ^ 64) as ->.
    { unfold wrap. symmetry. apply Z.mod_unique with (-1); lia. }
    replace (i + 2 ^ 64 <? 2 ^ (64 - 1)) with false by lia. lia.
Qed.

(** The two halves of [encode_score], as arithmetic on the bits. *)
Lemma encode_score_cases b :
  in_width 64 b →
  encode_score b = if b <? 2 ^ 63 then b + 2 ^ 63 else U64_MAX - b.
Proof.
  intros Hb. unfold encode_score. rewrite testbit_63 by done.
  destruct (Z.leb_spec (2 ^ 63) b), (Z.ltb_spec b (2 ^ 63)); try lia.
  - by apply u64_lnot.
  - apply lor_pow63. width.
Qed.

Lemma encode_score_width b : in_width 64 b → in_width 64 (encode_score b).
Proof.
  intros Hb. rewrite encode_score_cases by done. unfold U64_MAX.
  destruct (Z.ltb_spec b (2 ^ 63)); width.
Qed.

Lemma decode_encode_score b : in_width 64 b → decode_score (encode_score b) = b.
Proof.
  intros Hb. unfold decode_score. rewrite testbit_63 by (by apply encode_score_width).
  rewrite encode_score_cases by done. unfold U64_MAX.
  destruct (Z.ltb_spec b (2 ^ 63)) as [H|H].
  - replace (2 ^ 63 <=? b + 2 ^ 63) with true by width.
    change (u64 (Z.lnot (2 ^ 63))) with (Z.ones 63).
    rewrite Z.land_ones by lia. replace (b + 2 ^ 63) with (b + 1 * 2 ^ 63) by lia.
    rewrite Z_mod_plus_full. apply Z.mod_small. width.
  - replace (2 ^ 63 <=? 2 ^ 64 - 1 - b) with false by width.
    rewrite u64_lnot by width. unfold U64_MAX. lia.
Qed.

(** ** Row keys *)

(** What a row key can frame: a namespace of one length byte, a slot and a key
    of two bytes each, a version of eight. *)
Definition addr_ok (ns : bytes) (slot : Z) (key : bytes) : Prop :=
  len ns <= 255 ∧ in_width 16 slot ∧ len key <= 65535.

Lemma subkey_prefix_ok ns slot key v :
  addr_ok ns slot key → subkey_prefix ns slot key v = Some (framed_prefix Subkey ns slot key v).
Proof. intros (_ & _ & H). unfold subkey_prefix. by replace (len key <=? 65535) with true by lia. Qed.

Lemma subkey_envelope_ok ns slot key v f :
  addr_ok ns slot key →
  subkey_envelope ns slot key v f = Some (framed_prefix Subkey ns slot key v ++ f).
Proof. intros. unfold subkey_envelope. by rewrite subkey_prefix_ok. Qed.

Lemma zscore_prefix_ok ns slot key v :
  addr_ok ns slot key → zscore_prefix ns slot key v = Some (framed_prefix ZScore ns slot key v).
Proof. intros (_ & _ & H). unfold zscore_prefix. by replace (len key <=? 65535) with true by lia. Qed.

Lemma zscore_envelope_ok ns slot key v s f :
  addr_ok ns slot key →
  zscore_envelope ns slot key v s f =
  Some (framed_prefix ZScore ns slot key v ++ be 8 (encode_score s) ++ f).
Proof. intros. unfold zscore_envelope. by rewrite zscore_prefix_ok. Qed.

Lemma parse_framed_prefix cf ns slot key v f :
  cf ≠ Metadata → addr_ok ns slot key → in_width 64 v →
  parse_subkey_envelope (framed_prefix cf ns slot key v ++ f) = Some (ns, slot, key, v).
Proof.
  intros Hcf (Hns & Hslot & Hkey) Hv.
  set (K := framed_prefix cf ns slot key v ++ f).
  assert (HK : K = [cf_byte cf; z2b (len ns)] ++ ns ++ be 2 slot ++ be 2 (len key) ++ key ++
                   be 8 v ++ f).
  { unfold K, framed_prefix. rewrite !wrap_id by width. by rewrite <-!app_assoc. }
  clearbody K. unfold parse_subkey_envelope.
  assert (E : K = cf_byte cf :: z2b (len ns) :: drop 2 K) by (by rewrite HK).
  rewrite E. rewrite <-E.
  assert (Byte.eqb (cf_byte cf) (cf_byte Subkey) || Byte.eqb (cf_byte cf) (cf_byte ZScore) = true) as ->.
  { by destruct cf. }
  rewrite b2z_z2b_id, Nat2Z.id by width.
  rewrite (get_sub_at K [cf_byte cf; z2b (len ns)] ns (be 2 slot ++ be 2 (len key) ++ key ++ be 8 v ++ f) 2 (length ns))
    by done. cbn [mbind option_bind].
  rewrite (get_sub_at K ([cf_byte cf; z2b (len ns)] ++ ns) (be 2 slot) (be 2 (len key) ++ key ++ be 8 v ++ f) (2 + length ns) 2)
    by (rewrite ?HK, <-?app_assoc; done || lengths).
  cbn [fmap option_fmap option_map mbind option_bind].
  rewrite (get_sub_at K ([cf_byte cf; z2b (len ns)] ++ ns ++ be 2 slot) (be 2 (len key)) (key ++ be 8 v ++ f) (2 + length ns + 2) 2)
    by (rewrite ?HK, <-?app_assoc; done || lengths).
  cbn [fmap option_fmap option_map mbind option_bind compose].
  rewrite !of_be_id by width. rewrite Nat2Z.id.
  rewrite (get_sub_at K ([cf_byte cf; z2b (len ns)] ++ ns ++ be 2 slot ++ be 2 (len key)) key (be 8 v ++ f) (2 + length ns + 4) (length key))
    by (rewrite ?HK, <-?app_assoc; done || lengths).
  cbn [fmap option_fmap option_map mbind option_bind].
  rewrite (get_sub_at K ([cf_byte cf; z2b (len ns)] ++ ns ++ be 2 slot ++ be 2 (len key) ++ key) (be 8 v) f (2 + length ns + 4 + length key) 8)
    by (rewrite ?HK, <-?app_assoc; done || lengths).
  cbn [fmap option_fmap option_map mbind option_bind]. by rewrite of_be_id by width.
Qed.

(** No two (column family, namespace, slot, key, version) share a row: a
    subkey row names its owner. *)
Lemma framed_prefix_inj cf ns slot key v f cf' ns' slot' key' v' f' :
  addr_ok ns slot key → addr_ok ns' slot' key' → in_width 64 v → in_width 64 v' →
  cf ≠ Metadata → cf' ≠ Metadata →
  framed_prefix cf ns slot key v ++ f = framed_prefix cf' ns' slot' key' v' ++ f' →
  cf = cf' ∧ ns = ns' ∧ slot = slot' ∧ key = key' ∧ v = v' ∧ f = f'.
Proof.
  intros Ha Ha' Hv Hv' Hc Hc' E.
  assert (cf = cf') as <-.
  { apply (f_equal head) in E. cbn in E. destruct cf, cf'; try done. }
  pose proof (parse_framed_prefix cf ns slot key v f Hc Ha Hv) as P.
  rewrite E, parse_framed_prefix in P by done. by simplify_eq.
Qed.

Lemma envelope_inj cf ns slot key cf' ns' slot' key' :
  len ns <= 255 → len ns' <= 255 → in_width 16 slot → in_width 16 slot' →
  envelope cf ns slot key = envelope cf' ns' slot' key' →
  cf = cf' ∧ ns = ns' ∧ slot = slot' ∧ key = key'.
Proof.
  intros Hn Hn' Hs Hs'. unfold envelope. intros E.
  apply app_inj_1 in E as [Ec E]; [|done]. apply app_inj_1 in E as [El E]; [|done].
  injection Ec as Ec. injection El as El.
  apply (f_equal b2z) in El. rewrite !b2z_z2b_id in El by width. apply Nat2Z.inj in El.
  apply app_inj_1 in E as [-> E]; [|done].
  apply app_inj_1 in E as [Es ->]; [|lengths].
  apply be_inj in Es; [|width..].
  destruct cf, cf'; try done.
Qed.

(** Metadata rows are never under a subkey or score prefix. *)
Lemma strip_framed_envelope cf ns slot key v ns' slot' key' :
  cf ≠ Metadata → strip_prefix (framed_prefix cf ns slot key v) (envelope Metadata ns' slot' key') = None.
Proof.
  intros Hc. apply strip_prefix_None. intros r E. apply (f_equal head) in E.
  cbn in E. destruct cf; done.
Qed.

(** One collection's rows are never under another's prefix. *)
Lemma strip_framed_other cf ns slot key v cf' ns' slot' key' v' f :
  addr_ok ns slot key → addr_ok ns' slot' key' → in_width 64 v → in_width 64 v' →
  cf ≠ Metadata → cf' ≠ Metadata →
  (cf, ns, slot, key, v) ≠ (cf', ns', slot', key', v') →
  strip_prefix (framed_prefix cf ns slot key v) (framed_prefix cf' ns' slot' key' v' ++ f) = None.
Proof.
  intros Ha Ha' Hv Hv' Hc Hc' Hne. apply strip_prefix_None. intros r E.
  symmetry in E. apply framed_prefix_inj in E; naive_solver.
Qed.

Lemma envelope_not_framed cf ns slot key v ns' slot' key' f :
  cf ≠ Metadata → envelope Metadata ns' slot' key' ≠ framed_prefix cf ns slot key v ++ f.
Proof. intros Hc E. apply (f_equal head) in E. cbn in E. destruct cf; done. Qed.

(** ** Round trips of the other rows *)

Definition string_ok (t : ValueType) (m : StringMeta) : Prop :=
  s_flags m = make_flags t ENCODING_V2 ∧ in_width 64 (s_expire_ms m) ∧
  in_width 64 (s_written_ms m).

Lemma StringMeta_encode_fields t m :
  string_ok t m →
  StringMeta_encode m =
  [z2b (make_flags t ENCODING_V2)] ++ be 8 (s_expire_ms m) ++ be 8 (s_written_ms m) ++ s_payload m.
Proof.
  intros (Hf & _ & _). unfold StringMeta_encode. by rewrite Hf, encoding_make_flags.
Qed.

Lemma StringMeta_decode_encode t m :
  string_ok t m → StringMeta_decode (StringMeta_encode m) = Some m.
Proof.
  intros Hm. rewrite (StringMeta_encode_fields t m Hm). destruct Hm as (Hf & He & Hw).
  unfold StringMeta_decode. cbn [app head mbind option_bind]. rewrite ?b2z_flags_v2, head_len_v2.
  rewrite decide_False by (cbn [length]; lengths).
  unfold written_ms_of. rewrite ?b2z_flags_v2, encoding_make_flags. cbn [Z.eqb ENCODING_V2].
  unfold HEADER_LEN. change (drop 17 (?x :: ?l)) with (drop 16 l). slices.
  rewrite !of_be_id by width. destruct m as [f e w p]. cbn in *. by subst.
Qed.

Lemma MetaHeader_decode_string t m :
  string_ok t m →
  MetaHeader_decode (StringMeta_encode m) = Some (mkMetaHeader (s_flags m) (s_expire_ms m)).
Proof.
  intros Hm. rewrite (StringMeta_encode_fields t m Hm). destruct Hm as (Hf & He & Hw).
  unfold MetaHeader_decode. cbn [app].
  rewrite decide_False by (cbn [length]; unfold HEADER_LEN; lengths).
  slices. rewrite of_be_id by width. by rewrite Hf, b2z_flags_v2.
Qed.

(** The row of a string written before the write stamp existed. *)
Lemma StringMeta_decode_v1 t e p :
  in_width 64 e →
  StringMeta_decode ([z2b (make_flags t ENCODING_V1)] ++ be 8 e ++ p) =
  Some (mkStringMeta (make_flags t ENCODING_V1) e 0 p).
Proof.
  intros He. unfold StringMeta_decode. cbn [app head mbind option_bind].
  rewrite (b2z_make_flags t ENCODING_V1) by (by left).
  assert (encoding_of (make_flags t ENCODING_V1) = 0) as E by (by destruct t).
  unfold head_len, written_ms_of. rewrite (b2z_make_flags t ENCODING_V1) by (by left).
  rewrite E. cbn [Z.eqb ENCODING_V2].
  rewrite decide_False by (cbn [length]; unfold HEADER_LEN; lengths).
  unfold HEADER_LEN. change (drop 9 (?x :: ?l)) with (drop 8 l). slices.
  by rewrite of_be_id by width.
Qed.

Definition list_ok (m : ListMeta) : Prop :=
  meta_ok TList (l_base m) ∧ in_i64 (l_head m) ∧ in_i64 (l_tail m).

Lemma ListMeta_decode_encode m : list_ok m → ListMeta_decode (ListMeta_encode m) = Some m.
Proof.
  intros (Hb & Hh & Ht). unfold ListMeta_decode, ListMeta_encode.
  rewrite (ComplexMeta_decode_encode_app TList), (head_ComplexMeta_encode TList) by done.
  cbn [mbind option_bind]. rewrite ?b2z_flags_v2, head_len_v2. unfold COMPLEX_TAIL_LEN. cbn [Nat.add].
  rewrite decide_False by (rewrite !length_app, length_ComplexMeta_encode, !length_be; lia).
  rewrite !(sub_skip (ComplexMeta_encode _)) by (rewrite length_ComplexMeta_encode; lia).
  rewrite length_ComplexMeta_encode. slices.
  pose proof (bias_index_width _ Hh). pose proof (bias_index_width _ Ht).
  rewrite !of_be_id by width. rewrite !unbias_bias_index by done. by destruct m.
Qed.

Definition id_ok (i : StreamId) : Prop := in_width 64 (id_ms i) ∧ in_width 64 (id_seq i).

Lemma StreamId_from_to_bytes i tail :
  id_ok i → StreamId_from_bytes (StreamId_to_bytes i ++ tail) = Some i.
Proof.
  intros [??]. unfold StreamId_from_bytes, StreamId_to_bytes. rewrite <-!app_assoc.
  slices. cbn [fmap option_fmap option_map mbind option_bind].
  rewrite !of_be_id by width. by destruct i.
Qed.

Lemma length_StreamId_to_bytes i : length (StreamId_to_bytes i) = 16%nat.
Proof. unfold StreamId_to_bytes. lengths. Qed.

Definition stream_ok (m : StreamMeta) : Prop :=
  meta_ok TStream (st_base m) ∧ id_ok (st_last_id m) ∧ id_ok (st_max_deleted_id m) ∧
  in_width 64 (st_entries_added m).

Lemma StreamMeta_decode_encode m : stream_ok m → StreamMeta_decode (StreamMeta_encode m) = Some m.
Proof.
  intros (Hb & Hl & Hd & He). unfold StreamMeta_decode, StreamMeta_encode.
  rewrite (ComplexMeta_decode_encode_app TStream), (head_ComplexMeta_encode TStream) by done.
  cbn [mbind option_bind]. rewrite ?b2z_flags_v2, head_len_v2. unfold COMPLEX_TAIL_LEN. cbn [Nat.add].
  rewrite get_sub_skip by (rewrite length_ComplexMeta_encode; lia).
  rewrite length_ComplexMeta_encode. cbn [Nat.sub].
  rewrite get_sub_whole
    by (rewrite !length_app, !length_StreamId_to_bytes, length_be; lia).
  cbn [mbind option_bind].
  rewrite (sub_here (StreamId_to_bytes (st_last_id m))) by apply length_StreamId_to_bytes.
  rewrite !(sub_skip (StreamId_to_bytes (st_last_id m)))
    by (rewrite length_StreamId_to_bytes; lia).
  rewrite !length_StreamId_to_bytes. cbn [Nat.sub].
  rewrite (sub_here (StreamId_to_bytes (st_max_deleted_id m))) by apply length_StreamId_to_bytes.
  rewrite !(sub_skip (StreamId_to_bytes (st_max_deleted_id m)))
    by (rewrite length_StreamId_to_bytes; lia).
  rewrite !length_StreamId_to_bytes. cbn [Nat.sub].
  rewrite sub_whole by lengths.
  pose proof (StreamId_from_to_bytes (st_last_id m) [] Hl) as El.
  pose proof (StreamId_from_to_bytes (st_max_deleted_id m) [] Hd) as Ed.
  rewrite app_nil_r in El, Ed. rewrite El, Ed. cbn [mbind option_bind].
  rewrite of_be_id by width. by destruct m.
Qed.

Definition link_ok (l : BloomLink) : Prop :=
  in_width 8 (bl_k l) ∧ in_width 8 (bl_block_bits_log2 l) ∧
  in_width 64 (bl_blocks l) ∧ in_width 64 (bl_items l) ∧ in_width 64 (bl_capacity l).

Definition bloom_ok (m : BloomMeta) : Prop :=
  meta_ok TBloom (bm_base m) ∧ in_width 8 (bm_hash_id m) ∧ in_width 8 (bm_layout m) ∧
  in_width 8 (bm_expansion m) ∧ in_width 64 (bm_capacity m) ∧ in_width 64 (bm_error m) ∧
  (length (bm_links m) ≤ 255)%nat ∧ Forall link_ok (bm_links m).

Lemma length_BloomLink_encode l : length (BloomLink_encode l) = 26%nat.
Proof. unfold BloomLink_encode. lengths. Qed.

Lemma BloomLink_at_encode pre l tail :
  link_ok l → BloomLink_at (pre ++ BloomLink_encode l ++ tail) (length pre) = l.
Proof.
  intros (?&?&?&?&?). unfold BloomLink_at, BloomLink_encode, byte_at. rewrite <-!app_assoc.
  rewrite !(sub_skip pre), !(lookup_skip pre) by lia.
  rewrite !Nat.sub_diag, !(Nat.add_comm (length pre)), !Nat.add_sub. cbn [app].
  cbn [lookup list_lookup from_option id]. slices.
  rewrite !of_be_id, !b2z_z2b_id by width. by destruct l.
Qed.

Lemma BloomMeta_links_encode pre links :
  Forall link_ok links →
  BloomMeta_links (pre ++ concat (BloomLink_encode <$> links)) (length links) (length pre) =
  Some links.
Proof.
  intros H. revert pre. induction H as [|l links Hl H IH]; intros pre; [done|].
  cbn [fmap list_fmap concat length BloomMeta_links].
  rewrite decide_False
    by (rewrite !length_app, length_BloomLink_encode; unfold BLOOM_LINK_LEN; lia).
  specialize (IH (pre ++ BloomLink_encode l)). rewrite <-app_assoc in IH.
  rewrite length_app, length_BloomLink_encode in IH. unfold BLOOM_LINK_LEN.
  change (list_fmap _ _ BloomLink_encode links) with (BloomLink_encode <$> links).
  rewrite IH. cbn [mbind option_bind]. by rewrite BloomLink_at_encode.
Qed.

Lemma BloomMeta_decode_encode m : bloom_ok m → BloomMeta_decode (BloomMeta_encode m) = Some m.
Proof.
  intros (Hb & Hh & Hy & Hx & Hc & He & Hn & Hl). unfold BloomMeta_decode.
  set (pre := ComplexMeta_encode (bm_base m) ++ [z2b (bm_hash_id m)] ++
              [z2b (bm_layout m)] ++ be 8 (bm_capacity m) ++ be 8 (bm_error m) ++
              [z2b (bm_expansion m)] ++ [z2b (len (bm_links m))]).
  assert (E : BloomMeta_encode m = pre ++ concat (BloomLink_encode <$> bm_links m)).
  { unfold BloomMeta_encode, pre. rewrite <-!app_assoc. by rewrite Z.min_r by lia. }
  assert (Hp : length pre = 57%nat).
  { unfold pre. rewrite !length_app, length_ComplexMeta_encode, !length_be. done. }
  assert (D : ComplexMeta_decode (BloomMeta_encode m) = Some (bm_base m)).
  { unfold BloomMeta_encode. by apply (ComplexMeta_decode_encode_app TBloom). }
  assert (F : head (BloomMeta_encode m) = Some (z2b (make_flags TBloom ENCODING_V2))).
  { unfold BloomMeta_encode. by apply (head_ComplexMeta_encode TBloom). }
  rewrite D, F. cbn [mbind option_bind]. rewrite ?b2z_flags_v2, head_len_v2. unfold COMPLEX_TAIL_LEN.
  rewrite E. cbn [Nat.add]. unfold BLOOM_TAIL_HEAD_LEN.
  rewrite decide_False by (rewrite length_app, Hp; lia).
  pose proof (BloomMeta_links_encode pre _ Hl) as L. rewrite Hp in L.
  assert (N : (pre ++ concat (BloomLink_encode <$> bm_links m)) !! 56%nat =
              Some (z2b (len (bm_links m)))).
  { unfold pre. rewrite <-!app_assoc.
    rewrite lookup_skip by (rewrite length_ComplexMeta_encode; lia).
    rewrite length_ComplexMeta_encode. cbn [Nat.sub app]. cbn [lookup list_lookup].
    by slices. }
  unfold byte_at. rewrite N. cbn [from_option id]. rewrite b2z_z2b_id, Nat2Z.id, L by width. cbn [mbind option_bind].
  clear N L. unfold pre. rewrite <-!app_assoc.
  rewrite !(sub_skip (ComplexMeta_encode _)), !(lookup_skip (ComplexMeta_encode _))
    by (rewrite length_ComplexMeta_encode; lia).
  rewrite length_ComplexMeta_encode. cbn [Nat.sub Nat.add app].
  slices. cbn [from_option id].
  rewrite !of_be_id, !b2z_z2b_id by width. by destruct m.
Qed.

(** ** Versions *)

(** The answers of successive [VersionGen::next] calls at the given clock
    readings. *)
Fixpoint version_run (last : Z) (clocks : list Z) : list Z :=
  match clocks with
  | [] => []
  | now :: rest => let v := version_next last now in v :: version_run v rest
  end.

(** The clock range in which [now << 20] loses no bits: until the year 2527. *)
Definition clock_ok (now : Z) : Prop := in_width 44 now.

Lemma version_next_exact last now :
  clock_ok now → 0 <= last < U64_MAX →
  version_next last now = Z.max last (now * 2 ^ 20) + 1.
Proof.
  unfold clock_ok, in_width, U64_MAX. intros. unfold version_next.
  rewrite Z.shiftl_mul_pow2 by lia. rewrite (wrap_id 64 (now * 2 ^ 20)) by width.
  apply wrap_id. width.
Qed.

Lemma version_next_lt last now :
  clock_ok now → 0 <= last < U64_MAX →
  last < version_next last now ∧ now * 2 ^ 20 < version_next last now ∧
  in_width 64 (version_next last now).
Proof.
  intros H1 H2. rewrite version_next_exact by done.
  unfold clock_ok, U64_MAX in *. width.
Qed.

(** ** Stream identifiers *)

Lemma checked_succ_Some x y : checked_succ x = Some y ↔ x < U64_MAX ∧ y = x + 1.
Proof. unfold checked_succ. destruct (Z.ltb_spec x U64_MAX); naive_solver lia. Qed.

Lemma checked_succ_None x : checked_succ x = None ↔ U64_MAX <= x.
Proof. unfold checked_succ. destruct (Z.ltb_spec x U64_MAX); naive_solver lia. Qed.

Lemma checked_pred_Some x y : checked_pred x = Some y ↔ 0 < x ∧ y = x - 1.
Proof. unfold checked_pred. destruct (Z.ltb_spec 0 x); naive_solver lia. Qed.

Lemma checked_pred_None x : checked_pred x = None ↔ x <= 0.
Proof. unfold checked_pred. destruct (Z.ltb_spec 0 x); naive_solver lia. Qed.

(** * Properties *)

(** A subkey row's key names its owner: it parses back to the namespace,
    slot, key and version it was built from, its namespace is read off it, and
    no other (namespace, slot, key, version, field) builds the same key. *)
Theorem subkey_row_names_its_owner ns slot key v f ns' slot' key' v' f' k :
  addr_ok ns slot key → addr_ok ns' slot' key' → in_width 64 v → in_width 64 v' →
  subkey_envelope ns slot key v f = Some k →
  parse_subkey_envelope k = Some (ns, slot, key, v) ∧ ns_of_envelope k = Some ns ∧
  (subkey_envelope ns' slot' key' v' f' = Some k →
   (ns, slot, key, v, f) = (ns', slot', key', v', f')).
Proof.
  intros Ha Ha' Hv Hv' E. rewrite subkey_envelope_ok in E by done. apply (inj Some) in E as <-.
  split_and!.
  - by apply parse_framed_prefix.
  - destruct Ha as (Hns & _ & _). unfold framed_prefix, ns_of_envelope.
    cbn [head app mbind option_bind is_envelope_tag cf_byte negb orb].
    cbn [lookup list_lookup mbind option_bind]. rewrite b2z_z2b_id by width.
    rewrite Nat2Z.id, !get_sub_cons, <-!app_assoc.
    by apply get_sub_here.
  - rewrite subkey_envelope_ok by done. intros E%(inj Some).
    apply framed_prefix_inj in E; naive_solver.
Qed.

Lemma subkey_row_names_its_owner_witness :
  parse_subkey_envelope (framed_prefix Subkey (bstr "ns") 7 (bstr "k") 9 ++ bstr "f") =
  Some (bstr "ns", 7, bstr "k", 9).
Proof.
  apply (subkey_row_names_its_owner (bstr "ns") 7 (bstr "k") 9 (bstr "f")
           (bstr "ns") 7 (bstr "k") 9 (bstr "f"));
    closed.
Defined.

(** Every metadata row decodes to the record it was encoded from: the
    shared collection row, whatever follows it, the string row, and the list,
    stream and Bloom rows that append their own tail. *)
Theorem metadata_rows_round_trip t cm tail sm lm stm bm :
  meta_ok t cm → string_ok t sm → list_ok lm → stream_ok stm → bloom_ok bm →
  ComplexMeta_decode (ComplexMeta_encode cm ++ tail) = Some cm ∧
  StringMeta_decode (StringMeta_encode sm) = Some sm ∧
  ListMeta_decode (ListMeta_encode lm) = Some lm ∧
  StreamMeta_decode (StreamMeta_encode stm) = Some stm ∧
  BloomMeta_decode (BloomMeta_encode bm) = Some bm.
Proof.
  intros. split_and!; eauto using ComplexMeta_decode_encode_app, StringMeta_decode_encode,
    ListMeta_decode_encode, StreamMeta_decode_encode, BloomMeta_decode_encode.
Qed.

Lemma metadata_rows_round_trip_witness :
  ListMeta_decode (ListMeta_encode (mkListMeta (ComplexMeta_new TList 9) (-3) 4)) =
  Some (mkListMeta (ComplexMeta_new TList 9) (-3) 4).
Proof.
  refine (proj1 (proj2 (proj2 (metadata_rows_round_trip THash (ComplexMeta_new THash 9) []
    (StringMeta_new_typed THash (bstr "v") 5 6) (mkListMeta (ComplexMeta_new TList 9) (-3) 4)
    (StreamMeta_new 9) (BloomMeta_new 9 100 0 2 (mkBloomLink 7 9 3 0 100)) _ _ _ _ _))));
    closed.
Defined.

(** COPY's version patch is type-agnostic: patching the version of an
    encoded list, stream or Bloom row gives the row of the same record with
    that version, its own tail (head and tail counters, last ID, filter chain)
    unchanged. *)
Theorem write_version_keeps_the_tail lm stm bm v :
  list_ok lm → stream_ok stm → bloom_ok bm → in_width 64 v →
  let at_v m := mkComplexMeta (c_header m) (c_written_ms m) v (c_size m) (c_bytes m) in
  (r ← write_version (ListMeta_encode lm) v; ListMeta_decode r) =
    Some (mkListMeta (at_v (l_base lm)) (l_head lm) (l_tail lm)) ∧
  (r ← write_version (StreamMeta_encode stm) v; StreamMeta_decode r) =
    Some (mkStreamMeta (at_v (st_base stm)) (st_last_id stm) (st_max_deleted_id stm)
            (st_entries_added stm)) ∧
  (r ← write_version (BloomMeta_encode bm) v; BloomMeta_decode r) =
    Some (mkBloomMeta (at_v (bm_base bm)) (bm_hash_id bm) (bm_layout bm) (bm_capacity bm)
            (bm_error bm) (bm_expansion bm) (bm_links bm)).
Proof.
  intros (Hl & ?) (Hs & ?) (Hb & ?) Hv at_v.
  assert (Hok : ∀ t m, meta_ok t m → meta_ok t (at_v m)).
  { intros t m (?&?&?&?&?). unfold meta_ok. by split_and!. }
  split_and!.
  - unfold ListMeta_encode at 1. rewrite (write_version_encode TList) by done.
    apply (ListMeta_decode_encode (mkListMeta _ _ _)). split; [by apply Hok|done].
  - unfold StreamMeta_encode at 1. rewrite (write_version_encode TStream) by done.
    apply (StreamMeta_decode_encode (mkStreamMeta _ _ _ _)). split; [by apply Hok|done].
  - unfold BloomMeta_encode at 1. rewrite (write_version_encode TBloom) by done.
    apply (BloomMeta_decode_encode (mkBloomMeta _ _ _ _ _ _ _)). split; [by apply Hok|done].
Qed.

Lemma write_version_keeps_the_tail_witness :
  (r ← write_version (ListMeta_encode (mkListMeta (ComplexMeta_new TList 9) (-3) 4)) 12;
   ListMeta_decode r) =
  Some (mkListMeta (mkComplexMeta (c_header (ComplexMeta_new TList 9)) 0 12 0 0) (-3) 4).
Proof.
  refine (proj1 (write_version_keeps_the_tail (mkListMeta (ComplexMeta_new TList 9) (-3) 4)
    (StreamMeta_new 9) (BloomMeta_new 9 100 0 2 (mkBloomLink 7 9 3 0 100)) 12 _ _ _ _));
    closed.
Defined.

(** Row order is value order: a list's element rows sort by index, a
    sorted set's index rows by encoded score and then member, and an encoded
    score decodes to the bits it came from. *)
Theorem row_order_is_value_order p i j s s' mem mem' :
  in_i64 i → in_i64 j → in_width 64 s → in_width 64 s' →
  blt (p ++ be 8 (bias_index i)) (p ++ be 8 (bias_index j)) = (i <? j) ∧
  bytes_cmp (p ++ be 8 (encode_score s) ++ mem) (p ++ be 8 (encode_score s') ++ mem') =
    match encode_score s ?= encode_score s' with Eq => bytes_cmp mem mem' | c => c end ∧
  unbias_index (bias_index i) = i ∧ decode_score (encode_score s) = s.
Proof.
  intros Hi Hj Hs Hs'. split_and!.
  - pose proof (bias_index_width _ Hi). pose proof (bias_index_width _ Hj).
    rewrite blt_app, blt_be, !bias_index_add by (done || width).
    destruct (Z.ltb_spec (i + 2 ^ 63) (j + 2 ^ 63)), (Z.ltb_spec i j); done || lia.
  - rewrite bytes_cmp_app. apply bytes_cmp_be; by apply encode_score_width.
  - by apply unbias_bias_index.
  - by apply decode_encode_score.
Qed.

Lemma row_order_is_value_order_witness :
  blt (bstr "p" ++ be 8 (bias_index (-5))) (bstr "p" ++ be 8 (bias_index 7)) = true.
Proof.
  refine (proj1 (row_order_is_value_order (bstr "p") (-5) 7 0 0 [] [] _ _ _ _));
    closed.
Defined.

(** Versions never repeat and never go back: however the clock moves,
    successive versions strictly increase, each above the counter it started
    from and above its own clock reading's floor. *)
Theorem versions_strictly_increase last clocks :
  0 <= last → last + len clocks < 2 ^ 63 → Forall (in_width 43) clocks →
  StronglySorted Z.lt (last :: version_run last clocks) ∧
  Forall2 (λ now v, now * 2 ^ 20 < v ∧ in_width 64 v) clocks (version_run last clocks).
Proof.
  intros Hlast Hlen Hc. assert (Hb : last < 2 ^ 64 - 1 - len clocks ∧ len clocks < 2 ^ 63) by lia.
  clear Hlen. revert last Hlast Hb.
  induction Hc as [|now clocks Hnow Hc IH]; intros last Hlast Hb; cbn [version_run length] in *.
  { repeat constructor. }
  pose proof (version_next_exact last now) as E. unfold clock_ok, U64_MAX in E.
  destruct (version_next_lt last now) as (H1 & H2 & H3);
    [unfold clock_ok; width|unfold U64_MAX; lia|].
  destruct (IH (version_next last now)) as [IH1 IH2]; [lia| |].
  { rewrite E by (unfold in_width in *; lia). unfold in_width in *. lia. }
  split; [|by constructor]. constructor; [done|].
  inversion IH1 as [|?? _ Hall]; subst. constructor; [done|].
  eapply Forall_impl; [done|]. cbn. lia.
Qed.

Lemma versions_strictly_increase_witness :
  StronglySorted Z.lt [0; 1048576001; 1048576002; 1048576003].
Proof.
  refine (proj1 (versions_strictly_increase 0 [1000; 1000; 999] _ _ _));
    closed.
Defined.

(** [StreamId::next] is the immediate successor in ID order and [prev]
    undoes it; it fails only at the largest ID. *)
Theorem stream_id_next_is_successor i :
  id_ok i →
  match StreamId_next i with
  | Some j => id_ok j ∧ StreamId_lt i j ∧ StreamId_prev j = Some i ∧
              (∀ x, id_ok x → StreamId_lt i x → x = j ∨ StreamId_lt j x)
  | None => i = StreamId_MAX
  end.
Proof.
  destruct i as [ms seq]. intros [Hms Hseq]. cbn [id_ms id_seq] in *.
  unfold StreamId_next. cbn [id_ms id_seq].
  destruct (checked_succ seq) as [seq'|] eqn:E.
  - apply checked_succ_Some in E as [? ->]. unfold U64_MAX in *.
    split_and!; [split; width|right; cbn; lia| |].
    + unfold StreamId_prev. cbn. replace (checked_pred (seq + 1)) with (Some seq); [done|].
      symmetry. apply checked_pred_Some. width.
    + intros [m s] [??] [?|[??]]; cbn in *; unfold StreamId_lt; cbn; [right; left; lia|].
      destruct (decide (s = seq + 1)) as [->|]; [left; by subst|right; right; lia].
  - apply checked_succ_None in E. unfold U64_MAX in *.
    destruct (checked_succ ms) as [ms'|] eqn:E'; cbn.
    + apply checked_succ_Some in E' as [? ->]. unfold U64_MAX in *.
      split_and!; [split; width|left; cbn; lia| |].
      * unfold StreamId_prev. cbn. replace (checked_pred (ms + 1)) with (Some ms).
        2:{ symmetry. apply checked_pred_Some. width. }
        cbn. unfold U64_MAX. do 2 f_equal. width.
      * intros [m s] [Hm Hs] [?|[??]]; cbn in *; unfold StreamId_lt; cbn; [|width].
        destruct (decide (m = ms + 1)) as [->|]; [|right; left; lia].
        destruct (decide (s = 0)) as [->|]; [by left|right; right; width].
    + apply checked_succ_None in E'. unfold StreamId_MAX, U64_MAX in *. f_equal; width.
Qed.

Lemma stream_id_next_is_successor_witness :
  StreamId_prev (mkStreamId 6 0) = Some (mkStreamId 5 U64_MAX).
Proof.
  pose proof (stream_id_next_is_successor (mkStreamId 5 U64_MAX)) as H.
  assert (id_ok (mkStreamId 5 U64_MAX)) as Hok by closed.
  exact (proj1 (proj2 (proj2 (H Hok)))).
Defined.
