(* ===== verification/Kv.v ===== *)
(** * The key-value seam and its in-memory engine

    Models [crates/flint-storage/src/lib.rs]: the [Kv] trait, the replica's
    write-suppressing view [ReadOnlyKv], the in-memory engine [MemKv] with its
    chunked cursor scans, and [prefix_successor].

    The stores above the seam are written once, as programs over the trait's
    operations ([prog]), and run on any engine ([run]). A scan hands its rows
    to the program as the list of rows the walk visits; a visitor that stops
    early uses a front part of that list. The trait's contract is [KvLaws]:
    an engine has a finite map behind it, its point operations act on that
    map and its scans answer that map's rows in key order. [run_view] is the
    simulation every store theorem is carried across engines by.

    The clock and the random source are streams of readings, so no two
    readings need agree. [VersionGen]'s process-wide counter is part of the
    world. *)

From stdpp Require Import base list gmap strings sorting.
From Stdlib Require Import ZArith Lia.
From Stdlib Require Strings.Byte.
From S2P Require Import Prelude Encoding.

(** ** The trait *)

Class Kv (E : Type) := {
  kv_get : E → bytes → option bytes;
  kv_put : E → bytes → bytes → E;
  kv_delete : E → bytes → E * bool;
  kv_for_each_prefix : E → bytes → list (bytes * bytes);
  kv_for_each_from : E → bytes → bytes → list (bytes * bytes);
  kv_for_each_before : E → bytes → bytes → list (bytes * bytes);
  kv_clear : E → E
}.

(** A walk's start bound as its callers build it: inside the walk's own
    prefix, or empty for none. *)
Definition bound_in (p s : bytes) : bytes := match s with [] => [] | _ => p ++ s end.

(** The contract: an engine is a finite map whose scans are in key order. *)
Class KvLaws (E : Type) `{Kv E} := {
  kv_view : E → kvmap;
  view_get s k : kv_get s k = kv_view s !! k;
  view_put s k v : kv_view (kv_put s k v) = <[k := v]> (kv_view s);
  view_delete s k : kv_view (kv_delete s k).1 = delete k (kv_view s);
  view_deleted s k : (kv_delete s k).2 = bool_decide (is_Some (kv_view s !! k));
  view_prefix s p : kv_for_each_prefix s p = prefix_rows (kv_view s) p;
  view_from s p f :
    kv_for_each_from s p (bound_in p f) = rows_from (kv_view s) p (bound_in p f);
  view_before s p b : kv_for_each_before s p b = rows_before (kv_view s) p b
}.

(** The map itself is the reference engine. *)
#[global] Instance map_kv : Kv kvmap := {
  kv_get m k := m !! k;
  kv_put m k v := <[k := v]> m;
  kv_delete m k := (delete k m, bool_decide (is_Some (m !! k)));
  kv_for_each_prefix m p := prefix_rows m p;
  kv_for_each_from m p a := rows_from m p a;
  kv_for_each_before m p b := rows_before m p b;
  kv_clear _ := ∅
}.

#[global] Instance map_kv_laws : KvLaws kvmap.
Proof. by exists id. Defined.

(** The default bodies of the trait, for an engine that only overrides
    [for_each_prefix]. *)
Definition default_for_each_from (rows : list (bytes * bytes)) (start_after : bytes)
    : list (bytes * bytes) :=
  filter (λ r : bytes * bytes,
    negb (negb (bool_decide (start_after = [])) && ble r.1 start_after) = true) rows.

Definition default_for_each_before (rows : list (bytes * bytes)) (start_before : bytes)
    : list (bytes * bytes) :=
  filter (λ r : bytes * bytes,
    negb (negb (bool_decide (start_before = [])) && ble start_before r.1) = true) (rev rows).

Definition count_prefix `{Kv E} (s : E) (prefix : bytes) : Z :=
  len (kv_for_each_prefix s prefix).

(** ** Programs over the trait *)

Inductive prog (A : Type) : Type :=
| Ret (a : A)
| Get (k : bytes) (c : option bytes → prog A)
| Put (k v : bytes) (c : prog A)
| Delete (k : bytes) (c : bool → prog A)
| ForEachPrefix (p : bytes) (c : list (bytes * bytes) → prog A)
| ForEachFrom (p s : bytes) (c : list (bytes * bytes) → prog A)
| ForEachBefore (p b : bytes) (c : list (bytes * bytes) → prog A)
| Clock (c : Z → prog A)
| NextVersion (now : Z) (c : Z → prog A)
| Random (c : Z → prog A)
| Panic.

Arguments Ret {A} a.
Arguments Get {A} k c.
Arguments Put {A} k v c.
Arguments Delete {A} k c.
Arguments ForEachPrefix {A} p c.
Arguments ForEachFrom {A} p s c.
Arguments ForEachBefore {A} p b c.
Arguments Clock {A} c.
Arguments NextVersion {A} now c.
Arguments Random {A} c.
Arguments Panic {A}.

Fixpoint bind {A B} (p : prog A) (f : A → prog B) : prog B :=
  match p with
  | Ret a => f a
  | Get k c => Get k (λ o, bind (c o) f)
  | Put k v c => Put k v (bind c f)
  | Delete k c => Delete k (λ b, bind (c b) f)
  | ForEachPrefix p c => ForEachPrefix p (λ l, bind (c l) f)
  | ForEachFrom p s c => ForEachFrom p s (λ l, bind (c l) f)
  | ForEachBefore p b c => ForEachBefore p b (λ l, bind (c l) f)
  | Clock c => Clock (λ n, bind (c n) f)
  | NextVersion now c => NextVersion now (λ n, bind (c n) f)
  | Random c => Random (λ n, bind (c n) f)
  | Panic => Panic
  end.

Notation "x <- p ;; q" := (bind p (λ x, q))
  (at level 100, p at next level, right associativity) : flint_scope.
Notation "p ;;; q" := (bind p (λ _, q))
  (at level 100, right associativity) : flint_scope.
#[global] Open Scope flint_scope.

Definition kvget (k : bytes) : prog (option bytes) := Get k Ret.
Definition kvput (k v : bytes) : prog unit := Put k v (Ret tt).
Definition kvdelete (k : bytes) : prog bool := Delete k Ret.
Definition for_each_prefix (p : bytes) : prog (list (bytes * bytes)) := ForEachPrefix p Ret.
Definition for_each_from (p s : bytes) : prog (list (bytes * bytes)) := ForEachFrom p s Ret.
Definition for_each_before (p b : bytes) : prog (list (bytes * bytes)) := ForEachBefore p b Ret.
Definition clock : prog Z := Clock Ret.
Definition next_version (now : Z) : prog Z := NextVersion now Ret.
Definition random : prog Z := Random Ret.

(** An assertion or a slice access: [None] panics. *)
Definition unwrap {A} (o : option A) : prog A :=
  match o with Some a => Ret a | None => Panic end.

(** [for x in l { body }], and the same with an accumulator. *)
Fixpoint for_ {A} (l : list A) (body : A → prog unit) : prog unit :=
  match l with
  | [] => Ret tt
  | x :: l' => body x ;;; for_ l' body
  end.

Fixpoint fold_ {A B} (l : list A) (body : B → A → prog B) (b : B) : prog B :=
  match l with
  | [] => Ret b
  | x :: l' => b' <- body b x ;; fold_ l' body b'
  end.

(** ** Results *)

Inductive StoreError :=
| NotInteger | Overflow | NotFloat | NanOrInfinity | NanScore | WrongType
| ValueTooLarge | KeyExists | BadParameter | FilterFull | StreamIdTooSmall
| StreamIdZero | StreamExhausted | NotHll | CorruptHll.

Inductive result (A : Type) := Ok (a : A) | Err (e : StoreError).
Arguments Ok {A} a.
Arguments Err {A} e.

(** Rust's [?]: an error returns at once. *)
Definition try_ {A B} (p : prog (result A)) (f : A → prog (result B)) : prog (result B) :=
  bind p (λ r, match r with Ok a => f a | Err e => Ret (Err e) end).

Notation "x <-? p ;; q" := (try_ p (λ x, q))
  (at level 100, p at next level, right associativity) : flint_scope.

(** [l.iter().map(f).collect::<Result<Vec<_>, _>>()], and [for x in l { f(x)?; }]
    with its answers kept: the first error ends it. *)
Fixpoint collect_ {A B} (l : list A) (f : A → prog (result B)) : prog (result (list B)) :=
  match l with
  | [] => Ret (Ok [])
  | x :: l' => b <-? f x ;; bs <-? collect_ l' f ;; Ret (Ok (b :: bs))
  end.

Definition ok_or {A} (o : option A) (e : StoreError) : result A :=
  match o with Some a => Ok a | None => Err e end.

(** ** Worlds and runs *)

Record world (E : Type) := World {
  w_kv : E;
  w_clock : nat → Z;
  w_last : Z;
  w_random : nat → Z
}.
Arguments World {E} w_kv w_clock w_last w_random.
Arguments w_kv {E} w.
Arguments w_clock {E} w _.
Arguments w_last {E} w.
Arguments w_random {E} w _.

Definition with_kv {E} (w : world E) (s : E) : world E :=
  World s (w_clock w) (w_last w) (w_random w).
Definition tick {E} (w : world E) : world E :=
  World (w_kv w) (λ n, w_clock w (S n)) (w_last w) (w_random w).
Definition with_last {E} (w : world E) (v : Z) : world E :=
  World (w_kv w) (w_clock w) v (w_random w).
Definition roll {E} (w : world E) : world E :=
  World (w_kv w) (w_clock w) (w_last w) (λ n, w_random w (S n)).

(** The answer and the world after; [None] is a panic. *)
Fixpoint run `{Kv E} {A} (p : prog A) (w : world E) : option (A * world E) :=
  match p with
  | Ret a => Some (a, w)
  | Get k c => run (c (kv_get (w_kv w) k)) w
  | Put k v c => run c (with_kv w (kv_put (w_kv w) k v))
  | Delete k c =>
      let d := kv_delete (w_kv w) k in run (c d.2) (with_kv w d.1)
  | ForEachPrefix p c => run (c (kv_for_each_prefix (w_kv w) p)) w
  | ForEachFrom p s c => run (c (kv_for_each_from (w_kv w) p (bound_in p s))) w
  | ForEachBefore p b c => run (c (kv_for_each_before (w_kv w) p b)) w
  | Clock c => run (c (w_clock w 0%nat)) (tick w)
  | NextVersion now c =>
      let v := version_next (w_last w) now in run (c v) (with_last w v)
  | Random c => run (c (w_random w 0%nat)) (roll w)
  | Panic => None
  end.

(** ** The replica's view *)

Record ReadOnlyKv (E : Type) := mkReadOnlyKv { ro_inner : E }.
Arguments mkReadOnlyKv {E} ro_inner.
Arguments ro_inner {E} _.

#[global] Instance read_only_kv `{Kv E} : Kv (ReadOnlyKv E) := {
  kv_get s k := kv_get (ro_inner s) k;
  kv_put s _ _ := s;
  kv_delete s _ := (s, false);
  kv_for_each_prefix s p := kv_for_each_prefix (ro_inner s) p;
  kv_for_each_from s p a := kv_for_each_from (ro_inner s) p a;
  kv_for_each_before s p b := kv_for_each_before (ro_inner s) p b;
  kv_clear s := s
}.

(** ** The in-memory engine

    The [BTreeMap] behind the lock is the finite map; [range] is the part of
    its ascending rows the bounds admit. *)

Record MemKv := mkMemKv { mem_map : kvmap }.

Definition CHUNK : nat := 1024.

Fixpoint take_while {A} (f : A → bool) (l : list A) : list A :=
  match l with
  | [] => []
  | x :: l' => if f x then x :: take_while f l' else []
  end.

(** What one lock hold of [chunked] copies out: up to [CHUNK] rows of the
    prefix, after the cursor or from the prefix. *)
Definition chunk_after (m : kvmap) (prefix : bytes) (cursor : option bytes)
    : list (bytes * bytes) :=
  let lower (r : bytes * bytes) :=
    match cursor with Some k => blt k r.1 | None => ble prefix r.1 end in
  take CHUNK (take_while (λ r : bytes * bytes, starts_with r.1 prefix)
    (filter (λ r, lower r = true) (rows_of m))).

Section Visit.
Context {A : Type}.

(** A visitor may re-enter the store: it is handed the map and the caller's
    state, and answers both and whether to go on. *)
Abbreviation visitor := (kvmap → A → bytes → bytes → kvmap * A * bool).

(** The rows of [l], in order, until the visitor stops; the last component
    says whether it did. *)
Fixpoint visit_rows (visit : visitor) (l : list (bytes * bytes)) (m : kvmap) (a : A)
    : kvmap * A * bool :=
  match l with
  | [] => (m, a, false)
  | (k, v) :: l' =>
      match visit m a k v with
      | (m', a', true) => visit_rows visit l' m' a'
      | (m', a', false) => (m', a', true)
      end
  end.

(** The loop of [chunked] and [chunked_rev]: one lock hold copies a chunk
    out, the visitor runs on it unlocked, and the last key copied is the
    next hold's cursor. Out of fuel is [None]. *)
Fixpoint chunk_loop (chunk_at : kvmap → option bytes → list (bytes * bytes))
    (fuel : nat) (visit : visitor) (cursor : option bytes) (m : kvmap) (a : A)
    : option (kvmap * A) :=
  match fuel with
  | O => None
  | S fuel' =>
      let chunk := chunk_at m cursor in
      let exhausted := bool_decide (length chunk < CHUNK)%nat in
      let cursor' := fst <$> last chunk in
      match visit_rows visit chunk m a with
      | (m', a', true) => Some (m', a')
      | (m', a', false) =>
          if exhausted then Some (m', a')
          else chunk_loop chunk_at fuel' visit cursor' m' a'
      end
  end.

Definition chunked (fuel : nat) (prefix : bytes) (visit : visitor)
    (cursor : option bytes) (m : kvmap) (a : A) : option (kvmap * A) :=
  chunk_loop (λ m c, chunk_after m prefix c) fuel visit cursor m a.
End Visit.

Abbreviation visitor A := (kvmap → A → bytes → bytes → kvmap * A * bool).

(** The least key above every key with the prefix: the last byte below 0xFF
    raised by one, the rest dropped. *)
Fixpoint raise_last (rev_prefix : bytes) : option bytes :=
  match rev_prefix with
  | [] => None
  | b :: p => if b2z b =? 255 then raise_last p else Some (rev (z2b (b2z b + 1) :: p))
  end.

Definition prefix_successor (prefix : bytes) : option bytes := raise_last (rev prefix).

Definition below (upper : option bytes) (k : bytes) : bool :=
  match upper with Some b => blt k b | None => true end.

(** What one lock hold of [chunked_rev] copies out, the last row first. *)
Definition chunk_before (m : kvmap) (prefix : bytes) (cursor : option bytes)
    : list (bytes * bytes) :=
  let upper := match cursor with Some k => Some k | None => prefix_successor prefix end in
  take CHUNK (take_while (λ r : bytes * bytes, starts_with r.1 prefix)
    (rev (filter (λ r : bytes * bytes, ble prefix r.1 && below upper r.1 = true) (rows_of m)))).

(** [MemKv::chunked_rev]: the cursor is clipped to the prefix's end, and one
    at or below the prefix leaves nothing before it. *)
Definition chunked_rev {A} (fuel : nat) (prefix : bytes) (visit : visitor A)
    (cursor : option bytes) (m : kvmap) (a : A) : option (kvmap * A) :=
  let cursor :=
    match cursor, prefix_successor prefix with
    | Some c, Some e => if blt e c then None else Some c
    | c, _ => c
    end in
  let loop := chunk_loop (λ m c, chunk_before m prefix c) fuel visit cursor m a in
  match cursor with
  | Some c => if ble c prefix then Some (m, a) else loop
  | None => loop
  end.

(** A visitor that collects the rows: the default [scan_prefix]'s. *)
Definition collect_visit : visitor (list (bytes * bytes)) :=
  λ m out k v, (m, out ++ [(k, v)], true).

(** One unit of fuel per row of the map, and one more: a lock hold that is
    not the last consumes [CHUNK] rows. *)
Definition mem_fuel (m : kvmap) : nat := S (size m).

(** An empty bound is no bound: [(!bound.is_empty()).then(..)]. *)
Definition seed (bound : bytes) : option bytes :=
  match bound with [] => None | _ => Some bound end.

Definition mem_collect (o : option (kvmap * list (bytes * bytes))) : list (bytes * bytes) :=
  match o with Some (_, out) => out | None => [] end.

#[global] Instance mem_kv : Kv MemKv := {
  kv_get s k := mem_map s !! k;
  kv_put s k v := mkMemKv (<[k := v]> (mem_map s));
  kv_delete s k := (mkMemKv (delete k (mem_map s)), bool_decide (is_Some (mem_map s !! k)));
  kv_for_each_prefix s p :=
    let m := mem_map s in mem_collect (chunked (mem_fuel m) p collect_visit None m []);
  kv_for_each_from s p a :=
    let m := mem_map s in mem_collect (chunked (mem_fuel m) p collect_visit (seed a) m []);
  kv_for_each_before s p b :=
    let m := mem_map s in mem_collect (chunked_rev (mem_fuel m) p collect_visit (seed b) m []);
  kv_clear _ := mkMemKv ∅
}.

(** [MemKv::scan_prefix]: one lock hold, a snapshot of the range. *)
Definition mem_scan_prefix (s : MemKv) (prefix : bytes) : list (bytes * bytes) :=
  take_while (λ r : bytes * bytes, starts_with r.1 prefix)
    (filter (λ r : bytes * bytes, ble prefix r.1 = true) (rows_of (mem_map s))).

(** * Lemmas *)

(** ** Runs *)

Lemma run_bind `{Kv E} {A B} (p : prog A) (f : A → prog B) (w : world E) :
  run (bind p f) w = '(a, w') ← run p w; run (f a) w'.
Proof.
  revert w.
  induction p as [a|k c IH|k v c IH|k c IH|pf c IH|pf s c IH|pf b c IH|c IH|now c IH|c IH|];
    intros w; cbn [run bind]; done || apply IH.
Qed.

Lemma bind_ret {A} (p : prog A) `{Kv E} (w : world E) : run (bind p Ret) w = run p w.
Proof. rewrite run_bind. by destruct (run p w) as [[??]|]. Qed.

Lemma run_try `{Kv E} {A B} (p : prog (result A)) (f : A → prog (result B)) (w : world E) :
  run (try_ p f) w =
  '(r, w') ← run p w; match r with Ok a => run (f a) w' | Err e => Some (Err e, w') end.
Proof.
  unfold try_. rewrite run_bind. destruct (run p w) as [[[a|e] w']|]; done.
Qed.

Lemma run_unwrap `{Kv E} {A B} (a : A) (f : A → prog B) (w : world E) :
  run (bind (unwrap (Some a)) f) w = run (f a) w.
Proof. done. Qed.

Lemma run_for_app `{Kv E} {A} (l1 l2 : list A) body (w : world E) :
  run (for_ (l1 ++ l2) body) w = '(_, w') ← run (for_ l1 body) w; run (for_ l2 body) w'.
Proof.
  revert w. induction l1 as [|x l1 IH]; intros w; [done|].
  cbn [app for_]. rewrite !run_bind. destruct (run (body x) w) as [[[] w']|]; cbn; auto.
Qed.

(** ** Simulation *)

Definition view_world `{KvLaws E} (w : world E) : world kvmap :=
  World (kv_view (w_kv w)) (w_clock w) (w_last w) (w_random w).

(** Running a program on an engine and then forgetting how the engine stores
    its rows is running it on the map those rows are. *)
Lemma run_view `{KvLaws E} {A} (p : prog A) (w : world E) :
  run p (view_world w) = prod_map id view_world <$> run p w.
Proof.
  revert w.
  induction p as [a|k c IH|k v c IH|k c IH|pf c IH|pf s c IH|pf b c IH|c IH|now c IH|c IH|];
    intros w; cbn [run]; try done.
  - rewrite <-IH. by rewrite (view_get (w_kv w)).
  - rewrite <-IH. unfold view_world, with_kv. cbn. by rewrite (view_put (w_kv w)).
  - rewrite <-IH. unfold view_world, with_kv. cbn. by rewrite (view_delete (w_kv w)), (view_deleted (w_kv w)).
  - rewrite <-IH. by rewrite (view_prefix (w_kv w)).
  - rewrite <-IH. by rewrite (view_from (w_kv w)).
  - rewrite <-IH. by rewrite (view_before (w_kv w)).
  - rewrite <-IH. done.
  - rewrite <-IH. done.
  - rewrite <-IH. done.
Qed.

(** ** Chunked scans *)

Lemma visit_rows_app {A} (visit : visitor A) l1 l2 m a :
  visit_rows visit (l1 ++ l2) m a =
  match visit_rows visit l1 m a with
  | (m', a', true) => (m', a', true)
  | (m', a', false) => visit_rows visit l2 m' a'
  end.
Proof.
  revert m a. induction l1 as [|[k v] l1 IH]; intros m a; [done|].
  cbn. destruct (visit m a k v) as [[m' a'] []]; auto.
Qed.

(** What the trait asks of a visitor, in the order [R] of the walk: it may
    write anywhere but on the rows the walk has yet to reach. *)
Definition visits_ahead {A} (R : bytes → bytes → Prop) (prefix : bytes) (visit : visitor A) : Prop :=
  ∀ m a k v m' a' go, visit m a k v = (m', a', go) →
    ∀ k', starts_with k' prefix = true → R k k' → m' !! k' = m !! k'.

Section ChunkLoop.
Context {A : Type} (R : bytes → bytes → Prop) `{!Transitive R}.
Context (Rirr : ∀ k, ¬ R k k).
Context (prefix : bytes) (visit : visitor A).
Context (chunk_at rest : kvmap → option bytes → list (bytes * bytes)).
Context (valid : option bytes → Prop).
Context (chunk_rest : ∀ m c, valid c → chunk_at m c = take CHUNK (rest m c)).
Context (rest_sorted : ∀ m c, StronglySorted (λ r s : bytes * bytes, R r.1 s.1) (rest m c)).
Context (rest_elem : ∀ m c k v, valid c →
  (k, v) ∈ rest m c ↔
  m !! k = Some v ∧ starts_with k prefix = true ∧
  match c with Some b => R b k | None => True end).
Context (rest_valid : ∀ m c k v, valid c → (k, v) ∈ rest m c → valid (Some k)).
Context (Hvisit : visits_ahead R prefix visit).

Lemma visit_rows_ahead l m a m' a' go k' :
  visit_rows visit l m a = (m', a', go) → starts_with k' prefix = true →
  (∀ r, r ∈ l → R r.1 k') → m' !! k' = m !! k'.
Proof.
  revert m a. induction l as [|[k v] l IH]; intros m a E Hk Hl.
  { cbn in E. by simplify_eq. }
  cbn in E. destruct (visit m a k v) as [[m1 a1] go1] eqn:Ev.
  assert (m1 !! k' = m !! k') as <-.
  { eapply Hvisit; [done..|]. apply (Hl (k, v)). by constructor. }
  destruct go1; simplify_eq; [|done].
  eapply IH; [done..|]. intros r Hr. apply Hl. by constructor.
Qed.

Lemma sorted_unique_R (l1 l2 : list (bytes * bytes)) :
  StronglySorted (λ r s : bytes * bytes, R r.1 s.1) l1 →
  StronglySorted (λ r s : bytes * bytes, R r.1 s.1) l2 →
  (∀ r, r ∈ l1 ↔ r ∈ l2) → l1 = l2.
Proof.
  intros H1 H2 E.
  assert (Hnd : ∀ l, StronglySorted (λ r s : bytes * bytes, R r.1 s.1) l → NoDup l).
  { intros l H. induction H as [|r l H IH Hr]; constructor; [|done].
    intros Hin. rewrite Forall_forall in Hr. by apply (Rirr r.1), Hr. }
  apply (StronglySorted_unique_strong (λ r s : bytes * bytes, R r.1 s.1)); auto.
  - intros x y _ _ Hxy Hyx. destruct (Rirr x.1). by transitivity y.1.
  - apply NoDup_Permutation; auto.
Qed.

(** After one chunk, what is left of the walk is what the walk resumed at the
    chunk's last key sees, whatever the visitor wrote behind it. *)
Lemma rest_resume m m' c k v :
  valid c → last (take CHUNK (rest m c)) = Some (k, v) →
  (∀ k', starts_with k' prefix = true → R k k' → m' !! k' = m !! k') →
  rest m' (Some k) = drop CHUNK (rest m c).
Proof.
  intros Hc Hlast Hm. apply last_Some in Hlast as [l Hl].
  pose proof (rest_sorted m c) as Hs. rewrite <-(take_drop CHUNK (rest m c)), Hl in Hs.
  assert (Hkv : (k, v) ∈ rest m c).
  { rewrite <-(take_drop CHUNK (rest m c)), Hl. set_solver. }
  rewrite <-app_assoc in Hs. pose proof Hs as Hs'.
  apply StronglySorted_app in Hs as (Hbefore & Hs1 & Hs2).
  cbn in Hs2. apply StronglySorted_inv in Hs2 as [Hs2 Hk]. rewrite Forall_forall in Hk.
  apply sorted_unique_R; [apply rest_sorted|done|]. intros [k' v'].
  rewrite rest_elem by (by eapply rest_valid).
  assert (Hin : (k', v') ∈ rest m c ↔ (k', v') ∈ l ∨ (k', v') = (k, v) ∨
                                      (k', v') ∈ drop CHUNK (rest m c)).
  { rewrite <-(take_drop CHUNK (rest m c)) at 1. rewrite Hl. set_solver. }
  split.
  - intros (Hv & Hp & HR). rewrite Hm in Hv by done.
    assert (Hr : (k', v') ∈ rest m c).
    { apply rest_elem; [done|]. split_and!; [done..|].
      apply rest_elem in Hkv as (_ & _ & Hck); [|done].
      destruct c; [|done]. by transitivity k. }
    apply Hin in Hr as [Hr|[Hr|Hr]]; [|simplify_eq; by destruct (Rirr k)|done].
    destruct (Rirr k). transitivity k'; [done|].
    apply (Hbefore (k', v') (k, v)); set_solver.
  - intros Hr. pose proof (Hk _ Hr) as HR. cbn in HR.
    assert (Hr' : (k', v') ∈ rest m c) by (apply Hin; auto).
    apply rest_elem in Hr' as (Hv & Hp & _); [|done].
    split_and!; [by rewrite Hm|done..].
Qed.

Lemma chunk_loop_rest fuel c m a :
  valid c → (length (rest m c) < fuel)%nat →
  chunk_loop chunk_at fuel visit c m a = Some (visit_rows visit (rest m c) m a).1.
Proof.
  revert c m a. induction fuel as [|fuel IH]; intros c m a Hc Hf; [lia|].
  cbn [chunk_loop]. rewrite chunk_rest by done.
  pose proof (visit_rows_app visit (take CHUNK (rest m c)) (drop CHUNK (rest m c)) m a) as Happ.
  rewrite take_drop in Happ. rewrite Happ. clear Happ.
  destruct (visit_rows visit (take CHUNK (rest m c)) m a) as [[m' a'] []] eqn:Ev; [done|].
  case_bool_decide as Hlen.
  { rewrite length_take in Hlen. by rewrite drop_ge by lia. }
  destruct (last (take CHUNK (rest m c))) as [[k v]|] eqn:El.
  2:{ apply last_None in El. rewrite El in Hlen. cbn in Hlen. unfold CHUNK in Hlen. lia. }
  cbn [fmap option_fmap option_map fst].
  assert (Hkv : (k, v) ∈ rest m c).
  { rewrite <-(take_drop CHUNK (rest m c)). apply last_Some in El as [l ->]. set_solver. }
  assert (Hr : rest m' (Some k) = drop CHUNK (rest m c)).
  { eapply rest_resume; [done..|]. intros k' Hk' HR.
    eapply visit_rows_ahead; [done..|]. intros r Hin.
    apply last_Some in El as [l El]. rewrite El in Hin.
    pose proof (rest_sorted m c) as Hs. rewrite <-(take_drop CHUNK (rest m c)), El in Hs.
    rewrite <-app_assoc in Hs. apply StronglySorted_app in Hs as (Hb & _ & _).
    apply elem_of_app in Hin as [Hin|Hin].
    - transitivity k; [|done]. apply (Hb r (k, v)); set_solver.
    - by apply list_elem_of_singleton in Hin as ->. }
  rewrite IH; [|by eapply rest_valid|].
  - by rewrite Hr.
  - rewrite Hr, length_drop. rewrite length_take in Hlen. unfold CHUNK in *. lia.
Qed.
End ChunkLoop.

(** ** Prefix ranges *)

Lemma ble_prefix p r : ble p (p ++ r) = true.
Proof. rewrite <-(app_nil_r p) at 1. rewrite ble_app. by destruct r. Qed.

(** A key between a prefix and one of its extensions extends it. *)
Lemma prefix_convex p k r :
  ble p k = true → ble k (p ++ r) = true → ∃ r', k = p ++ r'.
Proof.
  revert k. induction p as [|a p IH]; intros k H1 H2; [by exists k|].
  destruct k as [|b k]; [done|]. unfold ble in H1, H2. cbn in H1, H2.
  destruct (Z.compare_spec (b2z a) (b2z b)) as [E|E|E]; [| |done].
  - apply b2z_inj in E as ->. rewrite Z.compare_refl in H2.
    destruct (IH k) as [r' ->]; [done..|]. by exists r'.
  - by destruct (Z.compare_spec (b2z b) (b2z a)); try lia.
Qed.

Lemma prefix_successor_snoc q b :
  prefix_successor (q ++ [b]) =
  if b2z b =? 255 then prefix_successor q else Some (q ++ [z2b (b2z b + 1)]).
Proof.
  unfold prefix_successor. rewrite rev_unit. cbn [raise_last].
  destruct (b2z b =? 255); [done|]. cbn [rev]. by rewrite rev_involutive.
Qed.

Lemma cons_byte_bounds b r :
  b2z b ≠ 255 →
  ble [b] r && blt r [z2b (b2z b + 1)] = starts_with r [b].
Proof.
  intros Hb. pose proof (b2z_range b). destruct r as [|c r]; [done|].
  unfold ble, blt, starts_with. cbn [bytes_cmp strip_prefix].
  rewrite b2z_z2b_id by width.
  destruct (Byte.eqb b c) eqn:E.
  - apply Byte.byte_dec_bl in E as ->. rewrite Z.compare_refl.
    destruct (Z.compare_spec (b2z c) (b2z c + 1)); try lia. by destruct r.
  - apply Byte.eqb_false in E.
    destruct (Z.compare_spec (b2z b) (b2z c)) as [E'|E'|E'].
    + by apply b2z_inj in E'.
    + destruct (Z.compare_spec (b2z c) (b2z b + 1)); [|lia|done].
      by destruct r.
    + done.
Qed.

Lemma cons_byte_top b r : b2z b = 255 → ble [b] r = starts_with r [b].
Proof.
  intros Hb. destruct r as [|c r]; [done|]. pose proof (b2z_range c).
  unfold ble, starts_with. cbn [bytes_cmp strip_prefix].
  destruct (Byte.eqb b c) eqn:E.
  - apply Byte.byte_dec_bl in E as ->. rewrite Z.compare_refl. by destruct r.
  - apply Byte.eqb_false in E.
    destruct (Z.compare_spec (b2z b) (b2z c)) as [E'|E'|E']; [by apply b2z_inj in E'|lia|done].
Qed.

Lemma ble_front q r k : ble (q ++ r) k = true → ble q k = true.
Proof. intros. eapply ble_trans; [|done]. apply ble_prefix. Qed.

Lemma starts_with_snoc q b r : starts_with (q ++ r) (q ++ [b]) = starts_with r [b].
Proof.
  unfold starts_with. induction q as [|a q IH]; [done|]. cbn.
  replace (Byte.eqb a a) with true; [done|]. symmetry. by apply Byte.byte_dec_lb.
Qed.

Lemma starts_with_refl p : starts_with p p = true.
Proof. rewrite <-(app_nil_r p) at 1. apply starts_with_app. Qed.

Lemma starts_with_trans k q b : starts_with k (q ++ [b]) = true → starts_with k q = true.
Proof.
  rewrite !starts_with_true. intros [r ->]. exists ([b] ++ r). by rewrite app_assoc.
Qed.

Lemma prefix_successor_range p k :
  ble p k && below (prefix_successor p) k = starts_with k p.
Proof.
  revert k. induction p as [|b q IH] using rev_ind; intros k.
  { cbn. destruct k; done. }
  rewrite prefix_successor_snoc. destruct (Z.eqb_spec (b2z b) 255) as [Hb|Hb].
  - apply eq_bool_prop_intro. rewrite !Is_true_true. rewrite andb_true_iff. split.
    + intros [H1 H2]. pose proof (IH k) as Hk. rewrite (ble_front _ _ _ H1), H2 in Hk.
      symmetry in Hk. apply starts_with_true in Hk as [r ->].
      rewrite starts_with_snoc, <-cons_byte_top by done. by rewrite ble_app in H1.
    + intros H. pose proof (starts_with_trans _ _ _ H) as Hq.
      pose proof (IH k) as Hk. rewrite Hq in Hk. apply andb_true_iff in Hk as [_ ?].
      split; [|done]. apply starts_with_true in H as [r ->]. apply ble_prefix.
  - cbn [below]. apply eq_bool_prop_intro. rewrite !Is_true_true, andb_true_iff. split.
    + intros [H1 H2].
      destruct (prefix_convex q k [z2b (b2z b + 1)]) as [r ->].
      { by eapply ble_front. }
      { apply ble_lt_or_eq. auto. }
      rewrite starts_with_snoc, <-cons_byte_bounds by done.
      rewrite ble_app in H1. rewrite blt_app in H2. by rewrite H1, H2.
    + intros H. apply starts_with_true in H as [r ->]. split; [apply ble_prefix|].
      rewrite <-app_assoc, blt_app. pose proof (cons_byte_bounds b ([b] ++ r) Hb) as E.
      rewrite starts_with_app in E. by apply andb_true_iff in E as [_ ?].
Qed.

Lemma below_successor_le p b k :
  match prefix_successor p with Some e => ble b e = true | None => True end →
  ble p k = true → blt k b = true → starts_with k p = true.
Proof.
  intros Hb H1 H2. rewrite <-prefix_successor_range, H1.
  destruct (prefix_successor p) as [e|]; [|done]. cbn.
  apply ble_lt_or_eq in Hb as [?| ->]; [|done]. by eapply blt_trans.
Qed.

Lemma prefix_successor_none p :
  prefix_successor p = None ↔ Forall (λ b, b2z b = 255) p.
Proof.
  induction p as [|b q IH] using rev_ind; [done|].
  rewrite prefix_successor_snoc, Forall_app, Forall_singleton.
  destruct (Z.eqb_spec (b2z b) 255); [tauto|]. naive_solver.
Qed.

(** ** The chunks of [MemKv] *)

Lemma elem_of_prefix_rows m p k v :
  (k, v) ∈ prefix_rows m p ↔ m !! k = Some v ∧ starts_with k p = true.
Proof.
  unfold prefix_rows. rewrite list_elem_of_filter, elem_of_rows_of. naive_solver.
Qed.

Lemma ascending_prefix_rows m p : ascending (prefix_rows m p).
Proof. apply ascending_filter, ascending_rows_of. Qed.

Lemma take_while_true {A} (f : A → bool) l : (∀ x, x ∈ l → f x = true) → take_while f l = l.
Proof.
  induction l as [|x l IH]; intros H; [done|]. cbn. rewrite H by (by constructor).
  f_equal. apply IH. intros. apply H. by constructor.
Qed.

Lemma take_while_prefix p l :
  ascending l → (∀ r, r ∈ l → ble p r.1 = true) →
  take_while (λ r : bytes * bytes, starts_with r.1 p) l =
  filter (λ r : bytes * bytes, starts_with r.1 p = true) l.
Proof.
  intros H. induction H as [|r l H IH Hr]; intros Hp; [done|].
  cbn [take_while]. rewrite filter_cons.
  destruct (starts_with r.1 p) eqn:E.
  - rewrite decide_True by done. f_equal. apply IH. intros. apply Hp. by constructor.
  - rewrite decide_False by done. symmetry.
    apply filter_none. intros s Hs Hsw.
    rewrite Forall_forall in Hr. apply starts_with_true in Hsw as [x Hx].
    destruct (prefix_convex p r.1 x) as [y Hy].
    + apply Hp. by constructor.
    + rewrite <-Hx. apply ble_lt_or_eq. left. by apply Hr.
    + rewrite Hy, starts_with_app in E. done.
Qed.

Lemma rev_alt' {A} (l : list A) : rev l = reverse l.
Proof. unfold reverse. by rewrite rev_alt. Qed.

(** What is left of an ascending walk after a cursor. *)
Definition rest_after (p : bytes) (m : kvmap) (c : option bytes) : list (bytes * bytes) :=
  filter (λ r : bytes * bytes, match c with Some b => blt b r.1 | None => true end = true)
    (prefix_rows m p).

(** What is left of a descending walk before a cursor. *)
Definition rest_before (p : bytes) (m : kvmap) (c : option bytes) : list (bytes * bytes) :=
  rev (filter (λ r : bytes * bytes, match c with Some b => blt r.1 b | None => true end = true)
         (prefix_rows m p)).

Definition cursor_after (p : bytes) (c : option bytes) : Prop :=
  match c with Some b => ble p b = true | None => True end.

Definition cursor_before (p : bytes) (c : option bytes) : Prop :=
  match c with
  | Some b => match prefix_successor p with Some e => ble b e = true | None => True end
  | None => True
  end.

Lemma elem_of_rest_after p m c k v :
  (k, v) ∈ rest_after p m c ↔
  m !! k = Some v ∧ starts_with k p = true ∧
  match c with Some b => blt b k = true | None => True end.
Proof.
  unfold rest_after. rewrite list_elem_of_filter, elem_of_prefix_rows. destruct c; naive_solver.
Qed.

Lemma elem_of_rest_before p m c k v :
  (k, v) ∈ rest_before p m c ↔
  m !! k = Some v ∧ starts_with k p = true ∧
  match c with Some b => blt k b = true | None => True end.
Proof.
  unfold rest_before. rewrite rev_alt', elem_of_reverse.
  rewrite list_elem_of_filter, elem_of_prefix_rows. destruct c; naive_solver.
Qed.

Lemma ascending_rest_after p m c : ascending (rest_after p m c).
Proof. apply ascending_filter, ascending_prefix_rows. Qed.

Lemma descending_rev l :
  ascending l → StronglySorted (λ r s : bytes * bytes, blt s.1 r.1 = true) (rev l).
Proof.
  induction 1 as [|r l H IH Hr]; [constructor|]. cbn [rev].
  apply StronglySorted_app. split_and!; [|done|repeat constructor].
  intros x y Hx Hy. apply list_elem_of_singleton in Hy as ->.
  rewrite rev_alt', elem_of_reverse in Hx.
  rewrite Forall_forall in Hr. by apply Hr.
Qed.

Lemma chunk_after_rest p m c :
  cursor_after p c → chunk_after m p c = take CHUNK (rest_after p m c).
Proof.
  intros Hc. unfold chunk_after. f_equal. rewrite take_while_prefix.
  - apply ascending_unique.
    + apply ascending_filter, ascending_filter, ascending_rows_of.
    + apply ascending_rest_after.
    + intros [k v]. rewrite !list_elem_of_filter, elem_of_rows_of, elem_of_rest_after.
      destruct c as [b|]; [naive_solver|]. split; [naive_solver|].
      intros (Hv & Hs & _). split_and!; [done| |done].
      apply starts_with_true in Hs as [r ->]. apply ble_prefix.
  - apply ascending_filter, ascending_rows_of.
  - intros r. rewrite list_elem_of_filter. destruct c as [b|]; [|naive_solver].
    intros [Hb _]. eapply ble_trans; [done|]. apply ble_lt_or_eq. auto.
Qed.

Lemma chunk_before_rest p m c :
  cursor_before p c → chunk_before m p c = take CHUNK (rest_before p m c).
Proof.
  intros Hc. unfold chunk_before. f_equal.
  assert (Hsw : ∀ k, ble p k && below match c with Some k => Some k | None => prefix_successor p end k = true →
                     starts_with k p = true).
  { intros k. destruct c as [b|]; [|by rewrite prefix_successor_range].
    rewrite andb_true_iff. intros [??]. by eapply below_successor_le. }
  rewrite take_while_true.
  - unfold rest_before. f_equal. apply ascending_unique.
    + apply ascending_filter, ascending_rows_of.
    + apply ascending_filter, ascending_prefix_rows.
    + intros [k v]. rewrite !list_elem_of_filter, elem_of_rows_of, elem_of_prefix_rows.
      specialize (Hsw k). cbn [fst]. split.
      * intros [Hk Hv]. split_and!; auto. destruct c; [|done].
        by apply andb_true_iff in Hk as [_ ?].
      * intros (Hk & Hv & Hs). split; [|done]. destruct c as [b|].
        -- apply andb_true_iff. split; [|done].
           apply starts_with_true in Hs as [r ->]. apply ble_prefix.
        -- by rewrite prefix_successor_range.
  - intros r Hr. rewrite rev_alt', elem_of_reverse in Hr.
    apply list_elem_of_filter in Hr as [Hr _]. by apply Hsw.
Qed.

Lemma visit_collect l m out :
  visit_rows collect_visit l m out = (m, out ++ l, false).
Proof.
  revert out. induction l as [|[k v] l IH]; intros out; cbn; [by rewrite app_nil_r|].
  by rewrite IH, <-app_assoc.
Qed.

Lemma collect_ahead R p : visits_ahead R p collect_visit.
Proof. intros m a k v m' a' go E. unfold collect_visit in E. naive_solver. Qed.

Definition R_up (k k' : bytes) : Prop := blt k k' = true.
Definition R_down (k k' : bytes) : Prop := blt k' k = true.

#[global] Instance R_up_trans : Transitive R_up.
Proof. intros ???. apply blt_trans. Qed.
#[global] Instance R_down_trans : Transitive R_down.
Proof. intros ??? H1 H2. unfold R_down in *. eapply blt_trans; done. Qed.

Lemma R_up_irrefl k : ¬ R_up k k.
Proof. unfold R_up. by rewrite blt_irrefl. Qed.
Lemma R_down_irrefl k : ¬ R_down k k.
Proof. unfold R_down. by rewrite blt_irrefl. Qed.

Lemma length_rest_le p m c : (length (rest_after p m c) ≤ size m)%nat.
Proof.
  unfold rest_after, prefix_rows. rewrite <-length_rows_of.
  etransitivity; [apply length_filter|]. apply length_filter.
Qed.

Lemma length_rest_before_le p m c : (length (rest_before p m c) ≤ size m)%nat.
Proof.
  unfold rest_before, prefix_rows. rewrite length_rev, <-length_rows_of.
  etransitivity; [apply length_filter|]. apply length_filter.
Qed.

(** [MemKv]'s chunked walk visits the rows there were when it started, in
    order, although the visitor runs unlocked and may write behind itself. *)
Lemma chunked_visits {A} (p : bytes) (visit : visitor A) (c : option bytes) (m : kvmap) (a : A) (fuel : nat) :
  visits_ahead R_up p visit → cursor_after p c → (size m < fuel)%nat →
  chunked fuel p visit c m a = Some (visit_rows visit (rest_after p m c) m a).1.
Proof.
  intros Hv Hc Hf. unfold chunked.
  apply (chunk_loop_rest R_up R_up_irrefl p visit _ (rest_after p) (cursor_after p)); auto.
  - intros. by apply chunk_after_rest.
  - intros. apply ascending_rest_after.
  - intros. apply elem_of_rest_after.
  - intros m' c' k v _ Hin. apply elem_of_rest_after in Hin as (_ & Hs & _). cbn.
    apply starts_with_true in Hs as [r ->]. apply ble_prefix.
  - pose proof (length_rest_le p m c). lia.
Qed.

Lemma chunked_rev_visits {A} (p : bytes) (visit : visitor A) (c : option bytes) (m : kvmap) (a : A) (fuel : nat) :
  visits_ahead R_down p visit → (size m < fuel)%nat →
  chunked_rev fuel p visit c m a = Some (visit_rows visit (rest_before p m c) m a).1.
Proof.
  intros Hv Hf.
  assert (Hloop : ∀ c, cursor_before p c →
    chunk_loop (λ m c, chunk_before m p c) fuel visit c m a =
    Some (visit_rows visit (rest_before p m c) m a).1).
  { intros c' Hc'.
    apply (chunk_loop_rest R_down R_down_irrefl p visit _ (rest_before p) (cursor_before p)); auto.
    - intros. by apply chunk_before_rest.
    - intros. apply descending_rev, ascending_filter, ascending_prefix_rows.
    - intros. apply elem_of_rest_before.
    - intros m' c'' k v _ Hin. apply elem_of_rest_before in Hin as (_ & Hs & _). cbn.
      pose proof (prefix_successor_range p k) as Hr. rewrite Hs in Hr.
      apply andb_true_iff in Hr as [_ Hb]. destruct (prefix_successor p); [|done].
      apply ble_lt_or_eq. auto.
    - pose proof (length_rest_before_le p m c'). lia. }
  unfold chunked_rev.
  assert (Hlow : ∀ b, ble b p = true → rest_before p m (Some b) = []).
  { intros b Hb. unfold rest_before. rewrite filter_none; [done|].
    intros [k v] [_ Hs]%elem_of_prefix_rows. cbn. intros Hlt.
    apply starts_with_true in Hs as [r ->].
    assert (ble b (p ++ r) = true) as H by (eapply ble_trans; [done|apply ble_prefix]).
    rewrite ble_blt, Hlt in H. done. }
  assert (Hclip : ∀ b e, prefix_successor p = Some e → blt e b = true →
    rest_before p m (Some b) = rest_before p m None).
  { intros b e He Hb. unfold rest_before. f_equal. apply list_filter_iff'.
    intros [k v] [_ Hs]%elem_of_prefix_rows. cbn. split; [done|]. intros _.
    rewrite <-prefix_successor_range, He in Hs.
    apply andb_true_iff in Hs as [_ Hs]. by eapply blt_trans. }
  destruct c as [b|]; [|by apply Hloop].
  destruct (prefix_successor p) as [e|] eqn:Ee; [destruct (blt e b) eqn:Eb|].
  - rewrite (Hclip b e) by done. by apply Hloop.
  - destruct (ble b p) eqn:Ebp; [by rewrite Hlow|]. apply Hloop. cbn. rewrite Ee.
    by rewrite ble_blt, Eb.
  - destruct (ble b p) eqn:Ebp; [by rewrite Hlow|]. apply Hloop. cbn. by rewrite Ee.
Qed.

Lemma mem_prefix s p : kv_for_each_prefix s p = prefix_rows (mem_map s) p.
Proof.
  unfold kv_for_each_prefix, mem_kv. cbv zeta. rewrite chunked_visits; [|apply collect_ahead|done|unfold mem_fuel; lia].
  rewrite visit_collect. cbn [fst mem_collect app]. unfold rest_after. by apply list_filter_true.
Qed.

#[global] Instance mem_kv_laws : KvLaws MemKv.
Proof.
  exists mem_map; try done.
  - apply mem_prefix.
  - intros s p f. unfold kv_for_each_from, mem_kv. cbv zeta. rewrite chunked_visits; [|apply collect_ahead| |unfold mem_fuel; lia].
    + rewrite visit_collect. cbn [fst mem_collect app]. unfold rest_after, rows_from.
      apply list_filter_iff'. intros [k v] _. cbn.
      destruct (bound_in p f) eqn:E; [done|]. cbn. done.
    + destruct f; [done|]. unfold cursor_after, seed, bound_in.
      destruct (p ++ b :: f) eqn:E; [done|].
      rewrite <-E. apply ble_prefix.
  - intros s p b. unfold kv_for_each_before, mem_kv. cbv zeta. rewrite chunked_rev_visits; [|apply collect_ahead|unfold mem_fuel; lia].
    rewrite visit_collect. cbn [fst mem_collect app]. unfold rest_before, rows_before.
    rewrite !rev_alt', filter_reverse. f_equal.
    apply list_filter_iff'. intros [k v] _. cbn. destruct b; done.
Defined.

Lemma mem_scan s p : mem_scan_prefix s p = prefix_rows (mem_map s) p.
Proof.
  pose proof (take_while_prefix p
    (filter (λ r : bytes * bytes, ble p r.1 = true) (rows_of (mem_map s)))) as E.
  unfold mem_scan_prefix. rewrite E.
  - apply ascending_unique.
    + apply ascending_filter, ascending_filter, ascending_rows_of.
    + apply ascending_prefix_rows.
    + intros [k v]. rewrite !list_elem_of_filter, elem_of_rows_of, elem_of_prefix_rows.
      cbn. split; [naive_solver|]. intros [Hv Hs]. split_and!; [done| |done].
      apply starts_with_true in Hs as [r ->]. apply ble_prefix.
  - apply ascending_filter, ascending_rows_of.
  - intros r. rewrite list_elem_of_filter. naive_solver.
Qed.

Lemma read_only_run `{Kv E} {A} (p : prog A) (w w' : world (ReadOnlyKv E)) a :
  run p w = Some (a, w') → w_kv w' = w_kv w.
Proof.
  revert w.
  induction p as [x|k c IH|k v c IH|k c IH|pf c IH|pf s c IH|pf b c IH|c IH|now c IH|c IH|];
    intros w; cbn [run]; try (intros E'; apply IH in E'; by rewrite E'); naive_solver.
Qed.

(** * Properties *)

(** C9. The in-memory engine's walks copy out at most 1024 rows per lock hold
    and run the visitor unlocked. Whatever the visitor writes behind itself
    (the sweeper deletes the row it is on), the walk ends, and it has visited
    exactly the rows under the prefix past the cursor that were there when it
    started, each once, in key order, up to the visitor's stop: forward with
    the cursor at or past the prefix, backward with any cursor. *)
Theorem chunked_walks_visit_each_row_once {A} (p : bytes) (visit : visitor A)
    (c : option bytes) (m : kvmap) (a : A) :
  (visits_ahead R_up p visit → cursor_after p c →
   chunked (mem_fuel m) p visit c m a =
   Some (visit_rows visit
           (filter (λ r : bytes * bytes, match c with Some b => blt b r.1 | None => true end = true)
              (prefix_rows m p)) m a).1) ∧
  (visits_ahead R_down p visit →
   chunked_rev (mem_fuel m) p visit c m a =
   Some (visit_rows visit
           (rev (filter (λ r : bytes * bytes, match c with Some b => blt r.1 b | None => true end = true)
                   (prefix_rows m p))) m a).1).
Proof.
  split; intros.
  - by apply chunked_visits; [..|unfold mem_fuel; lia].
  - by apply chunked_rev_visits; [|unfold mem_fuel; lia].
Qed.

(** A visitor that deletes the row it is on and counts it: the sweeper's. *)
Definition sweep_visit : visitor nat := λ m n k _, (delete k m, S n, true).

Lemma sweep_ahead_up p : visits_ahead R_up p sweep_visit.
Proof.
  intros m a k v m' a' go E k' _ HR. unfold sweep_visit in E. simplify_eq.
  apply lookup_delete_ne. intros ->. by apply R_up_irrefl in HR.
Qed.

Definition three_rows : kvmap :=
  <[bstr "ha" := bstr "1"]> (<[bstr "hb" := bstr "2"]> {[bstr "i" := bstr "3"]}).

Lemma chunked_walks_visit_each_row_once_witness :
  chunked (mem_fuel three_rows) (bstr "h") sweep_visit None three_rows 0%nat =
  Some ({[bstr "i" := bstr "3"]}, 2%nat).
Proof.
  rewrite (proj1 (chunked_walks_visit_each_row_once (bstr "h") sweep_visit None three_rows 0%nat)
             (sweep_ahead_up (bstr "h")) I).
  vm_compute. reflexivity.
Defined.


(** On a replica no command writes: whatever program runs through the
    write-suppressing view, lazy expiry included, the store below is the one
    it was. *)
Theorem replica_never_writes `{Kv E} {A} (p : prog A) (w w' : world (ReadOnlyKv E)) a :
  run p w = Some (a, w') → ro_inner (w_kv w') = ro_inner (w_kv w).
Proof. intros Hr. by rewrite (read_only_run p w w' a Hr). Qed.

Lemma replica_never_writes_witness :
  ro_inner (w_kv (World (mkReadOnlyKv three_rows) (λ _, 5) 0 (λ _, 0))) = three_rows.
Proof.
  exact (replica_never_writes
    (kvdelete (bstr "ha")) (World (mkReadOnlyKv three_rows) (λ _, 5) 0 (λ _, 0))
    (World (mkReadOnlyKv three_rows) (λ _, 5) 0 (λ _, 0)) false eq_refl).
Defined.

(** [prefix_successor] bounds a prefix exactly: the keys with the prefix
    are those from the prefix up to, and excluding, the successor (all from
    the prefix on when there is none); and the successor is the least such
    bound, there being none only for a prefix of 0xFF bytes. *)
Theorem prefix_successor_is_least_bound (p : bytes) :
  (∀ k, starts_with k p = true ↔ ble p k = true ∧ below (prefix_successor p) k = true) ∧
  (∀ e b, prefix_successor p = Some e →
     (∀ k, starts_with k p = true → blt k b = true) → ble e b = true) ∧
  (prefix_successor p = None ↔ Forall (λ b, b2z b = 255) p).
Proof.
  assert (Hr : ∀ k, starts_with k p = true ↔ ble p k = true ∧ below (prefix_successor p) k = true).
  { intros k. by rewrite <-prefix_successor_range, andb_true_iff. }
  split_and!; [done|..|apply prefix_successor_none].
  intros e b He Hb. rewrite ble_blt, negb_true_iff. apply not_true_is_false. intros Hlt.
  destruct (ble p b) eqn:Epb.
  - specialize (Hb b). rewrite blt_irrefl in Hb. discriminate Hb. apply Hr. by rewrite He.
  - rewrite ble_blt, negb_false_iff in Epb.
    specialize (Hb p (starts_with_refl p)).
    pose proof (blt_trans _ _ _ Hb Epb) as Hpp. by rewrite blt_irrefl in Hpp.
Qed.
