(* ===== verification/Batch.v ===== *)
(** * The write-batching overlay

    Models [crates/flint-storage/src/batch.rs]: [BatchingKv] buffers a batch's
    writes in front of an engine and merges them into every read, point reads
    and the three scans alike, so that the batch's commands run one after the
    other as if each had reached the store; [into_ops] hands the buffer to the
    engine's [apply_writes] ([rocks.rs]), which commits it as one batch.

    [merge] is modelled with its visitor and the visitor's early stop, over the
    rows the underlying walk visits. The overlay is a lawful engine
    ([batch_kv_laws]) whose view is its buffer laid over the view below. *)

From stdpp Require Import base list gmap strings sorting.
From Stdlib Require Import ZArith Lia.
From Stdlib Require Strings.Byte.
From S2P Require Import Prelude Encoding Kv.

(** ** The buffer *)

(** Final state per key: [Some (Some v)] is a put, [Some None] a delete. *)
Abbreviation buffer := (gmap bytes (option bytes)).

Record BatchingKv (E : Type) := mkBatchingKv { under : E; buf : buffer }.
Arguments mkBatchingKv {E} under buf.
Arguments under {E} _.
Arguments buf {E} _.

Definition BatchingKv_new {E} (s : E) : BatchingKv E := mkBatchingKv s ∅.

Definition into_ops `{HashIter} {E} (s : BatchingKv E) : list (bytes * option bytes) := hash_iter (buf s).

(** The buffered operation wins over the row below. *)
Definition overlay (b : buffer) (m : kvmap) : kvmap :=
  merge (λ (o : option (option bytes)) (u : option bytes),
    match o with Some op => op | None => u end) b m.

(** [b] comes before [k] in the walk's order. *)
Definition ahead (descending : bool) (b k : bytes) : bool :=
  if descending then blt k b else blt b k.

Definition pending_le (descending : bool) (a b : bytes * option bytes) : Prop :=
  (if descending then ble b.1 a.1 else ble a.1 b.1) = true.

#[global] Instance pending_le_dec descending : RelDecision (pending_le descending).
Proof. intros ??. unfold pending_le. apply _. Defined.

(** The buffered rows under a prefix that [keep] admits, sorted the walk's
    way: the hash map yields them in no order the program knows. *)
Definition pending `{HashIter} (b : buffer) (prefix : bytes) (keep : bytes → bool) (descending : bool)
    : list (bytes * option bytes) :=
  merge_sort (pending_le descending)
    (filter (λ r : bytes * option bytes, starts_with r.1 prefix && keep r.1 = true)
       (hash_iter b)).

(** ** The merged walk *)

Section Merge.
Context {A : Type} (visit : A → bytes → bytes → A * bool).

(** A walk: the visitor is shown each row until it answers [false]. *)
Fixpoint walk {B} (v : B → bytes → bytes → B * bool) (rows : list (bytes * bytes)) (b : B)
    : B * bool :=
  match rows with
  | [] => (b, true)
  | (k, x) :: rows =>
      match v b k x with
      | (b', true) => walk v rows b'
      | (b', false) => (b', false)
      end
  end.

(** The [while] loops of [merge]: visit buffered puts as long as [go] admits
    the next buffered key; [false] when the visitor stopped. *)
Fixpoint drain (go : bytes → bool) (pending : list (bytes * option bytes)) (a : A)
    : list (bytes * option bytes) * A * bool :=
  match pending with
  | [] => ([], a, true)
  | (bk, bv) :: rest =>
      if go bk then
        match bv with
        | Some val =>
            match visit a bk val with
            | (a', true) => drain go rest a'
            | (a', false) => (rest, a', false)
            end
        | None => drain go rest a
        end
      else (pending, a, true)
  end.

(** The closure [merge] hands the underlying walk: its state is what is left
    of [pending], whether the visitor stopped, and the visitor's own state. *)
Definition merge_step (descending : bool)
    (st : list (bytes * option bytes) * bool * A) (k v : bytes)
    : (list (bytes * option bytes) * bool * A) * bool :=
  let '(pending, stopped, a) := st in
  match drain (λ b, ahead descending b k) pending a with
  | (rest, a, false) => ((rest, true, a), false)
  | (rest, a, true) =>
      let row :=
        match visit a k v with
        | (a', true) => ((rest, stopped, a'), true)
        | (a', false) => ((rest, true, a'), false)
        end in
      match rest with
      | (bk, bv) :: rest' =>
          if decide (bk = k) then
            match bv with
            | Some val =>
                match visit a bk val with
                | (a', true) => ((rest', stopped, a'), true)
                | (a', false) => ((rest', true, a'), false)
                end
            | None => ((rest', stopped, a), true)
            end
          else row
      | [] => row
      end
  end.

Definition merge (pending : list (bytes * option bytes)) (descending : bool)
    (rows : list (bytes * bytes)) (a : A) : A :=
  let '((rest, stopped, a), _) := walk (merge_step descending) rows (pending, false, a) in
  if stopped then a else (drain (λ _, true) rest a).1.2.
End Merge.

(** The visitor that keeps every row: the default [scan_prefix]'s. *)
Definition keep_row (out : list (bytes * bytes)) (k v : bytes) : list (bytes * bytes) * bool :=
  (out ++ [(k, v)], true).

Definition merged (pending : list (bytes * option bytes)) (descending : bool)
    (rows : list (bytes * bytes)) : list (bytes * bytes) :=
  match pending with
  | [] => rows
  | _ => merge keep_row pending descending rows []
  end.

#[global] Instance batch_kv `{HashIter, Kv E} : Kv (BatchingKv E) := {
  kv_get s k := match buf s !! k with Some op => op | None => kv_get (under s) k end;
  kv_put s k v := mkBatchingKv (under s) (<[k := Some v]> (buf s));
  kv_delete s k :=
    (mkBatchingKv (under s) (<[k := None]> (buf s)),
     bool_decide (is_Some (match buf s !! k with Some op => op | None => kv_get (under s) k end)));
  kv_for_each_prefix s p :=
    merged (pending (buf s) p (λ _, true) false) false (kv_for_each_prefix (under s) p);
  kv_for_each_from s p a :=
    merged (pending (buf s) p (λ k, match a with [] => true | _ => blt a k end) false) false
      (kv_for_each_from (under s) p a);
  kv_for_each_before s p b :=
    merged (pending (buf s) p (λ k, match b with [] => true | _ => blt k b end) true) true
      (kv_for_each_before (under s) p b);
  kv_clear s := mkBatchingKv (kv_clear (under s)) (buf s)
}.

(** [RocksKv::apply_writes]: the batch's operations, in the order given. *)
Fixpoint apply_writes `{Kv E} (ops : list (bytes * option bytes)) (s : E) : E :=
  match ops with
  | [] => s
  | (k, Some val) :: ops => apply_writes ops (kv_put s k val)
  | (k, None) :: ops => apply_writes ops (kv_delete s k).1
  end.

(** ** Overlay and commit *)

Lemma lookup_overlay b m k :
  overlay b m !! k = match b !! k with Some op => op | None => m !! k end.
Proof. unfold overlay. rewrite lookup_merge. by destruct (b !! k), (m !! k). Qed.

Lemma overlay_insert b m k o :
  overlay (<[k := o]> b) m = match o with Some v => <[k := v]> (overlay b m) | None => delete k (overlay b m) end.
Proof.
  apply map_eq. intros k'. rewrite lookup_overlay.
  destruct (decide (k = k')) as [->|Hne].
  - rewrite lookup_insert_eq. destruct o; by rewrite ?lookup_insert_eq, ?lookup_delete_eq.
  - rewrite lookup_insert_ne by done.
    destruct o; rewrite ?lookup_insert_ne, ?lookup_delete_ne by done; by rewrite lookup_overlay.
Qed.

Lemma overlay_empty m : overlay ∅ m = m.
Proof. apply map_eq. intros k. by rewrite lookup_overlay, lookup_empty. Qed.

Lemma overlay_below b m k o :
  b !! k = None →
  overlay b (match o with Some v => <[k := v]> m | None => delete k m end) =
  overlay (<[k := o]> b) m.
Proof.
  intros Hb. rewrite overlay_insert. apply map_eq. intros k'. rewrite lookup_overlay.
  destruct (decide (k = k')) as [<-|Hne].
  - rewrite Hb. destruct o; by rewrite ?lookup_insert_eq, ?lookup_delete_eq.
  - destruct o; rewrite ?lookup_insert_ne, ?lookup_delete_ne by done; by rewrite lookup_overlay.
Qed.

Lemma view_apply_writes `{KvLaws E} ops (s : E) :
  NoDup ops.*1 → kv_view (apply_writes ops s) = overlay (list_to_map ops) (kv_view s).
Proof.
  revert s. induction ops as [|[k o] ops IH]; intros s Hnd.
  { cbn. by rewrite overlay_empty. }
  apply NoDup_cons in Hnd as [Hk Hnd]. apply not_elem_of_list_to_map in Hk.
  cbn [list_to_map fst snd foldr]. rewrite <-(overlay_below _ _ _ _ Hk).
  destruct o; cbn [apply_writes]; rewrite IH by done; by rewrite ?view_put, ?view_delete.
Qed.

Lemma commit_overlay `{HashIter, KvLaws E} (s : BatchingKv E) :
  kv_view (apply_writes (into_ops s) (under s)) = overlay (buf s) (kv_view (under s)).
Proof.
  unfold into_ops. rewrite view_apply_writes by apply NoDup_hash_iter.
  by rewrite list_to_map_hash_iter.
Qed.

(** ** The merged walk is a walk of the merged rows *)

Fixpoint drop_while {A} (f : A → bool) (l : list A) : list A :=
  match l with
  | [] => []
  | x :: l' => if f x then drop_while f l' else l
  end.

Lemma take_drop_while {A} (f : A → bool) l : take_while f l ++ drop_while f l = l.
Proof. induction l as [|x l IH]; cbn; [done|]. destruct (f x); [|done]. cbn. by rewrite IH. Qed.

(** The rows of the buffered puts. *)
Fixpoint puts (l : list (bytes * option bytes)) : list (bytes * bytes) :=
  match l with
  | [] => []
  | (k, Some v) :: l => (k, v) :: puts l
  | (_, None) :: l => puts l
  end.

Fixpoint merge_list (descending : bool) (pending : list (bytes * option bytes))
    (rows : list (bytes * bytes)) : list (bytes * bytes) :=
  match rows with
  | [] => puts pending
  | (k, v) :: rows =>
      let go := λ r : bytes * option bytes, ahead descending r.1 k in
      puts (take_while go pending) ++
      match drop_while go pending with
      | (bk, bv) :: rest =>
          if decide (bk = k) then puts [(bk, bv)] ++ merge_list descending rest rows
          else (k, v) :: merge_list descending ((bk, bv) :: rest) rows
      | [] => (k, v) :: merge_list descending [] rows
      end
  end.

Lemma walk_app {B} (f : B → bytes → bytes → B * bool) l1 l2 b :
  walk f (l1 ++ l2) b =
  match walk f l1 b with (b', true) => walk f l2 b' | r => r end.
Proof.
  revert b. induction l1 as [|[k v] l1 IH]; intros b; [done|]. cbn.
  destruct (f b k v) as [b' []]; auto.
Qed.

Section MergeWalk.
Context {A : Type} (visit : A → bytes → bytes → A * bool).

Lemma drain_walk go l a :
  match walk visit (puts (take_while (λ r, go r.1) l)) a with
  | (a', true) => drain visit go l a = (drop_while (λ r, go r.1) l, a', true)
  | (a', false) => ∃ rest, drain visit go l a = (rest, a', false)
  end.
Proof.
  revert a. induction l as [|[k [v|]] l IH]; intros a; [done| |];
    cbn; destruct (go k); cbn; try done.
  - destruct (visit a k v) as [a' []]; [apply IH|]. by exists l.
  - apply IH.
Qed.

Lemma take_while_all {B} (l : list B) : take_while (λ _, true) l = l.
Proof. induction l; cbn; congruence. Qed.

Lemma merge_walk pending descending rows a :
  merge visit pending descending rows a = (walk visit (merge_list descending pending rows) a).1.
Proof.
  revert pending a. induction rows as [|[k v] rows IH]; intros pending a.
  { cbn. pose proof (drain_walk (λ _, true) pending a) as H.
    rewrite take_while_all in H. destruct (walk visit (puts pending) a) as [a' []].
    - by rewrite H.
    - destruct H as [rest ->]. done. }
  assert (Hrow : ∀ rest a', 
    (let '((rest, stopped, a), _) :=
       match visit a' k v with
       | (a'', true) => walk (merge_step visit descending) rows ((rest, false, a''))
       | (a'', false) => ((rest, true, a''), false)
       end in
     if stopped then a else (drain visit (λ _, true) rest a).1.2) =
    (walk visit ((k, v) :: merge_list descending rest rows) a').1).
  { intros rest a'. cbn. destruct (visit a' k v) as [a'' []]; [|done]. apply IH. }
  unfold merge in *. cbn [walk merge_list merge_step].
  pose proof (drain_walk (λ b, ahead descending b k) pending a) as H.
  rewrite walk_app.
  destruct (walk visit (puts (take_while _ pending)) a) as [a' []].
  2:{ destruct H as [rest ->]. done. }
  rewrite H. destruct (drop_while _ pending) as [|[bk bv] rest].
  { rewrite <-Hrow. by destruct (visit a' k v) as [a'' []]. }
  case_decide.
  - destruct bv as [val|]; cbn [puts app walk]; [|apply IH].
    destruct (visit a' bk val) as [a'' []]; [apply IH|done].
  - rewrite <-Hrow. by destruct (visit a' k v) as [a'' []].
Qed.
End MergeWalk.

Lemma walk_keep_row l out : walk keep_row l out = (out ++ l, true).
Proof.
  revert out. induction l as [|[k v] l IH]; intros out; cbn; [by rewrite app_nil_r|].
  by rewrite IH, <-app_assoc.
Qed.

Lemma merge_list_nil descending rows : merge_list descending [] rows = rows.
Proof. induction rows as [|[k v] rows IH]; cbn; [done|]. by rewrite IH. Qed.

Lemma merged_list pending descending rows :
  merged pending descending rows = merge_list descending pending rows.
Proof.
  unfold merged. destruct pending as [|x l] eqn:E; [by rewrite merge_list_nil|].
  by rewrite merge_walk, walk_keep_row.
Qed.

(** ** The merged rows are the overlay's rows *)

Definition R_of (descending : bool) (k k' : bytes) : Prop := ahead descending k k' = true.

#[global] Instance R_of_trans descending : Transitive (R_of descending).
Proof.
  destruct descending; intros ??? H1 H2; unfold R_of in *; cbn in *; eauto using blt_trans.
Qed.

Lemma R_of_irrefl descending k : ¬ R_of descending k k.
Proof. unfold R_of. destruct descending; cbn; by rewrite blt_irrefl. Qed.

Lemma not_ahead descending b k : ahead descending b k = false → b = k ∨ R_of descending k b.
Proof.
  unfold R_of, ahead. intros E. destruct descending.
  - assert (ble b k = true) as H%ble_lt_or_eq by (by rewrite ble_blt, E). tauto.
  - assert (ble k b = true) as H%ble_lt_or_eq by (by rewrite ble_blt, E).
    destruct H; auto.
Qed.

Abbreviation sorted_by d := (StronglySorted (λ r s, R_of d r.1 s.1)).

Lemma elem_of_puts l k v : (k, v) ∈ puts l ↔ (k, Some v) ∈ l.
Proof.
  induction l as [|[k' [v'|]] l IH]; cbn; rewrite ?elem_of_cons, ?IH.
  - split; intros H; by apply elem_of_nil in H.
  - naive_solver.
  - naive_solver.
Qed.

Lemma sorted_puts d l : sorted_by d l → sorted_by d (puts l).
Proof.
  induction 1 as [|[k [v|]] l H IH Hr]; cbn; [constructor| |done].
  constructor; [done|]. apply Forall_forall. rewrite Forall_forall in Hr.
  intros [k' v'] Hin%elem_of_puts. by apply (Hr _ Hin).
Qed.

(** Splitting the buffered rows at a key of the walk. *)
Lemma split_pending d (k : bytes) l :
  sorted_by d l →
  let go := λ r : bytes * option bytes, ahead d r.1 k in
  (∀ r, r ∈ take_while go l → R_of d r.1 k) ∧
  (∀ r, r ∈ drop_while go l → r.1 = k ∨ R_of d k r.1).
Proof.
  intros H go. induction H as [|r l H IH Hr]; cbn.
  { split; intros r Hr; by apply elem_of_nil in Hr. }
  destruct (go r) eqn:E.
  - destruct IH as [IH1 IH2]. split; [|done].
    intros r' [->|Hin]%elem_of_cons; [done|auto].
  - split; [intros r' Hr'; by apply elem_of_nil in Hr'|].
    apply not_ahead in E. intros r' [->|Hin]%elem_of_cons; [done|].
    rewrite Forall_forall in Hr. specialize (Hr _ Hin). right.
    destruct E as [<-|E]; [done|]. by transitivity r.1.
Qed.

Section MergeSpec.
Context (d : bool).

Lemma sorted_parts (k : bytes) (l : list (bytes * option bytes)) :
  sorted_by d l →
  sorted_by d (take_while (λ r, ahead d r.1 k) l) ∧ sorted_by d (drop_while (λ r, ahead d r.1 k) l).
Proof.
  intros H. rewrite <-(take_drop_while (λ r, ahead d r.1 k) l) in H.
  by apply StronglySorted_app in H as (_ & ? & ?).
Qed.

Lemma elem_of_merge_list pending rows k v :
  sorted_by d pending → sorted_by d rows →
  (k, v) ∈ merge_list d pending rows ↔
  (k, Some v) ∈ pending ∨ ((k, v) ∈ rows ∧ k ∉ pending.*1).
Proof.
  intros Hp Hr. revert pending Hp. induction Hr as [|[k0 v0] rows Hr IH Hk0]; intros pending Hp.
  { cbn. rewrite elem_of_puts. set_solver. }
  rewrite Forall_forall in Hk0. cbn [fst] in Hk0.
  pose proof (split_pending d k0 pending Hp) as [Hbefore Hafter].
  pose proof (sorted_parts k0 pending Hp) as [_ Hs].
  cbn [merge_list]. rewrite elem_of_app, elem_of_puts.
  rewrite <-(take_drop_while (λ r, ahead d r.1 k0) pending) at 3 4.
  set (l1 := take_while _ pending) in *. set (l2 := drop_while _ pending) in *.
  rewrite fmap_app, !elem_of_app.
  assert (H1 : ∀ x, x ∈ l1.*1 → R_of d x k0).
  { intros x [[y o] [-> Hin]]%list_elem_of_fmap. by apply Hbefore in Hin. }
  assert (Hnot : (k, v) ∈ rows → k ∉ l1.*1 ∧ k ≠ k0).
  { intros Hin%Hk0. split; [|by intros ->; destruct (R_of_irrefl d k0)].
    intros Hx%H1. apply (R_of_irrefl d k). by transitivity k0. }
  assert (Hk : k0 ∉ l1.*1) by (intros Hx%H1; by destruct (R_of_irrefl d k0)).
  destruct l2 as [|[bk bv] rest].
  { rewrite elem_of_cons, IH by done. set_solver. }
  case_decide as Hbk.
  - subst bk. rewrite elem_of_app, IH by (by apply StronglySorted_inv in Hs as [??]).
    rewrite elem_of_puts. cbn [fmap list_fmap]. set_solver.
  - rewrite elem_of_cons, IH by done.
    assert (Hk2 : k0 ∉ ((bk, bv) :: rest).*1).
    { intros [[y o] [-> Hin]]%list_elem_of_fmap. apply Hafter in Hin as Hy.
      destruct Hy as [Hy|Hy]; [|by destruct (R_of_irrefl d y)]. cbn in Hy.
      apply elem_of_cons in Hin as [Hin|Hin]; [naive_solver|].
      apply StronglySorted_inv in Hs as [_ Hs]. rewrite Forall_forall in Hs.
      specialize (Hs _ Hin). cbn in Hs.
      destruct (Hafter (bk, bv)) as [?|HR]; [by constructor|done|].
      cbn in HR. destruct (R_of_irrefl d y). by transitivity bk. }
    set_solver.
Qed.

Lemma after_merge_list k0 pending rows :
  sorted_by d pending → sorted_by d rows →
  (∀ r, r ∈ pending → R_of d k0 r.1) → (∀ r, r ∈ rows → R_of d k0 r.1) →
  ∀ r, r ∈ merge_list d pending rows → R_of d k0 r.1.
Proof.
  intros Hp Hr H1 H2 [k v] [Hin|[Hin _]]%elem_of_merge_list; [|by apply H2|done..].
  by apply (H1 _ Hin).
Qed.

Lemma sorted_around (l Y : list (bytes * bytes)) k0 o :
  sorted_by d l → (∀ r, r ∈ l → R_of d r.1 k0) →
  sorted_by d Y → (∀ r, r ∈ Y → R_of d k0 r.1) →
  sorted_by d (l ++ puts [(k0, o)] ++ Y).
Proof.
  intros Hl Hlk HY HYk. apply StronglySorted_app. split_and!; [|done|].
  - intros x y Hx%Hlk [Hy|Hy]%elem_of_app; [|transitivity k0; auto].
    destruct y as [k v]. apply elem_of_puts, list_elem_of_singleton in Hy. naive_solver.
  - destruct o; [|done]. cbn. constructor; [done|]. apply Forall_forall. auto.
Qed.

Lemma sorted_merge_list pending rows :
  sorted_by d pending → sorted_by d rows → sorted_by d (merge_list d pending rows).
Proof.
  intros Hp Hr. revert pending Hp. induction Hr as [|[k0 v0] rows Hr IH Hk0]; intros pending Hp.
  { by apply sorted_puts. }
  rewrite Forall_forall in Hk0. cbn [fst] in Hk0.
  pose proof (split_pending d k0 pending Hp) as [Hbefore Hafter].
  pose proof (sorted_parts k0 pending Hp) as [Hs1 Hs].
  cbn [merge_list]. set (l1 := take_while _ pending) in *. set (l2 := drop_while _ pending) in *.
  enough (HX : ∃ o Y, sorted_by d Y ∧ (∀ r : bytes * bytes, r ∈ Y → R_of d k0 r.1) ∧
    match l2 with
    | (bk, bv) :: rest =>
        if decide (bk = k0) then puts [(bk, bv)] ++ merge_list d rest rows
        else (k0, v0) :: merge_list d ((bk, bv) :: rest) rows
    | [] => (k0, v0) :: merge_list d [] rows
    end = puts [(k0, o)] ++ Y).
  { destruct HX as (o & Y & HY1 & HY2 & ->). apply sorted_around; auto using sorted_puts.
    intros [k v] Hx%elem_of_puts. by apply (Hbefore _ Hx). }
  destruct l2 as [|[bk bv] rest].
  { exists (Some v0), rows. split_and!; [done..|]. by rewrite merge_list_nil. }
  apply StronglySorted_inv in Hs as Hs'. destruct Hs' as [Hrest Hbk].
  rewrite Forall_forall in Hbk. cbn [fst] in Hbk. case_decide as E.
  - subst bk. exists bv, (merge_list d rest rows). split_and!; [by apply IH| |done].
    apply after_merge_list; auto.
  - exists (Some v0), (merge_list d ((bk, bv) :: rest) rows). split_and!; [by apply IH| |done].
    apply after_merge_list; [done..| |done].
    destruct (Hafter (bk, bv)) as [?|HR]; [by constructor|done|].
    intros r [->|Hin]%elem_of_cons; [done|]. transitivity bk; auto.
Qed.
End MergeSpec.

Lemma elem_of_pending `{HashIter} b p keep d k o :
  (k, o) ∈ pending b p keep d ↔ b !! k = Some o ∧ starts_with k p = true ∧ keep k = true.
Proof.
  unfold pending. rewrite merge_sort_Permutation, list_elem_of_filter, hash_iter_perm, elem_of_map_to_list.
  cbn. rewrite andb_true_iff. tauto.
Qed.

Lemma sorted_pending `{HashIter} b p keep d : sorted_by d (pending b p keep d).
Proof.
  assert (Hnd : NoDup (pending b p keep d).*1).
  { unfold pending. rewrite merge_sort_Permutation.
    apply (sublist_NoDup _ (hash_iter b).*1); [apply NoDup_hash_iter|].
    apply fmap_sublist, sublist_filter. }
  assert (Hs : StronglySorted (pending_le d) (pending b p keep d)).
  { apply StronglySorted_merge_sort.
    - intros x y z. unfold pending_le. destruct d; eauto using ble_trans.
    - intros x y. unfold pending_le. destruct d; apply ble_total. }
  induction Hs as [|r l Hs IH Hr]; constructor.
  - apply IH. by apply NoDup_cons in Hnd as [??].
  - apply NoDup_cons in Hnd as [Hn _]. rewrite Forall_forall in Hr |- *.
    intros s Hin. specialize (Hr s Hin). unfold pending_le in Hr. unfold R_of, ahead.
    destruct d; apply ble_lt_or_eq in Hr as [?|E]; try done;
      destruct Hn; [rewrite <-E|rewrite E]; apply list_elem_of_fmap; eauto.
Qed.

(** A walk of the engine below, merged with the buffer's rows, is the walk of
    the overlay. *)
Lemma merged_overlay `{HashIter} d b m p keep rows :
  sorted_by d rows →
  (∀ k v, (k, v) ∈ rows ↔ m !! k = Some v ∧ starts_with k p = true ∧ keep k = true) →
  let l := merged (pending b p keep d) d rows in
  sorted_by d l ∧
  ∀ k v, (k, v) ∈ l ↔ overlay b m !! k = Some v ∧ starts_with k p = true ∧ keep k = true.
Proof.
  intros Hr He. cbv zeta. rewrite merged_list. split.
  { apply sorted_merge_list; [apply sorted_pending|done]. }
  intros k v. rewrite elem_of_merge_list by (done || apply sorted_pending).
  rewrite elem_of_pending, He, lookup_overlay, list_elem_of_fmap.
  destruct (b !! k) as [o|] eqn:E.
  - split; [|naive_solver].
    intros [?|[(? & ? & ?) Hn]]; [naive_solver|]. destruct Hn. exists (k, o).
    by rewrite elem_of_pending.
  - split; [naive_solver|]. intros ?. right. split; [done|].
    intros ([k' o] & -> & Hin). apply elem_of_pending in Hin. cbn in E. naive_solver.
Qed.

Lemma sorted_rev_prefix m p : sorted_by true (rev (prefix_rows m p)).
Proof. apply descending_rev, ascending_prefix_rows. Qed.

Lemma sorted_filter d (P : bytes * bytes → Prop) `{∀ x, Decision (P x)} l :
  sorted_by d l → sorted_by d (filter P l).
Proof.
  intros H0. induction H0 as [|r l H0 IH Hr]; [constructor|].
  rewrite filter_cons. case_decide; [|done]. constructor; [done|].
  rewrite Forall_forall in Hr |- *. intros s [_ Hs]%list_elem_of_filter. auto.
Qed.

Lemma elem_of_rows_from m p a k v :
  (k, v) ∈ rows_from m p a ↔
  m !! k = Some v ∧ starts_with k p = true ∧ (match a with [] => true | _ => blt a k end) = true.
Proof. unfold rows_from. rewrite list_elem_of_filter, elem_of_prefix_rows. cbn. tauto. Qed.

Lemma elem_of_rows_before m p b k v :
  (k, v) ∈ rows_before m p b ↔
  m !! k = Some v ∧ starts_with k p = true ∧ (match b with [] => true | _ => blt k b end) = true.
Proof.
  unfold rows_before. rewrite list_elem_of_filter, rev_alt', elem_of_reverse, elem_of_prefix_rows.
  cbn. tauto.
Qed.

#[global] Instance batch_kv_laws `{HashIter, KvLaws E} : KvLaws (BatchingKv E).
Proof.
  exists (λ s, overlay (buf s) (kv_view (under s))); intros s.
  - intros k. cbn. by rewrite lookup_overlay, view_get.
  - intros k v. cbn. by rewrite overlay_insert.
  - intros k. cbn. by rewrite overlay_insert.
  - intros k. cbn. by rewrite lookup_overlay, view_get.
  - intros p. cbn [kv_for_each_prefix batch_kv]. rewrite view_prefix.
    destruct (merged_overlay false (buf s) (kv_view (under s)) p (λ _, true)
      (prefix_rows (kv_view (under s)) p)) as [Hsort Helem].
    + apply ascending_prefix_rows.
    + intros k v. rewrite elem_of_prefix_rows. tauto.
    + apply ascending_unique; [done|apply ascending_prefix_rows|].
      intros [k v]. rewrite Helem, elem_of_prefix_rows. tauto.
  - intros p f. cbn [kv_for_each_from batch_kv]. rewrite view_from.
    set (a := bound_in p f).
    destruct (merged_overlay false (buf s) (kv_view (under s)) p
      (λ k, match a with [] => true | _ => blt a k end) (rows_from (kv_view (under s)) p a)) as [Hsort Helem].
    + apply ascending_filter, ascending_prefix_rows.
    + apply elem_of_rows_from.
    + apply ascending_unique; [done|apply ascending_filter, ascending_prefix_rows|].
      intros [k v]. by rewrite Helem, elem_of_rows_from.
  - intros p b. cbn [kv_for_each_before batch_kv]. rewrite view_before.
    destruct (merged_overlay true (buf s) (kv_view (under s)) p
      (λ k, match b with [] => true | _ => blt k b end) (rows_before (kv_view (under s)) p b)) as [Hsort Helem].
    + apply sorted_filter, sorted_rev_prefix.
    + apply elem_of_rows_before.
    + apply (sorted_unique_R (R_of true) (R_of_irrefl true));
        [done|apply sorted_filter, sorted_rev_prefix|].
      intros [k v]. by rewrite Helem, elem_of_rows_before.
Defined.

(** A program run on the overlay leaves the engine below alone. *)
Lemma batch_under `{HashIter, Kv E} {A} (p : prog A) (w w' : world (BatchingKv E)) a :
  run p w = Some (a, w') → under (w_kv w') = under (w_kv w).
Proof.
  revert w.
  induction p as [x|k c IH|k v c IH|k c IH|pf c IH|pf s c IH|pf b c IH|c IH|now c IH|c IH|];
    intros w; cbn [run]; try (intros E'; apply IH in E'; by rewrite E'); naive_solver.
Qed.

(** * Properties *)

(** C1. A batch is its commands: whatever program runs on the overlay of an
    engine (scans, reverse scans and re-reads of its own writes included), it
    answers what it answers run straight on the engine, with the same clock
    readings and version counter; nothing reaches the engine while it runs;
    and committing the buffer leaves the rows the direct run leaves. It
    panics exactly when the direct run does. *)
Theorem batch_is_its_commands `{HashIter, KvLaws E} {A} (p : prog A) (w : world E) :
  match run p (World (BatchingKv_new (w_kv w)) (w_clock w) (w_last w) (w_random w)), run p w with
  | Some (a, wb), Some (a', wd) =>
      a = a' ∧ under (w_kv wb) = w_kv w ∧
      kv_view (apply_writes (into_ops (w_kv wb)) (under (w_kv wb))) = kv_view (w_kv wd) ∧
      (w_clock wb, w_last wb, w_random wb) = (w_clock wd, w_last wd, w_random wd)
  | None, None => True
  | _, _ => False
  end.
Proof.
  set (w0 := World (BatchingKv_new (w_kv w)) (w_clock w) (w_last w) (w_random w)).
  pose proof (run_view p w) as Hd. pose proof (run_view p w0) as Hb.
  assert (E' : view_world w0 = view_world w).
  { unfold view_world, w0. cbn. by rewrite overlay_empty. }
  rewrite E', Hd in Hb. clear E' Hd.
  destruct (run p w0) as [[a wb]|] eqn:Eb, (run p w) as [[a' wd]|]; try done.
  cbn in Hb. injection Hb as -> Hm Hc Hl Hr. split_and!; [done|..|congruence].
  - by apply batch_under in Eb.
  - by rewrite commit_overlay.
Qed.

(** [merge] shows a visitor exactly the overlay's rows: for a walk of the
    engine in either order, whatever [pending] the buffer gives, visiting
    through [merge] with any visitor, stopping when it asks to, is visiting
    the merged rows. *)
Theorem merge_visits_the_overlay `{HashIter} {A} (visit : A → bytes → bytes → A * bool) d b m p keep rows a :
  sorted_by d rows →
  (∀ k v, (k, v) ∈ rows ↔ m !! k = Some v ∧ starts_with k p = true ∧ keep k = true) →
  ∃ l, merge visit (pending b p keep d) d rows a = (walk visit l a).1 ∧ sorted_by d l ∧
       ∀ k v, (k, v) ∈ l ↔ overlay b m !! k = Some v ∧ starts_with k p = true ∧ keep k = true.
Proof.
  intros Hr He. exists (merge_list d (pending b p keep d) rows).
  rewrite <-merged_list. split; [by rewrite merge_walk, merged_list|].
  by apply merged_overlay.
Qed.

Lemma merge_visits_the_overlay_witness :
  ∃ l, merge keep_row
         (@pending canonical_iter {[bstr "ha" := None; bstr "hc" := Some (bstr "9")]} (bstr "h") (λ _, true) false)
         false (prefix_rows three_rows (bstr "h")) [] = (walk keep_row l []).1 ∧
       sorted_by false l ∧
       ∀ k v, (k, v) ∈ l ↔
         overlay {[bstr "ha" := None; bstr "hc" := Some (bstr "9")]} three_rows !! k = Some v ∧
         starts_with k (bstr "h") = true ∧ true = true.
Proof.
  refine (@merge_visits_the_overlay canonical_iter _ keep_row false
    {[bstr "ha" := None; bstr "hc" := Some (bstr "9")]} three_rows (bstr "h") (λ _, true)
    (prefix_rows three_rows (bstr "h")) [] _ _).
  - apply ascending_prefix_rows.
  - intros k v. rewrite elem_of_prefix_rows. tauto.
Defined.
