(* ===== verification/Watch.v ===== *)
(** * Modification tracking for WATCH

    Models [crates/flint-storage/src/watch.rs]: the fixed table of stripe
    counters ([WatchTable], with its FNV-1a striping and wrapping counters)
    and [WatchedKv], the engine that bumps the stripe of every row it is asked
    to write before it writes. The theorem is WATCH's one promise: a written
    row is never reported unwritten. *)

From stdpp Require Import base list gmap strings sorting.
From Stdlib Require Import ZArith Lia.
From Stdlib Require Strings.Byte.
From S2P Require Import Prelude Encoding Kv.

(** ** The table *)

Definition STRIPES : nat := 4096.

Record WatchTable := mkWatchTable { stripes : list Z }.

Definition WatchTable_new : WatchTable := mkWatchTable (replicate STRIPES 0).

Definition FNV_OFFSET : Z := 0xcbf29ce484222325.
Definition FNV_PRIME : Z := 0x100000001b3.

Definition fnv_step (h : Z) (b : byte) : Z := wrap 64 (Z.lxor h (b2z b) * FNV_PRIME).

Definition index (key : bytes) : nat :=
  Z.to_nat (foldl fnv_step FNV_OFFSET key mod Z.of_nat STRIPES).

Definition bump (t : WatchTable) (key : bytes) : WatchTable :=
  mkWatchTable (alter (λ c, wrap 64 (c + 1)) (index key) (stripes t)).

(** Indexing past the table would panic; [index] never does ([index_lt]). *)
Definition version (t : WatchTable) (key : bytes) : Z :=
  default 0 (stripes t !! index key).

Definition bump_all (t : WatchTable) : WatchTable :=
  mkWatchTable ((λ c, wrap 64 (c + 1)) <$> stripes t).

(** ** The watched engine *)

Record WatchedKv (E : Type) := mkWatchedKv { watched : E; table : WatchTable }.
Arguments mkWatchedKv {E} watched table.
Arguments watched {E} _.
Arguments table {E} _.

#[global] Instance watched_kv `{Kv E} : Kv (WatchedKv E) := {
  kv_get s k := kv_get (watched s) k;
  kv_put s k v := mkWatchedKv (kv_put (watched s) k v) (bump (table s) k);
  kv_delete s k :=
    (mkWatchedKv (kv_delete (watched s) k).1 (bump (table s) k), (kv_delete (watched s) k).2);
  kv_for_each_prefix s p := kv_for_each_prefix (watched s) p;
  kv_for_each_from s p a := kv_for_each_from (watched s) p a;
  kv_for_each_before s p b := kv_for_each_before (watched s) p b;
  kv_clear s := mkWatchedKv (kv_clear (watched s)) (bump_all (table s))
}.

#[global] Instance watched_kv_laws `{KvLaws E} : KvLaws (WatchedKv E).
Proof.
  exists (λ s, kv_view (watched s)); intros s; cbn; intros.
  - apply view_get.
  - apply view_put.
  - apply view_delete.
  - apply view_deleted.
  - apply view_prefix.
  - apply view_from.
  - apply view_before.
Defined.

(** The keys a program writes, in order, when run on a world. *)
Fixpoint writes `{Kv E} {A} (p : prog A) (w : world E) : list bytes :=
  match p with
  | Ret _ | Panic => []
  | Get k c => writes (c (kv_get (w_kv w) k)) w
  | Put k v c => k :: writes c (with_kv w (kv_put (w_kv w) k v))
  | Delete k c =>
      let d := kv_delete (w_kv w) k in k :: writes (c d.2) (with_kv w d.1)
  | ForEachPrefix p c => writes (c (kv_for_each_prefix (w_kv w) p)) w
  | ForEachFrom p s c => writes (c (kv_for_each_from (w_kv w) p (bound_in p s))) w
  | ForEachBefore p b c => writes (c (kv_for_each_before (w_kv w) p b)) w
  | Clock c => writes (c (w_clock w 0%nat)) (tick w)
  | NextVersion now c =>
      let v := version_next (w_last w) now in writes (c v) (with_last w v)
  | Random c => writes (c (w_random w 0%nat)) (roll w)
  end.

(** ** Lemmas *)

Definition table_ok (t : WatchTable) : Prop :=
  length (stripes t) = STRIPES ∧ Forall (in_width 64) (stripes t).

Lemma index_lt key : (index key < STRIPES)%nat.
Proof.
  unfold index. pose proof (Z.mod_pos_bound (foldl fnv_step FNV_OFFSET key) (Z.of_nat STRIPES)).
  unfold STRIPES in *. lia.
Qed.

Lemma table_ok_new : table_ok WatchTable_new.
Proof. split; [apply length_replicate|]. apply Forall_replicate. width. Qed.

Lemma table_ok_bump t k : table_ok t → table_ok (bump t k).
Proof.
  intros [Hl Hw]. split; cbn; [by rewrite length_alter|].
  apply Forall_alter; [done|]. intros c _ _. apply wrap_in_width. lia.
Qed.

Lemma version_in_width t k : table_ok t → in_width 64 (version t k).
Proof.
  intros [Hl Hw]. unfold version.
  destruct (lookup_lt_is_Some_2 (stripes t) (index k)) as [c Hc]; [rewrite Hl; apply index_lt|].
  rewrite Hc. by eapply Forall_lookup_1 in Hw.
Qed.

Lemma version_bump t k k' :
  table_ok t →
  version (bump t k) k' =
  if decide (index k = index k') then wrap 64 (version t k' + 1) else version t k'.
Proof.
  intros [Hl Hw]. unfold version, bump. cbn.
  destruct (lookup_lt_is_Some_2 (stripes t) (index k')) as [c Hc]; [rewrite Hl; apply index_lt|].
  case_decide as E.
  - rewrite E, list_lookup_alter_eq, Hc. done.
  - by rewrite list_lookup_alter_ne.
Qed.

(** How many of the writes fall in a key's stripe. *)
Definition stripe_hits (k : bytes) (ks : list bytes) : Z :=
  len (filter (λ k', index k' = index k) ks).

Lemma stripe_hits_cons k k' ks :
  stripe_hits k (k' :: ks) =
  (if decide (index k' = index k) then 1 else 0) + stripe_hits k ks.
Proof.
  unfold stripe_hits. rewrite filter_cons. case_decide; cbn [length]; lia.
Qed.

(** A run's effect on the table: the stripe's counter has grown by the writes
    to it, modulo 2^64. *)
Lemma run_version `{Kv E} {A} (p : prog A) (w w' : world (WatchedKv E)) a k :
  table_ok (table (w_kv w)) → run p w = Some (a, w') →
  version (table (w_kv w')) k =
  wrap 64 (version (table (w_kv w)) k + stripe_hits k (writes p w)).
Proof.
  assert (Hstep : ∀ t k', table_ok t → ∀ n,
    wrap 64 (version (bump t k') k + n) =
    wrap 64 (version t k + ((if decide (index k' = index k) then 1 else 0) + n))).
  { intros t k' Ht n. rewrite version_bump by done. case_decide.
    - rewrite wrap_add_l. f_equal. lia.
    - f_equal. }
  revert w.
  induction p as [x|k0 c IH|k0 v c IH|k0 c IH|pf c IH|pf s c IH|pf b c IH|c IH|now c IH|c IH|];
    intros w Hok; cbn [run writes]; try (intros E'; by apply IH in E'); [| | |done].
  - intros [= -> ->]. unfold stripe_hits. cbn. rewrite Z.add_0_r.
    symmetry. apply wrap_id. by apply version_in_width.
  - intros E'. apply IH in E'; [|by apply table_ok_bump].
    rewrite E', stripe_hits_cons. by apply Hstep.
  - intros E'. apply IH in E'; [|by apply table_ok_bump].
    rewrite E', stripe_hits_cons. by apply Hstep.
Qed.

Lemma run_unwritten `{KvLaws E} {A} (p : prog A) (w w' : world E) a k :
  run p w = Some (a, w') → k ∉ writes p w → kv_view (w_kv w') !! k = kv_view (w_kv w) !! k.
Proof.
  revert w.
  induction p as [x|k0 c IH|k0 v c IH|k0 c IH|pf c IH|pf s c IH|pf b c IH|c IH|now c IH|c IH|];
    intros w; cbn [run writes]; try (intros E' Hn; by apply IH in E'); [| | |done].
  - by intros [= -> ->].
  - intros E' [Hk Hn]%not_elem_of_cons. apply IH in E' as ->; [|done]. cbn.
    by rewrite view_put, lookup_insert_ne by done.
  - intros E' [Hk Hn]%not_elem_of_cons. apply IH in E' as ->; [|done]. cbn.
    by rewrite view_delete, lookup_delete_ne by done.
Qed.

Lemma stripe_hits_pos k ks : k ∈ ks → 0 < stripe_hits k ks <= len ks.
Proof.
  intros Hk. unfold stripe_hits. split; [|pose proof (length_filter (λ k', index k' = index k) ks); lia].
  assert (Hin : k ∈ filter (λ k', index k' = index k) ks) by (by apply list_elem_of_filter).
  destruct (filter _ ks); [by apply elem_of_nil in Hin|]. cbn [length]. lia.
Qed.

(** * Properties *)

(** WATCH never misses a modification. Whatever program runs through the
    watched engine, a row it wrote or deleted (were it back to its old value,
    the ABA case) and in particular every row whose value changed has a
    version other than the one watched, unless the program makes 2^64 writes
    or more; and the rows the program leaves are those it leaves unwatched. *)
Theorem watch_never_misses_a_write `{KvLaws E} {A} (p : prog A) (w w' : world (WatchedKv E)) a k :
  table_ok (table (w_kv w)) → run p w = Some (a, w') → len (writes p w) < 2 ^ 64 →
  k ∈ writes p w ∨ kv_view (watched (w_kv w')) !! k ≠ kv_view (watched (w_kv w)) !! k →
  version (table (w_kv w')) k ≠ version (table (w_kv w)) k.
Proof.
  intros Hok Hr Hlen Hk. assert (Hin : k ∈ writes p w).
  { destruct Hk as [?|Hne]; [done|]. destruct (decide (k ∈ writes p w)) as [|Hn]; [done|].
    destruct Hne. exact (run_unwritten p w w' a k Hr Hn). }
  rewrite (run_version p w w' a k) by done. clear Hk.
  pose proof (stripe_hits_pos k _ Hin). pose proof (version_in_width _ k Hok) as Hv.
  unfold wrap, in_width in *. intros E'.
  pose proof (Z.div_mod (version (table (w_kv w)) k + stripe_hits k (writes p w)) (2 ^ 64)). nia.
Qed.

Lemma watch_never_misses_a_write_witness :
  version (table (mkWatchedKv (<[bstr "ha" := bstr "1"]> three_rows) (bump WatchTable_new (bstr "ha"))))
    (bstr "ha") ≠ version WatchTable_new (bstr "ha").
Proof.
  refine (watch_never_misses_a_write (kvput (bstr "ha") (bstr "1"))
    (World (mkWatchedKv three_rows WatchTable_new) (λ _, 0) 0 (λ _, 0))
    (World (mkWatchedKv (<[bstr "ha" := bstr "1"]> three_rows) (bump WatchTable_new (bstr "ha")))
       (λ _, 0) 0 (λ _, 0)) tt (bstr "ha") table_ok_new eq_refl _ _).
  - done.
  - left. by constructor.
Defined.
