(* ===== verification/Store.v ===== *)
(** * What the typed stores share

    The stores of [crates/flint-storage/src] (hashes, sets, lists, sorted
    sets, strings) are one design: a metadata row under the key's envelope,
    and one row per element under the key's versioned subkey prefix. This file
    holds what their proofs share: total-correctness reasoning about programs
    ([wp]), addresses and who owns a row, the typed metadata read every store
    opens with, the abstraction from rows to a finite map ([holds]) with its
    accounting, and the freshness of versions. *)

From stdpp Require Import base list gmap strings sorting.
From Stdlib Require Import ZArith Lia.
From Stdlib Require Strings.Byte.
From S2P Require Import Prelude Encoding Kv.

(** ** Total correctness of programs *)

Definition wp {A} (p : prog A) (w : world kvmap) (Q : A → world kvmap → Prop) : Prop :=
  ∃ a w', run p w = Some (a, w') ∧ Q a w'.

Section Wp.
Context {A : Type}.
Implicit Types (w : world kvmap) (Q : A → world kvmap → Prop).

Lemma wp_ret a w Q : Q a w → wp (Ret a) w Q.
Proof. intros H. by exists a, w. Qed.

Lemma wp_conseq (p : prog A) w Q Q' : wp p w Q → (∀ a w', Q a w' → Q' a w') → wp p w Q'.
Proof. intros (a & w' & Hr & HQ) H. exists a, w'. auto. Qed.

Lemma wp_bind {B} (p : prog B) (f : B → prog A) w Q :
  wp p w (λ b w', wp (f b) w' Q) → wp (bind p f) w Q.
Proof.
  intros (b & w' & Hr & (a & w'' & Hr' & HQ)). exists a, w''. split; [|done].
  by rewrite run_bind, Hr.
Qed.

Lemma wp_run (p : prog A) w a w' Q : run p w = Some (a, w') → Q a w' → wp p w Q.
Proof. intros. by exists a, w'. Qed.
End Wp.

Lemma wp_try {A B} (p : prog (result A)) (f : A → prog (result B)) w Q :
  wp p w (λ r w', match r with Ok a => wp (f a) w' Q | Err e => Q (Err e) w' end) →
  wp (try_ p f) w Q.
Proof.
  intros (r & w' & Hr & H). unfold wp. rewrite run_try, Hr. cbn.
  destruct r; [done|]. eauto.
Qed.

Lemma wp_unwrap {A B} (o : option A) (f : A → prog B) a w Q :
  o = Some a → wp (f a) w Q → wp (bind (unwrap o) f) w Q.
Proof. by intros ->. Qed.

Lemma wp_get {A} k (c : option bytes → prog A) w Q :
  wp (c (w_kv w !! k)) w Q → wp (bind (kvget k) c) w Q.
Proof. done. Qed.

Lemma wp_put {A} k v (c : unit → prog A) w Q :
  wp (c tt) (with_kv w (<[k := v]> (w_kv w))) Q → wp (bind (kvput k v) c) w Q.
Proof. done. Qed.

Lemma wp_delete {A} k (c : bool → prog A) w Q :
  wp (c (bool_decide (is_Some (w_kv w !! k)))) (with_kv w (delete k (w_kv w))) Q →
  wp (bind (kvdelete k) c) w Q.
Proof. done. Qed.

Lemma wp_for_each_prefix {A} p (c : list (bytes * bytes) → prog A) w Q :
  wp (c (prefix_rows (w_kv w) p)) w Q → wp (bind (for_each_prefix p) c) w Q.
Proof. done. Qed.

Lemma wp_last_put k v w (Q : unit → world kvmap → Prop) :
  Q tt (with_kv w (<[k := v]> (w_kv w))) → wp (kvput k v) w Q.
Proof. intros. by exists tt, (with_kv w (<[k := v]> (w_kv w))). Qed.

Lemma wp_for_each_from {A} p s (c : list (bytes * bytes) → prog A) w Q :
  wp (c (rows_from (w_kv w) p (bound_in p s))) w Q → wp (bind (for_each_from p s) c) w Q.
Proof. done. Qed.

Lemma wp_for_each_before {A} p b (c : list (bytes * bytes) → prog A) w Q :
  wp (c (rows_before (w_kv w) p b)) w Q → wp (bind (for_each_before p b) c) w Q.
Proof. done. Qed.

Lemma wp_clock {A} (c : Z → prog A) w Q :
  wp (c (w_clock w 0%nat)) (tick w) Q → wp (bind clock c) w Q.
Proof. done. Qed.

Lemma wp_next_version {A} now (c : Z → prog A) w Q :
  wp (c (version_next (w_last w) now)) (with_last w (version_next (w_last w) now)) Q →
  wp (bind (next_version now) c) w Q.
Proof. done. Qed.

Lemma wp_random {A} (c : Z → prog A) w Q :
  wp (c (w_random w 0%nat)) (roll w) Q → wp (bind random c) w Q.
Proof. done. Qed.

(** A loop, with an invariant on what is left of the list. *)
Lemma wp_for {A} (I : list A → world kvmap → Prop) l (body : A → prog unit) w Q :
  I l w →
  (∀ x l' w', I (x :: l') w' → wp (body x) w' (λ _ w'', I l' w'')) →
  (∀ w', I [] w' → Q tt w') →
  wp (for_ l body) w Q.
Proof.
  intros HI Hbody HQ. revert w HI. induction l as [|x l IH]; intros w HI.
  - apply wp_ret. auto.
  - cbn [for_]. apply wp_bind. eapply wp_conseq; [by apply Hbody|]. cbn. auto.
Qed.

Lemma wp_fold {A B} (I : list A → B → world kvmap → Prop) l (body : B → A → prog B) b w Q :
  I l b w →
  (∀ x l' b' w', I (x :: l') b' w' → wp (body b' x) w' (λ b'' w'', I l' b'' w'')) →
  (∀ b' w', I [] b' w' → Q b' w') →
  wp (fold_ l body b) w Q.
Proof.
  intros HI Hbody HQ. revert b w HI. induction l as [|x l IH]; intros b w HI.
  - apply wp_ret. auto.
  - cbn [fold_]. apply wp_bind. eapply wp_conseq; [by apply Hbody|]. cbn. auto.
Qed.

(** One step of a program that starts with an operation. *)
Ltac wp_op :=
  match goal with
  | |- wp (bind (kvget _) _) _ _ => apply wp_get
  | |- wp (bind (kvput _ _) _) _ _ => apply wp_put
  | |- wp (bind (kvdelete _) _) _ _ => apply wp_delete
  | |- wp (bind (for_each_prefix _) _) _ _ => apply wp_for_each_prefix
  | |- wp (bind (for_each_from _ _) _) _ _ => apply wp_for_each_from
  | |- wp (bind (for_each_before _ _) _) _ _ => apply wp_for_each_before
  | |- wp (bind clock _) _ _ => apply wp_clock
  | |- wp (bind (next_version _) _) _ _ => apply wp_next_version
  | |- wp (bind random _) _ _ => apply wp_random
  | |- wp (Ret _) _ _ => apply wp_ret
  end; cbn [w_kv w_clock w_last w_random with_kv tick with_last roll].

(** ** Addresses and ownership *)

Record addr := mkAddr { a_ns : bytes; a_slot : Z; a_key : bytes }.

Definition addr_wf (a : addr) : Prop := addr_ok (a_ns a) (a_slot a) (a_key a).

Definition mkey (a : addr) : bytes := envelope Metadata (a_ns a) (a_slot a) (a_key a).

Definition rprefix (cf : Cf) (a : addr) (v : Z) : bytes :=
  framed_prefix cf (a_ns a) (a_slot a) (a_key a) v.

Arguments mkey : simpl never.
Arguments rprefix : simpl never.

(** The rows that belong to a key: its metadata and every row of every
    version of it, in both element families. *)
Definition owned (a : addr) (k : bytes) : Prop :=
  k = mkey a ∨ ∃ cf v f, cf ≠ Metadata ∧ in_width 64 v ∧ k = rprefix cf a v ++ f.

(** Between two stores only rows of [a] differ. *)
Definition frame (a : addr) (m m' : kvmap) : Prop := ∀ k, ¬ owned a k → m' !! k = m !! k.

Lemma addr_eq a a' :
  a_ns a = a_ns a' → a_slot a = a_slot a' → a_key a = a_key a' → a = a'.
Proof. destruct a, a'; cbn. by intros -> -> ->. Qed.

Lemma mkey_inj a a' : addr_wf a → addr_wf a' → mkey a = mkey a' → a = a'.
Proof.
  intros (? & ? & ?) (? & ? & ?) E. apply envelope_inj in E as (_ & ? & ? & ?); [|done..].
  by apply addr_eq.
Qed.

Lemma rprefix_inj cf a v f cf' a' v' f' :
  addr_wf a → addr_wf a' → in_width 64 v → in_width 64 v' → cf ≠ Metadata → cf' ≠ Metadata →
  rprefix cf a v ++ f = rprefix cf' a' v' ++ f' → cf = cf' ∧ a = a' ∧ v = v' ∧ f = f'.
Proof.
  intros ?????? E. apply framed_prefix_inj in E as (? & ? & ? & ? & ? & ?); [|done..].
  split_and!; [done|by apply addr_eq|done..].
Qed.

Lemma mkey_not_row cf a v f a' : cf ≠ Metadata → mkey a' ≠ rprefix cf a v ++ f.
Proof. apply envelope_not_framed. Qed.

Lemma owned_mkey a : owned a (mkey a).
Proof. by left. Qed.

Lemma owned_row cf a v f : cf ≠ Metadata → in_width 64 v → owned a (rprefix cf a v ++ f).
Proof. right. eauto 8. Qed.

Lemma not_owned_mkey a a' : addr_wf a → addr_wf a' → a ≠ a' → ¬ owned a (mkey a').
Proof.
  intros Ha Ha' Hne [E|(cf & v & f & Hcf & _ & E)].
  - by apply mkey_inj in E.
  - by apply mkey_not_row in E.
Qed.

Lemma not_owned_row cf a a' v f :
  addr_wf a → addr_wf a' → a ≠ a' → cf ≠ Metadata → in_width 64 v →
  ¬ owned a (rprefix cf a' v ++ f).
Proof.
  intros Ha Ha' Hne Hcf Hv [E|(cf' & v' & f' & Hcf' & Hv' & E)].
  - by eapply mkey_not_row.
  - apply rprefix_inj in E as (_ & ? & _); naive_solver.
Qed.

Lemma frame_refl a m : frame a m m.
Proof. done. Qed.

Lemma frame_trans a m1 m2 m3 : frame a m1 m2 → frame a m2 m3 → frame a m1 m3.
Proof. intros H1 H2 k Hk. by rewrite H2, H1. Qed.

Lemma frame_insert a m k v : owned a k → frame a m (<[k := v]> m).
Proof. intros Hk k' Hk'. apply lookup_insert_ne. by intros ->. Qed.

Lemma frame_delete a m k : owned a k → frame a m (delete k m).
Proof. intros Hk k' Hk'. apply lookup_delete_ne. by intros ->. Qed.

#[export] Hint Resolve frame_refl frame_insert frame_delete owned_mkey owned_row : flint.

(** The rows of one version of a key, by element. *)
Definition rows_at (cf : Cf) (a : addr) (v : Z) (m : kvmap) : kvmap := sub_map (rprefix cf a v) m.

Arguments rows_at : simpl never.

Lemma lookup_rows_at cf a v m f : rows_at cf a v m !! f = m !! (rprefix cf a v ++ f).
Proof. apply lookup_sub_map. Qed.

Lemma rows_at_ext cf a v m m' :
  (∀ f, m' !! (rprefix cf a v ++ f) = m !! (rprefix cf a v ++ f)) →
  rows_at cf a v m' = rows_at cf a v m.
Proof. intros H. apply map_eq. intros f. by rewrite !lookup_rows_at. Qed.

Lemma rows_at_frame cf a a' v m m' :
  addr_wf a → addr_wf a' → a ≠ a' → cf ≠ Metadata → in_width 64 v →
  frame a m m' → rows_at cf a' v m' = rows_at cf a' v m.
Proof. intros. apply rows_at_ext. intros f. auto using not_owned_row. Qed.

Lemma rows_at_meta_insert cf a v m a' x :
  cf ≠ Metadata → rows_at cf a v (<[mkey a' := x]> m) = rows_at cf a v m.
Proof. intros. apply rows_at_ext. intros f. apply lookup_insert_ne. by apply mkey_not_row. Qed.

Lemma rows_at_meta_delete cf a v m a' :
  cf ≠ Metadata → rows_at cf a v (delete (mkey a') m) = rows_at cf a v m.
Proof. intros. apply rows_at_ext. intros f. apply lookup_delete_ne. by apply mkey_not_row. Qed.

Lemma rows_at_insert cf a v m f x :
  rows_at cf a v (<[rprefix cf a v ++ f := x]> m) = <[f := x]> (rows_at cf a v m).
Proof. apply sub_map_insert. Qed.

Lemma rows_at_delete cf a v m f :
  rows_at cf a v (delete (rprefix cf a v ++ f) m) = delete f (rows_at cf a v m).
Proof. apply sub_map_delete. Qed.

(** ** Freshness of versions

    Every element row in the store was written under a version the process
    had drawn: a new version has no rows, whatever orphans were left. *)

Definition fresh (m : kvmap) (last : Z) : Prop :=
  ∀ cf a v f x, cf ≠ Metadata → addr_wf a → in_width 64 v →
    m !! (rprefix cf a v ++ f) = Some x → v <= last.

Lemma fresh_empty m last cf a v :
  fresh m last → cf ≠ Metadata → addr_wf a → in_width 64 v → last < v → rows_at cf a v m = ∅.
Proof.
  intros Hf Hcf Ha Hv Hlt. apply map_empty. intros f. rewrite lookup_rows_at.
  destruct (m !! _) as [x|] eqn:E; [|done]. apply Hf in E; [lia|done..].
Qed.

Lemma fresh_le m last last' : fresh m last → last <= last' → fresh m last'.
Proof. intros H Hle cf a v f x Hcf Ha Hv E. apply H in E; [lia|done..]. Qed.

Lemma fresh_sub m m' last :
  (∀ k x, m' !! k = Some x → (∃ a, k = mkey a) ∨ is_Some (m !! k)) → fresh m last → fresh m' last.
Proof.
  intros Hs Hf cf a v f x Hcf Ha Hv E. destruct (Hs _ _ E) as [[a' E']|[y Hy]].
  - symmetry in E'. by apply mkey_not_row in E'.
  - by eapply Hf.
Qed.

Lemma fresh_delete m k last : fresh m last → fresh (delete k m) last.
Proof. apply fresh_sub. intros k' x [_ ?]%lookup_delete_Some. eauto. Qed.

Lemma fresh_meta m a x last : fresh m last → fresh (<[mkey a := x]> m) last.
Proof.
  apply fresh_sub. intros k y [[<- _]|[_ ?]]%lookup_insert_Some; eauto.
Qed.

Lemma fresh_row m cf a v f x last :
  cf ≠ Metadata → addr_wf a → in_width 64 v → v <= last →
  fresh m last → fresh (<[rprefix cf a v ++ f := x]> m) last.
Proof.
  intros Hcf Ha Hv Hle Hf cf' a' v' f' y Hcf' Ha' Hv' [[E _]|[_ E]]%lookup_insert_Some.
  - apply rprefix_inj in E as (_ & _ & <- & _); done.
  - by eapply Hf.
Qed.

#[export] Hint Resolve fresh_delete fresh_meta fresh_row : flint.

(** ** Accounting *)

(** The bytes a collection is charged for: [wgt] per element. *)
Definition weight (wgt : bytes → bytes → Z) (F : kvmap) : Z :=
  map_fold (λ k v acc, wgt k v + acc) 0 F.

Section Weight.
Context (wgt : bytes → bytes → Z).

Lemma weight_empty : weight wgt ∅ = 0.
Proof. apply map_fold_empty. Qed.

Lemma weight_insert_new F k v :
  F !! k = None → weight wgt (<[k := v]> F) = wgt k v + weight wgt F.
Proof. intros. unfold weight. apply (map_fold_insert_L (λ k v acc, wgt k v + acc)); [|done]. intros; lia. Qed.

Lemma weight_delete F k v :
  F !! k = Some v → weight wgt F = wgt k v + weight wgt (delete k F).
Proof. intros. unfold weight. apply (map_fold_delete_L (λ k v acc, wgt k v + acc)); [|done]. intros; lia. Qed.

Lemma weight_insert F k v :
  weight wgt (<[k := v]> F) =
  weight wgt F + wgt k v - match F !! k with Some old => wgt k old | None => 0 end.
Proof.
  rewrite <-insert_delete_eq, weight_insert_new by apply lookup_delete_eq.
  destruct (F !! k) as [old|] eqn:E.
  - rewrite (weight_delete F k old) by done. lia.
  - rewrite delete_id by done. lia.
Qed.

Hypothesis wgt_pos : ∀ k v, 0 <= wgt k v.

Lemma weight_nonneg F : 0 <= weight wgt F.
Proof.
  induction F as [|k v F Hk IH] using map_ind; [by rewrite weight_empty|].
  rewrite weight_insert_new by done. specialize (wgt_pos k v). lia.
Qed.

Lemma weight_lookup F k v : F !! k = Some v → wgt k v <= weight wgt F.
Proof. intros E. rewrite (weight_delete F k v E). pose proof (weight_nonneg (delete k F)). lia. Qed.

Lemma weight_insert_le F k v : weight wgt (<[k := v]> F) <= weight wgt F + wgt k v.
Proof. rewrite weight_insert. destruct (F !! k) as [old|]; [pose proof (wgt_pos k old)|]; lia. Qed.

Lemma weight_union_le F G : weight wgt (F ∪ G) <= weight wgt F + weight wgt G.
Proof.
  induction F as [|k v F Hk IH] using map_ind.
  { rewrite (left_id_L ∅ (∪)), weight_empty. lia. }
  rewrite <-insert_union_l, (weight_insert_new F) by done.
  pose proof (weight_insert_le (F ∪ G) k v). lia.
Qed.
End Weight.

Lemma size_insert (F : kvmap) k v :
  Z.of_nat (size (<[k := v]> F)) =
  Z.of_nat (size F) + match F !! k with Some _ => 0 | None => 1 end.
Proof.
  destruct (F !! k) as [old|] eqn:E.
  - rewrite map_size_insert_Some by eauto. lia.
  - rewrite map_size_insert_None by done. lia.
Qed.

Lemma size_delete (F : kvmap) k :
  Z.of_nat (size (delete k F)) =
  Z.of_nat (size F) - match F !! k with Some _ => 1 | None => 0 end.
Proof.
  destruct (F !! k) as [old|] eqn:E.
  - rewrite map_size_delete_Some by eauto.
    assert (size F ≠ 0%nat) by (intros H0%map_size_empty_inv; by rewrite H0 in E). lia.
  - rewrite delete_id by done. lia.
Qed.

(** What a hash charges per field, and a set per member. *)
Definition field_weight (f v : bytes) : Z := len f + len v.
Definition member_weight (m _ : bytes) : Z := len m.

Lemma field_weight_pos f v : 0 <= field_weight f v.
Proof. unfold field_weight. lia. Qed.
Lemma member_weight_pos f v : 0 <= member_weight f v.
Proof. unfold member_weight. lia. Qed.

#[export] Hint Resolve field_weight_pos member_weight_pos : flint.

(** ** Stores and the typed metadata read *)

(** A store's configuration: its namespace and value cap. *)
Record store := mkStore { st_ns : bytes; st_max : Z }.

(** [max_value_bytes] = 0 disables the cap. *)
Definition with_max_value_bytes (ns : bytes) (max : Z) : store :=
  mkStore ns (if max =? 0 then U64_MAX else max).

(** [iter().map(|m| m.len() as u64).sum::<u64>()]. *)
Definition sum_lens (l : list bytes) : Z := foldl (λ acc m, u64 (acc + len m)) 0 l.

(** The bytes of a list of byte strings, unbounded. *)
Definition total (L : list bytes) : Z := foldr (λ x acc, len x + acc) 0 L.

Lemma total_app L L' : total (L ++ L') = total L + total L'.
Proof. induction L as [|x L IH]; [done|]. cbn. unfold total in *. rewrite IH. lia. Qed.

Lemma total_nonneg L : 0 <= total L.
Proof. induction L as [|x L IH]; [done|]. unfold total in *. cbn. lia. Qed.

Lemma total_rev L : total (rev L) = total L.
Proof.
  induction L as [|x L IH]; [done|]. cbn [rev]. rewrite total_app, IH. unfold total. cbn. lia.
Qed.

Lemma total_cons x L : total (x :: L) = len x + total L.
Proof. done. Qed.

Lemma sum_lens_total l : total l < 2 ^ 64 → sum_lens l = total l.
Proof.
  unfold sum_lens. induction l as [|x l IH] using rev_ind; intros Hb; [done|].
  rewrite total_app, total_cons in *. change (total []) with 0 in *. pose proof (total_nonneg l).
  rewrite foldl_app. cbn. rewrite IH by lia. rewrite wrap_id; [lia|unfold in_width; lia].
Qed.

Definition meta_key (st : store) (slot : Z) (key : bytes) : bytes :=
  envelope Metadata (st_ns st) slot key.

(** [read_meta], the same in every store up to the type it admits and the
    layout it decodes: absent and undecodable rows read as no key, an expired
    row is deleted and reads as no key, another type is WRONGTYPE. *)
Definition read_typed {M} (t : ValueType) (decode : bytes → option M)
    (st : store) (slot : Z) (key : bytes) : prog (result (option M)) :=
  let mk := meta_key st slot key in
  o <- kvget mk ;;
  match o with
  | None => Ret (Ok None)
  | Some row =>
      match MetaHeader_decode row with
      | None => Ret (Ok None)
      | Some header =>
          now <- clock ;;
          if MetaHeader_is_expired header now then
            kvdelete mk ;;; Ret (Ok None)
          else if decide (value_type header = Some t) then
            match decode row with
            | Some m => Ret (Ok (Some m))
            | None => Ret (Err WrongType)
            end
          else Ret (Err WrongType)
      end
  end.

(** What a metadata row means at an instant. *)
Definition dead_row (now : Z) (o : option bytes) : Prop :=
  match o with
  | None => True
  | Some row =>
      match MetaHeader_decode row with
      | None => True
      | Some h => MetaHeader_is_expired h now = true
      end
  end.

Definition live_row (t : ValueType) (now : Z) (row : bytes) : Prop :=
  ∃ h, MetaHeader_decode row = Some h ∧ MetaHeader_is_expired h now = false ∧
       value_type h = Some t.

(** What a read may have done to the world: read the clock, and deleted a dead
    metadata row. *)
Definition after_read (a : addr) (w w' : world kvmap) : Prop :=
  (w' = w ∨ w' = tick w ∨ w' = with_kv (tick w) (delete (mkey a) (w_kv w))).

Section Read.
Context {M : Type} (t : ValueType) (decode : bytes → option M).
Context (st : store) (slot : Z) (key : bytes).

Abbreviation a := (mkAddr (st_ns st) slot key).

Lemma wp_read_live row m w Q :
  w_kv w !! mkey a = Some row → live_row t (w_clock w 0%nat) row → decode row = Some m →
  Q (Ok (Some m)) (tick w) → wp (read_typed t decode st slot key) w Q.
Proof.
  intros Hrow (h & Hh & Hex & Ht) Hd HQ. unfold read_typed. wp_op.
  change (meta_key st slot key) with (mkey a). rewrite Hrow, Hh. wp_op.
  rewrite Hex. rewrite decide_True by done. rewrite Hd. by wp_op.
Qed.

Lemma wp_read_dead w Q :
  dead_row (w_clock w 0%nat) (w_kv w !! mkey a) →
  (∀ w', after_read a w w' → dead_row (w_clock w 0%nat) (w_kv w' !! mkey a) → Q (Ok None) w') →
  wp (read_typed t decode st slot key) w Q.
Proof.
  intros Hd HQ. unfold read_typed. wp_op. change (meta_key st slot key) with (mkey a).
  unfold dead_row in Hd. destruct (w_kv w !! mkey a) as [row|] eqn:E.
  2:{ wp_op. apply HQ; [by left|]. by rewrite E. }
  destruct (MetaHeader_decode row) as [h|] eqn:Eh.
  2:{ wp_op. apply HQ; [by left|]. rewrite E. cbn. by rewrite Eh. }
  wp_op. rewrite Hd. wp_op. wp_op. apply HQ; [by right; right|].
  cbn [w_kv with_kv]. by rewrite lookup_delete_eq.
Qed.

(** A key of another type: WRONGTYPE, and nothing changes. *)
Lemma wp_read_wrong row h w Q :
  w_kv w !! mkey a = Some row → MetaHeader_decode row = Some h →
  MetaHeader_is_expired h (w_clock w 0%nat) = false → value_type h ≠ Some t →
  Q (Err WrongType) (tick w) → wp (read_typed t decode st slot key) w Q.
Proof.
  intros Hrow Hh Hex Ht HQ. unfold read_typed. wp_op.
  change (meta_key st slot key) with (mkey a). rewrite Hrow, Hh. wp_op.
  rewrite Hex. rewrite decide_False by done. by wp_op.
Qed.
End Read.

(** ** Collections as finite maps *)

Definition clocks_ok (w : world kvmap) : Prop := ∀ n, clock_ok (w_clock w n).

(** The environment a store runs in: a clock in range, and no element row above
    the version counter. *)
Record env_ok (w : world kvmap) : Prop := {
  env_clocks : clocks_ok w;
  env_fresh : fresh (w_kv w) (w_last w)
}.

(** There is a version number left to draw. *)
Definition headroom (w : world kvmap) : Prop := 0 <= w_last w < U64_MAX.

(** A metadata record a store may write back: its type, and fields that fit. *)
Record base_ok (t : ValueType) (now : Z) (meta : ComplexMeta) : Prop := {
  base_type : value_type (c_header meta) = Some t;
  base_live : MetaHeader_is_expired (c_header meta) now = false;
  base_expire : in_width 64 (h_expire_ms (c_header meta));
  base_version : in_width 64 (c_version meta)
}.

(** The key holds, at [now], a collection of type [t] whose metadata is [meta]
    and whose elements are [F], with the accounting true. *)
Definition holds_meta (t : ValueType) (wgt : bytes → bytes → Z) (a : addr) (now : Z)
    (m : kvmap) (meta : ComplexMeta) (F : kvmap) : Prop :=
  (∃ row, m !! mkey a = Some row ∧ live_row t now row ∧ ComplexMeta_decode row = Some meta) ∧
  rows_at Subkey a (c_version meta) m = F ∧
  c_size meta = Z.of_nat (size F) ∧ c_bytes meta = weight wgt F.

(** What a key holds as the client sees it: nothing, or a nonempty collection
    (the stores delete a collection with its last element). *)
Definition repr (t : ValueType) (wgt : bytes → bytes → Z) (a : addr) (now : Z)
    (m : kvmap) (H : option kvmap) : Prop :=
  match H with
  | None => dead_row now (m !! mkey a)
  | Some F => F ≠ ∅ ∧ ∃ meta, holds_meta t wgt a now m meta F
  end.

Definition contents (H : option kvmap) : kvmap :=
  match H with Some F => F | None => ∅ end.

Lemma of_be_range l : 0 <= of_be l < 2 ^ (8 * len l).
Proof.
  induction l as [|b l IH]; [done|]. rewrite of_be_cons. pose proof (b2z_range b).
  cbn [length]. rewrite Nat2Z.inj_succ, <-Z.add_1_l, Z.mul_add_distr_l, Z.pow_add_r by lia.
  change (2 ^ (8 * 1)) with 256. nia.
Qed.

Lemma of_be_inj e e' : length e = length e' → of_be e = of_be e' → e = e'.
Proof.
  revert e'. induction e as [|x e IH]; intros [|x' e'] Hl E; try done.
  injection Hl as Hl. rewrite !of_be_cons, Hl in E.
  pose proof (of_be_range e) as R. pose proof (of_be_range e'). rewrite Hl in R.
  assert (b2z x = b2z x' ∧ of_be e = of_be e') as [Ex Ee].
  { apply (Z.div_mod_unique (2 ^ (8 * len e'))); [by left..|lia]. }
  f_equal; [by apply b2z_inj|auto].
Qed.

Lemma of_be_sub_width row off n : in_width (8 * Z.of_nat n) (of_be (sub row off n)).
Proof.
  pose proof (of_be_range (sub row off n)) as H.
  assert (length (sub row off n) ≤ n)%nat by (unfold sub; rewrite length_take; lia).
  unfold in_width. split; [lia|]. eapply Z.lt_le_trans; [apply H|].
  apply Z.pow_le_mono_r; lia.
Qed.

Lemma live_row_base t now row meta :
  live_row t now row → ComplexMeta_decode row = Some meta → base_ok t now meta.
Proof.
  intros (h & Hh & Hex & Ht). unfold ComplexMeta_decode. rewrite Hh. cbn.
  case_decide; [done|]. intros [= <-]. constructor; cbn; [done..| |].
  - unfold MetaHeader_decode in Hh. destruct row; [done|]. case_decide; [done|].
    injection Hh as <-. apply (of_be_sub_width _ 1 8).
  - apply (of_be_sub_width _ _ 8).
Qed.

Lemma base_ok_new t now v : in_width 64 v → base_ok t now (ComplexMeta_new t v).
Proof.
  intros Hv. constructor; cbn; [|done|width|done].
  unfold value_type. cbn. apply from_make_flags.
Qed.

(** Writing a touched record back: the row decodes to it and is live. *)
Lemma touch_live t now meta size bytes now' :
  base_ok t now meta → in_width 32 size → in_width 64 bytes → in_width 64 now' →
  let meta' := ComplexMeta_touch
    (mkComplexMeta (c_header meta) (c_written_ms meta) (c_version meta) size bytes) now' in
  live_row t now (ComplexMeta_encode meta') ∧
  ComplexMeta_decode (ComplexMeta_encode meta') = Some meta'.
Proof.
  intros [Ht Hex He Hv] Hs Hb Hn meta'.
  assert (Hok : meta_ok t meta').
  { unfold meta_ok, header_ok, meta', ComplexMeta_touch. cbn [c_header h_flags h_expire_ms c_written_ms c_version c_size c_bytes].
    split_and!; try done. unfold v2_flags, value_type in *. by rewrite Ht. }
  pose proof (ComplexMeta_decode_encode_app t meta' [] Hok) as Hd.
  pose proof (MetaHeader_decode_encode_app t meta' [] Hok) as Hh.
  rewrite app_nil_r in Hd, Hh. split; [|done].
  exists (c_header meta'). split_and!; [done|done|].
  destruct Hok as ((Hf & _) & _). unfold value_type. rewrite Hf. apply from_make_flags.
Qed.

(** ** Opening a collection for writing *)

(** [match self.read_meta(slot, key)? { Some(m) => m, None => ComplexMeta::new(t,
    VersionGen::next((self.clock)())) }]. *)
Definition meta_or_new (t : ValueType) (st : store) (slot : Z) (key : bytes)
    : prog (result ComplexMeta) :=
  o <-? read_typed t ComplexMeta_decode st slot key ;;
  match o with
  | Some m => Ret (Ok m)
  | None => now <- clock ;; v <- next_version now ;; Ret (Ok (ComplexMeta_new t v))
  end.

(** What an operation on [a] does to the rest of the world: the clock has only
    been read, versions have only been drawn, and no row of another key has
    moved. *)
Record effect (a : addr) (w w' : world kvmap) : Prop := {
  eff_clock : ∃ d, ∀ n, w_clock w' n = w_clock w (d + n)%nat;
  eff_last : w_last w <= w_last w';
  eff_fresh : fresh (w_kv w') (w_last w');
  eff_frame : frame a (w_kv w) (w_kv w')
}.

Lemma effect_clocks a w w' : effect a w w' → clocks_ok w → clocks_ok w'.
Proof. intros [[d Hd] _ _ _] Hc n. rewrite Hd. apply Hc. Qed.

Lemma effect_trans a w1 w2 w3 : effect a w1 w2 → effect a w2 w3 → effect a w1 w3.
Proof.
  intros [[d Hd] Hl _ Hfr] [[d' Hd'] Hl' Hf Hfr']. constructor; [|lia|done|by eapply frame_trans].
  exists (d + d')%nat. intros n. rewrite Hd', Hd. f_equal. lia.
Qed.

Lemma effect_tick a w : fresh (w_kv w) (w_last w) → effect a w (tick w).
Proof. intros. constructor; cbn; auto with flint; [|lia]. by exists 1%nat. Qed.

Lemma effect_refl a w : fresh (w_kv w) (w_last w) → effect a w w.
Proof. intros. constructor; cbn; auto with flint; [|lia]. by exists 0%nat. Qed.

Lemma effect_with_kv a w m :
  fresh m (w_last w) → frame a (w_kv w) m → effect a w (with_kv w m).
Proof. intros. constructor; cbn; auto; [|lia]. by exists 0%nat. Qed.

(** The instants at which what an operation writes to a key is there to be
    read: any, for a key it makes; those before the expiry, for one it found. *)
Definition lives (t : ValueType) (wgt : bytes → bytes → Z) (a : addr) (m : kvmap)
    (H : option kvmap) (now : Z) : Prop :=
  H = None ∨ repr t wgt a now m H.

Record opened (t : ValueType) (wgt : bytes → bytes → Z) (a : addr) (H : option kvmap)
    (w : world kvmap) (meta : ComplexMeta) (w' : world kvmap) : Prop := {
  op_base now : lives t wgt a (w_kv w) H now → base_ok t now meta;
  op_width : in_width 64 (c_version meta);
  op_rows : rows_at Subkey a (c_version meta) (w_kv w') = contents H;
  op_size : c_size meta = Z.of_nat (size (contents H));
  op_bytes : c_bytes meta = weight wgt (contents H);
  op_version : c_version meta <= w_last w';
  op_effect : effect a w w';
  op_repr now : repr t wgt a now (w_kv w) H → repr t wgt a now (w_kv w') H
}.

(** One metadata row: what it holds at one instant it holds at every instant
    it is live. *)
Lemma holds_meta_at t wgt a now now' m meta F :
  holds_meta t wgt a now m meta F → repr t wgt a now' m (Some F) → holds_meta t wgt a now' m meta F.
Proof.
  intros ((row & Hrow & _ & Hd) & HF) (_ & meta' & (row' & Hrow' & Hl' & Hd') & _).
  assert (row' = row) by congruence. subst row'. split; [|done]. by exists row.
Qed.

Section Open.
Context (t : ValueType) (wgt : bytes → bytes → Z) (st : store) (slot : Z) (key : bytes).
Abbreviation a := (mkAddr (st_ns st) slot key).

Lemma after_read_effect w w' :
  after_read a w w' → env_ok w →
  env_ok w' ∧ effect a w w' ∧ w_last w' = w_last w.
Proof.
  intros Hw [Hc Hf].
  assert (effect a w w') as He.
  { destruct Hw as [->|[->| ->]]; [by apply effect_refl|by apply effect_tick|].
    eapply effect_trans; [by apply effect_tick|]. apply effect_with_kv; cbn; auto with flint. }
  assert (w_last w' = w_last w) as E by (by destruct Hw as [->|[->| ->]]).
  split_and!; [|done..]. constructor; [by eapply effect_clocks|apply He].
Qed.

Lemma repr_version m F now meta last :
  F ≠ ∅ → holds_meta t wgt a now m meta F → addr_wf a → fresh m last → c_version meta <= last.
Proof.
  intros Hne ((row & _ & Hl & Hd) & HF & _) Ha Hf.
  apply map_choose in Hne as (f & x & Hx). rewrite <-HF, lookup_rows_at in Hx.
  eapply Hf; [| |by eapply base_version, live_row_base|done]; done.
Qed.

(** What a read answers for what the key holds. *)
Definition read_as (H : option kvmap) (now : Z) (m : kvmap) (o : option ComplexMeta) : Prop :=
  match H, o with
  | Some F, Some meta => F ≠ ∅ ∧ holds_meta t wgt a now m meta F
  | None, None => True
  | _, _ => False
  end.

Lemma wp_read_repr H w Q :
  env_ok w → repr t wgt a (w_clock w 0%nat) (w_kv w) H →
  (∀ o w', env_ok w' → effect a w w' → w_last w' = w_last w →
     read_as H (w_clock w 0%nat) (w_kv w') o →
     (∀ now, repr t wgt a now (w_kv w) H → repr t wgt a now (w_kv w') H) → Q (Ok o) w') →
  wp (read_typed t ComplexMeta_decode st slot key) w Q.
Proof.
  intros Henv HH HQ. destruct H as [F|]; cbn [repr] in HH.
  - pose proof HH as (Hne & meta & Hm). pose proof Hm as ((row & Hrow & Hl & Hd) & _).
    eapply wp_read_live; [done..|].
    destruct (after_read_effect w (tick w)) as (? & ? & ?); [right; by left|done|].
    by apply HQ.
  - apply wp_read_dead; [done|]. intros w' Hafter Hdead.
    destruct (after_read_effect w w') as (? & ? & ?); [done..|]. apply HQ; try done.
    intros now. cbn. destruct Hafter as [->|[->| ->]]; [done..|]. cbn.
    by rewrite lookup_delete_eq.
Qed.

Lemma wp_meta_or_new H w Q :
  addr_wf a → env_ok w → headroom w → repr t wgt a (w_clock w 0%nat) (w_kv w) H →
  (∀ meta w', opened t wgt a H w meta w' → Q (Ok meta) w') →
  wp (meta_or_new t st slot key) w Q.
Proof.
  intros Ha Henv Hroom HH HQ. unfold meta_or_new. apply wp_try.
  apply (wp_read_repr H); [done..|]. intros o w' [Hc Hf] He El Hread Hrepr.
  unfold headroom in Hroom. rewrite <-El in Hroom.
  destruct H as [F|], o as [meta|]; try done; cbn [read_as] in Hread.
  - destruct Hread as [Hne Hm]. pose proof Hm as ((row & Hrow & Hl & Hd) & HF & Hs & Hb).
    wp_op. apply HQ. constructor; try done.
    + intros now [?|Hnow]; [done|]. apply Hrepr in Hnow.
      destruct (holds_meta_at _ _ _ _ _ _ _ _ Hm Hnow) as ((row' & _ & Hl' & Hd') & _).
      by eapply live_row_base.
    + by eapply base_version, live_row_base.
    + by eapply repr_version.
  - wp_op. wp_op. wp_op. apply HQ.
    destruct (version_next_lt (w_last w') (w_clock w' 0%nat)) as (Hv & _ & Hv64); [done..|].
    constructor; cbn; auto using base_ok_new.
    + by eapply fresh_empty.
    + lia.
    + eapply effect_trans; [done|]. constructor; cbn; auto with flint; [by exists 1%nat|lia|].
      eapply fresh_le; [done|lia].
Qed.
End Open.

Lemma effect_env a w w' : effect a w w' → env_ok w → env_ok w'.
Proof. intros He [Hc Hf]. constructor; [by eapply effect_clocks|apply He]. Qed.

(** ** Writing element rows *)

(** The world after element rows of version [v] were written or deleted: the
    rows are [G], and nothing of another key or the metadata row has moved. *)
Record rows_written (a : addr) (v : Z) (G : kvmap) (w w' : world kvmap) : Prop := {
  rw_world : w' = with_kv w (w_kv w');
  rw_rows : rows_at Subkey a v (w_kv w') = G;
  rw_frame : frame a (w_kv w) (w_kv w');
  rw_fresh : fresh (w_kv w') (w_last w);
  rw_meta : w_kv w' !! mkey a = w_kv w !! mkey a
}.

Lemma rows_written_refl a v w :
  fresh (w_kv w) (w_last w) → rows_written a v (rows_at Subkey a v (w_kv w)) w w.
Proof. intros. constructor; auto with flint. by destruct w. Qed.

Section Rows.
Context (a : addr) (v : Z) (Ha : addr_wf a) (Hv : in_width 64 v).

Lemma rows_written_put G f x w w' :
  v <= w_last w → rows_written a v G w w' →
  rows_written a v (<[f := x]> G) w (with_kv w' (<[rprefix Subkey a v ++ f := x]> (w_kv w'))).
Proof.
  intros Hle [Hw HG Hfr Hf Hm]. constructor; cbn.
  - by rewrite Hw.
  - by rewrite rows_at_insert, HG.
  - eapply frame_trans; [done|]. by apply frame_insert, owned_row.
  - by apply fresh_row.
  - rewrite lookup_insert_ne; [done|]. intros E. by apply (mkey_not_row Subkey a v f a).
Qed.

Lemma rows_written_delete G f w w' :
  rows_written a v G w w' →
  rows_written a v (delete f G) w (with_kv w' (delete (rprefix Subkey a v ++ f) (w_kv w'))).
Proof.
  intros [Hw HG Hfr Hf Hm]. constructor; cbn.
  - by rewrite Hw.
  - by rewrite rows_at_delete, HG.
  - eapply frame_trans; [done|]. by apply frame_delete, owned_row.
  - by apply fresh_delete.
  - rewrite lookup_delete_ne; [done|]. intros E. by apply (mkey_not_row Subkey a v f a).
Qed.
End Rows.

Lemma skey_ok a v f :
  addr_wf a → subkey_envelope (a_ns a) (a_slot a) (a_key a) v f = Some (rprefix Subkey a v ++ f).
Proof. apply subkey_envelope_ok. Qed.

Lemma sprefix_ok a v :
  addr_wf a → subkey_prefix (a_ns a) (a_slot a) (a_key a) v = Some (rprefix Subkey a v).
Proof. apply subkey_prefix_ok. Qed.

(** [for (field, value) in l { kv.put(&subkey_envelope(..), value) }]. *)
Definition put_fields (ns : bytes) (slot : Z) (key : bytes) (version : Z)
    (l : list (bytes * bytes)) : prog unit :=
  for_ l (λ p, sk <- unwrap (subkey_envelope ns slot key version p.1) ;; kvput sk p.2).

Lemma wp_put_fields a v l w Q :
  addr_wf a → in_width 64 v → v <= w_last w → fresh (w_kv w) (w_last w) → NoDup l.*1 →
  (∀ w', rows_written a v (list_to_map l ∪ rows_at Subkey a v (w_kv w)) w w' → Q tt w') →
  wp (put_fields (a_ns a) (a_slot a) (a_key a) v l) w Q.
Proof.
  intros Ha Hv Hle Hf Hnd HQ. unfold put_fields.
  apply (wp_for (λ l' w', NoDup l'.*1 ∧ ∃ G, rows_written a v G w w' ∧
    list_to_map l' ∪ G = (list_to_map l ∪ rows_at Subkey a v (w_kv w) : kvmap))).
  - split; [done|]. eexists. split; [by apply rows_written_refl|done].
  - intros [f x] l' w' (Hnd' & G & HG & E). apply NoDup_cons in Hnd' as [Hf' Hnd'].
    eapply wp_unwrap; [by apply skey_ok|]. exists tt, (with_kv w' (<[rprefix Subkey a v ++ f := x]> (w_kv w'))).
    split; [done|]. split; [done|]. exists (<[f := x]> G). split; [by apply rows_written_put|].
    rewrite <-E. cbn. apply not_elem_of_list_to_map in Hf'.
    rewrite <-insert_union_l. by rewrite <-insert_union_r.
  - intros w' (_ & G & HG & E). apply HQ. rewrite <-E. cbn. by rewrite (left_id_L ∅ (∪)).
Qed.

(** ** Closing a collection *)

(** [meta.size = size; meta.bytes = bytes; meta.touch(now)]. *)
Definition resized (meta : ComplexMeta) (size bytes now : Z) : ComplexMeta :=
  ComplexMeta_touch
    (mkComplexMeta (c_header meta) (c_written_ms meta) (c_version meta) size bytes) now.

Lemma close_repr t wgt a now m F meta size bytes now' :
  base_ok t now meta → rows_at Subkey a (c_version meta) m = F → F ≠ ∅ →
  size = Z.of_nat (base.size F) → bytes = weight wgt F →
  in_width 32 size → in_width 64 bytes → in_width 64 now' →
  repr t wgt a now (<[mkey a := ComplexMeta_encode (resized meta size bytes now')]> m) (Some F).
Proof.
  intros Hb HF Hne Hs Hby Hs32 Hb64 Hn. split; [done|].
  destruct (touch_live t now meta size bytes now') as [Hl Hd]; [done..|].
  exists (resized meta size bytes now'). split_and!; cbn; try done.
  - eexists. by rewrite lookup_insert_eq.
  - by rewrite rows_at_meta_insert.
Qed.

(** ** Other keys *)

(** What another key holds is what it held. *)
Lemma repr_frame t wgt a a' now m m' H :
  addr_wf a → addr_wf a' → a ≠ a' → frame a m m' →
  repr t wgt a' now m H → repr t wgt a' now m' H.
Proof.
  intros Ha Ha' Hne Hfr. assert (E : m' !! mkey a' = m !! mkey a').
  { apply Hfr. by apply not_owned_mkey. }
  destruct H as [F|]; cbn; [|by rewrite E].
  intros (HneF & meta & (row & Hrow & Hl & Hd) & HF & Hs & Hb). split; [done|].
  exists meta. split_and!; try done.
  - exists row. by rewrite E.
  - rewrite (rows_at_frame Subkey a a' _ m m'); try done.
    by eapply base_version, live_row_base.
Qed.

Lemma rows_written_effect a v G w w' : rows_written a v G w w' → effect a w w'.
Proof.
  intros [Hw HG Hfr Hf Hm]. rewrite Hw. apply effect_with_kv; done.
Qed.

(** Touching and storing the metadata row ends an operation. *)
Lemma close_effect a w w' x :
  effect a w w' → effect a w (with_kv (tick w') (<[mkey a := x]> (w_kv w'))).
Proof.
  intros He. pose proof (eff_fresh _ _ _ He). eapply effect_trans; [done|].
  eapply effect_trans; [by apply effect_tick|]. apply effect_with_kv; cbn; auto with flint.
Qed.

(** The columns bound what a collection can account for. *)
Lemma holds_widths t wgt a now m meta F :
  holds_meta t wgt a now m meta F →
  in_width 32 (Z.of_nat (size F)) ∧ in_width 64 (weight wgt F) ∧ base_ok t now meta.
Proof.
  intros ((row & _ & Hl & Hd) & _ & <- & <-). pose proof (live_row_base _ _ _ _ Hl Hd).
  split_and!; [..|done]; unfold ComplexMeta_decode in Hd;
    destruct (MetaHeader_decode row); try done; cbn in Hd; case_decide; try done;
    injection Hd as <-; cbn; [apply (of_be_sub_width _ _ 4)|apply (of_be_sub_width _ _ 8)].
Qed.

(** A collection without some of its elements. *)
Definition without (fields : list bytes) (F : kvmap) : kvmap :=
  filter (λ kv : bytes * bytes, kv.1 ∉ fields) F.

Lemma lookup_without fields F f :
  without fields F !! f = if decide (f ∈ fields) then None else F !! f.
Proof.
  unfold without. rewrite map_lookup_filter. destruct (F !! f) as [x|]; cbn.
  - case_decide; case_guard; done.
  - by case_decide.
Qed.

Lemma without_nil F : without [] F = F.
Proof. apply map_eq. intros f. rewrite lookup_without. case_decide; [set_solver|done]. Qed.

Lemma weight_without wgt fields F :
  (∀ k v, 0 <= wgt k v) → weight wgt (without fields F) <= weight wgt F.
Proof.
  intros Hpos. induction F as [|k v F Hk IH] using map_ind.
  { unfold without. by rewrite map_filter_empty. }
  rewrite (weight_insert_new _ F) by done. unfold without in *. specialize (Hpos k v).
  destruct (decide (k ∈ fields)).
  - rewrite map_filter_insert_False by (cbn; tauto). rewrite delete_id by done. lia.
  - rewrite map_filter_insert_True by done. rewrite weight_insert_new; [lia|].
    rewrite map_lookup_filter, Hk. done.
Qed.

Lemma without_cons f l F : without l (delete f F) = without (f :: l) F.
Proof.
  apply map_eq. intros k. rewrite !lookup_without. destruct (decide (k = f)) as [->|Hne].
  - rewrite lookup_delete_eq. case_decide; (case_decide; set_solver).
  - rewrite lookup_delete_ne by done. repeat case_decide; set_solver.
Qed.

Lemma size_union_ge (G U : kvmap) : (size G ≤ size (U ∪ G))%nat.
Proof.
  rewrite <-!size_dom. apply subseteq_size. rewrite dom_union_L. set_solver.
Qed.

Lemma clock_ok_64 w n : clocks_ok w → in_width 64 (w_clock w n).
Proof. intros Hc. pose proof (Hc n) as H'. unfold clock_ok in H'. width. Qed.

Lemma map_drop_rows (p : bytes) m :
  map (λ r : bytes * bytes, (drop (length p) r.1, r.2)) (prefix_rows m p) = rows_of (sub_map p m).
Proof.
  rewrite prefix_rows_sub_map.
  induction (rows_of (sub_map p m)) as [|[k v] l IH]; [done|]. cbn.
  rewrite drop_app_length. f_equal. exact IH.
Qed.

(** A walk that starts after a place below the prefix. *)
Lemma rows_from_sub_map m p s :
  rows_from m p (bound_in p s) =
  prod_map (app p) id <$> filter (λ r : bytes * bytes, s = [] ∨ blt s r.1 = true) (rows_of (sub_map p m)).
Proof.
  unfold rows_from. rewrite prefix_rows_sub_map.
  induction (rows_of (sub_map p m)) as [|[k v] l IH]; [done|]. cbn [fmap list_fmap]. rewrite !filter_cons, IH.
  destruct s as [|b s].
  - rewrite !decide_True by auto. done.
  - cbn [bound_in]. destruct (p ++ b :: s) eqn:E; [by destruct p|]. rewrite <-E.
    cbn [prod_map fst id]. rewrite blt_app. case_decide as H1.
    + rewrite decide_True by auto. done.
    + rewrite decide_False by naive_solver. done.
Qed.

Lemma filter_fmap_iff {A B} (P : B → Prop) (P' : A → Prop) `{∀ x, Decision (P x)} `{∀ x, Decision (P' x)}
    (f : A → B) (l : list A) :
  (∀ x, P (f x) ↔ P' x) → filter P (f <$> l) = f <$> filter P' l.
Proof.
  intros Hiff. induction l as [|x l IH]; [done|]. cbn [fmap list_fmap]. rewrite !filter_cons.
  destruct (decide (P (f x))) as [H1|H1], (decide (P' x)) as [H2|H2]; cbn; rewrite ?IH; try done;
    exfalso; by rewrite Hiff in H1.
Qed.

Lemma rows_before_sub_map m p s :
  rows_before m p (match s with [] => [] | _ => p ++ s end) =
  prod_map (app p) id <$>
    filter (λ r : bytes * bytes, s = [] ∨ blt r.1 s = true) (List.rev (rows_of (sub_map p m))).
Proof.
  unfold rows_before. rewrite prefix_rows_sub_map, <-map_rev.
  change (map (prod_map (app p) id) ?l) with (prod_map (app p) id <$> l).
  apply filter_fmap_iff. intros [k v]. cbn [fst prod_map]. destruct s as [|b s].
  - split; [by left|done].
  - destruct (p ++ b :: s) eqn:E; [by destruct p|]. rewrite <-E, blt_app. naive_solver.
Qed.

Lemma map_drop_keys (p : bytes) m :
  map (λ r : bytes * bytes, drop (length p) r.1) (prefix_rows m p) = (rows_of (sub_map p m)).*1.
Proof.
  rewrite prefix_rows_sub_map.
  induction (rows_of (sub_map p m)) as [|[k v] l IH]; [done|]. cbn.
  rewrite drop_app_length. f_equal. exact IH.
Qed.

(** A read that leaves the collection as it was. *)
Definition read_only (t : ValueType) (wgt : bytes → bytes → Z) (a : addr)
    (H : option kvmap) (w w' : world kvmap) : Prop :=
  env_ok w' ∧ effect a w w' ∧ w_last w' = w_last w ∧
  ∀ now, repr t wgt a now (w_kv w) H → repr t wgt a now (w_kv w') H.

Lemma wp_read_holds t wgt st slot key (H : option kvmap) w Q :
  let a := mkAddr (st_ns st) slot key in
  env_ok w → repr t wgt a (w_clock w 0%nat) (w_kv w) H →
  (∀ o w', read_only t wgt a H w w' →
     match o with
     | None => H = None
     | Some meta => ∃ F, H = Some F ∧ F ≠ ∅ ∧ holds_meta t wgt a (w_clock w 0%nat) (w_kv w') meta F
     end → Q (Ok o) w') →
  wp (read_typed t ComplexMeta_decode st slot key) w Q.
Proof.
  intros a Henv HH HQ. apply (wp_read_repr t wgt st slot key H); [done..|].
  intros o w' Henv' He El Hread Hr. apply HQ; [done|].
  destruct H as [F|], o as [meta|]; try done. exists F. destruct Hread. done.
Qed.

Lemma holds_lookup t wgt a now m meta F f :
  holds_meta t wgt a now m meta F →
  m !! (rprefix Subkey a (c_version meta) ++ f) = F !! f.
Proof. intros (_ & <- & _). by rewrite lookup_rows_at. Qed.

(** What an operation made of the key: at every instant at which the key held
    [H] it now holds [H']; and, for the operations that make a key of an absent
    one, a key made is there at every instant. *)
Definition turns (t : ValueType) (wgt : bytes → bytes → Z) (a : addr)
    (H H' : option kvmap) (w w' : world kvmap) : Prop :=
  ∀ now, repr t wgt a now (w_kv w) H → repr t wgt a now (w_kv w') H'.

Definition makes (t : ValueType) (wgt : bytes → bytes → Z) (a : addr)
    (H : option kvmap) (F' : kvmap) (w w' : world kvmap) : Prop :=
  ∀ now, lives t wgt a (w_kv w) H now → repr t wgt a now (w_kv w') (Some F').

Lemma makes_after t wgt a H F' w w1 w2 :
  read_only t wgt a H w w1 → makes t wgt a H F' w1 w2 → makes t wgt a H F' w w2.
Proof.
  intros (_ & _ & _ & Hr) Hb now [?|Hnow]; apply Hb; [by left|right; auto].
Qed.

Lemma turns_after t wgt a H H' w w1 w2 :
  read_only t wgt a H w w1 → turns t wgt a H H' w1 w2 → turns t wgt a H H' w w2.
Proof. intros (_ & _ & _ & Hr) Hb now Hnow. auto. Qed.

(** ** Closing after a removal *)

(** The end of HDEL and SREM: a collection left without elements is deleted,
    another is resized. *)
Definition finish_removal (st : store) (slot : Z) (key : bytes) (meta : ComplexMeta)
    (removed bytes : Z) : prog (result Z) :=
  let size := saturating_sub (c_size meta) (u32 removed) in
  if size =? 0 then
    kvdelete (meta_key st slot key) ;;; Ret (Ok removed)
  else
    now <- clock ;;
    kvput (meta_key st slot key) (ComplexMeta_encode (resized meta size bytes now)) ;;;
    Ret (Ok removed).

Lemma size_without l (F : kvmap) : (size (without l F) ≤ size F)%nat.
Proof. rewrite <-!size_dom. apply subseteq_size, dom_filter_subseteq. Qed.

Lemma wp_finish_removal t wgt st slot key l now meta F w w1 w2 Q :
  let a := mkAddr (st_ns st) slot key in
  let F' := without l F in
  (∀ k v, 0 <= wgt k v) →
  holds_meta t wgt a now (w_kv w1) meta F → env_ok w1 → effect a w w1 →
  rows_written a (c_version meta) F' w1 w2 →
  (∀ w', effect a w w' →
     (∀ now', repr t wgt a now' (w_kv w1) (Some F) →
        repr t wgt a now' (w_kv w') (if decide (F' = ∅) then None else Some F')) →
     Q (Ok (Z.of_nat (size F) - Z.of_nat (size F'))) w') →
  wp (finish_removal st slot key meta (Z.of_nat (size F) - Z.of_nat (size F')) (weight wgt F')) w2 Q.
Proof.
  intros a F' Hpos Hm Henv He Hrw HQ. unfold finish_removal.
  destruct (holds_widths _ _ _ _ _ _ _ Hm) as (HF32 & HF64 & Hb).
  pose proof (size_without l F : (size F' ≤ size F)%nat) as Hle.
  pose proof (weight_without wgt l F Hpos : weight wgt F' <= weight wgt F) as Hwle.
  pose proof (weight_nonneg wgt Hpos F') as Hw0. clearbody F'.
  assert (Hsz : saturating_sub (c_size meta) (u32 (Z.of_nat (size F) - Z.of_nat (size F'))) =
                Z.of_nat (size F')).
  { destruct Hm as (_ & _ & -> & _). rewrite wrap_id by (unfold in_width in *; lia).
    unfold saturating_sub. lia. }
  rewrite Hsz. pose proof (rows_written_effect _ _ _ _ _ Hrw) as He2.
  destruct (Z.eqb_spec (Z.of_nat (size F')) 0) as [Hz|Hz].
  - wp_op. wp_op. assert (E : F' = ∅) by (apply map_size_empty_inv; lia).
    apply HQ; [|intros now' _; rewrite decide_True by done; cbn; by rewrite lookup_delete_eq].
    eapply effect_trans; [done|]. eapply effect_trans; [done|].
    apply effect_with_kv; cbn; auto with flint. apply fresh_delete, He2.
  - wp_op. wp_op. wp_op. apply HQ; [apply close_effect; by eapply effect_trans|].
    assert (F' ≠ ∅) by (intros ->; by rewrite map_size_empty in Hz).
    intros now' Hnow. rewrite decide_False by done.
    destruct (holds_widths _ _ _ _ _ _ _ (holds_meta_at _ _ _ _ _ _ _ _ Hm Hnow)) as (_ & _ & Hb').
    apply close_repr; try done; [apply Hrw|unfold in_width in *; lia..|].
    apply clock_ok_64. eapply effect_clocks; [done|]. apply Henv.
Qed.

(** ** A small store

    One collection of one element, for the examples that instantiate the
    theorems. *)

Definition demo_store : store := mkStore (bstr "t") 1000.
Definition demo_addr : addr := mkAddr (bstr "t") 7 (bstr "k").

Definition demo_map (t : ValueType) (x : bytes) (weight : Z) : kvmap :=
  <[mkey demo_addr := ComplexMeta_encode (resized (ComplexMeta_new t 3) 1 weight 5)]>
    (<[rprefix Subkey demo_addr 3 ++ bstr "f" := x]> ∅).

Definition demo_world (m : kvmap) : world kvmap := World m (λ _, 5) 9 (λ _, 0).

Lemma demo_addr_wf : addr_wf demo_addr.
Proof. repeat split; vm_compute; congruence. Qed.

Lemma demo_env t x n : env_ok (demo_world (demo_map t x n)).
Proof.
  constructor; [by split|]. by apply fresh_meta, fresh_row.
Qed.

Lemma demo_env_empty : env_ok (demo_world ∅).
Proof. by constructor. Qed.

Lemma demo_repr t wgt x n :
  n = weight wgt {[bstr "f" := x]} → in_width 64 n →
  repr t wgt demo_addr 5 (demo_map t x n) (Some {[bstr "f" := x]}).
Proof.
  intros -> Hn. unfold demo_map. apply close_repr; [by apply base_ok_new| | |done..].
  - change (c_version (ComplexMeta_new t 3)) with 3. rewrite rows_at_insert.
    replace (rows_at Subkey demo_addr 3 ∅) with (∅ : kvmap); [done|].
    apply map_eq. intros f. by rewrite lookup_rows_at, !lookup_empty.
  - apply insert_non_empty.
Qed.

Lemma demo_headroom m : headroom (demo_world m).
Proof. done. Qed.
