(* ===== verification/Num.v ===== *)
(** * Integers as text

    Models [parse_redis_i64] of [crates/flint-storage/src/strings.rs] and the
    decimal spelling [i64::to_string] gives, which the counters (INCR,
    HINCRBY) store and read back. *)

From stdpp Require Import base list gmap strings sorting.
From Stdlib Require Import ZArith Lia.
From Stdlib Require Strings.Byte.
From S2P Require Import Prelude Encoding.

(** ** Decimal digits *)

Definition ZERO : byte := Byte.x30.
Definition MINUS : byte := Byte.x2d.

Definition digit (d : Z) : byte := z2b (b2z ZERO + d).

(** [u8::is_ascii_digit]. *)
Definition is_digit (b : byte) : bool := (48 <=? b2z b) && (b2z b <=? 57).

Definition digits_value (l : bytes) : Z := foldl (λ acc b, acc * 10 + (b2z b - 48)) 0 l.

Fixpoint digits (fuel : nat) (n : Z) : bytes :=
  match fuel with
  | O => []
  | S fuel' => if n <? 10 then [digit n] else digits fuel' (n / 10) ++ [digit (n mod 10)]
  end.

(** [i64::to_string]: at most 19 digits. *)
Definition i64_to_string (z : Z) : bytes :=
  if z <? 0 then MINUS :: digits 20 (- z) else digits 20 z.

(** [str::parse::<i64>] on an optional [-] and digits: fails out of range. *)
Definition i64_parse (raw : bytes) : option Z :=
  let z :=
    match raw with
    | b :: l => if Byte.eqb b MINUS then - digits_value l else digits_value raw
    | [] => 0
    end in
  if (I64_MIN <=? z) && (z <=? I64_MAX) then Some z else None.

Definition parse_redis_i64 (raw : bytes) : option Z :=
  let body := default raw (strip_prefix [MINUS] raw) in
  let canonical :=
    match body with
    | [] => false
    | [b] => if Byte.eqb b ZERO then bool_decide (length raw = 1%nat) else is_digit b
    | b :: rest => negb (Byte.eqb b ZERO) && is_digit b && forallb is_digit rest
    end in
  if canonical then i64_parse raw else None.

(** ** Lemmas *)

Lemma is_digit_spec b : is_digit b = true ↔ 48 <= b2z b <= 57.
Proof. unfold is_digit. rewrite andb_true_iff, !Z.leb_le. done. Qed.

Lemma b2z_digit d : 0 <= d < 10 → b2z (digit d) = 48 + d.
Proof. intros. unfold digit. apply b2z_z2b_id. change (b2z ZERO) with 48. width. Qed.

Lemma digit_b2z b : is_digit b = true → digit (b2z b - 48) = b.
Proof.
  intros H%is_digit_spec. apply b2z_inj. rewrite b2z_digit by lia. lia.
Qed.

Lemma digits_value_snoc l b : digits_value (l ++ [b]) = digits_value l * 10 + (b2z b - 48).
Proof. unfold digits_value. by rewrite foldl_app. Qed.

(** No leading zero, except for zero itself. *)
Definition canonical (l : bytes) : Prop :=
  forallb is_digit l = true ∧
  match l with [] => False | [b] => True | b :: _ => b ≠ ZERO end.

Lemma digits_value_range l :
  forallb is_digit l = true → 0 <= digits_value l < 10 ^ len l.
Proof.
  induction l as [|b l IH] using rev_ind; intros H; [done|].
  rewrite forallb_app in H. cbn in H. rewrite andb_true_r in H.
  apply andb_true_iff in H as [Hl Hb%is_digit_spec].
  rewrite digits_value_snoc, length_app. cbn [length]. specialize (IH Hl).
  rewrite Nat2Z.inj_add, Z.pow_add_r by lia. change (10 ^ Z.of_nat 1) with 10. lia.
Qed.

Lemma canonical_snoc l b : canonical (l ++ [b]) → l = [] ∨ (canonical l ∧ head l ≠ Some ZERO).
Proof.
  intros [Hd Hc]. rewrite forallb_app in Hd. apply andb_true_iff in Hd as [Hd _].
  destruct l as [|x [|y l]]; [by left|right..]; cbn in *; split; try done.
  - congruence.
  - congruence.
Qed.

Lemma canonical_pos l : canonical l → head l ≠ Some ZERO → 0 < digits_value l.
Proof.
  induction l as [|b l IH] using rev_ind; intros Hc Hz; [by destruct Hc|].
  pose proof Hc as [Hd _]. rewrite forallb_app in Hd. cbn in Hd. rewrite andb_true_r in Hd.
  apply andb_true_iff in Hd as [_ Hb%is_digit_spec]. rewrite digits_value_snoc.
  destruct (canonical_snoc _ _ Hc) as [->|[Hc' Hz']].
  - cbn in *. assert (b2z b ≠ 48); [|lia]. intros E. apply Hz. f_equal. by apply b2z_inj.
  - specialize (IH Hc' Hz'). lia.
Qed.

(** Printing a canonical spelling's value gives the spelling back. *)
Lemma digits_canonical fuel l :
  canonical l → (length l ≤ fuel)%nat → digits fuel (digits_value l) = l.
Proof.
  revert fuel. induction l as [|b l IH] using rev_ind; intros fuel Hc Hf; [by destruct Hc|].
  rewrite length_app in Hf. cbn in Hf. destruct fuel as [|fuel]; [lia|].
  pose proof Hc as [Hd _]. rewrite forallb_app in Hd. cbn in Hd. rewrite andb_true_r in Hd.
  apply andb_true_iff in Hd as [_ Hb]. pose proof Hb as Hb'%is_digit_spec.
  rewrite digits_value_snoc. cbn [digits].
  destruct (canonical_snoc _ _ Hc) as [->|[Hc' Hz']].
  - change (digits_value [] * 10 + (b2z b - 48)) with (b2z b - 48).
    destruct (Z.ltb_spec (b2z b - 48) 10); [|lia]. by rewrite digit_b2z.
  - pose proof (canonical_pos l Hc' Hz').
    destruct (Z.ltb_spec (digits_value l * 10 + (b2z b - 48)) 10); [lia|].
    rewrite Z.div_add_l, (Z.div_small (b2z b - 48)), Z.add_0_r by lia.
    rewrite (Z.add_comm (_ * 10)), Z.mod_add, Z.mod_small by lia.
    rewrite digit_b2z by done. rewrite IH by (done || lia). done.
Qed.

Lemma digits_spec fuel n :
  0 <= n < 10 ^ Z.of_nat fuel → fuel ≠ 0%nat →
  digits_value (digits fuel n) = n ∧ canonical (digits fuel n) ∧
  (0 < n → head (digits fuel n) ≠ Some ZERO) ∧ head (digits fuel n) ≠ Some MINUS.
Proof.
  revert n. induction fuel as [|fuel IH]; intros n Hn Hf; [done|]. clear Hf. cbn [digits].
  destruct (Z.ltb_spec n 10) as [Hs|Hs].
  - assert (Hdig : is_digit (digit n) = true) by (apply is_digit_spec; rewrite b2z_digit; lia).
    split_and!; [|split; [by cbn; rewrite Hdig|done]|..].
    + cbn. rewrite b2z_digit by lia. lia.
    + cbn. intros ? [= E]. apply (f_equal b2z) in E. rewrite b2z_digit in E by lia. cbn in E. lia.
    + cbn. intros [= E]. apply (f_equal b2z) in E. rewrite b2z_digit in E by lia. cbn in E. lia.
  - rewrite Nat2Z.inj_succ, Z.pow_succ_r in Hn by lia.
    assert (fuel ≠ 0%nat) by (intros ->; cbn in Hn; lia).
    destruct (IH (n / 10)) as (Hv & Hc & Hz & Hm); [split; [apply Z.div_pos; lia|apply Z.div_lt_upper_bound; lia]|done|].
    pose proof (Z.mod_pos_bound n 10). pose proof (Z.div_mod n 10).
    assert (0 < n / 10) by (apply Z.div_str_pos; lia).
    rewrite digits_value_snoc, Hv, b2z_digit by lia.
    set (l := digits fuel (n / 10)) in *. destruct Hc as [Hc1 Hc2].
    destruct l as [|x l]; [done|]. split_and!; [lia| |by cbn; intros _; apply Hz|done].
    split.
    + rewrite forallb_app, Hc1. cbn. rewrite andb_true_r. apply is_digit_spec. rewrite b2z_digit; lia.
    + specialize (Hz ltac:(done)). cbn in Hz |- *. destruct l; cbn; congruence.
Qed.

Lemma canonical_lower l : canonical l → head l ≠ Some ZERO → 10 ^ (len l - 1) <= digits_value l.
Proof.
  induction l as [|b l IH] using rev_ind; intros Hc Hz; [by destruct Hc|].
  pose proof (canonical_pos _ Hc Hz). pose proof Hc as [Hd _].
  rewrite forallb_app in Hd. cbn in Hd. rewrite andb_true_r in Hd.
  apply andb_true_iff in Hd as [_ Hb%is_digit_spec].
  destruct (canonical_snoc _ _ Hc) as [->|[Hc' Hz']]; [by cbn in *; lia|].
  specialize (IH Hc' Hz'). rewrite digits_value_snoc, length_app. cbn [length].
  assert (l ≠ []) by (intros ->; by destruct Hc').
  destruct l as [|x l]; [done|]. cbn [length] in *.
  replace (Z.of_nat (S (length l) + 1) - 1) with (Z.succ (Z.of_nat (S (length l)) - 1)) by lia.
  rewrite Z.pow_succ_r by lia. lia.
Qed.

Lemma canonical_length l : canonical l → digits_value l < 10 ^ 19 → (length l ≤ 20)%nat.
Proof.
  intros Hc Hv. destruct (decide (head l = Some ZERO)) as [E|Hz].
  { destruct Hc as [_ Hc]. destruct l as [|x [|y l]]; cbn in *; [done|lia|congruence]. }
  pose proof (canonical_lower l Hc Hz).
  destruct (decide (length l ≤ 20)%nat); [done|exfalso].
  assert (10 ^ 19 <= 10 ^ (len l - 1)) by (apply Z.pow_le_mono_r; lia). lia.
Qed.

(** The spellings [parse_redis_i64] admits: the test in its [match]. *)
Definition admitted (whole : nat) (body : bytes) : bool :=
  match body with
  | [] => false
  | [b] => if Byte.eqb b ZERO then bool_decide (whole = 1%nat) else is_digit b
  | b :: rest => negb (Byte.eqb b ZERO) && is_digit b && forallb is_digit rest
  end.

Lemma byte_eqb_spec a b : Byte.eqb a b = true ↔ a = b.
Proof. split; [apply Byte.byte_dec_bl|apply Byte.byte_dec_lb]. Qed.

Lemma byte_eqb_ne a b : a ≠ b → Byte.eqb a b = false.
Proof. intros H. apply not_true_is_false. by rewrite byte_eqb_spec. Qed.

Lemma admitted_spec whole body :
  admitted whole body = true ↔ canonical body ∧ (head body = Some ZERO → whole = 1%nat).
Proof.
  unfold canonical. destruct body as [|b [|c rest]]; cbn; [naive_solver| |].
  - destruct (decide (b = ZERO)) as [->|Hb].
    + cbn. rewrite bool_decide_eq_true. naive_solver.
    + rewrite byte_eqb_ne by done. rewrite andb_true_r. naive_solver.
  - rewrite !andb_true_iff, negb_true_iff. split.
    + intros [[Hz Hb] [Hc Hr]]. split_and!; try done.
      * intros ->. by rewrite (proj2 (byte_eqb_spec ZERO ZERO)) in Hz.
      * intros E%(inj Some). subst. by rewrite (proj2 (byte_eqb_spec ZERO ZERO)) in Hz.
    + intros [((Hb & Hc & Hr) & Hz) _]. split_and!; try done. by apply byte_eqb_ne.
Qed.

Lemma parse_minus l :
  parse_redis_i64 (MINUS :: l) =
  if admitted (S (length l)) l then i64_parse (MINUS :: l) else None.
Proof. done. Qed.

Lemma parse_plain raw :
  head raw ≠ Some MINUS →
  parse_redis_i64 raw = if admitted (length raw) raw then i64_parse raw else None.
Proof.
  intros Hm. unfold parse_redis_i64.
  replace (strip_prefix [MINUS] raw) with (@None bytes); [done|].
  destruct raw as [|b l]; [done|]. cbn [strip_prefix]. rewrite byte_eqb_ne; [done|].
  intros <-. by apply Hm.
Qed.

Lemma i64_range_iff z : (I64_MIN <=? z) && (z <=? I64_MAX) = true ↔ in_i64 z.
Proof. unfold in_i64. rewrite andb_true_iff, !Z.leb_le. done. Qed.

Lemma i64_abs_bound z : in_i64 z → Z.abs z < 10 ^ 19.
Proof. unfold in_i64, I64_MIN, I64_MAX. lia. Qed.

Lemma byte_eqb_refl b : Byte.eqb b b = true.
Proof. by apply byte_eqb_spec. Qed.

Lemma parse_sound raw z :
  parse_redis_i64 raw = Some z → in_i64 z ∧ raw = i64_to_string z.
Proof.
  assert (Hrange : ∀ x, (if (I64_MIN <=? x) && (x <=? I64_MAX) then Some x else None) = Some z →
    x = z ∧ in_i64 z ∧ Z.abs z < 10 ^ 19).
  { intros x H. destruct (_ && _) eqn:E; [|done]. apply i64_range_iff in E.
    apply (inj Some) in H as ->. auto using i64_abs_bound. }
  destruct (decide (head raw = Some MINUS)) as [Hm|Hm].
  - destruct raw as [|b l]; [done|]. apply (inj Some) in Hm as ->. rewrite parse_minus.
    destruct (admitted _ _) eqn:Ha; [|done]. apply admitted_spec in Ha as [Hc Hz].
    unfold i64_parse. rewrite byte_eqb_refl. intros (<- & Hi & Hb)%Hrange. split; [done|].
    assert (head l ≠ Some ZERO) as Hnz.
    { intros E. specialize (Hz E). destruct l; [done|]. cbn in Hz. lia. }
    pose proof (canonical_pos l Hc Hnz). unfold i64_to_string.
    destruct (Z.ltb_spec (- digits_value l) 0); [|lia]. rewrite Z.opp_involutive.
    rewrite digits_canonical; [done..|]. apply canonical_length; [done|lia].
  - rewrite parse_plain by done.
    destruct (admitted _ _) eqn:Ha; [|done]. apply admitted_spec in Ha as [Hc _].
    unfold i64_parse. destruct raw as [|b l] eqn:Eraw; [by destruct Hc|]. rewrite <-Eraw in *.
    rewrite byte_eqb_ne by (intros ->; by rewrite Eraw in Hm).
    intros (<- & Hi & Hb)%Hrange. split; [done|].
    pose proof (digits_value_range raw (proj1 Hc)). unfold i64_to_string.
    destruct (Z.ltb_spec (digits_value raw) 0); [lia|].
    rewrite digits_canonical; [done..|]. apply canonical_length; [done|lia].
Qed.

Lemma parse_to_string z : in_i64 z → parse_redis_i64 (i64_to_string z) = Some z.
Proof.
  intros Hi. pose proof (i64_abs_bound z Hi). unfold i64_to_string.
  destruct (Z.ltb_spec z 0) as [Hneg|Hpos].
  - destruct (digits_spec 20 (- z)) as (Hv & Hc & Hz & Hm); [split; [lia|cbn; lia]|done|].
    rewrite parse_minus. rewrite (proj2 (admitted_spec _ _)).
    2:{ split; [done|]. intros E. by destruct (Hz ltac:(lia)). }
    unfold i64_parse. rewrite byte_eqb_refl, Hv, Z.opp_involutive.
    by rewrite (proj2 (i64_range_iff z)).
  - destruct (digits_spec 20 z) as (Hv & Hc & Hz & Hm); [split; [lia|cbn; lia]|done|].
    rewrite parse_plain by done. rewrite (proj2 (admitted_spec _ _)).
    2:{ split; [done|]. intros E. destruct Hc as [_ Hc].
        destruct (digits 20 z) as [|x [|y l]]; [done..|]. by apply (inj Some) in E. }
    unfold i64_parse. destruct (digits 20 z) as [|b l] eqn:E; [by destruct Hc|].
    rewrite byte_eqb_ne by (intros ->; by apply Hm). rewrite Hv.
    by rewrite (proj2 (i64_range_iff z)).
Qed.

Lemma length_digits fuel n : (length (digits fuel n) ≤ fuel)%nat.
Proof.
  revert n. induction fuel as [|fuel IH]; intros n; cbn; [lia|].
  destruct (n <? 10); cbn; [lia|]. rewrite length_app. specialize (IH (n / 10)). cbn. lia.
Qed.

Lemma length_i64_to_string z : (length (i64_to_string z) ≤ 21)%nat.
Proof.
  unfold i64_to_string. destruct (z <? 0); cbn [length];
    [pose proof (length_digits 20 (- z))|pose proof (length_digits 20 z)]; lia.
Qed.

(** * Properties *)

(** An integer has one spelling: a stored value reads as the integer [z]
    exactly when it is the decimal text the counters write for [z], so a value
    a counter wrote reads back as itself, and nothing else ([+1], [01], [-0],
    an empty value, a number past 64 bits) reads as an integer at all. *)
Theorem integers_have_one_spelling raw z :
  parse_redis_i64 raw = Some z ↔ in_i64 z ∧ raw = i64_to_string z.
Proof.
  split; [apply parse_sound|]. intros [Hi ->]. by apply parse_to_string.
Qed.
