(* ===== verification/F64.v ===== *)
(** * Doubles

    What the stores use of Rust's [f64]: comparison, addition, the byte image,
    parsing ([str::parse::<f64>]) and the fixed-point text INCRBYFLOAT writes
    ([fmt_float_human] of [crates/flint-storage/src/strings.rs]).  A double is
    its 64 bits; its value and the rounding of sums and decimals are those of
    the Standard Library's [SpecFloat] at precision 53. *)

From stdpp Require Import base list strings.
From Stdlib Require Import ZArith Lia SpecFloat.
From Stdlib Require Strings.Byte.
From S2P Require Import Prelude Encoding Num.

(** ** Bits and values *)

Definition f64_sign (b : Z) : bool := Z.testbit b 63.
Definition f64_exponent (b : Z) : Z := Z.land (Z.shiftr b 52) 2047.
Definition f64_fraction (b : Z) : Z := Z.land b (Z.ones 52).

(** The value of 64 bits. *)
Definition f64_value (b : Z) : spec_float :=
  let s := f64_sign b in
  let e := f64_exponent b in
  let m := f64_fraction b in
  if e =? 2047 then (if m =? 0 then S754_infinity s else S754_nan)
  else if e =? 0 then
    match m with Zpos p => S754_finite s p (-1074) | _ => S754_zero s end
  else
    match m + 2 ^ 52 with Zpos p => S754_finite s p (e - 1075) | _ => S754_nan end.

Definition f64_bits (s : bool) (e m : Z) : Z :=
  Z.lor (if s then 2 ^ 63 else 0) (Z.lor (Z.shiftl (Z.land e 2047) 52) (Z.land m (Z.ones 52))).

(** The bits of a value of the format. *)
Definition f64_of_value (f : spec_float) : Z :=
  match f with
  | S754_zero s => f64_bits s 0 0
  | S754_infinity s => f64_bits s 2047 0
  | S754_nan => f64_bits false 2047 (2 ^ 51)
  | S754_finite s m e =>
      if Zpos m <? 2 ^ 52 then f64_bits s 0 (Zpos m) else f64_bits s (e + 1075) (Zpos m)
  end.

Definition F64_ZERO : Z := 0.
Definition F64_NEG_ZERO : Z := 2 ^ 63.
Definition F64_INFINITY : Z := f64_bits false 2047 0.
Definition F64_NEG_INFINITY : Z := f64_bits true 2047 0.

Definition f64_is_nan (b : Z) : bool :=
  (f64_exponent b =? 2047) && negb (f64_fraction b =? 0).
Definition f64_is_finite (b : Z) : bool := negb (f64_exponent b =? 2047).

(** ** Comparison and addition *)

Definition f64_cmp (a b : Z) : option comparison := SFcompare (f64_value a) (f64_value b).

Definition f64_eq (a b : Z) : bool :=
  match f64_cmp a b with Some Eq => true | _ => false end.
Definition f64_lt (a b : Z) : bool :=
  match f64_cmp a b with Some Lt => true | _ => false end.
Definition f64_le (a b : Z) : bool :=
  match f64_cmp a b with Some (Lt | Eq) => true | _ => false end.

Definition f64_add (a b : Z) : Z :=
  f64_of_value (SFadd 53 1024 (f64_value a) (f64_value b)).

(** [f64::from_le_bytes(row.try_into().unwrap_or([0; 8]))]. *)
Definition f64_from_le (row : bytes) : Z :=
  if decide (length row = 8%nat) then of_le row else 0.

(** [f64::to_le_bytes]. *)
Definition f64_to_le (b : Z) : bytes := le_bytes 8 b.

(** ** Parsing *)

Definition PLUS : byte := Byte.x2b.
Definition DOT : byte := Byte.x2e.

(** [u8::to_ascii_lowercase]. *)
Definition to_lower (b : byte) : byte :=
  if (65 <=? b2z b) && (b2z b <=? 90) then z2b (b2z b + 32) else b.

Definition to_ascii_lowercase (l : bytes) : bytes := map to_lower l.

Fixpoint span_digits (l : bytes) : bytes * bytes :=
  match l with
  | b :: l' => if is_digit b then let '(d, r) := span_digits l' in (b :: d, r) else ([], l)
  | [] => ([], [])
  end.

Definition strip_sign (l : bytes) : bool * bytes :=
  match l with
  | b :: l' =>
      if Byte.eqb b MINUS then (true, l') else if Byte.eqb b PLUS then (false, l') else (false, l)
  | [] => (false, [])
  end.

(** The exponent part of a number, when there is one. *)
Definition parse_exponent (l : bytes) : option Z :=
  match l with
  | [] => Some 0
  | b :: l' =>
      if Byte.eqb (to_lower b) Byte.x65 then
        let '(s, d) := strip_sign l' in
        if negb (bool_decide (d = [])) && forallb is_digit d
        then Some (if s then - digits_value d else digits_value d) else None
      else None
  end.

(** [Digit+ | Digit+ . Digit* | Digit* . Digit+], then an exponent: the number
    is the first component times ten to the second. *)
Definition parse_decimal (l : bytes) : option (Z * Z) :=
  let '(ip, r) := span_digits l in
  let '(fp, r) :=
    match r with
    | b :: r' => if Byte.eqb b DOT then span_digits r' else ([], r)
    | [] => ([], [])
    end in
  if bool_decide (ip ++ fp = []) then None
  else e ← parse_exponent r; Some (digits_value (ip ++ fp), e - len fp).

(** The double nearest [m * 10 ^ e], ties to even. *)
Definition round_decimal (s : bool) (m e : Z) : spec_float :=
  if m =? 0 then S754_zero s
  else
    let '(q, e', l) := SFdiv_core_binary 53 1024 (m * 10 ^ Z.max e 0) 0 (10 ^ Z.max (- e) 0) 0 in
    binary_round_aux 53 1024 s q e' l.

(** [str::parse::<f64>], on bytes: what is no UTF-8 is no number either. *)
Definition f64_parse (raw : bytes) : option Z :=
  let '(s, body) := strip_sign raw in
  let low := to_ascii_lowercase body in
  if bool_decide (low = bstr "inf" ∨ low = bstr "infinity") then
    Some (f64_of_value (S754_infinity s))
  else if bool_decide (low = bstr "nan") then Some (f64_of_value S754_nan)
  else
    '(m, e) ← parse_decimal body;
    Some (f64_of_value (round_decimal s m e)).

(** [s.parse::<f64>().ok().filter(|v| !v.is_nan())]. *)
Definition f64_parse_number (raw : bytes) : option Z :=
  v ← f64_parse raw; if f64_is_nan v then None else Some v.

(** ** Printing *)

(** [x] in units of 10^-17, rounded half to even. *)
Definition scale17 (m e : Z) : Z :=
  if 0 <=? e then m * 2 ^ e * 10 ^ 17
  else
    let d := 2 ^ (- e) in
    let q := (m * 10 ^ 17) / d in
    let r := (m * 10 ^ 17) mod d in
    match 2 * r ?= d with
    | Lt => q
    | Eq => if Z.even q then q else q + 1
    | Gt => q + 1
    end.

(** Exactly [k] digits. *)
Fixpoint fixed_digits (k : nat) (n : Z) : bytes :=
  match k with
  | O => []
  | S k' => fixed_digits k' (n / 10) ++ [digit (n mod 10)]
  end.

(** [format!("{x:.17}")] for a finite [x]: no double has more than 309 digits
    before the point. *)
Definition fixed17 (s : bool) (n : Z) : bytes :=
  (if s then [MINUS] else []) ++
  digits 330 (n / 10 ^ 17) ++ [DOT] ++ fixed_digits 17 (n mod 10 ^ 17).

Definition format17 (x : Z) : bytes :=
  match f64_value x with
  | S754_zero s => fixed17 s 0
  | S754_finite s m e => fixed17 s (scale17 (Zpos m) e)
  | S754_infinity s => if s then bstr "-inf" else bstr "inf"
  | S754_nan => bstr "NaN"
  end.

(** [while s.ends_with(c) { s.pop(); }]. *)
Fixpoint trim_front (c : byte) (l : bytes) : bytes :=
  match l with
  | b :: l' => if Byte.eqb b c then trim_front c l' else l
  | [] => []
  end.

Definition trim_end (c : byte) (l : bytes) : bytes := rev (trim_front c (rev l)).

(** [if s.ends_with(c) { s.pop(); }]. *)
Definition pop_suffix (c : byte) (l : bytes) : bytes :=
  match rev l with
  | b :: r => if Byte.eqb b c then rev r else l
  | [] => l
  end.

Definition fmt_float_human (x : Z) : bytes :=
  let s := format17 x in
  let s := if existsb (Byte.eqb DOT) s then pop_suffix DOT (trim_end ZERO s) else s in
  if bool_decide (s = [MINUS; ZERO]) then [ZERO] else s.

(** ** The order of doubles is the order of their keys *)

(** The magnitude of 64 bits, and the integer that orders them: minus the
    magnitude under the sign. *)
Definition f64_mag (b : Z) : Z := b mod 2 ^ 63.
Definition f64_key (b : Z) : Z := if f64_sign b then - f64_mag b else f64_mag b.

Lemma f64_sign_spec b : in_width 64 b → f64_sign b = (2 ^ 63 <=? b).
Proof.
  intros Hb. unfold f64_sign. rewrite Z.testbit_eqb by lia.
  destruct (Z.leb_spec (2 ^ 63) b).
  - replace (b / 2 ^ 63) with 1; [done|]. apply Z.div_unique with (b - 2 ^ 63); width.
  - rewrite Z.div_small by width. done.
Qed.

Lemma f64_mag_spec b : in_width 64 b → b = (if f64_sign b then 2 ^ 63 else 0) + f64_mag b.
Proof.
  intros Hb. rewrite f64_sign_spec by done. unfold f64_mag. destruct (Z.leb_spec (2 ^ 63) b).
  - rewrite <-(Z.mod_unique b (2 ^ 63) 1 (b - 2 ^ 63)); width.
  - rewrite Z.mod_small; width.
Qed.

Lemma f64_mag_range b : 0 <= f64_mag b < 2 ^ 63.
Proof. apply Z.mod_pos_bound. lia. Qed.

Lemma f64_fraction_mag b : f64_fraction b = f64_mag b mod 2 ^ 52.
Proof.
  unfold f64_fraction, f64_mag. rewrite Z.land_ones by lia.
  change (2 ^ 63) with (2 ^ 52 * 2 ^ 11). rewrite Z.rem_mul_r by lia.
  rewrite Z.mul_comm, Z.mod_add, Z.mod_mod by lia. done.
Qed.

Lemma f64_exponent_mag b : f64_exponent b = f64_mag b / 2 ^ 52.
Proof.
  unfold f64_exponent, f64_mag. change 2047 with (Z.ones 11). rewrite Z.land_ones by lia.
  rewrite Z.shiftr_div_pow2 by lia. change (2 ^ 63) with (2 ^ 52 * 2 ^ 11).
  rewrite Z.rem_mul_r by lia. pose proof (Z.mod_pos_bound b (2 ^ 52)).
  apply Z.div_unique with (b mod 2 ^ 52); lia.
Qed.

Lemma f64_is_nan_mag b : f64_is_nan b = (2047 * 2 ^ 52 <? f64_mag b).
Proof.
  unfold f64_is_nan. rewrite f64_exponent_mag, f64_fraction_mag.
  pose proof (f64_mag_range b). set (g := f64_mag b) in *. clearbody g.
  pose proof (Z.div_mod g (2 ^ 52)). pose proof (Z.mod_pos_bound g (2 ^ 52)).
  assert (g / 2 ^ 52 < 2048) by (apply Z.div_lt_upper_bound; lia).
  destruct (Z.eqb_spec (g / 2 ^ 52) 2047), (Z.eqb_spec (g mod 2 ^ 52) 0),
    (Z.ltb_spec (2047 * 2 ^ 52) g); cbn; (done || lia).
Qed.

(** The exponent and mantissa of a finite magnitude, subnormal or not. *)
Definition mag_exp (g : Z) : Z := Z.max 1 (g / 2 ^ 52).
Definition mag_man (g : Z) : Z := g - (mag_exp g - 1) * 2 ^ 52.

Lemma mag_man_range g :
  0 < g → 0 < mag_man g < 2 ^ 53 ∧ (1 < mag_exp g → 2 ^ 52 <= mag_man g) ∧ 1 <= mag_exp g.
Proof.
  intros Hg. unfold mag_man, mag_exp. pose proof (Z.div_mod g (2 ^ 52)).
  pose proof (Z.mod_pos_bound g (2 ^ 52)). pose proof (Z.div_pos g (2 ^ 52)). lia.
Qed.

Lemma mag_compare g h :
  0 < g → 0 < h →
  match mag_exp g ?= mag_exp h with Eq => mag_man g ?= mag_man h | c => c end = (g ?= h).
Proof.
  intros Hg Hh. pose proof (mag_man_range g Hg) as Rg. pose proof (mag_man_range h Hh) as Rh.
  assert (Eg : g = mag_man g + (mag_exp g - 1) * 2 ^ 52) by (unfold mag_man; lia).
  assert (Eh : h = mag_man h + (mag_exp h - 1) * 2 ^ 52) by (unfold mag_man; lia).
  set (x := mag_man g) in *. set (y := mag_man h) in *.
  set (p := mag_exp g) in *. set (q := mag_exp h) in *. clearbody x y p q. subst g h.
  destruct (Z.compare_spec p q).
  - subst. destruct (Z.compare_spec x y); symmetry;
      [apply Z.compare_eq_iff|apply Z.compare_lt_iff|apply Z.compare_gt_iff]; lia.
  - symmetry. apply Z.compare_lt_iff. lia.
  - symmetry. apply Z.compare_gt_iff. lia.
Qed.

Lemma f64_value_mag b :
  f64_is_nan b = false →
  f64_value b =
  if f64_mag b =? 0 then S754_zero (f64_sign b)
  else if f64_mag b =? 2047 * 2 ^ 52 then S754_infinity (f64_sign b)
  else S754_finite (f64_sign b) (Z.to_pos (mag_man (f64_mag b))) (mag_exp (f64_mag b) - 1075).
Proof.
  rewrite f64_is_nan_mag. unfold f64_value. rewrite f64_exponent_mag, f64_fraction_mag.
  intros Hn%Z.ltb_ge. pose proof (f64_mag_range b). set (g := f64_mag b) in *. clearbody g.
  pose proof (Z.div_mod g (2 ^ 52)). pose proof (Z.mod_pos_bound g (2 ^ 52)).
  pose proof (Z.div_pos g (2 ^ 52)). unfold mag_man, mag_exp.
  set (e := g / 2 ^ 52) in *. set (m := g mod 2 ^ 52) in *. clearbody e m.
  destruct (Z.eqb_spec e 2047).
  { destruct (Z.eqb_spec m 0), (Z.eqb_spec g 0), (Z.eqb_spec g (2047 * 2 ^ 52)); (done || lia). }
  destruct (Z.eqb_spec e 0); [subst e|].
  - destruct m eqn:Em; destruct (Z.eqb_spec g 0); try lia; [done|].
    destruct (Z.eqb_spec g (2047 * 2 ^ 52)); [lia|]. f_equal. rewrite Z.max_l by lia.
    rewrite Z.sub_diag, Z.mul_0_l, Z.sub_0_r. replace g with (Zpos p) by lia. done.
  - destruct (Z.eqb_spec g 0); [lia|]. destruct (Z.eqb_spec g (2047 * 2 ^ 52)); [lia|].
    rewrite Z.max_r by lia. replace (g - (e - 1) * 2 ^ 52) with (m + 2 ^ 52) by lia.
    destruct (m + 2 ^ 52) eqn:E; lia || done.
Qed.

Lemma man_compare g h :
  0 < g → 0 < h →
  Pos.compare_cont Eq (Z.to_pos (mag_man g)) (Z.to_pos (mag_man h)) = (mag_man g ?= mag_man h).
Proof.
  intros Hg Hh. pose proof (mag_man_range g Hg). pose proof (mag_man_range h Hh).
  destruct (mag_man g), (mag_man h); lia || done.
Qed.

Lemma f64_cmp_key a b :
  in_width 64 a → in_width 64 b → f64_is_nan a = false → f64_is_nan b = false →
  f64_cmp a b = Some (f64_key a ?= f64_key b).
Proof.
  intros Ha Hb Na Nb. unfold f64_cmp. rewrite !f64_value_mag by done.
  rewrite f64_is_nan_mag in Na, Nb. apply Z.ltb_ge in Na, Nb. unfold f64_key.
  pose proof (f64_mag_range a). pose proof (f64_mag_range b).
  pose proof (mag_compare (f64_mag a) (f64_mag b)) as Hc.
  pose proof (mag_man_range (f64_mag a)). pose proof (mag_man_range (f64_mag b)).
  set (g := f64_mag a) in *. set (h := f64_mag b) in *.
  set (s := f64_sign a). set (t := f64_sign b). clearbody g h s t.
  destruct (Z.eqb_spec g 0), (Z.eqb_spec h 0); cbn [SFcompare];
  destruct (Z.eqb_spec g (2047 * 2 ^ 52)), (Z.eqb_spec h (2047 * 2 ^ 52)); try lia; cbn [SFcompare];
  f_equal; destruct s, t; rewrite ?Z.compare_opp; symmetry; try (apply Z.compare_eq_iff; lia);
    try (apply Z.compare_lt_iff; lia); try (apply Z.compare_gt_iff; lia).
  all: specialize (Hc ltac:(lia) ltac:(lia)).
  all: rewrite man_compare by lia.
  all: replace (mag_exp g - 1075 ?= mag_exp h - 1075) with (mag_exp g ?= mag_exp h)
    by (rewrite <-!Z.add_opp_r, !(Z.add_comm _ (-(1075))); symmetry; apply Z.add_compare_mono_l).
  all: rewrite ?Z.opp_involutive, ?(Z.compare_antisym g h), <-Hc.
  all: by destruct (mag_exp g ?= mag_exp h).
Qed.

Lemma encode_score_key b :
  in_width 64 b →
  encode_score b = if f64_sign b then 2 ^ 63 - 1 + f64_key b else 2 ^ 63 + f64_key b.
Proof.
  intros Hb. rewrite encode_score_cases by done. pose proof (f64_mag_spec b Hb) as E.
  pose proof (f64_mag_range b). unfold f64_key. rewrite f64_sign_spec in * by done. unfold U64_MAX.
  destruct (Z.leb_spec (2 ^ 63) b), (Z.ltb_spec b (2 ^ 63)); lia.
Qed.

(** A score: 64 bits that are a number. *)
Definition score_ok (s : Z) : Prop := in_width 64 s ∧ f64_is_nan s = false.

Lemma score_cmp a b : score_ok a → score_ok b → f64_cmp a b = Some (f64_key a ?= f64_key b).
Proof. intros [? ?] [? ?]. by apply f64_cmp_key. Qed.

Lemma f64_lt_key a b : score_ok a → score_ok b → f64_lt a b = true ↔ f64_key a < f64_key b.
Proof.
  intros. unfold f64_lt. rewrite score_cmp by done.
  destruct (Z.compare_spec (f64_key a) (f64_key b)); (split; [done || lia|done || lia]).
Qed.

Lemma f64_le_key a b : score_ok a → score_ok b → f64_le a b = true ↔ f64_key a <= f64_key b.
Proof.
  intros. unfold f64_le. rewrite score_cmp by done.
  destruct (Z.compare_spec (f64_key a) (f64_key b)); (split; [done || lia|done || lia]).
Qed.

Lemma f64_eq_key a b : score_ok a → score_ok b → f64_eq a b = true ↔ f64_key a = f64_key b.
Proof.
  intros. unfold f64_eq. rewrite score_cmp by done.
  destruct (Z.compare_spec (f64_key a) (f64_key b)); (split; [done || lia|done || lia]).
Qed.

(** The encoded order refines the order of values: only the two zeros, equal
    as values, are kept apart. *)
Lemma f64_key_encode a b :
  in_width 64 a → in_width 64 b →
  (encode_score a <= encode_score b → f64_key a <= f64_key b) ∧
  (f64_key a < f64_key b → encode_score a < encode_score b).
Proof.
  intros Ha Hb. rewrite !encode_score_key by done. unfold f64_key.
  pose proof (f64_mag_range a). pose proof (f64_mag_range b).
  destruct (f64_sign a), (f64_sign b); lia.
Qed.

Lemma f64_lt_encode a b :
  score_ok a → score_ok b → f64_lt a b = true → encode_score a < encode_score b.
Proof. intros Ha Hb. rewrite f64_lt_key by done. apply f64_key_encode; [apply Ha|apply Hb]. Qed.

Lemma f64_le_encode a b :
  score_ok a → score_ok b → encode_score a <= encode_score b → f64_le a b = true.
Proof. intros Ha Hb H. rewrite f64_le_key by done. apply f64_key_encode in H; [done|apply Ha|apply Hb]. Qed.

Lemma encode_score_inj a b : in_width 64 a → in_width 64 b → encode_score a = encode_score b → a = b.
Proof. intros Ha Hb E. rewrite <-(decode_encode_score a), E by done. by apply decode_encode_score. Qed.

(** A zero is one of two bit patterns. *)
Lemma f64_key_zero b : in_width 64 b → f64_key b = 0 ↔ b = F64_ZERO ∨ b = F64_NEG_ZERO.
Proof.
  intros Hb. pose proof (f64_mag_spec b Hb) as E. unfold f64_key, F64_ZERO, F64_NEG_ZERO.
  destruct (f64_sign b) eqn:Es.
  - split; [lia|]. intros [->| ->]; [done|]. lia.
  - split; [lia|]. intros [->| ->]; [|done]. lia.
Qed.

Lemma f64_le_round_trip b : in_width 64 b → f64_from_le (f64_to_le b) = b.
Proof.
  intros Hb. unfold f64_from_le, f64_to_le.
  rewrite decide_True by apply length_le_bytes. by apply of_le_id.
Qed.

(** ** What INCRBYFLOAT writes *)

Lemma fixed_digits_spec k n :
  0 <= n < 10 ^ Z.of_nat k →
  digits_value (fixed_digits k n) = n ∧ forallb is_digit (fixed_digits k n) = true ∧
  length (fixed_digits k n) = k.
Proof.
  revert n. induction k as [|k IH]; intros n Hn; [by cbn in *; split_and!; [lia|..]|].
  rewrite Nat2Z.inj_succ, Z.pow_succ_r in Hn by lia. cbn [fixed_digits].
  pose proof (Z.mod_pos_bound n 10). pose proof (Z.div_mod n 10).
  destruct (IH (n / 10)) as (Hv & Hd & Hl); [split; [apply Z.div_pos; lia|apply Z.div_lt_upper_bound; lia]|].
  rewrite digits_value_snoc, Hv, forallb_app, Hd, length_app, Hl, b2z_digit by lia. cbn.
  split_and!; [lia| |lia]. rewrite andb_true_r. apply is_digit_spec. rewrite b2z_digit; lia.
Qed.

Lemma digits_value_app l l' :
  digits_value (l ++ l') = digits_value l * 10 ^ len l' + digits_value l'.
Proof.
  induction l' as [|b l' IH] using rev_ind.
  { rewrite app_nil_r. cbn. lia. }
  rewrite app_assoc, !digits_value_snoc, IH, length_app. cbn [length].
  rewrite Nat2Z.inj_add, Z.pow_add_r by lia. change (10 ^ Z.of_nat 1) with 10. lia.
Qed.

(** Trailing zeros: the digits without them, and how many there were. *)
Lemma trim_zeros l : ∃ k, l = trim_end ZERO l ++ repeat ZERO k ∧ last (trim_end ZERO l) ≠ Some ZERO.
Proof.
  unfold trim_end. pose proof (rev_involutive l) as E. revert E. generalize (rev l). intros r <-.
  rename r into l.
  induction l as [|b l (k & IH & Hl)]; [by exists 0%nat|]. cbn [trim_front].
  destruct (Byte.eqb b ZERO) eqn:E.
  - apply byte_eqb_spec in E as ->. exists (S k). split; [|done].
    cbn [rev]. rewrite IH at 1. rewrite <-app_assoc. f_equal. symmetry. apply repeat_cons.
  - exists 0%nat. rewrite app_nil_r. split; [done|]. cbn [rev]. rewrite last_snoc.
    intros [= ->]. by rewrite byte_eqb_refl in E.
Qed.

Lemma digits_value_zeros k : digits_value (repeat ZERO k) = 0.
Proof.
  induction k as [|k IH]; [done|].
  change (repeat ZERO (S k)) with ([ZERO] ++ repeat ZERO k). rewrite digits_value_app, IH. done.
Qed.

Lemma trim_end_dot a l : trim_end ZERO (a ++ DOT :: l) = a ++ DOT :: trim_end ZERO l.
Proof.
  assert (H : ∀ x y, trim_front ZERO (x ++ DOT :: y) = trim_front ZERO x ++ DOT :: y).
  { induction x as [|b x IH]; intros y; [done|]. cbn. by destruct (Byte.eqb b ZERO). }
  unfold trim_end. rewrite rev_app_distr. cbn [rev]. rewrite <-app_assoc. cbn [app].
  rewrite H, rev_app_distr. cbn [rev]. by rewrite rev_involutive, <-app_assoc.
Qed.

(** The shape of a number written for people: no zeros after the point, no
    point without digits, no sign on a zero. *)
Definition human (s : bool) (n : Z) : bytes :=
  let fp := trim_end ZERO (fixed_digits 17 (n mod 10 ^ 17)) in
  (if s && negb (n =? 0) then [MINUS] else []) ++
  digits 330 (n / 10 ^ 17) ++ (match fp with [] => [] | _ => DOT :: fp end).

Lemma pop_suffix_dot a l :
  last l ≠ Some DOT → pop_suffix DOT (a ++ DOT :: l) = a ++ (match l with [] => [] | _ => DOT :: l end).
Proof.
  intros Hl. unfold pop_suffix. destruct l as [|b l _] using rev_ind.
  - rewrite rev_app_distr. cbn. by rewrite rev_involutive, app_nil_r.
  - rewrite last_snoc in Hl. replace (rev (a ++ DOT :: l ++ [b])) with (b :: rev (a ++ DOT :: l)).
    2:{ change (DOT :: l ++ [b]) with ((DOT :: l) ++ [b]). rewrite app_assoc, (rev_app_distr _ [b]). done. }
    rewrite byte_eqb_ne by congruence. by destruct l.
Qed.

Lemma digits_no_dot l : forallb is_digit l = true → DOT ∉ l.
Proof. rewrite forallb_forall. intros H E%list_elem_of_In. by apply H in E. Qed.

Lemma trim_end_digits l : forallb is_digit l = true → forallb is_digit (trim_end ZERO l) = true.
Proof.
  destruct (trim_zeros l) as (k & E & _). rewrite E at 1. rewrite forallb_app.
  by intros [? _]%andb_true_iff.
Qed.

Lemma fixed17_human s n :
  0 <= n < 10 ^ 347 →
  let t := pop_suffix DOT (trim_end ZERO (fixed17 s n)) in
  existsb (Byte.eqb DOT) (fixed17 s n) = true ∧
  (if bool_decide (t = [MINUS; ZERO]) then [ZERO] else t) = human s n.
Proof.
  intros Hn t. pose proof (Z.mod_pos_bound n (10 ^ 17)). pose proof (Z.div_mod n (10 ^ 17)).
  destruct (fixed_digits_spec 17 (n mod 10 ^ 17)) as (Hv & Hd & Hl); [lia|].
  assert (0 <= n / 10 ^ 17 < 10 ^ Z.of_nat 330) as Hip.
  { split; [apply Z.div_pos; lia|apply Z.div_lt_upper_bound; lia]. }
  destruct (digits_spec 330 (n / 10 ^ 17)) as (Hv' & Hc & Hz & Hm); [done..|].
  set (d := digits 330 (n / 10 ^ 17)) in *. set (f := fixed_digits 17 (n mod 10 ^ 17)) in *.
  split.
  { apply existsb_exists. exists DOT. split; [|done]. unfold fixed17. fold d f.
    rewrite !in_app_iff. right. right. left. by left. }
  assert (Et : t = (if s then [MINUS] else []) ++ d ++ match trim_end ZERO f with [] => [] | _ => DOT :: trim_end ZERO f end).
  { unfold t, fixed17. fold d f. rewrite app_assoc. cbn [app].
    rewrite trim_end_dot, pop_suffix_dot; [by rewrite <-app_assoc|].
    intros E%last_Some_elem_of. by apply (digits_no_dot _ (trim_end_digits _ Hd)) in E. }
  clearbody t. subst t. unfold human. fold f d.
  destruct (Z.eqb_spec n 0) as [->|Hn0]; [by destruct s|]. clearbody d f. cbn [negb].
  destruct s; cbn [andb app]; rewrite bool_decide_eq_false_2; try done; cycle 1.
  { destruct d as [|b d']; [by destruct Hc|]. intros E. apply Hm. by injection E as ->. }
  destruct (trim_zeros f) as (k & Ef & _). intros [= E].
  destruct d as [|b [|b' d']]; [by destruct Hc| |done].
  destruct (trim_end ZERO f) as [|b' f'] eqn:Ef'; [|done]. injection E as ->.
  rewrite Ef in Hv. cbn [app] in Hv. rewrite digits_value_zeros in Hv. cbn in Hv'. lia.
Qed.

Lemma span_digits_app d r :
  forallb is_digit d = true → (match r with b :: _ => is_digit b = false | [] => True end) →
  span_digits (d ++ r) = (d, r).
Proof.
  intros Hd Hr. induction d as [|b d IH]; cbn.
  - destruct r as [|b r]; [done|]. cbn. by rewrite Hr.
  - cbn in Hd. apply andb_true_iff in Hd as [-> Hd]. by rewrite (IH Hd).
Qed.

(** The number a human text reads as, before rounding. *)
Lemma parse_human s n :
  0 <= n < 10 ^ 347 →
  ∃ m k, strip_sign (human s n) = (s && negb (n =? 0), human false n) ∧
    parse_decimal (human false n) = Some (m, - k) ∧ 0 <= k <= 17 ∧ m * 10 ^ (17 - k) = n.
Proof.
  intros Hn. pose proof (Z.mod_pos_bound n (10 ^ 17)). pose proof (Z.div_mod n (10 ^ 17)).
  destruct (fixed_digits_spec 17 (n mod 10 ^ 17)) as (Hv & Hd & Hl); [lia|].
  assert (0 <= n / 10 ^ 17 < 10 ^ Z.of_nat 330) as Hip.
  { split; [apply Z.div_pos; lia|apply Z.div_lt_upper_bound; lia]. }
  destruct (digits_spec 330 (n / 10 ^ 17)) as (Hv' & [Hc Hc'] & Hz & Hm); [done..|].
  unfold human. cbn [andb app].
  set (d := digits 330 (n / 10 ^ 17)) in *. set (f := fixed_digits 17 (n mod 10 ^ 17)) in *.
  destruct (trim_zeros f) as (k & Ef & _). pose proof (trim_end_digits f Hd) as Ht.
  set (t := trim_end ZERO f) in *. clearbody d f t.
  assert (Hlen : len t + Z.of_nat k = 17).
  { rewrite Ef, length_app, repeat_length in Hl. lia. }
  assert (Hval : digits_value t * 10 ^ Z.of_nat k = n mod 10 ^ 17).
  { rewrite Ef, digits_value_app, digits_value_zeros, repeat_length in Hv. lia. }
  exists (digits_value (d ++ t)), (len t). split_and!; [| |lia..|].
  - destruct (s && negb (n =? 0)); cbn [app].
    + done.
    + destruct d as [|b d]; [done|]. cbn [app strip_sign].
      cbn in Hc. apply andb_true_iff in Hc as [Hb _].
      rewrite !byte_eqb_ne by (intros ->; done). done.
  - unfold parse_decimal. rewrite span_digits_app; [|done|by destruct t].
    assert (d ++ t ≠ []) by (by destruct d).
    destruct t as [|b t]; [rewrite app_nil_r in *|].
    + rewrite bool_decide_eq_false_2 by done. done.
    + change (Byte.eqb DOT DOT) with true. cbv iota.
      rewrite <-(app_nil_r (b :: t)), span_digits_app, app_nil_r by done.
      rewrite bool_decide_eq_false_2 by done. cbn [parse_exponent mbind option_bind]. done.
  - rewrite digits_value_app. replace (17 - len t) with (Z.of_nat k) by lia.
    rewrite Z.mul_add_distr_r, Hval, Hv', <-Z.mul_assoc, <-Z.pow_add_r, Hlen by lia. lia.
Qed.

(** A finite double in units of 10^-17. *)
Definition scaled (x : Z) : Z :=
  match f64_value x with S754_finite _ m e => scale17 (Zpos m) e | _ => 0 end.

Lemma scale17_near m e :
  0 <= m → e < 0 → Z.abs (2 * (scale17 m e * 2 ^ (- e) - m * 10 ^ 17)) <= 2 ^ (- e).
Proof.
  intros Hm He. unfold scale17. destruct (Z.leb_spec 0 e); [lia|].
  assert (0 < 2 ^ (- e)) by (apply Z.pow_pos_nonneg; lia). set (d := 2 ^ (- e)) in *. clearbody d.
  pose proof (Z.div_mod (m * 10 ^ 17) d). pose proof (Z.mod_pos_bound (m * 10 ^ 17) d).
  set (q := m * 10 ^ 17 / d) in *. set (r := (m * 10 ^ 17) mod d) in *. clearbody q r.
  destruct (Z.compare_spec (2 * r) d); [destruct (Z.even q)|..]; nia.
Qed.

Lemma scaled_range x : in_width 64 x → f64_is_finite x = true → 0 <= scaled x < 10 ^ 347.
Proof.
  intros Hx Hf. unfold scaled.
  assert (f64_is_nan x = false) as Hn.
  { unfold f64_is_nan, f64_is_finite in *. by destruct (_ =? _). }
  rewrite f64_value_mag by done. destruct (Z.eqb_spec (f64_mag x) 0); [lia|].
  destruct (Z.eqb_spec (f64_mag x) (2047 * 2 ^ 52)); [lia|].
  rewrite f64_is_nan_mag in Hn. apply Z.ltb_ge in Hn. pose proof (f64_mag_range x).
  set (g := f64_mag x) in *. clearbody g. pose proof (mag_man_range g ltac:(lia)) as (Hm & _ & He).
  assert (mag_exp g <= 2046) as He'.
  { unfold mag_exp. assert (g / 2 ^ 52 < 2047) by (apply Z.div_lt_upper_bound; lia). lia. }
  rewrite Z2Pos.id by lia. set (m := mag_man g) in *. set (e := mag_exp g - 1075) in *.
  assert (e <= 971) by lia. clearbody m e.
  unfold scale17. destruct (Z.leb_spec 0 e).
  - assert (0 < 2 ^ e) by (apply Z.pow_pos_nonneg; lia). split; [nia|].
    assert (2 ^ e <= 2 ^ 971) by (apply Z.pow_le_mono_r; lia).
    assert (m * 2 ^ e <= 2 ^ 53 * 2 ^ 971) by (apply Z.mul_le_mono_nonneg; lia).
    assert (2 ^ 53 * 2 ^ 971 * 10 ^ 17 < 10 ^ 347) by (by vm_compute). lia.
  - assert (0 < 2 ^ (- e)) by (apply Z.pow_pos_nonneg; lia).
    pose proof (Z.div_pos (m * 10 ^ 17) (2 ^ (- e))).
    assert (m * 10 ^ 17 / 2 ^ (- e) <= m * 10 ^ 17) by (apply Z.div_le_upper_bound; nia).
    assert (2 ^ 53 * 10 ^ 17 + 1 < 10 ^ 347) by (by vm_compute).
    destruct (_ ?= _); [destruct (Z.even _)|..]; lia.
Qed.

Lemma fmt_is_human x :
  in_width 64 x → f64_is_finite x = true → fmt_float_human x = human (f64_sign x) (scaled x).
Proof.
  intros Hx Hf. pose proof (scaled_range x Hx Hf) as Hr.
  destruct (fixed17_human (f64_sign x) (scaled x) Hr) as [Hdot Hh].
  assert (format17 x = fixed17 (f64_sign x) (scaled x)) as E.
  { unfold format17, scaled. unfold f64_is_finite in Hf. apply negb_true_iff in Hf.
    unfold f64_value in *. rewrite Hf. destruct (_ =? 0).
    - by destruct (f64_fraction x).
    - assert (0 <= f64_fraction x) by (apply Z.land_nonneg; right; by vm_compute).
      destruct (f64_fraction x + 2 ^ 52) eqn:Em; lia || done. }
  unfold fmt_float_human. by rewrite E, Hdot.
Qed.

Lemma length_human s n : len (human s n) <= 349.
Proof.
  unfold human. set (f := fixed_digits 17 _). pose proof (length_digits 330 (n / 10 ^ 17)).
  assert (length f = 17%nat) as Hf.
  { unfold f. generalize (n mod 10 ^ 17). generalize 17%nat. intros k. induction k as [|k IH]; [done|].
    intros z. cbn [fixed_digits]. rewrite length_app, IH. cbn. lia. }
  destruct (trim_zeros f) as (k & Ef & _). apply (f_equal length) in Ef.
  rewrite length_app, Hf in Ef. rewrite !length_app.
  assert (length (if s && negb (n =? 0)%Z then [MINUS] else []) ≤ 1)%nat by (by case_match; cbn; lia).
  destruct (trim_end ZERO f); cbn [length] in *; lia.
Qed.

Lemma f64_bits_width s e m : in_width 64 (f64_bits s e m).
Proof.
  unfold f64_bits, in_width.
  assert (∀ x k, 0 <= k → 0 <= Z.land x (Z.ones k) < 2 ^ k) as Hland.
  { intros x k Hk. rewrite Z.land_ones by lia. apply Z.mod_pos_bound, Z.pow_pos_nonneg; lia. }
  pose proof (Hland e 11) as He. pose proof (Hland m 52) as Hm. change (Z.ones 11) with 2047 in He.
  set (x := Z.land e 2047) in *. set (y := Z.land m (Z.ones 52)) in *. clearbody x y.
  assert (∀ z, 0 <= z → (∀ i, 64 <= i → Z.testbit z i = false) → z < 2 ^ 64) as Hlt.
  { intros z Hz Hi. destruct (Z.ltb_spec z (2 ^ 64)); [done|]. exfalso.
    assert (64 <= Z.log2 z) by (apply Z.log2_le_pow2; lia).
    specialize (Hi (Z.log2 z)). rewrite Z.bit_log2 in Hi by lia. by specialize (Hi ltac:(lia)). }
  assert (0 <= Z.shiftl x 52) by (apply Z.shiftl_nonneg; lia).
  split.
  { apply Z.lor_nonneg. split; [by destruct s|]. apply Z.lor_nonneg. lia. }
  apply Hlt.
  { apply Z.lor_nonneg. split; [by destruct s|]. apply Z.lor_nonneg. lia. }
  intros i Hi. rewrite !Z.lor_spec, Z.shiftl_spec by lia.
  rewrite (Z.bits_above_log2 x (i - 52)), (Z.bits_above_log2 y i); try lia.
  - destruct s; [|by rewrite Z.bits_0]. rewrite Z.pow2_bits_false by lia. done.
  - destruct (decide (y = 0)) as [->|]; [cbn; lia|]. apply Z.log2_lt_pow2; [lia|].
    eapply Z.lt_le_trans; [apply Hm; lia|]. apply Z.pow_le_mono_r; lia.
  - destruct (decide (x = 0)) as [->|]; [cbn; lia|]. apply Z.log2_lt_pow2; [lia|].
    eapply Z.lt_le_trans; [apply He; lia|]. apply Z.pow_le_mono_r; lia.
Qed.

Lemma f64_of_value_width f : in_width 64 (f64_of_value f).
Proof. destruct f as [| | |s m e]; cbn; try apply f64_bits_width. case_match; apply f64_bits_width. Qed.

Lemma f64_add_width a b : in_width 64 (f64_add a b).
Proof. apply f64_of_value_width. Qed.

Lemma length_fmt x : in_width 64 x → f64_is_finite x = true → len (fmt_float_human x) <= 349.
Proof. intros. rewrite fmt_is_human by done. apply length_human. Qed.

(** * Properties *)

(** The text INCRBYFLOAT stores is the number: read back as a decimal it
    is the double rounded to seventeen places, half to even, with no digit
    lost and no sign on a zero. *)
Theorem float_text_is_the_number x :
  in_width 64 x → f64_is_finite x = true →
  (∃ m k, strip_sign (fmt_float_human x) = (f64_sign x && negb (scaled x =? 0), human false (scaled x)) ∧
     parse_decimal (human false (scaled x)) = Some (m, - k) ∧ 0 <= k <= 17 ∧
     m * 10 ^ (17 - k) = scaled x) ∧
  match f64_value x with
  | S754_finite _ m e =>
      if 0 <=? e then scaled x = Zpos m * 2 ^ e * 10 ^ 17
      else Z.abs (2 * (scaled x * 2 ^ (- e) - Zpos m * 10 ^ 17)) <= 2 ^ (- e)
  | _ => scaled x = 0
  end.
Proof.
  intros Hx Hf. rewrite fmt_is_human by done. split; [by apply parse_human, scaled_range|].
  unfold scaled. destruct (f64_value x) as [| | |s m e]; [done..|].
  destruct (Z.leb_spec 0 e); [|by apply scale17_near].
  unfold scale17. by destruct (Z.leb_spec 0 e); [|lia].
Qed.

(** The double nearest 10.75. *)
Lemma float_text_is_the_number_witness :
  ∃ m k, strip_sign (fmt_float_human 4622241330054037504) = (false, bstr "10.75") ∧
     parse_decimal (bstr "10.75") = Some (m, - k) ∧ 0 <= k <= 17 ∧
     m * 10 ^ (17 - k) = 1075 * 10 ^ 15.
Proof.
  destruct (float_text_is_the_number 4622241330054037504) as [H _]; [closed..|].
  exact H.
Defined.
