(* ===== verification/Hashes.v ===== *)
(** * Hashes

    Models [crates/flint-storage/src/hashes.rs]: each field of a hash is its
    own row under the hash's versioned subkey prefix, and the metadata row
    counts the fields and charges their bytes. The theorems refine the store
    to a finite map from fields to values: an absent key is no map, a hash is
    never empty, and every operation acts on the map and on nothing of any
    other key. *)

From stdpp Require Import base list gmap strings sorting.
From Stdlib Require Import ZArith Lia.
From Stdlib Require Strings.Byte.
From S2P Require Import Prelude Encoding Kv Store Num F64.

(** ** Operations *)

Section HashStore.
Context `{HashIter} (st : store) (slot : Z) (key : bytes).

Definition hash_read_meta : prog (result (option ComplexMeta)) :=
  read_typed THash ComplexMeta_decode st slot key.

(** Duplicate fields in one call: the last write wins. *)
Definition last_wins (pairs : list (bytes * bytes)) : kvmap :=
  foldl (λ u p, <[p.1 := p.2]> u) ∅ pairs.

(** One turn of [hset]'s accounting loop: (fields added, bytes). *)
Definition hset_account (version : Z) (acc : Z * Z) (p : bytes * bytes) : prog (Z * Z) :=
  sk <- unwrap (subkey_envelope (st_ns st) slot key version p.1) ;;
  o <- kvget sk ;;
  let '(added, bytes) :=
    match o with
    | Some old => (acc.1, saturating_sub acc.2 (len old))
    | None => (u64 (acc.1 + 1), u64 (acc.2 + len p.1))
    end in
  Ret (added, u64 (bytes + len p.2)).

Definition hset (pairs : list (bytes * bytes)) : prog (result Z) :=
  meta <-? meta_or_new THash st slot key ;;
  let unique := last_wins pairs in
  acc <- fold_ (hash_iter unique) (hset_account (c_version meta)) (0, c_bytes meta) ;;
  let '(added, bytes) := acc in
  if st_max st <? bytes then Ret (Err ValueTooLarge)
  else
    put_fields (st_ns st) slot key (c_version meta) (hash_iter unique) ;;;
    now <- clock ;;
    kvput (meta_key st slot key)
      (ComplexMeta_encode (resized meta (u32 (c_size meta + u32 added)) bytes now)) ;;;
    Ret (Ok added).

Definition hget (field : bytes) : prog (result (option bytes)) :=
  o <-? hash_read_meta ;;
  match o with
  | None => Ret (Ok None)
  | Some meta =>
      sk <- unwrap (subkey_envelope (st_ns st) slot key (c_version meta) field) ;;
      v <- kvget sk ;;
      Ret (Ok v)
  end.

Definition hsetnx (field value : bytes) : prog (result bool) :=
  o <-? hget field ;;
  match o with
  | Some _ => Ret (Ok false)
  | None => _ <-? hset [(field, value)] ;; Ret (Ok true)
  end.

Definition hstrlen (field : bytes) : prog (result Z) :=
  o <-? hget field ;;
  Ret (Ok (match o with Some v => len v | None => 0 end)).

(** One turn of [hdel]'s loop: (removed, meta.bytes). *)
Definition hdel_field (version : Z) (acc : Z * Z) (field : bytes) : prog (Z * Z) :=
  sk <- unwrap (subkey_envelope (st_ns st) slot key version field) ;;
  o <- kvget sk ;;
  match o with
  | Some old =>
      kvdelete sk ;;;
      Ret (u64 (acc.1 + 1), saturating_sub acc.2 (len field + len old))
  | None => Ret acc
  end.

Definition hdel (fields : list bytes) : prog (result Z) :=
  o <-? hash_read_meta ;;
  match o with
  | None => Ret (Ok 0)
  | Some meta =>
      acc <- fold_ fields (hdel_field (c_version meta)) (0, c_bytes meta) ;;
      let '(removed, bytes) := acc in
      finish_removal st slot key meta removed bytes
  end.

Definition hincr_by (field : bytes) (delta : Z) : prog (result Z) :=
  o <-? hget field ;;
  current <-?
    match o with
    | None => Ret (Ok 0)
    | Some raw => Ret (ok_or (parse_redis_i64 raw) NotInteger)
    end ;;
  next <-? Ret (ok_or (checked_add_i64 current delta) Overflow) ;;
  _ <-? hset [(field, i64_to_string next)] ;;
  Ret (Ok next).

Definition hincr_by_float (field : bytes) (delta : Z) : prog (result bytes) :=
  o <-? hget field ;;
  current <-?
    match o with
    | None => Ret (Ok F64_ZERO)
    | Some raw => Ret (ok_or (f64_parse_number raw) NotFloat)
    end ;;
  let next := f64_add current delta in
  if negb (f64_is_finite next) then Ret (Err NanOrInfinity)
  else
    let repr := fmt_float_human next in
    _ <-? hset [(field, repr)] ;;
    Ret (Ok repr).

Definition hlen : prog (result Z) :=
  o <-? hash_read_meta ;; Ret (Ok (match o with Some m => c_size m | None => 0 end)).

Definition hexists (field : bytes) : prog (result bool) :=
  o <-? hget field ;; Ret (Ok (bool_decide (is_Some o))).

(** One field of [hmget]: no metadata, no value. *)
Definition hmget_one (meta : option ComplexMeta) (out : list (option bytes)) (f : bytes)
    : prog (list (option bytes)) :=
  match meta with
  | None => Ret (out ++ [None])
  | Some m =>
      sk <- unwrap (subkey_envelope (st_ns st) slot key (c_version m) f) ;;
      v <- kvget sk ;;
      Ret (out ++ [v])
  end.

Definition hmget (fields : list bytes) : prog (result (list (option bytes))) :=
  meta <-? hash_read_meta ;;
  out <- fold_ fields (hmget_one meta) [] ;;
  Ret (Ok out).

Definition hash_stored_bytes : prog (result (option Z)) :=
  o <-? hash_read_meta ;; Ret (Ok (c_bytes <$> o)).

Definition hgetall : prog (result (list (bytes * bytes))) :=
  o <-? hash_read_meta ;;
  match o with
  | None => Ret (Ok [])
  | Some meta =>
      prefix <- unwrap (subkey_prefix (st_ns st) slot key (c_version meta)) ;;
      rows <- for_each_prefix prefix ;;
      Ret (Ok (map (λ r : bytes * bytes, (drop (length prefix) r.1, r.2)) rows))
  end.
End HashStore.

(** ** Lemmas *)

Lemma last_wins_app l p : last_wins (l ++ [p]) = <[p.1 := p.2]> (last_wins l).
Proof. unfold last_wins. by rewrite foldl_app. Qed.

Lemma last_wins_nonempty l : l ≠ [] → last_wins l ≠ ∅.
Proof.
  destruct l as [|p l _] using rev_ind; [done|]. intros _. rewrite last_wins_app.
  apply insert_non_empty.
Qed.

Lemma weight_list_cons wgt f x (l : list (bytes * bytes)) :
  f ∉ l.*1 →
  weight wgt (list_to_map ((f, x) :: l)) = wgt f x + weight wgt (list_to_map l).
Proof. intros Hf. cbn. apply weight_insert_new. by apply not_elem_of_list_to_map. Qed.

Lemma weight_field_insert G f x :
  weight field_weight (<[f := x]> G) =
  weight field_weight G + match G !! f with Some old => len x - len old | None => len f + len x end.
Proof. rewrite weight_insert. unfold field_weight at 2 3. destruct (G !! f); lia. Qed.

Section HashProofs.
Context `{HI : HashIter} (st : store) (slot : Z) (key : bytes).
Abbreviation a := (mkAddr (st_ns st) slot key).
Context (Ha : addr_wf a).

(** The accounting loop adds up the hash the call is about to write. *)
Lemma wp_hset_account v l w Q :
  let F := rows_at Subkey a v (w_kv w) in
  let F' := list_to_map l ∪ F in
  NoDup l.*1 →
  weight field_weight F + weight field_weight (list_to_map l) < 2 ^ 64 →
  Z.of_nat (size F') < 2 ^ 32 →
  Q (Z.of_nat (size F') - Z.of_nat (size F), weight field_weight F') w →
  wp (fold_ l (hset_account st slot key v) (0, weight field_weight F)) w Q.
Proof.
  intros F F' Hnd Hw Hs HQ.
  apply (wp_fold (λ l' acc w', w' = w ∧ NoDup l'.*1 ∧ ∃ G : kvmap,
    acc = (Z.of_nat (size G) - Z.of_nat (size F), weight field_weight G) ∧
    (∀ f, f ∈ l'.*1 → G !! f = F !! f) ∧ list_to_map l' ∪ G = F' ∧
    (size F ≤ size G)%nat ∧
    weight field_weight G + weight field_weight (list_to_map l') < 2 ^ 64)).
  - split_and!; [done..|]. exists F. split_and!; try done. f_equal. lia.
  - intros [f x] l' acc w' (-> & Hnd' & G & -> & HG & E & HsG & HwG).
    cbn [fmap list_fmap fst] in Hnd', HG. apply NoDup_cons in Hnd' as [Hf Hnd'].
    rewrite weight_list_cons in HwG by done.
    assert (E' : list_to_map l' ∪ <[f := x]> G = F').
    { rewrite <-E. cbn. apply not_elem_of_list_to_map in Hf.
      rewrite <-insert_union_l. by rewrite <-insert_union_r. }
    assert (Hs' : Z.of_nat (size (<[f := x]> G)) < 2 ^ 32).
    { pose proof (size_union_ge (<[f := x]> G) (list_to_map l')) as Hle. rewrite E' in Hle. lia. }
    eapply wp_unwrap; [by apply (skey_ok a)|]. wp_op. cbn [fst snd].
    rewrite <-lookup_rows_at. change (rows_at Subkey a v (w_kv w)) with F.
    rewrite <-HG by (by constructor).
    pose proof (weight_field_insert G f x) as Hwi. pose proof (size_insert G f x) as Hsi.
    pose proof (weight_nonneg field_weight field_weight_pos (list_to_map l')).
    pose proof (weight_nonneg field_weight field_weight_pos (<[f := x]> G)).
    pose proof (weight_nonneg field_weight field_weight_pos G).
    assert (Hold : ∀ old, G !! f = Some old → len f + len old <= weight field_weight G).
    { intros old Ho. apply (weight_lookup field_weight field_weight_pos G f old Ho). }
    unfold field_weight in HwG at 2.
    exists (Z.of_nat (size (<[f := x]> G)) - Z.of_nat (size F), weight field_weight (<[f := x]> G)), w.
    split.
    + destruct (G !! f) as [old|] eqn:Eo; rewrite ?Eo; cbn [run fst snd].
      * specialize (Hold old eq_refl). unfold saturating_sub. rewrite wrap_id by (unfold in_width; lia).
        do 3 f_equal; lia.
      * rewrite !wrap_id by (unfold in_width; rewrite ?wrap_id by (unfold in_width; lia); lia).
        do 3 f_equal; lia.
    + split_and!; [done..|]. exists (<[f := x]> G). split_and!; [done| |done|destruct (G !! f); lia|].
      * intros f' Hf'. rewrite lookup_insert_ne by (by intros ->). apply HG. by constructor.
      * destruct (G !! f) as [old|]; [specialize (Hold old eq_refl)|]; cbn in *; lia.
  - intros acc w' (-> & _ & G & -> & _ & E & _). cbn in E.
    rewrite (left_id_L ∅ (∪)) in E. by rewrite E.
Qed.

Abbreviation hash_at := (repr THash field_weight a).

Lemma wp_hset pairs (H : option kvmap) (F F' : kvmap) w Q :
  F = contents H → F' = last_wins pairs ∪ F →
  env_ok w → headroom w → hash_at (w_clock w 0%nat) (w_kv w) H → pairs ≠ [] →
  weight field_weight F + weight field_weight (last_wins pairs) < 2 ^ 64 →
  Z.of_nat (size F') < 2 ^ 32 →
  (∀ r w', effect a w w' →
     (if st_max st <? weight field_weight F'
      then r = Err ValueTooLarge ∧ turns THash field_weight a H H w w'
      else r = Ok (Z.of_nat (size F') - Z.of_nat (size F)) ∧ makes THash field_weight a H F' w w') → Q r w') →
  wp (hset st slot key pairs) w Q.
Proof.
  intros EF EF' Henv Hroom HH Hne Hw Hs HQ. unfold hset. apply wp_try.
  apply (wp_meta_or_new THash field_weight st slot key H); [done..|].
  intros meta w1 Hop. pose proof Hop as [Hb Hv64 Hrows Hsize Hbytes Hver He Hrepr].
  rewrite <-EF in Hrows, Hsize, Hbytes. apply wp_bind. rewrite Hbytes, <-Hrows.
  assert (EU : list_to_map (hash_iter (last_wins pairs)) = last_wins pairs) by apply list_to_map_hash_iter.
  apply wp_hset_account; rewrite ?EU, ?Hrows; try rewrite <-EF'; [apply NoDup_hash_iter|done..|].
  destruct (Z.ltb_spec (st_max st) (weight field_weight F')) as [Hmax|Hmax]; [wp_op; by apply HQ|].
  apply wp_bind. apply (wp_put_fields a); [done|done|done|apply He|apply NoDup_hash_iter|].
  rewrite EU, Hrows, <-EF'. intros w2 Hrw. wp_op. wp_op. wp_op.
  assert (Hwu : weight field_weight F' <= weight field_weight (last_wins pairs) + weight field_weight F)
    by (subst F'; apply weight_union_le; apply field_weight_pos).
  pose proof (weight_nonneg field_weight field_weight_pos F').
  pose proof (size_union_ge F (last_wins pairs)) as Hge. rewrite <-EF' in Hge.
  assert (Hsz : u32 (c_size meta + u32 (Z.of_nat (size F') - Z.of_nat (size F))) = Z.of_nat (size F')).
  { rewrite Hsize, (wrap_id 32 (Z.of_nat (size F') - _)) by (unfold in_width; lia).
    rewrite wrap_id; [lia|unfold in_width; lia]. }
  apply HQ.
  - apply close_effect. eapply effect_trans; [done|]. by eapply rows_written_effect.
  - split; [done|]. intros now Hnow. rewrite Hsz.
    apply close_repr; [by apply Hb|apply Hrw| |done..|unfold in_width; lia|unfold in_width; lia|].
    + intros E. apply (last_wins_nonempty pairs Hne). subst F'. by apply map_positive_l in E.
    + apply clock_ok_64. eapply effect_clocks; [by eapply rows_written_effect|].
      eapply effect_clocks; [done|]. apply Henv.
Qed.

Lemma wp_hget (H : option kvmap) f w Q :
  env_ok w → hash_at (w_clock w 0%nat) (w_kv w) H →
  (∀ w', read_only THash field_weight a H w w' → Q (Ok (contents H !! f)) w') →
  wp (hget st slot key f) w Q.
Proof.
  intros Henv HH HQ. unfold hget. apply wp_try. apply (wp_read_holds THash field_weight st slot key H); [done..|].
  intros [meta|] w' Hro Hread.
  - destruct Hread as (F & -> & _ & Hm). eapply wp_unwrap; [by apply (skey_ok a)|].
    wp_op. wp_op. rewrite (holds_lookup _ _ _ _ _ _ _ _ Hm). by apply HQ.
  - subst H. wp_op. by apply HQ.
Qed.

Lemma wp_hmget (H : option kvmap) fields w Q :
  env_ok w → hash_at (w_clock w 0%nat) (w_kv w) H →
  (∀ w', read_only THash field_weight a H w w' → Q (Ok ((λ f, contents H !! f) <$> fields)) w') →
  wp (hmget st slot key fields) w Q.
Proof.
  intros Henv HH HQ. unfold hmget. apply wp_try. apply (wp_read_holds THash field_weight st slot key H); [done..|].
  intros o w' Hro Hread. apply wp_bind.
  apply (wp_fold (λ l' out w'', w'' = w' ∧
    out ++ ((λ f, contents H !! f) <$> l') = (λ f, contents H !! f) <$> fields)); [done|..].
  - intros f l' out w'' [-> E]. cbn in E.
    assert (E' : (out ++ [contents H !! f]) ++ ((λ f, contents H !! f) <$> l') =
                 (λ f, contents H !! f) <$> fields) by (by rewrite <-app_assoc).
    unfold hmget_one. destruct o as [meta|].
    + destruct Hread as (F & -> & _ & Hm). eapply wp_unwrap; [by apply (skey_ok a)|].
      wp_op. wp_op. by rewrite (holds_lookup _ _ _ _ _ _ _ _ Hm).
    + subst H. by wp_op.
  - intros out w'' [-> E]. wp_op. cbn in E. rewrite app_nil_r in E. subst out. by apply HQ.
Qed.

Lemma wp_hgetall (H : option kvmap) w Q :
  env_ok w → hash_at (w_clock w 0%nat) (w_kv w) H →
  (∀ w', read_only THash field_weight a H w w' → Q (Ok (rows_of (contents H))) w') →
  wp (hgetall st slot key) w Q.
Proof.
  intros Henv HH HQ. unfold hgetall. apply wp_try. apply (wp_read_holds THash field_weight st slot key H); [done..|].
  intros [meta|] w' Hro Hread.
  - destruct Hread as (F & -> & _ & (_ & HF & _)). eapply wp_unwrap; [by apply (sprefix_ok a)|].
    wp_op. wp_op. rewrite map_drop_rows. unfold rows_at in HF. rewrite HF. by apply HQ.
  - subst H. wp_op. rewrite <-rows_of_empty. by apply HQ.
Qed.

Lemma wp_hdel_loop fields meta F w0 w Q :
  holds_meta THash field_weight a w0 (w_kv w) meta F → env_ok w →
  (∀ G w', rows_written a (c_version meta) G w w' → G = without fields F →
     Q (Z.of_nat (size F) - Z.of_nat (size G), weight field_weight G) w') →
  wp (fold_ fields (hdel_field st slot key (c_version meta)) (0, c_bytes meta)) w Q.
Proof.
  intros Hm Henv HQ. destruct (holds_widths _ _ _ _ _ _ _ Hm) as (HF32 & HF64 & Hb).
  destruct Hm as (_ & HF & Hs & Hby).
  apply (wp_fold (λ l' acc w', ∃ G, rows_written a (c_version meta) G w w' ∧
    acc = (Z.of_nat (size F) - Z.of_nat (size G), weight field_weight G) ∧
    without l' G = without fields F ∧ (size G ≤ size F)%nat)).
  - exists F. rewrite <-HF at 1. split_and!; [apply rows_written_refl, Henv| |done..].
    rewrite Hby. f_equal. lia.
  - intros f l' acc w' (G & Hrw & -> & E & Hsz). unfold hdel_field.
    eapply wp_unwrap; [by apply (skey_ok a)|]. wp_op.
    rewrite <-lookup_rows_at, (rw_rows _ _ _ _ _ Hrw).
    rewrite <-without_cons in E. pose proof (size_delete G f) as Hsd.
    destruct (G !! f) as [old|] eqn:Eo; rewrite ?Eo in *.
    + wp_op. wp_op. exists (delete f G). split_and!; [|..|lia]; [| |done].
      * apply rows_written_delete; try done; apply Hb.
      * pose proof (weight_delete field_weight G f old Eo) as Hwd.
        pose proof (weight_nonneg field_weight field_weight_pos (delete f G)).
        unfold field_weight at 2 in Hwd. cbn [fst snd].
        rewrite wrap_id by (unfold in_width in *; lia). unfold saturating_sub. f_equal; lia.
    + wp_op. exists G. rewrite delete_id in E by done. done.
  - intros acc w' (G & Hrw & -> & E & _). rewrite without_nil in E. by apply HQ.
Qed.

Lemma wp_hdel fields (H : option kvmap) (F' : kvmap) w Q :
  F' = without fields (contents H) →
  env_ok w → hash_at (w_clock w 0%nat) (w_kv w) H →
  (∀ w', effect a w w' →
     turns THash field_weight a H (if decide (F' = ∅) then None else Some F') w w' →
     Q (Ok (Z.of_nat (size (contents H)) - Z.of_nat (size F'))) w') →
  wp (hdel st slot key fields) w Q.
Proof.
  intros EF' Henv HH HQ. unfold hdel. apply wp_try. apply (wp_read_holds THash field_weight st slot key H); [done..|].
  intros [meta|] w1 (Henv1 & He & El & Hr) Hread.
  - destruct Hread as (F & -> & Hne & Hm). apply wp_bind.
    apply (wp_hdel_loop fields meta F (w_clock w 0%nat)); [done..|].
    intros G w2 Hrw ->. cbn [contents] in *. subst F'.
    apply (wp_finish_removal THash field_weight st slot key fields (w_clock w 0%nat) meta F w w1);
      [apply field_weight_pos|done..|].
    intros w' He' Hr'. apply HQ; [done|]. intros now Hnow. auto.
  - subst H. wp_op. cbn [contents] in *. subst F'.
    assert (E : without fields ∅ = ∅) by apply map_filter_empty.
    rewrite E in HQ. apply (HQ w1); [done|]. intros now Hnow. rewrite decide_True by done. auto.
Qed.

Lemma last_wins_one f v (F : kvmap) : last_wins [(f, v)] ∪ F = <[f := v]> F.
Proof. by rewrite insert_union_singleton_l. Qed.

(** One field set: [hsetnx] and the counters write this way. *)
Lemma wp_hset_one f v (H : option kvmap) w Q :
  let F := contents H in
  env_ok w → headroom w → hash_at (w_clock w 0%nat) (w_kv w) H →
  weight field_weight F + field_weight f v < 2 ^ 64 →
  Z.of_nat (size (<[f := v]> F)) < 2 ^ 32 →
  (∀ r w', effect a w w' →
     (if st_max st <? weight field_weight (<[f := v]> F)
      then r = Err ValueTooLarge ∧ turns THash field_weight a H H w w'
      else r = Ok (match F !! f with Some _ => 0 | None => 1 end) ∧
           makes THash field_weight a H (<[f := v]> F) w w') → Q r w') →
  wp (hset st slot key [(f, v)]) w Q.
Proof.
  intros F Henv Hroom HH Hw Hs HQ.
  apply (wp_hset [(f, v)] H F (<[f := v]> F)); try done.
  - by rewrite last_wins_one.
  - cbn. rewrite weight_insert_new by done. rewrite weight_empty. lia.
  - intros r w' He Hr. apply HQ; [done|]. pose proof (size_insert F f v) as Hsi.
    destruct (_ <? _); [done|]. destruct Hr as [-> Hr]. split; [|done]. f_equal. lia.
Qed.

Lemma wp_hsetnx f v (H : option kvmap) w Q :
  let F := contents H in
  env_ok w → headroom w → (∀ n, hash_at (w_clock w n) (w_kv w) H) →
  weight field_weight F + field_weight f v < 2 ^ 64 →
  Z.of_nat (size (<[f := v]> F)) < 2 ^ 32 →
  (∀ r w', effect a w w' →
     match F !! f with
     | Some _ => r = Ok false ∧ turns THash field_weight a H H w w'
     | None =>
         if st_max st <? weight field_weight (<[f := v]> F)
         then r = Err ValueTooLarge ∧ turns THash field_weight a H H w w'
         else r = Ok true ∧ makes THash field_weight a H (<[f := v]> F) w w'
     end → Q r w') →
  wp (hsetnx st slot key f v) w Q.
Proof.
  intros F Henv Hroom HH Hw Hs HQ. unfold hsetnx. apply wp_try. apply (wp_hget H); [done..|].
  intros w1 Hro. pose proof Hro as (Henv1 & He & El & Hr). fold F.
  destruct (F !! f) as [x|] eqn:Ef.
  - wp_op. apply HQ; [done|]. auto.
  - destruct (eff_clock _ _ _ He) as [d Hd].
    apply wp_try. apply (wp_hset_one f v H); [done|unfold headroom; by rewrite El| |done..|].
    { rewrite Hd. auto. }
    fold F. rewrite ?Ef. intros r w2 He2 Hcase.
    assert (effect a w w2) as He' by (by eapply effect_trans).
    destruct (_ <? _) eqn:Emax; destruct Hcase as [-> Hc].
    + apply HQ; [done|]. split; [done|]. by eapply turns_after.
    + wp_op. apply HQ; [done|]. split; [done|]. by eapply makes_after.
Qed.

(** A counter stores its field's new text after its read. *)
Lemma wp_counter_store {B} f v (ans : B) (H : option kvmap) w w1 (Q : result B → world kvmap → Prop) :
  let F := contents H in
  read_only THash field_weight a H w w1 → headroom w → (∀ n, hash_at (w_clock w n) (w_kv w) H) →
  weight field_weight F + field_weight f v < 2 ^ 64 → Z.of_nat (size F) + 1 < 2 ^ 32 →
  (∀ r w', effect a w w' →
     (if st_max st <? weight field_weight (<[f := v]> F)
      then r = Err ValueTooLarge ∧ turns THash field_weight a H H w w'
      else r = Ok ans ∧ makes THash field_weight a H (<[f := v]> F) w w') → Q r w') →
  wp (_ <-? hset st slot key [(f, v)] ;; Ret (Ok ans)) w1 Q.
Proof.
  intros F Hro Hroom HH Hw Hs HQ. pose proof Hro as (Henv1 & He & El & Hr).
  destruct (eff_clock _ _ _ He) as [d Hd].
  apply wp_try. apply (wp_hset_one f v H); [done|unfold headroom; by rewrite El|..]; fold F.
  { rewrite Hd. auto. }
  { done. }
  { pose proof (size_insert F f v). destruct (F !! f); lia. }
  intros r w2 He2 Hcase. assert (effect a w w2) as He' by (by eapply effect_trans).
  destruct (_ <? _) eqn:Emax; destruct Hcase as [-> Hc].
  - apply HQ; [done|]. split; [done|]. by eapply turns_after.
  - wp_op. apply HQ; [done|]. split; [done|]. by eapply makes_after.
Qed.

(** What a counter's field reads as: a missing one is 0. *)
Definition counter_of (o : option bytes) : option Z :=
  match o with None => Some 0 | Some raw => parse_redis_i64 raw end.

Lemma wp_hincr_by f delta (H : option kvmap) w Q :
  let F := contents H in
  env_ok w → headroom w → (∀ n, hash_at (w_clock w n) (w_kv w) H) →
  weight field_weight F + len f + 21 < 2 ^ 64 → Z.of_nat (size F) + 1 < 2 ^ 32 →
  (∀ r w', effect a w w' →
     match counter_of (F !! f) with
     | None => r = Err NotInteger ∧ turns THash field_weight a H H w w'
     | Some c =>
         match checked_add_i64 c delta with
         | None => r = Err Overflow ∧ turns THash field_weight a H H w w'
         | Some next =>
             let F' := <[f := i64_to_string next]> F in
             if st_max st <? weight field_weight F'
             then r = Err ValueTooLarge ∧ turns THash field_weight a H H w w'
             else r = Ok next ∧ makes THash field_weight a H F' w w'
         end
     end → Q r w') →
  wp (hincr_by st slot key f delta) w Q.
Proof.
  intros F Henv Hroom HH Hw Hs HQ. unfold hincr_by. apply wp_try. apply (wp_hget H); [done..|].
  intros w1 Hro. pose proof Hro as (Henv1 & He & El & Hr). fold F. apply wp_try.
  assert (Ecur : wp match F !! f with None => Ret (Ok 0) | Some raw => Ret (ok_or (parse_redis_i64 raw) NotInteger) end w1
    (λ r w', w' = w1 ∧ r = ok_or (counter_of (F !! f)) NotInteger)).
  { destruct (F !! f); by apply wp_ret. }
  eapply wp_conseq; [exact Ecur|]. intros r w' [-> ->]. clear Ecur.
  destruct (counter_of (F !! f)) as [c|] eqn:Ec; cbn [ok_or].
  2:{ apply HQ; auto. }
  apply wp_try. apply wp_ret. destruct (checked_add_i64 c delta) as [next|] eqn:En; cbn [ok_or].
  2:{ apply HQ; [done|]. rewrite ?En. auto. }
  pose proof (length_i64_to_string next) as Hlen.
  apply (wp_counter_store f (i64_to_string next) next H w w1); try done.
  { fold F. unfold field_weight at 2. lia. }
Qed.

(** What a float counter's field reads as. *)
Definition float_of (o : option bytes) : option Z :=
  match o with None => Some F64_ZERO | Some raw => f64_parse_number raw end.

Lemma wp_hincr_by_float f delta (H : option kvmap) w Q :
  let F := contents H in
  env_ok w → headroom w → (∀ n, hash_at (w_clock w n) (w_kv w) H) →
  weight field_weight F + len f + 349 < 2 ^ 64 → Z.of_nat (size F) + 1 < 2 ^ 32 →
  (∀ r w', effect a w w' →
     match float_of (F !! f) with
     | None => r = Err NotFloat ∧ turns THash field_weight a H H w w'
     | Some c =>
         let next := f64_add c delta in
         if f64_is_finite next then
           let F' := <[f := fmt_float_human next]> F in
           if st_max st <? weight field_weight F'
           then r = Err ValueTooLarge ∧ turns THash field_weight a H H w w'
           else r = Ok (fmt_float_human next) ∧ makes THash field_weight a H F' w w'
         else r = Err NanOrInfinity ∧ turns THash field_weight a H H w w'
     end → Q r w') →
  wp (hincr_by_float st slot key f delta) w Q.
Proof.
  intros F Henv Hroom HH Hw Hs HQ. unfold hincr_by_float. apply wp_try. apply (wp_hget H); [done..|].
  intros w1 Hro. pose proof Hro as (Henv1 & He & El & Hr). fold F. apply wp_try.
  assert (Ecur : wp match F !! f with None => Ret (Ok F64_ZERO) | Some raw => Ret (ok_or (f64_parse_number raw) NotFloat) end w1
    (λ r w', w' = w1 ∧ r = ok_or (float_of (F !! f)) NotFloat)).
  { destruct (F !! f); by apply wp_ret. }
  eapply wp_conseq; [exact Ecur|]. intros r w' [-> ->]. clear Ecur.
  destruct (float_of (F !! f)) as [c|] eqn:Ec; cbn [ok_or].
  2:{ apply HQ; auto. }
  cbv zeta in HQ |- *. pose proof (f64_add_width c delta) as Hwd.
  set (next := f64_add c delta) in *. clearbody next.
  destruct (f64_is_finite next) eqn:Ef; cbn [negb].
  2:{ apply wp_ret. apply HQ; auto. }
  pose proof (length_fmt next Hwd Ef) as Hlen.
  apply (wp_counter_store f (fmt_float_human next) (fmt_float_human next) H w w1); try done.
  { fold F. unfold field_weight at 2. lia. }
Qed.
End HashProofs.

(** * Properties *)

(** C25. HSET: the fields given (the last of a repeated one) are laid over the
    hash there was, a new hash being made of an absent or expired key; the
    answer is the number of fields that are new, the metadata counts and
    charges exactly the fields the hash now has, and no row of any other key
    moves. A call that would pass the value cap is refused and leaves the hash
    as it was. It holds whatever order the deduplicating hash map iterates in. *)
Theorem hset_refines `{HI : HashIter} st slot key pairs (H : option kvmap) w :
  let a := mkAddr (st_ns st) slot key in
  let now := w_clock w 0%nat in
  let F := contents H in
  let F' := last_wins pairs ∪ F in
  addr_wf a → env_ok w → headroom w → repr THash field_weight a now (w_kv w) H → pairs ≠ [] →
  weight field_weight F + weight field_weight (last_wins pairs) < 2 ^ 64 →
  Z.of_nat (size F') < 2 ^ 32 →
  wp (hset st slot key pairs) w (λ r w', effect a w w' ∧
    if st_max st <? weight field_weight F'
    then r = Err ValueTooLarge ∧ turns THash field_weight a H H w w'
    else r = Ok (Z.of_nat (size F') - Z.of_nat (size F)) ∧
         makes THash field_weight a H F' w w').
Proof. intros. eapply wp_hset; eauto. Qed.

Definition demo_pairs : list (bytes * bytes) := [(bstr "f", bstr "v"); (bstr "f", bstr "w")].

Lemma demo_pairs_last : last_wins demo_pairs ∪ ∅ = {[bstr "f" := bstr "w"]}.
Proof. vm_compute. reflexivity. Qed.

Lemma hset_refines_witness :
  wp (@hset canonical_iter demo_store 7 (bstr "k") demo_pairs) (demo_world ∅)
    (λ r w', effect demo_addr (demo_world ∅) w' ∧ r = Ok 1 ∧
       makes THash field_weight demo_addr None {[bstr "f" := bstr "w"]} (demo_world ∅) w').
Proof.
  pose proof (@hset_refines canonical_iter demo_store 7 (bstr "k") demo_pairs None
    (demo_world ∅)) as Hset. cbn [contents] in Hset. rewrite demo_pairs_last in Hset.
  apply Hset; [exact demo_addr_wf|exact demo_env_empty|exact (demo_headroom _)|exact I|discriminate|reflexivity|reflexivity].
Defined.

(** The reads answer from the hash and change nothing in it: HGET, HEXISTS,
    HSTRLEN and HMGET look fields up, HLEN counts them, HGETALL lists them in
    field order, and the stored size is the bytes charged. An absent or
    expired key reads as empty, and reading an expired one reclaims its
    metadata row and no more. *)
Theorem hash_reads_refine st slot key field fields (H : option kvmap) w :
  let a := mkAddr (st_ns st) slot key in
  let now := w_clock w 0%nat in
  let F := contents H in
  let answers A (p : prog (result A)) (x : A) :=
    wp p w (λ r w', r = Ok x ∧ effect a w w' ∧ turns THash field_weight a H H w w') in
  addr_wf a → env_ok w → repr THash field_weight a now (w_kv w) H →
  answers _ (hget st slot key field) (F !! field) ∧
  answers _ (hexists st slot key field) (bool_decide (is_Some (F !! field))) ∧
  answers _ (hstrlen st slot key field) (match F !! field with Some v => len v | None => 0 end) ∧
  answers _ (hmget st slot key fields) ((λ f, F !! f) <$> fields) ∧
  answers _ (hlen st slot key) (Z.of_nat (size F)) ∧
  answers _ (hash_stored_bytes st slot key) (weight field_weight <$> H) ∧
  answers _ (hgetall st slot key) (rows_of F).
Proof.
  intros a now F answers Ha Henv HH.
  assert (Hro : ∀ w', read_only THash field_weight a H w w' →
    effect a w w' ∧ turns THash field_weight a H H w w').
  { intros w' (_ & He & _ & Hr). done. }
  unfold answers. split_and!.
  - apply (wp_hget st slot key Ha H); auto.
  - apply wp_try. apply (wp_hget st slot key Ha H); [done..|]. intros. wp_op. auto.
  - apply wp_try. apply (wp_hget st slot key Ha H); [done..|]. intros. wp_op. auto.
  - apply (wp_hmget st slot key Ha H); auto.
  - apply wp_try. apply (wp_read_holds THash field_weight st slot key H); [done..|]. intros o w' Hr Ho. wp_op.
    split; [|auto]. destruct o; [destruct Ho as (F0 & -> & _ & (_ & _ & -> & _))|subst H]; done.
  - apply wp_try. apply (wp_read_holds THash field_weight st slot key H); [done..|]. intros o w' Hr Ho. wp_op.
    split; [|auto]. destruct o; [destruct Ho as (F0 & -> & _ & (_ & _ & _ & Hb))|subst H]; [|done].
    cbn. by rewrite Hb.
  - apply (wp_hgetall st slot key Ha H); auto.
Qed.

Lemma hash_reads_refine_witness :
  wp (hgetall demo_store 7 (bstr "k")) (demo_world (demo_map THash (bstr "v") 2))
    (λ r _, r = Ok [(bstr "f", bstr "v")]).
Proof.
  eapply wp_conseq.
  - eapply (hash_reads_refine demo_store 7 (bstr "k") (bstr "f") [bstr "f"]
      (Some {[bstr "f" := bstr "v"]}) (demo_world (demo_map THash (bstr "v") 2))
      demo_addr_wf (demo_env _ _ _)).
    apply demo_repr; done.
  - intros r w' (-> & _). done.
Defined.

(** HDEL removes exactly the fields named (a repeated one once) and answers
    how many were there; removing the last field deletes the key. *)
Theorem hdel_refines st slot key fields (H : option kvmap) w :
  let a := mkAddr (st_ns st) slot key in
  let now := w_clock w 0%nat in
  let F' := without fields (contents H) in
  addr_wf a → env_ok w → repr THash field_weight a now (w_kv w) H →
  wp (hdel st slot key fields) w (λ r w', effect a w w' ∧
    r = Ok (Z.of_nat (size (contents H)) - Z.of_nat (size F')) ∧
    turns THash field_weight a H (if decide (F' = ∅) then None else Some F') w w').
Proof. intros. eapply wp_hdel; eauto. Qed.

Lemma hdel_refines_witness :
  wp (hdel demo_store 7 (bstr "k") [bstr "f"; bstr "g"; bstr "f"])
    (demo_world (demo_map THash (bstr "v") 2))
    (λ r w', r = Ok 1 ∧ turns THash field_weight demo_addr (Some {[bstr "f" := bstr "v"]}) None
               (demo_world (demo_map THash (bstr "v") 2)) w').
Proof.
  eapply wp_conseq.
  - apply (hdel_refines demo_store 7 (bstr "k") [bstr "f"; bstr "g"; bstr "f"]
      (Some {[bstr "f" := bstr "v"]}) (demo_world (demo_map THash (bstr "v") 2))
      demo_addr_wf (demo_env _ _ _)).
    apply demo_repr; done.
  - intros r w' (_ & -> & Hr). split; [done|]. exact Hr.
Defined.

(** HINCRBY adds to the integer the field spells (an absent field is 0) and
    stores the sum's spelling: a value that is not an integer and a sum past
    64 bits are refused, as is a hash over the cap, and a refusal leaves the
    hash as it was. HINCRBYFLOAT does the same with doubles: the sum is the
    rounded sum, a field that is no number and a sum that is no finite number
    are refused. The key is taken not to expire between the call's clock
    readings. *)
Theorem hincr_by_refines `{HI : HashIter} st slot key field delta fdelta (H : option kvmap) w :
  let a := mkAddr (st_ns st) slot key in
  let F := contents H in
  addr_wf a → env_ok w → headroom w → (∀ n, repr THash field_weight a (w_clock w n) (w_kv w) H) →
  weight field_weight F + len field + 349 < 2 ^ 64 → Z.of_nat (size F) + 1 < 2 ^ 32 →
  wp (hincr_by st slot key field delta) w (λ r w', effect a w w' ∧
    match counter_of (F !! field) with
    | None => r = Err NotInteger ∧ turns THash field_weight a H H w w'
    | Some c =>
        match checked_add_i64 c delta with
        | None => r = Err Overflow ∧ turns THash field_weight a H H w w'
        | Some next =>
            let F' := <[field := i64_to_string next]> F in
            if st_max st <? weight field_weight F'
            then r = Err ValueTooLarge ∧ turns THash field_weight a H H w w'
            else r = Ok next ∧ makes THash field_weight a H F' w w'
        end
    end) ∧
  wp (hincr_by_float st slot key field fdelta) w (λ r w', effect a w w' ∧
    match float_of (F !! field) with
    | None => r = Err NotFloat ∧ turns THash field_weight a H H w w'
    | Some c =>
        let next := f64_add c fdelta in
        if f64_is_finite next then
          let F' := <[field := fmt_float_human next]> F in
          if st_max st <? weight field_weight F'
          then r = Err ValueTooLarge ∧ turns THash field_weight a H H w w'
          else r = Ok (fmt_float_human next) ∧ makes THash field_weight a H F' w w'
        else r = Err NanOrInfinity ∧ turns THash field_weight a H H w w'
    end).
Proof.
  intros a F Ha Henv Hroom HH Hw Hs. split.
  - apply (wp_hincr_by st slot key Ha field delta H); [done..|subst F; lia|done|].
    intros r w' He Hcase. by split.
  - apply (wp_hincr_by_float st slot key Ha field fdelta H); [done..|].
    intros r w' He Hcase. by split.
Qed.

(** HINCRBY by -44 on 2, and HINCRBYFLOAT by 0.5. *)
Lemma hincr_by_refines_witness :
  let w := demo_world (demo_map THash (bstr "2") 2) in
  let old := Some ({[bstr "f" := bstr "2"]} : kvmap) in
  wp (@hincr_by canonical_iter demo_store 7 (bstr "k") (bstr "f") (-44)) w
    (λ r w', r = Ok (-42) ∧ makes THash field_weight demo_addr old {[bstr "f" := bstr "-42"]} w w') ∧
  wp (@hincr_by_float canonical_iter demo_store 7 (bstr "k") (bstr "f") 4602678819172646912) w
    (λ r w', r = Ok (bstr "2.5") ∧
       makes THash field_weight demo_addr old {[bstr "f" := bstr "2.5"]} w w').
Proof.
  destruct (@hincr_by_refines canonical_iter demo_store 7 (bstr "k") (bstr "f") (-44)
    4602678819172646912 (Some {[bstr "f" := bstr "2"]}) (demo_world (demo_map THash (bstr "2") 2))
    demo_addr_wf (demo_env _ _ _) (demo_headroom _)) as [H1 H2]; [|done..|].
  { intros n. apply demo_repr; done. }
  split; (eapply wp_conseq; [exact H1 || exact H2|]); intros r w' (_ & Hr); exact Hr.
Defined.
