(* ===== verification/Sets.v ===== *)
(** * Sets

    Models [crates/flint-storage/src/sets.rs]: members are empty-valued rows
    under the set's versioned subkey prefix. The theorems refine the store to
    finite sets, an absent key being the empty set. [random_pick] draws from
    the world's random stream, and its theorems hold for every stream. *)

From stdpp Require Import base list gmap strings sorting.
From Stdlib Require Import ZArith Lia.
From Stdlib Require Strings.Byte.
From S2P Require Import Prelude Encoding Kv Store.

(** ** Random picks *)

(** [items.swap(i, j)], both in range. *)
Definition swap {A} (l : list A) (i j : nat) : list A :=
  match l !! i, l !! j with
  | Some x, Some y => <[j := x]> (<[i := y]> l)
  | _, _ => l
  end.

Definition random_pick {A} (items : list A) (count : Z) : prog (list A) :=
  match items with
  | [] => Ret []
  | _ =>
      if 0 <=? count then
        let take_n := Z.to_nat (Z.min count (len items)) in
        items <- fold_ (seq 0 (Nat.min take_n (length items - 1)))
          (λ l i, r <- random ;;
                  let j := (i + Z.to_nat (r mod Z.of_nat (length l - i)))%nat in
                  Ret (swap l i j)) items ;;
        Ret (take take_n items)
      else
        fold_ (seq 0 (Z.to_nat (- count)))
          (λ out _, r <- random ;;
                    x <- unwrap (items !! Z.to_nat (r mod len items)) ;;
                    Ret (out ++ [x])) []
  end.

(** ** Operations *)

Inductive SetOp := Inter | Union | Diff.

#[global] Instance SetOp_eq_dec : EqDecision SetOp.
Proof. solve_decision. Defined.

Section SetStore.
Context `{HI : HashIter} (st : store) (slot : Z).

Definition set_read_meta (key : bytes) : prog (result (option ComplexMeta)) :=
  read_typed TSet ComplexMeta_decode st slot key.

(** One turn of [sadd]'s first loop: the members seen, and those the set does
    not have. *)
Definition sadd_scan (key : bytes) (version : Z) (acc : keyset * list bytes) (m : bytes)
    : prog (keyset * list bytes) :=
  sk <- unwrap (subkey_envelope (st_ns st) slot key version m) ;;
  if decide (m ∈ acc.1) then Ret acc
  else
    o <- kvget sk ;;
    Ret ({[m]} ∪ acc.1, match o with None => acc.2 ++ [m] | Some _ => acc.2 end).

Definition sadd (key : bytes) (members : list bytes) : prog (result Z) :=
  meta <-? meta_or_new TSet st slot key ;;
  acc <- fold_ members (sadd_scan key (c_version meta)) (∅, []) ;;
  let fresh := acc.2 in
  let bytes := u64 (c_bytes meta + sum_lens fresh) in
  if st_max st <? bytes then Ret (Err ValueTooLarge)
  else
    put_fields (st_ns st) slot key (c_version meta) ((λ m, (m, [])) <$> fresh) ;;;
    now <- clock ;;
    kvput (meta_key st slot key)
      (ComplexMeta_encode (resized meta (u32 (c_size meta + u32 (len fresh))) bytes now)) ;;;
    Ret (Ok (len fresh)).

(** One turn of [srem]'s loop: (removed, meta.bytes). *)
Definition srem_member (key : bytes) (version : Z) (acc : Z * Z) (m : bytes) : prog (Z * Z) :=
  sk <- unwrap (subkey_envelope (st_ns st) slot key version m) ;;
  existed <- kvdelete sk ;;
  Ret (if existed then (u64 (acc.1 + 1), saturating_sub acc.2 (len m)) else acc).

Definition srem (key : bytes) (members : list bytes) : prog (result Z) :=
  o <-? set_read_meta key ;;
  match o with
  | None => Ret (Ok 0)
  | Some meta =>
      acc <- fold_ members (srem_member key (c_version meta)) (0, c_bytes meta) ;;
      let '(removed, bytes) := acc in
      finish_removal st slot key meta removed bytes
  end.

Definition sismember (key member : bytes) : prog (result bool) :=
  o <-? set_read_meta key ;;
  match o with
  | None => Ret (Ok false)
  | Some meta =>
      sk <- unwrap (subkey_envelope (st_ns st) slot key (c_version meta) member) ;;
      v <- kvget sk ;;
      Ret (Ok (bool_decide (is_Some v)))
  end.

Definition smismember (key : bytes) (members : list bytes) : prog (result (list bool)) :=
  collect_ members (sismember key).

Definition set_stored_bytes (key : bytes) : prog (result (option Z)) :=
  o <-? set_read_meta key ;; Ret (Ok (c_bytes <$> o)).

Definition smembers (key : bytes) : prog (result (list bytes)) :=
  o <-? set_read_meta key ;;
  match o with
  | None => Ret (Ok [])
  | Some meta =>
      prefix <- unwrap (subkey_prefix (st_ns st) slot key (c_version meta)) ;;
      rows <- for_each_prefix prefix ;;
      Ret (Ok (map (λ r : bytes * bytes, drop (length prefix) r.1) rows))
  end.

Definition scard (key : bytes) : prog (result Z) :=
  o <-? set_read_meta key ;; Ret (Ok (match o with Some m => c_size m | None => 0 end)).

Definition sreplace (key : bytes) (members : list bytes) : prog (result Z) :=
  let distinct := (hash_iter (gset_to_gmap tt (list_to_set members : keyset))).*1 in
  if st_max st <? sum_lens distinct then Ret (Err ValueTooLarge)
  else
    kvdelete (meta_key st slot key) ;;;
    match members with
    | [] => Ret (Ok 0)
    | _ => _ <-? sadd key members ;; scard key
    end.

(** One turn of [sop]'s fold, and whether to go on. *)
Definition sop_step (op : SetOp) (acc other : keyset) : keyset :=
  match op with
  | Inter => acc ∩ other
  | Union => acc ∪ other
  | Diff => acc ∖ other
  end.

Fixpoint sop_loop (op : SetOp) (acc : keyset) (rest : list bytes)
    : prog (result (keyset)) :=
  match rest with
  | [] => Ret (Ok acc)
  | k :: rest =>
      l <-? smembers k ;;
      let acc := sop_step op acc (list_to_set l) in
      if decide (acc = ∅ ∧ op ≠ Union) then Ret (Ok acc) else sop_loop op acc rest
  end.

Definition sop (op : SetOp) (keys : list bytes) : prog (result (list bytes)) :=
  match keys with
  | [] => Ret (Ok [])
  | first :: rest =>
      _ <-? collect_ keys set_read_meta ;;
      l <-? smembers first ;;
      acc <-? sop_loop op (list_to_set l) rest ;;
      Ret (Ok (hash_iter (gset_to_gmap tt acc)).*1)
  end.

Definition spop (key : bytes) (count : Z) : prog (result (list bytes)) :=
  if count =? 0 then Ret (Ok [])
  else
    members <-? smembers key ;;
    let take_n := i64 (Z.min count (len members)) in
    members <- random_pick members take_n ;;
    match members with
    | [] => Ret (Ok [])
    | _ => _ <-? srem key members ;; Ret (Ok members)
    end.

Definition srandmember (key : bytes) (count : Z) : prog (result (list bytes)) :=
  members <-? smembers key ;;
  picked <- random_pick members count ;;
  Ret (Ok picked).

Definition smove (src dst member : bytes) : prog (result bool) :=
  o <-? set_read_meta src ;;
  match o with
  | None => Ret (Ok false)
  | Some _ =>
      _ <-? set_read_meta dst ;;
      held <-? sismember src member ;;
      if negb held then Ret (Ok false)
      else if decide (src = dst) then Ret (Ok true)
      else
        _ <-? sadd dst [member] ;;
        _ <-? srem src [member] ;;
        Ret (Ok true)
  end.
End SetStore.

(** ** Sets of members *)

(** The bytes a set is charged for: its members' lengths. *)
Definition set_weight (X : keyset) : Z := weight member_weight (gset_to_gmap [] X).

(** The key holds the set [X], an absent key holding the empty one. *)
Definition set_at (a : addr) (now : Z) (m : kvmap) (X : keyset) : Prop :=
  ∃ H, repr TSet member_weight a now m H ∧ dom (contents H) = X.

Lemma weight_dom (F : kvmap) : weight member_weight F = set_weight (dom F).
Proof.
  unfold set_weight. induction F as [|k v F Hk IH] using map_ind; [done|].
  rewrite dom_insert_L, gset_to_gmap_union_singleton.
  rewrite !weight_insert_new; [by rewrite IH|..|done].
  apply lookup_gset_to_gmap_None. by apply not_elem_of_dom.
Qed.

Lemma set_weight_nonneg X : 0 <= set_weight X.
Proof. apply weight_nonneg, member_weight_pos. Qed.

Lemma set_weight_singleton m : set_weight {[m]} = len m.
Proof.
  unfold set_weight. rewrite <-(right_id_L ∅ (∪) {[m]}), gset_to_gmap_union_singleton.
  rewrite gset_to_gmap_empty, weight_insert_new, weight_empty by done. unfold member_weight. lia.
Qed.

Lemma set_weight_union X Y : X ## Y → set_weight (X ∪ Y) = set_weight X + set_weight Y.
Proof.
  unfold set_weight. revert Y. induction X as [|x X Hx IH] using set_ind_L; intros Y HXY.
  { by rewrite (left_id_L ∅ (∪)), gset_to_gmap_empty, weight_empty. }
  rewrite <-(assoc_L (∪)), !gset_to_gmap_union_singleton.
  rewrite !weight_insert_new; [rewrite IH; [lia|set_solver]|..];
    apply lookup_gset_to_gmap_None; set_solver.
Qed.

Lemma set_weight_mono X Y : X ⊆ Y → set_weight X <= set_weight Y.
Proof.
  intros HXY. rewrite (union_difference_L X Y HXY), set_weight_union by set_solver.
  pose proof (set_weight_nonneg (Y ∖ X)). lia.
Qed.

Lemma sum_lens_nodup l :
  NoDup l → set_weight (list_to_set l) < 2 ^ 64 → sum_lens l = set_weight (list_to_set l).
Proof.
  unfold sum_lens. induction l as [|m l IH] using rev_ind; intros Hnd Hw.
  { unfold set_weight. cbn. by rewrite gset_to_gmap_empty, weight_empty. }
  apply NoDup_app in Hnd as (Hl & Hm & _). rewrite list_to_set_app_L in Hw |- *. cbn in Hw |- *.
  rewrite (right_id_L ∅ (∪)) in Hw |- *.
  assert (list_to_set l ## ({[m]} : keyset)) by set_solver.
  rewrite set_weight_union, set_weight_singleton in Hw |- * by done.
  rewrite foldl_app. cbn. rewrite IH by (done || lia). apply wrap_id.
  pose proof (set_weight_nonneg (list_to_set l)). unfold in_width. lia.
Qed.

Lemma size_dom_Z (F : kvmap) : Z.of_nat (size F) = Z.of_nat (size (dom F)).
Proof. by rewrite size_dom. Qed.

Lemma size_split (X Y : keyset) : (size X = size (X ∖ Y) + size (X ∩ Y))%nat.
Proof.
  rewrite <-size_union by set_solver. f_equal. apply set_eq. intros x.
  destruct (decide (x ∈ Y)); set_solver.
Qed.

Section SetProofs.
Context `{HI : HashIter} (st : store) (slot : Z) (key : bytes).
Abbreviation a := (mkAddr (st_ns st) slot key).
Context (Ha : addr_wf a).

(** What an operation made of the set, at every instant. *)
Definition set_turns (X X' : keyset) (w w' : world kvmap) : Prop :=
  ∀ now, set_at a now (w_kv w) X → set_at a now (w_kv w') X'.
Definition set_makes (X X' : keyset) (w w' : world kvmap) : Prop :=
  ∀ now, X = ∅ ∨ set_at a now (w_kv w) X → set_at a now (w_kv w') X'.

Lemma set_at_repr now now' m X H :
  repr TSet member_weight a now m H → dom (contents H) = X →
  set_at a now' m X → repr TSet member_weight a now' m H.
Proof.
  intros HH HX (H' & HH' & HX'). destruct H as [F|], H' as [F'|]; cbn [contents] in *.
  - destruct HH as (Hne & meta & (row & Hrow & Hl & Hd) & HF & Hs & Hb).
    destruct HH' as (Hne' & meta' & (row' & Hrow' & Hl' & Hd') & HF' & Hs' & Hb').
    split; [done|]. assert (row' = row) by congruence. subst row'.
    assert (meta' = meta) by congruence. subst meta'. exists meta. split_and!; eauto.
  - destruct HH as [Hne _]. destruct Hne. apply dom_empty_iff_L. rewrite HX, <-HX'. apply dom_empty_L.
  - destruct HH' as [Hne _]. destruct Hne. apply dom_empty_iff_L. rewrite HX', <-HX. apply dom_empty_L.
  - done.
Qed.

Lemma contents_empty now m H : repr TSet member_weight a now m H → dom (contents H) = (∅ : keyset) → H = None.
Proof.
  destruct H as [F|]; [|done]. cbn. intros [Hne _] E%dom_empty_iff_L. done.
Qed.

Lemma turns_set H H' X X' w w' :
  repr TSet member_weight a (w_clock w 0%nat) (w_kv w) H →
  dom (contents H) = X → dom (contents H') = X' →
  turns TSet member_weight a H H' w w' → set_turns X X' w w'.
Proof.
  intros HH HX HX' Ht now Hnow. exists H'. split; [|done]. apply Ht. by eapply set_at_repr.
Qed.

Lemma makes_set H F' X X' w w' :
  repr TSet member_weight a (w_clock w 0%nat) (w_kv w) H →
  dom (contents H) = X → dom F' = X' →
  makes TSet member_weight a H F' w w' → set_makes X X' w w'.
Proof.
  intros HH HX HX' Ht now Hnow. exists (Some F'). split; [|done]. apply Ht.
  destruct Hnow as [->|Hnow]; [left|right].
  - by eapply contents_empty.
  - by eapply set_at_repr.
Qed.

Lemma wp_sadd_scan v members w Q :
  let X := dom (rows_at Subkey a v (w_kv w)) in
  (∀ seen fresh, NoDup fresh → list_to_set fresh = (list_to_set members : keyset) ∖ X →
     Q (seen, fresh) w) →
  wp (fold_ members (sadd_scan st slot key v) (∅, [])) w Q.
Proof.
  intros X HQ.
  apply (wp_fold (λ l' acc w', w' = w ∧ NoDup acc.2 ∧ list_to_set acc.2 = acc.1 ∖ X ∧
    acc.1 ∪ list_to_set l' = (list_to_set members : keyset))).
  - split_and!; [done|constructor|set_solver|set_solver].
  - intros m l' [seen fresh] w' (-> & Hnd & Hf & E). cbn [fst snd] in *. unfold sadd_scan.
    eapply wp_unwrap; [by apply (skey_ok a)|]. cbn [fst snd]. case_decide as Hm.
    { wp_op. split_and!; [done..|]. cbn in *. set_solver. }
    wp_op. wp_op. cbn [fst snd]. rewrite <-lookup_rows_at.
    destruct (rows_at _ _ _ _ !! m) as [x|] eqn:Ex.
    + apply elem_of_dom_2 in Ex. split_and!; [done..| |]; cbn in *; set_solver.
    + apply not_elem_of_dom in Ex. split_and!; [done| |..].
      * apply NoDup_app. split_and!; [done| |apply NoDup_singleton]. set_solver.
      * rewrite list_to_set_app_L. cbn. set_solver.
      * cbn in *. set_solver.
  - intros [seen fresh] w' (-> & Hnd & Hf & E). cbn in *. apply HQ; [done|].
    rewrite Hf. set_solver.
Qed.

Lemma fresh_rows_dom (fresh : list bytes) (F : kvmap) :
  dom (list_to_map ((λ m, (m, [])) <$> fresh) ∪ F) = list_to_set fresh ∪ dom F.
Proof.
  rewrite dom_union_L. f_equal. rewrite dom_list_to_map_L. f_equal.
  induction fresh; cbn; congruence.
Qed.

Lemma wp_sadd members (X Y : keyset) w Q :
  Y = list_to_set members → members ≠ [] →
  env_ok w → headroom w → set_at a (w_clock w 0%nat) (w_kv w) X →
  set_weight (X ∪ Y) < 2 ^ 64 → Z.of_nat (size (X ∪ Y)) < 2 ^ 32 →
  (∀ r w', effect a w w' →
     (if st_max st <? set_weight (X ∪ Y)
      then r = Err ValueTooLarge ∧ set_turns X X w w'
      else r = Ok (Z.of_nat (size (Y ∖ X))) ∧ set_makes X (X ∪ Y) w w') → Q r w') →
  wp (sadd st slot key members) w Q.
Proof.
  intros EY Hne Henv Hroom (H & HH & HX) Hw Hs HQ. unfold sadd. apply wp_try.
  apply (wp_meta_or_new TSet member_weight st slot key H); [done..|].
  intros meta w1 [Hb Hv64 Hrows Hsize Hbytes Hver He Hrepr]. apply wp_bind.
  apply wp_sadd_scan. rewrite Hrows, HX, <-EY. intros seen fresh Hnd Hfresh. cbn [snd].
  assert (Hsplit : X ∪ Y = X ∪ Y ∖ X) by (apply set_eq; intros x; destruct (decide (x ∈ X)); set_solver).
  assert (Hsum : sum_lens fresh = set_weight (Y ∖ X)).
  { rewrite <-Hfresh. apply sum_lens_nodup; [done|]. rewrite Hfresh.
    pose proof (set_weight_mono (Y ∖ X) (X ∪ Y) ltac:(set_solver)). lia. }
  assert (Htot : c_bytes meta + sum_lens fresh = set_weight (X ∪ Y)).
  { rewrite Hbytes, weight_dom, HX, Hsum, Hsplit, set_weight_union by set_solver. lia. }
  assert (Hlen : len fresh = Z.of_nat (size (Y ∖ X))).
  { rewrite <-Hfresh. by rewrite size_list_to_set. }
  assert (Hsz : Z.of_nat (size (X ∪ Y)) = Z.of_nat (size X) + Z.of_nat (size (Y ∖ X))).
  { rewrite Hsplit, size_union by set_solver. lia. }
  pose proof (set_weight_nonneg (X ∪ Y)).
  rewrite Htot, wrap_id by (unfold in_width; lia).
  destruct (st_max st <? set_weight (X ∪ Y)).
  { wp_op. apply HQ; [done|]. split; [done|]. by eapply turns_set. }
  apply wp_bind. apply (wp_put_fields a); [done|done|done|apply He| |].
  { replace (((λ m, (m, [])) <$> fresh).*1) with fresh; [done|]. clear. induction fresh; cbn; congruence. }
  rewrite Hrows. intros w2 Hrw. wp_op. wp_op. wp_op.
  pose proof (fresh_rows_dom fresh (contents H)) as Hdom.
  set (G := list_to_map ((λ m, (m, [])) <$> fresh) ∪ contents H) in *.
  assert (HG : dom G = X ∪ Y) by (rewrite Hdom, Hfresh, HX; set_solver).
  rewrite Hlen, Hsize, size_dom_Z, HX.
  rewrite (wrap_id 32 (Z.of_nat (size (Y ∖ X)))) by (unfold in_width; lia).
  rewrite wrap_id by (unfold in_width; lia). rewrite <-Hsz.
  apply HQ.
  - apply close_effect. eapply effect_trans; [done|]. by eapply rows_written_effect.
  - split; [done|]. eapply makes_set; [done..|]. intros now Hnow.
    apply close_repr; [by apply Hb|apply Hrw| | | |unfold in_width; lia|unfold in_width; lia|].
    + intros E. rewrite E, dom_empty_L in HG. destruct members as [|m members]; [done|].
      cbn in EY. set_solver.
    + by rewrite <-HG, size_dom.
    + by rewrite weight_dom, HG.
    + apply clock_ok_64. eapply effect_clocks; [by eapply rows_written_effect|].
      eapply effect_clocks; [done|]. apply Henv.
Qed.

Lemma dom_without l (F : kvmap) : dom (without l F) = dom F ∖ list_to_set l.
Proof.
  apply set_eq. intros k. rewrite elem_of_difference, !elem_of_dom, lookup_without, elem_of_list_to_set.
  case_decide; [|naive_solver]. split; [by intros [??]|tauto].
Qed.

Lemma wp_srem_loop members meta F now w Q :
  holds_meta TSet member_weight a now (w_kv w) meta F → env_ok w →
  (∀ G w', rows_written a (c_version meta) G w w' → G = without members F →
     Q (Z.of_nat (size F) - Z.of_nat (size G), weight member_weight G) w') →
  wp (fold_ members (srem_member st slot key (c_version meta)) (0, c_bytes meta)) w Q.
Proof.
  intros Hm Henv HQ. destruct (holds_widths _ _ _ _ _ _ _ Hm) as (HF32 & HF64 & Hb).
  destruct Hm as (_ & HF & Hs & Hby).
  apply (wp_fold (λ l' acc w', ∃ G, rows_written a (c_version meta) G w w' ∧
    acc = (Z.of_nat (size F) - Z.of_nat (size G), weight member_weight G) ∧
    without l' G = without members F ∧ (size G ≤ size F)%nat)).
  - exists F. rewrite <-HF at 1. split_and!; [apply rows_written_refl, Henv| |done..].
    rewrite Hby. f_equal. lia.
  - intros m l' acc w' (G & Hrw & -> & E & Hsz). unfold srem_member.
    eapply wp_unwrap; [by apply (skey_ok a)|]. wp_op. wp_op.
    rewrite <-lookup_rows_at, (rw_rows _ _ _ _ _ Hrw).
    rewrite <-without_cons in E. pose proof (size_delete G m) as Hsd.
    exists (delete m G). split_and!; [|..|done|destruct (G !! m); lia].
    { apply rows_written_delete; try done; apply Hb. }
    destruct (G !! m) as [x|] eqn:Em.
    + pose proof (weight_delete member_weight G m x Em) as Hwd.
      pose proof (weight_nonneg member_weight member_weight_pos (delete m G)).
      unfold member_weight at 2 in Hwd. rewrite bool_decide_true by done. cbn [fst snd].
      rewrite wrap_id by (unfold in_width in *; lia). unfold saturating_sub. f_equal; lia.
    + rewrite bool_decide_false by (intros [? ?]; done). by rewrite delete_id.
  - intros acc w' (G & Hrw & -> & E & _). rewrite without_nil in E. by apply HQ.
Qed.

Lemma wp_srem members (X Y : keyset) w Q :
  Y = list_to_set members →
  env_ok w → set_at a (w_clock w 0%nat) (w_kv w) X →
  (∀ w', effect a w w' → set_turns X (X ∖ Y) w w' →
     Q (Ok (Z.of_nat (size (X ∩ Y)))) w') →
  wp (srem st slot key members) w Q.
Proof.
  intros -> Henv (H & HH & HX) HQ. unfold srem. apply wp_try.
  apply (wp_read_holds TSet member_weight st slot key H); [done..|].
  intros [meta|] w1 (Henv1 & He & El & Hr) Hread.
  - destruct Hread as (F & -> & Hne & Hm). apply wp_bind. cbn [contents] in HX.
    apply (wp_srem_loop members meta F (w_clock w 0%nat)); [done..|].
    intros G w2 Hrw ->. pose proof (dom_without members F) as Hd. rewrite HX in Hd.
    apply (wp_finish_removal TSet member_weight st slot key members (w_clock w 0%nat) meta F w w1);
      [apply member_weight_pos|done..|].
    intros w' He' Hr'. rewrite !size_dom_Z, Hd, HX.
    replace (Z.of_nat (size X) - Z.of_nat (size (X ∖ list_to_set members))) with
      (Z.of_nat (size (X ∩ list_to_set members))).
    2:{ rewrite (size_split X (list_to_set members)). lia. }
    apply HQ; [done|]. eapply turns_set; [done..| |intros now Hnow; apply Hr'; by apply Hr].
    case_decide as E; cbn [contents]; [|done]. by rewrite <-Hd, E.
  - subst H. wp_op. cbn [contents] in HX.
    assert (HX0 : X = (∅ : keyset)) by (rewrite <-HX; apply dom_empty_L). clear HX. subst X.
    assert (E : (∅ : keyset) ∩ list_to_set members = ∅) by set_solver.
    rewrite E, size_empty in HQ. apply HQ; [done|].
    eapply (turns_set None None); [done|apply dom_empty_L| |done].
    cbn. rewrite dom_empty_L. set_solver.
Qed.

(** ** Reads *)

(** A read that leaves the set as it was, at every instant it was there. *)
Definition set_read (X : keyset) (w w' : world kvmap) : Prop :=
  env_ok w' ∧ effect a w w' ∧ w_last w' = w_last w ∧ set_turns X X w w'.

Lemma wp_set_meta (X : keyset) w Q :
  env_ok w → set_at a (w_clock w 0%nat) (w_kv w) X →
  (∀ o w', set_read X w w' →
     match o with
     | None => X = ∅
     | Some meta => X ≠ ∅ ∧ ∃ F, dom F = X ∧
         holds_meta TSet member_weight a (w_clock w 0%nat) (w_kv w') meta F
     end → Q (Ok o) w') →
  wp (set_read_meta st slot key) w Q.
Proof.
  intros Henv (H & HH & HX) HQ. apply (wp_read_holds TSet member_weight st slot key H); [done..|].
  intros o w' (Henv' & He & El & Hr) Ho. apply HQ.
  - split_and!; try done. by eapply turns_set.
  - destruct o as [meta|].
    + destruct Ho as (F & -> & Hne & Hm). cbn in HX. subst X. split; [|eauto].
      by intros ?%dom_empty_iff_L.
    + subst H. cbn in HX. rewrite <-HX. apply dom_empty_L.
Qed.

Lemma set_read_trans X w1 w2 w3 : set_read X w1 w2 → set_read X w2 w3 → set_read X w1 w3.
Proof.
  intros (_ & He & El & Hr) (Henv & He' & El' & Hr').
  split_and!; [done|by eapply effect_trans|congruence|]. intros now Hnow. auto.
Qed.

Lemma wp_sismember member (X : keyset) w Q :
  env_ok w → set_at a (w_clock w 0%nat) (w_kv w) X →
  (∀ w', set_read X w w' → Q (Ok (bool_decide (member ∈ X))) w') →
  wp (sismember st slot key member) w Q.
Proof.
  intros Henv HX HQ. unfold sismember. apply wp_try. apply (wp_set_meta X); [done..|].
  intros [meta|] w' Hr Ho.
  - destruct Ho as (_ & F & HF & Hm). eapply wp_unwrap; [by apply (skey_ok a)|].
    wp_op. wp_op. rewrite (holds_lookup _ _ _ _ _ _ _ _ Hm).
    rewrite (bool_decide_ext _ (member ∈ X)); [by apply HQ|]. by rewrite <-HF, elem_of_dom.
  - subst X. wp_op. specialize (HQ w' Hr). by rewrite bool_decide_false in HQ by set_solver.
Qed.

Lemma wp_smembers (X : keyset) w Q :
  env_ok w → set_at a (w_clock w 0%nat) (w_kv w) X →
  (∀ l w', set_read X w w' → list_to_set l = X → NoDup l → StronglySorted (λ x y, blt x y = true) l →
     Q (Ok l) w') →
  wp (smembers st slot key) w Q.
Proof.
  intros Henv HX HQ. unfold smembers. apply wp_try. apply (wp_set_meta X); [done..|].
  intros [meta|] w' Hr Ho.
  - destruct Ho as (_ & F & HF & (_ & Hrows & _)). eapply wp_unwrap; [by apply (sprefix_ok a)|].
    wp_op. wp_op.
    rewrite map_drop_keys. unfold rows_at in Hrows. rewrite Hrows.
    apply HQ; [done|..].
    + rewrite <-HF. apply set_eq. intros x. rewrite elem_of_list_to_set, elem_of_dom, list_elem_of_fmap.
      split; [intros ([k v] & -> & Hin)|intros [v Hv]; exists (x, v)].
      * apply elem_of_rows_of in Hin. eauto.
      * by rewrite elem_of_rows_of.
    + apply NoDup_rows_of.
    + apply ascending_keys, ascending_rows_of.
  - subst X. wp_op. apply HQ; [done|set_solver|constructor..].
Qed.
End SetProofs.

(** ** Random picks *)

Lemma swap_permutation {A} (l : list A) i j : swap l i j ≡ₚ l.
Proof.
  unfold swap. destruct (l !! i) as [x|] eqn:Ei; [|done]. destruct (l !! j) as [y|] eqn:Ej; [|done].
  pose proof (lookup_lt_Some _ _ _ Ei). pose proof (lookup_lt_Some _ _ _ Ej).
  apply Permutation_inj. rewrite !length_insert. split; [done|].
  exists (λ k, if decide (k = i) then j else if decide (k = j) then i else k). split.
  - intros k k'. repeat case_decide; congruence.
  - intros k. destruct (decide (k = j)) as [->|Hj].
    + rewrite list_lookup_insert_eq by (by rewrite length_insert).
      destruct (decide (j = i)) as [->|]; by rewrite ?decide_True.
    + rewrite list_lookup_insert_ne by done. destruct (decide (k = i)) as [->|Hi].
      * by rewrite list_lookup_insert_eq.
      * by rewrite list_lookup_insert_ne.
Qed.

(** Only the random stream is consumed. *)
Definition rolled (w w' : world kvmap) : Prop :=
  ∃ r, w' = World (w_kv w) (w_clock w) (w_last w) r.

Lemma rolled_refl w : rolled w w.
Proof. exists (w_random w). by destruct w. Qed.

(** What may be picked: for a count of 0 or more, distinct positions, as many
    as there are up to the count; for a negative one, that many items. *)
Definition picked_ok {A} (items : list A) (count : Z) (picked : list A) : Prop :=
  if 0 <=? count then
    len picked = Z.min count (len items) ∧ ∃ rest, items ≡ₚ picked ++ rest
  else
    Forall (.∈ items) picked ∧ (items ≠ [] → len picked = - count).

Lemma wp_random_pick {A} (items : list A) count w Q :
  (∀ picked w', rolled w w' → picked_ok items count picked → Q picked w') →
  wp (random_pick items count) w Q.
Proof.
  intros HQ. unfold random_pick. destruct items as [|x0 items0] eqn:E.
  { apply wp_ret, HQ; [apply rolled_refl|]. unfold picked_ok.
    destruct (Z.leb_spec 0 count); [|done]. cbn. split; [lia|by exists []]. }
  rewrite <-E in *. assert (Hne : (0 < length items)%nat) by (rewrite E; cbn; lia). clear E.
  destruct (Z.leb_spec 0 count) as [Hc|Hc].
  - apply wp_bind.
    apply (wp_fold (λ _ l w', rolled w w' ∧ l ≡ₚ items)); [by split; [apply rolled_refl|]|..].
    + intros i l' l w' [[r ->] Hl]. wp_op. wp_op. split; [by eexists|].
      by rewrite swap_permutation.
    + intros l w' [Hw Hl]. wp_op. apply HQ; [done|]. unfold picked_ok.
      destruct (Z.leb_spec 0 count); [|lia]. pose proof (Permutation_length Hl) as Hlen. split.
      * rewrite length_take. lia.
      * exists (drop (Z.to_nat (Z.min count (len items))) l). by rewrite take_drop.
  - apply (wp_fold (λ l' out w', rolled w w' ∧ Forall (.∈ items) out ∧
      (length out + length l' = Z.to_nat (- count))%nat)).
    + split_and!; [apply rolled_refl|constructor|]. by rewrite length_seq.
    + intros i l' out w' ([r ->] & Hf & Hlen). wp_op.
      set (n := Z.to_nat (r 0%nat mod len items)).
      destruct (lookup_lt_is_Some_2 items n) as [x Hx].
      { pose proof (Z.mod_pos_bound (r 0%nat) (len items)). unfold n. lia. }
      eapply wp_unwrap; [done|]. wp_op. split_and!; [by eexists| |].
      * apply Forall_app. split; [done|]. apply Forall_singleton. by eapply list_elem_of_lookup_2.
      * rewrite length_app. cbn in *. lia.
    + intros out w' (Hw & Hf & Hlen). apply HQ; [done|]. unfold picked_ok. cbn in Hlen.
      destruct (Z.leb_spec 0 count); [lia|]. split; [done|]. lia.
Qed.

Lemma rolled_env w w' : rolled w w' → env_ok w → env_ok w'.
Proof. intros [r ->] [Hc Hf]. by constructor. Qed.

Lemma rolled_effect a w w' : rolled w w' → env_ok w → effect a w w'.
Proof. intros [r ->] [Hc Hf]. constructor; cbn; auto with flint; [by exists 0%nat|lia]. Qed.

(** ** Operations over one set that read it more than once *)

Section SetComposite.
Context `{HI : HashIter} (st : store) (slot : Z) (key : bytes).
Abbreviation a := (mkAddr (st_ns st) slot key).
Context (Ha : addr_wf a).

(** The set is [X] at every reading of the clock still to come. *)
Definition stable (X : keyset) (w : world kvmap) : Prop :=
  ∀ n, set_at a (w_clock w n) (w_kv w) X.

Lemma stable_read X w w' : set_read st slot key X w w' → stable X w → stable X w'.
Proof.
  intros (_ & [[d Hd] _ _ _] & _ & Ht) HX n. rewrite Hd. apply Ht, HX.
Qed.

Lemma set_read_refl X w : env_ok w → set_read st slot key X w w.
Proof. intros Henv. split_and!; [done|apply effect_refl, Henv|done|by intros ?]. Qed.

Lemma set_at_size now m X : set_at a now m X → Z.of_nat (size X) < 2 ^ 32.
Proof.
  intros (H & HH & <-). destruct H as [F|]; cbn [contents].
  - destruct HH as (_ & meta & Hm). apply holds_widths in Hm as (Hs & _). rewrite size_dom.
    unfold in_width in Hs. lia.
  - rewrite dom_empty_L. done.
Qed.

Lemma wp_smismember members (X : keyset) w Q :
  env_ok w → stable X w →
  (∀ w', set_read st slot key X w w' → Q (Ok ((λ m, bool_decide (m ∈ X)) <$> members)) w') →
  wp (smismember st slot key members) w Q.
Proof.
  unfold smismember. revert w Q. induction members as [|m members IH]; intros w Q Henv HX HQ; cbn [collect_].
  { wp_op. by apply HQ, set_read_refl. }
  apply wp_try. apply (wp_sismember st slot key Ha m X); [done|apply HX|]. intros w1 Hr1.
  apply wp_try. apply IH; [apply Hr1|by eapply stable_read|]. intros w2 Hr2. wp_op.
  apply HQ. by eapply set_read_trans.
Qed.

Lemma wp_scard (X : keyset) w Q :
  env_ok w → set_at a (w_clock w 0%nat) (w_kv w) X →
  (∀ w', set_read st slot key X w w' → Q (Ok (Z.of_nat (size X))) w') →
  wp (scard st slot key) w Q.
Proof.
  intros Henv HX HQ. unfold scard. apply wp_try. apply (wp_set_meta st slot key X); [done..|].
  intros [meta|] w' Hr Ho; wp_op.
  - destruct Ho as (_ & F & <- & (_ & _ & Hs & _)). rewrite Hs, size_dom_Z. by apply HQ.
  - subst X. rewrite size_empty in HQ. by apply HQ.
Qed.

Lemma wp_srandmember count (X : keyset) w Q :
  env_ok w → set_at a (w_clock w 0%nat) (w_kv w) X →
  (∀ l picked w', effect a w w' → set_turns st slot key X X w w' →
     list_to_set l = X → NoDup l → picked_ok l count picked → Q (Ok picked) w') →
  wp (srandmember st slot key count) w Q.
Proof.
  intros Henv HX HQ. unfold srandmember. apply wp_try. apply (wp_smembers st slot key Ha X); [done..|].
  intros l w1 (Henv1 & He & _ & Ht) Hl Hnd _. apply wp_bind. apply wp_random_pick.
  intros picked w2 Hroll Hp. wp_op. apply (HQ l); try done.
  - eapply effect_trans; [done|]. by apply rolled_effect.
  - destruct Hroll as [r ->]. done.
Qed.

Lemma wp_spop count (X : keyset) w Q :
  0 <= count → env_ok w → stable X w →
  (∀ picked w', effect a w w' → NoDup picked → list_to_set picked ⊆ X →
     len picked = Z.min count (Z.of_nat (size X)) →
     set_turns st slot key X (X ∖ list_to_set picked) w w' → Q (Ok picked) w') →
  wp (spop st slot key count) w Q.
Proof.
  intros Hcount Henv HX HQ. unfold spop.
  assert (Hnil : ∀ w', effect a w w' → (count = 0 ∨ X = ∅) → set_turns st slot key X X w w' → Q (Ok []) w').
  { intros w' He Hor Ht. apply HQ; [done|constructor|cbn; set_solver| |].
    - cbn. destruct Hor as [->| ->]; [lia|]. rewrite size_empty. lia.
    - cbn. by rewrite difference_empty_L. }
  destruct (Z.eqb_spec count 0) as [->|Hc].
  { wp_op. apply Hnil; [apply effect_refl, Henv|by left|by intros ?]. }
  apply wp_try. apply (wp_smembers st slot key Ha X); [done|apply HX|].
  intros l w1 (Henv1 & He & El & Ht) Hl Hnd _. apply wp_bind. apply wp_random_pick.
  intros picked w2 Hroll Hp.
  assert (Hsize : len l = Z.of_nat (size X)) by (rewrite <-Hl; by rewrite size_list_to_set).
  assert (Hi : i64 (Z.min count (len l)) = Z.min count (len l)).
  { pose proof (set_at_size _ _ _ (HX 0%nat)). apply signed_id. lia. }
  rewrite Hi in Hp. unfold picked_ok in Hp.
  destruct (Z.leb_spec 0 (Z.min count (len l))); [|lia].
  destruct Hp as (Hlen & rest & Hperm).
  assert (Hsub : list_to_set picked ⊆ X).
  { rewrite <-Hl, Hperm, list_to_set_app_L. set_solver. }
  assert (Hndp : NoDup picked) by (rewrite Hperm in Hnd; by apply NoDup_app in Hnd as [? _]).
  assert (Hst2 : stable X w2 ∧ set_turns st slot key X X w w2 ∧ effect a w w2).
  { pose proof (rolled_effect a _ _ Hroll Henv1). destruct Hroll as [r ->]. split_and!; [|done|by eapply effect_trans].
    intros n. destruct (eff_clock _ _ _ He) as [d Hd]. cbn. rewrite Hd. apply Ht, HX. }
  destruct Hst2 as (HX2 & Ht2 & He2).
  destruct picked as [|p0 picked0] eqn:E.
  { wp_op. apply Hnil; [done| |done]. right. cbn in Hlen.
    apply size_empty_inv_L || (apply leibniz_equiv, size_empty_inv). lia. }
  rewrite <-E in *. apply wp_try.
  apply (wp_srem st slot key Ha picked X (list_to_set picked)); [done|by eapply rolled_env|apply HX2|].
  intros w3 He3 Ht3. wp_op. apply HQ; try done; [by eapply effect_trans|lia|].
  intros now Hnow. by apply Ht3, Ht2.
Qed.
End SetComposite.

(** ** Operations over several sets of one slot *)

Lemma hash_keys `{HI : HashIter} (Y : keyset) :
  list_to_set (hash_iter (gset_to_gmap tt Y)).*1 = Y.
Proof.
  apply set_eq. intros x. rewrite elem_of_list_to_set, hash_iter_perm, list_elem_of_fmap.
  split.
  - intros ([k []] & -> & Hin). apply elem_of_map_to_list, lookup_gset_to_gmap_Some in Hin.
    by destruct Hin.
  - intros Hx. exists (x, tt). split; [done|]. by apply elem_of_map_to_list, lookup_gset_to_gmap_Some.
Qed.

Section SetKeys.
Context `{HI : HashIter} (st : store) (slot : Z).
Abbreviation adr k := (mkAddr (st_ns st) slot k).

Lemma set_at_frame a a' now m m' X :
  addr_wf a → addr_wf a' → a ≠ a' → frame a m m' → set_at a' now m X → set_at a' now m' X.
Proof.
  intros ???? (H & HH & HX). exists H. split; [|done]. by apply (repr_frame _ _ a a' now m).
Qed.

(** What every key of a list holds, at every reading of the clock to come. *)
Definition hold_all (X : bytes → keyset) (keys : list bytes) (w : world kvmap) : Prop :=
  ∀ k, k ∈ keys → stable st slot k (X k) w.

(** A multi-key read: the sets are what they were and rows of other keys are
    untouched. *)
Definition reads (X : bytes → keyset) (keys : list bytes) (w w' : world kvmap) : Prop :=
  env_ok w' ∧ w_last w' = w_last w ∧ (∃ d, ∀ n, w_clock w' n = w_clock w (d + n)%nat) ∧
  (∀ k now, k ∈ keys → set_at (adr k) now (w_kv w) (X k) → set_at (adr k) now (w_kv w') (X k)) ∧
  (∀ b, (∀ k, k ∈ keys → ¬ owned (adr k) b) → w_kv w' !! b = w_kv w !! b).

Lemma reads_refl X keys w : env_ok w → reads X keys w w.
Proof. intros. split_and!; [done|done|by exists 0%nat|done|done]. Qed.

Lemma reads_trans X keys w1 w2 w3 : reads X keys w1 w2 → reads X keys w2 w3 → reads X keys w1 w3.
Proof.
  intros (_ & El & [d Hd] & Hk & Hb) (Henv & El' & [d' Hd'] & Hk' & Hb').
  split_and!; [done|congruence| |auto|intros b Hn; rewrite Hb', Hb; done].
  exists (d + d')%nat. intros n. rewrite Hd', Hd. f_equal. lia.
Qed.

Lemma hold_all_reads X keys w w' : reads X keys w w' → hold_all X keys w → hold_all X keys w'.
Proof. intros (_ & _ & [d Hd] & Hk & _) H k Hin n. rewrite Hd. by apply Hk, H. Qed.

Context (keys : list bytes) (X : bytes → keyset) (Hkeys : ∀ k, k ∈ keys → addr_wf (adr k)).

Lemma read_reads k w w' : k ∈ keys → set_read st slot k (X k) w w' → reads X keys w w'.
Proof.
  intros Hk (Henv & [Hd Hl Hf Hfr] & El & Ht). split_and!; [done..| |auto].
  intros k' now Hk' Hat. destruct (decide (k' = k)) as [->|Hne]; [by apply Ht|].
  apply (set_at_frame (adr k) (adr k') now (w_kv w)); auto. congruence.
Qed.

Lemma wp_read_all l w Q :
  (∀ k, k ∈ l → k ∈ keys) → env_ok w → hold_all X keys w →
  (∀ x w', reads X keys w w' → Q (Ok x) w') →
  wp (collect_ l (set_read_meta st slot)) w Q.
Proof.
  revert w Q. induction l as [|k l IH]; intros w Q Hl Henv HX HQ; cbn [collect_].
  { wp_op. by apply HQ, reads_refl. }
  assert (k ∈ keys) by (apply Hl; by constructor).
  apply wp_try. apply (wp_set_meta st slot k (X k)); [done|by apply HX|]. intros o w1 Hr1 _.
  apply read_reads in Hr1; [|done]. apply wp_try.
  apply IH; [intros; apply Hl; by constructor|apply Hr1|by eapply hold_all_reads|].
  intros x w2 Hr2. wp_op. apply HQ. by eapply reads_trans.
Qed.

(** An empty intersection or difference stays empty. *)
Lemma sop_absorb op l : op ≠ Union → foldl (sop_step op) ∅ (X <$> l) = ∅.
Proof.
  intros Hop. induction l as [|k l IH]; [done|]. cbn.
  replace (sop_step op ∅ (X k)) with (∅ : keyset); [done|]. destruct op; cbn; set_solver.
Qed.

Lemma wp_sop_loop op l acc w Q :
  (∀ k, k ∈ l → k ∈ keys) → env_ok w → hold_all X keys w →
  (∀ w', reads X keys w w' → Q (Ok (foldl (sop_step op) acc (X <$> l))) w') →
  wp (sop_loop st slot op acc l) w Q.
Proof.
  revert acc w Q. induction l as [|k l IH]; intros acc w Q Hl Henv HX HQ; cbn [sop_loop].
  { wp_op. by apply HQ, reads_refl. }
  assert (Hk : k ∈ keys) by (apply Hl; by constructor).
  apply wp_try. apply (wp_smembers st slot k (Hkeys k Hk) (X k)); [done|by apply HX|].
  intros m w1 Hr1 -> _ _. apply read_reads in Hr1; [|done]. cbn [fmap list_fmap foldl] in HQ.
  case_decide as Hd.
  - destruct Hd as [E Hop]. wp_op. rewrite E. rewrite E, sop_absorb in HQ by done. by apply HQ.
  - apply IH; [intros; apply Hl; by constructor|apply Hr1|by eapply hold_all_reads|].
    intros w2 Hr2. apply HQ. by eapply reads_trans.
Qed.

Lemma wp_sop op first rest w Q :
  keys = first :: rest → env_ok w → hold_all X keys w →
  (∀ l w', reads X keys w w' → NoDup l →
     list_to_set l = foldl (sop_step op) (X first) (X <$> rest) → Q (Ok l) w') →
  wp (sop st slot op keys) w Q.
Proof.
  intros E Henv HX HQ. unfold sop. rewrite E, <-E.
  assert (Hf : first ∈ keys) by (rewrite E; by constructor).
  apply wp_try. apply wp_read_all; [auto..|]. intros _ w1 Hr1.
  apply wp_try. apply (wp_smembers st slot first (Hkeys first Hf) (X first));
    [apply Hr1|by apply (hold_all_reads _ _ _ _ Hr1 HX)|].
  intros m w2 Hr2 -> _ _. apply read_reads in Hr2; [|done].
  assert (Hr : reads X keys w w2) by (by eapply reads_trans).
  apply wp_try. apply wp_sop_loop; [|apply Hr|by eapply hold_all_reads|].
  { intros k Hk. rewrite E. by constructor. }
  intros w3 Hr3. wp_op. apply HQ; [by eapply reads_trans|apply NoDup_hash_iter|].
  apply hash_keys.
Qed.
End SetKeys.

Section SetMoves.
Context `{HI : HashIter} (st : store) (slot : Z).
Abbreviation adr k := (mkAddr (st_ns st) slot k).

Lemma stable_set_at k X w n : stable st slot k X w → set_at (adr k) (w_clock w n) (w_kv w) X.
Proof. auto. Qed.

(** A key another key's operation leaves alone. *)
Lemma stable_effect k k' X w w' :
  addr_wf (adr k) → addr_wf (adr k') → k ≠ k' → effect (adr k) w w' →
  stable st slot k' X w → stable st slot k' X w'.
Proof.
  intros Hk Hk' Hne [[d Hd] _ _ Hfr] HX n. rewrite Hd.
  apply (set_at_frame (adr k) (adr k') _ (w_kv w)); auto. congruence.
Qed.

Lemma stable_turns k X X' w w' :
  effect (adr k) w w' → set_turns st slot k X X' w w' →
  stable st slot k X w → stable st slot k X' w'.
Proof. intros [[d Hd] _ _ _] Ht HX n. rewrite Hd. apply Ht, HX. Qed.

Lemma makes_turns k X X' w w' : set_makes st slot k X X' w w' → set_turns st slot k X X' w w'.
Proof. intros Hm now Hnow. apply Hm. auto. Qed.

(** SMOVE's answer, and what the keys hold after. *)
Definition smove_spec (max : Z) (src dst member : bytes) (X : bytes → keyset)
    : result bool * (bytes → keyset) :=
  if decide (member ∈ X src) then
    if decide (src = dst) then (Ok true, X)
    else if max <? set_weight (X dst ∪ {[member]}) then (Err ValueTooLarge, X)
    else (Ok true, λ k, if decide (k = src) then X src ∖ {[member]}
                        else if decide (k = dst) then X dst ∪ {[member]} else X k)
  else (Ok false, X).

(** An operation over two keys: what they hold after, and nothing else moved. *)
Definition two_keys (src dst : bytes) (X' : bytes → keyset) (w w' : world kvmap) : Prop :=
  env_ok w' ∧ hold_all st slot X' [src; dst] w' ∧
  (∀ b, ¬ owned (adr src) b → ¬ owned (adr dst) b → w_kv w' !! b = w_kv w !! b).

Lemma reads_two src dst X w w' :
  reads st slot X [src; dst] w w' → hold_all st slot X [src; dst] w → two_keys src dst X w w'.
Proof.
  intros Hr HX. split_and!; [apply Hr|by eapply hold_all_reads|].
  destruct Hr as (_ & _ & _ & _ & Hb). intros b Hs Hd. apply Hb. intros k Hk.
  apply elem_of_cons in Hk as [->|Hk]; [done|]. by apply list_elem_of_singleton in Hk as ->.
Qed.

Lemma wp_smove src dst member (X : bytes → keyset) w Q :
  addr_wf (adr src) → addr_wf (adr dst) → env_ok w → headroom w →
  hold_all st slot X [src; dst] w →
  set_weight (X dst ∪ {[member]}) < 2 ^ 64 → Z.of_nat (size (X dst ∪ {[member]})) < 2 ^ 32 →
  (∀ w', two_keys src dst (smove_spec (st_max st) src dst member X).2 w w' →
     Q (smove_spec (st_max st) src dst member X).1 w') →
  wp (smove st slot src dst member) w Q.
Proof.
  intros Has Had Henv Hroom HX Hw Hs HQ. unfold smove.
  assert (Hkeys : ∀ k, k ∈ [src; dst] → addr_wf (adr k)).
  { intros k [->|Hk]%elem_of_cons; [done|]. by apply list_elem_of_singleton in Hk as ->. }
  assert (Hsrc : src ∈ [src; dst]) by set_solver.
  assert (Hdst : dst ∈ [src; dst]) by set_solver.
  assert (Hsame : ∀ r w', reads st slot X [src; dst] w w' →
    smove_spec (st_max st) src dst member X = (r, X) → Q r w').
  { intros r w' Hr E. specialize (HQ w'). rewrite E in HQ. by apply HQ, reads_two. }
  unfold smove_spec in Hsame.
  apply wp_try. apply (wp_set_meta st slot src (X src)); [done|by apply HX|]. intros o w1 Hr1 Ho.
  apply (read_reads _ _ _ X Hkeys src) in Hr1; [|done].
  destruct o as [meta|]; [|wp_op; apply Hsame; [done|]; rewrite decide_False by set_solver; done].
  assert (HX1 : hold_all st slot X [src; dst] w1) by (by eapply hold_all_reads).
  apply wp_try. apply (wp_set_meta st slot dst (X dst)); [apply Hr1|by apply HX1|]. intros _ w2 Hr2 _.
  apply (read_reads _ _ _ X Hkeys dst) in Hr2; [|done].
  assert (Hr12 : reads st slot X [src; dst] w w2) by (by eapply reads_trans).
  apply wp_try. apply (wp_sismember st slot src Has member (X src));
    [apply Hr12|by apply (hold_all_reads _ _ _ _ _ _ Hr12 HX)|].
  intros w3 Hr3. apply (read_reads _ _ _ X Hkeys src) in Hr3; [|done].
  assert (Hr : reads st slot X [src; dst] w w3) by (by eapply reads_trans).
  clear w1 Hr1 HX1 Ho w2 Hr2 Hr12 Hr3 meta.
  case_bool_decide as Hin; cbn [negb].
  2:{ wp_op. apply Hsame; [done|]. by rewrite decide_False. }
  destruct (decide (src = dst)) as [Heq|Hne].
  { wp_op. apply Hsame; [done|]. by rewrite decide_True. }
  clear Hsame.
  pose proof (reads_two _ _ _ _ _ Hr HX) as (Henv3 & HX3 & Hb3).
  apply wp_try. eapply (wp_sadd st slot dst Had [member] (X dst) {[member]});
    [cbn; set_solver|done|done|unfold headroom; destruct Hr as (_ & -> & _); done|by apply HX3|done|done|].
  intros r w4 He4 Hcase.
  assert (HXs4 : stable st slot src (X src) w4)
    by (eapply (stable_effect dst src); [done..| |by apply HX3]; done).
  unfold smove_spec in HQ. rewrite decide_True in HQ by done.
  destruct (decide (src = dst)); [done|].
  destruct (st_max st <? set_weight (X dst ∪ {[member]})) eqn:Emax; destruct Hcase as [-> Ht4].
  - apply HQ. split_and!; [by eapply effect_env|..]; cbn [snd].
    + intros k [->|Hk]%elem_of_cons; [done|]. apply list_elem_of_singleton in Hk as ->.
      eapply stable_turns; [done..|]. by apply HX3.
    + intros b Hbs Hbd. rewrite <-Hb3 by done. by apply He4.
  - apply makes_turns in Ht4. apply wp_try.
    apply (wp_srem st slot src Has [member] (X src) {[member]}); [cbn; set_solver|by eapply effect_env|apply HXs4|].
    intros w5 He5 Ht5. wp_op. apply HQ. split_and!; [eapply effect_env; [done|by eapply effect_env]|..]; cbn [snd].
    + intros k [->|Hk]%elem_of_cons.
      * rewrite decide_True by done. by eapply stable_turns.
      * apply list_elem_of_singleton in Hk as ->. rewrite decide_False, decide_True by done.
        eapply (stable_effect src dst); [done..|].
        eapply stable_turns; [done..|]. by apply HX3.
    + intros b Hbs Hbd. rewrite <-Hb3 by done. rewrite <-(eff_frame _ _ _ He4) by done. by apply He5.
Qed.
End SetMoves.

Lemma wp_sreplace `{HI : HashIter} st slot key members (Y : keyset) w Q :
  let a := mkAddr (st_ns st) slot key in
  Y = list_to_set members → addr_wf a → env_ok w → headroom w →
  set_weight Y < 2 ^ 64 → Z.of_nat (size Y) < 2 ^ 32 →
  (st_max st < set_weight Y → Q (Err ValueTooLarge) w) →
  (∀ w', set_weight Y <= st_max st → effect a w w' → (∀ now, set_at a now (w_kv w') Y) →
     Q (Ok (Z.of_nat (size Y))) w') →
  wp (sreplace st slot key members) w Q.
Proof.
  intros a EY Ha Henv Hroom Hw Hs Hbig HQ. unfold sreplace. rewrite <-EY.
  assert (Hsum : sum_lens (hash_iter (gset_to_gmap tt Y)).*1 = set_weight Y).
  { rewrite <-(hash_keys Y) at 2. apply sum_lens_nodup; [apply NoDup_hash_iter|by rewrite hash_keys]. }
  rewrite Hsum. destruct (Z.ltb_spec (st_max st) (set_weight Y)); [wp_op; auto|].
  wp_op. set (w1 := with_kv w (delete (meta_key st slot key) (w_kv w))).
  assert (He1 : effect a w w1).
  { apply effect_with_kv; auto with flint. apply fresh_delete, Henv. }
  assert (H1 : ∀ now, set_at a now (w_kv w1) ∅).
  { intros now. exists None. split; [|apply dom_empty_L]. cbn.
    change (meta_key st slot key) with (mkey a). by rewrite lookup_delete_eq. }
  destruct members as [|m l] eqn:Em.
  { wp_op. cbn in EY. subst Y. specialize (HQ w1). rewrite size_empty in HQ. auto. }
  rewrite <-Em in *. apply wp_try.
  apply (wp_sadd st slot key Ha members ∅ Y);
    rewrite ?(left_id_L ∅ (∪)); [done|by rewrite Em|by eapply effect_env|done|apply H1|done|done|].
  intros r w2 He2. destruct (Z.ltb_spec (st_max st) (set_weight Y)); [lia|].
  rewrite difference_empty_L. intros [-> Hm].
  apply (wp_scard st slot key Y); [eapply effect_env; [done|by eapply effect_env]|apply Hm; by left|].
  intros w3 (_ & He3 & _ & Ht3). apply HQ; [done| |].
  { eapply effect_trans; [done|]. by eapply effect_trans. }
  intros now. apply Ht3, Hm. by left.
Qed.

(** * Properties *)

(** SADD makes the set the union of what it was and the members given, and
    answers how many are new; a union over the value cap is refused and
    changes nothing. No row of another key moves. *)
Theorem sadd_refines st slot key members (X : keyset) w :
  let a := mkAddr (st_ns st) slot key in
  let Y : keyset := list_to_set members in
  addr_wf a → env_ok w → headroom w → members ≠ [] →
  set_at a (w_clock w 0%nat) (w_kv w) X →
  set_weight (X ∪ Y) < 2 ^ 64 → Z.of_nat (size (X ∪ Y)) < 2 ^ 32 →
  wp (sadd st slot key members) w (λ r w', effect a w w' ∧
    if st_max st <? set_weight (X ∪ Y)
    then r = Err ValueTooLarge ∧ set_turns st slot key X X w w'
    else r = Ok (Z.of_nat (size (Y ∖ X))) ∧ set_makes st slot key X (X ∪ Y) w w').
Proof. intros. apply (wp_sadd st slot key) with X Y; auto. Qed.

Lemma demo_set : set_at demo_addr 5 (demo_map TSet [] 1) {[bstr "f"]}.
Proof.
  exists (Some {[bstr "f" := []]}). split; [by apply demo_repr|]. unfold contents. apply dom_singleton_L.
Qed.

Lemma sadd_refines_witness :
  wp (sadd demo_store 7 (bstr "k") [bstr "g"; bstr "f"; bstr "g"]) (demo_world (demo_map TSet [] 1))
    (λ r w', r = Ok 1 ∧ set_at demo_addr 5 (w_kv w') {[bstr "f"; bstr "g"]}).
Proof.
  assert (EY : {[bstr "f"]} ∪ list_to_set [bstr "g"; bstr "f"; bstr "g"] =
               ({[bstr "f"; bstr "g"]} : keyset)) by (vm_compute; reflexivity).
  assert (EN : Z.of_nat (size (list_to_set [bstr "g"; bstr "f"; bstr "g"] ∖ ({[bstr "f"]} : keyset))) = 1)
    by (vm_compute; reflexivity).
  pose proof (sadd_refines demo_store 7 (bstr "k") [bstr "g"; bstr "f"; bstr "g"] {[bstr "f"]}
    (demo_world (demo_map TSet [] 1)) demo_addr_wf (demo_env _ _ _) (demo_headroom _)) as Hadd.
  cbv zeta in Hadd. rewrite EY, EN in Hadd.
  eapply wp_conseq; [apply Hadd; [discriminate|exact demo_set|reflexivity|reflexivity]|].
  intros r w' (_ & -> & Hm). split; [reflexivity|]. apply Hm. right. exact demo_set.
Defined.

(** SREM and SPOP take members out: SREM those named, answering how many
    were there; SPOP up to [count] of them, all distinct, picked by whatever
    the random source gives, and answers them. A set left empty is deleted. *)
Theorem set_removals_refine st slot key members count (X : keyset) w :
  let a := mkAddr (st_ns st) slot key in
  let Y : keyset := list_to_set members in
  addr_wf a → env_ok w → 0 <= count → stable st slot key X w →
  wp (srem st slot key members) w (λ r w', effect a w w' ∧
    r = Ok (Z.of_nat (size (X ∩ Y))) ∧ set_turns st slot key X (X ∖ Y) w w') ∧
  wp (spop st slot key count) w (λ r w', effect a w w' ∧
    ∃ picked, r = Ok picked ∧ NoDup picked ∧ list_to_set picked ⊆ X ∧
      len picked = Z.min count (Z.of_nat (size X)) ∧
      set_turns st slot key X (X ∖ list_to_set picked) w w').
Proof.
  intros a Y Ha Henv Hc HX. split.
  - apply (wp_srem st slot key Ha members X Y); auto.
  - apply (wp_spop st slot key Ha count X); [done..|]. intros picked w' He Hnd Hsub Hlen Ht.
    split; [done|]. by exists picked.
Qed.

Lemma set_removals_refine_witness :
  wp (spop demo_store 7 (bstr "k") 4) (demo_world (demo_map TSet [] 1))
    (λ r w', ∃ picked, r = Ok picked ∧ len picked = 1 ∧
       set_at demo_addr 5 (w_kv w') ({[bstr "f"]} ∖ list_to_set picked)).
Proof.
  eapply wp_conseq.
  - apply (set_removals_refine demo_store 7 (bstr "k") [] 4 {[bstr "f"]}
      (demo_world (demo_map TSet [] 1)) demo_addr_wf (demo_env _ _ _)); [discriminate|].
    intros n. exact demo_set.
  - intros r w' (_ & picked & -> & _ & _ & Hl & Ht). exists picked.
    split; [reflexivity|]. split; [exact Hl|]. apply Ht. exact demo_set.
Defined.

(** SINTER, SUNION and SDIFF answer the intersection, union or difference
    of the keys' sets, the first key's set folded with the rest, each member
    once, although they stop reading once an intersection or difference is
    empty; and no set changes. *)
Theorem sop_refines `{HI : HashIter} st slot op first rest (X : bytes → keyset) w :
  let keys := first :: rest in
  (∀ k, k ∈ keys → addr_wf (mkAddr (st_ns st) slot k)) → env_ok w → hold_all st slot X keys w →
  wp (sop st slot op keys) w (λ r w', reads st slot X keys w w' ∧
    ∃ l, r = Ok l ∧ NoDup l ∧ list_to_set l = foldl (sop_step op) (X first) (X <$> rest)).
Proof.
  intros keys Hk Henv HX. apply (wp_sop st slot keys X Hk op first rest); [done..|].
  intros l w' Hr Hnd Hl. split; [done|]. by exists l.
Qed.

Lemma sop_refines_witness :
  wp (@sop canonical_iter demo_store 7 Diff [bstr "k"; bstr "k"]) (demo_world (demo_map TSet [] 1))
    (λ r _, ∃ l, r = Ok l ∧ list_to_set l = (∅ : keyset)).
Proof.
  eapply wp_conseq.
  - apply (@sop_refines canonical_iter demo_store 7 Diff (bstr "k") [bstr "k"] (λ _, {[bstr "f"]})
      (demo_world (demo_map TSet [] 1))); [|exact (demo_env _ _ _)|].
    + intros k Hk. assert (k = bstr "k") as -> by set_solver. exact demo_addr_wf.
    + intros k Hk n. assert (k = bstr "k") as -> by set_solver. exact demo_set.
  - intros r w' (_ & l & -> & _ & Hl). exists l. split; [reflexivity|]. rewrite Hl.
    vm_compute. reflexivity.
Defined.

(** SMOVE moves a member the source has: the destination gains it before
    the source loses it, a destination over the cap refuses it and leaves both
    sets as they were, a member the source has not moves nothing, and one key
    for both is a membership test. *)
Theorem smove_refines st slot src dst member (X : bytes → keyset) w :
  addr_wf (mkAddr (st_ns st) slot src) → addr_wf (mkAddr (st_ns st) slot dst) →
  env_ok w → headroom w → hold_all st slot X [src; dst] w →
  set_weight (X dst ∪ {[member]}) < 2 ^ 64 → Z.of_nat (size (X dst ∪ {[member]})) < 2 ^ 32 →
  wp (smove st slot src dst member) w (λ r w',
    let '(answer, X') := smove_spec (st_max st) src dst member X in
    r = answer ∧ two_keys st slot src dst X' w w').
Proof.
  intros. apply (wp_smove st slot src dst member X); [done..|]. intros w' Htwo.
  by destruct (smove_spec (st_max st) src dst member X).
Qed.

Definition demo_sets (k : bytes) : keyset := if decide (k = bstr "k") then {[bstr "f"]} else ∅.

Lemma demo_sets_held :
  hold_all demo_store 7 demo_sets [bstr "k"; bstr "j"] (demo_world (demo_map TSet [] 1)).
Proof.
  intros k Hk n. unfold demo_sets. case_decide as E; [subst k; exact demo_set|].
  assert (k = bstr "j") as -> by set_solver. exists None. split; [done|]. apply dom_empty_L.
Qed.

Lemma smove_refines_witness :
  wp (smove demo_store 7 (bstr "k") (bstr "j") (bstr "f")) (demo_world (demo_map TSet [] 1))
    (λ r w', let '(answer, X') := smove_spec 1000 (bstr "k") (bstr "j") (bstr "f") demo_sets in
       r = answer ∧ two_keys demo_store 7 (bstr "k") (bstr "j") X' (demo_world (demo_map TSet [] 1)) w').
Proof.
  apply (smove_refines demo_store 7 (bstr "k") (bstr "j") (bstr "f") demo_sets
    (demo_world (demo_map TSet [] 1)) demo_addr_wf);
    [repeat split; vm_compute; congruence|exact (demo_env _ _ _)|exact (demo_headroom _)
    |exact demo_sets_held|vm_compute; reflexivity|vm_compute; reflexivity].
Defined.

(** The reads answer from the set and leave it as it was: SMEMBERS lists
    each member once in byte order, SISMEMBER and SMISMEMBER test membership,
    SCARD counts, and SRANDMEMBER answers distinct members for a count of zero
    or more and that many members, repeats allowed, for a negative one. *)
Theorem set_reads_refine st slot key member members count (X : keyset) w :
  let a := mkAddr (st_ns st) slot key in
  let answers A (p : prog (result A)) (ok : A → Prop) :=
    wp p w (λ r w', effect a w w' ∧ set_turns st slot key X X w w' ∧ ∃ x, r = Ok x ∧ ok x) in
  addr_wf a → env_ok w → stable st slot key X w →
  answers _ (smembers st slot key)
    (λ l, list_to_set l = X ∧ NoDup l ∧ StronglySorted (λ x y, blt x y = true) l) ∧
  answers _ (sismember st slot key member) (λ b, b = bool_decide (member ∈ X)) ∧
  answers _ (smismember st slot key members) (λ l, l = (λ m, bool_decide (m ∈ X)) <$> members) ∧
  answers _ (scard st slot key) (λ n, n = Z.of_nat (size X)) ∧
  answers _ (srandmember st slot key count)
    (λ p, ∃ l, list_to_set l = X ∧ NoDup l ∧ picked_ok l count p).
Proof.
  intros a answers Ha Henv HX. unfold answers.
  assert (HX0 : set_at a (w_clock w 0%nat) (w_kv w) X) by apply HX.
  split_and!.
  - apply (wp_smembers st slot key Ha X); [done..|]. intros l w' (_ & He & _ & Ht) ? ? ?. eauto 9.
  - apply (wp_sismember st slot key Ha member X); [done..|]. intros w' (_ & He & _ & Ht). eauto.
  - apply (wp_smismember st slot key Ha members X); [done..|]. intros w' (_ & He & _ & Ht). eauto.
  - apply (wp_scard st slot key X); [done..|]. intros w' (_ & He & _ & Ht). eauto.
  - apply (wp_srandmember st slot key Ha count X); [done..|]. intros l p w' He Ht ? ? ?. eauto 9.
Qed.

Lemma set_reads_refine_witness :
  wp (srandmember demo_store 7 (bstr "k") (-3)) (demo_world (demo_map TSet [] 1))
    (λ r w', ∃ p l, r = Ok p ∧ list_to_set l = ({[bstr "f"]} : keyset) ∧ picked_ok l (-3) p).
Proof.
  eapply wp_conseq.
  - eapply (set_reads_refine demo_store 7 (bstr "k") (bstr "f") [bstr "f"] (-3) {[bstr "f"]}
      (demo_world (demo_map TSet [] 1)) demo_addr_wf (demo_env _ _ _)).
    intros n. exact demo_set.
  - intros r w' (_ & _ & p & -> & l & Hl & _ & Hp). exists p, l. auto.
Defined.
