(* ===== verification/Lists.v ===== *)
(** * Lists

    [crates/flint-storage/src/lists.rs]: a list is a deque of rows addressed by
    a biased index, between the [head] and [tail] counters of its metadata row.
    Every operation is here; each is shown to do to the list what the command
    says, with the counters, the accounting and the cap. What a list holds is
    given with the index its first element has ([Some (h, L)]), since the
    counters are what the operations move and the 64-bit index space bounds. *)

From stdpp Require Import base list gmap strings sorting.
From Stdlib Require Import ZArith Lia.
From Stdlib Require Strings.Byte.
From S2P Require Import Prelude Encoding Kv Store.

Inductive LsetOutcome := NoKey | OutOfRange | SetDone.

(** [lo..hi]. *)
Definition range (lo hi : Z) : list Z := (λ i, lo + Z.of_nat i) <$> seq 0 (Z.to_nat (hi - lo)).

(** The rows' key past the prefix: [bias_index(index).to_be_bytes()]. *)
Definition ix (index : Z) : bytes := be 8 (bias_index index).

Arguments ix : simpl never.

(** [|i| if i < 0 { len + i } else { i }]. *)
Definition norm (len i : Z) : Z := if i <? 0 then i64 (len + i) else i.

(** [count.unsigned_abs()]. *)
Definition unsigned_abs (i : Z) : Z := Z.abs i.

Section Lists.
Context (st : store) (slot : Z) (key : bytes).

Definition elem_key (version index : Z) : option bytes :=
  subkey_envelope (st_ns st) slot key version (ix index).

Definition list_read_meta : prog (result (option ListMeta)) :=
  read_typed TList ListMeta_decode st slot key.

Definition ends (meta : ListMeta) (head tail : Z) : ListMeta := mkListMeta (l_base meta) head tail.

Definition with_bytes (meta : ListMeta) (bytes : Z) : ListMeta :=
  let b := l_base meta in
  mkListMeta (mkComplexMeta (c_header b) (c_written_ms b) (c_version b) (c_size b) bytes)
    (l_head meta) (l_tail meta).

(** [meta.tail - meta.head]. *)
Definition span (meta : ListMeta) : Z := i64 (l_tail meta - l_head meta).

Definition write_meta (meta : ListMeta) : prog unit :=
  if l_head meta =? l_tail meta then kvdelete (meta_key st slot key) ;;; Ret tt
  else
    now <- clock ;;
    let b := l_base meta in
    kvput (meta_key st slot key)
      (ListMeta_encode (mkListMeta (resized b (u32 (span meta)) (c_bytes b) now)
         (l_head meta) (l_tail meta))).

Definition list_meta_or_new : prog (result ListMeta) :=
  o <-? list_read_meta ;;
  match o with
  | Some m => Ret (Ok m)
  | None => now <- clock ;; v <- next_version now ;; Ret (Ok (ListMeta_new v))
  end.

(** One value pushed. *)
Definition push_step (left : bool) (meta : ListMeta) (v : bytes) : prog ListMeta :=
  let '(idx, meta') :=
    if left then let h := i64 (l_head meta - 1) in (h, ends meta h (l_tail meta))
    else (l_tail meta, ends meta (l_head meta) (i64 (l_tail meta + 1))) in
  ek <- unwrap (elem_key (c_version (l_base meta)) idx) ;;
  kvput ek v ;;; Ret meta'.

Definition push (values : list bytes) (left : bool) : prog (result Z) :=
  meta <-? list_meta_or_new ;;
  let bytes := u64 (c_bytes (l_base meta) + sum_lens values) in
  if st_max st <? bytes then Ret (Err ValueTooLarge)
  else
    meta' <- fold_ values (push_step left) (with_bytes meta bytes) ;;
    write_meta meta' ;;; Ret (Ok (u64 (span meta'))).

Definition push_existing (values : list bytes) (left : bool) : prog (result Z) :=
  o <-? list_read_meta ;;
  match o with
  | None => Ret (Ok 0)
  | Some _ => push values left
  end.

(** The index an element leaves at, and the counters it leaves behind. *)
Definition pop_end (left : bool) (meta : ListMeta) : Z * ListMeta :=
  if left then (l_head meta, ends meta (i64 (l_head meta + 1)) (l_tail meta))
  else let t := i64 (l_tail meta - 1) in (t, ends meta (l_head meta) t).

Definition uncharge (meta : ListMeta) (val : option bytes) : ListMeta :=
  match val with
  | Some v => with_bytes meta (saturating_sub (c_bytes (l_base meta)) (len v))
  | None => meta
  end.

Definition pop (left : bool) : prog (result (option bytes)) :=
  o <-? list_read_meta ;;
  match o with
  | None => Ret (Ok None)
  | Some meta =>
      let '(idx, meta') := pop_end left meta in
      ek <- unwrap (elem_key (c_version (l_base meta)) idx) ;;
      val <- kvget ek ;;
      kvdelete ek ;;;
      write_meta (uncharge meta' val) ;;; Ret (Ok val)
  end.

Definition pop_step (left : bool) (acc : ListMeta * list bytes) (_ : Z) : prog (ListMeta * list bytes) :=
  let '(meta, out) := acc in
  let '(idx, meta') := pop_end left meta in
  ek <- unwrap (elem_key (c_version (l_base meta)) idx) ;;
  val <- kvget ek ;;
  kvdelete ek ;;;
  Ret (uncharge meta' val, match val with Some v => out ++ [v] | None => out end).

Definition pop_n (n : Z) (left : bool) : prog (result (option (list bytes))) :=
  o <-? list_read_meta ;;
  match o with
  | None => Ret (Ok None)
  | Some meta =>
      let take := Z.min n (u64 (span meta)) in
      acc <- fold_ (range 0 take) (pop_step left) (meta, []) ;;
      (if 0 <? take then write_meta acc.1 else Ret tt) ;;;
      Ret (Ok (Some acc.2))
  end.

Definition llen : prog (result Z) :=
  o <-? list_read_meta ;;
  Ret (Ok (match o with Some m => u64 (span m) | None => 0 end)).

Definition lindex (rank : Z) : prog (result (option bytes)) :=
  o <-? list_read_meta ;;
  match o with
  | None => Ret (Ok None)
  | Some meta =>
      let rank := norm (span meta) rank in
      if (rank <? 0) || (span meta <=? rank) then Ret (Ok None)
      else
        ek <- unwrap (elem_key (c_version (l_base meta)) (i64 (l_head meta + rank))) ;;
        v <- kvget ek ;; Ret (Ok v)
  end.

Definition lset (rank : Z) (value : bytes) : prog (result LsetOutcome) :=
  o <-? list_read_meta ;;
  match o with
  | None => Ret (Ok NoKey)
  | Some meta =>
      let rank := norm (span meta) rank in
      if (rank <? 0) || (span meta <=? rank) then Ret (Ok OutOfRange)
      else
        ek <- unwrap (elem_key (c_version (l_base meta)) (i64 (l_head meta + rank))) ;;
        old <- kvget ek ;;
        let old := match old with Some v => len v | None => 0 end in
        let bytes := u64 (saturating_sub (c_bytes (l_base meta)) old + len value) in
        if st_max st <? bytes then Ret (Err ValueTooLarge)
        else
          kvput ek value ;;;
          write_meta (with_bytes meta bytes) ;;; Ret (Ok SetDone)
  end.

(** The inclusive range [start, stop] clipped to the list. *)
Definition clip (len start stop : Z) : Z * Z :=
  (Z.max (norm len start) 0, Z.min (norm len stop) (i64 (len - 1))).

Definition drop_row (meta : ListMeta) (idx : Z) : prog ListMeta :=
  ek <- unwrap (elem_key (c_version (l_base meta)) idx) ;;
  val <- kvget ek ;;
  kvdelete ek ;;;
  Ret (uncharge meta val).

Definition ltrim (start stop : Z) : prog (result unit) :=
  o <-? list_read_meta ;;
  match o with
  | None => Ret (Ok tt)
  | Some meta =>
      let '(from, to) := clip (span meta) start stop in
      let '(new_head, new_tail) :=
        if to <? from then (l_head meta, l_head meta)
        else (i64 (l_head meta + from), i64 (i64 (l_head meta + to) + 1)) in
      meta' <- fold_ (range (l_head meta) new_head ++ range new_tail (l_tail meta)) drop_row meta ;;
      write_meta (ends meta' new_head new_tail) ;;; Ret (Ok tt)
  end.

(** [lpos]'s scan over the ranks, [skip] matches still to pass over. *)
Fixpoint lpos_scan (meta : ListMeta) (element : bytes) (count skip : Z) (out : list Z)
    (ranks : list Z) : prog (list Z) :=
  match ranks with
  | [] => Ret out
  | r :: ranks' =>
      ek <- unwrap (elem_key (c_version (l_base meta)) (i64 (l_head meta + r))) ;;
      v <- kvget ek ;;
      if decide (v = Some element) then
        if 0 <? skip then lpos_scan meta element count (skip - 1) out ranks'
        else
          let out' := out ++ [r] in
          if negb (count =? 0) && (count <=? len out') then Ret out'
          else lpos_scan meta element count skip out' ranks'
      else lpos_scan meta element count skip out ranks'
  end.

Definition lpos (element : bytes) (rank count maxlen : Z) : prog (result (list Z)) :=
  o <-? list_read_meta ;;
  match o with
  | None => Ret (Ok [])
  | Some meta =>
      let ranks := if 0 <? rank then range 0 (span meta) else rev (range 0 (span meta)) in
      let ranks := if maxlen =? 0 then ranks else take (Z.to_nat maxlen) ranks in
      out <- lpos_scan meta element count (saturating_sub (unsigned_abs rank) 1) [] ranks ;;
      Ret (Ok out)
  end.

Definition collect_step (meta : ListMeta) (out : list bytes) (i : Z) : prog (list bytes) :=
  ek <- unwrap (elem_key (c_version (l_base meta)) i) ;;
  v <- kvget ek ;;
  Ret (match v with Some v => out ++ [v] | None => out end).

Definition collect (meta : ListMeta) : prog (list bytes) :=
  fold_ (range (l_head meta) (l_tail meta)) (collect_step meta) [].

Definition rewrite_list (meta : ListMeta) (vals : list bytes) : prog unit :=
  for_ (range (l_head meta) (l_tail meta))
    (λ i, ek <- unwrap (elem_key (c_version (l_base meta)) i) ;; kvdelete ek ;;; Ret tt) ;;;
  let meta' := ends (with_bytes meta (sum_lens vals)) (l_head meta) (i64 (l_head meta + len vals)) in
  for_ (zip (range 0 (len vals)) vals)
    (λ p, ek <- unwrap (elem_key (c_version (l_base meta)) (i64 (l_head meta + p.1))) ;; kvput ek p.2) ;;;
  write_meta meta'.

(** [filter(|v| matches(v))]: what is kept, and how many went. *)
Fixpoint lrem_filter (limit removed : Z) (element : bytes) (vals : list bytes) : Z * list bytes :=
  match vals with
  | [] => (removed, [])
  | v :: vals' =>
      if (removed <? limit) && bool_decide (v = element) then
        lrem_filter limit (removed + 1) element vals'
      else
        let '(n, keep) := lrem_filter limit removed element vals' in (n, v :: keep)
  end.

Definition lrem (count : Z) (element : bytes) : prog (result Z) :=
  o <-? list_read_meta ;;
  match o with
  | None => Ret (Ok 0)
  | Some meta =>
      vals <- collect meta ;;
      let limit := if count =? 0 then U64_MAX else unsigned_abs count in
      let '(removed, keep) :=
        if 0 <=? count then lrem_filter limit 0 element vals
        else let '(n, k) := lrem_filter limit 0 element (rev vals) in (n, rev k) in
      (if 0 <? removed then rewrite_list meta keep else Ret tt) ;;;
      Ret (Ok removed)
  end.

(** [vals.iter().position(|v| v == pivot)]. *)
Fixpoint position (pivot : bytes) (vals : list bytes) : option nat :=
  match vals with
  | [] => None
  | v :: vals' => if decide (v = pivot) then Some 0%nat else S <$> position pivot vals'
  end.

Definition linsert (before : bool) (pivot element : bytes) : prog (result Z) :=
  o <-? list_read_meta ;;
  match o with
  | None => Ret (Ok 0)
  | Some meta =>
      if st_max st <? u64 (c_bytes (l_base meta) + len element) then Ret (Err ValueTooLarge)
      else
        vals <- collect meta ;;
        match position pivot vals with
        | None => Ret (Ok (-1))
        | Some pos =>
            let i := if before then pos else S pos in
            let vals' := take i vals ++ element :: drop i vals in
            rewrite_list meta vals' ;;; Ret (Ok (len vals'))
        end
  end.

Definition range_bytes (start stop : Z) : prog (result (option Z)) :=
  o <-? list_read_meta ;;
  match o with
  | None => Ret (Ok None)
  | Some meta =>
      if (span meta <=? 0) || (c_size (l_base meta) =? 0) then Ret (Ok (Some 0))
      else
        let '(from, to) := clip (span meta) start stop in
        if to <? from then Ret (Ok (Some 0))
        else
          let n := i64 (i64 (to - from) + 1) in
          let wanted := if n <? 0 then 0 else n in
          let mean := c_bytes (l_base meta) / c_size (l_base meta) in
          Ret (Ok (Some (saturating_mul wanted mean)))
  end.

Definition lrange (start stop : Z) : prog (result (list bytes)) :=
  o <-? list_read_meta ;;
  match o with
  | None => Ret (Ok [])
  | Some meta =>
      let '(from, to) := clip (span meta) start stop in
      if to <? from then Ret (Ok [])
      else
        out <- fold_ (range from (to + 1))
          (λ out rank, collect_step meta out (i64 (l_head meta + rank))) [] ;;
        Ret (Ok out)
  end.
End Lists.

(** ** Rows of consecutive indices *)

Lemma ix_inj i j : in_i64 i → in_i64 j → ix i = ix j → i = j.
Proof.
  intros Hi Hj E. apply (f_equal of_be) in E. unfold ix in E.
  rewrite !of_be_id in E by (by apply bias_index_width).
  rewrite <-(unbias_bias_index i), <-(unbias_bias_index j) by done. by rewrite E.
Qed.

(** Every eight bytes are the key of one index. *)
Lemma ix_cases f : (∃ i, in_i64 i ∧ f = ix i) ∨ (∀ i, f ≠ ix i).
Proof.
  destruct (decide (length f = 8%nat)) as [Hl|Hl].
  2:{ right. intros i ->. apply Hl. apply length_be. }
  left. pose proof (of_be_range f) as R. rewrite Hl in R. change (2 ^ (8 * Z.of_nat 8)) with (2 ^ 64) in R.
  exists (of_be f - 2 ^ 63). assert (Hi : in_i64 (of_be f - 2 ^ 63)) by (unfold in_i64, I64_MIN, I64_MAX; lia).
  split; [done|]. apply of_be_inj; [unfold ix; by rewrite length_be|].
  unfold ix. rewrite of_be_id by (by apply bias_index_width). rewrite bias_index_add by done. lia.
Qed.

Fixpoint slots (h : Z) (L : list bytes) : kvmap :=
  match L with
  | [] => ∅
  | x :: L' => <[ix h := x]> (slots (h + 1) L')
  end.

(** The list's index range is inside the 64-bit index space. *)
Definition fits (h : Z) (L : list bytes) : Prop := in_i64 h ∧ in_i64 (h + len L).

Lemma fits_cons h x L : fits h (x :: L) ↔ in_i64 h ∧ fits (h + 1) L.
Proof. unfold fits, in_i64, I64_MIN, I64_MAX. cbn [length]. lia. Qed.

Lemma lookup_slots h L i :
  fits h L → in_i64 i → slots h L !! ix i = if decide (h <= i) then L !! Z.to_nat (i - h) else None.
Proof.
  revert h. induction L as [|x L IH]; intros h Hf Hi; cbn [slots].
  { rewrite lookup_empty. by case_decide. }
  apply fits_cons in Hf as [Hh Hf]. destruct (decide (i = h)) as [->|Hne].
  - rewrite lookup_insert_eq, decide_True by lia. by rewrite Z.sub_diag.
  - rewrite lookup_insert_ne by (intros E; apply ix_inj in E; [congruence|done..]). rewrite IH by done.
    repeat case_decide; try lia; [|done].
    replace (Z.to_nat (i - h)) with (S (Z.to_nat (i - (h + 1)))) by lia. done.
Qed.

Lemma slots_other h L f : (∀ i, f ≠ ix i) → slots h L !! f = None.
Proof.
  intros Hf. revert h. induction L as [|x L IH]; intros h; cbn [slots]; [apply lookup_empty|].
  rewrite lookup_insert_ne; [apply IH|]. intros E. by apply (Hf h).
Qed.

Lemma slots_unique (F : kvmap) h L :
  fits h L →
  (∀ i, in_i64 i → F !! ix i = if decide (h <= i) then L !! Z.to_nat (i - h) else None) →
  (∀ f, (∀ i, f ≠ ix i) → F !! f = None) → F = slots h L.
Proof.
  intros Hf Hi Ho. apply map_eq. intros f. destruct (ix_cases f) as [(i & Hii & ->)|Hn].
  - rewrite Hi, lookup_slots by done. done.
  - by rewrite Ho, slots_other.
Qed.

Lemma slots_snoc h L x :
  fits h (L ++ [x]) → <[ix (h + len L) := x]> (slots h L) = slots h (L ++ [x]).
Proof.
  intros Hf. assert (Hb : in_i64 h ∧ in_i64 (h + len L)).
  { unfold fits in Hf. rewrite length_app in Hf. unfold in_i64, I64_MIN, I64_MAX in *. cbn in Hf. lia. }
  destruct Hb as [Hb1 Hb2]. apply slots_unique; [done| |].
  - intros i Hi. destruct (decide (i = h + len L)) as [->|Hne].
    + rewrite lookup_insert_eq, decide_True by lia.
      replace (Z.to_nat (h + len L - h)) with (length L) by lia. by rewrite list_lookup_middle.
    + rewrite lookup_insert_ne by (intros E; apply ix_inj in E; [congruence|done..]).
      rewrite lookup_slots by done. case_decide; [|done].
      destruct (decide (Z.to_nat (i - h) < length L)%nat).
      * by rewrite lookup_app_l.
      * rewrite lookup_ge_None_2 by lia. symmetry. apply lookup_ge_None_2. rewrite length_app. cbn. lia.
  - intros f Hn. rewrite lookup_insert_ne by (intros E; by apply (Hn (h + len L))). by apply slots_other.
Qed.

Lemma slots_set h L n x :
  fits h L → (n < length L)%nat → <[ix (h + Z.of_nat n) := x]> (slots h L) = slots h (<[n := x]> L).
Proof.
  intros Hf Hn. assert (in_i64 (h + Z.of_nat n)) by (unfold fits, in_i64 in *; lia).
  apply slots_unique; [unfold fits in *; by rewrite length_insert| |].
  - intros i Hi. destruct (decide (i = h + Z.of_nat n)) as [->|Hne].
    + rewrite lookup_insert_eq, decide_True by lia.
      replace (Z.to_nat (h + Z.of_nat n - h)) with n by lia. by rewrite list_lookup_insert_eq.
    + rewrite lookup_insert_ne by (intros E; apply ix_inj in E; [congruence|done..]).
      rewrite lookup_slots by done. case_decide; [|done].
      rewrite list_lookup_insert_ne; [done|]. lia.
  - intros f Ho. rewrite lookup_insert_ne by (intros E; by apply (Ho (h + Z.of_nat n))). by apply slots_other.
Qed.

Lemma slots_uncons h x L : fits h (x :: L) → delete (ix h) (slots h (x :: L)) = slots (h + 1) L.
Proof.
  intros [Hh Hf]%fits_cons. cbn [slots]. rewrite delete_insert_id; [done|].
  rewrite lookup_slots by done. rewrite decide_False by lia. done.
Qed.

Lemma slots_unsnoc h L x :
  fits h (L ++ [x]) → delete (ix (h + len L)) (slots h (L ++ [x])) = slots h L.
Proof.
  intros Hf. rewrite <-slots_snoc by done. apply delete_insert_id.
  assert (Hb : fits h L ∧ in_i64 (h + len L)).
  { unfold fits in *. rewrite length_app in Hf. unfold in_i64, I64_MIN, I64_MAX in *. cbn in Hf. lia. }
  rewrite lookup_slots by apply Hb. rewrite decide_True by lia. apply lookup_ge_None_2. lia.
Qed.

(** ** What a key holds *)

Record lholds (a : addr) (now : Z) (m : kvmap) (meta : ListMeta) (h : Z) (L : list bytes) : Prop := {
  lh_row : ∃ row, m !! mkey a = Some row ∧ live_row TList now row ∧ ListMeta_decode row = Some meta;
  lh_rows : rows_at Subkey a (c_version (l_base meta)) m = slots h L;
  lh_head : l_head meta = h;
  lh_tail : l_tail meta = h + len L;
  lh_size : c_size (l_base meta) = len L;
  lh_bytes : c_bytes (l_base meta) = total L;
  lh_fits : fits h L
}.

(** Nothing, or a nonempty list whose first element has index [h]. *)
Definition lrepr (a : addr) (now : Z) (m : kvmap) (H : option (Z * list bytes)) : Prop :=
  match H with
  | None => dead_row now (m !! mkey a)
  | Some (h, L) => L ≠ [] ∧ ∃ meta, lholds a now m meta h L
  end.

Definition first_index (H : option (Z * list bytes)) : Z := match H with Some (h, _) => h | None => 0 end.
Definition elements (H : option (Z * list bytes)) : list bytes := match H with Some (_, L) => L | None => [] end.

(** What is left when a list may have become empty. *)
Definition holding (h : Z) (L : list bytes) : option (Z * list bytes) :=
  match L with [] => None | _ => Some (h, L) end.

(** What an operation made of the key: at every instant at which the key held
    [H], or at any if it held nothing, it now holds [H']. *)
Definition lmakes (a : addr) (H H' : option (Z * list bytes)) (w w' : world kvmap) : Prop :=
  ∀ now, H = None ∨ lrepr a now (w_kv w) H → lrepr a now (w_kv w') H'.

(** And what one that found nothing to do left. *)
Definition lkeeps (a : addr) (H : option (Z * list bytes)) (w w' : world kvmap) : Prop :=
  ∀ now, lrepr a now (w_kv w) H → lrepr a now (w_kv w') H.

Lemma ListMeta_decode_base row meta : ListMeta_decode row = Some meta → ComplexMeta_decode row = Some (l_base meta).
Proof.
  unfold ListMeta_decode. destruct (ComplexMeta_decode row) as [b|]; [|done]. cbn.
  destruct (head row); [|done]. cbn. case_decide; [done|]. by intros [= <-].
Qed.

Lemma lholds_base a now m meta h L : lholds a now m meta h L → base_ok TList now (l_base meta).
Proof.
  intros [(row & _ & Hl & Hd) _ _ _ _ _ _]. eapply live_row_base; [done|].
  by apply ListMeta_decode_base.
Qed.

Lemma lholds_at a now now' m meta h L :
  lholds a now m meta h L → lrepr a now' m (Some (h, L)) → lholds a now' m meta h L.
Proof.
  intros [(row & Hrow & Hl & Hd) ? ? ? ? ? ?] (_ & meta' & [(row' & Hrow' & Hl' & _) _ _ _ _ _ _]).
  constructor; try done. exists row. split; [done|]. split; [|done]. by assert (row' = row) as <- by congruence.
Qed.

Lemma lholds_widths a now m meta h L :
  lholds a now m meta h L → len L < 2 ^ 32 ∧ total L < 2 ^ 64.
Proof.
  intros [(row & _ & _ & Hd) _ _ _ Hs Hb _]. apply ListMeta_decode_base in Hd.
  unfold ComplexMeta_decode in Hd. destruct (MetaHeader_decode row); [|done]. cbn in Hd.
  case_decide; [done|]. injection Hd as E. rewrite <-E in Hs, Hb. cbn in Hs, Hb.
  rewrite <-Hs, <-Hb. split.
  - apply (of_be_sub_width _ _ 4).
  - apply (of_be_sub_width _ _ 8).
Qed.

(** ** Opening and closing *)

Section Specs.
Context (st : store) (slot : Z) (key : bytes).
Abbreviation a := (mkAddr (st_ns st) slot key).
Context (Ha : addr_wf a).

(** An operation has the list's metadata in hand. *)
Record lopened (H : option (Z * list bytes)) (w : world kvmap) (meta : ListMeta) (w' : world kvmap) : Prop := {
  lo_base now : H = None ∨ lrepr a now (w_kv w) H → base_ok TList now (l_base meta);
  lo_width : in_width 64 (c_version (l_base meta));
  lo_rows : rows_at Subkey a (c_version (l_base meta)) (w_kv w') = slots (first_index H) (elements H);
  lo_head : l_head meta = first_index H;
  lo_tail : l_tail meta = first_index H + len (elements H);
  lo_size : c_size (l_base meta) = len (elements H);
  lo_bytes : c_bytes (l_base meta) = total (elements H);
  lo_fits : fits (first_index H) (elements H);
  lo_len : len (elements H) < 2 ^ 32;
  lo_total : total (elements H) < 2 ^ 64;
  lo_version : c_version (l_base meta) <= w_last w';
  lo_env : env_ok w';
  lo_effect : effect a w w';
  lo_keeps : lkeeps a H w w'
}.

Lemma lholds_version m now meta h L last :
  L ≠ [] → lholds a now m meta h L → fresh m last → c_version (l_base meta) <= last.
Proof.
  intros Hne Hm Hf. pose proof (base_version _ _ _ (lholds_base _ _ _ _ _ _ Hm)).
  destruct Hm as [_ Hr _ _ _ _ Hfits]. destruct L as [|x L]; [done|].
  apply (Hf Subkey a (c_version (l_base meta)) (ix h) x); [done..|].
  rewrite <-lookup_rows_at, Hr. cbn [slots]. apply lookup_insert_eq.
Qed.

Lemma wp_list_read H w Q :
  env_ok w → lrepr a (w_clock w 0%nat) (w_kv w) H →
  (∀ w', H = None → env_ok w' → effect a w w' → w_last w' = w_last w → lkeeps a H w w' → Q (Ok None) w') →
  (∀ meta w', H ≠ None → lopened H w meta w' → Q (Ok (Some meta)) w') →
  wp (list_read_meta st slot key) w Q.
Proof.
  intros Henv HH HN HS. destruct H as [[h L]|].
  - pose proof HH as (Hne & meta & Hm). pose proof (lh_row _ _ _ _ _ _ Hm) as (row & Hrow & Hl & Hd).
    eapply wp_read_live; [done..|]. apply HS; [done|].
    destruct (after_read_effect st slot key w (tick w)) as (Henv' & He & El); [by right; left|done|].
    pose proof (lholds_base _ _ _ _ _ _ Hm) as Hb. pose proof (lholds_widths _ _ _ _ _ _ Hm) as [? ?].
    pose proof Hm as [_ Hrows Hhd Htl Hs Hby Hf]. constructor; cbn; try done.
    + intros now [?|Hnow]; [done|]. by eapply lholds_base, lholds_at.
    + apply Hb.
    + eapply lholds_version; [done..|apply Henv].
    + intros now. done.
  - apply wp_read_dead; [done|]. intros w' Hafter Hdead.
    destruct (after_read_effect st slot key w w') as (? & ? & ?); [done..|]. apply HN; try done.
    intros now. cbn. destruct Hafter as [->|[->| ->]]; [done..|]. cbn. by rewrite lookup_delete_eq.
Qed.

Lemma wp_list_meta_or_new H w Q :
  env_ok w → (H = None → headroom w) → lrepr a (w_clock w 0%nat) (w_kv w) H →
  (∀ meta w', lopened H w meta w' → Q (Ok meta) w') →
  wp (list_meta_or_new st slot key) w Q.
Proof.
  intros Henv Hroom HH HQ. unfold list_meta_or_new. apply wp_try.
  apply (wp_list_read H); [done..| |intros meta w' _ Ho; wp_op; by apply HQ].
  intros w' -> [Hc Hf] He El Hk. wp_op. wp_op. wp_op. apply HQ. specialize (Hroom eq_refl).
  unfold headroom in Hroom. rewrite <-El in Hroom.
  destruct (version_next_lt (w_last w') (w_clock w' 0%nat)) as (Hv & _ & Hv64); [done..|].
  assert (He' : effect a w (with_last (tick w') (version_next (w_last w') (w_clock w' 0)))).
  { eapply effect_trans; [done|]. constructor; cbn; auto with flint; [by exists 1%nat|lia|].
    eapply fresh_le; [done|lia]. }
  constructor; cbn; auto using base_ok_new; try done.
  - by eapply fresh_empty.
  - by eapply effect_env.
Qed.

(** The metadata an operation writes back. *)
Definition remade (meta : ListMeta) (h : Z) (L : list bytes) : ListMeta :=
  ends (with_bytes meta (total L)) h (h + len L).

Lemma span_remade meta h L : fits h L → len L < 2 ^ 32 → span (remade meta h L) = len L.
Proof. intros _ Hl. unfold span. cbn. rewrite signed_id; lia. Qed.

Lemma lrepr_close now meta m h L now' :
  base_ok TList now (l_base meta) → rows_at Subkey a (c_version (l_base meta)) m = slots h L →
  L ≠ [] → fits h L → len L < 2 ^ 32 → total L < 2 ^ 64 → in_width 64 now' →
  lrepr a now (<[mkey a := ListMeta_encode (mkListMeta
      (resized (l_base meta) (len L) (total L) now') h (h + len L))]> m) (Some (h, L)).
Proof.
  intros Hb HF Hne Hf Hl Ht Hn. split; [done|]. pose proof (total_nonneg L).
  set (meta' := mkListMeta _ _ _).
  assert (Hok : list_ok meta').
  { destruct Hb as [Hty Hex He Hv]. split_and!; [|apply Hf..]. cbn.
    unfold meta_ok, header_ok, resized, ComplexMeta_touch.
    cbn [c_header h_flags h_expire_ms c_written_ms c_version c_size c_bytes].
    split_and!; try done; [unfold v2_flags, value_type in *; by rewrite Hty|unfold in_width; lia..]. }
  exists meta'. constructor; try done.
  - exists (ListMeta_encode meta'). split; [apply lookup_insert_eq|].
    split; [|by apply ListMeta_decode_encode].
    destruct (touch_live TList now (l_base meta) (len L) (total L) now') as [(h' & Hh & Hex & Hty) _];
      [done|unfold in_width; lia..|done|].
    exists h'. split_and!; [|done..]. rewrite <-Hh. unfold ListMeta_encode.
    rewrite (MetaHeader_decode_encode_app TList) by apply Hok.
    symmetry. pose proof (MetaHeader_decode_encode_app TList (l_base meta') [] (proj1 Hok)) as E.
    by rewrite app_nil_r in E.
  - by rewrite rows_at_meta_insert.
Qed.

(** Writing the metadata of a list whose rows are laid down ends an operation. *)
Lemma wp_write_meta H meta h' L' w w1 w2 (Q : unit → world kvmap → Prop) :
  lopened H w meta w1 → rows_written a (c_version (l_base meta)) (slots h' L') w1 w2 →
  fits h' L' → len L' < 2 ^ 32 → total L' < 2 ^ 64 →
  (∀ w', effect a w w' → lmakes a H (holding h' L') w w' → Q tt w') →
  wp (write_meta st slot key (remade meta h' L')) w2 Q.
Proof.
  intros Ho Hrw Hf Hl Ht HQ. unfold write_meta.
  change (meta_key st slot key) with (mkey a).
  pose proof (rows_written_effect _ _ _ _ _ Hrw) as He2.
  assert (He : effect a w w2) by (eapply effect_trans; [apply Ho|done]).
  destruct L' as [|x L'].
  - cbn [remade ends l_head l_tail]. rewrite (proj2 (Z.eqb_eq h' (h' + len []))) by (cbn; lia).
    wp_op. wp_op. apply HQ.
    + eapply effect_trans; [done|]. apply effect_with_kv; cbn; auto with flint. apply fresh_delete, He.
    + intros now _. cbn. by rewrite lookup_delete_eq.
  - cbn [remade ends l_head l_tail]. rewrite (proj2 (Z.eqb_neq h' (h' + len (x :: L')))) by (cbn; lia).
    wp_op. fold (remade meta h' (x :: L')).
    change (ends (with_bytes meta (total (x :: L'))) h' (h' + len (x :: L'))) with (remade meta h' (x :: L')).
    rewrite span_remade by done. rewrite wrap_id by (unfold in_width; lia).
    exists tt. eexists. split; [reflexivity|]. apply HQ; [exact (close_effect a w w2 _ He)|].
    intros now Hnow. apply (lrepr_close now meta); try done; [by apply Ho|apply Hrw|].
    apply clock_ok_64. eapply effect_clocks; [exact He2|]. apply (lo_env _ _ _ _ Ho).
Qed.

Lemma elem_key_ok v i : elem_key st slot key v i = Some (rprefix Subkey a v ++ ix i).
Proof. by apply (skey_ok a). Qed.

Lemma i64_id i : in_i64 i → i64 i = i.
Proof. unfold in_i64, I64_MIN, I64_MAX. intros. apply signed_id. lia. Qed.

(** ** Pushing *)

Definition pushed (left : bool) (values L : list bytes) : list bytes :=
  if left then rev values ++ L else L ++ values.
Definition pushed_at (left : bool) (values : list bytes) (h : Z) : Z :=
  if left then h - len values else h.

Lemma pushed_fits left vs vs' h L :
  fits (pushed_at left (vs ++ vs') h) (pushed left (vs ++ vs') L) →
  in_i64 h → in_i64 (h + len L) → fits (pushed_at left vs h) (pushed left vs L).
Proof.
  unfold fits, pushed, pushed_at, in_i64, I64_MIN, I64_MAX. destruct left;
    repeat rewrite ?length_app, ?length_rev; lia.
Qed.

Lemma length_pushed left vs L : length (pushed left vs L) = (length vs + length L)%nat.
Proof. unfold pushed. destruct left; rewrite length_app, ?length_rev; lia. Qed.

Lemma wp_push_loop left values meta b h L w (Q : ListMeta → world kvmap → Prop) :
  let v := c_version (l_base meta) in
  in_width 64 v → v <= w_last w → fresh (w_kv w) (w_last w) →
  rows_at Subkey a v (w_kv w) = slots h L → fits h L →
  fits (pushed_at left values h) (pushed left values L) →
  l_head meta = h → l_tail meta = h + len L →
  (∀ w', rows_written a v (slots (pushed_at left values h) (pushed left values L)) w w' →
     Q (ends (with_bytes meta b) (pushed_at left values h)
          (pushed_at left values h + len (pushed left values L))) w') →
  wp (fold_ values (push_step st slot key left) (with_bytes meta b)) w Q.
Proof.
  intros v Hv Hle Hf Hrows Hfit0 Hfit Hh Ht HQ.
  apply (wp_fold (λ l' cur w', ∃ seen, values = seen ++ l' ∧
    cur = ends (with_bytes meta b) (pushed_at left seen h) (pushed_at left seen h + len (pushed left seen L)) ∧
    rows_written a v (slots (pushed_at left seen h) (pushed left seen L)) w w')).
  - exists []. split; [done|].
    assert (E : pushed_at left [] h = h ∧ pushed left [] L = L).
    { unfold pushed_at, pushed. destruct left; cbn; rewrite ?app_nil_r; split; done || lia. }
    destruct E as [-> ->]. split.
    + unfold ends, with_bytes. cbn. by rewrite Hh, Ht.
    + rewrite <-Hrows. by apply rows_written_refl.
  - intros x l' cur w' (seen & El & -> & Hrw).
    assert (Hfx : fits (pushed_at left (seen ++ [x]) h) (pushed left (seen ++ [x]) L)).
    { rewrite El, cons_middle, app_assoc in Hfit. eapply pushed_fits; [done|apply Hfit0..]. }
    assert (Hfs : fits (pushed_at left seen h) (pushed left seen L)).
    { eapply pushed_fits; [done|apply Hfit0..]. }
    unfold push_step. destruct left; cbn [l_head l_tail ends l_base with_bytes c_version].
    + assert (E : pushed_at true (seen ++ [x]) h = pushed_at true seen h - 1).
      { unfold pushed_at. rewrite length_app. cbn. lia. }
      assert (EL : pushed true (seen ++ [x]) L = x :: pushed true seen L).
      { unfold pushed. by rewrite rev_app_distr. }
      rewrite <-E, i64_id by apply Hfx. eapply wp_unwrap; [apply elem_key_ok|]. wp_op. wp_op.
      exists (seen ++ [x]). split; [by rewrite <-app_assoc|]. split.
      * rewrite EL. unfold ends. cbn [l_base l_head l_tail length]. f_equal. lia.
      * rewrite EL. cbn [slots]. replace (pushed_at true (seen ++ [x]) h + 1) with (pushed_at true seen h) by lia.
        by apply rows_written_put.
    + assert (E : pushed_at false (seen ++ [x]) h = pushed_at false seen h) by done.
      assert (EL : pushed false (seen ++ [x]) L = pushed false seen L ++ [x]).
      { unfold pushed. by rewrite app_assoc. }
      rewrite E, EL in Hfx.
      rewrite i64_id by (destruct Hfx as [_ Hfx]; rewrite length_app, Nat2Z.inj_add, Z.add_assoc in Hfx; exact Hfx).
      eapply wp_unwrap; [apply elem_key_ok|]. wp_op. wp_op.
      exists (seen ++ [x]). split; [by rewrite <-app_assoc|]. rewrite E, EL. split.
      * unfold ends. cbn [l_base l_head l_tail]. f_equal. rewrite length_app. cbn [length]. lia.
      * rewrite <-slots_snoc by done. by apply rows_written_put.
  - intros cur w' (seen & El & -> & Hrw). rewrite app_nil_r in El. subst seen. by apply HQ.
Qed.

Lemma total_pushed left vs L : total (pushed left vs L) = total vs + total L.
Proof. unfold pushed. destruct left; rewrite total_app, ?total_rev; lia. Qed.

(** PUSH, of at least one value, onto what the key holds. *)
Lemma wp_push left values H w Q :
  let h' := pushed_at left values (first_index H) in
  let L' := pushed left values (elements H) in
  values ≠ [] → env_ok w → (H = None → headroom w) → lrepr a (w_clock w 0%nat) (w_kv w) H →
  fits h' L' → len L' < 2 ^ 32 → total L' < 2 ^ 64 →
  (∀ r w', effect a w w' →
     (if st_max st <? total L' then r = Err ValueTooLarge ∧ lkeeps a H w w'
      else r = Ok (len L') ∧ lmakes a H (Some (h', L')) w w') → Q r w') →
  wp (push st slot key values left) w Q.
Proof.
  intros h' L' Hne Henv Hroom HH Hf Hl Ht HQ. unfold push. apply wp_try.
  apply (wp_list_meta_or_new H); [done..|]. intros meta w1 Ho.
  pose proof (total_pushed left values (elements H)) as Htot. fold L' in Htot.
  pose proof (total_nonneg values). pose proof (total_nonneg (elements H)).
  rewrite (lo_bytes _ _ _ _ Ho), sum_lens_total by lia.
  rewrite wrap_id by (unfold in_width; lia). replace (total (elements H) + total values) with (total L') by lia.
  destruct (st_max st <? total L') eqn:Emax.
  - wp_op. apply HQ; [apply Ho|]. rewrite ?Emax. split; [done|apply Ho].
  - apply wp_bind. apply (wp_push_loop left values meta (total L') (first_index H) (elements H)); try apply Ho.
    + done.
    + intros w2 Hrw. fold h' L' in Hrw |- *. fold (remade meta h' L').
      change (ends (with_bytes meta (total L')) h' (h' + len L')) with (remade meta h' L').
      apply wp_bind. eapply wp_write_meta; [done..|]. intros w' He Hm. wp_op.
      rewrite span_remade, wrap_id by (done || (unfold in_width; lia)).
      apply HQ; [done|]. rewrite ?Emax. split; [done|].
      assert (L' ≠ []) by (intros E; apply (f_equal length) in E; unfold L' in E; rewrite length_pushed in E;
        destruct values; done).
      unfold holding in Hm. by destruct L'.
Qed.

(** ** Popping *)

Lemma remade_self H w meta w' :
  lopened H w meta w' → meta = remade meta (first_index H) (elements H).
Proof.
  intros Ho. pose proof (lo_head _ _ _ _ Ho) as Eh. pose proof (lo_tail _ _ _ _ Ho) as Et.
  pose proof (lo_bytes _ _ _ _ Ho) as Eb. destruct meta as [[hd wr ver sz by_] hh tt]. cbn in *.
  unfold remade, ends, with_bytes. cbn. by rewrite Eh, Et, Eb.
Qed.

Lemma remade_remade meta h L h' L' : remade (remade meta h L) h' L' = remade meta h' L'.
Proof. done. Qed.

Lemma lopened_rows H w meta w' :
  lopened H w meta w' →
  rows_written a (c_version (l_base meta)) (slots (first_index H) (elements H)) w' w'.
Proof. intros Ho. rewrite <-(lo_rows _ _ _ _ Ho). apply rows_written_refl, (lo_env _ _ _ _ Ho). Qed.

(** One element leaves a list at one end. *)
Definition pops (left : bool) (h : Z) (L : list bytes) (x : bytes) (h' : Z) (L' : list bytes) : Prop :=
  if left then L = x :: L' ∧ h' = h + 1 else L = L' ++ [x] ∧ h' = h.

Lemma pops_exists left h L : L ≠ [] → ∃ x h' L', pops left h L x h' L'.
Proof.
  intros Hne. destruct left; cbn.
  - destruct L as [|x L']; [done|]. by exists x, (h + 1), L'.
  - destruct (exists_last Hne) as (L' & x & ->). by exists x, h, L'.
Qed.

Lemma pops_fits left h L x h' L' : pops left h L x h' L' → fits h L → fits h' L'.
Proof.
  unfold pops, fits, in_i64, I64_MIN, I64_MAX. destruct left; intros [-> ->];
    rewrite ?length_app; cbn; lia.
Qed.

Lemma pops_total left h L x h' L' : pops left h L x h' L' → total L = len x + total L'.
Proof. destruct left; intros [-> _]; [done|]. rewrite total_app. cbn. lia. Qed.

Lemma pops_length left h L x h' L' : pops left h L x h' L' → length L = S (length L').
Proof. destruct left; intros [-> _]; [done|]. rewrite length_app. cbn. lia. Qed.

Lemma pop_one left meta h L x h' L' w w' :
  let v := c_version (l_base meta) in
  pops left h L x h' L' → fits h L → in_width 64 v → rows_written a v (slots h L) w w' →
  ∃ idx m2, pop_end left (remade meta h L) = (idx, m2) ∧
    w_kv w' !! (rprefix Subkey a v ++ ix idx) = Some x ∧
    uncharge m2 (Some x) = remade meta h' L' ∧
    rows_written a v (slots h' L') w (with_kv w' (delete (rprefix Subkey a v ++ ix idx) (w_kv w'))).
Proof.
  intros v Hp Hf Hv Hrw. pose proof (pops_fits _ _ _ _ _ _ Hp Hf) as [Hf1 Hf2].
  pose proof (pops_total _ _ _ _ _ _ Hp) as Ht. pose proof (total_nonneg L').
  assert (Hget : ∀ i, w_kv w' !! (rprefix Subkey a v ++ ix i) = slots h L !! ix i).
  { intros i. by rewrite <-lookup_rows_at, (rw_rows _ _ _ _ _ Hrw). }
  unfold pop_end, remade. cbn [l_head l_tail ends].
  destruct left; cbn in Hp; destruct Hp as [-> ->].
  - eexists _, _. split; [done|]. rewrite Hget. split; [apply lookup_insert_eq|]. split.
    + unfold uncharge, with_bytes, ends. cbn [l_base l_head l_tail c_bytes c_header c_written_ms c_version c_size].
      rewrite i64_id by done. f_equal; [|cbn [length]; lia]. f_equal. unfold saturating_sub. lia.
    + rewrite <-(slots_uncons h x L') by done. by apply rows_written_delete.
  - assert (E : h + len (L' ++ [x]) - 1 = h + len L') by (rewrite length_app; cbn; lia).
    rewrite E, i64_id by done. eexists _, _. split; [done|]. rewrite Hget. split; [|split].
    + rewrite lookup_slots by done. rewrite decide_True by lia.
      replace (Z.to_nat (h + len L' - h)) with (length L') by lia. by rewrite list_lookup_middle.
    + unfold uncharge, with_bytes, ends. cbn [l_base l_head l_tail c_bytes c_header c_written_ms c_version c_size].
      f_equal. f_equal. unfold saturating_sub. lia.
    + rewrite <-(slots_unsnoc h L' x) by done. by apply rows_written_delete.
Qed.

Lemma wp_pop left H w Q :
  env_ok w → lrepr a (w_clock w 0%nat) (w_kv w) H →
  (∀ w', H = None → effect a w w' → lkeeps a H w w' → Q (Ok None) w') →
  (∀ x h' L' w', pops left (first_index H) (elements H) x h' L' → effect a w w' →
     lmakes a H (holding h' L') w w' → Q (Ok (Some x)) w') →
  wp (pop st slot key left) w Q.
Proof.
  intros Henv HH HN HS. unfold pop. apply wp_try. apply (wp_list_read H); [done..| |].
  { intros w' E _ He _ Hk. wp_op. by apply HN. }
  intros meta w1 Hne Ho. assert (HneL : elements H ≠ []).
  { destruct H as [[h L]|]; [|done]. apply HH. }
  destruct (pops_exists left (first_index H) (elements H) HneL) as (x & h' & L' & Hp).
  destruct (pop_one left meta _ _ x h' L' w1 w1 Hp) as (idx & m2 & Epop & Hget & Hun & Hrw);
    [apply Ho|apply Ho|by apply (lopened_rows H w)|].
  rewrite <-(remade_self _ _ _ _ Ho) in Epop. rewrite Epop.
  eapply wp_unwrap; [apply elem_key_ok|]. wp_op. wp_op. rewrite Hget, Hun.
  pose proof (pops_total _ _ _ _ _ _ Hp). pose proof (pops_length _ _ _ _ _ _ Hp).
  pose proof (lo_len _ _ _ _ Ho). pose proof (lo_total _ _ _ _ Ho).
  apply wp_bind. eapply wp_write_meta; [done..|eapply pops_fits; [done|apply Ho]|lia|lia|].
  intros w' He Hm. wp_op. by eapply HS.
Qed.

(** Elements in the order they leave; what [k] of them leave behind. *)
Definition leaving (left : bool) (L : list bytes) : list bytes := if left then L else rev L.
Definition remaining (left : bool) (k : nat) (L : list bytes) : list bytes :=
  if left then drop k L else take (length L - k) L.
Definition remaining_at (left : bool) (k : nat) (h : Z) : Z := if left then h + Z.of_nat k else h.

Lemma remaining_pops left h L k :
  (k < length L)%nat → ∃ x, leaving left L !! k = Some x ∧
    pops left (remaining_at left k h) (remaining left k L) x
      (remaining_at left (S k) h) (remaining left (S k) L).
Proof.
  intros Hk. unfold leaving, remaining, remaining_at, pops. destruct left.
  - destruct (lookup_lt_is_Some_2 L k Hk) as [x Hx]. exists x. split; [done|].
    split; [by apply drop_S|lia].
  - destruct (lookup_lt_is_Some_2 L (length L - S k)) as [x Hx]; [lia|]. exists x. split.
    + rewrite rev_alt', reverse_lookup by done. done.
    + split; [|done]. replace (length L - k)%nat with (S (length L - S k)) by lia. by apply take_S_r.
Qed.

Lemma wp_pop_loop left meta h L n w (Q : ListMeta * list bytes → world kvmap → Prop) :
  let v := c_version (l_base meta) in
  in_width 64 v → fits h L → rows_written a v (slots h L) w w → (n ≤ length L)%nat →
  (∀ w', rows_written a v (slots (remaining_at left n h) (remaining left n L)) w w' →
     Q (remade meta (remaining_at left n h) (remaining left n L), take n (leaving left L)) w') →
  wp (fold_ (range 0 (Z.of_nat n)) (pop_step st slot key left) (remade meta h L, [])) w Q.
Proof.
  intros v Hv Hf Hrw Hn HQ. unfold range. rewrite Z.sub_0_r, Nat2Z.id.
  apply (wp_fold (λ l' acc w', ∃ k, (k + length l')%nat = n ∧
    acc = (remade meta (remaining_at left k h) (remaining left k L), take k (leaving left L)) ∧
    fits (remaining_at left k h) (remaining left k L) ∧
    rows_written a v (slots (remaining_at left k h) (remaining left k L)) w w')).
  - exists 0%nat. rewrite length_fmap, length_seq.
    assert (E : remaining_at left 0 h = h ∧ remaining left 0 L = L).
    { unfold remaining_at, remaining. destruct left; cbn; [split; [lia|done]|].
      rewrite Nat.sub_0_r. split; [done|apply take_ge; lia]. }
    destruct E as [-> ->]. done.
  - intros i l' acc w' (k & Ek & -> & Hfk & Hrwk). cbn [length] in Ek.
    destruct (remaining_pops left h L k) as (x & Hx & Hp); [lia|].
    destruct (pop_one left meta _ _ x _ _ w w' Hp) as (idx & m2 & Epop & Hget & Hun & Hrw'); [done..|].
    unfold pop_step. rewrite Epop. eapply wp_unwrap; [apply elem_key_ok|]. wp_op. wp_op.
    cbn [l_base remade ends with_bytes c_version]. rewrite Hget, Hun. wp_op.
    exists (S k). split; [lia|]. split; [by rewrite (take_S_r _ _ x)|].
    split; [by eapply pops_fits|done].
  - intros acc w' (k & Ek & -> & _ & Hrwk). cbn in Ek. rewrite Nat.add_0_r in Ek. subst k. by apply HQ.
Qed.

Lemma remaining_bounds left k h L :
  (k ≤ length L)%nat → fits h L →
  fits (remaining_at left k h) (remaining left k L) ∧
  (length (remaining left k L) ≤ length L)%nat ∧ total (remaining left k L) <= total L.
Proof.
  intros Hk Hf. unfold remaining_at, remaining, fits, in_i64 in *. destruct left.
  - rewrite length_drop. pose proof (total_app (take k L) (drop k L)) as E. rewrite take_drop in E.
    pose proof (total_nonneg (take k L)). lia.
  - rewrite length_take. pose proof (total_app (take (length L - k) L) (drop (length L - k) L)) as E.
    rewrite take_drop in E. pose proof (total_nonneg (drop (length L - k) L)). lia.
Qed.

Lemma remaining_0 left h L : remaining_at left 0 h = h ∧ remaining left 0 L = L.
Proof.
  unfold remaining_at, remaining. destruct left; cbn; [split; [lia|done]|].
  rewrite Nat.sub_0_r. split; [done|apply take_ge; lia].
Qed.

Lemma lopened_span H w meta w' : lopened H w meta w' → span meta = len (elements H).
Proof.
  intros Ho. rewrite (remade_self _ _ _ _ Ho). apply span_remade; [apply Ho|apply (lo_len _ _ _ _ Ho)].
Qed.

(** A list found and left as it is. *)
Lemma lopened_makes H w meta w' :
  lopened H w meta w' → H ≠ None → elements H ≠ [] →
  lmakes a H (holding (first_index H) (elements H)) w w'.
Proof.
  intros Ho Hne HneL now [?|Hnow]; [done|]. apply (lo_keeps _ _ _ _ Ho) in Hnow.
  destruct H as [[h L]|]; [|done]. by destruct L.
Qed.

Lemma wp_pop_n left n H w Q :
  0 <= n → env_ok w → lrepr a (w_clock w 0%nat) (w_kv w) H →
  (∀ w', H = None → effect a w w' → lkeeps a H w w' → Q (Ok None) w') →
  (∀ k w', H ≠ None → k = Z.to_nat (Z.min n (len (elements H))) → effect a w w' →
     lmakes a H (holding (remaining_at left k (first_index H)) (remaining left k (elements H))) w w' →
     Q (Ok (Some (take k (leaving left (elements H))))) w') →
  wp (pop_n st slot key n left) w Q.
Proof.
  intros Hn Henv HH HN HS. unfold pop_n. apply wp_try. apply (wp_list_read H); [done..| |].
  { intros w' E _ He _ Hk. wp_op. by apply HN. }
  intros meta w1 Hne Ho. pose proof (lo_len _ _ _ _ Ho) as Hl. pose proof (lo_fits _ _ _ _ Ho) as Hf.
  assert (HneL : elements H ≠ []) by (destruct H as [[h L]|]; [apply HH|done]).
  rewrite (lopened_span _ _ _ _ Ho), wrap_id by (unfold in_width; lia).
  specialize (HS (Z.to_nat (Z.min n (len (elements H))))).
  set (k := Z.to_nat (Z.min n (len (elements H)))) in *.
  replace (Z.min n (len (elements H))) with (Z.of_nat k) by (unfold k; lia).
  destruct (remaining_bounds left k (first_index H) (elements H)) as (Hr1 & Hr2 & Hr3); [unfold k; lia|done|].
  pose proof (lo_total _ _ _ _ Ho) as Ht. destruct (decide (k = 0%nat)) as [Ek|Ek].
  - rewrite Ek. apply wp_bind. apply wp_ret. apply wp_bind. apply wp_ret. wp_op. specialize (HS w1 Hne eq_refl).
    rewrite Ek in HS. apply HS; [apply Ho|].
    destruct (remaining_0 left (first_index H) (elements H)) as [-> ->]. by apply lopened_makes with meta.
  - rewrite (remade_self _ _ _ _ Ho) at 1.
    apply wp_bind. apply wp_pop_loop; [apply Ho|done|by apply (lopened_rows H w)|unfold k; lia|].
    intros w2 Hrw. cbn [fst snd]. rewrite (proj2 (Z.ltb_lt 0 (Z.of_nat k))) by lia.
    apply wp_bind. eapply wp_write_meta; [done..|lia|lia|]. intros w' He Hm. wp_op. by apply HS.
Qed.

(** ** Reading *)

Lemma lopened_get H w meta w' i :
  lopened H w meta w' → 0 <= i < len (elements H) →
  in_i64 (first_index H + i) ∧
  w_kv w' !! (rprefix Subkey a (c_version (l_base meta)) ++ ix (first_index H + i)) =
  elements H !! Z.to_nat i.
Proof.
  intros Ho Hi. pose proof (lo_fits _ _ _ _ Ho) as Hf.
  assert (in_i64 (first_index H + i)) by (unfold fits, in_i64 in *; lia).
  split; [done|]. rewrite <-lookup_rows_at, (lo_rows _ _ _ _ Ho), lookup_slots by done.
  rewrite decide_True by lia. f_equal. lia.
Qed.

(** The position a rank names, negatives from the end. *)
Definition rank_of (L : list bytes) (rank : Z) : option nat :=
  let r := if rank <? 0 then len L + rank else rank in
  if (0 <=? r) && (r <? len L) then Some (Z.to_nat r) else None.

Lemma norm_exact n i : 0 <= n < 2 ^ 32 → in_i64 i → norm n i = if i <? 0 then n + i else i.
Proof.
  unfold norm, in_i64, I64_MIN, I64_MAX. intros Hn Hi. destruct (Z.ltb_spec i 0); [|done].
  apply signed_id. lia.
Qed.

(** Where a rank lies, for the operations that address one element. *)
Lemma rank_cases L rank :
  len L < 2 ^ 32 → in_i64 rank →
  let r := norm (len L) rank in
  match rank_of L rank with
  | None => (r <? 0) || (len L <=? r) = true
  | Some n => (r <? 0) || (len L <=? r) = false ∧ r = Z.of_nat n ∧ (n < length L)%nat
  end.
Proof.
  intros Hl Hr r. unfold r. rewrite norm_exact by (done || lia). unfold rank_of.
  set (x := if rank <? 0 then len L + rank else rank). clearbody x.
  destruct (Z.leb_spec 0 x), (Z.ltb_spec x (len L)); cbn [andb];
    try (apply orb_true_iff; rewrite Z.ltb_lt, Z.leb_le; lia).
  split; [apply orb_false_iff; rewrite Z.ltb_ge, Z.leb_gt; lia|lia].
Qed.

Lemma wp_lindex rank H w Q :
  in_i64 rank → env_ok w → lrepr a (w_clock w 0%nat) (w_kv w) H →
  (∀ w', effect a w w' → lkeeps a H w w' →
     Q (Ok (rank_of (elements H) rank ≫= λ n, elements H !! n)) w') →
  wp (lindex st slot key rank) w Q.
Proof.
  intros Hrank Henv HH HQ. unfold lindex. apply wp_try. apply (wp_list_read H); [done..| |].
  { intros w' E _ He _ Hk. wp_op. specialize (HQ w' He Hk). subst H. cbn in HQ.
    by destruct (rank_of [] rank). }
  intros meta w1 Hne Ho. specialize (HQ w1 (lo_effect _ _ _ _ Ho) (lo_keeps _ _ _ _ Ho)).
  rewrite (lopened_span _ _ _ _ Ho). pose proof (rank_cases (elements H) rank (lo_len _ _ _ _ Ho) Hrank) as Hc.
  destruct (rank_of (elements H) rank) as [n|].
  - destruct Hc as (-> & -> & Hn). destruct (lopened_get _ _ _ _ (Z.of_nat n) Ho) as [Hin Hget]; [lia|].
    rewrite (lo_head _ _ _ _ Ho), i64_id by done. eapply wp_unwrap; [apply elem_key_ok|]. wp_op. wp_op.
    rewrite Hget, Nat2Z.id. exact HQ.
  - rewrite Hc. wp_op. exact HQ.
Qed.

Lemma wp_llen H w Q :
  env_ok w → lrepr a (w_clock w 0%nat) (w_kv w) H →
  (∀ w', effect a w w' → lkeeps a H w w' → Q (Ok (len (elements H))) w') →
  wp (llen st slot key) w Q.
Proof.
  intros Henv HH HQ. unfold llen. apply wp_try. apply (wp_list_read H); [done..| |].
  { intros w' -> _ He _ Hk. wp_op. by apply HQ. }
  intros meta w1 Hne Ho. wp_op. rewrite (lopened_span _ _ _ _ Ho).
  pose proof (lo_len _ _ _ _ Ho). rewrite wrap_id by (unfold in_width; lia).
  apply HQ; apply Ho.
Qed.

Lemma wp_lset rank value H w Q :
  let n := rank_of (elements H) rank in
  let L' := match n with Some n => <[n := value]> (elements H) | None => elements H end in
  in_i64 rank → env_ok w → lrepr a (w_clock w 0%nat) (w_kv w) H → total L' < 2 ^ 64 →
  (∀ r w', effect a w w' →
     match H, n with
     | None, _ => r = Ok NoKey ∧ lkeeps a H w w'
     | Some _, None => r = Ok OutOfRange ∧ lkeeps a H w w'
     | Some (h, _), Some _ =>
         if st_max st <? total L' then r = Err ValueTooLarge ∧ lkeeps a H w w'
         else r = Ok SetDone ∧ lmakes a H (Some (h, L')) w w'
     end → Q r w') →
  wp (lset st slot key rank value) w Q.
Proof.
  intros n L' Hrank Henv HH Ht HQ. unfold lset. apply wp_try. apply (wp_list_read H); [done..| |].
  { intros w' E _ He _ Hk. wp_op. apply HQ; [done|]. by subst H. }
  intros meta w1 Hne Ho. rewrite (lopened_span _ _ _ _ Ho).
  pose proof (rank_cases (elements H) rank (lo_len _ _ _ _ Ho) Hrank) as Hc. fold n in Hc.
  destruct H as [[h L]|]; [|done]. cbn [elements first_index] in *.
  destruct n as [n|]; [|rewrite Hc; wp_op; apply HQ; [apply Ho|split; [done|apply Ho]]].
  destruct Hc as (-> & -> & Hn). destruct (lopened_get _ _ _ _ (Z.of_nat n) Ho) as [Hin Hget]; [cbn; lia|].
  cbn [elements first_index] in *. rewrite (lo_head _ _ _ _ Ho). cbn [first_index].
  rewrite i64_id by done. eapply wp_unwrap; [apply elem_key_ok|]. wp_op. rewrite Hget, Nat2Z.id.
  destruct (lookup_lt_is_Some_2 L n Hn) as [old Hold]. rewrite Hold.
  assert (Etot : total L = total (take n L) + len old + total (drop (S n) L)).
  { rewrite <-(take_drop_middle L n old Hold) at 1. rewrite total_app, total_cons. lia. }
  assert (Etot' : total L' = total (take n L) + len value + total (drop (S n) L)).
  { unfold L'. rewrite insert_take_drop by done. rewrite total_app, total_cons. lia. }
  pose proof (total_nonneg (take n L)). pose proof (total_nonneg (drop (S n) L)).
  assert (Eb : u64 (saturating_sub (c_bytes (l_base meta)) (len old) + len value) = total L').
  { rewrite (lo_bytes _ _ _ _ Ho). cbn [elements]. unfold saturating_sub.
    rewrite wrap_id by (unfold in_width; lia). lia. }
  rewrite Eb. destruct (st_max st <? total L') eqn:Emax.
  - wp_op. apply HQ; [apply Ho|]. rewrite ?Emax. split; [done|apply Ho].
  - wp_op. assert (El : length L' = length L) by apply length_insert.
    assert (Erem : with_bytes meta (total L') = remade meta h L').
    { unfold remade, ends, with_bytes. cbn. rewrite (lo_head _ _ _ _ Ho), (lo_tail _ _ _ _ Ho). cbn. by rewrite El. }
    rewrite Erem. apply wp_bind. eapply wp_write_meta; [exact Ho| | | |done|].
    + unfold L'. rewrite <-slots_set by (apply Ho || done).
      apply rows_written_put; [done|apply Ho|apply Ho|]. apply (lopened_rows (Some (h, L)) w meta w1 Ho).
    + unfold fits in *. rewrite El. apply (lo_fits _ _ _ _ Ho).
    + rewrite El. apply (lo_len _ _ _ _ Ho).
    + intros w' He Hm. wp_op. apply HQ; [done|]. rewrite ?Emax. split; [done|].
      unfold holding in Hm. destruct L'; [cbn in El; lia|done].
Qed.

(** Collecting the elements at a run of indices. *)
Lemma wp_collect_loop {A} (f : A → Z) meta ids vals out w Q :
  Forall2 (λ i x, w_kv w !! (rprefix Subkey a (c_version (l_base meta)) ++ ix (f i)) = Some x) ids vals →
  Q (out ++ vals) w →
  wp (fold_ ids (λ out i, collect_step st slot key meta out (f i)) out) w Q.
Proof.
  intros HF. revert out. induction HF as [|i x ids vals Hx _ IH]; intros out HQ; cbn [fold_].
  { wp_op. by rewrite app_nil_r in HQ. }
  apply wp_bind. unfold collect_step at 1. eapply wp_unwrap; [apply elem_key_ok|].
  wp_op. rewrite Hx. wp_op. apply IH. by rewrite <-app_assoc.
Qed.

Lemma range_lookup lo hi n i : range lo hi !! n = Some i ↔ i = lo + Z.of_nat n ∧ Z.of_nat n < hi - lo.
Proof.
  unfold range. rewrite list_lookup_fmap_Some. setoid_rewrite lookup_seq. split.
  - intros (j & -> & -> & ?). lia.
  - intros [-> ?]. exists n. split; [done|]. lia.
Qed.

Lemma length_range lo hi : length (range lo hi) = Z.to_nat (hi - lo).
Proof. unfold range. by rewrite length_fmap, length_seq. Qed.

Lemma elem_of_range lo hi i : i ∈ range lo hi ↔ lo <= i < hi.
Proof.
  rewrite list_elem_of_lookup. setoid_rewrite range_lookup. split.
  - intros (n & -> & ?). lia.
  - intros ?. exists (Z.to_nat (i - lo)). lia.
Qed.

(** Ranks [lo..hi] of an open list, by rank. *)
Lemma lopened_range H w meta w' lo hi :
  lopened H w meta w' → 0 <= lo → hi <= len (elements H) →
  Forall2 (λ r x, w_kv w' !! (rprefix Subkey a (c_version (l_base meta)) ++ ix (i64 (l_head meta + r))) = Some x)
    (range lo hi) (take (Z.to_nat (hi - lo)) (drop (Z.to_nat lo) (elements H))).
Proof.
  intros Ho Hlo Hhi. apply Forall2_same_length_lookup. split.
  { rewrite length_range, length_take, length_drop. lia. }
  intros n r x [-> Hn]%range_lookup Hx. apply lookup_take_Some in Hx as [Hx _]. rewrite lookup_drop in Hx.
  destruct (lopened_get _ _ _ _ (lo + Z.of_nat n) Ho) as [Hin Hget]; [lia|].
  rewrite (lo_head _ _ _ _ Ho), i64_id by done. rewrite Hget, <-Hx. f_equal. lia.
Qed.

Lemma wp_collect H w0 meta w (Q : list bytes → world kvmap → Prop) :
  lopened H w0 meta w → Q (elements H) w → wp (collect st slot key meta) w Q.
Proof.
  intros Ho HQ. unfold collect. apply (wp_collect_loop id meta _ (elements H)); [|done].
  rewrite (lo_head _ _ _ _ Ho), (lo_tail _ _ _ _ Ho). apply Forall2_same_length_lookup. split.
  { rewrite length_range. lia. }
  intros n i x [-> Hn]%range_lookup Hx.
  destruct (lopened_get _ _ _ _ (Z.of_nat n) Ho) as [_ Hget]; [lia|]. cbn.
  by rewrite Hget, Nat2Z.id.
Qed.

(** LRANGE's and LTRIM's part of a list. *)
Definition clipped (L : list bytes) (start stop : Z) : Z * Z :=
  let n := len L in
  (Z.max (if start <? 0 then n + start else start) 0,
   Z.min (if stop <? 0 then n + stop else stop) (n - 1)).

Definition slice (L : list bytes) (start stop : Z) : list bytes :=
  let '(from, to) := clipped L start stop in
  take (Z.to_nat (to + 1 - from)) (drop (Z.to_nat from) L).

Lemma clip_exact L start stop :
  len L < 2 ^ 32 → in_i64 start → in_i64 stop → clip (len L) start stop = clipped L start stop.
Proof.
  intros Hl Hs Ht. unfold clip, clipped. rewrite !norm_exact by (done || lia). by rewrite signed_id by lia.
Qed.

Lemma wp_lrange start stop H w Q :
  in_i64 start → in_i64 stop → env_ok w → lrepr a (w_clock w 0%nat) (w_kv w) H →
  (∀ w', effect a w w' → lkeeps a H w w' → Q (Ok (slice (elements H) start stop)) w') →
  wp (lrange st slot key start stop) w Q.
Proof.
  intros Hs Ht Henv HH HQ. unfold lrange. apply wp_try. apply (wp_list_read H); [done..| |].
  { intros w' -> _ He _ Hk. wp_op. specialize (HQ w' He Hk). unfold slice in HQ. cbn [elements] in HQ.
    destruct (clipped [] start stop). by rewrite drop_nil, take_nil in HQ. }
  intros meta w1 Hne Ho. specialize (HQ w1 (lo_effect _ _ _ _ Ho) (lo_keeps _ _ _ _ Ho)).
  rewrite (lopened_span _ _ _ _ Ho), clip_exact by (done || apply (lo_len _ _ _ _ Ho)).
  unfold slice in HQ. destruct (clipped (elements H) start stop) as [from to] eqn:Ec.
  assert (0 <= from ∧ to <= len (elements H) - 1) by (unfold clipped in Ec; injection Ec as <- <-; lia).
  destruct (Z.ltb_spec to from).
  - wp_op. by replace (Z.to_nat (to + 1 - from)) with 0%nat in HQ by lia.
  - apply wp_bind. eapply (wp_collect_loop (λ r, i64 (l_head meta + r)) meta).
    + apply (lopened_range H w); [done|lia|lia].
    + wp_op. exact HQ.
Qed.

Lemma wp_range_bytes start stop H w Q :
  in_i64 start → in_i64 stop → env_ok w → lrepr a (w_clock w 0%nat) (w_kv w) H →
  (∀ w', effect a w w' → lkeeps a H w w' →
     Q (Ok (match H with
            | None => None
            | Some (_, L) => Some (Z.min (len (slice L start stop) * (total L / len L)) U64_MAX)
            end)) w') →
  wp (range_bytes st slot key start stop) w Q.
Proof.
  intros Hs Ht Henv HH HQ. unfold range_bytes. apply wp_try. apply (wp_list_read H); [done..| |].
  { intros w' -> _ He _ Hk. wp_op. by apply HQ. }
  intros meta w1 Hne Ho. specialize (HQ w1 (lo_effect _ _ _ _ Ho) (lo_keeps _ _ _ _ Ho)).
  destruct H as [[h L]|]; [|done]. pose proof (proj1 HH) as HneL. pose proof (lo_len _ _ _ _ Ho) as Hl.
  rewrite (lopened_span _ _ _ _ Ho), (lo_size _ _ _ _ Ho), (lo_bytes _ _ _ _ Ho).
  cbn [elements] in *. assert (0 < len L) by (destruct L; [done|cbn; lia]).
  rewrite (proj2 (Z.leb_gt _ _)), (proj2 (Z.eqb_neq _ _)) by lia. cbn [orb].
  rewrite clip_exact by done. unfold slice in HQ. destruct (clipped L start stop) as [from to] eqn:Ec.
  assert (0 <= from ∧ to <= len L - 1) by (unfold clipped in Ec; injection Ec as <- <-; lia).
  destruct (Z.ltb_spec to from).
  - wp_op. by replace (Z.to_nat (to + 1 - from)) with 0%nat in HQ by lia.
  - wp_op. rewrite (signed_id (to - from)), signed_id by lia.
    rewrite (proj2 (Z.ltb_ge (to - from + 1) 0)) by lia. unfold saturating_mul. rewrite Z.min_comm.
    rewrite length_take, length_drop in HQ.
    by replace (Z.of_nat (Z.to_nat (to + 1 - from) `min` (length L - Z.to_nat from))) with (to - from + 1) in HQ by lia.
Qed.

(** ** Dropping rows *)

Definition val_weight (_ v : bytes) : Z := len v.

Lemma weight_slots h L : fits h L → weight val_weight (slots h L) = total L.
Proof.
  revert h. induction L as [|x L IH]; intros h Hf; cbn [slots]; [apply weight_empty|].
  apply fits_cons in Hf as [Hh Hf]. rewrite weight_insert_new.
  - rewrite IH by done. done.
  - rewrite lookup_slots by done. by rewrite decide_False by lia.
Qed.

Definition without_ix (ids : list Z) (G : kvmap) : kvmap := foldl (λ G i, delete (ix i) G) G ids.

Lemma lookup_without_ix ids G j :
  (∀ i, i ∈ ids → in_i64 i) → in_i64 j →
  without_ix ids G !! ix j = if decide (j ∈ ids) then None else G !! ix j.
Proof.
  intros Hids Hj. unfold without_ix. revert G. induction ids as [|i ids IH]; intros G; cbn [foldl].
  { rewrite decide_False; [done|]. intros H. inversion H. }
  rewrite IH by set_solver. destruct (decide (j = i)) as [->|Hne].
  - rewrite lookup_delete_eq. rewrite (decide_True (P := i ∈ i :: ids)) by set_solver. by case_decide.
  - rewrite lookup_delete_ne by (intros E; apply ix_inj in E; [congruence|set_solver|done]).
    repeat case_decide; set_solver.
Qed.

Lemma without_ix_other ids G f : (∀ i, f ≠ ix i) → without_ix ids G !! f = G !! f.
Proof.
  intros Hf. unfold without_ix. revert G. induction ids as [|i ids IH]; intros G; [done|]. cbn [foldl].
  rewrite IH. apply lookup_delete_ne. intros E. by apply (Hf i).
Qed.

Lemma wp_drop_loop ids meta G w w1 (Q : ListMeta → world kvmap → Prop) :
  let v := c_version (l_base meta) in
  in_width 64 v → rows_written a v G w w1 →
  (∀ w', rows_written a v (without_ix ids G) w w' →
     Q (with_bytes meta (weight val_weight (without_ix ids G))) w') →
  wp (fold_ ids (drop_row st slot key) (with_bytes meta (weight val_weight G))) w1 Q.
Proof.
  intros v Hv. revert G w1. induction ids as [|i ids IH]; intros G w1 Hrw HQ; cbn [fold_].
  { wp_op. by apply HQ. }
  apply wp_bind. unfold drop_row. eapply wp_unwrap; [apply elem_key_ok|]. wp_op. wp_op. wp_op.
  change (c_version (l_base (with_bytes meta (weight val_weight G)))) with v.
  rewrite <-lookup_rows_at, (rw_rows _ _ _ _ _ Hrw).
  assert (E : uncharge (with_bytes meta (weight val_weight G)) (G !! ix i) =
              with_bytes meta (weight val_weight (delete (ix i) G))).
  { destruct (G !! ix i) as [x|] eqn:Ex; cbn [uncharge].
    - unfold with_bytes. cbn [l_base l_head l_tail c_bytes c_header c_written_ms c_version c_size].
      pose proof (weight_delete val_weight G (ix i) x Ex) as Ew.
      pose proof (weight_nonneg val_weight (λ _ v, Zle_0_nat (length v)) (delete (ix i) G)).
      unfold val_weight at 2 in Ew. unfold saturating_sub. do 2 f_equal. lia.
    - by rewrite delete_id. }
  rewrite E. apply IH; [by apply rows_written_delete|exact HQ].
Qed.

(** Where LTRIM's kept run starts. *)
Definition trimmed_at (h : Z) (L : list bytes) (start stop : Z) : Z :=
  match slice L start stop with [] => h | _ => h + (clipped L start stop).1 end.

Lemma trim_ends h L start stop :
  fits h L →
  let '(from, to) := clipped L start stop in
  let h' := trimmed_at h L start stop in
  let L' := slice L start stop in
  (if to <? from then (h, h) else (i64 (h + from), i64 (i64 (h + to) + 1))) = (h', h' + len L') ∧
  h <= h' ∧ h' + len L' <= h + len L ∧
  (∀ n, (n < length L')%nat → L' !! n = L !! Z.to_nat (h' - h + Z.of_nat n)).
Proof.
  intros Hf. unfold trimmed_at, slice. destruct (clipped L start stop) as [from to] eqn:Ec.
  assert (Hft : 0 <= from ∧ to <= len L - 1) by (unfold clipped in Ec; injection Ec as <- <-; lia).
  set (L' := take (Z.to_nat (to + 1 - from)) (drop (Z.to_nat from) L)).
  assert (Elen : length L' = Z.to_nat (to + 1 - from)) by (unfold L'; rewrite length_take, length_drop; lia).
  unfold fits, in_i64, I64_MIN, I64_MAX in Hf. destruct (Z.ltb_spec to from).
  - assert (E0 : L' = []) by (apply length_zero_iff_nil; lia). rewrite E0. cbn [length].
    split_and!; [f_equal; lia|lia|lia|intros; lia].
  - assert (Eh : match L' with [] => h | _ => h + (from, to).1 end = h + from).
    { destruct L'; [cbn in Elen; lia|done]. }
    rewrite Eh, Elen, (signed_id (h + from)), (signed_id (h + to)), signed_id by lia.
    split_and!; [f_equal; lia|lia|lia|]. intros n Hn. unfold L'.
    rewrite lookup_take_lt, lookup_drop by lia. f_equal. lia.
Qed.

Lemma trim_rows h L h' L' :
  fits h L → h <= h' → h' + len L' <= h + len L →
  (∀ n, (n < length L')%nat → L' !! n = L !! Z.to_nat (h' - h + Z.of_nat n)) →
  fits h' L' ∧ without_ix (range h h' ++ range (h' + len L') (h + len L)) (slots h L) = slots h' L'.
Proof.
  intros Hf Hh1 Hh2 Hlook. assert (Hf' : fits h' L') by (unfold fits, in_i64 in *; lia).
  split; [done|]. set (ids := range h h' ++ range (h' + len L') (h + len L)).
  assert (Hids : ∀ i, i ∈ ids ↔ h <= i < h' ∨ h' + len L' <= i < h + len L).
  { intros i. unfold ids. by rewrite elem_of_app, !elem_of_range. }
  assert (Hin : ∀ i, i ∈ ids → in_i64 i) by (intros i [?|?]%Hids; unfold fits, in_i64 in *; lia).
  apply slots_unique; [done| |].
  - intros i Hi. rewrite lookup_without_ix, lookup_slots by done.
    destruct (decide (i ∈ ids)) as [[?|?]%Hids|Hni].
    + by rewrite decide_False by lia.
    + rewrite decide_True by lia. symmetry. apply lookup_ge_None_2. lia.
    + assert (¬ (h <= i < h' ∨ h' + len L' <= i < h + len L)) by (by rewrite <-Hids).
      destruct (decide (h <= i)), (decide (h' <= i)); try (exfalso; lia); [|done].
      destruct (decide (i < h' + len L')).
      * rewrite Hlook by lia. f_equal. lia.
      * rewrite !lookup_ge_None_2 by lia. done.
  - intros f Hn. rewrite without_ix_other by done. by apply slots_other.
Qed.

Lemma total_slice L start stop : total (slice L start stop) <= total L.
Proof.
  unfold slice. destruct (clipped L start stop) as [from to].
  rewrite <-(take_drop (Z.to_nat from) L) at 2. rewrite total_app. set (D := drop (Z.to_nat from) L).
  rewrite <-(take_drop (Z.to_nat (to + 1 - from)) D) at 2. rewrite total_app.
  pose proof (total_nonneg (take (Z.to_nat from) L)).
  pose proof (total_nonneg (drop (Z.to_nat (to + 1 - from)) D)). lia.
Qed.

Lemma wp_ltrim start stop H w Q :
  let h' := trimmed_at (first_index H) (elements H) start stop in
  let L' := slice (elements H) start stop in
  in_i64 start → in_i64 stop → env_ok w → lrepr a (w_clock w 0%nat) (w_kv w) H →
  (∀ w', effect a w w' →
     (if H then lmakes a H (holding h' L') w w' else lkeeps a H w w') → Q (Ok tt) w') →
  wp (ltrim st slot key start stop) w Q.
Proof.
  intros h' L' Hs Ht Henv HH HQ. unfold ltrim. apply wp_try. apply (wp_list_read H); [done..| |].
  { intros w' E _ He _ Hk. wp_op. apply HQ; [done|]. by subst H. }
  intros meta w1 Hne Ho. pose proof (lo_fits _ _ _ _ Ho) as Hf. pose proof (lo_len _ _ _ _ Ho) as Hl.
  rewrite (lopened_span _ _ _ _ Ho), clip_exact by done.
  set (h := first_index H) in *. set (L := elements H) in *.
  pose proof (trim_ends h L start stop Hf) as Hends.
  destruct (clipped L start stop) as [from to]. destruct Hends as (Ee & Hh1 & Hh2 & Hlook).
  fold h' L' in Ee, Hh1, Hh2, Hlook. destruct (trim_rows h L h' L' Hf Hh1 Hh2 Hlook) as [Hf' EG].
  rewrite (lo_head _ _ _ _ Ho), (lo_tail _ _ _ _ Ho). fold h L. rewrite Ee.
  apply wp_bind. rewrite (remade_self _ _ _ _ Ho) at 1. fold h L.
  replace (remade meta h L) with (with_bytes meta (weight val_weight (slots h L))).
  2:{ rewrite weight_slots by done. unfold remade, with_bytes, ends. cbn.
      by rewrite (lo_head _ _ _ _ Ho), (lo_tail _ _ _ _ Ho). }
  apply wp_drop_loop with (w := w1); [apply Ho|apply (lopened_rows H w meta w1 Ho)|].
  intros w2 Hrw. rewrite EG in Hrw |- *. rewrite weight_slots by done.
  apply wp_bind. change (ends (with_bytes meta (total L')) h' (h' + len L')) with (remade meta h' L').
  pose proof (lo_total _ _ _ _ Ho : total L < _) as Ht0. pose proof (total_slice L start stop : total L' <= _).
  eapply wp_write_meta; [exact Ho|exact Hrw|done|lia|lia|]. intros w' He Hm. wp_op. apply HQ; [done|]. by destruct H.
Qed.

(** ** Collect and rewrite *)

Lemma wp_delete_loop ids v G w w1 (Q : unit → world kvmap → Prop) :
  in_width 64 v → rows_written a v G w w1 →
  (∀ w', rows_written a v (without_ix ids G) w w' → Q tt w') →
  wp (for_ ids (λ i, ek <- unwrap (elem_key st slot key v i) ;; kvdelete ek ;;; Ret tt)) w1 Q.
Proof.
  intros Hv. revert G w1. induction ids as [|i ids IH]; intros G w1 Hrw HQ; cbn [for_].
  { wp_op. by apply HQ. }
  apply wp_bind. eapply wp_unwrap; [apply elem_key_ok|]. wp_op. wp_op.
  apply (IH (delete (ix i) G)); [by apply rows_written_delete|exact HQ].
Qed.

Lemma range_cons lo hi : lo < hi → range lo hi = lo :: range (lo + 1) hi.
Proof.
  intros Hlt. unfold range. replace (Z.to_nat (hi - lo)) with (S (Z.to_nat (hi - (lo + 1)))) by lia.
  cbn [seq fmap list_fmap]. f_equal; [lia|]. rewrite <-fmap_S_seq, <-list_fmap_compose.
  apply list_fmap_ext. intros _ i _. cbn. lia.
Qed.

Lemma wp_put_loop v h pre vs w w1 (Q : unit → world kvmap → Prop) :
  in_width 64 v → v <= w_last w → fits h (pre ++ vs) →
  rows_written a v (slots h pre) w w1 →
  (∀ w', rows_written a v (slots h (pre ++ vs)) w w' → Q tt w') →
  wp (for_ (zip (range (len pre) (len pre + len vs)) vs)
    (λ p, ek <- unwrap (elem_key st slot key v (i64 (h + p.1))) ;; kvput ek p.2)) w1 Q.
Proof.
  intros Hv Hle. revert pre w1. induction vs as [|x vs IH]; intros pre w1 Hf Hrw HQ.
  { rewrite zip_with_nil_r. apply wp_ret. rewrite app_nil_r in HQ. by apply HQ. }
  rewrite range_cons by (cbn; lia). cbn [zip_with for_]. apply wp_bind. cbn [fst snd].
  assert (Hin : in_i64 (h + len pre)).
  { unfold fits, in_i64 in *. rewrite length_app in Hf. lia. }
  rewrite i64_id by done. eapply wp_unwrap; [apply elem_key_ok|].
  eexists _, _. split; [reflexivity|]. cbn beta.
  replace (len pre + 1) with (len (pre ++ [x])) by (rewrite length_app; cbn; lia).
  replace (len pre + len (x :: vs)) with (len (pre ++ [x]) + len vs) by (rewrite length_app; cbn; lia).
  rewrite cons_middle, app_assoc in Hf. setoid_rewrite cons_middle in HQ. setoid_rewrite app_assoc in HQ.
  apply IH; [done| |done].
  rewrite <-slots_snoc; [by apply rows_written_put|].
  unfold fits, in_i64 in *. rewrite !length_app in *. lia.
Qed.

Lemma wp_rewrite H w meta w1 vals (Q : unit → world kvmap → Prop) :
  let h := first_index H in
  lopened H w meta w1 → fits h vals → len vals < 2 ^ 32 → total vals < 2 ^ 64 →
  (∀ w', effect a w w' → lmakes a H (holding h vals) w w' → Q tt w') →
  wp (rewrite_list st slot key meta vals) w1 Q.
Proof.
  intros h Ho Hf Hl Ht HQ. unfold rewrite_list. apply wp_bind.
  pose proof (lo_fits _ _ _ _ Ho) as Hf0.
  rewrite (lo_head _ _ _ _ Ho), (lo_tail _ _ _ _ Ho). fold h in Hf0 |- *.
  eapply wp_delete_loop; [apply Ho|apply (lopened_rows H w meta w1 Ho)|]. intros w2 Hrw.
  fold h in Hrw.
  destruct (trim_rows h (elements H) h []) as [_ EG]; [done|lia|cbn; lia|intros n Hn; cbn in Hn; lia|].
  assert (Er : range h h = []) by (unfold range; by rewrite Z.sub_diag). rewrite Er in EG. cbn [app] in EG.
  change (len []) with 0 in EG. rewrite Z.add_0_r in EG. rewrite EG in Hrw.
  apply wp_bind. change (range 0 (len vals)) with (range (len (@nil bytes)) (len (@nil bytes) + len vals)).
  apply (wp_put_loop _ h [] vals w1); [apply Ho|apply (lo_version _ _ _ _ Ho)|done|done|].
  intros w3 Hrw3. cbn [app] in Hrw3.
  rewrite i64_id by apply Hf. rewrite sum_lens_total by done.
  change (ends (with_bytes meta (total vals)) h (h + len vals)) with (remade meta h vals).
  by eapply wp_write_meta.
Qed.

(** [keep] is [L] without its first occurrences of [x], [n] of them, up to
    [limit] and all there are if fewer. *)
Definition drops_first (limit : Z) (x : bytes) (L keep : list bytes) (n : Z) : Prop :=
  ∃ pre suf, L = pre ++ suf ∧ keep = filter (λ y, y ≠ x) pre ++ suf ∧
    n = len (filter (λ y, y = x) pre) ∧ n <= limit ∧ (n = limit ∨ x ∉ suf).

Lemma lrem_filter_spec limit x L r :
  r <= limit →
  ∃ pre suf, L = pre ++ suf ∧
    lrem_filter limit r x L = (r + len (filter (λ y, y = x) pre), filter (λ y, y ≠ x) pre ++ suf) ∧
    r + len (filter (λ y, y = x) pre) <= limit ∧
    (r + len (filter (λ y, y = x) pre) = limit ∨ x ∉ suf).
Proof.
  revert r. induction L as [|v L IH]; intros r Hr; cbn [lrem_filter].
  { exists [], []. cbn. split_and!; [done|f_equal; lia|lia|right; by apply not_elem_of_nil]. }
  destruct (Z.ltb_spec r limit) as [Hlt|Hge]; cbn [andb].
  2:{ exists [], (v :: L). cbn [app]. rewrite filter_nil. cbn. assert (r = limit) as -> by lia.
      split_and!; [done| |lia|left; lia].
      assert (E : ∀ L, lrem_filter limit limit x L = (limit, L)).
      { clear. intros L. induction L as [|v L IH]; [done|]. cbn. rewrite Z.ltb_irrefl. cbn. by rewrite IH. }
      rewrite E. cbn. f_equal. lia. }
  destruct (decide (v = x)) as [->|Hne].
  - rewrite bool_decide_eq_true_2 by done. destruct (IH (r + 1)) as (pre & suf & -> & E & Hle & Hor); [lia|].
    exists (x :: pre), suf. rewrite filter_cons_True, filter_cons_False by naive_solver.
    cbn [length app]. rewrite E. split_and!; [done|f_equal; lia|lia|]. destruct Hor; [left; lia|by right].
  - rewrite bool_decide_eq_false_2 by done. destruct (IH r Hr) as (pre & suf & -> & E & Hle & Hor).
    exists (v :: pre), suf. rewrite filter_cons_False, filter_cons_True by done. rewrite E. done.
Qed.

(** What LREM keeps and how many it removes: the first occurrences for a
    positive count, the last for a negative one, all for zero. *)
Definition lrem_spec (count : Z) (x : bytes) (L keep : list bytes) (n : Z) : Prop :=
  let limit := if count =? 0 then U64_MAX else Z.abs count in
  if 0 <=? count then drops_first limit x L keep n else drops_first limit x (rev L) (rev keep) n.

Lemma lrem_filtered count x L :
  let '(n, keep) :=
    if 0 <=? count then lrem_filter (if count =? 0 then U64_MAX else unsigned_abs count) 0 x L
    else let '(n, k) := lrem_filter (if count =? 0 then U64_MAX else unsigned_abs count) 0 x (rev L) in (n, rev k) in
  lrem_spec count x L keep n.
Proof.
  set (limit := if count =? 0 then U64_MAX else unsigned_abs count).
  assert (Hlim : 0 <= limit) by (unfold limit, unsigned_abs, U64_MAX; destruct (count =? 0); lia).
  unfold lrem_spec. change (if count =? 0 then U64_MAX else Z.abs count) with limit. destruct (0 <=? count).
  - destruct (lrem_filter_spec limit x L 0 Hlim) as (pre & suf & El & E & Hle & Hor). rewrite E.
    rewrite Z.add_0_l in *. by exists pre, suf.
  - destruct (lrem_filter_spec limit x (rev L) 0 Hlim) as (pre & suf & El & E & Hle & Hor). rewrite E.
    rewrite Z.add_0_l in *. exists pre, suf. by rewrite rev_involutive.
Qed.

Lemma drops_first_bounds limit x L keep n :
  drops_first limit x L keep n →
  length L = (Z.to_nat n + length keep)%nat ∧ 0 <= n ∧ total keep <= total L ∧ (n = 0 → keep = L).
Proof.
  intros (pre & suf & -> & -> & -> & _). rewrite !length_app, !total_app.
  assert (H : length pre = (length (filter (λ y, y = x) pre) + length (filter (λ y, y ≠ x) pre))%nat ∧
    total (filter (λ y, y ≠ x) pre) <= total pre ∧
    (length (filter (λ y, y = x) pre) = 0%nat → filter (λ y, y ≠ x) pre = pre)).
  { induction pre as [|v pre (IH1 & IH2 & IH3)]; [done|]. destruct (decide (v = x)) as [->|Hne].
    - rewrite filter_cons_True, filter_cons_False by naive_solver. rewrite total_cons. cbn. lia.
    - rewrite filter_cons_False, filter_cons_True by done. rewrite !total_cons. cbn [length].
      split_and!; [lia|lia|]. intros E. by rewrite IH3. }
  destruct H as (H1 & H2 & H3). split_and!; [lia|lia|lia|]. intros E. rewrite H3 by lia. done.
Qed.

Lemma wp_lrem count x H w Q :
  env_ok w → lrepr a (w_clock w 0%nat) (w_kv w) H →
  (∀ n keep w', lrem_spec count x (elements H) keep n → effect a w w' →
     (if H then lmakes a H (holding (first_index H) keep) w w' else lkeeps a H w w') → Q (Ok n) w') →
  wp (lrem st slot key count x) w Q.
Proof.
  intros Henv HH HQ. unfold lrem. apply wp_try. apply (wp_list_read H); [done..| |].
  { intros w' -> _ He _ Hk. wp_op. apply (HQ 0 []); [|done|done].
    assert (Hd : ∀ limit, 0 <= limit → drops_first limit x [] [] 0).
    { intros limit Hl. exists [], []. cbn. split_and!; try done. right. apply not_elem_of_nil. }
    unfold lrem_spec. destruct (0 <=? count); cbn; apply Hd; unfold U64_MAX; destruct (count =? 0); lia. }
  intros meta w1 Hne Ho. apply wp_bind. apply (wp_collect H w); [done|].
  pose proof (lrem_filtered count x (elements H)) as Hs.
  destruct (if 0 <=? count then _ else _) as [n keep].
  assert (Hb : length (elements H) = (Z.to_nat n + length keep)%nat ∧ 0 <= n ∧ total keep <= total (elements H) ∧
    (n = 0 → keep = elements H)).
  { unfold lrem_spec in Hs. destruct (0 <=? count); apply drops_first_bounds in Hs; [done|].
    rewrite !length_rev, !total_rev in Hs. destruct Hs as (? & ? & ? & E). split_and!; [done..|].
    intros Hz. rewrite <-(rev_involutive keep), E by done. apply rev_involutive. }
  destruct Hb as (Hb1 & Hb2 & Hb3 & Hb4). pose proof (lo_fits _ _ _ _ Ho) as Hf.
  pose proof (lo_len _ _ _ _ Ho). pose proof (lo_total _ _ _ _ Ho).
  assert (HneL : elements H ≠ []) by (destruct H as [[h L]|]; [apply HH|done]).
  apply wp_bind. destruct (Z.ltb_spec 0 n).
  - eapply wp_rewrite; [exact Ho|unfold fits, in_i64 in *; lia|lia|lia|]. intros w' He Hm. wp_op.
    apply (HQ n keep); [done..|]. by destruct H.
  - wp_op. wp_op. apply (HQ n keep); [done|apply Ho|]. rewrite Hb4 by lia.
    destruct H as [p|]; [|done]. by apply (lopened_makes (Some p) w meta w1 Ho).
Qed.

Lemma position_spec pivot L :
  match position pivot L with
  | Some n => ∃ pre suf, L = pre ++ pivot :: suf ∧ pivot ∉ pre ∧ n = length pre
  | None => pivot ∉ L
  end.
Proof.
  induction L as [|v L IH]; cbn [position]; [apply not_elem_of_nil|].
  destruct (decide (v = pivot)) as [->|Hne]; [exists [], L; set_solver|].
  destruct (position pivot L) as [n|]; cbn; [|set_solver].
  destruct IH as (pre & suf & -> & Hp & ->). exists (v :: pre), suf. set_solver.
Qed.

(** LINSERT puts the element before or after the first occurrence of the
    pivot. *)
Definition linserted (before : bool) (pivot x : bytes) (L L' : list bytes) : Prop :=
  ∃ pre suf, L = pre ++ pivot :: suf ∧ pivot ∉ pre ∧
    L' = pre ++ (if before then [x; pivot] else [pivot; x]) ++ suf.

Lemma wp_linsert before pivot x H w Q :
  env_ok w → lrepr a (w_clock w 0%nat) (w_kv w) H →
  fits (first_index H) (x :: elements H) → len (elements H) + 1 < 2 ^ 32 →
  total (elements H) + len x < 2 ^ 64 →
  (∀ r w', effect a w w' →
     match H with
     | None => r = Ok 0 ∧ lkeeps a H w w'
     | Some (h, L) =>
         if st_max st <? total L + len x then r = Err ValueTooLarge ∧ lkeeps a H w w'
         else r = Ok (-1) ∧ pivot ∉ L ∧ lkeeps a H w w' ∨
              ∃ L', linserted before pivot x L L' ∧ r = Ok (len L') ∧ lmakes a H (Some (h, L')) w w'
     end → Q r w') →
  wp (linsert st slot key before pivot x) w Q.
Proof.
  intros Henv HH Hf Hl Ht HQ. unfold linsert. apply wp_try. apply (wp_list_read H); [done..| |].
  { intros w' E _ He _ Hk. wp_op. apply HQ; [done|]. by subst H. }
  intros meta w1 Hne Ho. destruct H as [[h L]|]; [|done]. cbn [elements first_index] in *.
  rewrite (lo_bytes _ _ _ _ Ho). cbn [elements]. pose proof (total_nonneg L).
  rewrite wrap_id by (unfold in_width; lia).
  destruct (st_max st <? total L + len x) eqn:Emax.
  { wp_op. apply HQ; [apply Ho|]. split; [done|apply Ho]. }
  apply wp_bind. apply (wp_collect (Some (h, L)) w); [done|]. cbn [elements].
  pose proof (position_spec pivot L) as Hp. destruct (position pivot L) as [n|].
  2:{ wp_op. apply HQ; [apply Ho|]. left. split_and!; [done..|apply Ho]. }
  destruct Hp as (pre & suf & EL & Hpre & ->).
  set (L' := take (if before then length pre else S (length pre)) L ++ x ::
             drop (if before then length pre else S (length pre)) L).
  assert (Hins : linserted before pivot x L L').
  { exists pre, suf. split_and!; [done..|]. unfold L'. destruct before.
    - by rewrite EL, take_app_length, drop_app_length.
    - assert (E2 : L = (pre ++ [pivot]) ++ suf) by (by rewrite EL, <-app_assoc).
      replace (S (length pre)) with (length (pre ++ [pivot])) by (rewrite length_app; cbn; lia).
      rewrite E2, take_app_length, drop_app_length. by rewrite <-app_assoc. }
  assert (Elen : length L' = S (length L)).
  { unfold L'. rewrite length_app. cbn [length]. rewrite length_take, length_drop.
    rewrite EL, length_app. cbn [length]. destruct before; lia. }
  assert (Etot : total L' = total L + len x).
  { unfold L'. rewrite total_app, total_cons.
    rewrite <-(take_drop (if before then length pre else S (length pre)) L) at 3. rewrite total_app. lia. }
  assert (Hf' : fits h L') by (unfold fits, in_i64 in *; rewrite Elen; cbn [length] in Hf; lia).
  clearbody L'. apply wp_bind. eapply wp_rewrite; [exact Ho|exact Hf'|lia|lia|]. intros w' He Hm. wp_op.
  apply HQ; [done|]. right. exists L'. split_and!; [done..|]. unfold holding in Hm. by destruct L'.
Qed.

(** ** LPOS *)

Definition lpos_hits (L : list bytes) (x : bytes) (ranks : list Z) : list Z :=
  filter (λ r, L !! Z.to_nat r = Some x) ranks.

Definition limited (count : Z) (l : list Z) : list Z := if count =? 0 then l else take (Z.to_nat count) l.

(** The matching positions in scan order, past the first [|rank| - 1], up to
    [count] of them, among the first [maxlen] elements scanned. *)
Definition lpos_spec (L : list bytes) (x : bytes) (rank count maxlen : Z) : list Z :=
  let ranks := if 0 <? rank then range 0 (len L) else rev (range 0 (len L)) in
  limited count (drop (Z.to_nat (Z.abs rank - 1)) (lpos_hits L x (limited maxlen ranks))).

Lemma wp_lpos_scan H w0 meta w x count skip out ranks Q :
  lopened H w0 meta w → (∀ r, r ∈ ranks → 0 <= r < len (elements H)) →
  0 <= skip → 0 <= count → (count = 0 ∨ len out < count) →
  Q (out ++ (let hits := drop (Z.to_nat skip) (lpos_hits (elements H) x ranks) in
             if count =? 0 then hits else take (Z.to_nat (count - len out)) hits)) w →
  wp (lpos_scan st slot key meta x count skip out ranks) w Q.
Proof.
  intros Ho. revert skip out. induction ranks as [|r ranks IH]; intros skip out Hr Hs Hc Hout HQ; cbn [lpos_scan].
  { wp_op. cbn in HQ. rewrite drop_nil in HQ. destruct (count =? 0); rewrite ?take_nil, app_nil_r in HQ; done. }
  assert (Hrr : 0 <= r < len (elements H)) by (apply Hr; by constructor).
  assert (Hr' : ∀ r', r' ∈ ranks → 0 <= r' < len (elements H)) by (intros; apply Hr; by constructor).
  destruct (lopened_get _ _ _ _ r Ho Hrr) as [Hin Hget].
  rewrite (lo_head _ _ _ _ Ho), i64_id by done. eapply wp_unwrap; [apply elem_key_ok|].
  wp_op. rewrite Hget. unfold lpos_hits in *. destruct (decide (elements H !! Z.to_nat r = Some x)) as [E|E].
  2:{ apply IH; [done..|]. by rewrite filter_cons_False in HQ. }
  rewrite filter_cons_True in HQ by done. destruct (Z.ltb_spec 0 skip).
  - apply IH; [done|lia|done|done|]. by replace (Z.to_nat skip) with (S (Z.to_nat (skip - 1))) in HQ by lia.
  - assert (skip = 0) as -> by lia. change (Z.to_nat 0) with 0%nat in *. cbn [drop] in HQ.
    assert (El : len (out ++ [r]) = len out + 1) by (rewrite length_app; cbn; lia). rewrite El.
    destruct (Z.eqb_spec count 0) as [->|Hc0]; cbn [negb andb] in *.
    + apply IH; [done|lia|done|by left|]. cbn [Z.eqb]. rewrite <-app_assoc. by rewrite drop_0 in *.
    + destruct Hout as [?|Hout]; [done|]. destruct (Z.leb_spec count (len out + 1)).
      * wp_op. replace (Z.to_nat (count - len out)) with 1%nat in HQ by lia. cbn in HQ.
        by rewrite take_0 in HQ.
      * apply IH; [done|lia|done|right; lia|]. cbn zeta. destruct (Z.eqb_spec count 0); [done|].
        rewrite El. rewrite <-app_assoc. change (Z.to_nat 0) with 0%nat. rewrite drop_0 in *.
        replace (Z.to_nat (count - len out)) with (S (Z.to_nat (count - (len out + 1)))) in HQ by lia. exact HQ.
Qed.

Lemma wp_lpos x rank count maxlen H w Q :
  0 <= count → 0 <= maxlen → env_ok w → lrepr a (w_clock w 0%nat) (w_kv w) H →
  (∀ w', effect a w w' → lkeeps a H w w' → Q (Ok (lpos_spec (elements H) x rank count maxlen)) w') →
  wp (lpos st slot key x rank count maxlen) w Q.
Proof.
  intros Hc Hm Henv HH HQ. unfold lpos. apply wp_try. apply (wp_list_read H); [done..| |].
  { intros w' -> _ He _ Hk. wp_op. specialize (HQ w' He Hk).
    assert (E : lpos_spec (elements None) x rank count maxlen = []).
    { unfold lpos_spec, limited, lpos_hits. cbn [elements length]. change (range 0 (Z.of_nat 0)) with (@nil Z). cbn [rev].
      destruct (0 <? rank), (maxlen =? 0), (count =? 0); by rewrite ?take_nil, ?filter_nil, ?drop_nil, ?take_nil. }
    by rewrite E in HQ. }
  intros meta w1 Hne Ho. specialize (HQ w1 (lo_effect _ _ _ _ Ho) (lo_keeps _ _ _ _ Ho)).
  rewrite (lopened_span _ _ _ _ Ho). apply wp_bind. apply (wp_lpos_scan H w).
  - done.
  - intros r Hr. apply elem_of_range. assert (Hr0 : r ∈ (if 0 <? rank then range 0 (len (elements H))
      else rev (range 0 (len (elements H))))).
    { destruct (maxlen =? 0); [done|]. apply list_elem_of_lookup in Hr as [n Hn].
      apply lookup_take_Some in Hn as [Hn _]. by eapply list_elem_of_lookup_2. }
    destruct (0 <? rank); [done|]. by rewrite rev_alt', elem_of_reverse in Hr0.
  - unfold saturating_sub. lia.
  - done.
  - cbn. lia.
  - wp_op. unfold lpos_spec, limited in HQ. cbn [app length]. change (Z.of_nat 0) with 0. rewrite Z.sub_0_r.
    replace (Z.to_nat (saturating_sub (unsigned_abs rank) 1)) with (Z.to_nat (Z.abs rank - 1)); [exact HQ|].
    unfold saturating_sub, unsigned_abs. lia.
Qed.

Lemma lkeeps_now H w w' n :
  lkeeps a H w w' → effect a w w' → (∀ n, lrepr a (w_clock w n) (w_kv w) H) → lrepr a (w_clock w' n) (w_kv w') H.
Proof. intros Hk [[d Hd] _ _ _] Hs. rewrite Hd. apply Hk, Hs. Qed.

(** PUSHX: the push when the list is there, and nothing otherwise. *)
Lemma wp_push_existing left values H w Q :
  let h' := pushed_at left values (first_index H) in
  let L' := pushed left values (elements H) in
  values ≠ [] → env_ok w → (∀ n, lrepr a (w_clock w n) (w_kv w) H) →
  fits h' L' → len L' < 2 ^ 32 → total L' < 2 ^ 64 →
  (∀ r w', effect a w w' →
     match H with
     | None => r = Ok 0 ∧ lkeeps a H w w'
     | Some _ =>
         if st_max st <? total L' then r = Err ValueTooLarge ∧ lkeeps a H w w'
         else r = Ok (len L') ∧ lmakes a H (Some (h', L')) w w'
     end → Q r w') →
  wp (push_existing st slot key values left) w Q.
Proof.
  intros h' L' Hv Henv HH Hf Hl Ht HQ. unfold push_existing. apply wp_try.
  apply (wp_list_read H); [done..| |].
  { intros w' E _ He _ Hk. wp_op. apply HQ; [done|]. by subst H. }
  intros meta w1 Hne Ho. pose proof (lo_effect _ _ _ _ Ho) as He1. pose proof (lo_keeps _ _ _ _ Ho) as Hk1.
  apply (wp_push left values H); [done|apply (lo_env _ _ _ _ Ho)|done|by eapply lkeeps_now|done..|].
  intros r w' He Hr. apply HQ; [by eapply effect_trans|]. destruct H as [p|]; [|done].
  fold h' L' in Hr. destruct (st_max st <? total L'); destruct Hr as [-> Hm]; (split; [done|]).
  - intros now Hnow. auto.
  - intros now [?|Hnow]; [done|]. apply Hm. right. auto.
Qed.
End Specs.

(** ** Properties *)

(** C24. LPUSH and RPUSH put the values at their end in the order pushed and
    answer the new length, or refuse a list over the cap and leave it as it
    was; LPOP and RPOP take the element at their end, and with a count that
    many in the order they leave; a list that becomes empty is deleted.
    The counters, the size and the bytes charged stay exact. *)
Theorem deque_refines st slot key left values n H w :
  let a := mkAddr (st_ns st) slot key in
  let h' := pushed_at left values (first_index H) in
  let L' := pushed left values (elements H) in
  let k := Z.to_nat (Z.min n (len (elements H))) in
  addr_wf a → env_ok w → headroom w → lrepr a (w_clock w 0%nat) (w_kv w) H →
  (values ≠ [] → fits h' L' → len L' < 2 ^ 32 → total L' < 2 ^ 64 →
    wp (push st slot key values left) w (λ r w', effect a w w' ∧
      if st_max st <? total L' then r = Err ValueTooLarge ∧ lkeeps a H w w'
      else r = Ok (len L') ∧ lmakes a H (Some (h', L')) w w')) ∧
  wp (pop st slot key left) w (λ r w', effect a w w' ∧
    ((H = None ∧ r = Ok None ∧ lkeeps a H w w') ∨
     ∃ x h' L', pops left (first_index H) (elements H) x h' L' ∧ r = Ok (Some x) ∧
       lmakes a H (holding h' L') w w')) ∧
  (0 <= n → wp (pop_n st slot key n left) w (λ r w', effect a w w' ∧
    if H then r = Ok (Some (take k (leaving left (elements H)))) ∧
      lmakes a H (holding (remaining_at left k (first_index H)) (remaining left k (elements H))) w w'
    else r = Ok None ∧ lkeeps a H w w')).
Proof.
  intros a h' L' k Ha Henv Hroom HH. split_and!.
  - intros Hv Hf Hl Ht. by apply (wp_push st slot key Ha left values H).
  - apply (wp_pop st slot key Ha left H); [done..| |].
    + intros w' -> He Hk. split; [done|]. by left.
    + intros x h1 L1 w' Hp He Hm. split; [done|]. right. by exists x, h1, L1.
  - intros Hn. apply (wp_pop_n st slot key Ha left n H); [done..| |].
    + intros w' -> He Hk. done.
    + intros k' w' Hne -> He Hm. split; [done|]. by destruct H.
Qed.

(** A list of two elements, and its world. *)
Definition demo_elems : list bytes := [bstr "x"; bstr "y"].

Definition demo_list : kvmap :=
  <[mkey demo_addr := ListMeta_encode (mkListMeta (resized (ComplexMeta_new TList 3)
      (len demo_elems) (total demo_elems) 5) (-1) (-1 + len demo_elems))]>
    (<[rprefix Subkey demo_addr 3 ++ ix (-1) := bstr "x"]>
       (<[rprefix Subkey demo_addr 3 ++ ix 0 := bstr "y"]> ∅)).

Lemma demo_list_env : env_ok (demo_world demo_list).
Proof. constructor; [by split|]. apply fresh_meta. apply fresh_row; try done. by apply fresh_row. Qed.

Lemma demo_lrepr : lrepr demo_addr 5 demo_list (Some (-1, demo_elems)).
Proof.
  unfold demo_list. apply (lrepr_close demo_store 7 (bstr "k") 5 (mkListMeta (ComplexMeta_new TList 3) 0 0) _ (-1) demo_elems 5);
    [by apply base_ok_new| |done| |done..].
  - cbn [l_base]. change (c_version (ComplexMeta_new TList 3)) with 3. change (mkAddr (st_ns demo_store) 7 (bstr "k")) with demo_addr.
    rewrite !rows_at_insert. cbn [slots demo_elems]. change (-1 + 1) with 0. done.
  - split; unfold in_i64, I64_MIN, I64_MAX; cbn; lia.
Qed.

Lemma deque_refines_witness :
  wp (pop_n demo_store 7 (bstr "k") 9 false) (demo_world demo_list) (λ r w',
    r = Ok (Some [bstr "y"; bstr "x"]) ∧ lrepr demo_addr 5 (w_kv w') None).
Proof.
  eapply wp_conseq.
  - apply (deque_refines demo_store 7 (bstr "k") false [] 9 (Some (-1, demo_elems)) (demo_world demo_list)
      demo_addr_wf demo_list_env (demo_headroom _) demo_lrepr). discriminate.
  - intros r w' (_ & -> & Hm). split; [reflexivity|]. apply Hm. right. exact demo_lrepr.
Defined.

(** The reads answer from the list and leave it as it was: LLEN its length,
    LINDEX the element at a rank with negatives from the end, LRANGE the
    inclusive slice, LPOS the positions of an element in scan order, past the
    ranks skipped and up to the count; and the size estimate of a range is its
    length times the mean element. *)
Theorem list_reads_refine st slot key rank start stop x lrank count maxlen H w :
  let a := mkAddr (st_ns st) slot key in
  let L := elements H in
  let answers A (p : prog (result A)) (v : A) :=
    wp p w (λ r w', r = Ok v ∧ effect a w w' ∧ lkeeps a H w w') in
  addr_wf a → env_ok w → lrepr a (w_clock w 0%nat) (w_kv w) H →
  in_i64 rank → in_i64 start → in_i64 stop → 0 <= count → 0 <= maxlen →
  answers _ (llen st slot key) (len L) ∧
  answers _ (lindex st slot key rank) (rank_of L rank ≫= λ n, L !! n) ∧
  answers _ (lrange st slot key start stop) (slice L start stop) ∧
  answers _ (lpos st slot key x lrank count maxlen) (lpos_spec L x lrank count maxlen) ∧
  answers _ (range_bytes st slot key start stop)
    (match H with
     | None => None
     | Some _ => Some (Z.min (len (slice L start stop) * (total L / len L)) U64_MAX)
     end).
Proof.
  intros a L answers Ha Henv HH Hr Hs Ht Hc Hm. unfold answers. split_and!.
  - apply (wp_llen st slot key Ha H); auto.
  - apply (wp_lindex st slot key Ha rank H); auto.
  - apply (wp_lrange st slot key Ha start stop H); auto.
  - apply (wp_lpos st slot key Ha x lrank count maxlen H); auto.
  - apply (wp_range_bytes st slot key Ha start stop H); [done..|]. intros w' He Hk. split; [|done].
    by destruct H as [[h L0]|].
Qed.

Lemma list_reads_refine_witness :
  wp (lpos demo_store 7 (bstr "k") (bstr "y") (-1) 0 0) (demo_world demo_list) (λ r w', r = Ok [1]).
Proof.
  eapply wp_conseq.
  - apply (list_reads_refine demo_store 7 (bstr "k") 0 0 (-1) (bstr "y") (-1) 0 0 (Some (-1, demo_elems))
      (demo_world demo_list) demo_addr_wf demo_list_env demo_lrepr);
      (unfold in_i64, I64_MIN, I64_MAX; lia).
  - intros r w' (-> & _). reflexivity.
Defined.

(** The edits: LSET overwrites one element under the cap and tells a missing
    key from a bad index; LTRIM keeps exactly the slice; LREM removes the first
    (or last, or all) occurrences and answers how many; LINSERT puts an element
    beside the first pivot. Each keeps order, counters and accounting, and a
    list left empty is deleted. *)
Theorem list_edits_refine st slot key rank value start stop count x before pivot H w :
  let a := mkAddr (st_ns st) slot key in
  let h := first_index H in
  let L := elements H in
  let set := match rank_of L rank with Some n => <[n := value]> L | None => L end in
  addr_wf a → env_ok w → lrepr a (w_clock w 0%nat) (w_kv w) H →
  in_i64 rank → in_i64 start → in_i64 stop → total set < 2 ^ 64 →
  fits h (x :: L) → len L + 1 < 2 ^ 32 → total L + len x < 2 ^ 64 →
  wp (lset st slot key rank value) w (λ r w', effect a w w' ∧
    match H, rank_of L rank with
    | None, _ => r = Ok NoKey ∧ lkeeps a H w w'
    | Some _, None => r = Ok OutOfRange ∧ lkeeps a H w w'
    | Some _, Some _ => if st_max st <? total set then r = Err ValueTooLarge ∧ lkeeps a H w w'
                        else r = Ok SetDone ∧ lmakes a H (Some (h, set)) w w'
    end) ∧
  wp (ltrim st slot key start stop) w (λ r w', effect a w w' ∧ r = Ok tt ∧
    if H then lmakes a H (holding (trimmed_at h L start stop) (slice L start stop)) w w'
    else lkeeps a H w w') ∧
  wp (lrem st slot key count x) w (λ r w', effect a w w' ∧ ∃ n keep,
    r = Ok n ∧ lrem_spec count x L keep n ∧
    if H then lmakes a H (holding h keep) w w' else lkeeps a H w w') ∧
  wp (linsert st slot key before pivot x) w (λ r w', effect a w w' ∧
    match H with
    | None => r = Ok 0 ∧ lkeeps a H w w'
    | Some _ =>
        if st_max st <? total L + len x then r = Err ValueTooLarge ∧ lkeeps a H w w'
        else r = Ok (-1) ∧ pivot ∉ L ∧ lkeeps a H w w' ∨
             ∃ L', linserted before pivot x L L' ∧ r = Ok (len L') ∧ lmakes a H (Some (h, L')) w w'
    end).
Proof.
  intros a h L set Ha Henv HH Hr Hs Ht Hset Hf Hl Htot. split_and!.
  - apply (wp_lset st slot key Ha rank value H); [done..|]. intros r w' He Hm. split; [done|].
    by destruct H as [[h0 L0]|].
  - apply (wp_ltrim st slot key Ha start stop H); auto.
  - apply (wp_lrem st slot key Ha count x H); [done..|]. intros n keep w' Hn He Hm. split; [done|]. by exists n, keep.
  - apply (wp_linsert st slot key Ha before pivot x H); [done..|]. intros r w' He Hm. split; [done|].
    by destruct H as [[h0 L0]|].
Qed.

Lemma list_edits_refine_witness :
  wp (ltrim demo_store 7 (bstr "k") (-1) 5) (demo_world demo_list) (λ r w',
    r = Ok tt ∧ lrepr demo_addr 5 (w_kv w') (Some (0, [bstr "y"]))).
Proof.
  eapply wp_conseq.
  - apply (list_edits_refine demo_store 7 (bstr "k") 0 (bstr "z") (-1) 5 0 (bstr "x") true (bstr "y")
      (Some (-1, demo_elems)) (demo_world demo_list) demo_addr_wf demo_list_env demo_lrepr);
      try (unfold fits, in_i64, I64_MIN, I64_MAX; cbn; lia); reflexivity.
  - intros r w' (_ & -> & Hm). split; [reflexivity|]. apply Hm. right. exact demo_lrepr.
Defined.
