(* ===== verification/Bits.v ===== *)
(** * Strings as bit arrays

    The bit commands of [crates/flint-storage/src/strings.rs] below the store:
    BITCOUNT and BITPOS over any byte source, BITOP, and BITFIELD's field reads,
    writes and overflow arithmetic. Bit 0 of a string is the high bit of its
    first byte ([bits_of]); each routine is shown equal to what it means on that
    list of bits. A source that presents its bytes ([Presents]) and a buffer
    that can be changed a byte at a time ([BitBuf]) are interfaces: the inline
    and the chunked string implement both. *)

From stdpp Require Import base list gmap strings sorting.
From Stdlib Require Import ZArith Lia Bool.
From Stdlib Require Strings.Byte.
From S2P Require Import Prelude Encoding Kv Store Lists.

(** ** Windows and bits *)

Definition bit_window (len start end_ : Z) : Z * Z :=
  let start := if start <? 0 then i64 (len + start) else start in
  let end_ := if end_ <? 0 then i64 (len + end_) else end_ in
  let '(start, end_) := (Z.max start 0, Z.max end_ 0) in
  (start, if len <=? end_ then i64 (len - 1) else end_).

(** [1 << (7 - (i & 7))]. *)
Definition mask_of (i : Z) : Z := Z.shiftl 1 (7 - Z.land i 7).

Definition bit_at (payload : bytes) (i : Z) : bool :=
  match payload !! Z.to_nat (Z.shiftr i 3) with
  | Some b => negb (Z.land (b2z b) (mask_of i) =? 0)
  | None => false
  end.

(** [u8::count_ones]. *)
Definition count_ones (x : Z) : Z :=
  foldl (λ n i, if Z.testbit x i then n + 1 else n) 0 (range 0 8).

Definition popcount (l : bytes) : Z := foldl (λ n b, n + count_ones (b2z b)) 0 l.

(** ** Byte sources *)

Class ByteSource (S : Type) := {
  bs_len : S → Z;
  bs_window : S → Z → Z → prog bytes
}.

(** A byte slice: a window outside it is a panic. *)
#[global] Instance slice_source : ByteSource bytes := {
  bs_len l := len l;
  bs_window l from to := unwrap (get_sub l (Z.to_nat from) (Z.to_nat (to + 1 - from)))
}.

Section Sources.
Context {S : Type} `{ByteSource S}.

Definition bitcount_in (src : S) (range : option (Z * Z * bool)) : prog Z :=
  match range with
  | None =>
      if bs_len src =? 0 then Ret 0
      else w <- bs_window src 0 (bs_len src - 1) ;; Ret (popcount w)
  | Some (start, end_, bits) =>
      if (start <? 0) && (end_ <? 0) && (end_ <? start) then Ret 0
      else
        let len := i64 (i64 (bs_len src) * if bits then 8 else 1) in
        let '(start, end_) := bit_window len start end_ in
        if end_ <? start then Ret 0
        else if negb bits then w <- bs_window src (u64 start) (u64 end_) ;; Ret (popcount w)
        else
          window <- bs_window src (Z.shiftr start 3) (Z.shiftr end_ 3) ;;
          first <- unwrap (head window) ;;
          last <- unwrap (last window) ;;
          let before := Z.land (b2z first) (u8 (Z.lnot (Z.shiftr 255 (Z.land start 7)))) in
          let after := Z.land (b2z last) (Z.shiftr 255 (Z.land end_ 7 + 1)) in
          Ret (u64 (popcount window - count_ones before - count_ones after))
  end.

(** [find_map] of [bitpos_in] over the window's bytes. *)
Fixpoint bitpos_find (window : bytes) (bit : bool) (base lo hi : Z) (js : list Z) : option Z :=
  match js with
  | [] => None
  | j :: js' =>
      let skip := if bit then 0 else 255 in
      let whole := (lo <=? j * 8) && (j * 8 + 7 <=? hi) in
      if whole && bool_decide (b2z <$> window !! Z.to_nat (j - base) = Some skip) then
        bitpos_find window bit base lo hi js'
      else
        match find (λ i, Bool.eqb (bit_at window (i - base * 8)) bit)
                (filter (λ i, lo <= i <= hi) (range (j * 8) (j * 8 + 8))) with
        | Some i => Some i
        | None => bitpos_find window bit base lo hi js'
        end
  end.

Definition bitpos_in (src : S) (bit : bool) (range_ : option (Z * option Z * bool)) : prog Z :=
  let len := i64 (bs_len src) in
  let '(start, end_, bits, end_given) :=
    match range_ with
    | None => (0, i64 (len - 1), false, false)
    | Some (start, end_, bits) =>
        let units := if bits : bool then i64 (len * 8) else len in
        let '(s, e) := bit_window units start (default (i64 (units - 1)) end_) in
        (s, e, bits, bool_decide (is_Some end_))
    end in
  if end_ <? start then Ret (-1)
  else
    let '(lo, hi) := if bits : bool then (u64 start, u64 end_)
      else (u64 (u64 start * 8), u64 (u64 end_ * 8 + 7)) in
    let base := Z.shiftr lo 3 in
    window <- bs_window src base (Z.shiftr hi 3) ;;
    Ret (match bitpos_find window bit base lo hi (range base (Z.shiftr hi 3 + 1)) with
         | Some i => i64 i
         | None => if negb bit && negb end_given then i64 (i64 hi + 1) else -1
         end).
End Sources.

(** ** BITOP *)

Inductive BitOp := BAnd | BOr | BXor | BNot | BDiff | BDiff1 | BAndOr | BOne.

Definition not8 (x : Z) : Z := u8 (Z.lnot x).

(** [s.get(j).copied().unwrap_or(0)]. *)
Definition byte_or_zero (s : bytes) (j : nat) : Z := match s !! j with Some b => b2z b | None => 0 end.

Definition bitop_byte (op : BitOp) (sources : list bytes) (j : nat) : Z :=
  let first := match sources with s :: _ => byte_or_zero s j | [] => 0 end in
  let rest := (λ s, byte_or_zero s j) <$> tail sources in
  match op with
  | BAnd => foldl Z.land first rest
  | BOr => foldl Z.lor first rest
  | BXor => foldl Z.lxor first rest
  | BNot => not8 first
  | BDiff => Z.land first (not8 (foldl Z.lor 0 rest))
  | BDiff1 => Z.land (not8 first) (foldl Z.lor 0 rest)
  | BAndOr => Z.land first (foldl Z.lor 0 rest)
  | BOne =>
      let '(once, more) :=
        foldl (λ '(once, more) s, let b := byte_or_zero s j in (Z.lxor once b, Z.lor more (Z.land once b)))
          (0, 0) sources in
      Z.land once (not8 more)
  end.

Definition bitop_of (op : BitOp) (sources : list bytes) : bytes :=
  let n := foldr (λ s n, Nat.max (length s) n) 0%nat sources in
  (λ j, z2b (bitop_byte op sources j)) <$> seq 0 n.

(** ** BITFIELD *)

Inductive BitfieldOverflow := OWrap | OSat | OFail.

Inductive BitfieldKind :=
| FGet
| FSet (value : Z) (overflow : BitfieldOverflow)
| FIncrBy (value : Z) (overflow : BitfieldOverflow).

Record BitfieldOp := mkBitfieldOp { f_signed : bool; f_bits : Z; f_offset : Z; f_kind : BitfieldKind }.

(** A buffer read and written a byte at a time; loading a byte may change the
    buffer's cache. *)
Class BitBuf (T : Type) := {
  buf_byte : T → Z → prog (Z * T);
  buf_set_byte : T → Z → Z → prog T
}.

Section Buffers.
Context {T : Type} `{BitBuf T}.

(** One turn of [BitfieldOp::read]'s loop. *)
Definition read_bit (offset : Z) (acc : Z * T) (i : Z) : prog (Z * T) :=
  let '(v, buf) := acc in
  let bit := u64 (offset + i) in
  r <- buf_byte buf (Z.shiftr bit 3) ;;
  let '(byte, buf') := r in
  Ret (Z.lor (u64 (Z.shiftl v 1)) (Z.land (Z.shiftr byte (7 - Z.land bit 7)) 1), buf').

Definition field_read (op : BitfieldOp) (buf : T) : prog (Z * T) :=
  r <- fold_ (range 0 (f_bits op)) (read_bit (f_offset op)) (0, buf) ;;
  let '(v, buf') := r in
  let v' :=
    if f_signed op && (f_bits op <? 64) && negb (Z.land v (Z.shiftl 1 (f_bits op - 1)) =? 0)
    then Z.lor v (u64 (Z.shiftl U64_MAX (f_bits op))) else v in
  Ret (i64 v', buf').

Definition write_bit (offset bits value : Z) (buf : T) (i : Z) : prog T :=
  let bit := u64 (offset + i) in
  let set := Z.land (Z.shiftr value (bits - 1 - i)) 1 =? 1 in
  let mask := mask_of bit in
  r <- buf_byte buf (Z.shiftr bit 3) ;;
  let '(byte, buf') := r in
  buf_set_byte buf' (Z.shiftr bit 3) (if set then Z.lor byte mask else Z.land byte (not8 mask)).

Definition write_bits (buf : T) (offset bits value : Z) : prog T :=
  fold_ (range 0 bits) (write_bit offset bits value) buf.
End Buffers.

Definition signed_overflow (value incr bits : Z) (overflow : BitfieldOverflow) : option Z :=
  let max := if bits =? 64 then I64_MAX else i64 (i64 (Z.shiftl 1 (bits - 1)) - 1) in
  let min := i64 (- max - 1) in
  let max_incr := i64 (u64 (u64 max - u64 value)) in
  let min_incr := i64 (min - value) in
  let wrapped :=
    let c := u64 (u64 value + u64 incr) in
    i64 (if bits <? 64 then
           let mask := u64 (Z.shiftl U64_MAX bits) in
           if negb (Z.land c (Z.shiftl 1 (bits - 1)) =? 0) then Z.lor c mask
           else Z.land c (u64 (Z.lnot mask))
         else c) in
  let limit bound := match overflow with OWrap => wrapped | OSat => bound | OFail => 0 end in
  if (max <? value) || (negb (bits =? 64) && (max_incr <? incr)) ||
     ((0 <=? value) && (0 <? incr) && (max_incr <? incr)) then Some (limit max)
  else if (value <? min) || (negb (bits =? 64) && (incr <? min_incr)) ||
          ((value <? 0) && (incr <? 0) && (incr <? min_incr)) then Some (limit min)
  else None.

Definition unsigned_overflow (value incr bits : Z) (overflow : BitfieldOverflow) : option Z :=
  let max := u64 (u64 (Z.shiftl 1 bits) - 1) in
  let max_incr := i64 (u64 (max - value)) in
  let min_incr := i64 (u64 (- value)) in
  let limit bound :=
    match overflow with
    | OWrap => Z.land (u64 (value + u64 incr)) (u64 (Z.lnot (u64 (Z.shiftl U64_MAX bits))))
    | OSat => bound
    | OFail => 0
    end in
  if (max <? value) || ((0 <? incr) && (max_incr <? incr)) then Some (limit max)
  else if (incr <? 0) && (incr <? min_incr) then Some (limit 0)
  else None.

(** ** The bits of a string *)

Definition byte_bits (b : Byte.byte) : list bool :=
  (λ k, Z.testbit (b2z b) (7 - Z.of_nat k)) <$> seq 0 8.

Definition bits_of (l : bytes) : list bool := l ≫= byte_bits.

Definition count_true (l : list bool) : Z := len (filter (λ b, b = true) l).

Lemma length_byte_bits b : length (byte_bits b) = 8%nat.
Proof. done. Qed.

Lemma bits_of_cons b l : bits_of (b :: l) = byte_bits b ++ bits_of l.
Proof. done. Qed.

Lemma bits_of_app l l' : bits_of (l ++ l') = bits_of l ++ bits_of l'.
Proof. apply bind_app. Qed.

Lemma bits_of_single b : bits_of [b] = byte_bits b.
Proof. apply app_nil_r. Qed.

Lemma length_bits_of l : length (bits_of l) = (8 * length l)%nat.
Proof.
  induction l as [|b l IH]; [done|]. rewrite bits_of_cons, length_app, length_byte_bits, IH. cbn. lia.
Qed.

Lemma lookup_bits_of l i :
  bits_of l !! i = (λ b, Z.testbit (b2z b) (7 - Z.of_nat (i mod 8))) <$> l !! (i / 8)%nat.
Proof.
  revert i. induction l as [|b l IH]; intros i; [done|]. rewrite bits_of_cons.
  destruct (decide (i < 8)%nat) as [Hi|Hi].
  - rewrite lookup_app_l by (rewrite length_byte_bits; lia).
    rewrite Nat.div_small, Nat.mod_small by done. unfold byte_bits.
    by rewrite list_lookup_fmap, lookup_seq_lt.
  - rewrite lookup_app_r by (rewrite length_byte_bits; lia). rewrite length_byte_bits, IH.
    assert (E : i = (i - 8 + 1 * 8)%nat) by lia. set (j := (i - 8)%nat) in *. clearbody j. subst i.
    rewrite Nat.Div0.mod_add, Nat.div_add by lia. by rewrite Nat.add_comm.
Qed.

Lemma bits_of_take l n : bits_of (take n l) = take (8 * n) (bits_of l).
Proof.
  revert n. induction l as [|b l IH]; intros [|n]; [done..|].
  cbn [take]. rewrite !bits_of_cons, IH. replace (8 * S n)%nat with (length (byte_bits b) + 8 * n)%nat by (rewrite length_byte_bits; lia).
  by rewrite take_app_add.
Qed.

Lemma bits_of_drop l n : bits_of (drop n l) = drop (8 * n) (bits_of l).
Proof.
  revert n. induction l as [|b l IH]; intros [|n]; [done..| |].
  - done.
  - cbn [drop]. rewrite IH. replace (8 * S n)%nat with (length (byte_bits b) + 8 * n)%nat by (rewrite length_byte_bits; lia).
    by rewrite bits_of_cons, drop_app_add.
Qed.

Lemma land_bit x k : 0 <= k → negb (Z.land x (Z.shiftl 1 k) =? 0) = Z.testbit x k.
Proof.
  intros Hk. rewrite Z.shiftl_mul_pow2, Z.mul_1_l by lia. destruct (Z.testbit x k) eqn:E.
  - apply negb_true_iff, Z.eqb_neq. intros H. apply (f_equal (λ z, Z.testbit z k)) in H.
    rewrite Z.land_spec, Z.pow2_bits_true, E, Z.bits_0 in H by lia. done.
  - apply negb_false_iff, Z.eqb_eq. apply Z.bits_inj. intros n. rewrite Z.land_spec, Z.bits_0.
    destruct (decide (n = k)) as [->|Hne]; [by rewrite E|].
    rewrite Z.pow2_bits_false by done. apply andb_false_r.
Qed.

Lemma shiftr3 i : Z.shiftr i 3 = i / 8.
Proof. by rewrite Z.shiftr_div_pow2. Qed.

Lemma land7 i : Z.land i 7 = i mod 8.
Proof. change 7 with (Z.ones 3). by rewrite Z.land_ones. Qed.

Lemma bit_at_bits l i : 0 <= i → bit_at l i = default false (bits_of l !! Z.to_nat i).
Proof.
  intros Hi. unfold bit_at, mask_of. rewrite lookup_bits_of, shiftr3, land7.
  assert (E1 : Z.to_nat (i / 8) = (Z.to_nat i / 8)%nat) by (rewrite Z2Nat.inj_div by lia; done).
  assert (E2 : Z.of_nat (Z.to_nat i mod 8) = i mod 8) by (rewrite Nat2Z.inj_mod, Z2Nat.id by lia; done).
  rewrite E1, E2. pose proof (Z.mod_pos_bound i 8).
  destruct (l !! _) as [b|]; [|done]. cbn. by rewrite land_bit by lia.
Qed.

(** ** Counting *)

Lemma count_true_app l l' : count_true (l ++ l') = count_true l + count_true l'.
Proof. unfold count_true. rewrite filter_app, length_app. lia. Qed.

Lemma count_true_bounds l : 0 <= count_true l <= len l.
Proof.
  induction l as [|b l IH]; [done|]. change (b :: l) with ([b] ++ l). rewrite count_true_app, length_app.
  assert (0 <= count_true [b] <= 1) by (by destruct b). cbn [length]. lia.
Qed.

(** One byte, exhaustively: its set bits, and those before and after a bit. *)
Lemma count_ones_byte b : count_ones (b2z b) = count_true (byte_bits b).
Proof. by destruct b. Qed.

Lemma count_before b k :
  (k < 8)%nat →
  count_ones (Z.land (b2z b) (u8 (Z.lnot (Z.shiftr 255 (Z.of_nat k))))) = count_true (take k (byte_bits b)).
Proof. intros Hk. do 8 (destruct k as [|k]; [by destruct b|]). lia. Qed.

Lemma count_after b k :
  (k < 8)%nat →
  count_ones (Z.land (b2z b) (Z.shiftr 255 (Z.of_nat k + 1))) = count_true (drop (S k) (byte_bits b)).
Proof. intros Hk. do 8 (destruct k as [|k]; [by destruct b|]). lia. Qed.

Lemma popcount_bits l : popcount l = count_true (bits_of l).
Proof.
  unfold popcount. induction l as [|b l IH] using rev_ind; [done|].
  rewrite foldl_app, bits_of_app, count_true_app. cbn [foldl]. rewrite IH, count_ones_byte.
  by rewrite bits_of_single.
Qed.

(** Bits [s..e] of a string are those of the bytes that cover them, less the
    first byte's before [s] and the last byte's after [e]. *)
Lemma count_window l b c s e :
  head l = Some b → last l = Some c → (s < 8)%nat → (e < 8 * length l)%nat →
  (8 * length l <= e + 8)%nat → (s <= e)%nat →
  count_true (take (e + 1 - s) (drop s (bits_of l))) =
  count_true (bits_of l) - count_true (take s (byte_bits b)) - count_true (drop (S (e mod 8)) (byte_bits c)).
Proof.
  intros Hb Hc Hs He1 He2 Hle.
  assert (Etake : take s (bits_of l) = take s (byte_bits b)).
  { destruct l as [|b' l]; [done|]. injection Hb as ->. rewrite bits_of_cons.
    rewrite take_app_le by (rewrite length_byte_bits; lia). done. }
  assert (Edrop : drop (S e) (bits_of l) = drop (S (e mod 8)) (byte_bits c)).
  { destruct (exists_last (l := l)) as (l' & c' & El); [by intros ->|]. rewrite El in *.
    rewrite last_snoc in Hc. injection Hc as ->. rewrite length_app in He1, He2. cbn in He1, He2.
    rewrite bits_of_app, bits_of_single.
    assert (Ee : e = (8 * length l' + e mod 8)%nat).
    { pose proof (Nat.div_mod_eq e 8). assert (e / 8 = length l')%nat as E by
        (symmetry; apply (Nat.div_unique e 8 (length l') (e - 8 * length l')); lia). lia. }
    rewrite drop_app_ge by (rewrite length_bits_of; lia). f_equal. rewrite length_bits_of. lia. }
  rewrite <-Etake, <-Edrop.
  assert (E : bits_of l = take s (bits_of l) ++ take (e + 1 - s) (drop s (bits_of l)) ++ drop (S e) (bits_of l)).
  { replace (S e) with (s + (e + 1 - s))%nat by lia. rewrite <-drop_drop. by rewrite take_drop, take_drop. }
  rewrite E at 2. rewrite !count_true_app. lia.
Qed.

(** ** Sources that present a string *)

Definition window_of {A} (l : list A) (from to : Z) : list A :=
  take (Z.to_nat (to + 1 - from)) (drop (Z.to_nat from) l).

Definition presents {S} `{ByteSource S} (src : S) (L : bytes) (w : world kvmap) : Prop :=
  bs_len src = len L ∧
  ∀ from to, 0 <= from <= to → to < len L →
    wp (bs_window src from to) w (λ r w', r = window_of L from to ∧ w' = w).

Lemma slice_presents (L : bytes) w : presents L L w.
Proof.
  split; [done|]. intros from to H1 H2. cbn [bs_window slice_source]. unfold get_sub, unwrap.
  rewrite decide_True by lia. by apply wp_ret.
Qed.

(** The clamped window, in exact integers. *)
Definition clamp (n start end_ : Z) : Z * Z :=
  (Z.max (if start <? 0 then n + start else start) 0,
   Z.min (Z.max (if end_ <? 0 then n + end_ else end_) 0) (n - 1)).

Lemma bit_window_exact n start end_ :
  0 <= n < 2 ^ 62 → in_i64 start → in_i64 end_ → bit_window n start end_ = clamp n start end_.
Proof.
  unfold bit_window, clamp, in_i64, I64_MIN, I64_MAX. intros Hn Hs He.
  rewrite (signed_id (n - 1)) by lia.
  assert (E1 : (if start <? 0 then i64 (n + start) else start) = if start <? 0 then n + start else start).
  { destruct (Z.ltb_spec start 0); [|done]. rewrite signed_id; lia. }
  assert (E2 : (if end_ <? 0 then i64 (n + end_) else end_) = if end_ <? 0 then n + end_ else end_).
  { destruct (Z.ltb_spec end_ 0); [|done]. rewrite signed_id; lia. }
  rewrite E1, E2. f_equal. destruct (Z.leb_spec n (Z.max (if end_ <? 0 then n + end_ else end_) 0)); lia.
Qed.

(** BITCOUNT on the string's bits. *)
Definition bitcount_spec (L : bytes) (range : option (Z * Z * bool)) : Z :=
  match range with
  | None => count_true (bits_of L)
  | Some (start, end_, bits) =>
      if (start <? 0) && (end_ <? 0) && (end_ <? start) then 0
      else if bits : bool then
        let '(s, e) := clamp (8 * len L) start end_ in count_true (window_of (bits_of L) s e)
      else
        let '(s, e) := clamp (len L) start end_ in count_true (bits_of (window_of L s e))
  end.

Lemma window_of_all {A} (l : list A) n : n = len l → window_of l 0 (n - 1) = l.
Proof. intros ->. unfold window_of. rewrite drop_0. apply take_ge. lia. Qed.

Lemma window_of_empty {A} (l : list A) from to : to < from → window_of l from to = [].
Proof. intros. unfold window_of. by replace (Z.to_nat (to + 1 - from)) with 0%nat by lia. Qed.

Lemma length_window_of {A} (l : list A) from to :
  0 <= from <= to → to < len l → length (window_of l from to) = Z.to_nat (to + 1 - from).
Proof. intros. unfold window_of. rewrite length_take, length_drop. lia. Qed.

(** The bits of a window of bits, counted in the window of bytes over it. *)
Lemma count_bit_window (L : bytes) s e (b c : Byte.byte) :
  0 <= s <= e → e < 8 * len L →
  head (window_of L (s / 8) (e / 8)) = Some b → last (window_of L (s / 8) (e / 8)) = Some c →
  count_true (window_of (bits_of L) s e) =
  count_true (bits_of (window_of L (s / 8) (e / 8))) -
  count_true (take (Z.to_nat (s mod 8)) (byte_bits b)) - count_true (drop (S (Z.to_nat (e mod 8))) (byte_bits c)).
Proof.
  intros Hs He Hb Hc. set (W := window_of L (s / 8) (e / 8)) in *.
  pose proof (Z.div_mod s 8). pose proof (Z.div_mod e 8).
  pose proof (Z.mod_pos_bound s 8). pose proof (Z.mod_pos_bound e 8).
  assert (s / 8 <= e / 8) by (apply Z.div_le_mono; lia). assert (0 <= s / 8) by (apply Z.div_pos; lia).
  assert (HW : length W = Z.to_nat (e / 8 + 1 - s / 8)) by (apply length_window_of; lia).
  set (s' := Z.to_nat (s mod 8)). set (e' := (Z.to_nat (e - 8 * (s / 8)))%nat).
  assert (Ee : (e' mod 8)%nat = Z.to_nat (e mod 8)).
  { apply Nat2Z.inj. rewrite Nat2Z.inj_mod. unfold e'. rewrite !Z2Nat.id by lia.
    replace (e - 8 * (s / 8)) with (e + (- (s / 8)) * 8) by lia. apply Z.mod_add. lia. }
  rewrite <-Ee, <-(count_window W b c s' e'); [|done|done|unfold s'; lia|unfold e'; lia..|unfold s', e'; lia].
  f_equal. unfold W, window_of. rewrite bits_of_take, bits_of_drop.
  rewrite skipn_firstn_comm, drop_drop, take_take. f_equal; [|f_equal]; unfold s', e'; lia.
Qed.

Lemma wp_bitcount_in {S} `{ByteSource S} (src : S) L range w Q :
  presents src L w → len L < 2 ^ 59 →
  (∀ start end_ bits, range = Some (start, end_, bits) → in_i64 start ∧ in_i64 end_) →
  Q (bitcount_spec L range) w → wp (bitcount_in src range) w Q.
Proof.
  intros [Hlen Hwin] HL Hr HQ. unfold bitcount_in. rewrite Hlen.
  destruct range as [[[start end_] bits]|]; cbn [bitcount_spec] in HQ.
  2:{ destruct (Z.eqb_spec (len L) 0) as [E|E].
      - wp_op. assert (L = []) as -> by (destruct L; [done|cbn in E; lia]). exact HQ.
      - apply wp_bind. eapply wp_conseq; [apply Hwin; lia|]. intros r w' [-> ->]. wp_op.
        by rewrite popcount_bits, window_of_all. }
  destruct (Hr _ _ _ eq_refl) as [Hs He]. destruct (_ && _ && _); [by wp_op|].
  rewrite (signed_id (len L)) by lia. destruct bits; cbn [negb].
  - rewrite (Z.mul_comm (len L)). rewrite (signed_id (8 * len L)), bit_window_exact by (done || lia).
    destruct (clamp (8 * len L) start end_) as [s e] eqn:Ec.
    assert (Hse : 0 <= s ∧ e <= 8 * len L - 1) by (unfold clamp in Ec; injection Ec as <- <-; lia).
    destruct (Z.ltb_spec e s); [wp_op; by rewrite window_of_empty in HQ|].
    rewrite !shiftr3, !land7. assert (0 <= s / 8) by (apply Z.div_pos; lia).
    assert (s / 8 <= e / 8) by (apply Z.div_le_mono; lia). assert (e / 8 < len L) by (apply Z.div_lt_upper_bound; lia).
    apply wp_bind. eapply wp_conseq; [apply Hwin; lia|]. intros r w' [-> ->].
    assert (HW : length (window_of L (s / 8) (e / 8)) ≠ 0%nat) by (rewrite length_window_of; lia).
    destruct (head (window_of L (s / 8) (e / 8))) as [b|] eqn:Eb; [|by destruct (window_of L _ _)].
    destruct (last (window_of L (s / 8) (e / 8))) as [c|] eqn:El; [|by apply last_None in El; rewrite El in HW].
    eapply wp_unwrap; [done|]. eapply wp_unwrap; [done|]. wp_op.
    rewrite (count_bit_window L s e b c) in HQ by (done || lia).
    pose proof (Z.mod_pos_bound s 8). pose proof (Z.mod_pos_bound e 8).
    rewrite popcount_bits. rewrite <-(Z2Nat.id (s mod 8)), <-(Z2Nat.id (e mod 8)) by lia.
    rewrite count_before, count_after by lia. rewrite wrap_id; [exact HQ|].
    rewrite <-(count_bit_window L s e b c) by (done || lia).
    pose proof (count_true_bounds (window_of (bits_of L) s e)).
    assert (length (window_of (bits_of L) s e) ≤ length (bits_of L))%nat by
      (unfold window_of; rewrite length_take, length_drop; lia).
    rewrite length_bits_of in *. unfold in_width. lia.
  - rewrite Z.mul_1_r, (signed_id (len L)), bit_window_exact by (done || lia).
    destruct (clamp (len L) start end_) as [s e] eqn:Ec.
    assert (Hse : 0 <= s ∧ e <= len L - 1) by (unfold clamp in Ec; injection Ec as <- <-; lia).
    destruct (Z.ltb_spec e s); [wp_op; by rewrite window_of_empty in HQ|].
    rewrite !wrap_id by (unfold in_width; lia).
    apply wp_bind. eapply wp_conseq; [apply Hwin; lia|]. intros r w' [-> ->]. wp_op. by rewrite popcount_bits.
Qed.

(** ** BITPOS: the first bit of a value *)

(** [r] is the first place of [lo..=hi] where [f] holds, if there is one. *)
Definition first_at (f : Z → bool) (lo hi : Z) (r : option Z) : Prop :=
  match r with
  | Some i => lo <= i <= hi ∧ f i = true ∧ ∀ k, lo <= k < i → f k = false
  | None => ∀ k, lo <= k <= hi → f k = false
  end.

Lemma first_at_app f lo mid hi r1 r2 :
  lo <= mid + 1 → mid <= hi → first_at f lo mid r1 → first_at f (mid + 1) hi r2 →
  first_at f lo hi (match r1 with Some i => Some i | None => r2 end).
Proof.
  intros Hl Hm H1 H2. destruct r1 as [i|]; cbn [first_at] in *.
  { destruct H1 as (? & ? & ?). repeat split; [lia..|done|done]. }
  assert (Hk : ∀ k, lo <= k → k < mid + 1 → f k = false) by (intros; apply H1; lia).
  destruct r2 as [i|]; cbn [first_at] in *.
  - destruct H2 as (? & ? & H3). repeat split; [lia..|done|]. intros k ?.
    destruct (decide (k < mid + 1)); [apply Hk|apply H3]; lia.
  - intros k ?. destruct (decide (k < mid + 1)); [apply Hk|apply H2]; lia.
Qed.

Lemma range_nil lo hi : hi <= lo → range lo hi = [].
Proof. intros. unfold range. by replace (Z.to_nat (hi - lo)) with 0%nat by lia. Qed.

Lemma first_at_find f lo hi (n : nat) a :
  first_at f (Z.max a lo) (Z.min (a + Z.of_nat n - 1) hi)
    (find f (filter (λ i, lo <= i <= hi) (range a (a + Z.of_nat n)))).
Proof.
  revert a. induction n as [|n IH]; intros a.
  { rewrite range_nil by lia. intros k ?. lia. }
  rewrite range_cons by lia. specialize (IH (a + 1)).
  replace (a + 1 + Z.of_nat n) with (a + Z.of_nat (S n)) in IH by lia.
  set (r := range (a + 1) _) in *. clearbody r. rewrite filter_cons. case_decide as Ha.
  - cbn [find]. destruct (f a) eqn:Ef.
    { cbn. repeat split; [lia..|done|lia]. }
    replace (Z.max a lo) with a by lia. replace (Z.max (a + 1) lo) with (a + 1) in IH by lia.
    apply (first_at_app f a a _ None); [lia..| |done]. intros k ?. by replace k with a by lia.
  - destruct (find f _) as [i|]; cbn [first_at] in *.
    + destruct IH as (? & ? & HF). repeat split; [lia..|done|]. intros k ?. apply HF. lia.
    + intros k ?. apply IH. lia.
Qed.

(** A byte of the other value holds no bit of this one. *)
Lemma skip_byte (window : bytes) (bit : bool) j i :
  0 <= j → j * 8 <= i <= j * 8 + 7 →
  b2z <$> window !! Z.to_nat j = Some (if bit then 0 else 255) →
  Bool.eqb (bit_at window i) bit = false.
Proof.
  intros Hj Hi E. unfold bit_at. rewrite shiftr3. assert (i / 8 = j) as -> by (symmetry; apply (Z.div_unique i 8 j (i - j * 8)); lia).
  destruct (window !! _) as [b|]; [|done]. cbn in E. injection E as ->.
  unfold mask_of. rewrite land7. pose proof (Z.mod_pos_bound i 8). rewrite land_bit by lia.
  destruct bit; [by rewrite Z.bits_0|]. change 255 with (Z.ones 8). by rewrite Z.ones_spec_low by lia.
Qed.

Lemma bitpos_find_first window bit base lo hi (n : nat) j :
  0 <= base <= j → j * 8 <= hi + 8 → hi <= (j + Z.of_nat n) * 8 - 1 → hi / 8 = j + Z.of_nat n - 1 →
  first_at (λ i, Bool.eqb (bit_at window (i - base * 8)) bit) (Z.max (j * 8) lo) hi
    (bitpos_find window bit base lo hi (range j (j + Z.of_nat n))).
Proof.
  set (f := λ i, Bool.eqb (bit_at window (i - base * 8)) bit).
  revert j. induction n as [|n IH]; intros j Hj Hj2 Hhi He.
  { rewrite range_nil by lia. intros k ?. lia. }
  rewrite range_cons by lia. cbn [bitpos_find]. specialize (IH (j + 1)).
  replace (j + 1 + Z.of_nat n) with (j + Z.of_nat (S n)) in IH by lia.
  set (js := range (j + 1) _) in *. clearbody js. pose proof (Z.div_mod hi 8). pose proof (Z.mod_pos_bound hi 8).
  pose proof (first_at_find f lo hi 8 (j * 8)) as HF. cbn [Z.of_nat Pos.of_succ_nat Pos.succ] in HF.
  assert (Hnext : first_at f (Z.max ((j + 1) * 8) lo) hi (bitpos_find window bit base lo hi js)).
  { apply IH; lia. }
  assert (HG : ∀ r1, first_at f (Z.max (j * 8) lo) (Z.min (j * 8 + 8 - 1) hi) r1 →
    first_at f (Z.max (j * 8) lo) hi (match r1 with Some i => Some i | None => bitpos_find window bit base lo hi js end)).
  { intros r1 H1. destruct (decide (lo <= j * 8 + 7 ∧ j * 8 + 7 <= hi)) as [Hd|Hd].
    - apply (first_at_app f _ (j * 8 + 7)); [lia|lia| |].
      + by replace (Z.min (j * 8 + 8 - 1) hi) with (j * 8 + 7) in H1 by lia.
      + by replace (Z.max ((j + 1) * 8) lo) with (j * 8 + 7 + 1) in Hnext by lia.
    - destruct r1 as [i|]; cbn [first_at] in *.
      { destruct H1 as (? & ? & ?). repeat split; [lia..|done|done]. }
      destruct (bitpos_find _ _ _ _ _ _) as [i|]; cbn [first_at] in *.
      + destruct Hnext as (? & ? & HN). repeat split; [lia..|done|]. intros k ?.
        destruct (decide (k <= j * 8 + 7)); [apply H1|apply HN]; lia.
      + intros k ?. destruct (decide (k <= j * 8 + 7)); [apply H1|apply Hnext]; lia. }
  destruct ((lo <=? j * 8) && (j * 8 + 7 <=? hi)) eqn:Ew; cbn [andb]; [|by apply (HG (find f _))].
  apply andb_true_iff in Ew as [E1%Z.leb_le E2%Z.leb_le].
  case_bool_decide as Eb; [|by apply (HG (find f _))].
  apply (HG None). intros k ?. apply (skip_byte window bit (j - base)); [lia..|done].
Qed.

(** BITPOS on the string's bits: the window in bits, and its first bit. *)
Definition bitpos_window (L : bytes) (range_ : option (Z * option Z * bool)) : Z * Z :=
  match range_ with
  | None => (0, 8 * len L - 1)
  | Some (start, end_, true) => clamp (8 * len L) start (default (8 * len L - 1) end_)
  | Some (start, end_, false) =>
      let '(s, e) := clamp (len L) start (default (len L - 1) end_) in (8 * s, 8 * e + 7)
  end.

Definition ends_given (range_ : option (Z * option Z * bool)) : bool :=
  match range_ with Some (_, Some _, _) => true | _ => false end.

Definition bitpos_spec (L : bytes) (bit : bool) (range_ : option (Z * option Z * bool)) (r : Z) : Prop :=
  let '(lo, hi) := bitpos_window L range_ in
  if hi <? lo then r = -1
  else ∃ found, first_at (λ i, bool_decide (bits_of L !! Z.to_nat i = Some bit)) lo hi found ∧
    r = match found with
        | Some i => i
        | None => if negb bit && negb (ends_given range_) then 8 * len L else -1
        end.

Lemma first_at_ext f g lo hi r :
  (∀ k, lo <= k <= hi → f k = g k) → first_at f lo hi r → first_at g lo hi r.
Proof.
  intros Hfg. destruct r as [i|]; cbn [first_at].
  - intros (? & Hi & Hk). repeat split; [lia..| |]; [rewrite <-Hfg; [done|lia]|].
    intros k ?. rewrite <-Hfg; [by apply Hk|lia].
  - intros Hk k ?. rewrite <-Hfg; [by apply Hk|lia].
Qed.

(** A bit of a window of bytes is the string's bit at the same place. *)
Lemma bit_of_window (L : bytes) from to i bit :
  0 <= from <= to → to < len L → 8 * from <= i <= 8 * to + 7 →
  Bool.eqb (bit_at (window_of L from to) (i - from * 8)) bit = bool_decide (bits_of L !! Z.to_nat i = Some bit).
Proof.
  intros Hf Ht Hi. rewrite bit_at_bits by lia. unfold window_of.
  rewrite bits_of_take, bits_of_drop, lookup_take_lt, lookup_drop by lia.
  replace (8 * Z.to_nat from + Z.to_nat (i - from * 8))%nat with (Z.to_nat i) by lia.
  destruct (lookup_lt_is_Some_2 (bits_of L) (Z.to_nat i)) as [b ->]; [rewrite length_bits_of; lia|].
  cbn. by destruct b, bit.
Qed.

Lemma bitpos_search {S} `{ByteSource S} (src : S) L bit lo hi w :
  presents src L w → len L < 2 ^ 59 → 0 <= lo <= hi → hi < 8 * len L →
  wp (bs_window src (Z.shiftr lo 3) (Z.shiftr hi 3)) w (λ window w', w' = w ∧
    first_at (λ i, bool_decide (bits_of L !! Z.to_nat i = Some bit)) lo hi
      (bitpos_find window bit (Z.shiftr lo 3) lo hi (range (Z.shiftr lo 3) (Z.shiftr hi 3 + 1)))).
Proof.
  intros [Hlen Hwin] HL Hlo Hhi. rewrite !shiftr3.
  pose proof (Z.div_mod lo 8). pose proof (Z.div_mod hi 8).
  pose proof (Z.mod_pos_bound lo 8). pose proof (Z.mod_pos_bound hi 8).
  assert (lo / 8 <= hi / 8) by (apply Z.div_le_mono; lia). assert (0 <= lo / 8) by (apply Z.div_pos; lia).
  eapply wp_conseq; [apply Hwin; lia|]. intros r w' [-> ->]. split; [done|].
  pose proof (bitpos_find_first (window_of L (lo / 8) (hi / 8)) bit (lo / 8) lo hi
    (Z.to_nat (hi / 8 + 1 - lo / 8)) (lo / 8)) as HF.
  rewrite Z2Nat.id in HF by lia. replace (lo / 8 + (hi / 8 + 1 - lo / 8)) with (hi / 8 + 1) in HF by lia.
  replace (Z.max (lo / 8 * 8) lo) with lo in HF by lia.
  eapply first_at_ext; [|apply HF; lia]. intros k Hk. apply bit_of_window; lia.
Qed.

Lemma clamp_bounds n start end_ : 0 <= n → 0 <= (clamp n start end_).1 ∧ (clamp n start end_).2 <= n - 1.
Proof. intros. unfold clamp. cbn [fst snd]. lia. Qed.

Lemma clamp_to_the_end n start : 0 <= n → (clamp n start (n - 1)).2 = n - 1.
Proof. intros. unfold clamp. cbn [fst snd]. destruct (Z.ltb_spec (n - 1) 0); lia. Qed.

(** The window the code computes is the one of the specification. *)
Lemma bitpos_bounds (L : bytes) range_ :
  len L < 2 ^ 59 →
  (∀ start end_ bits, range_ = Some (start, end_, bits) → in_i64 start ∧ from_option in_i64 True end_) →
  let '(lo, hi) := bitpos_window L range_ in
  0 <= lo ∧ hi < 8 * len L ∧ (ends_given range_ = false → hi = 8 * len L - 1) ∧
  ∃ start end_ bits given,
    match range_ with
    | None => (0, i64 (len L - 1), false, false)
    | Some (start, end_, bits) =>
        let units := if bits : bool then i64 (len L * 8) else len L in
        let '(s, e) := bit_window units start (default (i64 (units - 1)) end_) in
        (s, e, bits, bool_decide (is_Some end_))
    end = (start, end_, bits, given) ∧ given = ends_given range_ ∧
    (end_ <? start) = (hi <? lo) ∧
    (lo <= hi → (if bits : bool then (u64 start, u64 end_) else (u64 (u64 start * 8), u64 (u64 end_ * 8 + 7))) = (lo, hi)).
Proof.
  intros HL Hr. destruct range_ as [[[start end_] bits]|]; cbn [bitpos_window ends_given].
  2:{ split; [lia|]. split; [lia|]. split; [lia|]. exists 0, (len L - 1), false, false.
      rewrite signed_id by lia. split; [done|]. split; [done|]. split.
      - destruct (Z.ltb_spec (len L - 1) 0), (Z.ltb_spec (8 * len L - 1) 0); lia.
      - intros. rewrite !wrap_id by (rewrite ?wrap_id; unfold in_width; lia). f_equal. lia. }
  destruct (Hr _ _ _ eq_refl) as [Hs He].
  set (n := if bits then 8 * len L else len L).
  assert (Hn : (if bits then i64 (len L * 8) else len L) = n).
  { unfold n. destruct bits; [|done]. rewrite signed_id; lia. }
  assert (Hn0 : 0 <= n < 2 ^ 62) by (unfold n; destruct bits; lia).
  cbv zeta. rewrite Hn, (signed_id (n - 1)) by lia.
  assert (Hd : in_i64 (default (n - 1) end_)).
  { destruct end_; [done|]. unfold in_i64, I64_MIN, I64_MAX. cbn. lia. }
  rewrite bit_window_exact by done. pose proof (clamp_bounds n start (default (n - 1) end_)) as Hc.
  pose proof (clamp_to_the_end n start) as Ht.
  assert (Hg : bool_decide (is_Some end_) = match end_ with Some _ => true | None => false end) by by destruct end_.
  rewrite Hg. destruct bits; cbn [n] in *; fold n.
  - destruct (clamp n start (default (n - 1) end_)) as [s e] eqn:Ec. cbn [fst snd] in Hc.
    split; [lia|]. split; [lia|]. split; [intros ?; destruct end_; [done|]; cbn in Ec; rewrite Ec in Ht; cbn in Ht; lia|].
    exists s, e, true, (match end_ with Some _ => true | None => false end).
    split; [done|]. split; [done|]. split; [done|]. intros. by rewrite !wrap_id by (unfold in_width; lia).
  - destruct (clamp n start (default (n - 1) end_)) as [s e] eqn:Ec. cbn [fst snd] in Hc.
    split; [lia|]. split; [lia|]. split; [intros ?; destruct end_; [done|]; cbn in Ec; rewrite Ec in Ht; cbn in Ht; lia|].
    exists s, e, false, (match end_ with Some _ => true | None => false end).
    split; [done|]. split; [done|]. split.
    + destruct (Z.ltb_spec e s), (Z.ltb_spec (8 * e + 7) (8 * s)); lia.
    + intros. rewrite !wrap_id by (rewrite ?wrap_id; unfold in_width; lia). f_equal; lia.
Qed.

Lemma wp_bitpos_in {S} `{ByteSource S} (src : S) L bit range_ w Q :
  presents src L w → len L < 2 ^ 59 →
  (∀ start end_ bits, range_ = Some (start, end_, bits) → in_i64 start ∧ from_option in_i64 True end_) →
  (∀ r, bitpos_spec L bit range_ r → Q r w) → wp (bitpos_in src bit range_) w Q.
Proof.
  intros Hp HL Hr HQ. pose proof (bitpos_bounds L range_ HL Hr) as HB.
  unfold bitpos_spec in HQ. destruct (bitpos_window L range_) as [lo hi] eqn:Ew.
  destruct HB as (Hlo & Hhi & Hend & s & e & bits & given & E & -> & Elt & Ebnd).
  unfold bitpos_in. rewrite (proj1 Hp). rewrite (signed_id (len L)) by lia.
  cbv zeta in E |- *. rewrite E, Elt. destruct (Z.ltb_spec hi lo); [wp_op; by apply HQ|].
  rewrite Ebnd by done. apply wp_bind. eapply wp_conseq; [apply (bitpos_search src L bit); (done || lia)|].
  intros window w' [-> Hf]. wp_op. apply HQ. exists (bitpos_find window bit (Z.shiftr lo 3) lo hi
    (range (Z.shiftr lo 3) (Z.shiftr hi 3 + 1))). split; [done|].
  destruct (bitpos_find _ _ _ _ _ _) as [i|].
  - destruct Hf as (? & _). rewrite signed_id; lia.
  - destruct (ends_given range_), bit; cbn [negb andb]; [done..|]. rewrite Hend by done.
    rewrite !signed_id; rewrite ?signed_id; lia.
Qed.

(** ** BITOP, bit by bit *)

(** Bit [i] of a string, zero past its end. *)
Definition bit_of (s : bytes) (i : nat) : bool := default false (bits_of s !! i).

(** What each operator means on one bit of every source. *)
Definition bitop_bool (op : BitOp) (bs : list bool) : bool :=
  let first := default false (head bs) in
  let some := existsb id (tail bs) in
  match op with
  | BAnd => forallb id bs
  | BOr => existsb id bs
  | BXor => foldr xorb false bs
  | BNot => negb first
  | BDiff => first && negb some
  | BDiff1 => negb first && some
  | BAndOr => first && some
  | BOne => count_true bs =? 1
  end.

Lemma byte_or_zero_range s j : 0 <= byte_or_zero s j < 2 ^ 8.
Proof. unfold byte_or_zero. destruct (s !! j); [apply b2z_range|done]. Qed.

Lemma bit_of_byte s i : bit_of s i = Z.testbit (byte_or_zero s (i / 8)) (7 - Z.of_nat (i mod 8)).
Proof.
  unfold bit_of, byte_or_zero. rewrite lookup_bits_of. destruct (s !! _); [done|]. by rewrite Z.bits_0.
Qed.

Lemma not8_bit x k : 0 <= k < 8 → Z.testbit (not8 x) k = negb (Z.testbit x k).
Proof. intros. unfold not8, wrap. rewrite Z.mod_pow2_bits_low, Z.lnot_spec by lia. done. Qed.

Section Folds.
Context (k : Z) (Hk : 0 <= k).

Lemma testbit_foldl_land l a : Z.testbit (foldl Z.land a l) k = Z.testbit a k && forallb (λ x, Z.testbit x k) l.
Proof.
  revert a. induction l as [|x l IH]; intros a; cbn [foldl forallb]; [by rewrite andb_true_r|].
  by rewrite IH, Z.land_spec, andb_assoc.
Qed.

Lemma testbit_foldl_lor l a : Z.testbit (foldl Z.lor a l) k = Z.testbit a k || existsb (λ x, Z.testbit x k) l.
Proof.
  revert a. induction l as [|x l IH]; intros a; cbn [foldl existsb]; [by rewrite orb_false_r|].
  by rewrite IH, Z.lor_spec, orb_assoc.
Qed.

Lemma testbit_foldl_lxor l a :
  Z.testbit (foldl Z.lxor a l) k = xorb (Z.testbit a k) (foldr xorb false ((λ x, Z.testbit x k) <$> l)).
Proof.
  revert a. induction l as [|x l IH]; intros a; cbn; [by rewrite xorb_false_r|].
  by rewrite IH, Z.lxor_spec, xorb_assoc.
Qed.

(** [once] is the parity of the bits seen, [more] whether two were set. *)
Lemma testbit_once (f : bytes → Z) l :
  let r := foldl (λ '(once, more) s, let b := f s in (Z.lxor once b, Z.lor more (Z.land once b))) (0, 0) l in
  let n := count_true ((λ s, Z.testbit (f s) k) <$> l) in
  Z.testbit r.1 k = Z.odd n ∧ Z.testbit r.2 k = (2 <=? n).
Proof.
  induction l as [|s l IH] using rev_ind; cbv zeta in *; [by rewrite !Z.bits_0|].
  rewrite foldl_app, fmap_app, count_true_app. cbn [foldl].
  destruct (foldl _ _ l) as [once more]. destruct IH as [I1 I2]. cbn [fst snd] in *.
  rewrite Z.lxor_spec, Z.lor_spec, Z.land_spec, I1, I2. cbn [fmap list_fmap].
  pose proof (count_true_bounds ((λ s, Z.testbit (f s) k) <$> l)) as [Hn _].
  set (n := count_true _) in *. clearbody n. destruct (Z.testbit (f s) k).
  - change (count_true [true]) with 1. rewrite Z.odd_add, andb_true_r. split; [done|].
    destruct (Z.leb_spec 2 n), (Z.leb_spec 2 (n + 1)); cbn [orb]; try lia; try done.
    + by replace n with 1 by lia.
    + by replace n with 0 by lia.
  - change (count_true [false]) with 0. by rewrite Z.add_0_r, xorb_false_r, andb_false_r, orb_false_r.
Qed.
End Folds.

Lemma forallb_fmap {A B} (f : A → B) (p : B → bool) l : forallb p (f <$> l) = forallb (λ x, p (f x)) l.
Proof. induction l; cbn; [done|]. by f_equal. Qed.

Lemma existsb_fmap {A B} (f : A → B) (p : B → bool) l : existsb p (f <$> l) = existsb (λ x, p (f x)) l.
Proof. induction l; cbn; [done|]. by f_equal. Qed.

Lemma bitop_byte_bit op sources j k :
  sources ≠ [] → 0 <= k < 8 →
  Z.testbit (bitop_byte op sources j) k =
  bitop_bool op ((λ s, Z.testbit (byte_or_zero s j) k) <$> sources).
Proof.
  intros Hs Hk. destruct sources as [|s l]; [done|]. destruct op; cbn [bitop_byte bitop_bool tail head default].
  8:{ pose proof (testbit_once k (λ s, byte_or_zero s j) (s :: l)) as [H1 H2].
      pose proof (count_true_bounds ((λ s, Z.testbit (byte_or_zero s j) k) <$> s :: l)) as [Hn _].
      cbv zeta in H1, H2. destruct (foldl _ _ (s :: l)) as [once more]. cbn [fst snd] in H1, H2.
      rewrite Z.land_spec, not8_bit, H1, H2 by done. set (n := count_true _) in *. clearbody n.
      destruct (Z.eqb_spec n 1) as [->|Hn1]; [done|]. destruct (Z.leb_spec 2 n); [by rewrite andb_false_r|].
      by replace n with 0 by lia. }
  all: rewrite ?Z.land_spec, ?not8_bit, ?testbit_foldl_land, ?testbit_foldl_lor, ?testbit_foldl_lxor, ?Z.bits_0 by lia;
    cbn [fmap list_fmap head tail forallb existsb foldr id orb]; rewrite ?forallb_fmap, ?existsb_fmap; rewrite <- ?list_fmap_compose; done.
Qed.

Lemma bitop_of_bits op sources i :
  sources ≠ [] →
  let n := foldr (λ s n, Nat.max (length s) n) 0%nat sources in
  length (bitop_of op sources) = n ∧
  ((i < 8 * n)%nat → bits_of (bitop_of op sources) !! i = Some (bitop_bool op ((λ s, bit_of s i) <$> sources))).
Proof.
  intros Hs n. unfold bitop_of. fold n. split; [by rewrite length_fmap, length_seq|]. intros Hi.
  assert (i / 8 < n)%nat by (apply Nat.Div0.div_lt_upper_bound; lia).
  pose proof (Nat.mod_upper_bound i 8).
  rewrite lookup_bits_of, list_lookup_fmap, lookup_seq_lt by done. cbn [fmap option_fmap option_map Nat.add].
  rewrite b2z_z2b, Z.mod_pow2_bits_low, bitop_byte_bit by (done || lia). do 2 f_equal.
  apply list_fmap_ext. intros _ s _. by rewrite bit_of_byte.
Qed.

(** ** BITFIELD's overflow arithmetic *)

(** The value a field of [bits] bits holds after [x] is stored in it. *)
Definition field_value (sign : bool) (bits x : Z) : Z := if sign then signed bits x else wrap bits x.

Definition field_min (sign : bool) (bits : Z) : Z := if sign then - 2 ^ (bits - 1) else 0.
Definition field_max (sign : bool) (bits : Z) : Z := if sign then 2 ^ (bits - 1) - 1 else 2 ^ bits - 1.
Definition in_field (sign : bool) (bits x : Z) : Prop := field_min sign bits <= x <= field_max sign bits.

#[global] Instance in_field_dec sign bits x : Decision (in_field sign bits x).
Proof. unfold in_field. apply _. Defined.

(** Storing [x]: nothing to do if it fits, else what the mode asks for. *)
Definition overflow_spec (sign : bool) (bits x : Z) (overflow : BitfieldOverflow) : option Z :=
  if decide (in_field sign bits x) then None
  else Some match overflow with
            | OWrap => field_value sign bits x
            | OSat => if field_max sign bits <? x then field_max sign bits else field_min sign bits
            | OFail => 0
            end.

Lemma pow2_le a b : 0 <= a <= b → 1 <= 2 ^ a <= 2 ^ b.
Proof. intros. split; [pose proof (Z.pow_pos_nonneg 2 a); lia|apply Z.pow_le_mono_r; lia]. Qed.

Lemma pow2_half b : 1 <= b → 2 ^ b = 2 * 2 ^ (b - 1).
Proof. intros. rewrite <-Z.pow_succ_r by lia. f_equal. lia. Qed.

Lemma high_mask b : 0 <= b <= 64 → u64 (Z.shiftl U64_MAX b) = 2 ^ 64 - 2 ^ b.
Proof.
  intros. rewrite Z.shiftl_mul_pow2 by lia. unfold wrap, U64_MAX. pose proof (pow2_le b 64).
  replace ((2 ^ 64 - 1) * 2 ^ b) with ((2 ^ 64 - 2 ^ b) + (2 ^ b - 1) * 2 ^ 64) by lia.
  rewrite Z.mod_add, Z.mod_small by lia. done.
Qed.

Lemma low_mask b : 0 <= b < 64 → u64 (Z.lnot (u64 (Z.shiftl U64_MAX b))) = Z.ones b.
Proof.
  intros. rewrite high_mask by lia. unfold wrap. pose proof (pow2_le b 64).
  replace (Z.lnot (2 ^ 64 - 2 ^ b)) with (2 ^ b - 1 + (-1) * 2 ^ 64) by (unfold Z.lnot; lia).
  rewrite Z.mod_add, Z.mod_small, Z.ones_equiv by lia. lia.
Qed.

(** Setting every bit from [b] up adds them to the low bits. *)
Lemma lor_high_mask c b :
  0 <= b <= 64 → 0 <= c < 2 ^ 64 → Z.lor c (2 ^ 64 - 2 ^ b) = c mod 2 ^ b + (2 ^ 64 - 2 ^ b).
Proof.
  intros Hb Hc. pose proof (pow2_le b 64).
  assert (E : 2 ^ 64 - 2 ^ b = Z.shiftl (Z.ones (64 - b)) b).
  { rewrite Z.shiftl_mul_pow2, Z.ones_equiv by lia. rewrite Z.mul_pred_l, <-Z.pow_add_r by lia. do 2 f_equal. lia. }
  assert (Hlow : ∀ n, 0 <= n → Z.testbit (Z.shiftl (Z.ones (64 - b)) b) n = (b <=? n) && (n <? 64)).
  { intros n Hn. rewrite Z.shiftl_spec by lia. destruct (Z.leb_spec b n).
    - rewrite Z.testbit_ones_nonneg by lia. destruct (Z.ltb_spec (n - b) (64 - b)), (Z.ltb_spec n 64); lia || done.
    - by rewrite Z.testbit_neg_r by lia. }
  assert (Hhi : ∀ n, 64 <= n → Z.testbit c n = false).
  { intros n Hn. rewrite <-(Z.mod_small c (2 ^ 64)) by lia. apply Z.mod_pow2_bits_high. lia. }
  rewrite E, Z.add_nocarry_lxor, Z.lxor_lor; apply Z.bits_inj'; intros n Hn;
    rewrite ?Z.lor_spec, ?Z.land_spec, ?Z.bits_0, Hlow by lia.
  - destruct (Z.leb_spec b n), (Z.ltb_spec n 64); cbn [andb]; rewrite ?orb_true_r, ?orb_false_r; try done.
    + rewrite Z.mod_pow2_bits_high by lia. by apply Hhi.
    + by rewrite Z.mod_pow2_bits_low by lia.
    + lia.
  - destruct (Z.leb_spec b n); cbn [andb]; [|by rewrite andb_false_r].
    rewrite Z.mod_pow2_bits_high by lia. done.
  - destruct (Z.leb_spec b n); cbn [andb]; [|by rewrite andb_false_r].
    rewrite Z.mod_pow2_bits_high by lia. done.
Qed.

Lemma sign_bit c b : 1 <= b → 0 <= c → Z.testbit c (b - 1) = negb (c mod 2 ^ b <? 2 ^ (b - 1)).
Proof.
  intros Hb Hc. rewrite <-(Z.mod_pow2_bits_low c b (b - 1)) by lia.
  pose proof (Z.mod_pos_bound c (2 ^ b)). pose proof (pow2_half b Hb). pose proof (pow2_le (b - 1) b).
  set (y := c mod 2 ^ b) in *. destruct (Z.ltb_spec y (2 ^ (b - 1))); cbn [negb].
  - rewrite <-(Z.mod_small y (2 ^ (b - 1))) by lia. apply Z.mod_pow2_bits_high. lia.
  - apply Z.testbit_true; [lia|]. rewrite <-(Z.div_unique_pos y (2 ^ (b - 1)) 1 (y - 2 ^ (b - 1))); [done|lia|lia].
Qed.

(** Sign extension from [b] bits. *)
Lemma sign_extend c b :
  1 <= b <= 64 → 0 <= c < 2 ^ 64 →
  i64 (if b <? 64 then
         if negb (Z.land c (Z.shiftl 1 (b - 1)) =? 0) then Z.lor c (u64 (Z.shiftl U64_MAX b))
         else Z.land c (u64 (Z.lnot (u64 (Z.shiftl U64_MAX b))))
       else c) = signed b c.
Proof.
  intros Hb Hc. destruct (Z.ltb_spec b 64) as [Hb64|]; [|by replace b with 64 by lia].
  rewrite land_bit, sign_bit by lia. rewrite high_mask by lia.
  pose proof (Z.mod_pos_bound c (2 ^ b)). pose proof (pow2_half b). pose proof (pow2_le (b - 1) 62).
  unfold signed at 2. change (wrap b c) with (c mod 2 ^ b). destruct (Z.ltb_spec (c mod 2 ^ b) (2 ^ (b - 1))); cbn [negb].
  - rewrite <-high_mask, low_mask, Z.land_ones by lia. apply signed_id. lia.
  - rewrite lor_high_mask by lia. unfold signed, wrap. change (2 ^ (64 - 1)) with (2 ^ 63).
    rewrite Z.mod_small by lia. destruct (Z.ltb_spec (c mod 2 ^ b + (2 ^ 64 - 2 ^ b)) (2 ^ 63)); lia.
Qed.

Lemma signed_wrap b x : 0 <= b <= 64 → signed b (u64 x) = signed b x.
Proof.
  intros. unfold signed, wrap. replace (2 ^ 64) with (2 ^ b * 2 ^ (64 - b)) by (rewrite <-Z.pow_add_r by lia; f_equal; lia).
  pose proof (pow2_le b 64). pose proof (pow2_le (64 - b) 64).
  by rewrite Z.rem_mul_r, Z.mul_comm, Z.mod_add, Z.mod_mod by lia.
Qed.

Lemma signed_overflow_exact value incr bits overflow :
  1 <= bits <= 64 → in_i64 value → in_i64 incr →
  in_field true bits value ∨ (incr = 0 ∧ 2 ^ (bits - 1) - 2 ^ 63 <= value) →
  signed_overflow value incr bits overflow = overflow_spec true bits (value + incr) overflow.
Proof.
  intros Hb Hv Hi Hf. unfold in_field, in_i64, I64_MIN, I64_MAX in *. cbn [field_min field_max] in *.
  unfold signed_overflow, overflow_spec, in_field. cbn [field_min field_max field_value].
  assert (Emax : (if bits =? 64 then I64_MAX else i64 (i64 (Z.shiftl 1 (bits - 1)) - 1)) = 2 ^ (bits - 1) - 1).
  { destruct (Z.eqb_spec bits 64) as [->|]; [done|]. pose proof (pow2_le (bits - 1) 62).
    rewrite Z.shiftl_mul_pow2 by lia. rewrite !signed_id; rewrite ?signed_id; lia. }
  pose proof (pow2_le (bits - 1) 63). set (m := 2 ^ (bits - 1)) in *.
  rewrite Emax. replace (i64 (- (m - 1) - 1)) with (- m) by (rewrite signed_id; lia).
  assert (Hm : bits ≠ 64 → m <= 2 ^ 62) by (intros; unfold m; apply Z.pow_le_mono_r; lia).
  assert (Hm' : bits = 64 → m = 2 ^ 63) by (intros; unfold m; f_equal; lia).
  cbv zeta. rewrite sign_extend by (done || (apply wrap_range; lia)).
  assert (Ew : signed bits (u64 (u64 value + u64 incr)) = signed bits (value + incr)).
  { rewrite <-(signed_wrap bits (value + incr)) by lia.
    f_equal. rewrite wrap_add_l, Z.add_comm, wrap_add_l. f_equal. lia. }
  rewrite Ew. clear Ew. set (wrapped := signed bits (value + incr)).
  assert (Emax_incr : bits ≠ 64 ∨ 0 <= value → i64 (u64 (u64 (m - 1) - u64 value)) = m - 1 - value).
  { intros Hc. rewrite <-(signed_id (m - 1 - value)) by lia. unfold signed. rewrite wrap_wrap.
    replace (u64 (u64 (m - 1) - u64 value)) with (u64 (m - 1 - value)); [done|].
    unfold wrap. by rewrite Zminus_mod_idemp_l, Zminus_mod_idemp_r. }
  assert (Emin_incr : value <= m - 1 → bits ≠ 64 ∨ value < 0 → i64 (- m - value) = - m - value) by (intros; apply signed_id; lia).
  set (max_incr := i64 (u64 (u64 (m - 1) - u64 value))) in *. clearbody max_incr.
  set (min_incr := i64 (- m - value)) in *. clearbody min_incr. clearbody wrapped.
  assert (C1 : (m - 1 <? value) || (negb (bits =? 64) && (max_incr <? incr)) ||
    ((0 <=? value) && (0 <? incr) && (max_incr <? incr)) = (m - 1 <? value + incr)).
  { destruct (Z.eqb_spec bits 64), (Z.ltb_spec (m - 1) value), (Z.ltb_spec max_incr incr), (Z.leb_spec 0 value),
      (Z.ltb_spec 0 incr), (Z.ltb_spec (m - 1) (value + incr)); cbn [negb orb andb]; lia. }
  rewrite C1. destruct (Z.ltb_spec (m - 1) (value + incr)); [by rewrite decide_False by lia|].
  assert (C2 : (value <? - m) || (negb (bits =? 64) && (incr <? min_incr)) ||
    ((value <? 0) && (incr <? 0) && (incr <? min_incr)) = (value + incr <? - m)).
  { clear C1. destruct (Z.eqb_spec bits 64), (Z.ltb_spec value (- m)), (Z.ltb_spec incr min_incr), (Z.ltb_spec value 0),
      (Z.ltb_spec incr 0), (Z.ltb_spec (value + incr) (- m)); cbn [negb orb andb]; lia. }
  rewrite C2. destruct (Z.ltb_spec (value + incr) (- m)); [by rewrite decide_False by lia|].
  by rewrite decide_True by lia.
Qed.

(** A saturating SET of a value so far below a signed field that the distance
    to the field's maximum does not fit 64 bits. *)
Definition far_below (bits x : Z) (overflow : BitfieldOverflow) : bool :=
  match overflow with OSat => (bits <? 64) && (x <? 2 ^ (bits - 1) - 2 ^ 63) | _ => false end.

(** The distance wraps to a negative number, so the value passes for one above
    the maximum. *)
Lemma signed_overflow_far value bits overflow :
  1 <= bits < 64 → in_i64 value → value < 2 ^ (bits - 1) - 2 ^ 63 →
  signed_overflow value 0 bits overflow =
  if far_below bits value overflow then Some (field_max true bits) else overflow_spec true bits value overflow.
Proof.
  intros Hb Hv Hfar. unfold in_i64, I64_MIN, I64_MAX in *. unfold signed_overflow, overflow_spec, in_field, far_below.
  cbn [field_min field_max field_value]. rewrite (proj2 (Z.eqb_neq bits 64)), (proj2 (Z.ltb_lt bits 64)) by lia. cbn [negb andb].
  pose proof (pow2_le (bits - 1) 62). rewrite Z.shiftl_mul_pow2, Z.mul_1_l by lia.
  set (m := 2 ^ (bits - 1)) in *. rewrite (signed_id m), (signed_id (m - 1)) by lia.
  pose proof (sign_extend (u64 (u64 value + u64 0)) bits ltac:(lia) ltac:(apply wrap_range; lia)) as Ew.
  rewrite (proj2 (Z.ltb_lt bits 64)), Z.shiftl_mul_pow2, Z.mul_1_l in Ew by lia. fold m in Ew. cbv zeta. rewrite Ew. clear Ew.
  assert (signed bits (u64 (u64 value + u64 0)) = signed bits value) as ->.
  { change (u64 0) with 0. rewrite Z.add_0_r, wrap_wrap. apply signed_wrap. lia. }
  assert (i64 (u64 (u64 (m - 1) - u64 value)) < 0) as Hneg.
  { replace (u64 (u64 (m - 1) - u64 value)) with (m - 1 - value).
    - unfold signed, wrap. change (2 ^ (64 - 1)) with (2 ^ 63). rewrite Z.mod_small by lia.
      destruct (Z.ltb_spec (m - 1 - value) (2 ^ 63)); lia.
    - unfold wrap. rewrite Zminus_mod_idemp_l, Zminus_mod_idemp_r, Z.mod_small by lia. done. }
  rewrite (proj2 (Z.ltb_lt _ 0) Hneg), orb_true_r, decide_False by lia. cbn [orb].
  rewrite (proj2 (Z.ltb_lt value _)) by lia. by destruct overflow.
Qed.

(** Every signed store: what the mode asks for, but for the values above. *)
Lemma signed_store_exact value incr bits overflow :
  1 <= bits <= 64 → in_i64 value → in_i64 incr → in_field true bits value ∨ incr = 0 →
  signed_overflow value incr bits overflow =
  if far_below bits value overflow then Some (field_max true bits) else overflow_spec true bits (value + incr) overflow.
Proof.
  intros Hb Hv Hi Hf. pose proof (pow2_le (bits - 1) 63).
  destruct (decide (bits < 64 ∧ value < 2 ^ (bits - 1) - 2 ^ 63)) as [[Hlt Hfar]|Hnear].
  - pose proof (pow2_le (bits - 1) 62). destruct Hf as [Hf|Hf0]; [unfold in_field, field_min in Hf; lia|subst incr].
    rewrite Z.add_0_r. apply signed_overflow_far; done || lia.
  - assert (far_below bits value overflow = false) as ->.
    { unfold far_below. destruct overflow; [done| |done]. destruct (Z.ltb_spec bits 64), (Z.ltb_spec value (2 ^ (bits - 1) - 2 ^ 63)); done || lia. }
    apply signed_overflow_exact; [done..|]. destruct Hf as [|Hf0]; [by left|].
    destruct (decide (bits = 64)) as [->|]; [left|right; lia]. unfold in_field, field_min, field_max, in_i64, I64_MIN, I64_MAX in *. lia.
Qed.

Lemma unsigned_overflow_exact value incr bits overflow :
  1 <= bits <= 63 → in_width 64 value → in_i64 incr → in_field false bits value ∨ incr = 0 →
  unsigned_overflow value incr bits overflow = overflow_spec false bits (value + incr) overflow.
Proof.
  intros Hb Hv Hi Hf. unfold in_field, in_i64, in_width, I64_MIN, I64_MAX in *. cbn [field_min field_max] in *.
  unfold unsigned_overflow, overflow_spec, in_field. cbn [field_min field_max field_value].
  pose proof (pow2_le bits 63). rewrite Z.shiftl_mul_pow2, Z.mul_1_l by lia.
  rewrite low_mask, Z.land_ones by lia.
  assert (Ew : u64 (value + u64 incr) mod 2 ^ bits = wrap bits (value + incr)).
  { rewrite Z.add_comm, wrap_add_l, Z.add_comm. unfold wrap.
    replace (2 ^ 64) with (2 ^ bits * 2 ^ (64 - bits)) by (rewrite <-Z.pow_add_r by lia; f_equal; lia).
    pose proof (pow2_le (64 - bits) 64). by rewrite Z.rem_mul_r, Z.mul_comm, Z.mod_add, Z.mod_mod by lia. }
  rewrite Ew. clear Ew. set (m := 2 ^ bits) in *. set (wrapped := wrap bits (value + incr)). clearbody wrapped.
  rewrite !(wrap_id 64 m), (wrap_id 64 (m - 1)) by (unfold in_width; lia).
  assert (Emax_incr : value <= m - 1 → i64 (u64 (m - 1 - value)) = m - 1 - value).
  { intros. rewrite wrap_id by (unfold in_width; lia). apply signed_id. lia. }
  assert (Emin_incr : value <= m - 1 → i64 (u64 (- value)) = - value).
  { intros. rewrite signed_wrap by lia. apply signed_id. lia. }
  set (max_incr := i64 (u64 (m - 1 - value))) in *. set (min_incr := i64 (u64 (- value))) in *.
  clearbody max_incr min_incr.
  assert (C1 : (m - 1 <? value) || ((0 <? incr) && (max_incr <? incr)) = (m - 1 <? value + incr)).
  { destruct (Z.ltb_spec (m - 1) value), (Z.ltb_spec 0 incr), (Z.ltb_spec max_incr incr),
      (Z.ltb_spec (m - 1) (value + incr)); cbn [orb andb]; lia. }
  rewrite C1. destruct (Z.ltb_spec (m - 1) (value + incr)); [by rewrite decide_False by lia|].
  assert (C2 : (incr <? 0) && (incr <? min_incr) = (value + incr <? 0)).
  { clear C1. destruct (Z.ltb_spec incr 0), (Z.ltb_spec incr min_incr), (Z.ltb_spec (value + incr) 0); cbn [andb]; lia. }
  rewrite C2. destruct (Z.ltb_spec (value + incr) 0); [by rewrite decide_False by lia|].
  by rewrite decide_True by lia.
Qed.

(** ** Fields of a bit list *)

(** The number a run of bits spells, the first bit the highest. *)
Definition bits_value (l : list bool) : Z := foldl (λ v b, 2 * v + Z.b2z b) 0 l.

(** The low [n] bits of a number, highest first. *)
Definition field_bits (n value : Z) : list bool := (λ i, Z.testbit value (n - 1 - i)) <$> range 0 n.

(** The [n] bits at [o], zeros past the end. *)
Definition bits_at (l : list bool) (o n : Z) : list bool :=
  (λ i, default false (l !! Z.to_nat (o + i))) <$> range 0 n.

Definition get_field (sign : bool) (bits o : Z) (l : list bool) : Z := field_value sign bits (bits_value (bits_at l o bits)).
Definition set_field (bits o value : Z) (l : list bool) : list bool := list_inserts (Z.to_nat o) (field_bits bits value) l.

Lemma bits_value_snoc l b : bits_value (l ++ [b]) = 2 * bits_value l + Z.b2z b.
Proof. unfold bits_value. by rewrite foldl_app. Qed.

Lemma bits_value_range l : 0 <= bits_value l < 2 ^ len l.
Proof.
  induction l as [|b l IH] using rev_ind; [done|]. rewrite bits_value_snoc, length_app. cbn [length].
  replace (Z.of_nat (length l + 1)) with (Z.succ (len l)) by lia. rewrite Z.pow_succ_r by lia.
  destruct b; cbn [Z.b2z]; lia.
Qed.

Lemma range_snoc lo hi : lo <= hi → range lo (hi + 1) = range lo hi ++ [hi].
Proof.
  intros. unfold range. replace (Z.to_nat (hi + 1 - lo)) with (Z.to_nat (hi - lo) + 1)%nat by lia.
  rewrite seq_app, fmap_app. cbn. do 2 f_equal. lia.
Qed.

Lemma bits_at_snoc l o n : 0 <= n → bits_at l o (n + 1) = bits_at l o n ++ [default false (l !! Z.to_nat (o + n))].
Proof. intros. unfold bits_at. by rewrite range_snoc, fmap_app by lia. Qed.

Lemma length_bits_at l o n : 0 <= n → len (bits_at l o n) = n.
Proof. intros. unfold bits_at. rewrite length_fmap, length_range. lia. Qed.

Lemma length_field_bits n value : length (field_bits n value) = Z.to_nat n.
Proof. unfold field_bits. rewrite length_fmap, length_range. lia. Qed.

(** Reading [n] bits of a number back gives the number reduced to them. *)
Lemma bits_value_field n value : 0 <= n → bits_value (field_bits n value) = wrap n value.
Proof.
  intros Hn.
  assert (H : ∀ i, 0 <= i <= n →
    bits_value ((λ i, Z.testbit value (n - 1 - i)) <$> range 0 i) = Z.shiftr value (n - i) mod 2 ^ i).
  { intros i [Hi Hle]. revert Hle. pattern i. apply natlike_ind; [by rewrite Z.mod_1_r| |done].
    intros j Hj IH Hle. rewrite <-Z.add_1_r, range_snoc, fmap_app by lia. cbn [fmap list_fmap].
    rewrite bits_value_snoc, IH by lia. replace (n - j) with (n - (j + 1) + 1) by lia.
    rewrite <-Z.shiftr_shiftr by lia. set (x := Z.shiftr value (n - (j + 1))).
    replace (Z.testbit value (n - 1 - j)) with (Z.testbit x 0).
    2:{ unfold x. rewrite Z.shiftr_spec by lia. f_equal. lia. }
    rewrite (Z.shiftr_div_pow2 x) by lia. rewrite Z.bit0_mod. change (2 ^ 1) with 2.
    rewrite Z.add_1_r, Z.pow_succ_r, Z.rem_mul_r by lia. pose proof (pow2_le j j). lia. }
  unfold field_bits. rewrite H by lia. rewrite Z.sub_diag, Z.shiftr_0_r. done.
Qed.

Lemma lookup_field_bits n value i :
  0 <= i < n → field_bits n value !! Z.to_nat i = Some (Z.testbit value (n - 1 - i)).
Proof.
  intros. unfold field_bits. rewrite list_lookup_fmap.
  assert (range 0 n !! Z.to_nat i = Some i) as -> by (apply range_lookup; lia). done.
Qed.

(** A field read back is the value written, as the field holds it; a field
    beside it is as it was. *)
Lemma get_set_field sign bits o value l :
  0 <= bits → 0 <= o → o + bits <= len l → get_field sign bits o (set_field bits o value l) = field_value sign bits value.
Proof.
  intros Hb Ho Hl. unfold get_field. assert (E : bits_at (set_field bits o value l) o bits = field_bits bits value).
  { apply list_fmap_ext. intros k i [-> Hi]%range_lookup. unfold set_field.
    rewrite list_lookup_inserts by (rewrite ?length_field_bits; lia).
    replace (Z.to_nat (o + (0 + Z.of_nat k)) - Z.to_nat o)%nat with (Z.to_nat (Z.of_nat k)) by lia.
    by rewrite lookup_field_bits by lia. }
  rewrite E, bits_value_field by done. unfold field_value. destruct sign; [|by rewrite wrap_wrap].
  unfold signed. by rewrite wrap_wrap.
Qed.

Lemma get_set_field_other bits o value sign' bits' o' l :
  0 <= bits' → 0 <= o → 0 <= o' → 0 <= bits → o + bits <= o' ∨ o' + bits' <= o →
  get_field sign' bits' o' (set_field bits o value l) = get_field sign' bits' o' l.
Proof.
  intros Hb' Ho Ho' Hb Hd. unfold get_field. do 2 f_equal. apply list_fmap_ext.
  intros k i [-> Hi]%range_lookup. f_equal. unfold set_field. destruct Hd.
  - rewrite list_lookup_inserts_ge; [done|]. rewrite length_field_bits. lia.
  - rewrite list_lookup_inserts_lt; [done|]. lia.
Qed.

(** ** Fields through a buffer *)

(** What a buffer that holds a string promises: reading a byte gives the
    string's, zero past the end, and setting one inside it changes that byte
    alone. Neither touches the store. *)
Class BitBufLaws {T} `{BitBuf T} (holds : T → bytes → Prop) (w : world kvmap) := {
  law_byte b L i : holds b L → 0 <= i →
    wp (buf_byte b i) w (λ r w', w' = w ∧ r.1 = byte_or_zero L (Z.to_nat i) ∧ holds r.2 L);
  law_set_byte b L i v : holds b L → 0 <= i < len L → in_width 8 v →
    wp (buf_set_byte b i v) w (λ b' w', w' = w ∧ holds b' (<[Z.to_nat i := z2b v]> L))
}.

Lemma low_bit x k : Z.land (Z.shiftr x k) 1 = Z.b2z (Z.testbit x k).
Proof.
  change 1 with (Z.ones 1) at 1. rewrite Z.land_ones by lia. change (2 ^ 1) with 2.
  rewrite <-Z.bit0_mod, Z.shiftr_spec by lia. do 2 f_equal.
Qed.

Lemma lor_low v b : 0 <= v → Z.lor (2 * v) (Z.b2z b) = 2 * v + Z.b2z b.
Proof. intros. destruct b, v; done. Qed.

Lemma div8_mod8 o :
  0 <= o → Z.to_nat (o / 8) = (Z.to_nat o / 8)%nat ∧ o mod 8 = Z.of_nat (Z.to_nat o mod 8) ∧ 0 <= o mod 8 < 8.
Proof.
  intros. split; [by rewrite Z2Nat.inj_div by lia|]. split; [by rewrite Nat2Z.inj_mod, Z2Nat.id by lia|].
  apply Z.mod_pos_bound. lia.
Qed.

Lemma bits_below k x : 0 <= k → (∀ n, k <= n → Z.testbit x n = false) → 0 <= x < 2 ^ k.
Proof.
  intros Hk H. assert (x = x mod 2 ^ k) as ->; [|apply Z.mod_pos_bound; lia].
  apply Z.bits_inj'. intros n Hn. destruct (decide (k <= n)).
  - rewrite Z.mod_pow2_bits_high by lia. by apply H.
  - by rewrite Z.mod_pow2_bits_low by lia.
Qed.

(** Setting or clearing one bit of a byte. *)
Lemma set_bit_of_byte (set : bool) byte p q :
  0 <= byte < 2 ^ 8 → 0 <= p < 8 → 0 <= q < 8 →
  let byte' := if set then Z.lor byte (Z.shiftl 1 p) else Z.land byte (not8 (Z.shiftl 1 p)) in
  in_width 8 byte' ∧ Z.testbit byte' q = if decide (p = q) then set else Z.testbit byte q.
Proof.
  intros Hb Hp Hq byte'. assert (Hm : Z.testbit (Z.shiftl 1 p) q = bool_decide (p = q)).
  { rewrite Z.shiftl_mul_pow2, Z.mul_1_l by lia. case_bool_decide as E; [subst; by apply Z.pow2_bits_true; lia|].
    by apply Z.pow2_bits_false. }
  split.
  - unfold byte', in_width. apply (bits_below 8); [lia|].
    intros n Hn. assert (Hn' : Z.testbit byte n = false).
    { rewrite <-(Z.mod_small byte (2 ^ 8)) by lia. by apply Z.mod_pow2_bits_high. }
    destruct set; [|by rewrite Z.land_spec, Hn'].
    rewrite Z.lor_spec, Hn', Z.shiftl_mul_pow2, Z.mul_1_l by lia. apply Z.pow2_bits_false. lia.
  - unfold byte'. destruct set; rewrite ?Z.lor_spec, ?Z.land_spec, ?not8_bit, Hm by lia;
      case_bool_decide; [rewrite decide_True by done|rewrite decide_False by done|rewrite decide_True by done|rewrite decide_False by done];
      by rewrite ?orb_true_r, ?orb_false_r, ?andb_false_r, ?andb_true_r.
Qed.

Lemma inserts_snoc {A} (l k : list A) i n x :
  length k = n → <[(i + n)%nat := x]> (list_inserts i k l) = list_inserts i (k ++ [x]) l.
Proof.
  intros <-. revert i. induction k as [|y k IH]; intros i; cbn [list_inserts app length]; [by rewrite Nat.add_0_r|].
  rewrite list_insert_insert_ne by lia. f_equal. rewrite <-IH. f_equal. lia.
Qed.

Lemma signed_range x : - 2 ^ 63 <= signed 64 x < 2 ^ 63.
Proof.
  unfold signed. change (2 ^ (64 - 1)) with (2 ^ 63). pose proof (wrap_range 64 x).
  destruct (Z.ltb_spec (u64 x) (2 ^ 63)); lia.
Qed.

(** One bit of a string set through its byte. *)
Lemma bits_of_set_bit (L : bytes) o (set : bool) :
  0 <= o < 8 * len L →
  let byte := byte_or_zero L (Z.to_nat (o / 8)) in
  let byte' := if set then Z.lor byte (mask_of o) else Z.land byte (not8 (mask_of o)) in
  in_width 8 byte' ∧ bits_of (<[Z.to_nat (o / 8) := z2b byte']> L) = <[Z.to_nat o := set]> (bits_of L).
Proof.
  intros Ho byte byte'. destruct (div8_mod8 o) as (Ed & Em & Hm); [lia|].
  pose proof (byte_or_zero_range L (Z.to_nat (o / 8))) as Hbyte. fold byte in Hbyte.
  assert (Hset : ∀ q, 0 <= q < 8 → in_width 8 byte' ∧
    Z.testbit byte' q = if decide (7 - o mod 8 = q) then set else Z.testbit byte q).
  { intros q Hq. unfold byte', mask_of. rewrite land7. apply set_bit_of_byte; lia. }
  split; [apply (Hset 0); lia|]. assert (o / 8 < len L) by (apply Z.div_lt_upper_bound; lia).
  pose proof (Z.div_pos o 8). apply list_eq. intros i. rewrite lookup_bits_of.
  destruct (decide (i / 8 = Z.to_nat (o / 8))%nat) as [E|E].
  - rewrite E, list_lookup_insert_eq by lia. cbn [fmap option_fmap option_map].
    pose proof (Nat.mod_upper_bound i 8). destruct (Hset (7 - Z.of_nat (i mod 8))) as [Hw Hb]; [lia|].
    rewrite b2z_z2b_id, Hb by done. pose proof (Nat.div_mod i 8). pose proof (Nat.div_mod (Z.to_nat o) 8).
    assert (Hi : (i < 8 * length L)%nat) by lia.
    case_decide as Eq.
    + assert (i = Z.to_nat o) as -> by lia. rewrite list_lookup_insert_eq; [done|]. rewrite length_bits_of. lia.
    + rewrite list_lookup_insert_ne by lia. rewrite lookup_bits_of.
      unfold byte, byte_or_zero. rewrite <-E. destruct (lookup_lt_is_Some_2 L (i / 8)) as [b Hbb]; [lia|].
      by rewrite Hbb.
  - rewrite list_lookup_insert_ne by done. rewrite list_lookup_insert_ne; [by rewrite lookup_bits_of|].
    intros <-. apply E. by rewrite Ed.
Qed.

Section Fields.
Context {T} `{BitBuf T} (holds : T → bytes → Prop) (w : world kvmap) {laws : BitBufLaws holds w}.

(** A field read is the field of the string's bits. *)
Lemma wp_field_read op buf L Q :
  holds buf L → 1 <= f_bits op <= 64 → 0 <= f_offset op → f_offset op + f_bits op < 2 ^ 64 →
  (∀ buf', holds buf' L → Q (i64 (get_field (f_signed op) (f_bits op) (f_offset op) (bits_of L)), buf') w) →
  wp (field_read op buf) w Q.
Proof.
  intros Hh Hb Ho Hlim HQ. unfold field_read. apply wp_bind.
  apply (wp_fold (λ l r w', w' = w ∧ holds r.2 L ∧ ∃ i, 0 <= i <= f_bits op ∧ l = range i (f_bits op) ∧
    r.1 = bits_value (bits_at (bits_of L) (f_offset op) i))).
  - split; [done|]. split; [done|]. exists 0. repeat split; lia || done.
  - intros x l' [v b] w' (-> & Hbuf & i & Hi & El & Ev). cbn [fst snd] in *. subst v.
    destruct (decide (i < f_bits op)) as [Hlt|]; [|rewrite range_nil in El by lia; done].
    rewrite range_cons in El by lia. injection El as -> ->. unfold read_bit.
    rewrite wrap_id by (unfold in_width; lia). rewrite shiftr3. apply wp_bind.
    eapply wp_conseq; [apply (law_byte (holds := holds) _ _ _ Hbuf); apply Z.div_pos; lia|].
    intros [byte b'] w'' (-> & Hbyte & Hb'). cbn [fst snd] in *. subst byte. wp_op.
    split; [done|]. split; [done|]. exists (i + 1). repeat split; [lia..|]. cbn [fst].
    destruct (div8_mod8 (f_offset op + i)) as (Ed & Em & Hm); [lia|].
    rewrite low_bit, land7, Em, Ed, <-bit_of_byte.
    pose proof (bits_value_range (bits_at (bits_of L) (f_offset op) i)) as Hr. rewrite length_bits_at in Hr by lia.
    assert (2 ^ (i + 1) <= 2 ^ 64) by (apply Z.pow_le_mono_r; lia). rewrite Z.add_1_r, Z.pow_succ_r in H0 by lia.
    rewrite Z.shiftl_mul_pow2 by lia. change (2 ^ 1) with 2. rewrite wrap_id by (unfold in_width; lia).
    rewrite Z.mul_comm, lor_low by lia. rewrite bits_at_snoc, bits_value_snoc by lia. done.
  - intros [v b] w' (-> & Hbuf & i & Hi & El & Ev). cbn [fst snd] in *. subst v.
    assert (i = f_bits op) as ->.
    { destruct (decide (i < f_bits op)); [rewrite range_cons in El by lia; done|lia]. }
    wp_op. pose proof (bits_value_range (bits_at (bits_of L) (f_offset op) (f_bits op))) as Hr.
    rewrite length_bits_at in Hr by lia. specialize (HQ _ Hbuf). unfold get_field in HQ.
    set (v := bits_value _) in *. clearbody v.
    pose proof (pow2_le (f_bits op) 64). destruct (f_signed op); cbn [andb field_value] in *.
    2:{ rewrite wrap_id in HQ by (unfold in_width; lia). done. }
    pose proof (sign_extend v (f_bits op)) as HE.
    assert (Hs : - 2 ^ 63 <= signed (f_bits op) v < 2 ^ 63).
    { rewrite <-HE by lia. apply signed_range. }
    rewrite signed_id in HQ by done. rewrite <-HE in HQ by lia. destruct (Z.ltb_spec (f_bits op) 64); [|done].
    cbn [andb]. destruct (negb _); [done|]. rewrite low_mask, Z.land_ones in HQ by lia.
    rewrite Z.mod_small in HQ by lia. done.
Qed.

(** A field write sets the field of the string's bits. *)
Lemma wp_write_bits buf L offset bits value Q :
  holds buf L → 0 <= bits → 0 <= offset → offset + bits <= 8 * len L → 8 * len L < 2 ^ 64 →
  (∀ buf' L', holds buf' L' → length L' = length L → bits_of L' = set_field bits offset value (bits_of L) →
    Q buf' w) →
  wp (write_bits buf offset bits value) w Q.
Proof.
  intros Hh Hb Ho Hfit Hlim HQ. unfold write_bits.
  apply (wp_fold (λ l b w', w' = w ∧ ∃ i L', 0 <= i <= bits ∧ l = range i bits ∧ holds b L' ∧ length L' = length L ∧
    bits_of L' = list_inserts (Z.to_nat offset) (take (Z.to_nat i) (field_bits bits value)) (bits_of L))).
  - split; [done|]. exists 0, L. repeat split; lia || done.
  - intros x l' b w' (-> & i & L' & Hi & El & Hbuf & HL & HB).
    destruct (decide (i < bits)) as [Hlt|]; [|rewrite range_nil in El by lia; done].
    rewrite range_cons in El by lia. injection El as -> ->. unfold write_bit.
    rewrite wrap_id by (unfold in_width; lia). rewrite !shiftr3. apply wp_bind.
    eapply wp_conseq; [apply (law_byte (holds := holds) _ _ _ Hbuf); apply Z.div_pos; lia|].
    intros [byte b'] w'' (-> & Hbyte & Hb'). cbn [fst snd] in *. subst byte.
    assert (Eset : (Z.land (Z.shiftr value (bits - 1 - i)) 1 =? 1) = Z.testbit value (bits - 1 - i)).
    { rewrite low_bit. by destruct (Z.testbit _ _). }
    rewrite Eset. destruct (bits_of_set_bit L' (offset + i) (Z.testbit value (bits - 1 - i))) as [Hw Hset]; [lia|].
    assert ((offset + i) / 8 < len L') by (apply Z.div_lt_upper_bound; lia). pose proof (Z.div_pos (offset + i) 8).
    eapply wp_conseq; [apply (law_set_byte (holds := holds) _ _ _ _ Hb'); [lia|exact Hw]|].
    intros b'' w'' [-> Hb'']. split; [done|]. eexists (i + 1), _. split; [lia|]. split; [done|]. split; [exact Hb''|].
    split; [by rewrite length_insert|]. rewrite Hset, HB.
    replace (Z.to_nat (i + 1)) with (S (Z.to_nat i)) by lia.
    rewrite (take_S_r _ _ (Z.testbit value (bits - 1 - i))) by (apply lookup_field_bits; lia).
    replace (Z.to_nat (offset + i)) with (Z.to_nat offset + Z.to_nat i)%nat by lia.
    apply inserts_snoc. rewrite length_take, length_field_bits. lia.
  - intros b w' (-> & i & L' & Hi & El & Hbuf & HL & HB).
    assert (i = bits) as -> by (destruct (decide (i < bits)); [rewrite range_cons in El by lia; done|lia]).
    apply (HQ b L'); [done..|]. rewrite HB, take_ge; [done|]. rewrite length_field_bits. lia.
Qed.
End Fields.

(** ** Properties *)

(** BITOP answers a string as long as its longest source whose every bit is
    the operator applied to that bit of the sources, a shorter source reading as
    zeros past its end; ONE is the bits set in exactly one source. *)
Theorem bitop_is_bitwise op sources i :
  sources ≠ [] →
  len (bitop_of op sources) = foldr (λ s n, Z.max (len s) n) 0 sources ∧
  ((i < 8 * length (bitop_of op sources))%nat →
    bit_of (bitop_of op sources) i = bitop_bool op ((λ s, bit_of s i) <$> sources)).
Proof.
  intros Hs. destruct (bitop_of_bits op sources i Hs) as [Hl Hb]. rewrite Hl. split.
  - clear. induction sources as [|s l IH]; [done|]. cbn [foldr]. rewrite <-IH. lia.
  - intros Hi. unfold bit_of at 1. by rewrite Hb.
Qed.

Lemma bitop_is_bitwise_witness :
  let sources := [[Byte.xf0; Byte.xff]; [Byte.x3c]; [Byte.x0f]] in
  bitop_of BOne sources = [Byte.xc3; Byte.xff] ∧ bit_of (bitop_of BOne sources) 2 = false ∧
  len (bitop_of BOne sources) = 2.
Proof.
  intros sources. assert (Hs : sources ≠ []) by done.
  split; [by vm_compute|]. split.
  - etransitivity; [apply (proj2 (bitop_is_bitwise BOne sources 2 Hs)); vm_compute; lia|]. by vm_compute.
  - exact (proj1 (bitop_is_bitwise BOne sources 2 Hs)).
Defined.


