(* ===== verification/Strings.v ===== *)
(** * The string store

    Models [crates/flint-storage/src/strings.rs]: the string commands over the
    store seam. A string is one inline metadata row, or, when it is long and the
    seat writes chunks, a metadata row and one row per nonzero chunk under the
    key's version. The in-place writers work on a [Target], an inline value or a
    view of the chunks loaded on first use, written back by [finish].

    The commands are shown to do what they mean on one abstract value, a byte
    string and its expiry ([sholds], [srepr]), whichever of the two forms holds
    it. The chunk source and the target implement the interfaces of [Bits]. *)

From stdpp Require Import base list gmap strings sorting.
From Stdlib Require Import ZArith Lia Bool.
From Stdlib Require Strings.Byte.
From S2P Require Import Prelude Encoding Kv Store Num F64 Lists Bits.

(** ** Data *)

Inductive SetOutcome := SetDone | SetUnchanged.

Inductive SetExpiry := EClear | EKeep | EAtMs (at_ms : Z).

Record SetOptions := mkSetOptions { o_nx : bool; o_xx : bool; o_expiry : SetExpiry }.

Definition INLINE_MAX : Z := 64 * 1024.
Definition CHUNK_BYTES : Z := 32 * 1024.

Record StringStore := mkStringStore {
  ss_base : store;
  ss_chunked_writes : bool;
  ss_inline_max : Z;
  ss_chunk : Z
}.

(** [StringStore::with_max_value_bytes]. *)
Definition string_store (ns : bytes) (max : Z) : StringStore :=
  mkStringStore (with_max_value_bytes ns max) false INLINE_MAX CHUNK_BYTES.

Definition with_chunked_writes (s : StringStore) (writes : bool) : StringStore :=
  mkStringStore (ss_base s) writes (ss_inline_max s) (ss_chunk s).

Inductive Stored := SInline (m : StringMeta) | SChunked (c : ComplexMeta).

Definition stored_len (s : Stored) : Z :=
  match s with SInline m => len (s_payload m) | SChunked c => c_bytes c end.

(** An inline string being changed in place. The store, slot and key the view
    carries are arguments of the operations on it. *)
Record InlineView := mkInlineView { iv_payload : bytes; iv_expire_ms : Z; iv_dirty : bool }.

(** A chunked string being changed in place. *)
Record ChunkView := mkChunkView {
  cv_meta : ComplexMeta;
  cv_chunks : gmap Z bytes;
  cv_changed : gset Z;
  cv_dirty : bool
}.

Inductive Target := TgInline (v : InlineView) | TgChunked (v : ChunkView).

(** [Vec::resize(n, 0)]. *)
Definition resize0 (l : bytes) (n : nat) : bytes := take n l ++ replicate (n - length l) Byte.x00.

(** [slice::chunks(n)]: [n] = 0 panics. *)
Fixpoint chunks_go (fuel : nat) (n : nat) (l : bytes) : list bytes :=
  match fuel, l with
  | S fuel', _ :: _ => take n l :: chunks_go fuel' n (drop n l)
  | _, _ => []
  end.

Definition chunks (n : nat) (l : bytes) : option (list bytes) :=
  match n with O => None | _ => Some (chunks_go (length l) n l) end.

(** [dst[at..at + src.len()].copy_from_slice(src)]. *)
Definition copy_into (dst : bytes) (at_ : nat) (src : bytes) : option bytes :=
  if decide (at_ + length src ≤ length dst)%nat
  then Some (patch dst at_ src) else None.

Definition div_ceil (a b : Z) : Z := (a + b - 1) / b.

Definition with_bytes_of (m : ComplexMeta) (bytes : Z) : ComplexMeta :=
  mkComplexMeta (c_header m) (c_written_ms m) (c_version m) (c_size m) bytes.

Definition with_expire_ms (m : ComplexMeta) (expire_ms : Z) : ComplexMeta :=
  mkComplexMeta (mkMetaHeader (h_flags (c_header m)) expire_ms) (c_written_ms m) (c_version m)
    (c_size m) (c_bytes m).

(** ** The store *)

Section Operations.
Context (st : StringStore) (slot : Z) (key : bytes).

Abbreviation ns := (st_ns (ss_base st)).
Abbreviation max := (st_max (ss_base st)).
Abbreviation mk := (meta_key (ss_base st) slot key).

Definition chunk_key (version i : Z) : option bytes :=
  subkey_envelope ns slot key version (be 4 (u32 i)).

Definition read_live_header : prog (option MetaHeader) :=
  o <- kvget mk ;;
  match o ≫= MetaHeader_decode with
  | None => Ret None
  | Some header =>
      now <- clock ;;
      if MetaHeader_is_expired header now then kvdelete mk ;;; Ret None else Ret (Some header)
  end.

Definition read_live : prog (result (option Stored)) :=
  now <- clock ;;
  o <- kvget mk ;;
  match o with
  | None => Ret (Ok None)
  | Some row =>
      match MetaHeader_decode row with
      | None => Ret (Ok None)
      | Some header =>
          if MetaHeader_is_expired header now then kvdelete mk ;;; Ret (Ok None)
          else match value_type header with
               | Some TString => Ret (Ok (SInline <$> StringMeta_decode row))
               | Some TChunkedString => Ret (Ok (SChunked <$> ComplexMeta_decode row))
               | _ => Ret (Err WrongType)
               end
      end
  end.

(** The scan's callback over the rows, in order: a row that is not a chunk is
    passed over, one past the last chunk ends the scan. *)
Fixpoint patch_rows (skip : nat) (from to last : Z) (rows : list (bytes * bytes)) (out : bytes) : option bytes :=
  match rows with
  | [] => Some out
  | (k, v) :: rows' =>
      match get_from k skip with
      | Some f =>
          if bool_decide (length f = 4%nat) then
            let i := of_be f in
            if last <? i then Some out
            else
              let base := u64 (i * ss_chunk st) in
              let '(lo, hi) := (Z.max base from, Z.min (u64 (base + len v)) to) in
              if lo <? hi then
                part ← get_sub v (Z.to_nat (lo - base)) (Z.to_nat (hi - lo));
                out' ← copy_into out (Z.to_nat (lo - from)) part;
                patch_rows skip from to last rows' out'
              else patch_rows skip from to last rows' out
          else patch_rows skip from to last rows' out
      | None => patch_rows skip from to last rows' out
      end
  end.

(** The scan starts after the chunk before the first one wanted: the start
    bound is a place below the prefix. *)
Definition read_chunked (c : ComplexMeta) (from to : Z) : prog bytes :=
  let to := Z.min to (c_bytes c) in
  if to <=? from then Ret []
  else
    let out := replicate (Z.to_nat (to - from)) Byte.x00 in
    let size := ss_chunk st in
    let '(first, last) := (from / size, (to - 1) / size) in
    prefix <- unwrap (subkey_prefix ns slot key (c_version c)) ;;
    rows <- for_each_from prefix (if first =? 0 then [] else be 4 (u32 (first - 1))) ;;
    unwrap (patch_rows (length prefix) from to last rows out).

Definition value_of (s : Stored) : prog bytes :=
  match s with
  | SInline m => Ret (s_payload m)
  | SChunked c => read_chunked c 0 (c_bytes c)
  end.

Definition expiry_of (s : Stored) : Z :=
  match s with SInline m => s_expire_ms m | SChunked c => h_expire_ms (c_header c) end.

Definition value_and_expiry : prog (result (option (bytes * Z))) :=
  o <-? read_live ;;
  match o with
  | None => Ret (Ok None)
  | Some s => v <- value_of s ;; Ret (Ok (Some (v, expiry_of s)))
  end.

(** The loop that stores a value's chunks: a chunk of zeros is no row. *)
Definition put_chunks (version : Z) (payload : bytes) : prog unit :=
  parts <- unwrap (chunks (Z.to_nat (ss_chunk st)) payload) ;;
  for_ (zip (range 0 (len parts)) parts) (λ '(i, part),
    if existsb (λ b, negb (b2z b =? 0)) part then
      ck <- unwrap (chunk_key version i) ;; kvput ck part
    else Ret tt).

Definition put_value (payload : bytes) (expire_ms : Z) : prog unit :=
  now <- clock ;;
  if negb (ss_chunked_writes st && (ss_inline_max st <? len payload)) then
    kvput mk (StringMeta_encode (StringMeta_new payload expire_ms now))
  else
    version <- next_version now ;;
    let meta := with_expire_ms (ComplexMeta_new TChunkedString version) expire_ms in
    put_chunks version payload ;;;
    let meta' := ComplexMeta_touch
      (mkComplexMeta (c_header meta) (c_written_ms meta) (c_version meta)
         (u32 (div_ceil (len payload) (ss_chunk st))) (len payload)) now in
    kvput mk (ComplexMeta_encode meta').

Definition store_value (payload : bytes) (expire_ms : Z) : prog unit := put_value payload expire_ms.

(** ** Targets of in-place writes *)

Definition target (need : Z) : prog (result Target) :=
  existing <-? read_live ;;
  let chunk_now := ss_chunked_writes st && (ss_inline_max st <? need) in
  match existing with
  | Some (SChunked meta) => Ret (Ok (TgChunked (mkChunkView meta ∅ ∅ false)))
  | Some (SInline m) =>
      if chunk_now then
        now <- clock ;;
        version <- next_version now ;;
        let meta := with_expire_ms (ComplexMeta_new TChunkedString version) (s_expire_ms m) in
        put_chunks (c_version meta) (s_payload m) ;;;
        Ret (Ok (TgChunked (mkChunkView (with_bytes_of meta (len (s_payload m))) ∅ ∅ true)))
      else Ret (Ok (TgInline (mkInlineView (s_payload m) (s_expire_ms m) false)))
  | None =>
      if chunk_now then
        now <- clock ;;
        version <- next_version now ;;
        Ret (Ok (TgChunked (mkChunkView (ComplexMeta_new TChunkedString version) ∅ ∅ true)))
      else Ret (Ok (TgInline (mkInlineView [] 0 true)))
  end.

Definition inline_finish (v : InlineView) : prog unit :=
  if iv_dirty v then
    now <- clock ;;
    kvput mk (StringMeta_encode (StringMeta_new (iv_payload v) (iv_expire_ms v) now))
  else Ret tt.

Definition inline_byte (v : InlineView) (i : Z) : prog (Z * InlineView) :=
  Ret (byte_or_zero (iv_payload v) (Z.to_nat i), v).

Definition inline_set_byte (v : InlineView) (i b : Z) : prog InlineView :=
  let '(payload, dirty) :=
    if len (iv_payload v) <=? i then (resize0 (iv_payload v) (Z.to_nat (i + 1)), true)
    else (iv_payload v, iv_dirty v) in
  old <- unwrap (payload !! Z.to_nat i) ;;
  Ret (if b2z old =? b then mkInlineView payload (iv_expire_ms v) dirty
       else mkInlineView (<[Z.to_nat i := z2b b]> payload) (iv_expire_ms v) true).

(** [ChunkView::chunk]: chunk [i], loaded on first use. *)
Definition load_chunk (v : ChunkView) (i : Z) : prog (bytes * ChunkView) :=
  match cv_chunks v !! i with
  | Some c => Ret (c, v)
  | None =>
      ck <- unwrap (chunk_key (c_version (cv_meta v)) i) ;;
      o <- kvget ck ;;
      let c := resize0 (default [] o) (Z.to_nat (ss_chunk st)) in
      Ret (c, mkChunkView (cv_meta v) (<[i := c]> (cv_chunks v)) (cv_changed v) (cv_dirty v))
  end.

Definition store_chunk (v : ChunkView) (i : Z) (c : bytes) : ChunkView :=
  mkChunkView (cv_meta v) (<[i := c]> (cv_chunks v)) ({[i]} ∪ cv_changed v) (cv_dirty v).

Definition chunk_finish (v : ChunkView) : prog unit :=
  if negb (cv_dirty v) && bool_decide (cv_changed v = ∅) then Ret tt
  else
    let size := ss_chunk st in
    let len_ := c_bytes (cv_meta v) in
    for_ (merge_sort Z.le (base.elements (cv_changed v))) (λ i,
      match cv_chunks v !! i with
      | None => Ret tt
      | Some c =>
          let span := Z.min (saturating_sub len_ (u64 (i * size))) size in
          ck <- unwrap (chunk_key (c_version (cv_meta v)) i) ;;
          part <- unwrap (get_sub c 0 (Z.to_nat span)) ;;
          kvput ck part
      end) ;;;
    now <- clock ;;
    let meta := cv_meta v in
    kvput mk (ComplexMeta_encode (ComplexMeta_touch
      (mkComplexMeta (c_header meta) (c_written_ms meta) (c_version meta)
         (u32 (div_ceil len_ size)) len_) now)).

Definition chunk_byte (v : ChunkView) (i : Z) : prog (Z * ChunkView) :=
  if c_bytes (cv_meta v) <=? i then Ret (0, v)
  else
    r <- load_chunk v (i / ss_chunk st) ;;
    let '(c, v') := r in
    b <- unwrap (c !! Z.to_nat (i mod ss_chunk st)) ;;
    Ret (b2z b, v').

Definition set_len (v : ChunkView) (n : Z) : ChunkView :=
  mkChunkView (with_bytes_of (cv_meta v) n) (cv_chunks v) (cv_changed v) true.

Definition chunk_set_byte (v : ChunkView) (i b : Z) : prog ChunkView :=
  let v := if c_bytes (cv_meta v) <=? i then set_len v (u64 (i + 1)) else v in
  r <- load_chunk v (i / ss_chunk st) ;;
  let '(c, v') := r in
  old <- unwrap (c !! Z.to_nat (i mod ss_chunk st)) ;;
  Ret (if b2z old =? b then v'
       else store_chunk v' (i / ss_chunk st) (<[Z.to_nat (i mod ss_chunk st) := z2b b]> c)).

Definition target_byte (t : Target) (i : Z) : prog (Z * Target) :=
  match t with
  | TgInline v => r <- inline_byte v i ;; Ret (r.1, TgInline r.2)
  | TgChunked v => r <- chunk_byte v i ;; Ret (r.1, TgChunked r.2)
  end.

Definition target_set_byte (t : Target) (i b : Z) : prog Target :=
  match t with
  | TgInline v => v' <- inline_set_byte v i b ;; Ret (TgInline v')
  | TgChunked v => v' <- chunk_set_byte v i b ;; Ret (TgChunked v')
  end.

Definition target_len (t : Target) : Z :=
  match t with TgInline v => len (iv_payload v) | TgChunked v => c_bytes (cv_meta v) end.

Definition grow (t : Target) (n : Z) : Target :=
  match t with
  | TgInline v =>
      if len (iv_payload v) <? n
      then TgInline (mkInlineView (resize0 (iv_payload v) (Z.to_nat n)) (iv_expire_ms v) true) else t
  | TgChunked v => if c_bytes (cv_meta v) <? n then TgChunked (set_len v n) else t
  end.

(** The loop of [Target::write] over a chunked string: one chunk a turn. *)
Fixpoint write_loop (fuel : nat) (v : ChunkView) (at_ : Z) (bytes : bytes) (done : nat) : prog ChunkView :=
  if decide (length bytes ≤ done)%nat then Ret v
  else match fuel with
  | O => Panic
  | S fuel' =>
      let size := ss_chunk st in
      let pos := u64 (at_ + Z.of_nat done) in
      let '(i, off) := (pos / size, Z.to_nat (pos mod size)) in
      let n := Nat.min (Z.to_nat size - off) (length bytes - done) in
      part <- unwrap (get_sub bytes done n) ;;
      r <- load_chunk v i ;;
      let '(c, v') := r in
      from <- unwrap (get_sub c off n) ;;
      let v'' := if bool_decide (from = part) then v' else store_chunk v' i (patch c off part) in
      write_loop fuel' v'' at_ bytes (done + n)
  end.

Definition write (t : Target) (at_ : Z) (bytes : bytes) : prog Target :=
  match t with
  | TgInline v =>
      let end_ := (Z.to_nat at_ + length bytes)%nat in
      let payload := if decide (length (iv_payload v) < end_)%nat then resize0 (iv_payload v) end_ else iv_payload v in
      payload' <- unwrap (copy_into payload (Z.to_nat at_) bytes) ;;
      Ret (TgInline (mkInlineView payload' (iv_expire_ms v) true))
  | TgChunked v =>
      v' <- write_loop (length bytes) v at_ bytes 0 ;;
      let end_ := u64 (at_ + len bytes) in
      Ret (TgChunked (set_len v' (if c_bytes (cv_meta v') <? end_ then end_ else c_bytes (cv_meta v'))))
  end.

Definition finish (t : Target) : prog unit :=
  match t with TgInline v => inline_finish v | TgChunked v => chunk_finish v end.
End Operations.

(** ** The interfaces of the bit commands *)

Record ChunkSource := mkChunkSource {
  cs_store : StringStore;
  cs_slot : Z;
  cs_key : bytes;
  cs_meta : ComplexMeta
}.

#[global] Instance chunk_source : ByteSource ChunkSource := {
  bs_len s := c_bytes (cs_meta s);
  bs_window s from to := read_chunked (cs_store s) (cs_slot s) (cs_key s) (cs_meta s) from (u64 (to + 1))
}.

Definition target_buf (st : StringStore) (slot : Z) (key : bytes) : BitBuf Target := {|
  buf_byte := target_byte st slot key;
  buf_set_byte := target_set_byte st slot key
|}.

(** ** The commands *)

Section Commands.
Context (st : StringStore) (slot : Z) (key : bytes).

Abbreviation max := (st_max (ss_base st)).
Abbreviation mk := (meta_key (ss_base st) slot key).
Abbreviation read_live := (read_live st slot key).
Abbreviation value_of := (value_of st slot key).
Abbreviation target := (target st slot key).
#[local] Instance this_buf : BitBuf Target := target_buf st slot key.

Definition set (value : bytes) (opts : SetOptions) : prog (result SetOutcome) :=
  if max <? len value then Ret (Err ValueTooLarge)
  else
    let needs_existing := o_nx opts || o_xx opts || (match o_expiry opts with EKeep => true | _ => false end) in
    existing <- (if needs_existing then read_live_header st slot key else Ret None) ;;
    if (o_nx opts && bool_decide (is_Some existing)) || (o_xx opts && bool_decide (existing = None))
    then Ret (Ok SetUnchanged)
    else
      let expire_ms := match o_expiry opts with
                       | EClear => 0
                       | EKeep => match existing with Some h => h_expire_ms h | None => 0 end
                       | EAtMs at_ms => at_ms
                       end in
      put_value st slot key value expire_ms ;;; Ret (Ok SetDone).

Definition get : prog (result (option bytes)) :=
  o <-? read_live ;;
  match o with None => Ret (Ok None) | Some s => v <- value_of s ;; Ret (Ok (Some v)) end.

Definition get_del : prog (result (option bytes)) :=
  o <-? read_live ;;
  match o with
  | None => Ret (Ok None)
  | Some s => v <- value_of s ;; kvdelete mk ;;; Ret (Ok (Some v))
  end.

Definition getex (expiry : SetExpiry) : prog (result (option bytes)) :=
  o <-? read_live ;;
  match o with
  | None => Ret (Ok None)
  | Some stored =>
      match expiry with
      | EKeep => v <- value_of stored ;; Ret (Ok (Some v))
      | _ =>
          let new_expire := match expiry with EAtMs at_ms => at_ms | _ => 0 end in
          (if new_expire =? expiry_of stored then Ret tt
           else match stored with
                | SInline m =>
                    row <- unwrap (write_expire (StringMeta_encode m) new_expire) ;; kvput mk row
                | SChunked c => kvput mk (ComplexMeta_encode (with_expire_ms c new_expire))
                end) ;;;
          v <- value_of stored ;; Ret (Ok (Some v))
      end
  end.

Definition incr_by (delta : Z) : prog (result Z) :=
  o <-? read_live ;;
  current <-? (match o with
    | None => Ret (Ok (0, 0))
    | Some (SChunked _) => Ret (Err NotInteger)
    | Some (SInline m) =>
        match parse_redis_i64 (s_payload m) with
        | Some n => Ret (Ok (n, s_expire_ms m))
        | None => Ret (Err NotInteger)
        end
    end) ;;
  let '(current, expire_ms) := current : Z * Z in
  if decide (in_i64 (current + delta)) then
    let next := current + delta in
    now <- clock ;;
    kvput mk (StringMeta_encode (StringMeta_new (i64_to_string next) expire_ms now)) ;;;
    Ret (Ok next)
  else Ret (Err Overflow).

Definition incr_by_float (delta : Z) : prog (result bytes) :=
  o <-? read_live ;;
  current <-? (match o with
    | None => Ret (Ok (F64_ZERO, 0))
    | Some (SChunked _) => Ret (Err NotFloat)
    | Some (SInline m) =>
        match f64_parse_number (s_payload m) with
        | Some v => Ret (Ok (v, s_expire_ms m))
        | None => Ret (Err NotFloat)
        end
    end) ;;
  let '(current, expire_ms) := current : Z * Z in
  let next := f64_add current delta in
  if negb (f64_is_finite next) then Ret (Err NanOrInfinity)
  else
    let repr := fmt_float_human next in
    now <- clock ;;
    kvput mk (StringMeta_encode (StringMeta_new repr expire_ms now)) ;;;
    Ret (Ok repr).

Definition append (suffix : bytes) : prog (result Z) :=
  o <-? read_live ;;
  let len_ := match o with Some s => stored_len s | None => 0 end in
  let end_ := u64 (len_ + len suffix) in
  if max <? end_ then Ret (Err ValueTooLarge)
  else
    t <-? target end_ ;;
    t' <- write st slot key t len_ suffix ;;
    finish st slot key t' ;;;
    Ret (Ok end_).

Definition strlen : prog (result Z) :=
  o <-? read_live ;;
  Ret (Ok (match o with Some s => stored_len s | None => 0 end)).

Definition getrange (start end_ : Z) : prog (result bytes) :=
  o <-? read_live ;;
  match o with
  | None => Ret (Ok [])
  | Some stored =>
      if (start <? 0) && (end_ <? 0) && (end_ <? start) then Ret (Ok [])
      else
        let len_ := i64 (stored_len stored) in
        let norm i := if i <? 0 then i64 (len_ + i) else i in
        let from := Z.max (norm start) 0 in
        let to := Z.min (Z.max (norm end_) 0) (i64 (len_ - 1)) in
        if (len_ =? 0) || (to <? from) then Ret (Ok [])
        else
          v <- (match stored with
                | SInline m => unwrap (get_sub (s_payload m) (Z.to_nat from) (Z.to_nat (to + 1 - from)))
                | SChunked c => read_chunked st slot key c (u64 from) (u64 (u64 to + 1))
                end) ;;
          Ret (Ok v)
  end.

Definition setrange (offset : Z) (patch : bytes) : prog (result Z) :=
  if bool_decide (patch = []) then
    o <-? read_live ;; Ret (Ok (match o with Some s => stored_len s | None => 0 end))
  else
    let end_ := u64 (offset + len patch) in
    if max <? end_ then _ <-? read_live ;; Ret (Err ValueTooLarge)
    else
      t <-? target end_ ;;
      t' <- write st slot key t offset patch ;;
      finish st slot key t' ;;;
      Ret (Ok (target_len t')).

(** The highest bit any write of [ops] covers. *)
Definition highest_bit (ops : list BitfieldOp) : option Z :=
  foldl (λ acc op, match f_kind op with
                   | FGet => acc
                   | _ => let b := u64 (f_offset op + f_bits op - 1) in
                          Some (match acc with Some a => Z.max a b | None => b end)
                   end) None ops.

(** One operation of BITFIELD on the target. *)
Definition bitfield_step (acc : list (option Z) * Target) (op : BitfieldOp) : prog (list (option Z) * Target) :=
  let '(replies, t) := acc in
  match f_kind op with
  | FGet => r <- field_read op t ;; Ret (replies ++ [Some r.1], r.2)
  | FSet value overflow | FIncrBy value overflow =>
      let incr := match f_kind op with FIncrBy _ _ => true | _ => false end in
      r <- field_read op t ;;
      let '(old, t') := r : Z * Target in
      let '(new, overflowed) :=
        if f_signed op then
          let '(from, by_) := if incr : bool then (old, value) else (value, 0) in
          match signed_overflow from by_ (f_bits op) overflow with
          | Some limit => (limit, true)
          | None => (i64 (from + by_), false)
          end
        else
          let '(from, by_) := if incr : bool then (u64 old, value) else (u64 value, 0) in
          match unsigned_overflow from by_ (f_bits op) overflow with
          | Some limit => (i64 limit, true)
          | None => (i64 (u64 (from + u64 by_)), false)
          end in
      if overflowed && (match overflow with OFail => true | _ => false end) then
        Ret (replies ++ [None], t')
      else
        t'' <- write_bits t' (f_offset op) (f_bits op) (u64 new) ;;
        Ret (replies ++ [Some (if incr then new else old)], t'')
  end.

Definition bitfield (ops : list BitfieldOp) : prog (result (list (option Z))) :=
  match highest_bit ops with
  | None =>
      o <-? read_live ;;
      match o with
      | None => Ret (Ok ((λ _, Some 0) <$> ops))
      | Some stored =>
          let t := match stored with
                   | SInline m => TgInline (mkInlineView (s_payload m) (s_expire_ms m) false)
                   | SChunked c => TgChunked (mkChunkView c ∅ ∅ false)
                   end in
          r <- fold_ ops (λ '(replies, t) op, r <- field_read op t ;; Ret (replies ++ [Some r.1], r.2)) ([], t) ;;
          Ret (Ok r.1)
      end
  | Some highest =>
      let need := u64 (Z.shiftr highest 3 + 1) in
      if max <? need then _ <-? read_live ;; Ret (Err ValueTooLarge)
      else
        t <-? target need ;;
        r <- fold_ ops bitfield_step ([], grow t need) ;;
        let '(replies, t') := r : list (option Z) * Target in
        finish st slot key t' ;;;
        Ret (Ok replies)
  end.

Definition setbit (offset : Z) (on : bool) : prog (result bool) :=
  let byte := Z.shiftr offset 3 in
  if max <? u64 (byte + 1) then _ <-? read_live ;; Ret (Err ValueTooLarge)
  else
    t <-? target (u64 (byte + 1)) ;;
    let mask := mask_of offset in
    r <- buf_byte (grow t (u64 (byte + 1))) byte ;;
    let '(current, t') := r : Z * Target in
    let old := negb (Z.land current mask =? 0) in
    t'' <- (if Bool.eqb old on then Ret t' else buf_set_byte t' byte (Z.lxor current mask)) ;;
    finish st slot key t'' ;;;
    Ret (Ok old).

Definition getbit (offset : Z) : prog (result bool) :=
  let byte := Z.shiftr offset 3 in
  o <-? read_live ;;
  value <- (match o with
            | None => Ret 0
            | Some (SInline m) => Ret (byte_or_zero (s_payload m) (Z.to_nat byte))
            | Some (SChunked c) =>
                l <- read_chunked st slot key c byte (u64 (byte + 1)) ;; Ret (byte_or_zero l 0)
            end) ;;
  Ret (Ok (negb (Z.land value (mask_of offset) =? 0))).

Definition bitcount (range : option (Z * Z * bool)) : prog (result Z) :=
  o <-? read_live ;;
  match o with
  | None => Ret (Ok 0)
  | Some (SInline m) => n <- bitcount_in (s_payload m) range ;; Ret (Ok n)
  | Some (SChunked c) => n <- bitcount_in (mkChunkSource st slot key c) range ;; Ret (Ok n)
  end.

Definition bitpos (bit : bool) (range : option (Z * option Z * bool)) : prog (result Z) :=
  o <-? read_live ;;
  match o with
  | None => Ret (Ok (if bit then -1 else 0))
  | Some (SInline m) => n <- bitpos_in (s_payload m) bit range ;; Ret (Ok n)
  | Some (SChunked c) => n <- bitpos_in (mkChunkSource st slot key c) bit range ;; Ret (Ok n)
  end.
End Commands.

(** ** Bytes, zero past the end *)

Definition at0 (l : bytes) (p : Z) : Byte.byte := default Byte.x00 (l !! Z.to_nat p).

Definition slice (l : bytes) (from to : Z) : bytes := take (Z.to_nat (to - from)) (drop (Z.to_nat from) l).

Lemma at0_past l p : len l <= p → at0 l p = Byte.x00.
Proof. intros. unfold at0. by rewrite lookup_ge_None_2 by lia. Qed.

Lemma lookup_at0 l p : 0 <= p < len l → l !! Z.to_nat p = Some (at0 l p).
Proof. intros. unfold at0. destruct (lookup_lt_is_Some_2 l (Z.to_nat p)) as [x ->]; [lia|done]. Qed.

Lemma at0_byte l p : 0 <= p → byte_or_zero l (Z.to_nat p) = b2z (at0 l p).
Proof. intros. unfold byte_or_zero, at0. by destruct (l !! _). Qed.

Lemma at0_slice l from to q : 0 <= from → 0 <= q → at0 (slice l from to) q = if q <? to - from then at0 l (from + q) else Byte.x00.
Proof.
  intros Hf Hq. unfold slice, at0. destruct (Z.ltb_spec q (to - from)).
  - rewrite lookup_take_lt, lookup_drop by lia. do 2 f_equal. lia.
  - by rewrite lookup_take_ge by lia.
Qed.

Lemma length_slice l from to : 0 <= from <= to → len (slice l from to) = Z.max 0 (Z.min to (len l) - from).
Proof. intros. unfold slice. rewrite length_take, length_drop. lia. Qed.

(** Two strings of one length with the same bytes are equal. *)
Lemma at0_ext l l' : len l = len l' → (∀ p, 0 <= p < len l → at0 l p = at0 l' p) → l = l'.
Proof.
  intros Hl H. apply list_eq. intros n. destruct (decide (n < length l)%nat) as [Hn|Hn].
  - specialize (H (Z.of_nat n)). rewrite <-(Nat2Z.id n), !lookup_at0 by lia. f_equal. apply H. lia.
  - rewrite !lookup_ge_None_2 by lia. done.
Qed.

Lemma at0_zeros n p : at0 (replicate n Byte.x00) p = Byte.x00.
Proof.
  unfold at0. destruct (replicate n Byte.x00 !! Z.to_nat p) as [b|] eqn:E; [|done].
  by apply lookup_replicate in E as [-> _].
Qed.

Lemma at0_patch l at_ src p :
  0 <= p → (at_ + length src <= length l)%nat →
  at0 (patch l at_ src) p =
  if decide (Z.of_nat at_ <= p < Z.of_nat at_ + len src) then at0 src (p - Z.of_nat at_) else at0 l p.
Proof.
  intros Hp Hfit. unfold at0, patch. case_decide; f_equal.
  - rewrite lookup_app_r by (rewrite length_take; lia). rewrite length_take, lookup_app_l by lia. f_equal. lia.
  - destruct (decide (p < Z.of_nat at_)).
    + rewrite lookup_app_l by (rewrite length_take; lia). by rewrite lookup_take_lt by lia.
    + rewrite lookup_app_r by (rewrite length_take; lia). rewrite length_take, lookup_app_r by lia.
      rewrite lookup_drop. f_equal. lia.
Qed.

Lemma at0_resize l n p : 0 <= p → at0 (resize0 l n) p = if p <? Z.of_nat n then at0 l p else Byte.x00.
Proof.
  intros Hp. unfold resize0. destruct (Z.ltb_spec p (Z.of_nat n)).
  - unfold at0. destruct (decide (p < len l)).
    + rewrite lookup_app_l by (rewrite length_take; lia). by rewrite lookup_take_lt by lia.
    + rewrite lookup_app_r by (rewrite length_take; lia). rewrite (lookup_ge_None_2 l) by lia. cbn.
      destruct (replicate _ _ !! _) as [b|] eqn:E; [|done]. by apply lookup_replicate in E as [-> _].
  - apply at0_past. rewrite length_app, length_take, length_replicate. lia.
Qed.

Lemma length_resize0 l n : length (resize0 l n) = n.
Proof. unfold resize0. rewrite length_app, length_take, length_replicate. lia. Qed.

Lemma at0_insert l i b p : 0 <= i < len l → 0 <= p → at0 (<[Z.to_nat i := b]> l) p = if decide (p = i) then b else at0 l p.
Proof.
  intros Hi Hp. unfold at0. case_decide as E.
  - subst. by rewrite list_lookup_insert_eq by lia.
  - by rewrite list_lookup_insert_ne by lia.
Qed.

(** ** A string in chunks *)

(** [f] holds the chunks of [L]: each byte is its chunk's, and a chunk's bytes
    past the string's end are zeros. *)
Definition tiles (C : Z) (f : Z → bytes) (L : bytes) : Prop :=
  ∀ p, 0 <= p < 2 ^ 32 * C → at0 L p = at0 (f (p / C)) (p mod C).

Definition chunk_of (F : kvmap) (i : Z) : bytes := default [] (F !! be 4 i).

Record chunk_rows (C : Z) (F : kvmap) (L : bytes) : Prop := {
  cr_row f x : F !! f = Some x → ∃ i, 0 <= i < 2 ^ 32 ∧ f = be 4 i ∧ len x <= C;
  cr_tiles : tiles C (chunk_of F) L;
  cr_len : len L <= 2 ^ 32 * C
}.

Lemma be4_inj i j : 0 <= i < 2 ^ 32 → 0 <= j < 2 ^ 32 → be 4 i = be 4 j → i = j.
Proof.
  intros Hi Hj E. apply (f_equal of_be) in E. rewrite !of_be_id in E; [done|unfold in_width; lia..].
Qed.

Lemma ascending_NoDup (l : list (bytes * bytes)) : ascending l → NoDup l.*1.
Proof.
  induction 1 as [|r l H IH Hr]; cbn; constructor; [|done].
  intros (s & E & Hin)%list_elem_of_fmap. rewrite Forall_forall in Hr. specialize (Hr s Hin).
  by rewrite E, blt_irrefl in Hr.
Qed.

Lemma bit_of_masked L offset :
  0 <= offset →
  negb (Z.land (byte_or_zero L (Z.to_nat (Z.shiftr offset 3))) (mask_of offset) =? 0) = bit_of L (Z.to_nat offset).
Proof.
  intros Ho. unfold mask_of. rewrite shiftr3, land7. destruct (div8_mod8 offset Ho) as (Ed & Em & Hm).
  rewrite land_bit by lia. by rewrite bit_of_byte, Ed, Em.
Qed.

Section Chunks.
Context (st : StringStore) (slot : Z) (key : bytes).
Abbreviation C := (ss_chunk st).
Abbreviation a := (mkAddr (st_ns (ss_base st)) slot key).
Context (HC : 1 <= ss_chunk st <= 2 ^ 26).

(** What one row patches into the window [from, to). *)
Definition patched (R : kvmap) (from : Z) (out : bytes) (q : Z) : Byte.byte :=
  match R !! be 4 ((from + q) / C) with
  | Some v => if (from + q) mod C <? len v then at0 v ((from + q) mod C) else at0 out q
  | None => at0 out q
  end.

Lemma chunk_index_range q n : 0 <= q < n * C → 0 <= q / C < n.
Proof. intros. split; [apply Z.div_pos; lia|]. apply Z.div_lt_upper_bound; lia. Qed.

Lemma in_chunk i q : i * C <= q < i * C + C → q / C = i ∧ q mod C = q - i * C.
Proof.
  intros. assert (E : q / C = i) by (symmetry; apply (Z.div_unique q C i (q - i * C)); lia).
  split; [done|]. rewrite Z.mod_eq, E by lia. lia.
Qed.

(** One row of the scan: the bytes of chunk [i] inside the window. *)
Lemma patch_row from to i v out :
  0 <= from < to → to <= 2 ^ 32 * C → len out = to - from → 0 <= i < 2 ^ 32 → len v <= C →
  let base := u64 (i * C) in
  let lo := Z.max base from in let hi := Z.min (u64 (base + len v)) to in
  ∃ out', (if lo <? hi then part ← get_sub v (Z.to_nat (lo - base)) (Z.to_nat (hi - lo));
                            copy_into out (Z.to_nat (lo - from)) part
           else Some out) = Some out' ∧ len out' = to - from ∧
    ∀ q, 0 <= q < to - from → at0 out' q = patched {[be 4 i := v]} from out q.
Proof.
  intros Hft Hto Hlen Hi Hv base lo hi. assert (Hbase : base = i * C) by (apply wrap_id; unfold in_width; nia).
  assert (Hhi : hi = Z.min (i * C + len v) to).
  { unfold hi. rewrite Hbase, wrap_id; [done|]. unfold in_width. nia. }
  assert (Hcov : ∀ q, 0 <= q < to - from → patched {[be 4 i := v]} from out q =
    if decide (lo <= from + q < hi) then at0 v (from + q - base) else at0 out q).
  { intros q Hq. unfold patched. destruct (chunk_index_range (from + q) (2 ^ 32)) as [Hq0 Hq1]; [lia|].
    destruct (decide ((from + q) / C = i)) as [E|E].
    - rewrite E, lookup_singleton_eq. rewrite Z.mod_eq, E, Hbase by lia.
      destruct (Z.ltb_spec (from + q - C * i) (len v)).
      + rewrite decide_True by (unfold lo; pose proof (Z.mul_div_le (from + q) C); nia). f_equal. lia.
      + by rewrite decide_False by lia.
    - rewrite lookup_singleton_ne by (intros E'; apply be4_inj in E'; [congruence|lia..]).
      rewrite decide_False; [done|]. intros Hc. apply E. apply (in_chunk i). lia. }
  destruct (Z.ltb_spec lo hi) as [Hlt|Hge].
  - unfold get_sub. rewrite decide_True by (unfold lo in *; lia). cbn [mbind option_bind].
    unfold copy_into. assert (Hs : len (sub v (Z.to_nat (lo - base)) (Z.to_nat (hi - lo))) = hi - lo).
    { unfold sub. rewrite length_take, length_drop. unfold lo in *. lia. }
    rewrite decide_True by (unfold lo in *; lia). eexists. split; [done|]. split.
    { rewrite length_patch by (unfold lo in *; lia). done. }
    intros q Hq. rewrite Hcov, at0_patch by (unfold lo in *; lia).
    destruct (decide (lo <= from + q < hi)) as [Hin|Hout].
    + rewrite decide_True by (unfold lo in *; lia). unfold at0, sub.
      rewrite lookup_take_lt, lookup_drop by (unfold lo in *; lia). do 2 f_equal. unfold lo in *. lia.
    + rewrite decide_False by (unfold lo in *; lia). done.
  - exists out. split; [done|]. split; [done|]. intros q Hq. rewrite Hcov by done. by rewrite decide_False by lia.
Qed.

Definition chunk_entries (R : list (bytes * bytes)) : Prop :=
  Forall (λ r, ∃ i, 0 <= i < 2 ^ 32 ∧ r.1 = be 4 i ∧ len r.2 <= C) R.

Lemma patch_rows_spec (p : bytes) from to R out :
  0 <= from < to → to <= 2 ^ 32 * C → len out = to - from → chunk_entries R → ascending R →
  ∃ out', patch_rows st (length p) from to ((to - 1) / C) (prod_map (app p) id <$> R) out = Some out' ∧
    len out' = to - from ∧ ∀ q, 0 <= q < to - from → at0 out' q = patched (list_to_map R) from out q.
Proof.
  intros Hft Hto. revert out. induction R as [|[f v] R IH]; intros out Hlen HR Hasc.
  { exists out. split; [done|]. split; [done|]. intros q Hq. unfold patched. cbn [list_to_map foldr].
    by rewrite lookup_empty. }
  apply Forall_cons in HR as [(i & Hi & Ef & Hv) HR]. cbn [fst snd] in *. subst f.
  apply StronglySorted_inv in Hasc as [Hasc Hhd].
  cbn [fmap list_fmap prod_map fst snd patch_rows id]. unfold get_from.
  rewrite decide_True by (rewrite length_app; lia). rewrite drop_app_length.
  rewrite bool_decide_true by (apply length_be). rewrite of_be_id by (unfold in_width; lia).
  assert (Hgt : ∀ j, 0 <= j <= i → (list_to_map R : kvmap) !! be 4 j = None).
  { intros j Hj. apply not_elem_of_list_to_map. intros ([f' v'] & E & Hin)%list_elem_of_fmap. cbn [fst] in E. subst f'.
    rewrite Forall_forall in Hhd. specialize (Hhd _ Hin). cbn [fst] in Hhd.
    rewrite blt_be in Hhd by (unfold in_width; lia). apply Z.ltb_lt in Hhd. lia. }
  destruct (Z.ltb_spec ((to - 1) / C) i) as [Hlast|Hlast].
  - exists out. split; [done|]. split; [done|]. intros q Hq. unfold patched. cbn [list_to_map foldr fst snd].
    destruct (chunk_index_range (from + q) (2 ^ 32)) as [Hq0 Hq1]; [lia|].
    assert ((from + q) / C <= (to - 1) / C) by (apply Z.div_le_mono; lia).
    rewrite lookup_insert_ne by (intros E'; apply be4_inj in E'; lia). by rewrite Hgt by lia.
  - destruct (patch_row from to i v out) as (out1 & E1 & Hl1 & H1); [done..|].
    destruct (IH out1) as (out2 & E2 & Hl2 & H2); [done..|]. exists out2. split; [|split; [done|]].
    + cbv zeta in E1. destruct (_ <? _); [|by injection E1 as ->].
      destruct (get_sub v _ _) as [part|]; [|done]. cbn [mbind option_bind] in E1 |- *. by rewrite E1.
    + intros q Hq. rewrite H2 by done. unfold patched. cbn [list_to_map foldr fst snd].
      destruct (chunk_index_range (from + q) (2 ^ 32)) as [Hq0 Hq1]; [lia|].
      specialize (H1 q Hq). unfold patched in H1. destruct (decide ((from + q) / C = i)) as [E|E].
      * rewrite E in *. rewrite lookup_insert_eq, Hgt by lia. by rewrite lookup_singleton_eq in H1.
      * assert (be 4 i ≠ be 4 ((from + q) / C)) by (intros E'; apply be4_inj in E'; [congruence|lia..]).
        rewrite lookup_insert_ne by done. rewrite lookup_singleton_ne in H1 by done. by rewrite H1.
Qed.

(** A window of a chunked string, read from only the chunks it covers. *)
Lemma wp_read_chunked c from to L w Q :
  addr_wf a → chunk_rows C (rows_at Subkey a (c_version c) (w_kv w)) L → c_bytes c = len L → 0 <= from →
  Q (slice L from to) w → wp (read_chunked st slot key c from to) w Q.
Proof.
  intros Ha [Hrow Htiles Hlen] Hb Hf HQ. unfold read_chunked. rewrite Hb.
  set (F := rows_at Subkey a (c_version c) (w_kv w)) in *.
  assert (Es : slice L from to = slice L from (Z.min to (len L))).
  { unfold slice. destruct (decide (to <= len L)); [f_equal; lia|].
    rewrite !take_ge by (rewrite length_drop; lia). done. }
  rewrite Es in HQ. set (to' := Z.min to (len L)) in *. destruct (Z.leb_spec to' from) as [Hle|Hlt].
  { wp_op. unfold slice in HQ. by replace (Z.to_nat (to' - from)) with 0%nat in HQ by lia. }
  cbv zeta beta. eapply wp_unwrap; [apply (sprefix_ok a); exact Ha|]. wp_op.
  set (s := if from / C =? 0 then [] else be 4 (u32 (from / C - 1))).
  rewrite rows_from_sub_map. fold (rows_at Subkey a (c_version c) (w_kv w)). fold F.
  set (R := filter _ (rows_of F)).
  assert (HRin : ∀ f x, (f, x) ∈ R ↔ (s = [] ∨ blt s f = true) ∧ F !! f = Some x).
  { intros f x. unfold R. rewrite list_elem_of_filter, elem_of_rows_of. done. }
  assert (Hasc : ascending R) by apply ascending_filter, ascending_rows_of.
  destruct (patch_rows_spec (rprefix Subkey a (c_version c)) from to' R
    (replicate (Z.to_nat (to' - from)) Byte.x00)) as (out & E & Hl & Hq); [lia|lia| | |done|].
  { rewrite length_replicate. lia. }
  { apply Forall_forall. intros [f x] Hin. apply HRin in Hin as [_ Hin]. by apply Hrow in Hin. }
  eapply wp_run; [by rewrite E|]. replace out with (slice L from to'); [done|].
  apply at0_ext; [rewrite length_slice by lia; lia|]. rewrite length_slice by lia. intros q Hq'.
  rewrite Hq by lia. rewrite at0_slice by lia. rewrite (proj2 (Z.ltb_lt _ _)) by lia. rewrite Htiles by lia.
  unfold patched, chunk_of. destruct (chunk_index_range (from + q) (2 ^ 32)) as [Hq0 Hq1]; [lia|].
  assert (Hlook : (list_to_map R : kvmap) !! be 4 ((from + q) / C) = F !! be 4 ((from + q) / C)).
  { apply option_eq. intros x. rewrite <-elem_of_list_to_map by (by apply ascending_NoDup). rewrite HRin.
    split; [by intros [_ ?]|]. intros Hx. split; [|done]. unfold s. destruct (Z.eqb_spec (from / C) 0); [by left|].
    assert (from / C <= (from + q) / C) by (apply Z.div_le_mono; lia). pose proof (Z.div_pos from C).
    right. rewrite wrap_id by (unfold in_width; lia). rewrite blt_be by (unfold in_width; lia).
    apply Z.ltb_lt. lia. }
  rewrite Hlook. destruct (F !! _) as [x|]; cbn [default].
  - destruct (Z.ltb_spec ((from + q) mod C) (len x)); [done|]. rewrite at0_zeros. by apply at0_past.
  - by rewrite at0_zeros.
Qed.

(** ** What a key holds *)

(** The store holds [s], which is the string [L] with expiry [e]. *)
Definition sform (m : kvmap) (last : Z) (s : Stored) (L : bytes) (e : Z) : Prop :=
  ∃ row h, m !! mkey a = Some row ∧ MetaHeader_decode row = Some h ∧ h_expire_ms h = e ∧
  match s with
  | SInline sm =>
      value_type h = Some TString ∧ StringMeta_decode row = Some sm ∧ s_payload sm = L ∧ s_expire_ms sm = e
  | SChunked c =>
      value_type h = Some TChunkedString ∧ ComplexMeta_decode row = Some c ∧ c_header c = h ∧
      c_bytes c = len L ∧ c_size c = u32 (div_ceil (len L) C) ∧ in_width 64 (c_version c) ∧ c_version c <= last ∧
      chunk_rows C (rows_at Subkey a (c_version c) m) L ∧ ss_inline_max st < len L
  end.

Definition sholds (w : world kvmap) (L : bytes) (e : Z) : Prop :=
  ∃ s, sform (w_kv w) (w_last w) s L e.

(** The string a key holds at an instant, with its expiry; nothing, if it holds
    nothing. *)
Definition srepr (now : Z) (w : world kvmap) (H : option (bytes * Z)) : Prop :=
  match H with
  | None => dead_row now (w_kv w !! mkey a)
  | Some (L, e) => sholds w L e ∧ expired_at e now = false
  end.

Lemma sform_len m last s L e : sform m last s L e → stored_len s = len L.
Proof. intros (row & h & _ & _ & _ & H). destruct s; cbn; naive_solver. Qed.

Lemma sform_expiry m last s L e : sform m last s L e → expiry_of s = e.
Proof. intros (row & h & _ & _ & He & H). destruct s; cbn; naive_solver. Qed.

Lemma sform_tick w s L e : sform (w_kv w) (w_last w) s L e → sform (w_kv (tick w)) (w_last (tick w)) s L e.
Proof. done. Qed.

Lemma wp_read_live_some s L e w Q :
  sform (w_kv w) (w_last w) s L e → expired_at e (w_clock w 0%nat) = false →
  Q (Ok (Some s)) (tick w) → wp (read_live st slot key) w Q.
Proof.
  intros (row & h & Hrow & Hh & He & Hs) Hex HQ. unfold read_live. wp_op. wp_op.
  change (meta_key (ss_base st) slot key) with (mkey a). rewrite Hrow, Hh.
  unfold MetaHeader_is_expired. rewrite He, Hex.
  destruct s as [sm|c]; destruct Hs as (-> & -> & _); by wp_op.
Qed.

Lemma wp_read_live_none w Q :
  dead_row (w_clock w 0%nat) (w_kv w !! mkey a) →
  (∀ w', w' = tick w ∨ w' = with_kv (tick w) (delete (mkey a) (w_kv w)) →
     dead_row (w_clock w 0%nat) (w_kv w' !! mkey a) → Q (Ok None) w') →
  wp (read_live st slot key) w Q.
Proof.
  intros Hd HQ. unfold read_live. wp_op. wp_op. change (meta_key (ss_base st) slot key) with (mkey a).
  unfold dead_row in Hd. destruct (w_kv w !! mkey a) as [row|] eqn:E.
  2:{ wp_op. apply HQ; [by left|]. cbn. by rewrite E. }
  destruct (MetaHeader_decode row) as [h|] eqn:Eh.
  2:{ wp_op. apply HQ; [by left|]. cbn. rewrite E. cbn. by rewrite Eh. }
  rewrite Hd. wp_op. wp_op. apply HQ; [by right|]. cbn [w_kv with_kv]. by rewrite lookup_delete_eq.
Qed.

(** A key of another type is WRONGTYPE, and nothing changes. *)
Lemma wp_read_live_wrong row h w Q :
  w_kv w !! mkey a = Some row → MetaHeader_decode row = Some h →
  MetaHeader_is_expired h (w_clock w 0%nat) = false → value_type h ∉ [Some TString; Some TChunkedString] →
  Q (Err WrongType) (tick w) → wp (read_live st slot key) w Q.
Proof.
  intros Hrow Hh Hex Ht HQ. unfold read_live. wp_op. wp_op.
  change (meta_key (ss_base st) slot key) with (mkey a). rewrite Hrow, Hh, Hex.
  destruct (value_type h) as [[]|]; wp_op; done || (exfalso; apply Ht; set_solver).
Qed.

Lemma slice_all (L : bytes) : slice L 0 (len L) = L.
Proof. unfold slice. rewrite drop_0. apply take_ge. lia. Qed.

Lemma sform_rows m last c L e :
  sform m last (SChunked c) L e → c_bytes c = len L ∧ chunk_rows C (rows_at Subkey a (c_version c) m) L.
Proof. intros (row & h & _ & _ & _ & H). naive_solver. Qed.

Lemma sform_payload m last sm L e : sform m last (SInline sm) L e → s_payload sm = L.
Proof. intros (row & h & _ & _ & _ & H). naive_solver. Qed.

Lemma wp_value_of s L e w Q :
  addr_wf a → sform (w_kv w) (w_last w) s L e → Q L w → wp (value_of st slot key s) w Q.
Proof.
  intros Ha Hs HQ. destruct s as [sm|c]; cbn [value_of].
  - wp_op. by rewrite (sform_payload _ _ _ _ _ Hs).
  - apply sform_rows in Hs as [Hb Hr]. eapply wp_read_chunked; [done..|]. by rewrite Hb, slice_all.
Qed.

(** What a read finds, and that it leaves the key as it was. *)
Record sread (H : option (bytes * Z)) (w : world kvmap) (o : option Stored) (w' : world kvmap) : Prop := {
  sr_form : match H with
            | Some (L, e) => ∃ s, o = Some s ∧ sform (w_kv w') (w_last w') s L e
            | None => o = None
            end;
  sr_effect : effect a w w';
  sr_env : env_ok w';
  sr_last : w_last w' = w_last w;
  sr_repr now : srepr now w H → srepr now w' H;
  sr_clock n : w_clock w' n = w_clock w (S n)
}.

Lemma wp_read H w Q :
  env_ok w → srepr (w_clock w 0%nat) w H →
  (∀ o w', sread H w o w' → Q (Ok o) w') → wp (read_live st slot key) w Q.
Proof.
  intros Henv HH HQ. destruct H as [[L e]|]; cbn [srepr] in HH.
  - destruct HH as [[s Hs] Hex]. eapply wp_read_live_some; [done..|]. apply HQ.
    destruct (after_read_effect (ss_base st) slot key w (tick w)) as (? & ? & ?); [right; by left|done|].
    constructor; try done. by exists s.
  - apply wp_read_live_none; [done|]. intros w' Hafter Hdead. apply HQ.
    destruct (after_read_effect (ss_base st) slot key w w') as (? & ? & ?); [by right|done|]. constructor; try done.
    + intros now. cbn. destruct Hafter as [->| ->]; [done|]. cbn. by rewrite lookup_delete_eq.
    + intros n. by destruct Hafter as [->| ->].
Qed.

(** ** Storing chunks *)

Lemma chunks_go_lookup fuel n l i :
  (1 <= n)%nat → (length l <= fuel)%nat →
  chunks_go fuel n l !! i = if decide (i * n < length l)%nat then Some (take n (drop (i * n) l)) else None.
Proof.
  intros Hn. revert l i. induction fuel as [|fuel IH]; intros l i Hf.
  { destruct l; [|cbn in Hf; lia]. cbn. case_decide; [cbn in *; lia|done]. }
  destruct l as [|b l]; [cbn; case_decide; [cbn in *; lia|done]|].
  cbn [chunks_go]. set (l' := b :: l) in *. assert (Hl : length l' ≠ 0%nat) by done.
  destruct i as [|i].
  - rewrite decide_True by lia. done.
  - cbn [lookup list_lookup]. rewrite IH by (rewrite length_drop; lia). rewrite length_drop, drop_drop.
    destruct (decide (i * n < length l' - n)%nat).
    + by rewrite decide_True by lia.
    + rewrite decide_False by lia. done.
Qed.

Lemma chunks_ok payload : ∃ parts, chunks (Z.to_nat C) payload = Some parts ∧
  ∀ i, 0 <= i → parts !! Z.to_nat i = if decide (i * C < len payload) then Some (slice payload (i * C) (i * C + C)) else None.
Proof.
  unfold chunks. destruct (Z.to_nat C) as [|n] eqn:En; [lia|]. eexists. split; [done|]. intros i Hi.
  rewrite chunks_go_lookup by lia. assert (E : (Z.to_nat i * S n)%nat = Z.to_nat (i * C)) by (rewrite <-En; lia).
  rewrite E. destruct (decide (i * C < len payload)).
  - rewrite decide_True by lia. unfold slice. do 2 f_equal. lia.
  - rewrite decide_False by nia. done.
Qed.

Lemma nonzero_at0 part p : existsb (λ b, negb (b2z b =? 0)) part = false → at0 part p = Byte.x00.
Proof.
  intros H. unfold at0. destruct (part !! Z.to_nat p) as [b|] eqn:E; [|done]. cbn.
  apply list_elem_of_lookup_2 in E. apply b2z_inj. change (b2z Byte.x00) with 0.
  destruct (Z.eqb_spec (b2z b) 0); [done|]. exfalso. apply not_true_iff_false in H. apply H.
  apply existsb_exists. exists b. split; [by apply list_elem_of_In|]. by destruct (Z.eqb_spec (b2z b) 0).
Qed.

(** The chunks below [k] of [payload] are the rows [G]. *)
Record chunks_below (k : Z) (payload : bytes) (G : kvmap) : Prop := {
  cb_row f x : G !! f = Some x → ∃ i, 0 <= i < k ∧ f = be 4 i ∧ len x <= C;
  cb_byte i p : 0 <= i < k → 0 <= p < C → at0 (chunk_of G i) p = at0 payload (i * C + p)
}.

Lemma chunks_below_next k payload (G : kvmap) :
  0 <= k < 2 ^ 32 → k * C < len payload → chunks_below k payload G →
  chunks_below (k + 1) payload
    (if existsb (λ b, negb (b2z b =? 0)) (slice payload (k * C) (k * C + C))
     then <[be 4 k := slice payload (k * C) (k * C + C)]> G else G).
Proof.
  intros Hk Hlt [Hrow Hbyte]. set (part := slice payload (k * C) (k * C + C)).
  assert (Hpart : ∀ p, 0 <= p < C → at0 part p = at0 payload (k * C + p)).
  { intros p Hp. unfold part. rewrite at0_slice by nia. by rewrite (proj2 (Z.ltb_lt _ _)) by lia. }
  assert (Hlp : len part <= C) by (unfold part; rewrite length_slice by nia; lia).
  assert (Hnone : G !! be 4 k = None).
  { destruct (G !! be 4 k) as [x|] eqn:E; [|done]. apply Hrow in E as (i & Hi & E & _). apply be4_inj in E; lia. }
  destruct (existsb _ part) eqn:En; constructor.
  - intros f x [[<- <-]|[_ E]]%lookup_insert_Some; [exists k; repeat split; done || lia|].
    apply Hrow in E as (i & ? & ? & ?). exists i. repeat split; done || lia.
  - intros i p Hi Hp. unfold chunk_of. destruct (decide (i = k)) as [->|Hne].
    + rewrite lookup_insert_eq. by apply Hpart.
    + rewrite lookup_insert_ne by (intros E; apply be4_inj in E; lia). apply Hbyte; lia.
  - intros f x E. apply Hrow in E as (i & ? & ? & ?). exists i. repeat split; done || lia.
  - intros i p Hi Hp. destruct (decide (i = k)) as [->|Hne]; [|apply Hbyte; lia].
    unfold chunk_of. rewrite Hnone. cbn. rewrite <-Hpart by done. symmetry. by apply nonzero_at0.
Qed.

Lemma chunks_below_all k payload (G : kvmap) :
  0 <= k <= 2 ^ 32 → len payload <= k * C → chunks_below k payload G → chunk_rows C G payload.
Proof.
  intros Hk Hlen [Hrow Hbyte]. constructor; [|intros p Hp|nia].
  - intros f x E. apply Hrow in E as (i & ? & ? & ?). exists i. repeat split; done || lia.
  - pose proof (Z.div_mod p C). pose proof (Z.mod_pos_bound p C). pose proof (Z.div_pos p C).
    destruct (decide (p / C < k)).
    + rewrite Hbyte by lia. f_equal. lia.
    + rewrite at0_past by nia. unfold chunk_of. destruct (G !! _) as [x|] eqn:E; [|done].
      apply Hrow in E as (i & Hi & E & _). assert (p / C ≠ i) by lia.
      destruct (chunk_index_range p (2 ^ 32)); [lia|]. apply be4_inj in E; lia.
Qed.

(** Storing a value's chunks under a fresh version. *)
Lemma wp_put_chunks v payload w Q :
  addr_wf a → in_width 64 v → v <= w_last w → fresh (w_kv w) (w_last w) →
  rows_at Subkey a v (w_kv w) = ∅ → len payload <= 2 ^ 32 * C →
  (∀ G w', rows_written a v G w w' → chunk_rows C G payload → Q tt w') →
  wp (put_chunks st slot key v payload) w Q.
Proof.
  intros Ha Hv Hle Hf Hempty Hlen HQ. unfold put_chunks. destruct (chunks_ok payload) as (parts & E & Hparts).
  eapply wp_unwrap; [done|].
  assert (Hlp : len parts <= 2 ^ 32 ∧ len payload <= len parts * C).
  { pose proof (Hparts (len parts)) as H1. rewrite Nat2Z.id, lookup_ge_None_2 in H1 by lia.
    case_decide as Hd; [specialize (H1 ltac:(lia)); done|]. split; [|lia].
    destruct (decide (len parts <= 2 ^ 32)); [done|]. specialize (Hparts (2 ^ 32)).
    rewrite decide_False in Hparts by lia. specialize (Hparts ltac:(lia)).
    apply lookup_ge_None_1 in Hparts. lia. }
  apply (wp_for (λ l w', ∃ k G, 0 <= k <= len parts ∧ l = zip (range k (len parts)) (drop (Z.to_nat k) parts) ∧
    rows_written a v G w w' ∧ chunks_below k payload G)).
  - exists 0, ∅. split; [lia|]. split; [by rewrite drop_0|]. split; [rewrite <-Hempty; by apply rows_written_refl|].
    constructor; [intros f x; by rewrite lookup_empty|lia].
  - intros [i part] l' w' (k & G & Hk & El & HG & HB).
    destruct (decide (k < len parts)) as [Hlt|]; [|rewrite range_nil in El by lia; done].
    destruct (lookup_lt_is_Some_2 parts (Z.to_nat k)) as [x Hx]; [lia|].
    rewrite range_cons in El by lia. rewrite (drop_S _ _ _ Hx) in El. cbn [zip zip_with] in El. injection El as -> -> ->.
    pose proof Hx as Hx'. rewrite Hparts in Hx' by lia. case_decide as Hd; [|done]. injection Hx' as <-.
    pose proof (chunks_below_next k payload G ltac:(lia) Hd HB) as HB'.
    assert (El : zip (range (k + 1) (len parts)) (drop (S (Z.to_nat k)) parts) =
      zip (range (k + 1) (len parts)) (drop (Z.to_nat (k + 1)) parts)) by (do 2 f_equal; lia).
    destruct (existsb _ _).
    + unfold chunk_key. rewrite wrap_id by (unfold in_width; lia).
      eapply wp_unwrap; [by apply (skey_ok a)|]. exists tt, (with_kv w' (<[rprefix Subkey a v ++ be 4 k := slice payload (k * C) (k * C + C)]> (w_kv w'))).
      split; [done|]. eexists (k + 1), _. split; [lia|]. split; [done|]. split; [by apply rows_written_put|done].
    + apply wp_ret. eexists (k + 1), _. split; [lia|]. split; [done|]. split; [done|done].
  - intros w' (k & G & Hk & El & HG & HB). apply (HQ G); [done|].
    assert (k = len parts) as ->.
    { destruct (decide (k < len parts)); [|lia]. destruct (lookup_lt_is_Some_2 parts (Z.to_nat k)) as [x Hx]; [lia|].
      rewrite range_cons, (drop_S _ _ _ Hx) in El by lia. done. }
    eapply chunks_below_all; [| |done]; lia.
Qed.

(** ** Writing the metadata row *)

Lemma complex_header row c : ComplexMeta_decode row = Some c → MetaHeader_decode row = Some (c_header c).
Proof.
  unfold ComplexMeta_decode. destruct (MetaHeader_decode row) as [h|]; [|done]. cbn. case_decide; [done|].
  by intros [= <-].
Qed.

Lemma sholds_inline w L e now :
  in_width 64 e → in_width 64 now →
  sholds (with_kv w (<[mkey a := StringMeta_encode (StringMeta_new L e now)]> (w_kv w))) L e.
Proof.
  intros He Hn. exists (SInline (StringMeta_new L e now)).
  assert (Hok : string_ok TString (StringMeta_new L e now)) by done.
  exists (StringMeta_encode (StringMeta_new L e now)), (mkMetaHeader (make_flags TString ENCODING_V2) e).
  split; [apply lookup_insert_eq|]. split; [by apply (MetaHeader_decode_string TString)|]. split; [done|].
  split; [apply from_make_flags|]. split; [by apply (StringMeta_decode_encode TString)|done].
Qed.

(** The record of a chunked string as [put_value] and [finish] write it. *)
Definition chunk_meta (meta : ComplexMeta) (n now : Z) : ComplexMeta :=
  ComplexMeta_touch
    (mkComplexMeta (c_header meta) (c_written_ms meta) (c_version meta) (u32 (div_ceil n C)) n) now.

Record chunk_base (meta : ComplexMeta) (last e : Z) : Prop := {
  kb_type : value_type (c_header meta) = Some TChunkedString;
  kb_expire : h_expire_ms (c_header meta) = e;
  kb_width : in_width 64 e;
  kb_version : in_width 64 (c_version meta);
  kb_last : c_version meta <= last
}.

Lemma chunk_base_new v last e : in_width 64 v → v <= last → in_width 64 e →
  chunk_base (with_expire_ms (ComplexMeta_new TChunkedString v) e) last e.
Proof. intros. by constructor. Qed.

Lemma sholds_chunked w meta L e now :
  chunk_base meta (w_last w) e → in_width 64 now →
  chunk_rows C (rows_at Subkey a (c_version meta) (w_kv w)) L → ss_inline_max st < len L →
  sholds (with_kv w (<[mkey a := ComplexMeta_encode (chunk_meta meta (len L) now)]> (w_kv w))) L e.
Proof.
  intros [Ht He Hw Hv Hle] Hn Hr Hlong. exists (SChunked (chunk_meta meta (len L) now)).
  pose proof (cr_len _ _ _ Hr) as Hlen.
  assert (Hb : base_ok TChunkedString (-1) meta).
  { constructor; [done| |by rewrite He|done]. unfold MetaHeader_is_expired, expired_at. rewrite He.
    destruct (Z.leb_spec e (-1)); [unfold in_width in Hw; lia|]. by rewrite andb_false_r. }
  destruct (touch_live TChunkedString (-1) meta (u32 (div_ceil (len L) C)) (len L) now) as [Hl Hd];
    [done|apply wrap_in_width; lia|unfold in_width; nia|done|].
  eexists _, _. split; [apply lookup_insert_eq|]. split; [by apply complex_header|]. split; [done|].
  destruct Hl as (h & Hh & _ & Hty). rewrite (complex_header _ _ Hd) in Hh. injection Hh as <-.
  split; [done|]. split; [done|]. split; [done|]. split; [done|]. split; [done|]. split; [done|]. split; [done|].
  cbn [w_kv with_kv c_version chunk_meta ComplexMeta_touch]. rewrite rows_at_meta_insert by done. done.
Qed.

(** Whole values: [put_value] leaves the key holding exactly them. *)
Lemma wp_put_value L e w Q :
  addr_wf a → env_ok w → headroom w → in_width 64 e → len L <= 2 ^ 32 * C →
  (∀ w', effect a w w' → sholds w' L e → Q tt w') → wp (put_value st slot key L e) w Q.
Proof.
  intros Ha [Hc Hf] Hroom He HL HQ. unfold put_value. wp_op.
  pose proof (clock_ok_64 w 0 Hc) as Hn. change (meta_key (ss_base st) slot key) with (mkey a).
  destruct (ss_chunked_writes st && (ss_inline_max st <? len L)) eqn:Elong; cbn [negb].
  2:{ apply wp_last_put. apply HQ; [|by apply (sholds_inline (tick w))].
      apply (close_effect a w w). by apply effect_refl. }
  - wp_op. destruct (version_next_lt (w_last w) (w_clock w 0%nat)) as (Hv & _ & Hv64); [done..|].
    set (v := version_next _ _) in *. set (w1 := with_last (tick w) v).
    assert (Hf1 : fresh (w_kv w1) (w_last w1)) by (eapply fresh_le; [done|cbn; lia]).
    assert (He1 : effect a w w1) by (constructor; cbn; [by exists 1%nat|lia|done|apply frame_refl]).
    apply wp_bind. apply wp_put_chunks; [done|done|cbn; lia|done|by apply (fresh_empty (w_kv w) (w_last w))|done|].
    intros G w2 HG HGL. apply wp_last_put.
    pose proof (rows_written_effect _ _ _ _ _ HG) as He2. pose proof HG as [Ew2 Hrows _ _ _].
    assert (El : w_last w2 = v) by (by rewrite Ew2).
    apply HQ.
    + eapply effect_trans; [exact He1|]. eapply effect_trans; [exact He2|].
      apply effect_with_kv; [apply fresh_meta; apply He2|apply frame_insert, owned_mkey].
    + apply (sholds_chunked w2 (with_expire_ms (ComplexMeta_new TChunkedString v) e)); [|done| |].
      * rewrite El. by apply chunk_base_new.
      * cbn [c_version with_expire_ms ComplexMeta_new]. by rewrite Hrows.
      * apply andb_true_iff in Elong as [_ ?%Z.ltb_lt]. done.
Qed.

(** ** Views *)

(** The chunk a view works on: the one it loaded, or the stored one. *)
Definition seen (v : ChunkView) (F : kvmap) (i : Z) : bytes :=
  match cv_chunks v !! i with Some c => c | None => chunk_of F i end.

(** The view's chunks are those of [L], over the rows of the store. *)
Record ccore (w : world kvmap) (v : ChunkView) (L : bytes) (e : Z) : Prop := {
  cw_base : chunk_base (cv_meta v) (w_last w) e;
  cw_rows f x : rows_at Subkey a (c_version (cv_meta v)) (w_kv w) !! f = Some x →
    ∃ i, 0 <= i < 2 ^ 32 ∧ f = be 4 i ∧ len x <= C;
  cw_len : len L <= 2 ^ 32 * C;
  cw_tiles : tiles C (seen v (rows_at Subkey a (c_version (cv_meta v)) (w_kv w))) L;
  cw_loaded i c : cv_chunks v !! i = Some c → len c = C ∧ 0 <= i < 2 ^ 32;
  cw_clean i c p : cv_chunks v !! i = Some c → i ∉ cv_changed v → 0 <= p < C →
    at0 c p = at0 (chunk_of (rows_at Subkey a (c_version (cv_meta v)) (w_kv w)) i) p;
  cw_changed i : i ∈ cv_changed v → is_Some (cv_chunks v !! i)
}.

(** A view of the string [L]: an unchanged one is what the store holds. *)
Record cview (w : world kvmap) (v : ChunkView) (L : bytes) (e : Z) : Prop := {
  cv_core : ccore w v L e;
  cv_len : c_bytes (cv_meta v) = len L;
  cv_same : cv_dirty v = false → cv_changed v = ∅ → sholds w L e
}.

Definition tview (w : world kvmap) (t : Target) (L : bytes) (e : Z) : Prop :=
  match t with
  | TgInline v =>
      iv_payload v = L ∧ iv_expire_ms v = e ∧ in_width 64 e ∧ (iv_dirty v = false → sholds w L e)
  | TgChunked v => cview w v L e
  end.

Definition loaded (v : ChunkView) (i : Z) (c : bytes) : ChunkView :=
  mkChunkView (cv_meta v) (<[i := c]> (cv_chunks v)) (cv_changed v) (cv_dirty v).

Lemma wp_load_chunk v i L e w Q :
  addr_wf a → ccore w v L e → 0 <= i < 2 ^ 32 →
  (∀ c, let v' := loaded v i c in ccore w v' L e → len c = C →
     (∀ p, 0 <= p < C → i * C + p < 2 ^ 32 * C → at0 c p = at0 L (i * C + p)) → Q (c, v') w) →
  wp (load_chunk st slot key v i) w Q.
Proof.
  intros Ha [Hb Hrows Hlen Htiles Hl Hcl Hch] Hi HQ. unfold load_chunk.
  set (F := rows_at Subkey a (c_version (cv_meta v)) (w_kv w)) in *.
  assert (Hat : ∀ p, 0 <= p < C → i * C + p < 2 ^ 32 * C → at0 (seen v F i) p = at0 L (i * C + p)).
  { intros p Hp Hlim. rewrite Htiles by nia. destruct (in_chunk i (i * C + p)) as [-> ->]; [lia|]. f_equal. lia. }
  destruct (cv_chunks v !! i) as [c|] eqn:E.
  - wp_op. destruct (Hl _ _ E) as [Hc _].
    assert (Ev : loaded v i c = v) by (unfold loaded; rewrite insert_id by done; by destruct v).
    specialize (HQ c). cbv zeta in HQ. rewrite Ev in HQ. apply HQ; [done|done|].
    intros p Hp Hlim. rewrite <-Hat by done. unfold seen. by rewrite E.
  - unfold chunk_key. rewrite wrap_id by (unfold in_width; lia). eapply wp_unwrap; [by apply (skey_ok a)|].
    wp_op. rewrite <-lookup_rows_at. fold F. wp_op. change (default [] (F !! be 4 i)) with (chunk_of F i).
    assert (Hc : ∀ p, 0 <= p < C → at0 (resize0 (chunk_of F i) (Z.to_nat C)) p = at0 (chunk_of F i) p).
    { intros p Hp. rewrite at0_resize by lia. by rewrite (proj2 (Z.ltb_lt _ _)) by lia. }
    set (c := resize0 (chunk_of F i) (Z.to_nat C)) in *.
    assert (Hlc : len c = C) by (unfold c; rewrite length_resize0; lia).
    apply (HQ c); [|done|].
    + constructor; cbn [cv_meta cv_chunks cv_changed loaded]; fold F; try done.
      * intros p Hp. rewrite Htiles by done. unfold seen. cbn [cv_chunks loaded].
        destruct (decide (p / C = i)) as [Ep|Ep].
        -- rewrite Ep, lookup_insert_eq, E. symmetry. apply Hc, Z.mod_pos_bound. lia.
        -- by rewrite lookup_insert_ne.
      * intros j c' [[<- <-]|[_ Hj]]%lookup_insert_Some; [done|]. by eapply Hl.
      * intros j c' p [[<- <-]|[_ Hj]]%lookup_insert_Some ? Hp; [by apply Hc|]. by eapply Hcl.
      * intros j Hj. destruct (decide (i = j)) as [->|]; [by rewrite lookup_insert_eq|].
        rewrite lookup_insert_ne by done. by apply Hch.
    + intros p Hp Hlim. rewrite Hc by done. rewrite <-Hat by done. unfold seen. by rewrite E.
Qed.

(** Changing bytes of a loaded chunk changes the same bytes of the string. *)
Lemma ccore_store w v i c c' L L' e :
  ccore w v L e → cv_chunks v !! i = Some c → len c' = C → len L' <= 2 ^ 32 * C →
  (∀ p, 0 <= p < C → i * C + p < 2 ^ 32 * C → at0 c' p = at0 L' (i * C + p)) →
  (∀ p, 0 <= p < 2 ^ 32 * C → p / C ≠ i → at0 L' p = at0 L p) →
  ccore w (store_chunk v i c') L' e.
Proof.
  intros [Hb Hrows Hlen Htiles Hl Hcl Hch] E Hc' HL' Hin Hout. destruct (Hl _ _ E) as [_ Hi].
  constructor; cbn [cv_meta cv_chunks cv_changed store_chunk]; try done.
  - intros p Hp. unfold seen. cbn [cv_chunks store_chunk]. destruct (decide (p / C = i)) as [Ep|Ep].
    + rewrite Ep, lookup_insert_eq. pose proof (Z.div_mod p C). pose proof (Z.mod_pos_bound p C).
      rewrite Hin by lia. f_equal. lia.
    + rewrite lookup_insert_ne by done. rewrite Hout by done. by apply Htiles.
  - intros j x [[<- <-]|[_ Hj]]%lookup_insert_Some; [done|]. by eapply Hl.
  - intros j x p [[<- <-]|[_ Hj]]%lookup_insert_Some Hn Hp; [set_solver|]. eapply Hcl; [done| |done]. set_solver.
  - intros j Hj. destruct (decide (i = j)) as [->|]; [by rewrite lookup_insert_eq|].
    rewrite lookup_insert_ne by done. apply Hch. set_solver.
Qed.

Lemma chunk_pos p (L : bytes) : len L <= 2 ^ 32 * C → 0 <= p < len L →
  0 <= p / C < 2 ^ 32 ∧ 0 <= p mod C < C ∧ p / C * C + p mod C = p.
Proof.
  intros HL Hp. split; [apply chunk_index_range; lia|]. split; [apply Z.mod_pos_bound; lia|].
  pose proof (Z.div_mod p C). lia.
Qed.

Lemma wp_chunk_byte v i L e w Q :
  addr_wf a → cview w v L e → 0 <= i →
  (∀ v', cview w v' L e → Q (byte_or_zero L (Z.to_nat i), v') w) →
  wp (chunk_byte st slot key v i) w Q.
Proof.
  intros Ha [Hcore Hlen Hsame] Hi HQ. unfold chunk_byte. rewrite Hlen. destruct (Z.leb_spec (len L) i).
  - wp_op. rewrite at0_byte, at0_past in HQ by lia. by apply HQ.
  - destruct (chunk_pos i L (cw_len _ _ _ _ Hcore)) as (H1 & H2 & H3); [lia|].
    apply wp_bind. eapply (wp_load_chunk v _ L e); [done..|]. intros c v' Hcore' Hc Hat.
    eapply wp_unwrap; [apply lookup_at0; lia|]. wp_op.
    rewrite Hat by (pose proof (cw_len _ _ _ _ Hcore); lia). rewrite H3, <-at0_byte by lia. by apply HQ.
Qed.

Lemma wp_chunk_set_byte v i b L e w Q :
  addr_wf a → cview w v L e → 0 <= i < len L → in_width 8 b →
  (∀ v', cview w v' (<[Z.to_nat i := z2b b]> L) e → Q v' w) →
  wp (chunk_set_byte st slot key v i b) w Q.
Proof.
  intros Ha [Hcore Hlen Hsame] Hi Hb HQ. unfold chunk_set_byte. rewrite Hlen.
  rewrite (proj2 (Z.leb_gt _ _)) by lia. pose proof (cw_len _ _ _ _ Hcore) as HL.
  destruct (chunk_pos i L HL) as (H1 & H2 & H3); [lia|].
  apply wp_bind. eapply (wp_load_chunk v _ L e); [done..|]. intros c v' Hcore' Hc Hat.
  eapply wp_unwrap; [apply lookup_at0; lia|]. wp_op. specialize (Hat (i mod C)) as Hati.
  rewrite H3 in Hati. rewrite Hati by lia.
  assert (Hl' : len (<[Z.to_nat i := z2b b]> L) = len L) by (by rewrite length_insert).
  destruct (Z.eqb_spec (b2z (at0 L i)) b) as [E|E].
  - apply HQ. replace (<[Z.to_nat i := z2b b]> L) with L; [by constructor|].
    symmetry. apply list_insert_id. rewrite lookup_at0 by lia. by rewrite <-E, z2b_b2z.
  - apply HQ. constructor; [|by rewrite Hl'|].
    + apply (ccore_store w v' (i / C) c (<[Z.to_nat (i mod C) := z2b b]> c) L); [done| | |by rewrite Hl'| |].
      * apply lookup_insert_eq.
      * by rewrite length_insert.
      * intros p Hp Hlim. rewrite !at0_insert by lia. rewrite Hat by lia.
        repeat case_decide; try done; exfalso; lia.
      * intros p Hp Hne. rewrite at0_insert by lia. rewrite decide_False by (by intros ->). done.
    + cbn. intros _ Hx. exfalso. set_solver.
Qed.

Definition grown (L : bytes) (n : Z) : bytes := if len L <? n then resize0 L (Z.to_nat n) else L.

Lemma at0_grown L n p : 0 <= p → at0 (grown L n) p = at0 L p.
Proof.
  intros. unfold grown. destruct (Z.ltb_spec (len L) n); [|done]. rewrite at0_resize by lia.
  destruct (Z.ltb_spec p (Z.of_nat (Z.to_nat n))); [done|]. by rewrite at0_past by lia.
Qed.

Lemma length_grown L n : len (grown L n) = Z.max (len L) n.
Proof. unfold grown. destruct (Z.ltb_spec (len L) n); [rewrite length_resize0|]; lia. Qed.

(** Growing a string adds zero bits. *)
Lemma at0_bits L n i :
  0 <= i → default false (bits_of (grown L n) !! Z.to_nat i) = default false (bits_of L !! Z.to_nat i).
Proof.
  intros Hi. change (bit_of (grown L n) (Z.to_nat i) = bit_of L (Z.to_nat i)). rewrite !bit_of_byte.
  assert (E : ∀ l, byte_or_zero l (Z.to_nat i / 8) = b2z (at0 l (i / 8))).
  { intros l. rewrite <-at0_byte by (apply Z.div_pos; lia). by rewrite Z2Nat.inj_div by lia. }
  rewrite !E. rewrite at0_grown; [done|]. apply Z.div_pos; lia.
Qed.

Lemma ccore_ext w v v' L L' e :
  (∀ p, 0 <= p < 2 ^ 32 * C → at0 L' p = at0 L p) → len L' <= 2 ^ 32 * C →
  c_header (cv_meta v') = c_header (cv_meta v) → c_version (cv_meta v') = c_version (cv_meta v) →
  cv_chunks v' = cv_chunks v → cv_changed v' = cv_changed v → ccore w v L e → ccore w v' L' e.
Proof.
  intros Hat HL' Eh Ev Ec Ech [[? ? ? ? ?] Hrows Hlen Htiles Hl Hcl Hch].
  constructor; rewrite ?Ev, ?Ec, ?Ech; try done.
  - constructor; rewrite ?Eh, ?Ev; done.
  - intros p Hp. unfold seen. rewrite Ec, Hat by done. by apply Htiles.
Qed.

Lemma tview_grow t L e n w :
  tview w t L e → n <= 2 ^ 32 * C → tview w (grow t n) (grown L n) e.
Proof.
  intros Ht Hn. destruct t as [v|v]; cbn [tview grow] in *.
  - destruct Ht as (E & He & Hw & Hs). unfold grown. rewrite E. destruct (_ <? n); [|done].
    done.
  - destruct Ht as [Hcore Hlen Hs]. unfold grown. rewrite Hlen. destruct (Z.ltb_spec (len L) n); [|done].
    assert (Hg : grown L n = resize0 L (Z.to_nat n)) by (unfold grown; by rewrite (proj2 (Z.ltb_lt _ _))).
    rewrite <-Hg. constructor; cbn; [|rewrite length_grown; lia|done].
    eapply ccore_ext; [| | | | | |exact Hcore]; try done; [intros; by apply at0_grown; lia|].
    rewrite length_grown. pose proof (cw_len _ _ _ _ Hcore). lia.
Qed.

Definition is_chunked (t : Target) : bool := match t with TgInline _ => false | TgChunked _ => true end.

Lemma is_chunked_grow t n : is_chunked (grow t n) = is_chunked t.
Proof. destruct t; cbn; by case_match. Qed.

(** The target as the buffer of the bit commands. *)
#[local] Instance target_buf_here : BitBuf Target := target_buf st slot key.

(** What a target holds, in the form it was opened in. *)
Definition tholds (w : world kvmap) (e : Z) (k : bool) (t : Target) (L : bytes) : Prop :=
  tview w t L e ∧ is_chunked t = k.

Lemma target_laws e k w : addr_wf a → BitBufLaws (tholds w e k) w.
Proof.
  intros Ha. constructor; intros t L i.
  - intros [Ht Hk] Hi. destruct t as [v|v]; cbn [buf_byte target_buf_here target_buf target_byte].
    + apply wp_bind. unfold inline_byte. wp_op. wp_op. split; [done|].
      split; [cbn; by rewrite (proj1 Ht)|by split].
    + apply wp_bind. eapply wp_chunk_byte; [done..|]. intros v' Hv'. wp_op. split; [done|]. split; [done|by split].
  - intros b [Ht Hk] Hi Hb. destruct t as [v|v]; cbn [buf_set_byte target_buf_here target_buf target_set_byte].
    + destruct Ht as (E & He & Hw & Hs). apply wp_bind. unfold inline_set_byte. rewrite E.
      rewrite (proj2 (Z.leb_gt _ _)) by lia. eapply wp_unwrap; [by apply lookup_at0|]. wp_op. wp_op.
      split; [done|]. split; [|done]. destruct (Z.eqb_spec (b2z (at0 L i)) b) as [Eb|Eb]; cbn; [|done].
      rewrite list_insert_id; [done|]. rewrite lookup_at0 by lia. by rewrite <-Eb, z2b_b2z.
    + apply wp_bind. eapply wp_chunk_set_byte; [done..|]. intros v' Hv'. wp_op. by split.
Qed.

(** [bytes] written at [at_], with zeros to reach it. *)
Definition written (L : bytes) (at_ : Z) (data : bytes) : bytes :=
  patch (grown L (at_ + len data)) (Z.to_nat at_) data.

Lemma at0_take l n p : 0 <= p < Z.of_nat n → at0 (take n l) p = at0 l p.
Proof. intros. unfold at0. by rewrite lookup_take_lt by lia. Qed.

(** The string with only the first [done] bytes of [data] written. *)
Definition partly (G : bytes) (at_ : Z) (data : bytes) (done : nat) : bytes := patch G (Z.to_nat at_) (take done data).

Lemma at0_partly (G : bytes) at_ data done p :
  0 <= at_ → at_ + len data <= len G → (done <= length data)%nat → 0 <= p →
  at0 (partly G at_ data done) p =
  if decide (at_ <= p < at_ + Z.of_nat done) then at0 data (p - at_) else at0 G p.
Proof.
  intros Hat Hfit Hd Hp. unfold partly. rewrite at0_patch by (rewrite ?length_take; lia). rewrite length_take.
  rewrite Nat.min_l by lia. rewrite Z2Nat.id by lia. case_decide; [|done]. by rewrite at0_take by lia.
Qed.

Lemma length_partly (G : bytes) at_ data done :
  0 <= at_ → at_ + len data <= len G → len (partly G at_ data done) = len G.
Proof. intros. unfold partly. rewrite length_patch; [done|]. rewrite length_take. lia. Qed.

Lemma wp_write_loop fuel v at_ data done G e w Q :
  addr_wf a → 0 <= at_ → at_ + len data <= len G → len G <= 2 ^ 32 * C →
  (done <= length data)%nat → (length data - done <= fuel)%nat →
  ccore w v (partly G at_ data done) e →
  (∀ v', ccore w v' (partly G at_ data (length data)) e → cv_meta v' = cv_meta v → Q v' w) →
  wp (write_loop st slot key fuel v at_ data done) w Q.
Proof.
  intros Ha Hat Hfit HG. revert v done. induction fuel as [|fuel IH]; intros v done Hd Hf Hcore HQ; cbn [write_loop].
  { rewrite decide_True by lia. wp_op. apply HQ; [|done]. by replace (length data) with done by lia. }
  case_decide as Hdone; [wp_op; apply HQ; [|done]; by replace (length data) with done by lia|].
  assert (Hpos : u64 (at_ + Z.of_nat done) = at_ + Z.of_nat done) by (apply wrap_id; unfold in_width; nia).
  rewrite Hpos. set (pos := at_ + Z.of_nat done) in *. destruct (chunk_pos pos G HG) as (H1 & H2 & H3); [lia|].
  set (n := Nat.min (Z.to_nat C - Z.to_nat (pos mod C)) (length data - done)).
  assert (Hn : (1 <= n)%nat ∧ (done + n <= length data)%nat ∧ pos mod C + Z.of_nat n <= C) by lia.
  destruct Hn as (Hn1 & Hn2 & Hn3).
  eapply wp_unwrap; [unfold get_sub; rewrite decide_True by lia; done|].
  apply wp_bind. eapply (wp_load_chunk v _ (partly G at_ data done) e); [done|done|done|].
  intros c v' Hcore' Hc Hcat. set (part := sub data done n).
  assert (Hpart : len part = Z.of_nat n) by (unfold part, sub; rewrite length_take, length_drop; lia).
  eapply wp_unwrap; [unfold get_sub; rewrite decide_True by lia; done|].
  set (M' := partly G at_ data (done + n)).
  assert (Hpd : ∀ p, 0 <= p < Z.of_nat n → at0 part p = at0 data (Z.of_nat done + p)).
  { intros p Hp. unfold part, sub, at0. rewrite lookup_take_lt, lookup_drop by lia. do 2 f_equal. lia. }
  assert (Hc' : ∀ p, 0 <= p < C → pos / C * C + p < 2 ^ 32 * C →
    at0 (patch c (Z.to_nat (pos mod C)) part) p = at0 M' (pos / C * C + p)).
  { intros p Hp Hlim. rewrite at0_patch by lia. unfold M'. rewrite at0_partly by nia.
    rewrite Hcat, at0_partly by nia. repeat case_decide; try (exfalso; lia); try done.
    - rewrite Hpd by lia. f_equal. lia. }
  assert (Hout : ∀ p, 0 <= p < 2 ^ 32 * C → p / C ≠ pos / C → at0 M' p = at0 (partly G at_ data done) p).
  { intros p Hp Hne. unfold M'. rewrite !at0_partly by lia. repeat case_decide; try (exfalso; lia); try done.
    exfalso. apply Hne. apply (in_chunk (pos / C)). lia. }
  apply IH; [lia|lia| |].
  - case_bool_decide as Eq.
    + eapply (ccore_ext w v' v' (partly G at_ data done)); try done; [|unfold M'; by rewrite length_partly by lia].
      intros p Hp. destruct (decide (p / C = pos / C)) as [E|E]; [|by apply Hout].
      pose proof (Z.div_mod p C). pose proof (Z.mod_pos_bound p C).
      replace p with (pos / C * C + p mod C) by lia. rewrite <-Hc', <-Hcat by lia.
      rewrite at0_patch by lia. case_decide; [|done]. rewrite <-Eq. unfold sub, at0.
      rewrite lookup_take_lt, lookup_drop by lia. do 2 f_equal. lia.
    + apply (ccore_store w v' (pos / C) c _ (partly G at_ data done)); [done|apply lookup_insert_eq| | |done|done].
      * rewrite length_patch by lia. done.
      * unfold M'. rewrite length_partly by lia. done.
  - intros v'' Hv'' Em. apply HQ; [done|]. rewrite Em. by case_bool_decide.
Qed.

Lemma wp_write t at_ data L e w Q :
  addr_wf a → tview w t L e → 0 <= at_ → at_ + len data <= 2 ^ 32 * C → len L <= 2 ^ 32 * C →
  (∀ t', tview w t' (written L at_ data) e → target_len t' = len (written L at_ data) → is_chunked t' = is_chunked t → Q t' w) →
  wp (write st slot key t at_ data) w Q.
Proof.
  intros Ha Ht Hat Hfit HL HQ. set (G := grown L (at_ + len data)).
  assert (HlG : len G = Z.max (len L) (at_ + len data)) by apply length_grown.
  assert (Hlw : len (written L at_ data) = len G) by (unfold written; fold G; rewrite length_patch; lia).
  destruct t as [v|v]; cbn [tview write] in *.
  - destruct Ht as (E & He & Hw & Hs).
    assert (Ep : (if decide (length (iv_payload v) < Z.to_nat at_ + length data)%nat
      then resize0 (iv_payload v) (Z.to_nat at_ + length data) else iv_payload v) = G).
    { unfold G, grown. rewrite E. destruct (Z.ltb_spec (len L) (at_ + len data)).
      - rewrite decide_True by lia. f_equal. lia.
      - by rewrite decide_False by lia. }
    cbv zeta. rewrite Ep. unfold copy_into. eapply wp_unwrap; [by rewrite decide_True by lia|]. wp_op.
    apply HQ; [|done|done]. split; [done|]. split; [done|]. by split.
  - destruct Ht as [Hcore Hlen Hs]. apply wp_bind.
    eapply (wp_write_loop _ v at_ data 0 G e); [done|done|lia|lia|lia|lia| |].
    { eapply ccore_ext; [| | | | | |exact Hcore]; try done; [|rewrite length_partly; lia].
      intros p Hp. rewrite at0_partly by lia. rewrite decide_False by lia. apply at0_grown. lia. }
    intros v' Hcore' Em. wp_op. rewrite Em, Hlen.
    assert (Ewr : partly G at_ data (length data) = written L at_ data).
    { unfold partly, written. fold G. by rewrite take_ge by lia. }
    rewrite wrap_id by (unfold in_width; nia).
    assert (El : (if len L <? at_ + len data then at_ + len data else len L) = len (written L at_ data)).
    { rewrite Hlw, HlG. destruct (Z.ltb_spec (len L) (at_ + len data)); lia. }
    rewrite El. apply HQ; [|done|done]. rewrite Ewr in Hcore'. constructor; cbn; [|done|done].
    eapply ccore_ext; [| | | | | |exact Hcore']; try done. apply Hcore'.
Qed.

(** What [finish] leaves as the row of a changed chunk. *)
Definition cut (L c : bytes) (i : Z) : bytes := take (Z.to_nat (Z.min (saturating_sub (len L) (i * C)) C)) c.

Lemma at0_cut w v L e i c p :
  ccore w v L e → cv_chunks v !! i = Some c → 0 <= p < C → at0 (cut L c i) p = at0 c p.
Proof.
  intros Hcore E Hp. destruct (cw_loaded _ _ _ _ Hcore i c E) as [Hc Hi].
  unfold cut. set (span := Z.min (saturating_sub (len L) (i * C)) C).
  assert (Hspan : 0 <= span) by (unfold span, saturating_sub; lia).
  destruct (decide (p < span)); [apply at0_take; lia|].
  rewrite at0_past by (rewrite length_take; lia). pose proof (cw_tiles _ _ _ _ Hcore (i * C + p)) as Ht.
  destruct (in_chunk i (i * C + p)) as [E1 E2]; [lia|]. rewrite E1, E2 in Ht. unfold seen in Ht. rewrite E in Ht.
  replace (i * C + p - i * C) with p in Ht by lia. rewrite <-Ht by nia. symmetry. apply at0_past.
  unfold span, saturating_sub in *. lia.
Qed.

(** The rows as [finish] is rewriting them, the chunks of [todo] left to do. *)
Record flushing (v : ChunkView) (F : kvmap) (L : bytes) (todo : list Z) (G : kvmap) : Prop := {
  fl_row f x : G !! f = Some x → ∃ i, 0 <= i < 2 ^ 32 ∧ f = be 4 i ∧ len x <= C;
  fl_done i : i ∈ cv_changed v → (∃ c, cv_chunks v !! i = Some c ∧ G !! be 4 i = Some (cut L c i)) ∨ i ∈ todo;
  fl_other i : 0 <= i < 2 ^ 32 → i ∉ cv_changed v → G !! be 4 i = F !! be 4 i
}.

Lemma flushing_put v L e w i c todo G :
  ccore w v L e → cv_chunks v !! i = Some c → i ∈ cv_changed v →
  flushing v (rows_at Subkey a (c_version (cv_meta v)) (w_kv w)) L (i :: todo) G →
  flushing v (rows_at Subkey a (c_version (cv_meta v)) (w_kv w)) L todo (<[be 4 i := cut L c i]> G).
Proof.
  intros Hcore E Hi [Hrow Hdone Hother]. destruct (cw_loaded _ _ _ _ Hcore i c E) as [Hc Hi32].
  constructor.
  - intros f x [[<- <-]|[_ Hf]]%lookup_insert_Some; [|by apply Hrow]. exists i. split; [done|]. split; [done|].
    unfold cut. rewrite length_take. lia.
  - intros j Hj. destruct (decide (j = i)) as [->|Hne].
    + left. exists c. by rewrite lookup_insert_eq.
    + destruct (Hdone j Hj) as [(c' & E' & HG)|Hin]; [|right; set_solver]. left. exists c'. split; [done|].
      destruct (cw_loaded _ _ _ _ Hcore j c' E') as [_ Hj32].
      rewrite lookup_insert_ne; [done|]. intros Eb. apply be4_inj in Eb; [congruence|lia..].
  - intros j Hj32 Hj. rewrite lookup_insert_ne; [by apply Hother|]. intros Eb.
    apply be4_inj in Eb; [congruence|lia..].
Qed.

(** When every changed chunk is written, the rows hold the view's string. *)
Lemma flushing_done v L e w G :
  ccore w v L e → flushing v (rows_at Subkey a (c_version (cv_meta v)) (w_kv w)) L [] G → chunk_rows C G L.
Proof.
  intros Hcore [Hrow Hdone Hother]. set (F := rows_at _ _ _ _) in *. constructor; [done| |apply Hcore].
  intros p Hp. rewrite (cw_tiles _ _ _ _ Hcore p Hp). fold F. destruct (chunk_index_range p (2 ^ 32) Hp) as [Hi0 Hi1].
  pose proof (Z.mod_pos_bound p C). unfold seen, chunk_of.
  destruct (decide (p / C ∈ cv_changed v)) as [Hin|Hin].
  - destruct (Hdone _ Hin) as [(c & Ec & HG)|?]; [|set_solver]. rewrite Ec, HG. cbn. symmetry.
    apply (at0_cut w v L e); [done..|lia].
  - rewrite Hother by done. destruct (cv_chunks v !! (p / C)) as [c|] eqn:Ec; [|done].
    rewrite (cw_clean _ _ _ _ Hcore _ _ _ Ec Hin) by lia. done.
Qed.

Lemma wp_finish t L e w Q :
  addr_wf a → env_ok w → tview w t L e → (is_chunked t = true → ss_inline_max st < len L) →
  (∀ w', effect a w w' → sholds w' L e → Q tt w') → wp (finish st slot key t) w Q.
Proof.
  intros Ha [Hc Hf] Ht Hlong HQ. pose proof (clock_ok_64 w 0 Hc) as Hn. destruct t as [v|v]; cbn [finish tview] in *.
  - destruct Ht as (<- & <- & Hw & Hs). unfold inline_finish. destruct (iv_dirty v).
    + wp_op. apply wp_last_put. apply HQ; [|by apply (sholds_inline (tick w))].
      apply (close_effect a w w). by apply effect_refl.
    + wp_op. apply HQ; [by apply effect_refl|auto].
  - destruct Ht as [Hcore Hlen Hs]. pose proof Hcore as [Hb Hrows HL _ Hload _ Hch]. unfold chunk_finish. rewrite Hlen.
    destruct (negb (cv_dirty v) && bool_decide (cv_changed v = ∅)) eqn:Ed.
    { apply andb_true_iff in Ed as [Ed1%negb_true_iff Ed2%bool_decide_eq_true_1]. wp_op.
      apply HQ; [by apply effect_refl|auto]. }
    apply wp_bind. set (F := rows_at Subkey a (c_version (cv_meta v)) (w_kv w)) in *.
    set (todo := merge_sort Z.le (base.elements (cv_changed v))).
    assert (Htodo : ∀ i, i ∈ todo ↔ i ∈ cv_changed v).
    { intros i. unfold todo. rewrite merge_sort_Permutation. apply elem_of_elements. }
    apply (wp_for (λ l w', (∀ i, i ∈ l → i ∈ cv_changed v) ∧ ∃ G, rows_written a (c_version (cv_meta v)) G w w' ∧
      flushing v F L l G)).
    + split; [intros i; by rewrite Htodo|]. exists F. split; [by apply rows_written_refl|].
      constructor; [done| |done]. intros i Hi. right. by apply Htodo.
    + intros i l w' (Hl & G & HG & Hfl). assert (Hi : i ∈ cv_changed v) by (apply Hl; by left).
      destruct (Hch i Hi) as [c Ec]. destruct (Hload i c Ec) as [Hlc Hi32]. rewrite Ec. unfold chunk_key.
      rewrite !wrap_id by (unfold in_width; nia). eapply wp_unwrap; [by apply (skey_ok a)|].
      eapply wp_unwrap.
      { unfold get_sub. rewrite decide_True; [done|]. unfold saturating_sub. lia. }
      apply wp_last_put. split; [intros j Hj; apply Hl; by right|]. eexists. split; [|by eapply flushing_put].
      unfold sub. rewrite drop_0. apply rows_written_put; [done|apply Hb|apply Hb|done].
    + intros w' (_ & G & HG & Hfl). wp_op. apply wp_last_put.
      pose proof (rows_written_effect _ _ _ _ _ HG) as He. pose proof HG as [Ew' HGr _ _ _].
      assert (Ecl : w_clock w' 0%nat = w_clock w 0%nat) by (by rewrite Ew').
      apply HQ; [by apply (close_effect a w w')|]. rewrite Ecl.
      apply (sholds_chunked (tick w') (cv_meta v) L e); [|done| |by apply Hlong].
      * cbn [w_last tick]. assert (w_last w' = w_last w) as -> by (by rewrite Ew'). done.
      * cbn [w_kv tick]. rewrite HGr. by eapply flushing_done.
Qed.

Definition text (H : option (bytes * Z)) : bytes := match H with Some (L, _) => L | None => [] end.
Definition expiry (H : option (bytes * Z)) : Z := match H with Some (_, e) => e | None => 0 end.

Lemma header_expire_width row h : MetaHeader_decode row = Some h → in_width 64 (h_expire_ms h).
Proof.
  unfold MetaHeader_decode. destruct row; [done|]. case_decide; [done|]. intros [= <-]. apply (of_be_sub_width _ 1 8).
Qed.

Lemma sform_expiry_width m last s L e : sform m last s L e → in_width 64 e.
Proof. intros (row & h & _ & Hh & <- & _). by eapply header_expire_width. Qed.

(** A view just opened: nothing loaded, nothing changed. *)
Lemma ccore_open w meta L e dirty :
  chunk_base meta (w_last w) e → chunk_rows C (rows_at Subkey a (c_version meta) (w_kv w)) L →
  ccore w (mkChunkView meta ∅ ∅ dirty) L e.
Proof.
  intros Hb [Hrow Htiles Hlen]. constructor; cbn; try done.
Qed.

Lemma chunk_rows_empty : chunk_rows C ∅ [].
Proof.
  constructor; [intros f x; by rewrite lookup_empty| |cbn; lia].
  intros p Hp. unfold chunk_of. by rewrite lookup_empty.
Qed.

Lemma wp_target need H w Q :
  addr_wf a → env_ok w → headroom w → srepr (w_clock w 0%nat) w H → len (text H) <= 2 ^ 32 * C →
  (∀ t w', effect a w w' → env_ok w' → tview w' t (text H) (expiry H) →
     (is_chunked t = true → ss_inline_max st < Z.max need (len (text H))) → Q (Ok t) w') →
  wp (target st slot key need) w Q.
Proof.
  intros Ha Henv Hroom HH HL HQ. unfold target. apply wp_try. apply (wp_read H); [done..|].
  intros o w1 [Hform Heff [Hc Hf] Hlast Hrepr _].
  assert (Hnew : ∀ (c : Z → prog (result Target)), (∀ v, let w2 := with_last (tick w1) v in
    w_last w1 < v → in_width 64 v → effect a w w2 → env_ok w2 → rows_at Subkey a v (w_kv w2) = ∅ → wp (c v) w2 Q) →
    wp (now <- clock ;; version <- next_version now ;; c version) w1 Q).
  { intros c Hk. wp_op. wp_op. unfold headroom in Hroom. rewrite <-Hlast in Hroom.
    destruct (version_next_lt (w_last w1) (w_clock w1 0%nat)) as (Hv & _ & Hv64); [done..|].
    set (v := version_next _ _) in *.
    assert (He2 : effect a w1 (with_last (tick w1) v)).
    { constructor; cbn; [by exists 1%nat|lia| |apply frame_refl]. eapply fresh_le; [done|lia]. }
    apply Hk; [done|done|by eapply effect_trans|by eapply effect_env|by apply (fresh_empty (w_kv w1) (w_last w1))]. }
  destruct H as [[L e]|]; cbn [text expiry] in *.
  - destruct Hform as (s & -> & Hs). pose proof (sform_expiry_width _ _ _ _ _ Hs) as Hew.
    destruct s as [sm|c].
    + pose proof (sform_payload _ _ _ _ _ Hs) as Ep. pose proof (sform_expiry _ _ _ _ _ Hs) as Ee.
      cbn [expiry_of] in Ee. rewrite Ep, Ee.
      destruct (ss_chunked_writes st && (ss_inline_max st <? need)) eqn:Elong.
      * apply Hnew. intros v Hv Hv64 He2 [Hc2 Hf2] Hempty. apply wp_bind.
        apply wp_put_chunks; [done|done|cbn; lia|done|done|done|]. intros G w3 HG HGL. wp_op.
        pose proof (rows_written_effect _ _ _ _ _ HG) as He3. pose proof HG as [Ew3 Hrows _ _ _].
        change (rows_at Subkey a v (w_kv w3) = G) in Hrows. apply HQ; [by eapply effect_trans|by eapply effect_env| |].
        2:{ intros _. apply andb_true_iff in Elong as [_ ?%Z.ltb_lt]. lia. }
        constructor; [|done|done].
        apply ccore_open; [|cbn [c_version with_bytes_of with_expire_ms ComplexMeta_new]; by rewrite Hrows].
        assert (El : w_last w3 = v) by (by rewrite Ew3). rewrite El.
        destruct (chunk_base_new v v e) as [? ? ? ? ?]; [done|lia|done|]. by constructor.
      * wp_op. apply HQ; [done|done| |done]. split; [done|]. split; [done|]. split; [done|]. intros _. by eexists.
    + pose proof Hs as (row & h & Hrow & Hh & He & Ht & Hd & Hch & Hby & Hsz & Hv & Hlt & Hr & Hlong).
      wp_op. apply HQ; [done|done| |intros _; lia].
      constructor; [|done|intros; by exists (SChunked c)].
      apply ccore_open; [|done]. by constructor; rewrite ?Hch.
  - subst o. destruct (ss_chunked_writes st && (ss_inline_max st <? need)) eqn:Elong.
    + apply Hnew. intros v Hv Hv64 He2 Henv2 Hempty. wp_op. apply HQ; [done|done| |].
      2:{ intros _. apply andb_true_iff in Elong as [_ ?%Z.ltb_lt]. lia. }
      constructor; [|done|done].
      apply ccore_open; [|cbn [c_version ComplexMeta_new]; rewrite Hempty; apply chunk_rows_empty].
      destruct (chunk_base_new v v 0) as [? ? ? ? ?]; [done|lia|done|]. by constructor.
    + wp_op. apply HQ; [done|done| |done]. by split.
Qed.

(** Rewriting the expiry of an inline row changes nothing else of it. *)
Lemma sholds_inline_expire w sm L e e' row' :
  sform (w_kv w) (w_last w) (SInline sm) L e → in_width 64 e' →
  write_expire (StringMeta_encode sm) e' = Some row' →
  sholds (with_kv w (<[mkey a := row']> (w_kv w))) L e'.
Proof.
  intros (row & h & Hrow & Hh & He & Ht & Hd & HL & Hse) He' Hw.
  unfold StringMeta_decode in Hd. destruct row as [|f rest]; [done|]. cbn [head mbind option_bind] in Hd.
  case_decide; [done|]. injection Hd as <-. cbn [s_payload s_expire_ms s_flags] in *.
  assert (Hf : value_type (mkMetaHeader (b2z f) e') = Some TString).
  { unfold MetaHeader_decode in Hh. case_decide; [done|]. by injection Hh as <-. }
  set (X := if encoding_of (b2z f) =? ENCODING_V2 then be 8 (written_ms_of (f :: rest)) else []).
  assert (Erow : row' = [f] ++ be 8 e' ++ X ++ L).
  { unfold write_expire, StringMeta_encode in Hw. cbn [s_flags s_expire_ms s_written_ms s_payload] in Hw.
    rewrite HL, z2b_b2z in Hw. fold X in Hw. case_decide; [|done]. apply (inj Some) in Hw. rewrite <-Hw.
    unfold patch. rewrite length_be. change ([f] ++ ?l) with (f :: l). cbn [take]. rewrite take_0.
    change (drop (1 + 8) (f :: ?l)) with (drop 8 l). rewrite drop_app_length' by (by rewrite length_be). done. }
  assert (HX : length X = (head_len (b2z f) - 9)%nat ∧ (9 <= head_len (b2z f))%nat).
  { unfold X, head_len, HEADER_LEN. destruct (_ =? _); [rewrite length_be|]; cbn; lia. }
  exists (SInline (mkStringMeta (b2z f) e' (written_ms_of row') L)), row', (mkMetaHeader (b2z f) e').
  split; [apply lookup_insert_eq|]. split; [|split; [done|]].
  - rewrite Erow. unfold MetaHeader_decode. cbn [app]. rewrite decide_False by (cbn [length]; unfold HEADER_LEN; rewrite !length_app, length_be; lia).
    unfold sub. change (drop 1 (f :: ?l)) with l. rewrite take_app_length' by (by rewrite length_be). by rewrite of_be_id by width.
  - split; [done|]. split; [|done]. unfold StringMeta_decode. rewrite Erow at 1. cbn [app head mbind option_bind].
    rewrite Erow. rewrite decide_False by (cbn [app length]; rewrite !length_app, length_be; lia). do 2 f_equal.
    + unfold sub. change (drop 1 ([f] ++ ?l)) with l. rewrite take_app_length' by (by rewrite length_be). by rewrite of_be_id by width.
    + rewrite !app_assoc. apply drop_app_length'. rewrite !length_app, length_be. cbn. lia.
Qed.

(** Rewriting the expiry of a chunked string's record. *)
Lemma sholds_chunked_expire w c L e e' :
  sform (w_kv w) (w_last w) (SChunked c) L e → in_width 64 e' →
  sholds (with_kv w (<[mkey a := ComplexMeta_encode (with_expire_ms c e')]> (w_kv w))) L e'.
Proof.
  intros (row & h & Hrow & Hh & He & Ht & Hd & Hch & Hby & Hsz & Hv & Hlt & Hr & Hlong) He'.
  assert (Hw : in_width 64 (c_written_ms c)).
  { unfold ComplexMeta_decode in Hd. rewrite Hh in Hd. cbn in Hd. case_decide; [done|]. injection Hd as <-.
    cbn. unfold written_ms_of. destruct row as [|f rest]; [done|].
    destruct (_ =? _); [|done]. unfold get_sub. case_decide; [|done]. apply (of_be_sub_width _ _ 8). }
  assert (E : ComplexMeta_encode (with_expire_ms c e') =
    ComplexMeta_encode (chunk_meta (with_expire_ms c e') (len L) (c_written_ms c))).
  { unfold chunk_meta, ComplexMeta_encode, ComplexMeta_touch, with_expire_ms. cbn.
    rewrite <-Hsz, <-Hby. unfold v2_flags. do 3 f_equal.
    unfold value_type in Ht. rewrite <-Hch in Ht. rewrite Ht. cbn. done. }
  rewrite E. apply (sholds_chunked w (with_expire_ms c e')); [|done|done|done].
  constructor; cbn; try done. unfold value_type in *. cbn. by rewrite Hch.
Qed.

(** ** Reads *)

(** The key still holds what it held. *)
Definition skeeps (H : option (bytes * Z)) (w w' : world kvmap) : Prop :=
  effect a w w' ∧ ∀ now, srepr now w H → srepr now w' H.

(** The key now holds [H'], whatever the instant up to its expiry. *)
Definition smakes (H' : option (bytes * Z)) (w w' : world kvmap) : Prop :=
  effect a w w' ∧
  match H' with Some (L, e) => sholds w' L e | None => w_kv w' !! mkey a = None end.

Lemma sread_keeps H w o w' : sread H w o w' → skeeps H w w'.
Proof. intros [_ ? _ _ ? _]. by split. Qed.

Lemma chunk_presents c L e w :
  addr_wf a → sform (w_kv w) (w_last w) (SChunked c) L e → presents (mkChunkSource st slot key c) L w.
Proof.
  intros Ha Hs. apply sform_rows in Hs as [Hb Hr]. split; [done|]. intros from to H1 H2.
  cbn [bs_window chunk_source cs_store cs_slot cs_key cs_meta]. pose proof (cr_len _ _ _ Hr).
  rewrite wrap_id by (unfold in_width; nia). eapply wp_read_chunked; [done|done|done|lia|]. by split.
Qed.

Section Reads.
Context (H : option (bytes * Z)) (w : world kvmap).
Context (Ha : addr_wf a) (Henv : env_ok w) (HH : srepr (w_clock w 0%nat) w H).
Context (Hlim : len (text H) <= 2 ^ 32 * C).

(** A read command: what it does with the stored form decides. *)
Lemma wp_reading {A} (none : prog (result A)) (some : Stored → prog (result A)) Q :
  (H = None → ∀ w', skeeps H w w' → wp none w' Q) →
  (∀ L e s w', H = Some (L, e) → sform (w_kv w') (w_last w') s L e → skeeps H w w' → wp (some s) w' Q) →
  wp (o <-? read_live st slot key ;; match o with None => none | Some s => some s end) w Q.
Proof.
  intros Hn Hs. apply wp_try. apply (wp_read H); [done..|]. intros o w' Hr. pose proof (sread_keeps _ _ _ _ Hr) as Hk.
  destruct Hr as [Hform _ _ _ _ _]. destruct H as [[L e]|]; [|subst o; by apply Hn].
  destruct Hform as (s & -> & Hs'). by eapply Hs.
Qed.

Lemma wp_string_get Q : (∀ w', skeeps H w w' → Q (Ok (fst <$> H)) w') → wp (get st slot key) w Q.
Proof.
  intros HQ. apply wp_reading; [intros E w' Hk; wp_op; apply HQ in Hk; by rewrite E in Hk|].
  intros L e s w' E Hs Hk. apply wp_bind. eapply wp_value_of; [done..|]. wp_op. apply HQ in Hk. by rewrite E in Hk.
Qed.

Lemma wp_value_and_expiry Q : (∀ w', skeeps H w w' → Q (Ok H) w') → wp (value_and_expiry st slot key) w Q.
Proof.
  intros HQ. apply wp_reading; [intros E w' Hk; wp_op; apply HQ in Hk; by rewrite E in Hk|].
  intros L e s w' E Hs Hk. apply wp_bind. eapply wp_value_of; [done..|]. wp_op. apply HQ in Hk.
  by rewrite (sform_expiry _ _ _ _ _ Hs), <-E.
Qed.

Lemma wp_strlen Q : (∀ w', skeeps H w w' → Q (Ok (len (text H))) w') → wp (strlen st slot key) w Q.
Proof.
  intros HQ. apply wp_try. apply (wp_read H); [done..|]. intros o w' Hr.
  pose proof (sread_keeps _ _ _ _ Hr) as Hk. wp_op. apply HQ in Hk. destruct Hr as [Hform _ _ _ _ _].
  destruct H as [[L e]|]; [|by subst o]. destruct Hform as (s & -> & Hs). by rewrite (sform_len _ _ _ _ _ Hs).
Qed.

(** GETRANGE on the string: both ends clamped into it, the two-negative rule
    first. *)
Definition getrange_spec (L : bytes) (start end_ : Z) : bytes :=
  if (start <? 0) && (end_ <? 0) && (end_ <? start) then []
  else let '(s, e) := clamp (len L) start end_ in slice L s (e + 1).

Lemma wp_getrange start end_ Q :
  in_i64 start → in_i64 end_ →
  (∀ w', skeeps H w w' → Q (Ok (getrange_spec (text H) start end_)) w') → wp (getrange st slot key start end_) w Q.
Proof.
  intros Hs He HQ. apply wp_reading.
  { intros E w' Hk. wp_op. apply HQ in Hk. rewrite E in Hk. unfold getrange_spec in Hk. cbn [text] in Hk.
    destruct (_ && _ && _); [done|]. destruct (clamp _ _ _) as [s e]. unfold slice in Hk. by rewrite drop_nil, take_nil in Hk. }
  intros L e s w' E Hf Hk. rewrite (sform_len _ _ _ _ _ Hf). apply HQ in Hk. rewrite E in Hk, Hlim. cbn [text] in Hk, Hlim.
  unfold getrange_spec in Hk. destruct (_ && _ && _); [by wp_op|].
  unfold in_i64, I64_MIN, I64_MAX in Hs, He. cbv zeta. rewrite !(signed_id (len L)), (signed_id (len L - 1)) by nia.
  assert (En : ∀ i, - 2 ^ 63 <= i <= 2 ^ 63 - 1 → (if i <? 0 then i64 (len L + i) else i) = if i <? 0 then len L + i else i).
  { intros i Hi. destruct (Z.ltb_spec i 0); [|done]. rewrite signed_id; [done|nia]. }
  rewrite !En by lia. unfold clamp in Hk.
  set (s0 := Z.max (if start <? 0 then len L + start else start) 0) in *.
  set (e0 := Z.min (Z.max (if end_ <? 0 then len L + end_ else end_) 0) (len L - 1)) in *.
  assert (Hs0 : 0 <= s0) by lia. assert (He0 : e0 <= len L - 1) by lia.
  destruct (Z.eqb_spec (len L) 0) as [Hz|Hz]; cbn [orb].
  { wp_op. unfold slice in Hk. assert (L = []) as -> by (destruct L; [done|cbn in Hz; lia]). by rewrite drop_nil, take_nil in Hk. }
  destruct (Z.ltb_spec e0 s0).
  { wp_op. unfold slice in Hk. by replace (Z.to_nat (e0 + 1 - s0)) with 0%nat in Hk by lia. }
  apply wp_bind. destruct s as [sm|c].
  - rewrite (sform_payload _ _ _ _ _ Hf). unfold get_sub. rewrite decide_True by lia. apply wp_ret. by wp_op.
  - pose proof (sform_rows _ _ _ _ _ Hf) as [Hb Hr]. rewrite !wrap_id by (rewrite ?wrap_id; unfold in_width; nia).
    eapply wp_read_chunked; [done..|]. by wp_op.
Qed.

Lemma wp_getbit offset Q :
  in_width 64 offset →
  (∀ w', skeeps H w w' → Q (Ok (bit_of (text H) (Z.to_nat offset))) w') → wp (getbit st slot key offset) w Q.
Proof.
  intros Ho HQ. unfold in_width in Ho. apply wp_try. apply (wp_read H); [done..|]. intros o w' Hr.
  pose proof (sread_keeps _ _ _ _ Hr) as Hk. destruct Hr as [Hform _ _ _ _ _]. apply HQ in Hk.
  rewrite <-bit_of_masked in Hk by lia. assert (0 <= Z.shiftr offset 3) by (apply Z.shiftr_nonneg; lia).
  apply wp_bind. destruct H as [[L e]|]; [|subst o; wp_op; wp_op; done].
  destruct Hform as (s & -> & Hs). cbn [text] in Hk. destruct s as [sm|c].
  - rewrite (sform_payload _ _ _ _ _ Hs). wp_op. by wp_op.
  - pose proof (sform_rows _ _ _ _ _ Hs) as [Hb Hrow]. apply wp_bind.
    assert (Hsh : Z.shiftr offset 3 < 2 ^ 61) by (rewrite shiftr3; apply Z.div_lt_upper_bound; lia).
    rewrite wrap_id by (unfold in_width; lia). eapply wp_read_chunked; [done..|]. wp_op. wp_op.
    assert (Eb : byte_or_zero (slice L (Z.shiftr offset 3) (Z.shiftr offset 3 + 1)) 0 =
      byte_or_zero L (Z.to_nat (Z.shiftr offset 3))).
    { change 0%nat with (Z.to_nat 0). rewrite !at0_byte, at0_slice by lia. rewrite (proj2 (Z.ltb_lt _ _)) by lia.
      by rewrite Z.add_0_r. }
    by rewrite Eb.
Qed.

Definition bitcount_answer (range : option (Z * Z * bool)) : Z :=
  match H with None => 0 | Some (L, _) => bitcount_spec L range end.

Lemma wp_bitcount range Q :
  (∀ start end_ bits, range = Some (start, end_, bits) → in_i64 start ∧ in_i64 end_) →
  (∀ w', skeeps H w w' → Q (Ok (bitcount_answer range)) w') → wp (bitcount st slot key range) w Q.
Proof.
  intros Hr HQ. unfold bitcount_answer in HQ. apply wp_try. apply (wp_read H); [done..|]. intros o w' Hread.
  pose proof (sread_keeps _ _ _ _ Hread) as Hk. destruct Hread as [Hform _ _ _ _ _]. apply HQ in Hk.
  destruct H as [[L e]|]; [|subst o; by wp_op]. destruct Hform as (s & -> & Hs). cbn [text] in Hlim.
  assert (len L < 2 ^ 59) by nia. destruct s as [sm|c]; apply wp_bind.
  - rewrite (sform_payload _ _ _ _ _ Hs). eapply wp_bitcount_in; [apply slice_presents|done|done|]. by wp_op.
  - eapply wp_bitcount_in; [by eapply chunk_presents|done|done|]. by wp_op.
Qed.

Definition bitpos_answer (bit : bool) (range : option (Z * option Z * bool)) (r : Z) : Prop :=
  match H with None => r = if bit then -1 else 0 | Some (L, _) => bitpos_spec L bit range r end.

Lemma wp_bitpos bit range Q :
  (∀ start end_ bits, range = Some (start, end_, bits) → in_i64 start ∧ from_option in_i64 True end_) →
  (∀ r w', skeeps H w w' → bitpos_answer bit range r → Q (Ok r) w') → wp (bitpos st slot key bit range) w Q.
Proof.
  intros Hr HQ. unfold bitpos_answer in HQ. apply wp_try. apply (wp_read H); [done..|]. intros o w' Hread.
  pose proof (sread_keeps _ _ _ _ Hread) as Hk. destruct Hread as [Hform _ _ _ _ _].
  destruct H as [[L e]|]; [|subst o; wp_op; by apply HQ]. destruct Hform as (s & -> & Hs). cbn [text] in Hlim.
  assert (len L < 2 ^ 59) by nia. destruct s as [sm|c]; apply wp_bind.
  - rewrite (sform_payload _ _ _ _ _ Hs). eapply wp_bitpos_in; [apply slice_presents|done|done|]. intros r Hspec.
    wp_op. by apply HQ.
  - eapply wp_bitpos_in; [by eapply chunk_presents|done|done|]. intros r Hspec. wp_op. by apply HQ.
Qed.

(** ** GETDEL, GETEX, INCRBY *)

Lemma wp_get_del Q :
  (∀ w', (H = None → skeeps H w w') → (H ≠ None → smakes None w w') → Q (Ok (fst <$> H)) w') →
  wp (get_del st slot key) w Q.
Proof.
  intros HQ. apply wp_reading.
  - intros E w' Hk. wp_op. specialize (HQ w'). rewrite E in HQ, Hk. by apply HQ.
  - intros L e s w' E Hs Hk. apply wp_bind. eapply wp_value_of; [done..|]. wp_op. wp_op.
    change (meta_key (ss_base st) slot key) with (mkey a).
    specialize (HQ (with_kv w' (delete (mkey a) (w_kv w')))). rewrite E in HQ. apply HQ; [done|]. intros _.
    destruct Hk as [He _]. split; [|cbn; apply lookup_delete_eq]. eapply effect_trans; [done|].
    apply effect_with_kv; [apply fresh_delete, He|auto with flint].
Qed.

(** The expiry GETEX leaves. *)
Definition getex_expiry (x : SetExpiry) (e : Z) : Z :=
  match x with EKeep => e | EAtMs at_ms => at_ms | EClear => 0 end.

Lemma wp_getex x Q :
  in_width 64 (getex_expiry x 0) →
  (∀ w', match H with
         | None => skeeps H w w'
         | Some (L, e) => smakes (Some (L, getex_expiry x e)) w w'
         end → Q (Ok (fst <$> H)) w') →
  wp (getex st slot key x) w Q.
Proof.
  intros Hx HQ. apply wp_reading; [intros E w' Hk; wp_op; rewrite E in HQ, Hk; by apply HQ|].
  intros L e s w' E Hs [He _]. rewrite E in HQ. cbn [fmap option_fmap option_map fst] in HQ.
  pose proof (sform_expiry _ _ _ _ _ Hs) as Ee.
  set (new := match x with EAtMs at_ms => at_ms | _ => 0 end).
  assert (Hgo : new = getex_expiry x e → in_width 64 new →
    wp ((if new =? expiry_of s then Ret tt
         else match s with
              | SInline m => row <- unwrap (write_expire (StringMeta_encode m) new) ;; kvput (mkey a) row
              | SChunked c => kvput (mkey a) (ComplexMeta_encode (with_expire_ms c new))
              end) ;;; v <- value_of st slot key s ;; Ret (Ok (Some v))) w' Q).
  { intros En Hw. rewrite Ee. apply wp_bind. destruct (Z.eqb_spec new e) as [Eq|Ne].
    { wp_op. apply wp_bind. eapply wp_value_of; [done..|]. wp_op. apply HQ. split; [done|]. rewrite <-En, Eq. by exists s. }
    assert (Hput : ∀ row, sholds (with_kv w' (<[mkey a := row]> (w_kv w'))) L new →
      wp (kvput (mkey a) row) w' (λ _ w'', wp (v <- value_of st slot key s ;; Ret (Ok (Some v))) w'' Q)).
    { intros row Hrow. apply wp_last_put. apply wp_bind.
      assert (Hv : ∀ Q', Q' L (with_kv w' (<[mkey a := row]> (w_kv w'))) →
        wp (value_of st slot key s) (with_kv w' (<[mkey a := row]> (w_kv w'))) Q').
      { intros Q' HQ'. destruct s as [sm|c]; cbn [value_of].
        - wp_op. by rewrite (sform_payload _ _ _ _ _ Hs).
        - apply sform_rows in Hs as [Hb Hr]. eapply wp_read_chunked; [done| |done|lia|by rewrite Hb, slice_all].
          cbn [w_kv with_kv]. by rewrite rows_at_meta_insert. }
      apply Hv. wp_op. apply HQ. rewrite <-En. split; [|done]. eapply effect_trans; [exact He|].
      apply effect_with_kv; [apply fresh_meta, He|auto with flint]. }
    destruct s as [sm|c].
    - destruct (write_expire (StringMeta_encode sm) new) as [row|] eqn:Er.
      + eapply wp_unwrap; [done|]. apply Hput. by eapply sholds_inline_expire.
      + exfalso. unfold write_expire in Er. case_decide as Hd; [done|]. apply Hd.
        unfold StringMeta_encode, HEADER_LEN. rewrite !length_app, length_be. cbn. lia.
    - apply Hput. by eapply sholds_chunked_expire. }
  destruct x as [| |at_ms]; [by apply Hgo| |by apply Hgo].
  apply wp_bind. eapply wp_value_of; [done..|]. wp_op. apply HQ. split; [done|]. by exists s.
Qed.

(** INCRBY: what it answers, and the value it leaves. *)
Definition incr_answer (delta : Z) : result Z :=
  match (match H with None => Some 0 | Some (L, _) => parse_redis_i64 L end) with
  | None => Err NotInteger
  | Some n => if decide (in_i64 (n + delta)) then Ok (n + delta) else Err Overflow
  end.

Lemma wp_incr_by delta Q :
  21 <= ss_inline_max st →
  (∀ w', match incr_answer delta with
         | Ok n => smakes (Some (i64_to_string n, expiry H)) w w'
         | Err _ => skeeps H w w'
         end → Q (incr_answer delta) w') →
  wp (incr_by st slot key delta) w Q.
Proof.
  intros Hmax HQ. unfold incr_answer in HQ. unfold incr_by. apply wp_try. apply (wp_read H); [done..|]. intros o w' Hr.
  pose proof (sread_keeps _ _ _ _ Hr) as Hk. destruct Hr as [Hform He [Hc Hf] _ _ _]. apply wp_try.
  assert (Hput : ∀ n, in_width 64 (expiry H) →
    (match H with None => Some 0 | Some (L, _) => parse_redis_i64 L end) = Some n →
    wp (if decide (in_i64 (n + delta)) then
          now <- clock ;;
          kvput (mkey a) (StringMeta_encode (StringMeta_new (i64_to_string (n + delta)) (expiry H) now)) ;;;
          Ret (Ok (n + delta))
        else Ret (Err Overflow)) w' Q).
  { intros n Hw En. rewrite En in HQ. case_decide; [|wp_op; by apply HQ].
    wp_op. apply wp_put. wp_op. apply HQ. split; [by apply (close_effect a w w')|].
    apply (sholds_inline (tick w')); [done|]. by apply clock_ok_64. }
  destruct H as [[L e]|]; [|subst o; wp_op; by apply Hput].
  destruct Hform as (s & -> & Hs). pose proof (sform_expiry_width _ _ _ _ _ Hs) as Hw.
  pose proof (sform_expiry _ _ _ _ _ Hs) as Ee. cbn [expiry] in *. destruct s as [sm|c].
  - pose proof (sform_payload _ _ _ _ _ Hs) as Ep. cbn [expiry_of] in Ee. rewrite Ep, Ee.
    destruct (parse_redis_i64 L) as [n|] eqn:En; wp_op; [by apply Hput|].
    rewrite ?En in HQ. by apply HQ.
  - wp_op. assert (En : parse_redis_i64 L = None).
    { destruct (parse_redis_i64 L) as [n|] eqn:En; [|done]. exfalso. apply parse_sound in En as [_ ->].
      destruct Hs as (row & h & _ & _ & _ & _ & _ & _ & _ & _ & _ & _ & _ & Hlong).
      pose proof (length_i64_to_string n). lia. }
    rewrite ?En in HQ. by apply HQ.
Qed.

Definition float_answer (delta : Z) : result bytes :=
  match (match H with None => Some F64_ZERO | Some (L, _) => f64_parse_number L end) with
  | None => Err NotFloat
  | Some v =>
      let next := f64_add v delta in
      if f64_is_finite next then Ok (fmt_float_human next) else Err NanOrInfinity
  end.

(** What INCRBYFLOAT made of the key; a chunked string, longer than any float
    text upstream reads, is refused unread. *)
Definition float_added (delta : Z) (r : result bytes) (w' : world kvmap) : Prop :=
  (r = float_answer delta ∧
   match r with
   | Ok t => smakes (Some (t, expiry H)) w w'
   | Err _ => skeeps H w w'
   end) ∨
  (ss_inline_max st < len (text H) ∧ r = Err NotFloat ∧ skeeps H w w').

Lemma wp_incr_by_float delta Q :
  (∀ r w', float_added delta r w' → Q r w') → wp (incr_by_float st slot key delta) w Q.
Proof.
  intros HQ. unfold float_added, float_answer in HQ. unfold incr_by_float. apply wp_try.
  apply (wp_read H); [done..|]. intros o w' Hr.
  pose proof (sread_keeps _ _ _ _ Hr) as Hk. destruct Hr as [Hform He [Hc Hf] _ _ _]. apply wp_try.
  assert (Hput : ∀ v, in_width 64 (expiry H) →
    (match H with None => Some F64_ZERO | Some (L, _) => f64_parse_number L end) = Some v →
    wp (if negb (f64_is_finite (f64_add v delta)) then Ret (Err NanOrInfinity) else
          now <- clock ;;
          kvput (mkey a) (StringMeta_encode
            (StringMeta_new (fmt_float_human (f64_add v delta)) (expiry H) now)) ;;;
          Ret (Ok (fmt_float_human (f64_add v delta)))) w' Q).
  { intros v Hw Ev. rewrite Ev in HQ. cbv zeta in HQ.
    destruct (f64_is_finite (f64_add v delta)); cbn [negb]; [|wp_op; apply HQ; by left].
    wp_op. apply wp_put. wp_op. apply HQ. left. split; [done|]. split; [by apply (close_effect a w w')|].
    apply (sholds_inline (tick w')); [done|]. by apply clock_ok_64. }
  destruct H as [[L e]|]; [|subst o; wp_op; by apply Hput].
  destruct Hform as (s & -> & Hs). pose proof (sform_expiry_width _ _ _ _ _ Hs) as Hw.
  pose proof (sform_expiry _ _ _ _ _ Hs) as Ee. cbn [expiry] in *. destruct s as [sm|c].
  - pose proof (sform_payload _ _ _ _ _ Hs) as Ep. cbn [expiry_of] in Ee. rewrite Ep, Ee.
    destruct (f64_parse_number L) as [v|] eqn:Ev; wp_op; [by apply Hput|].
    apply HQ. left. by rewrite ?Ev.
  - wp_op. destruct Hs as (row & h & _ & _ & _ & _ & _ & _ & _ & _ & _ & _ & _ & Hlong).
    apply HQ. right. cbn [text]. done.
Qed.
End Reads.

(** ** SET *)

(** Whether a key of any type is there at an instant, and its expiry. *)
Definition present (now : Z) (m : kvmap) (E : option Z) : Prop :=
  match E with
  | None => dead_row now (m !! mkey a)
  | Some e => ∃ row h, m !! mkey a = Some row ∧ MetaHeader_decode row = Some h ∧
                       MetaHeader_is_expired h now = false ∧ h_expire_ms h = e
  end.

Definition set_refused (opts : SetOptions) (E : option Z) : bool :=
  (o_nx opts && bool_decide (is_Some E)) || (o_xx opts && bool_decide (E = None)).

Definition set_expiry (opts : SetOptions) (E : option Z) : Z :=
  match o_expiry opts with EClear => 0 | EKeep => default 0 E | EAtMs at_ms => at_ms end.

Lemma present_width now m e : present now m (Some e) → in_width 64 e.
Proof. intros (row & h & _ & Hh & _ & <-). by eapply header_expire_width. Qed.

Lemma wp_read_live_header E w Q :
  env_ok w → present (w_clock w 0%nat) (w_kv w) E →
  (∀ o w', h_expire_ms <$> o = E → after_read a w w' → (E ≠ None → w_kv w' = w_kv w) → Q o w') →
  wp (read_live_header st slot key) w Q.
Proof.
  intros Henv HE HQ. unfold read_live_header. wp_op. change (meta_key (ss_base st) slot key) with (mkey a).
  destruct E as [e|]; cbn [present] in HE.
  - destruct HE as (row & h & Hrow & Hh & Hex & <-). rewrite Hrow. cbn [mbind option_bind]. rewrite Hh. wp_op.
    rewrite Hex. wp_op. apply HQ; [done|right; by left|done].
  - unfold dead_row in HE. destruct (w_kv w !! mkey a) as [row|]; cbn [mbind option_bind].
    2:{ wp_op. apply HQ; [done|by left|done]. }
    destruct (MetaHeader_decode row) as [h|]; [|wp_op; apply HQ; [done|by left|done]].
    wp_op. rewrite HE. wp_op. wp_op. apply HQ; [done|by right; right|done].
Qed.

Lemma wp_set E value opts w Q :
  addr_wf a → env_ok w → headroom w → present (w_clock w 0%nat) (w_kv w) E →
  (∀ at_ms, o_expiry opts = EAtMs at_ms → in_width 64 at_ms) → len value <= 2 ^ 32 * C →
  (st_max (ss_base st) < len value → Q (Err ValueTooLarge) w) →
  (∀ w', len value <= st_max (ss_base st) → set_refused opts E = true → after_read a w w' →
     (E ≠ None → w_kv w' = w_kv w) → Q (Ok SetUnchanged) w') →
  (∀ w', len value <= st_max (ss_base st) → set_refused opts E = false →
     smakes (Some (value, set_expiry opts E)) w w' → Q (Ok SetDone) w') →
  wp (set st slot key value opts) w Q.
Proof.
  intros Ha Henv Hroom HE Hat HL Hbig Hno Hdone. unfold set.
  destruct (Z.ltb_spec (st_max (ss_base st)) (len value)) as [Hlt|Hle]; [wp_op; by apply Hbig|].
  assert (Hwidth : in_width 64 (set_expiry opts E)).
  { unfold set_expiry. destruct (o_expiry opts) as [| |at_ms] eqn:Ex; [done| |by apply Hat].
    destruct E as [e|]; [by eapply present_width|done]. }
  assert (Hgo : ∀ (o : option MetaHeader) w1, after_read a w w1 → (E ≠ None → w_kv w1 = w_kv w) →
    (o_nx opts && bool_decide (is_Some o)) || (o_xx opts && bool_decide (o = None)) = set_refused opts E →
    (match o_expiry opts with EClear => 0 | EKeep => match o with Some h => h_expire_ms h | None => 0 end
       | EAtMs at_ms => at_ms end) = set_expiry opts E →
    wp (if (o_nx opts && bool_decide (is_Some o)) || (o_xx opts && bool_decide (o = None)) then Ret (Ok SetUnchanged)
        else put_value st slot key value (match o_expiry opts with EClear => 0
               | EKeep => match o with Some h => h_expire_ms h | None => 0 end | EAtMs at_ms => at_ms end) ;;;
             Ret (Ok SetDone)) w1 Q).
  { intros o w1 Hafter Hsame Er Ee. rewrite Er, Ee. destruct (set_refused opts E) eqn:Eref.
    { wp_op. by apply Hno. }
    destruct (after_read_effect (ss_base st) slot key w w1) as (Henv1 & He1 & Hl1); [done..|].
    apply wp_bind. apply wp_put_value; [done|done|unfold headroom; by rewrite Hl1|done|done|].
    intros w2 He2 Hs. wp_op. apply Hdone; [done|done|]. split; [by eapply effect_trans|done]. }
  destruct (o_nx opts || o_xx opts || match o_expiry opts with EKeep => true | _ => false end) eqn:En.
  - apply wp_bind. apply (wp_read_live_header E); [done..|]. intros o w1 Eo Hafter Hsame.
    apply Hgo; [done|done| |]; subst E.
    + unfold set_refused. f_equal; f_equal; apply bool_decide_ext; destruct o; naive_solver.
    + unfold set_expiry. destruct (o_expiry opts); by destruct o.
  - apply orb_false_iff in En as [[Enx Exx]%orb_false_iff Ek]. apply wp_bind. wp_op.
    apply Hgo; [by left|done| |].
    + unfold set_refused. by rewrite Enx, Exx.
    + unfold set_expiry. by destruct (o_expiry opts).
Qed.

(** ** In-place writes *)

Lemma written_end L suffix : written L (len L) suffix = L ++ suffix.
Proof.
  apply at0_ext.
  { unfold written. rewrite length_patch, length_grown, length_app; [lia|].
    pose proof (length_grown L (len L + len suffix)). lia. }
  intros p Hp. unfold written. rewrite at0_patch by (try lia; pose proof (length_grown L (len L + len suffix)); lia).
  rewrite at0_grown by lia. unfold at0. case_decide.
  - rewrite lookup_app_r by lia. do 2 f_equal. lia.
  - destruct (decide (p < len L)); [by rewrite lookup_app_l by lia|].
    rewrite (lookup_ge_None_2 L), (lookup_ge_None_2 (L ++ suffix)) by (rewrite ?length_app; lia). done.
Qed.

Lemma length_written L at_ data : 0 <= at_ → len (written L at_ data) = Z.max (len L) (at_ + len data).
Proof.
  intros. unfold written. pose proof (length_grown L (at_ + len data)). rewrite length_patch; lia.
Qed.

Section Writes.
Context (H : option (bytes * Z)) (w : world kvmap).
Context (Ha : addr_wf a) (Henv : env_ok w) (Hroom : headroom w) (HH : srepr (w_clock w 0%nat) w H).
Context (Hlim : len (text H) <= 2 ^ 32 * C).

(** Finishing a target that holds [L], opened in this world. *)
Lemma wp_close t L e w1 need Q :
  effect a w w1 → env_ok w1 → tview w1 t L e →
  (is_chunked t = true → ss_inline_max st < Z.max need (len (text H))) → Z.max need (len (text H)) <= len L →
  (∀ w', smakes (Some (L, e)) w w' → Q tt w') → wp (finish st slot key t) w1 Q.
Proof.
  intros He1 Henv1 Ht Hlong Hlen HQ. apply (wp_finish t L e); [done|done|done| |].
  - intros Hc. specialize (Hlong Hc). lia.
  - intros w' He Hs. apply HQ. split; [by eapply effect_trans|done].
Qed.

(** APPEND, when the key does not expire between its two reads. *)
Lemma wp_append suffix Q :
  srepr (w_clock w 1%nat) w H → len (text H) + len suffix <= 2 ^ 32 * C →
  (∀ w', st_max (ss_base st) < len (text H) + len suffix → skeeps H w w' → Q (Err ValueTooLarge) w') →
  (∀ w', len (text H) + len suffix <= st_max (ss_base st) → smakes (Some (text H ++ suffix, expiry H)) w w' →
     Q (Ok (len (text H) + len suffix)) w') →
  wp (append st slot key suffix) w Q.
Proof.
  intros HH1 Hfit Hbig HQ. unfold append. apply wp_try. apply (wp_read H); [done..|]. intros o w1 Hr.
  pose proof (sread_keeps _ _ _ _ Hr) as Hk. destruct Hr as [Hform He1 Henv1 Hl1 Hrepr Hclk].
  assert (El : (match o with Some s => stored_len s | None => 0 end) = len (text H)).
  { clear Hbig HQ. destruct H as [[L e]|]; [|by subst o]. destruct Hform as (s & -> & Hs).
    by rewrite (sform_len _ _ _ _ _ Hs). }
  cbv zeta. rewrite El. rewrite wrap_id by (unfold in_width; nia).
  destruct (Z.ltb_spec (st_max (ss_base st)) (len (text H) + len suffix)); [wp_op; by apply Hbig|].
  apply wp_try. apply (wp_target _ H); [done|done|unfold headroom; by rewrite Hl1| |done|].
  { rewrite Hclk. by apply Hrepr. }
  intros t w2 He2 Henv2 Ht Hlong. apply wp_bind.
  apply (wp_write t (len (text H)) suffix (text H) (expiry H)); [done|done|lia|done|done|].
  intros t' Ht' Hlt Hct. apply wp_bind.
  apply (wp_close t' (written (text H) (len (text H)) suffix) (expiry H) w2 (len (text H) + len suffix)).
  - by eapply effect_trans.
  - done.
  - done.
  - by rewrite Hct.
  - rewrite length_written; lia.
  - intros w' Hm. wp_op. apply HQ; [done|]. by rewrite written_end in Hm.
Qed.

(** SETRANGE. *)
Lemma wp_setrange offset data Q :
  0 <= offset → offset + len data <= 2 ^ 32 * C →
  (∀ w', data = [] → skeeps H w w' → Q (Ok (len (text H))) w') →
  (∀ w', data ≠ [] → st_max (ss_base st) < offset + len data → skeeps H w w' → Q (Err ValueTooLarge) w') →
  (∀ w', data ≠ [] → offset + len data <= st_max (ss_base st) →
     smakes (Some (written (text H) offset data, expiry H)) w w' →
     Q (Ok (Z.max (len (text H)) (offset + len data))) w') →
  wp (setrange st slot key offset data) w Q.
Proof.
  intros Ho Hfit Hprobe Hbig HQ. unfold setrange. case_bool_decide as Ed.
  { apply wp_try. apply (wp_read H); [done..|]. intros o w1 Hr. pose proof (sread_keeps _ _ _ _ Hr) as Hk.
    destruct Hr as [Hform _ _ _ _ _]. wp_op. specialize (Hprobe w1 Ed Hk). clear Hbig HQ.
    destruct H as [[L e]|]; [|by subst o]. destruct Hform as (s & -> & Hs). by rewrite (sform_len _ _ _ _ _ Hs). }
  rewrite wrap_id by (unfold in_width; nia).
  destruct (Z.ltb_spec (st_max (ss_base st)) (offset + len data)).
  { apply wp_try. apply (wp_read H); [done..|]. intros o w1 Hr. wp_op. apply Hbig; [done|done|].
    by eapply sread_keeps. }
  apply wp_try. apply (wp_target _ H); [done..|]. intros t w2 He2 Henv2 Ht Hlong. apply wp_bind.
  apply (wp_write t offset data (text H) (expiry H)); [done..|].
  intros t' Ht' Hlt Hct. apply wp_bind.
  apply (wp_close t' (written (text H) offset data) (expiry H) w2 (offset + len data)).
  - done.
  - done.
  - done.
  - by rewrite Hct.
  - rewrite length_written; lia.
  - intros w' Hm. wp_op. rewrite Hlt, length_written by done. by apply HQ.
Qed.

Lemma xor_mask current offset :
  0 <= current < 2 ^ 8 → 0 <= offset →
  let old := negb (Z.land current (mask_of offset) =? 0) in
  Z.lxor current (mask_of offset) =
  if negb old then Z.lor current (mask_of offset) else Z.land current (not8 (mask_of offset)).
Proof.
  intros Hc Ho old. unfold old, mask_of. rewrite land7. pose proof (Z.mod_pos_bound offset 8).
  set (k := 7 - offset mod 8). assert (Hk : 0 <= k < 8) by lia. rewrite land_bit by lia. clearbody k.
  assert (Hm : ∀ n, 0 <= n → Z.testbit (Z.shiftl 1 k) n = (n =? k)).
  { intros n Hn. rewrite Z.shiftl_mul_pow2, Z.mul_1_l, Z.pow2_bits_eqb by lia. apply Z.eqb_sym. }
  assert (Hhi : ∀ n, 8 <= n → Z.testbit current n = false).
  { intros n Hn. rewrite <-(Z.mod_small current (2 ^ 8)) by lia. by apply Z.mod_pow2_bits_high. }
  apply Z.bits_inj'. intros n Hn. destruct (Z.testbit current k) eqn:E; cbn [negb];
    rewrite Z.lxor_spec, ?Z.lor_spec, ?Z.land_spec, ?Hm by done.
  - destruct (decide (n < 8)) as [Hn8|Hn8].
    + rewrite not8_bit, Hm by lia. destruct (Z.eqb_spec n k) as [->|]; [by rewrite E|].
      by rewrite xorb_false_r, andb_true_r.
    + rewrite Hhi by lia. destruct (Z.eqb_spec n k); [lia|]. done.
  - destruct (Z.eqb_spec n k) as [->|]; [by rewrite E|]. by rewrite xorb_false_r, orb_false_r.
Qed.

(** SETBIT: exactly that bit of the string, grown to cover it. *)
Lemma wp_setbit offset on Q :
  0 <= offset → offset / 8 + 1 <= 2 ^ 32 * C →
  (∀ w', st_max (ss_base st) < offset / 8 + 1 → skeeps H w w' → Q (Err ValueTooLarge) w') →
  (∀ L' w', offset / 8 + 1 <= st_max (ss_base st) →
     bits_of L' = <[Z.to_nat offset := on]> (bits_of (grown (text H) (offset / 8 + 1))) →
     smakes (Some (L', expiry H)) w w' → Q (Ok (bit_of (text H) (Z.to_nat offset))) w') →
  wp (setbit st slot key offset on) w Q.
Proof.
  intros Ho Hfit Hbig HQ. unfold setbit. pose proof (bit_of_masked (text H) offset Ho) as Hold.
  rewrite shiftr3 in *. pose proof (Z.div_pos offset 8).
  rewrite wrap_id by (unfold in_width; nia).
  destruct (Z.ltb_spec (st_max (ss_base st)) (offset / 8 + 1)).
  { apply wp_try. apply (wp_read H); [done..|]. intros o w1 Hr. wp_op. apply Hbig; [done|]. by eapply sread_keeps. }
  apply wp_try. apply (wp_target _ H); [done..|]. intros t w2 He2 Henv2 Ht Hlong.
  set (L1 := grown (text H) (offset / 8 + 1)) in *. pose proof (length_grown (text H) (offset / 8 + 1)) as Hl1. fold L1 in Hl1.
  pose proof (target_laws (expiry H) (is_chunked t) w2 Ha) as Hlaws.
  assert (Hg : tholds w2 (expiry H) (is_chunked t) (grow t (offset / 8 + 1)) L1).
  { split; [by apply tview_grow|apply is_chunked_grow]. }
  apply wp_bind. eapply wp_conseq; [apply (law_byte _ _ _ Hg); lia|].
  intros [current t1] w3 (-> & Hcur & Ht1). cbn [fst snd] in *. subst current.
  assert (Hbit : byte_or_zero L1 (Z.to_nat (offset / 8)) = byte_or_zero (text H) (Z.to_nat (offset / 8))).
  { rewrite !at0_byte by lia. unfold L1. by rewrite at0_grown by lia. }
  pose proof (byte_or_zero_range L1 (Z.to_nat (offset / 8))) as Hrange.
  pose proof (Z.div_mod offset 8). pose proof (Z.mod_pos_bound offset 8).
  destruct (bits_of_set_bit L1 offset on) as [Hw Hset]; [lia|]. rewrite <-Hbit in Hold.
  assert (Hclose : ∀ t2 L2, tholds w2 (expiry H) (is_chunked t) t2 L2 → len L2 = len L1 →
    bits_of L2 = <[Z.to_nat offset := on]> (bits_of L1) →
    wp (finish st slot key t2 ;;; Ret (Ok (bit_of (text H) (Z.to_nat offset)))) w2 Q).
  { intros t2 L2 [Ht2 Hk2] Hl2 Hb2. apply wp_bind.
    apply (wp_close t2 L2 (expiry H) w2 (offset / 8 + 1)); [done|done|done|by rewrite Hk2|lia|].
    intros w' Hm. wp_op. by eapply HQ. }
  rewrite Hold. apply wp_bind. destruct (Bool.eqb _ on) eqn:Eon.
  - apply eqb_prop in Eon. wp_op. apply (Hclose t1 L1); [done|done|]. symmetry. apply list_insert_id.
    rewrite <-Eon. unfold bit_of. rewrite <-(at0_bits (text H) (offset / 8 + 1)) by lia. fold L1.
    destruct (lookup_lt_is_Some_2 (bits_of L1) (Z.to_nat offset)) as [b ->]; [rewrite length_bits_of; lia|done].
  - apply eqb_false_iff in Eon. rewrite xor_mask by done. rewrite Hold.
    assert (negb (bit_of (text H) (Z.to_nat offset)) = on) as ->.
    { destruct (bit_of _ _), on; done. }
    eapply wp_conseq; [apply (law_set_byte _ _ _ _ Ht1); [lia|exact Hw]|].
    intros t2 w3 [-> Ht2]. eapply Hclose; [exact Ht2| |done]. by rewrite length_insert.
Qed.
End Writes.

(** ** BITFIELD *)

Definition is_write (op : BitfieldOp) : bool := match f_kind op with FGet => false | _ => true end.

(** What a store that overflows leaves in the field; a saturating SET far below
    a signed field leaves its maximum. *)
Definition stored_limit (sign incr : bool) (bits x : Z) (overflow : BitfieldOverflow) : option Z :=
  if sign && negb incr && far_below bits x overflow then Some (field_max sign bits)
  else overflow_spec sign bits x overflow.

(** One operation on the string's bits. *)
Definition field_step (op : BitfieldOp) (l : list bool) : option Z * list bool :=
  let '(sign, bits, o) := (f_signed op, f_bits op, f_offset op) in
  let old := get_field sign bits o l in
  let store (incr : bool) x overflow :=
    match stored_limit sign incr bits x overflow, overflow with
    | Some _, OFail => (None, l)
    | Some limit, _ => (Some (if incr then limit else old), set_field bits o limit l)
    | None, _ => (Some (if incr then x else old), set_field bits o x l)
    end in
  match f_kind op with
  | FGet => (Some old, l)
  | FSet value overflow => store false (if sign then value else u64 value) overflow
  | FIncrBy value overflow => store true (old + value) overflow
  end.

Fixpoint field_steps (ops : list BitfieldOp) (l : list bool) : list (option Z) * list bool :=
  match ops with
  | [] => ([], l)
  | op :: ops' => let '(r, l') := field_step op l in let '(rs, l'') := field_steps ops' l' in (r :: rs, l'')
  end.

(** An operation the command accepts: a width the type allows, an offset inside
    the largest string, and a 64-bit value. *)
Definition op_ok (op : BitfieldOp) : Prop :=
  1 <= f_bits op <= (if f_signed op then 64 else 63) ∧ 0 <= f_offset op ∧ f_offset op + f_bits op <= 2 ^ 32 ∧
  match f_kind op with
  | FGet => True
  | FSet value _ | FIncrBy value _ => in_i64 value
  end.

Lemma get_field_in_field sign bits o l : 1 <= bits → in_field sign bits (get_field sign bits o l).
Proof.
  intros Hb. unfold get_field, field_value, in_field, field_min, field_max.
  set (v := bits_value _). pose proof (wrap_range bits v). pose proof (pow2_half bits Hb).
  destruct sign; [|lia]. unfold signed. destruct (Z.ltb_spec (wrap bits v) (2 ^ (bits - 1))); lia.
Qed.

Lemma in_field_i64 (sign : bool) bits x : 1 <= bits <= (if sign then 64 else 63) → in_field sign bits x → - 2 ^ 63 <= x < 2 ^ 63.
Proof.
  intros Hb Hx. unfold in_field, field_min, field_max in Hx. destruct sign.
  - pose proof (pow2_le (bits - 1) 63). lia.
  - pose proof (pow2_le bits 63). lia.
Qed.

(** Only the low bits of what is written matter. *)
Lemma set_field_wrap bits o x l : 0 <= bits <= 64 → set_field bits o (u64 x) l = set_field bits o x l.
Proof.
  intros Hb. unfold set_field. f_equal. apply list_fmap_ext. intros k i [-> Hi]%range_lookup.
  unfold wrap. by rewrite Z.mod_pow2_bits_low by lia.
Qed.

Lemma overflow_limit_in_field sign bits x overflow limit :
  1 <= bits → overflow_spec sign bits x overflow = Some limit → overflow ≠ OFail → in_field sign bits limit.
Proof.
  intros Hb E Hf. unfold overflow_spec in E. case_decide; [done|]. injection E as <-.
  pose proof (pow2_half bits Hb). pose proof (pow2_le (bits - 1) bits). destruct overflow; [| |done].
  - unfold field_value, in_field, field_min, field_max. pose proof (wrap_range bits x).
    destruct sign; [|lia]. unfold signed. destruct (Z.ltb_spec (wrap bits x) (2 ^ (bits - 1))); lia.
  - unfold in_field, field_min, field_max. destruct (_ <? x), sign; lia.
Qed.

(** What one turn of the loop computes, in words, is the field operation. *)
Definition new_of (op : BitfieldOp) (incr : bool) (old value : Z) (overflow : BitfieldOverflow) : Z * bool :=
  if f_signed op then
    let '(from, by_) := if incr : bool then (old, value) else (value, 0) in
    match signed_overflow from by_ (f_bits op) overflow with
    | Some limit => (limit, true)
    | None => (i64 (from + by_), false)
    end
  else
    let '(from, by_) := if incr : bool then (u64 old, value) else (u64 value, 0) in
    match unsigned_overflow from by_ (f_bits op) overflow with
    | Some limit => (i64 limit, true)
    | None => (i64 (u64 (from + u64 by_)), false)
    end.

Lemma new_of_spec op (incr : bool) old value overflow :
  1 <= f_bits op <= (if f_signed op then 64 else 63) → in_i64 value →
  in_field (f_signed op) (f_bits op) old →
  let x := if incr then old + value else if f_signed op then value else u64 value in
  new_of op incr old value overflow =
  match stored_limit (f_signed op) incr (f_bits op) x overflow with
  | Some limit => (limit, true)
  | None => (x, false)
  end.
Proof.
  intros Hb Hv Hold x. pose proof (in_field_i64 _ _ _ Hb Hold) as Ho64. unfold new_of.
  pose proof Hv as Hv'. unfold in_i64, I64_MIN, I64_MAX in Hv'. unfold x. clear x.
  destruct (f_signed op) eqn:Es.
  - set (p := if incr then (old, value) else (value, 0)).
    assert (Hp : signed_overflow p.1 p.2 (f_bits op) overflow =
      stored_limit true incr (f_bits op) (if incr then old + value else value) overflow ∧ p.1 + p.2 = if incr then old + value else value).
    { unfold p, stored_limit. destruct incr; cbn [fst snd negb andb].
      - rewrite signed_overflow_exact; [done|lia|unfold in_i64, I64_MIN, I64_MAX; lia|done|by left].
      - rewrite signed_store_exact; [by rewrite Z.add_0_r|lia|done|done|by right]. }
    destruct Hp as [H1 H2]. destruct p as [from by_]. cbn [fst snd] in *. rewrite H1, H2.
    destruct (stored_limit _ _ _ _ _) as [limit|] eqn:El; [done|]. rewrite signed_id; [done|].
    unfold stored_limit in El. destruct (_ && _ && _); [done|].
    unfold overflow_spec in El. case_decide; [|done]. by apply (in_field_i64 true (f_bits op)).
  - assert (Ho : 0 <= old < 2 ^ 63).
    { unfold in_field, field_min, field_max in Hold. pose proof (pow2_le (f_bits op) 63). lia. }
    set (p := if incr then (u64 old, value) else (u64 value, 0)). set (x := if incr then old + value else u64 value).
    assert (Hp : unsigned_overflow p.1 p.2 (f_bits op) overflow = overflow_spec false (f_bits op) x overflow ∧
      p.1 + p.2 = x ∧ in_width 64 p.1).
    { unfold p, x. destruct incr; cbn [fst snd].
      - rewrite wrap_id by (unfold in_width; lia). rewrite unsigned_overflow_exact; [|lia|unfold in_width; lia|done|by left].
        split; [done|]. split; [done|unfold in_width; lia].
      - rewrite unsigned_overflow_exact; [|lia|apply wrap_in_width; lia|done|by right].
        rewrite Z.add_0_r. split; [done|]. split; [done|apply wrap_in_width; lia]. }
    destruct Hp as (H1 & H2 & H3). destruct p as [from by_]. cbn [fst snd] in *. rewrite H1. unfold stored_limit. cbn [andb].
    destruct (overflow_spec _ _ _ _) as [limit|] eqn:El.
    + rewrite signed_id; [done|]. destruct overflow; [| |unfold overflow_spec in El; case_decide; [done|]; injection El as <-; lia];
        (apply (in_field_i64 false (f_bits op)); [done|]; eapply overflow_limit_in_field; [lia|done|done]).
    + unfold overflow_spec in El. case_decide as Hx; [|done].
      pose proof (in_field_i64 false (f_bits op) _ Hb Hx) as Hx64. unfold in_field, field_min in Hx.
      assert (E : u64 (from + u64 by_) = x).
      { rewrite Z.add_comm, wrap_add_l, Z.add_comm, H2. apply wrap_id. unfold in_width. lia. }
      rewrite E. by rewrite signed_id.
Qed.

Lemma length_field_step op l : length (field_step op l).2 = length l.
Proof.
  unfold field_step. destruct (f_kind op) as [|v o|v o]; [done|..];
    destruct (stored_limit _ _ _ _ _), o; cbn [snd]; unfold set_field; rewrite ?length_inserts; done.
Qed.

Section Bitfield.
Context (e : Z) (k : bool) (w : world kvmap) (Ha : addr_wf a).

Lemma wp_field_read_target op t L Q :
  op_ok op → tholds w e k t L →
  (∀ t', tholds w e k t' L → Q (get_field (f_signed op) (f_bits op) (f_offset op) (bits_of L), t') w) →
  wp (field_read op t) w Q.
Proof.
  intros (Hb & Ho & Hlim & _) Ht HQ. pose proof (target_laws e k w Ha) as Hlaws.
  eapply (wp_field_read (tholds w e k) w); [done|destruct (f_signed op); lia|lia|lia|].
  intros t' Ht'. rewrite signed_id; [by apply HQ|].
  apply (in_field_i64 (f_signed op) (f_bits op)); [done|]. apply get_field_in_field. lia.
Qed.

Lemma wp_bitfield_step op replies t L Q :
  op_ok op → tholds w e k t L → (is_write op = true → f_offset op + f_bits op <= 8 * len L) →
  8 * len L < 2 ^ 64 →
  (∀ t' L', tholds w e k t' L' → length L' = length L → bits_of L' = (field_step op (bits_of L)).2 →
     Q (replies ++ [(field_step op (bits_of L)).1], t') w) →
  wp (bitfield_step st slot key (replies, t) op) w Q.
Proof.
  intros Hok Ht Hfit Hlim HQ. pose proof (target_laws e k w Ha) as Hlaws.
  set (old := get_field (f_signed op) (f_bits op) (f_offset op) (bits_of L)).
  assert (Hwr : ∀ (incr : bool) value overflow,
    f_kind op = (if incr then FIncrBy value overflow else FSet value overflow) →
    wp (r <- field_read op t ;;
        let '(old, t') := r : Z * Target in
        let '(new, overflowed) := new_of op incr old value overflow in
        if overflowed && (match overflow with OFail => true | _ => false end) then Ret (replies ++ [None], t')
        else t'' <- write_bits t' (f_offset op) (f_bits op) (u64 new) ;;
             Ret (replies ++ [Some (if incr then new else old)], t'')) w Q).
  { intros incr value overflow Ek. apply wp_bind. apply (wp_field_read_target op t L); [done..|].
    intros t' Ht'. fold old. pose proof Hok as (Hb & Ho & Hl32 & Hkind).
    assert (Hv : in_i64 value) by (rewrite Ek in Hkind; by destruct incr).
    pose proof (new_of_spec op incr old value overflow Hb Hv) as En. rewrite En by (apply get_field_in_field; lia).
    set (x := if incr then old + value else if f_signed op then value else u64 value).
    assert (Hstep : field_step op (bits_of L) =
      match stored_limit (f_signed op) incr (f_bits op) x overflow, overflow with
      | Some _, OFail => (None, bits_of L)
      | Some limit, _ => (Some (if incr then limit else old), set_field (f_bits op) (f_offset op) limit (bits_of L))
      | None, _ => (Some (if incr then x else old), set_field (f_bits op) (f_offset op) x (bits_of L))
      end).
    { unfold field_step. rewrite Ek. unfold x, old. by destruct incr. }
    assert (Hwrite : ∀ new, (field_step op (bits_of L)) =
        (Some (if incr then new else old), set_field (f_bits op) (f_offset op) new (bits_of L)) →
      wp (t'' <- write_bits t' (f_offset op) (f_bits op) (u64 new) ;;
          Ret (replies ++ [Some (if incr then new else old)], t'')) w Q).
    { intros new Hs. apply wp_bind.
      eapply (wp_write_bits (tholds w e k) w); [done|destruct (f_signed op); lia|lia| |done|].
      { apply Hfit. unfold is_write. rewrite Ek. by destruct incr. }
      intros t'' L'' Ht'' Hl'' Hb''. wp_op. rewrite Hs in HQ. cbn [fst snd] in HQ.
      apply (HQ t'' L''); [done|done|]. rewrite Hb''. apply set_field_wrap. destruct (f_signed op); lia. }
    destruct (stored_limit _ _ _ _ _) as [limit|].
    - destruct overflow; cbn [andb]; [by apply Hwrite..|]. wp_op. rewrite Hstep in HQ. cbn [fst snd] in HQ.
      by apply (HQ t' L).
    - cbn [andb]. by apply Hwrite. }
  unfold bitfield_step. destruct (f_kind op) as [|value overflow|value overflow] eqn:Ek.
  - apply wp_bind. apply (wp_field_read_target op t L); [done..|]. intros t' Ht'. wp_op. cbn [fst snd].
    unfold field_step in HQ. rewrite Ek in HQ. cbn [fst snd] in HQ. by apply (HQ t' L).
  - apply (Hwr false value overflow). done.
  - apply (Hwr true value overflow). done.
Qed.

Lemma wp_bitfield_steps ops t L Q :
  Forall op_ok ops → tholds w e k t L →
  (∀ op, op ∈ ops → is_write op = true → f_offset op + f_bits op <= 8 * len L) → 8 * len L < 2 ^ 64 →
  (∀ t' L', tholds w e k t' L' → length L' = length L → bits_of L' = (field_steps ops (bits_of L)).2 →
     Q ((field_steps ops (bits_of L)).1, t') w) →
  wp (fold_ ops (bitfield_step st slot key) ([], t)) w Q.
Proof.
  intros Hok Ht Hfit Hlim HQ.
  apply (wp_fold (λ l r w', w' = w ∧ (∀ op, op ∈ l → op ∈ ops) ∧ ∃ L', tholds w e k r.2 L' ∧ length L' = length L ∧
    r.1 ++ (field_steps l (bits_of L')).1 = (field_steps ops (bits_of L)).1 ∧
    (field_steps l (bits_of L')).2 = (field_steps ops (bits_of L)).2)).
  - split; [done|]. split; [done|]. by exists L.
  - intros op l [replies t'] w' (-> & Hin & L' & Ht' & Hl' & E1 & E2). cbn [fst snd] in *.
    assert (Hop : op ∈ ops) by (apply Hin; by left). rewrite Forall_forall in Hok.
    apply (wp_bitfield_step op replies t' L'); [by apply Hok|done| |by rewrite Hl'|].
    { intros. rewrite Hl'. by apply Hfit. }
    intros t'' L'' Ht'' Hl'' Hb''. split; [done|]. split; [intros; apply Hin; by right|]. exists L''.
    split; [done|]. split; [lia|]. cbn [fst snd field_steps] in *. rewrite <-E1, <-E2, Hb''.
    destruct (field_step op (bits_of L')) as [r l']. cbn [snd fst]. destruct (field_steps l l') as [rs l''].
    cbn [fst snd]. by rewrite <-app_assoc.
  - intros [replies t'] w' (-> & _ & L' & Ht' & Hl' & E1 & E2). cbn [fst snd field_steps] in *.
    rewrite app_nil_r in E1. rewrite E1. by apply (HQ t' L').
Qed.
End Bitfield.

Lemma highest_bit_spec ops :
  Forall op_ok ops →
  match highest_bit ops with
  | None => ∀ op, op ∈ ops → is_write op = false
  | Some h => 0 <= h < 2 ^ 32 ∧ ∀ op, op ∈ ops → is_write op = true → f_offset op + f_bits op - 1 <= h
  end.
Proof.
  unfold highest_bit. induction ops as [|op ops IH] using rev_ind; intros Hok; [intros op; set_solver|].
  rewrite Forall_app, Forall_singleton in Hok. destruct Hok as [Hok Hop]. specialize (IH Hok). rewrite foldl_app. cbn [foldl].
  destruct Hop as (Hb & Ho & Hlim & _).
  assert (Hone : ∀ op', op' ∈ ops ++ [op] → op' ∈ ops ∨ op' = op) by set_solver.
  assert (Hu : u64 (f_offset op + f_bits op - 1) = f_offset op + f_bits op - 1) by (apply wrap_id; unfold in_width; lia).
  destruct (is_write op) eqn:Ew.
  - assert (E : ∀ acc, (match f_kind op with FGet => acc | _ => Some (match acc with
      Some x => Z.max x (u64 (f_offset op + f_bits op - 1)) | None => u64 (f_offset op + f_bits op - 1) end) end) =
      Some (match acc with Some x => Z.max x (f_offset op + f_bits op - 1) | None => f_offset op + f_bits op - 1 end)).
    { intros acc. rewrite Hu. unfold is_write in Ew. by destruct (f_kind op). }
    cbv zeta. rewrite E. destruct (foldl _ _ ops) as [h|].
    + destruct IH as [Hh IH]. split; [lia|]. intros op' Hin' Hw; destruct (Hone _ Hin') as [Hin| ->]; [|lia]. specialize (IH _ Hin Hw). lia.
    + split; [lia|]. intros op' Hin' Hw; destruct (Hone _ Hin') as [Hin| ->]; [|lia]. specialize (IH _ Hin). congruence.
  - assert (E : f_kind op = FGet) by (unfold is_write in Ew; by destruct (f_kind op)). rewrite E.
    destruct (foldl _ _ ops) as [h|].
    + destruct IH as [Hh IH]. split; [done|]. intros op' Hin' Hw; destruct (Hone _ Hin') as [Hin| ->]; [by apply IH|congruence].
    + intros op' Hin'; destruct (Hone _ Hin') as [Hin| ->]; [by apply IH|done].
Qed.


Lemma bits_value_zeros n : bits_value (replicate n false) = 0.
Proof.
  induction n as [|n IH]; [done|]. replace (S n) with (n + 1)%nat by lia. rewrite replicate_add. cbn [replicate].
  rewrite bits_value_snoc, IH. done.
Qed.

Lemma get_field_nil sign bits o : 1 <= bits → get_field sign bits o [] = 0.
Proof.
  intros Hb. unfold get_field. assert (bits_at [] o bits = replicate (Z.to_nat bits) false) as ->.
  { unfold bits_at. apply list_eq. intros i. rewrite list_lookup_fmap.
    destruct (decide (i < Z.to_nat bits)%nat) as [Hi|Hi].
    - rewrite lookup_replicate_2 by done. assert (range 0 bits !! i = Some (Z.of_nat i)) as -> by (apply range_lookup; lia).
      done.
    - rewrite !lookup_ge_None_2; [done|rewrite length_replicate; lia|rewrite length_range; lia]. }
  rewrite bits_value_zeros. unfold field_value, signed, wrap. rewrite Z.mod_0_l by (pose proof (pow2_le bits bits); lia).
  destruct sign; [|done]. pose proof (pow2_le (bits - 1) bits). by rewrite (proj2 (Z.ltb_lt _ _)) by lia.
Qed.

Lemma field_steps_nil ops :
  Forall op_ok ops → (∀ op, op ∈ ops → is_write op = false) → field_steps ops [] = ((λ _, Some 0) <$> ops, []).
Proof.
  induction ops as [|op ops IH]; intros Hok Hget; [done|]. apply Forall_cons in Hok as [(Hb & _) Hok].
  assert (E : f_kind op = FGet) by (specialize (Hget op ltac:(by left)); unfold is_write in Hget; by destruct (f_kind op)).
  cbn [field_steps]. assert (field_step op [] = (Some 0, [])) as ->.
  { unfold field_step. rewrite E. by rewrite get_field_nil by lia. }
  rewrite IH; [done|done|]. intros op' Hin. apply Hget. by right.
Qed.

Lemma field_steps_reads ops l :
  (∀ op, op ∈ ops → is_write op = false) → (field_steps ops l).2 = l.
Proof.
  induction ops as [|op ops IH]; intros Hget; [done|]. cbn [field_steps].
  assert (E : f_kind op = FGet) by (specialize (Hget op ltac:(by left)); unfold is_write in Hget; by destruct (f_kind op)).
  assert (field_step op l = (Some (get_field (f_signed op) (f_bits op) (f_offset op) l), l)) as -> by (unfold field_step; by rewrite E).
  specialize (IH ltac:(intros op' ?; apply Hget; by right)). by destruct (field_steps ops l).
Qed.

Section BitfieldCommand.
Context (H : option (bytes * Z)) (w : world kvmap).
Context (Ha : addr_wf a) (Henv : env_ok w) (Hroom : headroom w) (HH : srepr (w_clock w 0%nat) w H).
Context (Hlim : len (text H) <= 2 ^ 32 * C).

(** Reads only: nothing is created, bits past the end are zeros. *)
Lemma wp_bitfield_reads ops Q :
  Forall op_ok ops → highest_bit ops = None →
  (∀ w', skeeps H w w' → Q (Ok (field_steps ops (bits_of (text H))).1) w') → wp (bitfield st slot key ops) w Q.
Proof.
  intros Hok Hnone HQ. pose proof (highest_bit_spec ops Hok) as Hget. unfold bitfield. rewrite Hnone in *.
  apply (wp_reading H w Henv HH); [done| |].
  { intros E w' Hk. wp_op. apply HQ in Hk. rewrite E in Hk. cbn [text] in Hk.
    change (bits_of []) with (@nil bool) in Hk. by rewrite field_steps_nil in Hk. }
  intros L e s w' E Hs Hk. apply wp_bind. apply HQ in Hk. rewrite E in Hk. cbn [text] in Hk.
  set (t := match s with SInline m => _ | SChunked c => _ end).
  assert (Ht : tholds w' e (is_chunked t) t L).
  { split; [|done]. pose proof (sform_expiry_width _ _ _ _ _ Hs) as Hew. unfold t. destruct s as [sm|c]; cbn [tview].
    - split; [by eapply sform_payload|]. split; [exact (sform_expiry _ _ _ _ _ Hs)|]. split; [done|]. intros _. by eexists.
    - pose proof Hs as (row & h & Hrow & Hh & He & Hty & Hd & Hch & Hby & Hsz & Hv & Hlt & Hr & Hlong).
      constructor; [|done|intros; by exists (SChunked c)]. apply ccore_open; [|done]. by constructor; rewrite ?Hch. }
  apply (wp_fold (λ l r w1, w1 = w' ∧ (∀ op, op ∈ l → op ∈ ops) ∧ tholds w' e (is_chunked t) r.2 L ∧
    r.1 ++ (field_steps l (bits_of L)).1 = (field_steps ops (bits_of L)).1)).
  - by split.
  - intros op l [replies t'] w1 (-> & Hin & Ht' & E1). cbn [fst snd] in *.
    assert (Hop : op ∈ ops) by (apply Hin; by left). rewrite Forall_forall in Hok.
    apply wp_bind. apply (wp_field_read_target e (is_chunked t) w' Ha op t' L); [by apply Hok|done|].
    intros t'' Ht''. wp_op. split; [done|]. split; [intros; apply Hin; by right|]. split; [done|]. cbn [fst snd].
    rewrite <-E1. cbn [field_steps].
    assert (Ek : f_kind op = FGet) by (specialize (Hget op Hop); unfold is_write in Hget; by destruct (f_kind op)).
    assert (field_step op (bits_of L) = (Some (get_field (f_signed op) (f_bits op) (f_offset op) (bits_of L)), bits_of L)) as ->
      by (unfold field_step; by rewrite Ek).
    destruct (field_steps l (bits_of L)) as [rs l']. cbn [fst]. by rewrite <-app_assoc.
  - intros [replies t'] w1 (-> & _ & _ & E1). cbn [fst snd field_steps] in *. rewrite app_nil_r in E1. wp_op. by rewrite E1.
Qed.

(** With a write among the operations: the string is grown to cover every
    write, and the operations run in order on its bits. *)
Lemma wp_bitfield_writes ops h Q :
  Forall op_ok ops → highest_bit ops = Some h → h / 8 + 1 <= 2 ^ 32 * C →
  let L0 := grown (text H) (h / 8 + 1) in
  (∀ w', st_max (ss_base st) < h / 8 + 1 → skeeps H w w' → Q (Err ValueTooLarge) w') →
  (∀ L' w', h / 8 + 1 <= st_max (ss_base st) → len L' = len L0 → bits_of L' = (field_steps ops (bits_of L0)).2 →
     smakes (Some (L', expiry H)) w w' → Q (Ok (field_steps ops (bits_of L0)).1) w') →
  wp (bitfield st slot key ops) w Q.
Proof.
  intros Hok Hh Hfit L0 Hbig HQ. pose proof (highest_bit_spec ops Hok) as Hs. unfold bitfield. rewrite Hh in *.
  destruct Hs as [Hrange Hcover]. rewrite shiftr3. pose proof (Z.div_pos h 8).
  rewrite wrap_id by (unfold in_width; pose proof (Z.div_le_mono h (2 ^ 32) 8); lia).
  destruct (Z.ltb_spec (st_max (ss_base st)) (h / 8 + 1)).
  { apply wp_try. apply (wp_read H); [done..|]. intros o w1 Hr. wp_op. apply Hbig; [done|]. by eapply sread_keeps. }
  apply wp_try. apply (wp_target _ H); [done..|]. intros t w2 He2 Henv2 Ht Hlong.
  pose proof (length_grown (text H) (h / 8 + 1)) as Hl0. fold L0 in Hl0.
  pose proof (Z.div_mod h 8). pose proof (Z.mod_pos_bound h 8).
  apply wp_bind. apply (wp_bitfield_steps (expiry H) (is_chunked t) w2 Ha ops _ L0); [done| | |nia|].
  - split; [by apply tview_grow|apply is_chunked_grow].
  - intros op Hin Hw. specialize (Hcover op Hin Hw). lia.
  - intros t' L' [Ht' Hk'] Hl' Hb'. apply wp_bind.
    apply (wp_close H w Ha t' L' (expiry H) w2 (h / 8 + 1)); [done|done|done|by rewrite Hk'|lia|].
    intros w' Hm. wp_op. eapply HQ; [done|by rewrite Hl'|done|done].
Qed.
End BitfieldCommand.
End Chunks.

(** ** Properties *)

(** A configuration the store runs with: chunks of a sensible size, and an
    inline limit no integer's spelling reaches. *)
Definition store_ok (st : StringStore) : Prop := 1 <= ss_chunk st <= 2 ^ 26 ∧ 21 <= ss_inline_max st.

Definition range_ok (range : option (Z * Z * bool)) : Prop :=
  ∀ start end_ bits, range = Some (start, end_, bits) → in_i64 start ∧ in_i64 end_.

Definition prange_ok (range : option (Z * option Z * bool)) : Prop :=
  ∀ start end_ bits, range = Some (start, end_, bits) → in_i64 start ∧ from_option in_i64 True end_.

(** SET stores exactly the value, with the expiry its option asks for (none,
    the key's own, or the instant given), over a key of any type, inline or in
    chunks; NX and XX are decided by whether a live key is there, and a refused
    or oversized SET leaves a live key's rows as they were. *)
Theorem set_refines st slot key E value opts w :
  let a := mkAddr (st_ns (ss_base st)) slot key in
  store_ok st → addr_wf a → env_ok w → headroom w → present st slot key (w_clock w 0%nat) (w_kv w) E →
  (∀ at_ms, o_expiry opts = EAtMs at_ms → in_width 64 at_ms) → len value <= 2 ^ 32 * ss_chunk st →
  wp (set st slot key value opts) w (λ r w',
    if st_max (ss_base st) <? len value then r = Err ValueTooLarge ∧ w' = w
    else if set_refused opts E then
      r = Ok SetUnchanged ∧ after_read a w w' ∧ (E ≠ None → w_kv w' = w_kv w)
    else r = Ok SetDone ∧ smakes st slot key (Some (value, set_expiry opts E)) w w').
Proof.
  intros a [HC _] Ha Henv Hroom HE Hat Hlen.
  apply (wp_set st slot key HC E); [done..| | |].
  - intros Hlt. by rewrite (proj2 (Z.ltb_lt _ _)).
  - intros w' Hle Href Hafter Hsame. rewrite (proj2 (Z.ltb_ge _ _)) by done. by rewrite Href.
  - intros w' Hle Href Hm. rewrite (proj2 (Z.ltb_ge _ _)) by done. by rewrite Href.
Qed.

(** The string reads answer from the string the key holds, whether it is
    stored inline or in chunks, and leave it as it was: GET, STRLEN, GETRANGE
    with its clamping rules, GETBIT (zero past the end), BITCOUNT over any byte
    or bit range, and BITPOS, the first bit of the value asked for. *)
Theorem string_reads_refine st slot key H w start end_ offset range bit prange :
  let a := mkAddr (st_ns (ss_base st)) slot key in
  store_ok st → addr_wf a → env_ok w → srepr st slot key (w_clock w 0%nat) w H →
  len (text H) <= 2 ^ 32 * ss_chunk st → in_i64 start → in_i64 end_ → in_width 64 offset →
  range_ok range → prange_ok prange →
  wp (get st slot key) w (λ r w', r = Ok (fst <$> H) ∧ skeeps st slot key H w w') ∧
  wp (strlen st slot key) w (λ r w', r = Ok (len (text H)) ∧ skeeps st slot key H w w') ∧
  wp (getrange st slot key start end_) w (λ r w',
    r = Ok (getrange_spec (text H) start end_) ∧ skeeps st slot key H w w') ∧
  wp (getbit st slot key offset) w (λ r w',
    r = Ok (bit_of (text H) (Z.to_nat offset)) ∧ skeeps st slot key H w w') ∧
  wp (bitcount st slot key range) w (λ r w', r = Ok (bitcount_answer H range) ∧ skeeps st slot key H w w') ∧
  wp (bitpos st slot key bit prange) w (λ r w',
    ∃ n, r = Ok n ∧ bitpos_answer H bit prange n ∧ skeeps st slot key H w w').
Proof.
  intros a [HC _] Ha Henv HH Hlim Hs He Ho Hr Hp. split_and!.
  - eapply wp_string_get; eauto.
  - eapply wp_strlen; eauto.
  - eapply wp_getrange; eauto.
  - eapply wp_getbit; eauto.
  - eapply wp_bitcount; eauto.
  - eapply wp_bitpos; eauto.
Qed.

(** C8. The string edits do what they mean to the string and keep its expiry:
    APPEND (when the key does not expire between its two reads), SETRANGE with
    zeros to reach its offset, SETBIT exactly one bit, INCRBY on an integer's
    canonical spelling; GETDEL removes the key, GETEX changes only the expiry.
    INCRBYFLOAT adds to the double the string spells and stores the sum's text.
    What would pass the value cap, is no number or overflows changes nothing. *)
Theorem string_edits_refine st slot key H w suffix offset data boffset on x delta fdelta :
  let a := mkAddr (st_ns (ss_base st)) slot key in
  let max := st_max (ss_base st) in let C := ss_chunk st in let L := text H in
  store_ok st → addr_wf a → env_ok w → headroom w →
  srepr st slot key (w_clock w 0%nat) w H → srepr st slot key (w_clock w 1%nat) w H →
  len L + len suffix <= 2 ^ 32 * C → 0 <= offset → offset + len data <= 2 ^ 32 * C →
  0 <= boffset → boffset / 8 + 1 <= 2 ^ 32 * C → in_width 64 (getex_expiry x 0) →
  wp (append st slot key suffix) w (λ r w',
    if max <? len L + len suffix then r = Err ValueTooLarge ∧ skeeps st slot key H w w'
    else r = Ok (len L + len suffix) ∧ smakes st slot key (Some (L ++ suffix, expiry H)) w w') ∧
  wp (setrange st slot key offset data) w (λ r w',
    if bool_decide (data = []) then r = Ok (len L) ∧ skeeps st slot key H w w'
    else if max <? offset + len data then r = Err ValueTooLarge ∧ skeeps st slot key H w w'
    else r = Ok (Z.max (len L) (offset + len data)) ∧
         smakes st slot key (Some (written L offset data, expiry H)) w w') ∧
  wp (setbit st slot key boffset on) w (λ r w',
    if max <? boffset / 8 + 1 then r = Err ValueTooLarge ∧ skeeps st slot key H w w'
    else r = Ok (bit_of L (Z.to_nat boffset)) ∧ ∃ L', smakes st slot key (Some (L', expiry H)) w w' ∧
         bits_of L' = <[Z.to_nat boffset := on]> (bits_of (grown L (boffset / 8 + 1)))) ∧
  wp (get_del st slot key) w (λ r w', r = Ok (fst <$> H) ∧
    match H with None => skeeps st slot key H w w' | Some _ => smakes st slot key None w w' end) ∧
  wp (getex st slot key x) w (λ r w', r = Ok (fst <$> H) ∧
    match H with None => skeeps st slot key H w w'
      | Some (L, e) => smakes st slot key (Some (L, getex_expiry x e)) w w' end) ∧
  wp (incr_by st slot key delta) w (λ r w', r = incr_answer H delta ∧
    match incr_answer H delta with
    | Ok n => smakes st slot key (Some (i64_to_string n, expiry H)) w w'
    | Err _ => skeeps st slot key H w w'
    end) ∧
  wp (incr_by_float st slot key fdelta) w (float_added st slot key H w fdelta).
Proof.
  intros a max C L [HC Him] Ha Henv Hroom HH HH1 Happ Ho Hset Hbo Hbit Hx.
  subst a max C L. assert (Hlim : len (text H) <= 2 ^ 32 * ss_chunk st) by lia. split_and!.
  - eapply wp_append; eauto; intros w' Hle Hk; destruct (Z.ltb_spec (st_max (ss_base st)) (len (text H) + len suffix)); done || lia.
  - eapply wp_setrange; eauto; intros w' Hd Hrest; [by rewrite bool_decide_true|..]; intros Hk;
      rewrite bool_decide_false by done; destruct (Z.ltb_spec (st_max (ss_base st)) (offset + len data)); done || lia.
  - eapply wp_setbit; eauto.
    + intros w' Hlt Hk. by rewrite (proj2 (Z.ltb_lt _ _)).
    + intros L' w' Hle Hb Hm. rewrite (proj2 (Z.ltb_ge _ _)) by done. split; [done|]. by exists L'.
  - eapply wp_get_del; eauto. intros w' Hn Hs. split; [done|]. destruct H; [by apply Hs|by apply Hn].
  - eapply wp_getex; eauto.
  - eapply wp_incr_by; eauto.
  - eapply wp_incr_by_float; eauto.
Qed.

(** BITFIELD runs its operations in order on the string's bits, each
    reading, setting or incrementing one field under its overflow mode and
    answering as that mode says: with a write among them the string is first
    grown with zeros to cover every write, keeping its expiry; with none nothing
    is created; past the value cap nothing changes. *)
Theorem bitfield_refines st slot key H w ops :
  let a := mkAddr (st_ns (ss_base st)) slot key in
  store_ok st → addr_wf a → env_ok w → headroom w → srepr st slot key (w_clock w 0%nat) w H →
  len (text H) <= 2 ^ 32 * ss_chunk st → Forall op_ok ops →
  wp (bitfield st slot key ops) w (λ r w',
    match highest_bit ops with
    | None => r = Ok (field_steps ops (bits_of (text H))).1 ∧ skeeps st slot key H w w'
    | Some h =>
        let L0 := grown (text H) (h / 8 + 1) in
        if st_max (ss_base st) <? h / 8 + 1 then r = Err ValueTooLarge ∧ skeeps st slot key H w w'
        else r = Ok (field_steps ops (bits_of L0)).1 ∧
             ∃ L', len L' = len L0 ∧ bits_of L' = (field_steps ops (bits_of L0)).2 ∧
                   smakes st slot key (Some (L', expiry H)) w w'
    end).
Proof.
  intros a [HC _] Ha Henv Hroom HH Hlim Hok. subst a.
  pose proof (highest_bit_spec st HC ops Hok) as Hs. destruct (highest_bit ops) as [h|] eqn:Eh.
  - destruct Hs as [Hh _]. assert (h / 8 < 2 ^ 29) by (apply Z.div_lt_upper_bound; lia).
    eapply wp_bitfield_writes; eauto; [lia|..]; cbv zeta.
    + intros w' Hlt Hk. by rewrite (proj2 (Z.ltb_lt _ _)).
    + intros L' w' Hle Hl Hb Hm. rewrite (proj2 (Z.ltb_ge _ _)) by done. split; [done|]. by exists L'.
  - eapply wp_bitfield_reads; eauto.
Qed.

(** C37. APPEND reads the key twice, and the clock with it. A string that
    expires between the two readings is measured by the first and missing to
    the second: the suffix lands after as many zero bytes as the expired string
    was long, with no expiry, where appending to a missing key should store the
    suffix alone. *)
Theorem append_across_the_expiry st slot key L e w suffix :
  let a := mkAddr (st_ns (ss_base st)) slot key in
  store_ok st → addr_wf a → env_ok w → headroom w → sholds st slot key w L e →
  expired_at e (w_clock w 0%nat) = false → expired_at e (w_clock w 1%nat) = true →
  len L + len suffix <= st_max (ss_base st) → len L + len suffix <= 2 ^ 32 * ss_chunk st →
  wp (append st slot key suffix) w (λ r w',
    r = Ok (len L + len suffix) ∧ smakes st slot key (Some (replicate (length L) Byte.x00 ++ suffix, 0)) w w').
Proof.
  intros a [HC Him] Ha Henv Hroom Hs Hex0 Hex1 Hmax Hfit. unfold append. apply wp_try.
  assert (HH : srepr st slot key (w_clock w 0%nat) w (Some (L, e))) by done.
  apply (wp_read st slot key (Some (L, e))); [done..|]. intros o w1 [(s & -> & Hf) He1 Henv1 Hl1 _ Hclk].
  assert (El : stored_len s = len L) by (by eapply sform_len). rewrite El. rewrite wrap_id by (unfold in_width; nia).
  destruct (Z.ltb_spec (st_max (ss_base st)) (len L + len suffix)); [lia|]. apply wp_try.
  apply (wp_target st slot key HC _ None); [done|done|unfold headroom; by rewrite Hl1| |cbn; lia|].
  { cbn. rewrite Hclk. destruct Hf as (row & h & Hrow & Hh & He & _). rewrite Hrow. cbn. rewrite Hh.
    unfold MetaHeader_is_expired. by rewrite He. }
  intros t w2 He2 Henv2 Ht Hlong. apply wp_bind. cbn [text expiry] in *.
  apply (wp_write st slot key HC t (len L) suffix [] 0); [done|done|lia|lia|cbn; lia|].
  intros t' Ht' Hlt Hct. apply wp_bind.
  apply (wp_finish st slot key HC t' (written [] (len L) suffix) 0); [done|done|done| |].
  { rewrite Hct. intros Hc. specialize (Hlong Hc). rewrite length_written by lia. cbn in *. lia. }
  intros w' He3 Hs3. wp_op. split; [done|]. split; [do 2 (eapply effect_trans; [done|]); done|].
  assert (E : written [] (len L) suffix = replicate (length L) Byte.x00 ++ suffix); [|by rewrite <-E].
  unfold written, patch, grown. destruct (Z.ltb_spec (len (@nil Byte.byte)) (len L + len suffix)) as [Hlt'|Hge].
  - unfold resize0. rewrite take_nil, app_nil_l, Nat2Z.id. cbn [length]. rewrite Nat.sub_0_r.
    rewrite drop_ge by (rewrite length_replicate; lia). rewrite app_nil_r. f_equal.
    rewrite take_replicate. f_equal. lia.
  - cbn in Hge. assert (length L = 0%nat ∧ suffix = []) as [-> ->]; [|done]. destruct L, suffix; cbn in Hge; lia || done.
Qed.

(** How a string is stored is invisible: two stores of different chunk
    sizes, inline limits and chunking switches that hold the same string give
    the same answers to GET, STRLEN, GETRANGE, GETBIT and BITCOUNT. *)
Theorem chunking_is_transparent st st' slot key H w w' start end_ offset range :
  let a := mkAddr (st_ns (ss_base st)) slot key in
  store_ok st → store_ok st' → ss_base st' = ss_base st → addr_wf a → env_ok w → env_ok w' →
  srepr st slot key (w_clock w 0%nat) w H → srepr st' slot key (w_clock w' 0%nat) w' H →
  len (text H) <= 2 ^ 32 * ss_chunk st → len (text H) <= 2 ^ 32 * ss_chunk st' →
  in_i64 start → in_i64 end_ → in_width 64 offset → range_ok range →
  fst <$> run (get st slot key) w = fst <$> run (get st' slot key) w' ∧
  fst <$> run (strlen st slot key) w = fst <$> run (strlen st' slot key) w' ∧
  fst <$> run (getrange st slot key start end_) w = fst <$> run (getrange st' slot key start end_) w' ∧
  fst <$> run (getbit st slot key offset) w = fst <$> run (getbit st' slot key offset) w' ∧
  fst <$> run (bitcount st slot key range) w = fst <$> run (bitcount st' slot key range) w'.
Proof.
  intros a [HC _] [HC' _] Hbase Ha Henv Henv' HH HH' Hl Hl' Hs He Ho Hr. subst a.
  assert (Ha' : addr_wf (mkAddr (st_ns (ss_base st')) slot key)) by (by rewrite Hbase).
  assert (Hsame : ∀ A (p p' : prog A) x, wp p w (λ r _, r = x) → wp p' w' (λ r _, r = x) →
    fst <$> run p w = fst <$> run p' w').
  { intros A p p' x (r & ? & E & ->) (r' & ? & E' & ->). by rewrite E, E'. }
  split_and!; eapply Hsame.
  - eapply wp_string_get; eauto.
  - eapply wp_string_get; eauto.
  - eapply wp_strlen; eauto.
  - eapply wp_strlen; eauto.
  - eapply wp_getrange; eauto.
  - eapply wp_getrange; eauto.
  - eapply wp_getbit; eauto.
  - eapply wp_getbit; eauto.
  - eapply wp_bitcount; eauto.
  - eapply wp_bitcount; eauto.
Qed.

(** ** A store to evaluate the properties on *)

Definition demo_strings : StringStore := mkStringStore demo_store true 21 4.

(** One inline string at the demo key, on a clock that may move. *)
Definition demo_text (L : bytes) (e : Z) (ticks : nat → Z) : world kvmap :=
  World (<[mkey demo_addr := StringMeta_encode (StringMeta_new L e 5)]> ∅) ticks 9 (λ _, 0).

Lemma demo_store_ok : store_ok demo_strings.
Proof. by vm_compute. Qed.

Lemma demo_text_holds L e ticks : in_width 64 e → sholds demo_strings 7 (bstr "k") (demo_text L e ticks) L e.
Proof. intros He. by apply (sholds_inline demo_strings 7 (bstr "k") (World ∅ ticks 9 (λ _, 0))). Qed.

Lemma demo_text_env L e ticks : (∀ n, clock_ok (ticks n)) → env_ok (demo_text L e ticks).
Proof.
  intros Hc. constructor; [done|]. apply fresh_meta. intros cf a v f x _ _ _ E. by rewrite lookup_empty in E.
Qed.

Lemma set_refines_witness :
  let opts := mkSetOptions true false EKeep in
  wp (set demo_strings 7 (bstr "k") (bstr "v") opts) (demo_world ∅) (λ r w',
    r = Ok SetDone ∧ smakes demo_strings 7 (bstr "k") (Some (bstr "v", 0)) (demo_world ∅) w').
Proof.
  apply (set_refines demo_strings 7 (bstr "k") None (bstr "v") (mkSetOptions true false EKeep) (demo_world ∅)).
  - apply demo_store_ok.
  - apply demo_addr_wf.
  - apply demo_env_empty.
  - apply demo_headroom.
  - done.
  - done.
  - by vm_compute.
Defined.

Lemma string_reads_refine_witness :
  let w := demo_text (bstr "hello") 0 (λ _, 5) in
  wp (getrange demo_strings 7 (bstr "k") 1 (-2)) w (λ r _, r = Ok (bstr "ell")) ∧
  wp (bitcount demo_strings 7 (bstr "k") None) w (λ r _, r = Ok 21).
Proof.
  intros w.
  destruct (string_reads_refine demo_strings 7 (bstr "k") (Some (bstr "hello", 0)) w 1 (-2) 0 None false None)
    as (_ & _ & Hr & _ & Hb & _).
  - apply demo_store_ok.
  - apply demo_addr_wf.
  - by apply demo_text_env.
  - split; [by apply demo_text_holds|done].
  - by vm_compute.
  - by vm_compute.
  - by vm_compute.
  - by vm_compute.
  - done.
  - done.
  - split; [eapply wp_conseq; [exact Hr|]|eapply wp_conseq; [exact Hb|]]; cbv beta; by intros r w' [-> _].
Defined.

Lemma string_edits_refine_witness :
  let w := demo_text (bstr "41") 0 (λ _, 5) in
  wp (append demo_strings 7 (bstr "k") (bstr "0")) w (λ r w',
    r = Ok 3 ∧ smakes demo_strings 7 (bstr "k") (Some (bstr "410", 0)) w w') ∧
  wp (incr_by demo_strings 7 (bstr "k") 1) w (λ r w',
    r = Ok 42 ∧ smakes demo_strings 7 (bstr "k") (Some (bstr "42", 0)) w w') ∧
  wp (incr_by_float demo_strings 7 (bstr "k") 4602678819172646912) w (λ r w',
    r = Ok (bstr "41.5") ∧ smakes demo_strings 7 (bstr "k") (Some (bstr "41.5", 0)) w w').
Proof.
  intros w.
  destruct (string_edits_refine demo_strings 7 (bstr "k") (Some (bstr "41", 0)) w (bstr "0") 0 [] 0 true EKeep 1
    4602678819172646912)
    as (Happ & _ & _ & _ & _ & Hincr & Hfloat).
  - apply demo_store_ok.
  - apply demo_addr_wf.
  - by apply demo_text_env.
  - done.
  - split; [by apply demo_text_holds|done].
  - split; [by apply demo_text_holds|done].
  - by vm_compute.
  - done.
  - by vm_compute.
  - done.
  - by vm_compute.
  - by vm_compute.
  - split_and!; [exact Happ|exact Hincr|]. eapply wp_conseq; [exact Hfloat|].
    intros r w' [[Er Hm]|[Hlong _]]; [|done].
    assert (E : float_answer (Some (bstr "41", 0)) 4602678819172646912 = Ok (bstr "41.5")) by (by vm_compute).
    rewrite E in Er. subst r. by split.
Defined.

Lemma bitfield_refines_witness :
  let w := demo_text (bstr "a") 0 (λ _, 5) in
  let ops := [mkBitfieldOp false 8 0 (FIncrBy 200 OSat); mkBitfieldOp true 5 100 FGet] in
  wp (bitfield demo_strings 7 (bstr "k") ops) w (λ r w', r = Ok [Some 255; Some 0] ∧
    ∃ L', len L' = 1 ∧ bits_of L' = replicate 8 true ∧ smakes demo_strings 7 (bstr "k") (Some (L', 0)) w w').
Proof.
  intros w ops. pose proof (bitfield_refines demo_strings 7 (bstr "k") (Some (bstr "a", 0)) w ops) as HT.
  cbv zeta in HT. eapply wp_conseq.
  - apply HT.
    + apply demo_store_ok.
    + apply demo_addr_wf.
    + by apply demo_text_env.
    + done.
    + split; [by apply demo_text_holds|done].
    + by vm_compute.
    + repeat constructor; by vm_compute.
  - intros r w' Hr. change (highest_bit ops) with (Some 7) in Hr. cbv beta iota zeta in Hr.
    destruct Hr as (-> & L' & Hl & Hb & Hm). split; [by vm_compute|]. exists L'.
    split; [rewrite Hl; by vm_compute|]. split; [rewrite Hb; by vm_compute|]. exact Hm.
Defined.

Lemma append_across_the_expiry_witness :
  let w := demo_text (bstr "abc") 10 (λ n, if decide (n = 0%nat) then 5 else 20) in
  wp (append demo_strings 7 (bstr "k") (bstr "x")) w (λ r w',
    r = Ok 4 ∧ smakes demo_strings 7 (bstr "k") (Some ([Byte.x00; Byte.x00; Byte.x00] ++ bstr "x", 0)) w w').
Proof.
  apply (append_across_the_expiry demo_strings 7 (bstr "k") (bstr "abc") 10).
  - apply demo_store_ok.
  - apply demo_addr_wf.
  - apply demo_text_env. intros n. case_decide; by vm_compute.
  - by vm_compute.
  - by apply demo_text_holds.
  - done.
  - done.
  - by vm_compute.
  - by vm_compute.
Defined.

Lemma chunking_is_transparent_witness :
  let w := demo_text (bstr "hello") 0 (λ _, 5) in
  fst <$> run (strlen demo_strings 7 (bstr "k")) w =
  fst <$> run (strlen (mkStringStore demo_store false 64 32) 7 (bstr "k")) w.
Proof.
  intros w. apply (chunking_is_transparent demo_strings (mkStringStore demo_store false 64 32) 7 (bstr "k")
    (Some (bstr "hello", 0)) w w 0 0 0 None).
  - apply demo_store_ok.
  - by vm_compute.
  - done.
  - apply demo_addr_wf.
  - by apply demo_text_env.
  - by apply demo_text_env.
  - split; [by apply demo_text_holds|done].
  - split; [|done]. by apply (sholds_inline (mkStringStore demo_store false 64 32) 7 (bstr "k") (World ∅ (λ _, 5) 9 (λ _, 0))).
  - by vm_compute.
  - by vm_compute.
  - by vm_compute.
  - by vm_compute.
  - by vm_compute.
  - done.
Defined.
