(* ===== verification/Hll.v ===== *)
(** * HyperLogLog

    [crates/flint-storage/src/hll.rs]: [PFADD], [PFCOUNT] and [PFMERGE] on
    strings in Redis's own format, a header of sixteen bytes and then 16,384
    six-bit registers, packed, or run-length opcodes while they stay short.
    The registers a string stands for are a list of numbers, the same for both
    forms; every edit of the opcodes is shown to be the edit of the list it
    means. *)

From stdpp Require Import base list gmap strings.
From Stdlib Require Import ZArith Lia SpecFloat.
From Stdlib Require Strings.Byte.
From S2P Require Import Prelude Encoding Kv Store F64 Bits Strings.

(** ** Constants *)

Definition HLL_P : Z := 14.
Definition HLL_Q : Z := 64 - HLL_P.
Definition REGISTERS : Z := 2 ^ HLL_P.
Definition HDR : Z := 16.
Definition REGISTER_MAX : Z := 63.
Definition DENSE_SIZE : Z := HDR + div_ceil (REGISTERS * 6) 8.
Definition DENSE : Z := 0.
Definition SPARSE : Z := 1.
Definition SPARSE_MAX_BYTES : Z := 3000.
Definition VAL_MAX_VALUE : Z := 32.
Definition VAL_MAX_LEN : Z := 4.
Definition ZERO_MAX_LEN : Z := 64.
Definition XZERO_MAX_LEN : Z := 16384.

(** [v[i]], which every use below guards, and [v.get(i).copied().unwrap_or(d)]. *)
Definition at_or (d : Z) (v : bytes) (i : Z) : Z := from_option b2z d (v !! Z.to_nat i).
Definition at_ (v : bytes) (i : Z) : Z := at_or 0 v i.

(** [v[i] = x as u8]. *)
Definition put_at (v : bytes) (i x : Z) : bytes := <[Z.to_nat i := z2b x]> v.

(** ** The hash *)

Definition MURMUR_M : Z := 0xc6a4a7935bd1e995.
Definition MURMUR_R : Z := 47.

Definition murmur_word (h : Z) (w : bytes) : Z :=
  let k := u64 (of_le w * MURMUR_M) in
  let k := Z.lxor k (Z.shiftr k MURMUR_R) in
  u64 (Z.lxor h (u64 (k * MURMUR_M)) * MURMUR_M).

Fixpoint murmur_tail (h : Z) (i : Z) (tail : bytes) : Z :=
  match tail with
  | [] => h
  | b :: tail => murmur_tail (Z.lxor h (Z.shiftl (b2z b) (8 * i))) (i + 1) tail
  end.

(** The words of eight bytes, then the tail. *)
Fixpoint murmur_words (h : Z) (key : bytes) : Z :=
  match key with
  | b0 :: b1 :: b2 :: b3 :: b4 :: b5 :: b6 :: b7 :: key =>
      murmur_words (murmur_word h [b0; b1; b2; b3; b4; b5; b6; b7]) key
  | [] => h
  | tail => u64 (murmur_tail h 0 tail * MURMUR_M)
  end.

Definition murmur64a (key : bytes) (seed : Z) : Z :=
  let h := murmur_words (Z.lxor seed (u64 (len key * MURMUR_M))) key in
  let h := u64 (Z.lxor h (Z.shiftr h MURMUR_R) * MURMUR_M) in
  Z.lxor h (Z.shiftr h MURMUR_R).

Fixpoint pos_trailing_zeros (p : positive) : Z :=
  match p with xO p => 1 + pos_trailing_zeros p | _ => 0 end.

(** [u64::trailing_zeros]. *)
Definition trailing_zeros (x : Z) : Z := match x with Zpos p => pos_trailing_zeros p | _ => 64 end.

Definition pattern (element : bytes) : Z * Z :=
  let hash := murmur64a element 0xadc83b19 in
  let index := Z.land hash (REGISTERS - 1) in
  let rest := Z.lor (Z.shiftr hash HLL_P) (Z.shiftl 1 HLL_Q) in
  (index, trailing_zeros rest + 1).

(** ** Opcodes *)

Definition is_zero (b : Z) : bool := Z.land b 0xc0 =? 0.
Definition is_xzero (b : Z) : bool := Z.land b 0xc0 =? 0x40.
Definition is_val (b : Z) : bool := negb (Z.land b 0x80 =? 0).
Definition zero_len (b : Z) : Z := Z.land b 0x3f + 1.

(** An XZERO's run, from its first byte and its second, or what stands for it. *)
Definition xzero_run (b c : Z) : Z := Z.lor (Z.shiftl (Z.land b 0x3f) 8) c + 1.
Definition xzero_len (v : bytes) (p : Z) (past_end : Z) : Z := xzero_run (at_ v p) (at_or past_end v (p + 1)).

Definition val_value (b : Z) : Z := Z.land (Z.shiftr b 2) 0x1f + 1.
Definition val_len (b : Z) : Z := Z.land b 3 + 1.
Definition val (value n : Z) : Z := Z.lor (Z.lor (Z.shiftl (value - 1) 2) (n - 1)) 0x80.
Definition zero (n : Z) : Z := n - 1.

Definition xzero (n : Z) : bytes :=
  let l := n - 1 in [z2b (Z.lor (Z.shiftr l 8) 0x40); z2b (Z.land l 0xff)].

Definition zeros (n : Z) : bytes := if ZERO_MAX_LEN <? n then xzero n else [z2b (zero n)].

(** ** The header *)

(** The loop of [empty], which runs once. *)
Fixpoint empty_runs (fuel : nat) (left : Z) : bytes :=
  match fuel with
  | O => []
  | S fuel =>
      if 0 <? left
      then let run := Z.min left XZERO_MAX_LEN in xzero run ++ empty_runs fuel (left - run)
      else []
  end.

Definition empty_hll : bytes :=
  bstr "HYLL" ++ [z2b SPARSE; Byte.x00; Byte.x00; Byte.x00] ++ repeat Byte.x00 8 ++ empty_runs 2 REGISTERS.

Definition valid (v : bytes) : bool :=
  (HDR <=? len v) && starts_with v (bstr "HYLL") && (at_ v 4 <=? SPARSE) &&
  (negb (at_ v 4 =? DENSE) || (len v =? DENSE_SIZE)).

Definition invalidate (v : bytes) : bytes := put_at v 15 (Z.lor (at_ v 15) 0x80).

Definition cached (v : bytes) : option Z :=
  if negb (Z.land (at_ v 15) 0x80 =? 0) then None else Some (of_le (take 8 (drop 8 v))).

Definition set_cached (v : bytes) (count : Z) : bytes := take 8 v ++ le_bytes 8 count ++ drop 16 v.

(** [&v[HDR..]]. *)
Definition body (v : bytes) : bytes := drop 16 v.

(** An edit of [&mut v[HDR..]]. *)
Definition with_body (v regs : bytes) : bytes := take 16 v ++ regs.

(** ** Dense registers *)

Definition dense_get (regs : bytes) (i : Z) : Z :=
  let '(byte, fb) := (i * 6 / 8, Z.land (i * 6) 7) in
  let b0 := at_ regs byte in
  let b1 := at_or 0 regs (byte + 1) in
  Z.land (Z.lor (Z.shiftr b0 fb) (Z.shiftl b1 (8 - fb))) REGISTER_MAX.

Definition dense_put (regs : bytes) (i value : Z) : bytes :=
  let '(byte, fb) := (i * 6 / 8, Z.land (i * 6) 7) in
  let regs := put_at regs byte (Z.lor (Z.land (at_ regs byte) (not8 (u8 (Z.shiftl REGISTER_MAX fb))))
                                  (u8 (Z.shiftl value fb))) in
  if byte + 1 <? len regs then
    put_at regs (byte + 1) (Z.lor (Z.land (at_ regs (byte + 1)) (not8 (u8 (Z.shiftr REGISTER_MAX (8 - fb)))))
                              (u8 (Z.shiftr value (8 - fb))))
  else regs.

Definition dense_set (regs : bytes) (i count : Z) : bytes * bool :=
  if dense_get regs i <? count then (dense_put regs i count, true) else (regs, false).

(** ** Sparse runs *)

Fixpoint put_run (run : nat) (regs : bytes) (idx value : Z) : bytes :=
  match run with O => regs | S run => put_run run (dense_put regs idx value) (idx + 1) value end.

(** The loop of [to_dense] from position [p] on, [l] being the bytes there. *)
Fixpoint to_dense_loop (past_end : Z) (l : bytes) (idx : Z) (regs : bytes) : option (Z * bytes) :=
  match l with
  | [] => Some (idx, regs)
  | x :: l' =>
      let b := b2z x in
      if is_zero b then to_dense_loop past_end l' (idx + zero_len b) regs
      else if is_xzero b then
        match l' with
        | [] => Some (idx + xzero_run b past_end, regs)
        | c :: l' => to_dense_loop past_end l' (idx + xzero_run b (b2z c)) regs
        end
      else
        let '(run, value) := (val_len b, val_value b) in
        if REGISTERS <? run + idx then None
        else to_dense_loop past_end l' (idx + run) (put_run (Z.to_nat run) regs idx value)
  end.

(** [None] is [Corrupt]. *)
Definition to_dense (v : bytes) (past_end : Z) : option bytes :=
  if at_ v 4 =? DENSE then Some v
  else
    '(idx, regs) ← to_dense_loop past_end (body v) 0 (repeat Byte.x00 (Z.to_nat (DENSE_SIZE - HDR)));
    if idx =? REGISTERS then Some (put_at (take 16 v) 4 DENSE ++ regs) else None.

Definition promote (v : bytes) (index count past_end : Z) : option (bytes * bool) :=
  v ← to_dense v past_end;
  let '(regs, rose) := dense_set (body v) index count in
  Some (with_body v regs, rose).

(** The opcode covering a register: its position, its first register, its
    span, and the opcode before it. *)
Record cover := mkCover { cv_p : Z; cv_first : Z; cv_span : Z; cv_prev : option Z }.

(** The loop that finds it, from position [cv_p c] on, [l] being the bytes there. *)
Fixpoint find_op (past_end index : Z) (l : bytes) (c : cover) : cover :=
  match l with
  | [] => c
  | x :: l' =>
      let b := b2z x in
      let step span oplen (rest : cover → cover) :=
        if index <? cv_first c + span then mkCover (cv_p c) (cv_first c) span (cv_prev c)
        else rest (mkCover (cv_p c + oplen) (cv_first c + span) span (Some (cv_p c))) in
      if is_zero b then step (zero_len b) 1 (find_op past_end index l')
      else if is_val b then step (val_len b) 1 (find_op past_end index l')
      else
        match l' with
        | [] => step (xzero_run b past_end) 2 (λ c, c)
        | y :: l' => step (xzero_run b (b2z y)) 2 (find_op past_end index l')
        end
  end.

Fixpoint merge_scan (scan : nat) (v : bytes) (p past_end : Z) : bytes * Z :=
  match scan with
  | O => (v, past_end)
  | S scan =>
      if p <? len v then
        let b := at_ v p in
        if is_xzero b then merge_scan scan v (p + 2) past_end
        else if is_zero b then merge_scan scan v (p + 1) past_end
        else
          let '(value, n) := (val_value b, val_len b + val_len (at_ v (p + 1))) in
          if (p + 1 <? len v) && is_val (at_ v (p + 1)) &&
             (value =? val_value (at_ v (p + 1))) && (n <=? VAL_MAX_LEN)
          then
            merge_scan scan (delete (Z.to_nat p) (put_at v (p + 1) (val value n))) p 0
          else merge_scan scan v (p + 1) past_end
      else (v, past_end)
  end.

Definition merge_values (v : bytes) (from past_end : Z) : bytes * Z := merge_scan 5 v from past_end.

(** What a set of a sparse register leaves: the bytes, whether the register
    rose, and the byte past the end. *)
Definition set_result : Type := bytes * bool * Z.

Definition merged_at (v : bytes) (prev : option Z) (past_end : Z) : set_result :=
  let '(v, past_end) := merge_values v (default HDR prev) past_end in
  (invalidate v, true, past_end).

(** The run split around the register. *)
Definition split_run (zero_op : bool) (current index first last_ count : Z) : bytes :=
  if zero_op then
    (if negb (index =? first) then zeros (index - first) else []) ++ [z2b (val count 1)] ++
    (if negb (index =? last_) then zeros (last_ - index) else [])
  else
    (if negb (index =? first) then [z2b (val current (index - first))] else []) ++ [z2b (val count 1)] ++
    (if negb (index =? last_) then [z2b (val current (last_ - index))] else []).

Definition splice (v : bytes) (p oldlen : Z) (seq : bytes) (past_end : Z) : bytes * Z :=
  if p + oldlen <=? len v
  then (take (Z.to_nat p) v ++ seq ++ drop (Z.to_nat (p + oldlen)) v, 0)
  else
    (take (Z.to_nat (len v + len seq - oldlen)) (take (Z.to_nat p) v ++ seq),
     match last seq with Some b => b2z b | None => 0 end).

Definition sparse_set (v : bytes) (index count past_end : Z) : option set_result :=
  if VAL_MAX_VALUE <? count then
    '(v, rose) ← promote v index count past_end; Some (v, rose, past_end)
  else
    let c := find_op past_end index (body v) (mkCover HDR 0 0 None) in
    let p := cv_p c in
    if (cv_span c =? 0) || (len v <=? p) then None
    else
      let b := at_ v p in
      let '(op_zero, op_xzero) := (is_zero b, is_xzero b) in
      let runlen := cv_span c in
      if negb op_zero && negb op_xzero && (count <=? val_value b) then Some (v, false, past_end)
      else if negb op_xzero && (runlen =? 1) then
        Some (merged_at (put_at v p (val count 1)) (cv_prev c) past_end)
      else
        let last_ := cv_first c + cv_span c - 1 in
        let seq := split_run (op_zero || op_xzero) (val_value b) index (cv_first c) last_ count in
        let oldlen := if op_xzero then 2 else 1 in
        if (oldlen <? len seq) && (SPARSE_MAX_BYTES <? len v + (len seq - oldlen)) then
          '(v, rose) ← promote v index count past_end; Some (v, rose, past_end)
        else
          let '(v, past_end) := splice v p oldlen seq past_end in
          Some (merged_at v (cv_prev c) past_end).

Definition hll_add (v element : bytes) (past_end : Z) : option set_result :=
  let '(index, count) := pattern element in
  if at_ v 4 =? DENSE then
    let '(regs, rose) := dense_set (body v) index count in
    Some (with_body v regs, rose, past_end)
  else if at_ v 4 =? SPARSE then sparse_set v index count past_end
  else None.

(** Each register's maximum with its own run. *)
Definition raise (max : list Z) (i value : Z) : list Z := alter (Z.max value) (Z.to_nat i) max.

Fixpoint raise_run (run : nat) (max : list Z) (i value : Z) : list Z :=
  match run with O => max | S run => raise_run run (raise max i value) (i + 1) value end.

Fixpoint merge_loop (l : bytes) (i : Z) (max : list Z) : option (Z * list Z) :=
  match l with
  | [] => Some (i, max)
  | x :: l' =>
      let b := b2z x in
      if is_zero b then merge_loop l' (i + zero_len b) max
      else if is_xzero b then
        match l' with
        | [] => Some (i + xzero_run b 0, max)
        | c :: l' => merge_loop l' (i + xzero_run b (b2z c)) max
        end
      else
        let '(run, value) := (val_len b, val_value b) in
        if REGISTERS <? run + i then None
        else merge_loop l' (i + run) (raise_run (Z.to_nat run) max i value)
  end.

Definition merge_into (max : list Z) (v : bytes) : option (list Z) :=
  if at_ v 4 =? DENSE then Some (imap (λ i m, Z.max m (dense_get (body v) (Z.of_nat i))) max)
  else
    '(i, max) ← merge_loop (body v) 0 max;
    if i =? REGISTERS then Some max else None.

(** ** The histogram *)

Definition no_counts : list Z := repeat 0 64.

(** [h[i] += n], at 32 bits. *)
Definition count_in (h : list Z) (i n : Z) : list Z := alter (λ c, u32 (c + n)) (Z.to_nat i) h.

Fixpoint hist_loop (l : bytes) (idx : Z) (h : list Z) : Z * list Z :=
  match l with
  | [] => (idx, h)
  | x :: l' =>
      let b := b2z x in
      if is_zero b then hist_loop l' (idx + zero_len b) (count_in h 0 (u32 (zero_len b)))
      else if is_xzero b then
        match l' with
        | [] => let run := xzero_run b 0 in (idx + run, count_in h 0 (u32 run))
        | c :: l' => let run := xzero_run b (b2z c) in hist_loop l' (idx + run) (count_in h 0 (u32 run))
        end
      else hist_loop l' (idx + val_len b) (count_in h (val_value b) (u32 (val_len b)))
  end.

Definition histogram (v : bytes) : option (list Z) :=
  if at_ v 4 =? DENSE then
    Some (foldl (λ h i, count_in h (dense_get (body v) i) 1) no_counts (seqZ 0 REGISTERS))
  else
    let '(idx, h) := hist_loop (body v) 0 no_counts in
    if idx =? REGISTERS then Some h else None.

Definition raw_histogram (max : list Z) : list Z :=
  foldl (λ h r, count_in h (Z.land r 63) 1) no_counts max.

(** ** The estimate *)

Notation fmul := (SFmul 53 1024).
Notation fadd := (SFadd 53 1024).
Notation fsub := (SFsub 53 1024).
Notation fdiv := (SFdiv 53 1024).
Notation fsqrt := (SFsqrt 53 1024).

(** The double nearest an integer. *)
Definition f_of (n : Z) : spec_float := binary_normalize 53 1024 n 0 false.
Definition f_half : spec_float := fdiv (f_of 1) (f_of 2).
Definition ALPHA_INF : spec_float := round_decimal false 7213475204444817 (-16).

(** The loops of [sigma] and [tau]; [None] is out of fuel. *)
Fixpoint sigma_loop (fuel : nat) (x y z : spec_float) : option spec_float :=
  match fuel with
  | O => None
  | S fuel =>
      let x := fmul x x in
      let before := z in
      let z := fadd z (fmul x y) in
      let y := fadd y y in
      if SFeqb before z then Some z else sigma_loop fuel x y z
  end.

Definition sigma (fuel : nat) (x : spec_float) : option spec_float :=
  if SFeqb x (f_of 1) then Some (S754_infinity false) else sigma_loop fuel x (f_of 1) x.

Fixpoint tau_loop (fuel : nat) (x y z : spec_float) : option spec_float :=
  match fuel with
  | O => None
  | S fuel =>
      let x := fsqrt x in
      let before := z in
      let y := fmul y f_half in
      let d := fsub (f_of 1) x in
      let z := fsub z (fmul (fmul d d) y) in
      if SFeqb before z then Some (fdiv z (f_of 3)) else tau_loop fuel x y z
  end.

Definition tau (fuel : nat) (x : spec_float) : option spec_float :=
  if SFeqb x (S754_zero false) || SFeqb x (f_of 1) then Some (S754_zero false)
  else tau_loop fuel x (f_of 1) (fsub (f_of 1) x).

(** [f64::round], then the count: what is not finite or reaches 2^63 counts as
    that, and a cast saturates at zero. *)
Definition rounded_count (f : spec_float) : Z :=
  match f with
  | S754_zero _ => 0
  | S754_finite true _ _ => 0
  | S754_finite false m e =>
      let n := if 0 <=? e then Zpos m * 2 ^ e else (Zpos m + 2 ^ (- e - 1)) / 2 ^ (- e) in
      if n <? 2 ^ 63 then n else 2 ^ 63
  | _ => 2 ^ 63
  end.

Definition count_of (h : list Z) (i : Z) : Z := default 0 (h !! Z.to_nat i).

Definition estimate (fuel : nat) (h : list Z) : option Z :=
  let m := f_of REGISTERS in
  t ← tau fuel (fdiv (fsub m (f_of (count_of h (HLL_Q + 1)))) m);
  let z := foldl (λ z n, fmul (fadd z (f_of n)) f_half) (fmul m t) (rev (take (Z.to_nat HLL_Q) (drop 1 h))) in
  s ← sigma fuel (fdiv (f_of (count_of h 0)) m);
  let z := fadd z (fmul m s) in
  Some (rounded_count (fdiv (fmul (fmul ALPHA_INF m) m) z)).

(** ** The store's operations *)

Section Store.
Context (st : StringStore) (slot : Z).

Definition hll_at (key : bytes) : prog (result (option (bytes * Z))) :=
  found <-? value_and_expiry st slot key ;;
  match found with
  | Some (v, _) => if negb (valid v) then Ret (Err NotHll) else Ret (Ok found)
  | None => Ret (Ok found)
  end.

Definition put_hll (key v : bytes) (expire_ms : Z) : prog (result unit) :=
  if st_max (ss_base st) <? len v then Ret (Err ValueTooLarge)
  else store_value st slot key v expire_ms ;;; Ret (Ok tt).

(** [for e in elements { updated |= add(...)?; }]. *)
Fixpoint add_all (v : bytes) (updated : bool) (past_end : Z) (elements : list bytes) : option (bytes * bool) :=
  match elements with
  | [] => Some (v, updated)
  | e :: elements =>
      '(v, rose, past_end) ← hll_add v e past_end;
      add_all v (updated || rose) past_end elements
  end.

Definition pfadd (key : bytes) (elements : list bytes) : prog (result bool) :=
  found <-? hll_at key ;;
  let '(v, expire_ms, updated) :=
    match found with Some (v, expire_ms) => (v, expire_ms, false) | None => (empty_hll, 0, true) end in
  match add_all v updated 0 elements with
  | None => Ret (Err CorruptHll)
  | Some (v, updated) =>
      if (updated : bool) then _ <-? put_hll key (invalidate v) expire_ms ;; Ret (Ok updated)
      else Ret (Ok updated)
  end.

(** The loops over several keys: [max], raised by each key's registers, and
    whether one of them is dense. *)
Fixpoint merge_keys (keys : list bytes) (max : list Z) (dense : bool) : prog (result (list Z * bool)) :=
  match keys with
  | [] => Ret (Ok (max, dense))
  | key :: keys =>
      found <-? hll_at key ;;
      match found with
      | None => merge_keys keys max dense
      | Some (v, _) =>
          match merge_into max v with
          | None => Ret (Err CorruptHll)
          | Some max => merge_keys keys max (dense || (at_ v 4 =? DENSE))
          end
      end
  end.

Definition no_registers : list Z := repeat 0 (Z.to_nat REGISTERS).

Definition pfcount (fuel : nat) (keys : list bytes) : prog (result Z) :=
  match keys with
  | [key] =>
      found <-? hll_at key ;;
      match found with
      | None => Ret (Ok 0)
      | Some (v, expire_ms) =>
          match cached v with
          | Some n => Ret (Ok n)
          | None =>
              match histogram v with
              | None => Ret (Err CorruptHll)
              | Some h =>
                  n <- unwrap (estimate fuel h) ;;
                  _ <-? put_hll key (set_cached v n) expire_ms ;;
                  Ret (Ok n)
              end
          end
      end
  | _ =>
      merged <-? merge_keys keys no_registers false ;;
      n <- unwrap (estimate fuel (raw_histogram merged.1)) ;;
      Ret (Ok n)
  end.

(** One register of the merged values, raised in the target; an error is left. *)
Definition raise_target (acc : bytes * Z) (i m : Z) : bytes * Z :=
  let '(v, past_end) := acc in
  if m =? 0 then acc
  else if at_ v 4 =? DENSE then (with_body v (dense_set (body v) i m).1, past_end)
  else match sparse_set v i m past_end with Some (v, _, past_end) => (v, past_end) | None => acc end.

Fixpoint raise_all (acc : bytes * Z) (i : Z) (max : list Z) : bytes * Z :=
  match max with [] => acc | m :: max => raise_all (raise_target acc i m) (i + 1) max end.

Definition pfmerge (dst : bytes) (sources : list bytes) : prog (result unit) :=
  target <-? hll_at dst ;;
  match (match target with
         | Some (v, _) => (λ max, (max, at_ v 4 =? DENSE)) <$> merge_into no_registers v
         | None => Some (no_registers, false)
         end) with
  | None => Ret (Err CorruptHll)
  | Some (max, dense) =>
      merged <-? merge_keys sources max dense ;;
      let '(max, dense) := merged in
      let '(v, expire_ms) := default (empty_hll, 0) target in
      match (if (dense : bool) then to_dense v 0 else Some v) with
      | None => Ret (Err CorruptHll)
      | Some v => put_hll dst (invalidate (raise_all (v, 0) 0 max).1) expire_ms
      end
  end.

End Store.

(** ** What the bytes stand for *)

(** A run-length opcode. *)
Inductive op := OZero (n : Z) | OXZero (n : Z) | OVal (value n : Z).

Definition op_fits (o : op) : Prop :=
  match o with
  | OZero n => 1 <= n <= ZERO_MAX_LEN
  | OXZero n => 1 <= n <= XZERO_MAX_LEN
  | OVal value n => 1 <= value <= VAL_MAX_VALUE ∧ 1 <= n <= VAL_MAX_LEN
  end.

Definition op_bytes (o : op) : bytes :=
  match o with OZero n => [z2b (zero n)] | OXZero n => xzero n | OVal value n => [z2b (val value n)] end.

Definition op_run (o : op) : Z := match o with OZero n | OXZero n | OVal _ n => n end.
Definition op_value (o : op) : Z := match o with OVal value _ => value | _ => 0 end.
Definition op_regs (o : op) : list Z := repeat (op_value o) (Z.to_nat (op_run o)).

Definition code (ops : list op) : bytes := ops ≫= op_bytes.
Definition spread (ops : list op) : list Z := ops ≫= op_regs.

Lemma lookup_repeat {A} (x : A) n i : (i < n)%nat → repeat x n !! i = Some x.
Proof. revert i. induction n as [|n IH]; intros [|i] Hi; cbn; [lia|lia|done|apply IH; lia]. Qed.

Lemma check_range (P : Z → bool) lo n x : forallb P (seqZ lo n) = true → lo <= x < lo + n → P x = true.
Proof. intros H Hx. rewrite forallb_forall in H. apply H, list_elem_of_In, elem_of_seqZ. lia. Qed.

Lemma zero_reads n : 1 <= n <= ZERO_MAX_LEN →
  b2z (z2b (zero n)) = zero n ∧ is_zero (zero n) = true ∧ zero_len (zero n) = n.
Proof.
  intros Hn. assert (forallb (λ n, (b2z (z2b (zero n)) =? zero n) && is_zero (zero n) && (zero_len (zero n) =? n))
    (seqZ 1 64) = true) as H by (vm_compute; reflexivity).
  apply check_range with (x := n) in H; [|unfold ZERO_MAX_LEN in Hn; lia].
  rewrite !andb_true_iff in H. destruct H as [[?%Z.eqb_eq ?] ?%Z.eqb_eq]. done.
Qed.

Lemma val_reads value n : 1 <= value <= VAL_MAX_VALUE → 1 <= n <= VAL_MAX_LEN →
  b2z (z2b (val value n)) = val value n ∧ is_zero (val value n) = false ∧ is_xzero (val value n) = false ∧
  is_val (val value n) = true ∧ val_value (val value n) = value ∧ val_len (val value n) = n.
Proof.
  intros Hv Hn. assert (forallb (λ value, forallb (λ n,
    (b2z (z2b (val value n)) =? val value n) && negb (is_zero (val value n)) && negb (is_xzero (val value n)) &&
    is_val (val value n) && (val_value (val value n) =? value) && (val_len (val value n) =? n))
    (seqZ 1 4)) (seqZ 1 32) = true) as H by (vm_compute; reflexivity).
  unfold VAL_MAX_VALUE, VAL_MAX_LEN in *.
  apply check_range with (x := value) in H; [|lia]. apply check_range with (x := n) in H; [|lia].
  rewrite !andb_true_iff, !negb_true_iff, !Z.eqb_eq in H. tauto.
Qed.

Lemma xzero_reads n : 1 <= n <= XZERO_MAX_LEN → ∃ b c, xzero n = [b; c] ∧
  is_zero (b2z b) = false ∧ is_xzero (b2z b) = true ∧ is_val (b2z b) = false ∧ xzero_run (b2z b) (b2z c) = n.
Proof.
  intros Hn. unfold xzero. eexists _, _. split; [reflexivity|]. set (l := n - 1).
  assert (0 <= l < 16384) as Hl by (unfold XZERO_MAX_LEN in Hn; lia).
  assert (0 <= Z.shiftr l 8 < 64) as Hh.
  { rewrite Z.shiftr_div_pow2 by lia. split; [apply Z.div_pos; lia|apply Z.div_lt_upper_bound; lia]. }
  assert (forallb (λ h, (b2z (z2b (Z.lor h 64)) =? Z.lor h 64) && negb (is_zero (Z.lor h 64)) &&
    is_xzero (Z.lor h 64) && negb (is_val (Z.lor h 64)) && (Z.land (Z.lor h 64) 0x3f =? h)) (seqZ 0 64) = true)
    as H by (vm_compute; reflexivity).
  apply check_range with (x := Z.shiftr l 8) in H; [|lia].
  rewrite !andb_true_iff, !negb_true_iff, !Z.eqb_eq in H. destruct H as ((((-> & ?) & ?) & ?) & Hm).
  split_and!; [done..|]. unfold xzero_run. rewrite Hm, b2z_z2b.
  change 255 with (Z.ones 8). rewrite <-Z.land_ones, <-Z.land_assoc, Z.land_diag by lia.
  replace n with (l + 1) by (unfold l; lia). f_equal.
  apply Z.bits_inj'. intros k Hk. rewrite Z.lor_spec, Z.land_spec, Z.shiftl_spec by lia.
  destruct (Z.ltb_spec k 8).
  - rewrite Z.testbit_neg_r, Z.ones_spec_low by lia. by rewrite andb_true_r.
  - rewrite Z.shiftr_spec, Z.ones_spec_high by lia. rewrite andb_false_r, orb_false_r. f_equal. lia.
Qed.

(** *** Runs *)

Lemma length_op_regs o : op_fits o → len (op_regs o) = op_run o.
Proof. intros. unfold op_regs. rewrite repeat_length. destruct o; cbn in *; lia. Qed.

Lemma op_run_pos o : op_fits o → 1 <= op_run o.
Proof. destruct o; cbn; lia. Qed.

Lemma code_cons o ops : code (o :: ops) = op_bytes o ++ code ops.
Proof. done. Qed.

Lemma code_app ops ops' : code (ops ++ ops') = code ops ++ code ops'.
Proof. unfold code. by rewrite bind_app. Qed.

Lemma spread_cons o ops : spread (o :: ops) = op_regs o ++ spread ops.
Proof. done. Qed.

Lemma spread_app ops ops' : spread (ops ++ ops') = spread ops ++ spread ops'.
Proof. unfold spread. by rewrite bind_app. Qed.

(** A loop over the bytes is a loop over the opcodes. *)
Lemma to_dense_loop_op pe o ops idx regs : op_fits o →
  to_dense_loop pe (code (o :: ops)) idx regs =
  match o with
  | OVal value n =>
      if REGISTERS <? n + idx then None
      else to_dense_loop pe (code ops) (idx + n) (put_run (Z.to_nat n) regs idx value)
  | _ => to_dense_loop pe (code ops) (idx + op_run o) regs
  end.
Proof.
  rewrite code_cons. destruct o as [n|n|value n]; cbn [op_fits op_bytes app to_dense_loop op_run].
  - intros (-> & -> & ->)%zero_reads. done.
  - intros (b & c & -> & Hz & Hx & _ & E)%xzero_reads. cbn [app to_dense_loop]. by rewrite Hz, Hx, E.
  - intros [Hv Hn]. destruct (val_reads value n Hv Hn) as (-> & -> & -> & _ & -> & ->). done.
Qed.

Lemma merge_loop_op o ops i max : op_fits o →
  merge_loop (code (o :: ops)) i max =
  match o with
  | OVal value n =>
      if REGISTERS <? n + i then None else merge_loop (code ops) (i + n) (raise_run (Z.to_nat n) max i value)
  | _ => merge_loop (code ops) (i + op_run o) max
  end.
Proof.
  rewrite code_cons. destruct o as [n|n|value n]; cbn [op_fits op_bytes app merge_loop op_run].
  - intros (-> & -> & ->)%zero_reads. done.
  - intros (b & c & -> & Hz & Hx & _ & E)%xzero_reads. cbn [app merge_loop]. by rewrite Hz, Hx, E.
  - intros [Hv Hn]. destruct (val_reads value n Hv Hn) as (-> & -> & -> & _ & -> & ->). done.
Qed.

Lemma hist_loop_op o ops idx h : op_fits o →
  hist_loop (code (o :: ops)) idx h = hist_loop (code ops) (idx + op_run o) (count_in h (op_value o) (u32 (op_run o))).
Proof.
  rewrite code_cons. destruct o as [n|n|value n]; cbn [op_fits op_bytes app hist_loop op_run op_value].
  - intros (-> & -> & ->)%zero_reads. done.
  - intros (b & c & -> & Hz & Hx & _ & E)%xzero_reads. cbn [app hist_loop]. by rewrite Hz, Hx, E.
  - intros [Hv Hn]. destruct (val_reads value n Hv Hn) as (-> & -> & -> & _ & -> & ->). done.
Qed.

(** The walk to the opcode covering register [index], over the opcodes. *)
Definition op_len (o : op) : Z := len (op_bytes o).

Lemma find_op_op pe index o ops c : op_fits o →
  find_op pe index (code (o :: ops)) c =
  if index <? cv_first c + op_run o then mkCover (cv_p c) (cv_first c) (op_run o) (cv_prev c)
  else find_op pe index (code ops) (mkCover (cv_p c + op_len o) (cv_first c + op_run o) (op_run o) (Some (cv_p c))).
Proof.
  rewrite code_cons. destruct o as [n|n|value n]; cbn [op_fits op_bytes app find_op op_run op_len].
  - intros (-> & -> & ->)%zero_reads. done.
  - intros (b & c' & E & Hz & _ & Hx & Er)%xzero_reads. unfold op_len; cbn [op_bytes]. rewrite E. cbn [app find_op].
    by rewrite Hz, Hx, Er.
  - intros [Hv Hn]. destruct (val_reads value n Hv Hn) as (-> & -> & _ & -> & _ & ->). done.
Qed.

Lemma find_op_spec pe index ops c :
  Forall op_fits ops → cv_first c <= index < cv_first c + len (spread ops) →
  ∃ pre o post first, ops = pre ++ o :: post ∧ first = cv_first c + len (spread pre) ∧
    first <= index < first + op_run o ∧
    find_op pe index (code ops) c = mkCover (cv_p c + len (code pre)) first (op_run o)
      (match last pre with None => cv_prev c | Some o' => Some (cv_p c + len (code pre) - op_len o') end).
Proof.
  intros Hf. revert c. induction Hf as [|o ops Ho Hf IH]; intros c Hi; [cbn in Hi; lia|].
  rewrite find_op_op by done. destruct (Z.ltb_spec index (cv_first c + op_run o)) as [Hlt|Hge].
  - exists [], o, ops, (cv_first c). cbn [app code spread length last mbind list_bind cv_p].
    change (Z.of_nat 0) with 0. rewrite !Z.add_0_r. split_and!; [done|done|lia|lia|done].
  - rewrite spread_cons, length_app, Nat2Z.inj_add, length_op_regs in Hi by done.
    edestruct IH as (pre & o' & post & first & -> & -> & Hi' & ->); [cbn [cv_first]; lia|]. cbn [cv_first cv_p cv_prev] in *.
    exists (o :: pre), o', post, (cv_first c + len (spread (o :: pre))).
    rewrite code_cons, spread_cons, !length_app, !Nat2Z.inj_add, length_op_regs by done. fold (op_len o).
    split_and!; [done|done|lia|lia|]. f_equal; [lia|lia|]. destruct pre as [|o1 pre]; cbn [last length].
    + cbn. f_equal. lia.
    + destruct (last (o1 :: pre)) eqn:E; [f_equal; lia|]. apply last_None in E. done.
Qed.

(** *** Merging neighbours *)

Lemma at_app_r (h l : bytes) i : 0 <= i → at_ (h ++ l) (len h + i) = at_ l i.
Proof.
  intros. unfold at_, at_or. f_equal. rewrite lookup_app_r by lia. f_equal. lia.
Qed.

Lemma op_head o : op_fits o → ∃ b l, op_bytes o = b :: l ∧
  match o with
  | OZero n => is_zero (b2z b) = true ∧ is_xzero (b2z b) = false ∧ is_val (b2z b) = false
  | OXZero n => is_zero (b2z b) = false ∧ is_xzero (b2z b) = true ∧ is_val (b2z b) = false
  | OVal x n => is_zero (b2z b) = false ∧ is_xzero (b2z b) = false ∧ is_val (b2z b) = true ∧
      val_value (b2z b) = x ∧ val_len (b2z b) = n
  end.
Proof.
  destruct o as [n|n|x n]; cbn [op_fits op_bytes].
  - intros Hn. eexists _, _. split; [done|].
    assert (forallb (λ n, let b := b2z (z2b (zero n)) in is_zero b && negb (is_xzero b) && negb (is_val b)) (seqZ 1 64) = true)
      as H by (vm_compute; reflexivity).
    apply check_range with (x := n) in H; [|unfold ZERO_MAX_LEN in Hn; lia].
    cbn zeta in H. rewrite !andb_true_iff, !negb_true_iff in H. tauto.
  - intros (b & c & -> & ? & ? & ? & _)%xzero_reads. eexists _, _. split; [done|]. done.
  - intros [Hx Hn]. destruct (val_reads x n Hx Hn) as (E & ? & ? & ? & ? & ?). eexists _, _. split; [done|].
    by rewrite E.
Qed.

Lemma op_len_eq o : op_fits o → op_len o = match o with OXZero _ => 2 | _ => 1 end.
Proof. by destruct o. Qed.

Lemma op_regs_merge x n n' : 1 <= n → 1 <= n' → op_regs (OVal x n) ++ op_regs (OVal x n') = op_regs (OVal x (n + n')).
Proof. intros. unfold op_regs; cbn [op_value op_run]. rewrite <-repeat_app. f_equal. lia. Qed.

Lemma drop_one (h : bytes) b b' l y :
  delete (Z.to_nat (len h)) (put_at (h ++ b :: b' :: l) (len h + 1) y) = h ++ z2b y :: l.
Proof.
  unfold put_at. rewrite insert_app_r_alt by lia. replace (Z.to_nat (len h + 1) - length h)%nat with 1%nat by lia.
  cbn. rewrite delete_take_drop, Nat2Z.id, take_app_length, drop_app_ge by lia.
  by replace (S (length h) - length h)%nat with 1%nat by lia.
Qed.

Lemma merge_scan_spec scan h ops pe : Forall op_fits ops →
  ∃ ops' pe', merge_scan scan (h ++ code ops) (len h) pe = (h ++ code ops', pe') ∧
    Forall op_fits ops' ∧ spread ops' = spread ops ∧ len (code ops') <= len (code ops).
Proof.
  revert h ops pe. induction scan as [|scan IH]; intros h ops pe Hf; [by exists ops, pe|]. cbn [merge_scan].
  destruct Hf as [|o ops Ho Hf].
  { exists [], pe. rewrite length_app. cbn [code mbind list_bind length].
    destruct (Z.ltb_spec (len h) (Z.of_nat (length h + 0))) as [?|?]; [lia|]. done. }
  assert (∀ n, n = op_len o → ∃ ops' pe', merge_scan scan (h ++ code (o :: ops)) (len h + n) pe = (h ++ code ops', pe') ∧
    Forall op_fits ops' ∧ spread ops' = spread (o :: ops) ∧ len (code ops') <= len (code (o :: ops))) as Hstep.
  { intros n ->. destruct (IH (h ++ op_bytes o) ops pe Hf) as (ops' & pe' & E & Hf' & Es & El).
    rewrite <-!app_assoc, length_app, Nat2Z.inj_add in E. exists (o :: ops'), pe'.
    rewrite !code_cons, !spread_cons, Es, !length_app. split_and!; [done|by constructor|done|lia]. }
  destruct (op_head o Ho) as (b & l & Eb & Hb).
  assert (at_ (h ++ code (o :: ops)) (len h) = b2z b) as Ea.
  { rewrite <-(Z.add_0_r (len h)), at_app_r, code_cons, Eb by lia. done. }
  rewrite Ea. clear Ea. destruct (Z.ltb_spec (len h) (len (h ++ code (o :: ops)))) as [Hlt|Hge].
  2:{ rewrite code_cons, !length_app, Eb in Hge. cbn [length] in Hge. lia. }
  destruct o as [n|n|x n].
  - destruct Hb as (-> & -> & _). apply Hstep. done.
  - destruct Hb as (_ & -> & _). apply Hstep. done.
  - destruct Hb as (-> & -> & _ & -> & ->). destruct (_ && _) eqn:Hc; [|by apply Hstep].
    rewrite !andb_true_iff, !Z.eqb_eq, Z.ltb_lt, Z.leb_le in Hc.
    destruct Hf as [|o' ops Ho' Hf]; [rewrite length_app in Hc; cbn in Hc; lia|].
    destruct (op_head o' Ho') as (b' & l' & Eb' & Hb').
    assert (at_ (h ++ code (OVal x n :: o' :: ops)) (len h + 1) = b2z b') as Ea.
    { rewrite at_app_r by lia. by rewrite !code_cons, Eb'. }
    rewrite !Ea in *. destruct Hc as (((_ & Hval) & Hx) & Hn).
    destruct o' as [n'|n'|x' n']; [by destruct Hb' as (_ & _ & ?); congruence..|].
    destruct Hb' as (_ & _ & _ & Ex & En). rewrite En in *. assert (x' = x) as -> by congruence. clear Hstep.
    destruct Ho as [? ?], Ho' as [_ ?].
    destruct (IH h (OVal x (n + n') :: ops) 0) as (ops' & pe' & E & Hf' & Es & El); [constructor; [split; lia|done]|].
    exists ops', pe'. rewrite !code_cons. cbn [op_bytes app]. rewrite drop_one.
    rewrite !spread_cons, app_assoc, op_regs_merge by lia. split_and!; [done|done|done|].
    rewrite !code_cons in El. cbn [op_bytes app length] in *. lia.
Qed.

(** *** Dense registers, bit by bit *)

(** Bit [k] of packed registers, low bits first. *)
Definition rbit (regs : bytes) (k : Z) : bool := Z.testbit (at_ regs (k / 8)) (k mod 8).

Lemma at_range v i : 0 <= at_ v i < 2 ^ 8.
Proof. unfold at_, at_or. destruct (v !! _); cbn; [apply b2z_range|lia]. Qed.

Lemma at_put v i x j : 0 <= i < len v → 0 <= j → at_ (put_at v i x) j = if i =? j then x mod 2 ^ 8 else at_ v j.
Proof.
  intros Hi Hj. unfold at_, at_or, put_at. destruct (Z.eqb_spec i j) as [->|Hne].
  - rewrite list_lookup_insert_eq by lia. cbn. apply b2z_z2b.
  - by rewrite list_lookup_insert_ne by lia.
Qed.

Lemma length_put_at v i x : length (put_at v i x) = length v.
Proof. apply length_insert. Qed.

Lemma testbit_byte b j : 0 <= b < 2 ^ 8 → 8 <= j → Z.testbit b j = false.
Proof. intros Hb Hj. rewrite Z.testbit_false by lia. rewrite Z.div_small; [done|]. split; [lia|]. pose proof (Z.pow_le_mono_r 2 8 j). lia. Qed.

Lemma register_mask_bit j : Z.testbit REGISTER_MAX j = bool_decide (0 <= j < 6).
Proof.
  change REGISTER_MAX with (Z.ones 6). case_bool_decide as H.
  - by apply Z.ones_spec_low.
  - destruct (Z.ltb_spec j 0); [by apply Z.testbit_neg_r|]. apply Z.ones_spec_high. lia.
Qed.

Lemma register_offset i : 0 <= i → let fb := Z.land (i * 6) 7 in
  i * 6 = 8 * (i * 6 / 8) + fb ∧ (fb = 0 ∨ fb = 2 ∨ fb = 4 ∨ fb = 6).
Proof.
  intros Hi fb. unfold fb. change 7 with (Z.ones 3). rewrite Z.land_ones by lia. change (2 ^ 3) with 8.
  pose proof (Z.div_mod (i * 6) 8 ltac:(lia)). pose proof (Z.mod_pos_bound (i * 6) 8 eq_refl). split; [lia|].
  assert ((i * 6) mod 8 = 2 * ((i * 3) mod 4)) as E; [|pose proof (Z.mod_pos_bound (i * 3) 4 eq_refl); lia].
  replace (i * 6) with (2 * (i * 3)) by lia. change 8 with (2 * 4). by rewrite Z.mul_mod_distr_l by lia.
Qed.

Lemma dense_get_bit regs i j : 0 <= i → 0 <= j → Z.testbit (dense_get regs i) j = bool_decide (j < 6) && rbit regs (6 * i + j).
Proof.
  intros Hi Hj. destruct (register_offset i Hi) as [Hb Hfb]. unfold dense_get, rbit.
  set (q := i * 6 / 8) in *. set (fb := Z.land (i * 6) 7) in *.
  rewrite Z.land_spec, register_mask_bit, Z.lor_spec, Z.shiftr_spec, Z.shiftl_spec by lia. change (at_or 0 regs) with (at_ regs).
  case_bool_decide; [rewrite bool_decide_true by lia|rewrite bool_decide_false by lia; apply andb_false_r].
  rewrite andb_true_r, andb_true_l. destruct (Z.ltb_spec (j + fb) 8).
  - rewrite (Z.testbit_neg_r _ (j - (8 - fb))), orb_false_r by lia.
    replace (6 * i + j) with (j + fb + q * 8) by lia.
    rewrite Z.div_add, Z.mod_add, Z.div_small, Z.mod_small by lia. done.
  - rewrite (testbit_byte (at_ regs q)), orb_false_l by (try apply at_range; lia).
    replace (6 * i + j) with (j + fb - 8 + (q + 1) * 8) by lia.
    rewrite Z.div_add, Z.mod_add, Z.div_small, Z.mod_small by lia. f_equal; lia.
Qed.

Lemma not8_u8_bit x j : 0 <= j < 8 → Z.testbit (not8 (u8 x)) j = negb (Z.testbit x j).
Proof.
  intros Hj. unfold not8, u8, wrap. rewrite Z.mod_pow2_bits_low, Z.lnot_spec by lia. by rewrite Z.mod_pow2_bits_low by lia.
Qed.

Lemma u8_bit x j : 0 <= j < 8 → Z.testbit (u8 x) j = Z.testbit x j.
Proof. intros. unfold u8, wrap. by rewrite Z.mod_pow2_bits_low by lia. Qed.

Lemma small_bit value j : 0 <= value <= 63 → 6 <= j → Z.testbit value j = false.
Proof. intros Hv Hj. rewrite Z.testbit_false by lia. rewrite Z.div_small; [done|]. pose proof (Z.pow_le_mono_r 2 6 j). lia. Qed.

Lemma length_dense_put regs i value : length (dense_put regs i value) = length regs.
Proof. unfold dense_put. case_match; by rewrite ?length_put_at. Qed.

(** What the two bytes of register [i] become. *)
Lemma dense_put_at regs i value q : 0 <= i → 6 * i + 6 <= 8 * len regs → 0 <= q →
  let '(byte, fb) := (i * 6 / 8, Z.land (i * 6) 7) in
  at_ (dense_put regs i value) q =
  if byte =? q then
    Z.lor (Z.land (at_ regs byte) (not8 (u8 (Z.shiftl REGISTER_MAX fb)))) (u8 (Z.shiftl value fb)) mod 2 ^ 8
  else if (byte + 1 =? q) && (byte + 1 <? len regs) then
    Z.lor (Z.land (at_ regs (byte + 1)) (not8 (u8 (Z.shiftr REGISTER_MAX (8 - fb))))) (u8 (Z.shiftr value (8 - fb))) mod 2 ^ 8
  else at_ regs q.
Proof.
  intros Hi Hlen Hq. destruct (register_offset i Hi) as [Hb Hfb]. unfold dense_put.
  set (byte := i * 6 / 8) in *. set (fb := Z.land (i * 6) 7) in *. rewrite length_put_at.
  assert (0 <= byte < len regs) by lia.
  destruct (Z.ltb_spec (byte + 1) (len regs)).
  - rewrite andb_true_r, at_put by (rewrite ?length_put_at; lia). rewrite !at_put by lia.
    destruct (Z.eqb_spec (byte + 1) q), (Z.eqb_spec byte q), (Z.eqb_spec byte (byte + 1)); done || lia.
  - rewrite andb_false_r, at_put by lia. done.
Qed.

Lemma dense_put_bit regs i value k : 0 <= i → 6 * i + 6 <= 8 * len regs → 0 <= value <= 63 → 0 <= k →
  rbit (dense_put regs i value) k = if bool_decide (6 * i <= k < 6 * i + 6) then Z.testbit value (k - 6 * i) else rbit regs k.
Proof.
  intros Hi Hlen Hv Hk. unfold rbit. pose proof (dense_put_at regs i value (k / 8) Hi Hlen) as Hat. cbn zeta in Hat.
  destruct (register_offset i Hi) as [Hb Hfb].
  set (byte := i * 6 / 8) in *. set (fb := Z.land (i * 6) 7) in *.
  pose proof (Z.div_mod k 8 ltac:(lia)). pose proof (Z.mod_pos_bound k 8 eq_refl). set (j := k mod 8) in *.
  rewrite Hat by (apply Z.div_pos; lia). clear Hat. destruct (Z.eqb_spec byte (k / 8)) as [Eq|Hne].
  - rewrite Z.mod_pow2_bits_low, Z.lor_spec, Z.land_spec, not8_u8_bit, u8_bit, !Z.shiftl_spec, register_mask_bit, <-Eq by lia.
    case_bool_decide as H1; [rewrite bool_decide_true by lia|rewrite bool_decide_false by lia].
    + rewrite andb_false_r, orb_false_l. f_equal. lia.
    + rewrite andb_true_r. destruct (Z.ltb_spec j fb);
        [rewrite (Z.testbit_neg_r value) by lia|rewrite (small_bit value) by lia]; by rewrite orb_false_r.
  - destruct (Z.eqb_spec (byte + 1) (k / 8)) as [Eq|Hne']; cbn [andb].
    2:{ rewrite bool_decide_false by lia. done. }
    destruct (Z.ltb_spec (byte + 1) (len regs)) as [Hin|Hout].
    2:{ rewrite bool_decide_false by lia. done. }
    rewrite Z.mod_pow2_bits_low, Z.lor_spec, Z.land_spec, not8_u8_bit, u8_bit, !Z.shiftr_spec, register_mask_bit, <-Eq by lia.
    case_bool_decide as H1; [rewrite bool_decide_true by lia|rewrite bool_decide_false by lia].
    + rewrite andb_false_r, orb_false_l. f_equal. lia.
    + rewrite andb_true_r, (small_bit value) by lia. by rewrite orb_false_r.
Qed.

Lemma dense_get_range regs i : 0 <= dense_get regs i <= 63.
Proof.
  unfold dense_get. change REGISTER_MAX with (Z.ones 6). rewrite Z.land_ones by lia.
  pose proof (Z.mod_pos_bound (Z.lor (Z.shiftr (at_ regs (i * 6 / 8)) (Z.land (i * 6) 7))
    (Z.shiftl (at_or 0 regs (i * 6 / 8 + 1)) (8 - Z.land (i * 6) 7))) (2 ^ 6) eq_refl). lia.
Qed.

Lemma dense_get_put regs i value i' : 0 <= i → 6 * i + 6 <= 8 * len regs → 0 <= value <= 63 → 0 <= i' →
  dense_get (dense_put regs i value) i' = if i =? i' then value else dense_get regs i'.
Proof.
  intros Hi Hlen Hv Hi'. apply Z.bits_inj'. intros j Hj. rewrite dense_get_bit by lia.
  case_bool_decide as Hj6; cbn [andb].
  - rewrite dense_put_bit by lia. destruct (Z.eqb_spec i i') as [->|Hne].
    + rewrite bool_decide_true by lia. f_equal. lia.
    + rewrite bool_decide_false, dense_get_bit, bool_decide_true by lia. done.
  - destruct (Z.eqb_spec i i') as [->|Hne]; [by rewrite small_bit by lia|].
    by rewrite dense_get_bit, bool_decide_false by lia.
Qed.

Definition dense_regs (regs : bytes) : list Z := dense_get regs <$> seqZ 0 REGISTERS.

Definition dense_body (regs : bytes) : Prop := len regs = DENSE_SIZE - HDR.

Lemma dense_room i regs : dense_body regs → 0 <= i < REGISTERS → 6 * i + 6 <= 8 * len regs.
Proof. intros ->. change REGISTERS with 16384. change (DENSE_SIZE - HDR) with 12288. lia. Qed.

Lemma length_dense_regs regs : len (dense_regs regs) = REGISTERS.
Proof. unfold dense_regs. rewrite length_fmap, length_seqZ. apply Z2Nat.id. done. Qed.

Lemma lookup_dense_regs regs i : 0 <= i < REGISTERS → dense_regs regs !! Z.to_nat i = Some (dense_get regs i).
Proof. intros Hi. unfold dense_regs. rewrite list_lookup_fmap, lookup_seqZ_lt by lia. by replace (0 + Z.of_nat (Z.to_nat i)) with i by lia. Qed.

Lemma regs_ext (R R' : list Z) : len R = REGISTERS → len R' = REGISTERS →
  (∀ i, 0 <= i < REGISTERS → R !! Z.to_nat i = R' !! Z.to_nat i) → R = R'.
Proof.
  intros HR HR' H. apply list_eq_same_length with (length R); [lia|done|].
  intros k x y Hk Hx Hy. specialize (H (Z.of_nat k) ltac:(lia)). rewrite Nat2Z.id in H. congruence.
Qed.

Lemma dense_regs_put regs i value : dense_body regs → 0 <= i < REGISTERS → 0 <= value <= 63 →
  dense_regs (dense_put regs i value) = <[Z.to_nat i := value]> (dense_regs regs).
Proof.
  intros Hb Hi Hv. pose proof (dense_room i regs Hb Hi) as Hroom. pose proof (length_dense_regs regs) as Hlen.
  apply regs_ext; [apply length_dense_regs|by rewrite length_insert|].
  intros j Hj. rewrite lookup_dense_regs, dense_get_put by lia. destruct (Z.eqb_spec i j) as [->|Hne].
  - by rewrite list_lookup_insert_eq by lia.
  - by rewrite list_lookup_insert_ne, lookup_dense_regs by lia.
Qed.

Lemma put_run_spec n regs T m idx value :
  dense_body regs → idx = len T → 0 <= value <= 63 → dense_regs regs = T ++ repeat 0 (n + m) →
  dense_body (put_run n regs idx value) ∧ dense_regs (put_run n regs idx value) = T ++ repeat value n ++ repeat 0 m.
Proof.
  intros Hb Hidx Hv. revert regs T idx Hb Hidx. induction n as [|n IH]; intros regs T idx Hb Hidx HT; [done|].
  cbn [put_run]. pose proof (length_dense_regs regs) as Hlen. rewrite HT, length_app, repeat_length in Hlen.
  edestruct (IH (dense_put regs idx value) (T ++ [value]) (idx + 1)) as [Hb' E].
  - unfold dense_body. by rewrite length_dense_put.
  - rewrite length_app. cbn [length]. lia.
  - rewrite dense_regs_put, HT by (done || lia). subst idx.
    rewrite insert_app_r_alt by lia. replace (Z.to_nat (len T) - length T)%nat with 0%nat by lia. cbn. by rewrite <-app_assoc.
  - split; [done|]. rewrite E, <-app_assoc. done.
Qed.

Lemma to_dense_loop_spec pe ops : Forall op_fits ops → ∀ idx regs T m,
  dense_body regs → idx = len T → dense_regs regs = T ++ repeat 0 (length (spread ops) + m) →
  ∃ regs', to_dense_loop pe (code ops) idx regs = Some (idx + len (spread ops), regs') ∧
    dense_body regs' ∧ dense_regs regs' = T ++ spread ops ++ repeat 0 m.
Proof.
  induction 1 as [|o ops Ho Hf IH]; intros idx regs T m Hb Hidx HT.
  { exists regs. cbn. by rewrite Z.add_0_r. }
  rewrite to_dense_loop_op, spread_cons, length_app, Nat2Z.inj_add, length_op_regs by done.
  pose proof (length_dense_regs regs) as Hlen. pose proof (length_op_regs o Ho) as Hr. pose proof (op_run_pos o Ho).
  rewrite HT, spread_cons, !length_app, repeat_length in Hlen. rewrite spread_cons, length_app in HT.
  destruct o as [n|n|value n]; cbn [op_run op_value] in *.
  1,2: destruct (IH (idx + n) regs (T ++ repeat 0 (Z.to_nat n)) m) as (regs' & E & Hb' & ER); [done| | |];
    [rewrite length_app, repeat_length; lia
    |rewrite HT, <-app_assoc, <-repeat_app; do 2 f_equal; lia
    |exists regs'; rewrite E, ER, <-!app_assoc; split_and!; [f_equal; f_equal; lia|done|done]].
  destruct (Z.ltb_spec REGISTERS (n + idx)) as [?|Hin]; [lia|].
  destruct (put_run_spec (Z.to_nat n) regs T (length (spread ops) + m) idx value) as [Hb' E'];
    [done|done|destruct Ho; unfold VAL_MAX_VALUE in *; lia|rewrite HT; do 2 f_equal; lia|].
  destruct (IH (idx + n) (put_run (Z.to_nat n) regs idx value) (T ++ repeat value (Z.to_nat n)) m) as (regs' & E & Hb2 & ER);
    [done|rewrite length_app, repeat_length; lia|by rewrite E', <-app_assoc|].
  exists regs'. rewrite E, ER, <-!app_assoc. split_and!; [f_equal; f_equal; lia|done|done].
Qed.

(** *** Strings that are sketches *)

Definition header (hd : bytes) (form : Z) : Prop :=
  length hd = 16%nat ∧ starts_with hd (bstr "HYLL") = true ∧ at_ hd 4 = form.

(** The string [v] is an HLL whose registers are [R]. *)
Inductive sketch : bytes → list Z → Prop :=
| sketch_sparse hd ops :
    header hd SPARSE → Forall op_fits ops → len (spread ops) = REGISTERS → sketch (hd ++ code ops) (spread ops)
| sketch_dense hd regs : header hd DENSE → dense_body regs → sketch (hd ++ regs) (dense_regs regs).

(** Whether offering [count] to register [i] raises it. *)
Definition rises (R : list Z) (i count : Z) : bool := from_option (λ x, x <? count) false (R !! Z.to_nat i).

Lemma at_app_l (h l : bytes) i : 0 <= i < len h → at_ (h ++ l) i = at_ h i.
Proof. intros. unfold at_, at_or. by rewrite lookup_app_l by lia. Qed.

Lemma header_form hd form l : header hd form → at_ (hd ++ l) 4 = form.
Proof. intros (Hl & _ & <-). apply at_app_l. lia. Qed.

Lemma header_body hd form l : header hd form → body (hd ++ l) = l.
Proof. intros (Hl & _ & _). unfold body. by rewrite drop_app_length'. Qed.

Lemma header_with_body hd form l l' : header hd form → with_body (hd ++ l) l' = hd ++ l'.
Proof. intros (Hl & _ & _). unfold with_body. by rewrite take_app_length'. Qed.

Lemma starts_with_put hd p i x : starts_with hd p = true → len p <= i → starts_with (put_at hd i x) p = true.
Proof.
  intros [r ->]%starts_with_true Hi. apply starts_with_true. unfold put_at. rewrite insert_app_r_alt by lia. eauto.
Qed.

Lemma header_put hd form i x : header hd form → 5 <= i < 16 → header (put_at hd i x) form.
Proof.
  intros (Hl & Hs & Hf) Hi. split_and!; [by rewrite length_put_at|by apply starts_with_put; [|cbn; lia]|].
  rewrite at_put by lia. by destruct (Z.eqb_spec i 4); [lia|].
Qed.

Lemma header_put_form hd form form' : header hd form → 0 <= form' < 256 → header (put_at hd 4 form') form'.
Proof.
  intros (Hl & Hs & Hf) Hi. split_and!; [by rewrite length_put_at|by apply starts_with_put; [|cbn; lia]|].
  rewrite at_put by lia. cbn [Z.eqb Pos.eqb]. by apply Z.mod_small.
Qed.

Lemma invalidate_app hd form l : header hd form → invalidate (hd ++ l) = invalidate hd ++ l.
Proof.
  intros (Hl & _ & _). unfold invalidate. rewrite at_app_l by lia. unfold put_at. by rewrite insert_app_l by lia.
Qed.

Lemma header_invalidate hd form : header hd form → header (invalidate hd) form.
Proof. intros. apply header_put; [done|lia]. Qed.

Lemma sketch_length v R : sketch v R → len R = REGISTERS.
Proof. destruct 1; [done|apply length_dense_regs]. Qed.

Lemma sketch_valid v R : sketch v R → valid v = true.
Proof.
  assert (∀ hd l form, header hd form → (HDR <=? len (hd ++ l)) = true ∧ starts_with (hd ++ l) (bstr "HYLL") = true) as Hh.
  { intros hd l form (Hl & Hs & _). split; [apply Z.leb_le; rewrite length_app; unfold HDR; lia|].
    apply starts_with_true in Hs as [r ->]. rewrite <-app_assoc. apply starts_with_app. }
  unfold valid. destruct 1 as [hd ops Hhd _ _|hd regs Hhd Hb]; [destruct (Hh hd (code ops) _ Hhd) as [E1 E2]|destruct (Hh hd regs _ Hhd) as [E1 E2]].
  - rewrite E1, E2, (header_form _ _ _ Hhd). done.
  - rewrite E1, E2, (header_form _ _ _ Hhd). cbn [andb negb orb Z.leb Z.eqb DENSE SPARSE Z.compare].
    apply Z.eqb_eq. destruct Hhd as [Hl _]. rewrite length_app, Nat2Z.inj_add, Hb, Hl. done.
Qed.

Lemma sketch_invalidate v R : sketch v R → sketch (invalidate v) R.
Proof.
  destruct 1 as [hd ops Hhd|hd regs Hhd]; rewrite (invalidate_app _ _ _ Hhd); constructor; auto using header_invalidate.
Qed.

Lemma rises_dense regs i count : 0 <= i < REGISTERS → rises (dense_regs regs) i count = (dense_get regs i <? count).
Proof. intros. unfold rises. by rewrite lookup_dense_regs. Qed.

Lemma raise_same R i count : rises R i count = false → raise R i count = R.
Proof.
  unfold rises, raise. intros H. apply list_eq. intros j. destruct (decide (Z.to_nat i = j)) as [<-|Hne].
  - rewrite list_lookup_alter_eq. destruct (R !! Z.to_nat i) as [x|]; cbn in *; [|done].
    apply Z.ltb_ge in H. f_equal. lia.
  - by rewrite list_lookup_alter_ne.
Qed.

Lemma raise_up R i count : rises R i count = true → raise R i count = <[Z.to_nat i := count]> R.
Proof.
  unfold rises, raise. intros H. apply list_eq. intros j. destruct (decide (Z.to_nat i = j)) as [<-|Hne].
  - rewrite list_lookup_alter_eq. destruct (R !! Z.to_nat i) as [x|] eqn:E; cbn in *; [|done].
    apply Z.ltb_lt in H. rewrite list_lookup_insert_eq by (by eapply lookup_lt_Some). f_equal. lia.
  - by rewrite list_lookup_alter_ne, list_lookup_insert_ne.
Qed.

Lemma length_raise R i count : length (raise R i count) = length R.
Proof. apply length_alter. Qed.

(** *** Raising a dense register *)

Lemma dense_set_spec regs i count : dense_body regs → 0 <= i < REGISTERS → 0 <= count <= 63 →
  ∃ regs', dense_set regs i count = (regs', rises (dense_regs regs) i count) ∧ dense_body regs' ∧
    dense_regs regs' = raise (dense_regs regs) i count.
Proof.
  intros Hb Hi Hc. unfold dense_set. rewrite rises_dense by done. destruct (_ <? _) eqn:E.
  - exists (dense_put regs i count). split_and!; [done|unfold dense_body; by rewrite length_dense_put|].
    rewrite raise_up by (by rewrite rises_dense). by apply dense_regs_put.
  - exists regs. rewrite raise_same by (by rewrite rises_dense). done.
Qed.

(** A string in the packed form whose registers are [R]. *)
Definition dense_sketch (v : bytes) (R : list Z) : Prop := sketch v R ∧ at_ v 4 = DENSE ∧ len v = DENSE_SIZE.

Lemma dense_sketch_intro hd regs : header hd DENSE → dense_body regs → dense_sketch (hd ++ regs) (dense_regs regs).
Proof.
  intros Hh Hb. split; [by constructor|]. split; [by eapply header_form|].
  destruct Hh as [Hl _]. rewrite length_app, Nat2Z.inj_add, Hb, Hl. done.
Qed.

Lemma zero_regs : dense_regs (repeat Byte.x00 (Z.to_nat (DENSE_SIZE - HDR))) = repeat 0 (Z.to_nat REGISTERS).
Proof.
  assert (∀ i, 0 <= i → dense_get (repeat Byte.x00 (Z.to_nat (DENSE_SIZE - HDR))) i = 0) as H.
  { intros i Hi. apply Z.bits_inj'. intros j Hj. rewrite dense_get_bit, Z.bits_0 by lia.
    rewrite andb_false_iff. right. unfold rbit, at_, at_or.
    destruct (_ !! _) as [b|] eqn:E; [|apply Z.bits_0].
    apply list_elem_of_lookup_2, list_elem_of_In, repeat_spec in E as ->. apply Z.bits_0. }
  apply regs_ext; [apply length_dense_regs|by rewrite repeat_length|]. intros i Hi.
  rewrite lookup_dense_regs, H, lookup_repeat by lia. done.
Qed.

Lemma to_dense_spec v R pe : sketch v R → ∃ v', to_dense v pe = Some v' ∧ dense_sketch v' R.
Proof.
  unfold to_dense. destruct 1 as [hd ops Hhd Hf HR|hd regs Hhd Hb]; rewrite (header_form _ _ _ Hhd).
  2:{ eexists. split; [done|]. by apply dense_sketch_intro. }
  cbn [Z.eqb SPARSE DENSE]. rewrite (header_body _ _ _ Hhd).
  destruct (to_dense_loop_spec pe ops Hf 0 (repeat Byte.x00 (Z.to_nat (DENSE_SIZE - HDR))) [] 0) as (regs & E & Hb & ER);
    [unfold dense_body; by rewrite repeat_length|done| |].
  { rewrite zero_regs. cbn [app]. f_equal. lia. }
  cbn [app repeat] in ER. rewrite app_nil_r in ER. rewrite E, HR. cbn [mbind option_bind]. rewrite Z.add_0_l, Z.eqb_refl.
  rewrite <-ER. eexists. split; [done|]. destruct Hhd as (Hl & Hh). rewrite take_app_length' by done.
  apply dense_sketch_intro; [|done]. eapply header_put_form; [split; [done|apply Hh]|]. unfold DENSE. lia.
Qed.

Lemma set_dense hd regs i count : header hd DENSE → dense_body regs → 0 <= i < REGISTERS → 0 <= count <= 63 →
  ∃ regs', dense_set (body (hd ++ regs)) i count = (regs', rises (dense_regs regs) i count) ∧
    dense_sketch (with_body (hd ++ regs) regs') (raise (dense_regs regs) i count).
Proof.
  intros Hhd Hb Hi Hc. rewrite (header_body _ _ _ Hhd). destruct (dense_set_spec regs i count) as (regs' & -> & Hb' & <-); [done..|].
  exists regs'. split; [done|]. rewrite (header_with_body _ _ _ _ Hhd). by apply dense_sketch_intro.
Qed.

Lemma promote_spec v R index count pe : sketch v R → 0 <= index < REGISTERS → 0 <= count <= 63 →
  ∃ v', promote v index count pe = Some (v', rises R index count) ∧ dense_sketch v' (raise R index count).
Proof.
  intros Hs Hi Hc. destruct (to_dense_spec v R pe Hs) as (v1 & E & Hs1 & H4 & _). unfold promote. rewrite E. cbn [mbind option_bind].
  destruct Hs1 as [hd ops Hhd|hd regs Hhd Hb]; [by rewrite (header_form _ _ _ Hhd) in H4|].
  destruct (set_dense hd regs index count) as (regs' & -> & Hd); [done..|]. eauto.
Qed.

(** *** Splitting a run *)

Definition zero_op (n : Z) : op := if ZERO_MAX_LEN <? n then OXZero n else OZero n.

Lemma zeros_code n : zeros n = code [zero_op n].
Proof. unfold zeros, zero_op. case_match; cbn; by rewrite ?app_nil_r. Qed.

Lemma zero_op_fits n : 1 <= n <= XZERO_MAX_LEN → op_fits (zero_op n).
Proof. intros. unfold zero_op. destruct (Z.ltb_spec ZERO_MAX_LEN n); cbn; lia. Qed.

Lemma zero_op_regs n : op_regs (zero_op n) = repeat 0 (Z.to_nat n).
Proof. unfold zero_op. by case_match. Qed.

(** A run with one register changed, from what stands on either side of it. *)
Definition around (side : Z → op) (a b count : Z) : list op :=
  (if negb (a =? 0) then [side a] else []) ++ [OVal count 1] ++ (if negb (b =? 0) then [side b] else []).

Lemma around_fits side a b count :
  (a ≠ 0 → op_fits (side a)) → (b ≠ 0 → op_fits (side b)) → 1 <= count <= VAL_MAX_VALUE → Forall op_fits (around side a b count).
Proof.
  intros Ha Hb Hc. assert (op_fits (OVal count 1)) by (split; [done|unfold VAL_MAX_LEN; lia]). unfold around.
  destruct (Z.eqb_spec a 0), (Z.eqb_spec b 0); cbn [negb app]; auto.
Qed.

Lemma around_regs side x a b count : (∀ n, op_regs (side n) = repeat x (Z.to_nat n)) → 0 <= a → 0 <= b →
  spread (around side a b count) = <[Z.to_nat a := count]> (repeat x (Z.to_nat (a + 1 + b))).
Proof.
  intros Hside Ha Hb. assert (spread (around side a b count) = repeat x (Z.to_nat a) ++ count :: repeat x (Z.to_nat b)) as ->.
  { unfold around. rewrite !spread_app. assert (∀ n, 0 <= n → spread (if negb (n =? 0) then [side n] else []) = repeat x (Z.to_nat n)) as Hs.
    { intros n Hn. destruct (Z.eqb_spec n 0) as [->|?]; cbn [negb spread mbind list_bind]; [done|]. by rewrite app_nil_r, Hside. }
    rewrite !Hs by done. done. }
  replace (Z.to_nat (a + 1 + b)) with (Z.to_nat a + (1 + Z.to_nat b))%nat by lia. rewrite !repeat_app.
  rewrite insert_app_r_alt by (rewrite repeat_length; lia). rewrite repeat_length, Nat.sub_diag. done.
Qed.

Lemma split_run_spec o index first count : op_fits o → first <= index < first + op_run o → 1 <= count <= VAL_MAX_VALUE →
  ∃ new, split_run (match o with OVal _ _ => false | _ => true end) (op_value o) index first (first + op_run o - 1) count = code new ∧
    Forall op_fits new ∧ spread new = <[Z.to_nat (index - first) := count]> (op_regs o).
Proof.
  intros Ho Hi Hc. set (side := λ n, match o with OVal x _ => OVal x n | _ => zero_op n end).
  exists (around side (index - first) (first + op_run o - 1 - index) count). split_and!.
  - unfold around, side. rewrite !code_app. unfold split_run.
    assert (∀ x y, negb (x =? y) = negb (x - y =? 0)) as Hxy.
    { intros x y. f_equal. apply Bool.eq_true_iff_eq. rewrite !Z.eqb_eq. lia. }
    assert (negb (index =? first + op_run o - 1) = negb (first + op_run o - 1 - index =? 0)) as ->.
    { rewrite <-Hxy, Z.eqb_sym. done. }
    rewrite (Hxy index first). destruct o; repeat case_match; rewrite ?zeros_code; done.
  - apply around_fits; [..|done]; intros; destruct o; cbn in *; try apply zero_op_fits; unfold ZERO_MAX_LEN, XZERO_MAX_LEN in *; lia.
  - rewrite (around_regs side (op_value o)) by (try lia; intros; unfold side; destruct o; apply zero_op_regs || done).
    unfold op_regs. do 2 f_equal. lia.
Qed.

Definition prev_of (pre : list op) : option Z :=
  match last pre with None => None | Some o' => Some (HDR + len (code pre) - op_len o') end.

Lemma merged_at_spec hd pre rest pe : header hd SPARSE → Forall op_fits (pre ++ rest) →
  len (spread (pre ++ rest)) = REGISTERS →
  ∃ v' pe', merged_at (hd ++ code (pre ++ rest)) (prev_of pre) pe = (v', true, pe') ∧
    sketch v' (spread (pre ++ rest)) ∧ len v' <= len (hd ++ code (pre ++ rest)).
Proof.
  intros Hhd Hf HR. unfold merged_at, merge_values.
  assert (∃ pre' rest', pre ++ rest = pre' ++ rest' ∧ default HDR (prev_of pre) = len (hd ++ code pre')) as (pre' & rest' & E & ->).
  { unfold prev_of. destruct Hhd as [Hl _]. destruct pre as [|o pre' _] using rev_ind.
    - exists [], rest. split; [done|]. cbn. rewrite app_nil_r, Hl. done.
    - exists pre', (o :: rest). rewrite last_snoc, <-app_assoc, code_app, !length_app. split; [done|]. cbn.
      unfold HDR, op_len. rewrite app_nil_r. lia. }
  rewrite E in *. apply Forall_app in Hf as [Hf1 Hf2].
  destruct (merge_scan_spec 5 (hd ++ code pre') rest' pe Hf2) as (ops & pe' & Em & Hfo & Es & El).
  rewrite code_app, app_assoc, Em, <-app_assoc, (invalidate_app _ _ _ Hhd), <-code_app.
  eexists _, pe'. split_and!; [done| |].
  - rewrite spread_app, <-Es, <-spread_app. constructor; [by apply header_invalidate|by apply Forall_app|].
    by rewrite spread_app, Es, <-spread_app.
  - unfold invalidate. rewrite code_app, !length_app, length_put_at. lia.
Qed.

Lemma splice_in hd pre o post seq pe : header hd SPARSE → op_fits o →
  splice (hd ++ code (pre ++ o :: post)) (HDR + len (code pre)) (op_len o) seq pe = (hd ++ code pre ++ seq ++ code post, 0).
Proof.
  intros (Hl & _) Ho. unfold splice. rewrite code_app, code_cons, app_assoc, !length_app. unfold HDR, op_len.
  destruct (Z.leb_spec (16 + len (code pre) + len (op_bytes o)) (Z.of_nat (length hd + length (code pre) + (length (op_bytes o) + length (code post))))) as [_|?]; [|lia].
  f_equal. rewrite take_app_length' by (rewrite length_app; lia).
  rewrite (app_assoc (hd ++ code pre) (op_bytes o)), drop_app_length' by (rewrite !length_app; lia). by rewrite <-app_assoc.
Qed.

Lemma put_in hd pre o post x : header hd SPARSE → op_fits o → op_len o = 1 →
  put_at (hd ++ code (pre ++ o :: post)) (HDR + len (code pre)) x = hd ++ code pre ++ [z2b x] ++ code post.
Proof.
  intros (Hl & _) Ho H1. destruct (op_head o Ho) as (b & l & Eb & _). unfold op_len in H1. rewrite Eb in H1.
  destruct l; [|cbn in H1; lia]. rewrite code_app, code_cons, Eb, app_assoc. unfold put_at, HDR.
  rewrite insert_app_r_alt by (rewrite length_app; lia).
  replace (Z.to_nat (16 + len (code pre)) - length (hd ++ code pre))%nat with 0%nat by (rewrite length_app; lia).
  cbn. by rewrite <-app_assoc.
Qed.

Lemma spread_at pre o post index : op_fits o →
  len (spread pre) <= index < len (spread pre) + op_run o →
  spread (pre ++ o :: post) !! Z.to_nat index = Some (op_value o) ∧
  ∀ new count, spread new = <[Z.to_nat (index - len (spread pre)) := count]> (op_regs o) →
    spread (pre ++ new ++ post) = <[Z.to_nat index := count]> (spread (pre ++ o :: post)).
Proof.
  intros Ho Hi. pose proof (length_op_regs o Ho) as Hr. rewrite spread_app, spread_cons. split.
  - rewrite lookup_app_r by lia. rewrite lookup_app_l by lia. unfold op_regs in *. rewrite repeat_length in Hr.
    apply lookup_repeat. lia.
  - intros new count E. rewrite !spread_app, E. rewrite insert_app_r_alt by lia. f_equal.
    rewrite insert_app_l by lia. by replace (Z.to_nat (index - len (spread pre))) with (Z.to_nat index - length (spread pre))%nat by lia.
Qed.

(** What an edit of the opcodes leaves. *)
Definition raised (v : bytes) (R : list Z) (index count : Z) (r : option set_result) : Prop :=
  ∃ v' pe', r = Some (v', rises R index count, pe') ∧ sketch v' (raise R index count) ∧ len v' <= Z.max (len v) DENSE_SIZE.

Lemma promote_raised v R index count pe : sketch v R → 0 <= index < REGISTERS → 0 <= count <= 63 →
  raised v R index count ('(v, rose) ← promote v index count pe; Some (v, rose, pe)).
Proof.
  intros Hs Hi Hc. destruct (promote_spec v R index count pe) as (v' & -> & Hs' & _ & Hl); [done..|].
  exists v', pe. split; [done|]. split; [done|]. lia.
Qed.

Lemma edit_raised hd pre o post new index count pe :
  header hd SPARSE → Forall op_fits (pre ++ o :: post) → len (spread (pre ++ o :: post)) = REGISTERS →
  len (spread pre) <= index < len (spread pre) + op_run o → op_value o < count → Forall op_fits new →
  spread new = <[Z.to_nat (index - len (spread pre)) := count]> (op_regs o) →
  len (code new) <= op_len o ∨ len (hd ++ code (pre ++ o :: post)) + (len (code new) - op_len o) <= SPARSE_MAX_BYTES →
  raised (hd ++ code (pre ++ o :: post)) (spread (pre ++ o :: post)) index count
    (Some (merged_at (hd ++ code pre ++ code new ++ code post) (prev_of pre) pe)).
Proof.
  intros Hhd Hf HR Hi Hv Hnew Es Hsize. apply Forall_app in Hf as [Hf1 [Ho Hf2]%Forall_cons].
  destruct (spread_at pre o post index Ho Hi) as [Hx Hins]. specialize (Hins new count Es).
  assert (rises (spread (pre ++ o :: post)) index count = true) as Hrise.
  { unfold rises. rewrite Hx. cbn. by apply Z.ltb_lt. }
  destruct (merged_at_spec hd pre (new ++ post) pe) as (v' & pe' & E & Hs & Hl);
    [done|by repeat (apply Forall_app; split)|by rewrite Hins, length_insert|].
  rewrite !code_app in E. unfold raised. rewrite E, Hrise, raise_up, <-Hins by done. exists v', pe'.
  split; [done|]. split; [done|]. etrans; [apply Hl|].
  rewrite !code_app, code_cons, !length_app in *. unfold op_len in *. change DENSE_SIZE with 12304. unfold SPARSE_MAX_BYTES in *. lia.
Qed.

Lemma at_in hd pre o post : header hd SPARSE → op_fits o →
  ∃ b l, op_bytes o = b :: l ∧ at_ (hd ++ code (pre ++ o :: post)) (HDR + len (code pre)) = b2z b.
Proof.
  intros [Hl _] Ho. destruct (op_head o Ho) as (b & l & E & _). exists b, l. split; [done|].
  rewrite code_app, code_cons, E, app_assoc.
  replace (HDR + len (code pre)) with (len (hd ++ code pre) + 0) by (rewrite length_app; unfold HDR; lia).
  by rewrite at_app_r.
Qed.

Lemma length_in hd pre o post : header hd SPARSE → op_fits o → HDR + len (code pre) < len (hd ++ code (pre ++ o :: post)).
Proof.
  intros [Hl _] Ho. destruct (op_head o Ho) as (b & l & E & _). rewrite code_app, code_cons, E, !length_app.
  cbn [length]. unfold HDR. lia.
Qed.

(** The edit of the opcode found, when it raises the register. *)
Lemma split_raised hd pre o post index count pe (v := hd ++ code (pre ++ o :: post)) (first := len (spread pre))
    (seq := split_run (match o with OVal _ _ => false | _ => true end) (op_value o) index first (first + op_run o - 1) count) :
  header hd SPARSE → Forall op_fits (pre ++ o :: post) → len (spread (pre ++ o :: post)) = REGISTERS →
  0 <= index < REGISTERS → first <= index < first + op_run o → 1 <= count <= VAL_MAX_VALUE → op_value o < count →
  raised v (spread (pre ++ o :: post)) index count
    (if (op_len o =? 1) && (op_run o =? 1)
     then Some (merged_at (put_at v (HDR + len (code pre)) (val count 1)) (prev_of pre) pe)
     else if (op_len o <? len seq) && (SPARSE_MAX_BYTES <? len v + (len seq - op_len o)) then
       '(v, rose) ← promote v index count pe; Some (v, rose, pe)
     else
       let '(v, pe) := splice v (HDR + len (code pre)) (op_len o) seq pe in
       Some (merged_at v (prev_of pre) pe)).
Proof.
  intros Hhd Hf HR Hi Hin Hc Hv. pose proof Hf as [_ [Ho _]%Forall_cons]%Forall_app.
  destruct ((op_len o =? 1) && (op_run o =? 1)) eqn:E1.
  - apply andb_true_iff in E1 as [El%Z.eqb_eq Er%Z.eqb_eq]. unfold v. rewrite put_in by done.
    change [z2b (val count 1)] with (code [OVal count 1]). apply edit_raised; try done.
    + repeat constructor; unfold VAL_MAX_LEN; lia.
    + replace (index - len (spread pre)) with 0 by lia. unfold op_regs. rewrite Er. done.
    + left. cbn. lia.
  - destruct (split_run_spec o index first count Ho Hin Hc) as (new & Enew & Hnew & Es). fold seq in Enew. rewrite Enew.
    destruct ((op_len o <? _) && _) eqn:Eb.
    + apply promote_raised; [by constructor|done|unfold VAL_MAX_VALUE in Hc; lia].
    + unfold v. rewrite splice_in by done. apply edit_raised; try done.
      apply andb_false_iff in Eb as [?%Z.ltb_ge|?%Z.ltb_ge]; [by left|by right].
Qed.

Lemma sparse_set_spec hd ops index count pe :
  header hd SPARSE → Forall op_fits ops → len (spread ops) = REGISTERS → 0 <= index < REGISTERS → 1 <= count <= 63 →
  raised (hd ++ code ops) (spread ops) index count (sparse_set (hd ++ code ops) index count pe).
Proof.
  intros Hhd Hf HR Hi Hc. pose proof (sketch_sparse hd ops Hhd Hf HR) as Hsk. unfold sparse_set.
  destruct (Z.ltb_spec VAL_MAX_VALUE count) as [_|Hsmall]; [apply promote_raised; [done|done|lia]|].
  rewrite (header_body _ _ _ Hhd).
  destruct (find_op_spec pe index ops (mkCover HDR 0 0 None) Hf) as (pre & o & post & first & -> & Efirst & Hin & ->); [cbn; lia|].
  cbn [cv_p cv_first cv_span cv_prev] in *. change (match last pre with Some o' => _ | None => _ end) with (prev_of pre).
  pose proof Hf as [_ [Ho _]%Forall_cons]%Forall_app. destruct (spread_at pre o post index Ho) as [Hx _]; [lia|].
  pose proof (op_run_pos o Ho). pose proof (length_in hd pre o post Hhd Ho). rewrite Z.add_0_l in Efirst.
  destruct (Z.eqb_spec (op_run o) 0) as [?|_]; [lia|]. destruct (Z.leb_spec (len (hd ++ code (pre ++ o :: post))) (HDR + len (code pre))) as [?|_]; [lia|].
  cbn [orb]. destruct (at_in hd pre o post Hhd Ho) as (b & l & Eb & ->).
  destruct (op_head o Ho) as (b' & l' & Eb' & Hb). rewrite Eb in Eb'. injection Eb' as <- <-.
  rewrite Efirst in *. destruct o as [n|n|x n].
  - destruct Hb as (-> & -> & _). apply split_raised; done || cbn; lia.
  - destruct Hb as (-> & -> & _). cbn [negb andb orb].
    apply (split_raised hd pre (OXZero n) post index count pe); done || cbn; lia.
  - destruct Hb as (-> & -> & _ & -> & _). cbn [negb andb]. destruct (Z.leb_spec count x) as [Hle|Hgt].
    + assert (rises (spread (pre ++ OVal x n :: post)) index count = false) as Hr.
      { unfold rises. rewrite Hx. cbn. by apply Z.ltb_ge. }
      unfold raised. rewrite Hr, raise_same by done. exists (hd ++ code (pre ++ OVal x n :: post)), pe. split_and!; [done|done|lia].
    + apply split_raised; done || cbn; lia.
Qed.

(** *** Elements *)

Lemma trailing_zeros_bit p k : Z.testbit (Zpos p) (Z.of_nat k) = true → 0 <= pos_trailing_zeros p <= Z.of_nat k.
Proof.
  revert k. induction p as [p IH|p IH|]; intros k Hk; cbn [pos_trailing_zeros]; [lia| |lia].
  destruct k as [|k]; [done|]. change (Zpos (xO p)) with (2 * Zpos p) in Hk.
  rewrite Nat2Z.inj_succ, Z.testbit_even_succ in Hk by lia. apply IH in Hk. lia.
Qed.

Lemma murmur_nonneg key seed : 0 <= murmur64a key seed.
Proof.
  unfold murmur64a. set (h := u64 _). assert (0 <= h) by (unfold h, u64, wrap; apply Z.mod_pos_bound; lia).
  apply Z.lxor_nonneg. rewrite Z.shiftr_nonneg. tauto.
Qed.

Lemma pattern_range element : let '(index, count) := pattern element in 0 <= index < REGISTERS ∧ 1 <= count <= 51.
Proof.
  unfold pattern. pose proof (murmur_nonneg element 0xadc83b19) as Hh. set (hash := murmur64a _ _) in *. split.
  - change (REGISTERS - 1) with (Z.ones 14). rewrite Z.land_ones by lia. by apply Z.mod_pos_bound.
  - set (rest := Z.lor _ _). assert (Z.testbit rest (Z.of_nat 50) = true) as Hbit.
    { unfold rest. rewrite Z.lor_spec. apply orb_true_iff. by right. }
    assert (0 <= rest) as Hr by (unfold rest; apply Z.lor_nonneg; rewrite Z.shiftr_nonneg; done).
    destruct rest as [|p|p]; [done| |lia]. apply trailing_zeros_bit in Hbit. cbn [trailing_zeros]. lia.
Qed.

(** A register offered the value of an element, and of several in turn. *)
Definition offer (R : list Z) (element : bytes) : list Z := let '(i, count) := pattern element in raise R i count.
Definition offer_all (R : list Z) (elements : list bytes) : list Z := foldl offer R elements.

Definition same_regs (R R' : list Z) : bool := bool_decide (R = R').

Lemma rises_changes R i count : rises R i count = negb (same_regs R (raise R i count)).
Proof.
  unfold same_regs. destruct (rises R i count) eqn:E.
  - rewrite raise_up by done. rewrite bool_decide_false; [done|]. intros Heq. unfold rises in E.
    destruct (R !! Z.to_nat i) as [x|] eqn:Ex; cbn in E; [|done]. apply Z.ltb_lt in E.
    pose proof (lookup_lt_Some _ _ _ Ex). rewrite Heq, list_lookup_insert_eq in Ex by done. injection Ex as ->. lia.
  - by rewrite raise_same, bool_decide_true by done.
Qed.

Lemma hll_add_spec v R element pe : sketch v R → ∃ v' pe',
  hll_add v element pe = Some (v', negb (same_regs R (offer R element)), pe') ∧ sketch v' (offer R element) ∧
  len v' <= Z.max (len v) DENSE_SIZE.
Proof.
  intros Hs. unfold hll_add, offer. pose proof (pattern_range element) as Hp. destruct (pattern element) as [index count].
  destruct Hp as [Hi Hc]. rewrite <-rises_changes.
  destruct Hs as [hd ops Hhd Hf HR|hd regs Hhd Hb]; rewrite (header_form _ _ _ Hhd).
  - cbn [Z.eqb SPARSE DENSE Pos.eqb]. apply sparse_set_spec; done || lia.
  - cbn [Z.eqb DENSE]. destruct (set_dense hd regs index count) as (regs' & -> & Hs & _ & Hl); [done|done|done|lia|].
    eexists _, pe. split; [done|]. split; [done|]. lia.
Qed.

(** Raised registers only rise, so a run of offers changes something exactly if
    one of them does. *)
Definition below (R R' : list Z) : Prop := Forall2 Z.le R R'.

#[export] Instance below_preorder : PreOrder below.
Proof. change (PreOrder (Forall2 Z.le)). apply _. Qed.

Lemma below_antisym R R' : below R R' → below R' R → R = R'.
Proof. unfold below. intros H. induction H as [|x y R R' Hxy H IH]; inversion 1; subst; [done|]. f_equal; [lia|auto]. Qed.

Lemma below_raise R i count : below R (raise R i count).
Proof.
  apply Forall2_same_length_lookup. split; [by rewrite length_raise|]. intros j x y Hx Hy. unfold raise in Hy.
  destruct (decide (Z.to_nat i = j)) as [<-|Hne].
  - rewrite list_lookup_alter_eq, Hx in Hy. cbn in Hy. injection Hy as <-. lia.
  - rewrite list_lookup_alter_ne, Hx in Hy by done. injection Hy as <-. lia.
Qed.

Lemma below_offer R e : below R (offer R e).
Proof. unfold offer. destruct (pattern e). apply below_raise. Qed.

Lemma below_offer_all R es : below R (offer_all R es).
Proof. revert R. induction es as [|e es IH]; intros R; [done|]. cbn. etrans; [apply below_offer|apply IH]. Qed.

Lemma add_all_spec elements v R updated pe : sketch v R → ∃ v',
  add_all v updated pe elements = Some (v', updated || negb (same_regs R (offer_all R elements))) ∧
  sketch v' (offer_all R elements) ∧ len v' <= Z.max (len v) DENSE_SIZE.
Proof.
  revert v R updated pe. induction elements as [|e es IH]; intros v R updated pe Hs.
  { exists v. cbn. unfold same_regs. rewrite bool_decide_true, orb_false_r by done. split_and!; [done|done|lia]. }
  cbn [add_all offer_all foldl]. destruct (hll_add_spec v R e pe Hs) as (v1 & pe1 & -> & Hs1 & Hl1). cbn [mbind option_bind].
  destruct (IH v1 (offer R e) (updated || negb (same_regs R (offer R e))) pe1 Hs1) as (v' & -> & Hs' & Hl').
  exists v'. split; [|split; [done|lia]]. do 2 f_equal. rewrite <-orb_assoc, <-negb_andb. do 2 f_equal.
  pose proof (below_offer R e) as H1. pose proof (below_offer_all (offer R e) es) as H2. unfold same_regs, offer_all in *.
  apply Bool.eq_true_iff_eq. rewrite andb_true_iff, !bool_decide_eq_true. split.
  - intros [E1 E2]. congruence.
  - intros E. assert (R = offer R e) as E1; [|split; congruence]. apply below_antisym; [done|]. by rewrite <-E in H2.
Qed.

(** *** Merging registers *)

(** The registers of a union. *)
Definition join (R R' : list Z) : list Z := zip_with Z.max R R'.

Definition regs_ok (R : list Z) : Prop := len R = REGISTERS ∧ Forall (λ x, 0 <= x <= 63) R.

Lemma sketch_ok v R : sketch v R → regs_ok R.
Proof.
  intros Hs. split; [by eapply sketch_length|]. destruct Hs as [hd ops Hhd Hf HR|hd regs Hhd Hb].
  - unfold spread. clear HR. induction Hf as [|o ops Ho Hf IH]; [constructor|]. cbn. apply Forall_app. split; [|done].
    apply Forall_forall. intros x Hx%list_elem_of_In%repeat_spec. subst x. destruct o; cbn in *; unfold VAL_MAX_VALUE in *; lia.
  - apply Forall_fmap, Forall_forall. intros i _. apply dense_get_range.
Qed.

Lemma raise_at T u U i count : i = len T → raise (T ++ u :: U) i count = T ++ Z.max count u :: U.
Proof.
  intros ->. unfold raise. rewrite alter_app_r_alt by lia. by replace (Z.to_nat (len T) - length T)%nat with 0%nat by lia.
Qed.

Lemma raise_run_spec n value : ∀ T U1 U2 i, i = len T → length U1 = n →
  raise_run n (T ++ U1 ++ U2) i value = T ++ join U1 (repeat value n) ++ U2.
Proof.
  induction n as [|n IH]; intros T [|u U1] U2 i Hi Hn; try done. cbn [raise_run app]. rewrite raise_at by done.
  rewrite (cons_middle _ T), app_assoc, IH by (rewrite ?length_app; cbn in *; lia).
  unfold join. cbn. by rewrite <-app_assoc, Z.max_comm.
Qed.

Lemma join_zeros U n : length U = n → Forall (λ x, 0 <= x <= 63) U → join U (repeat 0 n) = U.
Proof. intros <-. induction 1 as [|x U Hx HU IH]; [done|]. unfold join in *. cbn. rewrite IH. f_equal. lia. Qed.

Lemma merge_loop_spec ops : Forall op_fits ops → ∀ i T U,
  i = len T → length U = length (spread ops) → Forall (λ x, 0 <= x <= 63) U → i + len (spread ops) <= REGISTERS →
  merge_loop (code ops) i (T ++ U) = Some (i + len (spread ops), T ++ join U (spread ops)).
Proof.
  induction 1 as [|o ops Ho Hf IH]; intros i T U Hi HU Hr Hle.
  { cbn in HU. apply nil_length_inv in HU as ->. cbn. by rewrite Z.add_0_r. }
  rewrite merge_loop_op by done. pose proof (length_op_regs o Ho) as Hlo. pose proof (op_run_pos o Ho).
  rewrite spread_cons, length_app in *. rewrite <-(take_drop (length (op_regs o)) U) in *.
  set (U1 := take _ U) in *. set (U2 := drop _ U) in *. apply Forall_app in Hr as [Hr1 Hr2].
  assert (length U1 = length (op_regs o)) as HU1 by (unfold U1; rewrite length_take_le; [done|]; rewrite length_app in HU; subst U1 U2; rewrite length_take, length_drop in HU; lia).
  rewrite length_app in HU. unfold join. rewrite zip_with_app by done. fold join.
  assert (merge_loop (code ops) (i + op_run o) ((T ++ join U1 (op_regs o)) ++ U2) =
    Some (i + Z.of_nat (length (op_regs o) + length (spread ops)), T ++ join U1 (op_regs o) ++ join U2 (spread ops))) as Hrest.
  { rewrite IH; [|unfold join; rewrite length_app, length_zip_with; lia|lia|done|lia]. rewrite <-app_assoc. do 2 f_equal. lia. }
  rewrite <-app_assoc in Hrest. destruct o as [n|n|value n]; cbn [op_run] in *.
  1,2: unfold op_regs in Hrest at 1; cbn [op_value op_run] in Hrest; rewrite join_zeros in Hrest by (done || lia); exact Hrest.
  destruct (Z.ltb_spec REGISTERS (n + i)) as [?|_]; [lia|]. rewrite raise_run_spec by lia. exact Hrest.
Qed.

Lemma join_ok R R' : regs_ok R → regs_ok R' → regs_ok (join R R').
Proof.
  intros [HR Hr] [HR' Hr']. split; [unfold join; rewrite length_zip_with; lia|].
  clear HR HR'. revert R' Hr'. unfold join.
  induction Hr as [|x R Hx Hr IH]; intros R' [|y R'' Hy Hr']; cbn; try constructor; [lia|auto].
Qed.

Lemma merge_into_spec max v R : regs_ok max → sketch v R → merge_into max v = Some (join max R).
Proof.
  intros [Hl Hr] Hs. unfold merge_into. destruct Hs as [hd ops Hhd Hf HR|hd regs Hhd Hb];
    rewrite (header_form _ _ _ Hhd), (header_body _ _ _ Hhd).
  - cbn [Z.eqb SPARSE DENSE Pos.eqb]. pose proof (merge_loop_spec ops Hf 0 [] max eq_refl) as Hm. cbn [app] in Hm.
    rewrite Hm by (done || lia). cbn [mbind option_bind]. by rewrite Z.add_0_l, HR, Z.eqb_refl.
  - cbn [Z.eqb DENSE]. f_equal. unfold join. apply list_eq. intros j. rewrite list_lookup_imap, lookup_zip_with.
    destruct (max !! j) as [m|] eqn:Ej; [|done]. cbn. apply lookup_lt_Some in Ej.
    pose proof (lookup_dense_regs regs (Z.of_nat j) ltac:(lia)) as Hd. rewrite Nat2Z.id in Hd. by rewrite Hd.
Qed.

Lemma raise_target_spec v R pe i m : sketch v R → 0 <= i < REGISTERS → 0 <= m <= 63 →
  ∃ v' pe', raise_target (v, pe) i m = (v', pe') ∧ sketch v' (raise R i m) ∧ len v' <= Z.max (len v) DENSE_SIZE.
Proof.
  intros Hs Hi Hm. pose proof (sketch_ok v R Hs) as [HR Hr]. unfold raise_target. destruct (Z.eqb_spec m 0) as [->|Hne].
  - exists v, pe. rewrite raise_same; [split_and!; [done|done|lia]|]. unfold rises.
    destruct (R !! Z.to_nat i) as [x|] eqn:E; [|done]. cbn. apply Z.ltb_ge.
    apply (Forall_lookup_1 _ _ _ _ Hr) in E. lia.
  - destruct Hs as [hd ops Hhd Hf HR'|hd regs Hhd Hb]; rewrite (header_form _ _ _ Hhd).
    + cbn [Z.eqb SPARSE DENSE Pos.eqb]. destruct (sparse_set_spec hd ops i m pe) as (v' & pe' & -> & Hs' & Hl'); [done|done|done|done|lia|].
      eauto.
    + cbn [Z.eqb DENSE]. destruct (set_dense hd regs i m) as (regs' & -> & Hs & _ & Hl); [done..|].
      cbn [fst]. eexists _, pe. split; [done|]. split; [done|]. lia.
Qed.

Lemma raise_all_spec M : ∀ v pe i T U, sketch v (T ++ U) → i = len T → length U = length M →
  Forall (λ x, 0 <= x <= 63) M →
  ∃ v' pe', raise_all (v, pe) i M = (v', pe') ∧ sketch v' (T ++ join U M) ∧ len v' <= Z.max (len v) DENSE_SIZE.
Proof.
  induction M as [|m M IH]; intros v pe i T [|u U] Hs Hi HU HM; try done.
  { exists v, pe. split_and!; [done|done|lia]. }
  apply Forall_cons in HM as [Hm HM]. pose proof (sketch_length _ _ Hs) as Hl. rewrite length_app in Hl. cbn [length] in Hl, HU.
  destruct (raise_target_spec v (T ++ u :: U) pe i m Hs) as (v1 & pe1 & E1 & Hs1 & Hl1); [lia|done|].
  rewrite raise_at, (cons_middle _ T), app_assoc in Hs1 by done.
  destruct (IH v1 pe1 (i + 1) (T ++ [Z.max m u]) U) as (v' & pe' & E & Hs' & Hl');
    [done|rewrite length_app; cbn; lia|lia|done|].
  exists v', pe'. cbn [raise_all]. rewrite E1. split; [done|]. split; [|lia].
  unfold join in *. cbn. rewrite <-app_assoc in Hs'. by rewrite Z.max_comm.
Qed.

(** *** Histograms *)

Definition tally (R : list Z) (k : Z) : Z := len (filter (λ x, x = k) R).

(** How many registers hold each value. *)
Definition counts (R : list Z) : list Z := tally R <$> seqZ 0 64.

Lemma tally_app R R' k : tally (R ++ R') k = tally R k + tally R' k.
Proof. unfold tally. rewrite filter_app, length_app. lia. Qed.

Lemma tally_repeat x n k : tally (repeat x n) k = if x =? k then Z.of_nat n else 0.
Proof.
  unfold tally. induction n as [|n IH]; cbn [repeat]; [by destruct (x =? k)|]. rewrite filter_cons.
  destruct (Z.eqb_spec x k) as [->|Hne]; [rewrite decide_True by done; cbn [length]; lia|by rewrite decide_False].
Qed.

Lemma tally_le R k : 0 <= tally R k <= len R.
Proof. unfold tally. pose proof (length_filter (λ x, x = k) R). lia. Qed.

Lemma lookup_counts R k : 0 <= k < 64 → counts R !! Z.to_nat k = Some (tally R k).
Proof. intros Hk. unfold counts. rewrite list_lookup_fmap, lookup_seqZ_lt by lia. by replace (0 + Z.of_nat (Z.to_nat k)) with k by lia. Qed.

Lemma counts_nil : counts [] = no_counts.
Proof. reflexivity. Qed.

Lemma count_in_counts R k n : 0 <= k < 64 → 0 <= n → len R + n < 2 ^ 32 →
  count_in (counts R) k n = counts (R ++ repeat k (Z.to_nat n)).
Proof.
  intros Hk Hn Hle. unfold count_in. apply list_eq. intros j. destruct (decide (j < 64)%nat) as [Hj|Hj].
  - rewrite <-(Nat2Z.id j), (lookup_counts (R ++ _)), tally_app, tally_repeat by lia.
    pose proof (tally_le R (Z.of_nat j)). destruct (Z.eqb_spec k (Z.of_nat j)) as [->|Hne].
    + rewrite list_lookup_alter_eq, lookup_counts by lia. cbn [fmap option_fmap option_map]. f_equal.
      rewrite Z2Nat.id by lia. apply wrap_id. unfold in_width. lia.
    + rewrite list_lookup_alter_ne, lookup_counts by lia. f_equal. lia.
  - rewrite !lookup_ge_None_2; [done|unfold counts; rewrite length_fmap, length_seqZ; lia|].
    rewrite length_alter. unfold counts. rewrite length_fmap, length_seqZ. lia.
Qed.

Lemma hist_loop_spec ops : Forall op_fits ops → ∀ idx T, len T + len (spread ops) < 2 ^ 32 →
  hist_loop (code ops) idx (counts T) = (idx + len (spread ops), counts (T ++ spread ops)).
Proof.
  induction 1 as [|o ops Ho Hf IH]; intros idx T Hle; [cbn; by rewrite Z.add_0_r, app_nil_r|].
  rewrite hist_loop_op by done. pose proof (length_op_regs o Ho) as Hlo. pose proof (op_run_pos o Ho).
  rewrite spread_cons, length_app in *. assert (0 <= op_value o < 64) by (destruct o; cbn in *; unfold VAL_MAX_VALUE in *; lia).
  rewrite (wrap_id 32 (op_run o)) by (unfold in_width; lia).
  rewrite count_in_counts by lia. fold (op_regs o). rewrite IH by (rewrite length_app; lia).
  f_equal; [lia|]. by rewrite <-app_assoc.
Qed.

Lemma fold_counts {A} (f : A → Z) (l : list A) : ∀ T, (∀ x, x ∈ l → 0 <= f x < 64) → len T + len l < 2 ^ 32 →
  foldl (λ h x, count_in h (f x) 1) (counts T) l = counts (T ++ (f <$> l)).
Proof.
  induction l as [|x l IH]; intros T Hf Hle; [by rewrite app_nil_r|]. cbn [foldl fmap list_fmap]. cbn [length] in Hle.
  rewrite count_in_counts by (try apply Hf; try left; lia). rewrite IH.
  - by rewrite <-app_assoc.
  - intros y Hy. apply Hf. by right.
  - rewrite length_app, repeat_length. lia.
Qed.

Lemma histogram_spec v R : sketch v R → histogram v = Some (counts R).
Proof.
  intros Hs. pose proof (sketch_length _ _ Hs) as Hl. change REGISTERS with 16384 in Hl. unfold histogram.
  rewrite <-counts_nil. destruct Hs as [hd ops Hhd Hf HR|hd regs Hhd Hb];
    rewrite (header_form _ _ _ Hhd), (header_body _ _ _ Hhd).
  - cbn [Z.eqb SPARSE DENSE Pos.eqb]. rewrite hist_loop_spec by (done || cbn [length]; lia).
    by rewrite Z.add_0_l, HR, Z.eqb_refl.
  - cbn [Z.eqb DENSE]. f_equal. apply (fold_counts (dense_get regs)).
    + intros i _. pose proof (dense_get_range regs i). lia.
    + rewrite length_seqZ. done.
Qed.

Lemma raw_histogram_spec R : regs_ok R → raw_histogram R = counts R.
Proof.
  intros [Hl Hr]. rewrite Forall_forall in Hr. unfold raw_histogram. rewrite <-counts_nil.
  assert (∀ r, 0 <= r <= 63 → Z.land r 63 = r) as Hland.
  { intros r Hr'. change 63 with (Z.ones 6). rewrite Z.land_ones by lia. apply Z.mod_small. lia. }
  rewrite (fold_counts (λ r, Z.land r 63)).
  - cbn [app]. f_equal. rewrite <-(list_fmap_id R) at 2. apply list_fmap_ext. intros i r E. apply Hland, Hr. by eapply list_elem_of_lookup_2.
  - intros r E. rewrite Hland by auto. specialize (Hr r E). lia.
  - rewrite Hl. done.
Qed.
