(* ===== verification/Estimate.v ===== *)
(** * The estimator returns

    The loops of [sigma] and [tau] ([Hll], from
    [crates/flint-storage/src/hll.rs]) run until a double no longer changes.
    Bounds on rounding show that they do: in [sigma] the squared argument
    reaches zero, in [tau] the halved weight does, and what is added then is
    zero. *)

From stdpp Require Import base list.
From Stdlib Require Import ZArith Lia SpecFloat.
From S2P Require Import Prelude Hll.

#[local] Open Scope Z_scope.

(** ** Shifting and rounding *)

Lemma iter_pos_nat {A} (f : A → A) p x : iter_pos f p x = Nat.iter (Pos.to_nat p) f x.
Proof.
  revert x. induction p as [p IH|p IH|]; intros x; cbn [iter_pos]; [| |done].
  - rewrite !IH, Pos2Nat.inj_xI. replace (S (2 * Pos.to_nat p)) with (Pos.to_nat p + (Pos.to_nat p + 1))%nat by lia.
    by rewrite !Nat.iter_add.
  - rewrite !IH, Pos2Nat.inj_xO. replace (2 * Pos.to_nat p)%nat with (Pos.to_nat p + Pos.to_nat p)%nat by lia.
    by rewrite Nat.iter_add.
Qed.

Lemma shr_1_m r : 0 <= shr_m r → shr_m (shr_1 r) = shr_m r / 2 ∧ shr_r (shr_1 r) = Z.odd (shr_m r).
Proof.
  destruct r as [[|[p|p|]|p] r s]; cbn [shr_m shr_1 shr_r]; intros H; try done; try lia.
  - split; [|done]. rewrite Pos2Z.inj_xI. apply Z.div_unique with 1; lia.
  - split; [|done]. rewrite Pos2Z.inj_xO. apply Z.div_unique with 0; lia.
Qed.

Lemma shr_m_iter n r : 0 <= shr_m r → shr_m (Nat.iter n shr_1 r) = shr_m r / 2 ^ Z.of_nat n.
Proof.
  intros Hr. induction n as [|n IH]; [cbn; by rewrite Z.div_1_r|]. rewrite Nat.iter_succ.
  assert (0 <= shr_m (Nat.iter n shr_1 r)) as H0 by (rewrite IH; apply Z.div_pos; lia).
  rewrite (proj1 (shr_1_m _ H0)), IH, Z.div_div by lia. f_equal. rewrite Nat2Z.inj_succ, Z.pow_succ_r by lia. lia.
Qed.

Lemma digits_bound p : 2 ^ (Zpos (digits2_pos p) - 1) <= Zpos p < 2 ^ Zpos (digits2_pos p).
Proof.
  induction p as [p IH|p IH|]; cbn [digits2_pos]; [| |done].
  all: rewrite Pos2Z.inj_succ; replace (Z.succ (Zpos (digits2_pos p)) - 1) with (Z.succ (Zpos (digits2_pos p) - 1)) by lia;
    rewrite !Z.pow_succ_r by lia; lia.
Qed.

Lemma digits_le m k : 0 <= m < 2 ^ k → 0 <= k → Zdigits2 m <= k.
Proof.
  intros Hm Hk. destruct m as [|p|p]; cbn [Zdigits2]; [done| |lia]. pose proof (digits_bound p) as Hd.
  destruct (Z.le_gt_cases (Zpos (digits2_pos p)) k) as [?|Hgt]; [done|].
  pose proof (Z.pow_le_mono_r 2 k (Zpos (digits2_pos p) - 1)). lia.
Qed.

(** The exponent a mantissa is aligned to. *)
Definition aligned (m e : Z) : Z := Z.max e (fexp 53 1024 (Zdigits2 m + e)).

Lemma shr_fexp_spec m e l : 0 <= m →
  let '(r, e') := shr_fexp 53 1024 m e l in e' = aligned m e ∧ shr_m r = m / 2 ^ (e' - e).
Proof.
  intros Hm. unfold shr_fexp, aligned. set (n := fexp _ _ _ - e). assert (shr_m (shr_record_of_loc m l) = m) as Er by (by destruct l as [|[]]).
  destruct n as [|p|p] eqn:En; unfold shr.
  - rewrite Er. split; [unfold n in En; lia|]. by rewrite Z.sub_diag, Z.div_1_r.
  - rewrite iter_pos_nat, shr_m_iter, Er by lia. split; [unfold n in En; lia|]. do 2 f_equal. lia.
  - rewrite Er. split; [unfold n in En; lia|]. by rewrite Z.sub_diag, Z.div_1_r.
Qed.

(** Rounding gives zero, or what a mantissa no more than a unit of the aligned
    exponent above the exact one is aligned to. *)
Lemma round_upper s m e l : 0 <= m →
  binary_round_aux 53 1024 s m e l = S754_zero s ∨
  ∃ m1 m2 e2, binary_round_aux 53 1024 s m e l = (if e2 <=? 971 then S754_finite s m2 e2 else S754_infinity s) ∧
    0 <= m1 ∧ m1 * 2 ^ (aligned m e - e) <= m + 2 ^ (aligned m e - e) ∧
    e2 = aligned m1 (aligned m e) ∧ Zpos m2 * 2 ^ (e2 - aligned m e) <= m1.
Proof.
  intros Hm. unfold binary_round_aux. pose proof (shr_fexp_spec m e l Hm) as H1. destruct (shr_fexp 53 1024 m e l) as [r1 e1].
  destruct H1 as [-> Hr1]. set (e1 := aligned m e) in *. assert (e <= e1) as He1 by (unfold e1, aligned; lia).
  set (m1 := round_nearest_even _ _). assert (0 <= shr_m r1) as Hr0 by (rewrite Hr1; apply Z.div_pos; lia).
  assert (0 <= m1 <= shr_m r1 + 1) as Hm1 by (unfold m1, round_nearest_even; repeat case_match; lia).
  pose proof (shr_fexp_spec m1 e1 loc_Exact ltac:(lia)) as H2. destruct (shr_fexp 53 1024 m1 e1 loc_Exact) as [r2 e2].
  destruct H2 as [He2 Hr2]. assert (e1 <= e2) as He12 by (unfold aligned in He2; lia).
  assert (0 <= shr_m r2) as H0 by (rewrite Hr2; apply Z.div_pos; lia).
  destruct (shr_m r2) as [|m2|]; [by left| |lia]. right. exists m1, m2, e2.
  pose proof (Z.mul_div_le m1 (2 ^ (e2 - e1)) ltac:(lia)). pose proof (Z.mul_div_le m (2 ^ (e1 - e)) ltac:(lia)).
  assert (0 < 2 ^ (e1 - e)) by lia. split_and!; [done|lia|nia|done|lia].
Qed.

Lemma aligned_ge m e : e <= aligned m e.
Proof. unfold aligned. lia. Qed.

Lemma aligned_le m e k : 0 <= m → e <= k → m < 2 ^ (k - e) → -1074 <= k → aligned m e <= k ∧ (e <= k - 53 → -1021 <= k → aligned m e <= k - 53).
Proof.
  intros Hm He Hlt Hk. pose proof (digits_le m (k - e) ltac:(lia) ltac:(lia)). unfold aligned, fexp, emin. lia.
Qed.

(** ** Magnitudes *)

(** Below [2 ^ k] in magnitude, and a number. *)
Definition small (k : Z) (f : spec_float) : Prop :=
  match f with S754_zero _ => True | S754_finite _ m e => e <= k ∧ Zpos m < 2 ^ (k - e) | _ => False end.

Lemma small_mono j k f : j <= k → small j f → small k f.
Proof.
  intros Hjk. destruct f as [s|s| |s m e]; try done. intros [He Hm]. split; [lia|].
  eapply Z.lt_le_trans; [apply Hm|]. apply Z.pow_le_mono_r; lia.
Qed.

Lemma round_small s m e l k : 0 <= m → e <= k → m < 2 ^ (k - e) → -1074 <= k <= 970 →
  small (k + 1) (binary_round_aux 53 1024 s m e l).
Proof.
  intros Hm He Hlt Hk. destruct (round_upper s m e l Hm) as [->|(m1 & m2 & e2 & -> & H1 & Hm1 & He2 & Hm2)]; [done|].
  pose proof (aligned_ge m e) as Hge. destruct (aligned_le m e k Hm He Hlt ltac:(lia)) as [Ha _]. set (e1 := aligned m e) in *.
  assert (m1 < 2 ^ (k + 1 - e1)) as Hm1'.
  { assert (m1 * 2 ^ (e1 - e) < 2 ^ (k + 1 - e1) * 2 ^ (e1 - e)); [|nia]. rewrite <-Z.pow_add_r by lia.
    replace (k + 1 - e1 + (e1 - e)) with (Z.succ (k - e)) by lia. rewrite Z.pow_succ_r by lia.
    pose proof (Z.pow_le_mono_r 2 (e1 - e) (k - e)). lia. }
  pose proof (aligned_ge m1 e1) as Hge2. destruct (aligned_le m1 e1 (k + 1) H1 ltac:(lia) Hm1' ltac:(lia)) as [Ha2 _]. rewrite <-He2 in *.
  assert (Zpos m2 < 2 ^ (k + 1 - e2)) as Hm2'.
  { assert (Zpos m2 * 2 ^ (e2 - e1) < 2 ^ (k + 1 - e2) * 2 ^ (e2 - e1)); [|nia]. rewrite <-Z.pow_add_r by lia.
    replace (k + 1 - e2 + (e2 - e1)) with (k + 1 - e1) by lia. lia. }
  rewrite (proj2 (Z.leb_le _ _)) by lia. split; [lia|done].
Qed.

Lemma mul_small j k x y : small j x → small k y → -1074 <= j + k <= 970 → small (j + k + 1) (SFmul 53 1024 x y).
Proof.
  intros Hx Hy Hjk. destruct x as [sx|sx| |sx mx ex], y as [sy|sy| |sy my ey]; try done. destruct Hx as [Hex Hmx], Hy as [Hey Hmy].
  cbn [SFmul]. apply round_small; [lia|lia| |lia]. rewrite Pos2Z.inj_mul.
  replace (j + k - (ex + ey)) with ((j - ex) + (k - ey)) by lia. rewrite Z.pow_add_r by lia. nia.
Qed.

(** What is far below the least double squares to zero. *)
Lemma square_zero k s m e : small k (S754_finite s m e) → k <= -540 → SFmul 53 1024 (S754_finite s m e) (S754_finite s m e) = S754_zero false.
Proof.
  intros [He Hm] Hk. cbn [SFmul]. rewrite xorb_nilpotent. set (M := Zpos (m * m)). set (E := e + e).
  assert (0 <= M < 2 ^ (2 * k - E)) as HM.
  { unfold M, E. rewrite Pos2Z.inj_mul. replace (2 * k - (e + e)) with ((k - e) + (k - e)) by lia. rewrite Z.pow_add_r by lia. nia. }
  pose proof (digits_le M (2 * k - E) HM ltac:(lia)) as Hd. unfold binary_round_aux, shr_fexp at 1.
  assert (fexp 53 1024 (Zdigits2 M + E) = -1074) as -> by (unfold fexp, emin; lia).
  destruct (-1074 - E) as [|n|n] eqn:En; [lia| |lia]. unfold shr. cbn [shr_record_of_loc].
  rewrite iter_pos_nat. destruct (Pos.to_nat n) as [|n'] eqn:En'; [lia|]. rewrite Nat.iter_succ.
  set (r := Nat.iter n' shr_1 _). assert (shr_m r = 0) as Hr.
  { unfold r. rewrite shr_m_iter by done. cbn [shr_m]. apply Z.div_small. split; [lia|].
    eapply Z.lt_le_trans; [apply HM|]. apply Z.pow_le_mono_r; lia. }
  destruct r as [m0 r0 s0]. cbn in Hr. subst m0. cbn [shr_1 shr_m].
  assert (round_nearest_even 0 (loc_of_shr_record (Build_shr_record 0 false (r0 || s0))) = 0) as -> by (by destruct (r0 || s0)).
  pose proof (shr_fexp_spec 0 (E + Z.pos n) loc_Exact ltac:(lia)) as H2. destruct (shr_fexp _ _ _ _ _) as [r2 e2].
  destruct H2 as [_ Hr2]. rewrite Zdiv_0_l in Hr2. by rewrite Hr2.
Qed.

(** ** No number is lost *)

Definition not_nan (f : spec_float) : Prop := f ≠ S754_nan.

Lemma round_not_nan s m e l : 0 <= m → not_nan (binary_round_aux 53 1024 s m e l).
Proof. intros Hm. unfold not_nan. destruct (round_upper s m e l Hm) as [->|(? & ? & e2 & -> & _)]; [done|]. by case_match. Qed.

Lemma iter_xO m d : Zpos (Pos.iter xO m d) = Zpos m * 2 ^ Zpos d.
Proof.
  induction d as [|d IH] using Pos.peano_ind; [cbn; lia|].
  rewrite Pos.iter_succ, Pos2Z.inj_succ, Z.pow_succ_r, (Pos2Z.inj_xO (Pos.iter _ _ _)), IH by lia. lia.
Qed.

Lemma shl_align_spec m e e' : let '(m', e'') := shl_align m e e' in e'' = Z.min e e' ∧ Zpos m' = Zpos m * 2 ^ (e - e'').
Proof.
  unfold shl_align. destruct (e' - e) as [|d|d] eqn:E; [split; [lia|]..|].
  - rewrite Z.sub_diag. lia.
  - rewrite Z.sub_diag. lia.
  - split; [lia|]. rewrite iter_xO. do 2 f_equal. lia.
Qed.

Lemma normalize_not_nan m e s : not_nan (binary_normalize 53 1024 m e s).
Proof. destruct m as [|p|p]; [done|..]; cbn [binary_normalize]; unfold binary_round; destruct (shl_align _ _ _); by apply round_not_nan. Qed.

Lemma normalize_small m e s k : e <= k → Z.abs m < 2 ^ (k - e) → -1074 <= k <= 970 → small (k + 1) (binary_normalize 53 1024 m e s).
Proof.
  intros He Hm Hk.
  assert (∀ s p, Zpos p < 2 ^ (k - e) → small (k + 1) (binary_round 53 1024 s p e)) as H.
  { intros s' p Hp. unfold binary_round. pose proof (shl_align_spec p e (fexp 53 1024 (Zpos (digits2_pos p) + e))) as Hs.
    destruct (shl_align _ _ _) as [m' e']. destruct Hs as [He' Hm']. apply round_small; [lia|lia| |lia]. rewrite Hm'.
    replace (k - e') with ((k - e) + (e - e')) by lia. rewrite Z.pow_add_r by lia. nia. }
  destruct m as [|p|p]; [done|..]; cbn [binary_normalize]; apply H; lia.
Qed.

Lemma align_small k s m e e' : small k (S754_finite s m e) → e' <= e →
  Z.abs (cond_Zopp s (Zpos (fst (shl_align m e e')))) < 2 ^ (k - e').
Proof.
  intros [He Hm] He'. pose proof (shl_align_spec m e e') as Hs. destruct (shl_align m e e') as [m' e'']. destruct Hs as [-> Hm'].
  assert (Z.abs (cond_Zopp s (Zpos m')) = Zpos m') as E by (destruct s; done). cbn [fst]. rewrite E, Hm', Z.min_r by lia.
  replace (k - e') with ((k - e) + (e - e')) by lia. rewrite Z.pow_add_r by lia. nia.
Qed.

Lemma sub_small k x y : small k x → small k y → -1074 <= k + 1 <= 970 → small (k + 2) (SFsub 53 1024 x y).
Proof.
  intros Hx Hy Hk. destruct x as [sx|sx| |sx mx ex], y as [sy|sy| |sy my ey]; try done.
  - by destruct sx, sy.
  - cbn. apply (small_mono k (k + 2) (S754_finite (negb sy) my ey)); [lia|]. done.
  - cbn. apply (small_mono k (k + 2) (S754_finite sx mx ex)); [lia|]. done.
  - pose proof (proj1 Hx). pose proof (proj1 Hy).
    pose proof (align_small k sx mx ex (Z.min ex ey) Hx ltac:(lia)) as Hax.
    pose proof (align_small k sy my ey (Z.min ex ey) Hy ltac:(lia)) as Hay.
    cbn [SFsub]. replace (k + 2) with ((k + 1) + 1) by lia. apply normalize_small; [lia| |lia].
    revert Hax Hay. generalize (cond_Zopp sx (Z.pos (shl_align mx ex (Z.min ex ey)).1)), (cond_Zopp sy (Z.pos (shl_align my ey (Z.min ex ey)).1)).
    intros A B Hax Hay.
    replace (k + 1 - Z.min ex ey) with (Z.succ (k - Z.min ex ey)) by lia. rewrite Z.pow_succ_r by lia. lia.
Qed.

Lemma sub_not_nan z t k : not_nan z → small k t → not_nan (SFsub 53 1024 z t).
Proof.
  intros Hz Ht. destruct z as [sz|sz| |sz mz ez], t as [sy|sy| |sy my ey]; try done; cbn [SFsub].
  - by destruct sz, sy.
  - apply normalize_not_nan.
Qed.

Lemma sub_zero z s : not_nan z → SFeqb z (SFsub 53 1024 z (S754_zero s)) = true.
Proof.
  intros Hz. destruct z as [sz|sz| |sz mz ez]; [by destruct sz, s|by destruct sz|done|].
  cbn [SFsub]. unfold SFeqb, SFcompare. rewrite Z.compare_refl.
  assert (Pos.compare_cont Eq mz mz = Eq) as -> by (apply Pos.compare_refl). by destruct sz.
Qed.

(** ** The square root *)

Definition nonneg (f : spec_float) : Prop :=
  match f with S754_zero _ => True | S754_finite s _ _ => s = false | S754_infinity s => s = false | S754_nan => False end.

Lemma round_nonneg m e l : 0 <= m → nonneg (binary_round_aux 53 1024 false m e l).
Proof. intros Hm. destruct (round_upper false m e l Hm) as [->|(? & ? & e2 & -> & _)]; [done|]. by case_match. Qed.

Lemma sqrt_small x : nonneg x → small 2 x → nonneg (SFsqrt 53 1024 x) ∧ small 2 (SFsqrt 53 1024 x).
Proof.
  intros Hn Hs. destruct x as [s|s| |s m e]; try done. cbn in Hn. subst s. destruct Hs as [He Hm].
  cbn [SFsqrt SFsqrt_core_binary]. unfold SFsqrt_core_binary.
  set (e' := Z.min (fexp 53 1024 (Z.div2 (Zdigits2 (Zpos m) + e + 1))) (Z.div2 e)).
  assert (2 * e' <= e) as He' by (pose proof (Z.div2_odd e); destruct (Z.odd e); cbn [Z.b2z] in *; lia).
  set (m' := match e - 2 * e' with Z0 => _ | Zpos _ => _ | Zneg _ => _ end).
  assert (m' = Zpos m * 2 ^ (e - 2 * e')) as Em'.
  { unfold m'. destruct (e - 2 * e') as [|p|p] eqn:E; [lia|apply Z.shiftl_mul_pow2; lia|lia]. }
  pose proof (Z.sqrtrem_spec m' ltac:(lia)) as Hq. destruct (Z.sqrtrem m') as [q r]. destruct Hq as [Hq Hr].
  assert (e' <= 1) by (assert (e < 2); [|lia]; destruct (Z.eq_dec e 2) as [->|]; [cbn in Hm|]; lia).
  assert (0 <= q) by (destruct (Z.eq_dec r 0); nia).
  assert (q < 2 ^ (1 - e')) as Hlt.
  { assert (q * q < 2 ^ (1 - e') * 2 ^ (1 - e')); [|nia]. rewrite <-Z.pow_add_r by lia.
    replace (1 - e' + (1 - e')) with ((2 - e) + (e - 2 * e')) by lia. rewrite Z.pow_add_r by lia. nia. }
  split; [by apply round_nonneg|]. apply (round_small _ _ _ _ 1); lia.
Qed.

(** ** tau *)

Definition smallb (k : Z) (f : spec_float) : bool :=
  match f with S754_zero _ => true | S754_finite _ m e => (e <=? k) && (Zpos m <? 2 ^ (k - e)) | _ => false end.

Lemma smallb_small k f : smallb k f = true → small k f.
Proof. destruct f as [s|s| |s m e]; cbn; try done. by intros [?%Z.leb_le ?%Z.ltb_lt]%andb_true_iff. Qed.

(** Halving [y] [n] times stays below 2 and ends at zero. *)
Fixpoint halves (n : nat) (y : spec_float) : bool :=
  match n with
  | O => match y with S754_zero _ => true | _ => false end
  | S n => let y := SFmul 53 1024 y f_half in smallb 1 y && halves n y
  end.

Lemma halves_one : halves 1075 (f_of 1) = true.
Proof. vm_compute. reflexivity. Qed.

Lemma tau_loop_returns n : ∀ fuel x y z, (n < fuel)%nat → halves n y = true → nonneg x → small 2 x → not_nan z →
  ∃ r, tau_loop fuel x y z = Some r.
Proof.
  assert (small 2 (f_of 1)) as H1 by (by apply smallb_small).
  induction n as [|n IH]; intros fuel x y z Hf Hy Hn Hx Hz; (destruct fuel as [|fuel]; [lia|]); cbn [tau_loop]; cbv zeta;
    destruct (sqrt_small x Hn Hx) as [Hn' Hx']; pose proof (sub_small 2 (f_of 1) _ H1 Hx' ltac:(lia)) as Hd;
    pose proof (mul_small 4 4 _ _ Hd Hd ltac:(lia)) as Hd2; change (4 + 4 + 1) with 9 in Hd2; set (d2 := fmul (fsub _ _) (fsub _ _)) in *.
  - destruct y as [s| | |]; try done.
    assert (∃ s', SFmul 53 1024 d2 (SFmul 53 1024 (S754_zero s) f_half) = S754_zero s') as [s' Es].
    { assert (SFmul 53 1024 (S754_zero s) f_half = S754_zero s) as -> by (by destruct s). destruct d2; try done; eauto. }
    rewrite Es, sub_zero by done. eauto.
  - cbn [halves] in Hy. apply andb_true_iff in Hy as [Hy1%smallb_small Hy].
    pose proof (mul_small 9 1 _ _ Hd2 Hy1 ltac:(lia)) as Ht. case_match; [eauto|].
    apply IH; [lia|done|done|done|]. by eapply sub_not_nan.
Qed.

Lemma tau_returns fuel x : (1075 < fuel)%nat → nonneg x → small 2 x → ∃ r, tau fuel x = Some r.
Proof.
  intros Hf Hn Hx. unfold tau. destruct (_ || _); [eauto|]. apply (tau_loop_returns 1075); [done|apply halves_one|done|done|].
  assert (small 2 (f_of 1)) as H1 by (by apply smallb_small). eapply sub_not_nan; [|done]. by destruct (f_of 1).
Qed.

(** ** sigma *)

(** A double in [0, M / 2 ^ 53]. *)
Definition near (M : Z) (f : spec_float) : Prop :=
  match f with
  | S754_zero _ => True
  | S754_finite s m e => s = false ∧ e <= -53 ∧ Zpos m <= M * 2 ^ (-53 - e)
  | _ => False
  end.

Lemma round_near m e l B M : 0 <= m → e <= -53 → m * 2 ^ 53 <= B * 2 ^ (-53 - e) → B + 2 ^ 53 <= M * 2 ^ 53 → 0 <= M < 2 ^ 53 →
  near M (binary_round_aux 53 1024 false m e l).
Proof.
  intros Hm He HB HM HM53. destruct (round_upper false m e l Hm) as [->|(m1 & m2 & e2 & -> & H1 & Hm1 & He2 & Hm2)]; [done|].
  assert (m < 2 ^ (0 - e)) as Hlt.
  { assert (m * 2 ^ 53 < 2 ^ 53 * 2 ^ 53 * 2 ^ (-53 - e)) as H by (assert (0 < 2 ^ (-53 - e)) by lia; nia).
    replace (0 - e) with (53 + (-53 - e)) by lia. rewrite Z.pow_add_r by lia. lia. }
  pose proof (aligned_ge m e) as Hge. destruct (aligned_le m e 0 Hm ltac:(lia) Hlt ltac:(lia)) as [_ Ha].
  specialize (Ha ltac:(lia) ltac:(lia)). set (e1 := aligned m e) in *.
  assert (m1 <= M * 2 ^ (-53 - e1)) as Hm1'.
  { assert (0 < 2 ^ (e1 - e)) as Hp by lia. assert (0 < 2 ^ (-53 - e1)) as Hp' by lia.
    replace (-53 - e) with ((-53 - e1) + (e1 - e)) in HB by lia. rewrite Z.pow_add_r in HB by lia.
    assert (m1 * 2 ^ 53 * 2 ^ (e1 - e) <= (B + 2 ^ 53) * 2 ^ (-53 - e1) * 2 ^ (e1 - e)) as H by nia.
    assert (m1 * 2 ^ 53 <= (B + 2 ^ 53) * 2 ^ (-53 - e1)) as H' by nia. nia. }
  assert (m1 < 2 ^ (0 - e1)) as Hlt1.
  { replace (0 - e1) with (53 + (-53 - e1)) by lia. rewrite Z.pow_add_r by lia. assert (0 < 2 ^ (-53 - e1)) by lia. nia. }
  pose proof (aligned_ge m1 e1) as Hge2. destruct (aligned_le m1 e1 0 H1 ltac:(lia) Hlt1 ltac:(lia)) as [_ Ha2].
  specialize (Ha2 ltac:(lia) ltac:(lia)). rewrite <-He2 in *. rewrite (proj2 (Z.leb_le _ _)) by lia. split_and!; [done|done|].
  assert (0 < 2 ^ (e2 - e1)) by lia. replace (-53 - e1) with ((-53 - e2) + (e2 - e1)) in Hm1' by lia.
  rewrite Z.pow_add_r in Hm1' by lia. nia.
Qed.

Abbreviation square x := (SFmul 53 1024 x x).

Lemma square_near x M M' : near M x → 0 <= M → M * M + 2 ^ 53 <= M' * 2 ^ 53 → M' < 2 ^ 53 → near M' (square x).
Proof.
  intros Hx HM HM' Hlt. destruct x as [s|s| |s m e]; try done. destruct Hx as (-> & He & Hm). cbn [SFmul xorb].
  apply (round_near _ _ _ (M * M)); [lia|lia| |done|nia]. rewrite Pos2Z.inj_mul.
  replace (-53 - (e + e)) with (53 + ((-53 - e) + (-53 - e))) by lia. rewrite !Z.pow_add_r by lia. nia.
Qed.

(** A finite double that is not negative; and one that [n] squarings take to zero. *)
Definition magnitude (f : spec_float) : Prop :=
  match f with S754_zero _ => True | S754_finite s _ _ => s = false | _ => False end.

Fixpoint dies (n : nat) (x : spec_float) : Prop :=
  match n with
  | O => match x with S754_zero _ => True | _ => False end
  | S n => magnitude x ∧ dies n (square x)
  end.

Lemma square_magnitude k x : small k x → -1074 <= k + k <= 970 → magnitude (square x).
Proof.
  intros Hx Hk. pose proof (mul_small k k x x Hx Hx Hk) as Hs. destruct x as [s|s| |s m e]; try done.
  cbn [SFmul] in *. rewrite xorb_nilpotent in *. pose proof (round_nonneg (Zpos (m * m)) (e + e) loc_Exact ltac:(lia)) as Hn.
  by destruct (binary_round_aux _ _ _ _ _).
Qed.

Lemma small_dies x : small (-42) x → magnitude x → dies 6 x.
Proof.
  intros H0 Hm. pose proof (mul_small _ _ _ _ H0 H0 ltac:(lia)) as H1. pose proof (mul_small _ _ _ _ H1 H1 ltac:(lia)) as H2.
  pose proof (mul_small _ _ _ _ H2 H2 ltac:(lia)) as H3. pose proof (mul_small _ _ _ _ H3 H3 ltac:(lia)) as H4.
  pose proof (square_magnitude _ _ H0 ltac:(lia)) as M1. pose proof (square_magnitude _ _ H1 ltac:(lia)) as M2.
  pose proof (square_magnitude _ _ H2 ltac:(lia)) as M3. pose proof (square_magnitude _ _ H3 ltac:(lia)) as M4.
  do 5 (split; [done|]). revert H4 M4. generalize (square (square (square (square x)))). clear.
  intros y Hs Hm. destruct y as [s|s| |s m e]; try done. rewrite (square_zero _ s m e Hs) by lia. done.
Qed.

(** The bound after each squaring, until it is below [2 ^ 10 / 2 ^ 53]. *)
Fixpoint squares (n : nat) (M : Z) : bool :=
  match n with
  | O => M <? 2 ^ 10
  | S n => let M := M * M / 2 ^ 53 + 2 in (M <? 2 ^ 53) && squares n M
  end.

Lemma near_dies n : ∀ x M, near M x → 0 <= M → squares n M = true → dies (n + 6) x.
Proof.
  assert (∀ x M, near M x → magnitude x) as Hmag by (intros [s|s| |s m e] M; cbn; tauto).
  induction n as [|n IH]; intros x M Hx HM Hs.
  - apply small_dies; [|by eapply Hmag]. apply Z.ltb_lt in Hs. destruct x as [s|s| |s m e]; try done.
    destruct Hx as (-> & He & Hm). split; [lia|]. replace (-42 - e) with (11 + (-53 - e)) by lia. rewrite Z.pow_add_r by lia.
    assert (0 < 2 ^ (-53 - e)) by lia. nia.
  - cbn [squares] in Hs. apply andb_true_iff in Hs as [Hlt%Z.ltb_lt Hs]. split; [by eapply Hmag|].
    pose proof (Z.div_pos (M * M) (2 ^ 53) ltac:(nia) ltac:(lia)).
    eapply IH; [|idtac|exact Hs]; [|lia]. eapply square_near; [done|done| |done].
    pose proof (Z.div_mod (M * M) (2 ^ 53) ltac:(lia)). pose proof (Z.mod_pos_bound (M * M) (2 ^ 53) ltac:(lia)). lia.
Qed.

(** The weights of [sigma] are positive numbers. *)
Fixpoint doubles (n : nat) (y : spec_float) : bool :=
  match y with S754_finite false _ _ => match n with O => true | S n => doubles n (SFadd 53 1024 y y) end | _ => false end.

Lemma mul_magnitude x m e : magnitude x → nonneg (SFmul 53 1024 x (S754_finite false m e)).
Proof. destruct x as [s|s| |s mx ex]; try done. cbn [magnitude]. intros ->. cbn [SFmul xorb]. by apply round_nonneg. Qed.

Lemma add_nonneg z t : nonneg z → nonneg t → nonneg (SFadd 53 1024 z t).
Proof.
  intros Hz Ht. destruct z as [sz|sz| |sz mz ez], t as [sy|sy| |sy my ey]; try done; cbn in Hz, Ht; subst; try done.
  - by destruct sz, sy.
  - cbn [SFadd cond_Zopp]. rewrite <-Pos2Z.inj_add. cbn [binary_normalize]. unfold binary_round. destruct (shl_align _ _ _).
    by apply round_nonneg.
Qed.

Lemma add_zero z s : nonneg z → SFeqb z (SFadd 53 1024 z (S754_zero s)) = true.
Proof.
  intros Hz. destruct z as [sz|sz| |sz mz ez]; cbn in Hz; subst; [by destruct sz, s|done|done|].
  cbn [SFadd]. unfold SFeqb, SFcompare. rewrite Z.compare_refl.
  assert (Pos.compare_cont Eq mz mz = Eq) as -> by (apply Pos.compare_refl). done.
Qed.

Lemma sigma_loop_returns n : ∀ fuel x y z, (n < fuel)%nat → dies n x → doubles n y = true → nonneg z →
  ∃ r, sigma_loop fuel x y z = Some r.
Proof.
  induction n as [|n IH]; intros fuel x y z Hf Hx Hy Hz; (destruct fuel as [|fuel]; [lia|]); cbn [sigma_loop]; cbv zeta;
    destruct y as [|sy| |sy my ey]; try done; destruct sy; try done.
  - destruct x as [sx| | |]; try done. cbn [SFmul]. rewrite add_zero by done. eauto.
  - destruct Hx as [Hx Hdies]. cbn [doubles] in Hy. case_match; [eauto|].
    apply IH; [lia|done|done|]. apply add_nonneg; [done|]. apply mul_magnitude.
    destruct n; cbn in Hdies; [by destruct (square x)|tauto].
Qed.

Lemma sigma_bounds : squares 24 (2 ^ 53 - 2 ^ 39 + 1) = true ∧ doubles 30 (f_of 1) = true.
Proof. split; vm_compute; reflexivity. Qed.

Lemma sigma_returns fuel x : (30 < fuel)%nat → near (2 ^ 53 - 2 ^ 39 + 1) x → ∃ r, sigma fuel x = Some r.
Proof.
  intros Hf Hx. assert (nonneg x) as Hn by (destruct x; [done|done|done|apply Hx]).
  unfold sigma. destruct (SFeqb _ _); [eauto|]. destruct sigma_bounds as [Hs Hd].
  apply (sigma_loop_returns 30); [done| |done|done]. change 30%nat with (24 + 6)%nat. by apply (near_dies 24 _ _ Hx).
Qed.

(** ** The arguments of the loops *)

Lemma f_of_exact k : 1 <= k <= REGISTERS → ∃ m e, f_of k = S754_finite false m e ∧ Zpos m = k * 2 ^ (- e) ∧ e <= -38 ∧ (k < REGISTERS → e <= -39).
Proof.
  change REGISTERS with (2 ^ 14). intros Hk. destruct k as [|p|p]; try lia. unfold f_of. cbn [binary_normalize]. unfold binary_round.
  pose proof (digits_bound p) as Hd. set (d := Zpos (digits2_pos p)) in *.
  assert (1 <= d <= 15 ∧ (Zpos p < 2 ^ 14 → d <= 14)) as [Hd15 Hd14].
  { split; [split; [unfold d; lia|]|intros Hlt]; apply Z.nlt_ge; intros Hgt;
      [pose proof (Z.pow_le_mono_r 2 15 (d - 1))|pose proof (Z.pow_le_mono_r 2 14 (d - 1))]; lia. }
  assert (fexp 53 1024 (d + 0) = d - 53) as -> by (unfold fexp, emin; lia).
  pose proof (shl_align_spec p 0 (d - 53)) as Hs. destruct (shl_align p 0 (d - 53)) as [m e]. destruct Hs as [He Hm].
  assert (e = d - 53) as -> by lia. clear He. replace (0 - (d - 53)) with (53 - d) in Hm by lia.
  assert (Zpos (digits2_pos m) = 53) as Hdm.
  { pose proof (digits_bound m) as Hb. rewrite Hm in Hb.
    assert (2 ^ 52 <= Zpos p * 2 ^ (53 - d) < 2 ^ 53) as Hr.
    { replace (2 ^ 52) with (2 ^ (d - 1) * 2 ^ (53 - d)) by (rewrite <-Z.pow_add_r by lia; f_equal; lia).
      replace (2 ^ 53) with (2 ^ d * 2 ^ (53 - d)) by (rewrite <-Z.pow_add_r by lia; f_equal; lia). nia. }
    destruct (Z.lt_trichotomy (Zpos (digits2_pos m)) 53) as [Hlt|[?|Hgt]]; [|done|].
    - pose proof (Z.pow_le_mono_r 2 (Zpos (digits2_pos m)) 52). lia.
    - pose proof (Z.pow_le_mono_r 2 53 (Zpos (digits2_pos m) - 1)). lia. }
  exists m, (d - 53). split_and!; [|rewrite Hm; do 2 f_equal; lia|lia|intros; lia].
  assert (∀ l, shr_fexp 53 1024 (Zpos m) (d - 53) l = (shr_record_of_loc (Zpos m) l, d - 53)) as Hshr.
  { intros l. unfold shr_fexp. cbn [Zdigits2]. rewrite Hdm.
    replace (fexp 53 1024 (53 + (d - 53)) - (d - 53)) with 0 by (unfold fexp, emin; lia). done. }
  unfold binary_round_aux. rewrite Hshr. cbn [shr_record_of_loc loc_of_shr_record round_nearest_even shr_m]. rewrite Hshr.
  cbn [shr_record_of_loc shr_m]. by rewrite (proj2 (Z.leb_le _ _)) by lia.
Qed.

Lemma f_registers : f_of REGISTERS = S754_finite false 4503599627370496 (-38).
Proof. vm_compute. reflexivity. Qed.

(** Dividing by the number of registers. *)
Lemma div_registers m e k : e <= k → Zpos m < 2 ^ (k - e) → 15 <= k <= 100 → ∃ q e' l,
  SFdiv 53 1024 (S754_finite false m e) (f_of REGISTERS) = binary_round_aux 53 1024 false q e' l ∧
  0 <= q ∧ q * 2 ^ 52 <= Zpos m * 2 ^ (e + 38 - e') ∧ e' <= e + 38 ∧ e' <= k - 68.
Proof.
  intros He Hm Hk. rewrite f_registers. cbn [SFdiv xorb]. unfold SFdiv_core_binary.
  pose proof (digits_le (Zpos m) (k - e) ltac:(lia) ltac:(lia)) as Hd. set (d := Zdigits2 (Zpos m)) in *.
  assert (1 <= d) as Hd1 by (unfold d; cbn; lia).
  set (e' := Z.min _ _). change (Zdigits2 (Zpos 4503599627370496)) with 53 in e'.
  set (m' := match e - -38 - e' with Z0 => _ | Zpos _ => _ | Zneg _ => _ end).
  assert (m' = Zpos m * 2 ^ (e + 38 - e')) as Em.
  { unfold m'. replace (e + 38 - e') with (e - -38 - e') by lia.
    destruct (e - -38 - e') as [|p|p] eqn:E; [cbn; lia|apply Z.shiftl_mul_pow2; lia|unfold e' in E; lia]. }
  assert (Z.div_eucl m' (Zpos 4503599627370496) = (m' / Zpos 4503599627370496, m' mod Zpos 4503599627370496)) as ->.
  { unfold Z.div, Z.modulo. by destruct (Z.div_eucl _ _). }
  eexists _, e', _. split; [reflexivity|]. assert (0 <= m') as H0 by lia. rewrite <-Em.
  split_and!; [apply Z.div_pos; lia| |unfold e'; lia|unfold e', fexp, emin; lia].
  change (2 ^ 52) with 4503599627370496. pose proof (Z.mul_div_le m' 4503599627370496 ltac:(lia)). lia.
Qed.

Lemma sigma_arg k : 0 <= k < REGISTERS → near (2 ^ 53 - 2 ^ 39 + 1) (SFdiv 53 1024 (f_of k) (f_of REGISTERS)).
Proof.
  intros Hk. destruct (Z.eq_dec k 0) as [->|Hk0]; [by rewrite f_registers|].
  destruct (f_of_exact k ltac:(lia)) as (m & e & -> & Hm & _ & He). specialize (He ltac:(lia)). change REGISTERS with (2 ^ 14) in Hk.
  destruct (div_registers m e 15) as (q & e' & l & -> & Hq0 & Hq & He1 & He2); [lia| |lia|].
  { rewrite Hm. replace (15 - e) with (15 + - e) by lia. rewrite Z.pow_add_r by lia. assert (0 < 2 ^ (- e)) by lia. nia. }
  apply (round_near _ _ _ (k * 2 ^ 92)); [done|lia| |lia|lia].
  rewrite Hm, <-Z.mul_assoc, <-Z.pow_add_r in Hq by lia. replace (- e + (e + 38 - e')) with (91 + (-53 - e')) in Hq by lia.
  rewrite Z.pow_add_r in Hq by lia. nia.
Qed.

Lemma tau_arg h : 0 <= h <= REGISTERS →
  let x := SFdiv 53 1024 (SFsub 53 1024 (f_of REGISTERS) (f_of h)) (f_of REGISTERS) in nonneg x ∧ small 2 x.
Proof.
  intros Hh x. destruct (Z.eq_dec h 0) as [->|Hh0].
  { assert (x = f_of 1) as -> by (vm_compute; reflexivity). split; [done|]. by apply smallb_small. }
  destruct (f_of_exact h ltac:(lia)) as (m & e & Eh & Hm & He & _).
  set (d := SFsub 53 1024 (f_of REGISTERS) (f_of h)) in *. assert (nonneg d ∧ small 15 d) as [Hn Hs].
  { unfold d. rewrite f_registers, Eh. cbn [SFsub cond_Zopp].
    pose proof (shl_align_spec 4503599627370496 (-38) (Z.min (-38) e)) as H1. destruct (shl_align 4503599627370496 _ _) as [m1 e1].
    pose proof (shl_align_spec m e (Z.min (-38) e)) as H2. destruct (shl_align m e _) as [m2 e2]. cbn [fst].
    destruct H1 as [-> H1], H2 as [-> H2]. rewrite H1, H2, Hm. rewrite !Z.min_r by lia.
    replace (Zpos 4503599627370496 * 2 ^ (-38 - e)) with (2 ^ 14 * 2 ^ (- e)).
    2:{ change (Zpos 4503599627370496) with (2 ^ 52). rewrite <-!Z.pow_add_r by lia. f_equal. lia. }
    rewrite Z.sub_diag, Z.mul_1_r, <-Z.mul_sub_distr_r. change REGISTERS with (2 ^ 14) in Hh. assert (0 < 2 ^ (- e)) as Hp by lia.
    set (D := (2 ^ 14 - h) * 2 ^ (- e)). assert (0 <= D < 2 ^ 14 * 2 ^ (- e)) as HD by (unfold D; nia). split.
    - destruct D as [|p|p]; [done| |lia]. cbn [binary_normalize]. unfold binary_round. destruct (shl_align _ _ _). by apply round_nonneg.
    - apply (normalize_small _ _ _ 14); [lia| |lia]. rewrite Z.abs_eq by lia. replace (14 - e) with (14 + - e) by lia.
      rewrite Z.pow_add_r by lia. lia. }
  unfold x. destruct d as [s|s| |s md ed]; try done. cbn in Hn. subst s. destruct Hs as [Hed Hmd].
  destruct (div_registers md ed 15) as (q & e' & l & -> & Hq0 & Hq & He1 & He2); [done|done|lia|].
  split; [by apply round_nonneg|]. apply (round_small _ _ _ _ 1); [done|lia| |lia].
  assert (q * 2 ^ 52 < 2 ^ (1 - e') * 2 ^ 52); [|lia]. rewrite <-Z.pow_add_r by lia.
  replace (1 - e' + 52) with ((15 - ed) + (ed + 38 - e')) by lia. rewrite Z.pow_add_r by lia.
  assert (0 < 2 ^ (ed + 38 - e')) by lia. nia.
Qed.

(** The estimate of a histogram of the registers is a number. *)
Lemma estimate_returns fuel h : (1075 < fuel)%nat → 0 <= count_of h 0 <= REGISTERS → 0 <= count_of h (HLL_Q + 1) <= REGISTERS →
  ∃ n, estimate fuel h = Some n.
Proof.
  intros Hf H0 H51. unfold estimate. destruct (tau_arg _ H51) as [Hn Hs].
  destruct (tau_returns fuel _ Hf Hn Hs) as [t ->]. cbn [mbind option_bind].
  assert (∃ s, sigma fuel (SFdiv 53 1024 (f_of (count_of h 0)) (f_of REGISTERS)) = Some s) as [s ->]; [|eexists; reflexivity].
  destruct (Z.eq_dec (count_of h 0) REGISTERS) as [->|Hne].
  - exists (S754_infinity false). unfold sigma.
    assert (SFeqb (SFdiv 53 1024 (f_of REGISTERS) (f_of REGISTERS)) (f_of 1) = true) as -> by (vm_compute; reflexivity). done.
  - apply sigma_returns; [lia|]. apply sigma_arg. lia.
Qed.
