(* ===== verification/HllOps.v ===== *)
(** * HyperLogLog commands

    [PFADD], [PFCOUNT] and [PFMERGE] over the store ([Hll], from
    [crates/flint-storage/src/hll.rs]): a key's string is a sketch of a set,
    the registers depend on nothing but the elements offered, and the three
    commands edit, count and join those registers whatever form the strings
    take. *)

From stdpp Require Import base list gmap strings.
From Stdlib Require Import ZArith Lia SpecFloat.
From Stdlib Require Strings.Byte.
From S2P Require Import Prelude Encoding Kv Store F64 Bits Strings Hll Estimate.

(** ** Registers are a set's *)

(** The registers take the element into account. *)
Definition covers (R : list Z) (element : bytes) : Prop :=
  let '(i, count) := pattern element in ∃ x, R !! Z.to_nat i = Some x ∧ count <= x.

Lemma below_lookup R R' i x : below R R' → R !! i = Some x → ∃ y, R' !! i = Some y ∧ x <= y.
Proof. intros H Hx. by eapply Forall2_lookup_l in H. Qed.

Lemma covers_below R R' e : below R R' → covers R e → covers R' e.
Proof.
  intros H. unfold covers. destruct (pattern e) as [i count]. intros (x & Hx & Hle).
  destruct (below_lookup _ _ _ _ H Hx) as (y & Hy & ?). exists y. split; [done|lia].
Qed.

Lemma offer_covers R e : len R = REGISTERS → covers (offer R e) e.
Proof.
  intros HR. unfold covers, offer. pose proof (pattern_range e) as Hp. destruct (pattern e) as [i count]. destruct Hp as [Hi _].
  destruct (lookup_lt_is_Some_2 R (Z.to_nat i)) as [x Hx]; [lia|]. exists (Z.max count x). unfold raise.
  rewrite list_lookup_alter_eq, Hx. split; [done|lia].
Qed.

Lemma length_offer R e : length (offer R e) = length R.
Proof. unfold offer. destruct (pattern e). apply length_raise. Qed.

Lemma offer_all_cons R e es : offer_all R (e :: es) = offer_all (offer R e) es.
Proof. done. Qed.

Lemma length_offer_all R es : length (offer_all R es) = length R.
Proof. revert R. induction es as [|e es IH]; intros R; [done|]. by rewrite offer_all_cons, IH, length_offer. Qed.

Lemma offer_least R R' e : below R R' → covers R' e → below (offer R e) R'.
Proof.
  unfold offer, covers. destruct (pattern e) as [i count]. intros Hb (y & Hy & Hle).
  apply Forall2_same_length_lookup. split; [rewrite length_raise; by eapply Forall2_length|].
  intros j a b Ha Hb'. unfold raise in Ha. destruct (decide (Z.to_nat i = j)) as [<-|Hne].
  - rewrite list_lookup_alter_eq in Ha. destruct (R !! Z.to_nat i) as [x|] eqn:Hx; [|done]. cbn in Ha. injection Ha as <-.
    destruct (below_lookup _ _ _ _ Hb Hx) as (z & Hz & ?). assert (z = b) as -> by congruence. assert (y = b) as -> by congruence. lia.
  - rewrite list_lookup_alter_ne in Ha by done. destruct (below_lookup _ _ _ _ Hb Ha) as (z & Hz & ?). congruence.
Qed.

(** The offered registers are the least that cover the elements. *)
Lemma offer_all_covers R es e : len R = REGISTERS → e ∈ es → covers (offer_all R es) e.
Proof.
  revert R. induction es as [|e' es IH]; intros R HR He; [by apply elem_of_nil in He|]. rewrite offer_all_cons.
  apply elem_of_cons in He as [->|He].
  - eapply covers_below; [apply below_offer_all|]. by apply offer_covers.
  - apply IH; [by rewrite length_offer|done].
Qed.

Lemma offer_all_least R R' es : below R R' → (∀ e, e ∈ es → covers R' e) → below (offer_all R es) R'.
Proof.
  revert R. induction es as [|e es IH]; intros R Hb Hc; [done|]. rewrite offer_all_cons. apply IH.
  - apply offer_least; [done|]. apply Hc. by left.
  - intros e' He'. apply Hc. by right.
Qed.

Lemma offer_all_set R es es' : len R = REGISTERS → (∀ e, e ∈ es ↔ e ∈ es') → offer_all R es = offer_all R es'.
Proof.
  intros HR Hset. apply below_antisym; apply offer_all_least; try apply below_offer_all; intros e He; apply offer_all_covers;
    done || by apply Hset.
Qed.

Lemma below_join_l R R' : length R = length R' → below R (join R R').
Proof.
  intros Hl. apply Forall2_same_length_lookup. unfold join. split; [rewrite length_zip_with; lia|].
  intros i x y Hx Hy. rewrite lookup_zip_with, Hx in Hy. cbn in Hy. destruct (R' !! i); [|done]. cbn in Hy. injection Hy as <-. lia.
Qed.

Lemma join_comm R R' : join R R' = join R' R.
Proof. unfold join. revert R'. induction R as [|x R IH]; intros [|y R']; cbn; [done..|]. f_equal; [lia|auto]. Qed.

Lemma below_join_r R R' : length R = length R' → below R' (join R R').
Proof. intros. rewrite join_comm. by apply below_join_l. Qed.

Lemma join_least R R' S : below R S → below R' S → below (join R R') S.
Proof.
  intros HR. revert R'. unfold join. induction HR as [|x y R S Hxy HR IH]; intros [|x' R'] HR'; inversion HR'; subst; cbn; [constructor..|].
  constructor; [lia|by apply IH].
Qed.

Lemma join_below R S : below R S → join R S = S.
Proof. intros H. apply below_antisym; [apply join_least; [done|reflexivity]|]. apply below_join_r. by eapply Forall2_length. Qed.

Lemma join_offer_all R es es' : len R = REGISTERS →
  join (offer_all R es) (offer_all R es') = offer_all R (es ++ es').
Proof.
  intros HR. assert (length (offer_all R es) = length (offer_all R es')) as Hl by (by rewrite !length_offer_all).
  apply below_antisym.
  - apply join_least; apply offer_all_least; try apply below_offer_all;
      intros e He; apply offer_all_covers; try done; apply elem_of_app; tauto.
  - apply offer_all_least; [etrans; [apply below_offer_all|by apply below_join_l]|].
    intros e [He|He]%elem_of_app; (eapply covers_below; [|by apply offer_all_covers]); [by apply below_join_l|by apply below_join_r].
Qed.

(** ** The cached count *)

Lemma cached_invalidate v R : sketch v R → cached (invalidate v) = None.
Proof.
  intros Hs. assert (16 <= len v) as Hl.
  { destruct Hs as [hd ? [H _]|hd ? [H _]]; rewrite length_app; lia. }
  unfold cached, invalidate. rewrite at_put, Z.eqb_refl by lia.
  pose proof (at_range v 15) as Hr. set (b := at_ v 15) in *.
  assert (forallb (λ b, negb (Z.land (Z.lor b 0x80 mod 2 ^ 8) 0x80 =? 0)) (seqZ 0 256) = true) as H by (vm_compute; reflexivity).
  by rewrite (check_range _ _ _ b H) by lia.
Qed.

Lemma rounded_count_bound f : 0 <= rounded_count f <= 2 ^ 63.
Proof.
  destruct f as [s|s| |[|] m e]; try done. cbn [rounded_count].
  set (n := if 0 <=? e then Z.pos m * 2 ^ e else (Z.pos m + 2 ^ (- e - 1)) / 2 ^ (- e)). assert (0 <= n) as Hn.
  { unfold n. pose proof (Z.pow_nonneg 2 e ltac:(lia)). pose proof (Z.pow_nonneg 2 (- e - 1) ltac:(lia)).
    destruct (Z.leb_spec 0 e); [nia|]. apply Z.div_pos; [lia|]. apply Z.pow_pos_nonneg; lia. }
  destruct (Z.ltb_spec n (2 ^ 63)); lia.
Qed.

Lemma estimate_bound fuel h n : estimate fuel h = Some n → 0 <= n <= 2 ^ 63.
Proof.
  unfold estimate. intros E. apply bind_Some in E as (t & _ & E). apply bind_Some in E as (s & _ & E).
  apply (inj Some) in E. rewrite <-E. apply rounded_count_bound.
Qed.

Lemma sketch_set_cached v R n : sketch v R → sketch (set_cached v n) R.
Proof.
  assert (∀ hd form l, header hd form → ∃ hd', set_cached (hd ++ l) n = hd' ++ l ∧ header hd' form) as Hh.
  { intros hd form l (Hl & Hs & Hf). unfold set_cached.
    exists (take 8 hd ++ le_bytes 8 n). rewrite take_app_le, drop_app_length', <-app_assoc by (done || lia). split; [done|].
    assert (length (take 8 hd) = 8%nat) as H8 by (rewrite length_take; lia). split_and!.
    - rewrite length_app, length_le_bytes. lia.
    - apply starts_with_true in Hs as [r ->]. change 8%nat with (length (bstr "HYLL") + 4)%nat.
      rewrite take_app_add, <-app_assoc. apply starts_with_app.
    - rewrite at_app_l by lia. rewrite <-Hf. unfold at_, at_or. by rewrite lookup_take_lt by lia. }
  destruct 1 as [hd ops Hhd|hd regs Hhd]; destruct (Hh hd _ (code ops) Hhd) as (hd' & -> & ?) || destruct (Hh hd _ regs Hhd) as (hd' & -> & ?);
    by constructor.
Qed.

Lemma length_set_cached v R n : sketch v R → len (set_cached v n) = len v.
Proof.
  intros Hs. assert (16 <= len v) as Hl.
  { destruct Hs as [hd ? [H _]|hd ? [H _]]; rewrite length_app; lia. }
  unfold set_cached. rewrite !length_app, length_take, length_le_bytes, length_drop. lia.
Qed.

Lemma cached_set_cached v R n m : sketch v R → in_width 64 n → cached (set_cached v n) = Some m → m = n.
Proof.
  intros Hs Hn. assert (16 <= len v) as Hl.
  { destruct Hs as [hd ? [H _]|hd ? [H _]]; rewrite length_app; lia. }
  unfold cached. case_match; [done|]. intros [= <-]. unfold set_cached.
  rewrite drop_app_length', take_app_length' by (rewrite ?length_le_bytes, ?length_take; lia). by apply of_le_id.
Qed.

(** ** What a key holds *)

Section Commands.
Context (fuel : nat) (st : StringStore) (slot : Z).
Context (Hok : store_ok st).
Abbreviation adr k := (mkAddr (st_ns (ss_base st)) slot k).
Abbreviation limit := (st_max (ss_base st)).

(** A kept count is the estimate of the registers. *)
Definition honest (v : bytes) (R : list Z) : Prop := ∀ n, cached v = Some n → estimate fuel (counts R) = Some n.

(** The string a key holds, if any, is an HLL with registers [R]. *)
Definition hll_held (H : option (bytes * Z)) (R : list Z) : Prop :=
  match H with Some (v, _) => sketch v R ∧ honest v R | None => R = no_registers end.

Lemma no_registers_ok : regs_ok no_registers.
Proof.
  unfold no_registers. split; [rewrite repeat_length; by apply Z2Nat.id|]. apply Forall_forall. intros x Hx%list_elem_of_In%repeat_spec. lia.
Qed.

Lemma held_ok H R : hll_held H R → regs_ok R.
Proof. destruct H as [[v e]|]; cbn; [intros [Hs _]; by eapply sketch_ok|intros ->; apply no_registers_ok]. Qed.

Lemma empty_sketch : sketch empty_hll no_registers.
Proof.
  assert (spread [OXZero REGISTERS] = no_registers) as E.
  { unfold spread. cbn [mbind list_bind]. rewrite app_nil_r. reflexivity. }
  assert (empty_hll = take 16 empty_hll ++ code [OXZero REGISTERS]) as -> by (vm_compute; reflexivity).
  rewrite <-E. apply sketch_sparse.
  - split_and!; vm_compute; reflexivity.
  - apply Forall_singleton. change (1 <= 16384 <= 16384). lia.
  - rewrite E. apply no_registers_ok.
Qed.

Lemma sketch_size v R : sketch v R → len v <= 2 ^ 32 * ss_chunk st.
Proof.
  intros Hs. assert (len v <= 32784); [|destruct Hok; nia]. destruct Hs as [hd ops [Hh _] Hf HR|hd regs [Hh _] Hb]; rewrite length_app.
  - assert (len (code ops) <= 2 * len (spread ops)) as Hlen; [|change REGISTERS with 16384 in HR; lia]. clear HR.
    induction Hf as [|o ops Ho Hf IH]; [done|]. rewrite code_cons, spread_cons, !length_app.
    pose proof (length_op_regs o Ho). pose proof (op_run_pos o Ho). pose proof (op_len_eq o Ho) as Hlen. unfold op_len in Hlen.
    destruct o; lia.
  - unfold dense_body in Hb. change (DENSE_SIZE - HDR) with 12288 in Hb. lia.
Qed.

Lemma held_size H R : hll_held H R → len (text H) <= 2 ^ 32 * ss_chunk st.
Proof. destruct H as [[v e]|]; cbn; [intros [Hs _]; by eapply sketch_size|intros _; destruct Hok; nia]. Qed.

(** ** Reading and writing one key *)

(** A string that is no HLL. *)
Definition not_hll (H : option (bytes * Z)) : bool := match H with Some (v, _) => negb (valid v) | None => false end.

Lemma wp_hll_at key H w Q :
  addr_wf (adr key) → env_ok w → srepr st slot key (w_clock w 0%nat) w H → len (text H) <= 2 ^ 32 * ss_chunk st →
  (∀ w', skeeps st slot key H w w' → env_ok w' → w_last w' = w_last w →
     Q (if not_hll H then Err NotHll else Ok H) w') →
  wp (hll_at st slot key) w Q.
Proof.
  intros Ha Henv HH Hlim HQ. destruct Hok as [HC _]. unfold hll_at. apply wp_try. unfold value_and_expiry. apply wp_try.
  eapply wp_read; [done..|]. intros o w' Hr. specialize (HQ w' (sread_keeps _ _ _ _ _ _ _ Hr) (sr_env _ _ _ _ _ _ _ Hr) (sr_last _ _ _ _ _ _ _ Hr)).
  pose proof (sr_form _ _ _ _ _ _ _ Hr) as Hf. destruct H as [[v e]|].
  - destruct Hf as (s & -> & Hs). apply wp_bind. eapply wp_value_of; [done..|]. wp_op.
    rewrite (sform_expiry st slot key HC _ _ _ _ _ Hs). cbn [not_hll] in HQ.
    destruct (valid v); cbn [negb] in *; by wp_op.
  - subst o. wp_op. by wp_op.
Qed.

Lemma wp_held_at key H R w Q :
  addr_wf (adr key) → env_ok w → srepr st slot key (w_clock w 0%nat) w H → hll_held H R →
  (∀ w', skeeps st slot key H w w' → env_ok w' → w_last w' = w_last w → Q (Ok H) w') →
  wp (hll_at st slot key) w Q.
Proof.
  intros Ha Henv HH Hheld HQ. apply (wp_hll_at key H); [done|done|done|by eapply held_size|].
  intros w' Hk He Hl. replace (not_hll H) with false; [by apply HQ|].
  destruct H as [[v e]|]; [|done]. destruct Hheld as [Hs _]. cbn. by rewrite (sketch_valid _ _ Hs).
Qed.

Lemma held_expiry key now w H : srepr st slot key now w H → in_width 64 (expiry H).
Proof.
  destruct H as [[v e]|]; cbn; [|intros _; unfold in_width; lia]. intros [[s Hs] _]. by eapply sform_expiry_width.
Qed.

(** What writing [v] over [H] gives: an error if the cap is below its length. *)
Definition writes (key : bytes) (H : option (bytes * Z)) {A} (a : A) (v : bytes) (w : world kvmap) (r : result A) (w' : world kvmap) : Prop :=
  if limit <? len v then r = Err ValueTooLarge ∧ skeeps st slot key H w w'
  else r = Ok a ∧ smakes st slot key (Some (v, expiry H)) w w'.

Lemma wp_put_hll key H v w w1 Q :
  addr_wf (adr key) → env_ok w1 → headroom w1 → in_width 64 (expiry H) → len v <= 2 ^ 32 * ss_chunk st →
  effect (adr key) w w1 → ((limit <? len v) = true → Q (Err ValueTooLarge) w1) →
  (∀ w', (limit <? len v) = false → smakes st slot key (Some (v, expiry H)) w w' → Q (Ok tt) w') →
  wp (put_hll st slot key v (expiry H)) w1 Q.
Proof.
  intros Ha Henv Hroom He Hl Heff Herr HQ. unfold put_hll. destruct (limit <? len v).
  - wp_op. by apply Herr.
  - apply wp_bind. unfold store_value. apply wp_put_value; [apply Hok|done..|]. intros w' Heff' Hs. wp_op.
    apply HQ; [done|]. split; [|done]. by eapply effect_trans.
Qed.

(** ** PFADD *)

Lemma wp_pfadd key elements H R w Q :
  addr_wf (adr key) → env_ok w → headroom w → srepr st slot key (w_clock w 0%nat) w H → hll_held H R →
  (let R' := offer_all R elements in ∀ r w',
     (if bool_decide (H = None ∨ R' ≠ R)
      then ∃ v', sketch v' R' ∧ cached v' = None ∧ writes key H true v' w r w'
      else r = Ok false ∧ skeeps st slot key H w w') → Q r w') →
  wp (pfadd st slot key elements) w Q.
Proof.
  cbn zeta. intros Ha Henv Hroom HH Hheld HQ. unfold pfadd. apply wp_try. eapply wp_held_at; [done..|].
  intros w1 Hk Henv1 Hlast. set (init := match H with Some (v, e) => (v, e, false) | None => (empty_hll, 0, true) end).
  assert (∃ v0, init = (v0, expiry H, bool_decide (H = None)) ∧ sketch v0 R) as (v0 & -> & Hs0).
  { unfold init. destruct H as [[v e]|]; [exists v; split; [done|apply Hheld]|].
    exists empty_hll. cbn in Hheld. subst R. split; [done|apply empty_sketch]. }
  destruct (add_all_spec elements v0 R (bool_decide (H = None)) 0 Hs0) as (v & -> & Hs & Hl).
  assert (bool_decide (H = None) || negb (same_regs R (offer_all R elements)) = bool_decide (H = None ∨ offer_all R elements ≠ R)) as ->.
  { unfold same_regs. repeat case_bool_decide; cbn; try done; try tauto; exfalso; intuition congruence. }
  case_bool_decide as Hc.
  - assert (∀ r w', writes key H true (invalidate v) w r w' → Q r w') as HQ'.
    { intros r w' Hw. apply HQ. exists (invalidate v).
      split_and!; [by apply sketch_invalidate|by eapply cached_invalidate|done]. }
    unfold writes in HQ'. apply wp_try.
    eapply (wp_put_hll key H _ w); [done|done|unfold headroom in *; lia|by eapply held_expiry| |apply Hk| |].
    + eapply sketch_size. by apply sketch_invalidate.
    + intros E. apply HQ'. by rewrite E.
    + intros w' E Hm. wp_op. apply HQ'. by rewrite E.
  - wp_op. by apply HQ.
Qed.

(** ** Several keys *)

(** What another key holds is what it held. *)
Lemma srepr_other k k' now H w w' :
  addr_wf (adr k) → addr_wf (adr k') → k ≠ k' → effect (adr k) w w' →
  srepr st slot k' now w H → srepr st slot k' now w' H.
Proof.
  intros Ha Ha' Hne [_ Hlast _ Hfr]. assert (adr k ≠ adr k') as Hadr by congruence.
  assert (w_kv w' !! mkey (adr k') = w_kv w !! mkey (adr k')) as E by (apply Hfr; by apply not_owned_mkey).
  destruct H as [[L e]|]; cbn; [|by rewrite E]. intros [(s & row & h & Hrow & Hh & He & Hs) Hex]. split; [|done].
  exists s, row, h. split_and!; [by rewrite E|done|done|]. destruct s as [sm|c]; [done|].
  destruct Hs as (? & ? & ? & ? & ? & Hv & ? & ? & ?). rewrite (rows_at_frame Subkey (adr k) (adr k') _ (w_kv w)) by done.
  split_and!; done || lia || apply Hv.
Qed.

Context (keys : list bytes) (X : bytes → option (bytes * Z)) (Rg : bytes → list Z).
Context (Hkeys : ∀ k, k ∈ keys → addr_wf (adr k)) (Hheld : ∀ k, k ∈ keys → hll_held (X k) (Rg k)).

(** Every key holds its string, at every reading of the clock to come. *)
Definition hold_strings (w : world kvmap) : Prop := ∀ k n, k ∈ keys → srepr st slot k (w_clock w n) w (X k).

(** Reads: every key holds what it held, and no row of another moves. *)
Record key_reads (w w' : world kvmap) : Prop := {
  kr_env : env_ok w';
  kr_last : w_last w' = w_last w;
  kr_clock : ∃ d, ∀ n, w_clock w' n = w_clock w (d + n)%nat;
  kr_repr k now : k ∈ keys → srepr st slot k now w (X k) → srepr st slot k now w' (X k);
  kr_frame b : (∀ k, k ∈ keys → ¬ owned (adr k) b) → w_kv w' !! b = w_kv w !! b
}.

Lemma key_reads_refl w : env_ok w → key_reads w w.
Proof. intros. constructor; try done. by exists 0%nat. Qed.

Lemma key_reads_trans w1 w2 w3 : key_reads w1 w2 → key_reads w2 w3 → key_reads w1 w3.
Proof.
  intros [_ El [d Hd] Hr Hf] [Henv El' [d' Hd'] Hr' Hf']. constructor; [done|congruence| |auto|intros b Hb; rewrite Hf', Hf; done].
  exists (d + d')%nat. intros n. rewrite Hd', Hd. f_equal. lia.
Qed.

Lemma hold_strings_reads w w' : key_reads w w' → hold_strings w → hold_strings w'.
Proof. intros Hr H k n Hk. destruct (kr_clock _ _ Hr) as [d ->]. apply (kr_repr _ _ Hr); auto. Qed.

Lemma keeps_reads k w w' : k ∈ keys → skeeps st slot k (X k) w w' → env_ok w' → w_last w' = w_last w → key_reads w w'.
Proof.
  intros Hk [Heff Hrepr] Henv Hl. constructor; [done|done|apply Heff| |].
  - intros k' now Hk'. destruct (decide (k = k')) as [<-|Hne]; [apply Hrepr|]. apply (srepr_other k k'); auto.
  - intros b Hb. apply (eff_frame _ _ _ Heff). by apply Hb.
Qed.

Lemma wp_key_at k w Q : k ∈ keys → env_ok w → hold_strings w →
  (∀ w', key_reads w w' → Q (Ok (X k)) w') → wp (hll_at st slot k) w Q.
Proof.
  intros Hk Henv Hh HQ. eapply wp_held_at; [by apply Hkeys|done|by apply Hh|by apply Hheld|].
  intros w' Hs He Hl. apply HQ. by apply (keeps_reads k).
Qed.

Definition union_of (M : list Z) (l : list bytes) : list Z := foldl join M (Rg <$> l).

Definition is_dense (H : option (bytes * Z)) : bool := match H with Some (v, _) => at_ v 4 =? DENSE | None => false end.

Lemma join_none M : regs_ok M → join M no_registers = M.
Proof. intros [Hl Hr]. apply join_zeros; [|done]. lia. Qed.

Lemma merge_held M H R : regs_ok M → hll_held H R →
  match H with Some (v, _) => merge_into M v = Some (join M R) | None => join M R = M end.
Proof.
  intros HM HH. destruct H as [[v e]|]; [apply merge_into_spec; [done|apply HH]|]. cbn in HH. subst R. by apply join_none.
Qed.

Lemma wp_merge_keys l M dense w Q :
  (∀ k, k ∈ l → k ∈ keys) → env_ok w → hold_strings w → regs_ok M →
  (∀ w', key_reads w w' → Q (Ok (union_of M l, dense || existsb (λ k, is_dense (X k)) l)) w') →
  wp (merge_keys st slot l M dense) w Q.
Proof.
  revert M dense w Q. induction l as [|k l IH]; intros M dense w Q Hl Henv Hh HM HQ; cbn [merge_keys].
  { wp_op. cbn in HQ. rewrite orb_false_r in HQ. by apply HQ, key_reads_refl. }
  assert (k ∈ keys) as Hk by (apply Hl; by left). pose proof (Hheld k Hk) as HX. pose proof (merge_held M (X k) (Rg k) HM HX) as Hm.
  apply wp_try. apply wp_key_at; [done..|]. intros w1 Hr1.
  cbn [existsb] in HQ. change (union_of M (k :: l)) with (union_of (join M (Rg k)) l) in HQ.
  destruct (X k) as [[v e]|] eqn:EX; cbn [is_dense] in HQ.
  - rewrite Hm. apply IH; [intros k' ?; apply Hl; by right|apply Hr1|by eapply hold_strings_reads| |].
    + apply join_ok; [done|by eapply held_ok].
    + intros w2 Hr2. rewrite <-orb_assoc. apply HQ. by eapply key_reads_trans.
  - rewrite Hm in HQ. apply IH; [intros k' ?; apply Hl; by right|apply Hr1|by eapply hold_strings_reads|done|].
    intros w2 Hr2. apply HQ. by eapply key_reads_trans.
Qed.

(** ** PFMERGE *)

Lemma below_union M l : regs_ok M → (∀ k, k ∈ l → regs_ok (Rg k)) → below M (union_of M l) ∧ regs_ok (union_of M l).
Proof.
  revert M. induction l as [|k l IH]; intros M HM Hl; [split; [reflexivity|done]|].
  assert (regs_ok (Rg k)) as Hk by (apply Hl; by left).
  destruct (IH (join M (Rg k))) as [Hb Hok']; [by apply join_ok|intros k' ?; apply Hl; by right|].
  split; [|done]. etrans; [|apply Hb]. apply below_join_l. destruct HM, Hk. lia.
Qed.

Lemma raise_all_dense M v pe i : 16 <= len v → at_ v 4 = DENSE → at_ (raise_all (v, pe) i M).1 4 = DENSE.
Proof.
  revert v pe i. induction M as [|m M IH]; intros v pe i Hl H4; [done|]. cbn [raise_all]. unfold raise_target. rewrite H4.
  destruct (m =? 0); [by apply IH|]. cbn [Z.eqb DENSE].
  assert (len (take 16 v) = 16) as Ht by (rewrite length_take; lia). unfold with_body. apply IH; [rewrite length_app; lia|].
  rewrite at_app_l by lia. rewrite <-H4. unfold at_, at_or. by rewrite lookup_take_lt by lia.
Qed.

(** A write of [k] after reads of every key. *)
Record key_writes (k v : bytes) (w w' : world kvmap) : Prop := {
  kw_holds : sholds st slot k w' v (expiry (X k));
  kw_others k' now : k' ∈ keys → k' ≠ k → srepr st slot k' now w (X k') → srepr st slot k' now w' (X k');
  kw_frame b : (∀ k, k ∈ keys → ¬ owned (adr k) b) → w_kv w' !! b = w_kv w !! b
}.

Lemma reads_writes k v w w1 w' : k ∈ keys → key_reads w w1 → smakes st slot k (Some (v, expiry (X k))) w1 w' → key_writes k v w w'.
Proof.
  intros Hk Hr [Heff Hs]. constructor; [done| |].
  - intros k' now Hk' Hne Hrepr. apply (srepr_other k k' now _ w1); auto. by apply Hr.
  - intros b Hb. rewrite (eff_frame _ _ _ Heff) by auto. by apply (kr_frame _ _ Hr).
Qed.

(** The target's string, raised to the registers [U] of the union. *)
Lemma merge_target v0 R U (dense : bool) : sketch v0 R → below R U → regs_ok U →
  ∃ v1 v2 pe, (if dense then to_dense v0 0 else Some v0) = Some v1 ∧ raise_all (v1, 0) 0 U = (v2, pe) ∧
    sketch v2 U ∧ (dense = true → at_ (invalidate v2) 4 = DENSE).
Proof.
  intros Hs Hb [HU Hr]. pose proof (sketch_length _ _ Hs) as HR.
  assert (∃ v1, (if dense then to_dense v0 0 else Some v0) = Some v1 ∧ sketch v1 R ∧ (dense = true → at_ v1 4 = DENSE ∧ 16 <= len v1))
    as (v1 & -> & Hs1 & Hd1).
  { destruct dense; [|by exists v0]. destruct (to_dense_spec v0 R 0 Hs) as (v1 & -> & Hs1 & H4 & Hl).
    exists v1. split_and!; try done. intros _. split; [done|]. by rewrite Hl. }
  destruct (raise_all_spec U v1 0 0 [] R) as (v2 & pe & Er & Hs2 & _); [done|done|lia|done|].
  cbn [app] in Hs2. rewrite join_below in Hs2 by done. exists v1, v2, pe. split_and!; try done.
  intros Hd. destruct (Hd1 Hd) as [H4 Hl]. pose proof (raise_all_dense U v1 0 0 Hl H4) as H42. rewrite Er in H42. cbn [fst] in H42.
  assert (16 <= len v2) by (destruct Hs2 as [hd ? [H _]|hd ? [H _]]; rewrite length_app; lia).
  unfold invalidate. by rewrite at_put by lia.
Qed.

Lemma wp_pfmerge dst sources w Q :
  keys = dst :: sources → env_ok w → headroom w → hold_strings w →
  (∀ v' r w', sketch v' (union_of (Rg dst) sources) → cached v' = None →
     (existsb (λ k, is_dense (X k)) keys = true → at_ v' 4 = DENSE) →
     (if limit <? len v' then r = Err ValueTooLarge ∧ key_reads w w' else r = Ok tt ∧ key_writes dst v' w w') → Q r w') →
  wp (pfmerge st slot dst sources) w Q.
Proof.
  intros Ek Henv Hroom Hh HQ. assert (dst ∈ keys) as Hdst by (rewrite Ek; by left).
  assert (∀ k, k ∈ sources → k ∈ keys) as Hsub by (intros; rewrite Ek; by right).
  pose proof (Hheld dst Hdst) as HX. pose proof (held_ok _ _ HX) as HR. pose proof no_registers_ok as Hno.
  pose proof (merge_held no_registers (X dst) (Rg dst) Hno HX) as Hm.
  assert (join no_registers (Rg dst) = Rg dst) as Ej by (rewrite join_comm; by apply join_none). rewrite Ej in Hm.
  unfold pfmerge. apply wp_try. apply wp_key_at; [done..|]. intros w1 Hr1.
  set (first := match X dst with Some (v, _) => _ | None => _ end).
  assert (first = Some (Rg dst, is_dense (X dst))) as ->.
  { unfold first. destruct (X dst) as [[v e]|]; [by rewrite Hm|by rewrite <-Hm]. }
  apply wp_try. apply wp_merge_keys; [done|apply Hr1|by eapply hold_strings_reads|done|]. intros w2 Hr2.
  pose proof (key_reads_trans _ _ _ Hr1 Hr2) as Hr.
  assert (is_dense (X dst) || existsb (λ k, is_dense (X k)) sources = existsb (λ k, is_dense (X k)) keys) as -> by (by rewrite Ek).
  destruct (below_union (Rg dst) sources) as [Hbelow HU]; [done|intros k ?; by eapply held_ok, Hheld, Hsub|].
  assert (∃ v0, default (empty_hll, 0) (X dst) = (v0, expiry (X dst)) ∧ sketch v0 (Rg dst)) as (v0 & -> & Hs0).
  { destruct (X dst) as [[v e]|]; [exists v; split; [done|apply HX]|]. exists empty_hll. cbn in HX. rewrite HX.
    split; [done|apply empty_sketch]. }
  destruct (merge_target v0 (Rg dst) _ (existsb (λ k, is_dense (X k)) keys) Hs0 Hbelow HU) as (v1 & v2 & pe & -> & -> & Hs2 & Hd).
  cbn [fst]. eapply (wp_put_hll dst (X dst) (invalidate v2) w2 w2);
    [by apply Hkeys|apply Hr2| |by eapply held_expiry, (Hh _ 0%nat)| |apply effect_refl, Hr2| |].
  - unfold headroom in *. by rewrite (kr_last _ _ Hr).
  - eapply sketch_size, sketch_invalidate, Hs2.
  - intros E. apply (HQ (invalidate v2)); [by apply sketch_invalidate|by eapply cached_invalidate|done|]. by rewrite E.
  - intros w' E Hw. apply (HQ (invalidate v2)); [by apply sketch_invalidate|by eapply cached_invalidate|done|]. rewrite E.
    split; [done|]. by eapply reads_writes.
Qed.

(** ** PFCOUNT *)

Lemma estimate_none : estimate fuel (counts no_registers) = Some 0.
Proof.
  assert (counts no_registers = (λ k, if 0 =? k then 16384 else 0) <$> seqZ 0 64) as ->.
  { apply list_fmap_ext. intros i k _. apply tally_repeat. }
  vm_compute. reflexivity.
Qed.

(** Every key still holds an HLL with its registers and its expiry. *)
Definition keep_registers (w w' : world kvmap) : Prop :=
  (∀ k, k ∈ keys → ∃ H', hll_held H' (Rg k) ∧ expiry H' = expiry (X k) ∧
     ∀ now, srepr st slot k now w (X k) → srepr st slot k now w' H') ∧
  ∀ b, (∀ k, k ∈ keys → ¬ owned (adr k) b) → w_kv w' !! b = w_kv w !! b.

Lemma reads_keep w w' : key_reads w w' → keep_registers w w'.
Proof.
  intros Hr. split; [|apply Hr]. intros k Hk. exists (X k). split_and!; [by apply Hheld|done|]. intros now. by apply Hr.
Qed.

Lemma wp_pfcount_one key n w Q :
  keys = [key] → env_ok w → headroom w → hold_strings w → len (text (X key)) <= limit →
  estimate fuel (counts (Rg key)) = Some n → (∀ w', keep_registers w w' → Q (Ok n) w') →
  wp (pfcount st slot fuel [key]) w Q.
Proof.
  intros Ek Henv Hroom Hh Hcap En HQ. assert (key ∈ keys) as Hk by (rewrite Ek; by left). pose proof (Hheld key Hk) as HX.
  unfold pfcount. apply wp_try. apply wp_key_at; [done..|]. intros w1 Hr1. destruct (X key) as [[v e]|] eqn:EX.
  2:{ wp_op. cbn in HX. rewrite HX, estimate_none in En. injection En as <-. by apply HQ, reads_keep. }
  destruct HX as [Hs Hhon]. destruct (cached v) as [m|] eqn:Ec.
  { wp_op. rewrite (Hhon m Ec) in En. injection En as <-. by apply HQ, reads_keep. }
  rewrite (histogram_spec v (Rg key) Hs). eapply wp_unwrap; [done|]. apply wp_try.
  pose proof (length_set_cached v (Rg key) n Hs) as Hl. change e with (expiry (Some (v, e))). rewrite <-EX.
  eapply (wp_put_hll key (X key) _ w1 w1); [by apply Hkeys|apply Hr1| |by eapply held_expiry, (Hh _ 0%nat)| |apply effect_refl, Hr1| |].
  - unfold headroom in *. by rewrite (kr_last _ _ Hr1).
  - by eapply sketch_size, sketch_set_cached.
  - intros E%Z.ltb_lt. rewrite Hl in E. cbn [text] in Hcap. lia.
  - intros w' _ Hw. wp_op. apply HQ. pose proof (reads_writes _ _ _ _ _ Hk Hr1 Hw) as [Hhold _ Hfr].
    split; [|done]. intros k Hk'. assert (k = key) as -> by (rewrite Ek in Hk'; by apply list_elem_of_singleton in Hk').
    exists (Some (set_cached v n, expiry (X key))). split_and!; [split; [by apply sketch_set_cached|]|done|].
    + intros m Em. apply (cached_set_cached _ _ _ _ Hs) in Em as ->; [done|]. pose proof (estimate_bound _ _ _ En). unfold in_width. lia.
    + intros now. rewrite EX in *. by intros [_ Hex].
Qed.

Lemma wp_pfcount n w Q :
  env_ok w → headroom w → hold_strings w → (∀ k, k ∈ keys → len (text (X k)) <= limit) →
  estimate fuel (counts (union_of no_registers keys)) = Some n → (∀ w', keep_registers w w' → Q (Ok n) w') →
  wp (pfcount st slot fuel keys) w Q.
Proof.
  intros Henv Hroom Hh Hcap En HQ. pose proof no_registers_ok as Hno.
  assert ((∃ key, keys = [key]) ∨ ∀ key, keys ≠ [key]) as [[key Ek]|Hmany].
  { destruct keys as [|k [|k' l]]; [right; congruence|left; by exists k|right; congruence]. }
  - assert (key ∈ keys) as Hk by (rewrite Ek; by left). rewrite Ek in En |- *. unfold union_of in En. cbn in En.
    rewrite join_comm, join_none in En by (by eapply held_ok, Hheld). eapply wp_pfcount_one; try done. by apply Hcap.
  - assert (pfcount st slot fuel keys = (merged <-? merge_keys st slot keys no_registers false ;;
      n <- unwrap (estimate fuel (raw_histogram merged.1)) ;; Ret (Ok n))) as ->.
    { destruct keys as [|k [|k' l]]; [reflexivity|by destruct (Hmany k)|reflexivity]. }
    apply wp_try. apply wp_merge_keys; [done..|]. intros w' Hr. cbn [fst].
    rewrite raw_histogram_spec by (apply below_union; [done|intros k ?; by eapply held_ok, Hheld]).
    eapply wp_unwrap; [done|]. wp_op. by apply HQ, reads_keep.
Qed.
End Commands.

(** ** Properties *)

Lemma count_of_counts R k : 0 <= k < 64 → count_of (counts R) k = tally R k.
Proof. intros. unfold count_of. by rewrite lookup_counts. Qed.

Lemma counted fuel R : (1075 < fuel)%nat → len R = REGISTERS → ∃ n, estimate fuel (counts R) = Some n.
Proof.
  intros Hf HR. pose proof (tally_le R 0). pose proof (tally_le R (HLL_Q + 1)).
  apply estimate_returns; [done|..]; rewrite count_of_counts by (unfold HLL_Q, HLL_P; lia); lia.
Qed.

(** C22. PFADD's registers are those of a set. An HLL that was offered some
    elements holds, in either form and whatever opcodes it went through, the
    same count of each register value as any other HLL of the same registers
    offered the same set of elements, in any order and with any repetitions;
    and the join of two such register files is the file of both sets. *)
Theorem sketches_are_of_sets v v' R es es' :
  sketch v R → sketch v' R → (∀ e, e ∈ es ↔ e ∈ es') →
  ∃ u u' h, add_all v false 0 es = Some (u, negb (same_regs R (offer_all R es))) ∧
    add_all v' false 0 es' = Some (u', negb (same_regs R (offer_all R es))) ∧
    histogram u = Some h ∧ histogram u' = Some h ∧
    merge_into (offer_all R es) u' = Some (offer_all R es) ∧
    ∀ es2, merge_into (offer_all R es2) u = Some (offer_all R (es ++ es2)).
Proof.
  intros Hs Hs' Hset. pose proof (sketch_length _ _ Hs) as HR.
  destruct (add_all_spec es v R false 0 Hs) as (u & Eu & Hu & _). destruct (add_all_spec es' v' R false 0 Hs') as (u' & Eu' & Hu' & _).
  rewrite <-(offer_all_set R es es' HR Hset) in Eu', Hu'. exists u, u', (counts (offer_all R es)).
  split_and!; [done|done|by apply histogram_spec|by apply histogram_spec| |].
  - rewrite (merge_into_spec _ u' (offer_all R es)); [|by eapply sketch_ok|done]. f_equal. apply join_below. reflexivity.
  - intros es2. destruct (add_all_spec es2 v R false 0 Hs) as (u2 & _ & Hu2 & _).
    rewrite (merge_into_spec _ u (offer_all R es)); [|by eapply sketch_ok|done]. f_equal.
    by rewrite join_comm, join_offer_all.
Qed.

(** The count ends. For every HLL, the histogram is that of its registers
    and the loops of the estimator, which run until a double stops changing,
    stop: the estimate is a number of at most 2^63. *)
Theorem every_sketch_is_counted fuel v R : (1075 < fuel)%nat → sketch v R →
  ∃ n, histogram v = Some (counts R) ∧ estimate fuel (counts R) = Some n ∧ 0 <= n <= 2 ^ 63.
Proof.
  intros Hf Hs. destruct (counted fuel R Hf) as [n En]; [by eapply sketch_length|]. exists n.
  split_and!; [by apply histogram_spec|done|..]; pose proof (estimate_bound fuel _ n En); lia.
Qed.

(** C19. PFADD offers its elements to the key's registers. It answers whether
    the HLL is new or a register rose; then the key holds an HLL of the raised
    registers, its kept count marked stale and its expiry as it was, and
    otherwise what it held. A result past the value cap, or a key that holds a
    string that is no HLL, is refused and changes nothing. *)
Theorem pfadd_refines fuel st slot key elements H R w :
  let a := mkAddr (st_ns (ss_base st)) slot key in
  store_ok st → addr_wf a → env_ok w → headroom w → srepr st slot key (w_clock w 0%nat) w H →
  (hll_held fuel H R → wp (pfadd st slot key elements) w (λ r w',
    if bool_decide (H = None ∨ offer_all R elements ≠ R)
    then ∃ v', sketch v' (offer_all R elements) ∧ cached v' = None ∧ writes st slot key H true v' w r w'
    else r = Ok false ∧ skeeps st slot key H w w')) ∧
  (not_hll H = true → len (text H) <= 2 ^ 32 * ss_chunk st →
    wp (pfadd st slot key elements) w (λ r w', r = Err NotHll ∧ skeeps st slot key H w w')).
Proof.
  intros a Hok Ha Henv Hroom HH. split.
  - intros Hheld. eapply wp_pfadd; [done..|]. cbv zeta. auto.
  - intros Hnot Hlim. unfold pfadd. apply wp_try. eapply wp_hll_at; [done..|]. intros w' Hk _ _. by rewrite Hnot.
Qed.

(** C20. PFMERGE makes the destination the union: its registers become the
    greatest of its own and every source's, whatever forms the strings have,
    dense if one of them is, with the destination's expiry and its kept count
    stale; the sources are left. A result past the value cap is refused and
    changes nothing. *)
Theorem pfmerge_refines fuel st slot dst sources X Rg w :
  let keys := dst :: sources in
  store_ok st → env_ok w → headroom w →
  (∀ k, k ∈ keys → addr_wf (mkAddr (st_ns (ss_base st)) slot k)) → (∀ k, k ∈ keys → hll_held fuel (X k) (Rg k)) →
  hold_strings st slot keys X w →
  wp (pfmerge st slot dst sources) w (λ r w', ∃ v',
    sketch v' (foldl join (Rg dst) (Rg <$> sources)) ∧ cached v' = None ∧
    (existsb (λ k, is_dense (X k)) keys = true → at_ v' 4 = DENSE) ∧
    if st_max (ss_base st) <? len v' then r = Err ValueTooLarge ∧ key_reads st slot keys X w w'
    else r = Ok tt ∧ key_writes st slot keys X dst v' w w').
Proof.
  intros keys Hok Henv Hroom Hkeys Hheld Hh. eapply (wp_pfmerge fuel st slot Hok keys X Rg); [done..|].
  intros v' r w' Hs Hc Hd Hr. exists v'. auto.
Qed.

(** C21. PFCOUNT answers the estimate of the union's registers, of one key or of
    several, whether it counts or finds the count kept, and it answers always.
    Every key still holds an HLL of the same registers and expiry; a count it
    keeps is that estimate. *)
Theorem pfcount_refines fuel st slot keys X Rg w :
  store_ok st → env_ok w → headroom w → (1075 < fuel)%nat →
  (∀ k, k ∈ keys → addr_wf (mkAddr (st_ns (ss_base st)) slot k)) → (∀ k, k ∈ keys → hll_held fuel (X k) (Rg k)) →
  hold_strings st slot keys X w → (∀ k, k ∈ keys → len (text (X k)) <= st_max (ss_base st)) →
  ∃ n, estimate fuel (counts (foldl join no_registers (Rg <$> keys))) = Some n ∧
    wp (pfcount st slot fuel keys) w (λ r w', r = Ok n ∧ keep_registers fuel st slot keys X Rg w w').
Proof.
  intros Hok Henv Hroom Hf Hkeys Hheld Hh Hcap.
  destruct (below_union Rg no_registers keys no_registers_ok) as [_ [HU _]]; [intros k Hk; by eapply held_ok, Hheld|].
  destruct (counted fuel _ Hf HU) as [n En]. exists n. split; [done|].
  eapply (wp_pfcount fuel st slot Hok keys X Rg); [done..|]. auto.
Qed.

(** ** Witnesses *)

(** An HLL with one register at 3, its count stale. *)
Definition demo_ops : list op := [OXZero 100; OVal 3 1; OXZero 16283].
Definition demo_hll : bytes := invalidate (take 16 empty_hll) ++ code demo_ops.

Lemma demo_hll_sketch : sketch demo_hll (spread demo_ops).
Proof.
  constructor; [by vm_compute|by repeat constructor|]. unfold demo_ops. rewrite !spread_cons, !length_app, !Nat2Z.inj_add.
  rewrite !length_op_regs by (by repeat constructor). done.
Qed.

Definition demo_x (k : bytes) : option (bytes * Z) := if decide (k = bstr "k") then Some (demo_hll, 0) else None.
Definition demo_rg (k : bytes) : list Z := if decide (k = bstr "k") then spread demo_ops else no_registers.
Definition demo_keys : list bytes := [bstr "j"; bstr "k"].

Lemma demo_held fuel k : hll_held fuel (demo_x k) (demo_rg k).
Proof. unfold demo_x, demo_rg. case_decide; [|done]. split; [apply demo_hll_sketch|]. intros n Hn. exfalso. vm_compute in Hn. discriminate Hn. Qed.

Lemma demo_keys_wf k : k ∈ demo_keys → addr_wf (mkAddr (st_ns (ss_base demo_strings)) 7 k).
Proof. intros [->|[->|Hk%elem_of_nil]%elem_of_cons]%elem_of_cons; [..|done]; repeat split; vm_compute; congruence. Qed.

Lemma demo_keys_hold : hold_strings demo_strings 7 demo_keys demo_x (demo_text demo_hll 0 (λ _, 5)).
Proof.
  intros k n [->|[->|Hk%elem_of_nil]%elem_of_cons]%elem_of_cons; [| |done].
  - unfold demo_x. rewrite decide_False by done. cbn. rewrite lookup_insert_ne by (vm_compute; congruence). done.
  - unfold demo_x. rewrite decide_True by done. split; [|done]. by apply demo_text_holds.
Qed.

Lemma sketches_are_of_sets_witness :
  let es := [bstr "a"; bstr "b"; bstr "a"] in let R := no_registers in
  ∃ u u' h, add_all empty_hll false 0 es = Some (u, negb (same_regs R (offer_all R es))) ∧
    add_all empty_hll false 0 [bstr "b"; bstr "a"] = Some (u', negb (same_regs R (offer_all R es))) ∧
    histogram u = Some h ∧ histogram u' = Some h ∧
    merge_into (offer_all R es) u' = Some (offer_all R es) ∧
    ∀ es2, merge_into (offer_all R es2) u = Some (offer_all R (es ++ es2)).
Proof.
  apply sketches_are_of_sets.
  - apply empty_sketch.
  - apply empty_sketch.
  - set_solver.
Defined.

Lemma every_sketch_is_counted_witness :
  ∃ n, histogram demo_hll = Some (counts (spread demo_ops)) ∧ estimate 1076 (counts (spread demo_ops)) = Some n ∧ 0 <= n <= 2 ^ 63.
Proof.
  apply every_sketch_is_counted.
  - lia.
  - apply demo_hll_sketch.
Defined.

Lemma pfadd_refines_witness :
  wp (pfadd demo_strings 7 (bstr "k") [bstr "a"]) (demo_world ∅) (λ r w',
    ∃ v', sketch v' (offer_all no_registers [bstr "a"]) ∧ cached v' = None ∧
      writes demo_strings 7 (bstr "k") None true v' (demo_world ∅) r w').
Proof.
  destruct (pfadd_refines 1076 demo_strings 7 (bstr "k") [bstr "a"] None no_registers (demo_world ∅)) as [Hw _].
  - apply demo_store_ok.
  - apply demo_addr_wf.
  - apply demo_env_empty.
  - apply demo_headroom.
  - done.
  - eapply wp_conseq; [by apply Hw|]. cbv beta. intros r w'. by rewrite bool_decide_true by (by left).
Defined.

Lemma pfmerge_refines_witness :
  let w := demo_text demo_hll 0 (λ _, 5) in
  wp (pfmerge demo_strings 7 (bstr "j") [bstr "k"]) w (λ r w', ∃ v',
    sketch v' (join no_registers (spread demo_ops)) ∧ cached v' = None ∧
    (existsb (λ k, is_dense (demo_x k)) demo_keys = true → at_ v' 4 = DENSE) ∧
    if st_max (ss_base demo_strings) <? len v' then r = Err ValueTooLarge ∧ key_reads demo_strings 7 demo_keys demo_x w w'
    else r = Ok tt ∧ key_writes demo_strings 7 demo_keys demo_x (bstr "j") v' w w').
Proof.
  intros w. apply (pfmerge_refines 1076 demo_strings 7 (bstr "j") [bstr "k"] demo_x demo_rg w).
  - apply demo_store_ok.
  - by apply demo_text_env.
  - done.
  - apply demo_keys_wf.
  - intros k _. apply demo_held.
  - apply demo_keys_hold.
Defined.

Lemma pfcount_refines_witness :
  let w := demo_text demo_hll 0 (λ _, 5) in
  ∃ n, estimate 1076 (counts (join (join no_registers no_registers) (spread demo_ops))) = Some n ∧
    wp (pfcount demo_strings 7 1076 demo_keys) w (λ r w', r = Ok n ∧
      keep_registers 1076 demo_strings 7 demo_keys demo_x demo_rg w w').
Proof.
  intros w. apply (pfcount_refines 1076 demo_strings 7 demo_keys demo_x demo_rg w).
  - apply demo_store_ok.
  - by apply demo_text_env.
  - done.
  - lia.
  - apply demo_keys_wf.
  - intros k _. apply demo_held.
  - apply demo_keys_hold.
  - intros k _. unfold demo_x. case_decide; by vm_compute.
Defined.
