(* ===== verification/Keyspace.v ===== *)
(** * Type-agnostic keyspace operations

    [crates/flint-storage/src/keyspace.rs]: DEL, EXISTS, TYPE, COPY, RENAME,
    the expiry commands and the per-key statistics, which read no more of a
    key than the header of its metadata row.

    What they do is stated over the value a key stores whatever its type
    ([stored]): the flags, the expiry, the rest of the metadata row but for
    the version column, and the element rows the version selects. Two keys
    with equal values are equal to every typed store ([repr_of_stored]). *)

From stdpp Require Import base list gmap strings sorting.
From Stdlib Require Import ZArith Lia.
From Stdlib Require Strings.Byte.
From S2P Require Import Prelude Encoding Kv Store Hashes.

(** ** The operations *)

Inductive RenameOutcome := Renamed | DestinationExists | NoSuchKey.

Inductive Ttl := Missing | NoExpiry | Ms (remaining : Z).

Record KeyStat := mkKeyStat { size_bytes : Z; written_ms : Z; created_ms : Z }.

(** Types whose elements are rows of their own, selected by a version. *)
Definition versioned (t : ValueType) : bool :=
  match t with TString | TJson => false | _ => true end.

(** [self.kv.for_each_prefix(from, |k, v| { self.kv.put(to ++ k[from.len()..], v); true })];
    the rows written are outside the prefix being walked. *)
Definition rekey_rows (from to : bytes) : prog unit :=
  rows <- for_each_prefix from ;;
  for_ rows (λ r, kvput (to ++ drop (length from) r.1) r.2).

Section Keyspace.
Context (ns : bytes) (slot : Z).

Definition ks_meta_key (key : bytes) : bytes := envelope Metadata ns slot key.

Definition read_live_row (key : bytes) : prog (option (MetaHeader * bytes)) :=
  o <- kvget (ks_meta_key key) ;;
  match o with
  | None => Ret None
  | Some row =>
      match MetaHeader_decode row with
      | None => Ret None
      | Some header =>
          now <- clock ;;
          if MetaHeader_is_expired header now then
            kvdelete (ks_meta_key key) ;;; Ret None
          else Ret (Some (header, row))
      end
  end.

Definition key_exists (key : bytes) : prog bool :=
  o <- read_live_row key ;; Ret (bool_decide (is_Some o)).

Definition key_type (key : bytes) : prog (option ValueType) :=
  o <- read_live_row key ;; Ret (p ← o; value_type p.1).

Definition del (key : bytes) : prog bool :=
  o <- read_live_row key ;;
  match o with
  | Some _ => kvdelete (ks_meta_key key) ;;; Ret true
  | None => Ret false
  end.

(** The element rows of one version of [src] under a version of [dst], a sorted
    set's score index with them. *)
Definition rekey_value (src dst : bytes) (kind : ValueType) (old version : Z) : prog unit :=
  from <- unwrap (subkey_prefix ns slot src old) ;;
  to <- unwrap (subkey_prefix ns slot dst version) ;;
  rekey_rows from to ;;;
  if decide (kind = TZSet) then
    zfrom <- unwrap (zscore_prefix ns slot src old) ;;
    zto <- unwrap (zscore_prefix ns slot dst version) ;;
    rekey_rows zfrom zto
  else Ret tt.

(** The arm of [copy] for the types with element rows. *)
Definition copy_versioned (src dst : bytes) (kind : ValueType) (row : bytes) : prog bool :=
  match ComplexMeta_decode row with
  | None => Ret false
  | Some meta =>
      now <- clock ;;
      version <- next_version now ;;
      dst_row <- unwrap (write_version row version) ;;
      rekey_value src dst kind (c_version meta) version ;;;
      kvput (ks_meta_key dst) dst_row ;;;
      Ret true
  end.

(** What [copy] does once the destination is free. *)
Definition copy_onto (src dst : bytes) (header : MetaHeader) (row : bytes) : prog bool :=
  match value_type header with
  | None => Ret false
  | Some kind =>
      if versioned kind then copy_versioned src dst kind row
      else kvput (ks_meta_key dst) row ;;; Ret true
  end.

Definition copy (src dst : bytes) (replace : bool) : prog bool :=
  o <- read_live_row src ;;
  match o with
  | None => Ret false
  | Some (header, row) =>
      taken <- key_exists dst ;;
      if taken && negb replace then Ret false
      else
        (if taken then kvdelete (ks_meta_key dst) ;;; Ret tt else Ret tt) ;;;
        copy_onto src dst header row
  end.

Definition rename (src dst : bytes) (nx : bool) : prog RenameOutcome :=
  there <- key_exists src ;;
  if negb there then Ret NoSuchKey
  else if decide (src = dst) then Ret (if nx then DestinationExists else Renamed)
  else
    taken <- (if nx then key_exists dst else Ret false) ;;
    if taken then Ret DestinationExists
    else
      copied <- copy src dst true ;;
      if negb copied then Ret NoSuchKey
      else del src ;;; Ret Renamed.

Definition expire_at (key : bytes) (at_ms : Z) : prog bool :=
  o <- read_live_row key ;;
  match o with
  | None => Ret false
  | Some (_, row) =>
      now <- clock ;;
      if at_ms <=? now then kvdelete (ks_meta_key key) ;;; Ret true
      else
        row' <- unwrap (write_expire row at_ms) ;;
        kvput (ks_meta_key key) row' ;;; Ret true
  end.

Definition expire_time_ms (key : bytes) : prog (option Z) :=
  o <- read_live_row key ;; Ret (h_expire_ms ∘ fst <$> o).

(** The remaining time is a difference of 64-bit words, with a second reading
    of the clock. *)
Definition ttl (key : bytes) : prog Ttl :=
  o <- read_live_row key ;;
  match o with
  | None => Ret Missing
  | Some (h, _) =>
      if h_expire_ms h =? 0 then Ret NoExpiry
      else now <- clock ;; Ret (Ms (u64 (h_expire_ms h - now)))
  end.

Definition key_stat (key : bytes) : prog (option KeyStat) :=
  o <- read_live_row key ;;
  Ret ('(header, row) ← o;
       t ← value_type header;
       if versioned t then
         m ← ComplexMeta_decode row;
         Some (mkKeyStat (c_bytes m) (written_ms_of row) (Z.shiftr (c_version m) 20))
       else
         Some (mkKeyStat (u64 (len row - Z.of_nat (head_len (h_flags header)))) (written_ms_of row) 0)).

Definition persist (key : bytes) : prog bool :=
  o <- read_live_row key ;;
  match o with
  | None => Ret false
  | Some (h, row) =>
      if h_expire_ms h =? 0 then Ret false
      else
        row' <- unwrap (write_expire row 0) ;;
        kvput (ks_meta_key key) row' ;;; Ret true
  end.
End Keyspace.

(** ** The value a key stores *)

Record value := mkValue {
  v_flags : Z;      (** type and encoding *)
  v_expire : Z;
  v_rest : bytes;   (** the row past the header, without the version column *)
  v_rows : kvmap;   (** the element rows *)
  v_index : kvmap   (** a sorted set's score rows *)
}.

Definition stored (a : addr) (m : kvmap) : option value :=
  row ← m !! mkey a;
  h ← MetaHeader_decode row;
  t ← value_type h;
  if versioned t then
    meta ← ComplexMeta_decode row;
    let off := head_len (h_flags h) in
    Some (mkValue (h_flags h) (h_expire_ms h)
            (sub row HEADER_LEN (off - HEADER_LEN) ++ drop (off + 8) row)
            (rows_at Subkey a (c_version meta) m)
            (if decide (t = TZSet) then rows_at ZScore a (c_version meta) m else ∅))
  else
    Some (mkValue (h_flags h) (h_expire_ms h) (drop HEADER_LEN row) ∅ ∅).

Definition alive (now : Z) (v : value) : bool := negb (expired_at (v_expire v) now).

(** What a client reading at [now] finds. *)
Definition value_at (a : addr) (now : Z) (m : kvmap) : option value :=
  v ← stored a m; if alive now v then Some v else None.

(** No corrupt metadata row: one that is there can be read. *)
Definition sound (a : addr) (m : kvmap) : Prop :=
  is_Some (m !! mkey a) → is_Some (stored a m).

(** ** Rows by their columns *)

Definition plain_row (f : Byte.byte) (e rest : bytes) : bytes := [f] ++ e ++ rest.
Definition versioned_row (f : Byte.byte) (e s ver tl : bytes) : bytes := [f] ++ e ++ s ++ ver ++ tl.

Definition columns (f : Byte.byte) (e s ver tl : bytes) : Prop :=
  length e = 8%nat ∧ length s = (head_len (b2z f) - HEADER_LEN)%nat ∧ length ver = 8%nat ∧
  (12 ≤ length tl)%nat.

Lemma head_len_cases flags : head_len flags = 9%nat ∨ head_len flags = 17%nat.
Proof. unfold head_len, HEADER_LEN. destruct (_ =? _); auto. Qed.

Lemma MetaHeader_decode_row f e rest :
  length e = 8%nat → MetaHeader_decode (plain_row f e rest) = Some (mkMetaHeader (b2z f) (of_be e)).
Proof.
  intros He. unfold MetaHeader_decode, plain_row. cbn [app].
  rewrite decide_False by (cbn; rewrite length_app; unfold HEADER_LEN; lia).
  unfold sub. change (drop 1 (f :: e ++ rest)) with (e ++ rest). by rewrite take_app_length' by done.
Qed.

Lemma MetaHeader_decode_inv row h :
  MetaHeader_decode row = Some h →
  ∃ f e rest, row = plain_row f e rest ∧ length e = 8%nat ∧ h = mkMetaHeader (b2z f) (of_be e).
Proof.
  unfold MetaHeader_decode. destruct row as [|f r]; [done|].
  case_decide as Hl; [done|]. intros [= <-]. unfold HEADER_LEN in Hl. cbn in Hl.
  exists f, (take 8 r), (drop 8 r). split_and!.
  - unfold plain_row. cbn. by rewrite take_drop.
  - rewrite length_take. lia.
  - done.
Qed.

Lemma length_versioned_row f e s ver tl :
  columns f e s ver tl →
  length (versioned_row f e s ver tl) = (head_len (b2z f) + 8 + length tl)%nat.
Proof.
  intros (He & Hs & Hv & _). unfold versioned_row. rewrite !length_app, He, Hs, Hv.
  destruct (head_len_cases (b2z f)) as [-> | ->]; unfold HEADER_LEN; cbn; lia.
Qed.

(** The slices of a row of columns. *)
Lemma row_slices f e s ver tl :
  columns f e s ver tl →
  let row := versioned_row f e s ver tl in
  let off := head_len (b2z f) in
  sub row HEADER_LEN (off - HEADER_LEN) = s ∧
  take off row = [f] ++ e ++ s ∧ drop off row = ver ++ tl ∧ drop (off + 8) row = tl.
Proof.
  intros (He & Hs & Hv & _) row off.
  assert (E9 : drop HEADER_LEN row = s ++ ver ++ tl).
  { change (drop HEADER_LEN row) with (drop 8 (e ++ s ++ ver ++ tl)). by apply drop_app_length'. }
  assert (Hoff : off = length ([f] ++ e ++ s)).
  { rewrite !length_app, He, Hs. unfold off, HEADER_LEN.
    destruct (head_len_cases (b2z f)) as [-> | ->]; cbn; lia. }
  assert (Er : row = ([f] ++ e ++ s) ++ ver ++ tl) by (unfold row, versioned_row; by rewrite <-!app_assoc).
  assert (Ed : drop off row = ver ++ tl) by (rewrite Er, Hoff; apply drop_app_length).
  split_and!; [| |done|].
  - unfold sub. rewrite E9. fold off in Hs. rewrite <-Hs. apply take_app_length.
  - rewrite Er, Hoff. apply take_app_length.
  - rewrite <-drop_drop, Ed. by apply drop_app_length'.
Qed.

Definition stamp_of (f : Byte.byte) (s : bytes) : Z :=
  if encoding_of (b2z f) =? ENCODING_V2 then of_be s else 0.

Lemma ComplexMeta_decode_row f e s ver tl :
  columns f e s ver tl →
  ComplexMeta_decode (versioned_row f e s ver tl) =
  Some (mkComplexMeta (mkMetaHeader (b2z f) (of_be e)) (stamp_of f s) (of_be ver)
          (of_be (take 4 tl)) (of_be (sub tl 4 8))).
Proof.
  intros Hc. pose proof (row_slices _ _ _ _ _ Hc) as (Hsub & Ht & Hd & Hd8).
  pose proof (length_versioned_row _ _ _ _ _ Hc) as Hlen. destruct Hc as (He & Hs & Hv & Htl).
  pose proof (MetaHeader_decode_row f e (s ++ ver ++ tl) He
    : MetaHeader_decode (versioned_row f e s ver tl) = _) as Hh.
  unfold ComplexMeta_decode. rewrite Hh. cbn [mbind option_bind h_flags].
  rewrite decide_False by (rewrite Hlen; unfold COMPLEX_TAIL_LEN; lia).
  do 2 f_equal.
  - unfold written_ms_of, stamp_of. cbn [versioned_row app]. unfold head_len in Hs, Hsub.
    destruct (encoding_of (b2z f) =? ENCODING_V2) eqn:E; [|done].
    unfold get_sub. rewrite decide_True.
    + f_equal. etransitivity; [|exact Hsub]. done.
    + change (f :: e ++ s ++ ver ++ tl) with (versioned_row f e s ver tl). rewrite Hlen.
      unfold head_len. rewrite E. lia.
  - unfold sub. rewrite Hd. f_equal. by apply take_app_length'.
  - unfold sub. rewrite Hd8. done.
  - unfold sub. replace (head_len (b2z f) + 12)%nat with (head_len (b2z f) + 8 + 4)%nat by lia.
    rewrite <-drop_drop. by rewrite Hd8.
Qed.

Lemma ComplexMeta_decode_inv row meta :
  ComplexMeta_decode row = Some meta →
  ∃ f e s ver tl, row = versioned_row f e s ver tl ∧ columns f e s ver tl.
Proof.
  unfold ComplexMeta_decode. destruct (MetaHeader_decode row) as [h|] eqn:Eh; [|done].
  apply MetaHeader_decode_inv in Eh as (f & e & rest & -> & He & ->). cbn [mbind option_bind h_flags].
  case_decide as Hl; [done|]. intros _. unfold plain_row in *.
  assert (Hlen : (head_len (b2z f) + 20 ≤ 9 + length rest)%nat).
  { unfold COMPLEX_TAIL_LEN in Hl. rewrite !length_app, He in Hl. cbn in Hl. lia. }
  set (n := (head_len (b2z f) - HEADER_LEN)%nat).
  assert (Hn : (n + 20 ≤ length rest)%nat).
  { unfold n, HEADER_LEN. destruct (head_len_cases (b2z f)) as [E|E]; rewrite E in *; lia. }
  exists f, e, (take n rest), (take 8 (drop n rest)), (drop 8 (drop n rest)). split.
  - unfold versioned_row. by rewrite !take_drop.
  - unfold columns. rewrite !length_take, !length_drop. fold n. lia.
Qed.

Lemma write_version_row f e s ver tl v :
  columns f e s ver tl →
  write_version (versioned_row f e s ver tl) v = Some (versioned_row f e s (be 8 v) tl).
Proof.
  intros Hc. pose proof (row_slices _ _ _ _ _ Hc) as (_ & Ht & _ & Hd8).
  pose proof (length_versioned_row _ _ _ _ _ Hc) as Hlen.
  unfold write_version. change (head (versioned_row f e s ver tl)) with (Some f). cbn [mbind option_bind].
  rewrite decide_True by lia. unfold patch. rewrite length_be, Ht, Hd8. f_equal.
  unfold versioned_row. by rewrite <-!app_assoc.
Qed.

Lemma write_expire_row f e rest x :
  length e = 8%nat → write_expire (plain_row f e rest) x = Some (plain_row f (be 8 x) rest).
Proof.
  intros He. unfold write_expire, plain_row, HEADER_LEN.
  rewrite decide_True by (rewrite !length_app, He; cbn; lia).
  unfold patch. rewrite length_be. change (Some ([f] ++ be 8 x ++ drop 8 (e ++ rest)) = Some ([f] ++ be 8 x ++ rest)).
  by rewrite drop_app_length' by done.
Qed.

(** ** Stored values by their columns *)

Definition index_rows (t : ValueType) (a : addr) (v : Z) (m : kvmap) : kvmap :=
  if decide (t = TZSet) then rows_at ZScore a v m else ∅.

Lemma stored_versioned a m f e s ver tl t :
  m !! mkey a = Some (versioned_row f e s ver tl) → columns f e s ver tl →
  from_flags (b2z f) = Some t → versioned t = true →
  stored a m = Some (mkValue (b2z f) (of_be e) (s ++ tl) (rows_at Subkey a (of_be ver) m)
                       (index_rows t a (of_be ver) m)).
Proof.
  intros Hrow Hc Ht Hv. unfold stored. rewrite Hrow. cbn [mbind option_bind].
  pose proof (MetaHeader_decode_row f e (s ++ ver ++ tl) (proj1 Hc)
    : MetaHeader_decode (versioned_row f e s ver tl) = _) as Hh.
  rewrite Hh. cbn [mbind option_bind]. unfold value_type. cbn [h_flags]. rewrite Ht.
  cbn [mbind option_bind]. rewrite Hv, ComplexMeta_decode_row by done.
  cbn [mbind option_bind c_version h_expire_ms].
  pose proof (row_slices _ _ _ _ _ Hc) as (Hsub & _ & _ & Hd8). by rewrite Hsub, Hd8.
Qed.

Lemma stored_plain a m f e rest t :
  m !! mkey a = Some (plain_row f e rest) → length e = 8%nat →
  from_flags (b2z f) = Some t → versioned t = false →
  stored a m = Some (mkValue (b2z f) (of_be e) rest ∅ ∅).
Proof.
  intros Hrow He Ht Hv. unfold stored. rewrite Hrow. cbn [mbind option_bind].
  rewrite MetaHeader_decode_row by done. cbn [mbind option_bind]. unfold value_type.
  cbn [h_flags]. rewrite Ht. cbn [mbind option_bind]. rewrite Hv. cbn [h_expire_ms].
  change (drop HEADER_LEN (plain_row f e rest)) with (drop 8 (e ++ rest)).
  by rewrite drop_app_length' by done.
Qed.

Inductive stored_cases (a : addr) (m : kvmap) (v : value) : Prop :=
| StoredPlain f e rest t :
    m !! mkey a = Some (plain_row f e rest) → length e = 8%nat →
    from_flags (b2z f) = Some t → versioned t = false →
    v = mkValue (b2z f) (of_be e) rest ∅ ∅ → stored_cases a m v
| StoredVersioned f e s ver tl t :
    m !! mkey a = Some (versioned_row f e s ver tl) → columns f e s ver tl →
    from_flags (b2z f) = Some t → versioned t = true →
    v = mkValue (b2z f) (of_be e) (s ++ tl) (rows_at Subkey a (of_be ver) m)
          (index_rows t a (of_be ver) m) → stored_cases a m v.

Lemma stored_inv a m v : stored a m = Some v → stored_cases a m v.
Proof.
  intros Hv. pose proof Hv as Hv'. unfold stored in Hv'.
  destruct (m !! mkey a) as [row|] eqn:Hrow; [|done]. cbn [mbind option_bind] in Hv'.
  destruct (MetaHeader_decode row) as [h|] eqn:Hh; [|done]. cbn [mbind option_bind] in Hv'.
  pose proof Hh as (f & e & rest & -> & He & ->)%MetaHeader_decode_inv.
  unfold value_type in Hv'. cbn [h_flags] in Hv'.
  destruct (from_flags (b2z f)) as [t|] eqn:Ht; [|done]. cbn [mbind option_bind] in Hv'.
  destruct (versioned t) eqn:Hver.
  - destruct (ComplexMeta_decode _) as [meta|] eqn:Hm; [|done].
    destruct (ComplexMeta_decode_inv _ _ Hm) as (f' & e' & s & ver & tl & E & Hc).
    assert (f' = f) as -> by (by injection E).
    rewrite E in Hrow. eapply StoredVersioned; [done..|].
    rewrite (stored_versioned _ _ _ _ _ _ _ _ Hrow Hc Ht Hver) in Hv. by injection Hv as <-.
  - eapply StoredPlain; [done..|]. rewrite (stored_plain _ _ _ _ _ _ Hrow He Ht Hver) in Hv.
    by injection Hv as <-.
Qed.

(** The flags decide the type: two values with the same flags are of one kind. *)
Lemma app_eq_columns f e s ver tl e' s' ver' tl' :
  columns f e s ver tl → columns f e' s' ver' tl' → s ++ tl = s' ++ tl' → s = s' ∧ tl = tl'.
Proof. intros (_ & Hs & _) (_ & Hs' & _) E. apply app_inj_1 in E; [done|congruence]. Qed.

Lemma stored_rows a m v t wgt now F :
  stored a m = Some v → repr t wgt a now m (Some F) → versioned t = true →
  ∃ f e s ver tl,
    m !! mkey a = Some (versioned_row f e s ver tl) ∧ columns f e s ver tl ∧
    from_flags (b2z f) = Some t ∧
    v = mkValue (b2z f) (of_be e) (s ++ tl) F (index_rows t a (of_be ver) m).
Proof.
  intros Hv (_ & meta & (row & Hrow & (h & Hh & _ & Ht) & Hd) & HF & _) Hver.
  destruct (ComplexMeta_decode_inv _ _ Hd) as (f & e & s & ver & tl & -> & Hc).
  pose proof (MetaHeader_decode_row f e (s ++ ver ++ tl) (proj1 Hc)
    : MetaHeader_decode (versioned_row f e s ver tl) = _) as Hh'.
  rewrite Hh' in Hh. injection Hh as <-. unfold value_type in Ht. cbn [h_flags] in Ht.
  exists f, e, s, ver, tl. split_and!; [done..|].
  rewrite (stored_versioned _ _ _ _ _ _ _ _ Hrow Hc Ht Hver) in Hv. injection Hv as <-.
  rewrite ComplexMeta_decode_row in Hd by done. injection Hd as <-. cbn [c_version] in HF.
  by rewrite HF.
Qed.

Lemma repr_stored t wgt a now m F :
  repr t wgt a now m (Some F) → versioned t = true → is_Some (stored a m).
Proof.
  intros (_ & meta & (row & Hrow & (h & Hh & _ & Ht) & Hd) & _) Hver.
  unfold stored. rewrite Hrow. cbn [mbind option_bind]. rewrite Hh. cbn [mbind option_bind].
  rewrite Ht. cbn [mbind option_bind]. rewrite Hver, Hd. cbn. eauto.
Qed.

(** To the typed stores a key is its value: whatever collection one key holds
    another with the same value holds. *)
Lemma repr_of_stored t wgt a a' now m m' F :
  repr t wgt a now m (Some F) → versioned t = true → stored a' m' = stored a m →
  repr t wgt a' now m' (Some F).
Proof.
  intros HF Hver E. destruct (repr_stored _ _ _ _ _ _ HF Hver) as [v Hv].
  destruct (stored_rows _ _ _ _ _ _ _ Hv HF Hver) as (f & e & s & ver & tl & Hrow & Hc & Ht & Ev).
  rewrite Hv in E. destruct (stored_inv _ _ _ E) as [f' e' rest' t' _ _ Ht' Hver' Ev'
    |f' e' s' ver' tl' t' Hrow' Hc' Ht' _ Ev'].
  - rewrite Ev in Ev'. injection Ev' as Ef _ _ _ _. rewrite Ef in Ht. congruence.
  - rewrite Ev in Ev'. injection Ev' as Ef Ee Est HFe _. apply b2z_inj in Ef as <-.
    apply of_be_inj in Ee as <-; [|destruct Hc as [-> _], Hc' as [-> _]; done].
    destruct (app_eq_columns _ _ _ _ _ _ _ _ _ Hc Hc' Est) as [<- <-].
    destruct HF as (Hne & meta & (row & Hrow2 & (h & Hh & Hex & Hty) & Hd) & _ & Hs & Hb).
    assert (row = versioned_row f e s ver tl) as -> by congruence.
    rewrite ComplexMeta_decode_row in Hd by done. injection Hd as <-. cbn [c_size c_bytes] in Hs, Hb.
    split; [done|]. eexists. split_and!.
    + eexists. split; [exact Hrow'|]. split; [|by apply ComplexMeta_decode_row].
      exists h. split_and!; [|done..]. rewrite <-Hh. etransitivity; [|symmetry].
      * exact (MetaHeader_decode_row f e (s ++ ver' ++ tl) (proj1 Hc)).
      * exact (MetaHeader_decode_row f e (s ++ ver ++ tl) (proj1 Hc)).
    + done.
    + done.
    + done.
Qed.

(** ** Other keys *)

Lemma stored_rows_ext a m m' :
  m' !! mkey a = m !! mkey a →
  (∀ row meta cf, m !! mkey a = Some row → ComplexMeta_decode row = Some meta → cf ≠ Metadata →
     rows_at cf a (c_version meta) m' = rows_at cf a (c_version meta) m) →
  stored a m' = stored a m.
Proof.
  intros E Hr. unfold stored. rewrite E. destruct (m !! mkey a) as [row|]; [|done].
  cbn [mbind option_bind]. destruct (MetaHeader_decode row) as [h|]; [|done].
  cbn [mbind option_bind]. destruct (value_type h) as [t|]; [|done]. cbn [mbind option_bind].
  destruct (versioned t); [|done]. destruct (ComplexMeta_decode row) as [meta|] eqn:Hm; [|done].
  cbn [mbind option_bind]. by rewrite !(Hr row).
Qed.

Lemma decode_version_width row meta : ComplexMeta_decode row = Some meta → in_width 64 (c_version meta).
Proof.
  unfold ComplexMeta_decode. destruct (MetaHeader_decode row); [|done]. cbn.
  case_decide; [done|]. intros [= <-]. apply (of_be_sub_width _ _ 8).
Qed.

Lemma stored_ext a m m' :
  m' !! mkey a = m !! mkey a →
  (∀ cf v, cf ≠ Metadata → in_width 64 v → rows_at cf a v m' = rows_at cf a v m) →
  stored a m' = stored a m.
Proof.
  intros E Hr. apply stored_rows_ext; [done|]. intros row meta cf _ Hm Hcf.
  by eapply Hr, decode_version_width.
Qed.

Lemma stored_frame a a' m m' :
  addr_wf a → addr_wf a' → a ≠ a' → frame a m m' → stored a' m' = stored a' m.
Proof.
  intros Ha Ha' Hne Hfr. apply stored_ext.
  - apply Hfr. by apply not_owned_mkey.
  - intros. by apply (rows_at_frame _ a).
Qed.

(** ** Re-keying rows *)

Lemma wp_for_put {A} (g h : A → bytes) l w Q :
  Q tt (with_kv w (foldl (λ m r, <[g r := h r]> m) (w_kv w) l)) →
  wp (for_ l (λ r, kvput (g r) (h r))) w Q.
Proof.
  revert w. induction l as [|r l IH]; intros w HQ; cbn [for_].
  - apply wp_ret. by destruct w.
  - apply wp_put, IH. exact HQ.
Qed.

Lemma foldl_insert_prefix (from to : bytes) l (m : kvmap) :
  NoDup l.*1 →
  let m' := foldl (λ m r, <[to ++ drop (length from) r.1 := r.2]> m) m
              (prod_map (app from) id <$> l) in
  (∀ f, m' !! (to ++ f) = (list_to_map l ∪ sub_map to m : kvmap) !! f) ∧
  (∀ k, (∀ f, k ≠ to ++ f) → m' !! k = m !! k).
Proof.
  intros Hnd m'. subst m'. revert m. induction l as [|[f x] l IH]; intros m.
  { cbn. split; [|done]. intros f. by rewrite (left_id_L ∅ (∪)), lookup_sub_map. }
  apply NoDup_cons in Hnd as [Hf Hnd]. cbn [fmap list_fmap foldl fst snd prod_map id].
  rewrite drop_app_length. destruct (IH Hnd (<[to ++ f := x]> m)) as [H1 H2]. split.
  - intros f'. cbn [list_to_map foldr curry]. rewrite H1, sub_map_insert.
    apply not_elem_of_list_to_map in Hf. cbn. rewrite <-insert_union_l.
    by rewrite <-insert_union_r.
  - intros k Hk. rewrite H2 by done. rewrite lookup_insert_ne; [done|]. intros E. by apply (Hk f).
Qed.

Lemma wp_rekey_rows cf src v dst v' w Q :
  cf ≠ Metadata → addr_wf dst → in_width 64 v' → v' <= w_last w →
  fresh (w_kv w) (w_last w) → rows_at cf dst v' (w_kv w) = ∅ →
  (∀ m', rows_at cf dst v' m' = rows_at cf src v (w_kv w) →
     (∀ k, (∀ f, k ≠ rprefix cf dst v' ++ f) → m' !! k = w_kv w !! k) →
     fresh m' (w_last w) → Q tt (with_kv w m')) →
  wp (rekey_rows (rprefix cf src v) (rprefix cf dst v')) w Q.
Proof.
  intros Hcf Hd Hv' Hle Hf Hempty HQ. unfold rekey_rows. wp_op. apply wp_for_put.
  rewrite prefix_rows_sub_map. fold (rows_at cf src v (w_kv w)).
  set (F := rows_at cf src v (w_kv w)) in *.
  destruct (foldl_insert_prefix (rprefix cf src v) (rprefix cf dst v') (rows_of F) (w_kv w)
    (NoDup_rows_of F)) as [H1 H2].
  assert (HF : (list_to_map (rows_of F) : kvmap) = F).
  { apply map_eq. intros f. apply option_eq. intros x.
    rewrite <-elem_of_list_to_map by apply NoDup_rows_of. apply elem_of_rows_of. }
  fold (rows_at cf dst v' (w_kv w)) in H1. rewrite HF, Hempty, (right_id_L ∅ (∪)) in H1.
  apply HQ; [|done|].
  - apply map_eq. intros f. by rewrite lookup_rows_at.
  - intros cf' a u f x Hcf' Ha Hu E.
    destruct (decide (rprefix cf dst v' `prefix_of` rprefix cf' a u ++ f)) as [[f' Ep]|Hn].
    + apply rprefix_inj in Ep as (_ & _ & -> & _); done.
    + rewrite H2 in E; [by eapply Hf|]. intros f' Ef. apply Hn. by exists f'.
Qed.

(** ** Reading a live row *)

Lemma stored_header a m row h v :
  m !! mkey a = Some row → MetaHeader_decode row = Some h → stored a m = Some v →
  v_flags v = h_flags h ∧ v_expire v = h_expire_ms h.
Proof.
  intros Hrow Hh. unfold stored. rewrite Hrow. cbn [mbind option_bind]. rewrite Hh.
  cbn [mbind option_bind]. destruct (value_type h); [|done]. cbn [mbind option_bind].
  destruct (versioned _); [|by intros [= <-]].
  destruct (ComplexMeta_decode row); [|done]. by intros [= <-].
Qed.

Lemma stored_none a m : m !! mkey a = None → stored a m = None.
Proof. intros E. unfold stored. by rewrite E. Qed.

Lemma value_at_stored a now m v : value_at a now m = Some v → stored a m = Some v ∧ alive now v = true.
Proof.
  unfold value_at. destruct (stored a m) as [u|]; [|done]. cbn.
  destruct (alive now u) eqn:E; [|done]. by intros [= <-].
Qed.

Lemma value_at_intro a now m v : stored a m = Some v → alive now v = true → value_at a now m = Some v.
Proof. intros Hv Hal. unfold value_at. rewrite Hv. cbn. by rewrite Hal. Qed.

(** An expired value stays expired. *)
Lemma alive_later now now' v : now <= now' → alive now' v = true → alive now v = true.
Proof.
  unfold alive, expired_at. intros Hle H. apply negb_true_iff, andb_false_iff in H.
  apply negb_true_iff, andb_false_iff. destruct H as [H|H]; [by left|right].
  apply Z.leb_gt in H. apply Z.leb_gt. lia.
Qed.

Lemma value_gone_later a now now' m :
  now <= now' → value_at a now m = None → value_at a now' m = None.
Proof.
  unfold value_at. destruct (stored a m) as [v|]; [|done]. cbn. intros Hle.
  destruct (alive now v) eqn:E; [done|]. destruct (alive now' v) eqn:E'; [|done].
  rewrite (alive_later now now') in E; done.
Qed.

(** The key is gone at [now] and later, and the read that found it so has at
    most reclaimed its metadata row. *)
Record gone (a : addr) (now : Z) (w w' : world kvmap) : Prop := {
  gone_read : after_read a w w';
  gone_before : value_at a now (w_kv w) = None;
  gone_after : ∀ now', now <= now' → value_at a now' (w_kv w') = None
}.

Section Specs.
Context (ns : bytes) (slot : Z).

Abbreviation at_key key := (mkAddr ns slot key).

Lemma wp_read_live_row key w Q :
  let a := at_key key in
  let now := w_clock w 0%nat in
  sound a (w_kv w) →
  (∀ v h row, w_kv w !! mkey a = Some row → MetaHeader_decode row = Some h →
     stored a (w_kv w) = Some v → alive now v = true → Q (Some (h, row)) (tick w)) →
  (∀ w', gone a now w w' → Q None w') →
  wp (read_live_row ns slot key) w Q.
Proof.
  intros a now Hs HSome HNone. unfold read_live_row. wp_op.
  change (ks_meta_key ns slot key) with (mkey a).
  destruct (w_kv w !! mkey a) as [row|] eqn:Hrow.
  2:{ wp_op. apply HNone. constructor; [by left| |].
      - unfold value_at. by rewrite stored_none.
      - intros. unfold value_at. by rewrite stored_none. }
  destruct (Hs ltac:(eauto)) as [v Hv].
  assert (∃ h, MetaHeader_decode row = Some h) as [h Hh].
  { unfold stored in Hv. rewrite Hrow in Hv. cbn [mbind option_bind] in Hv.
    destruct (MetaHeader_decode row); [eauto|done]. }
  destruct (stored_header _ _ _ _ _ Hrow Hh Hv) as [_ He]. rewrite Hh. wp_op.
  assert (Hal : alive now v = negb (MetaHeader_is_expired h now)).
  { unfold alive, MetaHeader_is_expired. by rewrite He. }
  fold now. destruct (MetaHeader_is_expired h now).
  - wp_op. wp_op. apply HNone. constructor; [by right; right| |].
    + unfold value_at. rewrite Hv. cbn. by rewrite Hal.
    + intros. unfold value_at. rewrite stored_none; [done|]. cbn. by rewrite lookup_delete_eq.
  - wp_op. by eapply HSome.
Qed.

(** EXISTS, at the reading of the clock it makes. *)
Lemma wp_key_exists key w Q :
  let a := at_key key in
  let now := w_clock w 0%nat in
  sound a (w_kv w) →
  (is_Some (value_at a now (w_kv w)) → Q true (tick w)) →
  (∀ w', gone a now w w' → Q false w') →
  wp (key_exists ns slot key) w Q.
Proof.
  intros a now Hs HT HF. unfold key_exists. apply wp_bind. apply wp_read_live_row; [done| |].
  - intros v h row _ _ Hv Hal. wp_op. rewrite bool_decide_eq_true_2 by eauto. apply HT.
    exists v. by apply value_at_intro.
  - intros w' Hg. wp_op. by apply HF.
Qed.

Lemma gone_effect key now w w' :
  gone (at_key key) now w w' → env_ok w →
  env_ok w' ∧ effect (at_key key) w w' ∧ w_last w' = w_last w.
Proof. intros [Hr _ _]. by apply (after_read_effect (mkStore ns 0) slot key). Qed.

(** ** COPY and RENAME *)

(** Only rows of family [cf] of version [v] of [b] were written. *)
Definition only_rows (cf : Cf) (b : addr) (v : Z) (m m' : kvmap) : Prop :=
  ∀ k, (∀ f, k ≠ rprefix cf b v ++ f) → m' !! k = m !! k.

Lemma only_rows_frame cf b v m m' :
  cf ≠ Metadata → in_width 64 v → only_rows cf b v m m' → frame b m m'.
Proof. intros Hcf Hv H k Hk. apply H. intros f ->. by apply Hk, owned_row. Qed.

Lemma only_rows_other cf b v cf' m m' :
  addr_wf b → in_width 64 v → cf ≠ Metadata → cf' ≠ Metadata → cf ≠ cf' →
  only_rows cf b v m m' → ∀ a u, addr_wf a → in_width 64 u → rows_at cf' a u m' = rows_at cf' a u m.
Proof.
  intros Hb Hv Hcf Hcf' Hne H a u Ha Hu. apply rows_at_ext. intros f. apply H. intros f' E.
  apply rprefix_inj in E as (? & _); [|done..]. congruence.
Qed.

Lemma copy_source src m row h v :
  m !! mkey (at_key src) = Some row → MetaHeader_decode row = Some h →
  stored (at_key src) m = Some v → value_type h = from_flags (v_flags v).
Proof.
  intros Hrow Hh Hv. unfold value_type. by destruct (stored_header _ _ _ _ _ Hrow Hh Hv) as [-> _].
Qed.

Section Copy.
Context (src dst : bytes).
Abbreviation a := (at_key src).
Abbreviation b := (at_key dst).
Context (Ha : addr_wf a) (Hb : addr_wf b).

Lemma zprefix_ok key u :
  addr_wf (at_key key) → zscore_prefix ns slot key u = Some (rprefix ZScore (at_key key) u).
Proof. intros Hk. apply (zscore_prefix_ok ns slot key u Hk). Qed.

(** The element rows of one version, in both families where the type has two,
    arrive under a new version of the destination. *)
Lemma wp_rekey_value t u v' w Q :
  in_width 64 u → in_width 64 v' → v' <= w_last w → fresh (w_kv w) (w_last w) →
  (∀ cf, cf ≠ Metadata → rows_at cf b v' (w_kv w) = ∅) →
  (∀ m', rows_at Subkey b v' m' = rows_at Subkey a u (w_kv w) →
     index_rows t b v' m' = index_rows t a u (w_kv w) → frame b (w_kv w) m' →
     fresh m' (w_last w) → Q tt (with_kv w m')) →
  wp (rekey_value ns slot src dst t u v') w Q.
Proof.
  intros Hu Hv' Hle Hf Hnone HQ. unfold rekey_value.
  eapply wp_unwrap; [by apply (sprefix_ok a)|]. eapply wp_unwrap; [by apply (sprefix_ok b)|].
  apply wp_bind. apply (wp_rekey_rows Subkey a u b v'); [done..|by apply Hnone|].
  intros m1 Hr1 Ho1 Hf1. assert (Hfr1 : frame b (w_kv w) m1) by (by apply (only_rows_frame Subkey b v')).
  unfold index_rows in HQ. destruct (decide (t = TZSet)) as [->|]; [|wp_op; by apply HQ].
  assert (Hz : ∀ c x, addr_wf c → in_width 64 x → rows_at ZScore c x m1 = rows_at ZScore c x (w_kv w)).
  { intros. by apply (only_rows_other Subkey b v'). }
  eapply wp_unwrap; [by apply zprefix_ok|]. eapply wp_unwrap; [by apply zprefix_ok|].
  apply (wp_rekey_rows ZScore a u b v'); [done..|cbn; rewrite Hz by done; by apply Hnone|].
  cbn [w_kv with_kv w_last]. intros m2 Hr2 Ho2 Hf2. apply HQ.
  - rewrite <-Hr1. by apply (only_rows_other ZScore b v').
  - rewrite Hr2. by apply Hz.
  - eapply frame_trans; [done|]. by apply (only_rows_frame ZScore b v').
  - done.
Qed.

Lemma wp_copy_onto m0 row h v w Q :
  m0 !! mkey a = Some row → MetaHeader_decode row = Some h → stored a m0 = Some v →
  env_ok w → headroom w →
  (∀ cf u, cf ≠ Metadata → rows_at cf a u (w_kv w) = rows_at cf a u m0) →
  (∀ w', effect b w w' → stored b (w_kv w') = Some v → Q true w') →
  wp (copy_onto ns slot src dst h row) w Q.
Proof.
  intros Hrow Hh Hv Henv Hroom Hrows HQ. pose proof Henv as [Hclk Hf]. unfold copy_onto, copy_versioned.
  change (ks_meta_key ns slot dst) with (mkey b).
  rewrite (copy_source _ _ _ _ _ Hrow Hh Hv).
  destruct (stored_inv _ _ _ Hv) as [f e rest t Hrow' He Ht Hver Ev|f e s ver tl t Hrow' Hc Ht Hver Ev];
    rewrite Hrow in Hrow'; injection Hrow' as ->; rewrite Ev; cbn [v_flags]; rewrite Ht, Hver.
  { wp_op. wp_op. apply HQ.
    - apply effect_with_kv; auto with flint.
    - rewrite Ev. eapply stored_plain; [apply lookup_insert_eq|done..]. }
  rewrite ComplexMeta_decode_row by done. wp_op. wp_op.
  destruct (version_next_lt (w_last w) (w_clock w 0%nat)) as (Hlt & _ & Hv64); [done..|].
  set (v' := version_next (w_last w) (w_clock w 0%nat)) in *.
  eapply wp_unwrap; [by apply write_version_row|]. cbn [c_version].
  assert (Hver64 : in_width 64 (of_be ver)).
  { pose proof (of_be_range ver) as R. destruct Hc as (_ & _ & E & _). by rewrite E in R. }
  apply wp_bind. apply wp_rekey_value; cbn [w_last with_last tick w_kv]; [done..|lia| | |].
  { eapply fresh_le; [done|lia]. }
  { intros cf Hcf. by apply (fresh_empty _ (w_last w)). }
  intros m' Hr Hi Hfr Hf'. wp_op. wp_op. apply HQ.
  - apply (effect_trans _ _ (with_kv (with_last (tick w) v') m')).
    + constructor; cbn; [by exists 1%nat|lia|done|done].
    + apply effect_with_kv; cbn; auto with flint.
  - assert (Ebe : of_be (be 8 v') = v') by (by apply of_be_id).
    rewrite Ev. erewrite (stored_versioned _ _ _ _ _ (be 8 v')); [|apply lookup_insert_eq| |done|done].
    + cbn [w_kv with_kv]. rewrite Ebe. unfold index_rows in *. rewrite !rows_at_meta_insert by done.
      rewrite Hr, Hi, !Hrows by done. done.
    + destruct Hc as (? & ? & _ & ?). unfold columns. by rewrite length_be.
Qed.
End Copy.

(** What an operation on two keys does to the rest of the world. *)
Record effect2 (a b : addr) (w w' : world kvmap) : Prop := {
  eff2_clock : ∃ d, ∀ n, w_clock w' n = w_clock w (d + n)%nat;
  eff2_last : w_last w <= w_last w';
  eff2_fresh : fresh (w_kv w') (w_last w');
  eff2_frame k : ¬ owned a k → ¬ owned b k → w_kv w' !! k = w_kv w !! k
}.

(** The outcome of COPY: the value found at the source, the one the destination
    already has, and the answer. *)
Definition copy_answer (v d : option value) (replace : bool) : bool :=
  match v, d with
  | None, _ => false
  | Some _, Some _ => replace
  | Some _, None => true
  end.

Lemma gone_rows c now w w' cf a u :
  gone c now w w' → cf ≠ Metadata → rows_at cf a u (w_kv w') = rows_at cf a u (w_kv w).
Proof.
  intros [Hr _ _] Hcf. destruct Hr as [->|[->| ->]]; [done..|]. cbn. by apply rows_at_meta_delete.
Qed.

Lemma headroom_eq w w' : w_last w' = w_last w → headroom w → headroom w'.
Proof. unfold headroom. by intros ->. Qed.

Lemma sound_none a m : m !! mkey a = None → sound a m.
Proof. intros E [? H]. by rewrite E in H. Qed.

Lemma wp_copy src dst replace w Q :
  let a := at_key src in
  let b := at_key dst in
  let t0 := w_clock w 0%nat in
  let t1 := w_clock w 1%nat in
  let v := value_at a t0 (w_kv w) in
  let d := value_at b t1 (w_kv w) in
  addr_wf a → addr_wf b → env_ok w → headroom w → sound a (w_kv w) → sound b (w_kv w) →
  (∀ w', v = None → gone a t0 w w' → Q false w') →
  (∀ w', is_Some v → copy_answer v d replace = false → w' = tick (tick w) → Q false w') →
  (∀ w', is_Some v → copy_answer v d replace = true → effect b w w' →
     stored b (w_kv w') = v → Q true w') →
  wp (copy ns slot src dst replace) w Q.
Proof.
  intros a b t0 t1 v d Ha Hb Henv Hroom Hsa Hsb HN HF HT. unfold copy.
  apply wp_bind. apply wp_read_live_row; [done| |intros w' Hg; wp_op; apply HN; [apply Hg|done]].
  intros x h row Hrow Hh Hx Hal. fold a in Hrow, Hx. fold t0 in Hal.
  assert (Ev : v = Some x) by (by apply value_at_intro).
  destruct (after_read_effect (mkStore ns 0) slot dst w (tick w)) as (Henv1 & He1 & _);
    [by right; left|done|].
  assert (Hcopy : ∀ w2, effect b w w2 → env_ok w2 → w_last w2 = w_last w →
    (∀ cf u, cf ≠ Metadata → rows_at cf a u (w_kv w2) = rows_at cf a u (w_kv w)) →
    copy_answer v d replace = true → wp (copy_onto ns slot src dst h row) w2 Q).
  { intros w2 He2 Henv2 El Hrows Hans. apply (wp_copy_onto src dst Ha Hb (w_kv w) row h x);
      [done..|by eapply headroom_eq|done|].
    intros w' He Hst. apply HT; [by rewrite Ev|done|by eapply effect_trans|by rewrite Ev]. }
  apply wp_bind. apply wp_key_exists; [done| |].
  - intros Hd. change (is_Some d) in Hd. cbn [w_kv tick] in *. destruct Hd as [y Ed].
    destruct replace; cbn [andb negb].
    + apply wp_bind. wp_op. wp_op. change (ks_meta_key ns slot dst) with (mkey b). apply Hcopy.
      * eapply effect_trans; [exact He1|]. eapply effect_trans; [apply effect_tick, Henv1|].
        apply effect_with_kv; cbn; auto with flint. apply fresh_delete, Henv.
      * constructor; [intros n; apply (env_clocks _ Henv)|]. cbn. apply fresh_delete, Henv.
      * done.
      * intros. cbn. by apply rows_at_meta_delete.
      * by rewrite Ev, Ed.
    + wp_op. apply HF; [by rewrite Ev|by rewrite Ev, Ed|done].
  - intros w2 Hg. cbn [andb]. destruct (gone_effect dst _ _ _ Hg Henv1) as (Henv2 & He2 & El2).
    apply wp_bind. wp_op. apply Hcopy; [by eapply effect_trans|done|done| |].
    + intros cf u Hcf. by rewrite (gone_rows _ _ _ _ _ _ _ Hg).
    + rewrite Ev. pose proof (gone_before _ _ _ _ Hg) as Ed. change (d = None) in Ed. by rewrite Ed.
Qed.

(** The key does not expire while a command reads the clock more than once. *)
Definition settled (a : addr) (w : world kvmap) : Prop :=
  ∀ n, value_at a (w_clock w n) (w_kv w) = value_at a (w_clock w 0%nat) (w_kv w).

(** A later world in which the value of [a] has not moved. *)
Lemma settled_later a w w' n :
  settled a w → (∃ d, ∀ n, w_clock w' n = w_clock w (d + n)%nat) →
  stored a (w_kv w') = stored a (w_kv w) →
  value_at a (w_clock w' n) (w_kv w') = value_at a (w_clock w 0%nat) (w_kv w).
Proof.
  intros Hs [d Hd] E. rewrite <-(Hs (d + n)%nat), Hd. unfold value_at. by rewrite E.
Qed.

Lemma stored_sound a m m' : m' !! mkey a = m !! mkey a → stored a m' = stored a m → sound a m → sound a m'.
Proof. unfold sound. by intros -> ->. Qed.

Lemma wp_del key w Q :
  let a := at_key key in
  let now := w_clock w 0%nat in
  sound a (w_kv w) →
  (∀ v, value_at a now (w_kv w) = Some v →
     Q true (with_kv (tick w) (delete (mkey a) (w_kv w)))) →
  (∀ w', gone a now w w' → Q false w') →
  wp (del ns slot key) w Q.
Proof.
  intros a now Hs HT HF. unfold del. apply wp_bind. apply wp_read_live_row; [done| |].
  - intros v h row _ _ Hv Hal. wp_op. wp_op. change (ks_meta_key ns slot key) with (mkey a).
    apply (HT v). by apply value_at_intro.
  - intros w' Hg. wp_op. by apply HF.
Qed.

Section Rename.
Context (src dst : bytes) (w : world kvmap) (nx : bool).
Abbreviation a := (at_key src).
Abbreviation b := (at_key dst).
Abbreviation v := (value_at a (w_clock w 0%nat) (w_kv w)).
Abbreviation d := (value_at b (w_clock w 0%nat) (w_kv w)).
Context (Ha : addr_wf a) (Hb : addr_wf b) (Henv : env_ok w) (Hroom : headroom w).
Context (Hsa : sound a (w_kv w)) (Hsb : sound b (w_kv w)).
Context (Hla : settled a w) (Hlb : settled b w).

(** The move itself, from a world in which only a dead destination row may have
    been reclaimed. *)
Lemma wp_rename_move w2 (Q : RenameOutcome → world kvmap → Prop) :
  src ≠ dst → is_Some v → effect b w w2 → env_ok w2 → w_last w2 = w_last w → sound b (w_kv w2) →
  (∀ w', effect2 a b w w' → stored b (w_kv w') = v → w_kv w' !! mkey a = None → Q Renamed w') →
  wp (copied <- copy ns slot src dst true ;;
      if negb copied then Ret NoSuchKey else del ns slot src ;;; Ret Renamed) w2 Q.
Proof.
  intros Hne [x Hx] He2 Henv2 El Hsb2 HQ.
  assert (Hab : b ≠ a) by congruence.
  assert (Hsame : ∀ w', effect b w w' → w_kv w' !! mkey a = w_kv w !! mkey a ∧
    stored a (w_kv w') = stored a (w_kv w)).
  { intros w' He. split; [apply He; by apply not_owned_mkey|eapply stored_frame; [done..|apply He]]. }
  assert (Hlive : ∀ w' n, effect b w w' → value_at a (w_clock w' n) (w_kv w') = Some x).
  { intros w' n He. rewrite <-Hx. apply settled_later; [done|apply He|by apply Hsame]. }
  assert (Hsnd : ∀ w', effect b w w' → sound a (w_kv w')).
  { intros w' He. by eapply stored_sound; [apply Hsame..|]. }
  apply wp_bind. apply wp_copy; [done..|by eapply headroom_eq|by apply Hsnd|done| | |].
  - intros w' Hn _. by rewrite (Hlive w2) in Hn.
  - intros w' Hs Hc _. exfalso. rewrite (Hlive w2) in Hc by done. cbn in Hc. by destruct (value_at b _ _).
  - intros w3 _ _ He3 Hst. rewrite (Hlive w2) in Hst by done. cbn [negb].
    assert (He : effect b w w3) by (by eapply effect_trans).
    apply wp_bind. apply wp_del; [by apply Hsnd| |].
    + intros y _. wp_op. apply HQ.
      * destruct He as [[n Hn] Hl Hf Hfr]. constructor; cbn; [|done|by apply fresh_delete|].
        -- exists (S n). intros i. rewrite Hn. f_equal. lia.
        -- intros k Hka Hkb. rewrite lookup_delete_ne; [by apply Hfr|]. intros <-. by apply Hka, owned_mkey.
      * rewrite Hx, <-Hst. eapply (stored_frame a b); [done..|by congruence|]. apply frame_delete, owned_mkey.
      * apply lookup_delete_eq.
    + intros w' Hg. apply gone_before in Hg. by rewrite (Hlive w3) in Hg.
Qed.

Definition rename_spec (r : RenameOutcome) (w' : world kvmap) : Prop :=
  if v then
    if decide (src = dst) then r = (if nx then DestinationExists else Renamed) ∧ w_kv w' = w_kv w
    else if nx && bool_decide (is_Some d) then r = DestinationExists ∧ w_kv w' = w_kv w
    else r = Renamed ∧ effect2 a b w w' ∧ stored b (w_kv w') = v ∧ w_kv w' !! mkey a = None
  else r = NoSuchKey ∧ gone a (w_clock w 0%nat) w w'.

Lemma wp_rename : wp (rename ns slot src dst nx) w rename_spec.
Proof.
  unfold rename, rename_spec. apply wp_bind. apply wp_key_exists; [done| |].
  2:{ intros w' Hg. pose proof (gone_before _ _ _ _ Hg) as E. cbn [negb]. wp_op. rewrite E. done. }
  intros [x Hx]. cbn [negb]. rewrite Hx. destruct (decide (src = dst)) as [|Hne]; [by wp_op|].
  assert (He1 : effect b w (tick w)) by apply effect_tick, Henv.
  pose proof (effect_env _ _ _ He1 Henv) as Henv1.
  destruct nx; cbn [andb].
  - apply wp_bind. apply wp_key_exists; [done| |].
    + intros Hd. wp_op. rewrite bool_decide_eq_true_2; [done|]. rewrite <-(Hlb 1%nat). exact Hd.
    + intros w2 Hg. destruct (gone_effect dst _ _ _ Hg Henv1) as (Henv2 & He2 & El2).
      rewrite bool_decide_eq_false_2.
      2:{ rewrite <-(Hlb 1%nat). pose proof (gone_before _ _ _ _ Hg) as E.
          change (value_at b (w_clock w 1%nat) (w_kv w) = None) in E. rewrite E. by intros [? ?]. }
      apply wp_rename_move; [done|by rewrite Hx|by eapply effect_trans|done|done| |by rewrite Hx].
      destruct (gone_read _ _ _ _ Hg) as [->|[->| ->]]; [done..|].
      apply sound_none. cbn. apply lookup_delete_eq.
  - apply wp_bind. wp_op. apply wp_rename_move; [done|by rewrite Hx|done..|by rewrite Hx].
Qed.
End Rename.

(** ** Expiry *)

Definition with_expire (v : value) (at_ms : Z) : value :=
  mkValue (v_flags v) at_ms (v_rest v) (v_rows v) (v_index v).

Lemma stored_expire a m row v at_ms :
  m !! mkey a = Some row → stored a m = Some v → in_width 64 at_ms →
  ∃ row', write_expire row at_ms = Some row' ∧
    stored a (<[mkey a := row']> m) = Some (with_expire v at_ms).
Proof.
  intros Hrow Hv Hat. assert (Ebe : of_be (be 8 at_ms) = at_ms) by (by apply of_be_id).
  destruct (stored_inv _ _ _ Hv) as [f e rest t Hrow' He Ht Hver Ev|f e s ver tl t Hrow' Hc Ht Hver Ev];
    rewrite Hrow in Hrow'; injection Hrow' as ->.
  - exists (plain_row f (be 8 at_ms) rest). split; [by apply write_expire_row|].
    erewrite stored_plain; [|apply lookup_insert_eq|apply length_be|done..]. by rewrite Ev, Ebe.
  - exists (versioned_row f (be 8 at_ms) s ver tl). split.
    { exact (write_expire_row f e (s ++ ver ++ tl) at_ms (proj1 Hc)). }
    erewrite stored_versioned; [|apply lookup_insert_eq| |done..].
    + unfold index_rows. rewrite !rows_at_meta_insert by done. by rewrite Ev, Ebe.
    + destruct Hc as (_ & ? & ? & ?). unfold columns. by rewrite length_be.
Qed.

Lemma wp_expire_at key at_ms w Q :
  let a := at_key key in
  let t0 := w_clock w 0%nat in
  let t1 := w_clock w 1%nat in
  env_ok w → sound a (w_kv w) → in_width 64 at_ms →
  (∀ v w', value_at a t0 (w_kv w) = Some v → effect a w w' →
     stored a (w_kv w') = (if at_ms <=? t1 then None else Some (with_expire v at_ms)) → Q true w') →
  (∀ w', gone a t0 w w' → Q false w') →
  wp (expire_at ns slot key at_ms) w Q.
Proof.
  intros a t0 t1 [_ Hf] Hs Hat HT HF. unfold expire_at. apply wp_bind. apply wp_read_live_row; [done| |].
  2:{ intros w' Hg. wp_op. by apply HF. }
  intros v h row Hrow Hh Hv Hal. wp_op. change (ks_meta_key ns slot key) with (mkey a). fold t1.
  assert (Hva : value_at a t0 (w_kv w) = Some v) by (by apply value_at_intro).
  assert (He : ∀ m, fresh m (w_last w) → frame a (w_kv w) m → effect a w (with_kv (tick (tick w)) m)).
  { intros. constructor; cbn; [by exists 2%nat|lia|done..]. }
  destruct (at_ms <=? t1).
  - wp_op. wp_op. apply (HT v); [done|apply He; auto with flint|]. apply stored_none. cbn. apply lookup_delete_eq.
  - destruct (stored_expire _ _ _ _ at_ms Hrow Hv Hat) as (row' & Hw & Hst).
    eapply wp_unwrap; [done|]. wp_op. wp_op. apply (HT v); [done|apply He; auto with flint|done].
Qed.

Lemma wp_persist key w Q :
  let a := at_key key in
  let t0 := w_clock w 0%nat in
  env_ok w → sound a (w_kv w) →
  (∀ v w', value_at a t0 (w_kv w) = Some v → effect a w w' →
     stored a (w_kv w') = Some (with_expire v 0) → Q (negb (v_expire v =? 0)) w') →
  (∀ w', gone a t0 w w' → Q false w') →
  wp (persist ns slot key) w Q.
Proof.
  intros a t0 [_ Hf] Hs HT HF. unfold persist. apply wp_bind. apply wp_read_live_row; [done| |].
  2:{ intros w' Hg. wp_op. by apply HF. }
  intros v h row Hrow Hh Hv Hal. change (ks_meta_key ns slot key) with (mkey a).
  assert (Hva : value_at a t0 (w_kv w) = Some v) by (by apply value_at_intro).
  destruct (stored_header _ _ _ _ _ Hrow Hh Hv) as [_ He]. rewrite <-He.
  destruct (Z.eqb_spec (v_expire v) 0) as [E|E].
  - wp_op. specialize (HT v (tick w) Hva). rewrite E in HT. apply HT; [by apply effect_tick|].
    unfold with_expire. rewrite <-E. by destruct v.
  - destruct (stored_expire _ _ _ _ 0 Hrow Hv) as (row' & Hw & Hst); [width|].
    eapply wp_unwrap; [done|]. wp_op. wp_op.
    specialize (HT v (with_kv (tick w) (<[mkey a := row']> (w_kv w))) Hva).
    rewrite (proj2 (Z.eqb_neq _ _) E) in HT. apply HT; [|done].
    constructor; cbn; auto with flint; [by exists 1%nat|lia].
Qed.

Lemma wp_ttl key w Q :
  let a := at_key key in
  let t0 := w_clock w 0%nat in
  let t1 := w_clock w 1%nat in
  sound a (w_kv w) →
  (∀ v, value_at a t0 (w_kv w) = Some v → v_expire v = 0 → Q NoExpiry (tick w)) →
  (∀ v, value_at a t0 (w_kv w) = Some v → v_expire v ≠ 0 →
     Q (Ms (u64 (v_expire v - t1))) (tick (tick w))) →
  (∀ w', gone a t0 w w' → Q Missing w') →
  wp (ttl ns slot key) w Q.
Proof.
  intros a t0 t1 Hs H0 HMs HF. unfold ttl. apply wp_bind. apply wp_read_live_row; [done| |].
  2:{ intros w' Hg. wp_op. by apply HF. }
  intros v h row Hrow Hh Hv Hal.
  assert (Hva : value_at a t0 (w_kv w) = Some v) by (by apply value_at_intro).
  destruct (stored_header _ _ _ _ _ Hrow Hh Hv) as [_ He]. rewrite <-He.
  destruct (Z.eqb_spec (v_expire v) 0) as [E|E]; [wp_op; eauto|]. wp_op. wp_op. eauto.
Qed.

Lemma wp_key_query {A} (g : option (MetaHeader * bytes) → A) key w Q :
  let a := at_key key in
  let t0 := w_clock w 0%nat in
  sound a (w_kv w) →
  (∀ v h row, w_kv w !! mkey a = Some row → MetaHeader_decode row = Some h →
     value_at a t0 (w_kv w) = Some v → Q (g (Some (h, row))) (tick w)) →
  (∀ w', gone a t0 w w' → Q (g None) w') →
  wp (o <- read_live_row ns slot key ;; Ret (g o)) w Q.
Proof.
  intros a t0 Hs HS HN. apply wp_bind. apply wp_read_live_row; [done| |].
  - intros v h row Hrow Hh Hv Hal. wp_op. eapply HS; [done..|]. by apply value_at_intro.
  - intros w' Hg. wp_op. by apply HN.
Qed.
End Specs.

Lemma stored_expire_width a m v : stored a m = Some v → in_width 64 (v_expire v).
Proof.
  intros [f e rest t _ He _ _ ->|f e s ver tl t _ (He & _) _ _ ->]%stored_inv; cbn;
    pose proof (of_be_range e) as R; by rewrite He in R.
Qed.

Lemma repr_value_at t wgt a now m F :
  repr t wgt a now m (Some F) → versioned t = true → is_Some (value_at a now m).
Proof.
  intros HF Ht. destruct (repr_stored _ _ _ _ _ _ HF Ht) as [v Hv]. exists v.
  destruct HF as (_ & meta & (row & Hrow & (h & Hh & Hex & _) & _) & _).
  apply value_at_intro; [done|]. unfold alive.
  destruct (stored_header _ _ _ _ _ Hrow Hh Hv) as [_ ->]. unfold MetaHeader_is_expired in Hex. by rewrite Hex.
Qed.

(** ** Properties *)

(** C10. COPY answers whether the source is there and the destination free or to
    be replaced. When it copies, the destination stores the source's value,
    expiry included, under rows of its own, and so holds the same collection to
    every typed store; no row of another key changes, and copying a key onto
    itself keeps its value. When it does not, nothing changes but an expired
    row it may have reclaimed. *)
Theorem copy_refines ns slot src dst replace w :
  let a := mkAddr ns slot src in
  let b := mkAddr ns slot dst in
  let v := value_at a (w_clock w 0%nat) (w_kv w) in
  let d := value_at b (w_clock w 1%nat) (w_kv w) in
  addr_wf a → addr_wf b → env_ok w → headroom w → sound a (w_kv w) → sound b (w_kv w) →
  wp (copy ns slot src dst replace) w (λ r w',
    r = copy_answer v d replace ∧
    if r then
      effect b w w' ∧ stored b (w_kv w') = v ∧
      ∀ t wgt now F, versioned t = true → repr t wgt a now (w_kv w) (Some F) →
        repr t wgt b now (w_kv w') (Some F)
    else (v = None ∧ gone a (w_clock w 0%nat) w w') ∨ (is_Some v ∧ w_kv w' = w_kv w)).
Proof.
  intros a b v d Ha Hb Henv Hroom Hsa Hsb. apply wp_copy; [done..| | |].
  - intros w' Hn Hg. change (v = None) in Hn. rewrite Hn. split; [by destruct d|]. by left.
  - intros w' Hs Hc ->. split; [done|]. by right.
  - intros w' [x Hx] Hc He Hst. split; [done|]. split; [done|]. split; [done|].
    intros t wgt now F Ht HF. eapply repr_of_stored; [done..|].
    etransitivity; [exact Hst|]. etransitivity; [exact Hx|]. symmetry.
    exact (proj1 (value_at_stored _ _ _ _ Hx)).
Qed.

Lemma copy_refines_witness :
  let w := demo_world (demo_map THash (bstr "v") 2) in
  wp (copy (bstr "t") 7 (bstr "k") (bstr "j") false) w (λ r w',
    r = true ∧ repr THash field_weight (mkAddr (bstr "t") 7 (bstr "j")) 5 (w_kv w')
                 (Some {[bstr "f" := bstr "v"]})).
Proof.
  intros w. eapply wp_conseq.
  - apply (copy_refines (bstr "t") 7 (bstr "k") (bstr "j") false w demo_addr_wf);
      [repeat split; vm_compute; congruence|exact (demo_env _ _ _)|exact (demo_headroom _)| |].
    + intros _. vm_compute. eauto.
    + intros [x Hx]. vm_compute in Hx. discriminate.
  - intros r w' [-> H]. assert (E : copy_answer (value_at demo_addr 5 (w_kv w))
      (value_at (mkAddr (bstr "t") 7 (bstr "j")) 5 (w_kv w)) false = true) by (vm_compute; reflexivity).
    cbn [w w_clock demo_world] in H. fold demo_addr in *. rewrite E in *.
    split; [reflexivity|]. apply H; [reflexivity|]. apply demo_repr; [vm_compute; reflexivity|width].
Defined.

(** RENAME moves the source's value: the destination stores it, the source
    is gone, and no row of a third key changes. RENAMENX onto a key that is
    there moves nothing, renaming a key onto itself does nothing, and an absent
    source is reported. The keys do not expire while the command runs. *)
Theorem rename_refines ns slot src dst nx w :
  let a := mkAddr ns slot src in
  let b := mkAddr ns slot dst in
  addr_wf a → addr_wf b → env_ok w → headroom w → sound a (w_kv w) → sound b (w_kv w) →
  settled a w → settled b w →
  wp (rename ns slot src dst nx) w (rename_spec ns slot src dst w nx).
Proof. intros. by apply wp_rename. Qed.

Lemma rename_refines_witness :
  let w := demo_world (demo_map THash (bstr "v") 2) in
  wp (rename (bstr "t") 7 (bstr "k") (bstr "j") true) w
    (rename_spec (bstr "t") 7 (bstr "k") (bstr "j") w true).
Proof.
  intros w.
  apply (rename_refines (bstr "t") 7 (bstr "k") (bstr "j") true w demo_addr_wf);
    [repeat split; vm_compute; congruence|exact (demo_env _ _ _)|exact (demo_headroom _)| | | |].
  - intros _. vm_compute. eauto.
  - intros [x Hx]. vm_compute in Hx. discriminate.
  - intros n. reflexivity.
  - intros n. reflexivity.
Defined.

(** EXPIREAT on a key that is there sets its expiry and changes nothing else
    of its value, or deletes it when the instant has passed; PERSIST clears the
    expiry and answers whether there was one. A key that is not there is left
    so. *)
Theorem expiry_refines ns slot key at_ms w :
  let a := mkAddr ns slot key in
  let found := value_at a (w_clock w 0%nat) (w_kv w) in
  let left_as w' x := effect a w w' ∧ stored a (w_kv w') = x in
  env_ok w → sound a (w_kv w) → in_width 64 at_ms →
  wp (expire_at ns slot key at_ms) w (λ r w',
    match found with
    | Some v => r = true ∧
        left_as w' (if at_ms <=? w_clock w 1%nat then None else Some (with_expire v at_ms))
    | None => r = false ∧ gone a (w_clock w 0%nat) w w'
    end) ∧
  wp (persist ns slot key) w (λ r w',
    match found with
    | Some v => r = negb (v_expire v =? 0) ∧ left_as w' (Some (with_expire v 0))
    | None => r = false ∧ gone a (w_clock w 0%nat) w w'
    end).
Proof.
  intros a found left_as Henv Hs Hat. unfold found, left_as. split.
  - apply wp_expire_at; [done..| |]; fold a.
    + intros v w' -> He Hst. by split_and!.
    + intros w' Hg. by rewrite (gone_before _ _ _ _ Hg).
  - apply wp_persist; [done..| |]; fold a.
    + intros v w' -> He Hst. by split_and!.
    + intros w' Hg. by rewrite (gone_before _ _ _ _ Hg).
Qed.

Lemma expiry_refines_witness :
  let w := demo_world (demo_map THash (bstr "v") 2) in
  wp (expire_at (bstr "t") 7 (bstr "k") 9) w (λ r w', r = true ∧
    (∀ v, stored demo_addr (w_kv w') = Some v → v_expire v = 9)).
Proof.
  intros w. eapply wp_conseq.
  - apply (expiry_refines (bstr "t") 7 (bstr "k") 9 w (demo_env _ _ _)); [|width].
    intros _. vm_compute. eauto.
  - intros r w' H.
    destruct (value_at (mkAddr (bstr "t") 7 (bstr "k")) (w_clock w 0%nat) (w_kv w)) eqn:E;
      [|vm_compute in E; discriminate].
    destruct H as [-> [_ Hst]]. split; [reflexivity|]. intros x Hx. fold demo_addr in Hst.
    rewrite Hst in Hx. change (Some (with_expire v 9) = Some x) in Hx. by injection Hx as <-.
Defined.

(** C38. TTL reads the clock twice. While the second reading has not passed the
    expiry it answers the time left; when the key expires between the two, the
    subtraction wraps and it answers about 2^64 milliseconds. *)
Theorem ttl_wraps_across_the_expiry ns slot key w :
  let a := mkAddr ns slot key in
  let t1 := w_clock w 1%nat in
  clocks_ok w → sound a (w_kv w) →
  wp (ttl ns slot key) w (λ r w',
    match value_at a (w_clock w 0%nat) (w_kv w) with
    | Some v => w_kv w' = w_kv w ∧
        r = if v_expire v =? 0 then NoExpiry
            else if t1 <=? v_expire v then Ms (v_expire v - t1)
            else Ms (2 ^ 64 - (t1 - v_expire v))
    | None => r = Missing ∧ gone a (w_clock w 0%nat) w w'
    end).
Proof.
  intros a t1 Hclk Hs. apply wp_ttl; [done|..]; fold a.
  - intros v -> Hz. by rewrite Hz.
  - intros v Hv Hz. rewrite Hv. split; [done|]. rewrite (proj2 (Z.eqb_neq _ _) Hz).
    pose proof (clock_ok_64 w 1%nat Hclk) as Ht1.
    pose proof (stored_expire_width _ _ _ (proj1 (value_at_stored _ _ _ _ Hv))) as Hw.
    fold t1 in Ht1. unfold in_width in *. destruct (Z.leb_spec t1 (v_expire v)).
    + rewrite wrap_id; [done|unfold in_width; lia].
    + f_equal. unfold wrap. symmetry. apply Z.mod_unique with (-1); lia.
  - intros w' Hg. by rewrite (gone_before _ _ _ _ Hg).
Qed.

Definition demo_expiring : world kvmap :=
  World (<[mkey demo_addr := StringMeta_encode (StringMeta_new (bstr "v") 10 5)]> ∅)
    (λ n, if decide (n = 0%nat) then 5 else 12) 9 (λ _, 0).

Lemma ttl_wraps_across_the_expiry_witness :
  wp (ttl (bstr "t") 7 (bstr "k")) demo_expiring (λ r _, r = Ms (2 ^ 64 - 2)).
Proof.
  eapply wp_conseq.
  - apply (ttl_wraps_across_the_expiry (bstr "t") 7 (bstr "k") demo_expiring).
    + intros n. cbn. case_decide; split; lia.
    + intros _. vm_compute. eauto.
  - intros r w' H.
    assert (E : value_at (mkAddr (bstr "t") 7 (bstr "k")) (w_clock demo_expiring 0%nat) (w_kv demo_expiring) =
      Some (mkValue 16 10 (be 8 5 ++ bstr "v") ∅ ∅)) by (vm_compute; reflexivity).
    rewrite E in H. exact (proj2 H).
Defined.

(** EXISTS and TYPE answer from what the key holds at the clock's reading,
    DEL removes exactly a key that is there, in one row deletion, EXPIRETIME
    answers the expiry, and the statistics of a collection are the bytes it is
    charged. *)
Theorem key_queries_answer ns slot key w :
  let a := mkAddr ns slot key in
  let now := w_clock w 0%nat in
  let found := value_at a now (w_kv w) in
  let answers A (p : prog A) (x : A) :=
    wp p w (λ r w', r = x ∧ (gone a now w w' ∨ is_Some found ∧ w_kv w' = w_kv w)) in
  sound a (w_kv w) →
  answers _ (key_exists ns slot key) (bool_decide (is_Some found)) ∧
  answers _ (key_type ns slot key) (v ← found; from_flags (v_flags v)) ∧
  answers _ (expire_time_ms ns slot key) (v_expire <$> found) ∧
  wp (del ns slot key) w (λ r w', r = bool_decide (is_Some found) ∧
    (gone a now w w' ∨ is_Some found ∧ w_kv w' = delete (mkey a) (w_kv w))) ∧
  (∀ t wgt F, versioned t = true → repr t wgt a now (w_kv w) (Some F) →
    wp (key_stat ns slot key) w (λ r _, size_bytes <$> r = Some (weight wgt F))).
Proof.
  intros a now found answers Hs. unfold answers, found, now.
  split_and!; [| | | |intros t wgt F Ht HF].
  - apply wp_key_exists; [done|..]; fold a.
    + intros Hf. rewrite bool_decide_eq_true_2 by done. auto.
    + intros w' Hg. rewrite (gone_before _ _ _ _ Hg). auto.
  - apply wp_key_query; [done|..]; fold a.
    + intros v h row Hrow Hh Hv. rewrite Hv. cbn.
      destruct (stored_header _ _ _ _ _ Hrow Hh (proj1 (value_at_stored _ _ _ _ Hv))) as [-> _]. eauto.
    + intros w' Hg. rewrite (gone_before _ _ _ _ Hg). auto.
  - apply wp_key_query; [done|..]; fold a.
    + intros v h row Hrow Hh Hv. rewrite Hv. cbn.
      destruct (stored_header _ _ _ _ _ Hrow Hh (proj1 (value_at_stored _ _ _ _ Hv))) as [_ ->]. eauto.
    + intros w' Hg. rewrite (gone_before _ _ _ _ Hg). auto.
  - apply wp_del; [done|..]; fold a.
    + intros v Hv. rewrite Hv. rewrite bool_decide_eq_true_2 by eauto. eauto.
    + intros w' Hg. rewrite (gone_before _ _ _ _ Hg). auto.
  - pose proof (repr_value_at _ _ _ _ _ _ HF Ht) as [x Hx].
    destruct HF as (_ & meta & (row & Hrow & (h & Hh & _ & Hty) & Hd) & _ & _ & Hby).
    apply wp_key_query; [done|..]; fold a.
    + intros v h' row' Hrow' Hh' Hv. fold a in Hrow.
      assert (row' = row) by congruence. subst row'. assert (h' = h) by congruence. subst h'.
      cbn [mbind option_bind]. rewrite Hty. cbn [mbind option_bind]. rewrite Ht, Hd. cbn. by rewrite Hby.
    + intros w' Hg. apply gone_before in Hg. fold a in Hx. congruence.
Qed.

Lemma key_queries_answer_witness :
  let w := demo_world (demo_map THash (bstr "v") 2) in
  wp (key_stat (bstr "t") 7 (bstr "k")) w (λ r _, size_bytes <$> r = Some 2).
Proof.
  intros w. refine (proj2 (proj2 (proj2 (proj2 (key_queries_answer (bstr "t") 7 (bstr "k") w _))))
    THash field_weight {[bstr "f" := bstr "v"]} eq_refl _).
  - intros _. vm_compute. eauto.
  - apply demo_repr; [vm_compute; reflexivity|width].
Defined.
