(* ===== verification/Gc.v ===== *)
(** * Garbage collection

    [crates/flint-storage/src/gc.rs]: the sweeper that drops expired metadata
    rows and the element rows no live metadata row claims. The per-key lock is
    a program the caller supplies; whatever it does, the sweep deletes only
    rows that are garbage when they are deleted, and deleting garbage changes
    no value a client can still read. With nobody else writing, exactly the
    garbage goes. *)

From stdpp Require Import base list gmap strings sorting.
From Stdlib Require Import ZArith Lia.
From Stdlib Require Strings.Byte.
From S2P Require Import Prelude Encoding Kv Store Hashes Keyspace.

(** ** The sweep *)

Record SweepReport := mkSweepReport { expired_meta : Z; orphan_rows : Z }.

(** The metadata envelope's (ns, user_key). *)
Definition parse_meta_envelope (k : bytes) : option (bytes * bytes) :=
  if decide (head k = Some (cf_byte Metadata)) then
    nl ← k !! 1%nat;
    let ns_len := Z.to_nat (b2z nl) in
    ns ← get_sub k 2 ns_len;
    user_key ← get_from k (2 + ns_len + 2);
    Some (ns, user_key)
  else None.

Definition unguarded (_ _ : bytes) : prog unit := Ret tt.

(** [MetaHeader::decode(row).is_some_and(|h| h.is_expired(now_ms))]. *)
Definition expired_row (now_ms : Z) (row : bytes) : bool :=
  match MetaHeader_decode row with
  | Some h => MetaHeader_is_expired h now_ms
  | None => false
  end.

(** The version a key's metadata row claims, while it is live. *)
Definition live_version (now_ms : Z) (o : option bytes) : option Z :=
  row ← o;
  header ← MetaHeader_decode row;
  if MetaHeader_is_expired header now_ms then None
  else c_version <$> ComplexMeta_decode row.

Section Sweep.
Context (now_ms : Z) (lock_key : bytes → bytes → prog unit).

(** The visitor of the first pass, on one row. *)
Definition sweep_meta (n : Z) (r : bytes * bytes) : prog Z :=
  let '(k, row) := r in
  if expired_row now_ms row then
    match parse_meta_envelope k with
    | None => Ret n
    | Some (ns, user_key) =>
        lock_key ns user_key ;;;
        o <- kvget k ;;
        if match o with Some row' => expired_row now_ms row' | None => false end then
          deleted <- kvdelete k ;;
          Ret (if (deleted : bool) then u64 (n + 1) else n)
        else Ret n
    end
  else Ret n.

Definition judge (ns : bytes) (slot : Z) (user_key : bytes) (version : Z) : prog bool :=
  o <- kvget (envelope Metadata ns slot user_key) ;;
  Ret (negb (bool_decide (live_version now_ms o = Some version))).

(** The visitor of the second pass. *)
Definition sweep_element (n : Z) (r : bytes * bytes) : prog Z :=
  let k := r.1 in
  match parse_subkey_envelope k with
  | None => Ret n
  | Some (ns, slot, user_key, version) =>
      condemned <- judge ns slot user_key version ;;
      if (condemned : bool) then
        lock_key ns user_key ;;;
        still <- judge ns slot user_key version ;;
        if (still : bool) then
          deleted <- kvdelete k ;;
          Ret (if (deleted : bool) then u64 (n + 1) else n)
        else Ret n
      else Ret n
  end.

Definition sweep : prog SweepReport :=
  metas <- for_each_prefix [cf_byte Metadata] ;;
  expired <- fold_ metas sweep_meta 0 ;;
  subkeys <- for_each_prefix [cf_byte Subkey] ;;
  orphans <- fold_ subkeys sweep_element 0 ;;
  scores <- for_each_prefix [cf_byte ZScore] ;;
  orphans' <- fold_ scores sweep_element orphans ;;
  Ret (mkSweepReport expired orphans').
End Sweep.

(** ** Garbage *)

Definition dead_meta (now : Z) (m : kvmap) (k : bytes) : bool :=
  bool_decide (is_Some (parse_meta_envelope k)) &&
  match m !! k with Some row => expired_row now row | None => false end.

Definition orphan (now : Z) (m : kvmap) (k : bytes) : bool :=
  match parse_subkey_envelope k with
  | None => false
  | Some (ns, slot, user_key, version) =>
      negb (bool_decide (live_version now (m !! envelope Metadata ns slot user_key) = Some version))
  end.

Definition garbage (now : Z) (m : kvmap) (k : bytes) : bool := dead_meta now m k || orphan now m k.

Lemma wp_judge {B} now ns slot user_key version (c : bool → prog B) w Q :
  wp (c (negb (bool_decide (live_version now (w_kv w !! envelope Metadata ns slot user_key) = Some version)))) w Q →
  wp (bind (judge now ns slot user_key version) c) w Q.
Proof. done. Qed.

(** What a sweep that shares the store does: the caller's lock runs, and a row
    that is garbage at that moment is deleted. *)
Inductive swept (now : Z) (lock_key : bytes → bytes → prog unit)
    : world kvmap → world kvmap → Prop :=
| swept_done w : swept now lock_key w w
| swept_lock w w1 w2 ns user_key :
    run (lock_key ns user_key) w = Some (tt, w1) →
    swept now lock_key w1 w2 → swept now lock_key w w2
| swept_delete w w2 k :
    garbage now (w_kv w) k = true →
    swept now lock_key (with_kv w (delete k (w_kv w))) w2 → swept now lock_key w w2.

Section Shared.
Context (now : Z) (lock_key : bytes → bytes → prog unit).
Context (Hlock : ∀ ns user_key w, wp (lock_key ns user_key) w (λ _ _, True)).

Lemma swept_trans w w1 w2 : swept now lock_key w w1 → swept now lock_key w1 w2 → swept now lock_key w w2.
Proof. induction 1; eauto using swept. Qed.

Lemma wp_lock {B} ns user_key (c : unit → prog B) w Q :
  (∀ w', swept now lock_key w w' → wp (c tt) w' Q) → wp (bind (lock_key ns user_key) c) w Q.
Proof.
  intros HQ. apply wp_bind. destruct (Hlock ns user_key w) as ([] & w' & Hr & _).
  exists tt, w'. split; [done|]. apply HQ. eapply swept_lock; [done|]. constructor.
Qed.

Lemma wp_sweep_meta n r w :
  wp (sweep_meta now lock_key n r) w (λ _ w', swept now lock_key w w').
Proof.
  destruct r as [k row]. cbn [sweep_meta]. destruct (expired_row now row); [|wp_op; constructor].
  destruct (parse_meta_envelope k) as [[ns user_key]|] eqn:Ep; [|wp_op; constructor].
  apply wp_lock. intros w1 Hs. wp_op. destruct (w_kv w1 !! k) as [row'|] eqn:Ek; [|wp_op; done].
  destruct (expired_row now row') eqn:Ex; [|wp_op; done].
  wp_op. wp_op. eapply swept_trans; [done|]. eapply swept_delete; [|constructor].
  unfold garbage, dead_meta. rewrite Ep, Ek, Ex, bool_decide_eq_true_2 by eauto. done.
Qed.

Lemma wp_sweep_element n r w :
  wp (sweep_element now lock_key n r) w (λ _ w', swept now lock_key w w').
Proof.
  destruct r as [k row]. unfold sweep_element. cbn [fst].
  destruct (parse_subkey_envelope k) as [[[[ns slot] user_key] version]|] eqn:Ep; [|wp_op; constructor].
  apply wp_judge. destruct (negb _); [|wp_op; constructor].
  apply wp_lock. intros w1 Hs. apply wp_judge.
  destruct (negb _) eqn:Ej; [|wp_op; done].
  wp_op. wp_op. eapply swept_trans; [done|]. eapply swept_delete; [|constructor].
  unfold garbage, orphan. rewrite Ep, Ej. apply orb_true_r.
Qed.

Lemma wp_fold_swept {A B} (l : list A) (body : B → A → prog B) b w :
  (∀ b x w, wp (body b x) w (λ _ w', swept now lock_key w w')) →
  wp (fold_ l body b) w (λ _ w', swept now lock_key w w').
Proof.
  intros Hbody. apply (wp_fold (λ _ _ w', swept now lock_key w w')); [constructor| |done].
  intros x l' b' w1 Hs. eapply wp_conseq; [apply Hbody|]. cbn. eauto using swept_trans.
Qed.

Lemma wp_sweep_shared w : wp (sweep now lock_key) w (λ _ w', swept now lock_key w w').
Proof.
  unfold sweep. wp_op. apply wp_bind. eapply wp_conseq; [apply wp_fold_swept, wp_sweep_meta|].
  cbn beta. intros e w1 H1. wp_op. apply wp_bind. eapply wp_conseq; [apply wp_fold_swept, wp_sweep_element|].
  cbn beta. intros o w2 H2. wp_op. apply wp_bind. eapply wp_conseq; [apply wp_fold_swept, wp_sweep_element|].
  cbn beta. intros o' w3 H3. wp_op. eauto using swept_trans.
Qed.
End Shared.

(** ** Garbage holds no value *)

Lemma parse_meta_tag k p : parse_meta_envelope k = Some p → head k = Some (cf_byte Metadata).
Proof. unfold parse_meta_envelope. by case_decide. Qed.

Lemma parse_subkey_tag k p :
  parse_subkey_envelope k = Some p → head k = Some (cf_byte Subkey) ∨ head k = Some (cf_byte ZScore).
Proof.
  unfold parse_subkey_envelope. destruct k as [|x [|y k]]; try done. cbn [head].
  destruct (_ || _) eqn:E; [|done]. intros _.
  apply orb_true_iff in E as [E|E]; apply Byte.byte_dec_bl in E as ->; auto.
Qed.

Lemma head_rprefix cf a v f : head (rprefix cf a v ++ f) = Some (cf_byte cf).
Proof. done. Qed.

Lemma head_mkey a : head (mkey a) = Some (cf_byte Metadata).
Proof. done. Qed.

Lemma head_envelope ns slot key : head (envelope Metadata ns slot key) = Some (cf_byte Metadata).
Proof. done. Qed.

Lemma parse_row cf a v f :
  cf ≠ Metadata → addr_wf a → in_width 64 v →
  parse_subkey_envelope (rprefix cf a v ++ f) = Some (a_ns a, a_slot a, a_key a, v).
Proof. intros. by apply parse_framed_prefix. Qed.

Lemma live_version_alive now now' a m row meta v :
  now <= now' → m !! mkey a = Some row → ComplexMeta_decode row = Some meta →
  stored a m = Some v → alive now' v = true → live_version now (m !! mkey a) = Some (c_version meta).
Proof.
  intros Hle Hrow Hm Hv Hal. rewrite Hrow. unfold live_version. cbn [mbind option_bind].
  assert (∃ h, MetaHeader_decode row = Some h) as [h Hh].
  { unfold ComplexMeta_decode in Hm. destruct (MetaHeader_decode row); [eauto|done]. }
  rewrite Hh. cbn [mbind option_bind]. apply (alive_later now) in Hal; [|done].
  destruct (stored_header _ _ _ _ _ Hrow Hh Hv) as [_ He].
  unfold alive in Hal. rewrite He in Hal. unfold MetaHeader_is_expired.
  destruct (expired_at _ _); [done|]. by rewrite Hm.
Qed.

(** A value depends on its rows only while it is alive. *)
Lemma value_at_ext a now m m' :
  m' !! mkey a = m !! mkey a →
  (∀ v row meta cf, stored a m = Some v → alive now v = true → m !! mkey a = Some row →
     ComplexMeta_decode row = Some meta → cf ≠ Metadata →
     rows_at cf a (c_version meta) m' = rows_at cf a (c_version meta) m) →
  value_at a now m' = value_at a now m.
Proof.
  intros E Hr. assert (Ex : v_expire <$> stored a m' = v_expire <$> stored a m).
  { unfold stored. rewrite E. destruct (m !! mkey a) as [row|]; [|done]. cbn [mbind option_bind].
    destruct (MetaHeader_decode row); [|done]. cbn [mbind option_bind].
    destruct (value_type _) as [t|]; [|done]. cbn [mbind option_bind]. destruct (versioned t); [|done].
    by destruct (ComplexMeta_decode row). }
  unfold value_at. destruct (stored a m) as [v|] eqn:Hv.
  2:{ by destruct (stored a m'). }
  destruct (alive now v) eqn:Hal.
  - rewrite (stored_rows_ext a m m'), Hv; [done..|]. intros. by eapply Hr.
  - destruct (stored a m') as [v'|]; cbn in *; [|done]. injection Ex as Ex. unfold alive in *. rewrite Ex, Hal. done.
Qed.

Lemma delete_dead_meta now now' m k a :
  now <= now' → dead_meta now m k = true → value_at a now' (delete k m) = value_at a now' m.
Proof.
  intros Hle [[p Hp]%bool_decide_eq_true Hex]%andb_true_iff. apply parse_meta_tag in Hp.
  destruct (decide (k = mkey a)) as [->|Hne].
  - unfold value_at. rewrite (stored_none a (delete _ _)) by apply lookup_delete_eq.
    destruct (stored a m) as [v|] eqn:Hv; [|done]. cbn.
    destruct (m !! mkey a) as [row|] eqn:Hrow; [|done]. unfold expired_row in Hex.
    destruct (MetaHeader_decode row) as [h|] eqn:Hh; [|done].
    destruct (stored_header _ _ _ _ _ Hrow Hh Hv) as [_ He].
    destruct (alive now' v) eqn:Hal; [|done]. apply (alive_later now) in Hal; [|done].
    unfold alive in Hal. rewrite He in Hal. unfold MetaHeader_is_expired in Hex. by rewrite Hex in Hal.
  - apply value_at_ext; [by apply lookup_delete_ne|]. intros v row meta cf _ _ _ _ Hcf.
    apply rows_at_ext. intros f. apply lookup_delete_ne. intros ->.
    rewrite head_rprefix in Hp. by destruct cf.
Qed.

Lemma delete_orphan now now' m k a :
  addr_wf a → now <= now' → orphan now m k = true → value_at a now' (delete k m) = value_at a now' m.
Proof.
  intros Ha Hle Hg. unfold orphan in Hg.
  destruct (parse_subkey_envelope k) as [[[[ns slot] key] v]|] eqn:Hp; [|done].
  apply negb_true_iff, bool_decide_eq_false in Hg. apply value_at_ext.
  - apply lookup_delete_ne. intros ->. by destruct (parse_subkey_tag _ _ Hp).
  - intros x row meta cf Hx Hal Hrow Hm Hcf. apply rows_at_ext. intros f. apply lookup_delete_ne.
    intros ->. rewrite parse_row in Hp by (done || by eapply decode_version_width).
    injection Hp as <- <- <- <-. apply Hg. by eapply live_version_alive.
Qed.

(** Deleting garbage changes no value that can be read from then on. *)
Lemma delete_garbage now now' m k a :
  addr_wf a → now <= now' → garbage now m k = true → value_at a now' (delete k m) = value_at a now' m.
Proof. intros Ha Hle [Hg|Hg]%orb_true_iff; eauto using delete_dead_meta, delete_orphan. Qed.

(** ** Sweeping alone *)

(** The store without the rows of [keys] that [d] condemns. *)
Definition reaped (d : bytes → bool) (keys : list bytes) (m : kvmap) : kvmap :=
  filter (λ kv : bytes * bytes, ¬ (d kv.1 = true ∧ kv.1 ∈ keys)) m.

Lemma lookup_reaped d keys m k :
  reaped d keys m !! k = if decide (d k = true ∧ k ∈ keys) then None else m !! k.
Proof.
  unfold reaped. rewrite map_lookup_filter. destruct (m !! k) as [x|]; cbn.
  - case_decide; case_guard; done.
  - by case_decide.
Qed.

Lemma reaped_nil d m : reaped d [] m = m.
Proof. apply map_eq. intros k. rewrite lookup_reaped, decide_False; [done|]. intros [_ H]. inversion H. Qed.

Lemma reaped_snoc d keys k m :
  reaped d (keys ++ [k]) m = if d k then delete k (reaped d keys m) else reaped d keys m.
Proof.
  apply map_eq. intros k'. rewrite lookup_reaped. destruct (d k) eqn:E.
  - destruct (decide (k' = k)) as [->|Hne].
    + rewrite lookup_delete_eq, decide_True; [done|]. split; [done|set_solver].
    + rewrite lookup_delete_ne, lookup_reaped by done. repeat case_decide; set_solver.
  - rewrite lookup_reaped. repeat case_decide; try done; exfalso.
    + destruct H as [Hd Hin]. apply H0. split; [done|]. apply elem_of_app in Hin as [?|?]; [done|].
      assert (k' = k) as -> by set_solver. congruence.
    + apply H. split; [tauto|]. set_solver.
Qed.

Section Reap.
Context (d : bytes → bool) (w : world kvmap) (l : list (bytes * bytes)) (body : Z → bytes * bytes → prog Z).
Abbreviation m := (w_kv w).
Context (Hnd : NoDup l.*1) (Hin : ∀ k x, (k, x) ∈ l → m !! k = Some x).
(** On a row of the walk the visitor deletes and counts exactly what [d]
    condemns, whatever condemned rows have gone before. *)
Context (Hbody : ∀ n k x keys, (k, x) ∈ l → k ∉ keys → (∀ k', k' ∈ keys → k' ∈ l.*1) →
  run (body n (k, x)) (with_kv w (reaped d keys m)) =
  Some (if d k then u64 (n + 1) else n,
        with_kv w (if d k then delete k (reaped d keys m) else reaped d keys m))).

Lemma wp_reap n0 Q :
  0 <= n0 → n0 + Z.of_nat (size m) < 2 ^ 64 →
  (∀ m', m' = reaped d l.*1 m → Q (n0 + (Z.of_nat (size m) - Z.of_nat (size m'))) (with_kv w m')) →
  wp (fold_ l body n0) w Q.
Proof.
  intros Hn0 Hbound HQ.
  apply (wp_fold (λ l' n w', ∃ seen, l = seen ++ l' ∧ w' = with_kv w (reaped d seen.*1 m) ∧
    n = n0 + (Z.of_nat (size m) - Z.of_nat (size (reaped d seen.*1 m))))).
  - exists []. split; [done|]. cbn. rewrite reaped_nil. split; [by destruct w|lia].
  - intros [k x] l' n w' (seen & El & -> & ->).
    assert (Hx : (k, x) ∈ l) by (rewrite El; set_solver).
    assert (Hk : k ∉ seen.*1).
    { rewrite El, fmap_app in Hnd. apply NoDup_app in Hnd as (_ & Hdis & _). intros Hk.
      apply (Hdis k Hk). cbn. constructor. }
    assert (Hsub : ∀ k', k' ∈ seen.*1 → k' ∈ l.*1) by (intros k' ?; rewrite El, fmap_app; set_solver).
    eexists _, _. split; [by apply Hbody|]. exists (seen ++ [(k, x)]).
    rewrite fmap_app. cbn [fmap list_fmap fst]. rewrite reaped_snoc. split; [by rewrite <-app_assoc|]. split; [done|].
    destruct (d k) eqn:E; [|done]. pose proof (Hin k x Hx) as Hmx.
    assert (Hr : reaped d seen.*1 m !! k = Some x).
    { rewrite lookup_reaped, decide_False by tauto. done. }
    pose proof (map_size_delete_Some k (reaped d seen.*1 m) ltac:(by rewrite Hr)) as Hs.
    assert (size (reaped d seen.*1 m) ≠ 0)%nat by (intros E0; apply map_size_empty_inv in E0; by rewrite E0 in Hr).
    assert (size (reaped d seen.*1 m) ≤ size m)%nat.
    { rewrite <-!size_dom. apply subseteq_size, dom_filter_subseteq. }
    rewrite Hs, wrap_id; unfold in_width; lia.
  - intros n w' (seen & El & -> & ->). rewrite app_nil_r in El. subst seen. by apply HQ.
Qed.
End Reap.

(** Walking a family visits each of its rows once. *)
Lemma family_rows cf m :
  let l := prefix_rows m [cf_byte cf] in
  NoDup l.*1 ∧ (∀ k x, (k, x) ∈ l → m !! k = Some x) ∧
  (∀ k, is_Some (m !! k) → head k = Some (cf_byte cf) → k ∈ l.*1) ∧
  (∀ k, k ∈ l.*1 → head k = Some (cf_byte cf)).
Proof.
  intros l. assert (Hl : ∀ k x, (k, x) ∈ l ↔ m !! k = Some x ∧ starts_with k [cf_byte cf] = true).
  { intros k x. apply elem_of_prefix_rows. }
  split_and!.
  - unfold l. rewrite prefix_rows_sub_map.
    rewrite <-list_fmap_compose, (list_fmap_ext _ (app [cf_byte cf] ∘ fst)), list_fmap_compose by done.
    apply NoDup_fmap_2, NoDup_rows_of. apply _.
  - intros k x Hk. by destruct (proj1 (Hl k x) Hk).
  - intros k [x Hx] Hh. apply list_elem_of_fmap. exists (k, x). split; [done|]. apply Hl. split; [done|].
    apply starts_with_true. destruct k as [|b k]; [done|]. injection Hh as ->. by exists k.
  - intros k ([k' x] & -> & [_ Hs]%Hl)%list_elem_of_fmap. apply starts_with_true in Hs as [r ->]. done.
Qed.

Section Alone.
Context (now : Z).

Lemma reap_meta w Q :
  Z.of_nat (size (w_kv w)) < 2 ^ 64 →
  (∀ m', m' = filter (λ kv : bytes * bytes, dead_meta now (w_kv w) kv.1 = false) (w_kv w) →
     Q (Z.of_nat (size (w_kv w)) - Z.of_nat (size m')) (with_kv w m')) →
  wp (fold_ (prefix_rows (w_kv w) [cf_byte Metadata]) (sweep_meta now unguarded) 0) w Q.
Proof.
  intros Hb HQ. destruct (family_rows Metadata (w_kv w)) as (Hnd & Hin & Hall & Hhd).
  apply (wp_reap (dead_meta now (w_kv w))); [done..| |done|done|].
  - intros n k x keys Hx Hk Hkeys. cbn [sweep_meta]. pose proof (Hin _ _ Hx) as Hkx.
    assert (Ed : dead_meta now (w_kv w) k =
      bool_decide (is_Some (parse_meta_envelope k)) && expired_row now x).
    { unfold dead_meta. by rewrite Hkx. }
    rewrite Ed. destruct (expired_row now x) eqn:Ex.
    2:{ by rewrite andb_false_r. }
    destruct (parse_meta_envelope k) as [[ns key]|] eqn:Ep.
    2:{ by rewrite bool_decide_eq_false_2 by (by intros [? ?]). }
    rewrite bool_decide_eq_true_2 by eauto. cbn [andb].
    assert (Hl : reaped (dead_meta now (w_kv w)) keys (w_kv w) !! k = Some x).
    { by rewrite lookup_reaped, decide_False by tauto. }
    cbn. rewrite Hl, Ex. cbn. by rewrite Hl.
  - intros m' ->. rewrite Z.add_0_l. apply HQ. apply map_eq. intros k.
    rewrite lookup_reaped, map_lookup_filter. destruct (w_kv w !! k) as [x|] eqn:Ek; [|by case_decide].
    cbn. destruct (dead_meta now (w_kv w) k) eqn:Ed.
    + rewrite decide_True; [by case_guard|]. split; [done|]. apply Hall; [eauto|].
      unfold dead_meta in Ed. apply andb_true_iff in Ed as [[p Hp]%bool_decide_eq_true _].
      by eapply parse_meta_tag.
    + rewrite decide_False by naive_solver. by case_guard.
Qed.

Lemma reap_elements cf n w Q :
  cf ≠ Metadata → 0 <= n → n + Z.of_nat (size (w_kv w)) < 2 ^ 64 →
  (∀ m', m' = filter (λ kv : bytes * bytes,
       ¬ (orphan now (w_kv w) kv.1 = true ∧ head kv.1 = Some (cf_byte cf))) (w_kv w) →
     Q (n + (Z.of_nat (size (w_kv w)) - Z.of_nat (size m'))) (with_kv w m')) →
  wp (fold_ (prefix_rows (w_kv w) [cf_byte cf]) (sweep_element now unguarded) n) w Q.
Proof.
  intros Hcf Hn Hb HQ. destruct (family_rows cf (w_kv w)) as (Hnd & Hin & Hall & Hhd).
  apply (wp_reap (orphan now (w_kv w))); [done..| |done|done|].
  - intros n' k x keys Hx Hk Hkeys. pose proof (Hin _ _ Hx) as Hkx.
    unfold sweep_element. cbn [fst].
    destruct (parse_subkey_envelope k) as [[[[ns slot] key] v]|] eqn:Ep.
    2:{ assert (orphan now (w_kv w) k = false) as -> by (unfold orphan; by rewrite Ep). done. }
    assert (Eo : orphan now (w_kv w) k =
      negb (bool_decide (live_version now (w_kv w !! envelope Metadata ns slot key) = Some v))).
    { unfold orphan. by rewrite Ep. }
    assert (Hm : reaped (orphan now (w_kv w)) keys (w_kv w) !! envelope Metadata ns slot key =
                 w_kv w !! envelope Metadata ns slot key).
    { rewrite lookup_reaped, decide_False; [done|]. intros [_ H%Hkeys%Hhd]. by destruct cf. }
    assert (Hl : reaped (orphan now (w_kv w)) keys (w_kv w) !! k = Some x).
    { by rewrite lookup_reaped, decide_False by tauto. }
    rewrite Eo. unfold judge. set (e := envelope Metadata ns slot key) in *. clearbody e.
    cbn. rewrite Hm. destruct (negb _) eqn:E; [|done]. cbn.
    rewrite Hm.
    unfold live_version in E. rewrite E. cbn. by rewrite Hl.
  - intros m' ->. apply HQ. apply map_eq. intros k. rewrite lookup_reaped, map_lookup_filter.
    destruct (w_kv w !! k) as [x|] eqn:Ek; [|by case_decide]. cbn.
    assert (Hiff : k ∈ (prefix_rows (w_kv w) [cf_byte cf]).*1 ↔ head k = Some (cf_byte cf)).
    { split; [apply Hhd|]. intros. apply Hall; eauto. }
    case_decide as H1; case_guard as H2; rewrite ?Hiff in *; done || tauto.
Qed.
End Alone.

(** Collecting the expired metadata rows first condemns no further element
    row, and spares none. *)
Lemma live_version_stable now m e :
  live_version now (filter (λ kv : bytes * bytes, dead_meta now m kv.1 = false) m !! e) =
  live_version now (m !! e).
Proof.
  rewrite map_lookup_filter. destruct (m !! e) as [row|] eqn:E; [|done]. cbn.
  case_guard as Hd; [done|]. cbn. unfold dead_meta in Hd. rewrite E in Hd. unfold live_version.
  cbn. unfold expired_row in Hd. destruct (MetaHeader_decode row) as [h|]; [|done]. cbn.
  destruct (MetaHeader_is_expired h now); [done|]. by rewrite andb_false_r in Hd.
Qed.

Lemma orphan_ext now m m' k :
  (∀ e, head e = Some (cf_byte Metadata) → live_version now (m' !! e) = live_version now (m !! e)) →
  orphan now m' k = orphan now m k.
Proof.
  intros H. unfold orphan. destruct (parse_subkey_envelope k) as [[[[ns slot] key] v]|]; [|done].
  by rewrite H.
Qed.

Lemma wp_sweep_alone now w Q :
  let m := w_kv w in
  let m1 := filter (λ kv : bytes * bytes, dead_meta now m kv.1 = false) m in
  let m' := filter (λ kv : bytes * bytes, garbage now m kv.1 = false) m in
  Z.of_nat (size m) < 2 ^ 64 →
  Q (mkSweepReport (Z.of_nat (size m) - Z.of_nat (size m1)) (Z.of_nat (size m1) - Z.of_nat (size m')))
    (with_kv w m') →
  wp (sweep now unguarded) w Q.
Proof.
  intros m m1 m' Hb HQ. unfold sweep. wp_op. apply wp_bind. apply reap_meta; [done|].
  intros m1' Em1. fold m m1 in Em1. subst m1'. wp_op.
  assert (Hs1 : (size m1 ≤ size m)%nat).
  { rewrite <-!size_dom. apply subseteq_size, dom_filter_subseteq. }
  apply wp_bind. apply (reap_elements now Subkey 0 (with_kv w m1)); cbn [w_kv with_kv]; [done|done|lia|].
  intros m2 Em2. wp_op.
  assert (Hs2 : (size m2 ≤ size m1)%nat).
  { rewrite Em2, <-!size_dom. apply subseteq_size, dom_filter_subseteq. }
  assert (Ho1 : ∀ k, orphan now m1 k = orphan now m k).
  { intros k. apply orphan_ext. intros e _. apply live_version_stable. }
  assert (Ho2 : ∀ k, orphan now m2 k = orphan now m k).
  { intros k. rewrite <-Ho1. apply orphan_ext. intros e He. f_equal. rewrite Em2, map_lookup_filter.
    destruct (m1 !! e); [|done]. cbn. rewrite option_guard_True; [done|]. rewrite He. by intros [_ ?]. }
  apply wp_bind. apply (reap_elements now ZScore _ (with_kv w m2)); cbn [w_kv with_kv]; [done|lia|lia|].
  intros m3 Em3. wp_op. assert (m3 = m') as ->.
  { apply map_eq. intros k. apply option_eq. intros x. rewrite Em3, map_lookup_filter_Some. cbn [fst].
    rewrite Ho2, Em2, map_lookup_filter_Some. cbn [fst]. rewrite Ho1. unfold m1, m'.
    rewrite !map_lookup_filter_Some. cbn [fst]. unfold garbage. rewrite orb_false_iff.
    assert (Ht : orphan now m k = true → head k = Some (cf_byte Subkey) ∨ head k = Some (cf_byte ZScore)).
    { unfold orphan. destruct (parse_subkey_envelope k) as [p|] eqn:Ep; [|done]. intros _. by eapply parse_subkey_tag. }
    destruct (orphan now m k); naive_solver. }
  replace (0 + _ + _) with (Z.of_nat (size m1) - Z.of_nat (size m')) by lia. exact HQ.
Qed.

Lemma swept_unguarded now w w' a now' :
  swept now unguarded w w' → addr_wf a → now <= now' →
  value_at a now' (w_kv w') = value_at a now' (w_kv w).
Proof.
  intros Hs Ha Hle. induction Hs as [w|w w1 w2 ns key Hr _ IH|w w2 k Hg _ IH]; [done| |].
  - by injection Hr as <-.
  - rewrite IH. cbn. by apply (delete_garbage now).
Qed.

Lemma wp_and {A} (p : prog A) w Q1 Q2 Q :
  wp p w Q1 → wp p w Q2 → (∀ x w', Q1 x w' → Q2 x w' → Q x w') → wp p w Q.
Proof.
  intros (x & w1 & Hr & H1) (y & w2 & Hr' & H2) HQ. rewrite Hr in Hr'. injection Hr' as <- <-.
  exists x, w1. auto.
Qed.

(** ** Properties *)

(** C2. Whatever the caller's lock runs, writers included, the sweep returns
    once the lock does, and between the lock's turns it only ever deletes rows
    that are garbage at the moment they are deleted; and deleting garbage
    changes nothing a client reading from the sweep's instant on can find. *)
Theorem sweep_deletes_only_garbage now lock_key w :
  (∀ ns user_key w, wp (lock_key ns user_key) w (λ _ _, True)) →
  wp (sweep now lock_key) w (λ _ w', swept now lock_key w w') ∧
  (∀ m k a now', garbage now m k = true → addr_wf a → now <= now' →
     value_at a now' (delete k m) = value_at a now' m).
Proof. intros Hl. split; [by apply wp_sweep_shared|]. intros. by eapply delete_garbage. Qed.

Lemma sweep_deletes_only_garbage_witness :
  wp (sweep 12 (λ _ _, kvput (mkey demo_addr) (bstr "x"))) demo_expiring
    (λ _ w', swept 12 (λ _ _, kvput (mkey demo_addr) (bstr "x")) demo_expiring w').
Proof.
  apply (sweep_deletes_only_garbage 12 (λ _ _, kvput (mkey demo_addr) (bstr "x")) demo_expiring).
  intros ns user_key w. eexists _, _. split; [reflexivity|exact I].
Defined.

(** With nobody else writing, one sweep leaves exactly the rows that are no
    garbage, counts the rows it removed in each pass, and every key reads as
    before from the sweep's instant on. *)
Theorem sweep_collects_the_garbage now w :
  let m := w_kv w in
  let kept (d : bytes → bool) := filter (λ kv : bytes * bytes, d kv.1 = false) m in
  Z.of_nat (size m) < 2 ^ 64 →
  wp (sweep now unguarded) w (λ r w',
    w_kv w' = kept (garbage now m) ∧
    expired_meta r = Z.of_nat (size m) - Z.of_nat (size (kept (dead_meta now m))) ∧
    orphan_rows r = Z.of_nat (size (kept (dead_meta now m))) - Z.of_nat (size (w_kv w')) ∧
    ∀ a now', addr_wf a → now <= now' → value_at a now' (w_kv w') = value_at a now' m).
Proof.
  intros m kept Hb. assert (Hv : wp (sweep now unguarded) w (λ _ w', swept now unguarded w w')).
  { apply wp_sweep_shared. intros. by apply wp_ret. }
  eapply wp_and; [exact Hv|eapply (wp_sweep_alone now w (λ r w', r = mkSweepReport (Z.of_nat (size m) - Z.of_nat (size (kept (dead_meta now m))))
    (Z.of_nat (size (kept (dead_meta now m))) - Z.of_nat (size (kept (garbage now m)))) ∧
    w_kv w' = kept (garbage now m))); done|].
  cbn beta. intros r w' Hsw [-> E]. split_and!; [done|done|by rewrite E|].
  intros. by apply (swept_unguarded now w w').
Qed.

Definition demo_garbage : world kvmap :=
  demo_world (<[rprefix Subkey demo_addr 2 ++ bstr "old" := bstr "x"]> (demo_map THash (bstr "v") 2)).

Lemma demo_garbage_kept :
  filter (λ kv : bytes * bytes, garbage 5 (w_kv demo_garbage) kv.1 = false) (w_kv demo_garbage) =
  demo_map THash (bstr "v") 2.
Proof. apply (bool_decide_unpack _). vm_compute. exact I. Qed.

Lemma sweep_collects_the_garbage_witness :
  wp (sweep 5 unguarded) demo_garbage (λ r w', w_kv w' = demo_map THash (bstr "v") 2).
Proof.
  eapply wp_conseq.
  - apply (sweep_collects_the_garbage 5 demo_garbage). vm_compute. reflexivity.
  - intros r w' (E & _). etransitivity; [exact E|exact demo_garbage_kept].
Defined.
