(* ===== verification/Zsets.v ===== *)
(** * Sorted sets ([crates/flint-storage/src/zsets.rs])

    A sorted set keeps two rows per member: the member row (member to score,
    for O(1) ZSCORE) and the index row (encoded score and member to nothing,
    whose order is the set's order).  Programs for every operation of
    [ZSetStore], the representation of a set by the two row families, and the
    theorems that the operations keep the two in step and answer what a map
    from members to scores sorted by score and then member answers. *)

From stdpp Require Import base list gmap sets strings sorting.
From Stdlib Require Import ZArith Lia.
From Stdlib Require Strings.Byte.
From S2P Require Import Prelude Encoding Kv Store Num F64.

(** ** Flags, outcomes and bounds *)

Record ZaddFlags := mkZaddFlags { nx : bool; xx : bool; gt : bool; lt : bool; incr : bool }.

Inductive ZsetRows :=
| RAll
| RAtMost (n : Z)
| RRanks (start stop : Z).

Record ZaddOutcome := mkZaddOutcome { zo_added : Z; zo_updated : Z; zo_score : option Z }.

Record ScoreBound := mkScoreBound { sb_value : Z; sb_inclusive : bool }.

Definition LPAREN : byte := Byte.x28.
Definition LBRACKET : byte := Byte.x5b.

Definition ScoreBound_parse (raw : bytes) : option ScoreBound :=
  let '(inclusive, body) :=
    match raw with
    | b :: l => if Byte.eqb b LPAREN then (false, l) else (true, raw)
    | [] => (true, raw)
    end in
  let text := to_ascii_lowercase body in
  value ←
    if bool_decide (text = []) then Some F64_ZERO
    else if bool_decide (text = bstr "-inf" ∨ text = bstr "-infinity") then Some F64_NEG_INFINITY
    else if bool_decide (text = bstr "+inf" ∨ text = bstr "inf" ∨ text = bstr "+infinity" ∨
                         text = bstr "infinity") then Some F64_INFINITY
    else f64_parse_number text;
  Some (mkScoreBound value inclusive).

Definition sb_ge_lower (b : ScoreBound) (score : Z) : bool :=
  if sb_inclusive b then f64_le (sb_value b) score else f64_lt (sb_value b) score.

Definition sb_le_upper (b : ScoreBound) (score : Z) : bool :=
  if sb_inclusive b then f64_le score (sb_value b) else f64_lt score (sb_value b).

Inductive LexBound :=
| LNegInf
| LPosInf
| LIncl (v : bytes)
| LExcl (v : bytes).

Definition LexBound_parse (raw : bytes) : option LexBound :=
  match raw with
  | [] => None
  | b :: l =>
      if Byte.eqb b MINUS && bool_decide (length raw = 1%nat) then Some LNegInf
      else if Byte.eqb b PLUS && bool_decide (length raw = 1%nat) then Some LPosInf
      else if Byte.eqb b LBRACKET then Some (LIncl l)
      else if Byte.eqb b LPAREN then Some (LExcl l)
      else None
  end.

Definition lb_ge_lower (b : LexBound) (member : bytes) : bool :=
  match b with
  | LNegInf => true
  | LPosInf => false
  | LIncl v => ble v member
  | LExcl v => blt v member
  end.

Definition lb_le_upper (b : LexBound) (member : bytes) : bool :=
  match b with
  | LNegInf => false
  | LPosInf => true
  | LIncl v => ble member v
  | LExcl v => blt member v
  end.

Definition member_cost (member : bytes) : Z := u64 (len member + 8).

Definition stored_score (score : Z) : Z := if f64_eq score F64_ZERO then F64_ZERO else score.

(** ** Where a walk starts *)

Definition after_score (from : Z) : bytes :=
  let from := if f64_eq from F64_ZERO then F64_NEG_ZERO else from in
  let e := encode_score from in
  if e =? 0 then [] else be 8 (e - 1).

Definition before_score (from : Z) : bytes :=
  let from := if f64_eq from F64_ZERO then F64_ZERO else from in
  let e := encode_score from in
  if e =? U64_MAX then [] else be 8 (e + 1).

Definition lex_seek (score : Z) (bound : LexBound) (rev : bool) : bytes :=
  let enc := be 8 (encode_score score) in
  match rev, bound with
  | false, LIncl v =>
      match v with
      | [] => after_score score
      | _ => enc ++ take (length v - 1) v
      end
  | false, LExcl v => enc ++ v
  | false, _ => after_score score
  | true, LIncl v => enc ++ v ++ [Byte.x00]
  | true, LExcl v => enc ++ v
  | true, _ => before_score score
  end.

(** [i64::saturating_add]. *)
Definition saturating_add_i64 (x y : Z) : Z := Z.max I64_MIN (Z.min (x + y) I64_MAX).

Definition znorm (len i : Z) : Z := if i <? 0 then saturating_add_i64 len i else i.

(** [usize::try_from(count).unwrap_or(usize::MAX)]. *)
Definition limit_of (count : Z) : Z := if count <? 0 then U64_MAX else count.

(** The visitor over index rows: each key past the prefix is eight bytes of
    encoded score and the member; [None] is the slice panic on a shorter one.
    It stops when the visitor answers false. *)
Fixpoint walk_rows {S} (n : nat) (visit : S → bytes → Z → S * bool)
    (rows : list (bytes * bytes)) (s : S) : option S :=
  match rows with
  | [] => Some s
  | (k, _) :: rows =>
      let rest := drop n k in
      b ← get_sub rest 0 8;
      let '(s', go) := visit s (drop 8 rest) (decode_score (of_be b)) in
      if go : bool then walk_rows n visit rows s' else Some s'
  end.

(** ** The store *)

(** [zadd_with]'s two maps: each touched member's score as stored, and as the
    call leaves it. *)
Record zadd_state := mkZaddState {
  zs_stored : gmap bytes (option Z);
  zs_now : gmap bytes Z;
  zs_out : ZaddOutcome
}.

Section ZSetStore.
Context `{HI : HashIter} (st : store) (slot : Z) (key : bytes).

Definition zset_read_meta : prog (result (option ComplexMeta)) :=
  read_typed TZSet ComplexMeta_decode st slot key.

Definition member_key (version : Z) (member : bytes) : option bytes :=
  subkey_envelope (st_ns st) slot key version member.

Definition index_key (version score : Z) (member : bytes) : option bytes :=
  zscore_envelope (st_ns st) slot key version score member.

(** One turn of [zadd]'s accounting loop: (members added, bytes). *)
Definition zadd_account (version : Z) (acc : Z * Z) (p : bytes * Z) : prog (Z * Z) :=
  mk <- unwrap (member_key version p.1) ;;
  o <- kvget mk ;;
  match o with
  | Some _ => Ret acc
  | None => Ret (u64 (acc.1 + 1), u64 (acc.2 + member_cost p.1))
  end.

(** One turn of its write loop. *)
Definition zadd_write (version : Z) (p : bytes * Z) : prog unit :=
  mk <- unwrap (member_key version p.1) ;;
  o <- kvget mk ;;
  (match o with
   | Some old =>
       let old_score := f64_from_le old in
       if old_score =? p.2 then Ret tt
       else ik <- unwrap (index_key version old_score p.1) ;; kvdelete ik ;;; Ret tt
   | None => Ret tt
   end) ;;;
  kvput mk (f64_to_le p.2) ;;;
  ik <- unwrap (index_key version p.2 p.1) ;;
  kvput ik [].

(** Duplicate members in one call: the last score wins. *)
Definition zadd_unique (pairs : list (Z * bytes)) : gmap bytes Z :=
  foldl (λ u p, <[p.2 := stored_score p.1]> u) ∅ pairs.

Definition zadd (pairs : list (Z * bytes)) : prog (result Z) :=
  meta <-? meta_or_new TZSet st slot key ;;
  let unique := zadd_unique pairs in
  acc <- fold_ (hash_iter unique) (zadd_account (c_version meta)) (0, c_bytes meta) ;;
  let '(added, bytes) := acc in
  if st_max st <? bytes then Ret (Err ValueTooLarge)
  else
    for_ (hash_iter unique) (zadd_write (c_version meta)) ;;;
    now <- clock ;;
    kvput (meta_key st slot key)
      (ComplexMeta_encode (resized meta (u32 (c_size meta + u32 added)) bytes now)) ;;;
    Ret (Ok added).

(** One pair of [zadd_with]. *)
Definition zadd_step (flags : ZaddFlags) (version : Z) (s : zadd_state) (p : Z * bytes)
    : prog (result zadd_state) :=
  let '(score, member) := p in
  stored <-
    match zs_stored s !! member with
    | Some _ => Ret (zs_stored s)
    | None =>
        mk <- unwrap (member_key version member) ;;
        o <- kvget mk ;;
        Ret (<[member := f64_from_le <$> o]> (zs_stored s))
    end ;;
  let before := default None (stored !! member) in
  let out := zs_out s in
  match (match zs_now s !! member with Some c => Some c | None => before end) with
  | Some current =>
      if nx flags then Ret (Ok (mkZaddState stored (zs_now s) out))
      else
        let next := stored_score (if incr flags then f64_add current score else score) in
        if f64_is_nan next then Ret (Err NanScore)
        else if (lt flags && f64_le current next) || (gt flags && f64_le next current) then
          Ret (Ok (mkZaddState stored (zs_now s) out))
        else if f64_eq next current then
          Ret (Ok (mkZaddState stored (zs_now s)
            (mkZaddOutcome (zo_added out) (zo_updated out) (Some next))))
        else
          Ret (Ok (mkZaddState stored (<[member := next]> (zs_now s))
            (mkZaddOutcome (zo_added out) (u64 (zo_updated out + 1)) (Some next))))
  | None =>
      if xx flags then Ret (Ok (mkZaddState stored (zs_now s) out))
      else
        Ret (Ok (mkZaddState stored (<[member := stored_score score]> (zs_now s))
          (mkZaddOutcome (u64 (zo_added out + 1)) (zo_updated out) (Some score))))
  end.

Fixpoint zadd_loop (flags : ZaddFlags) (version : Z) (pairs : list (Z * bytes)) (s : zadd_state)
    : prog (result zadd_state) :=
  match pairs with
  | [] => Ret (Ok s)
  | p :: pairs => s' <-? zadd_step flags version s p ;; zadd_loop flags version pairs s'
  end.

(** One turn of [zadd_with]'s write loop. *)
Definition zadd_with_write (version : Z) (stored : gmap bytes (option Z)) (p : bytes * Z) : prog unit :=
  old <- unwrap (stored !! p.1) ;;
  let write :=
    mk <- unwrap (member_key version p.1) ;;
    kvput mk (f64_to_le p.2) ;;;
    ik <- unwrap (index_key version p.2 p.1) ;;
    kvput ik [] in
  match old with
  | Some old =>
      if old =? p.2 then Ret tt
      else ik <- unwrap (index_key version old p.1) ;; kvdelete ik ;;; write
  | None => write
  end.

(** The bytes the members a call adds cost. *)
Definition zadd_new_bytes (s : zadd_state) : Z :=
  foldl (λ acc p, match zs_stored s !! p.1 with
                  | Some (Some _) => acc
                  | _ => u64 (acc + member_cost p.1)
                  end) 0 (hash_iter (zs_now s)).

Definition zadd_with (pairs : list (Z * bytes)) (flags : ZaddFlags) : prog (result ZaddOutcome) :=
  let outcome := mkZaddOutcome 0 0 None in
  o <-? zset_read_meta ;;
  if bool_decide (o = None) && xx flags then Ret (Ok outcome)
  else
    meta <- match o with
            | Some m => Ret m
            | None => now <- clock ;; v <- next_version now ;; Ret (ComplexMeta_new TZSet v)
            end ;;
    s <-? zadd_loop flags (c_version meta) pairs (mkZaddState ∅ ∅ outcome) ;;
    if bool_decide (zs_now s = ∅) then Ret (Ok (zs_out s))
    else
      let bytes := u64 (c_bytes meta + zadd_new_bytes s) in
      if st_max st <? bytes then Ret (Err ValueTooLarge)
      else
        for_ (hash_iter (zs_now s)) (zadd_with_write (c_version meta) (zs_stored s)) ;;;
        now <- clock ;;
        kvput (meta_key st slot key) (ComplexMeta_encode
          (resized meta (u32 (c_size meta + u32 (zo_added (zs_out s)))) bytes now)) ;;;
        Ret (Ok (zs_out s)).

Definition zset_stored_bytes : prog (result (option Z)) :=
  o <-? zset_read_meta ;; Ret (Ok (c_bytes <$> o)).

Definition zset_read_bytes (rows : ZsetRows) : prog (result (option Z)) :=
  o <-? zset_read_meta ;;
  match o with
  | None => Ret (Ok None)
  | Some meta =>
      let len := c_size meta in
      if len =? 0 then Ret (Ok (Some 0))
      else
        let sized wanted := Ret (Ok (Some (saturating_mul wanted (c_bytes meta / len)))) in
        match rows with
        | RAll => Ret (Ok (Some (c_bytes meta)))
        | RAtMost n => sized (Z.min n len)
        | RRanks start stop =>
            let from := Z.max (znorm len start) 0 in
            let to := Z.min (znorm len stop) (len - 1) in
            if to <? from then Ret (Ok (Some 0)) else sized (to - from + 1)
        end
  end.

Definition zscore (member : bytes) : prog (result (option Z)) :=
  o <-? zset_read_meta ;;
  match o with
  | None => Ret (Ok None)
  | Some meta =>
      mk <- unwrap (member_key (c_version meta) member) ;;
      v <- kvget mk ;;
      Ret (Ok (f64_from_le <$> v))
  end.

(** One turn of [zrem]'s loop: (removed, meta.bytes). *)
Definition zrem_member (version : Z) (acc : Z * Z) (member : bytes) : prog (Z * Z) :=
  mk <- unwrap (member_key version member) ;;
  o <- kvget mk ;;
  match o with
  | Some old =>
      kvdelete mk ;;;
      ik <- unwrap (index_key version (f64_from_le old) member) ;;
      kvdelete ik ;;;
      Ret (u64 (acc.1 + 1), saturating_sub acc.2 (member_cost member))
  | None => Ret acc
  end.

Definition zrem (members : list bytes) : prog (result Z) :=
  o <-? zset_read_meta ;;
  match o with
  | None => Ret (Ok 0)
  | Some meta =>
      acc <- fold_ members (zrem_member (c_version meta)) (0, c_bytes meta) ;;
      let '(removed, bytes) := acc in
      finish_removal st slot key meta removed bytes
  end.

Definition zincr_by (delta : Z) (member : bytes) : prog (result Z) :=
  o <-? zscore member ;;
  let next := match o with None => delta | Some c => f64_add c delta end in
  if f64_is_nan next then Ret (Err NanScore)
  else _ <-? zadd [(next, member)] ;; Ret (Ok next).

Definition zcard : prog (result Z) :=
  o <-? zset_read_meta ;; Ret (Ok (match o with Some m => c_size m | None => 0 end)).

Definition walk {S} (rev : bool) (from : bytes) (visit : S → bytes → Z → S * bool) (s : S)
    : prog (result S) :=
  o <-? zset_read_meta ;;
  match o with
  | None => Ret (Ok s)
  | Some meta =>
      prefix <- unwrap (zscore_prefix (st_ns st) slot key (c_version meta)) ;;
      rows <-
        (if rev
         then for_each_before prefix (match from with [] => [] | _ => prefix ++ from end)
         else for_each_from prefix from) ;;
      s' <- unwrap (walk_rows (length prefix) visit rows s) ;;
      Ret (Ok s')
  end.

(** A visitor's state for the bounded reads: rows to skip, rows kept. *)
Definition take_row (want : Z) (s : Z * list (bytes * Z)) (m : bytes) (score : Z)
    : (Z * list (bytes * Z)) * bool :=
  let '(skip, rows) := s in
  if 0 <? skip then ((skip - 1, rows), true)
  else let rows := rows ++ [(m, score)] in ((skip, rows), len rows <? want).

Definition rank_window (start stop : Z) (rev : bool) : prog (result (list (bytes * Z))) :=
  len <-? zcard ;;
  let from := Z.max (znorm len start) 0 in
  let to := Z.min (znorm len stop) (len - 1) in
  if to <? from then Ret (Ok [])
  else
    let '(lo, hi) := if rev then (len - 1 - to, len - 1 - from) else (from, to) in
    let want := hi - lo + 1 in
    let from_low := lo <=? len - 1 - hi in
    let skip := if from_low then lo else len - 1 - hi in
    s <-? walk (negb from_low) [] (take_row want) (skip, []) ;;
    Ret (Ok (if Bool.eqb from_low rev then List.rev s.2 else s.2)).

Definition score_visit (min max : ScoreBound) (rev : bool) (limit : Z)
    (s : Z * list (bytes * Z)) (m : bytes) (score : Z) : (Z * list (bytes * Z)) * bool :=
  let inside_near := if rev then sb_le_upper max score else sb_ge_lower min score in
  let inside_far := if rev then sb_ge_lower min score else sb_le_upper max score in
  if negb inside_near then (s, true)
  else if negb inside_far then (s, false)
  else take_row limit s m score.

Definition zrange_by_score (min max : ScoreBound) (rev : bool) (offset count : Z)
    : prog (result (list (bytes * Z))) :=
  o <-? zset_read_meta ;;
  if bool_decide (o = None) || (offset <? 0) || (count =? 0) then Ret (Ok [])
  else
    let from := if rev then before_score (sb_value max) else after_score (sb_value min) in
    s <-? walk rev from (score_visit min max rev (limit_of count)) (offset, []) ;;
    Ret (Ok s.2).

(** One end of the set, as [zrange_by_lex] takes it. *)
Definition end_visit (_ : option (bytes * Z)) (m : bytes) (s : Z) : option (bytes * Z) * bool :=
  (Some (m, s), false).

Definition lex_visit (min max : LexBound) (rev : bool) (limit : Z)
    (s : bool * (Z * list bytes)) (m : bytes) (_ : Z) : (bool * (Z * list bytes)) * bool :=
  let '(started, (skip, hits)) := s in
  let inside_near := if rev then lb_le_upper max m else lb_ge_lower min m in
  let inside_far := if rev then lb_ge_lower min m else lb_le_upper max m in
  if negb started && negb inside_near then (s, true)
  else if negb started && negb inside_far then (s, false)
  else if 0 <? skip then ((true, (skip - 1, hits)), true)
  else if negb inside_far then ((true, (skip, hits)), false)
  else let hits := hits ++ [m] in ((true, (skip, hits)), len hits <? limit).

Definition zrange_by_lex (min max : LexBound) (rev : bool) (offset count : Z)
    : prog (result (list bytes)) :=
  e0 <-? walk false [] end_visit None ;;
  e1 <-? walk true [] end_visit None ;;
  match e0, e1 with
  | Some (first, low), Some (last, high) =>
      if negb (lb_ge_lower min last) || negb (lb_le_upper max first) || (offset <? 0) || (count =? 0)
      then Ret (Ok [])
      else
        let from :=
          if encode_score low =? encode_score high
          then lex_seek low (if rev then max else min) rev else [] in
        s <-? walk rev from (lex_visit min max rev (limit_of count)) (false, (offset, [])) ;;
        Ret (Ok s.2.2)
  | _, _ => Ret (Ok [])
  end.

Definition zreplace (pairs : list (Z * bytes)) : prog (result Z) :=
  let distinct := (hash_iter (gset_to_gmap tt (list_to_set pairs.*2 : gset bytes))).*1 in
  if st_max st <? foldl (λ acc m, u64 (acc + member_cost m)) 0 distinct then Ret (Err ValueTooLarge)
  else
    kvdelete (meta_key st slot key) ;;;
    match pairs with
    | [] => Ret (Ok 0)
    | _ => _ <-? zadd pairs ;; zcard
    end.

Definition zlexcount (min max : LexBound) : prog (result Z) :=
  l <-? zrange_by_lex min max false 0 (-1) ;; Ret (Ok (len l)).

Definition zremrangebylex (min max : LexBound) : prog (result Z) :=
  doomed <-? zrange_by_lex min max false 0 (-1) ;; zrem doomed.

Definition count_visit (min max : ScoreBound) (n : Z) (_ : bytes) (s : Z) : Z * bool :=
  if negb (sb_ge_lower min s) then (n, true)
  else if negb (sb_le_upper max s) then (n, false)
  else (u64 (n + 1), true).

Definition zcount (min max : ScoreBound) : prog (result Z) :=
  walk false (after_score (sb_value min)) (count_visit min max) 0.

Definition rank_visit (member : bytes) (score : Z) (s : Z * bool) (m : bytes) (sc : Z)
    : (Z * bool) * bool :=
  if f64_eq sc score && bool_decide (m = member) then ((s.1, true), false)
  else ((u64 (s.1 + 1), s.2), true).

Definition zrank (member : bytes) (rev : bool) : prog (result (option Z)) :=
  o <-? zscore member ;;
  match o with
  | None => Ret (Ok None)
  | Some score =>
      s <-? walk rev [] (rank_visit member score) (0, false) ;;
      Ret (Ok (if s.2 then Some s.1 else None))
  end.

Definition zmscore (members : list bytes) : prog (result (list (option Z))) :=
  collect_ members zscore.

Definition pop_visit (count : Z) (l : list (bytes * Z)) (m : bytes) (s : Z) : list (bytes * Z) * bool :=
  let l := l ++ [(m, s)] in (l, len l <? count).

Definition zpop (count : Z) (max_end : bool) : prog (result (list (bytes * Z))) :=
  popped <-? (if 0 <? count then walk max_end [] (pop_visit count) [] else Ret (Ok [])) ;;
  _ <-? zrem popped.*1 ;;
  Ret (Ok popped).

Definition zremrangebyscore (min max : ScoreBound) : prog (result Z) :=
  doomed <-? zrange_by_score min max false 0 (-1) ;; zrem doomed.*1.

Definition zremrangebyrank (start stop : Z) : prog (result Z) :=
  doomed <-? rank_window start stop false ;; zrem doomed.*1.

Definition zrange_rev (start stop : Z) (rev : bool) : prog (result (list (bytes * Z))) :=
  rank_window start stop rev.

Definition zrange (start stop : Z) : prog (result (list (bytes * Z))) :=
  rank_window start stop false.
End ZSetStore.

(** ** The set a key holds *)

Abbreviation zset := (gmap bytes Z).

(** What one member costs, and the member rows of a set. *)
Definition zweight (m _ : bytes) : Z := len m + 8.
Definition zrows (Y : zset) : kvmap := f64_to_le <$> Y.

(** The index row of a member, and the index of a set. *)
Definition zkey (p : bytes * Z) : bytes := be 8 (encode_score p.2) ++ p.1.
Arguments zkey : simpl never.
Definition zindex (Y : zset) : kvmap := list_to_map ((λ p, (zkey p, [])) <$> map_to_list Y).

(** The set in order. *)
Definition zle (p q : bytes * Z) : Prop := ble (zkey p) (zkey q) = true.
#[global] Instance zle_dec p q : Decision (zle p q).
Proof. unfold zle. apply _. Defined.

Definition zlist (Y : zset) : list (bytes * Z) := merge_sort zle (map_to_list Y).

(** Every score of the set is a number. *)
Definition zwf (Y : zset) : Prop := map_Forall (λ _ s, score_ok s) Y.

Definition zbytes (Y : zset) : Z := weight zweight (zrows Y).

Lemma zweight_pos m v : 0 <= zweight m v.
Proof. unfold zweight. lia. Qed.

#[global] Instance zle_trans : Transitive zle.
Proof. intros ???. apply ble_trans. Qed.
#[global] Instance zle_total : Total zle.
Proof. intros p q. apply ble_total. Qed.

Lemma zkey_cmp p q :
  in_width 64 p.2 → in_width 64 q.2 →
  bytes_cmp (zkey p) (zkey q) =
  match encode_score p.2 ?= encode_score q.2 with Eq => bytes_cmp p.1 q.1 | c => c end.
Proof. intros. unfold zkey. apply bytes_cmp_be; by apply encode_score_width. Qed.

Lemma zkey_inj p q : in_width 64 p.2 → in_width 64 q.2 → zkey p = zkey q → p = q.
Proof.
  intros Hp Hq E. unfold zkey in E.
  apply app_inj_1 in E as [Es Em]; [|by rewrite !length_be].
  apply be_inj in Es; [|by apply encode_score_width..].
  apply encode_score_inj in Es; [|done..]. destruct p, q; cbn in *. congruence.
Qed.

Lemma zwf_lookup Y m s : zwf Y → Y !! m = Some s → in_width 64 s.
Proof. intros H E. by apply H in E as [? _]. Qed.

Lemma zwf_insert Y m s : zwf Y → score_ok s → zwf (<[m := s]> Y).
Proof. intros. by apply map_Forall_insert_2. Qed.

Lemma zwf_delete Y m : zwf Y → zwf (delete m Y).
Proof. apply map_Forall_delete. Qed.

Lemma zwf_union U Y : zwf U → zwf Y → zwf (U ∪ Y).
Proof. intros HU HY m s [?|[_ ?]]%lookup_union_Some_raw; eauto. Qed.

Lemma NoDup_zkeys Y : zwf Y → NoDup ((λ p, (zkey p, [] : bytes)) <$> map_to_list Y).*1.
Proof.
  intros HY. rewrite <-list_fmap_compose. apply NoDup_fmap_2_strong; [|apply NoDup_map_to_list].
  intros [m s] [m' s'] H1%elem_of_map_to_list H2%elem_of_map_to_list E. cbn in E.
  apply zkey_inj in E; eauto using zwf_lookup.
Qed.

Lemma zindex_spec Y k x :
  zwf Y → zindex Y !! k = Some x ↔ x = [] ∧ ∃ m s, Y !! m = Some s ∧ k = zkey (m, s).
Proof.
  intros HY. unfold zindex. rewrite <-elem_of_list_to_map by (by apply NoDup_zkeys).
  rewrite list_elem_of_fmap. split.
  - intros ([m s] & E & H%elem_of_map_to_list). injection E as -> ->. eauto.
  - intros (-> & m & s & H%elem_of_map_to_list & ->). by exists (m, s).
Qed.

Lemma zindex_ext Y (I : kvmap) :
  zwf Y → (∀ k x, I !! k = Some x ↔ x = [] ∧ ∃ m s, Y !! m = Some s ∧ k = zkey (m, s)) → I = zindex Y.
Proof.
  intros HY H. apply map_eq. intros k. apply option_eq. intros x. by rewrite zindex_spec, H.
Qed.

(** Setting a member's score moves its index row. *)
Lemma zindex_insert Y m s :
  zwf Y → score_ok s →
  zindex (<[m := s]> Y) =
  <[zkey (m, s) := []]> (match Y !! m with Some s0 => delete (zkey (m, s0)) (zindex Y) | None => zindex Y end).
Proof.
  intros HY Hs. symmetry. apply zindex_ext; [by apply zwf_insert|]. intros k x.
  rewrite lookup_insert_Some. split.
  - intros [[<- <-]|[Hne H]]; [split; [done|]; exists m, s; by rewrite lookup_insert_eq|].
    assert (Hold : zindex Y !! k = Some x ∧ (∀ s0, Y !! m = Some s0 → k ≠ zkey (m, s0))).
    { destruct (Y !! m) as [s0|] eqn:E; [|by split].
      apply lookup_delete_Some in H as [Hk H]. split; [done|]. intros ? [= <-]. congruence. }
    destruct Hold as [(-> & m' & s' & Hm & ->)%zindex_spec Hk]; [|done]. split; [done|].
    exists m', s'. split; [|done]. rewrite lookup_insert_ne; [done|]. intros ->. by apply (Hk s').
  - intros (-> & m' & s' & [[<- <-]|[Hne Hm]]%lookup_insert_Some & ->); [by left|right].
    assert (Hz : zindex Y !! zkey (m', s') = Some []) by (apply zindex_spec; eauto).
    assert (Hk : ∀ s0, in_width 64 s0 → zkey (m, s0) ≠ zkey (m', s')).
    { intros s0 Hs0 E. apply zkey_inj in E; cbn; eauto using zwf_lookup. congruence. }
    split; [by apply Hk, Hs|]. destruct (Y !! m) as [s0|] eqn:E; [|done].
    rewrite lookup_delete_ne; [done|]. apply Hk. eauto using zwf_lookup.
Qed.

Lemma zindex_delete Y m s :
  zwf Y → Y !! m = Some s → zindex (delete m Y) = delete (zkey (m, s)) (zindex Y).
Proof.
  intros HY Hm. symmetry. apply zindex_ext; [by apply zwf_delete|]. intros k x.
  rewrite lookup_delete_Some, zindex_spec by done. split.
  - intros (Hne & -> & m' & s' & Hm' & ->). split; [done|]. exists m', s'. split; [|done].
    rewrite lookup_delete_ne; [done|]. intros ->. congruence.
  - intros (-> & m' & s' & [Hne Hm']%lookup_delete_Some & ->). split; [|eauto].
    intros E. apply zkey_inj in E; cbn; eauto using zwf_lookup. congruence.
Qed.

Lemma zindex_empty : zindex ∅ = ∅.
Proof. unfold zindex. by rewrite map_to_list_empty. Qed.

(** ** The order of the set *)

Lemma elem_of_zlist Y m s : (m, s) ∈ zlist Y ↔ Y !! m = Some s.
Proof. unfold zlist. by rewrite merge_sort_Permutation, elem_of_map_to_list. Qed.

Lemma length_zlist Y : length (zlist Y) = size Y.
Proof. unfold zlist. by rewrite merge_sort_Permutation, length_map_to_list. Qed.

Lemma NoDup_zlist Y : NoDup (zlist Y).*1.
Proof. unfold zlist. rewrite merge_sort_Permutation. apply NoDup_fst_map_to_list. Qed.

Definition zlt (p q : bytes * Z) : Prop := blt (zkey p) (zkey q) = true.

Lemma zlist_sorted Y : zwf Y → StronglySorted zlt (zlist Y).
Proof.
  intros HY. pose proof (StronglySorted_merge_sort zle (map_to_list Y)) as Hs. fold (zlist Y) in Hs.
  pose proof (NoDup_zlist Y) as Hnd.
  assert (Hw : Forall (λ p, in_width 64 p.2) (zlist Y)).
  { apply Forall_forall. intros [m s] E%elem_of_zlist. eauto using zwf_lookup. }
  revert Hs Hnd Hw. generalize (zlist Y). induction l as [|p l IH]; intros Hs Hnd Hw; constructor.
  - apply StronglySorted_inv in Hs as [Hs _]. inversion Hw. apply NoDup_cons in Hnd as [_ Hnd]. auto.
  - apply StronglySorted_inv in Hs as [_ Hs]. inversion Hw as [|? ? Hp Hw']; subst.
    apply NoDup_cons in Hnd as [Hnin _]. rewrite Forall_forall in Hs, Hw' |- *. intros q Hq.
    specialize (Hs q Hq). apply ble_lt_or_eq in Hs as [?|E]; [done|]. exfalso.
    apply zkey_inj in E; [|done|by apply Hw']. subst q. apply Hnin. by apply list_elem_of_fmap_2.
Qed.

(** The index rows, walked, are the set in order. *)
Lemma rows_of_zindex Y : zwf Y → rows_of (zindex Y) = (λ p, (zkey p, [])) <$> zlist Y.
Proof.
  intros HY. symmetry. apply rows_of_unique.
  - pose proof (zlist_sorted Y HY) as Hs. unfold ascending.
    induction Hs as [|p l Hs IH Hp]; cbn; constructor; [done|]. apply Forall_fmap. exact Hp.
  - intros k x. rewrite zindex_spec, list_elem_of_fmap by done. split.
    + intros ([m s] & E & H%elem_of_zlist). injection E as -> ->. eauto.
    + intros (-> & m & s & H%elem_of_zlist & ->). by exists (m, s).
Qed.

(** ** The set a key holds, in rows *)

(** Rows of one family do not show in another. *)
Lemma rows_at_other_insert cf cf' a v m f x :
  addr_wf a → in_width 64 v → cf ≠ Metadata → cf' ≠ Metadata → cf ≠ cf' →
  rows_at cf a v (<[rprefix cf' a v ++ f := x]> m) = rows_at cf a v m.
Proof.
  intros. apply rows_at_ext. intros g. apply lookup_insert_ne. intros E.
  apply rprefix_inj in E as (? & _); try done.
Qed.

Lemma rows_at_other_delete cf cf' a v m f :
  addr_wf a → in_width 64 v → cf ≠ Metadata → cf' ≠ Metadata → cf ≠ cf' →
  rows_at cf a v (delete (rprefix cf' a v ++ f) m) = rows_at cf a v m.
Proof.
  intros. apply rows_at_ext. intros g. apply lookup_delete_ne. intros E.
  apply rprefix_inj in E as (? & _); try done.
Qed.

(** The metadata, member rows and index rows of a live set. *)
Definition zmeta (a : addr) (now : Z) (m : kvmap) (meta : ComplexMeta) (Y : zset) : Prop :=
  holds_meta TZSet zweight a now m meta (zrows Y) ∧
  rows_at ZScore a (c_version meta) m = zindex Y ∧ zwf Y.

Definition zrepr (a : addr) (now : Z) (m : kvmap) (H : option zset) : Prop :=
  match H with
  | None => dead_row now (m !! mkey a)
  | Some Y => Y ≠ ∅ ∧ ∃ meta, zmeta a now m meta Y
  end.

Definition members (H : option zset) : zset := match H with Some Y => Y | None => ∅ end.

Lemma zrows_empty Y : zrows Y = ∅ ↔ Y = ∅.
Proof. apply fmap_empty_iff. Qed.

Lemma size_zrows Y : size (zrows Y) = size Y.
Proof. apply map_size_fmap. Qed.

Lemma zrows_insert Y m s : zrows (<[m := s]> Y) = <[m := f64_to_le s]> (zrows Y).
Proof. apply fmap_insert. Qed.

Lemma zrows_delete Y m : zrows (delete m Y) = delete m (zrows Y).
Proof. apply fmap_delete. Qed.

Lemma lookup_zrows Y m : zrows Y !! m = f64_to_le <$> Y !! m.
Proof. apply lookup_fmap. Qed.

Lemma zmeta_at a now now' m meta Y :
  zmeta a now m meta Y → zrepr a now' m (Some Y) → zmeta a now' m meta Y.
Proof.
  intros (Hm & HI & HY) (Hne & meta' & Hm' & _). split_and!; [|done..].
  eapply holds_meta_at; [done|]. split; [by rewrite zrows_empty|]. by exists meta'.
Qed.

Lemma zrepr_frame a a' now m m' H :
  addr_wf a → addr_wf a' → a ≠ a' → frame a m m' → zrepr a' now m H → zrepr a' now m' H.
Proof.
  intros Ha Ha' Hne Hfr. destruct H as [Y|]; cbn [zrepr].
  - intros (HY & meta & Hm & HI & Hwf). split; [done|].
    pose proof (repr_frame TZSet zweight a a' now m m' (Some (zrows Y)) Ha Ha' Hne Hfr) as Hr.
    destruct Hr as (_ & meta' & Hm').
    { split; [by rewrite zrows_empty|]. by exists meta. }
    pose proof Hm as ((row & Hrow & Hl & Hd) & _). pose proof Hm' as ((row' & Hrow' & Hl' & Hd') & _).
    assert (row' = row) as ->.
    { rewrite Hfr in Hrow' by (by apply not_owned_mkey). congruence. }
    assert (meta' = meta) as -> by congruence. exists meta. split_and!; [done| |done].
    rewrite <-HI. apply (rows_at_frame ZScore a a' _ m m'); try done.
    by eapply base_version, live_row_base.
  - rewrite Hfr; [done|]. by apply not_owned_mkey.
Qed.

Section ZsetProofs.
Context `{HI : HashIter} (st : store) (slot : Z) (key : bytes).
Abbreviation a := (mkAddr (st_ns st) slot key).
Hypothesis Ha : addr_wf a.

Lemma zindex_ok v s m : index_key st slot key v s m = Some (rprefix ZScore a v ++ zkey (m, s)).
Proof.
  unfold index_key, zscore_envelope, zscore_prefix. destruct Ha as (_ & _ & Hk).
  cbn in Hk. destruct (Z.leb_spec (len key) 65535); [done|]. lia.
Qed.

Lemma zmember_ok v m : member_key st slot key v m = Some (rprefix Subkey a v ++ m).
Proof. by apply (skey_ok a). Qed.

Lemma zsprefix_ok v : zscore_prefix (st_ns st) slot key v = Some (rprefix ZScore a v).
Proof.
  unfold zscore_prefix. destruct Ha as (_ & _ & Hk). cbn in Hk.
  destruct (Z.leb_spec (len key) 65535); [done|]. lia.
Qed.

(** A read leaves the set as it was. *)
Record zread_only (H : option zset) (w w' : world kvmap) : Prop := {
  zr_env : env_ok w';
  zr_effect : effect a w w';
  zr_last : w_last w' = w_last w;
  zr_keeps now : zrepr a now (w_kv w) H → zrepr a now (w_kv w') H
}.

Lemma zread_only_trans H w w1 w2 : zread_only H w w1 → zread_only H w1 w2 → zread_only H w w2.
Proof.
  intros [? ? El Hk] [? ? El' Hk']. constructor; [done|by eapply effect_trans|congruence|auto].
Qed.

(** The set is there at every reading of the clock. *)
Definition zheld (H : option zset) (w : world kvmap) : Prop :=
  ∀ n, zrepr a (w_clock w n) (w_kv w) H.

Lemma zheld_after H w w' : zread_only H w w' → zheld H w → zheld H w'.
Proof.
  intros Hro Hh n. destruct (eff_clock _ _ _ (zr_effect _ _ _ Hro)) as [d Hd]. rewrite Hd.
  by apply (zr_keeps _ _ _ Hro).
Qed.

Definition zread_as (H : option zset) (now : Z) (m : kvmap) (o : option ComplexMeta) : Prop :=
  match o with
  | None => H = None
  | Some meta => ∃ Y, H = Some Y ∧ Y ≠ ∅ ∧ zmeta a now m meta Y
  end.

Lemma wp_zread H w Q :
  env_ok w → zrepr a (w_clock w 0%nat) (w_kv w) H →
  (∀ o w', zread_only H w w' → zread_as H (w_clock w 0%nat) (w_kv w') o → Q (Ok o) w') →
  wp (zset_read_meta st slot key) w Q.
Proof.
  intros Henv HH HQ. unfold zset_read_meta. destruct H as [Y|]; cbn [zrepr] in HH.
  - pose proof HH as (Hne & meta & Hm). pose proof Hm as (((row & Hrow & Hl & Hd) & _) & _).
    eapply wp_read_live; [done..|].
    destruct (after_read_effect st slot key w (tick w)) as (? & ? & ?); [right; by left|done|].
    apply HQ; [by constructor|]. by exists Y.
  - apply wp_read_dead; [done|]. intros w' Hafter Hdead.
    destruct (after_read_effect st slot key w w') as (? & ? & ?); [done..|].
    apply HQ; [|done]. constructor; try done.
    intros now. cbn. destruct Hafter as [->|[->| ->]]; [done..|]. cbn. by rewrite lookup_delete_eq.
Qed.

(** ** Writing the two families *)

Record zwritten (v : Z) (Y : zset) (w w' : world kvmap) : Prop := {
  zw_world : w' = with_kv w (w_kv w');
  zw_rows : rows_at Subkey a v (w_kv w') = zrows Y;
  zw_index : rows_at ZScore a v (w_kv w') = zindex Y;
  zw_wf : zwf Y;
  zw_frame : frame a (w_kv w) (w_kv w');
  zw_fresh : fresh (w_kv w') (w_last w);
  zw_meta : w_kv w' !! mkey a = w_kv w !! mkey a
}.

Lemma zwritten_effect v Y w w' : zwritten v Y w w' → effect a w w'.
Proof. intros [Hw _ _ _ ? ? _]. rewrite Hw. by apply effect_with_kv. Qed.

Lemma zwritten_lookup v Y w w' m :
  zwritten v Y w w' → w_kv w' !! (rprefix Subkey a v ++ m) = f64_to_le <$> Y !! m.
Proof. intros Hz. by rewrite <-lookup_rows_at, (zw_rows _ _ _ _ Hz), lookup_zrows. Qed.

(** What a score update does to the rows. *)
Definition zset_row (v : Z) (old : option Z) (m : bytes) (s : Z) (kv : kvmap) : kvmap :=
  <[rprefix ZScore a v ++ zkey (m, s) := []]>
    (<[rprefix Subkey a v ++ m := f64_to_le s]>
      (match old with
       | Some s0 => if s0 =? s then kv else delete (rprefix ZScore a v ++ zkey (m, s0)) kv
       | None => kv
       end)).

Lemma zwritten_set v Y m s w w' :
  in_width 64 v → v <= w_last w → score_ok s → zwritten v Y w w' →
  zwritten v (<[m := s]> Y) w (with_kv w' (zset_row v (Y !! m) m s (w_kv w'))).
Proof.
  intros Hv Hle Hs [Hw HR HX Hwf Hfr Hf Hm]. unfold zset_row.
  set (kv1 := match Y !! m with Some s0 => if s0 =? s then _ else _ | None => _ end).
  assert (Hkv1 : rows_at Subkey a v kv1 = zrows Y ∧ frame a (w_kv w) kv1 ∧ fresh kv1 (w_last w) ∧
    kv1 !! mkey a = w_kv w !! mkey a ∧
    <[zkey (m, s) := []]> (rows_at ZScore a v kv1) = zindex (<[m := s]> Y)).
  { rewrite zindex_insert by done. unfold kv1. destruct (Y !! m) as [s0|] eqn:E.
    - destruct (Z.eqb_spec s0 s) as [->|Hne].
      + split_and!; try done. by rewrite HX, insert_delete_eq.
      + rewrite rows_at_other_delete by done. rewrite rows_at_delete, HX. split_and!; try done.
        * eapply frame_trans; [done|]. by apply frame_delete, owned_row.
        * by apply fresh_delete.
        * rewrite lookup_delete_ne; [done|]. intros E'. by apply (mkey_not_row ZScore a v (zkey (m, s0)) a).
    - by rewrite HX. }
  clearbody kv1. destruct Hkv1 as (HR1 & Hfr1 & Hf1 & Hm1 & HX1). constructor; cbn [w_kv with_kv].
  - by rewrite Hw.
  - rewrite rows_at_other_insert, rows_at_insert by done. by rewrite HR1, zrows_insert.
  - rewrite rows_at_insert, rows_at_other_insert by done. done.
  - by apply zwf_insert.
  - eapply frame_trans; [done|]. eapply frame_trans; by apply frame_insert, owned_row.
  - by apply fresh_row, fresh_row.
  - rewrite !lookup_insert_ne; [done|..]; intros E'; symmetry in E'; by apply mkey_not_row in E'.
Qed.

Lemma zwritten_delete v Y m s w w' :
  in_width 64 v → Y !! m = Some s → zwritten v Y w w' →
  zwritten v (delete m Y) w (with_kv w'
    (delete (rprefix ZScore a v ++ zkey (m, s)) (delete (rprefix Subkey a v ++ m) (w_kv w')))).
Proof.
  intros Hv Hs [Hw HR HX Hwf Hfr Hf Hm]. constructor; cbn [w_kv with_kv].
  - by rewrite Hw.
  - rewrite rows_at_other_delete, rows_at_delete by done. by rewrite HR, zrows_delete.
  - rewrite rows_at_delete, rows_at_other_delete by done. rewrite HX. symmetry. by apply zindex_delete.
  - by apply zwf_delete.
  - eapply frame_trans; [done|]. eapply frame_trans; by apply frame_delete, owned_row.
  - by apply fresh_delete, fresh_delete.
  - rewrite !lookup_delete_ne; [done|..]; intros E'; symmetry in E'; by apply mkey_not_row in E'.
Qed.

(** ** Opening and closing *)

Definition zlives (m : kvmap) (H : option zset) (now : Z) : Prop := H = None ∨ zrepr a now m H.

Record zopened (H : option zset) (w : world kvmap) (meta : ComplexMeta) (w' : world kvmap) : Prop := {
  zop_base now : zlives (w_kv w) H now → base_ok TZSet now meta;
  zop_width : in_width 64 (c_version meta);
  zop_written : zwritten (c_version meta) (members H) w' w';
  zop_size : c_size meta = Z.of_nat (size (members H));
  zop_bytes : c_bytes meta = zbytes (members H);
  zop_version : c_version meta <= w_last w';
  zop_effect : effect a w w';
  zop_clocks : clocks_ok w';
  zop_keeps now : zrepr a now (w_kv w) H → zrepr a now (w_kv w') H
}.

Lemma zwritten_refl v Y w :
  rows_at Subkey a v (w_kv w) = zrows Y → rows_at ZScore a v (w_kv w) = zindex Y → zwf Y →
  fresh (w_kv w) (w_last w) → zwritten v Y w w.
Proof. intros. constructor; auto with flint. by destruct w. Qed.

Lemma zopened_found Y now w w1 meta :
  zread_only (Some Y) w w1 → Y ≠ ∅ → zmeta a now (w_kv w1) meta Y → zopened (Some Y) w meta w1.
Proof.
  intros [[Hc Hf] He El Hk] Hne Hm. pose proof Hm as (Hm1 & Hi & Hwf).
  destruct (holds_widths _ _ _ _ _ _ _ Hm1) as (_ & _ & Hb).
  pose proof Hm1 as (_ & Hrows & Hs & Hby). constructor; cbn [members]; try done.
  - intros now' [?|Hnow]; [done|]. apply Hk in Hnow.
    destruct (zmeta_at _ _ _ _ _ _ Hm Hnow) as (Hm' & _). by apply (holds_widths _ _ _ _ _ _ _ Hm').
  - apply Hb.
  - by apply zwritten_refl.
  - by rewrite <-size_zrows.
  - eapply repr_version; [|done..]. by rewrite zrows_empty.
Qed.

Lemma zopened_new w w1 :
  zread_only None w w1 → headroom w →
  let v := version_next (w_last w1) (w_clock w1 0%nat) in
  zopened None w (ComplexMeta_new TZSet v) (with_last (tick w1) v).
Proof.
  intros [[Hc Hf] He El Hk] Hroom v. unfold headroom in Hroom. rewrite <-El in Hroom.
  destruct (version_next_lt (w_last w1) (w_clock w1 0%nat)) as (Hv & _ & Hv64); [done..|].
  fold v in Hv, Hv64.
  assert (Hempty : ∀ cf, cf ≠ Metadata → rows_at cf a v (w_kv w1) = ∅) by (intros; by eapply fresh_empty).
  assert (Hfr : fresh (w_kv w1) v) by (eapply fresh_le; [done|lia]).
  constructor; cbn [members]; try done.
  - apply zwritten_refl; cbn [c_version ComplexMeta_new w_kv w_last with_last tick]; [| |apply map_Forall_empty|done].
    + rewrite Hempty by done. symmetry. by apply zrows_empty.
    + rewrite Hempty by done. by rewrite zindex_empty.
  - eapply effect_trans; [done|]. constructor; cbn; auto with flint; [by exists 1%nat|lia].
  - intros n. apply Hc.
Qed.

Lemma wp_zmeta_or_new H w Q :
  env_ok w → headroom w → zrepr a (w_clock w 0%nat) (w_kv w) H →
  (∀ meta w', zopened H w meta w' → Q (Ok meta) w') →
  wp (meta_or_new TZSet st slot key) w Q.
Proof.
  intros Henv Hroom HH HQ. unfold meta_or_new. apply wp_try. apply (wp_zread H); [done..|].
  intros [meta|] w1 Hro Hread; cbn [zread_as] in Hread.
  - destruct Hread as (Y & -> & Hne & Hm). wp_op. apply HQ. by eapply zopened_found.
  - subst H. wp_op. wp_op. wp_op. apply HQ. by apply zopened_new.
Qed.

(** What an operation made of the key. *)
Definition zturns (H H' : option zset) (w w' : world kvmap) : Prop :=
  ∀ now, zrepr a now (w_kv w) H → zrepr a now (w_kv w') H'.
Definition zmakes (H : option zset) (Y' : zset) (w w' : world kvmap) : Prop :=
  ∀ now, zlives (w_kv w) H now → zrepr a now (w_kv w') (Some Y').

Lemma zread_turns H w w' : zread_only H w w' → zturns H H w w'.
Proof. intros Hro now. apply (zr_keeps _ _ _ Hro). Qed.

Lemma zmakes_after H Y' w w1 w2 : zread_only H w w1 → zmakes H Y' w1 w2 → zmakes H Y' w w2.
Proof. intros Hro Hm now [?|Hnow]; apply Hm; [by left|right; by apply (zr_keeps _ _ _ Hro)]. Qed.

Lemma zturns_after H H' w w1 w2 : zread_only H w w1 → zturns H H' w1 w2 → zturns H H' w w2.
Proof. intros Hro Hm now Hnow. by apply Hm, (zr_keeps _ _ _ Hro). Qed.

(** Storing the resized metadata over the written rows closes the set. *)
Lemma zclose H w meta w1 Y' w2 size bytes Q :
  zopened H w meta w1 → zwritten (c_version meta) Y' w1 w2 → Y' ≠ ∅ →
  size = Z.of_nat (base.size Y') → bytes = zbytes Y' → in_width 32 size → in_width 64 bytes →
  (∀ w', effect a w w' → zmakes H Y' w w' → Q w') →
  Q (with_kv (tick w2) (<[mkey a := ComplexMeta_encode (resized meta size bytes (w_clock w2 0%nat))]> (w_kv w2))).
Proof.
  intros Ho Hw Hne Hs Hb Hs32 Hb64 HQ. apply HQ.
  { apply close_effect. eapply effect_trans; [apply Ho|]. by eapply zwritten_effect. }
  intros now Hnow. cbn [w_kv with_kv]. split; [done|].
  pose proof (zop_base _ _ _ _ Ho now Hnow) as Hbase.
  assert (Hclk : in_width 64 (w_clock w2 0%nat)).
  { apply clock_ok_64. rewrite (zw_world _ _ _ _ Hw). apply (zop_clocks _ _ _ _ Ho). }
  destruct (touch_live TZSet now meta size bytes (w_clock w2 0%nat)) as [Hl Hd]; [done..|].
  exists (resized meta size bytes (w_clock w2 0%nat)). split_and!; [split_and!|..]; cbn.
  - eexists. by rewrite lookup_insert_eq.
  - rewrite rows_at_meta_insert by done. apply Hw.
  - by rewrite size_zrows.
  - done.
  - rewrite rows_at_meta_insert by done. apply Hw.
  - apply Hw.
Qed.

(** ** ZADD *)

Lemma zrows_union U Y : zrows (U ∪ Y) = zrows U ∪ zrows Y.
Proof. apply map_fmap_union. Qed.

Lemma zbytes_insert Y m s :
  zbytes (<[m := s]> Y) = zbytes Y + match Y !! m with Some _ => 0 | None => len m + 8 end.
Proof.
  unfold zbytes. rewrite zrows_insert, weight_insert, lookup_zrows. unfold zweight at 2 3.
  destruct (Y !! m); cbn; lia.
Qed.

Lemma zsize_insert (Y : zset) m s :
  Z.of_nat (size (<[m := s]> Y)) = Z.of_nat (size Y) + match Y !! m with Some _ => 0 | None => 1 end.
Proof.
  rewrite <-!size_zrows, zrows_insert, size_insert, lookup_zrows. by destruct (Y !! m).
Qed.

Lemma zbytes_nonneg Y : 0 <= zbytes Y.
Proof. apply weight_nonneg, zweight_pos. Qed.

(** Laying the entries of a list over a set, one at a time. *)
Lemma union_entry (m : bytes) (s : Z) (l : list (bytes * Z)) (Y : zset) :
  m ∉ l.*1 → (list_to_map ((m, s) :: l) ∪ Y : zset) = list_to_map l ∪ <[m := s]> Y.
Proof.
  intros Hn%not_elem_of_list_to_map. cbn. rewrite <-insert_union_l. by rewrite <-insert_union_r.
Qed.

Lemma zbytes_union_ge U Y : zbytes Y <= zbytes (U ∪ Y) ∧ (size Y ≤ size (U ∪ Y))%nat.
Proof.
  induction U as [|m s U Hm IH] using map_ind.
  { rewrite (left_id_L ∅ (∪)). lia. }
  rewrite <-insert_union_l. pose proof (zbytes_insert (U ∪ Y) m s). pose proof (zsize_insert (U ∪ Y) m s).
  destruct ((U ∪ Y) !! m); lia.
Qed.

Lemma wp_zadd_account l v Y Y' w Q :
  NoDup l.*1 → rows_at Subkey a v (w_kv w) = zrows Y → list_to_map l ∪ Y = Y' →
  zbytes Y' < 2 ^ 64 → Z.of_nat (size Y') < 2 ^ 32 →
  Q (Z.of_nat (size Y') - Z.of_nat (size Y), zbytes Y') w →
  wp (fold_ l (zadd_account st slot key v) (0, zbytes Y)) w Q.
Proof.
  intros Hnd HR EY' Hb Hs HQ.
  apply (wp_fold (λ l' acc w', w' = w ∧ NoDup l'.*1 ∧ ∃ G, (∀ m, m ∈ l'.*1 → G !! m = Y !! m) ∧
    list_to_map l' ∪ G = Y' ∧ acc = (Z.of_nat (size G) - Z.of_nat (size Y), zbytes G) ∧
    (size Y ≤ size G)%nat)).
  - split_and!; [done..|]. exists Y. split_and!; try done. f_equal. lia.
  - intros [m s] l' acc w' (-> & Hnd' & G & HG & E & -> & Hle). apply NoDup_cons in Hnd' as [Hnin Hnd'].
    unfold zadd_account. eapply wp_unwrap; [apply zmember_ok|]. wp_op. cbn [fst snd].
    rewrite <-lookup_rows_at, HR, lookup_zrows, <-(HG m) by (by left).
    rewrite (union_entry m s l' G Hnin) in E.
    pose proof (zbytes_insert G m s) as Hzb. pose proof (zsize_insert G m s) as Hzs.
    destruct (zbytes_union_ge (list_to_map l') (<[m := s]> G)) as [Hge1 Hge2]. rewrite E in Hge1, Hge2.
    pose proof (zbytes_nonneg G).
    assert (Hrest : ∀ m', m' ∈ l'.*1 → <[m := s]> G !! m' = Y !! m').
    { intros m' Hm'. rewrite lookup_insert_ne by (by intros <-). apply HG. by right. }
    destruct (G !! m) as [s0|] eqn:Em; cbn [fmap option_fmap option_map]; wp_op;
      (split_and!; [done..|]); exists (<[m := s]> G); (split_and!; [done..| |lia]); cbn [fst snd].
    + f_equal; lia.
    + unfold member_cost. rewrite (wrap_id 64 (len m + 8)) by (unfold in_width; lia).
      rewrite !wrap_id by (unfold in_width; lia). f_equal; lia.
  - intros acc w' (-> & _ & G & _ & E & -> & _). cbn in E. rewrite (left_id_L ∅ (∪)) in E. by subst G.
Qed.

(** One entry written, by ZADD's two loops alike. *)
Lemma wp_zwrite_turn (p : bytes * Z) v Y w w' Q :
  in_width 64 v → v <= w_last w → score_ok p.2 → zwritten v Y w w' →
  (∀ w'', zwritten v (<[p.1 := p.2]> Y) w w'' → Q tt w'') →
  wp (zadd_write st slot key v p) w' Q.
Proof.
  destruct p as [m s]. cbn [fst snd]. intros Hv Hle Hs Hz HQ. unfold zadd_write. cbn [fst snd].
  eapply wp_unwrap; [apply zmember_ok|]. wp_op. rewrite (zwritten_lookup _ _ _ _ _ Hz).
  pose proof (zwritten_set v Y m s w w' Hv Hle Hs Hz) as Hz'. unfold zset_row in Hz'.
  apply wp_bind. destruct (Y !! m) as [s0|] eqn:Em; cbn [fmap option_fmap option_map].
  - rewrite f64_le_round_trip by (eapply zwf_lookup; [apply Hz|done]).
    destruct (s0 =? s).
    + wp_op. wp_op. eapply wp_unwrap; [apply zindex_ok|]. apply wp_last_put. by apply HQ.
    + eapply wp_unwrap; [apply zindex_ok|]. wp_op. wp_op. wp_op.
      eapply wp_unwrap; [apply zindex_ok|]. apply wp_last_put. by apply HQ.
  - wp_op. wp_op. eapply wp_unwrap; [apply zindex_ok|]. apply wp_last_put. by apply HQ.
Qed.

(** A loop that writes the entries of a list leaves them over the set. *)
Lemma wp_zwrite_loop (body : bytes * Z → prog unit) l v Y0 w Q :
  NoDup l.*1 → zwritten v Y0 w w →
  (∀ p Y w', p ∈ l → zwritten v Y w w' → Y !! p.1 = Y0 !! p.1 →
     wp (body p) w' (λ _ w'', zwritten v (<[p.1 := p.2]> Y) w w'')) →
  (∀ w', zwritten v (list_to_map l ∪ Y0) w w' → Q tt w') →
  wp (for_ l body) w Q.
Proof.
  intros Hnd Hz Hbody HQ.
  apply (wp_for (λ l' w', NoDup l'.*1 ∧ l' ⊆ l ∧ ∃ Y, zwritten v Y w w' ∧
    (∀ m, m ∈ l'.*1 → Y !! m = Y0 !! m) ∧ list_to_map l' ∪ Y = (list_to_map l ∪ Y0 : zset))).
  - split_and!; [done..|]. by exists Y0.
  - intros [m s] l' w' (Hnd' & Hsub & Y & HY & Hsame & E). apply NoDup_cons in Hnd' as [Hnin Hnd'].
    eapply wp_conseq; [apply (Hbody _ Y); [apply Hsub; by left|done|apply Hsame; by left]|].
    intros [] w'' Hw''. split_and!; [done| |].
    { intros q Hq. apply Hsub. by right. }
    exists (<[m := s]> Y). split_and!; [done| |].
    + intros m' Hm'. rewrite lookup_insert_ne by (by intros <-). apply Hsame. by right.
    + rewrite <-E. symmetry. by apply union_entry.
  - intros w' (_ & _ & Y & HY & _ & E). apply HQ. rewrite <-E. cbn. by rewrite (left_id_L ∅ (∪)).
Qed.

Lemma u32_grown n n' : 0 <= n <= n' → n' < 2 ^ 32 → u32 (n + u32 (n' - n)) = n'.
Proof.
  intros. rewrite (wrap_id 32 (n' - n)) by (unfold in_width; lia).
  rewrite wrap_id by (unfold in_width; lia). lia.
Qed.

Lemma stored_score_ok s : score_ok s → score_ok (stored_score s).
Proof. intros. unfold stored_score. by case_match. Qed.

Lemma stored_score_width s : in_width 64 s → in_width 64 (stored_score s).
Proof. intros. unfold stored_score. by destruct (f64_eq _ _). Qed.

Lemma zadd_unique_ok pairs : Forall (λ p : Z * bytes, score_ok p.1) pairs → zwf (zadd_unique pairs).
Proof.
  unfold zadd_unique. intros H. cut (∀ U, zwf U → zwf (foldl (λ u (p : Z * bytes), <[p.2 := stored_score p.1]> u) U pairs)).
  { intros H'. apply H', map_Forall_empty. }
  induction H as [|p pairs Hp H IH]; intros U HU; [done|]. cbn. apply IH, zwf_insert; [done|].
  by apply stored_score_ok.
Qed.

Lemma zadd_unique_nonempty pairs Y : pairs ≠ [] → zadd_unique pairs ∪ Y ≠ ∅.
Proof.
  intros Hne E. assert (zadd_unique pairs = ∅) as E'.
  { apply map_eq. intros m. rewrite lookup_empty. destruct (zadd_unique pairs !! m) as [s|] eqn:Es; [|done].
    assert ((zadd_unique pairs ∪ Y) !! m = Some s) as E2 by (by apply lookup_union_Some_l).
    by rewrite E in E2. }
  unfold zadd_unique in E'. destruct pairs as [|p pairs _] using rev_ind; [done|].
  rewrite foldl_app in E'. cbn in E'. by apply insert_non_empty in E'.
Qed.

Lemma hash_iter_elem (U : zset) p : p ∈ hash_iter U ↔ U !! p.1 = Some p.2.
Proof. rewrite hash_iter_perm. destruct p. apply elem_of_map_to_list. Qed.

Lemma zmakes_keeps H w w' Y : H = Some Y → zmakes H Y w w' → zturns H H w w'.
Proof. intros -> Hm now Hnow. apply Hm. by right. Qed.

Lemma wp_zadd pairs H Y' w Q :
  let Y := members H in
  Y' = zadd_unique pairs ∪ Y →
  env_ok w → headroom w → zrepr a (w_clock w 0%nat) (w_kv w) H →
  pairs ≠ [] → Forall (λ p : Z * bytes, score_ok p.1) pairs →
  zbytes Y' < 2 ^ 64 → Z.of_nat (size Y') < 2 ^ 32 →
  (∀ r w', effect a w w' →
     (if st_max st <? zbytes Y' then r = Err ValueTooLarge ∧ zturns H H w w'
      else r = Ok (Z.of_nat (size Y') - Z.of_nat (size Y)) ∧ zmakes H Y' w w') → Q r w') →
  wp (zadd st slot key pairs) w Q.
Proof.
  intros Y EY' Henv Hroom HH Hne Hok Hb Hs HQ. unfold zadd. apply wp_try.
  apply (wp_zmeta_or_new H); [done..|]. intros meta w1 Ho. apply wp_bind.
  pose proof (zop_written _ _ _ _ Ho) as Hz. pose proof (zadd_unique_ok pairs Hok) as HU.
  rewrite (zop_bytes _ _ _ _ Ho). fold Y in Hz |- *.
  apply (wp_zadd_account _ (c_version meta) Y Y'); [apply NoDup_hash_iter|apply Hz| |done..|].
  { by rewrite list_to_map_hash_iter. }
  pose proof (zbytes_union_ge (zadd_unique pairs) Y) as [_ Hge]. rewrite <-EY' in Hge.
  pose proof (zbytes_nonneg Y').
  destruct (st_max st <? zbytes Y').
  { wp_op. apply HQ; [apply Ho|]. split; [done|]. intros now Hnow. by apply (zop_keeps _ _ _ _ Ho). }
  apply wp_bind. apply (wp_zwrite_loop _ _ (c_version meta) Y); [apply NoDup_hash_iter|done| |].
  { intros p Yc w' Hp HYc _.
    apply (wp_zwrite_turn p (c_version meta) Yc w1); [apply Ho|apply Ho| |done|done].
    apply hash_iter_elem in Hp. by apply HU in Hp. }
  rewrite list_to_map_hash_iter, <-EY'. intros w2 Hz2. wp_op. wp_op. wp_op.
  assert (Y' ≠ ∅) by (subst Y'; by apply zadd_unique_nonempty).
  apply (zclose H w meta w1 Y' w2); try done.
  - rewrite (zop_size _ _ _ _ Ho). apply u32_grown; [lia|done].
  - by apply wrap_in_width.
  - intros w' He Hm. apply HQ; [done|]. by split.
Qed.

Lemma zadd_unique_one (m : bytes) (s : Z) (Y : zset) : zadd_unique [(s, m)] ∪ Y = <[m := stored_score s]> Y.
Proof. unfold zadd_unique. cbn. rewrite (insert_union_singleton_l Y m). done. Qed.

(** ** ZSCORE, ZCARD and the sizes *)

Lemma wp_zscore m H w Q :
  env_ok w → zrepr a (w_clock w 0%nat) (w_kv w) H →
  (∀ w', zread_only H w w' → Q (Ok (members H !! m)) w') →
  wp (zscore st slot key m) w Q.
Proof.
  intros Henv HH HQ. unfold zscore. apply wp_try. apply (wp_zread H); [done..|].
  intros [meta|] w1 Hro Hread.
  - destruct Hread as (Y & -> & Hne & (Hm & Hi & Hwf)). eapply wp_unwrap; [apply zmember_ok|].
    wp_op. wp_op. rewrite (holds_lookup _ _ _ _ _ _ _ _ Hm), lookup_zrows.
    specialize (HQ w1 Hro). cbn [members] in HQ. destruct (Y !! m) as [s|] eqn:E; [|done].
    cbn [fmap option_fmap option_map]. rewrite f64_le_round_trip; [done|]. by eapply zwf_lookup.
  - cbn in Hread. subst H. wp_op. by apply HQ.
Qed.

(** The metadata's columns are the set's. *)
Lemma zread_columns H now kv o :
  zread_as H now kv o →
  match o with
  | None => members H = ∅
  | Some meta => c_size meta = Z.of_nat (size (members H)) ∧ c_bytes meta = zbytes (members H) ∧
      0 < c_size meta < 2 ^ 32 ∧ 0 <= c_bytes meta < 2 ^ 64
  end ∧ (o = None ↔ H = None).
Proof.
  destruct o as [meta|]; cbn; [|by intros ->].
  intros (Y & -> & Hne & (Hm & _)). split; [|done]. cbn [members].
  destruct (holds_widths _ _ _ _ _ _ _ Hm) as (Hs & Hb & _). destruct Hm as (_ & _ & -> & ->).
  rewrite size_zrows in *. unfold in_width in *.
  assert (size Y ≠ 0%nat) by (by intros ?%map_size_empty_inv). split_and!; (done || lia).
Qed.

Lemma wp_zcard H w Q :
  env_ok w → zrepr a (w_clock w 0%nat) (w_kv w) H →
  (∀ w', zread_only H w w' → Q (Ok (Z.of_nat (size (members H)))) w') →
  wp (zcard st slot key) w Q.
Proof.
  intros Henv HH HQ. unfold zcard. apply wp_try. apply (wp_zread H); [done..|].
  intros o w1 Hro Hread. apply zread_columns in Hread as [Hc _]. wp_op.
  destruct o as [meta|].
  - destruct Hc as (-> & _). by apply HQ.
  - specialize (HQ w1 Hro). rewrite Hc in HQ. exact HQ.
Qed.

(** ** ZINCRBY *)

Definition zincr_next (o : option Z) (delta : Z) : Z :=
  match o with None => delta | Some c => f64_add c delta end.

Lemma wp_zincr_by delta m H w Q :
  let Y := members H in
  let next := zincr_next (Y !! m) delta in
  let Y' := <[m := stored_score next]> Y in
  env_ok w → headroom w → zheld H w → in_width 64 delta →
  zbytes Y + len m + 8 < 2 ^ 64 → Z.of_nat (size Y) + 1 < 2 ^ 32 →
  (∀ r w', effect a w w' →
     (if f64_is_nan next then r = Err NanScore ∧ zturns H H w w'
      else if st_max st <? zbytes Y' then r = Err ValueTooLarge ∧ zturns H H w w'
      else r = Ok next ∧ zmakes H Y' w w') → Q r w') →
  wp (zincr_by st slot key delta m) w Q.
Proof.
  intros Y next Y' Henv Hroom HH Hd Hb Hs HQ. unfold zincr_by. apply wp_try.
  apply (wp_zscore m H); [done|apply HH|]. intros w1 Hro. fold Y. fold (zincr_next (Y !! m) delta). fold next.
  cbv zeta. destruct (f64_is_nan next) eqn:En.
  { wp_op. apply HQ; [apply Hro|]. split; [done|]. by apply zread_turns. }
  assert (Hok : score_ok next).
  { split; [|done]. unfold next, zincr_next. destruct (Y !! m); [apply f64_add_width|done]. }
  clearbody next. pose proof (zbytes_insert Y m (stored_score next)). fold Y' in H0.
  pose proof (zsize_insert Y m (stored_score next)). fold Y' in H1.
  apply wp_try. apply (wp_zadd [(next, m)] H Y'); try done.
  - symmetry. apply zadd_unique_one.
  - apply Hro.
  - unfold headroom. by rewrite (zr_last _ _ _ Hro).
  - by apply (zheld_after H w w1).
  - by constructor.
  - destruct (Y !! m); lia.
  - destruct (Y !! m); lia.
  - intros r w2 He Hr. assert (effect a w w2) by (eapply effect_trans; [apply Hro|done]).
    destruct (st_max st <? zbytes Y') eqn:Ec; destruct Hr as [-> Hr].
    + apply HQ; [done|]. split; [done|]. by eapply zturns_after.
    + wp_op. apply HQ; [done|]. split; [done|]. by eapply zmakes_after.
Qed.

(** ** ZADD with flags *)

(** One pair on the set, as ZADD's flags say. *)
Definition zadd_one (flags : ZaddFlags) (acc : zset * ZaddOutcome) (p : Z * bytes)
    : result (zset * ZaddOutcome) :=
  let '(Y, out) := acc in
  let '(score, member) := p in
  match Y !! member with
  | Some current =>
      if nx flags then Ok acc
      else
        let next := stored_score (if incr flags then f64_add current score else score) in
        if f64_is_nan next then Err NanScore
        else if (lt flags && f64_le current next) || (gt flags && f64_le next current) then Ok acc
        else if f64_eq next current then
          Ok (Y, mkZaddOutcome (zo_added out) (zo_updated out) (Some next))
        else
          Ok (<[member := next]> Y, mkZaddOutcome (zo_added out) (zo_updated out + 1) (Some next))
  | None =>
      if xx flags then Ok acc
      else Ok (<[member := stored_score score]> Y,
               mkZaddOutcome (zo_added out + 1) (zo_updated out) (Some score))
  end.

(** The pairs in order, each on what the ones before it left. *)
Fixpoint zadd_all (flags : ZaddFlags) (acc : zset * ZaddOutcome) (pairs : list (Z * bytes))
    : result (zset * ZaddOutcome) :=
  match pairs with
  | [] => Ok acc
  | p :: pairs => match zadd_one flags acc p with Ok acc' => zadd_all flags acc' pairs | Err e => Err e end
  end.

Definition no_outcome : ZaddOutcome := mkZaddOutcome 0 0 None.

(** The call's two maps against the set: what was stored, and the set as the
    pairs so far leave it. *)
Record zsim (Y0 : zset) (n : Z) (s : zadd_state) (Y : zset) (out : ZaddOutcome) : Prop := {
  zs_as_stored m o : zs_stored s !! m = Some o → o = Y0 !! m;
  zs_touched m : is_Some (zs_now s !! m) → is_Some (zs_stored s !! m);
  zs_set : Y = zs_now s ∪ Y0;
  zs_same_out : zs_out s = out;
  zs_wf : zwf (zs_now s);
  zs_added : zo_added out = Z.of_nat (size Y) - Z.of_nat (size Y0);
  zs_count : 0 <= zo_added out ∧ 0 <= zo_updated out ∧ zo_added out + zo_updated out <= n
}.

Lemma zsim_current Y0 n s Y out m :
  zsim Y0 n s Y out →
  (match zs_now s !! m with Some c => Some c | None => Y0 !! m end) = Y !! m.
Proof. intros Hs. rewrite (zs_set _ _ _ _ _ Hs), lookup_union. by destruct (_ !! m), (Y0 !! m). Qed.

(** Reading a member's stored score on its first mention. *)
Definition entry_of (Y0 : zset) (s : zadd_state) (m : bytes) : gmap bytes (option Z) :=
  match zs_stored s !! m with Some _ => zs_stored s | None => <[m := Y0 !! m]> (zs_stored s) end.

Lemma entry_of_ok Y0 n s Y out m :
  zsim Y0 n s Y out →
  entry_of Y0 s m !! m = Some (Y0 !! m) ∧
  zsim Y0 n (mkZaddState (entry_of Y0 s m) (zs_now s) (zs_out s)) Y out.
Proof.
  intros [Hst Ht HY Ho Hwf Ha' Hc]. unfold entry_of. destruct (zs_stored s !! m) as [o|] eqn:E.
  - pose proof E as E'. apply Hst in E' as ->. split; [done|]. by constructor.
  - split; [by rewrite lookup_insert_eq|]. constructor; cbn; try done.
    + intros m' o [[<- <-]|[_ ?]]%lookup_insert_Some; [done|auto].
    + intros m' Hm'%Ht. destruct (decide (m = m')) as [<-|?].
      * by rewrite lookup_insert_eq.
      * by rewrite lookup_insert_ne.
Qed.

(** Setting a member in the call's map sets it in the set. *)
Lemma zsim_insert Y0 n s Y out m next score' updated' :
  zsim Y0 n s Y out → is_Some (zs_stored s !! m) → score_ok next →
  (if decide (is_Some (Y !! m)) then updated' = zo_updated out + 1 else updated' = zo_updated out) →
  let out' := mkZaddOutcome (zo_added out + match Y !! m with Some _ => 0 | None => 1 end) updated' score' in
  zsim Y0 (n + 1) (mkZaddState (zs_stored s) (<[m := next]> (zs_now s)) out') (<[m := next]> Y) out'.
Proof.
  intros [Hst Ht HY Ho Hwf Ha' Hc] Hm Hok Hu out'. constructor; cbn; try done.
  - intros m'. destruct (decide (m = m')) as [<-|?]; [done|]. rewrite lookup_insert_ne by done. apply Ht.
  - by rewrite HY, insert_union_l.
  - by apply zwf_insert.
  - rewrite zsize_insert. lia.
  - destruct (Y !! m); [rewrite decide_True in Hu by eauto|rewrite decide_False in Hu by (by intros [])]; lia.
Qed.

Lemma zsim_weaken Y0 n n' s Y out : zsim Y0 n s Y out → n <= n' → zsim Y0 n' s Y out.
Proof. intros [] ?. constructor; try done. lia. Qed.

Lemma zsim_answer Y0 n s Y out score' :
  zsim Y0 n s Y out →
  let out' := mkZaddOutcome (zo_added out) (zo_updated out) score' in
  zsim Y0 n (mkZaddState (zs_stored s) (zs_now s) out') Y out'.
Proof. intros []. by constructor. Qed.

Lemma wp_zadd_step flags v Y0 n s Y out score m w Q :
  rows_at Subkey a v (w_kv w) = zrows Y0 → zwf Y0 → zsim Y0 n s Y out → n + 1 < 2 ^ 64 →
  score_ok score →
  (∀ r, match zadd_one flags (Y, out) (score, m) with
        | Err e => r = Err e
        | Ok (Y', out') => ∃ s', r = Ok s' ∧ zsim Y0 (n + 1) s' Y' out'
        end → Q r w) →
  wp (zadd_step st slot key flags v s (score, m)) w Q.
Proof.
  intros HR HY0 Hsim Hn Hok HQ. unfold zadd_step. apply wp_bind.
  assert (Hst : wp match zs_stored s !! m with
      | Some _ => Ret (zs_stored s)
      | None => mk <- unwrap (member_key st slot key v m) ;; o <- kvget mk ;;
                Ret (<[m := f64_from_le <$> o]> (zs_stored s))
      end w (λ stored w', w' = w ∧ stored = entry_of Y0 s m)).
  { unfold entry_of. destruct (zs_stored s !! m); [by wp_op|].
    eapply wp_unwrap; [apply zmember_ok|]. wp_op. wp_op. split; [done|]. f_equal.
    rewrite <-lookup_rows_at, HR, lookup_zrows. destruct (Y0 !! m) as [s0|] eqn:E; [|done].
    cbn [fmap option_fmap option_map]. rewrite f64_le_round_trip; [done|]. by eapply zwf_lookup. }
  eapply wp_conseq; [exact Hst|]. intros stored w' [-> ->]. clear Hst.
  destruct (entry_of_ok _ _ _ _ _ m Hsim) as [Hentry Hsim1].
  rewrite Hentry. cbn [default id from_option]. cbv zeta. rewrite (zsim_current _ _ _ _ _ m Hsim).
  set (s1 := mkZaddState (entry_of Y0 s m) (zs_now s) (zs_out s)) in *.
  assert (Hm1 : is_Some (zs_stored s1 !! m)) by (cbn; by rewrite Hentry).
  change (entry_of Y0 s m) with (zs_stored s1). change (zs_now s) with (zs_now s1).
  replace (zs_out s) with out by (symmetry; apply Hsim). clearbody s1. cbn [zadd_one] in HQ.
  assert (Hkeep : zsim Y0 (n + 1) s1 Y out) by (apply (zsim_weaken Y0 n); [done|lia]).
  pose proof (zs_count _ _ _ _ _ Hsim) as (? & ? & ?).
  destruct (Y !! m) as [current|] eqn:Ecur.
  - destruct (nx flags); [wp_op; apply HQ; by eexists|]. cbv zeta in HQ |- *.
    set (next := stored_score (if incr flags then f64_add current score else score)) in *.
    destruct (f64_is_nan next) eqn:En; [wp_op; by apply HQ|].
    destruct (_ || _); [wp_op; apply HQ; by eexists|].
    destruct (f64_eq _ _); wp_op; apply HQ; eexists; (split; [done|]).
    + eapply zsim_weaken; [by apply (zsim_answer _ _ _ _ out)|lia].
    + rewrite wrap_id by (unfold in_width; lia).
      pose proof (zsim_insert Y0 n s1 Y out m next (Some next) (zo_updated out + 1) Hsim1 Hm1) as Hi.
      rewrite Ecur, Z.add_0_r in Hi. apply Hi; [|destruct (decide _) as [|[]]; by eauto].
      split; [|done]. apply stored_score_width. destruct (incr flags); [apply f64_add_width|apply Hok].
  - destruct (xx flags); wp_op; apply HQ; eexists; (split; [done|]); [done|].
    rewrite wrap_id by (unfold in_width; lia).
    pose proof (zsim_insert Y0 n s1 Y out m (stored_score score) (Some score) (zo_updated out) Hsim1 Hm1) as Hi.
    rewrite Ecur in Hi. apply Hi; [by apply stored_score_ok|]. rewrite decide_False; [done|by intros []].
Qed.

Lemma wp_zadd_loop flags v Y0 pairs n s Y out w Q :
  rows_at Subkey a v (w_kv w) = zrows Y0 → zwf Y0 → zsim Y0 n s Y out →
  n + len pairs < 2 ^ 64 → Forall (λ p : Z * bytes, score_ok p.1) pairs →
  (∀ r, match zadd_all flags (Y, out) pairs with
        | Err e => r = Err e
        | Ok (Y', out') => ∃ s', r = Ok s' ∧ zsim Y0 (n + len pairs) s' Y' out'
        end → Q r w) →
  wp (zadd_loop st slot key flags v pairs s) w Q.
Proof.
  intros HR HY0. revert n s Y out. induction pairs as [|[score m] pairs IH]; intros n s Y out Hsim Hn Hok HQ.
  - apply wp_ret. apply HQ. cbn. exists s. split; [done|]. by rewrite Z.add_0_r.
  - inversion Hok as [|? ? Hs Hok']; subst. cbn [zadd_loop zadd_all length] in *.
    apply wp_try. apply (wp_zadd_step flags v Y0 n s Y out); [done..|lia|done|].
    intros r Hr. destruct (zadd_one flags (Y, out) (score, m)) as [[Y' out']|e].
    + destruct Hr as (s' & -> & Hs'). apply (IH (n + 1) s' Y' out'); [done|lia|done|].
      intros r Hr. apply HQ. destruct (zadd_all flags (Y', out') pairs) as [[Y2 out2]|e]; [|done].
      destruct Hr as (s2 & -> & Hs2). exists s2. split; [done|].
      eapply zsim_weaken; [done|lia].
    + subst r. by apply HQ.
Qed.

Lemma zadd_new_bytes_spec Y0 n s Y out :
  zsim Y0 n s Y out → zbytes Y < 2 ^ 64 → zadd_new_bytes s = zbytes Y - zbytes Y0.
Proof.
  intros Hs Hb. unfold zadd_new_bytes. pose proof (NoDup_hash_iter (zs_now s)) as Hnd.
  assert (Hst : ∀ p, p ∈ hash_iter (zs_now s) → zs_stored s !! p.1 = Some (Y0 !! p.1)).
  { intros p Hp%hash_iter_elem. destruct (zs_touched _ _ _ _ _ Hs p.1) as [o Eo]; [by eexists|].
    rewrite Eo. f_equal. by apply (zs_as_stored _ _ _ _ _ Hs). }
  assert (EY : list_to_map (hash_iter (zs_now s)) ∪ Y0 = Y).
  { rewrite list_to_map_hash_iter. symmetry. apply Hs. }
  revert Hnd Hst EY. generalize (hash_iter (zs_now s)). intros l.
  cut (∀ acc G, NoDup l.*1 → (∀ p, p ∈ l → zs_stored s !! p.1 = Some (G !! p.1)) →
    list_to_map l ∪ G = Y → 0 <= acc → acc + zbytes Y - zbytes G < 2 ^ 64 →
    foldl (λ acc p, match zs_stored s !! p.1 with Some (Some _) => acc
                    | _ => u64 (acc + member_cost p.1) end) acc l = acc + (zbytes Y - zbytes G)).
  { intros H Hnd Hst EY. rewrite (H 0 Y0); [lia|done..|]. pose proof (zbytes_nonneg Y0). lia. }
  induction l as [|[m sc] l IH]; intros acc G Hnd Hst E Hacc Hlt.
  { cbn in E |- *. rewrite (left_id_L ∅ (∪)) in E. subst G. lia. }
  apply NoDup_cons in Hnd as [Hnin Hnd]. rewrite union_entry in E by done.
  pose proof (zbytes_insert G m sc) as Hzb.
  destruct (zbytes_union_ge (list_to_map l) (<[m := sc]> G)) as [Hge _]. rewrite E in Hge.
  assert (Hst' : ∀ p, p ∈ l → zs_stored s !! p.1 = Some (<[m := sc]> G !! p.1)).
  { intros p Hp. rewrite lookup_insert_ne; [apply Hst; by right|]. intros E'. apply Hnin. cbn [fst]. rewrite E'. by apply (list_elem_of_fmap_2 fst). }
  pose proof (Hst (m, sc) ltac:(by left)) as Hm. cbn [foldl fst] in Hm |- *. rewrite Hm.
  destruct (G !! m); cbn [fst].
  - rewrite (IH acc (<[m := sc]> G)); try done; lia.
  - unfold member_cost. rewrite (wrap_id 64 (len m + 8)) by (unfold in_width; lia).
    rewrite wrap_id by (unfold in_width; lia). rewrite (IH _ (<[m := sc]> G)); try done; lia.
Qed.

Lemma wp_zadd_with_turn stored (p : bytes * Z) v Y w w' Q :
  in_width 64 v → v <= w_last w → score_ok p.2 → zwritten v Y w w' →
  stored !! p.1 = Some (Y !! p.1) →
  (∀ w'', zwritten v (<[p.1 := p.2]> Y) w w'' → Q tt w'') →
  wp (zadd_with_write st slot key v stored p) w' Q.
Proof.
  destruct p as [m s]. cbn [fst snd]. intros Hv Hle Hs Hz Hst HQ. unfold zadd_with_write. cbn [fst snd].
  eapply wp_unwrap; [done|]. cbv zeta.
  pose proof (zwritten_set v Y m s w w' Hv Hle Hs Hz) as Hz'. unfold zset_row in Hz'.
  destruct (Y !! m) as [s0|] eqn:Em.
  - destruct (Z.eqb_spec s0 s) as [->|Hne].
    + wp_op. apply HQ. by rewrite insert_id.
    + eapply wp_unwrap; [apply zindex_ok|]. wp_op. eapply wp_unwrap; [apply zmember_ok|]. wp_op.
      eapply wp_unwrap; [apply zindex_ok|]. apply wp_last_put. by apply HQ.
  - eapply wp_unwrap; [apply zmember_ok|]. wp_op.
    eapply wp_unwrap; [apply zindex_ok|]. apply wp_last_put. by apply HQ.
Qed.

(** What ZADD with flags answers, and what it leaves. *)
Definition zadd_done (H : option zset) (flags : ZaddFlags) (pairs : list (Z * bytes))
    (w : world kvmap) (r : result ZaddOutcome) (w' : world kvmap) : Prop :=
  match zadd_all flags (members H, no_outcome) pairs with
  | Err e => r = Err e ∧ zturns H H w w'
  | Ok (Y', out) =>
      if st_max st <? zbytes Y' then r = Err ValueTooLarge ∧ zturns H H w w'
      else r = Ok out ∧ if decide (Y' = ∅) then zturns H H w w' else zmakes H Y' w w'
  end.

Lemma zsim_start Y0 : zsim Y0 0 (mkZaddState ∅ ∅ no_outcome) Y0 no_outcome.
Proof.
  constructor; cbn; try done.
  - intros m [? ?]. done.
  - by rewrite (left_id_L ∅ (∪)).
  - lia.
Qed.

(** The rest of the call, the set opened. *)
Lemma wp_zadd_with_open flags pairs H w meta w1 Q :
  zopened H w meta w1 → zbytes (members H) <= st_max st →
  len pairs < 2 ^ 64 → Forall (λ p : Z * bytes, score_ok p.1) pairs →
  (∀ Y' out, zadd_all flags (members H, no_outcome) pairs = Ok (Y', out) →
     zbytes Y' < 2 ^ 64 ∧ Z.of_nat (size Y') < 2 ^ 32) →
  (∀ r w', effect a w w' → zadd_done H flags pairs w r w' → Q r w') →
  wp (s <-? zadd_loop st slot key flags (c_version meta) pairs (mkZaddState ∅ ∅ no_outcome) ;;
      if bool_decide (zs_now s = ∅) then Ret (Ok (zs_out s))
      else
        let bytes := u64 (c_bytes meta + zadd_new_bytes s) in
        if st_max st <? bytes then Ret (Err ValueTooLarge)
        else
          for_ (hash_iter (zs_now s)) (zadd_with_write st slot key (c_version meta) (zs_stored s)) ;;;
          now <- clock ;;
          kvput (meta_key st slot key) (ComplexMeta_encode
            (resized meta (u32 (c_size meta + u32 (zo_added (zs_out s)))) bytes now)) ;;;
          Ret (Ok (zs_out s))) w1 Q.
Proof.
  intros Ho Hcap Hn Hok Hfit HQ. unfold zadd_done in HQ.
  pose proof (zop_written _ _ _ _ Ho) as Hz. set (Y0 := members H) in *.
  assert (Hkeep : zturns H H w w1) by (intros now; apply (zop_keeps _ _ _ _ Ho)).
  apply wp_try. apply (wp_zadd_loop flags (c_version meta) Y0 pairs 0 _ Y0 no_outcome);
    [apply Hz|apply Hz|apply zsim_start|lia|done|]. intros r Hr.
  destruct (zadd_all flags (Y0, no_outcome) pairs) as [[Y' out]|e].
  2:{ subst r. apply HQ; [apply Ho|]. done. }
  destruct Hr as (s & -> & Hs). destruct (Hfit Y' out eq_refl) as [Hb Hsz]. rewrite (zs_same_out _ _ _ _ _ Hs).
  pose proof (zs_set _ _ _ _ _ Hs) as EY'.
  destruct (zbytes_union_ge (zs_now s) Y0) as [Hge Hge']. rewrite <-EY' in Hge, Hge'.
  case_bool_decide as Hnow.
  { rewrite Hnow, (left_id_L ∅ (∪)) in EY'. subst Y'. wp_op. apply HQ; [apply Ho|].
    rewrite (proj2 (Z.ltb_ge _ _)) by done. split; [done|]. case_decide as E; [done|].
    intros now [->|Hl]; [done|]. unfold Y0. destruct H; [by apply Hkeep|done]. }
  cbv zeta. rewrite (zop_bytes _ _ _ _ Ho), (zadd_new_bytes_spec _ _ _ _ _ Hs Hb).
  replace (zbytes (members H) + (zbytes Y' - zbytes Y0)) with (zbytes Y') by (unfold Y0; lia).
  pose proof (zbytes_nonneg Y0). rewrite (wrap_id 64 (zbytes Y')) by (unfold in_width; lia).
  destruct (st_max st <? zbytes Y'); [wp_op; apply HQ; [apply Ho|]; done|].
  assert (HneY' : Y' ≠ ∅).
  { intros ->. apply map_choose in Hnow as (m & sc & Hm). symmetry in EY'.
    apply (f_equal (lookup m)) in EY'.
    rewrite lookup_union, Hm, lookup_empty in EY'. by destruct (Y0 !! m). }
  apply wp_bind. apply (wp_zwrite_loop _ _ (c_version meta) Y0); [apply NoDup_hash_iter|done| |].
  { intros p Yc w' Hp HYc Esame. apply hash_iter_elem in Hp.
    apply (wp_zadd_with_turn (zs_stored s) p (c_version meta) Yc w1); [apply Ho|apply Ho| |done| |done].
    - by apply (zs_wf _ _ _ _ _ Hs) in Hp.
    - destruct (zs_touched _ _ _ _ _ Hs p.1) as [o Eo]; [by eexists|].
      rewrite Eo, Esame. f_equal. by apply (zs_as_stored _ _ _ _ _ Hs). }
  rewrite list_to_map_hash_iter, <-EY'. intros w2 Hz2. wp_op. wp_op. wp_op.
  apply (zclose H w meta w1 Y' w2); try done.
  - rewrite (zop_size _ _ _ _ Ho), (zs_added _ _ _ _ _ Hs). apply u32_grown; [unfold Y0 in *; lia|done].
  - by apply wrap_in_width.
  - unfold in_width. lia.
  - intros w' He Hm. apply HQ; [done|]. split; [done|]. by rewrite decide_False.
Qed.

Lemma zadd_all_xx pairs flags : xx flags = true → zadd_all flags (∅, no_outcome) pairs = Ok (∅, no_outcome).
Proof. intros Hx. induction pairs as [|[sc m] pairs IH]; [done|]. cbn. by rewrite Hx. Qed.

Lemma wp_zadd_with flags pairs H w Q :
  env_ok w → headroom w → zrepr a (w_clock w 0%nat) (w_kv w) H →
  zbytes (members H) <= st_max st → len pairs < 2 ^ 64 →
  Forall (λ p : Z * bytes, score_ok p.1) pairs →
  (∀ Y' out, zadd_all flags (members H, no_outcome) pairs = Ok (Y', out) →
     zbytes Y' < 2 ^ 64 ∧ Z.of_nat (size Y') < 2 ^ 32) →
  (∀ r w', effect a w w' → zadd_done H flags pairs w r w' → Q r w') →
  wp (zadd_with st slot key pairs flags) w Q.
Proof.
  intros Henv Hroom HH Hcap Hn Hok Hfit HQ. unfold zadd_with. cbv zeta. apply wp_try.
  apply (wp_zread H); [done..|]. intros [meta|] w1 Hro Hread; cbn [zread_as] in Hread.
  - destruct Hread as (Y & -> & Hne & Hm). rewrite bool_decide_eq_false_2 by done. cbn [andb]. apply wp_bind, wp_ret.
    apply (wp_zadd_with_open flags pairs (Some Y) w meta w1); try done. by eapply zopened_found.
  - subst H. rewrite bool_decide_eq_true_2 by done. cbn [andb]. destruct (xx flags) eqn:Ex.
    { wp_op. apply HQ; [apply Hro|]. unfold zadd_done. cbn [members]. rewrite zadd_all_xx by done.
      rewrite (proj2 (Z.ltb_ge _ _)) by done. split; [done|]. rewrite decide_True by done.
      by apply zread_turns. }
    apply wp_bind. wp_op. wp_op. wp_op.
    apply (wp_zadd_with_open flags pairs None w); try done. by apply zopened_new.
Qed.

(** ** ZREM *)

Definition zwithout (ms : list bytes) (Y : zset) : zset := filter (λ p : bytes * Z, p.1 ∉ ms) Y.

Lemma lookup_zwithout ms Y m : zwithout ms Y !! m = if decide (m ∈ ms) then None else Y !! m.
Proof.
  unfold zwithout. rewrite map_lookup_filter. destruct (Y !! m) as [x|]; cbn.
  - case_decide; case_guard; done.
  - by case_decide.
Qed.

Lemma zwithout_nil Y : zwithout [] Y = Y.
Proof. apply map_eq. intros m. rewrite lookup_zwithout. case_decide; [set_solver|done]. Qed.

Lemma zwithout_cons m ms Y : zwithout ms (delete m Y) = zwithout (m :: ms) Y.
Proof.
  apply map_eq. intros k. rewrite !lookup_zwithout. destruct (decide (k = m)) as [->|Hne].
  - rewrite lookup_delete_eq. case_decide; (case_decide; set_solver).
  - rewrite lookup_delete_ne by done. repeat case_decide; set_solver.
Qed.

Lemma zwithout_wf ms Y : zwf Y → zwf (zwithout ms Y).
Proof. intros HY m s. rewrite lookup_zwithout. case_decide; [done|apply HY]. Qed.

Lemma zdelete_sizes (Y : zset) m s :
  Y !! m = Some s →
  Z.of_nat (size (delete m Y)) = Z.of_nat (size Y) - 1 ∧ zbytes Y = zbytes (delete m Y) + (len m + 8).
Proof.
  intros E. split.
  - rewrite <-!size_zrows, zrows_delete, size_delete, lookup_zrows, E. done.
  - unfold zbytes. rewrite zrows_delete, (weight_delete zweight (zrows Y) m (f64_to_le s)).
    + unfold zweight at 1. lia.
    + by rewrite lookup_zrows, E.
Qed.

(** The key a removal leaves: none without members. *)
Definition some_set (Y : zset) : option zset := if decide (Y = ∅) then None else Some Y.

Lemma wp_zrem_loop ms v Y w Q :
  in_width 64 v → zwritten v Y w w → Z.of_nat (size Y) < 2 ^ 32 → zbytes Y < 2 ^ 64 →
  (∀ w', zwritten v (zwithout ms Y) w w' → (size (zwithout ms Y) ≤ size Y)%nat →
     zbytes (zwithout ms Y) <= zbytes Y →
     Q (Z.of_nat (size Y) - Z.of_nat (size (zwithout ms Y)), zbytes (zwithout ms Y)) w') →
  wp (fold_ ms (zrem_member st slot key v) (0, zbytes Y)) w Q.
Proof.
  intros Hv Hz Hs Hb HQ.
  apply (wp_fold (λ ms' acc w', ∃ G, zwritten v G w w' ∧ zwithout ms' G = zwithout ms Y ∧
    acc = (Z.of_nat (size Y) - Z.of_nat (size G), zbytes G) ∧ (size G ≤ size Y)%nat ∧ zbytes G <= zbytes Y)).
  - exists Y. split_and!; try done. f_equal. lia.
  - intros m ms' acc w' (G & HG & E & -> & Hsz & Hbz). rewrite <-zwithout_cons in E.
    unfold zrem_member. eapply wp_unwrap; [apply zmember_ok|]. wp_op.
    rewrite (zwritten_lookup _ _ _ _ _ HG). destruct (G !! m) as [s|] eqn:Em; cbn [fmap option_fmap option_map].
    + wp_op. rewrite f64_le_round_trip by (eapply zwf_lookup; [apply HG|done]).
      eapply wp_unwrap; [apply zindex_ok|]. wp_op. wp_op. destruct (zdelete_sizes G m s Em) as [Hds Hdb].
      pose proof (zbytes_nonneg (delete m G)).
      exists (delete m G). split_and!; [exact (zwritten_delete v G m s w w' Hv Em HG)|done| |lia..]. cbn [fst snd].
      unfold member_cost. rewrite (wrap_id 64 (len m + 8)) by (unfold in_width; lia).
      rewrite wrap_id by (unfold in_width; lia). unfold saturating_sub. f_equal; lia.
    + wp_op. exists G. by rewrite delete_id in E.
  - intros acc w' (G & HG & E & -> & Hsz & Hbz). rewrite zwithout_nil in E. subst G. by apply HQ.
Qed.

(** The end of a removal: the metadata resized, or deleted with the last
    member. *)
Lemma wp_zfinish H w meta w1 Y' w2 Q :
  zopened H w meta w1 → zwritten (c_version meta) Y' w1 w2 →
  (size Y' ≤ size (members H))%nat → zbytes Y' <= zbytes (members H) →
  c_size meta < 2 ^ 32 → c_bytes meta < 2 ^ 64 →
  (∀ w', effect a w w' → zturns H (some_set Y') w w' →
     Q (Ok (Z.of_nat (size (members H)) - Z.of_nat (size Y'))) w') →
  wp (finish_removal st slot key meta (Z.of_nat (size (members H)) - Z.of_nat (size Y')) (zbytes Y')) w2 Q.
Proof.
  intros Ho Hw Hs Hb Hms Hmb HQ. unfold finish_removal. pose proof (zbytes_nonneg Y').
  rewrite (zop_size _ _ _ _ Ho) in *. rewrite (zop_bytes _ _ _ _ Ho) in *.
  rewrite (wrap_id 32 (_ - _)) by (unfold in_width; lia).
  replace (saturating_sub _ _) with (Z.of_nat (size Y')) by (unfold saturating_sub; lia).
  unfold some_set in HQ. destruct (Z.eqb_spec (Z.of_nat (size Y')) 0) as [E|E].
  - assert (Y' = ∅) by (apply map_size_empty_inv; lia). wp_op. wp_op. apply HQ.
    + eapply effect_trans; [apply Ho|]. eapply effect_trans; [by eapply zwritten_effect|].
      apply effect_with_kv; cbn; auto with flint. apply fresh_delete.
      rewrite (zw_world _ _ _ _ Hw). apply (zw_fresh _ _ _ _ Hw).
    + rewrite decide_True by done. intros now _. cbn. by rewrite lookup_delete_eq.
  - assert (Y' ≠ ∅) by (intros ->; by rewrite map_size_empty in E). wp_op. wp_op. wp_op.
    apply (zclose H w meta w1 Y' w2); try done; [unfold in_width; lia..|].
    intros w' He Hm. apply HQ; [done|]. rewrite decide_False by done. intros now Hnow. apply Hm. by right.
Qed.

Lemma wp_zrem ms H w Q :
  let Y := members H in
  let Y' := zwithout ms Y in
  env_ok w → zrepr a (w_clock w 0%nat) (w_kv w) H →
  (∀ w', effect a w w' → zturns H (some_set Y') w w' →
     Q (Ok (Z.of_nat (size Y) - Z.of_nat (size Y'))) w') →
  wp (zrem st slot key ms) w Q.
Proof.
  intros Y Y' Henv HH HQ. unfold zrem. apply wp_try. apply (wp_zread H); [done..|].
  intros [meta|] w1 Hro Hread; pose proof (zread_columns _ _ _ _ Hread) as [Hcol _]; cbn [zread_as] in Hread.
  - destruct Hread as (Y1 & -> & Hne & Hm). destruct Hcol as (Es & Eb & Hs & Hb).
    pose proof (zopened_found _ _ _ _ _ Hro Hne Hm) as Ho. pose proof (zop_written _ _ _ _ Ho) as Hz.
    apply wp_bind. rewrite Eb. apply wp_zrem_loop; [apply Ho|done|cbn in *; lia..|].
    intros w2 Hz2 Hle Hble. apply (wp_zfinish (Some Y1) w meta w1 Y' w2); try done; lia.
  - subst H. wp_op. unfold Y', Y in HQ. cbn [members] in HQ.
    assert (E : zwithout ms ∅ = ∅) by apply map_filter_empty. rewrite E in HQ. apply (HQ w1).
    + apply Hro.
    + by apply zread_turns.
Qed.

(** ** Walking the set *)

(** A visitor over a list of members and scores, until it stops. *)
Fixpoint visit_list {S} (visit : S → bytes → Z → S * bool) (l : list (bytes * Z)) (s : S) : S :=
  match l with
  | [] => s
  | (m, sc) :: l =>
      let '(s', go) := visit s m sc in if go : bool then visit_list visit l s' else s'
  end.

(** What a walk from [from] reaches. *)
Definition ahead (rev : bool) (from : bytes) (p : bytes * Z) : Prop :=
  from = [] ∨ (if rev then blt (zkey p) from else blt from (zkey p)) = true.
#[global] Instance ahead_dec rev from p : Decision (ahead rev from p).
Proof. unfold ahead. apply _. Defined.

Definition in_order (rev : bool) (Y : zset) : list (bytes * Z) :=
  if rev then List.rev (zlist Y) else zlist Y.

Definition walked (rev : bool) (from : bytes) (Y : zset) : list (bytes * Z) :=
  filter (ahead rev from) (in_order rev Y).

Lemma walk_rows_list {S} (visit : S → bytes → Z → S * bool) (pre : bytes) l s :
  Forall (λ p : bytes * Z, in_width 64 p.2) l →
  walk_rows (length pre) visit ((λ p, (pre ++ zkey p, [])) <$> l) s = Some (visit_list visit l s).
Proof.
  intros Hl. revert s. induction Hl as [|[m sc] l Hp Hl IH]; intros s; [done|].
  cbn [fmap list_fmap walk_rows visit_list]. rewrite drop_app_length. unfold zkey. cbn [fst snd] in *.
  rewrite get_sub_here by apply length_be. cbn [mbind option_bind].
  rewrite of_be_id by (by apply encode_score_width). rewrite decode_encode_score by done.
  replace (drop 8 (be 8 (encode_score sc) ++ m)) with m
    by (by rewrite (drop_app_length' _ _ 8) by (by rewrite length_be)).
  destruct (visit s m sc) as [s' []]; [apply IH|done].
Qed.

Lemma Forall_walked rev from Y : zwf Y → Forall (λ p : bytes * Z, in_width 64 p.2) (walked rev from Y).
Proof.
  intros HY. apply Forall_forall. intros [m s] [_ Hp]%list_elem_of_filter.
  assert ((m, s) ∈ zlist Y) as E%elem_of_zlist; [|by eapply zwf_lookup].
  destruct rev; cbn in Hp; [|done]. by rewrite list_elem_of_In, <-in_rev, <-list_elem_of_In in Hp.
Qed.

Lemma wp_walk {S} rev from (visit : S → bytes → Z → S * bool) s H w Q :
  env_ok w → zrepr a (w_clock w 0%nat) (w_kv w) H →
  (∀ w', zread_only H w w' → Q (Ok (visit_list visit (walked rev from (members H)) s)) w') →
  wp (walk st slot key rev from visit s) w Q.
Proof.
  intros Henv HH HQ. unfold walk. apply wp_try. apply (wp_zread H); [done..|].
  intros [meta|] w1 Hro Hread; cbn [zread_as] in Hread.
  - destruct Hread as (Y & -> & Hne & (Hm & Hi & Hwf)). eapply wp_unwrap; [apply zsprefix_ok|].
    set (pre := rprefix ZScore a (c_version meta)) in *.
    assert (Hsub : sub_map pre (w_kv w1) = zindex Y) by apply Hi.
    assert (Hrows : wp (if rev then for_each_before pre (match from with [] => [] | _ => pre ++ from end)
        else for_each_from pre from) w1
      (λ rows w', w' = w1 ∧ rows = (λ p, (pre ++ zkey p, [])) <$> walked rev from Y)).
    { assert (Hshape : ∀ l : list (bytes * Z), (prod_map (app pre) id <$> ((λ p, (zkey p, [] : bytes)) <$> l)) =
        (λ p, (pre ++ zkey p, [])) <$> l) by (intros l; by rewrite <-list_fmap_compose).
      destruct rev; eexists _, w1; (split; [reflexivity|]); (split; [done|]); unfold walked, in_order.
      - rewrite <-Hshape, 
          <-(filter_fmap_iff (λ r : bytes * bytes, from = [] ∨ blt r.1 from = true) (ahead true from) (λ p, (zkey p, []))) by done.
        etransitivity; [apply rows_before_sub_map|]. rewrite Hsub, rows_of_zindex by done.
        f_equal. f_equal. symmetry. apply map_rev.
      - rewrite <-Hshape, 
          <-(filter_fmap_iff (λ r : bytes * bytes, from = [] ∨ blt from r.1 = true) (ahead false from) (λ p, (zkey p, []))) by done.
        etransitivity; [apply rows_from_sub_map|]. by rewrite Hsub, rows_of_zindex. }
    apply wp_bind. eapply wp_conseq; [exact Hrows|]. intros rows w' [-> ->].
    eapply wp_unwrap; [apply walk_rows_list, Forall_walked, Hwf|]. wp_op. by apply HQ.
  - subst H. wp_op. specialize (HQ w1 Hro). cbn [members] in HQ.
    assert (E : walked rev from ∅ = []).
    { unfold walked, in_order, zlist. rewrite map_to_list_empty. by destruct rev. }
    by rewrite E in HQ.
Qed.

(** ** Ranks *)

Lemma walked_all rev Y : walked rev [] Y = in_order rev Y.
Proof. unfold walked. rewrite list_filter_true; [done|]. intros p _. by left. Qed.

Lemma length_in_order rev Y : len (in_order rev Y) = Z.of_nat (size Y).
Proof. destruct rev; cbn; rewrite ?length_rev, length_zlist; done. Qed.

Lemma visit_take want l skip hits :
  0 <= skip → len hits < want →
  (visit_list (take_row want) l (skip, hits)).2 =
  hits ++ take (Z.to_nat (want - len hits)) (drop (Z.to_nat skip) l).
Proof.
  revert skip hits. induction l as [|[m s] l IH]; intros skip hits Hs Hh.
  { cbn. by rewrite drop_nil, take_nil, app_nil_r. }
  cbn [visit_list take_row]. destruct (Z.ltb_spec 0 skip).
  - rewrite IH by lia. replace (Z.to_nat skip) with (S (Z.to_nat (skip - 1))) by lia. done.
  - replace skip with 0 by lia. change (Z.to_nat 0) with 0%nat.
    replace (Z.to_nat (want - len hits)) with (S (Z.to_nat (want - len hits - 1))) by lia.
    cbn [drop take]. destruct (Z.ltb_spec (len (hits ++ [(m, s)])) want) as [Hlt|Hge]; rewrite length_app in *; cbn [length] in *.
    + rewrite IH; [|lia|rewrite length_app; cbn [length]; lia]. rewrite drop_0, <-app_assoc, length_app. cbn.
      do 3 f_equal. lia.
    + replace (Z.to_nat (want - len hits - 1)) with 0%nat by lia. done.
Qed.

Lemma visit_pop count l hits :
  len hits < count →
  visit_list (pop_visit count) l hits = hits ++ take (Z.to_nat (count - len hits)) l.
Proof.
  revert hits. induction l as [|[m s] l IH]; intros hits Hh.
  { cbn. by rewrite take_nil, app_nil_r. }
  cbn [visit_list pop_visit].
  replace (Z.to_nat (count - len hits)) with (S (Z.to_nat (count - len hits - 1))) by lia. cbn [take].
  destruct (Z.ltb_spec (len (hits ++ [(m, s)])) count) as [Hlt|Hge]; rewrite length_app in *; cbn [length] in *.
  - rewrite IH by (rewrite length_app; cbn [length]; lia). rewrite <-app_assoc, length_app. cbn.
    do 3 f_equal. lia.
  - replace (Z.to_nat (count - len hits - 1)) with 0%nat by lia. done.
Qed.

(** A window of ranks, negatives from the end. *)
Definition window {A} (l : list A) (start stop : Z) : list A :=
  let at_ i := if i <? 0 then len l + i else i in
  let from := Z.max (at_ start) 0 in
  let to := Z.min (at_ stop) (len l - 1) in
  if to <? from then [] else take (Z.to_nat (to - from + 1)) (drop (Z.to_nat from) l).

Lemma znorm_exact n i : 0 <= n < 2 ^ 32 → in_i64 i → znorm n i = if i <? 0 then n + i else i.
Proof.
  unfold znorm, saturating_add_i64, in_i64, I64_MIN, I64_MAX. intros.
  destruct (Z.ltb_spec i 0); lia.
Qed.

(** A window read from the other end. *)
Lemma take_drop_rev {A} (l : list A) i j w :
  (i + j + w = length l)%nat → List.rev (take w (drop i l)) = take w (drop j (List.rev l)).
Proof.
  intros Hl. rewrite <-(take_drop i l) at 2. rewrite <-(take_drop w (drop i l)) at 2.
  rewrite !rev_app_distr.
  rewrite <-app_assoc, drop_app_length' by (rewrite length_rev, !length_drop; lia).
  rewrite take_app_length'; [done|]. rewrite length_rev, length_take, length_drop. lia.
Qed.

Lemma wp_rank_window start stop rev H w Q :
  env_ok w → zheld H w → in_i64 start → in_i64 stop →
  (∀ w', zread_only H w w' → Q (Ok (window (in_order rev (members H)) start stop)) w') →
  wp (rank_window st slot key start stop rev) w Q.
Proof.
  intros Henv HH Hi1 Hi2 HQ. unfold rank_window. apply wp_try. apply (wp_zcard H); [done|apply HH|].
  intros w1 Hro1. assert (Hn : Z.of_nat (size (members H)) < 2 ^ 32).
  { destruct H as [Y|]; [|done]. destruct (HH 0%nat) as (_ & meta & (Hm & _)).
    destruct (holds_widths _ _ _ _ _ _ _ Hm) as (Hs & _). rewrite size_zrows in Hs. apply Hs. }
  rewrite !znorm_exact by (done || lia). unfold window in HQ. rewrite length_in_order in HQ.
  set (n := Z.of_nat (size (members H))) in *. assert (0 <= n) by lia.
  assert (Hlz : n = len (zlist (members H))) by (by rewrite length_zlist). clearbody n.
  cbv zeta in HQ |- *.
  set (from := Z.max _ 0) in *. set (to := Z.min _ (n - 1)) in *.
  assert (0 <= from ∧ to < n) as [Hf Ht] by lia. clearbody from to.
  destruct (Z.ltb_spec to from) as [|Hft]; [wp_op; by apply HQ|].
  set (l := zlist (members H)) in *.
  set (lohi := if rev then _ else _).
  assert (Elohi : lohi = (if rev then n - 1 - to else from, if rev then n - 1 - from else to)) by (by destruct rev).
  clearbody lohi. subst lohi.
  set (lo := if rev then n - 1 - to else from) in *. set (hi := if rev then n - 1 - from else to) in *.
  apply wp_try. apply (wp_walk (negb (lo <=? n - 1 - hi)) [] _ _ H); [apply Hro1|by apply (zheld_after H w w1)|].
  intros w2 Hro2. wp_op. rewrite walked_all, visit_take by (subst lo hi; destruct rev; cbn [length]; try case_match; lia).
  cbn [app length]. rewrite Z.sub_0_r.
  match goal with |- Q (Ok ?x) _ => replace x with (take (Z.to_nat (to - from + 1)) (drop (Z.to_nat from) (in_order rev (members H)))) end.
  { apply HQ. by eapply zread_only_trans. }
  unfold in_order. fold l. subst lo hi. destruct rev; match goal with |- context [?x <=? ?y] => destruct (x <=? y) end; cbn [negb Bool.eqb].
  - rewrite (take_drop_rev _ _ (Z.to_nat from)) by lia. do 2 f_equal; lia.
  - do 2 f_equal; lia.
  - do 2 f_equal; lia.
  - rewrite (take_drop_rev _ _ (Z.to_nat from)) by (rewrite length_rev; lia). rewrite rev_involutive.
    do 2 f_equal; lia.
Qed.

(** ** Score ranges *)

Definition bound_ok (b : ScoreBound) : Prop := score_ok (sb_value b).

Lemma sb_ge_lower_key b s :
  bound_ok b → score_ok s →
  sb_ge_lower b s = true ↔ (if sb_inclusive b then f64_key (sb_value b) <= f64_key s
                            else f64_key (sb_value b) < f64_key s).
Proof. intros. unfold sb_ge_lower. destruct (sb_inclusive b); [by apply f64_le_key|by apply f64_lt_key]. Qed.

Lemma sb_le_upper_key b s :
  bound_ok b → score_ok s →
  sb_le_upper b s = true ↔ (if sb_inclusive b then f64_key s <= f64_key (sb_value b)
                            else f64_key s < f64_key (sb_value b)).
Proof. intros. unfold sb_le_upper. destruct (sb_inclusive b); [by apply f64_le_key|by apply f64_lt_key]. Qed.

Definition near_score (min max : ScoreBound) (rev : bool) (p : bytes * Z) : bool :=
  if rev then sb_le_upper max p.2 else sb_ge_lower min p.2.
Definition far_score (min max : ScoreBound) (rev : bool) (p : bytes * Z) : bool :=
  if rev then sb_ge_lower min p.2 else sb_le_upper max p.2.

(** Inside both bounds. *)
Definition in_score (min max : ScoreBound) (p : bytes * Z) : Prop :=
  sb_ge_lower min p.2 && sb_le_upper max p.2 = true.
#[global] Instance in_score_dec min max p : Decision (in_score min max p).
Proof. unfold in_score. apply _. Defined.

Lemma in_score_near_far min max rev p :
  in_score min max p ↔ near_score min max rev p = true ∧ far_score min max rev p = true.
Proof. unfold in_score, near_score, far_score. rewrite andb_true_iff. destruct rev; tauto. Qed.

(** Along a walk the near bound, once reached, stays reached, and the far one,
    once passed, stays passed. *)
Definition bounded_by (near far : bytes * Z → bool) (p q : bytes * Z) : Prop :=
  (near p = true → near q = true) ∧ (far q = true → far p = true).

Lemma StronglySorted_rev {A} (R : relation A) l :
  StronglySorted R l → StronglySorted (λ x y, R y x) (List.rev l).
Proof.
  induction 1 as [|x l Hs IH Hx]; [constructor|]. cbn. apply StronglySorted_app. split_and!.
  - intros y z Hy Hz. apply list_elem_of_singleton in Hz as ->. rewrite Forall_forall in Hx. apply Hx.
    by rewrite list_elem_of_In, <-in_rev, <-list_elem_of_In in Hy.
  - done.
  - repeat constructor.
Qed.

Lemma zlt_key p q : score_ok p.2 → score_ok q.2 → zlt p q → f64_key p.2 <= f64_key q.2.
Proof.
  intros Hp Hq. unfold zlt. rewrite blt_true, zkey_cmp by (apply Hp || apply Hq). intros Hc.
  apply (f64_key_encode p.2 q.2); [apply Hp|apply Hq|].
  destruct (Z.compare_spec (encode_score p.2) (encode_score q.2)); done || lia.
Qed.

Lemma zlist_scores Y p : zwf Y → p ∈ zlist Y → score_ok p.2.
Proof. intros HY. destruct p as [m s]. intros E%elem_of_zlist. by apply HY in E. Qed.

Lemma elem_of_in_order rev Y p : p ∈ in_order rev Y ↔ p ∈ zlist Y.
Proof. destruct rev; cbn; [|done]. by rewrite !list_elem_of_In, <-in_rev. Qed.

Lemma in_order_keys (rev : bool) Y :
  zwf Y → StronglySorted (λ p q : bytes * Z, if rev then f64_key q.2 <= f64_key p.2 else f64_key p.2 <= f64_key q.2)
    (in_order rev Y).
Proof.
  intros HY. assert (Hs : StronglySorted (λ p q : bytes * Z, f64_key p.2 <= f64_key q.2) (zlist Y)).
  { eapply StronglySorted_impl_in; [|by apply zlist_sorted].
    intros p q Hp Hq. apply zlt_key; by eapply zlist_scores. }
  destruct rev; [|done]. exact (StronglySorted_rev _ _ Hs).
Qed.

Lemma in_order_bounded min max rev Y :
  zwf Y → bound_ok min → bound_ok max →
  StronglySorted (bounded_by (near_score min max rev) (far_score min max rev)) (in_order rev Y).
Proof.
  intros HY Hmin Hmax. eapply StronglySorted_impl_in; [|by apply in_order_keys].
  intros p q Hp%elem_of_in_order Hq%elem_of_in_order Hle.
  apply zlist_scores in Hp, Hq; [|done..]. unfold bounded_by, near_score, far_score.
  destruct rev; rewrite !sb_le_upper_key, !sb_ge_lower_key by done;
    split; (destruct (sb_inclusive min), (sb_inclusive max); lia).
Qed.

Lemma visit_score min max rev limit l skip hits :
  StronglySorted (bounded_by (near_score min max rev) (far_score min max rev)) l →
  0 <= skip → len hits < limit →
  (visit_list (score_visit min max rev limit) l (skip, hits)).2 =
  hits ++ take (Z.to_nat (limit - len hits)) (drop (Z.to_nat skip) (filter (in_score min max) l)).
Proof.
  intros Hs. revert skip hits. induction Hs as [|[m s] l Hs IH Hp]; intros skip hits Hsk Hh.
  { cbn. by rewrite drop_nil, take_nil, app_nil_r. }
  cbn [visit_list]. unfold score_visit at 1.
  change (if rev then sb_le_upper max s else sb_ge_lower min s) with (near_score min max rev (m, s)).
  change (if rev then sb_ge_lower min s else sb_le_upper max s) with (far_score min max rev (m, s)).
  rewrite filter_cons. destruct (near_score min max rev (m, s)) eqn:En; cbn [negb].
  2:{ rewrite decide_False by (rewrite (in_score_near_far min max rev); intros [? ?]; congruence). by apply IH. }
  destruct (far_score min max rev (m, s)) eqn:Ef; cbn [negb].
  2:{ rewrite decide_False by (rewrite (in_score_near_far min max rev); intros [? ?]; congruence).
      rewrite filter_none; [cbn; by rewrite drop_nil, take_nil, app_nil_r|].
      intros q Hq. rewrite Forall_forall in Hp. destruct (Hp q Hq) as [_ Hfar].
      rewrite (in_score_near_far min max rev). intros [_ Hf]. apply Hfar in Hf. congruence. }
  rewrite decide_True by (by rewrite (in_score_near_far min max rev)).
  cbn [take_row]. destruct (Z.ltb_spec 0 skip).
  - rewrite IH by lia. replace (Z.to_nat skip) with (S (Z.to_nat (skip - 1))) by lia. done.
  - replace skip with 0 by lia. change (Z.to_nat 0) with 0%nat.
    replace (Z.to_nat (limit - len hits)) with (S (Z.to_nat (limit - len hits - 1))) by lia.
    cbn [drop take]. destruct (Z.ltb_spec (len (hits ++ [(m, s)])) limit) as [Hlt|Hge]; rewrite length_app in *; cbn [length] in *.
    + rewrite IH; [|lia|rewrite length_app; cbn [length]; lia]. rewrite drop_0, <-app_assoc, length_app. cbn.
      do 3 f_equal. lia.
    + replace (Z.to_nat (limit - len hits - 1)) with 0%nat by lia. done.
Qed.

(** The seek passes over nothing in range. *)
Lemma encode_of_key b :
  in_width 64 b → f64_key b ≠ 0 → encode_score b = if f64_key b <? 0 then 2 ^ 63 - 1 + f64_key b else 2 ^ 63 + f64_key b.
Proof.
  intros Hb Hk. rewrite encode_score_key by done. unfold f64_key in *. pose proof (f64_mag_range b).
  destruct (f64_sign b); destruct (Z.ltb_spec (- f64_mag b) 0), (Z.ltb_spec (f64_mag b) 0); lia.
Qed.

Lemma encode_mono b s :
  in_width 64 b → in_width 64 s → f64_key b ≠ 0 → f64_key b <= f64_key s → encode_score b <= encode_score s.
Proof.
  intros Hb Hs Hk Hle. destruct (decide (f64_key b = f64_key s)) as [E|Hne].
  - rewrite !encode_of_key by (done || congruence). by rewrite E.
  - assert (encode_score b < encode_score s); [|lia]. apply f64_key_encode; [done..|lia].
Qed.

Lemma zero_ok : score_ok F64_ZERO.
Proof. by repeat split. Qed.

Lemma f64_eq_zero s : score_ok s → f64_eq s F64_ZERO = true ↔ f64_key s = 0.
Proof. intros Hs. by rewrite f64_eq_key by (done || apply zero_ok). Qed.

Lemma after_score_seek b p :
  score_ok b → score_ok p.2 → f64_key b <= f64_key p.2 → ahead false (after_score b) p.
Proof.
  intros Hb Hp Hle. unfold ahead, after_score. cbv zeta. set (b' := if f64_eq b F64_ZERO then _ else _).
  assert (Hb' : in_width 64 b' ∧ encode_score b' <= encode_score p.2).
  { unfold b'. pose proof (f64_mag_range p.2). destruct (f64_eq b F64_ZERO) eqn:E.
    - apply f64_eq_zero in E; [|done]. split; [by split|]. change (encode_score F64_NEG_ZERO) with (2 ^ 63 - 1).
      rewrite encode_score_key by apply Hp. unfold f64_key in *. destruct (f64_sign p.2); lia.
    - assert (f64_key b ≠ 0) as Hk by (rewrite <-f64_eq_zero by done; congruence). split; [apply Hb|].
      apply encode_mono; (done || apply Hb || apply Hp). }
  clearbody b'. destruct Hb' as [Hw He]. destruct (Z.eqb_spec (encode_score b') 0); [by left|right].
  pose proof (encode_score_width b' Hw) as Hew. pose proof (encode_score_width p.2 (proj1 Hp)) as Hpw.
  unfold zkey. apply blt_true. rewrite <-(app_nil_r (be 8 (encode_score b' - 1))).
  rewrite bytes_cmp_be; [|unfold in_width in *; lia|done].
  destruct (Z.compare_spec (encode_score b' - 1) (encode_score p.2)); (done || lia).
Qed.

Lemma before_score_seek b p :
  score_ok b → score_ok p.2 → f64_key p.2 <= f64_key b → ahead true (before_score b) p.
Proof.
  intros Hb Hp Hle. unfold ahead, before_score. cbv zeta. set (b' := if f64_eq b F64_ZERO then _ else _).
  assert (Hb' : in_width 64 b' ∧ encode_score p.2 <= encode_score b').
  { unfold b'. pose proof (f64_mag_range p.2). destruct (f64_eq b F64_ZERO) eqn:E.
    - apply f64_eq_zero in E; [|done]. split; [by split|]. change (encode_score F64_ZERO) with (2 ^ 63).
      rewrite encode_score_key by apply Hp. unfold f64_key in *. destruct (f64_sign p.2); lia.
    - assert (f64_key b ≠ 0) as Hk by (rewrite <-f64_eq_zero by done; congruence). split; [apply Hb|].
      destruct (decide (f64_key p.2 = f64_key b)) as [Ek|Hne].
      + rewrite !encode_of_key by (apply Hb || apply Hp || congruence). by rewrite Ek.
      + assert (encode_score p.2 < encode_score b); [|lia].
        apply f64_key_encode; [apply Hp|apply Hb|lia]. }
  clearbody b'. destruct Hb' as [Hw He]. destruct (Z.eqb_spec (encode_score b') U64_MAX) as [|Hmax]; [by left|right].
  pose proof (encode_score_width b' Hw) as Hew. pose proof (encode_score_width p.2 (proj1 Hp)) as Hpw.
  unfold zkey. apply blt_true. rewrite <-(app_nil_r (be 8 (encode_score b' + 1))).
  unfold U64_MAX in Hmax. rewrite bytes_cmp_be; [|done|unfold in_width in *; lia].
  destruct (Z.compare_spec (encode_score p.2) (encode_score b' + 1)); (done || lia).
Qed.

Definition score_from (min max : ScoreBound) (rev : bool) : bytes :=
  if rev then before_score (sb_value max) else after_score (sb_value min).

Lemma walked_in_score min max rev Y :
  zwf Y → bound_ok min → bound_ok max →
  filter (in_score min max) (walked rev (score_from min max rev) Y) =
  filter (in_score min max) (in_order rev Y).
Proof.
  intros HY Hmin Hmax. unfold walked. rewrite list_filter_filter.
  apply list_filter_iff'. intros p Hp%elem_of_in_order.
  apply zlist_scores in Hp; [|done]. split; [naive_solver|]. intros Hin. split; [done|].
  unfold in_score in Hin. apply andb_true_iff in Hin as [Hlo Hhi].
  rewrite sb_ge_lower_key in Hlo by done. rewrite sb_le_upper_key in Hhi by done.
  destruct rev; cbn [score_from].
  - apply before_score_seek; [done..|]. destruct (sb_inclusive max); lia.
  - apply after_score_seek; [done..|]. destruct (sb_inclusive min); lia.
Qed.

Lemma StronglySorted_filter {A} (R : relation A) (P : A → Prop) `{∀ x, Decision (P x)} l :
  StronglySorted R l → StronglySorted R (filter P l).
Proof.
  induction 1 as [|x l Hs IH Hx]; [constructor|]. rewrite filter_cons. case_decide; [|done].
  constructor; [done|]. rewrite Forall_forall in Hx |- *. intros y [_ Hy]%list_elem_of_filter. auto.
Qed.

(** A score range, with LIMIT. *)
Definition score_range (min max : ScoreBound) (rev : bool) (offset count : Z) (Y : zset) : list (bytes * Z) :=
  if (offset <? 0) || (count =? 0) then []
  else take (Z.to_nat (limit_of count)) (drop (Z.to_nat offset) (filter (in_score min max) (in_order rev Y))).

Lemma in_order_empty rev : in_order rev ∅ = [].
Proof. unfold in_order, zlist. rewrite map_to_list_empty. by destruct rev. Qed.

Lemma wp_zrange_by_score min max rev offset count H w Q :
  env_ok w → zheld H w → bound_ok min → bound_ok max →
  (∀ w', zread_only H w w' → Q (Ok (score_range min max rev offset count (members H))) w') →
  wp (zrange_by_score st slot key min max rev offset count) w Q.
Proof.
  intros Henv HH Hmin Hmax HQ. unfold zrange_by_score. apply wp_try.
  apply (wp_zread H); [done|apply HH|]. intros o w1 Hro1 Hread.
  pose proof (zread_columns _ _ _ _ Hread) as [_ Hnone].
  destruct (bool_decide (o = None)) eqn:Eo; [apply bool_decide_eq_true in Eo|apply bool_decide_eq_false in Eo].
  { apply Hnone in Eo as ->. cbn [orb]. wp_op. specialize (HQ w1 Hro1). unfold score_range in HQ. cbn [members] in HQ.
    rewrite in_order_empty, filter_nil, drop_nil, take_nil in HQ. by destruct (_ || _). }
  cbn [orb]. assert (Hwf : zwf (members H)).
  { destruct H as [Y|]; [|by destruct Eo; apply Hnone]. destruct (HH 0%nat) as (_ & meta & (_ & _ & ?)). done. }
  unfold score_range in HQ. destruct (Z.ltb_spec offset 0); cbn [orb] in *; [wp_op; by apply HQ|].
  destruct (Z.eqb_spec count 0); [wp_op; by apply HQ|]. cbv zeta.
  fold (score_from min max rev). apply wp_try.
  apply (wp_walk rev _ _ _ H); [apply Hro1|by apply (zheld_after H w w1)|]. intros w2 Hro2. wp_op.
  rewrite visit_score; [|by apply StronglySorted_filter, in_order_bounded|done|].
  2:{ unfold limit_of, U64_MAX. cbn. destruct (Z.ltb_spec count 0); lia. }
  rewrite walked_in_score by done. cbn [app length]. rewrite Z.sub_0_r. apply HQ.
  by eapply zread_only_trans.
Qed.

Lemma visit_count min max l n :
  StronglySorted (bounded_by (near_score min max false) (far_score min max false)) l →
  0 <= n → n + len l < 2 ^ 64 →
  visit_list (count_visit min max) l n = n + len (filter (in_score min max) l).
Proof.
  intros Hs. revert n. induction Hs as [|[m s] l Hs IH Hp]; intros n Hn Hl; [cbn; lia|].
  cbn [visit_list length] in *. unfold count_visit at 1.
  change (sb_ge_lower min s) with (near_score min max false (m, s)).
  change (sb_le_upper max s) with (far_score min max false (m, s)). rewrite filter_cons.
  destruct (near_score min max false (m, s)) eqn:En; cbn [negb].
  2:{ rewrite decide_False by (rewrite (in_score_near_far min max false); intros [? ?]; congruence). apply IH; lia. }
  destruct (far_score min max false (m, s)) eqn:Ef; cbn [negb].
  2:{ rewrite decide_False by (rewrite (in_score_near_far min max false); intros [? ?]; congruence).
      rewrite filter_none; [cbn; lia|].
      intros q Hq. rewrite Forall_forall in Hp. destruct (Hp q Hq) as [_ Hfar].
      rewrite (in_score_near_far min max false). intros [_ Hf]. apply Hfar in Hf. congruence. }
  rewrite decide_True by (by rewrite (in_score_near_far min max false)). cbn [length].
  rewrite wrap_id by (unfold in_width; lia). rewrite IH; lia.
Qed.

Lemma zheld_size H w : zheld H w → Z.of_nat (size (members H)) < 2 ^ 32 ∧ zwf (members H).
Proof.
  intros HH. destruct H as [Y|]; [|split; [done|apply map_Forall_empty]].
  destruct (HH 0%nat) as (_ & meta & (Hm & _ & Hwf)). split; [|done].
  destruct (holds_widths _ _ _ _ _ _ _ Hm) as (Hs & _). rewrite size_zrows in Hs. apply Hs.
Qed.

Lemma wp_zcount min max H w Q :
  env_ok w → zheld H w → bound_ok min → bound_ok max →
  (∀ w', zread_only H w w' → Q (Ok (len (filter (in_score min max) (zlist (members H))))) w') →
  wp (zcount st slot key min max) w Q.
Proof.
  intros Henv HH Hmin Hmax HQ. destruct (zheld_size _ _ HH) as [Hs Hwf].
  unfold zcount. apply (wp_walk false _ _ _ H); [done|apply HH|]. intros w' Hro.
  rewrite visit_count; [| |done|].
  - change (after_score (sb_value min)) with (score_from min max false).
    rewrite walked_in_score by done. by apply HQ.
  - by apply StronglySorted_filter, in_order_bounded.
  - unfold walked. pose proof (length_filter (ahead false (after_score (sb_value min))) (in_order false (members H))).
    pose proof (length_in_order false (members H)). lia.
Qed.

Lemma visit_rank member score l n i :
  l !! i = Some (member, score) → NoDup l.*1 → f64_eq score score = true → 0 <= n → n + len l < 2 ^ 64 →
  visit_list (rank_visit member score) l (n, false) = (n + Z.of_nat i, true).
Proof.
  revert n i. induction l as [|[m s] l IH]; intros n i Hi Hnd Heq Hn Hl; [done|].
  apply NoDup_cons in Hnd as [Hnin Hnd]. cbn [visit_list length] in *. unfold rank_visit at 1. cbn [fst snd].
  destruct i as [|i]; cbn in Hi.
  - injection Hi as -> ->. rewrite Heq, bool_decide_eq_true_2 by done. cbn. f_equal. lia.
  - assert (m ≠ member).
    { intros ->. apply Hnin. apply (list_elem_of_fmap_2 fst l (member, score)). by eapply list_elem_of_lookup_2. }
    rewrite (bool_decide_eq_false_2 (m = member)), andb_false_r by done.
    rewrite wrap_id by (unfold in_width; lia). rewrite (IH _ i) by (done || lia). f_equal. lia.
Qed.

Lemma NoDup_in_order rev Y : NoDup (in_order rev Y).*1.
Proof.
  destruct rev; cbn; [|apply NoDup_zlist]. change (NoDup (map fst (List.rev (zlist Y)))).
  rewrite map_rev. apply NoDup_ListNoDup, List.NoDup_rev, NoDup_ListNoDup, NoDup_zlist.
Qed.

Lemma wp_zrank m rev H w Q :
  env_ok w → zheld H w →
  (∀ r w', zread_only H w w' →
     match members H !! m with
     | None => r = None
     | Some s => ∃ i, r = Some (Z.of_nat i) ∧ in_order rev (members H) !! i = Some (m, s)
     end → Q (Ok r) w') →
  wp (zrank st slot key m rev) w Q.
Proof.
  intros Henv HH HQ. destruct (zheld_size _ _ HH) as [Hs Hwf]. unfold zrank. apply wp_try.
  apply (wp_zscore m H); [done|apply HH|]. intros w1 Hro1.
  destruct (members H !! m) as [s|] eqn:E; [|wp_op; by apply HQ].
  apply wp_try. apply (wp_walk rev _ _ _ H); [apply Hro1|by apply (zheld_after H w w1)|].
  intros w2 Hro2. wp_op. rewrite walked_all.
  assert (Hin : (m, s) ∈ in_order rev (members H)) by (by apply elem_of_in_order, elem_of_zlist).
  apply list_elem_of_lookup_1 in Hin as [i Hi].
  rewrite (visit_rank m s _ _ i); [cbn [fst snd]|done|apply NoDup_in_order| |done|].
  - apply HQ; [by eapply zread_only_trans|]. by exists i.
  - apply f64_eq_key; [by apply Hwf in E..|done].
  - rewrite length_in_order. lia.
Qed.

Lemma wp_zmscore ms H w Q :
  env_ok w → zheld H w →
  (∀ w', zread_only H w w' → Q (Ok ((λ m, members H !! m) <$> ms)) w') →
  wp (zmscore st slot key ms) w Q.
Proof.
  unfold zmscore. revert w Q. induction ms as [|m ms IH]; intros w Q Henv HH HQ; cbn [collect_].
  - apply wp_ret, HQ. constructor; try done. apply effect_refl, Henv.
  - apply wp_try. apply (wp_zscore m H); [done|apply HH|]. intros w1 Hro1. apply wp_try.
    apply IH; [apply Hro1|by apply (zheld_after H w w1)|]. intros w2 Hro2. wp_op. apply HQ.
    by eapply zread_only_trans.
Qed.

(** ** Lexicographic ranges *)

Definition near_lex (min max : LexBound) (rev : bool) (m : bytes) : bool :=
  if rev then lb_le_upper max m else lb_ge_lower min m.
Definition far_lex (min max : LexBound) (rev : bool) (m : bytes) : bool :=
  if rev then lb_ge_lower min m else lb_le_upper max m.

Fixpoint drop_while (P : bytes → bool) (l : list bytes) : list bytes :=
  match l with [] => [] | x :: l' => if P x then drop_while P l' else l end.
Fixpoint take_while (P : bytes → bool) (l : list bytes) : list bytes :=
  match l with [] => [] | x :: l' => if P x then x :: take_while P l' else [] end.

(** Upstream's walk: from the first member past the near bound, which must be
    within the far one, past [offset] members, while the far bound holds. *)
Definition lex_walk (near far : bytes → bool) (offset limit : Z) (l : list bytes) : list bytes :=
  let rest := drop_while (λ m, negb (near m)) l in
  match rest with
  | [] => []
  | m :: _ => if far m then take (Z.to_nat limit) (take_while far (drop (Z.to_nat offset) rest)) else []
  end.

(** ZRANGEBYLEX, on the set in order. *)
Definition lex_range (min max : LexBound) (rev : bool) (offset count : Z) (Y : zset) : list bytes :=
  match head (zlist Y), last (zlist Y) with
  | Some (first, _), Some (last, _) =>
      if negb (lb_ge_lower min last) || negb (lb_le_upper max first) || (offset <? 0) || (count =? 0) then []
      else lex_walk (near_lex min max rev) (far_lex min max rev) offset (limit_of count) (in_order rev Y).*1
  | _, _ => []
  end.

Lemma visit_end l : visit_list end_visit l None = head l.
Proof. by destruct l as [|[m s] l]. Qed.

Lemma visit_lex_started min max rev limit l skip hits :
  0 <= skip → len hits < limit →
  (visit_list (lex_visit min max rev limit) l (true, (skip, hits))).2.2 =
  hits ++ take (Z.to_nat (limit - len hits)) (take_while (far_lex min max rev) (drop (Z.to_nat skip) l.*1)).
Proof.
  revert skip hits. induction l as [|[m s] l IH]; intros skip hits Hs Hh.
  { cbn. rewrite drop_nil. cbn. by rewrite take_nil, app_nil_r. }
  cbn [visit_list lex_visit negb andb]. fold (far_lex min max rev m).
  destruct (Z.ltb_spec 0 skip).
  - rewrite IH by lia. replace (Z.to_nat skip) with (S (Z.to_nat (skip - 1))) by lia. done.
  - replace skip with 0 by lia. change (Z.to_nat 0) with 0%nat. cbn [fmap list_fmap fst drop take_while].
    destruct (far_lex min max rev m); cbn [negb snd]; [|by rewrite take_nil, app_nil_r].
    replace (Z.to_nat (limit - len hits)) with (S (Z.to_nat (limit - len hits - 1))) by lia. cbn [take].
    destruct (Z.ltb_spec (len (hits ++ [m])) limit) as [Hlt|Hge]; rewrite length_app in *; cbn [length] in *.
    + rewrite IH; [|lia|rewrite length_app; cbn [length]; lia]. rewrite drop_0, <-app_assoc, length_app. cbn [app length].
      do 3 f_equal. lia.
    + replace (Z.to_nat (limit - len hits - 1)) with 0%nat by lia. done.
Qed.

Lemma visit_lex min max rev limit l skip :
  0 <= skip → 0 < limit →
  (visit_list (lex_visit min max rev limit) l (false, (skip, []))).2.2 =
  lex_walk (near_lex min max rev) (far_lex min max rev) skip limit l.*1.
Proof.
  intros Hs Hl. unfold lex_walk. induction l as [|[m s] l IH]; [done|].
  cbn [fmap list_fmap fst drop_while]. destruct (near_lex min max rev m) eqn:En; cbn [negb].
  2:{ cbn [visit_list lex_visit]. fold (near_lex min max rev m). rewrite En. cbn [negb andb]. exact IH. }
  destruct (far_lex min max rev m) eqn:Ef.
  2:{ cbn [visit_list lex_visit]. fold (near_lex min max rev m) (far_lex min max rev m).
      by rewrite En, Ef. }
  pose proof (visit_lex_started min max rev limit ((m, s) :: l) skip [] Hs Hl) as Hst.
  cbn [app length] in Hst. rewrite Z.sub_0_r in Hst.
  etransitivity; [|exact Hst].
  cbn [visit_list lex_visit]. fold (near_lex min max rev m) (far_lex min max rev m). by rewrite En, Ef.
Qed.

(** One score throughout. *)
Definition one_score (Y : zset) : Prop := ∃ s, ∀ p, p ∈ zlist Y → p.2 = s.

Lemma sorted_ends {A} (R : relation A) `{!Transitive R} l x y p :
  StronglySorted R l → head l = Some x → last l = Some y → p ∈ l → (p = x ∨ R x p) ∧ (p = y ∨ R p y).
Proof.
  intros Hs Hx Hy Hp. split.
  - destruct l as [|z l]; [done|]. injection Hx as ->. apply StronglySorted_inv in Hs as [_ Hall].
    apply elem_of_cons in Hp as [->|Hp]; [by left|right]. rewrite Forall_forall in Hall. auto.
  - apply last_Some in Hy as [l' ->]. apply StronglySorted_app in Hs as (Hall & _ & _).
    apply elem_of_app in Hp as [Hp|Hp%list_elem_of_singleton]; [right|by left].
    apply Hall; [done|by apply list_elem_of_singleton].
Qed.

#[global] Instance zlt_trans : Transitive zlt.
Proof. intros ???. apply blt_trans. Qed.

Lemma zlt_encode p q : in_width 64 p.2 → in_width 64 q.2 → zlt p q → encode_score p.2 <= encode_score q.2.
Proof.
  intros Hp Hq. unfold zlt. rewrite blt_true, zkey_cmp by done.
  destruct (Z.compare_spec (encode_score p.2) (encode_score q.2)); done || lia.
Qed.

Lemma one_score_ends Y x y :
  zwf Y → head (zlist Y) = Some x → last (zlist Y) = Some y → encode_score x.2 = encode_score y.2 →
  ∀ p, p ∈ zlist Y → p.2 = x.2.
Proof.
  intros HY Hx Hy E p Hp. pose proof (zlist_sorted Y HY) as Hs.
  assert (Hw : ∀ q, q ∈ zlist Y → in_width 64 q.2) by (intros q Hq; by eapply zlist_scores).
  assert (Hinx : x ∈ zlist Y) by (destruct (zlist Y); [done|]; injection Hx as ->; by left).
  assert (Hiny : y ∈ zlist Y) by (by apply last_Some_elem_of).
  destruct (sorted_ends zlt _ x y p Hs Hx Hy Hp) as [H1 H2].
  assert (encode_score x.2 <= encode_score p.2) by (destruct H1 as [->|H1]; [done|apply zlt_encode; auto]).
  assert (encode_score p.2 <= encode_score y.2) by (destruct H2 as [->|H2]; [done|apply zlt_encode; auto]).
  apply encode_score_inj; [auto..|lia].
Qed.

(** With one score the walk is in member order, and the bounds are monotone. *)
Lemma in_order_members (rev : bool) Y s :
  zwf Y → (∀ p, p ∈ zlist Y → p.2 = s) →
  StronglySorted (λ p q : bytes * Z, if rev then blt q.1 p.1 = true else blt p.1 q.1 = true) (in_order rev Y).
Proof.
  intros HY Hone. assert (Hs : StronglySorted (λ p q : bytes * Z, blt p.1 q.1 = true) (zlist Y)).
  { eapply StronglySorted_impl_in; [|by apply zlist_sorted]. intros p q Hp Hq. unfold zlt.
    pose proof (zlist_scores _ _ HY Hp) as Hpw. pose proof (zlist_scores _ _ HY Hq) as Hqw.
    rewrite !blt_true, zkey_cmp by (apply Hpw || apply Hqw).
    rewrite (Hone p Hp), (Hone q Hq), Z.compare_refl. done. }
  destruct rev; [|done]. exact (StronglySorted_rev _ _ Hs).
Qed.

Lemma lb_monotone b m m' :
  blt m m' = true →
  (lb_ge_lower b m = true → lb_ge_lower b m' = true) ∧ (lb_le_upper b m' = true → lb_le_upper b m = true).
Proof.
  intros Hlt. pose proof (proj2 (ble_lt_or_eq m m') (or_introl Hlt)) as Hle.
  destruct b as [| |v|v]; cbn; split; intros Hb; try done.
  - by eapply ble_trans.
  - by eapply ble_trans.
  - by eapply blt_trans.
  - by eapply blt_trans.
Qed.

Lemma lex_bounded min max (rev : bool) Y s :
  zwf Y → (∀ p, p ∈ zlist Y → p.2 = s) →
  StronglySorted (bounded_by (λ p, near_lex min max rev p.1) (λ p, far_lex min max rev p.1)) (in_order rev Y).
Proof.
  intros HY Hone. eapply StronglySorted_impl_in; [|by eapply in_order_members].
  intros p q _ _ Hlt. unfold bounded_by, near_lex, far_lex.
  destruct rev; [destruct (lb_monotone min _ _ Hlt), (lb_monotone max _ _ Hlt)|
                 destruct (lb_monotone min _ _ Hlt), (lb_monotone max _ _ Hlt)]; split; auto.
Qed.

(** Past a monotone bound: dropping while below it is filtering by it. *)
Lemma drop_while_filter (near far : bytes → bool) (l : list (bytes * Z)) :
  StronglySorted (bounded_by (λ p, near p.1) (λ p, far p.1)) l →
  drop_while (λ m, negb (near m)) l.*1 = (filter (λ p : bytes * Z, near p.1 = true) l).*1.
Proof.
  induction 1 as [|[m s] l Hs IH Hp]; [done|]. cbn [fmap list_fmap fst drop_while]. rewrite filter_cons.
  destruct (near m) eqn:En; cbn [negb].
  - rewrite decide_True by done. cbn. f_equal. f_equal. symmetry. apply list_filter_true.
    intros q Hq. rewrite Forall_forall in Hp. by apply (Hp q Hq).
  - rewrite decide_False by (cbn; congruence). exact IH.
Qed.

Lemma take_while_filter (near far : bytes → bool) (l : list (bytes * Z)) k :
  StronglySorted (bounded_by (λ p, near p.1) (λ p, far p.1)) l →
  take_while far (drop k l.*1) = drop k (filter (λ p : bytes * Z, far p.1 = true) l).*1.
Proof.
  intros Hs. revert k. induction Hs as [|[m s] l Hs IH Hp]; intros k; [cbn; by rewrite drop_nil|].
  cbn [fmap list_fmap fst]. rewrite filter_cons. destruct (far m) eqn:Ef.
  - rewrite decide_True by done. cbn [fmap list_fmap fst]. destruct k as [|k]; cbn [drop take_while].
    + rewrite Ef. f_equal. specialize (IH 0%nat). by rewrite !drop_0 in IH.
    + apply IH.
  - rewrite decide_False by (cbn; congruence).
    assert (Hnone : filter (λ p : bytes * Z, far p.1 = true) l = []).
    { apply filter_none. intros q Hq Hf. rewrite Forall_forall in Hp. apply (Hp q Hq) in Hf. cbn in Hf. congruence. }
    rewrite Hnone in IH |- *. cbn. rewrite drop_nil. destruct k as [|k]; cbn [drop take_while].
    + by rewrite Ef.
    + specialize (IH k). cbn in IH. by rewrite drop_nil in IH.
Qed.

Lemma blt_snoc v x : blt v (v ++ [x]) = true.
Proof. rewrite <-(app_nil_r v) at 1. by rewrite blt_app. Qed.

(** The seek passes over no member within the near bound. *)
Lemma lex_seek_near min max (rev : bool) s m :
  score_ok s → near_lex min max rev m = true → ahead rev (lex_seek s (if rev then max else min) rev) (m, s).
Proof.
  intros Hs Hnear. unfold near_lex in Hnear. destruct rev; cbn [lex_seek].
  - destruct max as [| |v|v]; cbn in Hnear; [done|..].
    + by apply before_score_seek.
    + right. unfold zkey. cbn [fst snd]. rewrite blt_app.
      apply ble_lt_or_eq in Hnear as [Hlt| ->]; [|apply blt_snoc]. eapply blt_trans; [done|apply blt_snoc].
    + right. unfold zkey. cbn [fst snd]. by rewrite blt_app.
  - destruct min as [| |v|v]; cbn in Hnear; [|done|..].
    + by apply after_score_seek.
    + destruct v as [|b v _] using rev_ind; [by apply after_score_seek|].
      replace (match v ++ [b] with [] => after_score s | _ :: _ => be 8 (encode_score s) ++ take (length (v ++ [b]) - 1) (v ++ [b]) end)
        with (be 8 (encode_score s) ++ v).
      2:{ rewrite length_app. cbn [length]. replace (length v + 1 - 1)%nat with (length v) by lia.
          rewrite take_app_length. by destruct v. }
      right. unfold zkey. cbn [fst snd]. rewrite blt_app.
      apply ble_lt_or_eq in Hnear as [Hlt|<-]; [|apply blt_snoc]. eapply blt_trans; [apply blt_snoc|done].
    + right. unfold zkey. cbn [fst snd]. by rewrite blt_app.
Qed.

Lemma lex_seek_walk min max rev Y s offset limit :
  zwf Y → (∀ p, p ∈ zlist Y → p.2 = s) → score_ok s →
  lex_walk (near_lex min max rev) (far_lex min max rev) offset limit
    (walked rev (lex_seek s (if rev then max else min) rev) Y).*1 =
  lex_walk (near_lex min max rev) (far_lex min max rev) offset limit (in_order rev Y).*1.
Proof.
  intros HY Hone Hs. unfold lex_walk. pose proof (lex_bounded min max rev Y s HY Hone) as Hb.
  rewrite (drop_while_filter _ _ _ Hb), (drop_while_filter (near_lex min max rev) (far_lex min max rev)).
  2:{ by apply StronglySorted_filter. }
  unfold walked. rewrite list_filter_filter.
  rewrite (list_filter_iff' _ (λ p : bytes * Z, near_lex min max rev p.1 = true)); [done|].
  intros [m sc] Hp%elem_of_in_order. cbn. split; [naive_solver|]. intros Hn. split; [done|].
  pose proof (Hone _ Hp) as E. cbn in E. subst sc. by apply lex_seek_near.
Qed.

Lemma zlist_wf_head Y p : zwf Y → head (zlist Y) = Some p → score_ok p.2.
Proof. intros HY E. eapply zlist_scores; [done|]. destruct (zlist Y); [done|]. injection E as ->. by left. Qed.

Lemma limit_pos count : count ≠ 0 → 0 < limit_of count.
Proof. unfold limit_of, U64_MAX. destruct (Z.ltb_spec count 0); lia. Qed.

Lemma wp_zrange_by_lex min max rev offset count H w Q :
  env_ok w → zheld H w →
  (∀ w', zread_only H w w' → Q (Ok (lex_range min max rev offset count (members H))) w') →
  wp (zrange_by_lex st slot key min max rev offset count) w Q.
Proof.
  intros Henv HH HQ. destruct (zheld_size _ _ HH) as [_ Hwf]. unfold zrange_by_lex. apply wp_try.
  apply (wp_walk false _ _ _ H); [done|apply HH|]. intros w1 Hro1. apply wp_try.
  apply (wp_walk true _ _ _ H); [apply Hro1|by apply (zheld_after H w w1)|]. intros w2 Hro2.
  pose proof (zread_only_trans _ _ _ _ Hro1 Hro2) as Hro. rewrite !walked_all, !visit_end. cbn [in_order].
  set (Y := members H) in *.
  assert (Elast : head (List.rev (zlist Y)) = last (zlist Y)).
  { generalize (zlist Y). intros l. destruct l as [|x l _] using rev_ind; [done|].
    by rewrite rev_app_distr, last_snoc. }
  rewrite Elast. unfold lex_range in HQ.
  destruct (head (zlist Y)) as [[first low]|] eqn:Eh; [|wp_op; by apply HQ].
  destruct (last (zlist Y)) as [[lst high]|] eqn:El; [|wp_op; by apply HQ].
  destruct (negb (lb_ge_lower min lst) || negb (lb_le_upper max first)); cbn [orb] in *; [wp_op; by apply HQ|].
  destruct (Z.ltb_spec offset 0) as [|Ho]; cbn [orb] in *; [wp_op; by apply HQ|].
  destruct (Z.eqb_spec count 0) as [|Hc]; [wp_op; by apply HQ|]. cbv zeta. apply wp_try.
  apply (wp_walk rev _ _ _ H); [apply Hro|by apply (zheld_after H w w2)|]. intros w3 Hro3. wp_op.
  rewrite visit_lex by (done || by apply limit_pos).
  assert (Hro' : zread_only H w w3) by (by eapply zread_only_trans).
  destruct (Z.eqb_spec (encode_score low) (encode_score high)) as [E|].
  - rewrite (lex_seek_walk min max rev _ low); [by apply HQ|done| |].
    + exact (one_score_ends Y _ _ Hwf Eh El E).
    + exact (zlist_wf_head Y _ Hwf Eh).
  - rewrite walked_all. by apply HQ.
Qed.

(** With one score the range is the members within the bounds, in order. *)
Definition in_lex (min max : LexBound) (p : bytes * Z) : Prop :=
  lb_ge_lower min p.1 && lb_le_upper max p.1 = true.
#[global] Instance in_lex_dec min max p : Decision (in_lex min max p).
Proof. unfold in_lex. apply _. Defined.

Lemma in_lex_near_far min max rev p :
  in_lex min max p ↔ near_lex min max rev p.1 = true ∧ far_lex min max rev p.1 = true.
Proof. unfold in_lex, near_lex, far_lex. rewrite andb_true_iff. destruct rev; tauto. Qed.

Lemma lex_range_one_score min max rev offset count Y :
  zwf Y → one_score Y → 0 <= offset → count ≠ 0 →
  lex_range min max rev offset count Y =
  take (Z.to_nat (limit_of count)) (drop (Z.to_nat offset) (filter (in_lex min max) (in_order rev Y)).*1).
Proof.
  intros HY [s Hone] Ho Hc. pose proof (lex_bounded min max rev Y s HY Hone) as Hb.
  assert (Hboth : (filter (in_lex min max) (in_order rev Y)) =
    filter (λ p : bytes * Z, far_lex min max rev p.1 = true)
      (filter (λ p : bytes * Z, near_lex min max rev p.1 = true) (in_order rev Y))).
  { rewrite list_filter_filter. apply list_filter_iff'. intros p _.
    rewrite (in_lex_near_far min max rev). tauto. }
  assert (Hwalk : lex_walk (near_lex min max rev) (far_lex min max rev) offset (limit_of count) (in_order rev Y).*1 =
    take (Z.to_nat (limit_of count)) (drop (Z.to_nat offset) (filter (in_lex min max) (in_order rev Y)).*1)).
  { unfold lex_walk. rewrite (drop_while_filter _ _ _ Hb), Hboth.
    assert (Hb' := StronglySorted_filter _ (λ p : bytes * Z, near_lex min max rev p.1 = true) _ Hb).
    revert Hb'. generalize (filter (λ p : bytes * Z, near_lex min max rev p.1 = true) (in_order rev Y)).
    intros l Hl. pose proof (take_while_filter _ _ _ (Z.to_nat offset) Hl) as Etw.
    destruct l as [|[m sc] l]; [cbn; by rewrite drop_nil, take_nil|]. cbn [fmap list_fmap fst] in *.
    destruct (far_lex min max rev m) eqn:Ef; [by rewrite Etw|].
    pose proof (take_while_filter _ _ _ 0%nat Hl) as E0. cbn [fmap list_fmap fst] in E0.
    rewrite !drop_0 in E0. cbn [take_while] in E0. rewrite Ef in E0. rewrite <-E0. by rewrite drop_nil, take_nil. }
  unfold lex_range. destruct (head (zlist Y)) as [[first low]|] eqn:Eh.
  2:{ destruct (zlist Y) eqn:El; [|done]. unfold in_order. rewrite El.
      destruct rev; cbn; by rewrite drop_nil, take_nil. }
  destruct (last (zlist Y)) as [[lst high]|] eqn:El; [|by apply last_None in El; rewrite El in Eh].
  rewrite (proj2 (Z.ltb_ge offset 0)), (proj2 (Z.eqb_neq count 0)), !orb_false_r by done.
  destruct (negb (lb_ge_lower min lst) || negb (lb_le_upper max first)) eqn:Eg; [|done].
  rewrite filter_none; [cbn; by rewrite drop_nil, take_nil|].
  intros p Hp%elem_of_in_order. unfold in_lex. rewrite andb_true_iff. intros [Hlo Hhi].
  assert (Hs : StronglySorted (λ p q : bytes * Z, blt p.1 q.1 = true) (zlist Y)) by exact (in_order_members false Y s HY Hone).
  assert (Transitive (λ p q : bytes * Z, blt p.1 q.1 = true)) by (intros ???; apply blt_trans).
  destruct (sorted_ends _ _ _ _ p Hs Eh El Hp) as [H1 H2]. apply orb_true_iff in Eg as [Eg|Eg]; apply negb_true_iff in Eg.
  - destruct H2 as [->|H2]; [cbn in *; congruence|]. apply (lb_monotone min) in H2 as [H2 _]. apply H2 in Hlo. cbn in *. congruence.
  - destruct H1 as [->|H1]; [cbn in *; congruence|]. apply (lb_monotone max) in H1 as [_ H1]. apply H1 in Hhi. cbn in *. congruence.
Qed.

(** ** Removing ranges *)

Lemma zwithout_size ms Y :
  NoDup ms → (∀ m, m ∈ ms → is_Some (Y !! m)) →
  Z.of_nat (size Y) - Z.of_nat (size (zwithout ms Y)) = len ms.
Proof.
  revert Y. induction ms as [|m ms IH]; intros Y Hnd Hin.
  { rewrite zwithout_nil. cbn. lia. }
  apply NoDup_cons in Hnd as [Hnin Hnd]. rewrite <-zwithout_cons.
  destruct (Hin m) as [s Hs]; [by left|]. destruct (zdelete_sizes Y m s Hs) as [Hd _].
  specialize (IH (delete m Y) Hnd). cbn [length]. rewrite Nat2Z.inj_succ.
  rewrite <-IH; [lia|]. intros m' Hm'. rewrite lookup_delete_ne by (by intros <-). apply Hin. by right.
Qed.

Lemma wp_zrem_after ms H w w1 Q :
  let Y := members H in let Y' := zwithout ms Y in
  zread_only H w w1 → zheld H w →
  (∀ w', effect a w w' → zturns H (some_set Y') w w' → Q (Ok (Z.of_nat (size Y) - Z.of_nat (size Y'))) w') →
  wp (zrem st slot key ms) w1 Q.
Proof.
  intros Y Y' Hro HH HQ. apply (wp_zrem ms H); [apply Hro|by apply (zheld_after H w w1)|].
  intros w' He Ht. apply HQ; [eapply effect_trans; [apply Hro|done]|]. by eapply zturns_after.
Qed.

Lemma wp_zpop count max_end H w Q :
  let popped := take (Z.to_nat count) (in_order max_end (members H)) in
  env_ok w → zheld H w → 0 <= count →
  (∀ w', effect a w w' → zturns H (some_set (zwithout popped.*1 (members H))) w w' → Q (Ok popped) w') →
  wp (zpop st slot key count max_end) w Q.
Proof.
  intros popped Henv HH Hc HQ. unfold zpop. apply wp_try.
  assert (Hpop : wp (if 0 <? count then walk st slot key max_end [] (pop_visit count) [] else Ret (Ok [])) w
    (λ r w1, r = Ok popped ∧ zread_only H w w1)).
  { destruct (Z.ltb_spec 0 count).
    - apply (wp_walk max_end _ _ _ H); [done|apply HH|]. intros w1 Hro. split; [|done].
      rewrite walked_all, visit_pop by done. cbn [app length]. by rewrite Z.sub_0_r.
    - apply wp_ret. split; [unfold popped; by replace (Z.to_nat count) with 0%nat by lia|].
      constructor; try done. apply effect_refl, Henv. }
  eapply wp_conseq; [exact Hpop|]. intros r w1 [-> Hro]. apply wp_try.
  apply (wp_zrem_after _ H w); [done..|]. intros w' He Ht. wp_op. by apply HQ.
Qed.

(** A range read, then what it answered removed. *)
Lemma wp_remove_range {B} (p : prog (result (list B))) (f : list B → list bytes) (l : list B) H w Q :
  zheld H w → wp p w (λ r w1, r = Ok l ∧ zread_only H w w1) →
  NoDup (f l) → (∀ m, m ∈ f l → is_Some (members H !! m)) →
  (∀ w', effect a w w' → zturns H (some_set (zwithout (f l) (members H))) w w' →
     Q (Ok (len (f l))) w') →
  wp (doomed <-? p ;; zrem st slot key (f doomed)) w Q.
Proof.
  intros HH Hp Hnd Hin HQ. apply wp_try. eapply wp_conseq; [exact Hp|]. intros r w1 [-> Hro].
  apply (wp_zrem_after _ H w); [done..|]. intros w' He Ht. rewrite zwithout_size by done. by apply HQ.
Qed.

Lemma sublist_members l Y :
  l ⊆ zlist Y → ∀ m, m ∈ l.*1 → is_Some (Y !! m).
Proof.
  intros Hsub m ([m' s] & -> & Hp)%list_elem_of_fmap. apply Hsub, elem_of_zlist in Hp. cbn. eauto.
Qed.

Lemma sublist_nodup (l : list (bytes * Z)) rev Y : sublist l (in_order rev Y) → NoDup l.*1 ∧ l ⊆ zlist Y.
Proof.
  intros Hs. split.
  - eapply sublist_NoDup; [apply (NoDup_in_order rev Y)|]. by apply (fmap_sublist fst).
  - intros p Hp. apply (elem_of_in_order rev). by eapply elem_of_sublist.
Qed.

Lemma window_sublist {A} (l : list A) start stop : sublist (window l start stop) l.
Proof.
  unfold window. cbv zeta. case_match; [apply sublist_nil_l|].
  etransitivity; [apply sublist_take|apply sublist_drop].
Qed.

Lemma score_range_all min max rev Y :
  Z.of_nat (size Y) < 2 ^ 32 → score_range min max rev 0 (-1) Y = filter (in_score min max) (in_order rev Y).
Proof.
  intros Hs. unfold score_range. cbn [Z.ltb Z.eqb Z.compare orb]. rewrite drop_0. apply take_ge.
  pose proof (length_filter (in_score min max) (in_order rev Y)). pose proof (length_in_order rev Y).
  unfold limit_of, U64_MAX. cbn [Z.ltb Z.compare]. lia.
Qed.

Lemma drop_while_sublist P l : sublist (drop_while P l) l.
Proof. induction l as [|x l IH]; cbn; [done|]. destruct (P x); [by constructor|done]. Qed.

Lemma take_while_sublist P l : sublist (take_while P l) l.
Proof. induction l as [|x l IH]; cbn; [done|]. destruct (P x); [by constructor|apply sublist_nil_l]. Qed.

Lemma lex_range_sublist min max rev offset count Y :
  sublist (lex_range min max rev offset count Y) (in_order rev Y).*1.
Proof.
  unfold lex_range. destruct (head _) as [[? ?]|]; [|apply sublist_nil_l].
  destruct (last _) as [[? ?]|]; [|apply sublist_nil_l]. case_match; [apply sublist_nil_l|].
  unfold lex_walk. pose proof (drop_while_sublist (λ m, negb (near_lex min max rev m)) (in_order rev Y).*1) as Hd.
  destruct (drop_while _ _) as [|m rest]; [apply sublist_nil_l|]. case_match; [|apply sublist_nil_l].
  etransitivity; [apply sublist_take|]. etransitivity; [apply take_while_sublist|].
  etransitivity; [apply sublist_drop|done].
Qed.

Lemma in_order_member rev Y m : m ∈ (in_order rev Y).*1 → is_Some (Y !! m).
Proof.
  intros ([m' s] & -> & Hp%elem_of_in_order%elem_of_zlist)%list_elem_of_fmap. cbn. eauto.
Qed.

Lemma wp_zremrangebyscore min max H w Q :
  let doomed := (filter (in_score min max) (zlist (members H))).*1 in
  env_ok w → zheld H w → bound_ok min → bound_ok max →
  (∀ w', effect a w w' → zturns H (some_set (zwithout doomed (members H))) w w' →
     Q (Ok (len doomed)) w') →
  wp (zremrangebyscore st slot key min max) w Q.
Proof.
  intros doomed Henv HH Hmin Hmax HQ. destruct (zheld_size _ _ HH) as [Hs _].
  assert (Hsub : sublist (filter (in_score min max) (zlist (members H))) (in_order false (members H))) by apply sublist_filter.
  destruct (sublist_nodup _ _ _ Hsub) as [Hnd Hin].
  apply (wp_remove_range _ (fmap fst) (filter (in_score min max) (zlist (members H))) H); [done| |done| |done].
  - apply (wp_zrange_by_score min max false 0 (-1) H); [done..|]. intros w' Hro. split; [|done].
    by rewrite score_range_all.
  - by apply sublist_members.
Qed.

Lemma wp_zremrangebyrank start stop H w Q :
  let doomed := (window (zlist (members H)) start stop).*1 in
  env_ok w → zheld H w → in_i64 start → in_i64 stop →
  (∀ w', effect a w w' → zturns H (some_set (zwithout doomed (members H))) w w' →
     Q (Ok (len doomed)) w') →
  wp (zremrangebyrank st slot key start stop) w Q.
Proof.
  intros doomed Henv HH Hi1 Hi2 HQ.
  destruct (sublist_nodup _ false (members H) (window_sublist (zlist (members H)) start stop)) as [Hnd Hin].
  apply (wp_remove_range _ (fmap fst) (window (zlist (members H)) start stop) H); [done| |done| |done].
  - apply (wp_rank_window start stop false H); [done..|]. by intros w' Hro.
  - by apply sublist_members.
Qed.

Lemma wp_zremrangebylex min max H w Q :
  let doomed := lex_range min max false 0 (-1) (members H) in
  env_ok w → zheld H w →
  (∀ w', effect a w w' → zturns H (some_set (zwithout doomed (members H))) w w' →
     Q (Ok (len doomed)) w') →
  wp (zremrangebylex st slot key min max) w Q.
Proof.
  intros doomed Henv HH HQ. pose proof (lex_range_sublist min max false 0 (-1) (members H)) as Hsub.
  apply (wp_remove_range _ id doomed H); [done| | | |done].
  - apply (wp_zrange_by_lex min max false 0 (-1) H); [done..|]. by intros w' Hro.
  - eapply sublist_NoDup; [apply NoDup_in_order|exact Hsub].
  - intros m Hm. apply (in_order_member false). by eapply elem_of_sublist.
Qed.

(** ** Replacing a key, and sizes *)

Lemma zbytes_dom Y Y' : dom Y = dom Y' → zbytes Y = zbytes Y'.
Proof.
  assert (E : ∀ Y : zset, zbytes Y = weight zweight (gset_to_gmap ([] : bytes) (dom Y))).
  { intros Z0. induction Z0 as [|m s Z0 Hm IH] using map_ind; [by rewrite dom_empty_L, gset_to_gmap_empty|].
    rewrite zbytes_insert, Hm, dom_insert_L, gset_to_gmap_union_singleton, weight_insert_new, IH.
    - unfold zweight at 2. lia.
    - apply lookup_gset_to_gmap_None. by apply not_elem_of_dom. }
  intros Ed. by rewrite !E, Ed.
Qed.

Lemma sum_costs l acc :
  NoDup l → 0 <= acc → acc + zbytes (list_to_map ((λ m, (m, 0)) <$> l)) < 2 ^ 64 →
  foldl (λ acc m, u64 (acc + member_cost m)) acc l = acc + zbytes (list_to_map ((λ m, (m, 0)) <$> l)).
Proof.
  revert acc. induction l as [|m l IH]; intros acc Hnd Hacc Hb.
  { cbn. unfold zbytes. rewrite (proj2 (zrows_empty ∅)), weight_empty by done. lia. }
  apply NoDup_cons in Hnd as [Hnin Hnd]. cbn [fmap list_fmap list_to_map foldr foldl] in *.
  set (G := list_to_map ((λ m, (m, 0)) <$> l) : zset) in *.
  assert (HG : G !! m = None).
  { apply not_elem_of_list_to_map. rewrite <-list_fmap_compose. cbn. intros (x & -> & ?)%list_elem_of_fmap. done. }
  pose proof (zbytes_nonneg G). pose proof (zbytes_insert G m 0) as E0. rewrite HG in E0.
  cbn [uncurry fst snd] in *. rewrite E0 in Hb |- *. unfold member_cost at 2.
  rewrite (wrap_id 64 (len m + 8)) by (unfold in_width; lia).
  rewrite wrap_id by (unfold in_width; lia). rewrite IH by (done || lia). fold G. lia.
Qed.

Lemma dom_zadd_unique pairs : dom (zadd_unique pairs) = list_to_set pairs.*2.
Proof.
  unfold zadd_unique. destruct pairs as [|p pairs _] using rev_ind; [done|].
  revert p. induction pairs as [|q pairs IH] using rev_ind; intros p.
  - cbn. rewrite dom_insert_L, dom_empty_L. set_solver.
  - rewrite foldl_app. cbn [foldl]. rewrite dom_insert_L, IH, !fmap_app, !list_to_set_app_L. cbn. set_solver.
Qed.

Lemma distinct_costs pairs :
  zbytes (zadd_unique pairs) < 2 ^ 64 →
  foldl (λ acc m, u64 (acc + member_cost m)) 0
    (hash_iter (gset_to_gmap tt (list_to_set pairs.*2 : gset bytes))).*1 = zbytes (zadd_unique pairs).
Proof.
  intros Hb. set (l := (hash_iter (gset_to_gmap tt (list_to_set pairs.*2 : gset bytes))).*1).
  assert (Hd : zbytes (list_to_map ((λ m, (m, 0)) <$> l)) = zbytes (zadd_unique pairs)).
  { apply zbytes_dom. rewrite dom_zadd_unique, dom_list_to_map_L, <-list_fmap_compose.
    apply set_eq. intros m. rewrite elem_of_list_to_set. unfold compose. rewrite list_fmap_id.
    unfold l. rewrite hash_iter_perm, list_elem_of_fmap. split.
    - intros ([m' []] & -> & [? _]%elem_of_map_to_list%lookup_gset_to_gmap_Some). done.
    - intros Hm. exists (m, tt). split; [done|]. apply elem_of_map_to_list, lookup_gset_to_gmap_Some. done. }
  rewrite sum_costs, Hd; [lia|apply NoDup_hash_iter|done|]. by rewrite Hd.
Qed.

Lemma wp_zreplace pairs w Q :
  let U := zadd_unique pairs in
  env_ok w → headroom w → Forall (λ p : Z * bytes, score_ok p.1) pairs →
  zbytes U < 2 ^ 64 → Z.of_nat (size U) < 2 ^ 32 →
  (∀ r w', effect a w w' →
     (if st_max st <? zbytes U then r = Err ValueTooLarge ∧ w' = w
      else r = Ok (Z.of_nat (size U)) ∧ ∀ now, zrepr a now (w_kv w') (some_set U)) → Q r w') →
  wp (zreplace st slot key pairs) w Q.
Proof.
  intros U Henv Hroom Hok Hb Hs HQ. unfold zreplace. cbv zeta. rewrite distinct_costs by done. fold U.
  destruct (st_max st <? zbytes U) eqn:Ecap.
  { wp_op. apply HQ; [apply effect_refl, Henv|done]. }
  wp_op. set (w1 := with_kv w (delete (meta_key st slot key) (w_kv w))).
  change (meta_key st slot key) with (mkey a) in w1.
  assert (He1 : effect a w w1) by (apply effect_with_kv; auto with flint; apply fresh_delete, Henv).
  assert (Hdead : ∀ now, zrepr a now (w_kv w1) None) by (intros now; cbn; by rewrite lookup_delete_eq).
  pose proof (effect_env _ _ _ He1 Henv) as Henv1.
  destruct pairs as [|p pairs]; [wp_op; by apply HQ|].
  apply wp_try. apply (wp_zadd (p :: pairs) None U); try done.
  { symmetry. apply (right_id_L ∅ (∪)). }
  rewrite ?Ecap. intros r w2 He2 [-> Hm]. cbn [members].
  assert (Hall : ∀ now, zrepr a now (w_kv w2) (Some U)) by (intros now; apply Hm; by left).
  assert (HU : some_set U = Some U) by (unfold some_set; rewrite decide_False by apply (Hall 0); done).
  pose proof (effect_env _ _ _ He2 Henv1) as Henv2.
  apply (wp_zcard (Some U)); [done|apply Hall|]. intros w3 Hro. apply HQ.
  - eapply effect_trans; [done|]. eapply effect_trans; [done|apply Hro].
  - split; [done|]. intros now. rewrite HU. by apply (zr_keeps _ _ _ Hro).
Qed.

(** What a read is charged. *)
Definition read_estimate (rows : ZsetRows) (Y : zset) : Z :=
  let mean := zbytes Y / Z.of_nat (size Y) in
  match rows with
  | RAll => zbytes Y
  | RAtMost n => saturating_mul (Z.min n (Z.of_nat (size Y))) mean
  | RRanks start stop => saturating_mul (len (window (zlist Y) start stop)) mean
  end.

Definition rows_ok (rows : ZsetRows) : Prop :=
  match rows with RRanks start stop => in_i64 start ∧ in_i64 stop | _ => True end.

Lemma length_window {A} (l : list A) start stop :
  len (window l start stop) =
  let at_ i := if i <? 0 then len l + i else i in
  Z.max 0 (Z.min (at_ stop) (len l - 1) - Z.max (at_ start) 0 + 1).
Proof.
  unfold window. cbv zeta. destruct (Z.ltb_spec (Z.min (if stop <? 0 then len l + stop else stop) (len l - 1))
    (Z.max (if start <? 0 then len l + start else start) 0)); [cbn; lia|].
  rewrite length_take, length_drop. lia.
Qed.

Lemma saturating_mul_0 n : saturating_mul 0 n = 0.
Proof. done. Qed.

Lemma wp_zset_read_bytes rows H w Q :
  env_ok w → zrepr a (w_clock w 0%nat) (w_kv w) H → rows_ok rows →
  (∀ w', zread_only H w w' → Q (Ok (read_estimate rows <$> H)) w') →
  wp (zset_read_bytes st slot key rows) w Q.
Proof.
  intros Henv HH Hrows HQ. unfold zset_read_bytes. apply wp_try. apply (wp_zread H); [done..|].
  intros o w1 Hro Hread. pose proof (zread_columns _ _ _ _ Hread) as [Hcol _]. specialize (HQ w1 Hro).
  destruct o as [meta|]; cbn [zread_as] in Hread; [|subst H; by wp_op].
  destruct Hread as (Y & -> & _). destruct Hcol as (Es & Eb & Hs & Hb). cbn [members fmap option_fmap option_map] in *.
  destruct (Z.eqb_spec (c_size meta) 0); [lia|]. cbv zeta. rewrite !Eb, !Es in *.
  destruct rows as [|n0|start stop]; cbn [read_estimate] in HQ; [by wp_op..|].
  destruct Hrows as [H1 H2]. rewrite !znorm_exact by (done || lia).
  rewrite length_window, length_zlist in HQ. cbv zeta in HQ.
  set (from := Z.max _ 0) in *. set (to := Z.min _ _) in *.
  destruct (Z.ltb_spec to from); wp_op.
  - by rewrite Z.max_l, saturating_mul_0 in HQ by lia.
  - by rewrite Z.max_r in HQ by lia.
Qed.

Lemma wp_zset_stored_bytes H w Q :
  env_ok w → zrepr a (w_clock w 0%nat) (w_kv w) H →
  (∀ w', zread_only H w w' → Q (Ok (zbytes <$> H)) w') →
  wp (zset_stored_bytes st slot key) w Q.
Proof.
  intros Henv HH HQ. unfold zset_stored_bytes. apply wp_try. apply (wp_zread H); [done..|].
  intros o w1 Hro Hread. pose proof (zread_columns _ _ _ _ Hread) as [Hcol _]. wp_op.
  destruct o as [meta|]; cbn [zread_as] in Hread; [|subst H; by apply HQ].
  destruct Hread as (Y & -> & _). destruct Hcol as (_ & Eb & _). cbn. rewrite Eb. by apply HQ.
Qed.

Lemma wp_zlexcount min max H w Q :
  env_ok w → zheld H w →
  (∀ w', zread_only H w w' → Q (Ok (len (lex_range min max false 0 (-1) (members H)))) w') →
  wp (zlexcount st slot key min max) w Q.
Proof.
  intros Henv HH HQ. unfold zlexcount. apply wp_try. apply (wp_zrange_by_lex min max false 0 (-1) H); [done..|].
  intros w' Hro. wp_op. by apply HQ.
Qed.
End ZsetProofs.

(** ** The order clients see *)

(** Members rank by score, and at one score by their bytes; a [-0] stored by
    an older build ranks just below [0]. *)
Definition ranks_below (p q : bytes * Z) : Prop :=
  f64_lt p.2 q.2 = true ∨ (p.2 = q.2 ∧ blt p.1 q.1 = true) ∨ (p.2 = F64_NEG_ZERO ∧ q.2 = F64_ZERO).

Lemma zlt_ranks p q : score_ok p.2 → score_ok q.2 → zlt p q → ranks_below p q.
Proof.
  intros Hp Hq Hlt. pose proof (zlt_key p q Hp Hq Hlt) as Hk. unfold ranks_below. rewrite f64_lt_key by done.
  destruct (decide (f64_key p.2 < f64_key q.2)) as [|Hge]; [by left|right].
  assert (Ek : f64_key p.2 = f64_key q.2) by lia. unfold zlt in Hlt.
  rewrite blt_true, zkey_cmp in Hlt by (apply Hp || apply Hq).
  destruct (decide (f64_key p.2 = 0)) as [Hz|Hnz].
  - rewrite Hz in Ek. symmetry in Ek. apply f64_key_zero in Hz; [|apply Hp]. apply f64_key_zero in Ek; [|apply Hq].
    destruct Hz as [Ep|Ep], Ek as [Eq|Eq]; rewrite Ep, Eq in Hlt |- *.
    + left. split; [done|]. by apply blt_true.
    + done.
    + by right.
    + left. split; [done|]. by apply blt_true.
  - left. assert (p.2 = q.2) as E.
    { apply encode_score_inj; [apply Hp|apply Hq|]. rewrite !encode_of_key by (apply Hp || apply Hq || lia).
      by rewrite Ek. }
    split; [done|]. rewrite E, Z.compare_refl in Hlt. by apply blt_true.
Qed.

Lemma zlist_ranked Y : zwf Y → StronglySorted ranks_below (zlist Y).
Proof.
  intros HY. eapply StronglySorted_impl_in; [|by apply zlist_sorted].
  intros p q Hp Hq. apply zlt_ranks; by eapply zlist_scores.
Qed.

Lemma zunion_sizes U Y :
  zbytes U <= zbytes (U ∪ Y) ∧ (size U ≤ size (U ∪ Y))%nat.
Proof.
  destruct (zbytes_union_ge Y U) as [Hb Hs].
  assert (Ed : dom (Y ∪ U) = dom (U ∪ Y)) by (rewrite !dom_union_L; set_solver).
  rewrite (zbytes_dom _ _ Ed) in Hb. split; [done|].
  rewrite <-(size_dom (Y ∪ U)), Ed, size_dom in Hs. done.
Qed.

(** ** A small set, for the examples *)

Definition demo_pairs : list (Z * bytes) :=
  [(4611686018427387904, bstr "b"); (4607182418800017408, bstr "c"); (4607182418800017408, bstr "a")].

(** The scores of [demo_pairs] are 2, 1 and 1. *)
Definition demo_zset : zset := zadd_unique demo_pairs.

Lemma demo_pairs_ok : Forall (λ p : Z * bytes, score_ok p.1) demo_pairs.
Proof. repeat constructor; done. Qed.

(** The world after ZADD of the pairs to an empty store. *)
Definition demo_zworld : world kvmap :=
  match run (@zadd canonical_iter demo_store 7 (bstr "k") demo_pairs) (demo_world ∅) with
  | Some (_, w) => w
  | None => demo_world ∅
  end.

Lemma demo_zworld_ok :
  env_ok demo_zworld ∧ headroom demo_zworld ∧ zheld demo_store 7 (bstr "k") (Some demo_zset) demo_zworld.
Proof.
  assert (H : wp (@zadd canonical_iter demo_store 7 (bstr "k") demo_pairs) (demo_world ∅)
    (λ _ w, env_ok w ∧ zheld demo_store 7 (bstr "k") (Some demo_zset) w)).
  { apply (@wp_zadd canonical_iter demo_store 7 (bstr "k") demo_addr_wf demo_pairs None demo_zset);
      [|by constructor|done|done|done|apply demo_pairs_ok|by vm_compute|by vm_compute|].
    { symmetry. apply (right_id_L ∅ (∪)). }
    intros r w He Hr. replace (st_max demo_store <? zbytes demo_zset) with false in Hr by (by vm_compute).
    destruct Hr as [_ Hm]. split; [eapply effect_env; [done|by constructor]|].
    intros n. apply Hm. by left. }
  destruct H as (r & w & Hrun & Henv & Hheld). assert (E : demo_zworld = w) by (unfold demo_zworld; by rewrite Hrun).
  assert (El : w_last demo_zworld = 5242881) by (vm_compute; reflexivity).
  rewrite E in El |- *. split_and!; [done| |done]. unfold headroom, U64_MAX. rewrite El. lia.
Qed.

(** * Properties *)

(** C7. ZADD, ZINCRBY and the store side of ZUNIONSTORE keep the two row
    families in step. ZADD lays the scores given (the last of a repeated
    member, a [-0] as [0]) over the set and counts the new members; ZINCRBY
    adds to a member's score, a new member taking the increment, and refuses a
    sum that is not a number; a replaced key holds exactly the given members,
    whatever it held. A set over the cap is refused and nothing changes. *)
Theorem zadd_refines `{HI : HashIter} (st : store) (slot : Z) (key : bytes) (pairs : list (Z * bytes)) (delta : Z) (m : bytes) (H : option zset) (w : world kvmap) :
  let a := mkAddr (st_ns st) slot key in
  let Y := members H in
  let U := zadd_unique pairs in
  let next := zincr_next (Y !! m) delta in
  addr_wf a → env_ok w → headroom w → zheld st slot key H w →
  pairs ≠ [] → Forall (λ p : Z * bytes, score_ok p.1) pairs → in_width 64 delta →
  zbytes (U ∪ Y) < 2 ^ 64 → Z.of_nat (size (U ∪ Y)) < 2 ^ 32 →
  zbytes Y + len m + 8 < 2 ^ 64 → Z.of_nat (size Y) + 1 < 2 ^ 32 →
  wp (zadd st slot key pairs) w (λ r w', effect a w w' ∧
    if st_max st <? zbytes (U ∪ Y) then r = Err ValueTooLarge ∧ zturns st slot key H H w w'
    else r = Ok (Z.of_nat (size (U ∪ Y)) - Z.of_nat (size Y)) ∧ zmakes st slot key H (U ∪ Y) w w') ∧
  wp (zincr_by st slot key delta m) w (λ r w', effect a w w' ∧
    let Y' := <[m := stored_score next]> Y in
    if f64_is_nan next then r = Err NanScore ∧ zturns st slot key H H w w'
    else if st_max st <? zbytes Y' then r = Err ValueTooLarge ∧ zturns st slot key H H w w'
    else r = Ok next ∧ zmakes st slot key H Y' w w') ∧
  wp (zreplace st slot key pairs) w (λ r w', effect a w w' ∧
    if st_max st <? zbytes U then r = Err ValueTooLarge ∧ w' = w
    else r = Ok (Z.of_nat (size U)) ∧ ∀ now, zrepr a now (w_kv w') (Some U)).
Proof.
  intros a Y U next Ha Henv Hroom HH Hne Hok Hd Hb Hs Hb' Hs'. destruct (zunion_sizes U Y) as [HbU HsU].
  split_and!.
  - apply (wp_zadd st slot key Ha pairs H (U ∪ Y));
      [reflexivity|exact Henv|exact Hroom|exact (HH 0%nat)|exact Hne|exact Hok|exact Hb|exact Hs|].
    intros r w' He Hr. split; [exact He|exact Hr].
  - apply (wp_zincr_by st slot key Ha delta m H);
      [exact Henv|exact Hroom|exact HH|exact Hd|exact Hb'|exact Hs'|].
    intros r w' He Hr. split; [exact He|exact Hr].
  - apply (wp_zreplace st slot key Ha pairs);
      [exact Henv|exact Hroom|exact Hok|fold U; lia|fold U; lia|].
    intros r w' He Hr. split; [exact He|]. fold U in Hr. destruct (_ <? _); [exact Hr|]. destruct Hr as [-> Hr].
    split; [reflexivity|]. intros now. specialize (Hr now). unfold some_set in Hr. rewrite decide_False in Hr; [exact Hr|].
    intros E. apply (zadd_unique_nonempty pairs ∅ Hne). fold U. rewrite E. apply (left_id_L ∅ (∪)).
Qed.

Lemma zadd_refines_witness :
  let w := demo_zworld in
  let old := Some demo_zset in
  wp (@zincr_by canonical_iter demo_store 7 (bstr "k") 4607182418800017408 (bstr "b")) w (λ r w',
    r = Ok 4613937818241073152 ∧
    zmakes demo_store 7 (bstr "k") old (<[bstr "b" := 4613937818241073152]> demo_zset) w w').
Proof.
  destruct demo_zworld_ok as (Henv & Hroom & HH).
  destruct (@zadd_refines canonical_iter demo_store 7 (bstr "k") demo_pairs 4607182418800017408 (bstr "b")
    (Some demo_zset) demo_zworld demo_addr_wf Henv Hroom HH) as (_ & Hi & _);
    [done|apply demo_pairs_ok|closed|by vm_compute|by vm_compute|by vm_compute|by vm_compute|].
  eapply wp_conseq; [exact Hi|]. intros r w' [_ Hr]. cbv zeta in Hr.
  replace (f64_is_nan _) with false in Hr by (by vm_compute).
  replace (st_max demo_store <? _) with false in Hr by (by vm_compute).
  destruct Hr as [-> Hr]. split; [vm_compute; reflexivity|]. exact Hr.
Defined.

(** ZADD with NX, XX, GT, LT and INCR applies its pairs in order, each on
    what the ones before it left, although it reads each member once and
    writes only at the end: the answer counts what was added and updated and
    carries the last score set, a refusal (a sum that is not a number, a set
    over the cap) changes nothing, and XX makes no key. *)
Theorem zadd_with_refines `{HI : HashIter} (st : store) (slot : Z) (key : bytes)
    (pairs : list (Z * bytes)) (flags : ZaddFlags) (H : option zset) (w : world kvmap) :
  let a := mkAddr (st_ns st) slot key in
  addr_wf a → env_ok w → headroom w → zrepr a (w_clock w 0%nat) (w_kv w) H →
  zbytes (members H) <= st_max st → len pairs < 2 ^ 64 →
  Forall (λ p : Z * bytes, score_ok p.1) pairs →
  (∀ Y' out, zadd_all flags (members H, no_outcome) pairs = Ok (Y', out) →
     zbytes Y' < 2 ^ 64 ∧ Z.of_nat (size Y') < 2 ^ 32) →
  wp (zadd_with st slot key pairs flags) w (λ r w', effect a w w' ∧
    match zadd_all flags (members H, no_outcome) pairs with
    | Err e => r = Err e ∧ zturns st slot key H H w w'
    | Ok (Y', out) =>
        if st_max st <? zbytes Y' then r = Err ValueTooLarge ∧ zturns st slot key H H w w'
        else r = Ok out ∧
             if decide (Y' = ∅) then zturns st slot key H H w w' else zmakes st slot key H Y' w w'
    end).
Proof.
  intros a Ha Henv Hroom HH Hcap Hn Hok Hfit.
  apply (wp_zadd_with st slot key Ha flags pairs H); [exact Henv|exact Hroom|exact HH|exact Hcap|exact Hn|exact Hok|exact Hfit|].
  intros r w' He Hr. split; [exact He|exact Hr].
Qed.

(** GT on a repeated member: the second pair sees the first's result. *)
Lemma zadd_with_refines_witness :
  let flags := mkZaddFlags false false true false false in
  let pairs := [(4617315517961601024, bstr "a"); (4613937818241073152, bstr "a")] in
  wp (@zadd_with canonical_iter demo_store 7 (bstr "k") pairs flags) demo_zworld (λ r w',
    r = Ok (mkZaddOutcome 0 1 (Some 4617315517961601024)) ∧
    ∃ Y', zmakes demo_store 7 (bstr "k") (Some demo_zset) Y' demo_zworld w' ∧
          Y' !! bstr "a" = Some 4617315517961601024).
Proof.
  intros flags pairs. destruct demo_zworld_ok as (Henv & Hroom & HH).
  pose proof (@zadd_with_refines canonical_iter demo_store 7 (bstr "k") pairs flags (Some demo_zset) demo_zworld
    demo_addr_wf Henv Hroom (HH 0%nat)) as HT. cbn [members] in HT.
  set (z := zadd_all flags (demo_zset, no_outcome) pairs) in HT.
  assert (Hz : match z with
    | Ok (Y', out) => out = mkZaddOutcome 0 1 (Some 4617315517961601024) ∧ zbytes Y' = 27 ∧ size Y' = 3%nat ∧
        Y' !! bstr "a" = Some 4617315517961601024
    | Err _ => False
    end) by (vm_compute; repeat split).
  clearbody z. destruct z as [[Y' out]|]; [|destruct Hz]. destruct Hz as (-> & Hb & Hs & Hl).
  eapply wp_conseq.
  - apply HT; [by vm_compute|by vm_compute|repeat constructor; done|].
    intros Y2 out2 [= <- <-]. rewrite Hb, Hs. split; reflexivity.
  - intros r w' [_ Hr]. rewrite Hb, decide_False in Hr by (intros ->; discriminate). destruct Hr as [-> Hr].
    split; [reflexivity|]. exists Y'. split; [exact Hr|exact Hl].
Defined.

(** C36. The sorted-set reads answer from the set in rank order (by score, then
    member), though each reads only the index rows it needs, from the nearer
    end or from a seek on the bound: rank windows both ways, score ranges with
    LIMIT (a [-0] stored by an older build included), counts, ranks, scores,
    the cardinality and the charged size. They change nothing but an expired
    row. *)
Theorem zset_reads_refine (st : store) (slot : Z) (key : bytes) (H : option zset) (w : world kvmap)
    (m : bytes) (ms : list bytes) (start stop : Z) (rev : bool) (min max : ScoreBound)
    (offset count : Z) (rows : ZsetRows) :
  let a := mkAddr (st_ns st) slot key in
  let Y := members H in
  addr_wf a → env_ok w → zheld st slot key H w → in_i64 start → in_i64 stop →
  bound_ok min → bound_ok max → rows_ok rows →
  let reads {B} (r : result B) (ans : B) w' := r = Ok ans ∧ zread_only st slot key H w w' in
  StronglySorted ranks_below (zlist Y) ∧
  wp (zscore st slot key m) w (λ r, reads r (Y !! m)) ∧
  wp (zmscore st slot key ms) w (λ r, reads r ((λ m, Y !! m) <$> ms)) ∧
  wp (zcard st slot key) w (λ r, reads r (Z.of_nat (size Y))) ∧
  wp (zset_stored_bytes st slot key) w (λ r, reads r (zbytes <$> H)) ∧
  wp (zset_read_bytes st slot key rows) w (λ r, reads r (read_estimate rows <$> H)) ∧
  wp (zrange_rev st slot key start stop rev) w (λ r, reads r (window (in_order rev Y) start stop)) ∧
  wp (zrange_by_score st slot key min max rev offset count) w
    (λ r, reads r (score_range min max rev offset count Y)) ∧
  wp (zcount st slot key min max) w (λ r, reads r (len (filter (in_score min max) (zlist Y)))) ∧
  wp (zrank st slot key m rev) w (λ r w', zread_only st slot key H w w' ∧
    match Y !! m with
    | None => r = Ok None
    | Some s => ∃ i, r = Ok (Some (Z.of_nat i)) ∧ in_order rev Y !! i = Some (m, s)
    end).
Proof.
  intros a Y Ha Henv HH Hi1 Hi2 Hmin Hmax Hrows reads. destruct (zheld_size st slot key H w HH) as [_ Hwf].
  pose proof (HH 0%nat) as H0. split_and!.
  - by apply zlist_ranked.
  - apply (wp_zscore st slot key Ha m H); [exact Henv|exact H0|]. intros w' Hro. split; [reflexivity|exact Hro].
  - apply (wp_zmscore st slot key Ha ms H); [exact Henv|exact HH|]. intros w' Hro. split; [reflexivity|exact Hro].
  - apply (wp_zcard st slot key H); [exact Henv|exact H0|]. intros w' Hro. split; [reflexivity|exact Hro].
  - apply (wp_zset_stored_bytes st slot key H); [exact Henv|exact H0|]. intros w' Hro. split; [reflexivity|exact Hro].
  - apply (wp_zset_read_bytes st slot key rows H); [exact Henv|exact H0|exact Hrows|]. intros w' Hro. split; [reflexivity|exact Hro].
  - apply (wp_rank_window st slot key Ha start stop rev H); [exact Henv|exact HH|exact Hi1|exact Hi2|].
    intros w' Hro. split; [reflexivity|exact Hro].
  - apply (wp_zrange_by_score st slot key Ha min max rev offset count H); [exact Henv|exact HH|exact Hmin|exact Hmax|].
    intros w' Hro. split; [reflexivity|exact Hro].
  - apply (wp_zcount st slot key Ha min max H); [exact Henv|exact HH|exact Hmin|exact Hmax|].
    intros w' Hro. split; [reflexivity|exact Hro].
  - apply (wp_zrank st slot key Ha m rev H); [exact Henv|exact HH|]. intros r w' Hro Hr. split; [exact Hro|].
    fold Y in Hr. destruct (Y !! m); [|by subst r]. destruct Hr as (i & -> & Hi). by exists i.
Qed.

Lemma zset_reads_refine_witness :
  let one := mkScoreBound 4607182418800017408 true in
  wp (zrange_rev demo_store 7 (bstr "k") 0 (-1) true) demo_zworld (λ r _,
    r = Ok [(bstr "b", 4611686018427387904); (bstr "c", 4607182418800017408); (bstr "a", 4607182418800017408)]) ∧
  wp (zrange_by_score demo_store 7 (bstr "k") one one false 1 9) demo_zworld (λ r _,
    r = Ok [(bstr "c", 4607182418800017408)]) ∧
  wp (zcount demo_store 7 (bstr "k") one one) demo_zworld (λ r _, r = Ok 2).
Proof.
  intros one. destruct demo_zworld_ok as (Henv & Hroom & HH).
  destruct (zset_reads_refine demo_store 7 (bstr "k") (Some demo_zset) demo_zworld (bstr "a") [] 0 (-1) true
    one one 1 9 RAll demo_addr_wf Henv HH) as (_ & _ & _ & _ & _ & _ & Hr & _); [closed..|].
  destruct (zset_reads_refine demo_store 7 (bstr "k") (Some demo_zset) demo_zworld (bstr "a") [] 0 (-1) false
    one one 1 9 RAll demo_addr_wf Henv HH) as (_ & _ & _ & _ & _ & _ & _ & Hs & Hc & _); [closed..|].
  split; [eapply wp_conseq; [exact Hr|]|split; [eapply wp_conseq; [exact Hs|]|eapply wp_conseq; [exact Hc|]]];
    intros r w' [-> _]; vm_compute; reflexivity.
Defined.

(** ZRANGEBYLEX walks as upstream walks: nothing unless the last member
    reaches the lower bound and the first is within the upper one; then from
    the first member past the near bound, past the offset, while the far bound
    holds, in the set's order. The seek it starts from where all scores are
    equal changes nothing, and there the answer is the members within the
    bounds. ZLEXCOUNT counts the same walk. *)
Theorem lex_ranges_refine (st : store) (slot : Z) (key : bytes) (H : option zset) (w : world kvmap)
    (min max : LexBound) (rev : bool) (offset count : Z) :
  let a := mkAddr (st_ns st) slot key in
  let Y := members H in
  addr_wf a → env_ok w → zheld st slot key H w →
  wp (zrange_by_lex st slot key min max rev offset count) w
    (λ r w', r = Ok (lex_range min max rev offset count Y) ∧ zread_only st slot key H w w') ∧
  wp (zlexcount st slot key min max) w
    (λ r w', r = Ok (len (lex_range min max false 0 (-1) Y)) ∧ zread_only st slot key H w w') ∧
  (one_score Y → 0 <= offset → count ≠ 0 →
   lex_range min max rev offset count Y =
   take (Z.to_nat (limit_of count)) (drop (Z.to_nat offset) (filter (in_lex min max) (in_order rev Y)).*1)).
Proof.
  intros a Y Ha Henv HH. destruct (zheld_size st slot key H w HH) as [_ Hwf]. split_and!.
  - apply (wp_zrange_by_lex st slot key Ha min max rev offset count H); [exact Henv|exact HH|].
    intros w' Hro. split; [reflexivity|exact Hro].
  - apply (wp_zlexcount st slot key Ha min max H); [exact Henv|exact HH|]. intros w' Hro. split; [reflexivity|exact Hro].
  - by apply lex_range_one_score.
Qed.

(** Mixed scores: the walk starts at [a], whose order is (a, c, b). *)
Lemma lex_ranges_refine_witness :
  wp (zrange_by_lex demo_store 7 (bstr "k") (LIncl (bstr "a")) (LExcl (bstr "c")) false 0 9) demo_zworld
    (λ r _, r = Ok [bstr "a"]).
Proof.
  destruct demo_zworld_ok as (Henv & Hroom & HH).
  destruct (lex_ranges_refine demo_store 7 (bstr "k") (Some demo_zset) demo_zworld (LIncl (bstr "a"))
    (LExcl (bstr "c")) false 0 9 demo_addr_wf Henv HH) as (Hr & _).
  eapply wp_conseq; [exact Hr|]. intros r w' [-> _]. vm_compute. reflexivity.
Defined.

(** ZREM, ZPOPMIN and ZPOPMAX, and the removals by score, rank and lex range
    remove exactly the members they name, from both row families, answer how
    many (the pops: which, in order), and delete the key with its last
    member. *)
Theorem zset_removals_refine (st : store) (slot : Z) (key : bytes) (H : option zset) (w : world kvmap)
    (ms : list bytes) (n start stop : Z) (max_end : bool) (min max : ScoreBound) (lmin lmax : LexBound) :
  let a := mkAddr (st_ns st) slot key in
  let Y := members H in
  addr_wf a → env_ok w → zheld st slot key H w → 0 <= n → in_i64 start → in_i64 stop →
  bound_ok min → bound_ok max →
  let removes {B} (r : result B) (ans : B) (gone : list bytes) w' :=
    r = Ok ans ∧ effect a w w' ∧ zturns st slot key H (some_set (zwithout gone Y)) w w' in
  let popped := take (Z.to_nat n) (in_order max_end Y) in
  let by_score := (filter (in_score min max) (zlist Y)).*1 in
  let by_rank := (window (zlist Y) start stop).*1 in
  let by_lex := lex_range lmin lmax false 0 (-1) Y in
  wp (zrem st slot key ms) w (λ r, removes r (Z.of_nat (size Y) - Z.of_nat (size (zwithout ms Y))) ms) ∧
  wp (zpop st slot key n max_end) w (λ r, removes r popped popped.*1) ∧
  wp (zremrangebyscore st slot key min max) w (λ r, removes r (len by_score) by_score) ∧
  wp (zremrangebyrank st slot key start stop) w (λ r, removes r (len by_rank) by_rank) ∧
  wp (zremrangebylex st slot key lmin lmax) w (λ r, removes r (len by_lex) by_lex).
Proof.
  intros a Y Ha Henv HH Hn Hi1 Hi2 Hmin Hmax removes popped by_score by_rank by_lex.
  pose proof (HH 0%nat) as H0. split_and!.
  - apply (wp_zrem st slot key Ha ms H); [exact Henv|exact H0|]. intros w' He Ht. split; [reflexivity|]. split; [exact He|exact Ht].
  - apply (wp_zpop st slot key Ha n max_end H); [exact Henv|exact HH|exact Hn|]. intros w' He Ht. split; [reflexivity|]. split; [exact He|exact Ht].
  - apply (wp_zremrangebyscore st slot key Ha min max H); [exact Henv|exact HH|exact Hmin|exact Hmax|].
    intros w' He Ht. split; [reflexivity|]. split; [exact He|exact Ht].
  - apply (wp_zremrangebyrank st slot key Ha start stop H); [exact Henv|exact HH|exact Hi1|exact Hi2|].
    intros w' He Ht. split; [reflexivity|]. split; [exact He|exact Ht].
  - apply (wp_zremrangebylex st slot key Ha lmin lmax H); [exact Henv|exact HH|]. intros w' He Ht. split; [reflexivity|]. split; [exact He|exact Ht].
Qed.

Lemma zset_removals_refine_witness :
  wp (zpop demo_store 7 (bstr "k") 2 true) demo_zworld (λ r w',
    r = Ok [(bstr "b", 4611686018427387904); (bstr "c", 4607182418800017408)] ∧
    ∃ Y', zturns demo_store 7 (bstr "k") (Some demo_zset) (Some Y') demo_zworld w' ∧
          map_to_list Y' = [(bstr "a", 4607182418800017408)]).
Proof.
  destruct demo_zworld_ok as (Henv & Hroom & HH).
  destruct (zset_removals_refine demo_store 7 (bstr "k") (Some demo_zset) demo_zworld [] 2 0 0 true
    (mkScoreBound 0 true) (mkScoreBound 0 true) LNegInf LPosInf demo_addr_wf Henv HH) as (_ & Hp & _); [closed..|].
  eapply wp_conseq; [exact Hp|]. intros r w' (-> & _ & Ht). split; [vm_compute; reflexivity|].
  cbn [members] in Ht. set (Y' := zwithout _ demo_zset) in Ht.
  assert (Hl : map_to_list Y' = [(bstr "a", 4607182418800017408)]) by (vm_compute; reflexivity).
  clearbody Y'. unfold some_set in Ht. rewrite decide_False in Ht by (intros ->; discriminate).
  exists Y'. split; [exact Ht|exact Hl].
Defined.
