(* ===== verification/Streams.v ===== *)
(** * Streams

    [crates/flint-storage/src/streams.rs]: a stream is a metadata row with the
    last ID given, the largest ID deleted and the entries ever added, and a row
    per entry keyed by its ID in big-endian, so that a scan walks the entries
    in ID order. Every operation is here: the ID an [XADD] gets, adding with
    the cap and a trim, ranges from both ends, deleting and trimming. A stream
    is represented by its entries in ID order and its three counters; the rows
    of its consumer groups, under the same version, are carried along and no
    operation of this file moves them. *)

From stdpp Require Import base list gmap strings sorting.
From Stdlib Require Import ZArith Lia.
From Stdlib Require Strings.Byte.
From S2P Require Import Prelude Encoding Kv Store.

Inductive IdSpec := Auto | AutoSeq (ms : Z) | Explicit (id : StreamId).

Inductive TrimTo := MaxLen (n : Z) | MinId (id : StreamId).

Record Trim := mkTrim { t_to : TrimTo; t_limit : option Z }.

Definition Entry : Type := StreamId * list bytes.

(** The derived [<] and [max] on IDs. *)
Definition StreamId_ltb (a b : StreamId) : bool :=
  (id_ms a <? id_ms b) || ((id_ms a =? id_ms b) && (id_seq a <? id_seq b)).

Definition StreamId_max (a b : StreamId) : StreamId := if StreamId_ltb b a then a else b.

(** The first byte of a stream's element rows. *)
Definition STREAM_ENTRY_TAG : Byte.byte := z2b 0.

(** [pairs(4B BE)] then each field and value as [len(4B BE) | bytes]. *)
Definition encode_fields (fields : list bytes) : bytes :=
  be 4 (len fields / 2) ++ concat ((λ f, be 4 (len f) ++ f) <$> fields).

(** The loop of [decode_fields], on what is left of the row. Each turn takes
    at least four bytes, so the row's length is fuel enough. *)
Fixpoint decode_loop (fuel : nat) (left : Z) (rest : bytes) : list bytes :=
  match fuel with
  | O => []
  | S fuel =>
      if left <=? 0 then []
      else
        match get_sub rest 0 4 with
        | None => []
        | Some b =>
            let n := Z.to_nat (of_be b) in
            match get_sub rest 4 n with
            | None => []
            | Some f => f :: decode_loop fuel (left - 1) (drop (4 + n) rest)
            end
        end
  end.

Definition decode_fields (v : bytes) : list bytes :=
  match of_be <$> get_sub v 0 4 with
  | None => []
  | Some pairs => decode_loop (length v) (pairs * 2) (drop 4 v)
  end.

Definition payload_bytes (v : bytes) : Z :=
  let pairs := match get_sub v 0 4 with Some b => of_be b | None => 0 end in
  saturating_sub (len v) (4 + 8 * pairs).

(** What the visitor of [trim_meta] collects: the keys to delete and what each
    is charged, until one is kept or enough are found. *)
Fixpoint doom (to : TrimTo) (take : Z) (plen : nat) (rows : list (bytes * bytes))
    (doomed : list (bytes * Z)) : list (bytes * Z) :=
  match rows with
  | [] => doomed
  | (k, v) :: rows =>
      let goes :=
        match to with
        | MinId min =>
            match StreamId_from_bytes (drop plen k) with
            | Some id => StreamId_ltb id min
            | None => false
            end
        | MaxLen _ => true
        end in
      if goes then
        let doomed := doomed ++ [(k, payload_bytes v)] in
        if len doomed <? take then doom to take plen rows doomed else doomed
      else doomed
  end.

(** The visitor of [scan]. *)
Fixpoint visit (lo hi : StreamId) (rev : bool) (want : Z) (plen : nat)
    (rows : list (bytes * bytes)) (out : list Entry) : list Entry :=
  match rows with
  | [] => out
  | (k, v) :: rows =>
      match StreamId_from_bytes (drop plen k) with
      | None => visit lo hi rev want plen rows out
      | Some id =>
          if StreamId_ltb id lo || StreamId_ltb hi id then
            if (if rev then StreamId_ltb hi id else StreamId_ltb id lo)
            then visit lo hi rev want plen rows out else out
          else
            let out := out ++ [(id, decode_fields v)] in
            if len out <? want then visit lo hi rev want plen rows out else out
      end
  end.

(** [meta.base.size] and [meta.base.bytes] set. *)
Definition with_counts (meta : StreamMeta) (size bytes : Z) : StreamMeta :=
  let b := st_base meta in
  mkStreamMeta (mkComplexMeta (c_header b) (c_written_ms b) (c_version b) size bytes)
    (st_last_id meta) (st_max_deleted_id meta) (st_entries_added meta).

(** [meta.base.size -= 1; meta.base.bytes = meta.base.bytes.saturating_sub(n)]. *)
Definition less_entry (meta : StreamMeta) (n : Z) : StreamMeta :=
  let b := st_base meta in
  with_counts meta (u32 (c_size b - 1)) (saturating_sub (c_bytes b) n).

Section Streams.
Context (st : store) (slot : Z) (key : bytes).

Definition entry_key (version : Z) (id : StreamId) : option bytes :=
  subkey_envelope (st_ns st) slot key version (STREAM_ENTRY_TAG :: StreamId_to_bytes id).

Definition entries_prefix (version : Z) : option bytes :=
  (λ p, p ++ [STREAM_ENTRY_TAG]) <$> subkey_prefix (st_ns st) slot key version.

Definition stream_read_meta : prog (result (option StreamMeta)) :=
  read_typed TStream StreamMeta_decode st slot key.

Definition stream_write_meta (meta : StreamMeta) : prog unit :=
  now <- clock ;;
  kvput (meta_key st slot key)
    (StreamMeta_encode (mkStreamMeta (ComplexMeta_touch (st_base meta) now)
       (st_last_id meta) (st_max_deleted_id meta) (st_entries_added meta))).

Definition next_id (meta : StreamMeta) (spec : IdSpec) : prog (result StreamId) :=
  let last := st_last_id meta in
  if decide (last = StreamId_MAX) then Ret (Err StreamExhausted)
  else
    id <-? match spec with
           | Auto =>
               now <- clock ;;
               if id_ms last <? now then Ret (Ok (mkStreamId now 0))
               else
                 match StreamId_next last with
                 | Some id => Ret (Ok id)
                 | None => Ret (Err StreamExhausted)
                 end
           | AutoSeq ms =>
               if ms =? id_ms last then
                 match checked_succ (id_seq last) with
                 | Some seq => Ret (Ok (mkStreamId ms seq))
                 | None => Ret (Err StreamIdTooSmall)
                 end
               else Ret (Ok (mkStreamId ms 0))
           | Explicit id => Ret (Ok id)
           end ;;
    if StreamId_ltb last id then Ret (Ok id) else Ret (Err StreamIdTooSmall).

Definition trim_meta (meta : StreamMeta) (trim : Trim) : prog (StreamMeta * Z) :=
  let size := c_size (st_base meta) in
  let over := match t_to trim with MaxLen n => saturating_sub size n | MinId _ => size end in
  let take := Z.min over (default U64_MAX (t_limit trim)) in
  if take =? 0 then Ret (meta, 0)
  else
    prefix <- unwrap (entries_prefix (c_version (st_base meta))) ;;
    rows <- for_each_from prefix [] ;;
    let doomed := doom (t_to trim) take (length prefix) rows [] in
    meta' <- fold_ doomed (λ m d, kvdelete d.1 ;;; Ret (less_entry m d.2)) meta ;;
    Ret (meta', len doomed).

(** The rest of [add] for an ID and a size that are admitted: the row, the
    counters, the trim and the metadata. *)
Definition append_entry (meta : StreamMeta) (id : StreamId) (fields : list bytes) (added : Z)
    (trim : option Trim) : prog (result (option StreamId)) :=
  let b := st_base meta in
  ek <- unwrap (entry_key (c_version b) id) ;;
  kvput ek (encode_fields fields) ;;;
  let meta1 := with_counts meta (u32 (c_size b + 1)) (u64 (c_bytes b + added)) in
  let meta2 := mkStreamMeta (st_base meta1) id (st_max_deleted_id meta1)
                 (u64 (st_entries_added meta1 + 1)) in
  r <- match trim with Some t => trim_meta meta2 t | None => Ret (meta2, 0) end ;;
  stream_write_meta r.1 ;;; Ret (Ok (Some id)).

(** [add] once it has the metadata. *)
Definition add_to (meta : StreamMeta) (spec : IdSpec) (fields : list bytes)
    (trim : option Trim) : prog (result (option StreamId)) :=
  id <-? next_id meta spec ;;
  let added := sum_lens fields in
  if st_max st <? u64 (c_bytes (st_base meta) + added) then Ret (Err ValueTooLarge)
  else append_entry meta id fields added trim.

Definition add (spec : IdSpec) (fields : list bytes) (nomkstream : bool)
    (trim : option Trim) : prog (result (option StreamId)) :=
  o <-? stream_read_meta ;;
  match o with
  | Some meta => add_to meta spec fields trim
  | None =>
      if nomkstream then Ret (Ok None)
      else now <- clock ;; v <- next_version now ;; add_to (StreamMeta_new v) spec fields trim
  end.

Definition stream_len : prog (result Z) :=
  o <-? stream_read_meta ;;
  Ret (Ok (match o with Some m => c_size (st_base m) | None => 0 end)).

Definition scan (meta : StreamMeta) (lo hi : StreamId) (count : option Z) (rev : bool)
    : prog (list Entry) :=
  if StreamId_ltb hi lo || bool_decide (count = Some 0) then Ret []
  else
    let version := c_version (st_base meta) in
    prefix <- unwrap (entries_prefix version) ;;
    let want := default U64_MAX count in
    rows <- (if rev : bool
             then for_each_before prefix
                    (match StreamId_next hi with Some n => prefix ++ StreamId_to_bytes n | None => [] end)
             else for_each_from prefix
                    (match StreamId_prev lo with Some p => StreamId_to_bytes p | None => [] end)) ;;
    Ret (visit lo hi rev want (length prefix) rows []).

Definition range (lo hi : StreamId) (count : option Z) (rev : bool) : prog (result (list Entry)) :=
  o <-? stream_read_meta ;;
  match o with
  | None => Ret (Ok [])
  | Some meta => l <- scan meta lo hi count rev ;; Ret (Ok l)
  end.

Definition last_entry : prog (result (option Entry)) :=
  l <-? range StreamId_MIN StreamId_MAX (Some 1) true ;; Ret (Ok (last l)).

Definition stream_last_id : prog (result (option StreamId)) :=
  o <-? stream_read_meta ;; Ret (Ok (st_last_id <$> o)).

(** One ID of an [XDEL], with the metadata and the count so far. *)
Definition del_step (acc : StreamMeta * Z) (id : StreamId) : prog (StreamMeta * Z) :=
  let '(meta, gone) := acc in
  ek <- unwrap (entry_key (c_version (st_base meta)) id) ;;
  o <- kvget ek ;;
  match o with
  | None => Ret (meta, gone)
  | Some v =>
      kvdelete ek ;;;
      let m := less_entry meta (payload_bytes v) in
      Ret (mkStreamMeta (st_base m) (st_last_id m) (StreamId_max (st_max_deleted_id m) id)
             (st_entries_added m), u64 (gone + 1))
  end.

Definition del (ids : list StreamId) : prog (result Z) :=
  o <-? stream_read_meta ;;
  match o with
  | None => Ret (Ok 0)
  | Some meta =>
      r <- fold_ ids del_step (meta, 0) ;;
      if 0 <? r.2 then stream_write_meta r.1 ;;; Ret (Ok r.2) else Ret (Ok r.2)
  end.

Definition trim (t : Trim) : prog (result Z) :=
  o <-? stream_read_meta ;;
  match o with
  | None => Ret (Ok 0)
  | Some meta =>
      r <- trim_meta meta t ;;
      if 0 <? r.2 then stream_write_meta r.1 ;;; Ret (Ok r.2) else Ret (Ok r.2)
  end.
End Streams.

(** ** IDs and their bytes *)

Arguments StreamId_to_bytes : simpl never.
Arguments encode_fields : simpl never.

Lemma StreamId_ltb_spec a b : StreamId_ltb a b = true ↔ StreamId_lt a b.
Proof. unfold StreamId_ltb, StreamId_lt. rewrite orb_true_iff, andb_true_iff. lia. Qed.

#[global] Instance StreamId_lt_dec a b : Decision (StreamId_lt a b).
Proof. destruct (StreamId_ltb a b) eqn:E; [left|right]; rewrite <-StreamId_ltb_spec; congruence. Defined.

Definition id_le (a b : StreamId) : Prop := ¬ StreamId_lt b a.

Lemma StreamId_ltb_false a b : StreamId_ltb a b = false ↔ id_le b a.
Proof. unfold id_le. rewrite <-StreamId_ltb_spec. by destruct (StreamId_ltb a b). Qed.

(** Goals on the order of IDs, by their two components. *)
Ltac id_order :=
  repeat match goal with i : StreamId |- _ => destruct i end;
  unfold id_le, StreamId_lt, id_ok, StreamId_MIN, StreamId_MAX, U64_MAX in *;
  cbn [id_ms id_seq] in *; unfold in_width in *; try lia.

Lemma id_eq a b : id_le a b → id_le b a → a = b.
Proof. intros. id_order. f_equal; lia. Qed.

Lemma id_lt_trans a b c : StreamId_lt a b → StreamId_lt b c → StreamId_lt a c.
Proof. id_order. Qed.

Lemma id_lt_le_trans a b c : StreamId_lt a b → id_le b c → StreamId_lt a c.
Proof. id_order. Qed.

Lemma id_max_id i : id_ok i → id_le i StreamId_MAX.
Proof. id_order. Qed.

Lemma blt_StreamId a b :
  id_ok a → id_ok b → blt (StreamId_to_bytes a) (StreamId_to_bytes b) = StreamId_ltb a b.
Proof.
  intros [Ha Ha'] [Hb Hb']. unfold blt, StreamId_to_bytes, StreamId_ltb.
  rewrite bytes_cmp_be by done.
  pose proof (blt_be 8 (id_seq a) (id_seq b)) as E. unfold blt in E.
  destruct (Z.compare_spec (id_ms a) (id_ms b)).
  - rewrite E by done. destruct (Z.ltb_spec (id_ms a) (id_ms b)); [lia|].
    by rewrite (proj2 (Z.eqb_eq _ _)).
  - by rewrite (proj2 (Z.ltb_lt _ _)).
  - destruct (Z.ltb_spec (id_ms a) (id_ms b)); [lia|].
    by rewrite (proj2 (Z.eqb_neq _ _)) by lia.
Qed.

Lemma StreamId_bytes_inj a b :
  id_ok a → id_ok b → StreamId_to_bytes a = StreamId_to_bytes b → a = b.
Proof.
  intros Ha Hb E. pose proof (StreamId_from_to_bytes a [] Ha) as E1.
  pose proof (StreamId_from_to_bytes b [] Hb) as E2. rewrite !app_nil_r in *. congruence.
Qed.

Lemma StreamId_from_bytes_to i : id_ok i → StreamId_from_bytes (StreamId_to_bytes i) = Some i.
Proof. intros H. pose proof (StreamId_from_to_bytes i [] H) as E. by rewrite app_nil_r in E. Qed.

Lemma StreamId_to_bytes_ne i : StreamId_to_bytes i ≠ [].
Proof. intros E. by apply (f_equal length) in E; rewrite length_StreamId_to_bytes in E. Qed.

(** Everything from [lo] on is what lies after [lo.prev()]. *)
Lemma id_prev_spec lo i :
  id_ok lo → id_ok i →
  match StreamId_prev lo with
  | Some p => id_ok p ∧ (StreamId_lt p i ↔ id_le lo i)
  | None => id_le lo i
  end.
Proof.
  intros Hlo Hi. unfold StreamId_prev.
  destruct (checked_pred (id_seq lo)) as [q|] eqn:E.
  - apply checked_pred_Some in E as [? ->]. id_order.
  - destruct (checked_pred (id_ms lo)) as [q|] eqn:E'; cbn.
    + unfold checked_pred in *. destruct (Z.ltb_spec 0 (id_seq lo)), (Z.ltb_spec 0 (id_ms lo)); try done.
      injection E' as <-. id_order.
    + unfold checked_pred in *. destruct (Z.ltb_spec 0 (id_seq lo)), (Z.ltb_spec 0 (id_ms lo)); try done.
      id_order.
Qed.

(** Everything up to [hi] is what lies before [hi.next()]. *)
Lemma id_next_spec hi i :
  id_ok hi → id_ok i →
  match StreamId_next hi with
  | Some n => id_ok n ∧ (StreamId_lt i n ↔ id_le i hi)
  | None => id_le i hi
  end.
Proof.
  intros Hhi Hi. pose proof (stream_id_next_is_successor hi Hhi) as H.
  destruct (StreamId_next hi) as [n|].
  - destruct H as (Hn & Hlt & _ & Hleast). split; [done|]. split.
    + intros ? Hc. destruct (Hleast i Hi Hc) as [->|]; id_order.
    + intros. id_order.
  - subst hi. by apply id_max_id.
Qed.

(** ** Fields *)

(** Fields an entry row can carry: in pairs, and within the length columns. *)
Definition fields_ok (fields : list bytes) : Prop :=
  Z.Even (len fields) ∧ len fields < 2 ^ 33 ∧ Forall (λ f : bytes, len f < 2 ^ 32) fields.

Lemma len_framed fields :
  len (concat ((λ f : bytes, be 4 (len f) ++ f) <$> fields)) = 4 * len fields + total fields.
Proof.
  induction fields as [|f fields IH]; [done|]. cbn [fmap list_fmap concat].
  rewrite !length_app, length_be, total_cons. cbn [length]. lia.
Qed.

Lemma pairs_column fields :
  fields_ok fields → of_be (be 4 (len fields / 2)) = len fields / 2 ∧ len fields = 2 * (len fields / 2).
Proof.
  intros ([k Hk] & Hlt & _). rewrite Hk. replace (2 * k) with (k * 2) by lia.
  rewrite Z.div_mul by done. rewrite of_be_id by width. lia.
Qed.

Lemma payload_encode fields : fields_ok fields → payload_bytes (encode_fields fields) = total fields.
Proof.
  intros Hf. destruct (pairs_column fields Hf) as [E E2]. unfold payload_bytes, encode_fields.
  rewrite get_sub_here by apply length_be. rewrite E, length_app, length_be.
  pose proof (len_framed fields) as Hl. pose proof (total_nonneg fields).
  unfold saturating_sub. lia.
Qed.

Lemma decode_loop_framed fields fuel :
  Forall (λ f : bytes, len f < 2 ^ 32) fields → (length fields ≤ fuel)%nat →
  decode_loop fuel (len fields) (concat ((λ f, be 4 (len f) ++ f) <$> fields)) = fields.
Proof.
  revert fuel. induction fields as [|f fields IH]; intros fuel Hf Hfuel.
  { destruct fuel; done. }
  apply Forall_cons in Hf as [Hlf Hf]. destruct fuel as [|fuel]; [cbn in Hfuel; lia|].
  cbn [decode_loop fmap list_fmap concat].
  rewrite (proj2 (Z.leb_gt _ _)) by (cbn [length]; lia). rewrite <-app_assoc.
  rewrite get_sub_here by apply length_be. rewrite of_be_id by width. rewrite Nat2Z.id.
  rewrite (get_sub_app (be 4 (len f))) by (rewrite ?length_be; done).
  replace (len (f :: fields) - 1) with (len fields) by (cbn [length]; lia).
  rewrite drop_skip, length_be by (rewrite length_be; lia).
  replace (4 + length f - 4)%nat with (length f) by lia. rewrite drop_app_length.
  f_equal. apply IH; [done|]. cbn in Hfuel. lia.
Qed.

(** An entry's fields come back as they were written. *)
Lemma decode_encode_fields fields : fields_ok fields → decode_fields (encode_fields fields) = fields.
Proof.
  intros Hf. destruct (pairs_column fields Hf) as [E E2]. unfold decode_fields, encode_fields.
  rewrite get_sub_here by apply length_be. cbn [fmap option_fmap option_map]. rewrite E.
  rewrite drop_skip, length_be by (rewrite length_be; lia). rewrite Nat.sub_diag, drop_0.
  replace (len fields / 2 * 2) with (len fields) by lia. apply decode_loop_framed; [apply Hf|].
  rewrite length_app. pose proof (len_framed fields). pose proof (total_nonneg fields). lia.
Qed.

(** ** What a key holds *)

Record stream := mkStream {
  s_entries : list Entry;
  s_last : StreamId;
  s_deleted : StreamId;
  s_added : Z;
  s_rest : kvmap
}.

Definition stream_new : stream := mkStream [] StreamId_MIN StreamId_MIN 0 ∅.

Definition entry_field (id : StreamId) : bytes := STREAM_ENTRY_TAG :: StreamId_to_bytes id.

Arguments entry_field : simpl never.

Definition erow (e : Entry) : bytes * bytes := (entry_field e.1, encode_fields e.2).

(** The element rows of a stream: its entries', and its groups'. *)
Definition stream_rows (s : stream) : kvmap := list_to_map (erow <$> s_entries s) ∪ s_rest s.

(** What the entries are charged. *)
Definition charged (E : list Entry) : Z := foldr (λ (e : Entry) acc, total e.2 + acc) 0 E.

Record stream_wf (s : stream) : Prop := {
  wf_sorted : StronglySorted (λ e f : Entry, StreamId_lt e.1 f.1) (s_entries s);
  wf_ids : ∀ e, e ∈ s_entries s → id_ok e.1 ∧ id_le e.1 (s_last s) ∧ fields_ok e.2;
  wf_last : id_ok (s_last s);
  wf_deleted : id_ok (s_deleted s);
  wf_added : in_width 64 (s_added s);
  wf_rest : ∀ f, s_rest s !! (STREAM_ENTRY_TAG :: f) = None
}.

Record sholds (a : addr) (now : Z) (w : world kvmap) (meta : StreamMeta) (s : stream) : Prop := {
  sh_row : ∃ row, w_kv w !! mkey a = Some row ∧ live_row TStream now row ∧
             StreamMeta_decode row = Some meta;
  sh_rows : rows_at Subkey a (c_version (st_base meta)) (w_kv w) = stream_rows s;
  sh_meta : meta = mkStreamMeta (st_base meta) (s_last s) (s_deleted s) (s_added s);
  sh_size : c_size (st_base meta) = len (s_entries s);
  sh_bytes : c_bytes (st_base meta) = charged (s_entries s);
  sh_version : c_version (st_base meta) <= w_last w;
  sh_wf : stream_wf s
}.

(** Nothing, or a stream, which may be empty: an emptied stream keeps its key. *)
Definition srepr (a : addr) (now : Z) (w : world kvmap) (H : option stream) : Prop :=
  match H with
  | None => dead_row now (w_kv w !! mkey a)
  | Some s => ∃ meta, sholds a now w meta s
  end.

Definition smakes (a : addr) (H H' : option stream) (w w' : world kvmap) : Prop :=
  ∀ now, H = None ∨ srepr a now w H → srepr a now w' H'.

Definition skeeps (a : addr) (H : option stream) (w w' : world kvmap) : Prop :=
  ∀ now, srepr a now w H → srepr a now w' H.

(** The operations on the represented stream. *)
Definition appended (s : stream) (id : StreamId) (fields : list bytes) : stream :=
  mkStream (s_entries s ++ [(id, fields)]) id (s_deleted s) (s_added s + 1) (s_rest s).

Definition with_entries (s : stream) (E : list Entry) : stream :=
  mkStream E (s_last s) (s_deleted s) (s_added s) (s_rest s).

(** The entries a trim drops: those past the length, or below the ID, no more
    than the limit. *)
Definition trim_count (t : Trim) (E : list Entry) : nat :=
  Z.to_nat (Z.min
    (match t_to t with
     | MaxLen n => Z.max 0 (len E - n)
     | MinId min => len (filter (λ e : Entry, StreamId_lt e.1 min) E)
     end) (default U64_MAX (t_limit t))).

Definition trimmed (t : option Trim) (s : stream) : stream :=
  match t with Some t => with_entries s (drop (trim_count t (s_entries s)) (s_entries s)) | None => s end.

Definition trim_ok (t : Trim) : Prop :=
  match t_to t with MaxLen n => in_width 64 n | MinId id => id_ok id end ∧
  match t_limit t with Some n => in_width 64 n | None => True end.

(** The entries between two IDs, from one end, at most [count]. *)
Definition between (lo hi : StreamId) (e : Entry) : Prop := id_le lo e.1 ∧ id_le e.1 hi.

#[global] Instance between_dec lo hi e : Decision (between lo hi e).
Proof. unfold between, id_le. apply _. Defined.

Definition selected (lo hi : StreamId) (count : option Z) (rv : bool) (E : list Entry) : list Entry :=
  let l := filter (between lo hi) (if rv then reverse E else E) in
  match count with Some n => take (Z.to_nat n) l | None => l end.

(** The IDs a specification admits when the clock reads [now], and the ID an
    [XADD] is to get: the least admitted one above the last. *)
Definition admits (spec : IdSpec) (now : Z) (i : StreamId) : Prop :=
  match spec with
  | Auto => now <= id_ms i
  | AutoSeq ms => id_ms i = ms
  | Explicit j => i = j
  end.

Definition least_id (spec : IdSpec) (now : Z) (last i : StreamId) : Prop :=
  id_ok i ∧ StreamId_lt last i ∧ admits spec now i ∧
  ∀ j, id_ok j → StreamId_lt last j → admits spec now j → id_le i j.

Definition no_id (spec : IdSpec) (now : Z) (last : StreamId) : Prop :=
  ∀ j, id_ok j → StreamId_lt last j → ¬ admits spec now j.

Definition spec_ok (spec : IdSpec) : Prop :=
  match spec with Auto => True | AutoSeq ms => in_width 64 ms | Explicit id => id_ok id end.

(** [XADD]'s ID: the least one the specification admits above the last ID
    given, an error only when there is none, and which error. *)
Lemma wp_next_id meta spec w (Q : result StreamId → world kvmap → Prop) :
  let last := st_last_id meta in
  id_ok last → spec_ok spec → clocks_ok w →
  (∀ id w', (w' = w ∨ w' = tick w) → least_id spec (w_clock w 0%nat) last id → Q (Ok id) w') →
  (∀ w', (w' = w ∨ w' = tick w) → no_id spec (w_clock w 0%nat) last →
     Q (Err (if decide (last = StreamId_MAX) then StreamExhausted else StreamIdTooSmall)) w') →
  wp (next_id meta spec) w Q.
Proof.
  intros last Hlast Hspec Hclk HQ HE. unfold next_id. fold last.
  pose proof (Hclk 0%nat) as Hnow. unfold clock_ok in Hnow. case_decide as Hmax.
  { wp_op. apply HE; [by left|]. intros j Hj Hlt. rewrite Hmax in Hlt. by apply id_max_id in Hj. }
  destruct spec as [|ms|id]; cbn [spec_ok] in Hspec.
  - apply wp_try. wp_op. destruct (Z.ltb_spec (id_ms last) (w_clock w 0%nat)) as [Hlt|Hge].
    + wp_op. rewrite (proj2 (StreamId_ltb_spec _ _)) by (left; done). wp_op.
      apply HQ; [by right|]. split_and!; cbn; id_order.
    + pose proof (stream_id_next_is_successor last Hlast) as Hn.
      destruct (StreamId_next last) as [id|]; [|done].
      destruct Hn as (Hid & Hlt & _ & Hleast). wp_op.
      rewrite (proj2 (StreamId_ltb_spec _ _)) by done. wp_op.
      apply HQ; [by right|]. split_and!; [done..|cbn; clear Hleast; id_order|].
      intros j Hj Hlj _. destruct (Hleast j Hj Hlj) as [->|]; id_order.
  - apply wp_try. destruct (Z.eqb_spec ms (id_ms last)) as [->|Hne].
    + destruct (checked_succ (id_seq last)) as [q|] eqn:E.
      * apply checked_succ_Some in E as [? ->]. wp_op.
        rewrite (proj2 (StreamId_ltb_spec _ _)) by id_order. wp_op.
        apply HQ; [by left|]. split_and!; cbn; id_order.
      * apply checked_succ_None in E. wp_op.
        apply HE; [by left|]. intros j ** ?. cbn in *. id_order.
    + wp_op. destruct (StreamId_ltb last (mkStreamId ms 0)) eqn:E; wp_op.
      * apply StreamId_ltb_spec in E. apply HQ; [by left|].
        split_and!; cbn; id_order.
      * apply StreamId_ltb_false in E.
        apply HE; [by left|]. intros j ** ?. cbn in *. id_order.
  - apply wp_try. wp_op. destruct (StreamId_ltb last id) eqn:E; wp_op.
    + apply StreamId_ltb_spec in E. apply HQ; [by left|].
      split_and!; cbn; [done..|]. intros j _ _ ->. id_order.
    + apply StreamId_ltb_false in E.
      apply HE; [by left|]. intros j ** ->. id_order.
Qed.

(** ** The rows of a stream *)

Lemma charged_app E E' : charged (E ++ E') = charged E + charged E'.
Proof. induction E as [|e E IH]; [done|]. unfold charged in *. cbn. rewrite IH. lia. Qed.

Lemma charged_nonneg E : 0 <= charged E.
Proof. induction E as [|e E IH]; [done|]. unfold charged in *. cbn. pose proof (total_nonneg e.2). lia. Qed.

Lemma entry_field_inj i j : id_ok i → id_ok j → entry_field i = entry_field j → i = j.
Proof. intros Hi Hj E. apply StreamId_bytes_inj; [done..|]. exact (f_equal tail E). Qed.

Definition eids (E : list Entry) : Prop := ∀ e, e ∈ E → id_ok e.1.
Definition esorted (E : list Entry) : Prop := StronglySorted (λ e f : Entry, StreamId_lt e.1 f.1) E.

Lemma esorted_nodup E : eids E → esorted E → NoDup (erow <$> E).*1.
Proof.
  intros Hid Hs. induction Hs as [|e E Hs IH He]; cbn; constructor.
  - intros (r & Er & (e' & -> & He')%list_elem_of_fmap)%list_elem_of_fmap.
    rewrite Forall_forall in He. specialize (He _ He'). cbn in Er.
    apply entry_field_inj in Er; [rewrite Er in He; id_order|apply Hid; by constructor..].
  - apply IH. intros e' ?. apply Hid. by constructor.
Qed.

(** The scan under the entries' prefix, as the walk sees it. *)
Definition bare (e : Entry) : bytes * bytes := (StreamId_to_bytes e.1, encode_fields e.2).

Lemma bare_ascending E : eids E → esorted E → ascending (bare <$> E).
Proof.
  intros Hid Hs. induction Hs as [|e E Hs IH He]; cbn; constructor.
  - apply IH. intros e' ?. apply Hid. by constructor.
  - apply Forall_fmap. rewrite Forall_forall in He |- *. intros e' He'. cbn.
    rewrite blt_StreamId by (apply Hid; by constructor). apply StreamId_ltb_spec, He, He'.
Qed.

Lemma wf_eids s : stream_wf s → eids (s_entries s).
Proof. intros Hs e He. by apply (wf_ids _ Hs). Qed.

Lemma lookup_entry s i f :
  stream_wf s → (i, f) ∈ s_entries s → stream_rows s !! entry_field i = Some (encode_fields f).
Proof.
  intros Hs Hin. unfold stream_rows. apply lookup_union_Some_l, elem_of_list_to_map_1.
  - apply esorted_nodup; [by apply wf_eids|apply Hs].
  - apply list_elem_of_fmap. by exists (i, f).
Qed.

Lemma lookup_no_entry s i :
  stream_wf s → id_ok i → i ∉ (s_entries s).*1 → stream_rows s !! entry_field i = None.
Proof.
  intros Hs Hi Hn. unfold stream_rows. apply lookup_union_None. split; [|apply Hs].
  apply not_elem_of_list_to_map_1. intros (r & Er & (e & -> & He)%list_elem_of_fmap)%list_elem_of_fmap.
  apply Hn. apply list_elem_of_fmap. exists e. split; [|done].
  apply entry_field_inj; [done|by eapply wf_eids|done].
Qed.

(** An entry added above all others, and one removed. *)
Lemma stream_rows_append s i f :
  stream_wf s → id_ok i → StreamId_lt (s_last s) i →
  <[entry_field i := encode_fields f]> (stream_rows s) = stream_rows (appended s i f).
Proof.
  intros Hs Hi Hlt. unfold stream_rows, appended. cbn [s_entries s_rest]. rewrite fmap_app. cbn.
  rewrite insert_union_l. f_equal. symmetry. apply (list_to_map_snoc (M := gmap bytes)).
  intros (r & Er & (e & -> & He)%list_elem_of_fmap)%list_elem_of_fmap. cbn in Er.
  pose proof (wf_ids _ Hs e He) as (Hid & Hle & _). apply entry_field_inj in Er; [|done..].
  rewrite Er in Hlt. id_order.
Qed.

Definition without_id (i : StreamId) (E : list Entry) : list Entry := filter (λ e : Entry, e.1 ≠ i) E.

Lemma stream_rows_delete s i :
  stream_wf s → id_ok i →
  delete (entry_field i) (stream_rows s) = stream_rows (with_entries s (without_id i (s_entries s))).
Proof.
  intros Hs Hi. unfold stream_rows, with_entries. cbn [s_entries s_rest].
  rewrite delete_union. f_equal; [|apply delete_id, Hs].
  pose proof (wf_eids s Hs) as Hid. clear Hs. unfold without_id.
  induction (s_entries s) as [|e E IH]; [cbn; apply delete_empty|].
  assert (Hid' : eids E) by (intros e' ?; apply Hid; by constructor).
  rewrite filter_cons. cbn [fmap list_fmap list_to_map foldr]. case_decide as Hne.
  - cbn. rewrite delete_insert_ne; [by rewrite (IH Hid')|].
    intros E'. apply Hne. apply entry_field_inj in E'; [done|done|apply Hid; by constructor].
  - subst i. cbn. by rewrite delete_insert_eq, (IH Hid').
Qed.

(** What a walk under the entries' prefix meets. *)
Lemma walk_rows s (p : bytes) m :
  stream_wf s → sub_map p m = stream_rows s →
  rows_of (sub_map (p ++ [STREAM_ENTRY_TAG]) m) = bare <$> s_entries s.
Proof.
  intros Hs Hm. symmetry. pose proof (wf_eids s Hs) as Hid.
  apply rows_of_unique; [by apply bare_ascending, Hs|]. intros k v.
  rewrite lookup_sub_map, <-app_assoc. cbn [app]. rewrite <-lookup_sub_map, Hm. unfold stream_rows.
  rewrite lookup_union_Some_raw, (wf_rest _ Hs).
  rewrite <-elem_of_list_to_map by (by apply esorted_nodup, Hs). rewrite !list_elem_of_fmap.
  unfold bare, erow, entry_field. naive_solver congruence.
Qed.

(** ** Well-formed streams stay so *)

Lemma stream_new_wf : stream_wf stream_new.
Proof.
  constructor; cbn; try (split; width); try done; [constructor|set_solver].
Qed.

Lemma appended_wf s i f :
  stream_wf s → id_ok i → StreamId_lt (s_last s) i → fields_ok f → s_added s + 1 < 2 ^ 64 →
  stream_wf (appended s i f).
Proof.
  intros [Hs Hids Hl Hd Ha Hr] Hi Hlt Hf Hadd. constructor; cbn; try done; [| |width].
  - apply StronglySorted_app. split_and!; [|done|repeat constructor].
    intros e1 e2 He1 ->%list_elem_of_singleton. cbn.
    destruct (Hids e1 He1) as (_ & Hle & _). id_order.
  - intros e [He| ->%list_elem_of_singleton]%elem_of_app.
    + destruct (Hids e He) as (? & Hle & ?). split_and!; [done| |done]. id_order.
    + cbn. split_and!; [done| |done]. id_order.
Qed.

Lemma with_entries_wf s E :
  stream_wf s → sublist E (s_entries s) → stream_wf (with_entries s E).
Proof.
  intros [Hs Hids Hl Hd Ha Hr] Hsub. constructor; cbn; try done.
  - revert Hs. clear - Hsub. induction Hsub as [|e E E' Hsub IH|e E E' Hsub IH]; intros Hs; [done| |].
    + apply StronglySorted_inv in Hs as [Hs He]. constructor; [auto|].
      rewrite Forall_forall in He |- *. intros e' ?. apply He. by eapply elem_of_sublist.
    + apply StronglySorted_inv in Hs as [Hs _]. auto.
  - intros e He. apply Hids. by eapply elem_of_sublist.
Qed.

(** ** Walks *)

(** An entry's row under the prefix [p]. *)
Definition prow (p : bytes) (e : Entry) : bytes * bytes :=
  (p ++ StreamId_to_bytes e.1, encode_fields e.2).

Definition eok (E : list Entry) : Prop := ∀ e, e ∈ E → id_ok e.1 ∧ fields_ok e.2.

Lemma eok_cons e E : eok (e :: E) → id_ok e.1 ∧ fields_ok e.2 ∧ eok E.
Proof.
  intros H. destruct (H e) as [? ?]; [by constructor|]. split_and!; [done..|].
  intros e' ?. apply H. by constructor.
Qed.

Lemma wf_eok s : stream_wf s → eok (s_entries s).
Proof. intros Hs e He. by destruct (wf_ids _ Hs e He) as (? & _ & ?). Qed.

(** The entries a trim reaches. *)
Definition goes (to : TrimTo) (e : Entry) : Prop :=
  match to with MinId min => StreamId_lt e.1 min | MaxLen _ => True end.

#[global] Instance goes_dec to e : Decision (goes to e).
Proof. destruct to; apply _. Defined.

(** Since the walk is in ID order, what it stops at is followed only by what
    it would stop at. *)
Lemma filter_goes_prefix to E : esorted E → filter (goes to) E = take (length (filter (goes to) E)) E.
Proof.
  induction 1 as [|e E Hs IH He]; [done|]. rewrite filter_cons. case_decide as Hg.
  - cbn. by rewrite IH at 1.
  - rewrite filter_none; [done|]. intros e' He'. rewrite Forall_forall in He. specialize (He _ He').
    destruct to as [n|min]; cbn in *; [done|]. intros ?. apply Hg. by eapply id_lt_trans.
Qed.

Lemma doom_spec to n p E acc :
  eok E → esorted E → len acc < n →
  doom to n (length p) (prow p <$> E) acc =
  acc ++ ((λ e : Entry, (p ++ StreamId_to_bytes e.1, total e.2)) <$>
            take (Z.to_nat (n - len acc)) (filter (goes to) E)).
Proof.
  intros Hok Hs. revert acc. induction Hs as [|e E Hs IH He]; intros acc Hacc.
  { cbn. by rewrite take_nil, app_nil_r. }
  apply eok_cons in Hok as (Hid & Hf & Hok). cbn [fmap list_fmap doom prow].
  rewrite drop_app_length, StreamId_from_bytes_to, payload_encode by done.
  assert (Hd : (match to with MaxLen _ => true | MinId min => StreamId_ltb e.1 min end) = bool_decide (goes to e)).
  { destruct to; cbn; [done|]. apply eq_bool_prop_intro. rewrite bool_decide_spec, Is_true_true.
    apply StreamId_ltb_spec. }
  rewrite Hd. rewrite filter_cons. case_bool_decide as Hg.
  - rewrite decide_True by done. replace (Z.to_nat (n - len acc)) with (S (Z.to_nat (n - len acc - 1))) by lia.
    cbn [take fmap list_fmap]. rewrite length_app. cbn [length].
    destruct (Z.ltb_spec (Z.of_nat (length acc + 1)) n).
    + rewrite IH; [|done|rewrite length_app; cbn; lia]. rewrite <-app_assoc. cbn [app]. do 3 f_equal.
      rewrite length_app. cbn [length]. f_equal. lia.
    + replace (Z.to_nat (n - len acc - 1)) with 0%nat by lia. done.
  - rewrite decide_False by done. rewrite filter_none; [by rewrite take_nil, app_nil_r|].
    intros e' He'. rewrite Forall_forall in He. specialize (He _ He').
    destruct to as [?|min]; cbn in *; [done|]. intros ?. apply Hg. by eapply id_lt_trans.
Qed.

(** The trim takes the first [trim_count] entries. *)
Lemma trim_takes t E :
  trim_ok t → esorted E → len E < 2 ^ 32 →
  let over := match t_to t with MaxLen n => saturating_sub (len E) n | MinId _ => len E end in
  let n := Z.min over (default U64_MAX (t_limit t)) in
  0 <= n ∧ take (Z.to_nat n) (filter (goes (t_to t)) E) = take (trim_count t E) E ∧
  (trim_count t E ≤ length E)%nat ∧ (n = 0 → trim_count t E = 0%nat).
Proof.
  intros [Hto Hlim] Hs Hl over n.
  assert (Hlim' : 0 <= default U64_MAX (t_limit t)) by (destruct (t_limit t); unfold in_width, U64_MAX in *; cbn; lia).
  unfold trim_count. rewrite (filter_goes_prefix _ _ Hs), take_take. unfold over in n.
  pose proof (length_filter (goes (t_to t)) E) as Hle.
  generalize dependent (default U64_MAX (t_limit t)). intros lim ? ?.
  destruct (t_to t) as [k|min]; unfold n, saturating_sub; unfold in_width in Hto.
  - rewrite (list_filter_true (goes _)) by done. split_and!; [lia| |lia|lia]. f_equal. lia.
  - change (λ e : Entry, StreamId_lt e.1 min) with (goes (MinId min)).
    change (λ x : Entry, StreamId_lt_dec x.1 min) with (goes_dec (MinId min)).
    split_and!; [lia| |lia|lia]. f_equal. lia.
Qed.

Definition in_direction (rv : bool) (e f : Entry) : Prop :=
  if rv then StreamId_lt f.1 e.1 else StreamId_lt e.1 f.1.

Lemma visit_spec lo hi rv want p L out :
  eok L → StronglySorted (in_direction rv) L → len out < want →
  visit lo hi rv want (length p) (prow p <$> L) out =
  out ++ take (Z.to_nat (want - len out)) (filter (between lo hi) L).
Proof.
  intros Hok Hs. revert out. induction Hs as [|[i f] L Hs IH He]; intros out Hout.
  { cbn. by rewrite take_nil, app_nil_r. }
  apply eok_cons in Hok as (Hid & Hf & Hok). cbn [fmap list_fmap visit prow fst snd] in *.
  rewrite drop_app_length, StreamId_from_bytes_to, decode_encode_fields by done.
  rewrite Forall_forall in He. rewrite filter_cons. case_decide as Hb.
  - destruct Hb as [Hlo Hhi]. cbn in Hlo, Hhi.
    rewrite (proj2 (StreamId_ltb_false _ _) Hlo), (proj2 (StreamId_ltb_false _ _) Hhi). cbn [orb].
    replace (Z.to_nat (want - len out)) with (S (Z.to_nat (want - len out - 1))) by lia.
    cbn [take]. rewrite length_app. cbn [length].
    destruct (Z.ltb_spec (Z.of_nat (length out + 1)) want).
    + rewrite IH; [|done|rewrite length_app; cbn; lia]. rewrite <-app_assoc. cbn [app]. do 2 f_equal.
      rewrite length_app. cbn [length]. f_equal. lia.
    + replace (Z.to_nat (want - len out - 1)) with 0%nat by lia. done.
  - assert (Hor : StreamId_ltb i lo || StreamId_ltb hi i = true).
    { destruct (StreamId_ltb i lo) eqn:E1, (StreamId_ltb hi i) eqn:E2; try done.
      apply StreamId_ltb_false in E1, E2. by destruct Hb. }
    rewrite Hor. destruct (if rv then StreamId_ltb hi i else StreamId_ltb i lo) eqn:Ed; [by apply IH|].
    rewrite filter_none; [by rewrite take_nil, app_nil_r|]. intros e He' [Hlo Hhi].
    specialize (He e He'). unfold in_direction in He. cbn [fst] in He.
    apply orb_true_iff in Hor. destruct rv; rewrite Ed, StreamId_ltb_spec in Hor;
      (destruct Hor as [Hor|Hor]; [|try done]); try done; clear IH; id_order.
Qed.

(** The two walks, in their directions, over the entries their bound leaves. *)
Lemma rows_from_entries s (p : bytes) m b :
  stream_wf s → sub_map p m = stream_rows s →
  let P := p ++ [STREAM_ENTRY_TAG] in
  rows_from m P (bound_in P b) =
  prow P <$> filter (λ e : Entry, b = [] ∨ blt b (StreamId_to_bytes e.1) = true) (s_entries s).
Proof.
  intros Hs Hm P. rewrite rows_from_sub_map. unfold P. rewrite (walk_rows s) by done.
  rewrite (filter_fmap_iff _ (λ e : Entry, b = [] ∨ blt b (StreamId_to_bytes e.1) = true)) by done.
  by rewrite <-list_fmap_compose.
Qed.

Lemma rows_before_entries s (p : bytes) m b :
  stream_wf s → sub_map p m = stream_rows s →
  let P := p ++ [STREAM_ENTRY_TAG] in
  rows_before m P (match b with [] => [] | _ => P ++ b end) =
  prow P <$> filter (λ e : Entry, b = [] ∨ blt (StreamId_to_bytes e.1) b = true) (reverse (s_entries s)).
Proof.
  intros Hs Hm P. rewrite rows_before_sub_map. unfold P. rewrite (walk_rows s) by done.
  rewrite rev_alt', <-fmap_reverse.
  rewrite (filter_fmap_iff _ (λ e : Entry, b = [] ∨ blt (StreamId_to_bytes e.1) b = true)) by done.
  by rewrite <-list_fmap_compose.
Qed.

Lemma filter_weaker {A} (P Q : A → Prop) `{∀ x, Decision (P x)} `{∀ x, Decision (Q x)} (l : list A) :
  (∀ x, x ∈ l → P x → Q x) → filter P (filter Q l) = filter P l.
Proof.
  intros H'. rewrite list_filter_filter. apply list_filter_iff'. intros x Hx. naive_solver.
Qed.

Lemma direction_filter rv (P : Entry → Prop) `{∀ x, Decision (P x)} L :
  StronglySorted (in_direction rv) L → StronglySorted (in_direction rv) (filter P L).
Proof.
  induction 1 as [|e L Hs IH He]; [constructor|]. rewrite filter_cons. case_decide; [|done].
  constructor; [done|]. rewrite Forall_forall in He |- *. intros f [_ Hf]%list_elem_of_filter. auto.
Qed.

Lemma direction_reverse E : esorted E → StronglySorted (in_direction true) (reverse E).
Proof.
  induction 1 as [|e E Hs IH He]; [constructor|]. rewrite reverse_cons. apply StronglySorted_app.
  split_and!; [|done|repeat constructor]. intros x y Hx ->%list_elem_of_singleton.
  rewrite elem_of_reverse in Hx. rewrite Forall_forall in He. by apply He.
Qed.

(** ** Opening and closing *)

Lemma StreamMeta_decode_base row meta :
  StreamMeta_decode row = Some meta → ComplexMeta_decode row = Some (st_base meta).
Proof.
  unfold StreamMeta_decode. destruct (ComplexMeta_decode row) as [b|]; [|done]. cbn.
  destruct (head row); [|done]. cbn. destruct (get_sub row _ 40) as [tl|]; [|done]. cbn.
  destruct (StreamId_from_bytes (sub tl 0 16)); [|done]. cbn.
  destruct (StreamId_from_bytes (sub tl 16 16)); [|done]. cbn. by intros [= <-].
Qed.

Lemma sholds_base a now w meta s : sholds a now w meta s → base_ok TStream now (st_base meta).
Proof.
  intros [(row & _ & Hl & Hd) _ _ _ _ _ _]. eapply live_row_base; [done|].
  by apply StreamMeta_decode_base.
Qed.

Lemma sholds_at a now now' w meta s :
  sholds a now w meta s → srepr a now' w (Some s) → sholds a now' w meta s.
Proof.
  intros [(row & Hrow & Hl & Hd) ? ? ? ? ? ?] (meta' & [(row' & Hrow' & Hl' & _) _ _ _ _ _ _]).
  constructor; try done. exists row. split; [done|]. split; [|done].
  by assert (row' = row) as <- by congruence.
Qed.

(** The columns bound what a metadata row can count. *)
Lemma sholds_widths a now w meta s :
  sholds a now w meta s → len (s_entries s) < 2 ^ 32 ∧ charged (s_entries s) < 2 ^ 64.
Proof.
  intros [(row & _ & _ & Hd) _ _ Hs Hb _ _]. apply StreamMeta_decode_base in Hd.
  unfold ComplexMeta_decode in Hd. destruct (MetaHeader_decode row); [|done]. cbn in Hd.
  case_decide; [done|]. injection Hd as E. rewrite <-E in Hs, Hb. cbn in Hs, Hb.
  rewrite <-Hs, <-Hb. split; [apply (of_be_sub_width _ _ 4)|apply (of_be_sub_width _ _ 8)].
Qed.

Section Specs.
Context (st : store) (slot : Z) (key : bytes).
Abbreviation a := (mkAddr (st_ns st) slot key).
Context (Ha : addr_wf a).

Definition current (H : option stream) : stream := default stream_new H.

(** The metadata record of a stream. *)
Definition meta_of (b : ComplexMeta) (s : stream) : StreamMeta :=
  mkStreamMeta (mkComplexMeta (c_header b) (c_written_ms b) (c_version b)
                  (len (s_entries s)) (charged (s_entries s)))
    (s_last s) (s_deleted s) (s_added s).

(** An operation has the stream's metadata in hand. *)
Record sopened (H : option stream) (w : world kvmap) (meta : StreamMeta) (w' : world kvmap) : Prop := {
  so_base now : H = None ∨ srepr a now w H → base_ok TStream now (st_base meta);
  so_width : in_width 64 (c_version (st_base meta));
  so_row : H ≠ None → ∃ row, w_kv w' !! mkey a = Some row ∧ StreamMeta_decode row = Some meta;
  so_rows : rows_at Subkey a (c_version (st_base meta)) (w_kv w') = stream_rows (current H);
  so_meta : meta = meta_of (st_base meta) (current H);
  so_wf : stream_wf (current H);
  so_len : len (s_entries (current H)) < 2 ^ 32;
  so_charged : charged (s_entries (current H)) < 2 ^ 64;
  so_version : c_version (st_base meta) <= w_last w';
  so_env : env_ok w';
  so_effect : effect a w w';
  so_keeps : skeeps a H w w'
}.

Lemma sopened_entries H w meta w' :
  sopened H w meta w' → c_size (st_base meta) = len (s_entries (current H)) ∧
    c_bytes (st_base meta) = charged (s_entries (current H)) ∧ st_last_id meta = s_last (current H).
Proof. intros Ho. rewrite (so_meta _ _ _ _ Ho). done. Qed.

Lemma wp_stream_read H w Q :
  env_ok w → srepr a (w_clock w 0%nat) w H →
  (∀ w', H = None → env_ok w' → effect a w w' → w_last w' = w_last w →
     (∃ d, ∀ n, w_clock w' n = w_clock w (d + n)%nat) → skeeps a H w w' → Q (Ok None) w') →
  (∀ meta w', H ≠ None → sopened H w meta w' → Q (Ok (Some meta)) w') →
  wp (stream_read_meta st slot key) w Q.
Proof.
  intros Henv HH HN HS. destruct H as [s|].
  - destruct HH as (meta & Hm). pose proof (sh_row _ _ _ _ _ Hm) as (row & Hrow & Hl & Hd).
    eapply wp_read_live; [done..|]. apply HS; [done|].
    destruct (after_read_effect st slot key w (tick w)) as (Henv' & He & El); [by right; left|done|].
    pose proof (sholds_base _ _ _ _ _ Hm) as Hb. pose proof (sholds_widths _ _ _ _ _ Hm) as [? ?].
    pose proof Hm as [_ Hrows Hmeta Hs Hby Hv Hwf]. constructor; cbn; try done.
    + intros now [?|Hnow]; [done|]. by eapply sholds_base, sholds_at.
    + apply Hb.
    + by exists row.
    + unfold meta_of. rewrite <-Hs, <-Hby. rewrite Hmeta at 1. by destruct (st_base meta).
    + intros now (meta' & [? ? ? ? ? ? ?]). exists meta'. done.
  - apply wp_read_dead; [done|]. intros w' Hafter Hdead.
    destruct (after_read_effect st slot key w w') as (? & He & ?); [done..|].
    apply HN; try done; [apply He|].
    intros now. cbn. destruct Hafter as [->|[->| ->]]; [done..|]. cbn. by rewrite lookup_delete_eq.
Qed.

(** A new stream, of a version just drawn. *)
Lemma sopened_new w w' :
  env_ok w' → effect a w w' → skeeps a None w w' → headroom w' →
  let v := version_next (w_last w') (w_clock w' 0%nat) in
  sopened None w (StreamMeta_new v) (with_last (tick w') v).
Proof.
  intros [Hc Hf] He Hk Hroom v.
  destruct (version_next_lt (w_last w') (w_clock w' 0%nat)) as (Hv & _ & Hv64); [done..|]. fold v in Hv, Hv64.
  assert (He' : effect a w (with_last (tick w') v)).
  { eapply effect_trans; [done|]. constructor; cbn; auto with flint; [by exists 1%nat|lia|].
    eapply fresh_le; [done|lia]. }
  constructor; cbn; auto using base_ok_new, stream_new_wf; try done.
  - unfold stream_rows. cbn. rewrite (left_id_L ∅ (∪)). by eapply fresh_empty.
  - constructor; [intros n; apply Hc|apply He'].
Qed.

(** The row an operation writes back is the stream's. *)
Lemma sholds_close now b s w now' :
  base_ok TStream now b → in_width 64 (c_version b) →
  rows_at Subkey a (c_version b) (w_kv w) = stream_rows s → stream_wf s →
  len (s_entries s) < 2 ^ 32 → charged (s_entries s) < 2 ^ 64 → c_version b <= w_last w →
  in_width 64 now' →
  let meta := mkStreamMeta (resized b (len (s_entries s)) (charged (s_entries s)) now')
                (s_last s) (s_deleted s) (s_added s) in
  sholds a now (with_kv w (<[mkey a := StreamMeta_encode meta]> (w_kv w))) meta s.
Proof.
  intros Hb Hv64 HF Hs Hl Ht Hv Hn. pose proof (charged_nonneg (s_entries s)).
  intros meta'.
  assert (Hok : stream_ok meta').
  { destruct Hb as [Hty Hex He Hv']. split_and!; [|apply Hs..]. cbn.
    unfold meta_ok, header_ok, resized, ComplexMeta_touch.
    cbn [c_header h_flags h_expire_ms c_written_ms c_version c_size c_bytes].
    split_and!; try done; [unfold v2_flags, value_type in *; by rewrite Hty|unfold in_width; lia..]. }
  constructor; cbn [w_kv with_kv w_last]; try done.
  - exists (StreamMeta_encode meta'). split; [apply lookup_insert_eq|].
    split; [|by apply StreamMeta_decode_encode].
    destruct (touch_live TStream now b (len (s_entries s)) (charged (s_entries s)) now')
      as [(h' & Hh & Hex & Hty) _]; [done|unfold in_width; lia..|done|].
    exists h'. split_and!; [|done..]. rewrite <-Hh. unfold StreamMeta_encode.
    rewrite (MetaHeader_decode_encode_app TStream) by apply Hok.
    symmetry. pose proof (MetaHeader_decode_encode_app TStream (st_base meta') [] (proj1 Hok)) as E.
    by rewrite app_nil_r in E.
  - by rewrite rows_at_meta_insert.
Qed.

(** The metadata written, under the version the rows are. *)
Lemma wp_stream_write_holds H meta s' w w1 w2 (Q : unit → world kvmap → Prop) :
  sopened H w meta w1 → rows_written a (c_version (st_base meta)) (stream_rows s') w1 w2 →
  stream_wf s' → len (s_entries s') < 2 ^ 32 → charged (s_entries s') < 2 ^ 64 →
  (∀ w', effect a w w' → w_last w' = w_last w2 →
     (∀ now, H = None ∨ srepr a now w H →
        ∃ meta', sholds a now w' meta' s' ∧ c_version (st_base meta') = c_version (st_base meta)) → Q tt w') →
  wp (stream_write_meta st slot key (meta_of (st_base meta) s')) w2 Q.
Proof.
  intros Ho Hrw Hs Hl Ht HQ. unfold stream_write_meta.
  change (meta_key st slot key) with (mkey a).
  pose proof (rows_written_effect _ _ _ _ _ Hrw) as He2.
  assert (He : effect a w w2) by (eapply effect_trans; [apply Ho|done]).
  wp_op. apply wp_last_put. apply HQ; [exact (close_effect a w w2 _ He)|done|].
  intros now Hnow. pose proof (so_base _ _ _ _ Ho now Hnow) as Hb. eexists. split.
  - apply (sholds_close now (st_base meta) s' (tick w2)); cbn; try done; [apply Ho|apply Hrw| |].
    + rewrite (rw_world _ _ _ _ _ Hrw). cbn. apply Ho.
    + apply clock_ok_64. eapply effect_clocks; [exact He2|]. apply (so_env _ _ _ _ Ho).
  - done.
Qed.

Lemma wp_stream_write_meta H meta s' w w1 w2 (Q : unit → world kvmap → Prop) :
  sopened H w meta w1 → rows_written a (c_version (st_base meta)) (stream_rows s') w1 w2 →
  stream_wf s' → len (s_entries s') < 2 ^ 32 → charged (s_entries s') < 2 ^ 64 →
  (∀ w', effect a w w' → smakes a H (Some s') w w' → Q tt w') →
  wp (stream_write_meta st slot key (meta_of (st_base meta) s')) w2 Q.
Proof.
  intros Ho Hrw Hs Hl Ht HQ. eapply wp_stream_write_holds; [done..|]. intros w' He _ Hm. apply HQ; [done|].
  intros now Hnow. destruct (Hm now Hnow) as (meta' & Hh & _). by exists meta'.
Qed.

Lemma entry_key_ok v i : entry_key st slot key v i = Some (rprefix Subkey a v ++ entry_field i).
Proof. by apply (skey_ok a). Qed.

Lemma entries_prefix_ok v :
  entries_prefix st slot key v = Some (rprefix Subkey a v ++ [STREAM_ENTRY_TAG]).
Proof. unfold entries_prefix. by rewrite (sprefix_ok a). Qed.

Lemma entry_key_split v i :
  rprefix Subkey a v ++ entry_field i = (rprefix Subkey a v ++ [STREAM_ENTRY_TAG]) ++ StreamId_to_bytes i.
Proof. by rewrite <-app_assoc. Qed.

(** One entry less, in the metadata and in the stream. *)
Lemma less_entry_of b s E n :
  len E = len (s_entries s) - 1 → charged E = charged (s_entries s) - n → len (s_entries s) < 2 ^ 32 →
  less_entry (meta_of b s) n = meta_of b (with_entries s E).
Proof.
  intros HE Hc Hl. unfold less_entry, meta_of, with_counts.
  cbn [st_base c_size c_bytes c_header c_written_ms c_version st_last_id st_max_deleted_id st_entries_added
       with_entries s_entries s_last s_deleted s_added].
  pose proof (charged_nonneg E). unfold saturating_sub.
  rewrite (wrap_id 32) by (unfold in_width; lia). do 2 f_equal; lia.
Qed.

Lemma without_first s e E :
  stream_wf s → s_entries s = e :: E → without_id e.1 (s_entries s) = E.
Proof.
  intros Hs HE. pose proof (wf_sorted _ Hs) as Hsort. rewrite HE in Hsort |- *.
  apply StronglySorted_inv in Hsort as [_ He]. unfold without_id. rewrite filter_cons.
  rewrite decide_False by (intros H; by apply H). apply list_filter_true. intros e' He' Heq.
  rewrite Forall_forall in He. specialize (He _ He'). rewrite Heq in He. id_order.
Qed.

(** Removing the first entries, one row at a time. *)
Lemma wp_doomed b s n w1 w2 (Q : StreamMeta → world kvmap → Prop) :
  let v := c_version b in
  in_width 64 v → stream_wf s → len (s_entries s) < 2 ^ 32 →
  rows_written a v (stream_rows s) w1 w2 →
  (∀ w3, rows_written a v (stream_rows (with_entries s (drop n (s_entries s)))) w1 w3 →
     Q (meta_of b (with_entries s (drop n (s_entries s)))) w3) →
  wp (fold_ ((λ e : Entry, ((rprefix Subkey a v ++ [STREAM_ENTRY_TAG]) ++ StreamId_to_bytes e.1, total e.2)) <$>
               take n (s_entries s))
        (λ m d, kvdelete d.1 ;;; Ret (less_entry m d.2)) (meta_of b s)) w2 Q.
Proof.
  intros v Hv Hs Hl Hrw HQ. revert s Hs Hl w2 Hrw HQ.
  induction n as [|n IH]; intros s Hs Hl w2 Hrw HQ.
  - cbn. apply wp_ret. specialize (HQ w2). rewrite drop_0 in HQ. destruct s. by apply HQ.
  - destruct (s_entries s) as [|e E] eqn:HE.
    { cbn. apply wp_ret. specialize (HQ w2). destruct s. cbn in *. subst. by apply HQ. }
    cbn [take fmap list_fmap fold_]. apply wp_bind. wp_op. wp_op.
    cbn [fst snd]. rewrite (less_entry_of b s E) by (rewrite HE; unfold charged; cbn in *; lia).
    assert (Hs' : stream_wf (with_entries s E)).
    { apply with_entries_wf; [done|]. rewrite HE. by apply sublist_cons. }
    apply (IH (with_entries s E)); cbn; [done|cbn in Hl; lia| |done].
    rewrite <-entry_key_split. rewrite <-(without_first s e E) by done.
    rewrite <-stream_rows_delete; [by apply rows_written_delete|done|].
    apply (wf_eids s Hs). rewrite HE. by constructor.
Qed.

Lemma trimmed_wf t s : stream_wf s → stream_wf (trimmed t s).
Proof. intros Hs. destruct t; cbn; [|done]. apply with_entries_wf; [done|]. apply sublist_drop. Qed.

Lemma charged_drop n E : charged (drop n E) <= charged E.
Proof.
  rewrite <-(take_drop n E) at 2. rewrite charged_app. pose proof (charged_nonneg (take n E)). lia.
Qed.

Lemma wp_trim_meta b s t w1 w2 (Q : StreamMeta * Z → world kvmap → Prop) :
  let v := c_version b in
  in_width 64 v → stream_wf s → len (s_entries s) < 2 ^ 32 → trim_ok t →
  rows_written a v (stream_rows s) w1 w2 →
  (∀ w3, rows_written a v (stream_rows (trimmed (Some t) s)) w1 w3 →
     Q (meta_of b (trimmed (Some t) s), Z.of_nat (trim_count t (s_entries s))) w3) →
  wp (trim_meta st slot key (meta_of b s) t) w2 Q.
Proof.
  intros v Hv Hs Hl Ht Hrw HQ. unfold trim_meta. cbn [st_base meta_of c_size c_version].
  destruct (trim_takes t (s_entries s)) as (Hn & Htake & Hle & Hz); [done|apply Hs|done|].
  set (n := Z.min _ _) in *. destruct (Z.eqb_spec n 0) as [E0|Hne].
  - wp_op. specialize (HQ w2). cbn [trimmed] in HQ. rewrite (Hz E0), drop_0 in HQ.
    destruct s. by apply HQ.
  - eapply wp_unwrap; [apply entries_prefix_ok|]. wp_op. fold v.
    pose proof (rows_from_entries s (rprefix Subkey a v) (w_kv w2) [] Hs (rw_rows _ _ _ _ _ Hrw)) as E.
    cbn zeta in E. rewrite E. rewrite list_filter_true by auto.
    rewrite doom_spec; [|by apply wf_eok|apply Hs|cbn; lia]. cbn [app length]. rewrite Z.sub_0_r, Htake.
    apply wp_bind. apply (wp_doomed b s _ w1); [done..|]. intros w3 Hw3. wp_op.
    rewrite length_fmap, length_take_le by done. by apply HQ.
Qed.

(** ** Adding *)

Definition trims_ok (t : option Trim) : Prop := match t with Some t => trim_ok t | None => True end.

(** What an [XADD] that has the stream in hand answers and leaves. *)
Definition added (H : option stream) (spec : IdSpec) (fields : list bytes) (t : option Trim)
    (w : world kvmap) (r : result (option StreamId)) (w' : world kvmap) : Prop :=
  let s := current H in
  ∃ n, match r with
  | Ok None => False
  | Ok (Some id) =>
      least_id spec (w_clock w n) (s_last s) id ∧
      charged (s_entries s) + total fields <= st_max st ∧
      smakes a H (Some (trimmed t (appended s id fields))) w w'
  | Err e =>
      skeeps a H w w' ∧
      ((no_id spec (w_clock w n) (s_last s) ∧
        e = if decide (s_last s = StreamId_MAX) then StreamExhausted else StreamIdTooSmall) ∨
       (e = ValueTooLarge ∧ st_max st < charged (s_entries s) + total fields))
  end.

Lemma skeeps_tick H w w' : skeeps a H w w' → skeeps a H w (tick w').
Proof.
  intros Hk now Hn. apply Hk in Hn. destruct H as [s|]; [|done]. destruct Hn as (meta & [? ? ? ? ? ? ?]).
  by exists meta.
Qed.

Lemma sopened_tick H w meta w1 w2 :
  sopened H w meta w1 → (w2 = w1 ∨ w2 = tick w1) → sopened H w meta w2.
Proof.
  intros Ho [->| ->]; [done|]. destruct Ho. constructor; cbn; auto using skeeps_tick.
  - by apply effect_env with (a := a) (w := w1); [apply effect_tick; apply so_env0|].
  - eapply effect_trans; [done|]. apply effect_tick, so_env0.
Qed.

Lemma appended_counts s id fields :
  charged (s_entries (appended s id fields)) = charged (s_entries s) + total fields ∧
  len (s_entries (appended s id fields)) = len (s_entries s) + 1.
Proof.
  cbn [appended s_entries]. rewrite charged_app, length_app.
  change (charged [(id, fields)]) with (total fields + 0). cbn [length]. lia.
Qed.

Lemma trimmed_counts t s :
  charged (s_entries (trimmed t s)) <= charged (s_entries s) ∧
  len (s_entries (trimmed t s)) <= len (s_entries s).
Proof.
  destruct t as [t|]; cbn [trimmed with_entries s_entries]; [|lia].
  rewrite length_drop. pose proof (charged_drop (trim_count t (s_entries s)) (s_entries s)). lia.
Qed.

Lemma wp_append_entry H meta id fields t w w1 (Q : result (option StreamId) → world kvmap → Prop) :
  let s := current H in
  sopened H w meta w1 → id_ok id → StreamId_lt (s_last s) id → fields_ok fields → trims_ok t →
  len (s_entries s) + 1 < 2 ^ 32 → charged (s_entries s) + total fields < 2 ^ 64 →
  s_added s + 1 < 2 ^ 64 →
  (∀ w', effect a w w' → smakes a H (Some (trimmed t (appended s id fields))) w w' → Q (Ok (Some id)) w') →
  wp (append_entry st slot key meta id fields (sum_lens fields) t) w1 Q.
Proof.
  intros s Ho Hid Hlt Hf Ht Hlen Hbytes Hadd HQ. unfold append_entry.
  pose proof (so_wf _ _ _ _ Ho) as Hwf. fold s in Hwf.
  pose proof (charged_nonneg (s_entries s)). pose proof (total_nonneg fields).
  destruct (appended_counts s id fields) as [Hc' Hl'].
  destruct (trimmed_counts t (appended s id fields)) as [Hct Hlt'].
  eapply wp_unwrap; [apply entry_key_ok|]. wp_op. set (s' := appended s id fields) in *.
  assert (Hwf' : stream_wf s') by (by apply appended_wf).
  assert (Hrw : rows_written a (c_version (st_base meta)) (stream_rows s') w1
    (with_kv w1 (<[rprefix Subkey a (c_version (st_base meta)) ++ entry_field id := encode_fields fields]> (w_kv w1)))).
  { unfold s'. rewrite <-stream_rows_append by done. apply rows_written_put; try apply Ho; [done|].
    unfold s. rewrite <-(so_rows _ _ _ _ Ho). apply rows_written_refl. apply (so_env _ _ _ _ Ho). }
  match goal with |- wp (bind (match t with Some _ => trim_meta _ _ _ ?m _ | None => _ end) _) _ _ =>
    assert (m = meta_of (st_base meta) s') as -> end.
  { unfold meta_of. rewrite Hl', Hc', sum_lens_total by lia. rewrite (so_meta _ _ _ _ Ho). cbn. fold s.
    pose proof (wf_added _ Hwf) as Hw. unfold in_width in Hw.
    rewrite !wrap_id by (unfold in_width; lia). done. }
  apply wp_bind.
  assert (Hfin : ∀ (n : Z) w3, rows_written a (c_version (st_base meta)) (stream_rows (trimmed t s')) w1 w3 →
    wp (stream_write_meta st slot key (meta_of (st_base meta) (trimmed t s'), n).1 ;;; Ret (Ok (Some id))) w3 Q).
  { intros n w3 Hw3. apply wp_bind. cbn [fst].
    apply (wp_stream_write_meta H meta (trimmed t s') w w1); try done; [by apply trimmed_wf|lia..|].
    intros w' He Hm. wp_op. by apply HQ. }
  destruct t as [t|]; [|wp_op; by apply Hfin].
  apply (wp_trim_meta (st_base meta) s' t w1); [apply Ho|done|lia|done..|]. intros w3 Hw3. by apply Hfin.
Qed.

Lemma wp_add_to H meta spec fields t w w1 :
  let s := current H in
  sopened H w meta w1 → spec_ok spec → fields_ok fields → trims_ok t →
  len (s_entries s) + 1 < 2 ^ 32 → charged (s_entries s) + total fields < 2 ^ 64 →
  s_added s + 1 < 2 ^ 64 →
  wp (add_to st slot key meta spec fields t) w1 (λ r w', effect a w w' ∧ added H spec fields t w r w').
Proof.
  intros s Ho Hspec Hf Ht Hlen Hbytes Hadd. unfold add_to. apply wp_try.
  destruct (sopened_entries _ _ _ _ Ho) as (_ & Hb & Hlast). fold s in Hb, Hlast.
  destruct (eff_clock _ _ _ (so_effect _ _ _ _ Ho)) as [d Hd]. specialize (Hd 0%nat). rewrite Nat.add_0_r in Hd.
  apply wp_next_id; [rewrite Hlast; apply (so_wf _ _ _ _ Ho)|done|apply (so_env _ _ _ _ Ho)| |].
  - intros id w2 Hw2 Hid. rewrite Hlast, Hd in Hid. apply (sopened_tick _ _ _ _ w2) in Ho; [|done].
    pose proof (charged_nonneg (s_entries s)). pose proof (total_nonneg fields).
    replace (u64 (c_bytes (st_base meta) + sum_lens fields)) with (charged (s_entries s) + total fields)
      by (rewrite sum_lens_total, Hb, (wrap_id 64) by (unfold in_width; lia); done).
    destruct (Z.ltb_spec (st_max st) (charged (s_entries s) + total fields)) as [Hcap|Hcap].
    { wp_op. split; [apply Ho|]. exists d. split; [apply Ho|]. by right. }
    pose proof Hid as (Hidok & Hlt & _).
    apply (wp_append_entry H meta id fields t w); try done. intros w' He Hm. split; [done|]. by exists d.
  - intros w' Hw' Hno. rewrite Hlast, Hd in *.
    pose proof (sopened_tick _ _ _ _ _ Ho Hw') as Ho'. split; [apply Ho'|]. exists d.
    split; [apply Ho'|]. by left.
Qed.

Lemma wp_add H spec fields nomkstream t w :
  env_ok w → headroom w → srepr a (w_clock w 0%nat) w H →
  spec_ok spec → fields_ok fields → trims_ok t →
  len (s_entries (current H)) + 1 < 2 ^ 32 →
  charged (s_entries (current H)) + total fields < 2 ^ 64 → s_added (current H) + 1 < 2 ^ 64 →
  wp (add st slot key spec fields nomkstream t) w (λ r w', effect a w w' ∧
    if bool_decide (H = None) && nomkstream then r = Ok None ∧ skeeps a H w w'
    else added H spec fields t w r w').
Proof.
  intros Henv Hroom HH Hspec Hf Ht Hlen Hbytes Hadd. unfold add. apply wp_try.
  apply (wp_stream_read H); [done..| |].
  - intros w' -> Henv' He El [d Hd] Hk. cbn [bool_decide andb].
    destruct nomkstream; cbn [andb]; [wp_op; by rewrite bool_decide_true|].
    wp_op. wp_op. rewrite andb_false_r. apply wp_add_to; try done.
    apply sopened_new; try done. unfold headroom. by rewrite El.
  - intros meta w' Hne Ho. rewrite bool_decide_false by done. cbn [andb]. by apply wp_add_to.
Qed.

(** ** Reading *)

Definition directed (rv : bool) (E : list Entry) : list Entry := if rv then reverse E else E.

Lemma elem_of_directed rv E e : e ∈ directed rv E ↔ e ∈ E.
Proof. unfold directed. destruct rv; [apply elem_of_reverse|done]. Qed.

(** The visitor over what a bound leaves selects the range, when the bound
    leaves all of it. *)
Lemma visit_selects s lo hi count rv p (B : Entry → Prop) `{∀ e, Decision (B e)} :
  stream_wf s → len (s_entries s) < 2 ^ 32 → (∀ n, count = Some n → 0 < n) →
  (∀ e, e ∈ s_entries s → between lo hi e → B e) →
  visit lo hi rv (default U64_MAX count) (length p) (prow p <$> filter B (directed rv (s_entries s))) [] =
  selected lo hi count rv (s_entries s).
Proof.
  intros Hs Hl Hc HB. rewrite visit_spec.
  - cbn [app length]. rewrite Z.sub_0_r, filter_weaker by (intros e He%elem_of_directed; auto).
    unfold selected. fold (directed rv (s_entries s)). destruct count as [n|]; [done|]. apply take_ge.
    pose proof (length_filter (between lo hi) (directed rv (s_entries s))) as Hle.
    assert (length (directed rv (s_entries s)) = length (s_entries s)) by (destruct rv; [apply length_reverse|done]).
    cbn [default from_option id]. unfold U64_MAX. lia.
  - intros e [_ He%elem_of_directed]%list_elem_of_filter. by apply (wf_eok s Hs).
  - apply direction_filter. destruct rv; [apply direction_reverse, Hs|apply Hs].
  - destruct count as [n|]; [|done]. specialize (Hc n eq_refl). cbn. lia.
Qed.

Lemma wp_scan meta s lo hi count rv w (Q : list Entry → world kvmap → Prop) :
  stream_wf s → len (s_entries s) < 2 ^ 32 →
  rows_at Subkey a (c_version (st_base meta)) (w_kv w) = stream_rows s →
  id_ok lo → id_ok hi → (∀ n, count = Some n → 0 <= n) →
  Q (selected lo hi count rv (s_entries s)) w →
  wp (scan st slot key meta lo hi count rv) w Q.
Proof.
  intros Hs Hl Hrows Hlo Hhi Hc HQ. unfold scan.
  destruct (StreamId_ltb hi lo) eqn:Elh; cbn [orb].
  { wp_op. replace (selected lo hi count rv (s_entries s)) with ([] : list Entry) in HQ; [done|].
    unfold selected. rewrite filter_none; [by destruct count; rewrite ?take_nil|].
    intros e He [? ?]. apply StreamId_ltb_spec in Elh. id_order. }
  case_bool_decide as Ec.
  { wp_op. replace (selected lo hi count rv (s_entries s)) with ([] : list Entry) in HQ; [done|]. by subst count. }
  assert (Hc' : ∀ n, count = Some n → 0 < n).
  { intros n En. specialize (Hc n En). assert (n ≠ 0) by congruence. lia. }
  eapply wp_unwrap; [apply entries_prefix_ok|].
  set (P := rprefix Subkey a (c_version (st_base meta)) ++ [STREAM_ENTRY_TAG]). destruct rv.
  - wp_op. wp_op. pose proof (rows_before_entries s (rprefix Subkey a (c_version (st_base meta))) (w_kv w)
      (match StreamId_next hi with Some n => StreamId_to_bytes n | None => [] end) Hs Hrows) as E.
    cbn zeta in E. fold P in E.
    replace (match StreamId_next hi with Some n => P ++ StreamId_to_bytes n | None => [] end)
      with (match (match StreamId_next hi with Some n => StreamId_to_bytes n | None => [] end) with
            | [] => [] | _ => P ++ (match StreamId_next hi with Some n => StreamId_to_bytes n | None => [] end) end).
    2:{ destruct (StreamId_next hi) as [n|]; [|done]. pose proof (StreamId_to_bytes_ne n).
        by destruct (StreamId_to_bytes n). }
    rewrite E. rewrite (visit_selects s lo hi count true P); [done..|]. intros e He [_ Hle].
    pose proof (id_next_spec hi e.1 Hhi (wf_eids s Hs e He)) as Hn.
    destruct (StreamId_next hi) as [n|]; [|by left]. right. destruct Hn as [Hn Hiff].
    rewrite blt_StreamId by (done || by apply (wf_eids s Hs)). by apply StreamId_ltb_spec, Hiff.
  - wp_op. wp_op. pose proof (rows_from_entries s (rprefix Subkey a (c_version (st_base meta))) (w_kv w)
      (match StreamId_prev lo with Some n => StreamId_to_bytes n | None => [] end) Hs Hrows) as E.
    cbn zeta in E. fold P in E. rewrite E.
    rewrite (visit_selects s lo hi count false P); [done..|]. intros e He [Hle _].
    pose proof (id_prev_spec lo e.1 Hlo (wf_eids s Hs e He)) as Hn.
    destruct (StreamId_prev lo) as [n|]; [|by left]. right. destruct Hn as [Hn Hiff].
    rewrite blt_StreamId by (done || by apply (wf_eids s Hs)). by apply StreamId_ltb_spec, Hiff.
Qed.

Lemma id_ok_bounds : id_ok StreamId_MIN ∧ id_ok StreamId_MAX.
Proof. repeat split; unfold StreamId_MIN, StreamId_MAX, U64_MAX; cbn; width. Qed.

Definition answers {A} (H : option stream) (w : world kvmap) (p : prog (result A)) (v : A) : Prop :=
  wp p w (λ r w', r = Ok v ∧ effect a w w' ∧ skeeps a H w w').

Lemma wp_range H lo hi count rv w :
  env_ok w → srepr a (w_clock w 0%nat) w H →
  id_ok lo → id_ok hi → (∀ n, count = Some n → 0 <= n) →
  answers H w (range st slot key lo hi count rv) (selected lo hi count rv (s_entries (current H))).
Proof.
  intros Henv HH Hlo Hhi Hc. unfold answers, range. apply wp_try. apply (wp_stream_read H); [done..| |].
  - intros w' -> _ He _ _ Hk. wp_op. split_and!; [|done..].
    unfold selected. destruct rv, count as [n|]; cbn; try done; by destruct (Z.to_nat n).
  - intros meta w' _ Ho. apply wp_bind. apply (wp_scan meta (current H)); try done; try apply Ho.
    wp_op. split_and!; [done|apply Ho..].
Qed.

Lemma selected_last E : esorted E → eids E → last (selected StreamId_MIN StreamId_MAX (Some 1) true E) = last E.
Proof.
  intros _ Hid. unfold selected. rewrite list_filter_true.
  2:{ intros e He. rewrite elem_of_reverse in He. split; [unfold id_le; specialize (Hid e He); id_order|].
      by apply id_max_id, Hid. }
  clear. induction E as [|e E _] using rev_ind; [done|]. rewrite reverse_snoc, last_snoc.
  change (Z.to_nat 1) with 1%nat. cbn. by rewrite take_0.
Qed.

Lemma wp_stream_reads H w :
  env_ok w → srepr a (w_clock w 0%nat) w H →
  answers H w (stream_len st slot key) (len (s_entries (current H))) ∧
  answers H w (last_entry st slot key) (last (s_entries (current H))) ∧
  answers H w (stream_last_id st slot key) (s_last <$> H).
Proof.
  intros Henv HH. split_and!.
  - unfold answers, stream_len. apply wp_try. apply (wp_stream_read H); [done..| |].
    + intros w' -> _ He _ _ Hk. by wp_op.
    + intros meta w' _ Ho. wp_op. destruct (sopened_entries _ _ _ _ Ho) as (-> & _).
      split_and!; [done|apply Ho..].
  - unfold answers, last_entry. apply wp_try. destruct id_ok_bounds.
    eapply wp_conseq; [apply (wp_range H StreamId_MIN StreamId_MAX (Some 1) true w); try done|].
    { intros n [= <-]. lia. }
    intros r w' (-> & He & Hk). cbn beta iota. wp_op. split_and!; [|done..]. f_equal.
    destruct H as [s|]; [|done]. destruct HH as (meta & Hm). pose proof (sh_wf _ _ _ _ _ Hm) as Hs.
    apply selected_last; [apply Hs|by apply wf_eids].
  - unfold answers, stream_last_id. apply wp_try. apply (wp_stream_read H); [done..| |].
    + intros w' -> _ He _ _ Hk. by wp_op.
    + intros meta w' Hne Ho. wp_op. destruct (sopened_entries _ _ _ _ Ho) as (_ & _ & El). cbn. rewrite El.
      split_and!; [by destruct H|apply Ho..].
Qed.

(** ** Trimming and deleting *)

Lemma with_entries_id s : with_entries s (s_entries s) = s.
Proof. by destruct s. Qed.

(** Rows written back as they were leave the stream as it was. *)
Lemma skeeps_rows s w meta w1 w2 :
  sopened (Some s) w meta w1 → rows_written a (c_version (st_base meta)) (stream_rows s) w1 w2 →
  skeeps a (Some s) w w2.
Proof.
  intros Ho Hrw now Hn. apply (so_keeps _ _ _ _ Ho) in Hn as (meta' & Hm).
  destruct (so_row _ _ _ _ Ho) as (row & Hrow & Hd); [done|].
  pose proof Hm as [(row' & Hrow' & Hl & Hd') _ Hmeta Hsz Hb Hv Hwf].
  assert (row' = row) by congruence. subst row'. assert (meta' = meta) by congruence. subst meta'.
  exists meta. constructor; try done.
  - exists row. by rewrite (rw_meta _ _ _ _ _ Hrw).
  - apply Hrw.
  - rewrite (rw_world _ _ _ _ _ Hrw). done.
Qed.

(** An operation that counted what it removed writes the metadata only if it
    removed anything. *)
Lemma wp_close_counted s s' n w meta w1 w2 (Q : result Z → world kvmap → Prop) :
  sopened (Some s) w meta w1 → rows_written a (c_version (st_base meta)) (stream_rows s') w1 w2 →
  stream_wf s' → len (s_entries s') <= len (s_entries s) → charged (s_entries s') <= charged (s_entries s) →
  0 <= n → (n = 0 → s' = s) →
  (∀ w', effect a w w' → smakes a (Some s) (Some s') w w' → Q (Ok n) w') →
  wp (if 0 <? n then stream_write_meta st slot key (meta_of (st_base meta) s') ;;; Ret (Ok n) else Ret (Ok n)) w2 Q.
Proof.
  intros Ho Hrw Hwf Hl Hc Hn Hz HQ.
  pose proof (so_len _ _ _ _ Ho) as Hlen. pose proof (so_charged _ _ _ _ Ho) as Hch.
  cbn [current default from_option id] in Hlen, Hch. destruct (Z.ltb_spec 0 n) as [Hpos|Hz'].
  - apply wp_bind. apply (wp_stream_write_meta (Some s) meta s' w w1); try done; [lia..|].
    intros w' He Hm. wp_op. by apply HQ.
  - assert (s' = s) as -> by (apply Hz; lia). wp_op. apply HQ.
    + eapply effect_trans; [apply Ho|]. by eapply rows_written_effect.
    + intros now [?|Hnow]; [done|]. by eapply skeeps_rows.
Qed.

Lemma wp_trim H t w :
  env_ok w → srepr a (w_clock w 0%nat) w H → trim_ok t →
  wp (trim st slot key t) w (λ r w', effect a w w' ∧
    match H with
    | None => r = Ok 0 ∧ skeeps a H w w'
    | Some s => r = Ok (Z.of_nat (trim_count t (s_entries s))) ∧ smakes a H (Some (trimmed (Some t) s)) w w'
    end).
Proof.
  intros Henv HH Ht. unfold trim. apply wp_try. apply (wp_stream_read H); [done..| |].
  { intros w' -> _ He _ _ Hk. by wp_op. }
  intros meta w1 Hne Ho. destruct H as [s|]; [|done].
  pose proof (so_meta _ _ _ _ Ho) as Em. cbn [current default from_option id] in Em. rewrite Em.
  apply wp_bind. apply (wp_trim_meta (st_base meta) s t w1);
    [apply Ho|apply (so_wf _ _ _ _ Ho)|apply (so_len _ _ _ _ Ho)|done| |].
  { pose proof (so_rows _ _ _ _ Ho) as Er. cbn [current default from_option id] in Er. rewrite <-Er.
    apply rows_written_refl, (so_env _ _ _ _ Ho). }
  intros w2 Hrw. cbn [fst snd]. destruct (trimmed_counts (Some t) s) as [Hc' Hl'].
  apply (wp_close_counted s (trimmed (Some t) s) _ w meta w1); try done.
  - apply trimmed_wf, (so_wf _ _ _ _ Ho).
  - lia.
  - intros E0. cbn [trimmed]. replace (trim_count t (s_entries s)) with 0%nat by lia.
    by rewrite drop_0, with_entries_id.
Qed.

Lemma without_counts i f E :
  esorted E → (i, f) ∈ E →
  len (without_id i E) = len E - 1 ∧ charged (without_id i E) = charged E - total f.
Proof.
  unfold without_id. induction 1 as [|e E Hs IH He]; intros Hin; [by apply elem_of_nil in Hin|].
  rewrite Forall_forall in He. rewrite filter_cons. unfold charged in *. cbn [foldr length].
  apply elem_of_cons in Hin as [<-|Hin].
  - rewrite decide_False by (intros H; by apply H). cbn [fst snd].
    rewrite list_filter_true; [lia|]. intros e' He' Heq. specialize (He _ He'). cbn in He.
    rewrite Heq in He. id_order.
  - destruct (IH Hin) as [? ?]. specialize (He _ Hin). rewrite decide_True.
    + cbn [foldr length]. lia.
    + intros Heq. cbn in He. rewrite Heq in He. id_order.
Qed.

(** What an [XDEL] of [ids] takes out and leaves, and the largest deleted ID. *)
Definition taken (ids : list StreamId) (E : list Entry) : list Entry := filter (λ e : Entry, e.1 ∈ ids) E.
Definition left_by (ids : list StreamId) (E : list Entry) : list Entry := filter (λ e : Entry, e.1 ∉ ids) E.

Definition deleted_to (s : stream) (ids : list StreamId) (d : StreamId) : Prop :=
  (d = s_deleted s ∨ d ∈ (taken ids (s_entries s)).*1) ∧ id_le (s_deleted s) d ∧
  ∀ e, e ∈ taken ids (s_entries s) → id_le e.1 d.

Definition deleted (s : stream) (ids : list StreamId) (d : StreamId) : stream :=
  mkStream (left_by ids (s_entries s)) (s_last s) d (s_added s) (s_rest s).

Lemma left_snoc ids i E : left_by (ids ++ [i]) E = without_id i (left_by ids E).
Proof.
  unfold left_by, without_id. rewrite list_filter_filter. apply list_filter_iff'. intros e _.
  rewrite elem_of_app, list_elem_of_singleton. tauto.
Qed.

Lemma taken_left ids E : (length (taken ids E) + length (left_by ids E) = length E)%nat.
Proof.
  unfold taken, left_by. induction E as [|e E IH]; [done|]. rewrite !filter_cons.
  destruct (decide (e.1 ∈ ids)); destruct (decide (e.1 ∉ ids)); try done; cbn; lia.
Qed.

Lemma elem_of_taken ids E e : e ∈ taken ids E ↔ e.1 ∈ ids ∧ e ∈ E.
Proof. unfold taken. by rewrite list_elem_of_filter. Qed.

Lemma deleted_to_snoc s ids i f d :
  (i, f) ∈ s_entries s → deleted_to s ids d → deleted_to s (ids ++ [i]) (StreamId_max d i).
Proof.
  intros Hin (Hd & Hle & Hall). unfold StreamId_max.
  assert (Hm : ∀ j, id_le j d ∨ j = i → id_le j (if StreamId_ltb i d then d else i)).
  { intros j Hj. destruct (StreamId_ltb i d) eqn:E.
    - apply StreamId_ltb_spec in E. destruct Hj as [?| ->]; [done|id_order].
    - apply StreamId_ltb_false in E. destruct Hj as [?| ->]; id_order. }
  split_and!.
  - destruct (StreamId_ltb i d).
    + destruct Hd as [?|(e & -> & He)%list_elem_of_fmap]; [by left|right].
      apply list_elem_of_fmap. exists e. split; [done|]. apply elem_of_taken in He as [? ?].
      apply elem_of_taken. set_solver.
    + right. apply list_elem_of_fmap. exists (i, f). split; [done|]. apply elem_of_taken. cbn. set_solver.
  - apply Hm. by left.
  - intros e [[He|Hi%list_elem_of_singleton]%elem_of_app HE]%elem_of_taken; apply Hm; [|by right].
    left. apply Hall. by apply elem_of_taken.
Qed.

(** An ID that is not there, or no longer, changes nothing. *)
Lemma seen_none seen i E :
  i ∉ (left_by seen E).*1 →
  left_by (seen ++ [i]) E = left_by seen E ∧ taken (seen ++ [i]) E = taken seen E.
Proof.
  intros Hn. assert (Hiff : ∀ e, e ∈ E → e.1 ∈ seen ++ [i] ↔ e.1 ∈ seen).
  { intros e He. rewrite elem_of_app, list_elem_of_singleton. split; [|tauto].
    intros [?|Ei]; [done|]. apply dec_stable. intros Hs. apply Hn. apply list_elem_of_fmap.
    exists e. split; [done|]. by apply list_elem_of_filter. }
  split; apply list_filter_iff'; intros e He; by rewrite Hiff.
Qed.

Lemma deleted_wf s ids d : stream_wf s → deleted_to s ids d → stream_wf (deleted s ids d).
Proof.
  intros Hs (Hd & _ & _).
  assert (stream_wf (with_entries s (left_by ids (s_entries s)))) as [? ? ? ? ? ?]
    by (apply with_entries_wf; [done|apply sublist_filter]).
  constructor; cbn in *; try done. destruct Hd as [->|(e & -> & He)%list_elem_of_fmap]; [done|].
  apply elem_of_taken in He as [_ He]. by apply (wf_eids s Hs).
Qed.

(** One ID of the loop: what was removed so far is [seen]. *)
Lemma wp_del_step b s seen d i w1 w2 (Q : StreamMeta * Z → world kvmap → Prop) :
  let v := c_version b in
  let state ids d := (meta_of b (deleted s ids d), len (taken ids (s_entries s))) in
  in_width 64 v → stream_wf s → len (s_entries s) < 2 ^ 32 → id_ok i → deleted_to s seen d →
  rows_written a v (stream_rows (deleted s seen d)) w1 w2 →
  (∀ d' w3, deleted_to s (seen ++ [i]) d' →
     rows_written a v (stream_rows (deleted s (seen ++ [i]) d')) w1 w3 → Q (state (seen ++ [i]) d') w3) →
  wp (del_step st slot key (state seen d) i) w2 Q.
Proof.
  intros v state Hv Hs Hl Hi Hd Hrw HQ. unfold del_step, state. cbn [st_base meta_of c_version].
  pose proof (deleted_wf s seen d Hs Hd) as Hwf.
  eapply wp_unwrap; [apply entry_key_ok|]. wp_op. fold v.
  rewrite <-lookup_rows_at, (rw_rows _ _ _ _ _ Hrw).
  destruct (decide (i ∈ (left_by seen (s_entries s)).*1)) as [Hin|Hn].
  - apply list_elem_of_fmap in Hin as ([i' f] & -> & Hin). cbn [fst] in *.
    rewrite (lookup_entry (deleted s seen d) i' f) by done. wp_op. wp_op.
    assert (Hin' : (i', f) ∈ s_entries s) by (by apply list_elem_of_filter in Hin as [_ ?]).
    assert (Hf : fields_ok f) by (by apply (wf_ids _ Hs (i', f))).
    destruct (without_counts i' f (left_by seen (s_entries s))) as [Hlw Hcw]; [apply Hwf|done|].
    pose proof (charged_nonneg (left_by seen (s_entries s))). pose proof (total_nonneg f).
    pose proof (charged_nonneg (without_id i' (left_by seen (s_entries s)))).
    pose proof (taken_left seen (s_entries s)). pose proof (taken_left (seen ++ [i']) (s_entries s)) as Htl.
    rewrite left_snoc in Htl. rewrite payload_encode by done.
    rewrite (less_entry_of b (deleted s seen d) (without_id i' (left_by seen (s_entries s))))
      by (cbn [deleted s_entries]; lia).
    rewrite (wrap_id 64) by (unfold in_width; lia).
    assert (E : delete (entry_field i') (stream_rows (deleted s seen d)) =
                stream_rows (deleted s (seen ++ [i']) (StreamId_max d i'))).
    { rewrite stream_rows_delete by done. unfold deleted. by rewrite left_snoc. }
    replace (len (taken seen (s_entries s)) + 1) with (len (taken (seen ++ [i']) (s_entries s))) by lia.
    specialize (HQ (StreamId_max d i')). unfold state, deleted in HQ. rewrite left_snoc in HQ.
    unfold deleted in E at 2. rewrite left_snoc in E. rewrite <-E in HQ.
    apply HQ; [by eapply deleted_to_snoc|by apply rows_written_delete].
  - rewrite (lookup_no_entry (deleted s seen d) i) by done. wp_op.
    destruct (seen_none seen i (s_entries s) Hn) as [El Et].
    specialize (HQ d w2). unfold state, deleted, deleted_to in HQ. rewrite El, Et in HQ. by apply HQ.
Qed.

Lemma charged_sublist E E' : sublist E E' → charged E <= charged E'.
Proof.
  induction 1 as [|e E E' _ IH|e E E' _ IH]; [done|..]; unfold charged in *; cbn;
    pose proof (total_nonneg e.2); lia.
Qed.

Lemma deleted_nothing s ids d :
  taken ids (s_entries s) = [] → deleted_to s ids d → deleted s ids d = s.
Proof.
  intros Et (Hd & _). rewrite Et in Hd. destruct Hd as [->|[]%elem_of_nil].
  unfold deleted, left_by. rewrite list_filter_true; [by destruct s|]. intros e He Hi.
  assert (He' : e ∈ taken ids (s_entries s)) by (by apply elem_of_taken).
  rewrite Et in He'. by apply elem_of_nil in He'.
Qed.

Lemma wp_xdel H ids w :
  env_ok w → srepr a (w_clock w 0%nat) w H → Forall id_ok ids →
  wp (del st slot key ids) w (λ r w', effect a w w' ∧
    match H with
    | None => r = Ok 0 ∧ skeeps a H w w'
    | Some s => r = Ok (len (taken ids (s_entries s))) ∧
                ∃ d, deleted_to s ids d ∧ smakes a H (Some (deleted s ids d)) w w'
    end).
Proof.
  intros Henv HH Hids. unfold del. apply wp_try. apply (wp_stream_read H); [done..| |].
  { intros w' -> _ He _ _ Hk. by wp_op. }
  intros meta w1 Hne Ho. destruct H as [s|]; [|done].
  pose proof (so_meta _ _ _ _ Ho) as Em. cbn [current default from_option id] in Em.
  pose proof (so_wf _ _ _ _ Ho) as Hwf. pose proof (so_len _ _ _ _ Ho) as Hlen.
  pose proof (so_rows _ _ _ _ Ho) as Er. cbn [current default from_option id] in Hwf, Hlen, Er.
  assert (E0 : deleted s [] (s_deleted s) = s).
  { unfold deleted, left_by. rewrite list_filter_true by (intros ? _; by apply not_elem_of_nil). by destruct s. }
  apply wp_bind. apply (wp_fold (λ l' acc w', ∃ seen d, ids = seen ++ l' ∧ deleted_to s seen d ∧
    acc = (meta_of (st_base meta) (deleted s seen d), len (taken seen (s_entries s))) ∧
    rows_written a (c_version (st_base meta)) (stream_rows (deleted s seen d)) w1 w')).
  - exists [], (s_deleted s). rewrite E0. assert (Et : taken [] (s_entries s) = []).
    { apply filter_none. intros e _. apply not_elem_of_nil. }
    unfold deleted_to. rewrite Et. split_and!; try done; [by left|id_order|by intros e ?%elem_of_nil|by rewrite <-Em|].
    rewrite <-Er. apply rows_written_refl, (so_env _ _ _ _ Ho).
  - intros i l' acc w' (seen & d & Eids & Hd & -> & Hrw).
    apply (wp_del_step (st_base meta) s seen d i w1); try done; [apply Ho| |].
    { rewrite Forall_forall in Hids. apply Hids. rewrite Eids. set_solver. }
    intros d' w3 Hd' Hrw'. exists (seen ++ [i]), d'. split; [by rewrite <-app_assoc|]. done.
  - intros acc w2 (seen & d & Eids & Hd & -> & Hrw). rewrite app_nil_r in Eids. subst seen. cbn [fst snd].
    pose proof (taken_left ids (s_entries s)) as Htl.
    apply (wp_close_counted s (deleted s ids d) _ w meta w1); try done.
    + by apply deleted_wf.
    + cbn [deleted s_entries]. lia.
    + apply charged_sublist, sublist_filter.
    + lia.
    + intros Ez. assert (Et : taken ids (s_entries s) = []) by (apply nil_length_inv; lia).
      by apply deleted_nothing.
    + intros w' He Hm. split; [done|]. split; [done|]. by exists d.
Qed.
End Specs.

(** ** What the operations do *)

(** C11. [XADD] appends one entry, last in the stream. Its ID is the least one the
    request admits above every ID the stream has given ([*]: no earlier than
    the clock; [ms-*]: in that millisecond; or the one named), so IDs strictly
    increase even when the clock goes back or entries were deleted; there is an
    error only when no such ID exists, and it says whether the stream is
    exhausted. The ID is checked first and the cap second, and an error leaves
    the stream as it was. The trim then drops the oldest entries. On a missing
    key a stream is made, unless [NOMKSTREAM]. The counts, the accounting and
    the groups' rows are exact throughout. *)
Theorem xadd_refines st slot key H spec fields nomkstream t w :
  let a := mkAddr (st_ns st) slot key in
  let s := default stream_new H in
  addr_wf a → env_ok w → headroom w → srepr a (w_clock w 0%nat) w H →
  spec_ok spec → fields_ok fields → trims_ok t →
  len (s_entries s) + 1 < 2 ^ 32 → charged (s_entries s) + total fields < 2 ^ 64 →
  s_added s + 1 < 2 ^ 64 →
  wp (add st slot key spec fields nomkstream t) w (λ r w', effect a w w' ∧
    if bool_decide (H = None) && nomkstream then r = Ok None ∧ skeeps a H w w'
    else ∃ n, match r with
    | Ok None => False
    | Ok (Some id) =>
        least_id spec (w_clock w n) (s_last s) id ∧
        charged (s_entries s) + total fields <= st_max st ∧
        smakes a H (Some (trimmed t (appended s id fields))) w w'
    | Err e =>
        skeeps a H w w' ∧
        ((no_id spec (w_clock w n) (s_last s) ∧
          e = if decide (s_last s = StreamId_MAX) then StreamExhausted else StreamIdTooSmall) ∨
         (e = ValueTooLarge ∧ st_max st < charged (s_entries s) + total fields))
    end).
Proof. intros. by apply wp_add. Qed.

(** C12. The reads answer from the entries in ID order and leave the stream as it
    was: [XRANGE] and [XREVRANGE] the entries between two IDs, both inclusive,
    from the low or the high end and at most [count], whatever the bounds'
    place at the ends of the ID space; [XLEN] their number; the newest entry;
    and the last ID given, which outlives the entry that had it. *)
Theorem stream_reads_refine st slot key H lo hi count rv w :
  let a := mkAddr (st_ns st) slot key in
  let E := match H with Some s => s_entries s | None => [] end in
  let answers A (p : prog (result A)) (v : A) :=
    wp p w (λ r w', r = Ok v ∧ effect a w w' ∧ skeeps a H w w') in
  addr_wf a → env_ok w → srepr a (w_clock w 0%nat) w H →
  id_ok lo → id_ok hi → (∀ n, count = Some n → 0 <= n) →
  answers _ (range st slot key lo hi count rv) (selected lo hi count rv E) ∧
  answers _ (stream_len st slot key) (len E) ∧
  answers _ (last_entry st slot key) (last E) ∧
  answers _ (stream_last_id st slot key) (s_last <$> H).
Proof.
  intros a E answers' Ha Henv HH Hlo Hhi Hc.
  replace E with (s_entries (current H)) by (by destruct H).
  split; [by apply wp_range|]. by apply wp_stream_reads.
Qed.

(** C13. [XTRIM] drops exactly the oldest entries past the length, or below the ID,
    no more than its limit, and [XDEL] exactly the entries named; each answers
    how many went. Order, counts and accounting stay exact, no ID given before
    can be given again, the largest deleted ID is the largest [XDEL] took, and
    an emptied stream keeps its key, its counters and its groups' rows. *)
Theorem stream_removals_refine st slot key H t ids w :
  let a := mkAddr (st_ns st) slot key in
  addr_wf a → env_ok w → srepr a (w_clock w 0%nat) w H → trim_ok t → Forall id_ok ids →
  wp (trim st slot key t) w (λ r w', effect a w w' ∧
    match H with
    | None => r = Ok 0 ∧ skeeps a H w w'
    | Some s => r = Ok (Z.of_nat (trim_count t (s_entries s))) ∧
                smakes a H (Some (with_entries s (drop (trim_count t (s_entries s)) (s_entries s)))) w w'
    end) ∧
  wp (del st slot key ids) w (λ r w', effect a w w' ∧
    match H with
    | None => r = Ok 0 ∧ skeeps a H w w'
    | Some s => r = Ok (len (taken ids (s_entries s))) ∧
                ∃ d, deleted_to s ids d ∧ smakes a H (Some (deleted s ids d)) w w'
    end).
Proof. intros a Ha Henv HH Ht Hids. split; [by apply wp_trim|by apply wp_xdel]. Qed.

(** A stream of two entries, and its world. *)
Definition demo_entries : list Entry :=
  [(mkStreamId 1 1, [bstr "f"; bstr "x"]); (mkStreamId 4 0, [bstr "f"; bstr "yz"])].

Definition demo_stream : stream := mkStream demo_entries (mkStreamId 5 2) (mkStreamId 5 2) 3 ∅.

Definition demo_stream_rows : world kvmap :=
  demo_world (<[rprefix Subkey demo_addr 3 ++ entry_field (mkStreamId 1 1) := encode_fields [bstr "f"; bstr "x"]]>
    (<[rprefix Subkey demo_addr 3 ++ entry_field (mkStreamId 4 0) := encode_fields [bstr "f"; bstr "yz"]]> ∅)).

Definition demo_streams : world kvmap :=
  with_kv demo_stream_rows (<[mkey demo_addr := StreamMeta_encode (mkStreamMeta
      (resized (ComplexMeta_new TStream 3) (len demo_entries) (charged demo_entries) 5)
      (s_last demo_stream) (s_deleted demo_stream) (s_added demo_stream))]> (w_kv demo_stream_rows)).

Lemma demo_streams_env : env_ok demo_streams.
Proof. constructor; [by split|]. apply fresh_meta. apply fresh_row; try done. by apply fresh_row. Qed.

Lemma demo_stream_wf : stream_wf demo_stream.
Proof.
  assert (Hok : ∀ ms seq, in_width 64 ms → in_width 64 seq → id_ok (mkStreamId ms seq)) by (by split).
  constructor; [repeat constructor| |by apply Hok|by apply Hok|done|done].
  intros e He. change (s_entries demo_stream) with demo_entries in He.
  unfold demo_entries in He. rewrite !elem_of_cons in He.
  destruct He as [->|[->|[]%elem_of_nil]];
    (split_and!; [by apply Hok|cbn; id_order|]);
    (split; [by apply Z.even_spec|split; [done|repeat constructor]]).
Qed.

Lemma demo_srepr : srepr demo_addr 5 demo_streams (Some demo_stream).
Proof.
  eexists. apply (sholds_close demo_store 7 (bstr "k") 5 (ComplexMeta_new TStream 3) demo_stream demo_stream_rows 5);
    [by apply base_ok_new|done| |exact demo_stream_wf|done..].
  change (c_version (ComplexMeta_new TStream 3)) with 3. change (mkAddr (st_ns demo_store) 7 (bstr "k")) with demo_addr.
  cbn [demo_stream_rows demo_world w_kv]. rewrite !rows_at_insert. done.
Qed.

Lemma demo_id ms seq : in_width 64 ms → in_width 64 seq → id_ok (mkStreamId ms seq).
Proof. by split. Qed.

(** The clock reads 5 and the last ID is 5-2, of an entry since deleted. *)
Lemma xadd_refines_witness :
  wp (add demo_store 7 (bstr "k") Auto [bstr "g"; bstr "w"] false (Some (mkTrim (MaxLen 2) None))) demo_streams
    (λ r w', r = Ok (Some (mkStreamId 5 3)) ∧
       srepr demo_addr 5 w' (Some (mkStream
         [(mkStreamId 4 0, [bstr "f"; bstr "yz"]); (mkStreamId 5 3, [bstr "g"; bstr "w"])]
         (mkStreamId 5 3) (mkStreamId 5 2) 4 ∅))).
Proof.
  eapply wp_conseq.
  - apply (xadd_refines demo_store 7 (bstr "k") (Some demo_stream) Auto [bstr "g"; bstr "w"] false
      (Some (mkTrim (MaxLen 2) None)) demo_streams demo_addr_wf demo_streams_env (demo_headroom _) demo_srepr I);
      try reflexivity; [|split; done].
    split; [by apply Z.even_spec|split; [done|repeat constructor]].
  - intros r w' (_ & n & Hr). cbn [bool_decide andb decide] in Hr.
    destruct r as [[id|]|e]; [|done|].
    + destruct Hr as ((Hid & Hlt & Had & Hleast) & _ & Hm).
      assert (id = mkStreamId 5 3) as ->.
      { apply id_eq; [apply Hleast; [by apply demo_id|right; cbn; lia|cbn; lia]|].
        cbn in Hlt, Had. clear - Hlt Had Hid. id_order. }
      split; [reflexivity|]. apply Hm. right. exact demo_srepr.
    + exfalso. destruct Hr as (_ & [[Hno _]|[_ Hcap]]); [|by vm_compute in Hcap].
      apply (Hno (mkStreamId 5 3)); [by apply demo_id|right; cbn; lia|cbn; lia].
Defined.

Lemma stream_reads_refine_witness :
  wp (range demo_store 7 (bstr "k") (mkStreamId 1 0) StreamId_MAX (Some 1) true) demo_streams
    (λ r w', r = Ok [(mkStreamId 4 0, [bstr "f"; bstr "yz"])]).
Proof.
  eapply wp_conseq.
  - apply (stream_reads_refine demo_store 7 (bstr "k") (Some demo_stream) (mkStreamId 1 0) StreamId_MAX (Some 1) true
      demo_streams demo_addr_wf demo_streams_env demo_srepr); [by apply demo_id|apply id_ok_bounds|].
    intros n [= <-]. discriminate.
  - intros r w' (-> & _). reflexivity.
Defined.

Lemma stream_removals_refine_witness :
  wp (trim demo_store 7 (bstr "k") (mkTrim (MinId (mkStreamId 9 9)) (Some 1))) demo_streams
    (λ r w', r = Ok 1 ∧ srepr demo_addr 5 w' (Some (with_entries demo_stream [(mkStreamId 4 0, [bstr "f"; bstr "yz"])]))).
Proof.
  eapply wp_conseq.
  - apply (stream_removals_refine demo_store 7 (bstr "k") (Some demo_stream) (mkTrim (MinId (mkStreamId 9 9)) (Some 1))
      [] demo_streams demo_addr_wf demo_streams_env demo_srepr); [|constructor].
    split; [by apply demo_id|done].
  - intros r w' (_ & -> & Hm). split; [reflexivity|]. apply Hm. right. exact demo_srepr.
Defined.
