(* ===== verification/Groups.v ===== *)
(** * Consumer groups

    [crates/flint-storage/src/streams/groups.rs]: a stream's consumer groups
    are rows under the stream's version, in four families told apart by their
    first byte: a row per group with its last delivered ID and its counters, a
    row per consumer with its own counters, a row per pending entry, and an
    empty row per pending entry under its owner, which is the index a history
    read walks. Every operation is here. A group is represented by its last
    delivered ID, its consumers and its pending entries; the counters and the
    owners' index are what the rows repeat of that, and the theorems show that
    no operation lets them drift. *)

From stdpp Require Import base list gmap strings sorting.
From Stdlib Require Import ZArith Lia.
From Stdlib Require Strings.Byte.
From S2P Require Import Prelude Encoding Kv Store Streams.

(** ** Rows *)

Definition STREAM_GROUP_TAG : Byte.byte := z2b 1.
Definition STREAM_PENDING_TAG : Byte.byte := z2b 2.
Definition STREAM_CONSUMER_TAG : Byte.byte := z2b 3.
Definition STREAM_OWNED_TAG : Byte.byte := z2b 4.

Definition ENTRIES_READ_UNKNOWN : Z := -1.

Record Group := mkGroup {
  g_last_id : StreamId;
  g_entries_read : Z;
  g_pending : Z;
  g_consumers : Z
}.

Definition Group_encode (g : Group) : bytes :=
  StreamId_to_bytes (g_last_id g) ++ be 8 (g_entries_read g) ++ be 8 (g_pending g) ++ be 8 (g_consumers g).

Definition Group_decode (v : bytes) : option Group :=
  last_id ← get_sub v 0 16 ≫= StreamId_from_bytes;
  entries_read ← (λ b, i64 (of_be b)) <$> get_sub v 16 8;
  pending ← of_be <$> get_sub v 24 8;
  consumers ← of_be <$> get_sub v 32 8;
  Some (mkGroup last_id entries_read pending consumers).

Record Consumer := mkConsumer {
  k_name : bytes;
  k_seen_ms : Z;
  k_active_ms : option Z;
  k_pending : Z
}.

Definition Consumer_new (name : bytes) (now : Z) : Consumer := mkConsumer name now None 0.

Definition Consumer_encode (c : Consumer) : bytes :=
  be 8 (k_seen_ms c) ++ be 8 (default U64_MAX (k_active_ms c)) ++ be 8 (k_pending c).

Definition Consumer_decode (name v : bytes) : option Consumer :=
  active ← of_be <$> get_sub v 8 8;
  seen_ms ← of_be <$> get_sub v 0 8;
  pending ← of_be <$> get_sub v 16 8;
  Some (mkConsumer name seen_ms (if active =? U64_MAX then None else Some active) pending).

Record Pending := mkPending {
  p_id : StreamId;
  p_consumer : bytes;
  p_delivered_ms : Z;
  p_deliveries : Z
}.

Definition Pending_encode (p : Pending) : bytes :=
  be 8 (p_delivered_ms p) ++ be 8 (p_deliveries p) ++ p_consumer p.

Definition Pending_decode (id : StreamId) (v : bytes) : option Pending :=
  delivered_ms ← of_be <$> get_sub v 0 8;
  deliveries ← of_be <$> get_sub v 8 8;
  Some (mkPending id (drop 16 v) delivered_ms deliveries).

Inductive GroupStart := Last | Id (id : StreamId).

Inductive Created := CreatedGroup | Exists | NoStreamToCreate.

Inductive Found (T : Type) := NoStream | NoGroup | Yes (t : T).
Arguments NoStream {T}.
Arguments NoGroup {T}.
Arguments Yes {T} t.

Inductive ReadFrom := New | After (id : StreamId).

Definition GroupEntry : Type := StreamId * option (list bytes).

Record PendingSummary := mkSummary {
  ps_count : Z;
  ps_bounds : option (StreamId * StreamId);
  ps_consumers : list (bytes * Z)
}.

Record ClaimOpts := mkClaimOpts {
  o_delivered_ms : option Z;
  o_retry_count : option Z;
  o_force : bool;
  o_just_id : bool;
  o_last_id : option StreamId
}.

Record AutoClaimed := mkAutoClaimed {
  ac_next : StreamId;
  ac_claimed : list GroupEntry;
  ac_deleted : list StreamId
}.

Inductive SetIdRefusal := BelowMaxDeleted | BelowTop | AddedBelowLength.

Record StreamInfo := mkInfo {
  i_meta : StreamMeta;
  i_first_id : StreamId;
  i_first : option Entry;
  i_last : option Entry;
  i_groups : Z
}.

Record GroupFull := mkGroupFull {
  f_name : bytes;
  f_group : Group;
  f_lag : option Z;
  f_pending : list Pending;
  f_consumers : list (Consumer * list Pending)
}.

(** ** Fields *)

(** [tag | len(name) | name]: a name that more of the field follows. *)
Definition named (tag : Byte.byte) (name : bytes) : bytes := tag :: be 4 (len name) ++ name.

Definition group_field (group : bytes) : bytes := STREAM_GROUP_TAG :: group.

Definition pending_field (group : bytes) (id : StreamId) : bytes :=
  named STREAM_PENDING_TAG group ++ StreamId_to_bytes id.

Definition consumer_field (group consumer : bytes) : bytes :=
  named STREAM_CONSUMER_TAG group ++ consumer.

Definition owned_prefix (group consumer : bytes) : bytes :=
  named STREAM_OWNED_TAG group ++ be 4 (len consumer) ++ consumer.

Definition owned_field (group consumer : bytes) (id : StreamId) : bytes :=
  owned_prefix group consumer ++ StreamId_to_bytes id.

(** ** How much a group has read *)

Definition has_tombstones (meta : StreamMeta) (start : StreamId) : bool :=
  negb (c_size (st_base meta) =? 0) &&
  bool_decide (st_max_deleted_id meta ≠ StreamId_MIN) &&
  negb (StreamId_ltb (st_max_deleted_id meta) start).

Definition estimate_entries_read (meta : StreamMeta) (first id : StreamId) : Z :=
  let added := i64 (st_entries_added meta) in
  let size := c_size (st_base meta) in
  let last := st_last_id meta in
  let deleted := st_max_deleted_id meta in
  if st_entries_added meta =? 0 then 0
  else if (size =? 0) && negb (StreamId_ltb last id) then added
  else if bool_decide (id ≠ StreamId_MIN) && StreamId_ltb id deleted then ENTRIES_READ_UNKNOWN
  else if bool_decide (id = last) then added
  else if StreamId_ltb last id then ENTRIES_READ_UNKNOWN
  else if bool_decide (deleted = StreamId_MIN) || StreamId_ltb deleted first then
    if StreamId_ltb id first then i64 (added - size)
    else if bool_decide (id = first) then i64 (i64 (added - size) + 1)
    else ENTRIES_READ_UNKNOWN
  else ENTRIES_READ_UNKNOWN.

Definition lag (meta : StreamMeta) (first : StreamId) (g : Group) : option Z :=
  let added := i64 (st_entries_added meta) in
  if st_entries_added meta =? 0 then Some 0
  else if negb (g_entries_read g =? ENTRIES_READ_UNKNOWN) && negb (has_tombstones meta (g_last_id g))
  then Some (i64 (added - g_entries_read g))
  else
    let read := estimate_entries_read meta first (g_last_id g) in
    if read =? ENTRIES_READ_UNKNOWN then None else Some (i64 (added - read)).

(** What reading [id] makes of a group's count of entries read. *)
Definition next_read (meta : StreamMeta) (first : StreamId) (g : Group) (id : StreamId) : Z :=
  if negb (g_entries_read g =? ENTRIES_READ_UNKNOWN) &&
     negb (StreamId_ltb (g_last_id g) first) && negb (has_tombstones meta (g_last_id g))
  then i64 (g_entries_read g + 1)
  else if 0 <? st_entries_added meta then estimate_entries_read meta first id
  else g_entries_read g.

(** ** Updates of the records in hand *)

Definition set_pending (g : Group) (n : Z) : Group :=
  mkGroup (g_last_id g) (g_entries_read g) n (g_consumers g).

Definition set_consumers (g : Group) (n : Z) : Group :=
  mkGroup (g_last_id g) (g_entries_read g) (g_pending g) n.

Definition seen_at (c : Consumer) (now : Z) : Consumer :=
  mkConsumer (k_name c) now (k_active_ms c) (k_pending c).

Definition active_at (c : Consumer) (now : Z) : Consumer :=
  mkConsumer (k_name c) (k_seen_ms c) (Some now) (k_pending c).

Definition with_owned (c : Consumer) (n : Z) : Consumer :=
  mkConsumer (k_name c) (k_seen_ms c) (k_active_ms c) n.

(** [c.pending += 1] and [c.pending = c.pending.saturating_sub(1)]. *)
Definition gains (c : Consumer) : Consumer := with_owned c (u64 (k_pending c + 1)).
Definition loses (c : Consumer) : Consumer := with_owned c (saturating_sub (k_pending c) 1).

Definition delivered (p : Pending) (consumer : bytes) (ms n : Z) : Pending :=
  mkPending (p_id p) consumer ms n.

(** A [BTreeMap]'s values, in key order. *)
Definition name_le {V} (x y : bytes * V) : Prop := ble x.1 y.1 = true.

#[global] Instance name_le_dec {V} (x y : bytes * V) : Decision (name_le x y).
Proof. unfold name_le. apply _. Defined.

Definition values {V} (m : gmap bytes V) : list V := snd <$> merge_sort name_le (map_to_list m).

(** A visitor that keeps what it can read of the rows and stops at [want]. *)
Fixpoint gather {A} (f : bytes * bytes → option A) (want : Z) (found : list (bytes * bytes)) (out : list A)
    : list A :=
  match found with
  | [] => out
  | r :: found =>
      let out := match f r with Some x => out ++ [x] | None => out end in
      if len out <? want then gather f want found out else out
  end.

(** [now as i64 - p.delivered_ms as i64]. *)
Definition idle_ms (now : Z) (p : Pending) : Z := i64 (i64 now - i64 (p_delivered_ms p)).

Section Groups.
Context (st : store) (slot : Z) (key : bytes).

Definition row (meta : StreamMeta) (field : bytes) : option bytes :=
  subkey_envelope (st_ns st) slot key (c_version (st_base meta)) field.

Definition rows (meta : StreamMeta) (field_prefix : bytes) : option bytes :=
  (λ p, p ++ field_prefix) <$> subkey_prefix (st_ns st) slot key (c_version (st_base meta)).

Definition load_group (meta : StreamMeta) (name : bytes) : prog (option Group) :=
  k <- unwrap (row meta (group_field name)) ;;
  o <- kvget k ;;
  Ret (o ≫= Group_decode).

Definition save_group (meta : StreamMeta) (name : bytes) (g : Group) : prog unit :=
  k <- unwrap (row meta (group_field name)) ;;
  kvput k (Group_encode g).

Definition load_consumer (meta : StreamMeta) (group name : bytes) : prog (option Consumer) :=
  k <- unwrap (row meta (consumer_field group name)) ;;
  o <- kvget k ;;
  Ret (o ≫= Consumer_decode name).

Definition save_consumer (meta : StreamMeta) (group : bytes) (c : Consumer) : prog unit :=
  k <- unwrap (row meta (consumer_field group (k_name c))) ;;
  kvput k (Consumer_encode c).

Definition load_pending (meta : StreamMeta) (group : bytes) (id : StreamId) : prog (option Pending) :=
  k <- unwrap (row meta (pending_field group id)) ;;
  o <- kvget k ;;
  Ret (o ≫= Pending_decode id).

(** [self.kv.put(&self.row(..), ..)] and [self.kv.delete(&self.row(..))]. *)
Definition put_row (meta : StreamMeta) (field v : bytes) : prog unit :=
  k <- unwrap (row meta field) ;; kvput k v.

Definition delete_row (meta : StreamMeta) (field : bytes) : prog unit :=
  k <- unwrap (row meta field) ;; kvdelete k ;;; Ret tt.

Definition delete_rows (meta : StreamMeta) (field_prefix : bytes) : prog unit :=
  prefix <- unwrap (rows meta field_prefix) ;;
  found <- for_each_prefix prefix ;;
  for_ found (λ r, kvdelete r.1 ;;; Ret tt).

Definition first_id (meta : StreamMeta) : prog StreamId :=
  if c_size (st_base meta) =? 0 then Ret StreamId_MIN
  else
    prefix <- unwrap (entries_prefix st slot key (c_version (st_base meta))) ;;
    found <- for_each_prefix prefix ;;
    Ret (match found with
         | [] => StreamId_MIN
         | r :: _ => default StreamId_MIN (StreamId_from_bytes (drop (length prefix) r.1))
         end).

Definition group (name : bytes) : prog (result (Found (StreamMeta * Group))) :=
  o <-? stream_read_meta st slot key ;;
  match o with
  | None => Ret (Ok NoStream)
  | Some meta =>
      og <- load_group meta name ;;
      Ret (Ok (match og with Some g => Yes (meta, g) | None => NoGroup end))
  end.

(** [match self.group(slot, key, group)? { Found::Yes(found) => found, .. }]. *)
Definition with_group {T} (name : bytes) (body : StreamMeta → Group → prog (result (Found T)))
    : prog (result (Found T)) :=
  f <-? group name ;;
  match f with
  | Yes (meta, g) => body meta g
  | NoStream => Ret (Ok NoStream)
  | NoGroup => Ret (Ok NoGroup)
  end.

Definition start_id (meta : StreamMeta) (start : GroupStart) : StreamId :=
  match start with Last => st_last_id meta | Id id => id end.

Definition group_create_in (meta : StreamMeta) (name : bytes) (start : GroupStart) (entries_read : Z)
    : prog (result Created) :=
  og <- load_group meta name ;;
  match og with
  | Some _ => Ret (Ok Exists)
  | None =>
      save_group meta name (mkGroup (start_id meta start) entries_read 0 0) ;;;
      Ret (Ok CreatedGroup)
  end.

Definition group_create (name : bytes) (start : GroupStart) (mkstream : bool) (entries_read : Z)
    : prog (result Created) :=
  o <-? stream_read_meta st slot key ;;
  match o with
  | Some meta => group_create_in meta name start entries_read
  | None =>
      if mkstream then
        now <- clock ;;
        v <- next_version now ;;
        stream_write_meta st slot key (StreamMeta_new v) ;;;
        group_create_in (StreamMeta_new v) name start entries_read
      else Ret (Ok NoStreamToCreate)
  end.

Definition group_setid (name : bytes) (start : GroupStart) (entries_read : Z) : prog (result (Found unit)) :=
  with_group name (λ meta g,
    save_group meta name (mkGroup (start_id meta start) entries_read (g_pending g) (g_consumers g)) ;;;
    Ret (Ok (Yes tt))).

Definition group_destroy (name : bytes) : prog (result (Found bool)) :=
  o <-? stream_read_meta st slot key ;;
  match o with
  | None => Ret (Ok NoStream)
  | Some meta =>
      og <- load_group meta name ;;
      match og with
      | None => Ret (Ok (Yes false))
      | Some _ =>
          delete_row meta (group_field name) ;;;
          for_ [STREAM_PENDING_TAG; STREAM_CONSUMER_TAG; STREAM_OWNED_TAG]
            (λ tag, delete_rows meta (named tag name)) ;;;
          Ret (Ok (Yes true))
      end
  end.

Definition consumer_create (name consumer : bytes) : prog (result (Found bool)) :=
  with_group name (λ meta g,
    oc <- load_consumer meta name consumer ;;
    match oc with
    | Some _ => Ret (Ok (Yes false))
    | None =>
        now <- clock ;;
        save_consumer meta name (Consumer_new consumer now) ;;;
        save_group meta name (set_consumers g (u64 (g_consumers g + 1))) ;;;
        Ret (Ok (Yes true))
    end).

(** The visitor of [consumer_delete] over the consumer's own rows. *)
Definition disown_step (meta : StreamMeta) (name : bytes) (plen : nat) (gone : Z) (r : bytes * bytes) : prog Z :=
  match StreamId_from_bytes (drop plen r.1) with
  | Some id =>
      delete_row meta (pending_field name id) ;;;
      kvdelete r.1 ;;; Ret (u64 (gone + 1))
  | None => kvdelete r.1 ;;; Ret gone
  end.

Definition consumer_delete (name consumer : bytes) : prog (result (Found Z)) :=
  with_group name (λ meta g,
    oc <- load_consumer meta name consumer ;;
    match oc with
    | None => Ret (Ok (Yes 0))
    | Some _ =>
        prefix <- unwrap (rows meta (owned_prefix name consumer)) ;;
        found <- for_each_prefix prefix ;;
        gone <- fold_ found (disown_step meta name (length prefix)) 0 ;;
        delete_row meta (consumer_field name consumer) ;;;
        save_group meta name (mkGroup (g_last_id g) (g_entries_read g)
          (saturating_sub (g_pending g) gone) (saturating_sub (g_consumers g) 1)) ;;;
        Ret (Ok (Yes gone))
    end).

(** The other consumer that loses a pending entry: loaded once, then counted
    down in hand. *)
Definition other_loses (meta : StreamMeta) (group : bytes) (others : gmap bytes Consumer) (name : bytes)
    : prog (gmap bytes Consumer) :=
  others' <- (if decide (others !! name = None) then
                oc <- load_consumer meta group name ;;
                Ret (match oc with Some o => <[name := o]> others | None => others end)
              else Ret others) ;;
  Ret (alter loses name others').

(** What a loop over entries has in hand. *)
Record hand := mkHand { h_group : Group; h_consumer : Consumer; h_others : gmap bytes Consumer }.

Definition deliver (meta : StreamMeta) (group : bytes) (h : hand) (id : StreamId) (now : Z) : prog hand :=
  let c := h_consumer h in
  held <- load_pending meta group id ;;
  h' <- match held with
        | Some p =>
            if decide (p_consumer p = k_name c) then Ret h
            else
              delete_row meta (owned_field group (p_consumer p) id) ;;;
              others <- other_loses meta group (h_others h) (p_consumer p) ;;
              Ret (mkHand (h_group h) (gains c) others)
        | None =>
            Ret (mkHand (set_pending (h_group h) (u64 (g_pending (h_group h) + 1))) (gains c) (h_others h))
        end ;;
  put_row meta (pending_field group id) (Pending_encode (mkPending id (k_name c) now 1)) ;;;
  put_row meta (owned_field group (k_name c) id) [] ;;;
  Ret (mkHand (h_group h') (active_at (h_consumer h') now) (h_others h')).

(** One entry of a read of new entries. *)
Definition new_step (meta : StreamMeta) (group : bytes) (first : StreamId) (noack : bool) (now : Z)
    (h : hand) (e : Entry) : prog hand :=
  let g := h_group h in
  let h := mkHand (mkGroup e.1 (next_read meta first g e.1) (g_pending g) (g_consumers g))
             (h_consumer h) (h_others h) in
  if noack then Ret h else deliver meta group h e.1 now.

Definition save_others (meta : StreamMeta) (group : bytes) (others : gmap bytes Consumer) : prog unit :=
  for_ (values others) (save_consumer meta group).

(** One own pending entry of a history read. *)
Definition history_step (meta : StreamMeta) (group : bytes) (now : Z) (out : list GroupEntry) (id : StreamId)
    : prog (list GroupEntry) :=
  ek <- unwrap (entry_key st slot key (c_version (st_base meta)) id) ;;
  o <- kvget ek ;;
  match o with
  | Some v =>
      op <- load_pending meta group id ;;
      match op with
      | Some p =>
          put_row meta (pending_field group id)
            (Pending_encode (mkPending (p_id p) (p_consumer p) now (u64 (p_deliveries p + 1))))
      | None => Ret tt
      end ;;;
      Ret (out ++ [(id, Some (decode_fields v))])
  | None => Ret (out ++ [(id, None)])
  end.

Definition read_history (meta : StreamMeta) (group consumer : bytes) (after : StreamId) (count : option Z)
    (now : Z) : prog (list GroupEntry) :=
  let want := default U64_MAX count in
  if want =? 0 then Ret []
  else
    prefix <- unwrap (rows meta (owned_prefix group consumer)) ;;
    found <- for_each_from prefix (StreamId_to_bytes after) ;;
    let ids := gather (λ r, StreamId_from_bytes (drop (length prefix) r.1)) want found [] in
    fold_ ids (history_step meta group now) [].

(** [consumer_seen], and the same lines at the top of [read_group]. *)
Definition consumer_seen (meta : StreamMeta) (group : bytes) (g : Group) (name : bytes) (now : Z)
    : prog (Group * Consumer) :=
  oc <- load_consumer meta group name ;;
  Ret (match oc with
       | Some c => (g, seen_at c now)
       | None => (set_consumers g (u64 (g_consumers g + 1)), seen_at (Consumer_new name now) now)
       end).

Definition read_new (meta : StreamMeta) (group : bytes) (count : option Z) (noack : bool) (now : Z)
    (g : Group) (c : Consumer) : prog (option (list GroupEntry) * Group * Consumer) :=
  entries <- match StreamId_next (g_last_id g) with
             | Some lo => scan st slot key meta lo StreamId_MAX count false
             | None => Ret []
             end ;;
  match entries with
  | [] => Ret (None, g, c)
  | _ =>
      first <- first_id meta ;;
      h <- fold_ entries (new_step meta group first noack now) (mkHand g c ∅) ;;
      save_others meta group (h_others h) ;;;
      Ret (Some ((λ e : Entry, (e.1, Some e.2)) <$> entries), h_group h, h_consumer h)
  end.

Definition read_group (name consumer : bytes) (from : ReadFrom) (count : option Z) (noack poll : bool)
    : prog (result (Found (option (list GroupEntry)))) :=
  with_group name (λ meta g,
    now <- clock ;;
    gc <- consumer_seen meta name g consumer now ;;
    r <- match from with
         | After after =>
             l <- read_history meta name (k_name gc.2) after count now ;;
             Ret (Some l, gc.1, gc.2)
         | New => read_new meta name count noack now gc.1 gc.2
         end ;;
    let '(served, g', c') := r in
    if poll && bool_decide (served = None) then Ret (Ok (Yes None))
    else
      save_consumer meta name c' ;;;
      save_group meta name g' ;;;
      Ret (Ok (Yes served))).

(** One ID of an [XACK]. *)
Definition ack_step (meta : StreamMeta) (name : bytes) (acc : Group * gmap bytes Consumer * Z) (id : StreamId)
    : prog (Group * gmap bytes Consumer * Z) :=
  let '(g, owners, acked) := acc in
  op <- load_pending meta name id ;;
  match op with
  | None => Ret acc
  | Some p =>
      delete_row meta (pending_field name id) ;;;
      delete_row meta (owned_field name (p_consumer p) id) ;;;
      owners' <- other_loses meta name owners (p_consumer p) ;;
      Ret (set_pending g (saturating_sub (g_pending g) 1), owners', u64 (acked + 1))
  end.

Definition ack (name : bytes) (ids : list StreamId) : prog (result (Found Z)) :=
  with_group name (λ meta g,
    r <- fold_ ids (ack_step meta name) (g, ∅, 0) ;;
    let '(g', owners, acked) := r in
    if 0 <? acked then
      save_others meta name owners ;;;
      save_group meta name g' ;;;
      Ret (Ok (Yes acked))
    else Ret (Ok (Yes acked))).

Definition consumers (meta : StreamMeta) (name : bytes) : prog (list Consumer) :=
  prefix <- unwrap (rows meta (named STREAM_CONSUMER_TAG name)) ;;
  found <- for_each_prefix prefix ;;
  Ret (omap (λ r : bytes * bytes, Consumer_decode (drop (length prefix) r.1) r.2) found).

Definition pending_summary (name : bytes) : prog (result (Found PendingSummary)) :=
  with_group name (λ meta g,
    if g_pending g =? 0 then Ret (Ok (Yes (mkSummary 0 None [])))
    else
      prefix <- unwrap (rows meta (named STREAM_PENDING_TAG name)) ;;
      up <- for_each_prefix prefix ;;
      down <- for_each_before prefix [] ;;
      let id_at (l : list (bytes * bytes)) :=
        match l with [] => None | r :: _ => StreamId_from_bytes (drop (length prefix) r.1) end in
      cs <- consumers meta name ;;
      Ret (Ok (Yes (mkSummary (g_pending g)
        (first ← id_at up; last ← id_at down; Some (first, last))
        ((λ c, (k_name c, k_pending c)) <$> filter (λ c, 0 < k_pending c) cs))))).

(** The visitor of [pending_range]. *)
Fixpoint pending_visit (meta : StreamMeta) (name : bytes) (consumer : option bytes) (stop : StreamId)
    (min_idle now count : Z) (plen : nat) (found : list (bytes * bytes)) (out : list (Pending * Z))
    : prog (list (Pending * Z)) :=
  match found with
  | [] => Ret out
  | r :: found =>
      let continue := pending_visit meta name consumer stop min_idle now count plen found in
      match StreamId_from_bytes (drop plen r.1) with
      | None => continue out
      | Some id =>
          if StreamId_ltb stop id then Ret out
          else
            op <- match consumer with
                  | None => Ret (Pending_decode id r.2)
                  | Some _ => load_pending meta name id
                  end ;;
            match op with
            | None => continue out
            | Some p =>
                let idle := idle_ms now p in
                if negb (min_idle =? 0) && (idle <? min_idle) then continue out
                else
                  let out := out ++ [(p, Z.max idle 0)] in
                  if len out <? count then continue out else Ret out
            end
      end
  end.

Definition pending_range (name : bytes) (start stop : StreamId) (count : Z) (consumer : option bytes)
    (min_idle : Z) : prog (result (Found (list (Pending * Z)))) :=
  with_group name (λ meta _,
    now <- clock ;;
    if (count =? 0) || StreamId_ltb stop start then Ret (Ok (Yes []))
    else
      known <- match consumer with
               | Some c => oc <- load_consumer meta name c ;; Ret (bool_decide (is_Some oc))
               | None => Ret true
               end ;;
      if negb known then Ret (Ok (Yes []))
      else
        prefix <- unwrap (rows meta (match consumer with
                                     | Some c => owned_prefix name c
                                     | None => named STREAM_PENDING_TAG name
                                     end)) ;;
        found <- for_each_from prefix
                   (match StreamId_prev start with Some p => StreamId_to_bytes p | None => [] end) ;;
        out <- pending_visit meta name consumer stop min_idle now count (length prefix) found [] ;;
        Ret (Ok (Yes out))).

Definition group_consumers (name : bytes) : prog (result (Found (list Consumer))) :=
  with_group name (λ meta _, cs <- consumers meta name ;; Ret (Ok (Yes cs))).

Definition groups_of (meta : StreamMeta) : prog (list (bytes * Group * option Z)) :=
  prefix <- unwrap (rows meta [STREAM_GROUP_TAG]) ;;
  found <- for_each_prefix prefix ;;
  first <- first_id meta ;;
  Ret (omap (λ r : bytes * bytes,
    g ← Group_decode r.2; Some (drop (length prefix) r.1, g, lag meta first g)) found).

Definition groups : prog (result (option (list (bytes * Group * option Z)))) :=
  o <-? stream_read_meta st slot key ;;
  match o with
  | None => Ret (Ok None)
  | Some meta => l <- groups_of meta ;; Ret (Ok (Some l))
  end.

Definition take_pending (meta : StreamMeta) (name : bytes) (h : hand) (p : Pending) (owned : bool) : prog hand :=
  let c := h_consumer h in
  if negb owned || bool_decide (p_consumer p ≠ k_name c) then
    others <- (if owned then
                 delete_row meta (owned_field name (p_consumer p) (p_id p)) ;;;
                 other_loses meta name (h_others h) (p_consumer p)
               else Ret (h_others h)) ;;
    put_row meta (owned_field name (k_name c) (p_id p)) [] ;;;
    put_row meta (pending_field name (p_id p))
      (Pending_encode (delivered p (k_name c) (p_delivered_ms p) (p_deliveries p))) ;;;
    Ret (mkHand (h_group h) (gains c) others)
  else
    put_row meta (pending_field name (p_id p)) (Pending_encode p) ;;; Ret h.

Definition forget (meta : StreamMeta) (name : bytes) (h : hand) (p : Pending) : prog hand :=
  delete_row meta (pending_field name (p_id p)) ;;;
  delete_row meta (owned_field name (p_consumer p) (p_id p)) ;;;
  let g := set_pending (h_group h) (saturating_sub (g_pending (h_group h)) 1) in
  if decide (p_consumer p = k_name (h_consumer h)) then
    Ret (mkHand g (loses (h_consumer h)) (h_others h))
  else
    others <- other_loses meta name (h_others h) (p_consumer p) ;;
    Ret (mkHand g (h_consumer h) others).

(** [min_idle > 0 && idle < min_idle as i64]. *)
Definition too_fresh (min_idle now : Z) (p : Pending) : bool :=
  (0 <? min_idle) && (idle_ms now p <? i64 min_idle).

Definition hand_active (h : hand) (now : Z) : hand :=
  mkHand (h_group h) (active_at (h_consumer h) now) (h_others h).

(** One ID of an [XCLAIM]. *)
Definition claim_step (meta : StreamMeta) (name : bytes) (min_idle : Z) (opts : ClaimOpts) (now : Z)
    (acc : hand * list GroupEntry) (id : StreamId) : prog (hand * list GroupEntry) :=
  let '(h, out) := acc in
  ek <- unwrap (entry_key st slot key (c_version (st_base meta)) id) ;;
  entry <- kvget ek ;;
  held <- load_pending meta name id ;;
  let claim_it h p (owned : bool) v :=
    let p := delivered p (p_consumer p) (default now (o_delivered_ms opts))
               (match o_retry_count opts with
                | Some n => n
                | None => if o_just_id opts then p_deliveries p else u64 (p_deliveries p + 1)
                end) in
    h' <- take_pending meta name h p owned ;;
    Ret (hand_active h' now, out ++ [(id, if o_just_id opts then None else Some (decode_fields v))]) in
  match entry, held with
  | None, Some p => h' <- forget meta name h p ;; Ret (h', out)
  | None, None => Ret (h, out)
  | Some v, Some p => if too_fresh min_idle now p then Ret (h, out) else claim_it h p true v
  | Some v, None =>
      if o_force opts then
        claim_it (mkHand (set_pending (h_group h) (u64 (g_pending (h_group h) + 1))) (h_consumer h) (h_others h))
          (mkPending id [] now 1) false v
      else Ret (h, out)
  end.

Definition save_hand (meta : StreamMeta) (name : bytes) (h : hand) : prog unit :=
  save_others meta name (h_others h) ;;;
  save_consumer meta name (h_consumer h) ;;;
  save_group meta name (h_group h).

Definition claim (name consumer : bytes) (ids : list StreamId) (min_idle : Z) (opts : ClaimOpts)
    : prog (result (Found (list GroupEntry))) :=
  with_group name (λ meta g,
    now <- clock ;;
    let g := match o_last_id opts with
             | Some last => if StreamId_ltb (g_last_id g) last
                            then mkGroup last (g_entries_read g) (g_pending g) (g_consumers g) else g
             | None => g
             end in
    gc <- consumer_seen meta name g consumer now ;;
    r <- fold_ ids (claim_step meta name min_idle opts now) (mkHand gc.1 gc.2 ∅, []) ;;
    save_hand meta name r.1 ;;;
    Ret (Ok (Yes r.2))).

(** What an [XAUTOCLAIM]'s walk carries: what it may still look at and answer,
    the records in hand, and the answer so far. *)
Record walking := mkWalking {
  w_attempts : Z;
  w_left : Z;
  w_hand : hand;
  w_claimed : list GroupEntry;
  w_gone : list StreamId
}.

(** One pending entry of the walk. *)
Definition autoclaim_step (meta : StreamMeta) (name : bytes) (min_idle : Z) (just_id : bool) (now : Z)
    (s : walking) (p : Pending) : prog walking :=
  let attempts := w_attempts s - 1 in
  ek <- unwrap (entry_key st slot key (c_version (st_base meta)) (p_id p)) ;;
  entry <- kvget ek ;;
  match entry with
  | None =>
      h <- forget meta name (w_hand s) p ;;
      Ret (mkWalking attempts (w_left s - 1) h (w_claimed s) (w_gone s ++ [p_id p]))
  | Some v =>
      if too_fresh min_idle now p
      then Ret (mkWalking attempts (w_left s) (w_hand s) (w_claimed s) (w_gone s))
      else
        h <- take_pending meta name (w_hand s)
               (delivered p (p_consumer p) now (if just_id then p_deliveries p else u64 (p_deliveries p + 1))) true ;;
        Ret (mkWalking attempts (w_left s - 1) (hand_active h now)
               (w_claimed s ++ [(p_id p, if just_id then None else Some (decode_fields v))]) (w_gone s))
  end.

(** One batch: the ID the walk broke off at, or the end of the batch. *)
Fixpoint autoclaim_batch (meta : StreamMeta) (name : bytes) (min_idle : Z) (just_id : bool) (now : Z)
    (batch : list (bytes * Pending)) (s : walking) : prog (walking * option StreamId) :=
  match batch with
  | [] => Ret (s, None)
  | (_, p) :: batch =>
      if (w_attempts s =? 0) || (w_left s =? 0) then Ret (s, Some (p_id p))
      else
        s' <- autoclaim_step meta name min_idle just_id now s p ;;
        autoclaim_batch meta name min_idle just_id now batch s'
  end.

Definition BATCH : Z := 256.

(** The walk over the batches; [after] is the place of the last row looked at.
    Every batch but the last moves it on, so the number of pending entries
    bounds the batches. *)
Fixpoint autoclaim_walk (fuel : nat) (meta : StreamMeta) (name : bytes) (min_idle : Z) (just_id : bool) (now : Z)
    (prefix after : bytes) (s : walking) : prog (walking * StreamId) :=
  match fuel with
  | O => Panic
  | S fuel =>
      found <- for_each_from prefix after ;;
      let batch := gather (λ r, let place := drop (length prefix) r.1 in
                                id ← StreamId_from_bytes place;
                                p ← Pending_decode id r.2;
                                Some (place, p)) BATCH found [] in
      match last batch with
      | None => Ret (s, StreamId_MIN)
      | Some (place, _) =>
          r <- autoclaim_batch meta name min_idle just_id now batch s ;;
          match r.2 with
          | Some next => Ret (r.1, next)
          | None => autoclaim_walk fuel meta name min_idle just_id now prefix place r.1
          end
      end
  end.

Definition autoclaim (fuel : nat) (name consumer : bytes) (min_idle : Z) (start : StreamId) (count : Z)
    (just_id : bool) : prog (result (Found AutoClaimed)) :=
  with_group name (λ meta g,
    now <- clock ;;
    gc <- consumer_seen meta name g consumer now ;;
    prefix <- unwrap (rows meta (named STREAM_PENDING_TAG name)) ;;
    let from := match StreamId_prev start with Some p => StreamId_to_bytes p | None => [] end in
    r <- autoclaim_walk fuel meta name min_idle just_id now prefix from
           (mkWalking (Z.min (count * 10) U64_MAX) count (mkHand gc.1 gc.2 ∅) [] []) ;;
    save_hand meta name (w_hand r.1) ;;;
    Ret (Ok (Yes (mkAutoClaimed r.2 (w_claimed r.1) (w_gone r.1))))).

Definition set_last_id (id : StreamId) (entries_added : option Z) (max_deleted : option StreamId)
    : prog (result (option (unit + SetIdRefusal))) :=
  o <-? stream_read_meta st slot key ;;
  match o with
  | None => Ret (Ok None)
  | Some meta =>
      let write :=
        stream_write_meta st slot key (mkStreamMeta (st_base meta) id
          (match max_deleted with
           | Some d => if decide (d ≠ StreamId_MIN) then d else st_max_deleted_id meta
           | None => st_max_deleted_id meta
           end) (default (st_entries_added meta) entries_added)) ;;;
        Ret (Ok (Some (inl tt))) in
      if StreamId_ltb id (st_max_deleted_id meta) then Ret (Ok (Some (inr BelowMaxDeleted)))
      else if 0 <? c_size (st_base meta) then
        top <-? last_entry st slot key ;;
        if match top with Some e => StreamId_ltb id e.1 | None => false end
        then Ret (Ok (Some (inr BelowTop)))
        else if match entries_added with Some n => n <? c_size (st_base meta) | None => false end
        then Ret (Ok (Some (inr AddedBelowLength)))
        else write
      else write
  end.

Definition stream_info : prog (result (option StreamInfo)) :=
  o <-? stream_read_meta st slot key ;;
  match o with
  | None => Ret (Ok None)
  | Some meta =>
      first <- scan st slot key meta StreamId_MIN StreamId_MAX (Some 1) false ;;
      last <- scan st slot key meta StreamId_MIN StreamId_MAX (Some 1) true ;;
      prefix <- unwrap (rows meta [STREAM_GROUP_TAG]) ;;
      found <- for_each_prefix prefix ;;
      Ret (Ok (Some (mkInfo meta (match first with [] => StreamId_MIN | e :: _ => e.1 end)
        (head first) (head last) (len found))))
  end.

(** A consumer with its first own pending entries. *)
Definition consumer_full (meta : StreamMeta) (name : bytes) (want : Z) (acc : list (Consumer * list Pending))
    (c : Consumer) : prog (list (Consumer * list Pending)) :=
  prefix <- unwrap (rows meta (owned_prefix name (k_name c))) ;;
  found <- for_each_prefix prefix ;;
  let ids := gather (λ r, StreamId_from_bytes (drop (length prefix) r.1)) want found [] in
  own <- fold_ ids (λ l id, op <- load_pending meta name id ;;
                            Ret (match op with Some p => l ++ [p] | None => l end)) [] ;;
  Ret (acc ++ [(c, own)]).

Definition group_full (meta : StreamMeta) (want : Z) (acc : list GroupFull) (x : bytes * Group * option Z)
    : prog (list GroupFull) :=
  let '(name, g, l) := x in
  prefix <- unwrap (rows meta (named STREAM_PENDING_TAG name)) ;;
  found <- for_each_prefix prefix ;;
  let pending := gather (λ r, id ← StreamId_from_bytes (drop (length prefix) r.1);
                              Pending_decode id r.2) want found [] in
  cs <- consumers meta name ;;
  full <- fold_ cs (consumer_full meta name want) [] ;;
  Ret (acc ++ [mkGroupFull name g l pending full]).

Definition stream_info_full (count : Z) : prog (result (option (StreamInfo * list Entry * list GroupFull))) :=
  oi <-? stream_info ;;
  match oi with
  | None => Ret (Ok None)
  | Some info =>
      let limit := if 0 <? count then Some count else None in
      let meta := i_meta info in
      entries <- scan st slot key meta StreamId_MIN StreamId_MAX limit false ;;
      og <-? groups ;;
      full <- fold_ (default [] og) (group_full meta (default U64_MAX limit)) [] ;;
      Ret (Ok (Some (info, entries, full)))
  end.
End Groups.

(** ** The rows' layouts *)

Arguments Group_encode : simpl never.
Arguments Consumer_encode : simpl never.
Arguments Pending_encode : simpl never.

#[global] Instance StreamId_countable : Countable StreamId :=
  inj_countable' (λ i, (id_ms i, id_seq i)) (λ p, mkStreamId p.1 p.2) ltac:(by intros []).

Record group_ok (g : Group) : Prop := {
  gok_last : id_ok (g_last_id g);
  gok_read : in_i64 (g_entries_read g);
  gok_pending : in_width 64 (g_pending g);
  gok_consumers : in_width 64 (g_consumers g)
}.

Lemma i64_of_be x : in_i64 x → i64 (of_be (be 8 x)) = x.
Proof.
  intros Hx. rewrite of_be_be. change (x mod 2 ^ (8 * Z.of_nat 8)) with (wrap 64 x).
  unfold in_i64, I64_MIN, I64_MAX in Hx. rewrite <-(signed_id x) at 2 by lia.
  unfold signed. by rewrite wrap_wrap.
Qed.

Lemma Group_decode_encode g : group_ok g → Group_decode (Group_encode g) = Some g.
Proof.
  intros [Hl Hr Hp Hc]. unfold Group_decode, Group_encode. pose proof (length_StreamId_to_bytes (g_last_id g)) as El.
  rewrite get_sub_here by done. cbn [mbind option_bind]. rewrite StreamId_from_bytes_to by done.
  rewrite !(get_sub_skip (StreamId_to_bytes _)) by (rewrite El; lia). rewrite El. cbn [Nat.sub].
  slices. cbn [mbind option_bind fmap option_fmap option_map].
  rewrite i64_of_be, !of_be_id by (done || width). by destruct g.
Qed.

Record consumer_ok (c : Consumer) : Prop := {
  kok_seen : in_width 64 (k_seen_ms c);
  kok_active t : k_active_ms c = Some t → in_width 64 t ∧ t ≠ U64_MAX;
  kok_pending : in_width 64 (k_pending c)
}.

Lemma Consumer_decode_encode c : consumer_ok c → Consumer_decode (k_name c) (Consumer_encode c) = Some c.
Proof.
  intros [Hs Ha Hp]. unfold Consumer_decode, Consumer_encode. slices.
  cbn [mbind option_bind fmap option_fmap option_map].
  destruct c as [name seen [t|] pending];
    cbn [k_name k_seen_ms k_active_ms k_pending from_option id] in *.
  - destruct (Ha t eq_refl) as [? ?]. rewrite !of_be_id by done. by rewrite (proj2 (Z.eqb_neq _ _)).
  - rewrite !of_be_id by (done || width). done.
Qed.

Record pending_ok (p : Pending) : Prop := {
  pok_ms : in_width 64 (p_delivered_ms p);
  pok_deliveries : in_width 64 (p_deliveries p)
}.

Lemma Pending_decode_encode p : pending_ok p → Pending_decode (p_id p) (Pending_encode p) = Some p.
Proof.
  intros [Hm Hd]. unfold Pending_decode, Pending_encode. slices.
  cbn [mbind option_bind fmap option_fmap option_map]. rewrite !of_be_id by done.
  cbn [Nat.sub]. rewrite drop_0. by destruct p.
Qed.

(** ** The fields of a group *)

Inductive gkey := KGroup | KConsumer (c : bytes) | KPending (i : StreamId) | KOwned (c : bytes) (i : StreamId).

#[global] Instance gkey_eq_dec : EqDecision gkey.
Proof. solve_decision. Defined.

Definition name_ok (n : bytes) : Prop := len n < 2 ^ 32.

Definition gkey_ok (k : gkey) : Prop :=
  match k with
  | KGroup => True
  | KConsumer c => name_ok c
  | KPending i => id_ok i
  | KOwned c i => name_ok c ∧ id_ok i
  end.

Definition gfield (n : bytes) (k : gkey) : bytes :=
  match k with
  | KGroup => group_field n
  | KConsumer c => consumer_field n c
  | KPending i => pending_field n i
  | KOwned c i => owned_field n c i
  end.

(** The fields under a group's name, read or not. *)
Definition of_group (n f : bytes) : Prop :=
  f = group_field n ∨
  ∃ tag g, tag ∈ [STREAM_PENDING_TAG; STREAM_CONSUMER_TAG; STREAM_OWNED_TAG] ∧ f = named tag n ++ g.

Lemma named_inj tag tag' n n' f f' :
  name_ok n → name_ok n' → named tag n ++ f = named tag' n' ++ f' → tag = tag' ∧ n = n' ∧ f = f'.
Proof.
  unfold name_ok, named. cbn [app]. intros Hn Hn' E.
  pose proof (f_equal head E) as Et. apply (f_equal tail) in E. cbn [tail head] in E, Et.
  rewrite <-!app_assoc in E. apply app_inj_length in E as [El E]; [|by rewrite !length_be].
  apply be_inj in El; [|width..]. apply app_inj_length in E as [? ?]; [|lia]. by simplify_eq.
Qed.

Lemma group_tags tag :
  tag ∈ [STREAM_PENDING_TAG; STREAM_CONSUMER_TAG; STREAM_OWNED_TAG] →
  tag ≠ STREAM_ENTRY_TAG ∧ tag ≠ STREAM_GROUP_TAG.
Proof. rewrite !elem_of_cons, elem_of_nil. by intros [->|[->|[->|[]]]]. Qed.

Lemma gfield_of_group n k : of_group n (gfield n k).
Proof.
  destruct k as [|c|i|c i]; [by left|right..].
  - exists STREAM_CONSUMER_TAG, c. split; [|done]. set_solver.
  - exists STREAM_PENDING_TAG, (StreamId_to_bytes i). split; [|done]. set_solver.
  - exists STREAM_OWNED_TAG, (be 4 (len c) ++ c ++ StreamId_to_bytes i). split; [set_solver|].
    unfold gfield, owned_field, owned_prefix. by rewrite <-!app_assoc.
Qed.

Lemma of_group_head n f : of_group n f → head f ≠ Some STREAM_ENTRY_TAG.
Proof.
  intros [->|(tag & g & [Ht _]%group_tags & ->)]; [done|]. unfold named. cbn. intros [= ->]. done.
Qed.

Lemma of_group_inj n n' f : name_ok n → name_ok n' → of_group n f → of_group n' f → n = n'.
Proof.
  intros Hn Hn' H H'. destruct H as [->|(tag & g & Ht & ->)], H' as [E|(tag' & g' & Ht' & E)].
  - by injection E.
  - exfalso. pose proof (f_equal head E) as Eh. cbn in Eh. injection Eh as <-. by apply group_tags in Ht' as [_ ?].
  - exfalso. pose proof (f_equal head E) as Eh. cbn in Eh. injection Eh as ->. by apply group_tags in Ht as [_ ?].
  - by apply named_inj in E as (_ & ? & _).
Qed.

Lemma owned_inj n c c' i i' :
  name_ok c → name_ok c' → id_ok i → id_ok i' → owned_field n c i = owned_field n c' i' → c = c' ∧ i = i'.
Proof.
  unfold owned_field, owned_prefix, name_ok. rewrite <-!app_assoc. intros Hc Hc' Hi Hi' E.
  apply app_inv_head in E. apply app_inj_length in E as [El E]; [|by rewrite !length_be].
  apply be_inj in El; [|width..]. apply app_inj_length in E as [? E]; [|lia].
  split; [done|by apply StreamId_bytes_inj].
Qed.

Lemma gfield_inj n k k' : gkey_ok k → gkey_ok k' → gfield n k = gfield n k' → k = k'.
Proof.
  intros Hk Hk' E. pose proof (f_equal head E) as Eh.
  destruct k as [|c|i|c i], k' as [|c'|i'|c' i']; try done; cbn in Hk, Hk'.
  - apply app_inv_head in E. by subst.
  - apply app_inv_head in E. by apply StreamId_bytes_inj in E as ->.
  - destruct Hk, Hk'. by apply owned_inj in E as [-> ->].
Qed.

(** ** What a group is *)

(** A consumer: when it was seen and when it was active. A pending entry: its
    owner, when it was last delivered and how often. *)
Record sgroup := mkSgroup {
  sg_last : StreamId;
  sg_read : Z;
  sg_cons : gmap bytes (Z * option Z);
  sg_pel : gmap StreamId (bytes * Z * Z)
}.

Abbreviation pel := (gmap StreamId (bytes * Z * Z)).

(** How many pending entries a consumer owns. *)
Definition owns (c : bytes) (x : StreamId * (bytes * Z * Z)) : Prop := x.2.1.1 = c.

#[global] Instance owns_dec c x : Decision (owns c x).
Proof. unfold owns. apply _. Defined.

Definition owned_by (P : pel) (c : bytes) : Z := Z.of_nat (size (filter (owns c) P)).

Definition pending_of (i : StreamId) (x : bytes * Z * Z) : Pending := mkPending i x.1.1 x.1.2 x.2.
Definition consumer_of (P : pel) (c : bytes) (x : Z * option Z) : Consumer :=
  mkConsumer c x.1 x.2 (owned_by P c).
Definition group_of (g : sgroup) : Group :=
  mkGroup (sg_last g) (sg_read g) (Z.of_nat (size (sg_pel g))) (Z.of_nat (size (sg_cons g))).

(** The two families of rows that follow the pending entries at once. *)
Definition pel_rows (P : pel) (k : gkey) : option bytes :=
  match k with
  | KPending i => (λ x, Pending_encode (pending_of i x)) <$> P !! i
  | KOwned c i => match P !! i with Some x => if decide (x.1.1 = c) then Some [] else None | None => None end
  | _ => None
  end.

(** Every row of a group. *)
Definition sg_rows (g : sgroup) (k : gkey) : option bytes :=
  match k with
  | KGroup => Some (Group_encode (group_of g))
  | KConsumer c => (λ x, Consumer_encode (consumer_of (sg_pel g) c x)) <$> sg_cons g !! c
  | _ => pel_rows (sg_pel g) k
  end.

Definition pel_wf (cons : gmap bytes (Z * option Z)) (P : pel) : Prop :=
  ∀ i x, P !! i = Some x → id_ok i ∧ is_Some (cons !! x.1.1) ∧ in_width 64 x.1.2 ∧ in_width 64 x.2.

Definition cons_wf (cons : gmap bytes (Z * option Z)) : Prop :=
  ∀ c x, cons !! c = Some x → name_ok c ∧ in_width 64 x.1 ∧ ∀ t, x.2 = Some t → in_width 64 t ∧ t ≠ U64_MAX.

Record sgroup_wf (g : sgroup) : Prop := {
  sw_last : id_ok (sg_last g);
  sw_read : in_i64 (sg_read g);
  sw_cons : cons_wf (sg_cons g);
  sw_pel : pel_wf (sg_cons g) (sg_pel g);
  sw_size : Z.of_nat (size (sg_pel g)) < 2 ^ 63;
  sw_count : Z.of_nat (size (sg_cons g)) < 2 ^ 63
}.

(** The rows of group [n] among a stream's rows are those of [g]. *)
Record holds_rows (n : bytes) (D : gkey → option bytes) (R : kvmap) : Prop := {
  hr_rows k : gkey_ok k → R !! gfield n k = D k;
  hr_clean f : of_group n f → is_Some (R !! f) → ∃ k, gkey_ok k ∧ f = gfield n k
}.

Definition grepr (n : bytes) (R : kvmap) (G : option sgroup) : Prop :=
  match G with
  | Some g => holds_rows n (sg_rows g) R ∧ sgroup_wf g
  | None => holds_rows n (λ _, None) R
  end.

(** Nothing outside group [n] has moved. *)
Definition gframe (n : bytes) (R R' : kvmap) : Prop := ∀ f, ¬ of_group n f → R' !! f = R !! f.

Lemma gframe_refl n R : gframe n R R.
Proof. done. Qed.

Lemma gframe_trans n R1 R2 R3 : gframe n R1 R2 → gframe n R2 R3 → gframe n R1 R3.
Proof. intros H1 H2 f Hf. by rewrite H2, H1. Qed.

(** What another group holds is what it held. *)
Lemma grepr_frame n n' R R' G :
  name_ok n → name_ok n' → n ≠ n' → gframe n R R' → grepr n' R G → grepr n' R' G.
Proof.
  intros Hn Hn' Hne Hf.
  assert (E : ∀ f, of_group n' f → R' !! f = R !! f).
  { intros f Hf'. apply Hf. intros Hc. apply Hne. by eapply of_group_inj. }
  assert (H : ∀ D, holds_rows n' D R → holds_rows n' D R').
  { intros D [Hr Hc]. constructor.
    - intros k Hk. rewrite E by apply gfield_of_group. by apply Hr.
    - intros f Hf'. rewrite E by done. by apply Hc. }
  destruct G as [g|]; cbn; [intros [? ?]; split; [by apply H|done]|apply H].
Qed.

(** ** Counting owners *)

Lemma owned_by_insert P i x c :
  owned_by (<[i := x]> P) c =
  owned_by P c + (if decide (x.1.1 = c) then 1 else 0) -
  (match P !! i with Some y => if decide (y.1.1 = c) then 1 else 0 | None => 0 end).
Proof.
  unfold owned_by. rewrite <-(insert_delete_eq P i x).
  assert (Hd : ∀ z, filter (owns c) (<[i := z]> (delete i P)) =
    if decide (z.1.1 = c) then <[i := z]> (filter (owns c) (delete i P)) else filter (owns c) (delete i P)).
  { intros z. case_decide as Hz.
    - by rewrite map_filter_insert_True.
    - rewrite map_filter_insert_False by done. by rewrite delete_delete_eq. }
  assert (Hn : filter (owns c) (delete i P) !! i = None) by (by rewrite map_lookup_filter, lookup_delete_eq).
  assert (Hs : ∀ z, Z.of_nat (size (filter (owns c) (<[i := z]> (delete i P)))) =
    Z.of_nat (size (filter (owns c) (delete i P))) + if decide (z.1.1 = c) then 1 else 0).
  { intros z. rewrite Hd. case_decide; [rewrite map_size_insert_None by done|]; lia. }
  rewrite Hs. destruct (P !! i) as [y|] eqn:E.
  - rewrite <-(insert_delete_id P i y E) at 2. rewrite Hs. lia.
  - rewrite (delete_id P i E). lia.
Qed.

Lemma owned_by_delete P i c :
  owned_by (delete i P) c =
  owned_by P c - (match P !! i with Some y => if decide (y.1.1 = c) then 1 else 0 | None => 0 end).
Proof.
  destruct (P !! i) as [y|] eqn:E; [|rewrite delete_id by done; lia].
  pose proof (owned_by_insert (delete i P) i y c) as H. rewrite insert_delete_id in H by done.
  rewrite lookup_delete_eq in H. rewrite H. lia.
Qed.

Lemma owned_by_le P c : 0 <= owned_by P c <= Z.of_nat (size P).
Proof. unfold owned_by. pose proof (map_size_filter (owns c) P). lia. Qed.

(** ** Entries in ID order *)

Definition id_row_le {X} (x y : StreamId * X) : Prop := id_le x.1 y.1.

#[global] Instance id_row_le_dec {X} (x y : StreamId * X) : Decision (id_row_le x y).
Proof. unfold id_row_le, id_le. apply _. Defined.

#[global] Instance id_row_le_trans {X} : Transitive (@id_row_le X).
Proof. intros [x ?] [y ?] [z ?] H1 H2. unfold id_row_le in *. cbn in *. id_order. Qed.

#[global] Instance id_row_le_total {X} : Total (@id_row_le X).
Proof. intros [x ?] [y ?]. unfold id_row_le. cbn. id_order. Qed.

(** A map by ID, in ID order. *)
Definition id_list {X} (F : gmap StreamId X) : list (StreamId * X) := merge_sort id_row_le (map_to_list F).

Definition ids_sorted {X} (l : list (StreamId * X)) : Prop :=
  StronglySorted (λ x y : StreamId * X, StreamId_lt x.1 y.1) l.

Lemma elem_of_id_list {X} (F : gmap StreamId X) i x : (i, x) ∈ id_list F ↔ F !! i = Some x.
Proof. unfold id_list. by rewrite merge_sort_Permutation, elem_of_map_to_list. Qed.

Lemma length_id_list {X} (F : gmap StreamId X) : length (id_list F) = size F.
Proof. unfold id_list. by rewrite merge_sort_Permutation, length_map_to_list. Qed.

Lemma id_list_sorted {X} (F : gmap StreamId X) : ids_sorted (id_list F).
Proof.
  unfold ids_sorted. assert (Hnd : NoDup (id_list F).*1).
  { unfold id_list. rewrite merge_sort_Permutation. apply NoDup_fst_map_to_list. }
  assert (Hs : StronglySorted id_row_le (id_list F)) by (apply StronglySorted_merge_sort; apply _).
  induction Hs as [|x l Hs IH Hx]; constructor; cbn in Hnd; apply NoDup_cons in Hnd as [Hn Hnd]; [auto|].
  rewrite Forall_forall in Hx |- *. intros y Hy. specialize (Hx y Hy). unfold id_row_le in Hx.
  destruct (decide (x.1 = y.1)) as [E|Hne].
  - destruct Hn. rewrite E. by apply list_elem_of_fmap_2.
  - apply dec_stable. intros Hge. apply Hne. by apply id_eq.
Qed.

Lemma ids_sorted_filter {X} (Pr : StreamId * X → Prop) `{∀ x, Decision (Pr x)} l :
  ids_sorted l → ids_sorted (filter Pr l).
Proof.
  induction 1 as [|x l Hs IH Hx]; [constructor|]. rewrite filter_cons. case_decide; [|done].
  constructor; [done|]. rewrite Forall_forall in Hx |- *. intros y [_ Hy]%list_elem_of_filter. auto.
Qed.

Lemma ids_sorted_fmap {X Y} (f : StreamId * X → StreamId * Y) l :
  (∀ x, (f x).1 = x.1) → ids_sorted l → ids_sorted (f <$> l).
Proof.
  intros Hf. induction 1 as [|x l Hs IH Hx]; cbn; constructor; [done|].
  apply Forall_fmap. rewrite Forall_forall in Hx |- *. intros y Hy. cbn. rewrite !Hf. auto.
Qed.

Lemma ids_sorted_unique {X} (l1 l2 : list (StreamId * X)) :
  ids_sorted l1 → ids_sorted l2 → (∀ x, x ∈ l1 ↔ x ∈ l2) → l1 = l2.
Proof.
  intros H1 H2 E. assert (Hnd : ∀ l : list (StreamId * X), ids_sorted l → NoDup l).
  { intros l Hl. induction Hl as [|x l Hl IH Hx]; constructor; [|done]. intros Hin.
    rewrite Forall_forall in Hx. specialize (Hx x Hin). id_order. }
  apply (StronglySorted_unique_strong (λ x y : StreamId * X, StreamId_lt x.1 y.1)); auto.
  - intros [x ?] [y ?] _ _ Hxy Hyx. cbn in *. id_order.
  - apply NoDup_Permutation; auto.
Qed.

Lemma id_list_filter {X} (Pr : StreamId * X → Prop) `{∀ x, Decision (Pr x)} (F : gmap StreamId X) :
  id_list (filter Pr F) = filter Pr (id_list F).
Proof.
  apply ids_sorted_unique; [apply id_list_sorted|apply ids_sorted_filter, id_list_sorted|].
  intros [i x]. rewrite list_elem_of_filter, !elem_of_id_list, map_lookup_filter_Some. tauto.
Qed.

(** A walk under a prefix that holds a row per ID meets them in ID order. *)
Lemma scan_ids (R : kvmap) (p : bytes) (l : list (StreamId * bytes)) :
  ids_sorted l → (∀ x, x ∈ l → id_ok x.1) →
  (∀ f x, R !! (p ++ f) = Some x ↔ ∃ i, f = StreamId_to_bytes i ∧ (i, x) ∈ l) →
  rows_of (sub_map p R) = (λ x : StreamId * bytes, (StreamId_to_bytes x.1, x.2)) <$> l.
Proof.
  intros Hs Hok HR. symmetry. apply rows_of_unique.
  - clear HR. induction Hs as [|x l Hs IH Hx]; cbn; constructor.
    + apply IH. intros y ?. apply Hok. by constructor.
    + apply Forall_fmap. rewrite Forall_forall in Hx |- *. intros y Hy. cbn.
      rewrite blt_StreamId by (apply Hok; by constructor). by apply StreamId_ltb_spec, Hx.
  - intros k v. rewrite lookup_sub_map, HR, list_elem_of_fmap. split.
    + intros ([i x] & [= -> ->] & Hin). by exists i.
    + intros (i & -> & Hin). by exists (i, v).
Qed.

(** A visitor that can read every row takes the first ones. *)
Lemma gather_take {A} (f : bytes * bytes → option A) (h : bytes * bytes → A) want l out :
  (∀ r, r ∈ l → f r = Some (h r)) → len out < want →
  gather f want l out = out ++ take (Z.to_nat (want - len out)) (h <$> l).
Proof.
  revert out. induction l as [|r l IH]; intros out Hf Hout; [cbn; by rewrite take_nil, app_nil_r|].
  cbn [gather fmap list_fmap]. rewrite (Hf r) by constructor.
  replace (Z.to_nat (want - len out)) with (S (Z.to_nat (want - len out - 1))) by lia.
  cbn [take]. rewrite length_app. cbn [length].
  destruct (Z.ltb_spec (Z.of_nat (length out + 1)) want).
  - rewrite IH; [|intros; apply Hf; by constructor|rewrite length_app; cbn; lia].
    rewrite <-app_assoc. cbn [app]. do 2 f_equal. rewrite length_app. cbn [length]. f_equal. lia.
  - by replace (Z.to_nat (want - len out - 1)) with 0%nat by lia.
Qed.

Lemma take_want {A} (count : option Z) (l : list A) :
  len l < 2 ^ 64 - 1 →
  take (Z.to_nat (default U64_MAX count)) l = match count with Some n => take (Z.to_nat n) l | None => l end.
Proof.
  intros Hl. destruct count as [n|]; [done|]. cbn [from_option id]. apply take_ge. unfold U64_MAX. lia.
Qed.

(** ** Rows of a group in the store *)

Definition with_rest (s : stream) (R : kvmap) : stream :=
  mkStream (s_entries s) (s_last s) (s_deleted s) (s_added s) R.

Lemma entries_no_group s f :
  head f ≠ Some STREAM_ENTRY_TAG → (list_to_map (erow <$> s_entries s) : kvmap) !! f = None.
Proof.
  intros Hf. apply not_elem_of_list_to_map_1.
  intros (r & -> & (e & -> & _)%list_elem_of_fmap)%list_elem_of_fmap. by apply Hf.
Qed.

Lemma lookup_rest s R f :
  head f ≠ Some STREAM_ENTRY_TAG → stream_rows (with_rest s R) !! f = R !! f.
Proof. intros Hf. unfold stream_rows. cbn. by rewrite lookup_union_r by (by apply entries_no_group). Qed.

Lemma insert_rest s R f x :
  head f ≠ Some STREAM_ENTRY_TAG →
  <[f := x]> (stream_rows (with_rest s R)) = stream_rows (with_rest s (<[f := x]> R)).
Proof. intros Hf. unfold stream_rows. cbn. by apply insert_union_r, entries_no_group. Qed.

Lemma delete_rest s R f :
  head f ≠ Some STREAM_ENTRY_TAG →
  delete f (stream_rows (with_rest s R)) = stream_rows (with_rest s (delete f R)).
Proof.
  intros Hf. unfold stream_rows. cbn. rewrite delete_union. f_equal. by apply delete_id, entries_no_group.
Qed.

Section Rest.
Context (st : store) (slot : Z) (key : bytes).
Abbreviation a := (mkAddr (st_ns st) slot key).
Context (Ha : addr_wf a).
Context (meta : StreamMeta) (s : stream) (w1 : world kvmap).
Abbreviation v := (c_version (st_base meta)).
Context (Hv : in_width 64 v) (Hle : v <= w_last w1).

(** The element rows are the stream's entries and [R]. *)
Record at_rest (R : kvmap) (w : world kvmap) : Prop := {
  ar_rows : rows_written a v (stream_rows (with_rest s R)) w1 w;
  ar_clean f : R !! (STREAM_ENTRY_TAG :: f) = None
}.

Lemma row_ok f : row st slot key meta f = Some (rprefix Subkey a v ++ f).
Proof. by apply (skey_ok a). Qed.

Lemma rows_ok f : rows st slot key meta f = Some (rprefix Subkey a v ++ f).
Proof. unfold rows. by rewrite (sprefix_ok a). Qed.

Lemma at_rest_get R w f :
  at_rest R w → head f ≠ Some STREAM_ENTRY_TAG → w_kv w !! (rprefix Subkey a v ++ f) = R !! f.
Proof.
  intros Har Hf. by rewrite <-lookup_rows_at, (rw_rows _ _ _ _ _ (ar_rows _ _ Har)), lookup_rest.
Qed.

Lemma at_rest_put R w f x :
  at_rest R w → head f ≠ Some STREAM_ENTRY_TAG →
  at_rest (<[f := x]> R) (with_kv w (<[rprefix Subkey a v ++ f := x]> (w_kv w))).
Proof.
  intros [Hr Hc] Hf. constructor.
  - rewrite <-insert_rest by done. by apply rows_written_put.
  - intros g. rewrite lookup_insert_ne; [done|]. intros ->. by apply Hf.
Qed.

Lemma at_rest_delete R w f :
  at_rest R w → head f ≠ Some STREAM_ENTRY_TAG →
  at_rest (delete f R) (with_kv w (delete (rprefix Subkey a v ++ f) (w_kv w))).
Proof.
  intros [Hr Hc] Hf. constructor.
  - rewrite <-delete_rest by done. by apply rows_written_delete.
  - intros g. rewrite lookup_delete_None. by right.
Qed.

Lemma wp_put_row R w f x Q :
  at_rest R w → head f ≠ Some STREAM_ENTRY_TAG →
  (∀ w', at_rest (<[f := x]> R) w' → Q tt w') → wp (put_row st slot key meta f x) w Q.
Proof.
  intros Har Hf HQ. unfold put_row. eapply wp_unwrap; [apply row_ok|].
  apply wp_last_put. by apply HQ, at_rest_put.
Qed.

Lemma wp_delete_row R w f Q :
  at_rest R w → head f ≠ Some STREAM_ENTRY_TAG →
  (∀ w', at_rest (delete f R) w' → Q tt w') → wp (delete_row st slot key meta f) w Q.
Proof.
  intros Har Hf HQ. unfold delete_row. eapply wp_unwrap; [apply row_ok|].
  wp_op. wp_op. by apply HQ, at_rest_delete.
Qed.

(** The state of group [n]'s rows, with the rest of the stream's framed. *)
Definition gstate (n : bytes) (R0 : kvmap) (D : gkey → option bytes) (w : world kvmap) : Prop :=
  ∃ R, at_rest R w ∧ holds_rows n D R ∧ gframe n R0 R.

Definition upd (D : gkey → option bytes) (k : gkey) (o : option bytes) (k' : gkey) : option bytes :=
  if decide (k' = k) then o else D k'.

Lemma holds_rows_upd n D R k o :
  gkey_ok k → holds_rows n D R →
  holds_rows n (upd D k o) (match o with Some x => <[gfield n k := x]> R | None => delete (gfield n k) R end).
Proof.
  intros Hk [Hr Hc]. constructor.
  - intros k' Hk'. unfold upd. case_decide as E; [subst k'; destruct o; by simplify_map_eq|].
    assert (gfield n k ≠ gfield n k') by (intros E'; apply E; symmetry; by eapply gfield_inj).
    destruct o; simplify_map_eq; by apply Hr.
  - intros f Hf Hs. destruct (decide (f = gfield n k)) as [->|Hne]; [by exists k|].
    apply Hc; [done|]. destruct o; by simplify_map_eq.
Qed.

Lemma gframe_upd n R k o :
  gframe n R (match o with Some x => <[gfield n k := x]> R | None => delete (gfield n k) R end).
Proof.
  intros f Hf. assert (gfield n k ≠ f) by (intros <-; apply Hf, gfield_of_group).
  destruct o; by simplify_map_eq.
Qed.

Lemma gfield_head n k : head (gfield n k) ≠ Some STREAM_ENTRY_TAG.
Proof. apply (of_group_head n), gfield_of_group. Qed.

Lemma gstate_ext n R0 D D' w :
  (∀ k, gkey_ok k → D k = D' k) → gstate n R0 D w → gstate n R0 D' w.
Proof.
  intros HD (R & Har & [Hr Hc] & Hf). exists R. split; [done|]. split; [|done].
  constructor; [|done]. intros k Hk. by rewrite Hr, HD.
Qed.

Lemma wp_put_gkey n R0 D w k x Q :
  gkey_ok k → gstate n R0 D w → (∀ w', gstate n R0 (upd D k (Some x)) w' → Q tt w') →
  wp (put_row st slot key meta (gfield n k) x) w Q.
Proof.
  intros Hk (R & Har & Hr & Hf) HQ. eapply wp_put_row; [done|apply gfield_head|].
  intros w' Har'. apply HQ. eexists. split; [done|].
  split; [by apply (holds_rows_upd n D R k (Some x))|].
  eapply gframe_trans; [done|apply (gframe_upd n R k (Some x))].
Qed.

Lemma wp_delete_gkey n R0 D w k Q :
  gkey_ok k → gstate n R0 D w → (∀ w', gstate n R0 (upd D k None) w' → Q tt w') →
  wp (delete_row st slot key meta (gfield n k)) w Q.
Proof.
  intros Hk (R & Har & Hr & Hf) HQ. eapply wp_delete_row; [done|apply gfield_head|].
  intros w' Har'. apply HQ. eexists. split; [done|].
  split; [by apply (holds_rows_upd n D R k None)|].
  eapply gframe_trans; [done|apply (gframe_upd n R k None)].
Qed.

Lemma gstate_get n R0 D w k :
  gkey_ok k → gstate n R0 D w → w_kv w !! (rprefix Subkey a v ++ gfield n k) = D k.
Proof.
  intros Hk (R & Har & Hr & Hf). rewrite (at_rest_get R) by (done || apply gfield_head). by apply Hr.
Qed.

Lemma wp_load_group n R0 D w Q :
  gstate n R0 D w → Q (D KGroup ≫= Group_decode) w → wp (load_group st slot key meta n) w Q.
Proof.
  intros Hg HQ. unfold load_group. eapply wp_unwrap; [apply row_ok|]. wp_op.
  pose proof (gstate_get n R0 D w KGroup I Hg) as E. cbn [gfield] in E. rewrite E. by wp_op.
Qed.

Lemma wp_load_consumer n R0 D w c Q :
  name_ok c → gstate n R0 D w → Q (D (KConsumer c) ≫= Consumer_decode c) w →
  wp (load_consumer st slot key meta n c) w Q.
Proof.
  intros Hc Hg HQ. unfold load_consumer. eapply wp_unwrap; [apply row_ok|]. wp_op.
  pose proof (gstate_get n R0 D w (KConsumer c) Hc Hg) as E. cbn [gfield] in E. rewrite E. by wp_op.
Qed.

Lemma wp_load_pending n R0 D w i Q :
  id_ok i → gstate n R0 D w → Q (D (KPending i) ≫= Pending_decode i) w →
  wp (load_pending st slot key meta n i) w Q.
Proof.
  intros Hi Hg HQ. unfold load_pending. eapply wp_unwrap; [apply row_ok|]. wp_op.
  pose proof (gstate_get n R0 D w (KPending i) Hi Hg) as E. cbn [gfield] in E. rewrite E. by wp_op.
Qed.

Lemma wp_save_group n R0 D w g Q :
  gstate n R0 D w → (∀ w', gstate n R0 (upd D KGroup (Some (Group_encode g))) w' → Q tt w') →
  wp (save_group st slot key meta n g) w Q.
Proof. intros Hg HQ. by apply (wp_put_gkey n R0 D w KGroup). Qed.

Lemma wp_save_consumer n R0 D w c Q :
  name_ok (k_name c) → gstate n R0 D w →
  (∀ w', gstate n R0 (upd D (KConsumer (k_name c)) (Some (Consumer_encode c))) w' → Q tt w') →
  wp (save_consumer st slot key meta n c) w Q.
Proof. intros Hc Hg HQ. by apply (wp_put_gkey n R0 D w (KConsumer (k_name c))). Qed.

Lemma wp_put_pending n R0 D w i x Q :
  id_ok i → gstate n R0 D w → (∀ w', gstate n R0 (upd D (KPending i) (Some x)) w' → Q tt w') →
  wp (put_row st slot key meta (pending_field n i) x) w Q.
Proof. intros Hi Hg HQ. by apply (wp_put_gkey n R0 D w (KPending i)). Qed.

Lemma wp_put_owned n R0 D w c i x Q :
  name_ok c → id_ok i → gstate n R0 D w → (∀ w', gstate n R0 (upd D (KOwned c i) (Some x)) w' → Q tt w') →
  wp (put_row st slot key meta (owned_field n c i) x) w Q.
Proof. intros Hc Hi Hg HQ. by apply (wp_put_gkey n R0 D w (KOwned c i)). Qed.

Lemma wp_kvdelete_gkey {A} n R0 D w k (c : bool → prog A) Q :
  gkey_ok k → gstate n R0 D w → (∀ b w', gstate n R0 (upd D k None) w' → wp (c b) w' Q) →
  wp (bind (kvdelete (rprefix Subkey a v ++ gfield n k)) c) w Q.
Proof.
  intros Hk (R & Har & Hr & Hf) HQ. wp_op. apply HQ. eexists. split; [apply at_rest_delete; [done|apply gfield_head]|].
  split; [by apply (holds_rows_upd n D R k None)|].
  eapply gframe_trans; [done|apply (gframe_upd n R k None)].
Qed.

Lemma wp_delete_pending n R0 D w i Q :
  id_ok i → gstate n R0 D w → (∀ w', gstate n R0 (upd D (KPending i) None) w' → Q tt w') →
  wp (delete_row st slot key meta (pending_field n i)) w Q.
Proof. intros Hi Hg HQ. by apply (wp_delete_gkey n R0 D w (KPending i)). Qed.

Lemma wp_delete_owned n R0 D w c i Q :
  name_ok c → id_ok i → gstate n R0 D w → (∀ w', gstate n R0 (upd D (KOwned c i) None) w' → Q tt w') →
  wp (delete_row st slot key meta (owned_field n c i)) w Q.
Proof. intros Hc Hi Hg HQ. by apply (wp_delete_gkey n R0 D w (KOwned c i)). Qed.

(** ** The records in hand *)

(** Mid-way through an operation the pending rows and the owners' index are
    those of [P], and the counters' rows still those of the group [g0] the
    operation started from. *)
Definition loop_rows (g0 : sgroup) (P : pel) (k : gkey) : option bytes :=
  match k with
  | KPending _ | KOwned _ _ => pel_rows P k
  | _ => sg_rows g0 k
  end.

(** The other consumers in hand have the counts of [P]; those that are neither
    in hand nor the operation's own have kept theirs. *)
Record in_hand (g0 : sgroup) (P : pel) (own : option bytes) (others : gmap bytes Consumer) : Prop := {
  ih_others o k : others !! o = Some k →
    own ≠ Some o ∧ ∃ x, sg_cons g0 !! o = Some x ∧ k = consumer_of P o x;
  ih_rest o : others !! o = None → own ≠ Some o → owned_by P o = owned_by (sg_pel g0) o
}.

Lemma in_hand_same g0 P P' own others :
  (∀ o, own ≠ Some o → owned_by P' o = owned_by P o) → in_hand g0 P own others → in_hand g0 P' own others.
Proof.
  intros HP [Ho Hr]. constructor.
  - intros o k E. destruct (Ho o k E) as (Hne & x & Hx & ->). split; [done|]. exists x. split; [done|].
    unfold consumer_of. by rewrite HP.
  - intros o E Hne. rewrite HP by done. by apply Hr.
Qed.

Lemma consumer_of_ok g P c x :
  cons_wf (sg_cons g) → sg_cons g !! c = Some x → Z.of_nat (size P) < 2 ^ 63 → consumer_ok (consumer_of P c x).
Proof.
  intros Hc Hx Hs. destruct (Hc c x Hx) as (_ & ? & ?). pose proof (owned_by_le P c).
  constructor; cbn; [done..|unfold in_width; lia].
Qed.

Lemma wp_other_loses n R0 D g0 P P' own others o x w Q :
  sgroup_wf g0 → gstate n R0 D w → D (KConsumer o) = sg_rows g0 (KConsumer o) →
  in_hand g0 P own others → own ≠ Some o → sg_cons g0 !! o = Some x →
  owned_by P' o = owned_by P o - 1 →
  (∀ o', o' ≠ o → own ≠ Some o' → owned_by P' o' = owned_by P o') →
  (∀ others', in_hand g0 P' own others' → Q others' w) →
  wp (other_loses st slot key meta n others o) w Q.
Proof.
  intros Hwf Hg ED [Ho Hr] Hown Hx Hless Hsame HQ. unfold other_loses.
  pose proof (owned_by_le P' o) as Hle'.
  assert (Hfin : ∀ others1, (∀ o' k, others1 !! o' = Some k → others !! o' = Some k ∨ o' = o ∧ k = consumer_of P o x) →
    is_Some (others1 !! o) → (∀ o', others1 !! o' = None → others !! o' = None) →
    Q (alter loses o others1) w).
  { intros others1 H1 [k Hk] H2. apply HQ. constructor.
    - intros o' k'. destruct (decide (o' = o)) as [->|Hne].
      + rewrite lookup_alter_eq, Hk. cbn. intros [= <-]. split; [done|]. exists x. split; [done|].
        assert (k = consumer_of P o x) as ->.
        { destruct (H1 o k Hk) as [E|[_ ->]]; [|done]. destruct (Ho o k E) as (_ & x' & Ex & ->). congruence. }
        unfold loses, with_owned, consumer_of, saturating_sub. cbn. f_equal. lia.
      + rewrite lookup_alter_ne by done. intros E. destruct (H1 o' k' E) as [E'|[-> _]]; [|done].
        destruct (Ho o' k' E') as (? & x' & ? & ->). split; [done|]. exists x'. split; [done|].
        unfold consumer_of. by rewrite Hsame.
    - intros o' E Hne'. destruct (decide (o' = o)) as [->|Hne].
      + by rewrite lookup_alter_eq, Hk in E.
      + rewrite lookup_alter_ne in E by done. rewrite Hsame by done. apply Hr; [by apply H2|done]. }
  case_decide as En; apply wp_bind.
  - apply wp_bind. apply (wp_load_consumer n R0 D w o); [by apply (sw_cons _ Hwf o x)|done|].
    rewrite ED. cbn [sg_rows]. rewrite Hx. cbn [fmap option_fmap option_map mbind option_bind].
    pose proof (Consumer_decode_encode _ (consumer_of_ok g0 _ o x (sw_cons _ Hwf) Hx (sw_size _ Hwf))) as Edec.
    cbn [k_name consumer_of] in Edec. rewrite Edec. wp_op. wp_op. apply Hfin.
    + intros o' k [[<- <-]|[_ E]]%lookup_insert_Some; [right|by left]. split; [done|].
      unfold consumer_of. by rewrite <-(Hr o En Hown).
    + rewrite lookup_insert_eq. eauto.
    + intros o' [E _]%lookup_insert_None. done.
  - wp_op. wp_op. apply Hfin; [by left|by apply not_eq_None_Some|done].
Qed.

(** The records in hand are those of the group [g] the operation has made so
    far, with its own consumer [c]. *)
Record hand_of (g0 : sgroup) (c : bytes) (g : sgroup) (h : hand) : Prop := {
  ho_group : h_group h = group_of g;
  ho_own : ∃ x, sg_cons g !! c = Some x ∧ h_consumer h = consumer_of (sg_pel g) c x;
  ho_cons o : o ≠ c → sg_cons g !! o = sg_cons g0 !! o;
  ho_others : in_hand g0 (sg_pel g) (Some c) (h_others h)
}.

(** The operation's own consumer takes entry [i], or [i] is forgotten. *)
Definition taken_by (g : sgroup) (c : bytes) (i : StreamId) (x : bytes * Z * Z) : sgroup :=
  mkSgroup (sg_last g) (sg_read g) (sg_cons g) (<[i := x]> (sg_pel g)).

Definition forgotten (g : sgroup) (i : StreamId) : sgroup :=
  mkSgroup (sg_last g) (sg_read g) (sg_cons g) (delete i (sg_pel g)).

Definition made_active (g : sgroup) (c : bytes) (now : Z) : sgroup :=
  mkSgroup (sg_last g) (sg_read g) (alter (λ x, (x.1, Some now)) c (sg_cons g)) (sg_pel g).

Lemma hand_of_active g0 c g h now :
  hand_of g0 c g h → hand_of g0 c (made_active g c now) (hand_active h now).
Proof.
  intros [Hg (x & Hx & Hc) Hcons Ho]. constructor; cbn.
  - rewrite Hg. unfold group_of. cbn. do 2 f_equal. by rewrite <-!size_dom, dom_alter_L.
  - exists (x.1, Some now). rewrite lookup_alter_eq, Hx. split; [done|]. by rewrite Hc.
  - intros o Hne. rewrite lookup_alter_ne by done. by apply Hcons.
  - done.
Qed.

Lemma decode_pending P i x :
  pel_wf (sg_cons P) (sg_pel P) → sg_pel P !! i = Some x →
  Pending_decode i (Pending_encode (pending_of i x)) = Some (pending_of i x).
Proof.
  intros Hwf Hx. destruct (Hwf i x Hx) as (_ & _ & ? & ?).
  apply (Pending_decode_encode (pending_of i x)). by constructor.
Qed.

(** The rows after an entry changed hands, in whatever order they were written. *)
Lemma rows_reown g0 P i o c x k :
  x.1.1 = c → (match P !! i with Some y => y.1.1 = o ∨ y.1.1 = c | None => True end) →
  upd (upd (upd (loop_rows g0 P) (KOwned o i) None) (KPending i) (Some (Pending_encode (pending_of i x))))
    (KOwned c i) (Some []) k = loop_rows g0 (<[i := x]> P) k.
Proof.
  intros Hx HP. unfold upd. destruct k as [|c'|j|c' j]; cbn.
  - by rewrite !decide_False by done.
  - by rewrite !decide_False by done.
  - rewrite decide_False by done. destruct (decide (j = i)) as [->|Hne].
    + rewrite decide_True by done. by rewrite lookup_insert_eq.
    + rewrite !decide_False by naive_solver. by rewrite lookup_insert_ne by done.
  - destruct (decide (j = i)) as [->|Hne].
    + rewrite lookup_insert_eq. destruct (decide (c' = c)) as [->|Hc].
      * by rewrite !decide_True by done.
      * rewrite decide_False by naive_solver. rewrite decide_False by done.
        destruct (decide (c' = o)) as [->|Ho]; [rewrite decide_True by done|rewrite decide_False by naive_solver].
        -- by rewrite decide_False by congruence.
        -- rewrite (decide_False (P := x.1.1 = c')) by congruence.
           destruct (P !! i) as [y|]; [|done]. rewrite decide_False; naive_solver.
    + rewrite !decide_False by naive_solver. by rewrite lookup_insert_ne by done.
Qed.

(** The counters in hand follow. *)
Lemma hand_of_taken g0 c g h i x others' :
  x.1.1 = c → Z.of_nat (size (sg_pel g)) + 1 < 2 ^ 63 → hand_of g0 c g h →
  in_hand g0 (<[i := x]> (sg_pel g)) (Some c) others' →
  hand_of g0 c (taken_by g c i x)
    (mkHand (match sg_pel g !! i with
             | None => set_pending (h_group h) (u64 (g_pending (h_group h) + 1))
             | Some _ => h_group h
             end)
       (match sg_pel g !! i with
        | Some y => if decide (y.1.1 = c) then h_consumer h else gains (h_consumer h)
        | None => gains (h_consumer h)
        end) others').
Proof.
  intros Hx Hs [Hg (z & Hz & Hc) Hcons Ho] Ho'. pose proof (owned_by_le (sg_pel g) c) as Hob.
  constructor; cbn [h_group h_consumer h_others taken_by sg_cons sg_pel]; [|exists z|done|done].
  - rewrite Hg. unfold group_of, set_pending. cbn. destruct (sg_pel g !! i) as [y|] eqn:E.
    + by rewrite map_size_insert_Some.
    + rewrite map_size_insert_None by done. f_equal. rewrite wrap_id by (unfold in_width; lia). lia.
  - split; [done|]. rewrite Hc. unfold consumer_of, gains, with_owned. cbn.
    rewrite owned_by_insert, decide_True by done. destruct (sg_pel g !! i) as [y|]; [case_decide|].
    + f_equal. lia.
    + f_equal. rewrite wrap_id by (unfold in_width; lia). lia.
    + f_equal. rewrite wrap_id by (unfold in_width; lia). lia.
Qed.

Lemma owned_by_reown P i x y c o :
  P !! i = Some y → y.1.1 = o → x.1.1 = c → o ≠ c →
  owned_by (<[i := x]> P) o = owned_by P o - 1 ∧
  ∀ o', o' ≠ o → Some c ≠ Some o' → owned_by (<[i := x]> P) o' = owned_by P o'.
Proof.
  intros Hy Ho Hx Hne. split.
  - rewrite owned_by_insert, Hy. rewrite (decide_True (P := y.1.1 = o)), decide_False by congruence. lia.
  - intros o' H1 H2. rewrite owned_by_insert, Hy, !decide_False by congruence. lia.
Qed.

Lemma in_hand_own g0 P c others i x :
  x.1.1 = c → (match P !! i with Some y => y.1.1 = c | None => True end) →
  in_hand g0 P (Some c) others → in_hand g0 (<[i := x]> P) (Some c) others.
Proof.
  intros Hx HP. apply in_hand_same. intros o Hne. rewrite owned_by_insert, decide_False by congruence.
  destruct (P !! i) as [y|]; [rewrite decide_False by congruence|]; lia.
Qed.

Lemma hand_cons g0 c g h o x :
  hand_of g0 c g h → o ≠ c → sg_cons g !! o = Some x → sg_cons g0 !! o = Some x.
Proof. intros Hh Hne Hx. by rewrite <-(ho_cons _ _ _ _ Hh o Hne). Qed.

Lemma rows_own g0 P i c x k :
  x.1.1 = c → (match P !! i with Some y => y.1.1 = c | None => True end) →
  upd (upd (loop_rows g0 P) (KPending i) (Some (Pending_encode (pending_of i x)))) (KOwned c i) (Some []) k =
  loop_rows g0 (<[i := x]> P) k.
Proof.
  intros Hx HP. rewrite <-(rows_reown g0 P i c c x k Hx) by (destruct (P !! i); auto).
  unfold upd. repeat case_decide; naive_solver.
Qed.

(** ** Delivering, claiming, forgetting *)

Lemma wp_deliver n R0 g0 c g h i now w Q :
  sgroup_wf g0 → sgroup_wf g → name_ok c → id_ok i → Z.of_nat (size (sg_pel g)) + 1 < 2 ^ 63 →
  hand_of g0 c g h → gstate n R0 (loop_rows g0 (sg_pel g)) w →
  (∀ h' w', hand_of g0 c (made_active (taken_by g c i (c, now, 1)) c now) h' →
     gstate n R0 (loop_rows g0 (<[i := (c, now, 1)]> (sg_pel g))) w' → Q h' w') →
  wp (deliver st slot key meta n h i now) w Q.
Proof.
  intros Hwf0 Hwf Hc Hi Hs Hh Hg HQ. unfold deliver.
  pose proof (ho_own _ _ _ _ Hh) as (z & Hz & Ec).
  assert (Ek : k_name (h_consumer h) = c) by (by rewrite Ec). rewrite Ek.
  set (x := (c, now, 1)) in *. change (mkPending i c now 1) with (pending_of i x).
  pose proof (hand_of_taken g0 c g h i x) as Ht. specialize (λ o, Ht o eq_refl Hs Hh).
  assert (Hend : ∀ D h1 w', hand_of g0 c (taken_by g c i x) h1 → gstate n R0 D w' →
    (∀ k, upd (upd D (KPending i) (Some (Pending_encode (pending_of i x)))) (KOwned c i) (Some []) k =
       loop_rows g0 (<[i := x]> (sg_pel g)) k) →
    wp (put_row st slot key meta (pending_field n i) (Pending_encode (pending_of i x)) ;;;
        put_row st slot key meta (owned_field n c i) [] ;;;
        Ret (hand_active h1 now)) w' Q).
  { intros D h1 w' Hh1 Hg' HD. apply wp_bind. eapply wp_put_pending; [done..|]. intros w2 Hg2.
    apply wp_bind. eapply wp_put_owned; [done..|]. intros w3 Hg3. wp_op. apply HQ.
    - by apply hand_of_active.
    - eapply gstate_ext; [|exact Hg3]. intros k _. apply HD. }
  apply wp_bind. eapply wp_load_pending; [done..|]. cbn [loop_rows pel_rows].
  destruct (sg_pel g !! i) as [y|] eqn:Ey; cbn [fmap option_fmap option_map mbind option_bind].
  - rewrite (decode_pending g i y (sw_pel _ Hwf) Ey). cbn [p_consumer pending_of].
    destruct (sw_pel _ Hwf i y Ey) as (_ & [xo Hxo] & _).
    case_decide as Eo; apply wp_bind.
    + wp_op. eapply Hend; [|done|intros k; apply rows_own; [done|by rewrite Ey]].
      destruct h as [hg hc ho]. apply (Ht ho). apply in_hand_own; [done|by rewrite Ey|apply Hh].
    + apply wp_bind. pose proof (hand_cons _ _ _ _ _ _ Hh Eo Hxo) as Hxo0.
      eapply wp_delete_owned; [by apply (sw_cons _ Hwf0 _ _ Hxo0)|done..|]. intros w2 Hg2.
      destruct (owned_by_reown (sg_pel g) i x y c y.1.1 Ey eq_refl eq_refl Eo) as [Hl Hsame].
      apply wp_bind. eapply (wp_other_loses n R0 _ g0 (sg_pel g) (<[i := x]> (sg_pel g)) (Some c));
        [done|exact Hg2|done|apply Hh|congruence|done|done|done|].
      intros others' Ho'. wp_op. eapply Hend; [by apply (Ht others')|exact Hg2|].
      intros k. apply rows_reown; [done|]. rewrite Ey. by left.
  - apply wp_bind. wp_op. eapply Hend; [|done|intros k; apply rows_own; [done|by rewrite Ey]].
    apply (Ht (h_others h)). apply in_hand_own; [done|by rewrite Ey|apply Hh].
Qed.

Lemma taken_wf g c i x :
  sgroup_wf g → id_ok i → is_Some (sg_cons g !! x.1.1) → in_width 64 x.1.2 → in_width 64 x.2 →
  Z.of_nat (size (sg_pel g)) + 1 < 2 ^ 63 → sgroup_wf (taken_by g c i x).
Proof.
  intros [? ? ? Hp ? ?] Hi Hc Hd Hn Hs. constructor; cbn; try done.
  - intros j y [[<- <-]|[_ E]]%lookup_insert_Some; [done|by apply Hp].
  - destruct (sg_pel g !! i) eqn:E; [rewrite map_size_insert_Some by done|rewrite map_size_insert_None by done]; lia.
Qed.

Lemma active_wf g c now :
  sgroup_wf g → clock_ok now → sgroup_wf (made_active g c now).
Proof.
  intros [? ? Hc Hp ? ?] Hnow. unfold clock_ok in Hnow. constructor; cbn; try done.
  - intros o x [(-> & y & Hy & ->)|[_ E]]%lookup_alter_Some; [|by apply Hc].
    destruct (Hc o y Hy) as (? & ? & ?). split_and!; [done..|]. cbn. intros t [= <-].
    unfold U64_MAX. unfold in_width in *. lia.
  - intros i x E. destruct (Hp i x E) as (? & ? & ? & ?). split_and!; try done.
    by apply lookup_alter_is_Some.
  - by rewrite <-size_dom, dom_alter_L, size_dom.
Qed.

Lemma forgotten_wf g i : sgroup_wf g → sgroup_wf (forgotten g i).
Proof.
  intros [? ? ? Hp ? ?]. constructor; cbn; try done.
  - intros j y [_ E]%lookup_delete_Some. by apply Hp.
  - rewrite map_size_delete. destruct (sg_pel g !! i); cbn; lia.
Qed.

Lemma rows_forget g0 P i o k :
  (match P !! i with Some y => y.1.1 = o | None => True end) →
  upd (upd (loop_rows g0 P) (KPending i) None) (KOwned o i) None k = loop_rows g0 (delete i P) k.
Proof.
  intros HP. unfold upd. destruct k as [|c'|j|c' j]; cbn.
  - by rewrite !decide_False by done.
  - by rewrite !decide_False by done.
  - rewrite decide_False by done. destruct (decide (j = i)) as [->|Hne].
    + rewrite decide_True by done. by rewrite lookup_delete_eq.
    + rewrite decide_False by naive_solver. by rewrite lookup_delete_ne by done.
  - rewrite (decide_False (P := KOwned c' j = KPending i)) by done. destruct (decide (j = i)) as [->|Hne].
    + rewrite lookup_delete_eq. destruct (decide (c' = o)) as [->|Ho]; [by rewrite decide_True|].
      rewrite decide_False by naive_solver. destruct (P !! i) as [y|]; [|done].
      by rewrite decide_False by congruence.
    + rewrite decide_False by naive_solver. by rewrite lookup_delete_ne by done.
Qed.

Lemma wp_take_pending n R0 g0 c g h i x owned d m w Q :
  sgroup_wf g0 → sgroup_wf g → name_ok c → id_ok i → Z.of_nat (size (sg_pel g)) + 1 < 2 ^ 63 →
  hand_of g0 c g h → gstate n R0 (loop_rows g0 (sg_pel g)) w →
  (if owned : bool then ∃ y, sg_pel g !! i = Some y ∧ y.1.1 = x else sg_pel g !! i = None) →
  let h0 := if owned then h else mkHand (set_pending (h_group h) (u64 (g_pending (h_group h) + 1)))
                                   (h_consumer h) (h_others h) in
  (∀ h' w', hand_of g0 c (taken_by g c i (c, d, m)) h' →
     gstate n R0 (loop_rows g0 (<[i := (c, d, m)]> (sg_pel g))) w' → Q h' w') →
  wp (take_pending st slot key meta n h0 (mkPending i x d m) owned) w Q.
Proof.
  intros Hwf0 Hwf Hc Hi Hs Hh Hg Hheld h0 HQ. unfold take_pending. cbn [p_consumer p_id p_delivered_ms p_deliveries].
  pose proof (ho_own _ _ _ _ Hh) as (z & Hz & Ec).
  assert (Ek : k_name (h_consumer h0) = c) by (unfold h0; destruct owned; by rewrite Ec). rewrite Ek.
  set (y' := (c, d, m)) in *. pose proof (hand_of_taken g0 c g h i y') as Ht. specialize (λ o, Ht o eq_refl Hs Hh).
  change (delivered (mkPending i x d m) c d m) with (pending_of i y').
  destruct owned; cbn [negb orb].
  - destruct Hheld as (y & Ey & Eo). rewrite Ey in Ht. subst x. case_bool_decide as Hne.
    + destruct (sw_pel _ Hwf i y Ey) as (_ & [xo Hxo] & _).
      pose proof (hand_cons _ _ _ _ _ _ Hh Hne Hxo) as Hxo0. pose proof (sw_cons _ Hwf0 _ _ Hxo0) as (Hname & _).
      destruct (owned_by_reown (sg_pel g) i y' y c y.1.1 Ey eq_refl eq_refl Hne) as [Hl Hsame].
      rewrite decide_False in Ht by done. apply wp_bind, wp_bind.
      eapply wp_delete_owned; [done..|]. intros w2 Hg2.
      eapply (wp_other_loses n R0 _ g0 (sg_pel g) (<[i := y']> (sg_pel g)) (Some c));
        [done|exact Hg2|done|apply Hh|congruence|done|done|done|]. intros others' Ho'.
      apply wp_bind. eapply wp_put_owned; [done..|]. intros w3 Hg3.
      apply wp_bind. eapply wp_put_pending; [done..|]. intros w4 Hg4. wp_op. apply HQ; [by apply (Ht others')|].
      eapply gstate_ext; [|exact Hg4]. intros k _.
      rewrite <-(rows_reown g0 (sg_pel g) i y.1.1 c y' k) by (rewrite ?Ey; auto).
      unfold upd. repeat case_decide; naive_solver.
    + apply wp_bind.
      change (mkPending i y.1.1 d m) with (pending_of i (y.1.1, d, m)). rewrite Hne. fold y'.
      eapply wp_put_pending; [done..|]. intros w2 Hg2. wp_op. apply HQ.
      * rewrite decide_True in Ht by done. unfold h0. destruct h as [hg hc ho]. apply (Ht ho).
        apply in_hand_own; [done|by rewrite Ey|apply Hh].
      * eapply gstate_ext; [|exact Hg2]. intros k _. rewrite <-(rows_own g0 (sg_pel g) i c y' k) by (rewrite ?Ey; auto).
        unfold upd. destruct (decide (k = KOwned c i)) as [->|]; [|done]. rewrite decide_False by done. cbn.
        by rewrite Ey, decide_True.
  - rewrite Hheld in Ht. apply wp_bind. wp_op. apply wp_bind. eapply wp_put_owned; [done..|]. intros w3 Hg3.
    apply wp_bind. eapply wp_put_pending; [done..|]. intros w4 Hg4. wp_op. apply HQ.
    + apply (Ht (h_others h)). apply in_hand_own; [done|by rewrite Hheld|apply Hh].
    + eapply gstate_ext; [|exact Hg4]. intros k _. rewrite <-(rows_own g0 (sg_pel g) i c y' k) by (rewrite ?Hheld; auto).
      unfold upd. repeat case_decide; naive_solver.
Qed.

Lemma size_forget (P : pel) i y : P !! i = Some y → Z.of_nat (size (delete i P)) = Z.of_nat (size P) - 1.
Proof.
  intros E. rewrite map_size_delete_Some by (by exists y).
  assert (size P ≠ 0%nat) by (intros E0%map_size_empty_inv; by rewrite E0 in E). lia.
Qed.

Lemma owned_by_forget P i y o :
  P !! i = Some y → y.1.1 = o →
  owned_by (delete i P) o = owned_by P o - 1 ∧ ∀ o', o' ≠ o → owned_by (delete i P) o' = owned_by P o'.
Proof.
  intros Hy Ho. split; [|intros o' Hne]; rewrite owned_by_delete, Hy.
  - by rewrite decide_True.
  - rewrite decide_False by congruence. lia.
Qed.

Lemma wp_forget n R0 g0 c g h i y w Q :
  sgroup_wf g0 → sgroup_wf g → hand_of g0 c g h → gstate n R0 (loop_rows g0 (sg_pel g)) w →
  sg_pel g !! i = Some y →
  (∀ h' w', hand_of g0 c (forgotten g i) h' → gstate n R0 (loop_rows g0 (delete i (sg_pel g))) w' → Q h' w') →
  wp (forget st slot key meta n h (pending_of i y)) w Q.
Proof.
  intros Hwf0 Hwf Hh Hg Ey HQ. unfold forget. cbn [p_id p_consumer pending_of].
  destruct (sw_pel _ Hwf i y Ey) as (Hi & [xo Hxo] & _). pose proof (sw_cons _ Hwf _ _ Hxo) as (Hname & _).
  destruct Hh as [Hgr (z & Hz & Ec) Hcons Ho].
  destruct (owned_by_forget (sg_pel g) i y y.1.1 Ey eq_refl) as [Hl Hsame].
  pose proof (owned_by_le (delete i (sg_pel g)) y.1.1). pose proof (owned_by_le (sg_pel g) c).
  pose proof (size_forget _ i y Ey) as Hsz.
  apply wp_bind. eapply wp_delete_pending; [done..|]. intros w2 Hg2.
  apply wp_bind. eapply wp_delete_owned; [done..|]. intros w3 Hg3.
  assert (Hg' : gstate n R0 (loop_rows g0 (delete i (sg_pel g))) w3).
  { eapply gstate_ext; [|exact Hg3]. intros k _. apply rows_forget. by rewrite Ey. }
  assert (Egr : set_pending (h_group h) (saturating_sub (g_pending (h_group h)) 1) = group_of (forgotten g i)).
  { rewrite Hgr. unfold set_pending, group_of, saturating_sub, forgotten. cbn. f_equal. lia. }
  assert (Ek : k_name (h_consumer h) = c) by (by rewrite Ec). rewrite Ek, Egr. case_decide as Eo.
  - wp_op. apply HQ; [|done]. constructor; cbn; [done| |done|].
    + exists z. split; [done|]. rewrite Ec. unfold loses, with_owned, consumer_of, saturating_sub. cbn.
      rewrite Eo in *. f_equal. lia.
    + eapply in_hand_same; [|done]. intros o Hne. apply Hsame. congruence.
  - apply wp_bind. assert (Hxo0 : sg_cons g0 !! y.1.1 = Some xo) by (by rewrite <-Hcons).
    eapply (wp_other_loses n R0 _ g0 (sg_pel g) (delete i (sg_pel g)) (Some c));
      [done|exact Hg'|done|done|congruence|done|done|auto|].
    intros others' Ho'. wp_op. apply HQ; [|done]. constructor; cbn; [done| |done|done].
    exists z. split; [done|]. rewrite Ec. unfold consumer_of. f_equal. symmetry. by apply Hsame.
Qed.

(** ** Writing the records back *)

Definition saved (l : list Consumer) (D : gkey → option bytes) : gkey → option bytes :=
  foldl (λ D c, upd D (KConsumer (k_name c)) (Some (Consumer_encode c))) D l.

Lemma wp_save_consumers n R0 l D w Q :
  Forall (λ c, name_ok (k_name c)) l → gstate n R0 D w →
  (∀ w', gstate n R0 (saved l D) w' → Q tt w') →
  wp (for_ l (save_consumer st slot key meta n)) w Q.
Proof.
  intros Hl. revert D w. induction Hl as [|c l Hc Hl IH]; intros D w Hg HQ.
  - apply wp_ret. by apply HQ.
  - cbn [for_]. apply wp_bind. eapply wp_save_consumer; [done..|]. intros w' Hg'. by eapply IH.
Qed.

Lemma saved_other l D k : (∀ c, c ∈ l → k ≠ KConsumer (k_name c)) → saved l D k = D k.
Proof.
  revert D. induction l as [|c l IH]; intros D Hk; [done|]. unfold saved in *. cbn. rewrite IH.
  - unfold upd. rewrite decide_False; [done|]. apply Hk. by constructor.
  - intros c' ?. apply Hk. by constructor.
Qed.

Lemma saved_in l D c :
  NoDup (k_name <$> l) → c ∈ l → saved l D (KConsumer (k_name c)) = Some (Consumer_encode c).
Proof.
  revert D. induction l as [|c' l IH]; intros D Hnd Hin; [by apply elem_of_nil in Hin|].
  cbn in Hnd. apply NoDup_cons in Hnd as [Hn Hnd]. apply elem_of_cons in Hin as [->|Hin]; [|by apply IH].
  change (saved (c' :: l) D) with (saved l (upd D (KConsumer (k_name c')) (Some (Consumer_encode c')))).
  rewrite saved_other; [unfold upd; by rewrite decide_True|].
  intros c'' Hc'' [= E]. apply Hn. rewrite E. by apply list_elem_of_fmap_2.
Qed.

Lemma elem_of_values {V} (m : gmap bytes V) x : x ∈ values m ↔ ∃ k, m !! k = Some x.
Proof.
  unfold values. rewrite list_elem_of_fmap. setoid_rewrite merge_sort_Permutation. split.
  - intros ([k y] & -> & Hin). exists k. by apply elem_of_map_to_list.
  - intros [k Hk]. exists (k, x). split; [done|]. by apply elem_of_map_to_list.
Qed.

Lemma values_names (others : gmap bytes Consumer) :
  (∀ o k, others !! o = Some k → k_name k = o) → NoDup (k_name <$> values others).
Proof.
  intros Hn. unfold values. rewrite <-list_fmap_compose.
  assert (E : ∀ l, (∀ r, r ∈ l → others !! r.1 = Some r.2) → (k_name ∘ snd) <$> l = l.*1).
  { induction l as [|r l IH]; intros Hl; [done|]. cbn. rewrite IH; [|intros; apply Hl; by constructor].
    f_equal. apply Hn, Hl. by constructor. }
  rewrite E.
  - rewrite merge_sort_Permutation. apply NoDup_fst_map_to_list.
  - intros [o k]. rewrite merge_sort_Permutation. apply elem_of_map_to_list.
Qed.

Lemma in_hand_names g0 P own others o k : in_hand g0 P own others → others !! o = Some k → k_name k = o.
Proof. intros Hh E. destruct (ih_others _ _ _ _ Hh o k E) as (_ & x & _ & ->). done. Qed.

Lemma wp_save_others n R0 g0 P own others w Q :
  sgroup_wf g0 → in_hand g0 P own others → gstate n R0 (loop_rows g0 P) w →
  (∀ w', gstate n R0 (saved (values others) (loop_rows g0 P)) w' → Q tt w') →
  wp (save_others st slot key meta n others) w Q.
Proof.
  intros Hwf Hh Hg HQ. unfold save_others. eapply wp_save_consumers; [|done|done].
  apply Forall_forall. intros k [o E]%elem_of_values.
  destruct (ih_others _ _ _ _ Hh o k E) as (_ & x & Hx & ->). by apply (sw_cons _ Hwf o x).
Qed.

(** With the others saved, a consumer's row is the one its pending entries say. *)
Lemma saved_consumer g0 P own others o :
  in_hand g0 P own others → own ≠ Some o →
  saved (values others) (loop_rows g0 P) (KConsumer o) =
  (λ x, Consumer_encode (consumer_of P o x)) <$> sg_cons g0 !! o.
Proof.
  intros Hh Hne. destruct (others !! o) as [k|] eqn:E.
  - pose proof (in_hand_names _ _ _ _ _ _ Hh E) as En. rewrite <-En at 1.
    rewrite saved_in; [|apply values_names; intros ? ?; by apply (in_hand_names _ _ _ _ _ _ Hh)|apply elem_of_values; eauto].
    destruct (ih_others _ _ _ _ Hh o k E) as (_ & x & Hx & ->). by rewrite Hx.
  - rewrite saved_other.
    + cbn. destruct (sg_cons g0 !! o); [|done]. cbn. unfold consumer_of.
      by rewrite (ih_rest _ _ _ _ Hh o E Hne).
    + intros k [o' E']%elem_of_values [= ->]. rewrite (in_hand_names _ _ _ _ _ _ Hh E') in E. congruence.
Qed.

Lemma saved_rest others D k : (∀ o, k ≠ KConsumer o) → saved others D k = D k.
Proof. intros Hk. apply saved_other. intros c _. apply Hk. Qed.

(** Saving what is in hand leaves the rows of the group made. *)
Lemma rows_saved g0 c g h k :
  hand_of g0 c g h →
  upd (upd (saved (values (h_others h)) (loop_rows g0 (sg_pel g)))
         (KConsumer (k_name (h_consumer h))) (Some (Consumer_encode (h_consumer h))))
    KGroup (Some (Group_encode (h_group h))) k = sg_rows g k.
Proof.
  intros [Hg (x & Hx & Hc) Hcons Ho]. rewrite Hc, Hg. unfold upd. cbn [k_name consumer_of].
  destruct k as [|o|i|o i]; cbn [sg_rows].
  - by rewrite decide_True.
  - rewrite decide_False by done. destruct (decide (o = c)) as [->|Hne].
    + rewrite decide_True by done. by rewrite Hx.
    + rewrite decide_False by congruence. rewrite (saved_consumer _ _ _ _ _ Ho) by congruence. by rewrite Hcons.
  - rewrite !decide_False by done. by rewrite saved_rest.
  - rewrite !decide_False by done. by rewrite saved_rest.
Qed.

Lemma wp_save_hand n R0 g0 c g h w Q :
  sgroup_wf g0 → sgroup_wf g → hand_of g0 c g h → gstate n R0 (loop_rows g0 (sg_pel g)) w →
  (∀ w', gstate n R0 (sg_rows g) w' → Q tt w') →
  wp (save_hand st slot key meta n h) w Q.
Proof.
  intros Hwf0 Hwf Hh Hg HQ. unfold save_hand. pose proof (ho_own _ _ _ _ Hh) as (x & Hx & Hc).
  apply wp_bind. eapply (wp_save_others n R0 g0); [done|apply Hh|done|]. intros w2 Hg2.
  apply wp_bind. eapply wp_save_consumer; [rewrite Hc; by apply (sw_cons _ Hwf c x)|done|]. intros w3 Hg3.
  eapply wp_save_group; [done|]. intros w4 Hg4. apply HQ. eapply gstate_ext; [|exact Hg4].
  intros k _. by apply (rows_saved g0 c).
Qed.

(** The consumer of an operation, made if it is new, and seen now. *)
Definition seen_in (g : sgroup) (c : bytes) (now : Z) : sgroup :=
  mkSgroup (sg_last g) (sg_read g)
    (<[c := (now, match sg_cons g !! c with Some x => x.2 | None => None end)]> (sg_cons g)) (sg_pel g).

Lemma size_seen g c now :
  size (sg_cons (seen_in g c now)) =
  match sg_cons g !! c with Some _ => size (sg_cons g) | None => S (size (sg_cons g)) end.
Proof.
  cbn. destruct (sg_cons g !! c) eqn:E; [by apply map_size_insert_Some|by apply map_size_insert_None].
Qed.

Lemma seen_wf g c now :
  sgroup_wf g → clock_ok now → name_ok c → Z.of_nat (size (sg_cons g)) + 1 < 2 ^ 63 →
  sgroup_wf (seen_in g c now).
Proof.
  intros [? ? Hc Hp ? ?] Hnow Hname Hs. unfold clock_ok in Hnow. constructor; cbn [sg_last sg_read sg_pel seen_in]; try done.
  - intros o x Hx. cbn in Hx. apply lookup_insert_Some in Hx as [[<- <-]|[_ E]]; [|by apply Hc].
    split; [done|]. split; [cbn; width|].
    intros t. cbn. destruct (sg_cons g !! c) as [y|] eqn:E; [|done]. by apply (Hc c y E).
  - intros i x E. destruct (Hp i x E) as (? & ? & ? & ?). split_and!; try done.
    apply lookup_insert_is_Some'. by right.
  - rewrite size_seen. destruct (sg_cons g !! c); lia.
Qed.

Lemma owned_by_stranger g c : pel_wf (sg_cons g) (sg_pel g) → sg_cons g !! c = None → owned_by (sg_pel g) c = 0.
Proof.
  intros Hp Hc. unfold owned_by. replace (filter (owns c) (sg_pel g)) with (∅ : pel); [done|].
  symmetry. apply map_empty. intros i. rewrite map_lookup_filter. destruct (sg_pel g !! i) as [x|] eqn:E; [|done].
  cbn. case_guard as Ho; [|done]. unfold owns in Ho. cbn in Ho. destruct (Hp i x E) as (_ & [y Hy] & _).
  rewrite Ho in Hy. congruence.
Qed.

Lemma gstate_loop n R0 g w : gstate n R0 (sg_rows g) w → gstate n R0 (loop_rows g (sg_pel g)) w.
Proof. apply gstate_ext. by intros []. Qed.

(** [g0] is what the rows hold, [g1] the same with the group's record ahead. *)
Lemma wp_consumer_seen n R0 g0 g1 c now w Q :
  sgroup_wf g0 → sg_cons g1 = sg_cons g0 → sg_pel g1 = sg_pel g0 → name_ok c →
  Z.of_nat (size (sg_cons g0)) + 1 < 2 ^ 63 → gstate n R0 (sg_rows g0) w →
  (∀ g c', hand_of g0 c (seen_in g1 c now) (mkHand g c' ∅) → Q (g, c') w) →
  wp (consumer_seen st slot key meta n (group_of g1) c now) w Q.
Proof.
  intros Hwf Ec Ep Hc Hs Hg HQ. unfold consumer_seen. apply wp_bind. eapply wp_load_consumer; [done..|].
  assert (Hin : in_hand g0 (sg_pel g1) (Some c) ∅).
  { rewrite Ep. constructor; [by intros ? ? ?%lookup_empty_Some|done]. }
  pose proof (size_seen g1 c now) as Hsz. rewrite Ec in Hsz. cbn [sg_rows].
  assert (Hoth : ∀ o, o ≠ c → sg_cons (seen_in g1 c now) !! o = sg_cons g0 !! o).
  { intros o Hne. cbn. rewrite lookup_insert_ne by done. by rewrite Ec. }
  destruct (sg_cons g0 !! c) as [x|] eqn:E; cbn [fmap option_fmap option_map mbind option_bind].
  - pose proof (Consumer_decode_encode _ (consumer_of_ok g0 (sg_pel g0) c x (sw_cons _ Hwf) E (sw_size _ Hwf))) as Edec.
    cbn [k_name consumer_of] in Edec. rewrite Edec. wp_op. apply HQ. constructor; try done.
    + cbn [h_group]. unfold group_of. by rewrite Hsz, Ec.
    + exists (now, x.2). cbn. rewrite lookup_insert_eq, Ec, E, Ep. done.
  - wp_op. apply HQ. constructor; try done.
    + cbn [h_group]. unfold set_consumers, group_of. rewrite Hsz. cbn. rewrite Ec. f_equal. rewrite wrap_id by (unfold in_width; lia). lia.
    + exists (now, None). cbn. rewrite lookup_insert_eq, Ec, E, Ep. split; [done|].
      unfold seen_at, Consumer_new, consumer_of. cbn. f_equal. symmetry. apply owned_by_stranger; [apply Hwf|done].
Qed.
(** ** Walks under a group's prefixes *)

Lemma rest_sub R w p :
  at_rest R w → (∃ b q, p = b :: q ∧ b ≠ STREAM_ENTRY_TAG) →
  sub_map (rprefix Subkey a v ++ p) (w_kv w) = sub_map p R.
Proof.
  intros Har (b & q & -> & Hb). apply map_eq. intros f. rewrite !lookup_sub_map, <-app_assoc.
  apply at_rest_get; [done|]. cbn. congruence.
Qed.

Definition pel_ids (P : pel) : Prop := ∀ i x, P !! i = Some x → id_ok i.

Lemma scan_pending n R0 D w P :
  gstate n R0 D w → (∀ i, id_ok i → D (KPending i) = pel_rows P (KPending i)) → pel_ids P →
  rows_of (sub_map (rprefix Subkey a v ++ named STREAM_PENDING_TAG n) (w_kv w)) =
  (λ x : StreamId * (bytes * Z * Z), (StreamId_to_bytes x.1, Pending_encode (pending_of x.1 x.2))) <$> id_list P.
Proof.
  intros (R & Har & [Hr Hc] & _) HD Hids. rewrite (rest_sub R) by (done || by eexists _, _).
  rewrite (scan_ids R _ ((λ x : StreamId * (bytes * Z * Z), (x.1, Pending_encode (pending_of x.1 x.2))) <$> id_list P)).
  - by rewrite <-list_fmap_compose.
  - apply ids_sorted_fmap; [done|apply id_list_sorted].
  - intros x (y & -> & Hy)%list_elem_of_fmap. destruct y as [i y]. apply elem_of_id_list in Hy. by eapply Hids.
  - intros f x. split.
    + intros Hx. destruct (Hc (named STREAM_PENDING_TAG n ++ f)) as (k & Hk & E).
      { right. exists STREAM_PENDING_TAG, f. split; [set_solver|done]. }
      { by eexists. }
      rewrite E in Hx. rewrite Hr in Hx by done. pose proof (f_equal head E) as Eh.
      destruct k as [|c|i|c i]; try done. apply app_inv_head in E as ->. exists i. split; [done|].
      rewrite HD in Hx by done. cbn in Hx. destruct (P !! i) as [y|] eqn:Ey; [|done]. injection Hx as <-.
      apply list_elem_of_fmap. exists (i, y). split; [done|]. by apply elem_of_id_list.
    + intros (i & -> & ([j y] & [= <- ->] & Hy)%list_elem_of_fmap). apply elem_of_id_list in Hy.
      pose proof (Hr (KPending i) (Hids _ _ Hy)) as E. cbn [gfield] in E. unfold pending_field in E. rewrite E, HD by (by eapply Hids).
      cbn. by rewrite Hy.
Qed.

Lemma scan_owned n R0 D w P c :
  gstate n R0 D w → name_ok c → (∀ i, id_ok i → D (KOwned c i) = pel_rows P (KOwned c i)) → pel_ids P →
  rows_of (sub_map (rprefix Subkey a v ++ owned_prefix n c) (w_kv w)) =
  (λ x : StreamId * (bytes * Z * Z), (StreamId_to_bytes x.1, [])) <$> filter (owns c) (id_list P).
Proof.
  intros (R & Har & [Hr Hc] & _) Hname HD Hids. rewrite (rest_sub R) by (done || by eexists _, _).
  rewrite (scan_ids R _ ((λ x : StreamId * (bytes * Z * Z), (x.1, [])) <$> filter (owns c) (id_list P))).
  - by rewrite <-list_fmap_compose.
  - apply ids_sorted_fmap; [done|apply ids_sorted_filter, id_list_sorted].
  - intros x (y & -> & [_ Hy]%list_elem_of_filter)%list_elem_of_fmap. destruct y as [i y].
    apply elem_of_id_list in Hy. by eapply Hids.
  - intros f x. split.
    + intros Hx. destruct (Hc (owned_prefix n c ++ f)) as (k & Hk & E).
      { right. exists STREAM_OWNED_TAG, (be 4 (len c) ++ c ++ f). split; [set_solver|].
        unfold owned_prefix. by rewrite <-!app_assoc. }
      { by eexists. }
      rewrite E in Hx. rewrite Hr in Hx by done. pose proof (f_equal head E) as Eh.
      destruct k as [|c'|i|c' i]; try done. destruct Hk as [Hc' Hi]. cbn [gfield] in E.
      unfold owned_field, owned_prefix in E. rewrite <-!app_assoc in E. apply app_inv_head in E.
      apply app_inj_length in E as [El E]; [|by rewrite !length_be].
      unfold name_ok in *. apply be_inj in El; [|width..]. apply app_inj_length in E as [<- ->]; [|lia].
      exists i. split; [done|]. rewrite HD in Hx by done. cbn in Hx. destruct (P !! i) as [y|] eqn:Ey; [|done].
      case_decide as Eo; [|done]. injection Hx as <-. apply list_elem_of_fmap. exists (i, y). split; [done|].
      apply list_elem_of_filter. split; [done|]. by apply elem_of_id_list.
    + intros (i & -> & ([j y] & [= <- ->] & [Ho Hy]%list_elem_of_filter)%list_elem_of_fmap).
      apply elem_of_id_list in Hy. pose proof (Hids _ _ Hy) as Hi.
      pose proof (Hr (KOwned c i) (conj Hname Hi)) as E. cbn [gfield] in E. unfold owned_field in E. rewrite E, HD by done.
      cbn. rewrite Hy. by rewrite decide_True.
Qed.

(** The rows a map of records by name leaves, in name order. *)
Lemma rows_of_names {V} (m : kvmap) (F : gmap bytes V) (enc : V → bytes) :
  (∀ k, m !! k = enc <$> F !! k) →
  rows_of m = (λ r : bytes * V, (r.1, enc r.2)) <$> merge_sort name_le (map_to_list F).
Proof.
  intros Hm. symmetry. apply rows_of_unique.
  - apply ascending_nodup.
    + assert (Hs : StronglySorted name_le (merge_sort name_le (map_to_list F))).
      { apply StronglySorted_merge_sort; unfold name_le.
        - intros ? ? ?. apply ble_trans.
        - intros [x ?] [y ?]. apply ble_total. }
      induction Hs as [|x l Hs IH Hx]; cbn; constructor; [done|]. apply Forall_fmap.
      rewrite Forall_forall in Hx |- *. intros y Hy. apply (Hx y Hy).
    + rewrite <-list_fmap_compose. change (fst ∘ _) with (fst : bytes * V → bytes).
      rewrite merge_sort_Permutation. apply NoDup_fst_map_to_list.
  - intros k v. rewrite list_elem_of_fmap, Hm. setoid_rewrite merge_sort_Permutation. split.
    + intros ([k' x] & [= -> ->] & Hin%elem_of_map_to_list). cbn. by rewrite Hin.
    + destruct (F !! k) as [x|] eqn:E; [|done]. cbn. intros [= <-]. exists (k, x). split; [done|]. by apply elem_of_map_to_list.
Qed.

(** The consumers of a group, as their rows have them. *)
Definition consumers_of (g : sgroup) : gmap bytes Consumer :=
  map_imap (λ c x, Some (consumer_of (sg_pel g) c x)) (sg_cons g).

Lemma scan_consumers n R0 D w g :
  gstate n R0 D w → (∀ c, name_ok c → D (KConsumer c) = sg_rows g (KConsumer c)) → cons_wf (sg_cons g) →
  rows_of (sub_map (rprefix Subkey a v ++ named STREAM_CONSUMER_TAG n) (w_kv w)) =
  (λ r : bytes * Consumer, (r.1, Consumer_encode r.2)) <$> merge_sort name_le (map_to_list (consumers_of g)).
Proof.
  intros (R & Har & [Hr Hc] & _) HD Hwf. rewrite (rest_sub R) by (done || by eexists _, _).
  apply rows_of_names. intros c. rewrite lookup_sub_map. unfold consumers_of. rewrite map_lookup_imap.
  assert (Hcase : name_ok c → R !! (named STREAM_CONSUMER_TAG n ++ c) =
    Consumer_encode <$> ((sg_cons g !! c) ≫= λ x, Some (consumer_of (sg_pel g) c x))).
  { intros Hn. pose proof (Hr (KConsumer c) Hn) as E. cbn [gfield] in E. unfold consumer_field in E. rewrite E, HD by done. cbn. by destruct (sg_cons g !! c). }
  destruct (R !! (named STREAM_CONSUMER_TAG n ++ c)) as [x|] eqn:E.
  - destruct (Hc (named STREAM_CONSUMER_TAG n ++ c)) as (k & Hk & Ek); [|by eexists|].
    { right. exists STREAM_CONSUMER_TAG, c. split; [set_solver|done]. }
    pose proof (f_equal head Ek) as Eh. destruct k as [|c'|i|c' i]; try done. apply app_inv_head in Ek as ->. by apply Hcase.
  - destruct (sg_cons g !! c) as [x|] eqn:Ex; [|done]. apply Hcase. by apply (Hwf c x).
Qed.

Definition tag_of (k : gkey) : Byte.byte :=
  match k with
  | KGroup => STREAM_GROUP_TAG
  | KConsumer _ => STREAM_CONSUMER_TAG
  | KPending _ => STREAM_PENDING_TAG
  | KOwned _ _ => STREAM_OWNED_TAG
  end.

Lemma gfield_tag n k f tag : gfield n k = named tag n ++ f → tag_of k = tag.
Proof. intros E. apply (f_equal head) in E. destruct k; cbn in E; by injection E. Qed.

Lemma tag_gfield n k : tag_of k ≠ STREAM_GROUP_TAG → ∃ f, gfield n k = named (tag_of k) n ++ f.
Proof.
  intros Hk. destruct k as [|c|i|c i]; [done|by eexists..|].
  exists (be 4 (len c) ++ c ++ StreamId_to_bytes i). cbn [gfield tag_of]. unfold owned_field, owned_prefix.
  by rewrite <-!app_assoc.
Qed.

Definition without_tag (tag : Byte.byte) (D : gkey → option bytes) (k : gkey) : option bytes :=
  if decide (tag_of k = tag) then None else D k.

(** The rows deleted are those under the prefix. *)
Lemma wp_delete_under R w p Q :
  at_rest R w → (∃ b q, p = b :: q ∧ b ≠ STREAM_ENTRY_TAG) →
  (∀ R' w', at_rest R' w' → (∀ f, R' !! (p ++ f) = None) → (∀ f, (∀ g, f ≠ p ++ g) → R' !! f = R !! f) → Q tt w') →
  wp (delete_rows st slot key meta p) w Q.
Proof.
  intros Har Hp HQ. unfold delete_rows. eapply wp_unwrap; [apply rows_ok|]. wp_op.
  rewrite prefix_rows_sub_map, (rest_sub R) by done. set (P := rprefix Subkey a v ++ p).
  apply (wp_for (λ l w', ∃ ks R', l = prod_map (app P) id <$> ks ∧ at_rest R' w' ∧
    (∀ f, is_Some (R' !! (p ++ f)) → f ∈ ks.*1) ∧ (∀ f, (∀ g, f ≠ p ++ g) → R' !! f = R !! f))).
  - exists (rows_of (sub_map p R)), R. split_and!; try done. intros f [x Hx].
    apply list_elem_of_fmap. exists (f, x). split; [done|]. by rewrite elem_of_rows_of, lookup_sub_map.
  - intros r l w' ([|[f x] ks] & R' & El & Har' & Hks & Hf); [done|]. cbn in El. injection El as -> ->.
    cbn [fst]. wp_op. wp_op. exists ks, (delete (p ++ f) R'). split; [done|]. split_and!.
    + unfold P. rewrite <-app_assoc. apply at_rest_delete; [done|]. destruct Hp as (b & q & -> & Hb). cbn. congruence.
    + intros g [y [Hne Hy]%lookup_delete_Some]. assert (Hg : g ∈ ((f, x) :: ks).*1) by (apply Hks; by eexists).
      apply list_elem_of_fmap in Hg as (r & E & Hr).
      apply elem_of_cons in Hr as [->|Hr]; [cbn in E; congruence|]. apply list_elem_of_fmap. by exists r.
    + intros g Hg. rewrite lookup_delete_ne; [by apply Hf|]. intros <-. by apply (Hg f).
  - intros w' ([|r ks] & R' & El & Har' & Hks & Hf); [|done]. eapply HQ; [done| |done].
    intros f. apply eq_None_not_Some. intros Hs. apply Hks in Hs. by apply elem_of_nil in Hs.
Qed.

Lemma wp_delete_tag n R0 D w tag Q :
  tag ∈ [STREAM_PENDING_TAG; STREAM_CONSUMER_TAG; STREAM_OWNED_TAG] → gstate n R0 D w →
  (∀ w', gstate n R0 (without_tag tag D) w' → Q tt w') →
  wp (delete_rows st slot key meta (named tag n)) w Q.
Proof.
  intros Ht (R & Har & [Hr Hc] & Hfr) HQ.
  assert (Hp : ∃ b q, named tag n = b :: q ∧ b ≠ STREAM_ENTRY_TAG).
  { eexists _, _. split; [done|]. by apply group_tags. }
  eapply wp_delete_under; [done..|]. intros R' w' Har' Hnone Hsame. apply HQ. exists R'. split; [done|].
  assert (Hsub : ∀ f, R' !! f = None ∨ R' !! f = R !! f).
  { intros f. destruct (strip_prefix (named tag n) f) as [g|] eqn:E.
    - apply strip_prefix_Some in E as ->. left. apply Hnone.
    - right. apply Hsame. by apply strip_prefix_None. }
  split; [constructor|].
  - intros k Hk. unfold without_tag. case_decide as Et.
    + destruct (tag_gfield n k) as [f Ef].
      { rewrite Et. by apply group_tags. }
      rewrite Ef, Et. apply Hnone.
    + rewrite Hsame; [by apply Hr|]. intros g E. apply Et. by eapply gfield_tag.
  - intros f Hf Hs. apply Hc; [done|]. destruct (Hsub f) as [E|E]; rewrite E in Hs; [|done].
    by apply is_Some_None in Hs.
  - intros f Hf. rewrite Hsame; [by apply Hfr|]. intros g ->. apply Hf. right. by exists tag, g.
Qed.
End Rest.
