(* ===== verification/GroupOps.v ===== *)
(** * What the operations on consumer groups do

    The operations of [Groups.v] against the groups they keep: each theorem
    gives the answer of an operation and the group it leaves, and says that
    nothing else of the stream, and no other group, has moved. *)

From stdpp Require Import base list gmap strings sorting.
From Stdlib Require Import ZArith Lia.
From Stdlib Require Strings.Byte.
From S2P Require Import Prelude Encoding Kv Store Streams Groups.

(** ** Operations on a group *)

Lemma group_of_ok g : sgroup_wf g → group_ok (group_of g).
Proof. intros [? ? ? ? ? ?]. constructor; cbn; try done; unfold in_width; lia. Qed.

Lemma decode_group g : sgroup_wf g → Group_decode (Group_encode (group_of g)) = Some (group_of g).
Proof. intros. by apply Group_decode_encode, group_of_ok. Qed.

(** The group is [G] now: nothing of the stream [s] but that group's rows moved. *)
Definition regrouped (a : addr) (H : option stream) (s : stream) (n : bytes) (G : option sgroup)
    (w w' : world kvmap) : Prop :=
  ∃ R, gframe n (s_rest s) R ∧ grepr n R G ∧ smakes a H (Some (with_rest s R)) w w'.

Lemma with_rest_id s : with_rest s (s_rest s) = s.
Proof. by destruct s. Qed.

Lemma with_rest_wf s R : stream_wf s → (∀ f, R !! (STREAM_ENTRY_TAG :: f) = None) → stream_wf (with_rest s R).
Proof. intros [? ? ? ? ? ?] HR. by constructor. Qed.

Section Operations.
Context (st : store) (slot : Z) (key : bytes).
Abbreviation a := (mkAddr (st_ns st) slot key).
Context (Ha : addr_wf a).

(** An operation has the metadata of a stream that is in the store. *)
Record gopened (H : option stream) (s : stream) (w : world kvmap) (meta : StreamMeta) (w1 : world kvmap) : Prop := {
  go_holds now : H = None ∨ srepr a now w H →
    ∃ meta', sholds a now w1 meta' s ∧ c_version (st_base meta') = c_version (st_base meta);
  go_width : in_width 64 (c_version (st_base meta));
  go_version : c_version (st_base meta) <= w_last w1;
  go_rows : rows_at Subkey a (c_version (st_base meta)) (w_kv w1) = stream_rows s;
  go_meta : meta = meta_of (st_base meta) s;
  go_len : len (s_entries s) < 2 ^ 32;
  go_wf : stream_wf s;
  go_env : env_ok w1;
  go_effect : effect a w w1
}.

Lemma sopened_gopened s w meta w1 : sopened st slot key (Some s) w meta w1 → gopened (Some s) s w meta w1.
Proof.
  intros Ho. constructor; try apply Ho. intros now [?|Hn]; [done|].
  apply (so_keeps _ _ _ _ _ _ _ Ho) in Hn as (meta' & Hm). exists meta'. split; [done|].
  destruct (so_row _ _ _ _ _ _ _ Ho) as (row & Hrow & Hd); [done|].
  destruct (sh_row _ _ _ _ _ Hm) as (row' & Hrow' & _ & Hd'). congruence.
Qed.

(** Group rows written leave the metadata row, so the stream as it was. *)
Lemma smakes_rest H s w meta w1 R w2 :
  gopened H s w meta w1 → at_rest st slot key meta s w1 R w2 →
  smakes a H (Some (with_rest s R)) w w2.
Proof.
  intros Ho [Hrw Hc] now Hn. destruct (go_holds _ _ _ _ _ Ho now Hn) as (meta' & Hm & Ev).
  pose proof Hm as [(row & Hrow & Hl & Hd) _ Hmeta Hsz Hb Hv Hwf].
  exists meta'. constructor; try done.
  - exists row. by rewrite (rw_meta _ _ _ _ _ Hrw).
  - rewrite Ev. apply Hrw.
  - rewrite (rw_world _ _ _ _ _ Hrw). done.
  - by apply with_rest_wf.
Qed.

Lemma gstate_done H s w meta w1 n D w2 G :
  gopened H s w meta w1 → gstate st slot key meta s w1 n (s_rest s) D w2 →
  (∀ R, holds_rows n D R → grepr n R G) →
  effect a w w2 ∧ regrouped a H s n G w w2.
Proof.
  intros Ho (R & Har & Hr & Hf) HG. split.
  - eapply effect_trans; [apply Ho|]. eapply rows_written_effect, Har.
  - exists R. split; [done|]. split; [by apply HG|]. by eapply smakes_rest.
Qed.

Lemma gstate_open H s w meta w1 n D :
  gopened H s w meta w1 → holds_rows n D (s_rest s) →
  gstate st slot key meta s w1 n (s_rest s) D w1.
Proof.
  intros Ho Hr. exists (s_rest s). split; [|done]. constructor.
  - rewrite with_rest_id. rewrite <-(go_rows _ _ _ _ _ Ho). apply rows_written_refl, (go_env _ _ _ _ _ Ho).
  - apply (go_wf _ _ _ _ _ Ho).
Qed.

(** The rows are those of [g]: the operation is done. *)
Lemma gstate_group H s w meta w1 n D w2 g :
  gopened H s w meta w1 → gstate st slot key meta s w1 n (s_rest s) D w2 → sgroup_wf g →
  (∀ k, gkey_ok k → D k = sg_rows g k) →
  effect a w w2 ∧ regrouped a H s n (Some g) w w2.
Proof.
  intros Ho Hg Hwf HD. apply (gstate_done H s w meta w1 n (sg_rows g)); [done| |by split].
  by eapply gstate_ext.
Qed.

(** What group [n] of the key is, the stream missing or not. *)
Definition group_at (H : option stream) (n : bytes) (G : option sgroup) : Prop :=
  match H with Some s => grepr n (s_rest s) G | None => G = None end.

Lemma wp_group_of {T} H n G (body : StreamMeta → Group → prog (result (Found T))) w Q :
  env_ok w → srepr a (w_clock w 0%nat) w H → group_at H n G →
  (∀ w', H = None → effect a w w' → skeeps a H w w' → Q (Ok NoStream) w') →
  (∀ w', is_Some H → G = None → effect a w w' → skeeps a H w w' → Q (Ok NoGroup) w') →
  (∀ s g meta w1, H = Some s → G = Some g → sgroup_wf g → gopened (Some s) s w meta w1 → skeeps a H w w1 →
     holds_rows n (sg_rows g) (s_rest s) → wp (body meta (group_of g)) w1 Q) →
  wp (with_group st slot key n body) w Q.
Proof.
  intros Henv HH HG HN HNG HY. unfold with_group, group. apply wp_try, wp_try.
  apply (wp_stream_read st slot key H); [done..| |].
  { intros w' -> _ He _ _ Hk. wp_op. wp_op. by apply HN. }
  intros meta w1 Hne Ho. destruct H as [s|]; [|done]. cbn [group_at] in HG. apply wp_bind.
  pose proof (sopened_gopened _ _ _ _ Ho) as Hgo.
  destruct G as [g|]; cbn [grepr] in HG.
  - destruct HG as [Hr Hwf]. pose proof (gstate_open _ _ _ _ _ _ _ Hgo Hr) as Hg.
    eapply wp_load_group; [done|done|]. cbn [sg_rows mbind option_bind].
    rewrite decode_group by done. wp_op. eapply HY; try done. apply Ho.
  - pose proof (gstate_open _ _ _ _ _ _ _ Hgo HG) as Hg.
    eapply wp_load_group; [done|done|]. cbn [mbind option_bind]. wp_op. wp_op.
    apply HNG; [by eexists|done|apply Ho..].
Qed.

(** ** Making and moving groups *)

Definition new_group (last : StreamId) (read : Z) : sgroup := mkSgroup last read ∅ ∅.

Definition started (s : stream) (start : GroupStart) : StreamId :=
  match start with Last => s_last s | Id id => id end.

Definition start_ok (start : GroupStart) : Prop := match start with Last => True | Id id => id_ok id end.

Lemma new_group_wf last read : id_ok last → in_i64 read → sgroup_wf (new_group last read).
Proof. intros. constructor; cbn; try done; by intros ? ? ?%lookup_empty_Some. Qed.

Lemma start_id_of H s w meta w1 start :
  gopened H s w meta w1 → start_id meta start = started s start.
Proof. intros Ho. rewrite (go_meta _ _ _ _ _ Ho). by destruct start. Qed.

Lemma started_ok s start : stream_wf s → start_ok start → id_ok (started s start).
Proof. intros Hs Hst. destruct start; [apply Hs|done]. Qed.

Lemma wp_group_create_in H s w meta w1 n start read G :
  gopened H s w meta w1 → grepr n (s_rest s) G → start_ok start → in_i64 read →
  wp (group_create_in st slot key meta n start read) w1 (λ r w', effect a w w' ∧
    match G with
    | Some _ => r = Ok Exists ∧ regrouped a H s n G w w'
    | None => r = Ok CreatedGroup ∧ regrouped a H s n (Some (new_group (started s start) read)) w w'
    end).
Proof.
  intros Ho HG Hst Hread. unfold group_create_in. apply wp_bind.
  destruct G as [g|]; cbn [grepr] in HG.
  - destruct HG as [Hr Hwf]. pose proof (gstate_open _ _ _ _ _ _ _ Ho Hr) as Hg.
    eapply wp_load_group; [done|done|]. cbn [sg_rows mbind option_bind]. rewrite decode_group by done.
    wp_op. by destruct (gstate_group _ _ _ _ _ _ _ _ g Ho Hg Hwf).
  - pose proof (gstate_open _ _ _ _ _ _ _ Ho HG) as Hg.
    eapply wp_load_group; [done|done|]. cbn [mbind option_bind]. apply wp_bind.
    eapply wp_save_group; [done|apply Ho|apply Ho|done|]. intros w2 Hg2. wp_op.
    rewrite (start_id_of _ _ _ _ _ _ Ho) in Hg2.
    assert (Hwf : sgroup_wf (new_group (started s start) read))
      by (apply new_group_wf; [apply started_ok; [apply Ho|done]|done]).
    destruct (gstate_group _ _ _ _ _ _ _ _ _ Ho Hg2 Hwf) as [? ?]; [|done].
    intros k _. unfold upd. by destruct k; cbn.
Qed.

Lemma wp_group_create H n start mk read G w :
  env_ok w → headroom w → srepr a (w_clock w 0%nat) w H → group_at H n G → start_ok start → in_i64 read →
  wp (group_create st slot key n start mk read) w (λ r w', effect a w w' ∧
    match H, G with
    | None, _ => if mk : bool then r = Ok CreatedGroup ∧
                   regrouped a H stream_new n (Some (new_group (started stream_new start) read)) w w'
                 else r = Ok NoStreamToCreate ∧ skeeps a H w w'
    | Some s, Some _ => r = Ok Exists ∧ regrouped a H s n G w w'
    | Some s, None => r = Ok CreatedGroup ∧ regrouped a H s n (Some (new_group (started s start) read)) w w'
    end).
Proof.
  intros Henv Hroom HH HG Hst Hread. unfold group_create. apply wp_try.
  apply (wp_stream_read st slot key H); [done..| |].
  - intros w' -> Henv' He El _ Hk. cbn [group_at] in HG. subst G. destruct mk; [|by wp_op].
    wp_op. wp_op. assert (Hroom' : headroom w') by (unfold headroom; by rewrite El).
    pose proof (sopened_new st slot key Ha w w' Henv' He Hk Hroom') as Ho. cbn zeta in Ho.
    set (v := version_next (w_last w') (w_clock w' 0)) in *. set (w2 := with_last (tick w') v) in *.
    apply wp_bind. change (StreamMeta_new v) with (meta_of (st_base (StreamMeta_new v)) stream_new) at 1.
    eapply (wp_stream_write_holds st slot key None (StreamMeta_new v) stream_new w w2 w2); [done| |apply stream_new_wf|done..|].
    { pose proof (so_rows _ _ _ _ _ _ _ Ho) as Er. cbn [current from_option id] in Er. rewrite <-Er.
      apply rows_written_refl, (so_env _ _ _ _ _ _ _ Ho). }
    intros w3 He3 El3 Hm. destruct (Hm 0 (or_introl eq_refl)) as (meta' & Hh & Ev).
    assert (Hgo : gopened None stream_new w (StreamMeta_new v) w3).
    { constructor; try done.
      - apply Ho.
      - rewrite <-Ev. apply Hh.
      - rewrite <-Ev. apply Hh.
      - apply stream_new_wf.
      - by eapply effect_env. }
    eapply wp_conseq; [apply (wp_group_create_in None stream_new w (StreamMeta_new v) w3 n start read None); try done|].
    { constructor; [done|]. intros f _ [x Hs]. cbn in Hs. by apply lookup_empty_Some in Hs. }
    intros r w4 (? & ? & ?). done.
  - intros meta w1 Hne Ho. destruct H as [s|]; [|done]. cbn [group_at] in HG.
    eapply wp_conseq; [apply (wp_group_create_in (Some s) s w meta w1 n start read G); try done; by apply sopened_gopened|].
    intros r w4 (? & Hr). by destruct G.
Qed.

(** What an operation on a group that may not be there answers and leaves:
    nothing without the stream or the group, and [Yes] otherwise. *)
Definition found {T} (H : option stream) (n : bytes) (G : option sgroup) (w : world kvmap)
    (yes : stream → sgroup → T → world kvmap → Prop) (r : result (Found T)) (w' : world kvmap) : Prop :=
  match H, G with
  | None, _ => r = Ok NoStream ∧ skeeps a H w w'
  | Some _, None => r = Ok NoGroup ∧ skeeps a H w w'
  | Some s, Some g => ∃ x, r = Ok (Yes x) ∧ yes s g x w'
  end.

Lemma wp_found {T} H n G (body : StreamMeta → Group → prog (result (Found T))) (yes : stream → sgroup → T → world kvmap → Prop) w :
  env_ok w → srepr a (w_clock w 0%nat) w H → group_at H n G →
  (∀ s g meta w1, H = Some s → G = Some g → sgroup_wf g → gopened H s w meta w1 → skeeps a H w w1 →
     holds_rows n (sg_rows g) (s_rest s) →
     wp (body meta (group_of g)) w1 (λ r w', effect a w w' ∧ ∃ x, r = Ok (Yes x) ∧ yes s g x w')) →
  wp (with_group st slot key n body) w (λ r w', effect a w w' ∧ found H n G w yes r w').
Proof.
  intros Henv HH HG Hbody. apply (wp_group_of H n G); try done.
  - intros w' -> He Hk. split; [done|]. done.
  - intros w' [s ->] -> He Hk. split; [done|]. done.
  - intros s g meta w1 -> -> Hwf Ho Hk Hr. by apply (Hbody s g).
Qed.

Lemma wp_group_setid H n G start read w :
  env_ok w → srepr a (w_clock w 0%nat) w H → group_at H n G → start_ok start → in_i64 read →
  wp (group_setid st slot key n start read) w (λ r w', effect a w w' ∧
    found H n G w (λ s g _ w', regrouped a H s n
      (Some (mkSgroup (started s start) read (sg_cons g) (sg_pel g))) w w') r w').
Proof.
  intros Henv HH HG Hst Hread. apply wp_found; [done..|]. intros s g meta w1 HHs HGg Hwf Ho Hk Hr.
  pose proof (gstate_open _ _ _ _ _ _ _ Ho Hr) as Hg. apply wp_bind. eapply wp_save_group; [done|apply Ho|apply Ho|done|]. intros w2 Hg2. wp_op.
  rewrite (start_id_of _ _ _ _ _ _ Ho) in Hg2.
  destruct (gstate_group _ _ _ _ _ _ _ _ (mkSgroup (started s start) read (sg_cons g) (sg_pel g)) Ho Hg2) as [? ?].
  - destruct Hwf. constructor; cbn; try done. apply started_ok; [apply Ho|done].
  - intros k _. unfold upd. by destruct k; cbn.
  - split; [done|]. by exists tt.
Qed.

Lemma wp_group_destroy H n G w :
  env_ok w → srepr a (w_clock w 0%nat) w H → group_at H n G →
  wp (group_destroy st slot key n) w (λ r w', effect a w w' ∧
    match H, G with
    | None, _ => r = Ok NoStream ∧ skeeps a H w w'
    | Some _, None => r = Ok (Yes false) ∧ skeeps a H w w'
    | Some s, Some _ => r = Ok (Yes true) ∧ regrouped a H s n None w w'
    end).
Proof.
  intros Henv HH HG. unfold group_destroy. apply wp_try. apply (wp_stream_read st slot key H); [done..| |].
  { intros w' -> _ He _ _ Hk. by wp_op. }
  intros meta w1 Hne Ho'. destruct H as [s|]; [|done]. cbn [group_at] in HG.
  pose proof (sopened_gopened _ _ _ _ Ho') as Ho. apply wp_bind. destruct G as [g|]; cbn [grepr] in HG.
  - destruct HG as [Hr Hwf]. pose proof (gstate_open _ _ _ _ _ _ _ Ho Hr) as Hg.
    eapply wp_load_group; [done|done|]. cbn [sg_rows mbind option_bind]. rewrite decode_group by done.
    apply wp_bind. eapply (wp_delete_gkey st slot key Ha meta s w1 (go_width _ _ _ _ _ Ho) n _ _ _ KGroup); [done|done|].
    intros w2 Hg2. cbn [for_]. apply wp_bind.
    assert (Hv := go_width _ _ _ _ _ Ho).
    apply wp_bind. eapply wp_delete_tag; [done|apply Hv|set_solver|done|]. intros w3 Hg3.
    apply wp_bind. eapply wp_delete_tag; [done|apply Hv|set_solver|done|]. intros w4 Hg4.
    apply wp_bind. eapply wp_delete_tag; [done|apply Hv|set_solver|done|]. intros w5 Hg5. wp_op. wp_op.
    destruct (gstate_done (Some s) s w meta w1 n (λ _, None) w5 None Ho) as [? ?]; [|done|done].
    eapply gstate_ext; [|exact Hg5]. intros k _. unfold without_tag, upd. by destruct k.
  - pose proof (gstate_open _ _ _ _ _ _ _ Ho HG) as Hg.
    eapply wp_load_group; [done|done|]. cbn [mbind option_bind]. wp_op.
    split; [apply Ho|]. split; [done|apply Ho'].
Qed.

Lemma gopened_tick H s w meta w1 : gopened H s w meta w1 → gopened H s w meta (tick w1).
Proof.
  intros [Hh ? ? ? ? ? ? Henv He]. constructor; cbn; try done.
  - intros now Hn. destruct (Hh now Hn) as (meta' & [? ? ? ? ? ? ?] & ?). exists meta'. done.
  - apply (effect_env a w1); [apply effect_tick, Henv|done].
  - eapply effect_trans; [done|]. apply effect_tick, Henv.
Qed.

(** The operations that read the clock once before they start. *)
Lemma wp_found_now {T} H n G (body : Z → StreamMeta → Group → prog (result (Found T)))
    (yes : nat → stream → sgroup → T → world kvmap → Prop) w :
  env_ok w → srepr a (w_clock w 0%nat) w H → group_at H n G →
  (∀ s g meta w1 t, H = Some s → G = Some g → sgroup_wf g → gopened H s w meta w1 → clock_ok (w_clock w t) →
     gstate st slot key meta s w1 n (s_rest s) (sg_rows g) w1 →
     wp (body (w_clock w t) meta (group_of g)) w1 (λ r w', effect a w w' ∧ ∃ x, r = Ok (Yes x) ∧ yes t s g x w')) →
  wp (with_group st slot key n (λ meta g, now <- clock ;; body now meta g)) w (λ r w', effect a w w' ∧
    found H n G w (λ s g x w', ∃ t, yes t s g x w') r w').
Proof.
  intros Henv HH HG Hbody. apply wp_found; [done..|]. intros s g meta w1 HHs HGg Hwf Ho Hk Hr.
  destruct (eff_clock _ _ _ (go_effect _ _ _ _ _ Ho)) as [d Hd]. specialize (Hd 0%nat). rewrite Nat.add_0_r in Hd.
  assert (Hnow : clock_ok (w_clock w1 0%nat)) by (apply (go_env _ _ _ _ _ Ho)). wp_op. rewrite Hd in *.
  apply gopened_tick in Ho. eapply wp_conseq; [apply (Hbody s g); try done; by eapply gstate_open|].
  intros r w' (He & x & -> & Hy). split; [done|]. exists x. split; [done|]. by exists d.
Qed.

Lemma decode_consumer g c x :
  sgroup_wf g → sg_cons g !! c = Some x →
  Consumer_decode c (Consumer_encode (consumer_of (sg_pel g) c x)) = Some (consumer_of (sg_pel g) c x).
Proof.
  intros Hwf Hx. apply (Consumer_decode_encode (consumer_of (sg_pel g) c x)).
  eapply consumer_of_ok; [apply Hwf|done|apply Hwf].
Qed.

Lemma wp_consumer_create H n G c w :
  env_ok w → srepr a (w_clock w 0%nat) w H → group_at H n G → name_ok c →
  (∀ g, G = Some g → Z.of_nat (size (sg_cons g)) + 1 < 2 ^ 63) →
  wp (consumer_create st slot key n c) w (λ r w', effect a w w' ∧
    found H n G w (λ s g new w', ∃ t, new = bool_decide (sg_cons g !! c = None) ∧
      regrouped a H s n (Some (if sg_cons g !! c then g else
        mkSgroup (sg_last g) (sg_read g) (<[c := (w_clock w t, None)]> (sg_cons g)) (sg_pel g))) w w') r w').
Proof.
  intros Henv HH HG Hc Hcount. apply wp_found; [done..|]. intros s g meta w1 HHs HGg Hwf Ho Hk Hr.
  specialize (Hcount g HGg). destruct (eff_clock _ _ _ (go_effect _ _ _ _ _ Ho)) as [d Hd].
  pose proof (gstate_open _ _ _ _ _ _ _ Ho Hr) as Hg.
  apply wp_bind. eapply wp_load_consumer; [done..|]. cbn [sg_rows].
  destruct (sg_cons g !! c) as [x|] eqn:Ex; cbn [fmap option_fmap option_map mbind option_bind].
  - rewrite decode_consumer by done. wp_op.
    destruct (gstate_group _ _ _ _ _ _ _ _ g Ho Hg Hwf) as [? ?]; [done|]. split; [done|].
    exists false. split; [done|]. exists 0%nat. by rewrite bool_decide_false.
  - wp_op. assert (Hnow : clock_ok (w_clock w1 0%nat)) by (apply (go_env _ _ _ _ _ Ho)).
    apply gopened_tick in Ho. clear Hg. pose proof (gstate_open _ _ _ _ _ _ _ Ho Hr) as Hg.
    pose proof (go_width _ _ _ _ _ Ho) as Hv. pose proof (go_version _ _ _ _ _ Ho) as Hle.
    set (now := w_clock w1 0%nat) in *.
    apply wp_bind. eapply wp_save_consumer; [done..|]. intros w2 Hg2.
    apply wp_bind. eapply wp_save_group; [done..|]. intros w3 Hg3. wp_op.
    set (g' := mkSgroup (sg_last g) (sg_read g) (<[c := (now, None)]> (sg_cons g)) (sg_pel g)).
    assert (Hg' : g' = seen_in g c now) by (unfold g', seen_in; by rewrite Ex).
    destruct (gstate_group _ _ _ _ _ _ _ _ g' Ho Hg3) as [? Hre].
    + rewrite Hg'. by apply seen_wf.
    + intros k Hk'. unfold upd. cbn [Consumer_new k_name]. destruct k as [|o|i|o i]; cbn.
      * rewrite decide_True by done. do 2 f_equal. unfold set_consumers, group_of. cbn.
        rewrite map_size_insert_None by done. f_equal. rewrite wrap_id by (unfold in_width; lia). lia.
      * rewrite decide_False by done. destruct (decide (o = c)) as [->|Hne].
        -- rewrite decide_True, lookup_insert_eq by done. cbn. do 2 f_equal. unfold Consumer_new, consumer_of.
           f_equal. symmetry. apply owned_by_stranger; [apply Hwf|done].
        -- rewrite decide_False by congruence. by rewrite lookup_insert_ne by done.
      * by rewrite !decide_False by done.
      * by rewrite !decide_False by done.
    + split; [done|]. exists true. split; [done|]. exists d. rewrite bool_decide_true by done.
      split; [done|]. unfold g', now in Hre. by rewrite Hd, Nat.add_0_r in Hre.
Qed.

(** The pending entries without some of them. *)
Definition drop_ids (l : list (StreamId * (bytes * Z * Z))) (P : pel) : pel := foldl (λ P x, delete x.1 P) P l.

Lemma drop_ids_snoc l x P : drop_ids (l ++ [x]) P = delete x.1 (drop_ids l P).
Proof. unfold drop_ids. by rewrite foldl_app. Qed.

Lemma lookup_drop_ids l P i : drop_ids l P !! i = if decide (i ∈ l.*1) then None else P !! i.
Proof.
  induction l as [|x l IH] using rev_ind; [by rewrite decide_False by (by intros ?%elem_of_nil)|].
  rewrite drop_ids_snoc, fmap_app. cbn. destruct (decide (i = x.1)) as [->|Hne].
  - rewrite lookup_delete_eq. rewrite decide_True; [done|]. set_solver.
  - rewrite lookup_delete_ne, IH by done. repeat case_decide; set_solver.
Qed.

(** A consumer's entries taken out: what the others own is as it was. *)
Lemma drop_owned c l P :
  ids_sorted l → (∀ x, x ∈ l → P !! x.1 = Some x.2 ∧ owns c x) →
  Z.of_nat (size (drop_ids l P)) = Z.of_nat (size P) - len l ∧
  ∀ o, o ≠ c → owned_by (drop_ids l P) o = owned_by P o.
Proof.
  induction l as [|x l IH] using rev_ind; intros Hs Hl; [cbn; split; [lia|done]|].
  unfold ids_sorted in Hs. rewrite StronglySorted_app in Hs. destruct Hs as (Hx & Hs & _).
  destruct IH as [IHs IHo]; [done|intros y ?; apply Hl; set_solver|].
  destruct (Hl x) as [Hin Hown]; [set_solver|]. rewrite drop_ids_snoc.
  assert (E : drop_ids l P !! x.1 = Some x.2).
  { rewrite lookup_drop_ids, decide_False; [done|]. intros (y & Ey & Hy)%list_elem_of_fmap.
    assert (StreamId_lt y.1 x.1) as Hlt by (apply Hx; [done|by apply list_elem_of_singleton]).
    rewrite Ey in Hlt. id_order. }
  split.
  - rewrite (size_forget _ _ _ E), IHs, length_app. cbn. lia.
  - intros o Hne. rewrite <-IHo by done. apply (owned_by_forget _ _ _ c E); [exact Hown|done].
Qed.

Lemma wp_disown H s w meta w1 n g c Q :
  gopened H s w meta w1 → sgroup_wf g → name_ok c → gstate st slot key meta s w1 n (s_rest s) (sg_rows g) w1 →
  let own := filter (owns c) (id_list (sg_pel g)) in
  let p := rprefix Subkey a (c_version (st_base meta)) ++ owned_prefix n c in
  (∀ w', gstate st slot key meta s w1 n (s_rest s) (loop_rows g (drop_ids own (sg_pel g))) w' → Q (len own) w') →
  wp (fold_ (prefix_rows (w_kv w1) p) (disown_step st slot key meta n (length p)) 0) w1 Q.
Proof.
  intros Ho Hwf Hc Hg own p HQ.
  pose proof (go_width _ _ _ _ _ Ho) as Hv. pose proof (go_version _ _ _ _ _ Ho) as Hle.
  assert (Hids : pel_ids (sg_pel g)) by (intros i x E; by apply (sw_pel _ Hwf i x)).
  rewrite prefix_rows_sub_map. unfold p at 2. rewrite (scan_owned st slot key Ha meta s w1 Hv Hle n (s_rest s) (sg_rows g) w1 (sg_pel g) c) by done.
  fold own. rewrite <-list_fmap_compose.
  assert (Hown : ∀ x, x ∈ own → id_ok x.1 ∧ sg_pel g !! x.1 = Some x.2 ∧ owns c x).
  { intros [i x] [Hx Hin]%list_elem_of_filter. apply elem_of_id_list in Hin. split; [by eapply Hids|done]. }
  assert (Hlen : len own <= Z.of_nat (size (sg_pel g))).
  { unfold own. rewrite <-id_list_filter, length_id_list. pose proof (map_size_filter (owns c) (sg_pel g)). lia. }
  pose proof (sw_size _ Hwf) as Hsz.
  apply (wp_fold (λ l gone w', ∃ seen rest, own = seen ++ rest ∧
    l = (prod_map (app p) id ∘ λ x : StreamId * (bytes * Z * Z), (StreamId_to_bytes x.1, [])) <$> rest ∧
    gone = len seen ∧ gstate st slot key meta s w1 n (s_rest s) (loop_rows g (drop_ids seen (sg_pel g))) w')).
  - exists [], own. split_and!; try done. by apply gstate_loop.
  - intros r l gone w' (seen & [|x rest] & Eown & El & -> & Hgs); [done|].
    rewrite fmap_cons in El. apply cons_eq_inj in El as [-> ->].
    destruct (Hown x) as (Hi & Hin & Hx); [rewrite Eown; set_solver|].
    assert (E : drop_ids seen (sg_pel g) !! x.1 = Some x.2).
    { rewrite lookup_drop_ids, decide_False; [done|]. intros (y & Ey & Hy)%list_elem_of_fmap.
      pose proof (ids_sorted_filter (owns c) _ (id_list_sorted (sg_pel g))) as Hsort. fold own in Hsort.
      unfold ids_sorted in Hsort. rewrite Eown, StronglySorted_app in Hsort. destruct Hsort as (Hlt & _).
      specialize (Hlt y x Hy ltac:(by constructor)). rewrite Ey in Hlt. id_order. }
    unfold disown_step. cbn [fst compose prod_map]. rewrite drop_app_length, StreamId_from_bytes_to by done.
    apply wp_bind. eapply wp_delete_pending; [done..|]. intros w2 Hg2.
    unfold p. rewrite <-app_assoc. change (owned_prefix n c ++ StreamId_to_bytes x.1) with (gfield n (KOwned c x.1)).
    eapply wp_kvdelete_gkey; [done|by split|done|]. intros b w3 Hg3. wp_op.
    exists (seen ++ [x]), rest. split_and!.
    + by rewrite <-app_assoc.
    + done.
    + rewrite length_app. cbn. rewrite Eown, length_app in Hlen. cbn in Hlen.
      rewrite wrap_id by (unfold in_width; lia). lia.
    + rewrite drop_ids_snoc. eapply gstate_ext; [|exact Hg3]. intros k _. apply rows_forget. by rewrite E.
  - intros gone w' (seen & rest & Eown & El & -> & Hgs). destruct rest; [|done]. rewrite app_nil_r in Eown.
    subst seen. by apply HQ.
Qed.

Definition without_consumer (g : sgroup) (c : bytes) : sgroup :=
  mkSgroup (sg_last g) (sg_read g) (delete c (sg_cons g)) (filter (λ x, ¬ owns c x) (sg_pel g)).

Lemma drop_own_is_filter (P : pel) c :
  drop_ids (filter (owns c) (id_list P)) P = filter (λ x, ¬ owns c x) P.
Proof.
  apply map_eq. intros i. rewrite lookup_drop_ids, map_lookup_filter. destruct (P !! i) as [x|] eqn:E; cbn.
  - case_decide as Hin; case_guard as Ho; try done.
    + apply list_elem_of_fmap in Hin as ([j y] & -> & [Hy Hin]%list_elem_of_filter). cbn in *.
      apply elem_of_id_list in Hin. rewrite E in Hin. by simplify_eq.
    + destruct Hin. apply list_elem_of_fmap. exists (i, x). split; [done|]. apply list_elem_of_filter.
      split; [done|by apply elem_of_id_list].
  - by case_decide.
Qed.

Lemma without_consumer_wf g c : sgroup_wf g → sgroup_wf (without_consumer g c).
Proof.
  intros [? ? Hc Hp ? ?]. constructor; cbn; try done.
  - intros o x [_ E]%lookup_delete_Some. by apply Hc.
  - intros i x [E Ho]%map_lookup_filter_Some. destruct (Hp i x E) as (? & ? & ? & ?). split_and!; try done.
    rewrite lookup_delete_ne; [done|]. intros Ec. by apply Ho.
  - pose proof (map_size_filter (λ x, ¬ owns c x) (sg_pel g)). lia.
  - rewrite map_size_delete. destruct (sg_cons g !! c); cbn; lia.
Qed.

Lemma wp_consumer_delete H n G c w :
  env_ok w → srepr a (w_clock w 0%nat) w H → group_at H n G → name_ok c →
  wp (consumer_delete st slot key n c) w (λ r w', effect a w w' ∧
    found H n G w (λ s g gone w', gone = owned_by (sg_pel g) c ∧
      regrouped a H s n (Some (without_consumer g c)) w w') r w').
Proof.
  intros Henv HH HG Hc. apply wp_found; [done..|]. intros s g meta w1 HHs HGg Hwf Ho Hk Hr.
  pose proof (gstate_open _ _ _ _ _ _ _ Ho Hr) as Hg.
  pose proof (go_width _ _ _ _ _ Ho) as Hv. pose proof (go_version _ _ _ _ _ Ho) as Hle.
  set (own := filter (owns c) (id_list (sg_pel g))).
  assert (Elen : len own = owned_by (sg_pel g) c).
  { unfold own, owned_by. by rewrite <-id_list_filter, length_id_list. }
  destruct (drop_owned c own (sg_pel g)) as [Hsz Hoth].
  { apply ids_sorted_filter, id_list_sorted. }
  { intros [i x] [Hx Hin]%list_elem_of_filter. by apply elem_of_id_list in Hin. }
  unfold own in Hsz, Hoth. rewrite drop_own_is_filter in Hsz, Hoth. fold own in Hsz.
  apply wp_bind. eapply wp_load_consumer; [done..|]. cbn [sg_rows].
  destruct (sg_cons g !! c) as [x|] eqn:Ex; cbn [fmap option_fmap option_map mbind option_bind].
  - rewrite decode_consumer by done. eapply wp_unwrap; [by apply rows_ok|]. wp_op. apply wp_bind.
    eapply wp_disown; [done..|]. fold own. intros w2 Hg2. unfold own in Hg2. rewrite drop_own_is_filter in Hg2.
    apply wp_bind. eapply (wp_delete_gkey st slot key Ha meta s w1 Hv n _ _ _ (KConsumer c)); [done..|]. intros w3 Hg3.
    apply wp_bind. eapply wp_save_group; [done..|]. intros w4 Hg4. wp_op.
    destruct (gstate_group _ _ _ _ _ _ _ _ (without_consumer g c) Ho Hg4) as [? ?].
    + by apply without_consumer_wf.
    + intros k Hk'. unfold upd. destruct k as [|o|i|o i]; cbn.
      * rewrite decide_True by done. do 2 f_equal. unfold group_of, saturating_sub. cbn.
        assert (Hd : size (delete c (sg_cons g)) = pred (size (sg_cons g))) by (apply map_size_delete_Some; by exists x).
        assert (size (sg_cons g) ≠ 0%nat) by (intros E0%map_size_empty_inv; by rewrite E0 in Ex).
        f_equal; lia.
      * rewrite decide_False by done. destruct (decide (o = c)) as [->|Hne].
        -- by rewrite decide_True, lookup_delete_eq.
        -- rewrite decide_False by congruence. rewrite lookup_delete_ne by done.
           destruct (sg_cons g !! o); [|done]. cbn. unfold consumer_of. by rewrite Hoth.
      * by rewrite !decide_False by done.
      * by rewrite !decide_False by done.
    + split; [done|]. by exists (len own).
  - wp_op. assert (E0 : owned_by (sg_pel g) c = 0) by (apply owned_by_stranger; [apply Hwf|done]).
    assert (Eg : without_consumer g c = g).
    { unfold without_consumer. rewrite delete_id by done. rewrite <-drop_own_is_filter. fold own.
      destruct own as [|y l]; [by destruct g|]. cbn [length] in Elen. lia. }
    rewrite <-Eg in Hg, Hwf. destruct (gstate_group _ _ _ _ _ _ _ _ (without_consumer g c) Ho Hg Hwf) as [? ?]; [done|].
    split; [done|]. by exists 0.
Qed.

(** ** Acknowledging *)

Definition with_pel (g : sgroup) (P : pel) : sgroup := mkSgroup (sg_last g) (sg_read g) (sg_cons g) P.

Lemma with_pel_wf g P :
  sgroup_wf g → (∀ i x, P !! i = Some x → sg_pel g !! i = Some x) → (size P ≤ size (sg_pel g))%nat →
  sgroup_wf (with_pel g P).
Proof.
  intros [? ? ? Hp ? ?] Hsub Hs. constructor; cbn; try done; [|lia].
  intros i x E. by apply Hp, Hsub.
Qed.

Definition unacked (ids : list StreamId) (P : pel) : pel := filter (λ x, x.1 ∉ ids) P.

Lemma lookup_unacked ids P i : unacked ids P !! i = if decide (i ∈ ids) then None else P !! i.
Proof.
  unfold unacked. rewrite map_lookup_filter. destruct (P !! i) as [x|]; cbn.
  - case_decide; case_guard; done.
  - by case_decide.
Qed.

Lemma unacked_snoc ids i P : unacked (ids ++ [i]) P = delete i (unacked ids P).
Proof.
  apply map_eq. intros j. rewrite lookup_unacked. destruct (decide (j = i)) as [->|Hne].
  - rewrite lookup_delete_eq, decide_True; [done|set_solver].
  - rewrite lookup_delete_ne, lookup_unacked by done. repeat case_decide; set_solver.
Qed.

(** One ID, with [ids] done before it. *)
Lemma wp_ack_step H s w meta w1 n g ids owners i w2 Q :
  gopened H s w meta w1 → sgroup_wf g → id_ok i →
  let P := unacked ids (sg_pel g) in
  let state ids := (group_of (with_pel g (unacked ids (sg_pel g)))) in
  let acked ids := Z.of_nat (size (sg_pel g)) - Z.of_nat (size (unacked ids (sg_pel g))) in
  in_hand g P None owners → gstate st slot key meta s w1 n (s_rest s) (loop_rows g P) w2 →
  (∀ owners' w', in_hand g (unacked (ids ++ [i]) (sg_pel g)) None owners' →
     gstate st slot key meta s w1 n (s_rest s) (loop_rows g (unacked (ids ++ [i]) (sg_pel g))) w' →
     Q (state (ids ++ [i]), owners', acked (ids ++ [i])) w') →
  wp (ack_step st slot key meta n (state ids, owners, acked ids) i) w2 Q.
Proof.
  intros Ho Hwf Hi P state acked Hin Hg HQ. unfold ack_step.
  pose proof (go_width _ _ _ _ _ Ho) as Hv. pose proof (go_version _ _ _ _ _ Ho) as Hle.
  assert (Hsub : ∀ j x, P !! j = Some x → sg_pel g !! j = Some x).
  { intros j x. unfold P. rewrite lookup_unacked. by case_decide. }
  apply wp_bind. eapply wp_load_pending; [done..|]. cbn [loop_rows pel_rows]. rewrite unacked_snoc in HQ. fold P in HQ.
  destruct (P !! i) as [y|] eqn:Ey; cbn [fmap option_fmap option_map mbind option_bind].
  - pose proof (Hsub i y Ey) as Ey0. rewrite (decode_pending g i y (sw_pel _ Hwf) Ey0). cbn [p_consumer pending_of].
    destruct (sw_pel _ Hwf i y Ey0) as (_ & [x Hx] & _). pose proof (sw_cons _ Hwf _ _ Hx) as (Hname & _).
    apply wp_bind. eapply wp_delete_pending; [done..|]. intros w3 Hg3.
    apply wp_bind. eapply wp_delete_owned; [done..|]. intros w4 Hg4.
    destruct (owned_by_forget P i y y.1.1 Ey eq_refl) as [Hl Hsame].
    assert (Hg' : gstate st slot key meta s w1 n (s_rest s) (loop_rows g (delete i P)) w4).
    { eapply gstate_ext; [|exact Hg4]. intros k _. apply rows_forget. by rewrite Ey. }
    apply wp_bind. eapply (wp_other_loses st slot key Ha meta s w1 n _ _ g P (delete i P) None);
      [done|exact Hg'|done|done|done|done|done|auto|].
    intros owners' Ho'. wp_op. pose proof (size_forget P i y Ey) as Hsz.
    assert (size P ≤ size (sg_pel g))%nat by (apply map_size_filter). pose proof (sw_size _ Hwf).
    match goal with |- Q ?x _ => replace x with (group_of (with_pel g (delete i P)), owners',
      Z.of_nat (size (sg_pel g)) - Z.of_nat (size (delete i P))) end.
    + unfold state, acked in HQ. rewrite unacked_snoc in HQ. by apply HQ.
    + unfold state, acked, set_pending, group_of, saturating_sub. cbn. fold P. do 2 f_equal; [f_equal; lia|].
      rewrite wrap_id by (unfold in_width; lia). lia.
  - wp_op. assert (E : delete i P = P) by (by apply delete_id). rewrite E in HQ.
    specialize (HQ owners w2 Hin Hg). unfold state, acked in HQ. rewrite unacked_snoc in HQ. fold P in HQ.
    rewrite E in HQ. done.
Qed.

Lemma rows_acked g P others k :
  in_hand g P None others →
  upd (saved (values others) (loop_rows g P)) KGroup (Some (Group_encode (group_of (with_pel g P)))) k =
  sg_rows (with_pel g P) k.
Proof.
  intros Ho. unfold upd. destruct k as [|o|i|o i]; cbn [sg_rows].
  - by rewrite decide_True.
  - rewrite decide_False by done. by rewrite (saved_consumer _ _ _ _ _ Ho).
  - rewrite decide_False by done. by rewrite saved_rest.
  - rewrite decide_False by done. by rewrite saved_rest.
Qed.

Lemma wp_ack H n G ids w :
  env_ok w → srepr a (w_clock w 0%nat) w H → group_at H n G → Forall id_ok ids →
  wp (ack st slot key n ids) w (λ r w', effect a w w' ∧
    found H n G w (λ s g acked w',
      acked = Z.of_nat (size (sg_pel g)) - Z.of_nat (size (unacked ids (sg_pel g))) ∧
      regrouped a H s n (Some (with_pel g (unacked ids (sg_pel g)))) w w') r w').
Proof.
  intros Henv HH HG Hids. apply wp_found; [done..|]. intros s g meta w1 HHs HGg Hwf Ho Hk Hr.
  pose proof (gstate_open _ _ _ _ _ _ _ Ho Hr) as Hg.
  pose proof (go_width _ _ _ _ _ Ho) as Hv. pose proof (go_version _ _ _ _ _ Ho) as Hle.
  assert (E0 : unacked [] (sg_pel g) = sg_pel g).
  { apply map_eq. intros i. by rewrite lookup_unacked, decide_False by (by intros ?%elem_of_nil). }
  apply wp_bind. apply (wp_fold (λ l acc w', ∃ seen owners, ids = seen ++ l ∧
    acc = (group_of (with_pel g (unacked seen (sg_pel g))), owners,
           Z.of_nat (size (sg_pel g)) - Z.of_nat (size (unacked seen (sg_pel g)))) ∧
    in_hand g (unacked seen (sg_pel g)) None owners ∧
    gstate st slot key meta s w1 n (s_rest s) (loop_rows g (unacked seen (sg_pel g))) w')).
  - exists [], ∅. rewrite E0. split; [done|]. split; [f_equal; lia|]. split; [|by apply gstate_loop].
    constructor; [by intros ? ? ?%lookup_empty_Some|done].
  - intros i l acc w' (seen & owners & Eids & -> & Hin & Hgs).
    eapply wp_ack_step; [done..| |done|done|].
    { rewrite Forall_forall in Hids. apply Hids. rewrite Eids. set_solver. }
    intros owners' w2 Hin' Hg'. exists (seen ++ [i]), owners'. split; [by rewrite <-app_assoc|]. done.
  - intros acc w2 (seen & owners & Eids & -> & Hin & Hgs). rewrite app_nil_r in Eids. subst seen.
    set (P := unacked ids (sg_pel g)) in *.
    assert (HP : (size P ≤ size (sg_pel g))%nat) by (apply map_size_filter).
    assert (Hsub : ∀ j x, P !! j = Some x → sg_pel g !! j = Some x).
    { intros j x. unfold P. rewrite lookup_unacked. by case_decide. }
    pose proof (with_pel_wf g P Hwf Hsub HP) as Hwf'. destruct (Z.ltb_spec 0 (Z.of_nat (size (sg_pel g)) - Z.of_nat (size P))).
    + apply wp_bind. eapply (wp_save_others st slot key Ha meta s w1 Hv Hle n _ g); [done..|]. intros w3 Hg3.
      apply wp_bind. eapply wp_save_group; [done..|]. intros w4 Hg4. wp_op.
      destruct (gstate_group _ _ _ _ _ _ _ _ (with_pel g P) Ho Hg4 Hwf') as [? ?]; [intros k _; by apply rows_acked|].
      split; [done|]. eexists. split; [done|]. done.
    + wp_op. assert (EP : P = sg_pel g).
      { apply dec_stable. intros Hne. assert (Hss : P ⊂ sg_pel g).
        { split; [apply map_filter_subseteq|]. intros Hs. apply Hne.
          apply (anti_symm (⊆)); [apply map_filter_subseteq|done]. }
        apply map_subset_size in Hss. lia. }
      destruct (gstate_group _ _ _ _ _ _ _ _ (with_pel g P) Ho Hgs Hwf') as [? ?]; [rewrite EP; by intros []|].
      split; [done|]. eexists. split; [done|]. done.
Qed.

(** ** Reading new entries *)

Lemma i64_in_range x : in_i64 (i64 x).
Proof.
  unfold in_i64, I64_MIN, I64_MAX, signed. change (2 ^ (64 - 1)) with (2 ^ 63).
  pose proof (wrap_in_width 64 x) as Hw. unfold in_width in Hw.
  destruct (Z.ltb_spec (wrap 64 x) (2 ^ 63)); lia.
Qed.

Lemma next_read_range meta first g i : in_i64 (g_entries_read g) → in_i64 (next_read meta first g i).
Proof.
  intros Hg. assert (in_i64 0 ∧ in_i64 ENTRIES_READ_UNKNOWN) as [? ?].
  { unfold in_i64, I64_MIN, I64_MAX, ENTRIES_READ_UNKNOWN. lia. }
  unfold next_read, estimate_entries_read. repeat case_match; auto using i64_in_range.
Qed.

(** The stream's part of what a group has read is the metadata's. *)
Definition stream_meta (s : stream) : StreamMeta := meta_of (ComplexMeta_new TStream 0) s.

Definition first_of (s : stream) : StreamId := match s_entries s with [] => StreamId_MIN | e :: _ => e.1 end.

Definition lag_of (s : stream) (g : sgroup) : option Z := lag (stream_meta s) (first_of s) (group_of g).

Lemma next_read_meta H s w meta w1 first g i :
  gopened H s w meta w1 → next_read meta first g i = next_read (stream_meta s) first g i.
Proof. intros Ho. rewrite (go_meta _ _ _ _ _ Ho). done. Qed.

Lemma wp_first_id H s w meta w1 Q :
  gopened H s w meta w1 → Q (first_of s) w1 → wp (first_id st slot key meta) w1 Q.
Proof.
  intros Ho HQ. unfold first_id. unfold first_of in HQ.
  assert (Es : c_size (st_base meta) = len (s_entries s)) by (by rewrite (go_meta _ _ _ _ _ Ho)).
  rewrite Es. destruct (s_entries s) as [|e E] eqn:HE; cbn [length].
  - rewrite (proj2 (Z.eqb_eq _ _)) by done. by wp_op.
  - rewrite (proj2 (Z.eqb_neq _ _)) by lia. eapply wp_unwrap; [by apply entries_prefix_ok|]. wp_op.
    rewrite prefix_rows_sub_map, (walk_rows s) by (apply Ho). rewrite HE. cbn [fmap list_fmap]. wp_op.
    cbn [prod_map fst bare]. rewrite drop_app_length, StreamId_from_bytes_to; [done|].
    apply (wf_eids s (go_wf _ _ _ _ _ Ho)). rewrite HE. by constructor.
Qed.

(** One entry read by consumer [c]: the group moves on to it, and unless the
    read needs no acknowledgement it is pending for [c]. *)
Definition read_one (s : stream) (c : bytes) (noack : bool) (now : Z) (g : sgroup) (e : Entry) : sgroup :=
  let g1 := mkSgroup e.1 (next_read (stream_meta s) (first_of s) (group_of g) e.1) (sg_cons g) (sg_pel g) in
  if noack then g1 else made_active (taken_by g1 c e.1 (c, now, 1)) c now.

Lemma wp_new_step H s w meta w1 n g0 c g h noack now e w2 Q :
  gopened H s w meta w1 → sgroup_wf g0 → sgroup_wf g → name_ok c → id_ok e.1 → clock_ok now →
  Z.of_nat (size (sg_pel g)) + 1 < 2 ^ 63 →
  hand_of g0 c g h → gstate st slot key meta s w1 n (s_rest s) (loop_rows g0 (sg_pel g)) w2 →
  (∀ h' w', hand_of g0 c (read_one s c noack now g e) h' → sgroup_wf (read_one s c noack now g e) →
     gstate st slot key meta s w1 n (s_rest s) (loop_rows g0 (sg_pel (read_one s c noack now g e))) w' → Q h' w') →
  wp (new_step st slot key meta n (first_of s) noack now h e) w2 Q.
Proof.
  intros Ho Hwf0 Hwf Hc Hi Hnow Hs Hh Hg HQ. unfold new_step.
  pose proof (go_width _ _ _ _ _ Ho) as Hv. pose proof (go_version _ _ _ _ _ Ho) as Hle.
  rewrite (next_read_meta _ _ _ _ _ _ _ _ Ho). rewrite (ho_group _ _ _ _ Hh).
  set (g1 := mkSgroup e.1 (next_read (stream_meta s) (first_of s) (group_of g) e.1) (sg_cons g) (sg_pel g)).
  change (mkGroup e.1 _ _ _) with (group_of g1).
  assert (Hwf1 : sgroup_wf g1).
  { destruct Hwf. constructor; cbn; try done. by apply next_read_range. }
  assert (Hh1 : hand_of g0 c g1 (mkHand (group_of g1) (h_consumer h) (h_others h))).
  { destruct Hh as [_ Hx Hcons Hoth]. by constructor. }
  unfold read_one in HQ. fold g1 in HQ. destruct noack.
  - wp_op. by apply HQ.
  - eapply (wp_deliver st slot key Ha meta s w1 Hv Hle n _ g0 c g1); [done..|].
    intros h' w' Hh' Hg'. apply HQ; [done| |done]. apply active_wf; [|done].
    destruct (ho_own _ _ _ _ Hh1) as (z & Hz & _). unfold clock_ok in Hnow.
    apply taken_wf; try done; try (by exists z); cbn; width.
Qed.

(** The whole read. *)
Lemma wp_read_loop H s w meta w1 n g0 c g h noack now es w2 Q :
  gopened H s w meta w1 → sgroup_wf g0 → sgroup_wf g → name_ok c → (∀ e, e ∈ es → id_ok e.1) → clock_ok now →
  Z.of_nat (size (sg_pel g)) + len es < 2 ^ 63 →
  hand_of g0 c g h → gstate st slot key meta s w1 n (s_rest s) (loop_rows g0 (sg_pel g)) w2 →
  (∀ h' w', let g' := foldl (read_one s c noack now) g es in
     hand_of g0 c g' h' → sgroup_wf g' →
     gstate st slot key meta s w1 n (s_rest s) (loop_rows g0 (sg_pel g')) w' → Q h' w') →
  wp (fold_ es (new_step st slot key meta n (first_of s) noack now) h) w2 Q.
Proof.
  intros Ho Hwf0 Hwf Hc Hids Hnow Hs Hh Hg HQ. revert g h w2 Hwf Hs Hh Hg HQ.
  induction es as [|e es IH]; intros g h w2 Hwf Hs Hh Hg HQ; [apply wp_ret; by apply HQ|].
  cbn [fold_]. apply wp_bind. cbn [length] in Hs.
  eapply (wp_new_step H s w meta w1 n g0 c g); try done; [apply Hids; by constructor|lia|].
  intros h' w' Hh' Hwf' Hg'. apply (IH ltac:(intros; apply Hids; by constructor) (read_one s c noack now g e)); try done.
  unfold read_one. destruct noack; cbn; [lia|].
  destruct (sg_pel g !! e.1) eqn:E; [rewrite map_size_insert_Some by done|rewrite map_size_insert_None by done]; lia.
Qed.

(** ** Reading a consumer's history *)

(** The entry with an ID, if the stream still has it. *)
Definition fields_at (s : stream) (i : StreamId) : option (list bytes) :=
  (list_to_map (s_entries s) : gmap StreamId (list bytes)) !! i.

Lemma entry_ids_nodup s : stream_wf s → NoDup (s_entries s).*1.
Proof.
  intros Hs. pose proof (wf_sorted _ Hs) as Hsort. induction Hsort as [|e E Hsort IH He]; cbn; constructor; [|done].
  intros (e' & Ee & He')%list_elem_of_fmap. rewrite Forall_forall in He. specialize (He e' He').
  rewrite Ee in He. id_order.
Qed.

Lemma lookup_fields s i :
  stream_wf s → id_ok i → stream_rows s !! entry_field i = encode_fields <$> fields_at s i.
Proof.
  intros Hs Hi. unfold fields_at.
  destruct ((list_to_map (s_entries s) : gmap StreamId (list bytes)) !! i) as [f|] eqn:E.
  - apply elem_of_list_to_map in E; [|by apply entry_ids_nodup]. cbn. by apply lookup_entry.
  - apply not_elem_of_list_to_map in E. cbn. by apply lookup_no_entry.
Qed.

Lemma fields_at_ok s i f : stream_wf s → fields_at s i = Some f → fields_ok f.
Proof.
  intros Hs E. unfold fields_at in E. apply elem_of_list_to_map in E; [|by apply entry_ids_nodup]. by apply (wf_eok s Hs _ E).
Qed.

Lemma wp_get_entry {A} s meta w1 n R0 D w i (k : option bytes → prog A) Q :
  stream_wf s → id_ok i → gstate st slot key meta s w1 n R0 D w →
  wp (k (encode_fields <$> fields_at s i)) w Q →
  wp (ek <- unwrap (entry_key st slot key (c_version (st_base meta)) i) ;; o <- kvget ek ;; k o) w Q.
Proof.
  intros Hs Hi (R & [Hrw Hcl] & _) HQ. eapply wp_unwrap; [by apply entry_key_ok|]. wp_op.
  rewrite <-lookup_rows_at, (rw_rows _ _ _ _ _ Hrw).
  rewrite (lookup_fields (with_rest s R)); [exact HQ|by apply with_rest_wf|done].
Qed.

(** A history read delivers each entry that still exists once more. *)
Definition redeliver (s : stream) (now : Z) (P : pel) (i : StreamId) : pel :=
  match fields_at s i with
  | Some _ => alter (λ x, (x.1.1, now, u64 (x.2 + 1))) i P
  | None => P
  end.

Lemma owner_redeliver s now P i j : (λ x : bytes * Z * Z, x.1.1) <$> redeliver s now P i !! j = (λ x : bytes * Z * Z, x.1.1) <$> P !! j.
Proof.
  unfold redeliver. destruct (fields_at s i); [|done]. destruct (decide (i = j)) as [->|Hne].
  - rewrite lookup_alter_eq. by destruct (P !! j).
  - by rewrite lookup_alter_ne.
Qed.

Lemma owned_by_owner P P' c :
  (∀ j, (λ x : bytes * Z * Z, x.1.1) <$> P' !! j = (λ x : bytes * Z * Z, x.1.1) <$> P !! j) →
  owned_by P' c = owned_by P c ∧ size P' = size P.
Proof.
  intros HP. assert (Ed : dom P' = dom P).
  { apply set_eq. intros j. rewrite !elem_of_dom. specialize (HP j). destruct (P' !! j), (P !! j); naive_solver. }
  split; [|by rewrite <-!size_dom, Ed]. unfold owned_by. f_equal. rewrite <-!size_dom. f_equal.
  apply set_eq. intros j. rewrite !elem_of_dom. specialize (HP j). unfold is_Some.
  setoid_rewrite map_lookup_filter_Some. unfold owns. cbn.
  destruct (P' !! j), (P !! j); cbn in HP; naive_solver.
Qed.

Lemma rows_redeliver g0 P i now y k :
  P !! i = Some y → let x := (y.1.1, now, u64 (y.2 + 1)) in
  upd (loop_rows g0 P) (KPending i) (Some (Pending_encode (pending_of i x))) k =
  loop_rows g0 (alter (λ x, (x.1.1, now, u64 (x.2 + 1))) i P) k.
Proof.
  intros Ey x. unfold upd. destruct k as [|c|j|c j]; cbn; [done|done|..].
  - destruct (decide (j = i)) as [->|Hne].
    + rewrite decide_True by done. by rewrite lookup_alter_eq, Ey.
    + rewrite decide_False by congruence. by rewrite lookup_alter_ne by congruence.
  - destruct (decide (i = j)) as [->|Hne]; [rewrite lookup_alter_eq, Ey; done|by rewrite lookup_alter_ne].
Qed.

Lemma wp_history_step s meta w1 n g0 P now out i w2 Q :
  in_width 64 (c_version (st_base meta)) → c_version (st_base meta) <= w_last w1 →
  stream_wf s → id_ok i → pel_wf (sg_cons g0) P → is_Some (P !! i) →
  gstate st slot key meta s w1 n (s_rest s) (loop_rows g0 P) w2 →
  (∀ w', gstate st slot key meta s w1 n (s_rest s) (loop_rows g0 (redeliver s now P i)) w' →
     Q (out ++ [(i, fields_at s i)]) w') →
  wp (history_step st slot key meta n now out i) w2 Q.
Proof.
  intros Hv Hle Hs Hi HP [y Ey] Hg HQ. unfold history_step.
  eapply wp_get_entry; [done..|]. unfold redeliver in HQ.
  destruct (fields_at s i) as [f|] eqn:Ef; cbn [fmap option_fmap option_map].
  - apply wp_bind. eapply wp_load_pending; [done..|]. cbn [loop_rows pel_rows]. rewrite Ey.
    cbn [fmap option_fmap option_map mbind option_bind].
    rewrite (decode_pending (mkSgroup (sg_last g0) (sg_read g0) (sg_cons g0) P) i y) by done.
    cbn [p_id p_consumer p_deliveries pending_of]. apply wp_bind.
    eapply wp_put_pending; [done..|]. intros w3 Hg3. wp_op.
    rewrite decode_encode_fields by (by eapply fields_at_ok). apply HQ.
    eapply gstate_ext; [|exact Hg3]. intros k _. by apply rows_redeliver.
  - wp_op. by apply HQ.
Qed.
Lemma redeliver_wf cons s now P i :
  pel_wf cons P → clock_ok now → pel_wf cons (redeliver s now P i).
Proof.
  intros HP Hnow j x. unfold redeliver, clock_ok in *. destruct (fields_at s i); [|apply HP].
  intros [(-> & y & Hy & ->)|[_ E]]%lookup_alter_Some; [|by apply HP].
  destruct (HP j y Hy) as (? & ? & _). split; [done|]. split; [done|]. split; cbn; [width|apply wrap_in_width]; lia.
Qed.

(** The history a consumer may ask for: its pending entries after an ID. *)
Definition history (P : pel) (c : bytes) (after : StreamId) (count : option Z) : list StreamId :=
  let l := (filter (λ x, StreamId_lt after x.1) (filter (owns c) (id_list P))).*1 in
  match count with Some n => take (Z.to_nat n) l | None => l end.

Lemma elem_of_history P c after count i : i ∈ history P c after count → is_Some (P !! i).
Proof.
  intros Hi. assert (i ∈ (filter (λ x, StreamId_lt after x.1) (filter (owns c) (id_list P))).*1) as Hin.
  { unfold history in Hi. destruct count as [n|]; [|done]. by apply (subseteq_take (Z.to_nat n)). }
  apply list_elem_of_fmap in Hin as ([j x] & -> & Hin). rewrite !list_elem_of_filter, elem_of_id_list in Hin.
  exists x. tauto.
Qed.

Lemma wp_history_loop s meta w1 n g0 now ids P out w2 Q :
  in_width 64 (c_version (st_base meta)) → c_version (st_base meta) <= w_last w1 →
  stream_wf s → clock_ok now → pel_wf (sg_cons g0) P → (∀ i, i ∈ ids → is_Some (P !! i)) →
  gstate st slot key meta s w1 n (s_rest s) (loop_rows g0 P) w2 →
  (∀ w', let P' := foldl (redeliver s now) P ids in
     gstate st slot key meta s w1 n (s_rest s) (loop_rows g0 P') w' → pel_wf (sg_cons g0) P' →
     Q (out ++ ((λ i, (i, fields_at s i)) <$> ids)) w') →
  wp (fold_ ids (history_step st slot key meta n now) out) w2 Q.
Proof.
  intros Hv Hle Hs Hnow. revert P out w2. induction ids as [|i ids IH]; intros P out w2 HP Hin Hg HQ.
  { apply wp_ret. specialize (HQ w2). cbn in HQ. rewrite app_nil_r in HQ. auto. }
  cbn [fold_]. apply wp_bind. destruct (Hin i) as [x Hx]; [by constructor|].
  eapply (wp_history_step s meta w1 n g0 P); [done..|by apply (HP i x)|done|by exists x|done|]. intros w' Hg'.
  eapply IH; [by apply redeliver_wf| |done|].
  - intros j Hj. assert (is_Some (P !! j)) as [y Hy] by (apply Hin; by constructor).
    pose proof (owner_redeliver s now P i j) as E. rewrite Hy in E. by destruct (redeliver s now P i !! j).
  - intros w'' P' Hg'' HP'. rewrite <-app_assoc. by apply HQ.
Qed.

(** A walk below a prefix that starts after a place. *)
Lemma walk_from {X} (p : bytes) m (l : list (StreamId * X)) (f : StreamId * X → bytes) b
    (B : StreamId * X → Prop) `{∀ x, Decision (B x)} :
  rows_of (sub_map p m) = (λ x, (StreamId_to_bytes x.1, f x)) <$> l →
  (∀ x, x ∈ l → (b = [] ∨ blt b (StreamId_to_bytes x.1) = true) ↔ B x) →
  rows_from m p (bound_in p b) = (λ x, (p ++ StreamId_to_bytes x.1, f x)) <$> filter B l.
Proof.
  intros E HB. rewrite rows_from_sub_map, E. clear E. induction l as [|x l IH]; [done|].
  cbn [fmap list_fmap]. rewrite !filter_cons. cbn [fst]. pose proof (HB x ltac:(by constructor)) as Hx.
  specialize (IH ltac:(intros; apply HB; by constructor)).
  destruct (decide (b = [] ∨ blt b (StreamId_to_bytes x.1) = true)), (decide (B x)); try tauto;
    cbn [fmap list_fmap]; by rewrite ?IH.
Qed.

Lemma wp_read_history s meta w1 n g c after count now w2 Q :
  in_width 64 (c_version (st_base meta)) → c_version (st_base meta) <= w_last w1 →
  stream_wf s → clock_ok now → name_ok c → sgroup_wf g →
  id_ok after → (∀ n, count = Some n → 0 <= n) →
  gstate st slot key meta s w1 n (s_rest s) (loop_rows g (sg_pel g)) w2 →
  let ids := history (sg_pel g) c after count in
  (∀ w', let P' := foldl (redeliver s now) (sg_pel g) ids in
     gstate st slot key meta s w1 n (s_rest s) (loop_rows g P') w' → pel_wf (sg_cons g) P' →
     Q ((λ i, (i, fields_at s i)) <$> ids) w') →
  wp (read_history st slot key meta n c after count now) w2 Q.
Proof.
  intros Hv Hle Hs Hnow Hc Hwf Hafter Hcount Hg ids HQ. unfold read_history.
  pose proof (sw_pel _ Hwf) as HP. set (P := sg_pel g) in *. assert (Hids : pel_ids P) by (intros i x E; by apply (HP i x)).
  set (l := filter (λ x : StreamId * (bytes * Z * Z), StreamId_lt after x.1) (filter (owns c) (id_list P))).
  assert (Hl : ∀ x, x ∈ l → id_ok x.1).
  { intros [i x] Hx. unfold l in Hx. rewrite !list_elem_of_filter, elem_of_id_list in Hx. apply (Hids i x), Hx. }
  assert (Hlen : len l < 2 ^ 63).
  { unfold l. rewrite <-!id_list_filter, length_id_list. pose proof (sw_size _ Hwf) as Hsz. fold P in Hsz.
    pose proof (map_size_filter (owns c) P).
    pose proof (map_size_filter (λ x : StreamId * (bytes * Z * Z), StreamId_lt after x.1) (filter (owns c) P)). lia. }
  destruct (Z.eqb_spec (default U64_MAX count) 0) as [E0|E0].
  { destruct count as [m|]; [|done]. cbn in E0. subst m. wp_op. by apply (HQ w2). }
  eapply wp_unwrap; [by apply rows_ok|]. wp_op.
  rewrite (walk_from _ _ (filter (owns c) (id_list P)) (λ _, []) _ (λ x, StreamId_lt after x.1)).
  - fold l. erewrite (gather_take _ (λ r, match StreamId_from_bytes (drop (length (rprefix Subkey a
      (c_version (st_base meta)) ++ owned_prefix n c)) r.1) with Some i => i | None => StreamId_MIN end)).
    + cbn [app length]. rewrite Z.sub_0_r, take_want by (rewrite !length_fmap; lia).
      rewrite <-list_fmap_compose. rewrite (list_fmap_ext _ fst l).
      * eapply wp_history_loop; try done. intros i Hi. by eapply elem_of_history.
      * intros k x Hx%list_elem_of_lookup_2. cbn. by rewrite drop_app_length, StreamId_from_bytes_to by auto.
    + intros r (x & -> & Hx)%list_elem_of_fmap. cbn. by rewrite drop_app_length, StreamId_from_bytes_to by auto.
    + destruct count as [m|]; cbn in E0 |- *; [|done]. specialize (Hcount m eq_refl). lia.
  - apply (scan_owned st slot key Ha meta s w1 Hv Hle n (s_rest s) (loop_rows g P)); done.
  - intros [i x] [_ Hx%elem_of_id_list]%list_elem_of_filter. cbn.
    rewrite blt_StreamId, StreamId_ltb_spec by (done || by eapply Hids). pose proof (StreamId_to_bytes_ne after). tauto.
Qed.

(** ** Reading *)

(** The entries the group has not been handed. *)
Definition unread (s : stream) (last : StreamId) (count : option Z) : list Entry :=
  let l := filter (λ e : Entry, StreamId_lt last e.1) (s_entries s) in
  match count with Some n => take (Z.to_nat n) l | None => l end.

Lemma selected_unread s last count :
  stream_wf s → id_ok last →
  match StreamId_next last with
  | Some lo => id_ok lo ∧ selected lo StreamId_MAX count false (s_entries s) = unread s last count
  | None => unread s last count = []
  end.
Proof.
  intros Hs Hlast. destruct (StreamId_next last) as [lo|] eqn:E.
  - assert (Hlo : id_ok lo).
    { pose proof (id_next_spec last last Hlast Hlast) as Hn. rewrite E in Hn. apply Hn. }
    split; [done|]. unfold selected, unread.
    assert (Ef : filter (between lo StreamId_MAX) (s_entries s) = filter (λ e : Entry, StreamId_lt last e.1) (s_entries s)).
    { apply list_filter_iff'. intros e He. pose proof (wf_eids s Hs e He) as Hi. unfold between.
      pose proof (id_next_spec last e.1 Hlast Hi) as Hn. rewrite E in Hn. destruct Hn as [_ Hn]. id_order. }
    by rewrite Ef.
  - unfold unread. rewrite filter_none; [by destruct count; rewrite ?take_nil|].
    intros e He Hlt. pose proof (id_next_spec last e.1 Hlast (wf_eids s Hs e He)) as Hn. rewrite E in Hn. id_order.
Qed.

(** What a read answers, and the group it leaves. *)
Definition group_read (s : stream) (g : sgroup) (c : bytes) (from : ReadFrom) (count : option Z) (noack poll : bool)
    (now : Z) : option (list GroupEntry) * sgroup :=
  let seen := seen_in g c now in
  match from with
  | After after =>
      let ids := history (sg_pel g) c after count in
      (Some ((λ i, (i, fields_at s i)) <$> ids), with_pel seen (foldl (redeliver s now) (sg_pel g) ids))
  | New =>
      match unread s (sg_last g) count with
      | [] => (None, if poll then g else seen)
      | es => (Some ((λ e : Entry, (e.1, Some e.2)) <$> es), foldl (read_one s c noack now) seen es)
      end
  end.

Lemma owner_redelivered s now ids P j :
  (λ x : bytes * Z * Z, x.1.1) <$> foldl (redeliver s now) P ids !! j = (λ x : bytes * Z * Z, x.1.1) <$> P !! j.
Proof.
  revert P. induction ids as [|i ids IH]; intros P; [done|]. cbn. by rewrite IH, owner_redeliver.
Qed.

(** A history read moves no count: its own consumer's record is that of the
    pending entries it leaves. *)
Lemma hand_of_same g0 c g h P' :
  (∀ j, (λ x : bytes * Z * Z, x.1.1) <$> P' !! j = (λ x : bytes * Z * Z, x.1.1) <$> sg_pel g !! j) →
  hand_of g0 c g h → hand_of g0 c (with_pel g P') h.
Proof.
  intros HP [Hg (x & Hx & Hc) Hcons Ho].
  assert (Ho' : ∀ o, owned_by P' o = owned_by (sg_pel g) o) by (intros o; by apply owned_by_owner).
  constructor; cbn; try done.
  - rewrite Hg. unfold group_of, with_pel. cbn. by rewrite (proj2 (owned_by_owner _ _ c HP)).
  - exists x. split; [done|]. rewrite Hc. unfold consumer_of. by rewrite Ho'.
  - eapply in_hand_same; [|done]. auto.
Qed.

Lemma wp_save_read H s w meta w1 n g0 c g h x w2 :
  gopened H s w meta w1 → sgroup_wf g0 → sgroup_wf g → hand_of g0 c g h →
  gstate st slot key meta s w1 n (s_rest s) (saved (values (h_others h)) (loop_rows g0 (sg_pel g))) w2 →
  wp (save_consumer st slot key meta n (h_consumer h) ;;; save_group st slot key meta n (h_group h) ;;;
      Ret (Ok (Yes x))) w2
    (λ r w', effect a w w' ∧ ∃ y : option (list GroupEntry), r = Ok (Yes y) ∧ y = x ∧ regrouped a H s n (Some g) w w').
Proof.
  intros Ho Hwf0 Hwf Hh Hg. pose proof (ho_own _ _ _ _ Hh) as (z & Hz & Hc).
  pose proof (go_width _ _ _ _ _ Ho) as Hv. pose proof (go_version _ _ _ _ _ Ho) as Hle.
  apply wp_bind. eapply (wp_save_consumer st slot key Ha meta s w1 Hv Hle); [rewrite Hc; by apply (sw_cons _ Hwf c z)|done|].
  intros w3 Hg3. apply wp_bind. eapply wp_save_group; [done..|]. intros w4 Hg4. wp_op.
  destruct (gstate_group _ _ _ _ _ _ _ _ g Ho Hg4 Hwf) as [? ?]; [intros k _; by apply (rows_saved g0 c)|].
  split; [done|]. by exists x.
Qed.

Lemma wp_read_new H s w meta w1 n g c count noack now gr k Q :
  gopened H s w meta w1 → sgroup_wf g → sgroup_wf (seen_in g c now) → name_ok c → clock_ok now →
  (∀ n, count = Some n → 0 <= n) → Z.of_nat (size (sg_pel g)) + len (s_entries s) < 2 ^ 63 →
  hand_of g c (seen_in g c now) (mkHand gr k ∅) →
  gstate st slot key meta s w1 n (s_rest s) (loop_rows g (sg_pel g)) w1 →
  (unread s (sg_last g) count = [] → Q (None, gr, k) w1) →
  (∀ h w', let es := unread s (sg_last g) count in let g' := foldl (read_one s c noack now) (seen_in g c now) es in
     es ≠ [] → hand_of g c g' h → sgroup_wf g' →
     gstate st slot key meta s w1 n (s_rest s) (saved (values (h_others h)) (loop_rows g (sg_pel g'))) w' →
     Q (Some ((λ e : Entry, (e.1, Some e.2)) <$> es), h_group h, h_consumer h) w') →
  wp (read_new st slot key meta n count noack now gr k) w1 Q.
Proof.
  intros Ho Hwf Hwf1 Hc Hnow Hcount Hs Hh Hg HQ0 HQ. unfold read_new. set (es := unread s (sg_last g) count) in *.
  assert (Elast : g_last_id gr = sg_last g) by (by pose proof (ho_group _ _ _ _ Hh) as E; cbn in E; rewrite E).
  rewrite Elast. pose proof (selected_unread s (sg_last g) count (go_wf _ _ _ _ _ Ho) (sw_last _ Hwf)) as Hsel.
  pose proof (go_width _ _ _ _ _ Ho) as Hv. pose proof (go_version _ _ _ _ _ Ho) as Hle.
  apply wp_bind. match goal with |- wp _ _ ?Q' => assert (Hrest : Q' es w1) end.
  { assert (Hes : ∀ e, e ∈ es → e ∈ s_entries s).
    { intros e He. assert (e ∈ filter (λ e : Entry, StreamId_lt (sg_last g) e.1) (s_entries s)) as [_ ?]%list_elem_of_filter; [|done].
      unfold es, unread in He. destruct count as [m|]; [by eapply subseteq_take|done]. }
    assert (Hlen : (length es ≤ length (s_entries s))%nat).
    { unfold es, unread. pose proof (length_filter (λ e : Entry, StreamId_lt (sg_last g) e.1) (s_entries s)).
      destruct count; rewrite ?length_take; lia. }
    destruct es as [|e es'] eqn:Ees; [wp_op; by apply HQ0|]. rewrite <-Ees in *.
    apply wp_bind. eapply wp_first_id; [done|]. apply wp_bind.
    apply (wp_read_loop H s w meta w1 n g c (seen_in g c now)); try done.
    - intros e' He'. by apply (wf_eids s (go_wf _ _ _ _ _ Ho)), Hes.
    - cbn [sg_pel seen_in]. lia.
    - intros h' w' g' Hh' Hwf' Hg'. apply wp_bind.
      eapply (wp_save_others st slot key Ha meta s w1 Hv Hle); [exact Hwf|apply Hh'|done|]. intros w3 Hg3. wp_op.
      apply HQ; try done. by rewrite Ees. }
  destruct (StreamId_next (sg_last g)) as [lo|].
  - destruct Hsel as [Hlo Hsel]. apply (wp_scan st slot key Ha meta s); [apply Ho|apply Ho|apply Ho|done|apply id_ok_bounds|done|].
    by rewrite Hsel.
  - wp_op. fold es in Hsel. by rewrite Hsel in Hrest.
Qed.

Lemma with_history_wf s now g c ids :
  sgroup_wf g → sgroup_wf (seen_in g c now) → pel_wf (sg_cons g) (foldl (redeliver s now) (sg_pel g) ids) →
  sgroup_wf (with_pel (seen_in g c now) (foldl (redeliver s now) (sg_pel g) ids)).
Proof.
  intros Hwf [? ? ? _ ? ?] HP. destruct (owned_by_owner _ _ c (owner_redelivered s now ids (sg_pel g))) as [_ Esz].
  constructor; cbn [with_pel sg_last sg_read sg_cons sg_pel]; try done.
  - intros i x E. destruct (HP i x E) as (? & ? & ? & ?). split; [done|]. split; [|done].
    apply lookup_insert_is_Some'. by right.
  - rewrite Esz. apply Hwf.
Qed.

(** The conditions under which no counter of a group can overflow. *)
Definition room (H : option stream) (G : option sgroup) (k : Z) : Prop :=
  ∀ s g, H = Some s → G = Some g →
    Z.of_nat (size (sg_cons g)) + 1 < 2 ^ 63 ∧ Z.of_nat (size (sg_pel g)) + len (s_entries s) + k < 2 ^ 63.

Lemma wp_read_group H n G c from count noack poll w :
  env_ok w → srepr a (w_clock w 0%nat) w H → group_at H n G → name_ok c →
  (match from with After after => id_ok after | New => True end) →
  (∀ n, count = Some n → 0 <= n) → room H G 0 →
  wp (read_group st slot key n c from count noack poll) w (λ r w', effect a w w' ∧
    found H n G w (λ s g served w', ∃ t,
      let x := group_read s g c from count noack poll (w_clock w t) in
      served = x.1 ∧ regrouped a H s n (Some x.2) w w') r w').
Proof.
  intros Henv HH HG Hc Hfrom Hcount Hroom. unfold read_group. apply (wp_found_now H n G _ (λ t s g served w',
    let x := group_read s g c from count noack poll (w_clock w t) in
    served = x.1 ∧ regrouped a H s n (Some x.2) w w')); [done..|]. intros s g meta w1 t HHs HGg Hwf Ho Hnow Hg.
  destruct (Hroom s g HHs HGg) as [Hcons Hpel]. set (now := w_clock w t) in *.
  pose proof (go_width _ _ _ _ _ Ho) as Hv. pose proof (go_version _ _ _ _ _ Ho) as Hle.
  pose proof (seen_wf g c now Hwf Hnow Hc Hcons) as Hwf1.
  apply wp_bind. eapply (wp_consumer_seen st slot key Ha meta s _ n _ g g); [done..|].
  intros gr k Hh. cbn [fst snd].
  assert (Ek : k_name k = c) by (destruct (ho_own _ _ _ _ Hh) as (z & _ & Ez); cbn in Ez; by rewrite Ez).
  apply gstate_loop in Hg. destruct from as [|after].
  - apply wp_bind. apply (wp_read_new H s w meta w1 n g c count noack now gr k); try done; [lia|..].
    + intros E. cbn [andb]. rewrite bool_decide_true by done. destruct poll; cbn [andb].
      * wp_op. destruct (gstate_group _ _ _ _ _ _ _ _ g Ho Hg Hwf) as [? ?]; [by intros []|].
        split; [done|]. eexists. split; [done|]. cbn. fold now. by rewrite E.
      * eapply wp_conseq; [apply (wp_save_read H s w meta w1 n g c (seen_in g c now) (mkHand gr k ∅) None); try done|].
        intros r w' (He & y & -> & -> & Hre). split; [done|]. eexists. split; [done|]. cbn. fold now. by rewrite E.
    + intros h w' es g' Hne Hh' Hwf' Hg'. rewrite bool_decide_false by done. rewrite andb_false_r.
      eapply wp_conseq; [by apply (wp_save_read H s w meta w1 n g c g' h)|].
      intros r w'' (He & y & -> & -> & Hre). split; [done|]. eexists. split; [done|]. cbn. fold now.
      fold es. unfold g' in Hre. by destruct es.
  - apply wp_bind. apply wp_bind. rewrite Ek.
    apply (wp_read_history s meta w1 n g c after count now); try done; [apply Ho|].
    intros w' P' Hg' HP'. wp_op. rewrite andb_false_r.
    eapply wp_conseq; [apply (wp_save_read H s w meta w1 n g c (with_pel (seen_in g c now) P') (mkHand gr k ∅)); try done|].
    + by apply with_history_wf.
    + apply hand_of_same; [|done]. apply owner_redelivered.
    + intros r w'' (He & y & -> & -> & Hre). split; [done|]. eexists. split; [done|]. done.
Qed.

(** ** Claiming *)

(** The pending entry a claim leaves, from the times it was delivered. *)
Definition claimed (c : bytes) (opts : ClaimOpts) (now deliveries : Z) : bytes * Z * Z :=
  (c, default now (o_delivered_ms opts),
   match o_retry_count opts with
   | Some n => n
   | None => if o_just_id opts then deliveries else u64 (deliveries + 1)
   end).

(** Consumer [c] takes entry [i] and is active. *)
Definition takes (c : bytes) (now : Z) (g : sgroup) (i : StreamId) (x : bytes * Z * Z) : sgroup :=
  made_active (taken_by g c i x) c now.

(** One ID of a claim: an entry that is gone is no longer pending; one that was
    delivered too lately stays; one that is not pending is taken by force only. *)
Definition claim_one (s : stream) (c : bytes) (min_idle : Z) (opts : ClaimOpts) (now : Z)
    (acc : sgroup * list GroupEntry) (i : StreamId) : sgroup * list GroupEntry :=
  let '(g, out) := acc in
  let take_it f d := (takes c now g i (claimed c opts now d), out ++ [(i, if o_just_id opts then None else Some f)]) in
  match fields_at s i, sg_pel g !! i with
  | None, Some _ => (forgotten g i, out)
  | None, None => acc
  | Some f, Some x => if too_fresh min_idle now (pending_of i x) then acc else take_it f x.2
  | Some f, None => if o_force opts then take_it f 1 else acc
  end.

Record opts_ok (opts : ClaimOpts) : Prop := {
  oo_delivered t : o_delivered_ms opts = Some t → in_width 64 t;
  oo_retry m : o_retry_count opts = Some m → in_width 64 m;
  oo_last i : o_last_id opts = Some i → id_ok i
}.

Lemma claimed_ok c opts now d :
  opts_ok opts → clock_ok now → in_width 64 d → in_width 64 (claimed c opts now d).1.2 ∧ in_width 64 (claimed c opts now d).2.
Proof.
  intros [Hd Hr _] Hnow Hw. unfold claimed, clock_ok in *. split; cbn [fst snd].
  - destruct (o_delivered_ms opts) as [t|]; cbn; [by apply Hd|width].
  - destruct (o_retry_count opts) as [m|]; [by apply Hr|]. destruct (o_just_id opts); [done|]. by apply wrap_in_width.
Qed.

Lemma takes_wf g c now i x :
  sgroup_wf g → id_ok i → clock_ok now → is_Some (sg_cons g !! c) → x.1.1 = c → in_width 64 x.1.2 → in_width 64 x.2 →
  Z.of_nat (size (sg_pel g)) + 1 < 2 ^ 63 → sgroup_wf (takes c now g i x).
Proof. intros. apply active_wf; [|done]. apply taken_wf; try done. by subst. Qed.

Lemma size_takes g c now i x :
  Z.of_nat (size (sg_pel g)) <= Z.of_nat (size (sg_pel (takes c now g i x))) <= Z.of_nat (size (sg_pel g)) + 1.
Proof.
  cbn. destruct (sg_pel g !! i) eqn:E; [rewrite map_size_insert_Some by done|rewrite map_size_insert_None by done]; lia.
Qed.

Lemma wp_takes H s w meta w1 n g0 c g h opts now i (owned : bool) o d w2 Q :
  gopened H s w meta w1 → sgroup_wf g0 → sgroup_wf g → name_ok c → id_ok i → clock_ok now → opts_ok opts →
  Z.of_nat (size (sg_pel g)) + 1 < 2 ^ 63 → in_width 64 d →
  hand_of g0 c g h → gstate st slot key meta s w1 n (s_rest s) (loop_rows g0 (sg_pel g)) w2 →
  (if owned then ∃ y, sg_pel g !! i = Some y ∧ y.1.1 = o else sg_pel g !! i = None) →
  (∀ h' w', let g' := takes c now g i (claimed c opts now d) in
     hand_of g0 c g' (hand_active h' now) → sgroup_wf g' →
     Z.of_nat (size (sg_pel g')) <= Z.of_nat (size (sg_pel g)) + 1 →
     gstate st slot key meta s w1 n (s_rest s) (loop_rows g0 (sg_pel g')) w' → Q h' w') →
  wp (take_pending st slot key meta n
    (if owned then h else mkHand (set_pending (h_group h) (u64 (g_pending (h_group h) + 1))) (h_consumer h) (h_others h))
    (mkPending i o (claimed c opts now d).1.2 (claimed c opts now d).2) owned) w2 Q.
Proof.
  intros Ho Hwf0 Hwf Hc Hi Hnow Hopts Hs Hd Hh Hg Hheld HQ.
  pose proof (go_width _ _ _ _ _ Ho) as Hv. pose proof (go_version _ _ _ _ _ Ho) as Hle.
  destruct (claimed_ok c opts now d Hopts Hnow Hd) as [? ?].
  eapply (wp_take_pending st slot key Ha meta s w1 Hv Hle n _ g0 c g h i o owned); [done..|].
  intros h' w' Hh' Hg'. apply HQ; [by apply hand_of_active| |apply size_takes|done].
  destruct (ho_own _ _ _ _ Hh) as (z & Hz & _). apply takes_wf; try done.
Qed.

Lemma wp_claim_step H s w meta w1 n g0 c g h min_idle opts now out i w2 Q :
  gopened H s w meta w1 → sgroup_wf g0 → sgroup_wf g → name_ok c → id_ok i → clock_ok now → opts_ok opts →
  Z.of_nat (size (sg_pel g)) + 1 < 2 ^ 63 →
  hand_of g0 c g h → gstate st slot key meta s w1 n (s_rest s) (loop_rows g0 (sg_pel g)) w2 →
  (∀ h' w', let x := claim_one s c min_idle opts now (g, out) i in
     hand_of g0 c x.1 h' → sgroup_wf x.1 → Z.of_nat (size (sg_pel x.1)) <= Z.of_nat (size (sg_pel g)) + 1 →
     gstate st slot key meta s w1 n (s_rest s) (loop_rows g0 (sg_pel x.1)) w' → Q (h', x.2) w') →
  wp (claim_step st slot key meta n min_idle opts now (h, out) i) w2 Q.
Proof.
  intros Ho Hwf0 Hwf Hc Hi Hnow Hopts Hs Hh Hg HQ. unfold claim_step.
  pose proof (go_width _ _ _ _ _ Ho) as Hv. pose proof (go_version _ _ _ _ _ Ho) as Hle.
  eapply wp_get_entry; [apply Ho|done|done|]. apply wp_bind. eapply wp_load_pending; [done..|].
  cbn [loop_rows pel_rows]. unfold claim_one in HQ.
  destruct (fields_at s i) as [f|] eqn:Ef; destruct (sg_pel g !! i) as [y|] eqn:Ey;
    cbn [fmap option_fmap option_map mbind option_bind];
    rewrite ?(decode_pending g i y (sw_pel _ Hwf) Ey).
  - destruct (too_fresh min_idle now (pending_of i y)).
    { wp_op. apply HQ; cbn; done || lia. }
    rewrite decode_encode_fields by (by eapply fields_at_ok; [apply Ho|]).
    apply wp_bind. eapply (wp_takes H s w meta w1 n g0 c g h opts now i true y.1.1 y.2); try done.
    + by apply (sw_pel _ Hwf i y).
    + by exists y.
    + intros h' w' g' Hh' Hwf' Hsz Hg'. wp_op. by apply HQ.
  - destruct (o_force opts).
    2:{ wp_op. apply HQ; cbn; done || lia. }
    rewrite decode_encode_fields by (by eapply fields_at_ok; [apply Ho|]).
    apply wp_bind. eapply (wp_takes H s w meta w1 n g0 c g h opts now i false [] 1); try done.
    intros h' w' g' Hh' Hwf' Hsz Hg'. wp_op. by apply HQ.
  - apply wp_bind. eapply (wp_forget st slot key Ha meta s w1 Hv n _ g0 c g h i y); [done..|].
    intros h' w' Hh' Hg'. wp_op. apply HQ; try done; [by apply forgotten_wf|].
    cbn. rewrite (size_forget _ i y Ey). lia.
  - wp_op. apply HQ; cbn; done || lia.
Qed.

Lemma wp_claim_loop H s w meta w1 n g0 c min_idle opts now ids g h out w2 Q :
  gopened H s w meta w1 → sgroup_wf g0 → name_ok c → Forall id_ok ids → clock_ok now → opts_ok opts →
  sgroup_wf g → Z.of_nat (size (sg_pel g)) + len ids < 2 ^ 63 →
  hand_of g0 c g h → gstate st slot key meta s w1 n (s_rest s) (loop_rows g0 (sg_pel g)) w2 →
  (∀ h' w', let x := foldl (claim_one s c min_idle opts now) (g, out) ids in
     hand_of g0 c x.1 h' → sgroup_wf x.1 →
     gstate st slot key meta s w1 n (s_rest s) (loop_rows g0 (sg_pel x.1)) w' → Q (h', x.2) w') →
  wp (fold_ ids (claim_step st slot key meta n min_idle opts now) (h, out)) w2 Q.
Proof.
  intros Ho Hwf0 Hc Hids Hnow Hopts. revert g h out w2.
  induction Hids as [|i ids Hi Hids IH]; intros g h out w2 Hwf Hs Hh Hg HQ; [apply wp_ret; by apply HQ|].
  cbn [fold_]. apply wp_bind. cbn [length] in Hs.
  apply (wp_claim_step H s w meta w1 n g0 c g); try done; [lia|].
  intros h' w' x Hh' Hwf' Hsz Hg'. apply (IH x.1); try done; [lia|].
  intros h'' w'' y. unfold y. rewrite <-surjective_pairing. apply HQ.
Qed.

(** The group a claim starts from: [LASTID] may move it on. *)
Definition advanced (g : sgroup) (opts : ClaimOpts) : sgroup :=
  match o_last_id opts with
  | Some i => if StreamId_ltb (sg_last g) i then mkSgroup i (sg_read g) (sg_cons g) (sg_pel g) else g
  | None => g
  end.

Definition group_claim (s : stream) (g : sgroup) (c : bytes) (ids : list StreamId) (min_idle : Z) (opts : ClaimOpts)
    (now : Z) : sgroup * list GroupEntry :=
  foldl (claim_one s c min_idle opts now) (seen_in (advanced g opts) c now, []) ids.

Lemma advanced_wf g opts :
  sgroup_wf g → opts_ok opts →
  sgroup_wf (advanced g opts) ∧ sg_cons (advanced g opts) = sg_cons g ∧ sg_pel (advanced g opts) = sg_pel g.
Proof.
  intros Hwf [_ _ Hl]. unfold advanced. destruct (o_last_id opts) as [i|]; [|done].
  destruct (StreamId_ltb _ _); [|done]. split; [|done]. destruct Hwf. constructor; cbn; auto.
Qed.

Lemma wp_claim H n G c ids min_idle opts w :
  env_ok w → srepr a (w_clock w 0%nat) w H → group_at H n G → name_ok c →
  Forall id_ok ids → opts_ok opts → room H G (len ids) →
  wp (claim st slot key n c ids min_idle opts) w (λ r w', effect a w w' ∧
    found H n G w (λ s g out w', ∃ t,
      let x := group_claim s g c ids min_idle opts (w_clock w t) in
      out = x.2 ∧ regrouped a H s n (Some x.1) w w') r w').
Proof.
  intros Henv HH HG Hc Hids Hopts Hroom. unfold claim. apply (wp_found_now H n G _ (λ t s g out w',
    let x := group_claim s g c ids min_idle opts (w_clock w t) in
    out = x.2 ∧ regrouped a H s n (Some x.1) w w')); [done..|]. intros s g meta w1 t HHs HGg Hwf Ho Hnow Hg.
  destruct (Hroom s g HHs HGg) as [Hcons Hpel]. set (now := w_clock w t) in *.
  pose proof (go_width _ _ _ _ _ Ho) as Hv. pose proof (go_version _ _ _ _ _ Ho) as Hle.
  destruct (advanced_wf g opts Hwf Hopts) as (Hwfa & Ec & Ep).
  replace (match o_last_id opts with Some _ => _ | None => _ end) with (group_of (advanced g opts))
    by (unfold advanced; cbn; destruct (o_last_id opts); [destruct (StreamId_ltb _ _)|]; done).
  assert (Hwf1 : sgroup_wf (seen_in (advanced g opts) c now)) by (apply seen_wf; rewrite ?Ec; done).
  apply wp_bind. eapply (wp_consumer_seen st slot key Ha meta s _ n _ g (advanced g opts)); [done..|].
  intros gr k Hh. cbn [fst snd]. apply gstate_loop in Hg. apply wp_bind.
  apply (wp_claim_loop H s w meta w1 n g c min_idle opts now ids (seen_in (advanced g opts) c now)); try done.
  - cbn [sg_pel seen_in]. rewrite Ep. lia.
  - cbn [sg_pel seen_in]. by rewrite Ep.
  - intros h w' x Hh' Hwf' Hg'. cbn [fst snd]. apply wp_bind.
    eapply (wp_save_hand st slot key Ha meta s _ Hv Hle n _ g c x.1); [done..|]. intros w'' Hg''. wp_op.
    destruct (gstate_group _ _ _ _ _ _ _ _ x.1 Ho Hg'' Hwf') as [? ?]; [done|].
    split; [done|]. eexists. split; [done|]. done.
Qed.

(** ** Claiming what has been idle *)

(** A walk over the pending entries in ID order: how many it may still look at
    and still answer, the group so far, and the answer so far. *)
Record auto := mkAuto {
  au_attempts : Z;
  au_left : Z;
  au_group : sgroup;
  au_claimed : list GroupEntry;
  au_gone : list StreamId
}.

Definition auto_opts (just_id : bool) : ClaimOpts := mkClaimOpts None None false just_id None.

Definition auto_one (s : stream) (c : bytes) (min_idle : Z) (just_id : bool) (now : Z) (u : auto)
    (x : StreamId * (bytes * Z * Z)) : auto :=
  let attempts := au_attempts u - 1 in
  match fields_at s x.1 with
  | None => mkAuto attempts (au_left u - 1) (forgotten (au_group u) x.1) (au_claimed u) (au_gone u ++ [x.1])
  | Some f =>
      if too_fresh min_idle now (pending_of x.1 x.2)
      then mkAuto attempts (au_left u) (au_group u) (au_claimed u) (au_gone u)
      else mkAuto attempts (au_left u - 1) (takes c now (au_group u) x.1 (claimed c (auto_opts just_id) now x.2.2))
             (au_claimed u ++ [(x.1, if just_id then None else Some f)]) (au_gone u)
  end.

Fixpoint auto_run (s : stream) (c : bytes) (min_idle : Z) (just_id : bool) (now : Z)
    (l : list (StreamId * (bytes * Z * Z))) (u : auto) : auto * option StreamId :=
  match l with
  | [] => (u, None)
  | x :: l =>
      if (au_attempts u =? 0) || (au_left u =? 0) then (u, Some x.1)
      else auto_run s c min_idle just_id now l (auto_one s c min_idle just_id now u x)
  end.

Lemma auto_run_app s c min_idle just_id now l1 l2 u :
  auto_run s c min_idle just_id now (l1 ++ l2) u =
  let r := auto_run s c min_idle just_id now l1 u in
  match r.2 with Some _ => r | None => auto_run s c min_idle just_id now l2 r.1 end.
Proof.
  revert u. induction l1 as [|x l1 IH]; intros u; [done|]. cbn. destruct (_ || _); [done|]. apply IH.
Qed.

Record walks (g0 : sgroup) (c : bytes) (u : auto) (s : walking) : Prop := {
  wk_attempts : w_attempts s = au_attempts u;
  wk_left : w_left s = au_left u;
  wk_hand : hand_of g0 c (au_group u) (w_hand s);
  wk_claimed : w_claimed s = au_claimed u;
  wk_gone : w_gone s = au_gone u
}.

(** The walk's group is well formed, and no counter of it is near its end. *)
Definition auto_wf (u : auto) : Prop := sgroup_wf (au_group u) ∧ Z.of_nat (size (sg_pel (au_group u))) + 1 < 2 ^ 63.

Lemma wp_autoclaim_step H s w meta w1 n g0 c min_idle just_id now u W x w2 Q :
  gopened H s w meta w1 → sgroup_wf g0 → name_ok c → clock_ok now → auto_wf u → walks g0 c u W →
  sg_pel (au_group u) !! x.1 = Some x.2 →
  gstate st slot key meta s w1 n (s_rest s) (loop_rows g0 (sg_pel (au_group u))) w2 →
  (∀ W' w', let u' := auto_one s c min_idle just_id now u x in
     walks g0 c u' W' → auto_wf u' → (∀ j, j ≠ x.1 → sg_pel (au_group u') !! j = sg_pel (au_group u) !! j) →
     gstate st slot key meta s w1 n (s_rest s) (loop_rows g0 (sg_pel (au_group u'))) w' → Q W' w') →
  wp (autoclaim_step st slot key meta n min_idle just_id now W (pending_of x.1 x.2)) w2 Q.
Proof.
  intros Ho Hwf0 Hc Hnow [Hwf Hsz] [Ea El Hh Ec Eg] Hx Hg HQ. unfold autoclaim_step. cbn [p_id pending_of].
  pose proof (go_width _ _ _ _ _ Ho) as Hv. pose proof (go_version _ _ _ _ _ Ho) as Hle.
  destruct (sw_pel _ Hwf _ _ Hx) as (Hi & _ & _ & Hd).
  eapply wp_get_entry; [apply Ho|done|done|]. unfold auto_one in HQ. rewrite Ea, El, Ec, Eg.
  destruct (fields_at s x.1) as [f|] eqn:Ef; cbn [fmap option_fmap option_map].
  - change (mkPending x.1 x.2.1.1 x.2.1.2 x.2.2) with (pending_of x.1 x.2).
    destruct (too_fresh min_idle now (pending_of x.1 x.2)); [wp_op; apply HQ; done|].
    rewrite decode_encode_fields by (by eapply fields_at_ok; [apply Ho|]). apply wp_bind.
    eapply (wp_takes H s w meta w1 n g0 c (au_group u) (w_hand W) (auto_opts just_id) now x.1 true x.2.1.1 x.2.2);
      try done; [by exists x.2|].
    intros h' w' g' Hh' Hwf' _ Hg'. wp_op. apply HQ; try done.
    + split; [done|]. cbn. by rewrite map_size_insert_Some by (by eexists).
    + intros j Hj. cbn. by rewrite lookup_insert_ne.
  - apply wp_bind. eapply (wp_forget st slot key Ha meta s w1 Hv n _ g0 c (au_group u) (w_hand W) x.1 x.2); [done..|].
    intros h' w' Hh' Hg'. wp_op. apply HQ; try done.
    + split; [by apply forgotten_wf|]. cbn. rewrite (size_forget _ x.1 x.2 Hx). lia.
    + intros j Hj. cbn. by rewrite lookup_delete_ne.
Qed.

Lemma wp_autoclaim_batch H s w meta w1 n g0 c min_idle just_id now b u W w2 Q :
  gopened H s w meta w1 → sgroup_wf g0 → name_ok c → clock_ok now → auto_wf u → walks g0 c u W →
  ids_sorted b → (∀ x, x ∈ b → sg_pel (au_group u) !! x.1 = Some x.2) →
  gstate st slot key meta s w1 n (s_rest s) (loop_rows g0 (sg_pel (au_group u))) w2 →
  (∀ W' w', let r := auto_run s c min_idle just_id now b u in
     walks g0 c r.1 W' → auto_wf r.1 → (∀ j, j ∉ b.*1 → sg_pel (au_group r.1) !! j = sg_pel (au_group u) !! j) →
     gstate st slot key meta s w1 n (s_rest s) (loop_rows g0 (sg_pel (au_group r.1))) w' → Q (W', r.2) w') →
  wp (autoclaim_batch st slot key meta n min_idle just_id now
        ((λ x : StreamId * (bytes * Z * Z), (StreamId_to_bytes x.1, pending_of x.1 x.2)) <$> b) W) w2 Q.
Proof.
  intros Ho Hwf0 Hc Hnow Hu HW Hb. revert u W w2 Hu HW.
  induction Hb as [|x b Hb IH Hx]; intros u W w2 Hu HW Hin Hg HQ; [apply wp_ret; by apply HQ|].
  cbn [fmap list_fmap autoclaim_batch auto_run] in HQ |- *.
  rewrite (wk_attempts _ _ _ _ HW), (wk_left _ _ _ _ HW). destruct (_ || _); [wp_op; by apply HQ|].
  apply wp_bind. apply (wp_autoclaim_step H s w meta w1 n g0 c min_idle just_id now u W x); try done; [apply Hin; by constructor|].
  intros W' w' u' HW' Hu' Hsame Hg'. apply (IH u'); try done.
  - intros y Hy. rewrite Hsame; [apply Hin; by constructor|]. rewrite Forall_forall in Hx. specialize (Hx y Hy).
    intros E. rewrite E in Hx. id_order.
  - intros W'' w'' r HW'' Hu'' Hsame' Hg''. apply HQ; try done. intros j Hj. cbn in Hj. apply not_elem_of_cons in Hj as [? ?].
    rewrite Hsame' by done. by apply Hsame.
Qed.

(** The pending entries after a place. *)
Definition beyond (lo : option StreamId) (x : StreamId * (bytes * Z * Z)) : Prop :=
  match lo with Some i => StreamId_lt i x.1 | None => True end.

#[local] Instance beyond_dec lo x : Decision (beyond lo x).
Proof. unfold beyond. destruct lo; apply _. Defined.

(** With the entries up to the last of a batch dealt with, the walk goes on with
    the rest: what it re-reads is what was there. *)
Lemma walk_rest P P' lo b x rest :
  filter (beyond lo) (id_list P) = (b ++ [x]) ++ rest → (∀ j, j ∉ (b ++ [x]).*1 → P' !! j = P !! j) →
  filter (beyond (Some x.1)) (id_list P') = rest.
Proof.
  intros El Hsame. pose proof (ids_sorted_filter (beyond lo) _ (id_list_sorted P)) as Hsort. rewrite El in Hsort.
  unfold ids_sorted in Hsort. rewrite StronglySorted_app in Hsort. destruct Hsort as (Hlt & Hb & Hrest).
  rewrite StronglySorted_app in Hb. destruct Hb as (Hbx & _ & _).
  assert (Hle : ∀ y, y ∈ b ++ [x] → id_le y.1 x.1).
  { intros y [Hy| ->%list_elem_of_singleton]%elem_of_app; [|id_order]. specialize (Hbx y x Hy ltac:(by constructor)). id_order. }
  assert (Hout : ∀ j, StreamId_lt x.1 j → P' !! j = P !! j).
  { intros j Hj. apply Hsame. intros (y & -> & Hy)%list_elem_of_fmap. specialize (Hle y Hy). id_order. }
  apply ids_sorted_unique; [apply ids_sorted_filter, id_list_sorted|done|]. intros [j y].
  rewrite list_elem_of_filter, elem_of_id_list. cbn.
  assert (Hmem : (j, y) ∈ filter (beyond lo) (id_list P) ↔ (j, y) ∈ (b ++ [x]) ++ rest) by (by rewrite El).
  rewrite list_elem_of_filter, elem_of_id_list in Hmem. split.
  - intros [Hj Hy]. rewrite Hout in Hy by done. assert (Hlo : beyond lo (j, y)).
    { assert (Hx : x ∈ filter (beyond lo) (id_list P)) by (rewrite El; set_solver).
      apply list_elem_of_filter in Hx as [Hx _]. destruct lo as [i|]; [|done]. cbn in *. id_order. }
    pose proof (proj1 Hmem (conj Hlo Hy)) as Hj'. apply elem_of_app in Hj' as [Hb|]; [|done]. specialize (Hle _ Hb). cbn in Hle. id_order.
  - intros Hr. assert (Hj : StreamId_lt x.1 j) by (apply (Hlt x (j, y)); set_solver).
    split; [done|]. rewrite Hout by done. apply Hmem. set_solver.
Qed.

Definition place (lo : option StreamId) : bytes := match lo with Some i => StreamId_to_bytes i | None => [] end.

Lemma batch_rows H s w meta w1 n cons P lo g0 w2 :
  gopened H s w meta w1 → pel_wf cons P → (∀ i, lo = Some i → id_ok i) →
  gstate st slot key meta s w1 n (s_rest s) (loop_rows g0 P) w2 →
  let prefix := rprefix Subkey a (c_version (st_base meta)) ++ named STREAM_PENDING_TAG n in
  gather (λ r, id ← StreamId_from_bytes (drop (length prefix) r.1); p ← Pending_decode id r.2;
               Some (drop (length prefix) r.1, p)) BATCH
    (rows_from (w_kv w2) prefix (bound_in prefix (place lo))) [] =
  (λ x : StreamId * (bytes * Z * Z), (StreamId_to_bytes x.1, pending_of x.1 x.2)) <$>
    take 256 (filter (beyond lo) (id_list P)).
Proof.
  intros Ho HP Hlo Hg prefix. assert (Hids : pel_ids P) by (intros i x E; by apply (HP i x)).
  pose proof (go_width _ _ _ _ _ Ho) as Hv. pose proof (go_version _ _ _ _ _ Ho) as Hle.
  assert (Hl : ∀ x, x ∈ filter (beyond lo) (id_list P) → id_ok x.1 ∧
    Pending_decode x.1 (Pending_encode (pending_of x.1 x.2)) = Some (pending_of x.1 x.2)).
  { intros [i x] [_ Hx%elem_of_id_list]%list_elem_of_filter. destruct (HP i x Hx) as (? & _ & ? & ?). split; [done|].
    by apply (Pending_decode_encode (pending_of i x)). }
  rewrite (walk_from _ _ (id_list P) (λ x, Pending_encode (pending_of x.1 x.2)) _ (beyond lo)).
  - rewrite (gather_take _ (λ r, let place := drop (length prefix) r.1 in
      (place, default (mkPending StreamId_MIN [] 0 0) (id ← StreamId_from_bytes place; Pending_decode id r.2)))).
    + cbn [app length]. unfold BATCH. change (Z.to_nat (256 - Z.of_nat 0)) with 256%nat.
      rewrite <-list_fmap_compose, <-fmap_take.
      apply list_fmap_ext. intros j x Hx%list_elem_of_lookup_2. destruct (Hl x) as [Hi Ed]; [by eapply subseteq_take|].
      cbn [compose fst snd]. rewrite drop_app_length, StreamId_from_bytes_to by done. cbn. by rewrite Ed.
    + intros r (x & -> & Hx)%list_elem_of_fmap. destruct (Hl x Hx) as [Hi Ed]. cbn [fst snd].
      rewrite drop_app_length, StreamId_from_bytes_to by done. cbn. by rewrite Ed.
    + done.
  - apply (scan_pending st slot key Ha meta s w1 Hv Hle n (s_rest s) (loop_rows g0 P)); done.
  - intros [i x] Hx%elem_of_id_list. cbn [fst]. unfold place, beyond. destruct lo as [j|]; [|naive_solver].
    rewrite blt_StreamId, StreamId_ltb_spec by ((by apply Hlo) || (by eapply Hids)).
    pose proof (StreamId_to_bytes_ne j). cbn. tauto.
Qed.

Lemma wp_autoclaim_walk H s w meta w1 n g0 c min_idle just_id now fuel lo u W w2 Q :
  gopened H s w meta w1 → sgroup_wf g0 → name_ok c → clock_ok now → auto_wf u → walks g0 c u W →
  (∀ i, lo = Some i → id_ok i) →
  let l := filter (beyond lo) (id_list (sg_pel (au_group u))) in (length l < fuel)%nat →
  gstate st slot key meta s w1 n (s_rest s) (loop_rows g0 (sg_pel (au_group u))) w2 →
  (∀ W' w', let r := auto_run s c min_idle just_id now l u in
     walks g0 c r.1 W' → auto_wf r.1 →
     gstate st slot key meta s w1 n (s_rest s) (loop_rows g0 (sg_pel (au_group r.1))) w' →
     Q (W', default StreamId_MIN r.2) w') →
  wp (autoclaim_walk st slot key fuel meta n min_idle just_id now
        (rprefix Subkey a (c_version (st_base meta)) ++ named STREAM_PENDING_TAG n) (place lo) W) w2 Q.
Proof.
  intros Ho Hwf0 Hc Hnow. revert lo u W w2. induction fuel as [|fuel IH]; intros lo u W w2 Hu HW Hlo l Hfuel Hg HQ; [lia|].
  cbn [autoclaim_walk]. wp_op. cbv zeta. rewrite (batch_rows H s w meta w1 n _ (sg_pel (au_group u)) lo g0 w2 Ho (sw_pel _ (proj1 Hu)) Hlo Hg). fold l.
  assert (El : l = take 256 l ++ drop 256 l) by (by rewrite take_drop).
  destruct (take 256 l) as [|x0 b0] eqn:Eb using rev_ind.
  { assert (l = []) as E by (by destruct l). rewrite E in HQ. cbn. wp_op. by apply HQ. }
  clear IHb0. rename x0 into x. rename b0 into b.
  rewrite fmap_last, last_snoc. cbn [fmap option_fmap option_map].
  assert (Hin : ∀ y, y ∈ b ++ [x] → sg_pel (au_group u) !! y.1 = Some y.2).
  { intros [i y] Hy. assert (Hyl : (i, y) ∈ l) by (rewrite El; set_solver).
    apply list_elem_of_filter in Hyl as [_ Hyl]. by apply elem_of_id_list. }
  assert (Hsort : ids_sorted (b ++ [x])).
  { pose proof (ids_sorted_filter (beyond lo) _ (id_list_sorted (sg_pel (au_group u)))) as Hs. fold l in Hs.
    unfold ids_sorted in *. rewrite El, StronglySorted_app in Hs. apply Hs. }
  apply wp_bind.
  apply (wp_autoclaim_batch H s w meta w1 n g0 c min_idle just_id now (b ++ [x]) u); try done.
  intros W' w' r HW' Hu' Hsame Hg'. cbn [fst snd].
  pose proof (auto_run_app s c min_idle just_id now (b ++ [x]) (drop 256 l) u) as Er. rewrite <-El in Er. fold r in Er.
  cbv zeta in Er. destruct (r.2) as [next|] eqn:E2; rewrite Er in HQ.
  - wp_op. specialize (HQ W' w'). cbv zeta in HQ. rewrite E2 in HQ. by apply HQ.
  - pose proof (walk_rest _ (sg_pel (au_group r.1)) lo b x (drop 256 l) El Hsame) as Erest.
    apply (IH (Some x.1) r.1 W'); try done.
    + intros i [= <-]. apply (sw_pel _ (proj1 Hu) x.1 x.2), Hin. set_solver.
    + rewrite Erest. rewrite El, !length_app in Hfuel. cbn in Hfuel. lia.
    + rewrite Erest. exact HQ.
Qed.

(** What an [XAUTOCLAIM] does: the walk over the entries from [start] on. *)
Definition group_autoclaim (s : stream) (g : sgroup) (c : bytes) (min_idle : Z) (start : StreamId) (count : Z)
    (just_id : bool) (now : Z) : auto * option StreamId :=
  auto_run s c min_idle just_id now (filter (λ x, id_le start x.1) (id_list (sg_pel g)))
    (mkAuto (Z.min (count * 10) U64_MAX) count (seen_in g c now) [] []).

Lemma wp_autoclaim H n G c min_idle start count just_id fuel w :
  env_ok w → srepr a (w_clock w 0%nat) w H → group_at H n G → name_ok c → id_ok start → room H G 1 →
  (∀ g, G = Some g → (size (sg_pel g) < fuel)%nat) →
  wp (autoclaim st slot key fuel n c min_idle start count just_id) w (λ r w', effect a w w' ∧
    found H n G w (λ s g x w', ∃ t,
      let r := group_autoclaim s g c min_idle start count just_id (w_clock w t) in
      x = mkAutoClaimed (default StreamId_MIN r.2) (au_claimed r.1) (au_gone r.1) ∧
      regrouped a H s n (Some (au_group r.1)) w w') r w').
Proof.
  intros Henv HH HG Hc Hstart Hroom Hfuel. unfold autoclaim. apply (wp_found_now H n G _ (λ t s g x w',
    let r := group_autoclaim s g c min_idle start count just_id (w_clock w t) in
    x = mkAutoClaimed (default StreamId_MIN r.2) (au_claimed r.1) (au_gone r.1) ∧
    regrouped a H s n (Some (au_group r.1)) w w')); [done..|]. intros s g meta w1 t HHs HGg Hwf Ho Hnow Hg.
  destruct (Hroom s g HHs HGg) as [Hcons Hpel]. specialize (Hfuel g HGg). set (now := w_clock w t) in *.
  pose proof (go_width _ _ _ _ _ Ho) as Hv. pose proof (go_version _ _ _ _ _ Ho) as Hle.
  apply wp_bind. eapply (wp_consumer_seen st slot key Ha meta s _ n _ g g); [done..|].
  intros gr k Hh. cbn [fst snd]. apply gstate_loop in Hg. eapply wp_unwrap; [by apply rows_ok|].
  set (u := mkAuto (Z.min (count * 10) U64_MAX) count (seen_in g c now) [] []).
  assert (El : filter (beyond (StreamId_prev start)) (id_list (sg_pel g)) =
    filter (λ x : StreamId * (bytes * Z * Z), id_le start x.1) (id_list (sg_pel g))).
  { apply list_filter_iff'. intros [i x] Hx%elem_of_id_list. unfold beyond. cbn [fst].
    pose proof (id_prev_spec start i Hstart (proj1 (sw_pel _ Hwf i x Hx))) as Hp.
    destruct (StreamId_prev start); tauto. }
  change (match StreamId_prev start with Some p => StreamId_to_bytes p | None => [] end) with (place (StreamId_prev start)).
  apply wp_bind. apply (wp_autoclaim_walk H s w meta w1 n g c min_idle just_id now fuel (StreamId_prev start) u); try done.
  - split; [by apply seen_wf|]. cbn. lia.
  - intros i E. pose proof (id_prev_spec start start Hstart Hstart) as Hp. rewrite E in Hp. apply Hp.
  - cbn [au_group u seen_in sg_pel]. rewrite El. pose proof (length_id_list (sg_pel g)).
    pose proof (length_filter (λ x : StreamId * (bytes * Z * Z), id_le start x.1) (id_list (sg_pel g))). lia.
  - intros W' w' r HW' [Hwf' _] Hg'. cbn [fst snd]. apply wp_bind.
    assert (Er : group_autoclaim s g c min_idle start count just_id now = r) by (unfold r, group_autoclaim; cbn; by rewrite El).
    eapply (wp_save_hand st slot key Ha meta s _ Hv Hle n _ g c (au_group r.1)); [done|done|apply HW'|done|].
    intros w'' Hg''. wp_op. destruct (gstate_group _ _ _ _ _ _ _ _ (au_group r.1) Ho Hg'' Hwf') as [? ?]; [done|].
    split; [done|]. eexists. split; [done|]. rewrite Er. split; [|done].
    by rewrite (wk_claimed _ _ _ _ HW'), (wk_gone _ _ _ _ HW').
Qed.

(** ** Reading what is pending *)

Lemma wp_consumers H s w meta w1 n g w2 Q :
  gopened H s w meta w1 → sgroup_wf g → gstate st slot key meta s w1 n (s_rest s) (sg_rows g) w2 →
  Q (values (consumers_of g)) w2 → wp (consumers st slot key meta n) w2 Q.
Proof.
  intros Ho Hwf Hg HQ. unfold consumers.
  pose proof (go_width _ _ _ _ _ Ho) as Hv. pose proof (go_version _ _ _ _ _ Ho) as Hle.
  eapply wp_unwrap; [by apply rows_ok|]. wp_op. wp_op. rewrite prefix_rows_sub_map.
  rewrite (scan_consumers st slot key Ha meta s w1 Hv Hle n (s_rest s) (sg_rows g) w2 g) by (done || apply Hwf).
  match goal with |- Q ?l _ => replace l with (values (consumers_of g)); [done|] end.
  unfold values. rewrite <-list_fmap_compose.
  assert (Hl : ∀ r, r ∈ merge_sort name_le (map_to_list (consumers_of g)) → Consumer_decode r.1 (Consumer_encode r.2) = Some r.2).
  { intros [c k]. rewrite merge_sort_Permutation, elem_of_map_to_list. unfold consumers_of. rewrite map_lookup_imap.
    destruct (sg_cons g !! c) as [x|] eqn:E; [|done]. cbn. intros [= <-]. by apply decode_consumer. }
  induction (merge_sort name_le (map_to_list (consumers_of g))) as [|r l IH]; [done|].
  cbn [fmap list_fmap omap list_omap compose prod_map fst snd id]. rewrite drop_app_length, Hl by constructor.
  f_equal. apply IH. intros. apply Hl. by constructor.
Qed.

(** The counts of a group's pending entries: how many, the first and the last
    ID, and how many each consumer that has any owns. *)
Definition summary_of (g : sgroup) : PendingSummary :=
  mkSummary (Z.of_nat (size (sg_pel g)))
    (first ← head (id_list (sg_pel g)).*1; last ← last (id_list (sg_pel g)).*1; Some (first, last))
    ((λ c, (k_name c, k_pending c)) <$> filter (λ c, 0 < k_pending c) (values (consumers_of g))).

Lemma summary_of_none g : size (sg_pel g) = 0%nat → summary_of g = mkSummary 0 None [].
Proof.
  intros E. apply map_size_empty_inv in E as E'. unfold summary_of. rewrite E. f_equal.
  - by rewrite E'.
  - rewrite filter_none; [done|]. intros c (o & Ho)%elem_of_values. unfold consumers_of in Ho. rewrite map_lookup_imap in Ho.
    destruct (sg_cons g !! o); [|done]. cbn in Ho. injection Ho as <-. cbn.
    pose proof (owned_by_le (sg_pel g) o). lia.
Qed.

Lemma first_row {X} (p : bytes) (l : list (StreamId * X)) (f : StreamId * X → bytes) :
  (∀ x, x ∈ l → id_ok x.1) →
  match (λ x, (p ++ StreamId_to_bytes x.1, f x)) <$> l with
  | [] => None
  | r :: _ => StreamId_from_bytes (drop (length p) r.1)
  end = head l.*1.
Proof.
  intros Hl. destruct l as [|x l]; [done|]. cbn. rewrite drop_app_length. apply StreamId_from_bytes_to, Hl. by constructor.
Qed.

Lemma wp_pending_summary H n G w :
  env_ok w → srepr a (w_clock w 0%nat) w H → group_at H n G →
  wp (pending_summary st slot key n) w (λ r w', effect a w w' ∧
    found H n G w (λ s g x w', x = summary_of g ∧ regrouped a H s n (Some g) w w') r w').
Proof.
  intros Henv HH HG. apply wp_found; [done..|]. intros s g meta w1 HHs HGg Hwf Ho Hk Hr.
  pose proof (gstate_open _ _ _ _ _ _ _ Ho Hr) as Hg.
  pose proof (go_width _ _ _ _ _ Ho) as Hv. pose proof (go_version _ _ _ _ _ Ho) as Hle.
  destruct (gstate_group _ _ _ _ _ _ _ _ g Ho Hg Hwf) as [He Hre]; [done|]. cbn [g_pending group_of].
  destruct (Z.eqb_spec (Z.of_nat (size (sg_pel g))) 0) as [E0|E0].
  { wp_op. split; [done|]. eexists. split; [done|]. by rewrite summary_of_none by lia. }
  eapply wp_unwrap; [by apply rows_ok|]. wp_op. wp_op.
  set (p := rprefix Subkey a (c_version (st_base meta)) ++ named STREAM_PENDING_TAG n).
  assert (Hids : pel_ids (sg_pel g)) by (intros i x E; by apply (sw_pel _ Hwf i x)).
  pose proof (scan_pending st slot key Ha meta s w1 Hv Hle n (s_rest s) (sg_rows g) w1 (sg_pel g) Hg
    ltac:(done) Hids) as Escan. fold p in Escan.
  pose proof (rows_before_sub_map (w_kv w1) p []) as Edown. cbn in Edown. rewrite list_filter_true in Edown by auto.
  rewrite rev_alt in Edown. change (rev_append ?l []) with (reverse l) in Edown. rewrite Escan, <-fmap_reverse in Edown.
  rewrite Edown, prefix_rows_sub_map, Escan. apply wp_bind. eapply wp_consumers; [done..|]. wp_op.
  split; [done|]. eexists. split; [done|]. split; [|done]. unfold summary_of. f_equal.
  pose proof (first_row p (id_list (sg_pel g)) (λ x, Pending_encode (pending_of x.1 x.2))) as E1.
  pose proof (first_row p (reverse (id_list (sg_pel g))) (λ x, Pending_encode (pending_of x.1 x.2))) as E2.
  rewrite <-!list_fmap_compose. change (prod_map (app p) id ∘ _) with
    (λ x : StreamId * (bytes * Z * Z), (p ++ StreamId_to_bytes x.1, Pending_encode (pending_of x.1 x.2))).
  rewrite E1, E2, fmap_reverse, head_reverse; [done|..].
  - intros [i x]. rewrite elem_of_reverse, elem_of_id_list. apply Hids.
  - intros [i x]. rewrite elem_of_id_list. apply Hids.
Qed.

Definition idle_enough (min_idle now : Z) (x : StreamId * (bytes * Z * Z)) : Prop :=
  min_idle = 0 ∨ min_idle <= idle_ms now (pending_of x.1 x.2).

#[local] Instance idle_enough_dec min_idle now x : Decision (idle_enough min_idle now x).
Proof. unfold idle_enough. apply _. Defined.

Definition shown (now : Z) (x : StreamId * (bytes * Z * Z)) : Pending * Z :=
  (pending_of x.1 x.2, Z.max (idle_ms now (pending_of x.1 x.2)) 0).

Definition own_of (P : pel) (consumer : option bytes) : list (StreamId * (bytes * Z * Z)) :=
  match consumer with Some c => filter (owns c) (id_list P) | None => id_list P end.

(** The pending entries between two IDs that have been idle long enough, with
    their idle times, of one consumer or of all. *)
Definition range_of (P : pel) (start stop : StreamId) (count : Z) (consumer : option bytes) (min_idle now : Z)
    : list (Pending * Z) :=
  take (Z.to_nat count) (shown now <$> filter (idle_enough min_idle now)
    (filter (λ x, id_le x.1 stop) (filter (λ x, id_le start x.1) (own_of P consumer)))).

Lemma wp_pending_visit H s w meta w1 n g0 cons P consumer stop min_idle now count p f l out w2 Q :
  gopened H s w meta w1 → pel_wf cons P → gstate st slot key meta s w1 n (s_rest s) (loop_rows g0 P) w2 →
  (consumer = None → ∀ x, f x = Pending_encode (pending_of x.1 x.2)) →
  ids_sorted l → (∀ x, x ∈ l → P !! x.1 = Some x.2) → len out < count →
  Q (out ++ take (Z.to_nat (count - len out)) (shown now <$> filter (idle_enough min_idle now) (filter (λ x, id_le x.1 stop) l))) w2 →
  wp (pending_visit st slot key meta n consumer stop min_idle now count (length p)
        ((λ x : StreamId * (bytes * Z * Z), (p ++ StreamId_to_bytes x.1, f x)) <$> l) out) w2 Q.
Proof.
  intros Ho HP Hg Hf Hl. revert out.
  pose proof (go_width _ _ _ _ _ Ho) as Hv. pose proof (go_version _ _ _ _ _ Ho) as Hle.
  induction Hl as [|x l Hl IH Hx]; intros out Hin Hout HQ.
  { apply wp_ret. cbn in HQ. by rewrite take_nil, app_nil_r in HQ. }
  cbn [fmap list_fmap pending_visit fst snd]. pose proof (Hin x ltac:(by constructor)) as Ex.
  destruct (HP _ _ Ex) as (Hi & _ & ? & ?).
  assert (Ed : Pending_decode x.1 (Pending_encode (pending_of x.1 x.2)) = Some (pending_of x.1 x.2))
    by (by apply (Pending_decode_encode (pending_of x.1 x.2))).
  rewrite drop_app_length, StreamId_from_bytes_to by done. rewrite filter_cons in HQ.
  destruct (StreamId_ltb stop x.1) eqn:Es.
  { apply StreamId_ltb_spec in Es. wp_op. rewrite decide_False in HQ by id_order. rewrite (filter_none _ l) in HQ.
    - cbn in HQ. by rewrite take_nil, app_nil_r in HQ.
    - intros y Hy. rewrite Forall_forall in Hx. specialize (Hx y Hy). id_order. }
  apply StreamId_ltb_false in Es. rewrite decide_True, filter_cons in HQ by done.
  specialize (λ out, IH out ltac:(intros; apply Hin; by constructor)).
  apply wp_bind. match goal with |- wp _ _ ?Q' => assert (Hrest : Q' (Some (pending_of x.1 x.2)) w2) end.
  - cbn beta iota. destruct (negb (min_idle =? 0) && (idle_ms now (pending_of x.1 x.2) <? min_idle)) eqn:Ei.
    + rewrite decide_False in HQ; [by apply IH|]. unfold idle_enough. lia.
    + rewrite decide_True in HQ by (unfold idle_enough; lia).
      replace (Z.to_nat (count - len out)) with (S (Z.to_nat (count - len out - 1))) in HQ by lia.
      cbn [fmap list_fmap take] in HQ. rewrite length_app. cbn [length].
      destruct (Z.ltb_spec (Z.of_nat (length out + 1)) count) as [Hlt|Hge].
      * apply IH; rewrite length_app; cbn [length]; [lia|]. rewrite <-app_assoc. cbn [app].
        replace (Z.to_nat (count - Z.of_nat (length out + 1))) with (Z.to_nat (count - len out - 1)) by lia. done.
      * replace (Z.to_nat (count - len out - 1)) with 0%nat in HQ by lia. wp_op. done.
  - destruct consumer as [c|].
    + eapply wp_load_pending; [done..|]. cbn [loop_rows pel_rows]. rewrite Ex. cbn. by rewrite Ed.
    + wp_op. by rewrite Hf, Ed by done.
Qed.

Lemma range_of_none P start stop count consumer min_idle now :
  count = 0 ∨ StreamId_lt stop start ∨ (∃ c, consumer = Some c ∧ ∀ i x, P !! i = Some x → x.1.1 ≠ c) →
  range_of P start stop count consumer min_idle now = [].
Proof.
  intros [->|[Hlt|(c & -> & Hc)]]; unfold range_of, own_of; [done|..].
  - rewrite (filter_none (λ x : StreamId * (bytes * Z * Z), id_le x.1 stop)); [cbn; by rewrite take_nil|].
    intros x [Hx _]%list_elem_of_filter. id_order.
  - rewrite (filter_none (owns c)); [cbn; by rewrite take_nil|]. intros [i x] Hx%elem_of_id_list. by apply (Hc i x).
Qed.

Lemma wp_pending_walk {A} H s w meta w1 n g start stop count consumer min_idle now (k : list (Pending * Z) → prog A) Q :
  gopened H s w meta w1 → sgroup_wf g → gstate st slot key meta s w1 n (s_rest s) (sg_rows g) w1 →
  id_ok start → 0 < count → (∀ c, consumer = Some c → name_ok c) →
  wp (k (range_of (sg_pel g) start stop count consumer min_idle now)) w1 Q →
  wp (prefix <- unwrap (rows st slot key meta (match consumer with
                                               | Some c => owned_prefix n c
                                               | None => named STREAM_PENDING_TAG n
                                               end)) ;;
      found <- for_each_from prefix
                 (match StreamId_prev start with Some p => StreamId_to_bytes p | None => [] end) ;;
      out <- pending_visit st slot key meta n consumer stop min_idle now count (length prefix) found [] ;;
      k out) w1 Q.
Proof.
  intros Ho Hwf Hg Hstart Hc0 Hname HQ. set (P := sg_pel g) in *.
  assert (Hids : pel_ids P) by (intros i x E; by apply (sw_pel _ Hwf i x)).
  pose proof (go_width _ _ _ _ _ Ho) as Hv. pose proof (go_version _ _ _ _ _ Ho) as Hle.
  eapply wp_unwrap; [by apply rows_ok|]. wp_op.
  set (f := λ x : StreamId * (bytes * Z * Z), match consumer with Some _ => [] | None => Pending_encode (pending_of x.1 x.2) end).
  assert (Hown : ∀ x, x ∈ own_of P consumer → P !! x.1 = Some x.2).
  { intros [i x] Hx. unfold own_of in Hx. destruct consumer; [apply list_elem_of_filter in Hx as [_ Hx]|]; by apply elem_of_id_list in Hx. }
  rewrite (walk_from _ _ (own_of P consumer) f _ (λ x, id_le start x.1)).
  - apply wp_bind. apply (wp_pending_visit H s w meta w1 n g (sg_cons g) P); try done; [apply Hwf|by apply gstate_loop|..].
    + intros ->. done.
    + apply ids_sorted_filter. unfold own_of. destruct consumer; [apply ids_sorted_filter|]; apply id_list_sorted.
    + intros x [_ Hx]%list_elem_of_filter. auto.
    + cbn [app length]. by rewrite Z.sub_0_r.
  - unfold own_of, f. destruct consumer as [c|].
    + apply (scan_owned st slot key Ha meta s w1 Hv Hle n (s_rest s) (sg_rows g)); auto.
    + apply (scan_pending st slot key Ha meta s w1 Hv Hle n (s_rest s) (sg_rows g)); auto.
  - intros x Hx. pose proof (id_prev_spec start x.1 Hstart (Hids _ _ (Hown x Hx))) as Hp.
    destruct (StreamId_prev start) as [q|]; [|naive_solver]. destruct Hp as [Hq Hp].
    rewrite blt_StreamId, StreamId_ltb_spec by (done || by eapply Hids, Hown). pose proof (StreamId_to_bytes_ne q). tauto.
Qed.

Lemma wp_pending_range H n G start stop count consumer min_idle w :
  env_ok w → srepr a (w_clock w 0%nat) w H → group_at H n G → id_ok start → 0 <= count →
  (∀ c, consumer = Some c → name_ok c) →
  wp (pending_range st slot key n start stop count consumer min_idle) w (λ r w', effect a w w' ∧
    found H n G w (λ s g x w', ∃ t, x = range_of (sg_pel g) start stop count consumer min_idle (w_clock w t) ∧
      regrouped a H s n (Some g) w w') r w').
Proof.
  intros Henv HH HG Hstart Hcount Hname. unfold pending_range. apply (wp_found_now H n G _ (λ t s g x w',
    x = range_of (sg_pel g) start stop count consumer min_idle (w_clock w t) ∧
    regrouped a H s n (Some g) w w')); [done..|]. intros s g meta w1 t HHs HGg Hwf Ho Hnow Hg.
  destruct (gstate_group _ _ _ _ _ _ _ _ g Ho Hg Hwf) as [He Hre]; [done|]. set (now := w_clock w t) in *.
  set (P := sg_pel g) in *.
  assert (Hempty : ∀ r, range_of P start stop count consumer min_idle now = [] → r = Ok (Yes []) →
    wp (Ret r) w1 (λ r w', effect a w w' ∧ ∃ x, r = Ok (Yes x) ∧
      x = range_of P start stop count consumer min_idle now ∧ regrouped a H s n (Some g) w w')).
  { intros r E ->. wp_op. split; [done|]. eexists. split; [done|]. by rewrite E. }
  destruct ((count =? 0) || StreamId_ltb stop start) eqn:E0.
  { apply Hempty; [|done]. apply range_of_none. apply orb_true_iff in E0 as [?%Z.eqb_eq|?%StreamId_ltb_spec]; auto. }
  assert (Hc0 : 0 < count) by lia. apply wp_bind.
  match goal with |- wp _ _ ?Q' => assert (Hknown : ∀ b, (b = false → range_of P start stop count consumer min_idle now = []) → Q' b w1) end.
  { intros [] Hb; cbn [negb]; [clear Hb|by apply Hempty; auto].
    apply (wp_pending_walk H s w meta w1 n g); try done. wp_op. split; [done|]. by eexists. }
  destruct consumer as [c|]; [|wp_op; by apply Hknown].
  apply wp_bind. eapply (wp_load_consumer st slot key Ha meta s w1); [by apply Hname|done|]. wp_op. apply Hknown. cbn [sg_rows]. intros Hb.
  apply range_of_none. right. right. exists c. split; [done|]. intros i x Ex <-.
  destruct (sw_pel _ Hwf i x Ex) as (_ & [y Hy] & _). rewrite Hy in Hb. cbn [fmap option_fmap option_map mbind option_bind] in Hb.
  rewrite decode_consumer in Hb by done. by apply bool_decide_eq_false in Hb as [].
Qed.

(** ** Moving the stream's last ID *)

(** What an [XSETID] refuses, and the stream it makes. *)
Definition setid_refused (s : stream) (id : StreamId) (added : option Z) : option SetIdRefusal :=
  if decide (StreamId_lt id (s_deleted s)) then Some BelowMaxDeleted
  else match last (s_entries s) with
       | None => None
       | Some e =>
           if decide (StreamId_lt id e.1) then Some BelowTop
           else match added with
                | Some n => if decide (n < len (s_entries s)) then Some AddedBelowLength else None
                | None => None
                end
       end.

Definition setid_to (s : stream) (id : StreamId) (added : option Z) (deleted : option StreamId) : stream :=
  mkStream (s_entries s) id
    (match deleted with Some d => if decide (d ≠ StreamId_MIN) then d else s_deleted s | None => s_deleted s end)
    (default (s_added s) added) (s_rest s).

Lemma setid_wf s id added deleted :
  stream_wf s → setid_refused s id added = None → id_ok id →
  (∀ n, added = Some n → in_width 64 n) → (∀ d, deleted = Some d → id_ok d) → stream_wf (setid_to s id added deleted).
Proof.
  intros Hs Href Hid Hn Hd. unfold setid_refused in Href. case_decide; [done|]. constructor; cbn; try apply Hs; try done.
  - intros e He. destruct (wf_ids _ Hs e He) as (? & _ & ?). split; [done|]. split; [|done].
    destruct (last (s_entries s)) as [top|] eqn:El; [|apply last_None in El; rewrite El in He; by apply elem_of_nil in He].
    case_decide as Htop; [done|]. apply last_Some in El as [E El]. pose proof (wf_sorted _ Hs) as Hsort.
    rewrite El in Hsort, He. apply StronglySorted_app in Hsort as (Hlt & _).
    apply elem_of_app in He as [He| ->%list_elem_of_singleton]; [|id_order].
    specialize (Hlt e top He ltac:(by constructor)). id_order.
  - destruct deleted as [d|]; [case_decide; auto|]; apply Hs.
  - destruct added as [n|]; cbn; [auto|apply Hs].
Qed.

(** The newest entry of a stream that is there. *)
Lemma wp_last_entry_live meta s w Q :
  sholds a (w_clock w 0%nat) w meta s → Q (Ok (last (s_entries s))) (tick w) → wp (last_entry st slot key) w Q.
Proof.
  intros Hm HQ. pose proof (sh_row _ _ _ _ _ Hm) as (row & Hrow & Hl & Hd). unfold last_entry, range.
  apply wp_try, wp_try. eapply wp_read_live; [done..|]. destruct id_ok_bounds.
  apply wp_bind. apply (wp_scan st slot key Ha meta s); try done; try apply Hm.
  - pose proof (sholds_widths _ _ _ _ _ Hm) as [? _]. lia.
  - intros n [= <-]. lia.
  - wp_op. wp_op. rewrite selected_last; [done|apply Hm|]. apply wf_eids, Hm.
Qed.

Definition setid_done (s : stream) (i : StreamId) (added : option Z) (deleted : option StreamId) (w : world kvmap)
    (r : result (option (unit + SetIdRefusal))) (w' : world kvmap) : Prop :=
  match setid_refused s i added with
  | Some e => r = Ok (Some (inr e)) ∧ skeeps a (Some s) w w'
  | None => r = Ok (Some (inl tt)) ∧ smakes a (Some s) (Some (setid_to s i added deleted)) w w'
  end.

Lemma wp_setid_refuse s i added deleted e meta w w1 :
  sopened st slot key (Some s) w meta w1 → setid_refused s i added = Some e →
  wp (Ret (Ok (Some (inr e)))) w1 (λ r w', effect a w w' ∧ setid_done s i added deleted w r w').
Proof. intros Ho E. wp_op. unfold setid_done. rewrite E. split; [apply Ho|]. split; [done|apply Ho]. Qed.

Lemma wp_setid_write s i added deleted meta w w1 :
  sopened st slot key (Some s) w meta w1 → setid_refused s i added = None → id_ok i →
  (∀ n, added = Some n → in_width 64 n) → (∀ d, deleted = Some d → id_ok d) →
  wp (stream_write_meta st slot key (mkStreamMeta (st_base meta) i
        (match deleted with
         | Some d => if decide (d ≠ StreamId_MIN) then d else st_max_deleted_id meta
         | None => st_max_deleted_id meta
         end) (default (st_entries_added meta) added)) ;;; Ret (Ok (Some (inl tt)))) w1
    (λ r w', effect a w w' ∧ setid_done s i added deleted w r w').
Proof.
  intros Ho Href Hi Hadd Hdel. pose proof (so_wf _ _ _ _ _ _ _ Ho) as Hs. cbn [current from_option id] in Hs.
  pose proof (so_meta _ _ _ _ _ _ _ Ho) as Em. cbn [current from_option id] in Em.
  pose proof (setid_wf s i added deleted Hs Href Hi Hadd Hdel) as Hwf'. apply wp_bind.
  match goal with |- wp (stream_write_meta _ _ _ ?m) _ _ => replace m with (meta_of (st_base meta) (setid_to s i added deleted)) end.
  - apply (wp_stream_write_meta st slot key (Some s) meta (setid_to s i added deleted) w w1); try done; try apply Ho.
    + pose proof (so_rows _ _ _ _ _ _ _ Ho) as Er. cbn [current from_option id] in Er.
      change (stream_rows (setid_to s i added deleted)) with (stream_rows s).
      rewrite <-Er. apply rows_written_refl, Ho.
    + intros w' He Hm. wp_op. split; [done|]. unfold setid_done. by rewrite Href.
  - rewrite Em. by destruct deleted, added.
Qed.

Lemma wp_set_last_id H i added deleted w :
  env_ok w → (∀ t, srepr a (w_clock w t) w H) → id_ok i →
  (∀ n, added = Some n → in_width 64 n) → (∀ d, deleted = Some d → id_ok d) →
  wp (set_last_id st slot key i added deleted) w (λ r w', effect a w w' ∧
    match H with
    | None => r = Ok None ∧ skeeps a H w w'
    | Some s => setid_done s i added deleted w r w'
    end).
Proof.
  intros Henv HH Hi Hadd Hdel. unfold set_last_id. apply wp_try. apply (wp_stream_read st slot key H); [done..| |].
  { intros w' -> _ He _ _ Hk. by wp_op. }
  intros meta w1 Hne Ho. destruct H as [s|]; [|done].
  pose proof (so_meta _ _ _ _ _ _ _ Ho) as Em. cbn [current from_option id] in Em.
  assert (Ed : st_max_deleted_id meta = s_deleted s) by (by rewrite Em).
  assert (Esz : c_size (st_base meta) = len (s_entries s)) by (by rewrite Em).
  destruct (StreamId_ltb i (st_max_deleted_id meta)) eqn:E1; rewrite Ed in E1.
  { eapply wp_setid_refuse; [done|]. unfold setid_refused. rewrite decide_True; [done|]. by apply StreamId_ltb_spec. }
  apply StreamId_ltb_false in E1. destruct (Z.ltb_spec 0 (c_size (st_base meta))) as [E2|E2].
  - apply wp_try. destruct (eff_clock _ _ _ (so_effect _ _ _ _ _ _ _ Ho)) as [d Hd].
    destruct (so_keeps _ _ _ _ _ _ _ Ho _ (HH (d + 0)%nat)) as (meta' & Hm). rewrite <-Hd in Hm.
    apply (wp_last_entry_live meta' s); [done|]. cbn beta iota.
    apply (sopened_tick st slot key _ _ _ _ (tick w1)) in Ho; [|by right].
    destruct (last (s_entries s)) as [e|] eqn:El; [|apply last_None in El; rewrite Esz, El in E2; done].
    destruct (StreamId_ltb i e.1) eqn:E3.
    { eapply wp_setid_refuse; [done|]. unfold setid_refused. rewrite decide_False by done. rewrite El, decide_True; [done|].
      by apply StreamId_ltb_spec. }
    apply StreamId_ltb_false in E3. rewrite Esz.
    destruct (match added with Some n => n <? len (s_entries s) | None => false end) eqn:E4.
    + eapply wp_setid_refuse; [done|]. unfold setid_refused. rewrite decide_False by done. rewrite El, decide_False by done.
      destruct added as [n|]; [|done]. rewrite decide_True; [done|lia].
    + apply wp_setid_write; try done. unfold setid_refused. rewrite decide_False by done. rewrite El, decide_False by done.
      destruct added as [n|]; [|done]. rewrite decide_False; [done|lia].
  - apply wp_setid_write; try done. unfold setid_refused. rewrite decide_False by done.
    destruct (s_entries s); [done|]. cbn in Esz. lia.
Qed.

(** ** Listing the groups *)

(** The groups of a stream, all of them. *)
Definition groups_are (s : stream) (Gs : gmap bytes sgroup) : Prop :=
  ∀ n, s_rest s !! group_field n = (λ g, Group_encode (group_of g)) <$> Gs !! n ∧ ∀ g, Gs !! n = Some g → sgroup_wf g.

Lemma scan_groups s meta w Gs :
  rows_at Subkey a (c_version (st_base meta)) (w_kv w) = stream_rows s → groups_are s Gs →
  rows_of (sub_map (rprefix Subkey a (c_version (st_base meta)) ++ [STREAM_GROUP_TAG]) (w_kv w)) =
  (λ r : bytes * sgroup, (r.1, Group_encode (group_of r.2))) <$> merge_sort name_le (map_to_list Gs).
Proof.
  intros Hrows HG. apply (rows_of_names _ Gs (λ g, Group_encode (group_of g))). intros n.
  rewrite lookup_sub_map, <-app_assoc, <-lookup_rows_at, Hrows.
  rewrite <-(proj1 (HG n)). rewrite <-(with_rest_id s) at 1. by rewrite lookup_rest.
Qed.

Lemma wp_groups H Gs w :
  env_ok w → srepr a (w_clock w 0%nat) w H → (∀ s, H = Some s → groups_are s Gs) →
  answers st slot key H w (groups st slot key)
    ((λ s, (λ r : bytes * sgroup, (r.1, group_of r.2, lag_of s r.2)) <$> merge_sort name_le (map_to_list Gs)) <$> H).
Proof.
  intros Henv HH HG. unfold answers, groups. apply wp_try. apply (wp_stream_read st slot key H); [done..| |].
  { intros w' -> _ He _ _ Hk. by wp_op. }
  intros meta w1 Hne Ho. destruct H as [s|]; [|done]. specialize (HG s eq_refl). pose proof (sopened_gopened _ _ _ _ Ho) as Hgo.
  apply wp_bind. unfold groups_of. eapply wp_unwrap; [by apply rows_ok|]. wp_op. apply wp_bind. eapply wp_first_id; [done|].
  wp_op. wp_op. split; [|split; apply Ho]. f_equal. cbn [fmap option_fmap option_map]. f_equal. rewrite prefix_rows_sub_map, (scan_groups s meta _ Gs) by (done || apply Hgo).
  assert (Hl : ∀ r, r ∈ merge_sort name_le (map_to_list Gs) → Group_decode (Group_encode (group_of r.2)) = Some (group_of r.2)).
  { intros [n g]. rewrite merge_sort_Permutation, elem_of_map_to_list. intros Hn. by apply decode_group, (HG n). }
  assert (Elag : ∀ g, lag meta (first_of s) (group_of g) = lag_of s g) by (intros g; by rewrite (go_meta _ _ _ _ _ Hgo)).
  induction (merge_sort name_le (map_to_list Gs)) as [|r l IH]; [done|].
  cbn [fmap list_fmap omap list_omap prod_map fst snd id]. rewrite Hl by constructor. cbn [mbind option_bind].
  rewrite drop_app_length, Elag. f_equal. apply IH. intros. apply Hl. by constructor.
Qed.

Lemma wp_stream_info H Gs w :
  env_ok w → srepr a (w_clock w 0%nat) w H → (∀ s, H = Some s → groups_are s Gs) →
  wp (stream_info st slot key) w (λ r w', effect a w w' ∧ skeeps a H w w' ∧
    match H with
    | None => r = Ok None
    | Some s => ∃ base, c_size base = len (s_entries s) ∧ c_bytes base = charged (s_entries s) ∧
        r = Ok (Some (mkInfo (meta_of base s) (first_of s) (head (s_entries s)) (last (s_entries s)) (Z.of_nat (size Gs))))
    end).
Proof.
  intros Henv HH HG. unfold stream_info. apply wp_try. apply (wp_stream_read st slot key H); [done..| |].
  { intros w' -> _ He _ _ Hk. by wp_op. }
  intros meta w1 Hne Ho. destruct H as [s|]; [|done]. specialize (HG s eq_refl). pose proof (sopened_gopened _ _ _ _ Ho) as Hgo.
  destruct id_ok_bounds as [Hmin Hmax]. destruct (sopened_entries _ _ _ _ _ _ _ Ho) as (Hsz & Hby & _). cbn [current from_option id] in *.
  assert (H1 : ∀ n, Some 1 = Some n → 0 <= n) by (intros n [= <-]; lia).
  pose proof (wf_eids s (go_wf _ _ _ _ _ Hgo)) as Hids.
  assert (Efirst : selected StreamId_MIN StreamId_MAX (Some 1) false (s_entries s) = take 1 (s_entries s)).
  { unfold selected. rewrite list_filter_true; [done|]. intros e He. split; [specialize (Hids e He); id_order|by apply id_max_id, Hids]. }
  assert (Elast : head (selected StreamId_MIN StreamId_MAX (Some 1) true (s_entries s)) = last (s_entries s)).
  { unfold selected. rewrite list_filter_true.
    - rewrite <-head_reverse. by destruct (reverse (s_entries s)).
    - intros e He. rewrite elem_of_reverse in He. split; [specialize (Hids e He); id_order|by apply id_max_id, Hids]. }
  apply wp_bind. apply (wp_scan st slot key Ha meta s); try done; try apply Hgo.
  apply wp_bind. apply (wp_scan st slot key Ha meta s); try done; try apply Hgo.
  eapply wp_unwrap; [by apply rows_ok|]. wp_op. wp_op. rewrite prefix_rows_sub_map, (scan_groups s meta _ Gs) by (done || apply Hgo).
  split; [apply Ho|]. split; [apply Ho|]. exists (st_base meta). split; [done|]. split; [done|].
  rewrite !length_fmap, merge_sort_Permutation, length_map_to_list, Efirst, Elast. do 3 f_equal.
  - apply Hgo.
  - unfold first_of. by destruct (s_entries s).
  - by destruct (s_entries s).
Qed.

Lemma wp_group_consumers H n G w :
  env_ok w → srepr a (w_clock w 0%nat) w H → group_at H n G →
  wp (group_consumers st slot key n) w (λ r w', effect a w w' ∧
    found H n G w (λ s g x w', x = values (consumers_of g) ∧ regrouped a H s n (Some g) w w') r w').
Proof.
  intros Henv HH HG. apply wp_found; [done..|]. intros s g meta w1 HHs HGg Hwf Ho Hk Hr.
  pose proof (gstate_open _ _ _ _ _ _ _ Ho Hr) as Hg.
  apply wp_bind. eapply wp_consumers; [done..|]. wp_op.
  destruct (gstate_group _ _ _ _ _ _ _ _ g Ho Hg Hwf) as [? ?]; [done|]. split; [done|]. by eexists.
Qed.
End Operations.

(** ** How far a group is behind *)

(** The entries it has not been handed. *)
Definition behind (s : stream) (g : sgroup) : Z := len (unread s (sg_last g) None).

(** The group's count of the entries it has read: all that were ever added but
    those it has not been handed. *)
Definition count_right (s : stream) (g : sgroup) : Prop := sg_read g = s_added s - behind s g.

(** The counter of entries added covers the stream, and is not near its end. *)
Record counted (s : stream) : Prop := {
  ct_wf : stream_wf s;
  ct_added : len (s_entries s) <= s_added s < 2 ^ 63
}.

(** A deletion is recorded at or after the group's position. *)
Definition marked (s : stream) (g : sgroup) : bool := has_tombstones (stream_meta s) (sg_last g).

Lemma i64_small x : 0 <= x < 2 ^ 63 → i64 x = x.
Proof. intros Hx. apply signed_id. lia. Qed.

Lemma unread_length s i : (length (unread s i None) ≤ length (s_entries s))%nat.
Proof. apply length_filter. Qed.

Lemma unread_from s i e l :
  stream_wf s → unread s i None = e :: l → StreamId_lt i e.1 ∧ unread s e.1 None = l.
Proof.
  intros Hs E. pose proof (wf_sorted _ Hs) as Hsort. unfold unread in *.
  assert (He : e ∈ filter (λ e : Entry, StreamId_lt i e.1) (s_entries s)) by (rewrite E; by constructor).
  apply list_elem_of_filter in He as [Hlt _]. split; [done|].
  assert (Hl : filter (λ f : Entry, StreamId_lt e.1 f.1) (filter (λ e : Entry, StreamId_lt i e.1) (s_entries s)) = l).
  { assert (Hs' : StronglySorted (λ e f : Entry, StreamId_lt e.1 f.1) (e :: l)).
    { rewrite <-E. clear -Hsort. induction Hsort as [|x l Hl IH Hx]; [constructor|]. rewrite filter_cons. case_decide; [|done].
      constructor; [done|]. rewrite Forall_forall in Hx |- *. intros y [_ Hy]%list_elem_of_filter. auto. }
    rewrite E. inversion_clear Hs' as [|? ? _ Hall]. rewrite filter_cons, decide_False by id_order.
    apply list_filter_true. intros f Hf. rewrite Forall_forall in Hall. by apply Hall. }
  rewrite <-Hl, list_filter_filter_l; [done|]. intros f Hf. id_order.
Qed.

Lemma unread_below s e E i :
  stream_wf s → s_entries s = e :: E → StreamId_lt i e.1 → unread s i None = e :: E.
Proof.
  intros Hs HE Hi. unfold unread. rewrite HE. apply list_filter_true. intros f Hf.
  pose proof (wf_sorted _ Hs) as Hsort. rewrite HE in Hsort. inversion_clear Hsort as [|? ? _ Hall].
  apply elem_of_cons in Hf as [->|Hf]; [done|]. rewrite Forall_forall in Hall. specialize (Hall f Hf). id_order.
Qed.

Lemma unread_first s e E : stream_wf s → s_entries s = e :: E → unread s e.1 None = E.
Proof.
  intros Hs HE. unfold unread. rewrite HE. rewrite filter_cons, decide_False by id_order. apply list_filter_true.
  pose proof (wf_sorted _ Hs) as Hsort. rewrite HE in Hsort. inversion_clear Hsort as [|? ? _ Hall].
  by apply Forall_forall.
Qed.

Lemma unread_above s i : stream_wf s → id_le (s_last s) i → unread s i None = [].
Proof.
  intros Hs Hi. unfold unread. apply filter_none. intros e He Hlt. destruct (wf_ids _ Hs e He) as (_ & ? & _). id_order.
Qed.

(** An estimate is unknown or right, whatever was deleted or trimmed. *)
Lemma estimate_right s i :
  counted s → let r := estimate_entries_read (stream_meta s) (first_of s) i in
  r = ENTRIES_READ_UNKNOWN ∨ r = s_added s - len (unread s i None).
Proof.
  intros [Hs Ha] r. subst r. unfold estimate_entries_read, stream_meta, meta_of.
  cbn [st_entries_added st_base st_last_id st_max_deleted_id c_size].
  pose proof (unread_length s i) as Hlen. rewrite (i64_small (s_added s)) by lia.
  destruct (Z.eqb_spec (s_added s) 0) as [E0|E0]; [right; lia|].
  destruct ((len (s_entries s) =? 0) && negb (StreamId_ltb (s_last s) i)) eqn:E1; [right; lia|].
  destruct (bool_decide (i ≠ StreamId_MIN) && StreamId_ltb i (s_deleted s)); [by left|].
  case_bool_decide as Elast; [right; rewrite Elast, unread_above; [cbn; lia|done|id_order]|].
  destruct (StreamId_ltb (s_last s) i); [by left|]. destruct (_ || _); [|by left].
  unfold first_of. destruct (s_entries s) as [|e E] eqn:HE; [done|].
  destruct (StreamId_ltb i e.1) eqn:Ei.
  { apply StreamId_ltb_spec in Ei. right. rewrite (unread_below s e E) by done. apply i64_small. lia. }
  case_bool_decide as Ee; [|by left]. subst i. right. rewrite (unread_first s e E) by done. cbn [length] in *.
  rewrite !i64_small by (rewrite ?i64_small; lia). lia.
Qed.

Lemma marked_spec s g :
  marked s g = true ↔ s_entries s ≠ [] ∧ s_deleted s ≠ StreamId_MIN ∧ id_le (sg_last g) (s_deleted s).
Proof.
  unfold marked, has_tombstones. cbn [stream_meta meta_of st_base c_size st_max_deleted_id].
  rewrite !andb_true_iff, !negb_true_iff, StreamId_ltb_false, bool_decide_eq_true, Z.eqb_neq.
  destruct (s_entries s); cbn [length]; (split; [intros [[? ?] ?]|intros (? & ? & ?)]; split_and!); done || lia || (exfalso; lia).
Qed.

(** The first entry's count is known when no deletion was recorded after the
    group. *)
Lemma estimate_first s g e E :
  counted s → s_entries s = e :: E → StreamId_lt (sg_last g) e.1 → marked s g = false →
  estimate_entries_read (stream_meta s) (first_of s) e.1 = s_added s - len E.
Proof.
  intros [Hs Ha] HE Hlt Hm. assert (s_deleted s = StreamId_MIN ∨ StreamId_lt (s_deleted s) (sg_last g)) as Hd.
  { destruct (decide (s_deleted s = StreamId_MIN)) as [|Hne]; [by left|right]. apply dec_stable. intros Hn.
    assert (marked s g = true) as Ht by (apply marked_spec; by rewrite HE). congruence. }
  unfold estimate_entries_read, stream_meta, meta_of, first_of.
  cbn [st_entries_added st_base st_last_id st_max_deleted_id c_size]. rewrite HE in *. cbn [length] in *.
  destruct (wf_ids _ Hs e) as (Hok & Hle & _); [rewrite HE; by constructor|].
  rewrite (i64_small (s_added s)) by lia. rewrite !(proj2 (Z.eqb_neq _ 0)) by lia. cbn [andb].
  replace (StreamId_ltb e.1 (s_deleted s)) with false
    by (symmetry; apply StreamId_ltb_false; destruct Hd as [->|]; id_order). rewrite andb_false_r.
  case_bool_decide as Elast.
  { pose proof (unread_first s e E Hs HE) as Eu. rewrite unread_above in Eu; [|done|rewrite Elast; id_order].
    rewrite <-Eu. cbn. lia. }
  replace (StreamId_ltb (s_last s) e.1) with false by (symmetry; by apply StreamId_ltb_false).
  assert (bool_decide (s_deleted s = StreamId_MIN) || StreamId_ltb (s_deleted s) e.1 = true) as ->.
  { destruct Hd as [->|Hd]; [done|]. apply orb_true_iff. right. apply StreamId_ltb_spec. id_order. }
  replace (StreamId_ltb e.1 e.1) with false by (symmetry; apply StreamId_ltb_false; id_order).
  rewrite bool_decide_true by done. rewrite !i64_small by (rewrite ?i64_small; lia). lia.
Qed.

(** *** Reading *)

Definition known_or_not (s : stream) (g : sgroup) : Prop := sg_read g = ENTRIES_READ_UNKNOWN ∨ count_right s g.

(** The next read makes the count right or unknown: it is so already, or the
    read has to estimate it, or there is nothing to read. *)
Definition settles (s : stream) (g : sgroup) : Prop :=
  known_or_not s g ∨ marked s g = true ∨ StreamId_lt (sg_last g) (first_of s) ∨ s_entries s = [].

(** Never past the entries handed. *)
Definition not_ahead (s : stream) (g : sgroup) : Prop :=
  sg_read g = ENTRIES_READ_UNKNOWN ∨ 0 <= sg_read g <= s_added s - behind s g.

Lemma right_not_ahead s g : counted s → known_or_not s g → not_ahead s g.
Proof.
  intros [_ Ha] [|Hc]; [by left|right]. unfold count_right, behind in *. pose proof (unread_length s (sg_last g)). lia.
Qed.

Lemma unmarked_on s g g' : StreamId_lt (sg_last g) (sg_last g') → marked s g = false → marked s g' = false.
Proof.
  rewrite <-!not_true_iff_false, !marked_spec. intros Hlt Hm (? & ? & ?). apply Hm. split_and!; [done|done|id_order].
Qed.

(** Reading the next entry. *)
Lemma read_one_right s c noack now g e l :
  counted s → unread s (sg_last g) None = e :: l →
  let g' := read_one s c noack now g e in
  unread s (sg_last g') None = l ∧
  (settles s g → known_or_not s g') ∧
  (marked s g = false → marked s g' = false ∧ (count_right s g → count_right s g')).
Proof.
  intros Hw Hu g'. pose proof (estimate_right s e.1 Hw) as Hest. pose proof Hw as [Hs Ha].
  destruct (unread_from s _ e l Hs Hu) as [Hlt Hl]. rewrite Hl in Hest.
  pose proof (unread_length s (sg_last g)) as Hlen. rewrite Hu in Hlen. cbn [length] in Hlen.
  assert (El : sg_last g' = e.1) by (by unfold g', read_one; destruct noack).
  assert (Er : sg_read g' = next_read (stream_meta s) (first_of s) (group_of g) e.1) by (by unfold g', read_one; destruct noack).
  pose proof (unmarked_on s g g' ltac:(by rewrite El)) as Hon.
  unfold settles, known_or_not, count_right, behind. rewrite El, Er, Hl, Hu. clear Er. unfold next_read.
  cbn [g_last_id g_entries_read group_of length st_entries_added stream_meta meta_of]. fold (stream_meta s). fold (marked s g).
  rewrite (proj2 (Z.ltb_lt 0 (s_added s))) by lia. split; [done|].
  destruct (Z.eqb_spec (sg_read g) ENTRIES_READ_UNKNOWN) as [Eu|Eu]; cbn [negb andb].
  { split; [done|]. intros Hm. split; [auto|]. rewrite Eu. unfold ENTRIES_READ_UNKNOWN in *. lia. }
  destruct (StreamId_ltb (sg_last g) (first_of s)) eqn:Ef; cbn [negb andb].
  - apply StreamId_ltb_spec in Ef. unfold first_of in Ef.
    destruct (s_entries s) as [|e0 E0] eqn:HE; [cbn in Hlen; lia|].
    rewrite (unread_below s e0 E0) in Hu by done. injection Hu as -> ->.
    split; [done|]. intros Hm. split; [auto|]. intros _. by apply (estimate_first s g).
  - destruct (marked s g) eqn:Em; cbn [negb]; [done|]. apply StreamId_ltb_false in Ef. split.
    + intros [[?|Hc]|[?|[?|HE]]]; [done| |done|done|rewrite HE in Hlen; cbn in Hlen; lia]. right. rewrite i64_small; lia.
    + intros _. split; [auto|]. intros Hc. rewrite i64_small; lia.
Qed.

(** A run of reads of the next entries. *)
Lemma reads_right s c noack now es rest g :
  counted s → unread s (sg_last g) None = es ++ rest → settles s g →
  let g' := foldl (read_one s c noack now) g es in
  unread s (sg_last g') None = rest ∧ (es ≠ [] → known_or_not s g') ∧
  (marked s g = false → marked s g' = false ∧ (count_right s g → count_right s g')).
Proof.
  intros Hw. revert g. induction es as [|e es IH]; intros g Hu Hk; [done|].
  destruct (read_one_right s c noack now g e (es ++ rest) Hw Hu) as (Hu' & Hr & Hm).
  destruct (IH (read_one s c noack now g e)) as (? & Hkn & Hmk); [done|left; auto|].
  split; [done|]. split; [|naive_solver]. intros _. destruct es; [auto|by apply Hkn].
Qed.

Lemma unread_take s i count : ∃ rest, unread s i None = unread s i count ++ rest.
Proof.
  destruct count as [n|]; [|exists []; by rewrite app_nil_r].
  exists (drop (Z.to_nat n) (unread s i None)). unfold unread. by rewrite take_drop.
Qed.

(** A read for new entries. *)
Lemma read_right s g c count noack poll now :
  counted s → settles s g →
  let '(o, g') := group_read s g c New count noack poll now in
  match o with None => sg_last g' = sg_last g ∧ sg_read g' = sg_read g | Some _ => known_or_not s g' end ∧
  (marked s g = false → marked s g' = false ∧ (count_right s g → count_right s g')).
Proof.
  intros Hw Hk. unfold group_read. destruct (unread_take s (sg_last g) count) as [rest Hrest].
  destruct (unread s (sg_last g) count) as [|e es] eqn:E; [by destruct poll|].
  destruct (reads_right s c noack now (e :: es) rest (seen_in g c now) Hw Hrest Hk) as (_ & H1 & H2).
  split; [by apply H1|done].
Qed.

(** *** Every other operation *)

(** What happens to a stream and one of its groups: [XADD], [XDEL] and [XTRIM]
    of the stream, and the group's [XREADGROUP]. *)
Inductive move (s : stream) (g : sgroup) : stream → sgroup → Prop :=
| move_add id fields :
    id_ok id → StreamId_lt (s_last s) id → fields_ok fields → s_added s + 1 < 2 ^ 63 →
    move s g (appended s id fields) g
| move_del ids d : deleted_to s ids d → move s g (deleted s ids d) g
| move_trim t : move s g (trimmed (Some t) s) g
| move_read c from count noack poll now :
    move s g s (group_read s g c from count noack poll now).2.

(** A move that takes entries the group has not been handed and leaves no
    deletion recorded after it, or that empties a stream that had one. *)
Definition overtakes (s : stream) (g : sgroup) (s' : stream) : Prop :=
  behind s' g < behind s g ∧ marked s' g = false ∨ marked s g = true ∧ s_entries s' = [].

(** What every move keeps. *)
Record follows (s : stream) (g : sgroup) : Prop := {
  fo_counted : counted s;
  fo_id : id_ok (sg_last g);
  fo_last : id_le (sg_last g) (s_last s);
  fo_settles : settles s g;
  fo_ahead : not_ahead s g
}.

(** What a removal leaves of the stream. *)
Record removal (s s' : stream) : Prop := {
  re_wf : stream_wf s';
  re_sub : sublist (s_entries s') (s_entries s);
  re_last : s_last s' = s_last s;
  re_added : s_added s' = s_added s;
  re_deleted : s_deleted s' = s_deleted s ∨ id_le (s_deleted s) (s_deleted s') ∧ s_deleted s' ≠ StreamId_MIN
}.

Lemma filtered_sublist {A} (P : A → Prop) `{!∀ x, Decision (P x)} (l k : list A) :
  sublist l k → sublist (filter P l) (filter P k).
Proof.
  induction 1 as [|x l k _ IH|x l k _ IH]; [done| |]; rewrite !filter_cons; case_decide; try done; by constructor.
Qed.

Lemma removal_unread s s' i : removal s s' → sublist (unread s' i None) (unread s i None).
Proof. intros H. apply filtered_sublist, H. Qed.

Lemma removal_marked s s' g : removal s s' → s_entries s' ≠ [] → marked s g = true → marked s' g = true.
Proof.
  intros H Hne. rewrite !marked_spec. intros (_ & Hd & Hl). destruct (re_deleted _ _ H) as [->|[? ?]]; [done|].
  split_and!; [done|done|id_order].
Qed.

(** The first entry of what is left is no older than the first. *)
Lemma removal_first s s' : stream_wf s → removal s s' → s_entries s' ≠ [] → id_le (first_of s) (first_of s').
Proof.
  intros Hs H Hne. unfold first_of. pose proof (re_sub _ _ H) as Hsub.
  destruct (s_entries s') as [|e' E']; [done|]. assert (e' ∈ s_entries s) as He by (eapply elem_of_sublist; [left|exact Hsub]).
  pose proof (wf_sorted _ Hs) as Hsort. destruct (s_entries s) as [|e E]; [by apply elem_of_nil in He|].
  inversion_clear Hsort as [|? ? _ Hall]. apply elem_of_cons in He as [->|He]; [id_order|].
  rewrite Forall_forall in Hall. specialize (Hall _ He). id_order.
Qed.

(** A removal loses the count only where the next read estimates it. *)
Lemma removal_follows s s' g :
  follows s g → removal s s' →
  (s_entries s' ≠ [] → unread s' (sg_last g) None = unread s (sg_last g) None ∨ marked s' g = true ∨
     StreamId_lt (sg_last g) (first_of s')) →
  follows s' g.
Proof.
  intros [[Hs Ha] Hi Hl Hst Hah] H Hun. pose proof (sublist_length _ _ (re_sub _ _ H)) as Hlen.
  pose proof (sublist_length _ _ (removal_unread _ _ (sg_last g) H)) as Hbeh.
  constructor; [|done|by rewrite (re_last _ _ H)| |].
  - constructor; [apply H|]. rewrite (re_added _ _ H). lia.
  - unfold settles. destruct (decide (s_entries s' = [])) as [|Hne]; [auto|].
    destruct (Hun Hne) as [Eu|[|]]; [|auto..]. destruct Hst as [[|Hc]|[Hm|[Hf|HE]]].
    + left. by left.
    + left. right. unfold count_right, behind in *. by rewrite (re_added _ _ H), Eu.
    + right. left. by eapply removal_marked.
    + right. right. left. pose proof (removal_first _ _ Hs H Hne). id_order.
    + exfalso. apply Hne. pose proof (re_sub _ _ H) as Hsub. rewrite HE in Hsub. by apply sublist_nil_r in Hsub.
  - destruct Hah as [|Hah]; [by left|right]. unfold behind in *. rewrite (re_added _ _ H). lia.
Qed.

Lemma del_removal s ids d : stream_wf s → deleted_to s ids d → removal s (deleted s ids d).
Proof.
  intros Hs Hd. constructor; [by apply deleted_wf|apply sublist_filter|done|done|]. cbn.
  destruct (decide (d = s_deleted s)) as [|Hne]; [by left|right]. destruct Hd as (_ & Hd & _). split; [done|].
  intros ->. apply Hne. pose proof (wf_deleted _ Hs) as Hok. apply id_eq; [id_order|done].
Qed.

Lemma del_unread s ids d g :
  stream_wf s → id_ok (sg_last g) → deleted_to s ids d → s_entries (deleted s ids d) ≠ [] →
  unread (deleted s ids d) (sg_last g) None = unread s (sg_last g) None ∨ marked (deleted s ids d) g = true.
Proof.
  intros Hs Hi (_ & _ & Hd) Hne.
  destruct (decide (List.Exists (λ e : Entry, StreamId_lt (sg_last g) e.1 ∧ e.1 ∈ ids) (s_entries s))) as [Hex|Hno].
  - right. apply Exists_exists in Hex as (e & He & Hlt & Hin). apply marked_spec. cbn [deleted s_deleted].
    assert (id_le e.1 d) by (apply Hd, list_elem_of_filter; done).
    split; [done|]. split; [intros ->|]; id_order.
  - left. unfold unread, deleted, left_by. cbn [s_entries]. rewrite list_filter_filter. apply list_filter_iff'.
    intros e He. split; [tauto|]. intros Hlt. split; [done|]. intros Hin. apply Hno, Exists_exists. by exists e.
Qed.

Lemma trim_removal s t : stream_wf s → removal s (trimmed (Some t) s).
Proof. intros Hs. constructor; [by apply trimmed_wf|apply sublist_drop|done|done|by left]. Qed.

Lemma trim_unread s t g :
  stream_wf s → s_entries (trimmed (Some t) s) ≠ [] →
  unread (trimmed (Some t) s) (sg_last g) None = unread s (sg_last g) None ∨
  StreamId_lt (sg_last g) (first_of (trimmed (Some t) s)).
Proof.
  intros Hs. unfold unread, first_of. cbn [trimmed with_entries s_entries]. set (k := trim_count t (s_entries s)).
  pose proof (wf_sorted _ Hs) as Hsort. rewrite <-(take_drop k (s_entries s)) in Hsort.
  rewrite <-(take_drop k (s_entries s)) at 3. destruct (drop k (s_entries s)) as [|e E]; [done|]. intros _.
  destruct (decide (StreamId_lt (sg_last g) e.1)) as [|Hle]; [by right|left].
  rewrite (filter_app _ (take k _)). rewrite (filter_none _ (take k _)); [done|]. intros f Hf Hlt.
  apply StronglySorted_app in Hsort as (Hall & _ & _). specialize (Hall f e Hf ltac:(left)). cbn in Hall. id_order.
Qed.

Lemma add_follows s g id fields :
  follows s g → id_ok id → StreamId_lt (s_last s) id → fields_ok fields → s_added s + 1 < 2 ^ 63 →
  behind (appended s id fields) g = behind s g + 1 ∧ follows (appended s id fields) g ∧
  (known_or_not s g → known_or_not (appended s id fields) g).
Proof.
  intros [[Hs Ha] Hi Hl Hst Hah] Hid Hlt Hf Hadd.
  assert (Hb : behind (appended s id fields) g = behind s g + 1).
  { unfold behind, unread. cbn [appended s_entries]. rewrite filter_app, length_app, filter_cons, decide_True by (cbn; id_order). cbn. lia. }
  assert (Hk : known_or_not s g → known_or_not (appended s id fields) g).
  { intros [|Hc]; [by left|right]. unfold count_right in *. rewrite Hb. cbn [appended s_added]. lia. }
  split; [done|]. split; [|done]. constructor; [|done| | |].
  - constructor; [apply appended_wf; done || lia|]. cbn. rewrite length_app. cbn. lia.
  - cbn. id_order.
  - destruct Hst as [?|[Hm|[Hfi|HE]]]; [left; auto| | |].
    + right. left. revert Hm. rewrite !marked_spec. intros (_ & ? & ?). split_and!; [cbn; by destruct (s_entries s)|done|done].
    + right. right. left. unfold first_of in *. cbn [appended s_entries]. destruct (s_entries s); [|done]. cbn. id_order.
    + right. right. left. unfold first_of. cbn [appended s_entries]. rewrite HE. cbn. id_order.
  - destruct Hah as [|Hah]; [by left|right]. rewrite Hb. cbn [appended s_added]. lia.
Qed.

(** A read moves the group to an entry of the stream, or not at all. *)
Lemma read_last s g c from count noack poll now :
  let g' := (group_read s g c from count noack poll now).2 in
  sg_last g' = sg_last g ∨ ∃ e, e ∈ s_entries s ∧ sg_last g' = e.1.
Proof.
  unfold group_read. destruct from as [|after]; [|by left].
  assert (∀ es, (∀ e, e ∈ es → e ∈ s_entries s) → ∀ g0, sg_last g0 = sg_last g ∨ (∃ e, e ∈ s_entries s ∧ sg_last g0 = e.1) →
    sg_last (foldl (read_one s c noack now) g0 es) = sg_last g ∨
    ∃ e, e ∈ s_entries s ∧ sg_last (foldl (read_one s c noack now) g0 es) = e.1) as Hf.
  { induction es as [|e es IH]; intros Hin g0 H0; [done|]. cbn [foldl]. apply IH; [intros; apply Hin; by right|].
    right. exists e. split; [apply Hin; by left|]. by unfold read_one; destruct noack. }
  destruct (unread s (sg_last g) count) as [|e es] eqn:E; [left; by destruct poll|]. cbn [snd].
  apply Hf; [|by left]. rewrite <-E. intros e' He'. unfold unread in He'.
  destruct count; [eapply elem_of_sublist in He'; [|apply sublist_take]|]; by apply list_elem_of_filter in He' as [_ ?].
Qed.

Lemma move_follows s g s' g' :
  follows s g → move s g s' g' → follows s' g'.
Proof.
  intros Hfo Hm. pose proof (fo_counted _ _ Hfo) as Hc. pose proof (ct_wf _ Hc) as Hs.
  destruct Hm as [id fields ? ? ? ?|ids d Hd|t|c from count noack poll now].
  - by apply add_follows.
  - eapply removal_follows; [done|by apply del_removal|]. intros Hne.
    destruct (del_unread s ids d g Hs (fo_id _ _ Hfo) Hd Hne); auto.
  - eapply removal_follows; [done|by apply trim_removal|]. intros Hne. destruct (trim_unread s t g Hs Hne); auto.
  - assert (id_ok (sg_last (group_read s g c from count noack poll now).2) ∧
      id_le (sg_last (group_read s g c from count noack poll now).2) (s_last s)) as [? ?].
    { destruct (read_last s g c from count noack poll now) as [->|(e & He & ->)]; [split; apply Hfo|].
      destruct (wf_ids _ Hs e He) as (? & ? & _). done. }
    constructor; [done..| |].
    + destruct from; [|apply Hfo]. pose proof (read_right s g c count noack poll now Hc (fo_settles _ _ Hfo)) as Hr.
      destruct (group_read s g c New count noack poll now) as [[es|] g']; destruct Hr as [Hr _]; [by left|].
      destruct Hr as [El Er]. pose proof (fo_settles _ _ Hfo) as Hst. cbn [snd].
      unfold settles, known_or_not, count_right, marked, behind in *. by rewrite El, Er.
    + destruct from; [|apply Hfo]. pose proof (read_right s g c count noack poll now Hc (fo_settles _ _ Hfo)) as Hr.
      destruct (group_read s g c New count noack poll now) as [[es|] g']; destruct Hr as [Hr _]; [by apply right_not_ahead|].
      destruct Hr as [El Er]. pose proof (fo_ahead _ _ Hfo) as Hah. cbn [snd]. unfold not_ahead, behind in *. by rewrite El, Er.
Qed.

(** The count is right or unknown, or a deletion is recorded after the group. *)
Definition tracked (s : stream) (g : sgroup) : Prop := known_or_not s g ∨ marked s g = true.

Lemma removal_tracked s s' g : removal s s' → ¬ overtakes s g s' → tracked s g → tracked s' g.
Proof.
  intros H Hno [[?|Hc]|Hm]; [left; by left| |].
  - destruct (marked s' g) eqn:E; [by right|left; right].
    pose proof (sublist_length _ _ (removal_unread _ _ (sg_last g) H)) as Hle.
    assert (¬ behind s' g < behind s g) by (intros Hlt; apply Hno; by left).
    unfold count_right, behind in *. rewrite (re_added _ _ H). lia.
  - right. eapply removal_marked; [done| |done]. intros HE. apply Hno. by right.
Qed.

Lemma move_tracked s g s' g' :
  follows s g → move s g s' g' → ¬ overtakes s g s' → tracked s g → tracked s' g'.
Proof.
  intros Hfo Hm Hno Ht. pose proof (fo_counted _ _ Hfo) as Hc. pose proof (ct_wf _ Hc) as Hs.
  destruct Hm as [id fields ? ? ? ?|ids d Hd|t|c from count noack poll now].
  - destruct Ht as [Hk|Hm]; [left; by apply (add_follows s g)|right].
    revert Hm. rewrite !marked_spec. intros (_ & ? & ?). split_and!; [cbn; by destruct (s_entries s)|done|done].
  - eapply removal_tracked; [by apply del_removal|done..].
  - eapply removal_tracked; [by apply trim_removal|done..].
  - destruct from; [|done]. pose proof (read_right s g c count noack poll now Hc (fo_settles _ _ Hfo)) as Hr.
    destruct (group_read s g c New count noack poll now) as [[es|] g']; destruct Hr as [Hr _]; [by left|].
    destruct Hr as [El Er]. cbn [snd]. unfold tracked, known_or_not, count_right, marked, behind in *. by rewrite El, Er.
Qed.

(** Runs of moves, and those in which nothing overtakes the group. *)
Inductive moves : bool → stream * sgroup → stream * sgroup → Prop :=
| moves_nil b x : moves b x x
| moves_step b x s g s' g' :
    moves b x (s, g) → move s g s' g' → (b = true → ¬ overtakes s g s') → moves b x (s', g').

Lemma moves_follow b x y : moves b x y → follows x.1 x.2 → follows y.1 y.2.
Proof. induction 1 as [|b x s g s' g' _ IH Hm _]; [done|]. intros Hx. eapply move_follows; [by apply IH|done]. Qed.

Lemma moves_tracked x y : moves true x y → follows x.1 x.2 → tracked x.1 x.2 → tracked y.1 y.2.
Proof.
  intros H. remember true as b eqn:Eb. induction H as [|b x s g s' g' Hms IH Hm Hno]; [done|]. subst b. intros Hx Ht.
  eapply move_tracked; [by eapply (moves_follow true x (s, g))|done|by apply Hno|by apply IH].
Qed.

(** A lag is unknown or right while the count is tracked, known when the count
    is right and no deletion came after it, and never less than what is
    unread. *)
Lemma lag_right s g :
  counted s →
  (tracked s g → lag_of s g = None ∨ lag_of s g = Some (behind s g)) ∧
  (count_right s g → marked s g = false → lag_of s g = Some (behind s g)) ∧
  (not_ahead s g → ∀ n, lag_of s g = Some n → behind s g <= n).
Proof.
  intros Hw. pose proof (estimate_right s (sg_last g) Hw) as Hest. destruct Hw as [Hs Ha].
  pose proof (unread_length s (sg_last g)) as Hlen. unfold lag_of, lag.
  cbn [st_entries_added stream_meta meta_of g_last_id g_entries_read group_of]. fold (stream_meta s). fold (marked s g).
  rewrite (i64_small (s_added s)) by lia. fold (behind s g) in Hest.
  assert (0 <= behind s g <= s_added s) as Hb by (unfold behind; lia).
  destruct (Z.eqb_spec (s_added s) 0) as [E0|E0].
  { assert (behind s g = 0) as -> by lia. split_and!; [by right|done|]. intros _ n [= <-]. done. }
  set (est := estimate_entries_read _ _ _) in *.
  assert (Hel : (if est =? ENTRIES_READ_UNKNOWN then None else Some (i64 (s_added s - est))) = None ∨
    (if est =? ENTRIES_READ_UNKNOWN then None else Some (i64 (s_added s - est))) = Some (behind s g)).
  { destruct (Z.eqb_spec est ENTRIES_READ_UNKNOWN); [by left|right]. destruct Hest as [?|Hest]; [done|].
    rewrite Hest, i64_small by lia. f_equal. lia. }
  destruct (Z.eqb_spec (sg_read g) ENTRIES_READ_UNKNOWN) as [Eu|Eu]; cbn [negb andb].
  { split_and!; [done| |]; [intros Hc; unfold count_right, ENTRIES_READ_UNKNOWN in *; lia|].
    intros _ n Hn. rewrite Hn in Hel. destruct Hel as [|[= ->]]; done. }
  destruct (marked s g) eqn:Em; cbn [negb].
  { split_and!; [done|done|]. intros _ n Hn. rewrite Hn in Hel. destruct Hel as [|[= ->]]; done. }
  split_and!.
  - intros [[?|Hc]|?]; [done| |congruence]. right. unfold count_right in Hc. rewrite Hc, i64_small by lia. f_equal. lia.
  - intros Hc _. unfold count_right in Hc. rewrite Hc, i64_small by lia. f_equal. lia.
  - intros [?|Hah] n [= <-]; [done|]. rewrite i64_small by lia. lia.
Qed.


(** ** What the operations do *)

(** C16. [XGROUP] makes, moves and destroys groups, and makes and deletes their
    consumers, each with the answer Redis gives when the stream, the group or
    the consumer is or is not there: a group that exists is left alone, a
    missing stream is made only by [MKSTREAM], a destroyed group leaves no row
    behind, and a deleted consumer takes its pending entries with it, answering
    how many. The rows' counters (pending entries and consumers of the group,
    pending entries of each consumer) and the index by owner are exact
    afterwards, the stream's entries stay, and so does every other group. *)
Theorem group_admin_refines st slot key H n G start mk read c w :
  let a := mkAddr (st_ns st) slot key in
  addr_wf a → env_ok w → headroom w → srepr a (w_clock w 0%nat) w H → group_at H n G →
  start_ok start → in_i64 read → name_ok c → room H G 0 →
  wp (group_create st slot key n start mk read) w (λ r w', effect a w w' ∧
    match H, G with
    | None, _ => if mk : bool then r = Ok CreatedGroup ∧
                   regrouped a H stream_new n (Some (new_group (started stream_new start) read)) w w'
                 else r = Ok NoStreamToCreate ∧ skeeps a H w w'
    | Some s, Some _ => r = Ok Exists ∧ regrouped a H s n G w w'
    | Some s, None => r = Ok CreatedGroup ∧ regrouped a H s n (Some (new_group (started s start) read)) w w'
    end) ∧
  wp (group_setid st slot key n start read) w (λ r w', effect a w w' ∧
    found st slot key H n G w (λ s g _ w', regrouped a H s n
      (Some (mkSgroup (started s start) read (sg_cons g) (sg_pel g))) w w') r w') ∧
  wp (group_destroy st slot key n) w (λ r w', effect a w w' ∧
    match H, G with
    | None, _ => r = Ok NoStream ∧ skeeps a H w w'
    | Some s, None => r = Ok (Yes false) ∧ skeeps a H w w'
    | Some s, Some g => r = Ok (Yes true) ∧ regrouped a H s n None w w'
    end) ∧
  wp (consumer_create st slot key n c) w (λ r w', effect a w w' ∧
    found st slot key H n G w (λ s g new w', ∃ t, new = bool_decide (sg_cons g !! c = None) ∧
      regrouped a H s n (Some (if sg_cons g !! c then g else
        mkSgroup (sg_last g) (sg_read g) (<[c := (w_clock w t, None)]> (sg_cons g)) (sg_pel g))) w w') r w') ∧
  wp (consumer_delete st slot key n c) w (λ r w', effect a w w' ∧
    found st slot key H n G w (λ s g gone w', gone = owned_by (sg_pel g) c ∧
      regrouped a H s n (Some (without_consumer g c)) w w') r w') ∧
  (∀ s R n' G', gframe n (s_rest s) R → name_ok n → name_ok n' → n' ≠ n →
     grepr n' (s_rest s) G' → grepr n' R G').
Proof.
  intros a Ha Henv Hroom HH HG Hst Hread Hc Hr. split; [by apply wp_group_create|].
  split; [by apply wp_group_setid|]. split; [by apply wp_group_destroy|]. split; [|split; [by apply wp_consumer_delete|]].
  - apply wp_consumer_create; try done. intros g ->. destruct H as [s|]; [by apply (Hr s g)|done].
  - intros s R n' G' Hf Hn Hn' Hne HG'. by apply (grepr_frame n n' (s_rest s)); auto.
Qed.

(** C14. [XREADGROUP] answers and leaves what it should. For new entries: those
    after the group's last delivered ID, in order and up to the count; each
    becomes pending for the consumer, also when another one held it, unless the
    read needs no acknowledgement, and the group's last ID and count of entries
    read move on with it. For a history: the consumer's own pending entries
    after an ID, an entry that is gone without its fields, and each one that is
    there delivered once more. The consumer is made if it is new, and a poll
    that finds nothing leaves no trace. All counters and the owners' index stay
    exact. *)
Theorem group_reads_refine st slot key H n G c from count noack poll w :
  let a := mkAddr (st_ns st) slot key in
  addr_wf a → env_ok w → srepr a (w_clock w 0%nat) w H → group_at H n G → name_ok c →
  (match from with After after => id_ok after | New => True end) →
  (∀ n, count = Some n → 0 <= n) → room H G 0 →
  wp (read_group st slot key n c from count noack poll) w (λ r w', effect a w w' ∧
    found st slot key H n G w (λ s g served w', ∃ t,
      let x := group_read s g c from count noack poll (w_clock w t) in
      served = x.1 ∧ regrouped a H s n (Some x.2) w w') r w').
Proof. intros. by apply wp_read_group. Qed.

(** C15. [XACK] removes exactly the named entries from those pending and answers
    how many there were. [XCLAIM] gives the named entries to a consumer: those
    idle for long enough, those not pending only by force, and entries that are
    gone are no longer pending. [XAUTOCLAIM] does the same for the entries from
    an ID on, in order, until it has looked at ten times its count or answered
    its count, and says where to go on; its walk in batches of 256 is the walk
    over all of them, and ends within one batch more than there are pending
    entries. All counters, of the old owners too, and the owners' index stay
    exact. *)
Theorem acks_and_claims_refine st slot key H n G c ids min_idle opts start count just_id fuel w :
  let a := mkAddr (st_ns st) slot key in
  addr_wf a → env_ok w → srepr a (w_clock w 0%nat) w H → group_at H n G → name_ok c →
  Forall id_ok ids → opts_ok opts → id_ok start → room H G (1 + len ids) →
  (∀ g, G = Some g → (size (sg_pel g) < fuel)%nat) →
  wp (ack st slot key n ids) w (λ r w', effect a w w' ∧
    found st slot key H n G w (λ s g acked w',
      acked = Z.of_nat (size (sg_pel g)) - Z.of_nat (size (unacked ids (sg_pel g))) ∧
      regrouped a H s n (Some (with_pel g (unacked ids (sg_pel g)))) w w') r w') ∧
  wp (claim st slot key n c ids min_idle opts) w (λ r w', effect a w w' ∧
    found st slot key H n G w (λ s g out w', ∃ t,
      let x := group_claim s g c ids min_idle opts (w_clock w t) in
      out = x.2 ∧ regrouped a H s n (Some x.1) w w') r w') ∧
  wp (autoclaim st slot key fuel n c min_idle start count just_id) w (λ r w', effect a w w' ∧
    found st slot key H n G w (λ s g x w', ∃ t,
      let r := group_autoclaim s g c min_idle start count just_id (w_clock w t) in
      x = mkAutoClaimed (default StreamId_MIN r.2) (au_claimed r.1) (au_gone r.1) ∧
      regrouped a H s n (Some (au_group r.1)) w w') r w').
Proof.
  intros a Ha Henv HH HG Hc Hids Hopts Hstart Hr Hfuel. split; [by apply wp_ack|].
  split; [apply wp_claim|apply wp_autoclaim]; try done; intros s g Es Eg; destruct (Hr s g Es Eg); lia.
Qed.

(** C18. The reads of a group answer from its consumers and pending entries and
    leave everything as it was: [XPENDING] the number of pending entries with
    the first and last ID and each owner's share, or the pending entries
    between two IDs, of one consumer or all, idle for long enough, with their
    idle times and up to the count; [XINFO CONSUMERS] the consumers in name
    order with what each owns; [XINFO GROUPS] every group in name order with
    its counters and lag; [XINFO STREAM] the stream's counters, its first and
    last entry and the number of groups. *)
Theorem group_queries_refine st slot key H n G Gs start stop count consumer min_idle w :
  let a := mkAddr (st_ns st) slot key in
  addr_wf a → env_ok w → srepr a (w_clock w 0%nat) w H → group_at H n G → (∀ s, H = Some s → groups_are s Gs) →
  id_ok start → 0 <= count → (∀ c, consumer = Some c → name_ok c) →
  wp (pending_summary st slot key n) w (λ r w', effect a w w' ∧
    found st slot key H n G w (λ s g x w', x = summary_of g ∧ regrouped a H s n (Some g) w w') r w') ∧
  wp (pending_range st slot key n start stop count consumer min_idle) w (λ r w', effect a w w' ∧
    found st slot key H n G w (λ s g x w', ∃ t,
      x = range_of (sg_pel g) start stop count consumer min_idle (w_clock w t) ∧
      regrouped a H s n (Some g) w w') r w') ∧
  wp (group_consumers st slot key n) w (λ r w', effect a w w' ∧
    found st slot key H n G w (λ s g x w', x = values (consumers_of g) ∧ regrouped a H s n (Some g) w w') r w') ∧
  wp (groups st slot key) w (λ r w', r = Ok
    ((λ s, (λ x : bytes * sgroup, (x.1, group_of x.2, lag_of s x.2)) <$> merge_sort name_le (map_to_list Gs)) <$> H) ∧
    effect a w w' ∧ skeeps a H w w') ∧
  wp (stream_info st slot key) w (λ r w', effect a w w' ∧ skeeps a H w w' ∧
    match H with
    | None => r = Ok None
    | Some s => ∃ base, c_size base = len (s_entries s) ∧ c_bytes base = charged (s_entries s) ∧
        r = Ok (Some (mkInfo (meta_of base s) (first_of s) (head (s_entries s)) (last (s_entries s)) (Z.of_nat (size Gs))))
    end).
Proof.
  intros a Ha Henv HH HG HGs Hstart Hcount Hname. split; [by apply wp_pending_summary|].
  split; [by apply wp_pending_range|]. split; [by apply wp_group_consumers|].
  split; [by apply wp_groups|by apply wp_stream_info].
Qed.

(** A group [g] of two consumers, one of which owns the first entry, and the
    world that holds it with the stream of two entries. *)
Definition demo_group : sgroup :=
  mkSgroup (mkStreamId 1 1) 1 (<[bstr "c" := (4, Some 4)]> {[bstr "d" := (4, None)]})
    {[mkStreamId 1 1 := (bstr "c", 4, 1)]}.

Definition demo_keys : list gkey :=
  [KGroup; KConsumer (bstr "c"); KConsumer (bstr "d"); KPending (mkStreamId 1 1); KOwned (bstr "c") (mkStreamId 1 1)].

(** The rows of some of a group's keys, under a prefix. *)
Fixpoint with_keys (p n : bytes) (g : sgroup) (L : list gkey) (m : kvmap) : kvmap :=
  match L with
  | [] => m
  | k :: L =>
      let m' := with_keys p n g L m in
      match sg_rows g k with Some x => <[p ++ gfield n k := x]> m' | None => m' end
  end.

Definition demo_gstream : stream := with_rest demo_stream (with_keys [] (bstr "g") demo_group demo_keys ∅).

Definition demo_grows : world kvmap :=
  demo_world (with_keys (rprefix Subkey demo_addr 3) (bstr "g") demo_group demo_keys (w_kv demo_stream_rows)).

Definition demo_groups : world kvmap :=
  with_kv demo_grows (<[mkey demo_addr := StreamMeta_encode (mkStreamMeta
      (resized (ComplexMeta_new TStream 3) (len demo_entries) (charged demo_entries) 5)
      (s_last demo_stream) (s_deleted demo_stream) (s_added demo_stream))]> (w_kv demo_grows)).

Lemma with_keys_fresh a v n g L m last :
  addr_wf a → in_width 64 v → v <= last → fresh m last → fresh (with_keys (rprefix Subkey a v) n g L m) last.
Proof.
  intros Ha Hv Hle Hm. induction L as [|k L IH]; [done|]. cbn [with_keys]. destruct (sg_rows g k); [|done]. by apply fresh_row.
Qed.

Lemma with_keys_rows a v n g L m R s :
  rows_at Subkey a v m = stream_rows (with_rest s R) →
  rows_at Subkey a v (with_keys (rprefix Subkey a v) n g L m) = stream_rows (with_rest s (with_keys [] n g L R)).
Proof.
  intros Hm. induction L as [|k L IH]; [done|]. cbn [with_keys]. destruct (sg_rows g k); [|done].
  rewrite rows_at_insert, IH. apply insert_rest, gfield_head.
Qed.

Lemma with_keys_clean n g L f : with_keys [] n g L ∅ !! (STREAM_ENTRY_TAG :: f) = None.
Proof.
  induction L as [|k L IH]; [done|]. cbn [with_keys app]. destruct (sg_rows g k); [|done].
  rewrite lookup_insert_ne; [done|]. intros E. apply (gfield_head n k). by rewrite E.
Qed.

Lemma with_keys_holds n g L :
  Forall gkey_ok L → holds_rows n (λ k, if decide (k ∈ L) then sg_rows g k else None) (with_keys [] n g L ∅).
Proof.
  induction 1 as [|k L Hk HL IH].
  { constructor; [done|]. intros f _ [x Hx]. cbn in Hx. by apply lookup_empty_Some in Hx. }
  cbn [with_keys app]. destruct (sg_rows g k) as [x|] eqn:E.
  - destruct (holds_rows_upd n _ _ k (Some x) Hk IH) as [Hr Hc]. constructor; [|done]. intros k' Hk'. rewrite Hr by done.
    unfold upd. case_decide as Ek; [subst k'; by rewrite decide_True by set_solver|].
    repeat case_decide; set_solver.
  - destruct IH as [Hr Hc]. constructor; [|done]. intros k' Hk'. rewrite Hr by done.
    repeat case_decide; try done; [set_solver|]. destruct (decide (k' = k)) as [->|]; [done|set_solver].
Qed.

Lemma demo_group_wf : sgroup_wf demo_group.
Proof.
  constructor; cbn [demo_group sg_last sg_read sg_cons sg_pel]; [by apply demo_id|done|..].
  - intros c x [[<- <-]|[_ [<- <-]%lookup_singleton_Some]]%lookup_insert_Some; (split; [done|split; [done|]]); [|done].
    intros t [= <-]. done.
  - intros i x [<- <-]%lookup_singleton_Some. split; [by apply demo_id|]. split; [|done]. eexists. cbn. by rewrite lookup_insert_eq.
  - by rewrite map_size_singleton.
  - rewrite map_size_insert_None by done. by rewrite map_size_singleton.
Qed.

Lemma demo_grepr : group_at (Some demo_gstream) (bstr "g") (Some demo_group).
Proof.
  split; [|exact demo_group_wf]. change (s_rest demo_gstream) with (with_keys [] (bstr "g") demo_group demo_keys ∅).
  destruct (with_keys_holds (bstr "g") demo_group demo_keys) as [Hr Hc].
  { repeat constructor; done. }
  constructor; [|done]. intros k Hk. rewrite Hr by done. case_decide as Hin; [done|]. symmetry. apply eq_None_not_Some.
  intros Hs. apply Hin. unfold demo_keys. destruct k as [|c|i|c i]; cbn in Hs; [set_solver|..].
  - apply fmap_is_Some in Hs as [x [[<- _]|[_ [<- _]%lookup_singleton_Some]]%lookup_insert_Some]; set_solver.
  - apply fmap_is_Some in Hs as [x [<- _]%lookup_singleton_Some]. set_solver.
  - case_match eqn:E; [|by destruct Hs]. apply lookup_singleton_Some in E as [<- <-]. case_decide as Ec; [|by destruct Hs].
    cbn in Ec. subst c. set_solver.
Qed.

Lemma demo_groups_env : env_ok demo_groups.
Proof.
  constructor; [by split|]. apply fresh_meta. apply with_keys_fresh; try done. apply fresh_row; try done. by apply fresh_row.
Qed.

Lemma demo_gsrepr now : now = 5 → srepr demo_addr now demo_groups (Some demo_gstream).
Proof.
  intros ->. eexists. apply (sholds_close demo_store 7 (bstr "k") 5 (ComplexMeta_new TStream 3) demo_gstream demo_grows 5);
    [by apply base_ok_new|done| |apply with_rest_wf; [exact demo_stream_wf|apply with_keys_clean]|done..].
  change (c_version (ComplexMeta_new TStream 3)) with 3. change (mkAddr (st_ns demo_store) 7 (bstr "k")) with demo_addr.
  apply with_keys_rows. cbn [demo_stream_rows demo_world w_kv]. rewrite !rows_at_insert. done.
Qed.

Lemma demo_room k : 0 <= k < 100 → room (Some demo_gstream) (Some demo_group) k.
Proof.
  intros Hk s g [= <-] [= <-]. cbn [demo_group sg_cons sg_pel]. rewrite map_size_insert_None, !map_size_singleton by done.
  change (len (s_entries demo_gstream)) with 2. lia.
Qed.

Lemma with_keys_other n g L n' : n ≠ n' → with_keys [] n g L ∅ !! group_field n' = None.
Proof.
  intros Hne. induction L as [|k L IH]; [done|]. cbn [with_keys app]. destruct (sg_rows g k); [|done].
  rewrite lookup_insert_ne; [done|]. intros E. pose proof (f_equal head E) as Eh. destruct k; try done.
  apply Hne. by injection E.
Qed.

Lemma demo_groups_are : groups_are demo_gstream {[bstr "g" := demo_group]}.
Proof.
  intros n. split.
  - destruct (decide (n = bstr "g")) as [->|Hne].
    + rewrite lookup_singleton_eq. destruct demo_grepr as [[Hr _] _]. by apply (Hr KGroup).
    + rewrite lookup_singleton_ne by done. by apply with_keys_other.
  - intros g [_ <-]%lookup_singleton_Some. exact demo_group_wf.
Qed.

(** Deleting the consumer that owns an entry answers one. *)
Lemma group_admin_refines_witness :
  wp (consumer_delete demo_store 7 (bstr "k") (bstr "g") (bstr "c")) demo_groups (λ r w', r = Ok (Yes 1) ∧
    regrouped demo_addr (Some demo_gstream) demo_gstream (bstr "g")
      (Some (without_consumer demo_group (bstr "c"))) demo_groups w').
Proof.
  eapply wp_conseq.
  - apply (group_admin_refines demo_store 7 (bstr "k") (Some demo_gstream) (bstr "g") (Some demo_group) Last true 0
      (bstr "c") demo_groups demo_addr_wf demo_groups_env (demo_headroom _) (demo_gsrepr 5 eq_refl) demo_grepr I);
      [done|done|by apply demo_room].
  - intros r w' (_ & x & -> & -> & Hre). split; [vm_compute; reflexivity|exact Hre].
Defined.

(** The other consumer reads the entry the group has not been handed. *)
Lemma group_reads_refine_witness :
  wp (read_group demo_store 7 (bstr "k") (bstr "g") (bstr "d") New None false false) demo_groups (λ r w',
    r = Ok (Yes (Some [(mkStreamId 4 0, Some [bstr "f"; bstr "yz"])]))).
Proof.
  eapply wp_conseq.
  - apply (group_reads_refine demo_store 7 (bstr "k") (Some demo_gstream) (bstr "g") (Some demo_group)
      (bstr "d") New None false false demo_groups demo_addr_wf demo_groups_env (demo_gsrepr 5 eq_refl) demo_grepr);
      [done|exact I|done|by apply demo_room].
  - intros r w' (_ & x & -> & t & -> & _). vm_compute. reflexivity.
Defined.

(** The other consumer claims the entry that is pending. *)
Lemma acks_and_claims_refine_witness :
  wp (claim demo_store 7 (bstr "k") (bstr "g") (bstr "d") [mkStreamId 1 1] 1 (mkClaimOpts None None false false None))
    demo_groups (λ r w', r = Ok (Yes [(mkStreamId 1 1, Some [bstr "f"; bstr "x"])])).
Proof.
  eapply wp_conseq.
  - apply (acks_and_claims_refine demo_store 7 (bstr "k") (Some demo_gstream) (bstr "g") (Some demo_group)
      (bstr "d") [mkStreamId 1 1] 1 (mkClaimOpts None None false false None) StreamId_MIN 1 false 2%nat
      demo_groups demo_addr_wf demo_groups_env (demo_gsrepr 5 eq_refl) demo_grepr);
      [done|by apply Forall_singleton, demo_id|by constructor|apply id_ok_bounds|by apply demo_room|].
    intros g [= <-]. cbn [demo_group sg_pel]. rewrite map_size_singleton. lia.
  - intros r w' (_ & x & -> & t & -> & _). vm_compute. reflexivity.
Defined.

Lemma group_queries_refine_witness :
  wp (pending_summary demo_store 7 (bstr "k") (bstr "g")) demo_groups (λ r w',
    r = Ok (Yes (mkSummary 1 (Some (mkStreamId 1 1, mkStreamId 1 1)) [(bstr "c", 1)]))).
Proof.
  eapply wp_conseq.
  - apply (group_queries_refine demo_store 7 (bstr "k") (Some demo_gstream) (bstr "g") (Some demo_group)
      {[bstr "g" := demo_group]} StreamId_MIN StreamId_MAX 10 None 0
      demo_groups demo_addr_wf demo_groups_env (demo_gsrepr 5 eq_refl) demo_grepr);
      [|apply id_ok_bounds|done|done].
    intros s [= <-]. exact demo_groups_are.
  - intros r w' (_ & x & -> & -> & _). vm_compute. reflexivity.
Defined.

(** Five entries, of which a group has read two. *)
Definition demo_five : stream :=
  foldl (λ s n, appended s (mkStreamId n 0) []) stream_new [1; 2; 3; 4; 5].
Definition demo_two : sgroup := (group_read demo_five (new_group StreamId_MIN 0) (bstr "c") New (Some 2) true false 7).2.

Lemma demo_add s n :
  moves true (stream_new, new_group StreamId_MIN 0) (s, new_group StreamId_MIN 0) → in_width 64 n →
  StreamId_lt (s_last s) (mkStreamId n 0) → s_added s + 1 < 2 ^ 63 → s_deleted s = StreamId_MIN → id_ok (s_last s) →
  moves true (stream_new, new_group StreamId_MIN 0) (appended s (mkStreamId n 0) [], new_group StreamId_MIN 0).
Proof.
  intros Hs Hn Hlt Ha Hd Hok. eapply moves_step; [done| |].
  - apply move_add; [id_order|done| |done]. split; [by exists 0|split; [done|constructor]].
  - intros _ [[Ho _]|[Ho _]].
    + unfold behind, unread in Ho. cbn [appended s_entries] in Ho. rewrite filter_app, length_app in Ho. lia.
    + apply marked_spec in Ho as (_ & ? & _). done.
Qed.

Lemma demo_moves : moves true (stream_new, new_group StreamId_MIN 0) (demo_five, demo_two).
Proof.
  apply (moves_step _ _ demo_five (new_group StreamId_MIN 0)).
  - unfold demo_five. cbn [foldl]. do 5 (apply demo_add; [|vm_compute; by split|vm_compute; by left|vm_compute; done|done|vm_compute; repeat split; done]).
    constructor.
  - apply (move_read demo_five (new_group StreamId_MIN 0) (bstr "c") New (Some 2) true false 7).
  - intros _ [[Ho _]|[Ho _]]; [lia|]. by apply marked_spec in Ho as (_ & ? & _).
Qed.

(** A trim that passes the group: the lag counts an entry that went. *)
Lemma overtaken_lag :
  let s := trimmed (Some (mkTrim (MaxLen 2) None)) demo_five in
  overtakes demo_five demo_two s ∧ lag_of s demo_two = Some 3 ∧ behind s demo_two = 2.
Proof. cbv zeta. split; [left; split|split]; vm_compute; reflexivity. Qed.

