(* ===== verification/S3fifo.v ===== *)
(** * S3-FIFO admission and eviction (src/crates/flint-storage/src/s3fifo.rs)

    The cache policy as a state machine over its three queues: [small] and
    [main] hold the resident keys, [ghost] remembers keys that left [small]
    unused. [wf] is what the structure keeps true of itself, [reach] the states
    a caller can bring about. The loops run on the budgets the code computes;
    [reclaim_to] runs on the number of resident keys, which
    [reclaim_stops] shows to be enough. *)

From stdpp Require Import base list gmap.
From Stdlib Require Import ZArith Lia.
From S2P Require Import Prelude.

Module S3.

Definition SMALL_SHARE_PCT : Z := 10.
Definition FREQ_MAX : Z := 3.
Definition GHOST_MIN : nat := 16.

Record S3Fifo := mkS3 {
  capacity_bytes : Z;
  small : list bytes;
  main : list bytes;
  ghost : list bytes;
  ghost_set : gset bytes;
  sizes : gmap bytes Z;
  freq : gmap bytes Z;
  small_bytes : Z;
  main_bytes : Z;
}.

Definition new (capacity : Z) : S3Fifo := mkS3 capacity [] [] [] ∅ ∅ ∅ 0 0.

Definition set_capacity_bytes (b : Z) (s : S3Fifo) : S3Fifo :=
  mkS3 b (small s) (main s) (ghost s) (ghost_set s) (sizes s) (freq s)
    (small_bytes s) (main_bytes s).

Definition resident_bytes (s : S3Fifo) : Z := u64 (small_bytes s + main_bytes s).
Definition resident_keys (s : S3Fifo) : nat := size (sizes s).
Definition contains (key : bytes) (s : S3Fifo) : bool := bool_decide (is_Some (sizes s !! key)).

Definition on_access (key : bytes) (s : S3Fifo) : S3Fifo :=
  match freq s !! key with
  | Some f =>
      mkS3 (capacity_bytes s) (small s) (main s) (ghost s) (ghost_set s) (sizes s)
        (<[key := Z.min (u8 (f + 1)) FREQ_MAX]> (freq s)) (small_bytes s) (main_bytes s)
  | None => s
  end.

(** [iter().position(..)] and then [remove(p)]: the first occurrence goes;
    [None] when there is none. *)
Definition take_out (key : bytes) (l : list bytes) : option (list bytes) :=
  match list_find (eq key) l with Some (p, _) => Some (delete p l) | None => None end.

Definition on_admit (key : bytes) (b : Z) (s : S3Fifo) : S3Fifo :=
  if contains key s then on_access key s
  else
    let sizes' := <[key := b]> (sizes s) in
    let freq' := <[key := 0]> (freq s) in
    if decide (key ∈ ghost_set s) then
      mkS3 (capacity_bytes s) (small s) (main s ++ [key]) (default (ghost s) (take_out key (ghost s)))
        (ghost_set s ∖ {[key]}) sizes' freq' (small_bytes s) (u64 (main_bytes s + b))
    else
      mkS3 (capacity_bytes s) (small s ++ [key]) (main s) (ghost s) (ghost_set s)
        sizes' freq' (u64 (small_bytes s + b)) (main_bytes s).

Definition forget (key : bytes) (s : S3Fifo) : S3Fifo :=
  match sizes s !! key with
  | None => s
  | Some b =>
      let '(sm, sb, ma, mb) :=
        match take_out key (small s) with
        | Some sm => (sm, saturating_sub (small_bytes s) b, main s, main_bytes s)
        | None =>
            match take_out key (main s) with
            | Some ma => (small s, small_bytes s, ma, saturating_sub (main_bytes s) b)
            | None => (small s, small_bytes s, main s, main_bytes s)
            end
        end in
      mkS3 (capacity_bytes s) sm ma (ghost s) (ghost_set s)
        (delete key (sizes s)) (delete key (freq s)) sb mb
  end.

Definition small_limit (s : S3Fifo) : Z := u64 (capacity_bytes s * SMALL_SHARE_PCT) / 100.

(** The loop that trims the ghost queue to its bound, oldest first. *)
Fixpoint trim_ghost (limit : nat) (g : list bytes) (gs : gset bytes) : list bytes * gset bytes :=
  match g with
  | old :: g' => if decide (limit < length g)%nat then trim_ghost limit g' (gs ∖ {[old]}) else (g, gs)
  | [] => (g, gs)
  end.

Definition push_ghost (key : bytes) (s : S3Fifo) : S3Fifo :=
  let limit := Nat.max (size (sizes s)) GHOST_MIN in
  let '(g, gs) := trim_ghost limit (ghost s ++ [key]) ({[key]} ∪ ghost_set s) in
  mkS3 (capacity_bytes s) (small s) (main s) g gs (sizes s) (freq s) (small_bytes s) (main_bytes s).

Definition step_small (s : S3Fifo) : S3Fifo * option bytes :=
  match small s with
  | [] => (s, None)
  | key :: sm =>
      match sizes s !! key with
      | None =>
          (mkS3 (capacity_bytes s) sm (main s) (ghost s) (ghost_set s) (sizes s) (freq s)
             (small_bytes s) (main_bytes s), None)
      | Some b =>
          let sb := saturating_sub (small_bytes s) b in
          if 0 <? default 0 (freq s !! key) then
            (mkS3 (capacity_bytes s) sm (main s ++ [key]) (ghost s) (ghost_set s) (sizes s)
               (<[key := 0]> (freq s)) sb (u64 (main_bytes s + b)), None)
          else
            (push_ghost key
               (mkS3 (capacity_bytes s) sm (main s) (ghost s) (ghost_set s)
                  (delete key (sizes s)) (delete key (freq s)) sb (main_bytes s)), Some key)
      end
  end.

Definition step_main (s : S3Fifo) : S3Fifo * option bytes :=
  match main s with
  | [] => (s, None)
  | key :: ma =>
      match sizes s !! key with
      | None =>
          (mkS3 (capacity_bytes s) (small s) ma (ghost s) (ghost_set s) (sizes s) (freq s)
             (small_bytes s) (main_bytes s), None)
      | Some b =>
          let f := default 0 (freq s !! key) in
          if 0 <? f then
            (mkS3 (capacity_bytes s) (small s) (ma ++ [key]) (ghost s) (ghost_set s) (sizes s)
               (<[key := f - 1]> (freq s)) (small_bytes s) (main_bytes s), None)
          else
            (mkS3 (capacity_bytes s) (small s) ma (ghost s) (ghost_set s)
               (delete key (sizes s)) (delete key (freq s)) (small_bytes s)
               (saturating_sub (main_bytes s) b), Some key)
      end
  end.

(** One turn of [evict_one]'s loop: [None] when both queues are empty. *)
Definition evict_step (s : S3Fifo) : option (S3Fifo * option bytes) :=
  if (small_limit s <? small_bytes s) && negb (bool_decide (small s = [])) then Some (step_small s)
  else if negb (bool_decide (main s = [])) then Some (step_main s)
  else if negb (bool_decide (small s = [])) then Some (step_small s)
  else None.

Fixpoint evict_loop (budget : nat) (s : S3Fifo) : S3Fifo * option bytes :=
  match budget with
  | O => (s, None)
  | S budget' =>
      match evict_step s with
      | None => (s, None)
      | Some (s', Some k) => (s', Some k)
      | Some (s', None) => evict_loop budget' s'
      end
  end.

Definition evict_one (s : S3Fifo) : S3Fifo * option bytes :=
  evict_loop (length (small s) + length (main s) + 1) s.

(** [None] when the fuel runs out before the loop has ended. *)
Fixpoint reclaim_loop (fuel : nat) (target : Z) (s : S3Fifo) (out : list bytes) :
    option (S3Fifo * list bytes) :=
  if target <? resident_bytes s then
    match fuel with
    | O => None
    | S fuel' =>
        match evict_one s with
        | (s', Some k) => reclaim_loop fuel' target s' (out ++ [k])
        | (s', None) => Some (s', out)
        end
    end
  else Some (s, out).

Definition reclaim_to (target : Z) (s : S3Fifo) : option (S3Fifo * list bytes) :=
  reclaim_loop (S (resident_keys s)) target s [].

(** What a caller can do to the cache. [Reclaim] stands for [reclaim_to] with
    the keys it answers dropped. *)
Inductive op :=
| Access (key : bytes)
| Admit (key : bytes) (b : Z)
| Forget (key : bytes)
| Resize (b : Z)
| Reclaim (target : Z).

Definition apply (o : op) (s : S3Fifo) : option S3Fifo :=
  match o with
  | Access key => Some (on_access key s)
  | Admit key b => Some (on_admit key b s)
  | Forget key => Some (forget key s)
  | Resize b => Some (set_capacity_bytes b s)
  | Reclaim target => option_map fst (reclaim_to target s)
  end.

(** An admission's size is a [u64] and the resident total stays one. *)
Definition op_ok (o : op) (s : S3Fifo) : Prop :=
  match o with
  | Admit _ b => 0 <= b /\ resident_bytes s + b < 2 ^ 64
  | _ => True
  end.

Inductive reach : S3Fifo → Prop :=
| reach_new capacity : reach (new capacity)
| reach_op o s s' : reach s → op_ok o s → apply o s = Some s' → reach s'.

(** The bytes the keys of [l] hold. *)
Definition queue_bytes (sz : gmap bytes Z) (l : list bytes) : Z :=
  foldr (λ k a, default 0 (sz !! k) + a) 0 l.

Record wf (s : S3Fifo) : Prop := {
  wf_nodup : NoDup (small s ++ main s);
  wf_keys : ∀ k, k ∈ small s ++ main s ↔ is_Some (sizes s !! k);
  wf_freq : ∀ k, is_Some (freq s !! k) ↔ is_Some (sizes s !! k);
  wf_range : map_Forall (λ _ f, 0 <= f <= FREQ_MAX) (freq s);
  wf_sizes : map_Forall (λ _ b, 0 <= b) (sizes s);
  wf_small : small_bytes s = queue_bytes (sizes s) (small s);
  wf_main : main_bytes s = queue_bytes (sizes s) (main s);
  wf_fits : small_bytes s + main_bytes s < 2 ^ 64;
  wf_ghost : NoDup (ghost s);
  wf_ghost_set : ∀ k, k ∈ ghost_set s ↔ k ∈ ghost s;
  wf_ghost_out : ∀ k, k ∈ ghost s → sizes s !! k = None;
}.

(** [n] calls of [reclaim_to] in a row. *)
Fixpoint reclaims (n : nat) (target : Z) (s : S3Fifo) : option S3Fifo :=
  match n with
  | O => Some s
  | S n' => match reclaim_to target s with
            | Some (s', _) => reclaims n' target s'
            | None => None
            end
  end.

(** A scan: every key is admitted once and the cache brought back to its
    capacity. *)
Fixpoint scan (l : list (bytes * Z)) (s : S3Fifo) : option S3Fifo :=
  match l with
  | [] => Some s
  | (key, b) :: l' =>
      match reclaim_to (capacity_bytes s) (on_admit key b s) with
      | Some (s', _) => scan l' s'
      | None => None
      end
  end.

(** No key of [main] has more than [M] reprieves left. *)
Definition hot (M : Z) (l : list bytes) (fm : gmap bytes Z) : Prop :=
  ∀ k, k ∈ l → default 0 (fm !! k) <= M.
Definition cool (M : Z) (s : S3Fifo) : Prop := hot M (main s) (freq s).

(** ** Weights and queues *)

Lemma queue_bytes_app sz a b : queue_bytes sz (a ++ b) = queue_bytes sz a + queue_bytes sz b.
Proof. induction a as [|x a IH]; simpl; [done|]. unfold queue_bytes in *; simpl. lia. Qed.

Lemma queue_bytes_cons sz k l : queue_bytes sz (k :: l) = default 0 (sz !! k) + queue_bytes sz l.
Proof. done. Qed.

Lemma weight_ext sz sz' l : (∀ k, k ∈ l → sz !! k = sz' !! k) → queue_bytes sz l = queue_bytes sz' l.
Proof.
  induction l as [|x l IH]; intros H; [done|]. rewrite !queue_bytes_cons, IH, (H x) by set_solver. done.
Qed.

Lemma queue_bytes_insert sz k b l : k ∉ l → queue_bytes (<[k := b]> sz) l = queue_bytes sz l.
Proof. intros. apply weight_ext. intros k' Hk. apply lookup_insert_ne. congruence. Qed.

Lemma queue_bytes_delete sz k l : k ∉ l → queue_bytes (delete k sz) l = queue_bytes sz l.
Proof. intros. apply weight_ext. intros k' Hk. apply lookup_delete_ne. congruence. Qed.

Lemma queue_bytes_nonneg sz l : map_Forall (λ _ b, 0 <= b) sz → 0 <= queue_bytes sz l.
Proof.
  intros H. induction l as [|x l IH]; [done|]. rewrite queue_bytes_cons.
  destruct (sz !! x) as [b|] eqn:E; simpl; [specialize (H _ _ E); simpl in H|]; lia.
Qed.

#[global] Instance weight_proper sz : Proper ((≡ₚ) ==> (=)) (queue_bytes sz).
Proof. induction 1; rewrite ?queue_bytes_cons; lia. Qed.

Lemma take_out_Some k l l' : take_out k l = Some l' → l ≡ₚ k :: l'.
Proof.
  unfold take_out. destruct (list_find (eq k) l) as [[i x]|] eqn:E; [|done]. intros [= <-].
  apply list_find_Some in E as (Hi & <- & _). by apply delete_Permutation.
Qed.

Lemma take_out_None k l : take_out k l = None → k ∉ l.
Proof.
  unfold take_out. destruct (list_find (eq k) l) as [[i x]|] eqn:E; [done|]. intros _ Hk.
  apply list_find_None in E. rewrite Forall_forall in E. by apply (E k).
Qed.

Lemma trim_ghost_spec limit g gs g' gs' :
  NoDup g → (∀ k, k ∈ gs ↔ k ∈ g) → trim_ghost limit g gs = (g', gs') →
  NoDup g' ∧ (∀ k, k ∈ gs' ↔ k ∈ g') ∧ (∀ k, k ∈ g' → k ∈ g) ∧ (length g' ≤ limit)%nat.
Proof.
  revert gs. induction g as [|old g IH]; intros gs Hd Hs; simpl.
  - intros [= <- <-]. repeat split; try done; [apply Hs|apply Hs|simpl; lia].
  - apply NoDup_cons in Hd as [Hin Hd]. case_decide as Hlen.
    + intros H. apply IH in H as (?&?&Hsub&?); [|done|].
      * repeat split; try done; try apply H0. intros k Hk. right. auto.
      * intros k. rewrite elem_of_difference, elem_of_singleton, Hs, elem_of_cons.
        split; [tauto|]. intros Hk. split; [by right|]. by intros ->.
    + intros [= <- <-]. repeat split; try apply Hs; try done; [by apply NoDup_cons|simpl in *; lia].
Qed.

Lemma resident_wf s : wf s → resident_bytes s = queue_bytes (sizes s) (small s ++ main s).
Proof.
  intros H. unfold resident_bytes. rewrite queue_bytes_app, (wf_small _ H), (wf_main _ H).
  pose proof (queue_bytes_nonneg _ (small s) (wf_sizes _ H)).
  pose proof (queue_bytes_nonneg _ (main s) (wf_sizes _ H)).
  unfold wrap. rewrite Z.mod_small; [done|]. rewrite <- (wf_small _ H), <- (wf_main _ H) at 2.
  pose proof (wf_fits _ H). lia.
Qed.

(** ** Every operation keeps the invariant *)

Lemma wf_new capacity : wf (new capacity).
Proof.
  constructor; simpl; try done; try apply NoDup_nil_2; try set_solver.
  - intros k. rewrite lookup_empty. split; [set_solver|by intros []].
Qed.

Lemma wf_resize b s : wf s → wf (set_capacity_bytes b s).
Proof. by intros []; constructor. Qed.

Lemma wf_access key s : wf s → wf (on_access key s).
Proof.
  intros H. unfold on_access. destruct (freq s !! key) as [f|] eqn:E; [|done].
  destruct H as [? ? Hf Hr ? ? ? ? ? ? ?]. constructor; simpl; try done.
  - intros k. rewrite <- Hf. destruct (decide (k = key)) as [->|].
    + rewrite lookup_insert_eq, E. split; by eexists.
    + by rewrite lookup_insert_ne.
  - apply map_Forall_insert_2; [|done]. specialize (Hr _ _ E). simpl in Hr.
    unfold FREQ_MAX, wrap in *. rewrite Z.mod_small; lia.
Qed.

Lemma not_contains key s : contains key s = false → sizes s !! key = None.
Proof. unfold contains. rewrite bool_decide_eq_false. destruct (sizes s !! key); [|done]. intros []; by eexists. Qed.

Lemma wf_out s key : wf s → sizes s !! key = None → key ∉ small s ∧ key ∉ main s.
Proof.
  intros H E. pose proof (wf_keys _ H key) as Hk. rewrite E, elem_of_app in Hk.
  split; intros ?; destruct Hk as [Hk _]; destruct (Hk ltac:(tauto)); done.
Qed.

Lemma wf_bytes s : wf s → 0 <= small_bytes s ∧ 0 <= main_bytes s.
Proof. intros H. rewrite (wf_small _ H), (wf_main _ H). split; by apply queue_bytes_nonneg, wf_sizes. Qed.

Lemma u64_sum x b t : 0 <= x → 0 <= b → x + b <= t → t < 2 ^ 64 → u64 (x + b) = x + b.
Proof. intros. unfold wrap. apply Z.mod_small. lia. Qed.

Lemma resident_sum s : wf s → resident_bytes s = small_bytes s + main_bytes s.
Proof. intros H. rewrite resident_wf, queue_bytes_app, (wf_small _ H), (wf_main _ H); done. Qed.

(** A fresh key in the queues, with the rows it gets. *)
Lemma entered key b s l :
  wf s → sizes s !! key = None → 0 <= b → l ≡ₚ key :: (small s ++ main s) →
  NoDup l ∧ (∀ k, k ∈ l ↔ is_Some (<[key := b]> (sizes s) !! k)) ∧
  (∀ k, is_Some (<[key := 0]> (freq s) !! k) ↔ is_Some (<[key := b]> (sizes s) !! k)) ∧
  map_Forall (λ _ f, 0 <= f <= FREQ_MAX) (<[key := 0]> (freq s)) ∧
  map_Forall (λ _ x, 0 <= x) (<[key := b]> (sizes s)).
Proof.
  intros H E Hb Hl. destruct (wf_out _ _ H E). split_and!.
  - rewrite Hl. apply NoDup_cons. split; [rewrite elem_of_app; tauto|apply H].
  - intros k. rewrite Hl, elem_of_cons, (wf_keys _ H). destruct (decide (k = key)) as [->|].
    + rewrite lookup_insert_eq. split; [by eexists|by left].
    + rewrite lookup_insert_ne by done. tauto.
  - intros k. destruct (decide (k = key)) as [->|].
    + rewrite !lookup_insert_eq. split; by eexists.
    + rewrite !lookup_insert_ne by done. apply (wf_freq _ H).
  - apply map_Forall_insert_2; [unfold FREQ_MAX; lia|apply H].
  - apply map_Forall_insert_2; [done|apply H].
Qed.

Lemma wf_admit key b s :
  wf s → 0 <= b → resident_bytes s + b < 2 ^ 64 → wf (on_admit key b s).
Proof.
  intros H Hb. rewrite resident_sum by done. intros Hfit. unfold on_admit.
  destruct (contains key s) eqn:Ec; [by apply wf_access|]. apply not_contains in Ec.
  destruct (wf_out _ _ H Ec) as [Hsm Hma]. destruct (wf_bytes _ H) as [Hs0 Hm0].
  case_decide as Hg.
  - apply (wf_ghost_set _ H) in Hg. destruct (take_out key (ghost s)) as [g|] eqn:Eg;
      [|by apply take_out_None in Eg]. apply take_out_Some in Eg. simpl.
    pose proof (wf_ghost _ H) as Hnoh. rewrite Eg in Hnoh. apply NoDup_cons in Hnoh as [Hkg Hnoh].
    destruct (entered key b s (small s ++ main s ++ [key])) as (?&?&?&?&?); try done.
    { solve_Permutation. }
    constructor; simpl; try done; rewrite ?(u64_sum _ _ (small_bytes s + main_bytes s + b)) by lia.
    + rewrite queue_bytes_insert by done. apply H.
    + rewrite queue_bytes_app, queue_bytes_cons, lookup_insert_eq, queue_bytes_insert, (wf_main _ H) by done.
      simpl. lia.
    + lia.
    + intros k. rewrite elem_of_difference, elem_of_singleton, (wf_ghost_set _ H), Eg, elem_of_cons.
      split; [tauto|]. intros ?. split; [by right|]. by intros ->.
    + intros k Hk. rewrite lookup_insert_ne by (by intros ->). apply (wf_ghost_out _ H).
      rewrite Eg. by right.
  - destruct (entered key b s ((small s ++ [key]) ++ main s)) as (?&?&?&?&?); try done.
    { solve_Permutation. }
    constructor; simpl; try done; try apply H;
      rewrite ?(u64_sum _ _ (small_bytes s + main_bytes s + b)) by lia.
    + rewrite queue_bytes_app, queue_bytes_cons, lookup_insert_eq, queue_bytes_insert, (wf_small _ H) by done.
      simpl. lia.
    + rewrite queue_bytes_insert by done. apply H.
    + lia.
    + intros k Hk. rewrite lookup_insert_ne; [by apply (wf_ghost_out _ H)|].
      intros ->. apply Hg. by apply (wf_ghost_set _ H).
Qed.

(** A resident key out of the queues, with its rows gone. *)
Lemma departed key b s l :
  wf s → sizes s !! key = Some b → small s ++ main s ≡ₚ key :: l →
  0 <= b ∧ key ∉ l ∧ NoDup l ∧ (∀ k, k ∈ l ↔ is_Some (delete key (sizes s) !! k)) ∧
  (∀ k, is_Some (delete key (freq s) !! k) ↔ is_Some (delete key (sizes s) !! k)) ∧
  map_Forall (λ _ f, 0 <= f <= FREQ_MAX) (delete key (freq s)) ∧
  map_Forall (λ _ x, 0 <= x) (delete key (sizes s)) ∧
  (∀ k, k ∈ ghost s → delete key (sizes s) !! k = None).
Proof.
  intros H E Hl. pose proof (wf_nodup _ H) as Hd. rewrite Hl in Hd.
  apply NoDup_cons in Hd as [Hin Hd]. split_and!; try done.
  - apply (wf_sizes _ H _ _ E).
  - intros k. pose proof (wf_keys _ H k) as Hk. rewrite Hl, elem_of_cons in Hk.
    destruct (decide (k = key)) as [->|].
    + rewrite lookup_delete_eq. split; [done|by intros []].
    + rewrite lookup_delete_ne by done. tauto.
  - intros k. destruct (decide (k = key)) as [->|].
    + rewrite !lookup_delete_eq. split; by intros [].
    + rewrite !lookup_delete_ne by done. apply (wf_freq _ H).
  - apply map_Forall_delete, H.
  - apply map_Forall_delete, H.
  - intros k Hk. apply lookup_delete_None. right. by apply (wf_ghost_out _ H).
Qed.

Lemma saturating_sub_le a b : b <= a → saturating_sub a b = a - b.
Proof. unfold saturating_sub. lia. Qed.

Lemma weight_out sz key b l l' :
  sz !! key = Some b → l ≡ₚ key :: l' → queue_bytes sz l = b + queue_bytes sz l'.
Proof. intros E ->. by rewrite queue_bytes_cons, E. Qed.

Lemma wf_forget key s : wf s → wf (forget key s).
Proof.
  intros H. unfold forget. destruct (sizes s !! key) as [b|] eqn:E; [|done].
  pose proof (wf_bytes _ H) as [? ?]. pose proof (wf_fits _ H).
  destruct (take_out key (small s)) as [sm|] eqn:Es;
    [|destruct (take_out key (main s)) as [ma|] eqn:Em].
  - apply take_out_Some in Es. pose proof (weight_out _ _ _ _ _ E Es) as Hw.
    destruct (departed key b s (sm ++ main s)) as (?&Hk&?&?&?&?&?&?); try done.
    { rewrite Es. solve_Permutation. }
    pose proof (queue_bytes_nonneg (sizes s) sm (wf_sizes _ H)).
    apply not_elem_of_app in Hk as [? ?].
    constructor; simpl; try done; try apply H; rewrite ?queue_bytes_delete by done.
    + rewrite saturating_sub_le; rewrite (wf_small _ H); lia.
    + apply H.
    + rewrite saturating_sub_le; [lia|]. rewrite (wf_small _ H). lia.
  - apply take_out_Some in Em. pose proof (weight_out _ _ _ _ _ E Em) as Hw.
    destruct (departed key b s (small s ++ ma)) as (?&Hk&?&?&?&?&?&?); try done.
    { rewrite Em. solve_Permutation. }
    pose proof (queue_bytes_nonneg (sizes s) ma (wf_sizes _ H)).
    apply not_elem_of_app in Hk as [? ?].
    constructor; simpl; try done; try apply H; rewrite ?queue_bytes_delete by done.
    + apply H.
    + rewrite saturating_sub_le; rewrite (wf_main _ H); lia.
    + rewrite saturating_sub_le; [lia|]. rewrite (wf_main _ H). lia.
  - apply take_out_None in Es, Em. exfalso.
    assert (key ∈ small s ++ main s) as Hin by (apply (wf_keys _ H); by eexists).
    rewrite elem_of_app in Hin. tauto.
Qed.

(** The state after the head of [small] was promoted, and after it was
    evicted. *)
Definition promoted (s : S3Fifo) (key : bytes) (sm : list bytes) (b : Z) : S3Fifo :=
  mkS3 (capacity_bytes s) sm (main s ++ [key]) (ghost s) (ghost_set s) (sizes s)
    (<[key := 0]> (freq s)) (saturating_sub (small_bytes s) b) (u64 (main_bytes s + b)).

Definition dropped (s : S3Fifo) (key : bytes) (sm : list bytes) (b : Z) : S3Fifo :=
  push_ghost key
    (mkS3 (capacity_bytes s) sm (main s) (ghost s) (ghost_set s)
       (delete key (sizes s)) (delete key (freq s)) (saturating_sub (small_bytes s) b) (main_bytes s)).

Lemma small_head s key sm b :
  wf s → small s = key :: sm → sizes s !! key = Some b →
  small_bytes s = b + queue_bytes (sizes s) sm ∧ 0 <= b ∧ 0 <= queue_bytes (sizes s) sm.
Proof.
  intros H Es E. rewrite (wf_small _ H), Es, queue_bytes_cons, E.
  split_and!; [done|apply (wf_sizes _ H _ _ E)|by apply queue_bytes_nonneg, wf_sizes].
Qed.

Lemma wf_promoted s key sm b :
  wf s → small s = key :: sm → sizes s !! key = Some b → wf (promoted s key sm b).
Proof.
  intros H Es E. destruct (small_head _ _ _ _ H Es E) as (Hw & ? & ?).
  pose proof (wf_bytes _ H) as [? ?]. pose proof (wf_fits _ H). unfold promoted.
  rewrite saturating_sub_le, (u64_sum _ _ (small_bytes s + main_bytes s)) by lia.
  constructor; simpl; try done; try apply H.
  - assert (sm ++ main s ++ [key] ≡ₚ small s ++ main s) as -> by (rewrite Es; solve_Permutation).
    apply H.
  - intros k. rewrite <- (wf_keys _ H), Es. set_solver.
  - intros k. rewrite <- (wf_freq _ H). destruct (decide (k = key)) as [->|].
    + rewrite lookup_insert_eq. split; [|by eexists]. intros _. apply (wf_freq _ H). by eexists.
    + by rewrite lookup_insert_ne.
  - apply map_Forall_insert_2; [unfold FREQ_MAX; lia|apply H].
  - lia.
  - rewrite queue_bytes_app, queue_bytes_cons, E, (wf_main _ H). simpl. lia.
  - lia.
Qed.

Lemma wf_dropped s key sm b :
  wf s → small s = key :: sm → sizes s !! key = Some b →
  wf (dropped s key sm b) ∧ capacity_bytes (dropped s key sm b) = capacity_bytes s ∧
  small (dropped s key sm b) = sm ∧ main (dropped s key sm b) = main s ∧
  sizes (dropped s key sm b) = delete key (sizes s) ∧ freq (dropped s key sm b) = delete key (freq s) ∧
  (∀ k, k ∈ ghost (dropped s key sm b) → k = key ∨ k ∈ ghost s) ∧
  (length (ghost (dropped s key sm b)) ≤ Nat.max (size (delete key (sizes s))) GHOST_MIN)%nat.
Proof.
  intros H Es E. destruct (small_head _ _ _ _ H Es E) as (Hw & ? & ?).
  pose proof (wf_bytes _ H) as [? ?]. pose proof (wf_fits _ H).
  destruct (departed key b s (sm ++ main s)) as (?&Hk&?&?&?&?&?&?); try done. { by rewrite Es. }
  apply not_elem_of_app in Hk as [? ?]. unfold dropped, push_ghost; simpl.
  destruct (trim_ghost _ _ _) as [g gs] eqn:Eg; simpl.
  apply trim_ghost_spec in Eg as (?&?&Hsub&?).
  - split_and!; try done; [|intros k Hk; apply Hsub in Hk; set_solver].
    rewrite saturating_sub_le by lia.
    constructor; simpl; try done; rewrite ?queue_bytes_delete by done; try lia; try apply H.
    intros k Hk. apply Hsub, elem_of_app in Hk as [?|Hk]; [auto|].
    apply list_elem_of_singleton in Hk as ->. apply lookup_delete_eq.
  - apply NoDup_app. split_and!; [apply H| |apply NoDup_singleton].
    intros k Hk ->%list_elem_of_singleton. apply (wf_ghost_out _ H) in Hk. congruence.
  - intros k. rewrite elem_of_union, elem_of_singleton, elem_of_app, list_elem_of_singleton, (wf_ghost_set _ H).
    tauto.
Qed.

(** The state after the head of [main] was reprieved, and after it was
    evicted. *)
Definition reprieved (s : S3Fifo) (key : bytes) (ma : list bytes) (f : Z) : S3Fifo :=
  mkS3 (capacity_bytes s) (small s) (ma ++ [key]) (ghost s) (ghost_set s) (sizes s)
    (<[key := f - 1]> (freq s)) (small_bytes s) (main_bytes s).

Definition evicted (s : S3Fifo) (key : bytes) (ma : list bytes) (b : Z) : S3Fifo :=
  mkS3 (capacity_bytes s) (small s) ma (ghost s) (ghost_set s) (delete key (sizes s))
    (delete key (freq s)) (small_bytes s) (saturating_sub (main_bytes s) b).

Lemma wf_reprieved s key ma f :
  wf s → main s = key :: ma → freq s !! key = Some f → 0 < f → wf (reprieved s key ma f).
Proof.
  intros H Em Ef Hf. pose proof (wf_range _ H _ _ Ef) as Hr. simpl in Hr.
  constructor; simpl; try done; try apply H.
  - assert (small s ++ ma ++ [key] ≡ₚ small s ++ main s) as -> by (rewrite Em; solve_Permutation).
    apply H.
  - intros k. rewrite <- (wf_keys _ H), Em. set_solver.
  - intros k. rewrite <- (wf_freq _ H). destruct (decide (k = key)) as [->|].
    + rewrite lookup_insert_eq, Ef. split; by eexists.
    + by rewrite lookup_insert_ne.
  - apply map_Forall_insert_2; [lia|apply H].
  - rewrite (wf_main _ H), Em, queue_bytes_app, !queue_bytes_cons. unfold queue_bytes at 3. simpl. lia.
Qed.

Lemma wf_evicted s key ma b :
  wf s → main s = key :: ma → sizes s !! key = Some b → wf (evicted s key ma b).
Proof.
  intros H Em E. pose proof (wf_bytes _ H) as [? ?]. pose proof (wf_fits _ H).
  destruct (departed key b s (small s ++ ma)) as (?&Hk&?&?&?&?&?&?); try done.
  { rewrite Em. solve_Permutation. }
  apply not_elem_of_app in Hk as [? ?].
  assert (main_bytes s = b + queue_bytes (sizes s) ma) as Hw by (by rewrite (wf_main _ H), Em, queue_bytes_cons, E).
  pose proof (queue_bytes_nonneg (sizes s) ma (wf_sizes _ H)). unfold evicted.
  rewrite saturating_sub_le by lia.
  constructor; simpl; try done; rewrite ?queue_bytes_delete by done; try lia; apply H.
Qed.

(** One turn of the hand, in its four cases. *)
Inductive turn (s : S3Fifo) : S3Fifo → option bytes → Prop :=
| turn_promote key sm b :
    small s = key :: sm → sizes s !! key = Some b → 0 < default 0 (freq s !! key) →
    turn s (promoted s key sm b) None
| turn_drop key sm b :
    small s = key :: sm → sizes s !! key = Some b → default 0 (freq s !! key) = 0 →
    turn s (dropped s key sm b) (Some key)
| turn_reprieve key ma f :
    main s = key :: ma → freq s !! key = Some f → 0 < f → turn s (reprieved s key ma f) None
| turn_evict key ma b :
    main s = key :: ma → sizes s !! key = Some b → default 0 (freq s !! key) = 0 →
    turn s (evicted s key ma b) (Some key).

Lemma wf_head s key : wf s → key ∈ small s ++ main s →
  ∃ b f, sizes s !! key = Some b ∧ freq s !! key = Some f ∧ 0 <= f.
Proof.
  intros H Hin. destruct (proj1 (wf_keys _ H key) Hin) as [b E].
  destruct (proj2 (wf_freq _ H key)) as [f Ef]; [by eexists|].
  pose proof (wf_range _ H _ _ Ef) as Hr. simpl in Hr. eauto with lia.
Qed.

Lemma step_small_turn s :
  wf s → small s ≠ [] → turn s (step_small s).1 (step_small s).2.
Proof.
  intros H Hne. destruct (small s) as [|key sm] eqn:Es; [done|].
  destruct (wf_head s key H) as (b & f & E & Ef & Hf); [rewrite Es; left|].
  unfold step_small. rewrite Es, E, Ef. simpl. destruct (Z.ltb_spec 0 f); simpl.
  - eapply turn_promote; rewrite ?Ef; done.
  - eapply turn_drop; rewrite ?Ef; simpl; try done. lia.
Qed.

Lemma step_main_turn s :
  wf s → main s ≠ [] → turn s (step_main s).1 (step_main s).2.
Proof.
  intros H Hne. destruct (main s) as [|key ma] eqn:Em; [done|].
  destruct (wf_head s key H) as (b & f & E & Ef & Hf); [rewrite Em; set_solver|].
  unfold step_main. rewrite Em, E, Ef. simpl. destruct (Z.ltb_spec 0 f); simpl.
  - by eapply turn_reprieve.
  - eapply turn_evict; rewrite ?Ef; simpl; try done. lia.
Qed.

Lemma evict_step_turn s s' r : wf s → evict_step s = Some (s', r) → turn s s' r.
Proof.
  intros H. unfold evict_step. pose proof (step_small_turn s H). pose proof (step_main_turn s H).
  destruct (bool_decide_reflect (small s = [])), (bool_decide_reflect (main s = [])),
    (small_limit s <? small_bytes s); simpl; intros [= Heq]; rewrite Heq in *; auto.
Qed.

Lemma evict_step_empty s : evict_step s = None → small s = [] ∧ main s = [].
Proof.
  unfold evict_step.
  destruct (bool_decide_reflect (small s = [])), (bool_decide_reflect (main s = [])),
    (small_limit s <? small_bytes s); done.
Qed.

(** What a turn, and a whole eviction, leaves: the same keys, or one fewer. *)
Definition outcome (s s' : S3Fifo) (r : option bytes) : Prop :=
  wf s' ∧ capacity_bytes s' = capacity_bytes s ∧
  match r with
  | Some k => ∃ b, sizes s !! k = Some b ∧ sizes s' = delete k (sizes s) ∧
                   small s ++ main s ≡ₚ k :: (small s' ++ main s')
  | None => sizes s' = sizes s ∧ small s ++ main s ≡ₚ small s' ++ main s'
  end.

Lemma turn_wf s s' r :
  wf s → turn s s' r →
  outcome s s' r.
Proof.
  intros H []; simpl.
  - split_and!; try done; [by apply wf_promoted|]. rewrite H0. solve_Permutation.
  - destruct (wf_dropped s key sm b) as (?&?&Hs&Hm&?&?&?&?); try done.
    split_and!; try done. exists b. rewrite Hs, Hm, H0. done.
  - split_and!; try done; [by apply wf_reprieved|]. rewrite H0. solve_Permutation.
  - split_and!; try done; [by apply wf_evicted|]. exists b. rewrite H0. split_and!; try done.
    solve_Permutation.
Qed.

Lemma evict_loop_spec n s s' r :
  wf s → evict_loop n s = (s', r) →
  outcome s s' r.
Proof.
  revert s. induction n as [|n IH]; intros s H; simpl; [by intros [= <- <-]|].
  destruct (evict_step s) as [[s1 [k|]]|] eqn:E; [| |by intros [= <- <-]].
  - intros [= <- <-]. by apply (turn_wf s), evict_step_turn.
  - intros Hl. apply evict_step_turn, turn_wf in E as (H1 & Hc & Hs & Hp); [|done..].
    apply IH in Hl as (? & ? & Hl); [|done]. split_and!; [done|congruence|].
    rewrite Hs in Hl. destruct r as [k|].
    + destruct Hl as (b & ? & ? & Hp'). exists b. by rewrite Hp.
    + destruct Hl as [? Hp']. by rewrite Hp.
Qed.

Lemma evict_one_weight s s' k :
  wf s → evict_one s = (s', Some k) →
  wf s' ∧ capacity_bytes s' = capacity_bytes s ∧ sizes s' = delete k (sizes s) ∧ is_Some (sizes s !! k) ∧
  (size (sizes s') < size (sizes s))%nat ∧
  resident_bytes s' = resident_bytes s - default 0 (sizes s !! k).
Proof.
  intros H E. apply evict_loop_spec in E as (H' & Hc & b & Hk & Hs & Hp); [|done].
  split; [done|]. split; [done|]. split; [done|]. split; [by rewrite Hk|]. split.
  - rewrite Hs, map_size_delete, Hk. assert (size (sizes s) ≠ 0%nat); [|lia].
    intros Hz%map_size_empty_inv. by rewrite Hz, lookup_empty in Hk.
  - rewrite !resident_wf by done. rewrite Hp, queue_bytes_cons, Hk, Hs. simpl.
    rewrite queue_bytes_delete; [lia|]. pose proof (wf_nodup _ H) as Hd. rewrite Hp in Hd.
    by apply NoDup_cons in Hd as [? _].
Qed.

(** What is left of a map when the keys [ks] are gone. *)
Definition forgotten (ks : list bytes) (m : gmap bytes Z) : gmap bytes Z := foldl (λ m k, delete k m) m ks.

Lemma lookup_forgotten ks m k :
  forgotten ks m !! k = if bool_decide (k ∈ ks) then None else m !! k.
Proof.
  revert m. induction ks as [|x ks IH]; intros m; [by rewrite bool_decide_eq_false_2 by set_solver|].
  unfold forgotten in *. simpl. rewrite IH. destruct (decide (k = x)) as [->|].
  - rewrite lookup_delete_eq, (bool_decide_eq_true_2 (x ∈ x :: ks)) by set_solver. by case_bool_decide.
  - rewrite lookup_delete_ne by done. erewrite (bool_decide_ext (k ∈ x :: ks)); [done|set_solver].
Qed.

(** The loop of [reclaim_to] ends before its fuel does, and the keys it
    answers are the ones that are gone. *)
Lemma reclaim_stops fuel target s out :
  wf s → (size (sizes s) < fuel)%nat →
  ∃ s' ks, reclaim_loop fuel target s out = Some (s', out ++ ks) ∧ wf s' ∧
    capacity_bytes s' = capacity_bytes s ∧ NoDup ks ∧ (∀ k, k ∈ ks → is_Some (sizes s !! k)) ∧
    sizes s' = forgotten ks (sizes s) ∧ resident_bytes s' = resident_bytes s - queue_bytes (sizes s) ks.
Proof.
  revert s out. induction fuel as [|fuel IH]; intros s out H Hf; [lia|]. simpl.
  destruct (target <? resident_bytes s).
  2:{ exists s, []. rewrite app_nil_r. split_and!; try done; [apply NoDup_nil_2|set_solver|unfold queue_bytes; simpl; lia]. }
  destruct (evict_one s) as [s1 [k|]] eqn:E.
  - apply evict_one_weight in E as (H1 & Hc & Hs & Hk & Hn & Hr); [|done].
    destruct (IH s1 (out ++ [k]) H1) as (s' & ks & -> & ? & ? & Hd & Hks & Hw & Hr'); [lia|].
    assert (k ∉ ks) by (intros Hin; apply Hks in Hin; rewrite Hs, lookup_delete_eq in Hin; by destruct Hin).
    exists s', (k :: ks). rewrite <- app_assoc. split_and!; try done; try congruence.
    + by apply NoDup_cons.
    + intros k' [->|Hin]%elem_of_cons; [done|]. apply Hks in Hin. rewrite Hs in Hin.
      destruct Hin as [? [? ?]%lookup_delete_Some]. by eexists.
    + rewrite Hw, Hs. done.
    + rewrite Hr', Hr, queue_bytes_cons, Hs, queue_bytes_delete by done. lia.
  - apply evict_loop_spec in E as (? & ? & Hs & Hp); [|done].
    exists s1, []. rewrite app_nil_r. split_and!; try done; [apply NoDup_nil_2|set_solver|].
    rewrite !resident_wf, Hs, Hp by done. unfold queue_bytes at 3; simpl. lia.
Qed.

Lemma reclaim_spec target s :
  wf s →
  ∃ s' ks, reclaim_to target s = Some (s', ks) ∧ wf s' ∧
    capacity_bytes s' = capacity_bytes s ∧ NoDup ks ∧ (∀ k, k ∈ ks → is_Some (sizes s !! k)) ∧
    sizes s' = forgotten ks (sizes s) ∧ resident_bytes s' = resident_bytes s - queue_bytes (sizes s) ks.
Proof. intros H. apply (reclaim_stops _ target s []); [done|]. unfold resident_keys. lia. Qed.

Lemma reach_wf s : reach s → wf s.
Proof.
  induction 1 as [capacity|o s s' _ IH Hok Ho]; [apply wf_new|]. destruct o; simpl in Ho.
  - injection Ho as <-. by apply wf_access.
  - injection Ho as <-. destruct Hok. by apply wf_admit.
  - injection Ho as <-. by apply wf_forget.
  - injection Ho as <-. by apply wf_resize.
  - destruct (reclaim_spec target s IH) as (s1 & ks & E & ? & _). rewrite E in Ho. by injection Ho as <-.
Qed.

(** ** How long the hand can go round *)

Lemma evict_step_cool s s' r M : wf s → 0 <= M → cool M s → evict_step s = Some (s', r) → cool M s'.
Proof.
  intros H HM Hc E k. apply evict_step_turn in E; [|done]. pose proof (Hc k) as Hck.
  destruct E as [key sm b Hs E Hf|key sm b Hs E Hf|key ma f Hm E Hf|key ma b Hm E Hf]; simpl.
  - intros [Hk|Hk]%elem_of_app; destruct (decide (k = key)) as [->|];
      rewrite ?lookup_insert_eq, ?lookup_insert_ne by done; simpl; auto.
    by apply list_elem_of_singleton in Hk as ->.
  - destruct (wf_dropped s key sm b) as (?&?&?&->&?&->&?&?); try done. intros Hk.
    destruct (decide (k = key)) as [->|]; rewrite ?lookup_delete_eq, ?lookup_delete_ne by done; auto.
  - intros Hk. rewrite Hm in Hck. assert (k ∈ key :: ma) as Hin by set_solver.
    specialize (Hck Hin). destruct (decide (k = key)) as [->|];
      rewrite ?lookup_insert_eq, ?lookup_insert_ne by done; [|done]. rewrite E in Hck. simpl in *. lia.
  - intros Hk. rewrite Hm in Hck. specialize (Hck ltac:(by right)).
    destruct (decide (k = key)) as [->|]; rewrite ?lookup_delete_eq, ?lookup_delete_ne by done; auto.
Qed.

Lemma evict_loop_cool n s s' r M : wf s → 0 <= M → cool M s → evict_loop n s = (s', r) → cool M s'.
Proof.
  intros H HM. revert s H. induction n as [|n IH]; intros s H Hc; simpl; [by intros [= <- <-]|].
  destruct (evict_step s) as [[s1 [k|]]|] eqn:E; [| |by intros [= <- <-]].
  - intros [= <- <-]. by eapply evict_step_cool.
  - apply IH; [|by eapply evict_step_cool]. apply evict_step_turn, turn_wf in E as [? _]; done.
Qed.

(** With no reprieve left in [main] the hand evicts before its budget is
    spent, unless the cache is empty. *)
Lemma evict_loop_cold n s s' :
  wf s → cool 0 s → (length (small s) < n)%nat → evict_loop n s = (s', None) →
  small s' = [] ∧ main s' = [].
Proof.
  revert s. induction n as [|n IH]; intros s H Hc Hn; simpl; [lia|].
  destruct (evict_step s) as [[s1 [k|]]|] eqn:E; [done| |intros [= <-]; by apply evict_step_empty].
  apply IH; [by apply evict_step_turn, turn_wf in E as [? _]|by eapply evict_step_cool|].
  apply evict_step_turn in E; [|done]. inversion E as [key sm b Hs| |key ma f Hm Ef Hf|]; subst; simpl.
  - rewrite Hs in Hn. simpl in Hn. lia.
  - exfalso. specialize (Hc key). rewrite Hm, Ef in Hc. simpl in Hc. specialize (Hc ltac:(left)). lia.
Qed.

Lemma hot_insert M l fm key v : key ∉ l → hot M l fm → hot M l (<[key := v]> fm).
Proof. intros Hk H k Hin. rewrite lookup_insert_ne; [by apply H|by intros ->]. Qed.

Lemma hot_snoc M l fm key v : key ∉ l → v <= M → hot M l fm → hot M (l ++ [key]) (<[key := v]> fm).
Proof.
  intros Hk Hv H k [Hin|Hin]%elem_of_app; [by apply (hot_insert M l)|]. apply list_elem_of_singleton in Hin as ->.
  by rewrite lookup_insert_eq.
Qed.

(** A round without an eviction takes a reprieve from every key of [main].
    [old] is the part of the queue the hand has not reached yet. *)
Lemma evict_loop_round n s s' M old rest :
  wf s → 1 <= M → main s = old ++ rest → hot M old (freq s) → hot (M - 1) rest (freq s) →
  old = [] ∨ (length (small s) + length old ≤ n)%nat →
  evict_loop n s = (s', None) → cool (M - 1) s'.
Proof.
  intros H HM. revert s old rest H. induction n as [|n IH]; intros s old rest H Em Ho Hr Hn; simpl.
  { intros [= <-]. assert (old = []) as -> by (destruct Hn as [?|?]; [done|destruct old; [done|simpl in *; lia]]).
    unfold cool. by rewrite Em. }
  destruct (evict_step s) as [[s1 [k|]]|] eqn:E; [done| |].
  2:{ intros [= <-]. apply evict_step_empty in E as [_ Ee]. intros k. rewrite Ee. set_solver. }
  apply evict_step_turn in E; [|done]. pose proof (turn_wf _ _ _ H E) as [H1 _].
  pose proof (wf_nodup _ H) as Hd. rewrite Em in Hd.
  inversion E as [key sm b Hs Eb Hf| |key ma f Hm Ef Hf|]; subst; simpl in *.
  - rewrite Hs in Hd, Hn. simpl in Hn. apply NoDup_cons in Hd as [Hkey _].
    apply (IH _ old (rest ++ [key])); simpl; try done.
    + by rewrite Em, <- app_assoc.
    + apply hot_insert; [set_solver|done].
    + apply hot_snoc; [set_solver|lia|done].
    + destruct Hn; [by left|right; lia].
  - apply NoDup_app in Hd as (_ & _ & Hd). rewrite Hm in Em. destruct old as [|x old]; simpl in Em.
    + subst rest. apply NoDup_cons in Hd as [Hkey _].
      apply (IH _ [] (ma ++ [key])); simpl; try done; [set_solver| |by left].
      pose proof (Hr key ltac:(left)) as Hkr. rewrite Ef in Hkr. simpl in Hkr.
      apply hot_snoc; [done|lia|]. intros k Hk. apply Hr. by right.
    + injection Em as <- ->. simpl in Hd, Hn. apply NoDup_cons in Hd as [Hkey _].
      pose proof (Ho key ltac:(left)) as Hko. rewrite Ef in Hko. simpl in Hko.
      apply (IH _ old (rest ++ [key])); simpl; try done.
      * by rewrite <- app_assoc.
      * apply hot_insert; [set_solver|]. intros k Hk. apply Ho. by right.
      * apply hot_snoc; [set_solver|lia|done].
      * right. destruct Hn; [done|lia].
Qed.

(** An [evict_one] that answers no key has emptied the cache or taken a
    reprieve from every key of [main]. *)
Lemma evict_one_gives_up M s s' :
  wf s → 0 <= M → cool M s → evict_one s = (s', None) →
  (small s' = [] ∧ main s' = []) ∨ (1 <= M ∧ cool (M - 1) s').
Proof.
  intros H HM Hc E. destruct (Z.eq_dec M 0) as [->|].
  - left. apply (evict_loop_cold (length (small s) + length (main s) + 1) s); [done|done|lia|done].
  - right. split; [lia|]. eapply (evict_loop_round _ s s' M (main s) []); try done; [lia|by rewrite app_nil_r|set_solver|].
    right. lia.
Qed.

Lemma reclaim_loop_cool fuel target s out s' ks M :
  wf s → 0 <= M → cool M s → 0 <= target → reclaim_loop fuel target s out = Some (s', ks) →
  resident_bytes s' <= target ∨ (1 <= M ∧ cool (M - 1) s').
Proof.
  intros H HM Hc Ht. revert s out H Hc. induction fuel as [|fuel IH]; intros s out H Hc; simpl;
    (destruct (Z.ltb_spec target (resident_bytes s)); [|intros [= <- <-]; left; lia]); [done|].
  destruct (evict_one s) as [s1 [k|]] eqn:E.
  - apply IH; [by apply evict_one_weight in E as [? _]|by eapply evict_loop_cool].
  - intros [= <- <-]. pose proof (evict_loop_spec _ _ _ _ H E) as [H1 _].
    destruct (evict_one_gives_up M s s1 H HM Hc E) as [[Es Em]|?]; [left|by right].
    rewrite resident_wf, Es, Em by done. done.
Qed.

Lemma reclaims_reach n M target s :
  wf s → 0 <= M → M < Z.of_nat n → cool M s → 0 <= target →
  ∃ s', reclaims n target s = Some s' ∧ wf s' ∧ resident_bytes s' <= target.
Proof.
  revert M s. induction n as [|n IH]; intros M s H HM Hn Hc Ht; [lia|]. simpl.
  destruct (reclaim_spec target s H) as (s1 & ks & E & H1 & _). rewrite E.
  destruct (decide (resident_bytes s1 <= target)) as [Hd|Hd].
  - assert (∀ m, reclaims m target s1 = Some s1) as Hm.
    { induction m as [|m IHm]; [done|]. simpl. unfold reclaim_to. cbn [reclaim_loop].
      destruct (Z.ltb_spec target (resident_bytes s1)); [lia|]. done. }
    exists s1. split_and!; [apply Hm|done|done].
  - destruct (reclaim_loop_cool _ _ _ _ _ _ M H HM Hc Ht E) as [?|[? ?]]; [lia|].
    apply (IH (M - 1)); try done; lia.
Qed.

(** ** Scans *)

(** From [s] to [s'] no key of [main] was touched, the keys of [small] are
    still unused, and nothing entered or was remembered but what was there. *)
Record unmoved (s s' : S3Fifo) : Prop := {
  un_wf : wf s';
  un_cap : capacity_bytes s' = capacity_bytes s;
  un_main : main s' = main s;
  un_rows : ∀ k, k ∈ main s → sizes s' !! k = sizes s !! k ∧ freq s' !! k = freq s !! k;
  un_small : hot 0 (small s') (freq s');
  un_known : ∀ k, is_Some (sizes s' !! k) ∨ k ∈ ghost s' → is_Some (sizes s !! k) ∨ k ∈ ghost s;
}.

Lemma unmoved_main_bytes s s' : wf s → unmoved s s' → main_bytes s' = main_bytes s.
Proof.
  intros H []. rewrite (wf_main s'), (wf_main s), un_main0 by done. apply weight_ext.
  intros k Hk. by apply un_rows0.
Qed.

Lemma unmoved_trans s s1 s2 : unmoved s s1 → unmoved s1 s2 → unmoved s s2.
Proof.
  intros [] []. constructor; try done; try congruence.
  - intros k Hk. destruct (un_rows0 k Hk) as [<- <-]. apply un_rows1. congruence.
  - intros k Hk. apply un_known0. by apply un_known1.
Qed.

(** While [main] is within its share, going over the capacity means [small]
    is over its own, and the hand drops its unused head. *)
Lemma evict_one_calm s :
  wf s → hot 0 (small s) (freq s) → main_bytes s + small_limit s <= capacity_bytes s →
  capacity_bytes s < resident_bytes s →
  ∃ s' k, evict_one s = (s', Some k) ∧ unmoved s s'.
Proof.
  intros H Hh Hm Hr. rewrite resident_sum in Hr by done.
  assert (0 <= small_limit s) by (apply Z.div_pos; [apply Z.mod_pos_bound|]; done).
  destruct (small s) as [|key sm] eqn:Es.
  { pose proof (wf_small _ H) as Hw. rewrite Es in Hw. unfold queue_bytes in Hw. simpl in Hw. lia. }
  destruct (wf_head s key H) as (b & f & E & Ef & Hf); [rewrite Es; left|].
  pose proof (Hh key ltac:(left)) as Hk. rewrite Ef in Hk. simpl in Hk.
  destruct (wf_dropped s key sm b H Es E) as (Hw & Hc & Hs & Hma & Hsz & Hfr & Hg & _).
  exists (dropped s key sm b), key. split.
  - unfold evict_one. rewrite Nat.add_1_r. simpl. unfold evict_step.
    rewrite (proj2 (Z.ltb_lt _ _)), Es by lia. simpl. unfold step_small. rewrite Es, E, Ef. simpl.
    by rewrite (proj2 (Z.ltb_ge 0 f)) by lia.
  - pose proof (wf_nodup _ H) as Hd. rewrite Es in Hd. apply NoDup_cons in Hd as [Hkey _].
    constructor; try done; rewrite ?Hs, ?Hsz, ?Hfr.
    + intros k Hin. rewrite !lookup_delete_ne; [done|set_solver..].
    + intros k Hin. rewrite lookup_delete_ne; [apply Hh; by right|set_solver].
    + intros k [[? [? ?]%lookup_delete_Some]|[->|Hk']%Hg]; [left; by eexists|left; by eexists|by right].
Qed.

Lemma reclaim_loop_calm fuel s out :
  wf s → hot 0 (small s) (freq s) → main_bytes s + small_limit s <= capacity_bytes s →
  (size (sizes s) < fuel)%nat →
  ∃ s' ks, reclaim_loop fuel (capacity_bytes s) s out = Some (s', ks) ∧ unmoved s s' ∧
           resident_bytes s' <= capacity_bytes s.
Proof.
  revert s out. induction fuel as [|fuel IH]; intros s out H Hh Hm Hf; [lia|]. simpl.
  destruct (Z.ltb_spec (capacity_bytes s) (resident_bytes s)).
  2:{ exists s, out. split_and!; [done|by constructor|lia]. }
  destruct (evict_one_calm s) as (s1 & k & E & Hu); try done. rewrite E.
  apply evict_one_weight in E as (H1 & Hc & _ & _ & Hn & _); [|done]. rewrite <- Hc.
  destruct (IH s1 (out ++ [k])) as (s' & ks & -> & Hu' & Hr); try done.
  - apply Hu.
  - rewrite (unmoved_main_bytes s) by done. unfold small_limit. by rewrite Hc.
  - lia.
  - exists s', ks. split_and!; [done|by eapply unmoved_trans|done].
Qed.

Lemma admit_unmoved key b s :
  wf s → hot 0 (small s) (freq s) → sizes s !! key = None → key ∉ ghost s → 0 <= b →
  resident_bytes s + b < 2 ^ 64 →
  let s' := on_admit key b s in
  wf s' ∧ capacity_bytes s' = capacity_bytes s ∧ main s' = main s ∧
  (∀ k, k ∈ main s → sizes s' !! k = sizes s !! k ∧ freq s' !! k = freq s !! k) ∧
  hot 0 (small s') (freq s') ∧ ghost s' = ghost s ∧
  (∀ k, is_Some (sizes s' !! k) → k = key ∨ is_Some (sizes s !! k)).
Proof.
  intros H Hh E Hg Hb Hr s'. split; [by apply wf_admit|].
  destruct (wf_out _ _ H E) as [Hsm Hma]. subst s'. unfold on_admit, contains. rewrite E. simpl.
  rewrite decide_False by (by rewrite (wf_ghost_set _ H)). simpl. split_and!; try done.
  - intros k Hk. rewrite !lookup_insert_ne; [done|by intros ->..].
  - apply hot_snoc; [done|lia|done].
  - intros k. destruct (decide (k = key)) as [->|]; [by left|]. rewrite lookup_insert_ne by done. by right.
Qed.

Lemma scan_unmoved l s :
  wf s → hot 0 (small s) (freq s) → main_bytes s + small_limit s <= capacity_bytes s →
  resident_bytes s <= capacity_bytes s → NoDup l.*1 →
  Forall (λ p, sizes s !! p.1 = None ∧ p.1 ∉ ghost s ∧ 0 <= p.2 ∧ capacity_bytes s + p.2 < 2 ^ 64) l →
  ∃ s', scan l s = Some s' ∧ main s' = main s ∧
    (∀ k, k ∈ main s → sizes s' !! k = sizes s !! k ∧ freq s' !! k = freq s !! k) ∧
    resident_bytes s' <= capacity_bytes s.
Proof.
  revert s. induction l as [|[key b] l IH]; intros s H Hh Hm Hr Hd Hl; [by exists s|]. simpl.
  apply Forall_cons in Hl as ((E & Hg & Hb & Hfit) & Hl). apply NoDup_cons in Hd as [Hkey Hd]. simpl in *.
  destruct (admit_unmoved key b s) as (H1 & Hc & Hma & Hrow & Hsm & Hgh & Hin); try done; [lia|].
  set (s1 := on_admit key b s) in *.
  assert (Hmb : main_bytes s1 = main_bytes s).
  { rewrite (wf_main _ H1), (wf_main _ H), Hma. apply weight_ext. intros k Hk. by apply Hrow. }
  destruct (reclaim_loop_calm (S (resident_keys s1)) s1 []) as (s2 & ks & Ek & Hu & Hr2); try done.
  { rewrite Hmb. unfold small_limit. by rewrite Hc. }
  { unfold resident_keys. lia. }
  unfold reclaim_to. rewrite <- Hc, Ek. destruct (IH s2) as (s' & Hs' & Hma' & Hrow' & Hr'); try done.
  - apply Hu.
  - apply Hu.
  - rewrite (unmoved_main_bytes s1), Hmb by done. unfold small_limit. by rewrite (un_cap _ _ Hu), Hc.
  - by rewrite (un_cap _ _ Hu).
  - rewrite (un_cap _ _ Hu), Hc, Forall_forall. intros p Hp.
    pose proof (proj1 (Forall_forall _ _) Hl p Hp) as (Ep & Hgp & ? & ?).
    assert (p.1 ≠ key) by (intros <-; apply Hkey, list_elem_of_fmap_2, Hp).
    assert (¬ (is_Some (sizes s2 !! p.1) ∨ p.1 ∈ ghost s2)) as Hn.
    { intros [Hs|Hs]%(un_known _ _ Hu); [|rewrite Hgh in Hs; done].
      apply Hin in Hs as [?|Hs]; [done|]. rewrite Ep in Hs. by destruct Hs. }
    split_and!; try done; [|tauto]. destruct (sizes s2 !! p.1); [|done]. destruct Hn. left. by eexists.
  - exists s'. split_and!; [done|by rewrite Hma', (un_main _ _ Hu)| |].
    + intros k Hk. destruct (Hrow k Hk) as [<- <-]. rewrite <- Hma in Hk.
      destruct (un_rows _ _ Hu k Hk) as [<- <-]. apply Hrow'. by rewrite (un_main _ _ Hu).
    + by rewrite (un_cap _ _ Hu) in Hr'.
Qed.

(** ** What the policy promises *)

(** A caller's operations in a row; [None] once one is not [op_ok]. *)
Definition op_okb (o : op) (s : S3Fifo) : bool :=
  match o with
  | Admit _ b => (0 <=? b) && (resident_bytes s + b <? 2 ^ 64)
  | _ => true
  end.

Fixpoint run (ops : list op) (s : S3Fifo) : option S3Fifo :=
  match ops with
  | [] => Some s
  | o :: ops' => if op_okb o s then match apply o s with Some s' => run ops' s' | None => None end else None
  end.

Lemma reach_run ops s s' : reach s → run ops s = Some s' → reach s'.
Proof.
  revert s. induction ops as [|o ops IH]; intros s Hs; simpl; [by intros [= <-]|].
  destruct (op_okb o s) eqn:Eo; [|done]. destruct (apply o s) as [s1|] eqn:Ea; [|done].
  apply IH. eapply reach_op; [done| |done]. destruct o; simpl in *; try done. lia.
Qed.

(** A cache of capacity 10 whose one key went to [main] on its second
    admission and was read three times since. *)
Definition demo_key (n : nat) : bytes := be 2 (Z.of_nat n).
Definition demo_ops : list op :=
  [Admit (demo_key 0) 5; Reclaim 4; Admit (demo_key 0) 5;
   Access (demo_key 0); Access (demo_key 0); Access (demo_key 0)].
Definition demo_cache : S3Fifo := default (new 0) (run demo_ops (new 10)).

Lemma demo_reach : reach demo_cache.
Proof.
  apply (reach_run demo_ops (new 10)); [constructor|]. vm_compute. reflexivity.
Qed.

(** One call is not enough: [evict_one]'s budget is one turn per key and one
    more, while a key of [main] can have three reprieves, so the hand answers
    no key although one is evictable and the call ends above its target. *)
Lemma reclaim_can_give_up :
  ∃ s0 s1 t, reach s0 ∧ reclaim_to t s0 = Some (s1, []) ∧ t < resident_bytes s1.
Proof.
  exists demo_cache, (default (new 0) (option_map fst (reclaim_to 4 demo_cache))), 4.
  split; [exact demo_reach|]. split; vm_compute; reflexivity.
Qed.

(** C3. Whatever a caller does to a cache, its books stay exact: each resident
    key is in exactly one of the two queues, the byte counters are the sums of
    the sizes queued and wrap nowhere, every frequency is at most three, and
    the ghost queue holds each key once, agrees with its set and remembers no
    resident key. *)
Theorem books_stay_exact s : reach s → wf s.
Proof. apply reach_wf. Qed.

Lemma books_stay_exact_witness : wf demo_cache ∧ main demo_cache = [demo_key 0].
Proof. split; [apply books_stay_exact, demo_reach|vm_compute; reflexivity]. Defined.

(** C33. [reclaim_to] always ends. The keys it answers are distinct, were
    resident, and are exactly the ones that are gone, with their bytes. A call
    can end above its target with keys left to evict, but the fourth call in a
    row is at or below it at the latest. *)
Theorem reclaim_reaches_its_target s target :
  reach s → 0 <= target →
  (∃ s' ks, reclaim_to target s = Some (s', ks) ∧ NoDup ks ∧ (∀ k, k ∈ ks → contains k s = true) ∧
     (∀ k, sizes s' !! k = if bool_decide (k ∈ ks) then None else sizes s !! k) ∧
     resident_bytes s' = resident_bytes s - queue_bytes (sizes s) ks) ∧
  (∃ s', reclaims 4 target s = Some s' ∧ resident_bytes s' <= target) ∧
  ∃ s0 s1 t, reach s0 ∧ reclaim_to t s0 = Some (s1, []) ∧ t < resident_bytes s1.
Proof.
  intros H%reach_wf Ht. split; [|split; [|apply reclaim_can_give_up]].
  - destruct (reclaim_spec target s H) as (s' & ks & ? & ? & ? & ? & Hin & Hs & ?).
    exists s', ks. split_and!; try done.
    + intros k Hk. apply bool_decide_eq_true_2. by apply Hin.
    + intros k. rewrite Hs. apply lookup_forgotten.
  - destruct (reclaims_reach 4 FREQ_MAX target s) as (s' & ? & _ & ?); try done; [|by exists s'].
    intros k _. destruct (freq s !! k) as [f|] eqn:Ef; simpl; [|done].
    by apply (wf_range _ H) in Ef as [_ ?].
Qed.

Lemma reclaim_reaches_its_target_witness :
  ∃ s', reclaims 4 4 demo_cache = Some s' ∧ resident_bytes s' <= 4.
Proof. exact (proj1 (proj2 (reclaim_reaches_its_target demo_cache 4 demo_reach ltac:(lia)))). Defined.

(** A scan does not disturb the working set. While [main] and the share of
    [small] fit the capacity and the keys of [small] are unused, admitting any
    number of keys seen for the first time, and bringing the cache back to its
    capacity after each, leaves every key of [main] in place with its size and
    frequency, and the cache within its capacity. *)
Theorem scan_leaves_main_alone l s :
  reach s → (∀ k, k ∈ small s → freq s !! k = Some 0) →
  main_bytes s + small_limit s <= capacity_bytes s → resident_bytes s <= capacity_bytes s →
  NoDup l.*1 →
  Forall (λ p, contains p.1 s = false ∧ p.1 ∉ ghost s ∧ 0 <= p.2 ∧ capacity_bytes s + p.2 < 2 ^ 64) l →
  ∃ s', scan l s = Some s' ∧ main s' = main s ∧
    (∀ k, k ∈ main s → sizes s' !! k = sizes s !! k ∧ freq s' !! k = freq s !! k) ∧
    resident_bytes s' <= capacity_bytes s.
Proof.
  intros H%reach_wf Hsm Hm Hr Hd Hl. apply scan_unmoved; try done.
  - intros k Hk. by rewrite Hsm.
  - eapply Forall_impl; [exact Hl|]. intros p (Hc & ? & ? & ?). split_and!; try done.
    by apply not_contains.
Qed.

Lemma scan_leaves_main_alone_witness :
  ∃ s', scan [(demo_key 1, 3); (demo_key 2, 4); (demo_key 3, 2)] demo_cache = Some s' ∧
        main s' = [demo_key 0] ∧ resident_bytes s' <= 10.
Proof.
  destruct (scan_leaves_main_alone [(demo_key 1, 3); (demo_key 2, 4); (demo_key 3, 2)] demo_cache)
    as (s' & Hs & Hm & _ & Hr).
  - apply demo_reach.
  - vm_compute. intros k Hk. inversion Hk.
  - vm_compute. discriminate.
  - vm_compute. discriminate.
  - apply (bool_decide_unpack _). vm_compute. exact I.
  - repeat apply Forall_cons_2; [..|apply Forall_nil_2];
      (split; [vm_compute; reflexivity|]; split; [vm_compute; intros Hk; inversion Hk|];
       split; [vm_compute; discriminate|vm_compute; reflexivity]).
  - exists s'. split; [exact Hs|]. split; [rewrite Hm; vm_compute; reflexivity|exact Hr].
Defined.

End S3.
