(* ===== verification/Glob.v ===== *)
(** * Glob patterns (src/crates/flint-server/src/glob.rs)

    The matcher behind [SCAN … MATCH], [KEYS] and the pattern subscriptions. A
    position in the pattern or in the string is the suffix that starts there.
    The loop runs on fuel, one unit a turn; [globs] is what a pattern means,
    rule by rule, with a star standing for any string. *)

From stdpp Require Import base list.
From Stdlib Require Import ZArith Lia.
From S2P Require Import Prelude.

Module Glob.

Definition STAR : byte := Byte.x2a.
Definition ANY : byte := Byte.x3f.
Definition OPEN : byte := Byte.x5b.
Definition CLOSE : byte := Byte.x5d.
Definition CARET : byte := Byte.x5e.
Definition DASH : byte := Byte.x2d.
Definition ESC : byte := Byte.x5c.

(** [(lo..=hi).contains(&c)] with the ends of a range in either order. *)
Definition in_range (a b c : byte) : bool :=
  let '(lo, hi) := if b2z a <=? b2z b then (a, b) else (b, a) in
  (b2z lo <=? b2z c) && (b2z c <=? b2z hi).

(** The loop of [class]: what the items before the [\]] say of [c], and the
    pattern past it. *)
Fixpoint class_loop (p : bytes) (c : byte) (matched : bool) : bool * bytes :=
  match p with
  | [] => (matched, [])
  | x :: p1 =>
      if Byte.eqb x CLOSE then (matched, p1)
      else
        match p1 with
        | y :: p2 =>
            if Byte.eqb x ESC then class_loop p2 c (matched || Byte.eqb y c)
            else
              match p2 with
              | z :: p3 =>
                  if Byte.eqb y DASH then class_loop p3 c (matched || in_range x z c)
                  else class_loop p1 c (matched || Byte.eqb x c)
              | [] => class_loop p1 c (matched || Byte.eqb x c)
              end
        | [] => class_loop p1 c (matched || Byte.eqb x c)
        end
  end.

(** [class]: [p] is the pattern past the opening bracket. *)
Definition class (p : bytes) (c : byte) : bool * bytes :=
  let negate := match p with x :: _ => Byte.eqb x CARET | [] => false end in
  let '(matched, next) := class_loop (if negate then tail p else p) c false in
  (negb (Bool.eqb matched negate), next).

Fixpoint skip_stars (p : bytes) : bytes :=
  match p with
  | x :: p' => if Byte.eqb x STAR then skip_stars p' else p
  | [] => []
  end.

(** The loop of [glob_match]. [star] is where the pattern continues past the
    last star, and where in the string that was tried. [None] when the fuel
    runs out. *)
Fixpoint glob_loop (fuel : nat) (p s : bytes) (star : option (bytes * bytes)) : option bool :=
  match s with
  | [] => Some (bool_decide (skip_stars p = []))
  | c :: s' =>
      match fuel with
      | O => None
      | S fuel' =>
          let back :=
            match star with
            | Some (sp, si) => glob_loop fuel' sp (tail si) (Some (sp, tail si))
            | None => Some false
            end in
          match p with
          | [] => back
          | x :: p' =>
              if Byte.eqb x STAR then
                match skip_stars p with
                | [] => Some true
                | q => glob_loop fuel' q s (Some (q, s))
                end
              else if Byte.eqb x ANY then glob_loop fuel' p' s' star
              else if Byte.eqb x OPEN then
                let '(matched, next) := class p' c in
                if matched then glob_loop fuel' next s' star else back
              else if Byte.eqb x ESC then
                match p' with
                | y :: p'' => if Byte.eqb y c then glob_loop fuel' p'' s' star else back
                | [] => if Byte.eqb x c then glob_loop fuel' p' s' star else back
                end
              else if Byte.eqb x c then glob_loop fuel' p' s' star else back
          end
      end
  end.

(** One turn for each pair of positions, and one round more for each. *)
Definition glob_fuel (pattern s : bytes) : nat := (length s + 2) * (length pattern + 1).

Definition glob_match (pattern s : bytes) : option bool :=
  glob_loop (glob_fuel pattern s) pattern s None.

(** ** What a pattern means *)

(** An item of a class: the bytes from one end to the other. *)
Fixpoint class_items (p : bytes) : list (byte * byte) * bytes :=
  match p with
  | [] => ([], [])
  | x :: p1 =>
      if Byte.eqb x CLOSE then ([], p1)
      else
        let one := let '(l, r) := class_items p1 in ((x, x) :: l, r) in
        match p1 with
        | y :: p2 =>
            if Byte.eqb x ESC then let '(l, r) := class_items p2 in ((y, y) :: l, r)
            else
              match p2 with
              | z :: p3 =>
                  if Byte.eqb y DASH then let '(l, r) := class_items p3 in ((x, z) :: l, r) else one
              | [] => one
              end
        | [] => one
        end
  end.

(** [c] lies between [a] and [b], whichever is first. *)
Definition between (c : byte) (r : byte * byte) : Prop :=
  b2z r.1 <= b2z c <= b2z r.2 ∨ b2z r.2 <= b2z c <= b2z r.1.

(** The bytes a class stands for, and where the pattern goes on. *)
Definition class_set (p : bytes) (c : byte) : Prop :=
  match p with
  | x :: p' => if Byte.eqb x CARET then ¬ Exists (between c) (class_items p').1
               else Exists (between c) (class_items p).1
  | [] => False
  end.
Definition class_rest (p : bytes) : bytes :=
  match p with
  | x :: p' => if Byte.eqb x CARET then (class_items p').2 else (class_items p).2
  | [] => []
  end.

(** A byte that stands for itself at the front of [x :: p]. *)
Definition plain (x : byte) (p : bytes) : Prop :=
  x ≠ STAR ∧ x ≠ ANY ∧ x ≠ OPEN ∧ (x = ESC → p = []).

Inductive globs : bytes → bytes → Prop :=
| globs_nil : globs [] []
| globs_star p s t : globs p t → globs (STAR :: p) (s ++ t)
| globs_any p c s : globs p s → globs (ANY :: p) (c :: s)
| globs_class p c s : class_set p c → globs (class_rest p) s → globs (OPEN :: p) (c :: s)
| globs_escape x p s : globs p s → globs (ESC :: x :: p) (x :: s)
| globs_plain x p s : plain x p → globs p s → globs (x :: p) (x :: s).

(** ** Classes *)

Lemma eqb_spec x y : reflect (x = y) (Byte.eqb x y).
Proof. apply iff_reflect. split; [apply Byte.byte_dec_lb|apply Byte.byte_dec_bl]. Qed.

Lemma in_range_spec a b c : in_range a b c = true ↔ between c (a, b).
Proof. unfold in_range, between. simpl. destruct (Z.leb_spec (b2z a) (b2z b)); lia. Qed.

Lemma in_range_one x c : in_range x x c = Byte.eqb x c.
Proof.
  apply eq_bool_prop_intro. rewrite !Is_true_true, in_range_spec. unfold between. simpl.
  destruct (eqb_spec x c) as [->|Hne]; [split; [done|lia]|].
  split; [|done]. intros H. destruct Hne. apply b2z_inj. lia.
Qed.

Definition hits (c : byte) (l : list (byte * byte)) : bool := existsb (λ r, in_range r.1 r.2 c) l.

Lemma hits_spec c l : hits c l = true ↔ Exists (between c) l.
Proof.
  unfold hits. rewrite existsb_exists, Exists_exists. split.
  - intros ([a b] & Hin & H). exists (a, b). split; [by apply list_elem_of_In|by apply in_range_spec].
  - intros ([a b] & Hin & H). exists (a, b). split; [by apply list_elem_of_In|by apply in_range_spec].
Qed.

Lemma class_loop_items n p c m :
  (length p ≤ n)%nat → class_loop p c m = (m || hits c (class_items p).1, (class_items p).2).
Proof.
  revert p m. induction n as [|n IH]; intros p m Hn; destruct p as [|x p1]; simpl in *;
    [by rewrite orb_false_r|lia|by rewrite orb_false_r|].
  destruct (Byte.eqb x CLOSE); [by rewrite orb_false_r|].
  assert (Hone : class_loop p1 c (m || Byte.eqb x c) =
    (m || hits c ((x, x) :: (class_items p1).1), (class_items p1).2)).
  { rewrite IH by lia. simpl. by rewrite in_range_one, orb_assoc. }
  destruct p1 as [|y p2]; [by rewrite Hone|]. destruct (Byte.eqb x ESC).
  - rewrite IH by (simpl in *; lia). destruct (class_items p2) as [l r]. simpl.
    by rewrite in_range_one, orb_assoc.
  - destruct p2 as [|z p3]; [rewrite Hone; by destruct (class_items [y])|]. destruct (Byte.eqb y DASH).
    + rewrite IH by (simpl in *; lia). destruct (class_items p3) as [l r]. simpl. by rewrite orb_assoc.
    + rewrite Hone. by destruct (class_items (y :: z :: p3)).
Qed.

Lemma class_spec p c : (class p c).2 = class_rest p ∧ ((class p c).1 = true ↔ class_set p c).
Proof.
  unfold class, class_rest, class_set. destruct p as [|x p]; [by simpl|].
  destruct (Byte.eqb x CARET); rewrite (class_loop_items _ _ _ _ (Nat.le_refl _)); cbn [fst snd tail].
  - split; [done|]. rewrite <- hits_spec, orb_false_l. by destruct (hits c _).
  - split; [done|]. rewrite <- hits_spec, orb_false_l. by destruct (hits c _).
Qed.

(** ** One item of a pattern

    Past a front that is no star, a pattern takes one byte that passes a test,
    and goes on at a place the byte does not decide. *)

Definition head (p : bytes) : option ((byte → bool) * bytes) :=
  match p with
  | [] => None
  | x :: p' =>
      if Byte.eqb x STAR then None
      else if Byte.eqb x ANY then Some (λ _, true, p')
      else if Byte.eqb x OPEN then Some (λ c, (class p' c).1, class_rest p')
      else if Byte.eqb x ESC then
        match p' with
        | y :: p'' => Some (Byte.eqb y, p'')
        | [] => Some (Byte.eqb x, p')
        end
      else Some (Byte.eqb x, p')
  end.

Lemma head_spec p f r : head p = Some (f, r) →
  ∀ s, globs p s ↔ ∃ c s', s = c :: s' ∧ f c = true ∧ globs r s'.
Proof.
  destruct p as [|x p]; [done|]. simpl.
  destruct (eqb_spec x STAR) as [|H1]; [done|]. destruct (eqb_spec x ANY) as [->|H2].
  { intros [= <- <-] s. split.
    - inversion 1 as [| |? c s'| | |? ? ? (?&?&?&?)]; subst; eauto; congruence.
    - intros (c & s' & -> & _ & ?). by constructor. }
  destruct (eqb_spec x OPEN) as [->|H3].
  { intros [= <- <-] s. split.
    - inversion 1 as [| | |? c s' Hc| |? ? ? (?&?&?&?)]; subst; [|congruence].
      exists c, s'. split_and!; [done|by apply class_spec|done].
    - intros (c & s' & -> & Hc & ?). constructor; [by apply class_spec|done]. }
  destruct (eqb_spec x ESC) as [->|H4]; [destruct p as [|y p]|]; intros [= <- <-] s; split.
  - inversion 1; subst; try done. eexists _, _. split_and!; [done|by destruct (eqb_spec ESC ESC)|done].
  - intros (c & s' & -> & Hc & ?). destruct (eqb_spec ESC c) as [<-|]; [|done]. by apply globs_plain.
  - inversion 1 as [| | | | |? ? ? (?&?&?&He)]; subst; [|by specialize (He eq_refl)].
    eexists _, _. split_and!; [done|by destruct (eqb_spec y y)|done].
  - intros (c & s' & -> & Hc & ?). destruct (eqb_spec y c) as [<-|]; [|done]. by apply globs_escape.
  - inversion 1; subst; try done. eexists _, _. split_and!; [done|by destruct (eqb_spec x x)|done].
  - intros (c & s' & -> & Hc & ?). destruct (eqb_spec x c) as [<-|]; [|done]. by apply globs_plain.
Qed.

(** A pattern that is at its end, at a star, or at an item. *)
Lemma head_None p : head p = None → p = [] ∨ ∃ p', p = STAR :: p'.
Proof.
  destruct p as [|x p]; [by left|]. simpl. destruct (eqb_spec x STAR) as [->|]; [by eauto|].
  destruct (Byte.eqb x ANY), (Byte.eqb x OPEN), (Byte.eqb x ESC), p; done.
Qed.

Lemma globs_star_iff p s : globs (STAR :: p) s ↔ ∃ k, (k ≤ length s)%nat ∧ globs p (drop k s).
Proof.
  split.
  - inversion 1 as [|? a b| | | |? ? ? (?&?)]; subst; [|congruence]. exists (length a).
    rewrite length_app, drop_app_length. split; [lia|done].
  - intros (k & _ & Hk). rewrite <- (take_drop k s). by constructor.
Qed.

Lemma globs_skip p s : globs (STAR :: p) s ↔ ∃ k, (k ≤ length s)%nat ∧ globs (skip_stars p) (drop k s).
Proof.
  revert s. induction p as [|x p IH]; intros s; [apply globs_star_iff|]. simpl.
  destruct (eqb_spec x STAR) as [->|]; [|apply globs_star_iff].
  rewrite globs_star_iff. setoid_rewrite IH. split.
  - intros (k & Hk & j & Hj & H). exists (k + j)%nat. rewrite length_drop in Hj.
    rewrite <- drop_drop. split; [lia|done].
  - intros (k & Hk & H). exists k. split; [done|]. exists 0%nat. by split; [lia|].
Qed.

Lemma globs_end p : globs p [] ↔ skip_stars p = [].
Proof.
  induction p as [|x p IH]; [split; [done|constructor]|]. simpl.
  destruct (eqb_spec x STAR) as [->|].
  - rewrite globs_star_iff, <- IH. split; [|exists 0%nat; done]. intros (k & Hk & H). by rewrite drop_nil in H.
  - split; [|done]. inversion 1; subst; congruence.
Qed.

(** [q] is [n] items into the pattern [p]. *)
Fixpoint along (n : nat) (p q : bytes) : Prop :=
  match n with
  | O => p = q
  | S n' => ∃ f r, head p = Some (f, r) ∧ along n' r q
  end.

Lemma along_snoc n p q f r : along n p q → head q = Some (f, r) → along (S n) p r.
Proof.
  revert p. induction n as [|n IH]; intros p; simpl; [intros -> ?; eauto|].
  intros (g & p' & ? & ?) ?. exists g, p'. split; [done|]. by apply IH.
Qed.

Lemma globs_along n p q s : along n p q → globs p s → (n ≤ length s)%nat ∧ globs q (drop n s).
Proof.
  revert p s. induction n as [|n IH]; intros p s; simpl; [intros ->; split; [lia|done]|].
  intros (f & r & Hh & Ha) H. apply (head_spec _ _ _ Hh) in H as (c & s' & -> & _ & H).
  apply (IH _ _ Ha) in H as [? ?]. simpl. split; [lia|done].
Qed.

(** ** The loop *)

(** What is left to try when the current attempt fails: the pattern past the
    last star, from a later place in the string. *)
Definition later (star : option (bytes * bytes)) : Prop :=
  match star with
  | Some (sp, si) => ∃ k, (0 < k ≤ length si)%nat ∧ globs sp (drop k si)
  | None => False
  end.

(** The attempt under way started past the last star, one item a byte. *)
Definition attempt (p s : bytes) (star : option (bytes * bytes)) : Prop :=
  match star with
  | Some (sp, si) => ∃ n, along n sp p ∧ s = drop n si ∧ (n ≤ length si)%nat
  | None => True
  end.

Lemma attempt_here p s : attempt p s (Some (p, s)).
Proof. exists 0%nat. split_and!; [done|done|lia]. Qed.

Lemma attempt_next p c s star f r :
  attempt p (c :: s) star → head p = Some (f, r) → attempt r s star.
Proof.
  destruct star as [[sp si]|]; [|done]. intros (n & Ha & Hs & Hn) Hh.
  exists (S n). split_and!; [by eapply along_snoc| |].
  - rewrite <- Nat.add_1_r, <- drop_drop, <- Hs. done.
  - assert (length (drop n si) ≠ 0%nat) by (by rewrite <- Hs). rewrite length_drop in *. lia.
Qed.

(** The items matched since the last star are matched later too, so at a new
    star the old one is forgotten. *)
Lemma later_star p s star : attempt (STAR :: p) s star → later star → globs (STAR :: p) s.
Proof.
  destruct star as [[sp si]|]; [|done]. intros (n & Ha & -> & Hn) (k & Hk & H).
  apply (globs_along _ _ _ _ Ha) in H as [Hl H]. rewrite drop_drop in H. rewrite length_drop in Hl.
  apply globs_star_iff in H as (j & Hj & H). apply globs_star_iff. exists (k + j)%nat.
  rewrite !drop_drop in *. rewrite length_drop in *. split; [lia|].
  by replace (n + (k + j))%nat with (k + n + j)%nat by lia.
Qed.

Lemma later_end p star : attempt p [] star → ¬ later star.
Proof.
  destruct star as [[sp si]|]; [|tauto]. intros (n & Ha & Hs & Hn) (k & Hk & H).
  apply (globs_along _ _ _ _ Ha) in H as [Hl _]. rewrite length_drop in Hl.
  assert (length (drop n si) = 0%nat) as H0 by (by rewrite <- Hs). rewrite length_drop in H0. lia.
Qed.

Lemma later_split sp c si :
  later (Some (sp, c :: si)) ↔ globs sp si ∨ later (Some (sp, si)).
Proof.
  simpl. split.
  - intros ([|[|k]] & Hk & H); [lia|by left|right]. exists (S k). split; [lia|done].
  - intros [H|(k & Hk & H)]; [exists 1%nat; split; [lia|done]|]. exists (S k). split; [lia|done].
Qed.

(** One item against one byte. *)
Definition step (p : bytes) (c : byte) : option bytes :=
  match head p with
  | Some (f, r) => if f c then Some r else None
  | None => None
  end.

Lemma glob_loop_eq fuel p c s star :
  glob_loop (S fuel) p (c :: s) star =
  match p with
  | x :: p' =>
      if Byte.eqb x STAR then
        match skip_stars p with [] => Some true | q => glob_loop fuel q (c :: s) (Some (q, c :: s)) end
      else
        match step p c with
        | Some r => glob_loop fuel r s star
        | None => match star with
                  | Some (sp, si) => glob_loop fuel sp (tail si) (Some (sp, tail si))
                  | None => Some false
                  end
        end
  | [] => match star with
          | Some (sp, si) => glob_loop fuel sp (tail si) (Some (sp, tail si))
          | None => Some false
          end
  end.
Proof.
  cbn [glob_loop]. destruct p as [|x p]; [done|]. unfold step, head.
  destruct (Byte.eqb x STAR); [done|]. destruct (Byte.eqb x ANY); [done|].
  destruct (Byte.eqb x OPEN).
  - destruct (class p c) as [m r] eqn:E. pose proof (class_spec p c) as [Hr _]. rewrite E in Hr.
    simpl in Hr. rewrite Hr. simpl. by destruct m.
  - destruct (Byte.eqb x ESC); [destruct p as [|y p]|].
    + by destruct (Byte.eqb x c).
    + by destruct (Byte.eqb y c).
    + by destruct (Byte.eqb x c).
Qed.

Lemma step_spec p c s r : step p c = Some r → globs p (c :: s) ↔ globs r s.
Proof.
  unfold step. destruct (head p) as [[f r']|] eqn:E; [|done]. destruct (f c) eqn:Ef; [|done].
  intros [= <-]. rewrite (head_spec _ _ _ E). split; [by intros (? & ? & [= <- <-] & _ & ?)|eauto].
Qed.

Lemma step_fails x p c s : x ≠ STAR → step (x :: p) c = None → ¬ globs (x :: p) (c :: s).
Proof.
  intros Hx. unfold step. destruct (head (x :: p)) as [[f r']|] eqn:E.
  - destruct (f c) eqn:Ef; [done|]. intros _. rewrite (head_spec _ _ _ E).
    intros (? & ? & [= <- <-] & ? & _). congruence.
  - intros _. apply head_None in E as [?|(? & [= ? ?])]; done.
Qed.

Lemma attempt_step p c s star r : attempt p (c :: s) star → step p c = Some r → attempt r s star.
Proof.
  unfold step. destruct (head p) as [[f r']|] eqn:E; [|done]. destruct (f c); [|done].
  intros ? [= <-]. by eapply attempt_next.
Qed.

Lemma attempt_start p c s sp si : attempt p (c :: s) (Some (sp, si)) →
  ∃ d si', si = d :: si' ∧ (length s ≤ length si')%nat.
Proof.
  intros (n & _ & Hs & _). assert (length (c :: s) = length (drop n si)) as Hl by (by rewrite <- Hs).
  rewrite length_drop in Hl. destruct si as [|d si]; simpl in Hl; [lia|]. exists d, si. split; [done|lia].
Qed.

(** A loop that ends has decided whether the attempt under way or a later one
    matches. *)
Lemma glob_loop_spec fuel p s star b :
  attempt p s star → glob_loop fuel p s star = Some b → b = true ↔ globs p s ∨ later star.
Proof.
  revert p s star. induction fuel as [|fuel IH]; intros p s star Ha; destruct s as [|c s].
  1,3: intros [= <-]; rewrite bool_decide_eq_true, <- globs_end; pose proof (later_end _ _ Ha); tauto.
  1: done.
  rewrite glob_loop_eq.
  assert (Hback : ¬ globs p (c :: s) →
    match star with
    | Some (sp, si) => glob_loop fuel sp (tail si) (Some (sp, tail si))
    | None => Some false
    end = Some b → b = true ↔ globs p (c :: s) ∨ later star).
  { intros Hn. destruct star as [[sp si]|]; [|intros [= <-]; naive_solver].
    destruct (attempt_start _ _ _ _ _ Ha) as (d & si' & -> & _).
    intros ->%IH; [|apply attempt_here]. rewrite later_split. cbn [tail]. tauto. }
  destruct p as [|x p]; [apply Hback; inversion 1|].
  destruct (eqb_spec x STAR) as [->|Hx].
  - assert (Hs : globs (STAR :: p) (c :: s) ∨ later star ↔ globs (STAR :: p) (c :: s)).
    { pose proof (later_star _ _ _ Ha). tauto. }
    rewrite Hs, globs_skip. cbn [skip_stars]. destruct (eqb_spec STAR STAR) as [_|]; [|done].
    destruct (skip_stars p) as [|y q].
    + intros [= <-]. split; [|done]. intros _. exists (length (c :: s)). rewrite drop_all.
      split; [lia|constructor].
    + intros ->%IH; [|apply attempt_here]. simpl. split.
      * intros [H|(k & Hk & H)]; [exists 0%nat; split; [lia|done]|exists k; split; [lia|done]].
      * intros ([|k] & Hk & H); [by left|right]. exists (S k). split; [lia|done].
  - destruct (step (x :: p) c) as [r|] eqn:E; [|by apply Hback, step_fails].
    intros ->%IH; [|by eapply attempt_step]. by rewrite (step_spec _ _ _ _ E).
Qed.

(** ** Termination *)

Lemma class_items_rest n p : (length p ≤ n)%nat → (length (class_items p).2 ≤ length p)%nat.
Proof.
  revert p. induction n as [|n IH]; intros p Hn; destruct p as [|x p1]; simpl in *; try lia.
  destruct (Byte.eqb x CLOSE); [simpl; lia|].
  pose proof (IH p1 ltac:(lia)) as H1. destruct p1 as [|y p2]; [simpl; lia|].
  destruct (Byte.eqb x ESC).
  - pose proof (IH p2 ltac:(simpl in *; lia)). destruct (class_items p2); simpl in *; lia.
  - destruct p2 as [|z p3]; [by destruct (class_items [y]); simpl in *; lia|]. destruct (Byte.eqb y DASH).
    + pose proof (IH p3 ltac:(simpl in *; lia)). destruct (class_items p3); simpl in *; lia.
    + destruct (class_items (y :: z :: p3)); simpl in *; lia.
Qed.

Lemma class_rest_length p : (length (class_rest p) ≤ length p)%nat.
Proof.
  destruct p as [|x p]; [done|]. simpl.
  pose proof (class_items_rest _ p (Nat.le_refl _)).
  pose proof (class_items_rest _ (x :: p) (Nat.le_refl _)).
  destruct (Byte.eqb x CARET); simpl in *; lia.
Qed.

Lemma step_length p c r : step p c = Some r → (length r < length p)%nat.
Proof.
  unfold step, head. destruct p as [|x p]; [done|]. pose proof (class_rest_length p).
  destruct (Byte.eqb x STAR); [done|]. destruct (Byte.eqb x ANY); [intros [= <-]; simpl; lia|].
  destruct (Byte.eqb x OPEN); [destruct (class p c).1; [intros [= <-]; simpl; lia|done]|].
  destruct (Byte.eqb x ESC); [destruct p as [|y p]|].
  - destruct (Byte.eqb x c); [intros [= <-]; simpl; lia|done].
  - destruct (Byte.eqb y c); [intros [= <-]; simpl; lia|done].
  - destruct (Byte.eqb x c); [intros [= <-]; simpl; lia|done].
Qed.

Lemma skip_stars_length p : (length (skip_stars p) ≤ length p)%nat.
Proof. induction p as [|x p IH]; simpl; [done|]. destruct (Byte.eqb x STAR); simpl; lia. Qed.

(** The turns left: a round of the pattern for each place the last star can
    still be tried at, and the rest of the round under way. *)
Definition turns (P : nat) (p s : bytes) (star : option (bytes * bytes)) : nat :=
  match star with
  | Some (_, si) => length si * (P + 1) + length p
  | None => (length s + 1) * (P + 1) + length p
  end.

Lemma glob_loop_ends P fuel p s star :
  attempt p s star → (length p ≤ P)%nat →
  (match star with Some (sp, _) => length sp ≤ P | None => True end)%nat →
  (turns P p s star < fuel)%nat → is_Some (glob_loop fuel p s star).
Proof.
  revert p s star. induction fuel as [|fuel IH]; intros p s star Ha Hp Hsp Ht; [lia|].
  destruct s as [|c s]; [by eexists|]. rewrite glob_loop_eq.
  assert (Hback : is_Some match star with
    | Some (sp, si) => glob_loop fuel sp (tail si) (Some (sp, tail si))
    | None => Some false
    end).
  { destruct star as [[sp si]|]; [|by eexists].
    destruct (attempt_start _ _ _ _ _ Ha) as (d & si' & -> & _). cbn [tail].
    apply IH; [apply attempt_here|done|done|]. simpl in *. lia. }
  destruct p as [|x p]; [done|]. destruct (eqb_spec x STAR) as [->|].
  - pose proof (skip_stars_length p) as Hl. cbn [skip_stars]. destruct (eqb_spec STAR STAR) as [_|]; [|done].
    destruct (skip_stars p) as [|y q] eqn:E; [by eexists|].
    apply IH; [apply attempt_here|simpl in *; lia|simpl in *; lia|]. destruct star as [[sp si]|].
    + destruct (attempt_start _ _ _ _ _ Ha) as (d & si' & -> & ?). simpl in *. nia.
    + simpl in *. nia.
  - destruct (step (x :: p) c) as [r|] eqn:E; [|done]. pose proof (step_length _ _ _ E).
    apply IH; [by eapply attempt_step|lia|done|]. destruct star as [[sp si]|]; simpl in *; nia.
Qed.

Lemma glob_loop_enough fuel pattern s :
  (glob_fuel pattern s ≤ fuel)%nat →
  ∃ b, glob_loop fuel pattern s None = Some b ∧ (b = true ↔ globs pattern s).
Proof.
  unfold glob_fuel. intros Hf.
  destruct (glob_loop_ends (length pattern) fuel pattern s None) as [b E]; try done; [simpl; nia|].
  exists b. split; [done|]. apply glob_loop_spec in E as ->; [|done]. simpl. tauto.
Qed.

(** C31. The matcher ends, whatever the pattern holds: within as many turns as
    the string is long times the pattern, and one more of each, it has its
    answer, and no longer run changes it. *)
Theorem glob_ends_in_its_bound pattern s :
  ∃ b, glob_match pattern s = Some b ∧
       ∀ fuel, (glob_fuel pattern s ≤ fuel)%nat → glob_loop fuel pattern s None = Some b.
Proof.
  destruct (glob_loop_enough (glob_fuel pattern s) pattern s) as (b & E & Hb); [lia|].
  exists b. split; [done|]. intros fuel Hf.
  destruct (glob_loop_enough fuel pattern s Hf) as (b' & E' & Hb'). rewrite E'. f_equal.
  destruct b, b'; naive_solver.
Qed.

(** C6. Going back to the last star only is enough: the matcher accepts a
    string exactly when the pattern means it, a star standing for any string,
    [?] for any byte, a class for its items or all but them, and an escaped or
    plain byte for itself. *)
Theorem glob_is_redis_glob pattern s :
  (glob_match pattern s = Some true ↔ globs pattern s) ∧
  (glob_match pattern s = Some false ↔ ¬ globs pattern s).
Proof.
  destruct (glob_loop_enough (glob_fuel pattern s) pattern s) as (b & E & Hb); [lia|].
  unfold glob_match. rewrite E. destruct b; naive_solver.
Qed.

End Glob.
