(* ===== verification/Resp.v ===== *)
(** * The wire protocol (src/crates/flint-resp/src/lib.rs)

    Replies by their meaning ([Value]), the encoder that renders one for the
    protocol a connection speaks, the encoder that drains its buffer on the
    way, and the incremental decoder. A Rust [String] is its UTF-8 bytes. The
    decoder recurses on the nesting it has left, [MAX_DEPTH] and one, and takes
    the elements of an aggregate on the count its header declares. *)

From stdpp Require Import base list strings.
From Stdlib Require Import ZArith Lia SpecFloat.
From S2P Require Import Prelude Encoding Num F64.

(** ** UTF-8

    [str::from_utf8] and [String::from_utf8_lossy] of the language. *)
Module Utf8.

(** What a lead byte asks for: how many continuation bytes, and the range of
    the first of them. *)
Definition lead (b : Z) : option (nat * Z * Z) :=
  if b <? 128 then Some (0%nat, 0, 0)
  else if b <? 194 then None
  else if b <? 224 then Some (1%nat, 128, 191)
  else if b =? 224 then Some (2%nat, 160, 191)
  else if b =? 237 then Some (2%nat, 128, 159)
  else if b <? 240 then Some (2%nat, 128, 191)
  else if b =? 240 then Some (3%nat, 144, 191)
  else if b <? 244 then Some (3%nat, 128, 191)
  else if b =? 244 then Some (3%nat, 128, 143)
  else None.

(** How many of the [n] continuation bytes are there; the first has a range
    of its own. *)
Fixpoint continued (n : nat) (lo hi : Z) (l : bytes) : nat :=
  match n, l with
  | S n', b :: l' => if (lo <=? b2z b) && (b2z b <=? hi) then S (continued n' 128 191 l') else O
  | _, _ => O
  end.

(** The first character: whether it is one, and how many bytes it, or the
    malformed sequence in its place, takes. *)
Definition first_char (b : byte) (l : bytes) : bool * nat :=
  match lead (b2z b) with
  | None => (false, 1%nat)
  | Some (n, lo, hi) => let k := continued n lo hi l in (bool_decide (k = n), S k)
  end.

Fixpoint valid_loop (fuel : nat) (l : bytes) : bool :=
  match fuel, l with
  | S fuel', b :: l' =>
      let '(ok, k) := first_char b l' in ok && valid_loop fuel' (drop k l)
  | _, _ => true
  end.

Definition valid (l : bytes) : bool := valid_loop (length l) l.

(** Each malformed sequence becomes U+FFFD. *)
Fixpoint lossy_loop (fuel : nat) (l : bytes) : bytes :=
  match fuel, l with
  | S fuel', b :: l' =>
      let '(ok, k) := first_char b l' in
      (if ok then take k l else [Byte.xef; Byte.xbf; Byte.xbd]) ++ lossy_loop fuel' (drop k l)
  | _, _ => []
  end.

Definition from_utf8_lossy (l : bytes) : bytes := lossy_loop (length l) l.

End Utf8.

(** ** Numbers as text *)

Definition CR : byte := Byte.x0d.
Definition LF : byte := Byte.x0a.
Definition CRLF : bytes := [CR; LF].

(** [str::parse::<i64>]: a sign, then digits, within the range. *)
Definition i64_from_str (raw : bytes) : option Z :=
  let '(s, d) := strip_sign raw in
  if negb (bool_decide (d = [])) && forallb is_digit d then
    let z := if s then - digits_value d else digits_value d in
    if (I64_MIN <=? z) && (z <=? I64_MAX) then Some z else None
  else None.

(** [usize::to_string]. *)
Definition dec (n : nat) : bytes := i64_to_string (Z.of_nat n).

(** The integer a double is, when it is one: [s.fract() == 0.0] and [s as i64]. *)
Definition f64_to_integer (x : Z) : option Z :=
  match f64_value x with
  | S754_zero _ => Some 0
  | S754_finite s m e =>
      let z := if 0 <=? e then Some (Zpos m * 2 ^ e)
               else if Zpos m mod 2 ^ (- e) =? 0 then Some (Zpos m / 2 ^ (- e)) else None in
      match z with Some z => Some (if s then - z else z) | None => None end
  | _ => None
  end.

(** [(i64::MAX / 2) as f64] rounds to 2^62. *)
Definition HALF : Z := 2 ^ 62.

(** ** [format!("{s:e}")]: the shortest digits that read back

    Of the decimals of [n] digits next to the value, below and above, the
    nearer that reads back, the upper one on a tie; [n] is the least for which
    there is one, and no double needs more than 17. *)

(** The place of the first digit of a value below one. *)
Fixpoint small_exp10 (fuel : nat) (num den : Z) (x : Z) : Z :=
  match fuel with
  | O => x
  | S fuel' => if den <=? num then x else small_exp10 fuel' (num * 10) den (x - 1)
  end.

Definition exp10_of (num den : Z) : Z :=
  if den <=? num then len (digits 330 (num / den)) - 1 else small_exp10 330 num den 0.

Definition decimal_reads_back (m : positive) (e : Z) (q x : Z) : bool :=
  match round_decimal false q x with
  | S754_finite _ m' e' => (m =? m')%positive && (e =? e')
  | _ => false
  end.

Fixpoint shortest_loop (fuel : nat) (n : Z) (m : positive) (e num den x : Z) : Z * Z :=
  let k := x - n + 1 in
  let a := num * 10 ^ Z.max (- k) 0 in
  let b := den * 10 ^ Z.max k 0 in
  let q := a / b in
  let r := a mod b in
  let down := decimal_reads_back m e q k in
  let up := decimal_reads_back m e (q + 1) k in
  if up && (negb down || (b <=? 2 * r)) then (q + 1, k)
  else if down then (q, k)
  else match fuel with
       | O => if b <=? 2 * r then (q + 1, k) else (q, k)
       | S fuel' => shortest_loop fuel' (n + 1) m e num den x
       end.

(** The digits and the scientific exponent. A carry into a further digit
    leaves a zero at the end, which is none of the shortest digits. *)
Definition sci (m : positive) (e : Z) : bytes * Z :=
  let num := Zpos m * 2 ^ Z.max e 0 in
  let den := 2 ^ Z.max (- e) 0 in
  let '(q, k) := shortest_loop 16 1 m e num den (exp10_of num den) in
  let d := digits 20 q in
  (trim_end ZERO d, len d - 1 + k).

(** [fpconv]'s layout of the digits. *)
Definition layout (neg : bool) (d : bytes) (exp10 : Z) : bytes :=
  let n := len d in
  let k := exp10 - (n - 1) in
  let exp := Z.abs exp10 in
  (if neg then [MINUS] else []) ++
  if (0 <=? k) && (exp <? n + 7) then d ++ repeat ZERO (Z.to_nat k)
  else if (k <? 0) && ((-7 <? k) || (exp <? 4)) then
    let point := n + k in
    if point <=? 0 then [ZERO; DOT] ++ repeat ZERO (Z.to_nat (- point)) ++ d
    else take (Z.to_nat point) d ++ [DOT] ++ drop (Z.to_nat point) d
  else
    take 1 d ++ (if 1 <? n then [DOT] ++ drop 1 d else []) ++
    [Byte.x65; if exp10 <? 0 then MINUS else PLUS] ++ i64_to_string exp.

Definition fmt_double (x : Z) : bytes :=
  match f64_value x with
  | S754_nan => bstr "nan"
  | S754_infinity s => if s then bstr "-inf" else bstr "inf"
  | S754_zero s => if s then bstr "-0" else bstr "0"
  | S754_finite s m e =>
      match f64_to_integer x with
      | Some z =>
          if (- HALF <=? z) && (z <=? HALF) then i64_to_string z
          else let '(d, x10) := sci m e in layout s d x10
      | None => let '(d, x10) := sci m e in layout s d x10
      end
  end.

(** The same text as INCRBYFLOAT's. *)
Definition fmt_human_double (x : Z) : bytes := fmt_float_human x.

(** ** Values *)

Inductive Proto := Resp2 | Resp3.

#[global] Instance Proto_eq_dec : EqDecision Proto.
Proof. solve_decision. Defined.

Definition Proto_version (p : Proto) : Z := match p with Resp2 => 2 | Resp3 => 3 end.
Definition from_version (v : Z) : option Proto :=
  if v =? 2 then Some Resp2 else if v =? 3 then Some Resp3 else None.

(** A double is its 64 bits. *)
Inductive Value :=
| Simple (s : bytes)
| Error (s : bytes)
| Integer (i : Z)
| Boolean (b : bool)
| Bulk (o : option bytes)
| Array (o : option (list Value))
| Null
| Double (d : Z)
| HumanDouble (d : Z)
| VMap (l : list (Value * Value))
| VSet (l : list Value)
| Resp3Nested (v : Value)
| ByProto (resp2 resp3 : Value)
| ScorePairs (l : list (bytes * Z))
| Push (l : list Value).

Inductive Decoded := Complete (v : Value) (used : nat) | NeedMore.

Inductive ProtocolError :=
| UnknownType (b : byte) | BadInteger | BadLength | MissingCrlf | TooDeep.

(** [Result<_, ProtocolError>]. *)
Inductive presult (A : Type) := POk (a : A) | PErr (e : ProtocolError).
Arguments POk {_} _.
Arguments PErr {_} _.

Definition pbind {A B} (r : presult A) (f : A → presult B) : presult B :=
  match r with POk a => f a | PErr e => PErr e end.

Declare Scope resp_scope.
Delimit Scope resp_scope with resp.
Notation "x <-! e ;; k" := (pbind e (λ x, k)) (at level 100, e at next level, right associativity) : resp_scope.
Local Open Scope resp_scope.

Definition MAX_DEPTH : nat := 32.
Definition MAX_BULK_LEN : Z := 512 * 1024 * 1024.
Definition MAX_ARRAY_LEN : Z := 1024 * 1024.

(** ** Encoding *)

Definition is_line_break (b : byte) : bool := Byte.eqb b CR || Byte.eqb b LF.

Definition push_line (s : bytes) : bytes :=
  if existsb is_line_break s then map (λ b, if is_line_break b then Byte.x20 else b) s else s.

Definition T_SIMPLE : byte := Byte.x2b.   (* + *)
Definition T_ERROR : byte := Byte.x2d.    (* - *)
Definition T_INT : byte := Byte.x3a.      (* : *)
Definition T_BULK : byte := Byte.x24.     (* $ *)
Definition T_ARRAY : byte := Byte.x2a.    (* * *)
Definition T_NULL : byte := Byte.x5f.     (* _ *)
Definition T_DOUBLE : byte := Byte.x2c.   (* , *)
Definition T_BOOL : byte := Byte.x23.     (* # *)
Definition T_MAP : byte := Byte.x25.      (* % *)
Definition T_SET : byte := Byte.x7e.      (* ~ *)
Definition T_PUSH : byte := Byte.x3e.     (* > *)

(** A type byte, a line, and its end. *)
Definition line (t : byte) (l : bytes) : bytes := t :: l ++ CRLF.

Definition bulk (data : bytes) : bytes := line T_BULK (dec (length data)) ++ data ++ CRLF.
Definition null_bulk : bytes := line T_BULK [MINUS; Byte.x31].
Definition null_array : bytes := line T_ARRAY [MINUS; Byte.x31].
Definition null3 : bytes := line T_NULL [].

(** What [encode_proto] appends to its buffer. *)
Fixpoint encode_proto (p : Proto) (v : Value) : bytes :=
  let resp3 := bool_decide (p = Resp3) in
  match v with
  | Null => if resp3 then null3 else null_bulk
  | Double d => if resp3 then line T_DOUBLE (fmt_double d) else bulk (fmt_double d)
  | HumanDouble d =>
      if resp3 then line T_DOUBLE (fmt_human_double d) else bulk (fmt_human_double d)
  | VMap pairs =>
      (if resp3 then line T_MAP (dec (length pairs)) else line T_ARRAY (dec (length pairs * 2))) ++
      flat_map (λ '(k, x), encode_proto p k ++ encode_proto p x) pairs
  | Push items =>
      line (if resp3 then T_PUSH else T_ARRAY) (dec (length items)) ++ flat_map (encode_proto p) items
  | VSet items =>
      line (if resp3 then T_SET else T_ARRAY) (dec (length items)) ++ flat_map (encode_proto p) items
  | ByProto r2 r3 => if resp3 then encode_proto p r3 else encode_proto p r2
  | Resp3Nested inner => (if resp3 then line T_ARRAY (dec 1) else []) ++ encode_proto p inner
  | ScorePairs pairs =>
      line T_ARRAY (dec (if resp3 then length pairs else length pairs * 2)) ++
      flat_map (λ '(m, s), (if resp3 then line T_ARRAY (dec 2) else []) ++ bulk m ++
                           (if resp3 then line T_DOUBLE (fmt_double s) else bulk (fmt_double s))) pairs
  | Simple s => line T_SIMPLE (push_line s)
  | Error s => line T_ERROR (push_line s)
  | Integer i => line T_INT (i64_to_string i)
  | Boolean b =>
      if resp3 then line T_BOOL [if b then Byte.x74 else Byte.x66]
      else line T_INT [if b then Byte.x31 else Byte.x30]
  | Bulk None => if resp3 then null3 else null_bulk
  | Array None => if resp3 then null3 else null_array
  | Bulk (Some data) => bulk data
  | Array (Some items) => line T_ARRAY (dec (length items)) ++ flat_map (encode_proto p) items
  end.

Definition encode (v : Value) : bytes := encode_proto Resp2 v.

(** ** Decoding *)

(** [input.windows(2).position(|w| w == b"\r\n")]. *)
Fixpoint find_crlf (l : bytes) : option nat :=
  match l with
  | a :: ((b :: _) as l') =>
      if Byte.eqb a CR && Byte.eqb b LF then Some O else option_map S (find_crlf l')
  | _ => None
  end.

Definition to_string (l : bytes) : presult bytes :=
  if Utf8.valid l then POk l else PErr BadInteger.

Definition parse_int (l : bytes) : presult Z :=
  match i64_from_str l with Some z => POk z | None => PErr BadInteger end.

Definition parse_double (l : bytes) : presult Z :=
  if bool_decide (l = bstr "inf") then POk F64_INFINITY
  else if bool_decide (l = bstr "-inf") then POk F64_NEG_INFINITY
  else match f64_parse l with Some d => POk d | None => PErr BadInteger end.

(** A pair of a member and its score. *)
Definition score_pair (v : Value) : option (bytes * Z) :=
  match v with
  | Array (Some [Bulk (Some m); Double s]) => Some (m, s)
  | _ => None
  end.

(** An array of nothing but such pairs is a scored result. *)
Definition array_of (items : list Value) : Value :=
  match items with
  | [] => Array (Some [])
  | _ => match mapM score_pair items with
         | Some pairs => ScorePairs pairs
         | None => Array (Some items)
         end
  end.

Fixpoint pairs_of (items : list Value) : list (Value * Value) :=
  match items with
  | k :: v :: rest => (k, v) :: pairs_of rest
  | _ => []
  end.

Definition aggregate (t : byte) (items : list Value) : Value :=
  if Byte.eqb t T_SET then VSet items
  else if Byte.eqb t T_PUSH then Push items
  else if Byte.eqb t T_MAP then VMap (pairs_of items)
  else array_of items.

(** The loop over an aggregate's elements; [None] when one is not there yet. *)
Fixpoint decode_items (dec1 : bytes → presult Decoded) (n : nat) (input : bytes) (offset : nat)
    (items : list Value) : presult (option (list Value * nat)) :=
  match n with
  | O => POk (Some (items, offset))
  | S n' =>
      d <-! dec1 (drop offset input) ;;
      match d with
      | Complete v used => decode_items dec1 n' input (offset + used) (items ++ [v])
      | NeedMore => POk None
      end
  end.

(** A line's content and the offset past its end. *)
Definition with_line (rest : bytes) (f : bytes → nat → presult Decoded) : presult Decoded :=
  match find_crlf rest with
  | None => POk NeedMore
  | Some line_end => f (take line_end rest) (1 + line_end + 2)%nat
  end.

Definition decode_bulk (input : bytes) (text : bytes) (header : nat) : presult Decoded :=
  n <-! parse_int text ;;
  if n =? -1 then POk (Complete (Bulk None) header)
  else if n <? 0 then PErr BadLength
  else if MAX_BULK_LEN <? n then PErr BadLength
  else
    let total := (header + Z.to_nat n + 2)%nat in
    if (length input <? total)%nat then POk NeedMore
    else if bool_decide (take 2 (drop (header + Z.to_nat n) input) = CRLF)
         then POk (Complete (Bulk (Some (sub input header (Z.to_nat n)))) total)
         else PErr MissingCrlf.

Definition decode_aggregate (dec1 : bytes → presult Decoded) (t : byte) (input : bytes)
    (text : bytes) (offset : nat) : presult Decoded :=
  n <-! parse_int text ;;
  if n =? -1 then POk (Complete (Array None) offset)
  else if n <? 0 then PErr BadLength
  else if MAX_ARRAY_LEN <? n then PErr BadLength
  else
    let per := if Byte.eqb t T_MAP then 2 else 1 in
    o <-! decode_items dec1 (Z.to_nat (n * per)) input offset [] ;;
    match o with
    | Some (items, offset') => POk (Complete (aggregate t items) offset')
    | None => POk NeedMore
    end.

(** [decode_at], with the nesting left instead of the depth reached. *)
Fixpoint decode_at (room : nat) (input : bytes) : presult Decoded :=
  match room with
  | O => PErr TooDeep
  | S room' =>
      match input with
      | [] => POk NeedMore
      | t :: rest =>
          if Byte.eqb t T_SIMPLE then
            with_line rest (λ l n, s <-! to_string l ;; POk (Complete (Simple s) n))
          else if Byte.eqb t T_ERROR then
            with_line rest (λ l n, s <-! to_string l ;; POk (Complete (Error s) n))
          else if Byte.eqb t T_INT then
            with_line rest (λ l n, i <-! parse_int l ;; POk (Complete (Integer i) n))
          else if Byte.eqb t T_BULK then with_line rest (decode_bulk input)
          else if Byte.eqb t T_ARRAY || Byte.eqb t T_SET || Byte.eqb t T_MAP || Byte.eqb t T_PUSH then
            with_line rest (decode_aggregate (decode_at room') t input)
          else if Byte.eqb t T_NULL then
            match find_crlf rest with
            | Some O => POk (Complete Null 3)
            | Some _ => PErr MissingCrlf
            | None => POk NeedMore
            end
          else if Byte.eqb t T_DOUBLE then
            with_line rest (λ l n, d <-! parse_double l ;; POk (Complete (Double d) n))
          else if Byte.eqb t T_BOOL then
            with_line rest (λ l n,
              if bool_decide (l = [Byte.x74]) then POk (Complete (Boolean true) n)
              else if bool_decide (l = [Byte.x66]) then POk (Complete (Boolean false) n)
              else PErr BadInteger)
          else PErr (UnknownType t)
      end
  end.

Definition decode (input : bytes) : presult Decoded := decode_at (MAX_DEPTH + 1) input.

(** ** Lines *)

Lemma find_crlf_cons a b l :
  find_crlf (a :: b :: l) =
  if Byte.eqb a CR && Byte.eqb b LF then Some O else option_map S (find_crlf (b :: l)).
Proof. done. Qed.

Lemma find_crlf_bound l n : find_crlf l = Some n → (n + 2 ≤ length l)%nat.
Proof.
  revert n. induction l as [|a [|b l] IH]; intros n; [done|done|]. rewrite find_crlf_cons.
  destruct (_ && _); [intros [= <-]; simpl; lia|].
  destruct (find_crlf (b :: l)) as [k|] eqn:E; [|done]. intros [= <-].
  specialize (IH k eq_refl). simpl in *. lia.
Qed.

Lemma find_crlf_app l m n : find_crlf l = Some n → find_crlf (l ++ m) = Some n.
Proof.
  revert n. induction l as [|a [|b l] IH]; intros n; [done|done|]. cbn [app].
  rewrite !find_crlf_cons. destruct (_ && _); [done|]. destruct (find_crlf (b :: l)) as [k|] eqn:E; [|done].
  cbn [app] in IH. by rewrite (IH k eq_refl).
Qed.

Lemma find_crlf_end l r : CR ∉ l → find_crlf (l ++ CRLF ++ r) = Some (length l).
Proof.
  induction l as [|a l IH]; intros Hl; [done|]. apply not_elem_of_cons in Hl as [Ha Hl].
  specialize (IH Hl). destruct l as [|b l]; cbn [app CRLF] in *;
    rewrite find_crlf_cons, byte_eqb_ne by done; cbn [andb]; [done|]. by rewrite IH.
Qed.

Lemma with_line_end t l r f : CR ∉ l →
  with_line (l ++ CRLF ++ r) f = f l (length (line t l)).
Proof.
  intros Hl. unfold with_line. rewrite find_crlf_end by done.
  rewrite take_app_length. unfold line. cbn [length]. rewrite length_app. cbn [CRLF length]. done.
Qed.

(** The cases of the decoder, one for each type byte and one for the rest. *)
Ltac by_type t :=
  destruct (Byte.eqb t T_SIMPLE); [|destruct (Byte.eqb t T_ERROR); [|destruct (Byte.eqb t T_INT);
    [|destruct (Byte.eqb t T_BULK);
      [|destruct (Byte.eqb t T_ARRAY || Byte.eqb t T_SET || Byte.eqb t T_MAP || Byte.eqb t T_PUSH);
        [|destruct (Byte.eqb t T_NULL); [|destruct (Byte.eqb t T_DOUBLE); [|destruct (Byte.eqb t T_BOOL)]]]]]]].

(** ** A verdict is final

    More bytes change nothing but [NeedMore], and a frame is no longer than
    the bytes it was read from. *)

Lemma decode_items_used dec1 n input offset items items' offset' :
  (∀ l v used, dec1 l = POk (Complete v used) → (0 < used ≤ length l)%nat) →
  (offset ≤ length input)%nat →
  decode_items dec1 n input offset items = POk (Some (items', offset')) →
  (offset ≤ offset' ≤ length input)%nat.
Proof.
  intros Hd. revert offset items. induction n as [|n IH]; intros offset items Ho; simpl.
  - intros [= <- <-]. lia.
  - destruct (dec1 (drop offset input)) as [[v used|]|e] eqn:E; simpl; try done.
    apply Hd in E. rewrite length_drop in E. intros H%IH; lia.
Qed.

Lemma decode_used room input v used :
  decode_at room input = POk (Complete v used) → (0 < used ≤ length input)%nat.
Proof.
  revert input v used. induction room as [|room IH]; intros input v used; [done|].
  destruct input as [|t rest]; [done|]. cbn [decode_at].
  assert (Hw : ∀ f, (∀ l n, (0 < n ≤ S (length rest))%nat → f l n = POk (Complete v used) →
      (0 < used ≤ S (length rest))%nat) →
    with_line rest f = POk (Complete v used) → (0 < used ≤ length (t :: rest))%nat).
  { intros f Hf. unfold with_line. destruct (find_crlf rest) as [k|] eqn:E; [|done].
    apply find_crlf_bound in E. apply Hf. lia. }
  assert (Hp : ∀ A (r : presult A) (g : A → Value) n,
    (a <-! r ;; POk (Complete (g a) n)) = POk (Complete v used) → used = n).
  { intros A [a|e] g n; simpl; [by intros [= _ <-]|done]. }
  by_type t.
  - apply Hw. intros l n Hn ->%(Hp _ _ Simple). done.
  - apply Hw. intros l n Hn ->%(Hp _ _ Error). done.
  - apply Hw. intros l n Hn ->%(Hp _ _ Integer). done.
  - apply Hw. intros l n Hn. unfold decode_bulk. destruct (parse_int l) as [z|]; [|done]. simpl.
    destruct (z =? -1); [by intros [= _ <-]|]. destruct (z <? 0), (MAX_BULK_LEN <? z); try done.
    destruct (Nat.ltb_spec (S (length rest)) (n + Z.to_nat z + 2)); [done|].
    case_bool_decide; [|done]. intros [= _ <-]. lia.
  - apply Hw. intros l n Hn. unfold decode_aggregate. destruct (parse_int l) as [z|]; [|done]. simpl.
    destruct (z =? -1); [by intros [= _ <-]|]. destruct (z <? 0), (MAX_ARRAY_LEN <? z); try done.
    destruct (decode_items _ _ _ _ _) as [[[items o]|]|] eqn:E; simpl; try done.
    intros [= _ <-]. apply decode_items_used in E; [simpl in *; lia|done|simpl; lia].
  - destruct (find_crlf rest) as [[|k]|] eqn:E; try done. intros [= _ <-].
    apply find_crlf_bound in E. simpl. lia.
  - apply Hw. intros l n Hn ->%(Hp _ _ Double). done.
  - apply Hw. intros l n Hn. repeat case_bool_decide; try done; by intros [= _ <-].
  - done.
Qed.

Lemma decode_items_stable dec1 n input more offset items :
  (∀ l v used, dec1 l = POk (Complete v used) → (0 < used ≤ length l)%nat) →
  (∀ l more, dec1 l ≠ POk NeedMore → dec1 (l ++ more) = dec1 l) →
  (offset ≤ length input)%nat → decode_items dec1 n input offset items ≠ POk None →
  decode_items dec1 n (input ++ more) offset items = decode_items dec1 n input offset items.
Proof.
  intros Hu Hs. revert offset items. induction n as [|n IH]; intros offset items Ho; simpl; [done|].
  rewrite drop_app_le by done. intros Hd.
  destruct (dec1 (drop offset input)) as [[v used|]|e] eqn:E; simpl in Hd; try done;
    rewrite Hs, E by congruence; simpl; [|done].
  apply Hu in E. rewrite length_drop in E. apply IH; [lia|done].
Qed.

Lemma with_line_stable rest more f f' :
  (∀ l n, (n ≤ S (length rest))%nat → f l n ≠ POk NeedMore → f' l n = f l n) →
  with_line rest f ≠ POk NeedMore → with_line (rest ++ more) f' = with_line rest f.
Proof.
  intros Hf. unfold with_line. destruct (find_crlf rest) as [k|] eqn:E; [|done].
  rewrite (find_crlf_app _ _ _ E). apply find_crlf_bound in E. rewrite take_app_le by lia.
  apply Hf. lia.
Qed.

Lemma decode_stable room input more :
  decode_at room input ≠ POk NeedMore → decode_at room (input ++ more) = decode_at room input.
Proof.
  revert input more. induction room as [|room IH]; intros input more; [done|].
  destruct input as [|t rest]; [done|]. cbn [decode_at app]. by_type t; try by apply with_line_stable.
  - apply with_line_stable. intros l n Hn. unfold decode_bulk. destruct (parse_int l) as [z|]; [|done].
    cbn [pbind]. destruct (z =? -1); [done|]. destruct (z <? 0), (MAX_BULK_LEN <? z); try done.
    cbn [length]. rewrite length_app.
    destruct (Nat.ltb_spec (S (length rest)) (n + Z.to_nat z + 2)); [done|]. intros _.
    rewrite (proj2 (Nat.ltb_ge _ _)) by lia.
    change (t :: rest ++ more) with ((t :: rest) ++ more). unfold sub.
    rewrite !drop_app_le, !take_app_le by (rewrite ?length_drop; cbn [length]; lia). done.
  - apply with_line_stable. intros l n Hn. unfold decode_aggregate. destruct (parse_int l) as [z|]; [|done].
    cbn [pbind]. destruct (z =? -1); [done|]. destruct (z <? 0), (MAX_ARRAY_LEN <? z); try done.
    intros Hd. change (t :: rest ++ more) with ((t :: rest) ++ more).
    rewrite decode_items_stable; [done|apply decode_used|by intros; apply IH|done|].
    intros E. by rewrite E in Hd.
  - destruct (find_crlf rest) as [k|] eqn:E; [|done]. by rewrite (find_crlf_app _ _ _ E).
  - done.
Qed.

(** ** What a decoded value is *)

(** The invariant of a value that came off the wire: strings are UTF-8,
    integers are [i64], aggregates are within their limits, and there is no
    more nesting than [room] allows. *)
Fixpoint wire (room : nat) (v : Value) : Prop :=
  match room with
  | O => False
  | S room' =>
      match v with
      | Simple s | Error s => Utf8.valid s = true
      | Integer i => in_i64 i
      | Boolean _ | Null | Bulk None | Array None => True
      | Bulk (Some d) => len d <= MAX_BULK_LEN
      | Array (Some l) | VSet l | Push l => len l <= MAX_ARRAY_LEN /\ Forall (wire room') l
      | VMap l => len l <= MAX_ARRAY_LEN /\ Forall (λ kv, wire room' kv.1 /\ wire room' kv.2) l
      | Double d => in_width 64 d
      | ScorePairs l =>
          0 < len l <= MAX_ARRAY_LEN /\ (2 < room)%nat /\
          Forall (λ ms, len ms.1 <= MAX_BULK_LEN /\ in_width 64 ms.2) l
      | HumanDouble _ | Resp3Nested _ | ByProto _ _ => False
      end
  end.

Lemma parse_int_range l z : parse_int l = POk z → in_i64 z.
Proof.
  unfold parse_int, i64_from_str. destruct (strip_sign l) as [s d]. destruct (_ && _); [|done].
  set (x := if s then _ else _). destruct (_ && _) eqn:E; [|done]. intros [= <-]. by apply i64_range_iff.
Qed.

Lemma f64_parse_width l d : f64_parse l = Some d → in_width 64 d.
Proof.
  unfold f64_parse. destruct (strip_sign l) as [s body]. repeat case_bool_decide.
  - intros [= <-]. apply f64_bits_width.
  - intros [= <-]. apply f64_bits_width.
  - destruct (parse_decimal body) as [[m e]|]; simpl; [|done]. intros [= <-]. apply f64_of_value_width.
Qed.

Lemma parse_double_width l d : parse_double l = POk d → in_width 64 d.
Proof.
  unfold parse_double. repeat case_bool_decide; try (intros [= <-]; apply f64_bits_width).
  destruct (f64_parse l) as [x|] eqn:E; [|done]. intros [= <-]. by eapply f64_parse_width.
Qed.

Lemma decode_items_wire dec1 (P : Value → Prop) n input offset items items' offset' :
  (∀ l v used, dec1 l = POk (Complete v used) → P v) → Forall P items →
  decode_items dec1 n input offset items = POk (Some (items', offset')) →
  Forall P items' ∧ length items' = (length items + n)%nat.
Proof.
  intros Hd. revert offset items. induction n as [|n IH]; intros offset items Hi; simpl.
  - intros [= <- <-]. split; [done|lia].
  - destruct (dec1 (drop offset input)) as [[v used|]|e] eqn:E; simpl; try done.
    intros [? Hl]%IH; [|apply Forall_app; split; [done|]; apply Forall_singleton; by eapply Hd].
    rewrite length_app in Hl. simpl in Hl. split; [done|lia].
Qed.

Lemma score_pair_wire r v m s :
  wire r v → score_pair v = Some (m, s) → (1 < r)%nat ∧ len m <= MAX_BULK_LEN ∧ in_width 64 s.
Proof.
  destruct r as [|r]; [done|]. unfold score_pair. destruct v; try done. destruct o as [l|]; [|done].
  intros [_ Hl]. repeat case_match; try done. intros [= -> ->].
  apply Forall_cons in Hl as [Hm [Hs _]%Forall_cons]. destruct r as [|r]; [done|]. simpl in *.
  split_and!; [lia|done|done..].
Qed.

Lemma array_of_wire r items :
  Forall (wire r) items → len items <= MAX_ARRAY_LEN → wire (S r) (array_of items).
Proof.
  intros Hi Hl. destruct items as [|v items]; [by split|]. cbn [array_of].
  destruct (mapM score_pair (v :: items)) as [ps|] eqn:E; [|by split].
  apply mapM_Some in E. pose proof (Forall2_length _ _ _ E) as Hlen. simpl in Hlen, Hl.
  assert (Hp : Forall (λ ms, (1 < r)%nat ∧ len ms.1 <= MAX_BULK_LEN ∧ in_width 64 ms.2) ps).
  { clear Hl Hlen. induction E as [|x [m s] l k Hx _ IH]; [done|]. apply Forall_cons in Hi as [Hw Hi].
    constructor; [by eapply score_pair_wire|by apply IH]. }
  destruct ps as [|p ps]; [done|]. pose proof (Forall_inv Hp) as (Hr & _).
  simpl. split_and!; [lia|simpl in *; lia|lia|]. eapply Forall_impl; [exact Hp|]. simpl. tauto.
Qed.

Lemma pairs_of_length items : (length (pairs_of items) * 2 ≤ length items)%nat.
Proof.
  assert (∀ n items, (length items ≤ n)%nat → (length (pairs_of items) * 2 ≤ length items)%nat) as H.
  { induction n as [|n IH]; intros [|k [|v l]] Hl; simpl in *; try lia.
    specialize (IH l ltac:(lia)). lia. }
  by eapply H.
Qed.

Lemma pairs_of_Forall (P : Value → Prop) items :
  Forall P items → Forall (λ kv, P kv.1 ∧ P kv.2) (pairs_of items).
Proof.
  assert (∀ n items, (length items ≤ n)%nat → Forall P items →
    Forall (λ kv, P kv.1 ∧ P kv.2) (pairs_of items)) as H.
  { induction n as [|n IH]; intros [|k [|v l]] Hl HP; simpl in *; try constructor; try lia.
    - apply Forall_cons in HP as [? [? ?]%Forall_cons]. done.
    - apply IH; [lia|]. by apply Forall_cons in HP as [? [? ?]%Forall_cons]. }
  by eapply H.
Qed.

Lemma aggregate_wire r t items n :
  Forall (wire r) items → 0 <= n <= MAX_ARRAY_LEN →
  length items = Z.to_nat (n * (if Byte.eqb t T_MAP then 2 else 1)) → wire (S r) (aggregate t items).
Proof.
  intros Hi Hn Hl. unfold aggregate. pose proof (pairs_of_length items).
  destruct (Byte.eqb t T_SET) eqn:E1.
  { apply byte_eqb_spec in E1 as ->. split; [simpl in Hl; lia|done]. }
  destruct (Byte.eqb t T_PUSH) eqn:E2.
  { apply byte_eqb_spec in E2 as ->. split; [simpl in Hl; lia|done]. }
  destruct (Byte.eqb t T_MAP).
  - split; [lia|]. by apply pairs_of_Forall.
  - apply array_of_wire; [done|lia].
Qed.

Lemma decode_wire room input v used : decode_at room input = POk (Complete v used) → wire room v.
Proof.
  revert input v used. induction room as [|room IH]; intros input v used; [done|].
  destruct input as [|t rest]; [done|]. cbn [decode_at].
  assert (Hw : ∀ f, (∀ l n, f l n = POk (Complete v used) → wire (S room) v) →
    with_line rest f = POk (Complete v used) → wire (S room) v).
  { intros f Hf. unfold with_line. destruct (find_crlf rest); [apply Hf|done]. }
  by_type t.
  - apply Hw. intros l n. unfold to_string. destruct (Utf8.valid l) eqn:E; [|done]. by intros [= <- _].
  - apply Hw. intros l n. unfold to_string. destruct (Utf8.valid l) eqn:E; [|done]. by intros [= <- _].
  - apply Hw. intros l n. destruct (parse_int l) as [z|] eqn:E; [|done]. intros [= <- _].
    by apply parse_int_range in E.
  - apply Hw. intros l n. unfold decode_bulk. destruct (parse_int l) as [z|] eqn:E; [|done]. cbn [pbind].
    destruct (z =? -1); [by intros [= <- _]|]. destruct (Z.ltb_spec z 0); [done|].
    destruct (Z.ltb_spec MAX_BULK_LEN z); [done|]. destruct (_ <? _)%nat; [done|].
    case_bool_decide; [|done]. intros [= <- _]. simpl. unfold sub. rewrite length_take. lia.
  - apply Hw. intros l n. unfold decode_aggregate. destruct (parse_int l) as [z|]; [|done]. cbn [pbind].
    destruct (z =? -1); [by intros [= <- _]|]. destruct (Z.ltb_spec z 0); [done|].
    destruct (Z.ltb_spec MAX_ARRAY_LEN z); [done|].
    destruct (decode_items _ _ _ _ _) as [[[items o]|]|] eqn:E; try done. intros [= <- _].
    eapply decode_items_wire in E as [Hi Hl]; [|exact IH|constructor].
    by eapply aggregate_wire.
  - by destruct (find_crlf rest) as [[|k]|]; intros [= <- _].
  - apply Hw. intros l n. destruct (parse_double l) as [d|] eqn:E; [|done]. intros [= <- _].
    by apply parse_double_width in E.
  - apply Hw. intros l n. repeat case_bool_decide; by intros [= <- _].
  - done.
Qed.

(** ** What comes back *)

(** The value a client reads when the encoder wrote [v]. *)
Fixpoint read_back (p : Proto) (v : Value) : Value :=
  let resp3 := bool_decide (p = Resp3) in
  match v with
  | Null | Bulk None => if resp3 then Null else Bulk None
  | Array None => if resp3 then Null else Array None
  | Double d => if resp3 then Double d else Bulk (Some (fmt_double d))
  | HumanDouble d =>
      if resp3 then Double (default 0 (f64_parse (fmt_human_double d)))
      else Bulk (Some (fmt_human_double d))
  | VMap l =>
      if resp3 then VMap (map (λ '(k, x), (read_back p k, read_back p x)) l)
      else array_of (flat_map (λ '(k, x), [read_back p k; read_back p x]) l)
  | Push l => if resp3 then Push (map (read_back p) l) else array_of (map (read_back p) l)
  | VSet l => if resp3 then VSet (map (read_back p) l) else array_of (map (read_back p) l)
  | ByProto r2 r3 => if resp3 then read_back p r3 else read_back p r2
  | Resp3Nested v => if resp3 then array_of [read_back p v] else read_back p v
  | ScorePairs l =>
      if resp3 then match l with [] => Array (Some []) | _ => ScorePairs l end
      else array_of (flat_map (λ '(m, s), [Bulk (Some m); Bulk (Some (fmt_double s))]) l)
  | Simple s => Simple (push_line s)
  | Error s => Error (push_line s)
  | Integer i => Integer i
  | Boolean b => if resp3 then Boolean b else Integer (if b then 1 else 0)
  | Bulk (Some d) => Bulk (Some d)
  | Array (Some l) => array_of (map (read_back p) l)
  end.

(** A double whose text reads back as itself. *)
Definition reads_back (d : Z) : Prop := f64_parse (fmt_double d) = Some d.

Definition all {A} (P : A → Prop) : list A → Prop := fold_right (λ x a, P x /\ a) True.

(** What the encoder may be given for its frame to be read: Rust strings and
    [i64]s, payloads and aggregates within the decoder's limits, nesting within
    [room], doubles that read back. *)
Fixpoint sendable (p : Proto) (room : nat) (v : Value) : Prop :=
  let resp3 := bool_decide (p = Resp3) in
  match room with
  | O => False
  | S room' =>
      match v with
      | Simple s | Error s => Utf8.valid s = true
      | Integer i => in_i64 i
      | Boolean _ | Null | Bulk None | Array None => True
      | Bulk (Some d) => len d <= MAX_BULK_LEN
      | Double d => if resp3 then reads_back d else True
      | HumanDouble d => in_width 64 d
      | Array (Some l) | VSet l | Push l => len l <= MAX_ARRAY_LEN /\ all (sendable p room') l
      | VMap l =>
          (if resp3 then len l else len l * 2) <= MAX_ARRAY_LEN /\
          all (λ '(k, x), sendable p room' k /\ sendable p room' x) l
      | Resp3Nested x => if resp3 then sendable p room' x else sendable p room x
      | ByProto r2 r3 => if resp3 then sendable p room r3 else sendable p room r2
      | ScorePairs l =>
          (if resp3 then len l else len l * 2) <= MAX_ARRAY_LEN /\
          ((if resp3 then 2 else 1) < room)%nat /\
          all (λ '(m, s), len m <= MAX_BULK_LEN /\ if resp3 then reads_back s else True) l
      end
  end.

(** ** The text of numbers holds no line break

    Digits, signs, points and letters are all at or past the plus sign. *)

Definition high (l : bytes) : Prop := Forall (λ b, 43 <= b2z b) l.

Lemma high_no_cr l : high l → CR ∉ l.
Proof. unfold high. rewrite Forall_forall. intros H Hin. specialize (H _ Hin). by cbn in H. Qed.

Lemma high_app a b : high a → high b → high (a ++ b).
Proof. intros. by apply Forall_app. Qed.

Lemma high_repeat b n : 43 <= b2z b → high (repeat b n).
Proof. intros. induction n; simpl; [constructor|by constructor]. Qed.

Lemma high_digits fuel n : 0 <= n → high (digits fuel n).
Proof.
  revert n. induction fuel as [|fuel IH]; intros n Hn; [constructor|]. cbn [digits].
  destruct (Z.ltb_spec n 10).
  - constructor; [rewrite b2z_digit; lia|constructor].
  - apply high_app; [apply IH, Z.div_pos; lia|]. constructor; [|constructor].
    pose proof (Z.mod_pos_bound n 10). rewrite b2z_digit; lia.
Qed.

Lemma high_i64 z : high (i64_to_string z).
Proof.
  unfold i64_to_string. destruct (Z.ltb_spec z 0); [constructor; [by cbn|]|]; apply high_digits; lia.
Qed.

Lemma high_is_digit l : forallb is_digit l = true → high l.
Proof.
  rewrite forallb_forall. intros H. apply Forall_forall. intros b Hb%list_elem_of_In.
  apply H, is_digit_spec in Hb. lia.
Qed.

Lemma shortest_loop_nonneg fuel n m e num den x :
  0 <= num → 0 <= den → 0 <= (shortest_loop fuel n m e num den x).1.
Proof.
  intros Hn Hd. revert n. induction fuel as [|fuel IH]; intros n; cbn [shortest_loop];
    set (k := x - n + 1); set (a := num * _); set (b := den * _);
    assert (0 <= a) by (apply Z.mul_nonneg_nonneg; [lia|apply Z.pow_nonneg; lia]);
    assert (0 <= b) by (apply Z.mul_nonneg_nonneg; [lia|apply Z.pow_nonneg; lia]);
    assert (0 <= a / b) by (destruct (decide (b = 0)) as [->|]; [by rewrite Zdiv_0_r|apply Z.div_pos; lia]);
    destruct (_ && _); simpl; try lia; destruct (decimal_reads_back _ _ _ _); simpl; try lia.
  - destruct (_ <=? _); simpl; lia.
  - apply IH.
Qed.

Lemma high_trim l : high l → high (trim_end ZERO l).
Proof.
  destruct (trim_zeros l) as (k & E & _). intros H. rewrite E in H. by apply Forall_app in H as [? _].
Qed.

Lemma sci_digits m e : high (sci m e).1 ∧ (length (sci m e).1 ≤ 20)%nat.
Proof.
  unfold sci. pose proof (shortest_loop_nonneg 16 1 m e (Zpos m * 2 ^ Z.max e 0) (2 ^ Z.max (- e) 0)
    (exp10_of (Zpos m * 2 ^ Z.max e 0) (2 ^ Z.max (- e) 0))) as Hq.
  destruct (shortest_loop _ _ _ _ _ _ _) as [q k]. cbn [fst snd] in *.
  assert (0 <= q).
  { apply Hq; [apply Z.mul_nonneg_nonneg; [lia|]|]; apply Z.pow_nonneg; lia. }
  split; [by apply high_trim, high_digits|].
  destruct (trim_zeros (digits 20 q)) as (j & E & _). pose proof (length_digits 20 q) as Hl.
  rewrite E, length_app in Hl. lia.
Qed.

Lemma high_layout neg d x : high d → high (layout neg d x).
Proof.
  intros Hd. unfold layout. apply high_app; [destruct neg; [by constructor|constructor]|].
  assert (∀ n, high (take n d)) as Ht by (intros; by apply Forall_take).
  assert (∀ n, high (drop n d)) as Hr by (intros; by apply Forall_drop).
  destruct (_ && _); [apply high_app; [done|by apply high_repeat]|]. destruct (_ && _).
  - destruct (_ <=? _).
    + do 2 (constructor; [by cbn|]). apply high_app; [by apply high_repeat|done].
    + apply high_app; [apply Ht|]. by constructor; [|apply Hr].
  - apply high_app; [apply Ht|].
    apply high_app; [destruct (_ <? _); [by constructor; [|apply Hr]|constructor]|].
    constructor; [by cbn|]. constructor; [by destruct (_ <? _)|apply high_i64].
Qed.

Lemma length_layout neg d x : (length d ≤ 20)%nat → (length (layout neg d x) ≤ 100)%nat.
Proof.
  intros Hd. unfold layout. pose proof (length_i64_to_string (Z.abs x)).
  rewrite length_app. assert (length (if neg then [MINUS] else []) ≤ 1)%nat by (destruct neg; simpl; lia).
  destruct ((0 <=? x - (len d - 1)) && (Z.abs x <? len d + 7)) eqn:E1.
  { rewrite length_app, repeat_length. lia. }
  destruct ((x - (len d - 1) <? 0) && ((-7 <? x - (len d - 1)) || (Z.abs x <? 4))) eqn:E2.
  - destruct (Z.leb_spec (len d + (x - (len d - 1))) 0); rewrite !length_app, ?repeat_length; cbn [length].
    + lia.
    + rewrite length_take, length_drop. lia.
  - rewrite !length_app, length_take. destruct (1 <? len d); rewrite ?length_app; cbn [length]; rewrite ?length_drop; lia.
Qed.

Lemma fmt_double_text x : high (fmt_double x) ∧ (length (fmt_double x) ≤ 100)%nat.
Proof.
  unfold fmt_double. destruct (f64_value x) as [s|s| |s m e].
  - destruct s; (split; [repeat constructor; by cbn|simpl; lia]).
  - destruct s; (split; [repeat constructor; by cbn|simpl; lia]).
  - split; [repeat constructor; by cbn|simpl; lia].
  - pose proof (sci_digits m e) as [Hd Hl].
    assert (Hsci : high (let '(d, x10) := sci m e in layout s d x10) ∧
      (length (let '(d, x10) := sci m e in layout s d x10) ≤ 100)%nat).
    { destruct (sci m e) as [d x10]. split; [by apply high_layout|by apply length_layout]. }
    destruct (f64_to_integer x) as [z|]; [|done]. destruct (_ && _); [|done].
    split; [apply high_i64|]. pose proof (length_i64_to_string z). lia.
Qed.

Lemma high_human s n : 0 <= n → high (human s n).
Proof.
  intros Hn. unfold human. apply high_app; [destruct (_ && _); [by constructor|constructor]|].
  apply high_app; [apply high_digits, Z.div_pos; lia|].
  pose proof (Z.mod_pos_bound n (10 ^ 17)).
  destruct (fixed_digits_spec 17 (n mod 10 ^ 17)) as (_ & Hd & _); [lia|].
  apply high_is_digit, high_trim in Hd. destruct (trim_end _ _); [constructor|by constructor].
Qed.

(** Every coordinate's text is a number again. *)
Lemma fmt_human_text x :
  in_width 64 x → high (fmt_human_double x) ∧ len (fmt_human_double x) <= 349 ∧
  is_Some (f64_parse (fmt_human_double x)).
Proof.
  intros Hx. unfold fmt_human_double. destruct (f64_is_finite x) eqn:Ef.
  - split_and!; [|by apply length_fmt|]; rewrite fmt_is_human by done.
    + apply high_human, scaled_range; done.
    + destruct (parse_human (f64_sign x) (scaled x)) as (m & k & Hs & Hp & _); [by apply scaled_range|].
      unfold f64_parse. rewrite Hs, Hp. repeat case_bool_decide; by eexists.
  - assert (f64_value x = S754_nan ∨ ∃ s, f64_value x = S754_infinity s) as Hv.
    { unfold f64_is_finite in Ef. apply negb_false_iff in Ef. unfold f64_value. rewrite Ef.
      destruct (_ =? 0); eauto. }
    unfold fmt_float_human, format17. destruct Hv as [->|[[] ->]];
      (split_and!; [repeat constructor; by cbn|by cbn|by eexists]).
Qed.

Lemma all_Forall {A} (P : A → Prop) l : all P l ↔ Forall P l.
Proof.
  induction l as [|x l IH]; simpl; [split; [constructor|done]|]. rewrite Forall_cons. tauto.
Qed.

(** ** Reading what was written *)

Lemma i64_text z : in_i64 z → parse_int (i64_to_string z) = POk z.
Proof.
  intros Hi. pose proof (i64_abs_bound z Hi). unfold parse_int, i64_from_str, i64_to_string.
  destruct (Z.ltb_spec z 0).
  - destruct (digits_spec 20 (- z)) as (Hv & [Hc Hc'] & _ & _); [split; [lia|cbn; lia]|done|].
    cbn [strip_sign]. rewrite byte_eqb_refl, Hc, Hv. rewrite bool_decide_eq_false_2 by (by destruct (digits 20 (- z))).
    cbn [negb andb]. by rewrite Z.opp_involutive, (proj2 (i64_range_iff z)).
  - destruct (digits_spec 20 z) as (Hv & [Hc Hc'] & _ & Hm); [split; [lia|cbn; lia]|done|].
    assert (strip_sign (digits 20 z) = (false, digits 20 z)) as ->.
    { destruct (digits 20 z) as [|b l]; [done|]. cbn in Hc. apply andb_true_iff in Hc as [Hb _].
      cbn [strip_sign]. rewrite !byte_eqb_ne by (intros ->; done). done. }
    rewrite Hc, Hv, bool_decide_eq_false_2 by (by destruct (digits 20 z)). cbn [negb andb].
    by rewrite (proj2 (i64_range_iff z)).
Qed.

Lemma dec_text n : Z.of_nat n <= I64_MAX → parse_int (dec n) = POk (Z.of_nat n).
Proof. intros H. apply i64_text. unfold in_i64, I64_MIN. lia. Qed.

(** The line breaks of a string become spaces, which leaves it UTF-8. *)
Definition blank (b : byte) : byte := if is_line_break b then Byte.x20 else b.

Lemma push_line_map s : push_line s = map blank s.
Proof.
  unfold push_line. destruct (existsb is_line_break s) eqn:E; [done|].
  induction s as [|b s IH]; [done|]. cbn in *. apply orb_false_iff in E as [Eb E].
  unfold blank at 1. by rewrite Eb, <- IH.
Qed.

Lemma blank_b2z b : b2z (blank b) = b2z b ∨ (b2z b < 128 ∧ b2z (blank b) < 128).
Proof.
  unfold blank, is_line_break. destruct (Byte.eqb b CR) eqn:E1; [apply byte_eqb_spec in E1 as ->; by right|].
  destruct (Byte.eqb b LF) eqn:E2; [apply byte_eqb_spec in E2 as ->; by right|]. by left.
Qed.

Lemma push_line_no_cr s : CR ∉ push_line s.
Proof.
  rewrite push_line_map. intros (b & E & _)%list_elem_of_fmap. unfold blank, is_line_break in E.
  destruct (Byte.eqb b CR) eqn:E1; [done|]. destruct (Byte.eqb b LF); [done|]. cbn in E. by rewrite <- E in E1.
Qed.

Lemma continued_blank n lo hi l :
  128 <= lo → Utf8.continued n lo hi (map blank l) = Utf8.continued n lo hi l.
Proof.
  revert lo hi l. induction n as [|n IH]; intros lo hi l Hlo; [done|]. destruct l as [|b l]; [done|].
  cbn [map Utf8.continued]. rewrite IH by lia. destruct (blank_b2z b) as [->|[? ?]]; [done|].
  by rewrite !(proj2 (Z.leb_gt lo _)) by lia.
Qed.

Lemma first_char_blank b l : Utf8.first_char (blank b) (map blank l) = Utf8.first_char b l.
Proof.
  unfold Utf8.first_char. assert (Utf8.lead (b2z (blank b)) = Utf8.lead (b2z b)) as ->.
  { destruct (blank_b2z b) as [->|[? ?]]; [done|]. unfold Utf8.lead. by rewrite !(proj2 (Z.ltb_lt _ 128)) by lia. }
  unfold Utf8.lead. repeat case_match; simplify_eq; try done; rewrite continued_blank by lia; done.
Qed.

Lemma valid_blank s : Utf8.valid (map blank s) = Utf8.valid s.
Proof.
  unfold Utf8.valid. rewrite length_map. generalize (length s). intros n. revert s.
  induction n as [|n IH]; intros [|b s]; try done. cbn [map Utf8.valid_loop]. rewrite first_char_blank.
  destruct (Utf8.first_char b s) as [ok k]. rewrite <- (IH (drop k (b :: s))). f_equal. f_equal.
  change (blank b :: map blank s) with (blank <$> (b :: s)). by rewrite <- fmap_drop.
Qed.

Lemma push_line_valid s : Utf8.valid s = true → Utf8.valid (push_line s) = true.
Proof. by rewrite push_line_map, valid_blank. Qed.

(** The bytes [e] at the front of an input are the frame of [v]. *)
Definition reads (room : nat) (e : bytes) (v : Value) : Prop :=
  ∀ rest, decode_at room (e ++ rest) = POk (Complete v (length e)).

Lemma line_app t l r : line t l ++ r = t :: l ++ CRLF ++ r.
Proof. unfold line. cbn [app]. by rewrite <- app_assoc. Qed.

(** Resolves the tests of a known type byte. *)
Ltac at_type :=
  rewrite line_app; cbn [decode_at];
  repeat match goal with
  | |- context [Byte.eqb ?a ?b] =>
      let v := eval vm_compute in (Byte.eqb a b) in
      lazymatch v with
      | true => change (Byte.eqb a b) with true
      | false => change (Byte.eqb a b) with false
      end
  end; cbn [orb]; cbv iota.

Lemma reads_simple r l : CR ∉ l → Utf8.valid l = true → reads (S r) (line T_SIMPLE l) (Simple l).
Proof.
  intros Hc Hv rest. at_type. rewrite (with_line_end T_SIMPLE) by done. unfold to_string. by rewrite Hv.
Qed.

Lemma reads_error r l : CR ∉ l → Utf8.valid l = true → reads (S r) (line T_ERROR l) (Error l).
Proof.
  intros Hc Hv rest. at_type. rewrite (with_line_end T_ERROR) by done. unfold to_string. by rewrite Hv.
Qed.

Lemma reads_int r l i : CR ∉ l → parse_int l = POk i → reads (S r) (line T_INT l) (Integer i).
Proof. intros Hc Hv rest. at_type. rewrite (with_line_end T_INT), Hv by done. done. Qed.

Lemma reads_double r l d : CR ∉ l → f64_parse l = Some d → reads (S r) (line T_DOUBLE l) (Double d).
Proof.
  intros Hc Hv rest. at_type. rewrite (with_line_end T_DOUBLE) by done.
  assert (parse_double l = POk d) as ->; [|done]. unfold parse_double. rewrite Hv.
  case_bool_decide as E1; [subst l; by injection Hv as <-|].
  case_bool_decide as E2; [subst l; by injection Hv as <-|]. done.
Qed.

Lemma reads_bool r (b : bool) :
  reads (S r) (line T_BOOL [if b then Byte.x74 else Byte.x66]) (Boolean b).
Proof. intros rest. at_type. rewrite (with_line_end T_BOOL); [by destruct b|].
  apply high_no_cr. by destruct b; repeat constructor. Qed.

Lemma reads_null3 r : reads (S r) null3 Null.
Proof. intros rest. unfold null3. at_type. done. Qed.

Lemma minus_one_no_cr : CR ∉ [MINUS; Byte.x31].
Proof. apply high_no_cr. by repeat constructor. Qed.

Lemma reads_null_bulk r : reads (S r) null_bulk (Bulk None).
Proof.
  intros rest. unfold null_bulk. at_type. rewrite (with_line_end T_BULK) by apply minus_one_no_cr. done.
Qed.

Lemma reads_null_array r : reads (S r) null_array (Array None).
Proof.
  intros rest. unfold null_array. at_type. rewrite (with_line_end T_ARRAY) by apply minus_one_no_cr. done.
Qed.

Lemma dec_no_cr n : CR ∉ dec n.
Proof. apply high_no_cr, high_i64. Qed.

Lemma reads_bulk r d : len d <= MAX_BULK_LEN → reads (S r) (bulk d) (Bulk (Some d)).
Proof.
  intros Hd rest. unfold bulk. rewrite <- app_assoc. at_type.
  rewrite (with_line_end T_BULK) by apply dec_no_cr. unfold decode_bulk.
  unfold MAX_BULK_LEN in *. rewrite dec_text by (unfold I64_MAX; lia). cbn [pbind].
  rewrite (proj2 (Z.eqb_neq _ _)), !(proj2 (Z.ltb_ge _ _)) by (unfold MAX_BULK_LEN; lia). cbv iota. rewrite Nat2Z.id.
  rewrite <- (line_app T_BULK (dec (length d)) ((d ++ CRLF) ++ rest)).
  set (h := line T_BULK (dec (length d))). rewrite <- !app_assoc, !length_app.
  change (length CRLF) with 2%nat. rewrite (proj2 (Nat.ltb_ge _ _)) by lia.
  replace (drop (length h + length d) (h ++ d ++ CRLF ++ rest)) with (CRLF ++ rest).
  2:{ rewrite <- drop_drop, drop_app_length, drop_app_length. done. }
  unfold sub. rewrite drop_app_length, take_app_length. cbn [CRLF app take].
  rewrite bool_decide_eq_true_2 by done. by rewrite Nat.add_assoc.
Qed.

Lemma decode_items_reads r es vs pre acc rest :
  Forall2 (reads r) es vs →
  decode_items (decode_at r) (length vs) (pre ++ concat es ++ rest) (length pre) acc =
  POk (Some (acc ++ vs, length pre + length (concat es))%nat).
Proof.
  intros H. revert pre acc. induction H as [|e v es vs He _ IH]; intros pre acc.
  { cbn. by rewrite app_nil_r, Nat.add_0_r. }
  cbn [length decode_items concat]. rewrite drop_app_length, <- app_assoc, He. cbn [pbind].
  rewrite <- length_app, (app_assoc pre e), IH, <- app_assoc, !length_app. cbn [app].
  by rewrite Nat.add_assoc.
Qed.

Definition is_aggregate (t : byte) : Prop := t = T_ARRAY ∨ t = T_SET ∨ t = T_MAP ∨ t = T_PUSH.

Lemma reads_aggregate r t es vs n :
  is_aggregate t → Forall2 (reads r) es vs → Z.of_nat n <= MAX_ARRAY_LEN →
  length vs = (n * (if Byte.eqb t T_MAP then 2 else 1))%nat →
  reads (S r) (line t (dec n) ++ concat es) (aggregate t vs).
Proof.
  intros Ht He Hn Hl rest.
  assert (Hd : decode_at (S r) ((line t (dec n) ++ concat es) ++ rest) =
    with_line (dec n ++ CRLF ++ concat es ++ rest)
      (decode_aggregate (decode_at r) t (line t (dec n) ++ concat es ++ rest))).
  { rewrite <- app_assoc. rewrite line_app at 1. rewrite (line_app t (dec n) (concat es ++ rest)).
    destruct Ht as [->|[->|[->| ->]]]; reflexivity. }
  rewrite Hd, (with_line_end t) by apply dec_no_cr. unfold decode_aggregate. unfold MAX_ARRAY_LEN in *.
  rewrite dec_text by (unfold I64_MAX; lia). cbn [pbind].
  rewrite (proj2 (Z.eqb_neq _ _)), !(proj2 (Z.ltb_ge _ _)) by lia. cbv iota.
  replace (Z.to_nat (Z.of_nat n * (if Byte.eqb t T_MAP then 2 else 1))) with (length vs).
  2:{ rewrite Hl. destruct (Byte.eqb t T_MAP); lia. }
  rewrite decode_items_reads by done. cbn [pbind app]. by rewrite length_app.
Qed.

(** Induction on a value, with the hypothesis for each element. *)
Lemma Value_induction (P : Value → Prop) :
  (∀ s, P (Simple s)) → (∀ s, P (Error s)) → (∀ i, P (Integer i)) → (∀ b, P (Boolean b)) →
  (∀ o, P (Bulk o)) → P (Array None) → (∀ l, Forall P l → P (Array (Some l))) → P Null →
  (∀ d, P (Double d)) → (∀ d, P (HumanDouble d)) →
  (∀ l, Forall (λ kv, P kv.1 ∧ P kv.2) l → P (VMap l)) → (∀ l, Forall P l → P (VSet l)) →
  (∀ v, P v → P (Resp3Nested v)) → (∀ v w, P v → P w → P (ByProto v w)) →
  (∀ l, P (ScorePairs l)) → (∀ l, Forall P l → P (Push l)) → ∀ v, P v.
Proof.
  intros H1 H2 H3 H4 H5 H6 H7 H8 H9 H10 H11 H12 H13 H14 H15 H16. fix IH 1.
  assert (Hl : ∀ l, Forall P l) by (fix IHl 1; intros [|v l]; constructor; [apply IH|apply IHl]).
  assert (Hm : ∀ l, Forall (λ kv, P kv.1 ∧ P kv.2) l).
  { fix IHl 1. intros [|[k x] l]; constructor; [split; apply IH|apply IHl]. }
  intros [s|s|i|b|o|[l|]| |d|d|l|l|v|v w|l|l];
    [apply H1|apply H2|apply H3|apply H4|apply H5|apply H7, Hl|apply H6|apply H8|apply H9|apply H10
    |apply H11, Hm|apply H12, Hl|apply H13, IH|apply H14; apply IH|apply H15|apply H16, Hl].
Qed.

Lemma flat_map_pair {A} (f g : A → bytes) l :
  flat_map (λ x, f x ++ g x) l = concat (flat_map (λ x, [f x; g x]) l).
Proof.
  induction l as [|x l IH]; [done|]. cbn [flat_map app concat]. by rewrite IH, <- app_assoc.
Qed.

Lemma flat_map_ext_in {A B} (f g : A → list B) l : (∀ x, f x = g x) → flat_map f l = flat_map g l.
Proof. intros H. induction l as [|x l IH]; [done|]. cbn. by rewrite H, IH. Qed.

Lemma Forall2_pairs {A} r (f g : A → bytes) (f' g' : A → Value) l :
  Forall (λ x, reads r (f x) (f' x) ∧ reads r (g x) (g' x)) l →
  Forall2 (reads r) (flat_map (λ x, [f x; g x]) l) (flat_map (λ x, [f' x; g' x]) l).
Proof. induction 1 as [|x l [? ?] _ IH]; cbn; [constructor|]. by repeat constructor. Qed.

Lemma Forall2_maps {A} r (f : A → bytes) (f' : A → Value) l :
  Forall (λ x, reads r (f x) (f' x)) l → Forall2 (reads r) (map f l) (map f' l).
Proof. induction 1; cbn; by constructor. Qed.

Lemma length_flat_pair {A B} (f g : A → B) l : length (flat_map (λ x, [f x; g x]) l) = (length l * 2)%nat.
Proof. induction l as [|x l IH]; [done|]. cbn. by rewrite IH. Qed.

Lemma pairs_of_flat {A} (f g : A → Value) l :
  pairs_of (flat_map (λ x, [f x; g x]) l) = map (λ x, (f x, g x)) l.
Proof. induction l as [|x l IH]; [done|]. cbn. by rewrite IH. Qed.

Lemma array_of_scores l :
  array_of (map (λ ms : bytes * Z, Array (Some [Bulk (Some ms.1); Double ms.2])) l) =
  match l with [] => Array (Some []) | _ => ScorePairs l end.
Proof.
  assert (mapM score_pair (map (λ ms : bytes * Z, Array (Some [Bulk (Some ms.1); Double ms.2])) l) = Some l) as H.
  { induction l as [|[m s] l IH]; [done|]. cbn. change (mapM score_pair) with (mapM (M:=option) score_pair).
    by rewrite IH. }
  destruct l as [|x l]; [done|]. unfold array_of. cbn [map] in *. by rewrite H.
Qed.

(** An aggregate of encoded elements. *)
Lemma reads_items r t items (f : Value → bytes) (f' : Value → Value) :
  is_aggregate t → Byte.eqb t T_MAP = false → len items <= MAX_ARRAY_LEN →
  Forall (λ v, reads r (f v) (f' v)) items →
  reads (S r) (line t (dec (length items)) ++ flat_map f items) (aggregate t (map f' items)).
Proof.
  intros Ht Hm Hn Hi. rewrite flat_map_concat_map. apply reads_aggregate; [done|by apply Forall2_maps|done|].
  rewrite Hm, length_map. lia.
Qed.

(** An aggregate of pairs, one element each or two. *)
Lemma reads_flat {A} r (l : list A) (f g : A → bytes) (f' g' : A → Value) :
  len l * 2 <= MAX_ARRAY_LEN → Forall (λ x, reads r (f x) (f' x) ∧ reads r (g x) (g' x)) l →
  reads (S r) (line T_ARRAY (dec (length l * 2)) ++ flat_map (λ x, f x ++ g x) l)
    (array_of (flat_map (λ x, [f' x; g' x]) l)).
Proof.
  intros Hn Hi. rewrite flat_map_pair. apply (reads_aggregate r T_ARRAY); [by left|by apply Forall2_pairs|lia|].
  rewrite length_flat_pair. cbn. lia.
Qed.

Lemma reads_map {A} r (l : list A) (f g : A → bytes) (f' g' : A → Value) :
  len l <= MAX_ARRAY_LEN → Forall (λ x, reads r (f x) (f' x) ∧ reads r (g x) (g' x)) l →
  reads (S r) (line T_MAP (dec (length l)) ++ flat_map (λ x, f x ++ g x) l)
    (VMap (map (λ x, (f' x, g' x)) l)).
Proof.
  intros Hn Hi. rewrite flat_map_pair, <- (pairs_of_flat f' g').
  apply (reads_aggregate r T_MAP); [by right; right; left|by apply Forall2_pairs|done|].
  apply length_flat_pair.
Qed.

Lemma reads_scores r l :
  len l <= MAX_ARRAY_LEN → (2 < S r)%nat →
  Forall (λ ms : bytes * Z, len ms.1 <= MAX_BULK_LEN ∧ reads_back ms.2) l →
  reads (S r) (line T_ARRAY (dec (length l)) ++
    flat_map (λ ms, line T_ARRAY (dec 2) ++ bulk ms.1 ++ line T_DOUBLE (fmt_double ms.2)) l)
    (match l with [] => Array (Some []) | _ => ScorePairs l end).
Proof.
  intros Hn Hr Hl. destruct r as [|[|r]]; [lia|lia|]. rewrite <- array_of_scores, flat_map_concat_map.
  apply (reads_aggregate _ T_ARRAY); [by left| |done|rewrite length_map; cbn; lia].
  apply (Forall2_maps (S (S r)) _ (λ ms, Array (Some [Bulk (Some ms.1); Double ms.2]))).
  eapply Forall_impl; [exact Hl|]. intros [m s] [Hm Hs]. cbn [fst snd] in *.
  replace (bulk m ++ line T_DOUBLE (fmt_double s)) with (concat [bulk m; line T_DOUBLE (fmt_double s)])
    by (cbn [concat]; by rewrite app_nil_r).
  apply (reads_aggregate _ T_ARRAY _ [Bulk (Some m); Double s]); [by left| |by cbn|done].
  repeat constructor; [by apply reads_bulk|]. apply reads_double; [|done].
  apply high_no_cr, fmt_double_text.
Qed.

Lemma text_bulk r t : (length t ≤ 349)%nat → reads (S r) (bulk t) (Bulk (Some t)).
Proof. intros. apply reads_bulk. unfold MAX_BULK_LEN. lia. Qed.

Lemma fmt_bulk r d : reads (S r) (bulk (fmt_double d)) (Bulk (Some (fmt_double d))).
Proof. apply text_bulk. pose proof (fmt_double_text d). lia. Qed.

Lemma Forall_sendable p r l :
  all (sendable p r) l → Forall (λ v, ∀ p room, sendable p room v → reads room (encode_proto p v) (read_back p v)) l →
  Forall (λ v, reads r (encode_proto p v) (read_back p v)) l.
Proof.
  rewrite all_Forall. intros Hs Hi. induction Hs; [constructor|].
  apply Forall_cons in Hi as [? ?]. constructor; auto.
Qed.

(** What the encoder writes, the decoder reads, and it reads nothing else. *)
Lemma encode_reads v : ∀ p room, sendable p room v → reads room (encode_proto p v) (read_back p v).
Proof.
  induction v as [s|s|i|b|o| |l IH| |d|d|l IH|l IH|v IH|v w IHv IHw|l|l IH] using Value_induction;
    intros p [|r] Hs; try (by cbn in Hs); cbn [encode_proto read_back].
  - apply reads_simple; [apply push_line_no_cr|by apply push_line_valid].
  - apply reads_error; [apply push_line_no_cr|by apply push_line_valid].
  - apply reads_int; [apply high_no_cr, high_i64|by apply i64_text].
  - case_bool_decide; [apply reads_bool|]. destruct b; by apply reads_int; [apply high_no_cr; by repeat constructor|].
  - destruct o as [d|]; [by apply reads_bulk|]. case_bool_decide; [apply reads_null3|apply reads_null_bulk].
  - case_bool_decide; [apply reads_null3|apply reads_null_array].
  - destruct Hs as [Hn Hs]. apply (reads_items r T_ARRAY); [by left|done|done|by apply Forall_sendable].
  - case_bool_decide; [apply reads_null3|apply reads_null_bulk].
  - cbn [sendable] in Hs. case_bool_decide; [|apply fmt_bulk].
    apply reads_double; [apply high_no_cr, fmt_double_text|done].
  - destruct (fmt_human_text d Hs) as (Hh & Hl & [x Hx]). case_bool_decide.
    + rewrite Hx. apply reads_double; [by apply high_no_cr|done].
    + apply text_bulk. lia.
  - cbn [sendable] in Hs. destruct Hs as [Hn Hs]. rewrite all_Forall in Hs.
    assert (Forall (λ kv, reads r (encode_proto p kv.1) (read_back p kv.1) ∧
                          reads r (encode_proto p kv.2) (read_back p kv.2)) l) as Hr.
    { clear Hn. induction Hs as [|[k x] l' [? ?] _ IHl]; [constructor|].
      apply Forall_cons in IH as [[? ?] ?]. constructor; [cbn in *; auto|by apply IHl]. }
    rewrite (flat_map_ext_in _ (λ kv, encode_proto p kv.1 ++ encode_proto p kv.2)) by (by intros []).
    case_bool_decide.
    + rewrite (map_ext _ (λ kv, (read_back p kv.1, read_back p kv.2))) by (by intros []). by apply reads_map.
    + rewrite (flat_map_ext_in _ (λ kv, [read_back p kv.1; read_back p kv.2])) by (by intros []).
      by apply reads_flat.
  - destruct Hs as [Hn Hs]. assert (Hi := Forall_sendable p r l Hs IH). case_bool_decide.
    + apply (reads_items r T_SET); [by right; left|done|done|done].
    + apply (reads_items r T_ARRAY); [by left|done|done|done].
  - cbn [sendable] in Hs. case_bool_decide; [|by apply IH].
    replace (encode_proto p v) with (concat [encode_proto p v]) by (cbn [concat]; by rewrite app_nil_r).
    apply (reads_aggregate r T_ARRAY _ [read_back p v]); [by left| |by cbn|done]. repeat constructor. by apply IH.
  - cbn [sendable] in Hs. case_bool_decide; auto.
  - cbn [sendable] in Hs. destruct Hs as (Hn & Hr & Hs). rewrite all_Forall in Hs. case_bool_decide.
    + rewrite (flat_map_ext_in _ (λ ms, line T_ARRAY (dec 2) ++ bulk ms.1 ++ line T_DOUBLE (fmt_double ms.2))) by (by intros []).
      apply reads_scores; [done|done|]. eapply Forall_impl; [exact Hs|]. by intros [].
    + rewrite (flat_map_ext_in _ (λ ms, bulk ms.1 ++ bulk (fmt_double ms.2))) by (by intros []).
      rewrite (flat_map_ext_in _ (λ ms, [Bulk (Some ms.1); Bulk (Some (fmt_double ms.2))])) by (by intros []).
      destruct r as [|r]; [lia|]. apply reads_flat; [done|]. eapply Forall_impl; [exact Hs|].
      intros [m s] [Hm _]. split; [by apply reads_bulk|apply fmt_bulk].
  - destruct Hs as [Hn Hs]. assert (Hi := Forall_sendable p r l Hs IH). case_bool_decide.
    + apply (reads_items r T_PUSH); [by right; right; right|done|done|done].
    + apply (reads_items r T_ARRAY); [by left|done|done|done].
Qed.

(** ** Draining on the way *)

Section flushing.

(** The sink takes what it can of the buffer and leaves the rest; [None] is an
    I/O error. [sent] is what it has put on the wire. *)
Context {W : Type} (sink : W → bytes → option (W * bytes)) (sent : W → bytes).

Variable threshold : nat.

Fixpoint encode_proto_flushing (p : Proto) (v : Value) (w : W) (out : bytes) : option (W * bytes) :=
  match v with
  | Array (Some items) =>
      (fix each (items : list Value) (w : W) (out : bytes) : option (W * bytes) :=
         match items with
         | [] => Some (w, out)
         | item :: items' =>
             '(w1, out1) ← encode_proto_flushing p item w out;
             '(w2, out2) ← (if (threshold <=? length out1)%nat then sink w1 out1 else Some (w1, out1));
             each items' w2 out2
         end) items w (out ++ line T_ARRAY (dec (length items)))
  | _ => Some (w, out ++ encode_proto p v)
  end.

Hypothesis sink_sends : ∀ w out w' out', sink w out = Some (w', out') → sent w' ++ out' = sent w ++ out.

Lemma flushing_sends v : ∀ p w out w' out',
  encode_proto_flushing p v w out = Some (w', out') →
  sent w' ++ out' = sent w ++ out ++ encode_proto p v.
Proof.
  induction v as [s|s|i|b|o| |l IH| |d|d|l _|l _|v _|v1 v2 _ _|l|l _] using Value_induction; intros p w out w' out';
    try by intros [= <- <-].
  cbn [encode_proto_flushing encode_proto]. rewrite (app_assoc out).
  generalize (out ++ line T_ARRAY (dec (length l))). clear out. revert w.
  induction IH as [|v l Hv _ IHl]; intros w out.
  { intros [= <- <-]. cbn. by rewrite app_nil_r. }
  destruct (encode_proto_flushing p v w out) as [[w1 out1]|] eqn:E1; cbn; [|done].
  apply Hv in E1.
  assert (∀ w2 out2, (if (threshold <=? length out1)%nat then sink w1 out1 else Some (w1, out1)) = Some (w2, out2) →
    sent w2 ++ out2 = sent w1 ++ out1) as Hsink.
  { intros w2 out2. destruct (_ <=? _)%nat; [apply sink_sends|by intros [= <- <-]]. }
  destruct (if _ : bool then _ else _) as [[w2 out2]|]; cbn; [|done].
  intros H%IHl. rewrite H, app_assoc, (Hsink _ _ eq_refl), E1, <- !app_assoc. done.
Qed.

(** It fails only where the sink does. *)
Lemma flushing_total v :
  (∀ w out, is_Some (sink w out)) → ∀ p w out, is_Some (encode_proto_flushing p v w out).
Proof.
  intros Ht. induction v as [s|s|i|b|o| |l IH| |d|d|l _|l _|v _|v1 v2 _ _|l|l _] using Value_induction; intros p w out;
    try by eexists.
  cbn [encode_proto_flushing]. generalize (out ++ line T_ARRAY (dec (length l))). clear out. revert w.
  induction IH as [|v l Hv _ IHl]; intros w out; [by eexists|].
  destruct (Hv p w out) as [[w1 out1] ->]. cbn.
  destruct (threshold <=? length out1)%nat; cbn; [|apply IHl].
  destruct (Ht w1 out1) as [[w2 out2] ->]. cbn. apply IHl.
Qed.

End flushing.

(** ** Reading in RESP3 and writing again

    The proxy reads a seat's replies in RESP3 and writes them for its client. *)

Lemma push_line_idem s : push_line (push_line s) = push_line s.
Proof.
  rewrite !push_line_map, map_map. apply map_ext. intros b. unfold blank.
  destruct (is_line_break b) eqn:E; [done|]. by rewrite E.
Qed.

Lemma score_pair_inv v m s : score_pair v = Some (m, s) → v = Array (Some [Bulk (Some m); Double s]).
Proof. unfold score_pair. repeat case_match; try done. by intros [= -> ->]. Qed.

Lemma mapM_score_pairs items ps :
  mapM score_pair items = Some ps →
  items = map (λ ms : bytes * Z, Array (Some [Bulk (Some ms.1); Double ms.2])) ps.
Proof.
  intros H%mapM_Some. induction H as [|v [m s] items ps Hv _ IH]; [done|]. cbn [map fst snd].
  by rewrite (score_pair_inv _ _ _ Hv), IH.
Qed.

(** Taking nested pairs for a scored result is invisible in RESP3. *)
Lemma encode_array_of items : encode_proto Resp3 (array_of items) = encode_proto Resp3 (Array (Some items)).
Proof.
  unfold array_of. destruct items as [|v items]; [done|].
  destruct (mapM score_pair (v :: items)) as [ps|] eqn:E; [|done].
  rewrite (mapM_score_pairs _ _ E). clear. cbn [encode_proto]. rewrite bool_decide_eq_true_2 by done.
  rewrite length_map. f_equal. induction ps as [|[m s] ps IH]; [done|]. cbn [map flat_map fst snd].
  rewrite IH. f_equal. cbn [encode_proto flat_map]. rewrite bool_decide_eq_true_2 by done.
  cbn [length]. by rewrite app_nil_r.
Qed.

(** No coordinate, which RESP3 cannot tell from a score. *)
Fixpoint no_coordinates (v : Value) : Prop :=
  match v with
  | HumanDouble _ => False
  | Array (Some l) | VSet l | Push l => all no_coordinates l
  | VMap l => all (λ '(k, x), no_coordinates k /\ no_coordinates x) l
  | Resp3Nested x => no_coordinates x
  | ByProto _ r3 => no_coordinates r3
  | _ => True
  end.

(** What RESP2 renders from the meaning RESP3 keeps: no null array, no
    coordinate, no reply of two kinds or two depths, and no array of pairs
    that is not a scored result. *)
Fixpoint portable (v : Value) : Prop :=
  match v with
  | HumanDouble _ | Array None | Resp3Nested _ | ByProto _ _ => False
  | Array (Some l) =>
      all portable l /\ array_of (map (read_back Resp3) l) = Array (Some (map (read_back Resp3) l))
  | VSet l | Push l => all portable l
  | VMap l => all (λ '(k, x), portable k /\ portable x) l
  | _ => True
  end.

Lemma flat_map_again p (P : Value → Prop) l :
  all P l → Forall (λ v, P v → encode_proto p (read_back Resp3 v) = encode_proto p v) l →
  flat_map (encode_proto p) (map (read_back Resp3) l) = flat_map (encode_proto p) l.
Proof.
  intros Hp Hi. induction Hi as [|v l Hv _ IH]; [done|]. destruct Hp as [Hpv Hp].
  cbn [map flat_map]. by rewrite Hv, IH.
Qed.

Lemma flat_map_pairs_again p (P : Value → Prop) l :
  all (λ '(k, x), P k /\ P x) l →
  Forall (λ kv, (P kv.1 → encode_proto p (read_back Resp3 kv.1) = encode_proto p kv.1) ∧
                (P kv.2 → encode_proto p (read_back Resp3 kv.2) = encode_proto p kv.2)) l →
  flat_map (λ '(k, x), encode_proto p k ++ encode_proto p x)
    (map (λ '(k, x), (read_back Resp3 k, read_back Resp3 x)) l) =
  flat_map (λ '(k, x), encode_proto p k ++ encode_proto p x) l.
Proof.
  intros Hp Hi. induction Hi as [|[k x] l [Hk Hx] _ IH]; [done|]. destruct Hp as [[Hpk Hpx] Hp].
  cbn [map flat_map]. cbn in Hk, Hx. by rewrite Hk, Hx, IH.
Qed.

Lemma encode_again v : no_coordinates v → encode_proto Resp3 (read_back Resp3 v) = encode_proto Resp3 v.
Proof.
  induction v as [s|s|i|b|o| |l IH| |d|d|l IH|l IH|v IH|v w IHv IHw|l|l IH] using Value_induction;
    intros Hn; try done; cbn [read_back]; rewrite ?(bool_decide_eq_true_2 (Resp3 = Resp3)) by done.
  - cbn [encode_proto]. by rewrite push_line_idem.
  - cbn [encode_proto]. by rewrite push_line_idem.
  - by destruct o.
  - rewrite encode_array_of. cbn [encode_proto]. by rewrite length_map, (flat_map_again _ _ _ Hn IH).
  - cbn [encode_proto]. by rewrite length_map, (flat_map_pairs_again _ _ _ Hn IH).
  - cbn [encode_proto]. by rewrite length_map, (flat_map_again _ _ _ Hn IH).
  - rewrite encode_array_of. cbn [encode_proto flat_map length]. rewrite app_nil_r.
    rewrite ?(bool_decide_eq_true_2 (Resp3 = Resp3)) by done. by rewrite IH.
  - cbn [encode_proto]. rewrite ?(bool_decide_eq_true_2 (Resp3 = Resp3)) by done. by apply IHw.
  - by destruct l.
  - cbn [encode_proto]. by rewrite length_map, (flat_map_again _ _ _ Hn IH).
Qed.

Lemma encode_downgraded v : portable v → encode_proto Resp2 (read_back Resp3 v) = encode_proto Resp2 v.
Proof.
  induction v as [s|s|i|b|o| |l IH| |d|d|l IH|l IH|v IH|v w IHv IHw|l|l IH] using Value_induction;
    intros Hn; try done; cbn [read_back]; rewrite ?(bool_decide_eq_true_2 (Resp3 = Resp3)) by done.
  - cbn [encode_proto]. by rewrite push_line_idem.
  - cbn [encode_proto]. by rewrite push_line_idem.
  - by destruct o.
  - destruct Hn as [Hn ->]. cbn [encode_proto]. by rewrite length_map, (flat_map_again _ _ _ Hn IH).
  - cbn [encode_proto]. by rewrite length_map, (flat_map_pairs_again _ _ _ Hn IH).
  - cbn [encode_proto]. by rewrite length_map, (flat_map_again _ _ _ Hn IH).
  - by destruct l.
  - cbn [encode_proto]. by rewrite length_map, (flat_map_again _ _ _ Hn IH).
Qed.

(** * Properties *)

(** A reply with a bit of everything: strings with line breaks, a nested map,
    a set of doubles, a scored result. *)
Definition f64_text (t : String.string) : Z := default 0 (f64_parse (bstr t)).
Definition demo_reply : Value :=
  VMap [(Bulk (Some (bstr "server")), Simple (bstr "flint" ++ CRLF ++ bstr "cache"));
        (Integer (-7), Array (Some [Boolean true; Null; ScorePairs [(bstr "m", f64_text "1.5")];
                                    VSet [Double (f64_text "0.1"); Double (f64_text "1e300")]]))].

Lemma demo_sendable p : sendable p (MAX_DEPTH + 1) demo_reply.
Proof. destruct p; vm_compute; repeat split; (lia || discriminate || reflexivity). Qed.

(** The spellings the source pins for [fmt_double]. *)
Lemma fmt_double_cases :
  map (λ t, fmt_double (f64_text t))
    ["0"; "3"; "-17"; "0.1"; "2.5"; "1234567.125"; "0.0001"; "1e-5"; "1e-6"; "1e-7"; "0.000123456789";
     "-2.5e-9"; "5e-324"; "1e15"; "123456789012345678"; "4611686018427387904"; "9.3e18"; "1e20"; "1e22";
     "1234567890123456789012"; "1.5e300"; "1.7976931348623157e308"; "inf"; "-inf"; "nan"; "-0"]%string =
  map bstr
    ["0"; "3"; "-17"; "0.1"; "2.5"; "1234567.125"; "0.0001"; "0.00001"; "0.000001"; "1e-7"; "1.23456789e-4";
     "-2.5e-9"; "5e-324"; "1000000000000000"; "123456789012345680"; "4611686018427387904"; "9.3e+18"; "1e+20";
     "1e+22"; "1234567890123456800000"; "1.5e+300"; "1.7976931348623157e+308"; "inf"; "-inf"; "nan"; "-0"]%string.
Proof. vm_compute. reflexivity. Qed.

(** C4. Every value the encoder is given within the decoder's limits comes
    back: at the front of whatever follows, its frame is read whole and as what
    the value means in that protocol, and with any byte missing at its end the
    decoder waits. *)
Theorem frames_read_back p v rest :
  sendable p (MAX_DEPTH + 1) v →
  decode (encode_proto p v ++ rest) = POk (Complete (read_back p v) (length (encode_proto p v))) ∧
  ∀ n, (n < length (encode_proto p v))%nat → decode (take n (encode_proto p v)) = POk NeedMore.
Proof.
  intros Hs. pose proof (encode_reads v p _ Hs) as Hr. split; [apply Hr|]. intros n Hn.
  set (e := encode_proto p v) in *. pose proof (decode_stable (MAX_DEPTH + 1) (take n e) (drop n e)) as Hd.
  specialize (Hr []). rewrite app_nil_r in Hr. rewrite take_drop, Hr in Hd. unfold decode.
  destruct (decode_at (MAX_DEPTH + 1) (take n e)) as [[x used|]|err] eqn:E; [|reflexivity|].
  - specialize (Hd ltac:(discriminate)). injection Hd as <- <-. apply decode_used in E.
    rewrite length_take in E. lia.
  - specialize (Hd ltac:(discriminate)). discriminate Hd.
Qed.

Lemma frames_read_back_witness :
  decode (encode_proto Resp3 demo_reply ++ bstr "+OK") =
    POk (Complete (read_back Resp3 demo_reply) (length (encode_proto Resp3 demo_reply))) ∧
  decode (take 40 (encode_proto Resp2 demo_reply)) = POk NeedMore.
Proof.
  split; [exact (proj1 (frames_read_back Resp3 demo_reply (bstr "+OK") (demo_sendable Resp3)))|].
  refine (proj2 (frames_read_back Resp2 demo_reply [] (demo_sendable Resp2)) 40%nat _). vm_compute. lia.
Defined.

(** C29. A verdict is final: whatever bytes arrive after it, a frame the decoder
    has read stays that frame and a violation it has reported stays that
    violation; only [NeedMore] can change. *)
Theorem verdicts_are_final input more :
  decode input ≠ POk NeedMore → decode (input ++ more) = decode input.
Proof. apply decode_stable. Qed.

Lemma verdicts_are_final_witness :
  decode (bstr "$-2" ++ CRLF ++ bstr "+OK" ++ CRLF) = PErr BadLength.
Proof.
  rewrite app_assoc, verdicts_are_final; [vm_compute; reflexivity|]. vm_compute. discriminate.
Defined.

(** Whatever bytes a peer sends, what the decoder accepts is well formed:
    strings are UTF-8, integers are 64-bit, no payload is over 512 MiB, no
    aggregate over its limit, no nesting over 32 levels, and the frame is not
    empty and no longer than the input. *)
Theorem decoded_values_are_well_formed input v used :
  decode input = POk (Complete v used) →
  wire (MAX_DEPTH + 1) v ∧ (0 < used ≤ length input)%nat.
Proof. intros H. split; [by eapply decode_wire|by eapply decode_used]. Qed.

Lemma decoded_values_are_well_formed_witness :
  wire (MAX_DEPTH + 1) (read_back Resp3 demo_reply).
Proof.
  refine (proj1 (decoded_values_are_well_formed (encode_proto Resp3 demo_reply) _
    (length (encode_proto Resp3 demo_reply)) _)). vm_compute. reflexivity.
Defined.

(** Read in RESP3 and written again a reply is the same reply: byte for
    byte in RESP3, where taking nested pairs for a scored result cannot be
    seen, and byte for byte what the seat would have written in RESP2 for every
    reply whose meaning RESP3 keeps. *)
Theorem proxied_replies_are_unchanged v :
  (no_coordinates v → encode_proto Resp3 (read_back Resp3 v) = encode_proto Resp3 v) ∧
  (portable v → encode_proto Resp2 (read_back Resp3 v) = encode_proto Resp2 v).
Proof. split; [apply encode_again|apply encode_downgraded]. Qed.

Lemma proxied_replies_are_unchanged_witness :
  encode_proto Resp3 (read_back Resp3 demo_reply) = encode_proto Resp3 demo_reply ∧
  encode_proto Resp2 (read_back Resp3 demo_reply) = encode_proto Resp2 demo_reply.
Proof.
  destruct (proxied_replies_are_unchanged demo_reply) as [H3 H2].
  split; [apply H3|apply H2]; vm_compute; repeat split.
Defined.

(** Draining the buffer on the way changes when the bytes leave and not
    which: if no sink call fails the encoding succeeds, and what was sent with
    what is left in the buffer is the buffer as it was and the plain encoding. *)
Theorem flushing_is_encoding {W} (sink : W → bytes → option (W * bytes)) (sent : W → bytes) threshold p v w out :
  (∀ w out w' out', sink w out = Some (w', out') → sent w' ++ out' = sent w ++ out) →
  ((∀ w out, is_Some (sink w out)) → is_Some (encode_proto_flushing sink threshold p v w out)) ∧
  ∀ w' out', encode_proto_flushing sink threshold p v w out = Some (w', out') →
    sent w' ++ out' = sent w ++ out ++ encode_proto p v.
Proof.
  intros Hs. split; [intros Ht; by apply flushing_total|]. intros w' out'. by apply flushing_sends.
Qed.

(** A socket that takes all it is given. *)
Lemma flushing_is_encoding_witness :
  ∃ w out, encode_proto_flushing (λ w out, Some (w ++ out, [])) 4 Resp2
             (Array (Some [Integer 1; Array (Some [Integer 2; Integer 3])])) [] [] = Some (w, out) ∧
           w ++ out = encode (Array (Some [Integer 1; Array (Some [Integer 2; Integer 3])])).
Proof.
  destruct (flushing_is_encoding (λ w out, Some (w ++ out, [])) (λ w, w) 4 Resp2
    (Array (Some [Integer 1; Array (Some [Integer 2; Integer 3])])) [] []) as [Ht Hs].
  - intros w out w' out' [= <- <-]. by rewrite app_nil_r.
  - destruct Ht as [[w out] E]; [intros; eexists; reflexivity|].
    exists w, out. split; [exact E|exact (Hs w out E)].
Defined.
