(* ===== verification/Commands.v ===== *)
(** * The command table (src/crates/flint-commands/src/lib.rs)

    Which commands read, write, block and only shrink, and which of a command's
    arguments are its keys. A command is its list of arguments, the name first;
    names compare without regard to ASCII case. *)

From stdpp Require Import base list strings.
From Stdlib Require Import ZArith Lia.
From S2P Require Import Prelude Num F64.

#[local] Open Scope string_scope.
#[local] Open Scope list_scope.
#[local] Open Scope Z_scope.

(** ** Names *)

(** [eq_ignore_ascii_case]. *)
Definition same_name (a : bytes) (b : String.string) : bool :=
  bool_decide (to_ascii_lowercase a = to_ascii_lowercase (bstr b)).

Definition to_upper (b : byte) : byte :=
  if (97 <=? b2z b) && (b2z b <=? 122) then z2b (b2z b - 32) else b.
Definition to_ascii_uppercase (l : bytes) : bytes := map to_upper l.

(** [matches!(name.to_ascii_uppercase().as_slice(), b"..." | ...)]. *)
Definition named (l : list String.string) (name : bytes) : bool :=
  existsb (λ s, bool_decide (to_ascii_uppercase name = bstr s)) l.

(** [args.first()] is one of the names. *)
Definition first_is (f : bytes → bool) (args : list bytes) : bool :=
  match args with [] => false | n :: _ => f n end.

(** ** Classes of commands *)

Definition SHRINKING : list String.string :=
  ["DEL"; "UNLINK"; "FLUSHALL"; "FLUSHDB"; "EXPIRE"; "PEXPIRE"; "EXPIREAT"; "PEXPIREAT"; "XDEL"; "XTRIM"; "XACK"].
Definition reduces_space : bytes → bool := named SHRINKING.

Definition never_grows (name : bytes) : bool := same_name name "PFCOUNT".

Definition BLOCKING : list String.string :=
  ["BLPOP"; "BRPOP"; "BZPOPMIN"; "BZPOPMAX"; "BLMOVE"; "BRPOPLPUSH"; "BLMPOP"; "BZMPOP"].
Definition is_blocking_command : bytes → bool := named BLOCKING.

Definition WRITES : list String.string :=
  ["SET"; "SETNX"; "SETEX"; "MSET"; "COPY"; "ZUNIONSTORE"; "ZINTERSTORE"; "ZDIFFSTORE"; "ZRANGESTORE";
   "GEOADD"; "GEORADIUS"; "GEORADIUSBYMEMBER"; "GEOSEARCHSTORE"; "LMPOP"; "ZMPOP"; "BLMPOP"; "BZMPOP";
   "SINTERSTORE"; "SUNIONSTORE"; "SDIFFSTORE"; "ZREMRANGEBYLEX"; "RENAME"; "RENAMENX"; "LMOVE"; "RPOPLPUSH";
   "BLMOVE"; "BRPOPLPUSH"; "BLPOP"; "BRPOP"; "BZPOPMIN"; "BZPOPMAX"; "HINCRBYFLOAT"; "DEL"; "EXPIRE";
   "PEXPIRE"; "EXPIREAT"; "PEXPIREAT"; "UNLINK"; "GETDEL"; "GETEX"; "GETSET"; "HSETNX"; "PERSIST"; "INCR";
   "DECR"; "INCRBY"; "DECRBY"; "INCRBYFLOAT"; "APPEND"; "SETRANGE"; "BITFIELD"; "SETBIT"; "PFADD"; "PFMERGE";
   "PFCOUNT"; "BITOP"; "PSETEX"; "LPUSHX"; "RPUSHX"; "SMOVE"; "FLUSHALL"; "FLUSHDB"; "HSET"; "HMSET"; "EVAL";
   "EVALSHA"; "HDEL"; "HINCRBY"; "SADD"; "SREM"; "SPOP"; "LPUSH"; "RPUSH"; "LPOP"; "RPOP"; "LSET"; "LTRIM";
   "LREM"; "LINSERT"; "ZADD"; "ZREM"; "ZINCRBY"; "ZPOPMIN"; "ZPOPMAX"; "ZREMRANGEBYSCORE"; "ZREMRANGEBYRANK";
   "JSON.SET"; "JSON.DEL"; "JSON.FORGET"; "JSON.NUMINCRBY"; "JSON.ARRAPPEND"; "JSON.MSET"; "JSON.MERGE";
   "JSON.NUMMULTBY"; "JSON.STRAPPEND"; "JSON.ARRINSERT"; "JSON.ARRPOP"; "JSON.ARRTRIM"; "JSON.TOGGLE";
   "JSON.CLEAR"; "BF.ADD"; "BF.MADD"; "BF.RESERVE"; "BF.INSERT"; "XADD"; "XDEL"; "XTRIM"; "XGROUP";
   "XREADGROUP"; "FLINTXREADGROUP"; "XACK"; "XCLAIM"; "XAUTOCLAIM"; "XSETID"].
Definition is_write_command : bytes → bool := named WRITES.

Definition READS : list String.string :=
  ["GET"; "TIME"; "FLINTKEYSIZE"; "FLINTKEYSTAMP"; "MGET"; "EXISTS"; "TTL"; "PTTL"; "EXPIRETIME";
   "PEXPIRETIME"; "STRLEN"; "GETRANGE"; "BITFIELD_RO"; "GETBIT"; "BITCOUNT"; "BITPOS"; "TOUCH"; "HRANDFIELD";
   "ZRANDMEMBER"; "HSTRLEN"; "HGET"; "HGETALL"; "HLEN"; "HEXISTS"; "SISMEMBER"; "SMISMEMBER"; "SRANDMEMBER";
   "HSCAN"; "SSCAN"; "ZSCAN"; "SCAN"; "KEYS"; "SCARD"; "SMEMBERS"; "SINTER"; "SUNION"; "SDIFF"; "SINTERCARD";
   "ZUNION"; "ZINTER"; "ZDIFF"; "ZINTERCARD"; "LLEN"; "LRANGE"; "LINDEX"; "LPOS"; "ZSCORE"; "ZCARD"; "ZRANGE";
   "ZREVRANGE"; "ZRANGEBYSCORE"; "ZREVRANGEBYSCORE"; "ZRANGEBYLEX"; "ZREVRANGEBYLEX"; "ZLEXCOUNT"; "ZRANK";
   "ZREVRANK"; "ZCOUNT"; "ZMSCORE"; "GEOPOS"; "GEOHASH"; "GEODIST"; "GEOSEARCH"; "GEORADIUS_RO";
   "GEORADIUSBYMEMBER_RO"; "DBSIZE"; "JSON.GET"; "JSON.TYPE"; "JSON.ARRLEN"; "JSON.MGET"; "JSON.STRLEN";
   "JSON.ARRINDEX"; "JSON.OBJKEYS"; "JSON.OBJLEN"; "JSON.RESP"; "JSON.DEBUG"; "BF.EXISTS"; "BF.MEXISTS";
   "BF.CARD"; "BF.INFO"; "XLEN"; "XRANGE"; "XREVRANGE"; "XREAD"; "XPENDING"; "XINFO"].
Definition is_read_command : bytes → bool := named READS.

(** ** Keys *)

(** [str::parse::<usize>]: an optional plus, then digits, within 64 bits. *)
Definition usize_from_str (raw : bytes) : option Z :=
  let d := match raw with b :: r => if Byte.eqb b PLUS then r else raw | [] => raw end in
  if negb (bool_decide (d = [])) && forallb is_digit d && (digits_value d <=? U64_MAX)
  then Some (digits_value d) else None.

Definition numkeys_key (args : list bytes) : option (option bytes) :=
  match args with
  | [] => None
  | name :: _ =>
      if named ["ZUNION"; "ZINTER"; "ZDIFF"; "ZINTERCARD"; "SINTERCARD"; "LMPOP"; "ZMPOP"] name then Some (args !! 2%nat)
      else if named ["BLMPOP"; "BZMPOP"] name then Some (args !! 3%nat)
      else None
  end.

(** The value after each STORE or STOREDIST ([opts.windows(2)]). *)
Fixpoint store_values (opts : list bytes) : list bytes :=
  match opts with
  | a :: ((b :: _) as rest) =>
      (if same_name a "STORE" || same_name a "STOREDIST" then [b] else []) ++ store_values rest
  | _ => []
  end.

Definition georadius_store_keys (args : list bytes) : list bytes :=
  match args with
  | [] => []
  | name :: _ =>
      if named ["GEORADIUS"] name then store_values (drop 6 args)
      else if named ["GEORADIUSBYMEMBER"] name then store_values (drop 5 args)
      else []
  end.

Definition json_debug_key (args : list bytes) : option (option bytes) :=
  match args with
  | name :: rest =>
      if same_name name "JSON.DEBUG" then
        Some (match rest with sub :: _ => if same_name sub "MEMORY" then args !! 2%nat else None | [] => None end)
      else None
  | [] => None
  end.

(** The first half of what follows STREAMS, when there is as much again. *)
Definition first_half (rest : list bytes) : list bytes := take (length rest / 2) rest.

(** The options before STREAMS, two arguments each. *)
Fixpoint xread_loop (args : list bytes) : option (list bytes) :=
  match args with
  | [] => None
  | o :: rest =>
      if same_name o "STREAMS" then
        if bool_decide (rest = []) || Nat.odd (length rest) then None else Some (first_half rest)
      else match rest with [] => None | _ :: rest' => xread_loop rest' end
  end.

Definition xread_keys (args : list bytes) : option (list bytes) :=
  match args with
  | name :: rest => if same_name name "XREAD" then xread_loop rest else None
  | [] => None
  end.

(** [step_by(2)] and the like. *)
Fixpoint step_by (fuel n : nat) (l : list bytes) : list bytes :=
  match fuel, l with
  | S fuel', x :: _ => x :: step_by fuel' n (drop n l)
  | _, _ => []
  end.
Definition every (from step : nat) (args : list bytes) : list bytes :=
  step_by (length args) step (drop from args).

(** [l[a..b]]. *)
Definition slice (a b : nat) (l : list bytes) : list bytes := take (b - a) (drop a l).

Definition xread_blocks (args : list bytes) : bool :=
  match xread_keys args with
  | None => false
  | Some keys =>
      let options := (length args - 2 * length keys - 1)%nat in
      existsb (λ o, same_name o "BLOCK") (every 0 2 (slice 1 options args))
  end.

(** The options before STREAMS: GROUP takes two values, COUNT and BLOCK one
    each, NOACK none. *)
Fixpoint xreadgroup_loop (fuel : nat) (args : list bytes) : option (list bytes) :=
  match fuel, args with
  | S fuel', o :: rest =>
      let more := length rest in
      if (same_name o "BLOCK" || same_name o "COUNT") && (0 <? more)%nat then xreadgroup_loop fuel' (drop 1 rest)
      else if same_name o "STREAMS" && (0 <? more)%nat then
        if Nat.odd more then None else Some (first_half rest)
      else if same_name o "GROUP" && (2 <=? more)%nat then xreadgroup_loop fuel' (drop 2 rest)
      else if same_name o "NOACK" then xreadgroup_loop fuel' rest
      else None
  | _, _ => None
  end.

Definition xreadgroup_keys (args : list bytes) : option (list bytes) :=
  match args with
  | name :: rest =>
      if same_name name "XREADGROUP" || same_name name "FLINTXREADGROUP"
      then xreadgroup_loop (length rest) rest else None
  | [] => None
  end.

Fixpoint group_options (fuel : nat) (options : list bytes) (blocks : bool) : bool :=
  match fuel, options with
  | S fuel', o :: rest =>
      if same_name o "BLOCK" then group_options fuel' (drop 1 rest) true
      else if same_name o "COUNT" then group_options fuel' (drop 1 rest) blocks
      else if same_name o "GROUP" then group_options fuel' (drop 2 rest) blocks
      else group_options fuel' rest blocks
  | _, _ => blocks
  end.

Definition xreadgroup_blocks (args : list bytes) : bool :=
  match xreadgroup_keys args with
  | None => false
  | Some keys =>
      let ids := drop (length args - length keys) args in
      let options := slice 1 (length args - 2 * length keys - 1) args in
      group_options (length options) options false && forallb (λ id, bool_decide (id = bstr ">")) ids
  end.

Definition subcommand_key (args : list bytes) : option (option bytes) :=
  match args with
  | name :: rest =>
      if same_name name "XGROUP" || same_name name "XINFO" then
        Some (match rest with sub :: _ => if same_name sub "HELP" then None else args !! 2%nat | [] => None end)
      else None
  | [] => None
  end.

Definition flush_args_ok (args : list bytes) : bool :=
  match args with
  | [_] => true
  | [_; mode] => same_name mode "ASYNC" || same_name mode "SYNC"
  | _ => false
  end.

Definition COPROC_RESERVED_PREFIXES : list bytes := [Byte.x00 :: bstr "vec" ++ [Byte.x00]].

Definition is_coproc_reserved (key : bytes) : bool := existsb (starts_with key) COPROC_RESERVED_PREFIXES.

Definition eval_keys (args : list bytes) : option (list bytes) :=
  match args with
  | name :: _ =>
      if same_name name "EVAL" || same_name name "EVALSHA" then
        a ← args !! 2%nat;
        n ← usize_from_str a;
        if n + 3 <=? len args then Some (slice 3 (3 + Z.to_nat n) args) else None
      else None
  | [] => None
  end.

(** What a write may write. *)
Inductive Written := Keys (ks : list bytes) | All | Script (ks : list bytes).

(** A count at [at], then keys; all that follow when the count does not parse. *)
Definition counted (at_ : nat) (args : list bytes) : list bytes :=
  let rest := drop (S at_) args in
  match (c ← args !! at_; usize_from_str c) with Some n => take (Z.to_nat (Z.min n (len rest))) rest | None => rest end.

Definition written_keys (args : list bytes) : option Written :=
  match args with
  | [] => None
  | name :: _ =>
      if negb (is_write_command name) then None
      else if named ["FLUSHALL"; "FLUSHDB"] name then Some All
      else if named ["EVAL"; "EVALSHA"] name then Some (Script (default [] (eval_keys args)))
      else Some (Keys (
        if named ["DEL"; "UNLINK"; "PFCOUNT"] name then drop 1 args
        else if named ["MSET"] name then every 1 2 args
        else if named ["JSON.MSET"] name then every 1 3 args
        else if named ["RENAME"; "RENAMENX"; "COPY"; "SMOVE"; "LMOVE"; "BLMOVE"; "RPOPLPUSH"; "BRPOPLPUSH"] name
        then take 2 (drop 1 args)
        else if named ["BLPOP"; "BRPOP"; "BZPOPMIN"; "BZPOPMAX"] name then take (length args - 2) (drop 1 args)
        else if named ["LMPOP"; "ZMPOP"] name then counted 1 args
        else if named ["BLMPOP"; "BZMPOP"] name then counted 2 args
        else if named ["BITOP"] name then take 1 (drop 2 args)
        else if named ["GEORADIUS"; "GEORADIUSBYMEMBER"] name then georadius_store_keys args
        else if named ["XREADGROUP"; "FLINTXREADGROUP"] name then default [] (xreadgroup_keys args)
        else if named ["XGROUP"] name then
          match subcommand_key args with Some (Some k) => [k] | _ => [] end
        else take 1 (drop 1 args)))
  end.

(** ** Facts on names *)

Lemma to_lower_upper b : to_lower (to_upper b) = to_lower b.
Proof. destruct b; reflexivity. Qed.

Lemma to_upper_lower b : to_upper (to_lower b) = to_upper b.
Proof. destruct b; reflexivity. Qed.

Lemma lower_upper l : to_ascii_lowercase (to_ascii_uppercase l) = to_ascii_lowercase l.
Proof. unfold to_ascii_lowercase, to_ascii_uppercase. rewrite map_map. apply map_ext, to_lower_upper. Qed.

Lemma upper_lower l : to_ascii_uppercase (to_ascii_lowercase l) = to_ascii_uppercase l.
Proof. unfold to_ascii_lowercase, to_ascii_uppercase. rewrite map_map. apply map_ext, to_upper_lower. Qed.

Lemma same_name_true n t : same_name n t = true → to_ascii_lowercase n = to_ascii_lowercase (bstr t).
Proof. apply bool_decide_eq_true_1. Qed.

(** The two ways a name is compared agree on a name in upper case. *)
Lemma same_name_upper n t :
  to_ascii_uppercase (bstr t) = bstr t →
  same_name n t = bool_decide (to_ascii_uppercase n = bstr t).
Proof.
  intros Ht. apply bool_decide_ext. split.
  - intros E. by rewrite <- upper_lower, E, upper_lower.
  - intros E. by rewrite <- lower_upper, E.
Qed.

Lemma named_true l n : named l n = true ↔ ∃ s, s ∈ l ∧ to_ascii_uppercase n = bstr s.
Proof.
  unfold named. rewrite existsb_exists. split; intros (s & Hs & E); exists s.
  - split; [by apply list_elem_of_In|]. by apply bool_decide_eq_true_1 in E.
  - split; [by apply list_elem_of_In|]. by apply bool_decide_eq_true_2.
Qed.

(** Tables are compared by computing. *)
Definition within (l l' : list String.string) : bool :=
  forallb (λ s, existsb (λ t, bool_decide (bstr s = bstr t)) l') l.
Definition apart (l l' : list String.string) : bool :=
  forallb (λ s, negb (existsb (λ t, bool_decide (bstr s = bstr t)) l')) l.

Lemma named_within l l' n : within l l' = true → named l n = true → named l' n = true.
Proof.
  unfold within. rewrite forallb_forall. intros Hw (s & Hs & E)%named_true. apply named_true.
  apply list_elem_of_In, Hw, existsb_exists in Hs as (t & Ht & Et). apply bool_decide_eq_true_1 in Et.
  exists t. split; [by apply list_elem_of_In|congruence].
Qed.

Lemma named_apart l l' n : apart l l' = true → named l n = true → named l' n = false.
Proof.
  unfold apart. rewrite forallb_forall. intros Ha (s & Hs & E)%named_true.
  apply list_elem_of_In, Ha, negb_true_iff in Hs. apply not_true_is_false. intros (t & Ht & Et)%named_true.
  apply not_true_iff_false in Hs. apply Hs, existsb_exists. exists t.
  split; [by apply list_elem_of_In|]. apply bool_decide_eq_true_2. congruence.
Qed.

(** ** Facts on keys *)

Lemma every_elem from step args k : k ∈ every from step args → k ∈ drop from args.
Proof.
  unfold every. generalize (drop from args). generalize (length args). clear from args.
  intros n. induction n as [|n IH]; intros l; cbn [step_by]; [by intros ?%elem_of_nil|].
  destruct l as [|x l]; [done|].
  intros [->|Hin]%elem_of_cons; [left|]. apply IH in Hin. rewrite <- (take_drop step (x :: l)). apply elem_of_app. by right.
Qed.

Lemma elem_of_slice a b (l : list bytes) k : k ∈ slice a b l → k ∈ drop a l.
Proof. intros H. by apply elem_of_take in H as (i & H & _); apply list_elem_of_lookup_2 in H. Qed.

Lemma elem_of_tail_drop n (l : list bytes) k : k ∈ drop (S n) l → k ∈ tail l.
Proof.
  destruct l as [|x l]; [done|]. cbn. intros H. rewrite <- (take_drop n l). apply elem_of_app. by right.
Qed.

Lemma elem_of_take_l n (l : list bytes) k : k ∈ take n l → k ∈ l.
Proof. intros H. rewrite <- (take_drop n l). apply elem_of_app. by left. Qed.

Lemma store_values_elem opts k : k ∈ store_values opts → k ∈ opts.
Proof.
  induction opts as [|a [|b opts] IH]; [done|by intros ?%elem_of_nil|]. cbn [store_values].
  intros [H|H]%elem_of_app; [|right; by apply IH].
  destruct (_ || _); [apply list_elem_of_singleton in H as ->; right; left|by apply elem_of_nil in H].
Qed.

Lemma xreadgroup_elem fuel args ks k : xreadgroup_loop fuel args = Some ks → k ∈ ks → k ∈ args.
Proof.
  revert args. induction fuel as [|fuel IH]; intros args H Hk; [done|]. destruct args as [|o rest]; [done|].
  cbn [xreadgroup_loop] in H. right.
  destruct ((same_name o "BLOCK" || same_name o "COUNT") && _).
  { rewrite <- (take_drop 1 rest). apply elem_of_app. right. by apply IH. }
  destruct (same_name o "STREAMS" && _).
  { destruct (Nat.odd _); [done|]. injection H as <-. by apply elem_of_take_l in Hk. }
  destruct (same_name o "GROUP" && _).
  { rewrite <- (take_drop 2 rest). apply elem_of_app. right. by apply IH. }
  destruct (same_name o "NOACK"); [by apply IH|done].
Qed.

Lemma xreadgroup_keys_elem args ks k : xreadgroup_keys args = Some ks → k ∈ ks → k ∈ tail args.
Proof. destruct args as [|n rest]; [done|]. cbn. destruct (_ || _); [apply xreadgroup_elem|done]. Qed.

Lemma eval_keys_elem args ks k : eval_keys args = Some ks → k ∈ ks → k ∈ tail args.
Proof.
  destruct args as [|n rest]; [done|]. unfold eval_keys. destruct (_ || _); [|done].
  intros (a & _ & (z & _ & H)%bind_Some)%bind_Some. destruct (_ <=? _); [|done]. injection H as <-.
  intros H%elem_of_slice. by apply (elem_of_tail_drop 2 (n :: rest)).
Qed.

(** The arguments [f] picks are among the ones after the name. *)
Lemma written_elem args ks k :
  written_keys args = Some (Keys ks) → k ∈ ks → k ∈ tail args.
Proof.
  destruct args as [|n rest]; [done|]. unfold written_keys. remember (n :: rest) as args eqn:Ea.
  destruct (negb _); [done|]. destruct (named ["FLUSHALL"; "FLUSHDB"] n); [done|].
  destruct (named ["EVAL"; "EVALSHA"] n); [done|]. intros [= <-] Hk.
  repeat match type of Hk with
  | _ ∈ (if ?b then _ else _) => destruct b
  end.
  - by apply (elem_of_tail_drop 0).
  - by apply every_elem, (elem_of_tail_drop 0) in Hk.
  - by apply every_elem, (elem_of_tail_drop 0) in Hk.
  - by apply elem_of_take_l, (elem_of_tail_drop 0) in Hk.
  - by apply elem_of_take_l, (elem_of_tail_drop 0) in Hk.
  - unfold counted in Hk. destruct (_ ≫= _); [apply elem_of_take_l in Hk|]; by apply (elem_of_tail_drop 1).
  - unfold counted in Hk. destruct (_ ≫= _); [apply elem_of_take_l in Hk|]; by apply (elem_of_tail_drop 2).
  - by apply elem_of_take_l, (elem_of_tail_drop 1) in Hk.
  - rewrite Ea in *. unfold georadius_store_keys in Hk.
    destruct (named ["GEORADIUS"] n); [by apply store_values_elem, (elem_of_tail_drop 5) in Hk|].
    destruct (named ["GEORADIUSBYMEMBER"] n); [by apply store_values_elem, (elem_of_tail_drop 4) in Hk|].
    by apply elem_of_nil in Hk.
  - destruct (xreadgroup_keys args) eqn:E; [by eapply xreadgroup_keys_elem|by apply elem_of_nil in Hk].
  - unfold subcommand_key in Hk. rewrite Ea in *. destruct (_ || _); [|by apply elem_of_nil in Hk].
    destruct rest as [|sub rest]; [by apply elem_of_nil in Hk|].
    destruct (same_name sub "HELP"); [by apply elem_of_nil in Hk|].
    destruct ((n :: sub :: rest) !! 2%nat) as [k'|] eqn:E; [|by apply elem_of_nil in Hk].
    apply list_elem_of_singleton in Hk as ->. cbn in E. right. by apply list_elem_of_lookup_2 in E.
  - by apply elem_of_take_l, (elem_of_tail_drop 0) in Hk.
Qed.

(** ** XREAD's keys *)

Lemma first_half_split (ks ids : list bytes) : length ks = length ids → first_half (ks ++ ids) = ks.
Proof.
  intros E. unfold first_half. rewrite length_app, <- E.
  replace (length ks + length ks)%nat with (length ks * 2)%nat by lia. rewrite Nat.div_mul by lia. apply take_app_length.
Qed.

Lemma even_halves (rest : list bytes) :
  Nat.odd (length rest) = false → ∃ ids, rest = first_half rest ++ ids ∧ length ids = length (first_half rest).
Proof.
  intros He. exists (drop (length rest / 2) rest). split; [exact (eq_sym (take_drop _ _))|].
  unfold first_half. rewrite length_drop, length_take. rewrite <- Nat.negb_even, negb_false_iff, Nat.even_spec in He.
  destruct He as [m Hm]. rewrite Hm. replace (2 * m)%nat with (m * 2)%nat by lia. rewrite Nat.div_mul by lia. lia.
Qed.

(** The options, two arguments each, with no STREAMS where an option stands. *)
Fixpoint options_ok (opts : list bytes) : bool :=
  match opts with
  | [] => true
  | o :: _ :: opts' => negb (same_name o "STREAMS") && options_ok opts'
  | _ => false
  end.

Lemma xread_loop_spec args ks :
  xread_loop args = Some ks ↔
  ∃ opts s ids, args = opts ++ s :: ks ++ ids ∧ options_ok opts = true ∧ same_name s "STREAMS" = true ∧
    length ks = length ids ∧ ks ≠ [].
Proof.
  split.
  - remember (length args) as n eqn:Hn. assert (length args ≤ n)%nat as Hl by lia. clear Hn. revert args Hl.
    induction n as [|n IH]; intros [|o rest] Hl H; cbn in Hl; try done; [lia|]. cbn [xread_loop] in H.
    destruct (same_name o "STREAMS") eqn:Ho.
    + destruct (bool_decide (rest = [])) eqn:En; [done|]. destruct (Nat.odd (length rest)) eqn:Eo; [done|].
      injection H as <-. destruct (even_halves rest Eo) as (ids & E & El). exists [], o, ids.
      split; [exact (f_equal (cons o) E)|]. split_and!; try done.
      intros E0. apply bool_decide_eq_false in En. apply En. rewrite E0 in *. destruct ids; [by rewrite E|done].
    + destruct rest as [|v rest]; [done|]. cbn in Hl.
      destruct (IH rest ltac:(lia) H) as (opts & s & ids & -> & ? & ? & ? & ?).
      exists (o :: v :: opts), s, ids. split_and!; try done. cbn. by rewrite Ho.
  - intros (opts & s & ids & -> & Ho & Hs & El & Hk). revert Ho.
    enough (∀ n opts, (length opts ≤ n)%nat → options_ok opts = true → xread_loop (opts ++ s :: ks ++ ids) = Some ks)
      by eauto.
    clear opts. induction n as [|n IH]; intros [|o [|v opts]] Hl Ho; cbn in Hl; try lia; try done.
    1,2: cbn [app xread_loop]; rewrite Hs, (first_half_split ks ids El), bool_decide_eq_false_2 by (by destruct ks);
      replace (length (ks ++ ids)) with (2 * length ids)%nat by (rewrite length_app; lia);
      rewrite <- Nat.negb_even, Nat.even_mul; done.
    apply andb_true_iff in Ho as [Hso%negb_true_iff Ho]. cbn [app xread_loop]. rewrite Hso. apply IH; [lia|done].
Qed.

(** * Properties *)

(** The command table keeps its promises: no command both reads and
    writes, whatever the case of its name; every command that waits, every one
    that only shrinks and the one that never grows are writes. A command in
    neither table is neither. *)
Theorem command_classes_agree name :
  (is_read_command name = true → is_write_command name = false) ∧
  (is_blocking_command name || reduces_space name || never_grows name = true → is_write_command name = true) ∧
  is_write_command (to_ascii_lowercase name) = is_write_command name ∧
  is_read_command (to_ascii_lowercase name) = is_read_command name ∧
  is_write_command (bstr "NOSUCHCOMMAND") = false ∧ is_read_command (bstr "NOSUCHCOMMAND") = false.
Proof.
  assert (Hl : ∀ l, named l (to_ascii_lowercase name) = named l name).
  { intros l. unfold named. by rewrite upper_lower. }
  split; [|split; [|split; [apply Hl|split; [apply Hl|split; vm_compute; reflexivity]]]].
  - apply named_apart. vm_compute. reflexivity.
  - intros [[H|H]%orb_true_iff|H]%orb_true_iff.
    + revert H. apply named_within. vm_compute. reflexivity.
    + revert H. apply named_within. vm_compute. reflexivity.
    + unfold never_grows in H. rewrite same_name_upper in H by reflexivity.
      apply (named_within ["PFCOUNT"]); [vm_compute; reflexivity|]. unfold named. cbn [existsb]. by rewrite H.
Qed.

(** A command has written keys exactly when it writes, and each is one of
    its arguments after the name, however the arguments are malformed. *)
Theorem written_keys_are_arguments args :
  (written_keys args = None ↔ first_is is_write_command args = false) ∧
  (∀ ks k, written_keys args = Some (Keys ks) ∨ written_keys args = Some (Script ks) → k ∈ ks → k ∈ tail args).
Proof.
  split.
  - destruct args as [|n rest]; [done|]. unfold written_keys, first_is. destruct (is_write_command n); cbn [negb]; [|done].
    split; [|done]. destruct (named ["FLUSHALL"; "FLUSHDB"] n); [done|]. by destruct (named ["EVAL"; "EVALSHA"] n).
  - intros ks k [H|H]; [by apply written_elem|]. intros Hk. destruct args as [|n rest]; [done|]. unfold written_keys in H.
    destruct (negb _); [done|]. destruct (named ["FLUSHALL"; "FLUSHDB"] n); [done|].
    destruct (named ["EVAL"; "EVALSHA"] n); [|done].
    destruct (eval_keys (n :: rest)) eqn:E; injection H as <-; [exact (eval_keys_elem _ _ _ E Hk)|inversion Hk].
Qed.

(** XREAD's keys are parsed exactly: they are the first half of what
    follows the first STREAMS that stands where an option may, when as many
    IDs follow them. *)
Theorem xread_keys_exact name args ks :
  same_name name "XREAD" = true →
  xread_keys (name :: args) = Some ks ↔
  ∃ opts s ids, args = opts ++ s :: ks ++ ids ∧ options_ok opts = true ∧ same_name s "STREAMS" = true ∧
    length ks = length ids ∧ ks ≠ [].
Proof. intros Hn. unfold xread_keys. rewrite Hn. apply xread_loop_spec. Qed.

Lemma xread_keys_exact_witness :
  xread_keys (map bstr ["xread"; "COUNT"; "2"; "streams"; "a"; "b"; "0"; "$"]) = Some (map bstr ["a"; "b"]).
Proof.
  apply (xread_keys_exact (bstr "xread")); [by vm_compute|].
  exists (map bstr ["COUNT"; "2"]), (bstr "streams"), (map bstr ["0"; "$"]).
  split; [reflexivity|]. split_and!; vm_compute; done.
Defined.
