(* ===== verification/Replies.v ===== *)
(** * What the proxy restores (src/crates/flint-resp/src/lib.rs)

    RESP3 has one null, one kind of double and one shape for pairs, so a reply
    read from a seat in RESP3 has lost what RESP2 would have told apart. These
    functions say, by command, what was lost and put it back; and [HELLO] is
    parsed and answered. [serde_json]'s spelling of a double is an argument. *)

From stdpp Require Import base list strings.
From Stdlib Require Import ZArith Lia SpecFloat.
From S2P Require Import Prelude Encoding Num F64 Resp Commands.

(** ** Commands *)

Definition null_is_array (args : list bytes) : bool :=
  match args with
  | [] => false
  | name :: _ =>
      let named := same_name name in
      named "BLPOP" || named "BRPOP" || named "BZPOPMIN" || named "BZPOPMAX" || named "LMPOP" || named "ZMPOP" ||
      named "BLMPOP" || named "BZMPOP" ||
      (named "LPOP" || named "RPOP") && (length args =? 3)%nat ||
      (named "ZRANK" || named "ZREVRANK") && (length args =? 4)%nat ||
      named "XREAD" || named "XREADGROUP" || named "XRANGE" || named "XREVRANGE"
  end.

Definition group_nulls (args : list bytes) : bool :=
  match args with
  | [] => false
  | n :: _ => same_name n "XREADGROUP" || same_name n "XPENDING" && (length args =? 3)%nat
  end.

Definition resp3_nests_reply (command : bytes) : bool := same_name command "JSON.TYPE".

Definition resp3_differs_in_kind (command : bytes) : bool :=
  same_name command "JSON.NUMINCRBY" || same_name command "JSON.NUMMULTBY".

Definition geo_names : list String.string :=
  ["GEOPOS"; "GEORADIUS"; "GEORADIUS_RO"; "GEORADIUSBYMEMBER"; "GEORADIUSBYMEMBER_RO"; "GEOSEARCH"]%string.

Definition geo_coordinates (args : list bytes) : bool :=
  match args with
  | [] => false
  | n :: _ => bool_decide (to_ascii_uppercase n ∈ map bstr geo_names)
  end.

Definition bf_info_field (args : list bytes) : bool :=
  match args with [n; _; _] => same_name n "BF.INFO" | _ => false end.

Definition hrandfield_withvalues (args : list bytes) : bool :=
  match args with [n; _; _; w] => same_name n "HRANDFIELD" && same_name w "WITHVALUES" | _ => false end.

Definition zmpop_reply (args : list bytes) : bool :=
  match args with [] => false | n :: _ => same_name n "ZMPOP" || same_name n "BZMPOP" end.

(** ** Repairs *)

Definition xread_resp2 (v : Value) : Value :=
  match v with
  | VMap pairs => Array (Some (map (λ '(k, e), Array (Some [k; e])) pairs))
  | other => other
  end.

(** [matches!(v, Value::Null | Value::Bulk(None))]. *)
Definition is_null (v : Value) : bool :=
  match v with Null | Bulk None => true | _ => false end.

(** The entries of a stream: an entry deleted since its delivery is its ID and
    a null array. *)
Definition group_entries (v : Value) : Value :=
  match v with
  | Array (Some items) =>
      Array (Some (map (λ e, match e with
                             | Array (Some [a; b]) => Array (Some [a; if is_null b then Array None else b])
                             | other => other
                             end) items))
  | other => other
  end.

Definition group_nulls_reply (v : Value) : Value :=
  match v with
  | VMap streams => VMap (map (λ '(k, e), (k, group_entries e)) streams)
  | Array (Some ([Integer n; a; b; c])) => Array (Some [Integer n; a; b; if is_null c then Array None else c])
  | Array (Some pairs) =>
      Array (Some (map (λ p, match p with
                             | Array (Some [k; e]) => Array (Some [k; group_entries e])
                             | other => other
                             end) pairs))
  | other => other
  end.

Fixpoint geo_inner (v : Value) : Value :=
  match v with
  | Double d => HumanDouble d
  | Null | Bulk None => Array None
  | Array (Some items) => Array (Some (map geo_inner items))
  | other => other
  end.

Definition geo_reply (v : Value) : Value :=
  match v with
  | Array (Some items) => Array (Some (map geo_inner items))
  | other => other
  end.

Definition zmpop_nested (v : Value) : Value :=
  match v with
  | Array (Some [key; ScorePairs pairs]) =>
      Array (Some [key; Array (Some (map (λ '(m, s), Array (Some [Bulk (Some m); Double s])) pairs))])
  | other => other
  end.

Definition flatten_pairs (v : Value) : Value :=
  match v with
  | Array (Some items) =>
      Array (Some (flat_map (λ pair, match pair with Array (Some p) => p | other => [other] end) items))
  | other => other
  end.

Definition bf_info_field_resp2 (v : Value) : Value :=
  match v with
  | VMap [(_, x)] => Array (Some [x])
  | other => other
  end.

Definition DOLLAR : byte := Byte.x24.

Definition json_fixed_path (path : bytes) : bytes :=
  if starts_with path [DOLLAR] then path
  else if bool_decide (path = [DOT]) then [DOLLAR]
  else if starts_with path [DOT] then DOLLAR :: path
  else DOLLAR :: DOT :: path.

Section json.

(** [serde_json::Number::from_f64(d)], printed; [None] when [d] is not finite. *)
Variable json_number : Z → option bytes.

Definition fmt_json_double (d : Z) : bytes :=
  match json_number d with Some t => t | None => fmt_double d end.

Definition json_render (v : Value) : bytes :=
  match v with
  | Integer i => i64_to_string i
  | Double d => fmt_json_double d
  | _ => bstr "null"
  end.

(** The loop that writes the items with commas between them. *)
Fixpoint join_items (first : bool) (items : list Value) : bytes :=
  match items with
  | [] => []
  | v :: items' => (if first then [] else bstr ",") ++ json_render v ++ join_items false items'
  end.

Definition json_numincrby_resp2 (reply : Value) (path : option bytes) : Value :=
  let path := Utf8.from_utf8_lossy (default (bstr ".") path) in
  match reply with
  | Array (Some items) =>
      if starts_with path [DOLLAR] then Bulk (Some (bstr "[" ++ join_items true items ++ bstr "]"))
      else
        match items with
        | (Integer _ | Double _) as v :: _ => Bulk (Some (json_render v))
        | _ => Error (bstr "ERR Path '" ++ json_fixed_path path ++
                      bstr "' does not exist or does not contains a number")
        end
  | other => other
  end.

End json.

(** ** HELLO *)

Record HelloRequest := mkHello {
  h_proto : option Proto;
  h_auth : option (bytes * bytes);
  h_setname : option bytes;
}.

Inductive HelloError := NoProto | NotInteger | Syntax (opt : bytes).

Definition HelloError_reply (e : HelloError) : Value :=
  match e with
  | NoProto => Error (bstr "NOPROTO unsupported protocol version")
  | NotInteger => Error (bstr "ERR Protocol version is not an integer or out of range")
  | Syntax opt => Error (bstr "ERR Syntax error in HELLO option '" ++ opt ++ bstr "'")
  end.

(** The options after the version, two or three arguments each. *)
Fixpoint hello_options (args : list bytes) (req : HelloRequest) : HelloRequest + HelloError :=
  match args with
  | [] => inl req
  | o :: args1 =>
      let bad := inr (Syntax (Utf8.from_utf8_lossy o)) in
      match args1 with
      | a :: args2 =>
          if bool_decide (to_ascii_uppercase o = bstr "AUTH") then
            match args2 with
            | b :: args3 => hello_options args3 (mkHello (h_proto req) (Some (a, b)) (h_setname req))
            | [] => bad
            end
          else if bool_decide (to_ascii_uppercase o = bstr "SETNAME") then
            hello_options args2 (mkHello (h_proto req) (h_auth req) (Some a))
          else bad
      | [] => bad
      end
  end.

Definition parse_hello (args : list bytes) : HelloRequest + HelloError :=
  match args with
  | _ :: v :: options =>
      match i64_from_str v with
      | None => inr NotInteger
      | Some ver =>
          match from_version ver with
          | None => inr NoProto
          | Some p => hello_options options (mkHello (Some p) None None)
          end
      end
  | _ => inl (mkHello None None None)
  end.

Definition hello_reply (p : Proto) (version role : bytes) : Value :=
  let s t := Bulk (Some t) in
  VMap [(s (bstr "server"), s (bstr "flint")); (s (bstr "version"), s version);
        (s (bstr "proto"), Integer (Proto_version p)); (s (bstr "id"), Integer 0);
        (s (bstr "mode"), s (bstr "standalone")); (s (bstr "role"), s role);
        (s (bstr "modules"), Array (Some []))].

(** ** The proxy's repairs (src/crates/flint-proxy/src/main.rs) *)

Definition is_xread (args : list bytes) : bool :=
  match args with [] => false | n :: _ => same_name n "XREAD" || same_name n "XREADGROUP" end.

Definition null_as_array (args : list bytes) (reply : Value) : Value :=
  match reply with
  | Null => if null_is_array args then Array None else Null
  | other => other
  end.

Definition is_error (v : Value) : bool := match v with Error _ => true | _ => false end.
Definition is_map (v : Value) : bool := match v with VMap _ => true | _ => false end.

Section proxy.

Variable json_number : Z → option bytes.

Definition repair_reply (args : list bytes) (v : Value) : Value :=
  if first_is resp3_nests_reply args then
    match v with Array (Some [item]) => Resp3Nested item | other => other end
  else if first_is resp3_differs_in_kind args && negb (is_error v) then
    ByProto (json_numincrby_resp2 json_number v (args !! 2%nat)) v
  else if hrandfield_withvalues args then ByProto (flatten_pairs v) v
  else if zmpop_reply args then zmpop_nested v
  else if geo_coordinates args then geo_reply v
  else if bf_info_field args then ByProto (bf_info_field_resp2 v) v
  else
    let v := if group_nulls args then group_nulls_reply v else v in
    if is_xread args && is_map v then ByProto (xread_resp2 v) v else v.

Definition needs_repair (args : list bytes) : bool :=
  first_is (λ n, resp3_nests_reply n || resp3_differs_in_kind n) args ||
  bf_info_field args || hrandfield_withvalues args || zmpop_reply args || geo_coordinates args ||
  group_nulls args || is_xread args.

(** What a client that speaks [p] gets when a seat answered [v]. *)
Definition proxied (p : Proto) (args : list bytes) (v : Value) : bytes :=
  encode_proto p (null_as_array args (repair_reply args (read_back Resp3 v))).

(** *** In a transaction *)

Definition exec_item (null_array : bool) (repair : option (list bytes)) (v : option Value) : Value :=
  match v with
  | Some v =>
      match v, null_array with
      | Null, true => Array None
      | v, _ => match repair with Some args => repair_reply args v | None => v end
      end
  | None => Null
  end.

Inductive Queued := QBackend (null_array : bool) (repair : option (list bytes)) | QLocal (v : Value).

(** What a command the backend queued leaves in the transaction. *)
Definition queue (args : list bytes) : Queued :=
  QBackend (null_is_array args) (if needs_repair args then Some args else None).

(** EXEC's items: the backend's, in order, for the commands it queued. *)
Fixpoint exec_items (queued : list Queued) (items : list Value) : list Value :=
  match queued with
  | [] => []
  | QLocal v :: queued' => v :: exec_items queued' items
  | QBackend na r :: queued' => exec_item na r (head items) :: exec_items queued' (tail items)
  end.

Definition is_backend (q : Queued) : bool := match q with QBackend _ _ => true | QLocal _ => false end.

(** The reply to EXEC when the backend answered [v]. *)
Definition exec_reply (queued : list Queued) (v : Value) : Value :=
  match v with
  | Null => Array None
  | Array (Some items) =>
      if (length items =? length (List.filter is_backend queued))%nat
      then Array (Some (exec_items queued items)) else v
  | v => v
  end.

(** *** What the seats answer *)

(** XREAD's and XREADGROUP's reply ([per_stream] of
    src/crates/flint-server/src/commands/streams.rs). *)
Definition per_stream (found : list (bytes * Value)) : Value :=
  match found with
  | [] => Array None
  | _ => ByProto (Array (Some (map (λ '(k, e), Array (Some [Bulk (Some k); e])) found)))
           (VMap (map (λ '(k, e), (Bulk (Some k), e)) found))
  end.

(** An entry is its ID and its fields. *)
Definition entry_value (e : bytes * list bytes) : Value :=
  Array (Some [Bulk (Some e.1); Array (Some (map (λ f, Bulk (Some f)) e.2))]).

(** XREADGROUP's entries: a deleted one is its ID and nil
    (src/crates/flint-server/src/commands/streams/groups.rs). XREAD's are those of
    [entries_value], none of them deleted. *)
Definition group_entries_value (es : list (bytes * option (list bytes))) : Value :=
  Array (Some (map (λ e, match e.2 with
                         | Some f => entry_value (e.1, f)
                         | None => Array (Some [Bulk (Some e.1); Array None])
                         end) es)).

Definition entries_value (es : list (bytes * list bytes)) : Value := Array (Some (map entry_value es)).

(** A coordinate printed again gives its text back. *)
Definition coordinate_stable (d : Z) : Prop :=
  fmt_human_double (default 0 (f64_parse (fmt_human_double d))) = fmt_human_double d.

Fixpoint geo_value (v : Value) : Prop :=
  match v with
  | HumanDouble d => coordinate_stable d
  | Array None | Bulk (Some _) | Integer _ => True
  | Array (Some l) =>
      all geo_value l /\ array_of (map (read_back Resp3) l) = Array (Some (map (read_back Resp3) l))
  | _ => False
  end.

Definition json_match (v : Value) : Prop :=
  match v with Integer _ | Double _ | Null => True | _ => False end.

(** The replies RESP3 alone would lose, by the command that gives them, and
    the ones it keeps. *)
Inductive seat_reply (args : list bytes) : Value → Prop :=
| seat_json_type v :
    first_is resp3_nests_reply args = true → no_coordinates v → portable v →
    score_pair (read_back Resp3 v) = None → seat_reply args (Resp3Nested v)
| seat_json_num items :
    first_is resp3_differs_in_kind args = true → Forall json_match items →
    seat_reply args (ByProto (json_numincrby_resp2 json_number (Array (Some items)) (args !! 2%nat))
                       (Array (Some items)))
| seat_hrandfield (pairs : list (bytes * bytes)) :
    hrandfield_withvalues args = true →
    seat_reply args
      (ByProto (Array (Some (flat_map (λ '(f, v), [Bulk (Some f); Bulk (Some v)]) pairs)))
         (Array (Some (map (λ '(f, v), Array (Some [Bulk (Some f); Bulk (Some v)])) pairs))))
| seat_zmpop key pairs :
    zmpop_reply args = true → pairs ≠ [] →
    seat_reply args
      (Array (Some [Bulk (Some key);
                    Array (Some (map (λ '(m, s), Array (Some [Bulk (Some m); Double s])) pairs))]))
| seat_geo items :
    geo_coordinates args = true → geo_value (Array (Some items)) → seat_reply args (Array (Some items))
| seat_bf_info name one :
    bf_info_field args = true → no_coordinates one → portable one →
    seat_reply args (ByProto (Array (Some [one])) (VMap [(Simple name, one)]))
| seat_xread found :
    is_xread args = true →
    (∀ k es, (k, es) ∈ found → Forall (λ e, is_Some e.2) es ∨ group_nulls args = true) →
    seat_reply args (per_stream (map (λ '(k, es), (k, group_entries_value es)) found))
| seat_null : null_is_array args = true → needs_repair args = false → seat_reply args (Array None)
| seat_other v :
    needs_repair args = false → no_coordinates v → portable v →
    (null_is_array args = true → read_back Resp3 v ≠ Null) → seat_reply args v.

End proxy.

(** ** Commands have one name *)

Lemma geo_name n args :
  geo_coordinates (n :: args) = true →
  ∃ g, g ∈ geo_names ∧ to_ascii_lowercase n = to_ascii_lowercase (bstr g).
Proof.
  unfold geo_coordinates. intros (g & E & Hg)%bool_decide_eq_true_1%list_elem_of_fmap.
  exists g. split; [done|]. by rewrite <- E, lower_upper.
Qed.

(** With the name known, as [E] says, the conditions on names compute. *)
Ltac by_name E :=
  unfold first_is, resp3_nests_reply, resp3_differs_in_kind, hrandfield_withvalues, zmpop_reply,
    bf_info_field, group_nulls, is_xread, null_is_array, same_name; rewrite ?E;
  repeat match goal with
  | |- context [bool_decide (to_ascii_lowercase (bstr ?a) = to_ascii_lowercase (bstr ?b))] =>
      let v := eval vm_compute in (bool_decide (to_ascii_lowercase (bstr a) = to_ascii_lowercase (bstr b))) in
      lazymatch v with
      | true => rewrite (bool_decide_eq_true_2 (to_ascii_lowercase (bstr a) = to_ascii_lowercase (bstr b)))
                  by reflexivity
      | false => rewrite (bool_decide_eq_false_2 (to_ascii_lowercase (bstr a) = to_ascii_lowercase (bstr b)))
                  by discriminate
      end
  end; cbn [orb andb].

Lemma not_geo n t args :
  to_ascii_lowercase n = to_ascii_lowercase (bstr t) →
  forallb (λ g, negb (bool_decide (to_ascii_lowercase (bstr t) = to_ascii_lowercase (bstr g)))) geo_names = true →
  geo_coordinates (n :: args) = false.
Proof.
  intros E Hf. destruct (geo_coordinates (n :: args)) eqn:G; [|done]. exfalso.
  apply geo_name in G as (g & Hg & Eg). rewrite forallb_forall in Hf.
  apply list_elem_of_In, Hf, negb_true_iff, bool_decide_eq_false in Hg. apply Hg. congruence.
Qed.

(** *** Each family *)

Lemma mapM_head_None v items : score_pair v = None → mapM score_pair (v :: items) = None.
Proof. intros H. cbn. by rewrite H. Qed.

Lemma array_of_none items : Exists (λ v, score_pair v = None) items → array_of items = Array (Some items).
Proof.
  intros H. assert (mapM score_pair items = None) as Hm.
  { induction H as [v items Hv|v items _ IH]; [by apply mapM_head_None|].
    cbn. destruct (score_pair v); [|done]. cbn. by rewrite IH. }
  unfold array_of. rewrite Hm. by destruct items.
Qed.

Lemma array_of_plain v items : score_pair v = None → array_of (v :: items) = Array (Some (v :: items)).
Proof. intros H. unfold array_of. by rewrite mapM_head_None. Qed.

Lemma zmpop_restored key pairs :
  pairs ≠ [] →
  let v := Array (Some [Bulk (Some key);
             Array (Some (map (λ '(m, s), Array (Some [Bulk (Some m); Double s])) pairs))]) in
  zmpop_nested (read_back Resp3 v) = v.
Proof.
  intros Hp v. subst v. cbn [read_back map].
  replace (map (read_back Resp3) (map (λ '(m, s), Array (Some [Bulk (Some m); Double s])) pairs))
    with (map (λ ms : bytes * Z, Array (Some [Bulk (Some ms.1); Double ms.2])) pairs).
  2:{ rewrite map_map. apply map_ext. by intros []. }
  rewrite array_of_scores, array_of_plain by done. destruct pairs as [|p pairs]; [done|]. done.
Qed.

Lemma geo_inner_restored v p : geo_value v → encode_proto p (geo_inner (read_back Resp3 v)) = encode_proto p v.
Proof.
  induction v as [s|s|i|b|o| |l IH| |d|d|l IH|l IH|v IH|v w IHv IHw|l|l IH] using Value_induction;
    intros Hg; try done.
  - by destruct o.
  - destruct Hg as [Hg Ha]. cbn [read_back]. rewrite Ha. cbn [geo_inner encode_proto].
    rewrite !length_map. f_equal. clear Ha. induction IH as [|v l Hv _ IHl]; [done|].
    destruct Hg as [? Hg]. cbn [map flat_map]. by rewrite Hv, IHl.
  - cbn [read_back]. rewrite bool_decide_eq_true_2 by done. cbn [geo_inner encode_proto].
    cbn [geo_value] in Hg. unfold coordinate_stable in Hg. by rewrite Hg.
Qed.

Lemma geo_restored items p :
  geo_value (Array (Some items)) →
  encode_proto p (geo_reply (read_back Resp3 (Array (Some items)))) = encode_proto p (Array (Some items)).
Proof.
  intros Hg. pose proof (geo_inner_restored _ p Hg) as H. destruct Hg as [_ Ha]. revert H.
  cbn [read_back]. rewrite Ha. done.
Qed.

Lemma hrandfield_restored pairs :
  let nested := Array (Some (map (λ '(f, v), Array (Some [Bulk (Some f); Bulk (Some v)])) pairs)) in
  read_back Resp3 nested = nested ∧
  flatten_pairs nested = Array (Some (flat_map (λ '(f, v), [Bulk (Some f); Bulk (Some v)]) pairs)).
Proof.
  intros nested. subst nested. split.
  - cbn [read_back]. rewrite map_map.
    rewrite (map_ext _ (λ '(f, v), Array (Some [Bulk (Some f); Bulk (Some v)]))) by (by intros []).
    destruct pairs as [|[f v] pairs]; [done|]. cbn [map]. by rewrite array_of_plain.
  - cbn [flatten_pairs]. do 2 f_equal. induction pairs as [|[f v] pairs IH]; [done|]. cbn in *. by rewrite IH.
Qed.

(** An entry as RESP3 reads it: a null array has become the one null. *)
Definition entry_read (e : bytes * option (list bytes)) : Value :=
  Array (Some [Bulk (Some e.1);
               match e.2 with Some fields => Array (Some (map (λ f, Bulk (Some f)) fields)) | None => Null end]).

Lemma entries_are_group_entries es :
  entries_value es = group_entries_value (map (λ e, (e.1, Some e.2)) es).
Proof. unfold entries_value, group_entries_value. rewrite map_map. done. Qed.

Lemma entry_read_back e :
  read_back Resp3 (match e.2 with
                   | Some f => entry_value (e.1, f)
                   | None => Array (Some [Bulk (Some e.1); Array None])
                   end) = entry_read e.
Proof.
  destruct e as [id [fields|]]; unfold entry_value, entry_read; cbn [read_back map fst snd]; [|done].
  rewrite map_map. rewrite (map_ext _ (λ f, Bulk (Some f))) by done.
  assert (array_of (map (λ f, Bulk (Some f)) fields) = Array (Some (map (λ f, Bulk (Some f)) fields))) as ->.
  { destruct fields; [done|]. cbn [map]. by rewrite array_of_plain. }
  by rewrite array_of_plain.
Qed.

Lemma entries_read_back es : read_back Resp3 (group_entries_value es) = Array (Some (map entry_read es)).
Proof.
  unfold group_entries_value. cbn [read_back]. rewrite map_map, (map_ext _ _ entry_read_back).
  destruct es as [|[id [fields|]] es]; [done|..]; cbn [map]; rewrite array_of_plain; done.
Qed.

(** The entries of the streams, restored where the command asks for it. *)
Lemma entries_restored es :
  group_entries (Array (Some (map entry_read es))) = group_entries_value es.
Proof.
  unfold group_entries, group_entries_value. rewrite map_map. do 2 f_equal. apply map_ext.
  intros [id [fields|]]; done.
Qed.

Lemma entries_kept es : Forall (λ e, is_Some e.2) es → Array (Some (map entry_read es)) = group_entries_value es.
Proof.
  intros H. unfold group_entries_value. do 2 f_equal. induction H as [|[id o] es [fields Ho] _ IH]; [done|].
  cbn in Ho. subst o. cbn [map]. by rewrite IH.
Qed.

Definition streams_map (found : list (bytes * list (bytes * option (list bytes)))) : Value :=
  VMap (map (λ '(k, es), (Bulk (Some k), group_entries_value es)) found).

Lemma streams_restored args found :
  (∀ k es, (k, es) ∈ found → Forall (λ e, is_Some e.2) es ∨ group_nulls args = true) →
  (if group_nulls args then group_nulls_reply (read_back Resp3 (streams_map found))
   else read_back Resp3 (streams_map found)) = streams_map found.
Proof.
  intros Hf. unfold streams_map. cbn [read_back]. rewrite bool_decide_eq_true_2, map_map by done.
  rewrite (map_ext _ (λ '(k, es), (Bulk (Some k), Array (Some (map entry_read es)))))
    by (intros [k es]; by rewrite <- entries_read_back).
  destruct (group_nulls args) eqn:G.
  - cbn [group_nulls_reply]. rewrite map_map. f_equal. apply map_ext. intros [k es]. by rewrite entries_restored.
  - f_equal. induction found as [|[k es] found IH]; [done|]. cbn [map]. rewrite IH.
    + destruct (Hf k es ltac:(left)) as [He|]; [|done]. by rewrite entries_kept.
    + intros k' es' Hin. apply (Hf k'). by right.
Qed.

(** *** The branch each command takes *)

Section branches.

Variable json_number : Z → option bytes.

Lemma repair_json_type args v :
  first_is resp3_nests_reply args = true →
  repair_reply json_number args v = match v with Array (Some [item]) => Resp3Nested item | other => other end ∧
  null_is_array args = false.
Proof.
  destruct args as [|n args]; [done|]. intros E%same_name_true. split; [|by by_name E].
  unfold repair_reply. by_name E. done.
Qed.

Lemma repair_json_num args v :
  first_is resp3_differs_in_kind args = true → is_error v = false →
  repair_reply json_number args v = ByProto (json_numincrby_resp2 json_number v (args !! 2%nat)) v.
Proof.
  destruct args as [|n args]; [done|]. cbn [first_is]. unfold resp3_differs_in_kind.
  intros [E|E]%orb_true_iff Hv; apply same_name_true in E; unfold repair_reply; by_name E; by rewrite Hv.
Qed.

Lemma repair_hrandfield args v :
  hrandfield_withvalues args = true → repair_reply json_number args v = ByProto (flatten_pairs v) v.
Proof.
  intros H. assert (H' := H). destruct args as [|n [|a [|b [|w [|? ?]]]]]; try done.
  cbn [hrandfield_withvalues] in H. apply andb_true_iff in H as [E%same_name_true _].
  unfold repair_reply. rewrite H'. by_name E. done.
Qed.

Lemma repair_zmpop args v :
  zmpop_reply args = true → repair_reply json_number args v = zmpop_nested v.
Proof.
  intros H. assert (H' := H). destruct args as [|n args]; [done|]. cbn [zmpop_reply] in H.
  apply orb_true_iff in H as [E|E]; apply same_name_true in E; unfold repair_reply; rewrite H'; by_name E;
    destruct args as [|? [|? [|? [|? ?]]]]; done.
Qed.

Lemma repair_geo args v :
  geo_coordinates args = true → repair_reply json_number args v = geo_reply v ∧ null_is_array args = false.
Proof.
  intros H. assert (H' := H). destruct args as [|n args]; [done|].
  apply geo_name in H as (g & Hg & E). unfold repair_reply. rewrite H'.
  unfold geo_names in Hg. repeat apply elem_of_cons in Hg as [->|Hg]; [..|by inversion Hg];
    by_name E; destruct args as [|? [|? [|? [|? ?]]]]; done.
Qed.

Lemma repair_bf_info args v :
  bf_info_field args = true → repair_reply json_number args v = ByProto (bf_info_field_resp2 v) v.
Proof.
  intros H. assert (H' := H). destruct args as [|n [|a [|b [|? ?]]]]; try done.
  apply same_name_true in H. unfold repair_reply. rewrite H'. rewrite (not_geo n "BF.INFO") by done.
  by_name H. done.
Qed.

Lemma repair_xread args v :
  is_xread args = true →
  repair_reply json_number args v =
    (let v := if group_nulls args then group_nulls_reply v else v in
     if is_map v then ByProto (xread_resp2 v) v else v) ∧ null_is_array args = true.
Proof.
  intros H. assert (H' := H). destruct args as [|n args]; [done|]. cbn [is_xread] in H.
  unfold repair_reply. rewrite H'.
  apply orb_true_iff in H as [E|E]; apply same_name_true in E.
  - rewrite (not_geo n "XREAD" args E) by reflexivity.
    split; by_name E; [|done]. destruct args as [|? [|? [|? [|? ?]]]]; done.
  - rewrite (not_geo n "XREADGROUP" args E) by reflexivity.
    split; by_name E; [|done]. destruct args as [|? [|? [|? [|? ?]]]]; done.
Qed.

Lemma repair_none args v : needs_repair args = false → repair_reply json_number args v = v.
Proof.
  unfold needs_repair, repair_reply. rewrite !orb_false_iff. intros ((((((H1 & H2) & H3) & H4) & H5) & H6) & H7).
  assert (first_is resp3_nests_reply args = false ∧ first_is resp3_differs_in_kind args = false) as [-> ->].
  { destruct args as [|n args]; [done|]. by apply orb_false_iff in H1. }
  by rewrite H2, H3, H4, H5, H6, H7.
Qed.

(** A null is one before and after the repair. *)
Lemma repair_to_null args v : repair_reply json_number args v = Null → v = Null.
Proof.
  unfold repair_reply. destruct (first_is resp3_nests_reply args).
  { destruct v as [| | | | |[[|? [|? ?]]|]| | | | | | | | |]; done. }
  destruct (first_is resp3_differs_in_kind args && negb (is_error v)); [done|].
  destruct (hrandfield_withvalues args); [done|]. destruct (zmpop_reply args).
  { destruct v as [| | | | |[[|? [|[] [|? ?]]]|]| | | | | | | | |]; done. }
  destruct (geo_coordinates args); [destruct v as [| | | | |[|]| | | | | | | | |]; done|].
  destruct (bf_info_field args); [done|]. destruct (group_nulls args); cbv zeta.
  - destruct (is_xread args && is_map _); [done|].
    destruct v as [| | | | |[[|[] [|? [|? [|? [|? ?]]]]]|]| | | | | | | | |]; done.
  - by destruct (is_xread args && is_map v).
Qed.

Lemma repair_of_null args : null_is_array args = true → repair_reply json_number args Null = Null.
Proof.
  intros Hn. unfold repair_reply.
  assert (first_is resp3_differs_in_kind args = false) as ->.
  { destruct args as [|n args]; [done|]. apply not_true_is_false. intros H. revert Hn. cbn [first_is] in H.
    unfold resp3_differs_in_kind in H. apply orb_true_iff in H as [E|E]; apply same_name_true in E; by by_name E. }
  assert (hrandfield_withvalues args = false) as ->.
  { apply not_true_is_false. intros H. revert Hn. destruct args as [|n [|a [|b [|w [|? ?]]]]]; try done.
    cbn [hrandfield_withvalues] in H. apply andb_true_iff in H as [E%same_name_true _]. by by_name E. }
  assert (bf_info_field args = false) as ->.
  { apply not_true_is_false. intros H. revert Hn. destruct args as [|n [|a [|b [|? ?]]]]; try done.
    apply same_name_true in H. by by_name H. }
  destruct (first_is resp3_nests_reply args), (zmpop_reply args), (geo_coordinates args), (group_nulls args);
    cbn; rewrite ?andb_false_r; done.
Qed.

(** An item of EXEC's reply is restored as the reply outside a transaction. *)
Lemma exec_as_outside args v :
  exec_item json_number (null_is_array args) (if needs_repair args then Some args else None) (Some v) =
  null_as_array args (repair_reply json_number args v).
Proof.
  assert (null_as_array args v = v ∨ v = Null ∧ null_is_array args = true) as [Hv|[-> Hn]].
  - destruct (null_is_array args) eqn:Hn; unfold null_as_array; rewrite Hn; destruct v; auto.
  - transitivity (repair_reply json_number args v).
    + unfold exec_item. destruct v; try (destruct (needs_repair args) eqn:Hr; [done|by rewrite repair_none]).
      destruct (null_is_array args) eqn:Hn; [unfold null_as_array in Hv; by rewrite Hn in Hv|].
      destruct (needs_repair args) eqn:Hr; [done|by rewrite repair_none].
    + unfold null_as_array at 1. destruct (repair_reply json_number args v) eqn:Hr; try done.
      rewrite (repair_to_null _ _ Hr) in Hv. cbn in Hv. by destruct (null_is_array args).
  - rewrite repair_of_null by done. cbn. by rewrite Hn.
Qed.

End branches.

(** ** Transactions *)

Section transaction.

Variable json_number : Z → option bytes.

(** The commands of a transaction: one the proxy answers itself, or one the
    seat answers. *)
Definition command : Type := Value + list bytes * Value.

Definition queued_of (c : command) : Queued :=
  match c with inl v => QLocal v | inr (args, _) => queue args end.
Definition answer_of (c : command) : Value := match c with inl v => v | inr (_, v) => v end.
Definition seat_answers (cs : list command) : list Value :=
  flat_map (λ c, match c with inl _ => [] | inr (_, v) => [v] end) cs.

Lemma seat_answers_count cs :
  length (seat_answers cs) = length (List.filter is_backend (map queued_of cs)).
Proof. induction cs as [|[v|[args v]] cs IH]; [done|done|]. cbn. by f_equal. Qed.

(** Each item is restored as it is outside a transaction. *)
Lemma exec_items_restored p cs :
  Forall (λ c, match c with
               | inl _ => True
               | inr (args, v) => proxied json_number p args v = encode_proto p v
               end) cs →
  length (exec_items json_number (map queued_of cs) (map (read_back Resp3) (seat_answers cs))) = length cs ∧
  flat_map (encode_proto p) (exec_items json_number (map queued_of cs) (map (read_back Resp3) (seat_answers cs))) =
  flat_map (encode_proto p) (map answer_of cs).
Proof.
  induction 1 as [|[v|[args v]] cs Hc _ [IHl IH]]; [done|..].
  - cbn [map seat_answers flat_map queued_of exec_items length app answer_of] in *.
    fold (seat_answers cs) in *. rewrite IH. split; [by f_equal|done].
  - cbn [map seat_answers flat_map queued_of queue exec_items head tail length app answer_of] in *.
    fold (seat_answers cs) in *. rewrite exec_as_outside, IH. split; [by f_equal|]. f_equal. exact Hc.
Qed.

End transaction.

(** ** The replies through the proxy *)

Section restored.

Variable json_number : Z → option bytes.

Lemma json_items_read items :
  Forall json_match items → read_back Resp3 (Array (Some items)) = Array (Some items).
Proof.
  intros H. cbn [read_back]. assert (map (read_back Resp3) items = items) as ->.
  { induction H as [|v items Hv _ IH]; [done|]. cbn [map]. rewrite IH. by destruct v. }
  destruct H as [|v items Hv _]; [done|]. rewrite array_of_plain; [done|by destruct v].
Qed.

Lemma per_stream_map (f : list (bytes * option (list bytes)) → Value) found :
  found ≠ [] →
  per_stream (map (λ '(k, es), (k, f es)) found) =
  ByProto (Array (Some (map (λ '(k, es), Array (Some [Bulk (Some k); f es])) found)))
    (VMap (map (λ '(k, es), (Bulk (Some k), f es)) found)).
Proof.
  intros Hf. destruct found as [|x found]; [done|]. unfold per_stream. cbn [map].
  destruct x as [k es]. rewrite !map_map.
  rewrite (map_ext _ (λ '(k, es), Array (Some [Bulk (Some k); f es]))) by (by intros []).
  rewrite (map_ext _ (λ '(k, es), (Bulk (Some k), f es))) by (by intros []). done.
Qed.

Lemma restored args v : seat_reply json_number args v → ∀ p, proxied json_number p args v = encode_proto p v.
Proof.
  intros H p. unfold proxied. destruct H.
  - destruct (repair_json_type json_number args (read_back Resp3 (Resp3Nested v)) H) as [-> _].
    cbn [read_back]. rewrite bool_decide_eq_true_2, array_of_plain by done. cbn [null_as_array encode_proto].
    destruct p; cbn; [by rewrite encode_downgraded|by rewrite encode_again].
  - cbn [read_back]. rewrite bool_decide_eq_true_2 by done.
    change (array_of (map (read_back Resp3) items)) with (read_back Resp3 (Array (Some items))).
    rewrite json_items_read, repair_json_num by done. done.
  - destruct (hrandfield_restored pairs) as [Hn Hf]. cbn [read_back] in *.
    rewrite bool_decide_eq_true_2, Hn, repair_hrandfield, Hf by done. done.
  - rewrite repair_zmpop, zmpop_restored by done. done.
  - destruct (repair_geo json_number args (read_back Resp3 (Array (Some items))) H) as [-> _].
    rewrite <- geo_restored by done. f_equal. destruct H0 as [_ Ha]. cbn [read_back]. by rewrite Ha.
  - cbn [read_back]. rewrite bool_decide_eq_true_2, repair_bf_info by done.
    cbn [map bf_info_field_resp2 null_as_array]. destruct p; cbn [encode_proto flat_map length].
    + change (bool_decide (Resp2 = Resp3)) with false. cbv iota. by rewrite encode_downgraded.
    + change (bool_decide (Resp3 = Resp3)) with true. cbv iota.
      cbn [read_back encode_proto]. by rewrite push_line_idem, encode_again.
  - destruct (decide (found = [])) as [->|Hne].
    { destruct (repair_xread json_number args (read_back Resp3 (Array None)) H) as [Hr Hn].
      change (per_stream (map _ [])) with (Array None). rewrite Hr. cbn [read_back].
      rewrite bool_decide_eq_true_2 by done. destruct (group_nulls args); cbn; by rewrite Hn. }
    rewrite per_stream_map by done. cbn [read_back]. rewrite bool_decide_eq_true_2 by done.
    destruct (repair_xread json_number args (read_back Resp3 (streams_map found)) H) as [Hr _].
    change (VMap (map (λ '(k, x), (read_back Resp3 k, read_back Resp3 x))
      (map (λ '(k, es), (Bulk (Some k), group_entries_value es)) found))) with (read_back Resp3 (streams_map found)).
    rewrite Hr. cbv zeta. rewrite streams_restored by done. unfold streams_map. cbn [is_map xread_resp2 null_as_array].
    rewrite map_map. rewrite (map_ext _ (λ '(k, es), Array (Some [Bulk (Some k); group_entries_value es]))) by (by intros []).
    done.
  - rewrite repair_none by done. cbn [read_back]. rewrite bool_decide_eq_true_2 by done.
    cbn [null_as_array]. by rewrite H.
  - rewrite repair_none by done.
    assert (null_as_array args (read_back Resp3 v) = read_back Resp3 v) as ->.
    { unfold null_as_array. destruct (read_back Resp3 v); try done. destruct (null_is_array args); [|done].
      by destruct (H2 eq_refl). }
    destruct p; [by apply encode_downgraded|by apply encode_again].
Qed.

End restored.

(** * Properties *)





(** C35. A transaction of bare pops loses its shape: [ZPOPMIN key] answers a
    member and a double, an array of nothing but such answers decodes as a
    scored result, EXEC's own arm does not take it, and a RESP2 client reads
    one flat array of members and scores where the seat answered one pair per
    command. *)
Theorem exec_of_bare_pops_is_flattened json_number queued (popped : list (bytes * Z)) :
  popped ≠ [] →
  let reply := Array (Some (map (λ '(m, s), Array (Some [Bulk (Some m); Double s])) popped)) in
  exec_reply json_number queued (read_back Resp3 reply) = ScorePairs popped ∧
  encode_proto Resp2 (exec_reply json_number queued (read_back Resp3 reply)) =
    line T_ARRAY (dec (length popped * 2)) ++ flat_map (λ '(m, s), bulk m ++ bulk (fmt_double s)) popped ∧
  encode_proto Resp2 reply =
    line T_ARRAY (dec (length popped)) ++
    flat_map (λ '(m, s), line T_ARRAY (dec 2) ++ bulk m ++ bulk (fmt_double s)) popped.
Proof.
  intros Hp reply.
  assert (read_back Resp3 reply = ScorePairs popped) as ->.
  { subst reply. cbn [read_back].
    replace (map (read_back Resp3) (map (λ '(m, s), Array (Some [Bulk (Some m); Double s])) popped))
      with (map (λ ms : bytes * Z, Array (Some [Bulk (Some ms.1); Double ms.2])) popped)
      by (rewrite map_map; apply map_ext; by intros []).
    rewrite array_of_scores. by destruct popped. }
  split; [done|]. split.
  - cbn [exec_reply encode_proto]. f_equal.
  - subst reply. cbn [encode_proto]. rewrite length_map, flat_map_concat_map, map_map, <- flat_map_concat_map.
    f_equal. apply flat_map_ext. intros [m s]. cbn. by rewrite app_nil_r.
Qed.

Lemma exec_of_bare_pops_is_flattened_witness :
  encode_proto Resp2 (exec_reply (λ _, None) [queue [bstr "zpopmin"; bstr "z"]]
                        (read_back Resp3 (Array (Some [Array (Some [Bulk (Some (bstr "a")); Double 0])])))) =
  bstr "*2" ++ CRLF ++ bstr "$1" ++ CRLF ++ bstr "a" ++ CRLF ++ bstr "$1" ++ CRLF ++ bstr "0" ++ CRLF.
Proof.
  destruct (exec_of_bare_pops_is_flattened (λ _, None) [queue [bstr "zpopmin"; bstr "z"]] [(bstr "a", 0)])
    as (_ & E & _); [discriminate|]. etransitivity; [exact E|]. vm_compute. reflexivity.
Defined.
