(* ===== verification/Slot.v ===== *)
(** * Slots (src/crates/flint-slot/src/lib.rs)

    The key to slot mapping (CRC16 over the hash tag), the interval maps of
    routing, and the default owner of a slot. *)

From stdpp Require Import base list sorting strings.
From Stdlib Require Import ZArith Lia.
From S2P Require Import Prelude.

Module Slot.

Definition SLOT_COUNT : Z := 16384.

(** ** CRC16 *)

(** One turn of the inner loop. *)
Definition crc_shift (crc : Z) : Z :=
  if negb (Z.land crc 0x8000 =? 0) then Z.lxor (u16 (Z.shiftl crc 1)) 0x1021 else u16 (Z.shiftl crc 1).

Fixpoint crc_shifts (n : nat) (crc : Z) : Z :=
  match n with O => crc | S n' => crc_shifts n' (crc_shift crc) end.

Definition crc_byte (crc : Z) (b : byte) : Z := crc_shifts 8 (Z.lxor crc (u16 (Z.shiftl (b2z b) 8))).

Definition crc16 (data : bytes) : Z := fold_left crc_byte data 0.

(** ** Keys *)

Definition BRACE_OPEN : byte := Byte.x7b.
Definition BRACE_CLOSE : byte := Byte.x7d.

(** [iter().position(|&b| b == c)]. *)
Fixpoint position (c : byte) (l : bytes) : option nat :=
  match l with
  | [] => None
  | b :: l' => if Byte.eqb b c then Some O else option_map S (position c l')
  end.

Definition hash_tag (key : bytes) : bytes :=
  match position BRACE_OPEN key with
  | Some open =>
      match position BRACE_CLOSE (drop (S open) key) with
      | Some (S close_rel) => sub key (S open) (S close_rel)
      | _ => key
      end
  | None => key
  end.

Definition slot_for_key (key : bytes) : Z := crc16 (hash_tag key) mod SLOT_COUNT.

(** ** Interval maps *)

(** [(lo, hi, index)]. *)
Definition entry : Type := Z * Z * Z.

Record SlotIntervals := mkIntervals { si_entries : list entry }.

Definition single (index : Z) : SlotIntervals := mkIntervals [(0, SLOT_COUNT - 1, index)].

(** The order of tuples. *)
Definition entry_le (a b : entry) : Prop :=
  a.1.1 < b.1.1 ∨ a.1.1 = b.1.1 ∧ (a.1.2 < b.1.2 ∨ a.1.2 = b.1.2 ∧ a.2 <= b.2).

#[global] Instance entry_le_dec : RelDecision entry_le.
Proof. intros a b. unfold entry_le. apply _. Defined.

(** The loop over the sorted entries: each is an interval of the slot space
    and ends before the next begins. *)
Fixpoint entries_ok (es : list entry) : bool :=
  match es with
  | [] => true
  | (lo, hi, _) :: es' =>
      if (hi <? lo) || (SLOT_COUNT <=? hi) then false
      else
        match es' with
        | (next_lo, _, _) :: _ => if next_lo <=? hi then false else entries_ok es'
        | [] => true
        end
  end.

Definition from_entries (entries : list entry) : option SlotIntervals :=
  let sorted := merge_sort entry_le entries in
  if entries_ok sorted then Some (mkIntervals sorted) else None.

(** [partition_point(|&(lo, _, _)| lo <= slot)] of entries sorted by [lo]. *)
Fixpoint partition_point (slot : Z) (es : list entry) : nat :=
  match es with
  | (lo, _, _) :: es' => if lo <=? slot then S (partition_point slot es') else O
  | [] => O
  end.

Definition lookup (slot : Z) (m : SlotIntervals) : option Z :=
  match partition_point slot (si_entries m) with
  | O => None
  | S i =>
      match si_entries m !! i with
      | Some (lo, hi, idx) => if (lo <=? slot) && (slot <=? hi) then Some idx else None
      | None => None
      end
  end.

Definition U16_MAX : Z := 65535.

(** [for s in lo..=hi { d[s] = idx }]. *)
Fixpoint fill (n : nat) (from : nat) (idx : Z) (d : list Z) : list Z :=
  match n with
  | O => d
  | S n' => fill n' (S from) idx (<[from := idx]> d)
  end.

Definition dense (m : SlotIntervals) : list Z :=
  fold_left (λ d '(lo, hi, idx), fill (Z.to_nat (hi - lo + 1)) (Z.to_nat lo) idx d)
    (si_entries m) (replicate (Z.to_nat SLOT_COUNT) U16_MAX).

(** ** The default owner *)

Definition in_slot_range (slot : Z) (r : option (Z * Z)) : bool :=
  match r with Some (a, b) => (a <=? slot) && (slot <=? b) | None => false end.

(** [iter().position(p)]. *)
Fixpoint position_of {A} (p : A → bool) (l : list A) : option nat :=
  match l with
  | [] => None
  | x :: l' => if p x then Some O else option_map S (position_of p l')
  end.

Definition is_ranged (r : option (Z * Z)) : bool := match r with Some _ => true | None => false end.

Definition default_pair (slot : Z) (ranges : list (option (Z * Z))) (pair_count : nat) : option nat :=
  match pair_count with
  | O => None
  | _ =>
      match position_of (in_slot_range slot) ranges with
      | Some i => Some i
      | None =>
          let ranged := length (List.filter is_ranged ranges) in
          let n := if (0 <? ranged)%nat then ranged else pair_count in
          Some (Z.to_nat (slot * Z.of_nat n / 16384))
      end
  end.

(** ** CRC16 is polynomial division *)

(** The bits of a byte, most significant first. *)
Definition bits8 (b : Z) : list bool := map (λ i, Z.testbit b i) [7; 6; 5; 4; 3; 2; 1; 0].

(** Long division of a bit string by x^16 + x^12 + x^5 + 1: bring the next bit
    down, and subtract the divisor when the remainder has its degree. *)
Definition divide_bit (r : Z) (b : bool) : Z :=
  let r' := Z.lor (Z.shiftl r 1) (Z.b2z b) in
  if Z.testbit r' 16 then Z.lxor r' 0x11021 else r'.

Definition remainder (bits : list bool) : Z := fold_left divide_bit bits 0.

(** The message, and sixteen zeros for the remainder to come out of. *)
Definition crc_spec (data : bytes) : Z :=
  remainder (flat_map (λ b, bits8 (b2z b)) data ++ repeat false 16).

Lemma u16_bits x n : 0 <= n → Z.testbit (u16 x) n = (n <? 16) && Z.testbit x n.
Proof.
  intros Hn. unfold wrap. destruct (Z.ltb_spec n 16); simpl.
  - by rewrite Z.mod_pow2_bits_low by lia.
  - by rewrite Z.mod_pow2_bits_high by lia.
Qed.

Lemma crc_shift_eq x :
  crc_shift x = Z.lxor (u16 (Z.shiftl x 1)) (if Z.testbit x 15 then 0x1021 else 0).
Proof.
  unfold crc_shift. assert (Z.land x 0x8000 = if Z.testbit x 15 then 2 ^ 15 else 0) as ->.
  { apply Z.bits_inj'. intros n Hn. rewrite Z.land_spec. change 0x8000 with (2 ^ 15).
    rewrite Z.pow2_bits_eqb by lia. destruct (Z.eqb_spec 15 n) as [<-|].
    - destruct (Z.testbit x 15); [done|]. by rewrite Z.bits_0.
    - rewrite andb_false_r. destruct (Z.testbit x 15); [rewrite Z.pow2_bits_false by lia|rewrite Z.bits_0]; done. }
  destruct (Z.testbit x 15); [done|]. by rewrite Z.lxor_0_r.
Qed.

Lemma crc_shift_lxor x y : crc_shift (Z.lxor x y) = Z.lxor (crc_shift x) (crc_shift y).
Proof.
  rewrite !crc_shift_eq, Z.lxor_spec.
  assert (u16 (Z.shiftl (Z.lxor x y) 1) = Z.lxor (u16 (Z.shiftl x 1)) (u16 (Z.shiftl y 1))) as ->.
  { apply Z.bits_inj'. intros n Hn. rewrite Z.lxor_spec, !u16_bits, Z.shiftl_lxor, Z.lxor_spec by lia.
    by destruct (n <? 16). }
  set (a := u16 (Z.shiftl x 1)). set (b := u16 (Z.shiftl y 1)).
  destruct (Z.testbit x 15), (Z.testbit y 15); cbn [xorb];
    apply Z.bits_inj'; intros n Hn; rewrite !Z.lxor_spec, ?Z.bits_0;
    destruct (Z.testbit a n), (Z.testbit b n), (Z.testbit 0x1021 n); done.
Qed.

Lemma crc_shifts_lxor n x y : crc_shifts n (Z.lxor x y) = Z.lxor (crc_shifts n x) (crc_shifts n y).
Proof. revert x y. induction n as [|n IH]; intros x y; [done|]. cbn. by rewrite crc_shift_lxor, IH. Qed.

Lemma crc_shifts_add n m x : crc_shifts (n + m) x = crc_shifts m (crc_shifts n x).
Proof. revert x. induction n as [|n IH]; intros x; [done|]. cbn. apply IH. Qed.

Lemma lxor_width x y : in_width 16 x → in_width 16 y → in_width 16 (Z.lxor x y).
Proof.
  unfold in_width. intros Hx Hy. split; [apply Z.lxor_nonneg; lia|].
  destruct (Z.eq_dec (Z.lxor x y) 0) as [->|Hne]; [done|].
  assert (0 <= Z.lxor x y) by (apply Z.lxor_nonneg; lia).
  apply Z.log2_lt_pow2; [lia|]. eapply Z.le_lt_trans; [apply Z.log2_lxor; lia|].
  apply Z.max_lub_lt; [destruct (Z.eq_dec x 0) as [->|]|destruct (Z.eq_dec y 0) as [->|]];
    try done; apply Z.log2_lt_pow2; lia.
Qed.

Lemma crc_shift_width x : in_width 16 (crc_shift x).
Proof.
  rewrite crc_shift_eq. apply lxor_width; [apply Z.mod_pos_bound; done|]. by destruct (Z.testbit x 15).
Qed.

Lemma crc_shifts_width n x : in_width 16 x → in_width 16 (crc_shifts n x).
Proof. revert x. induction n as [|n IH]; intros x Hx; [done|]. apply IH, crc_shift_width. Qed.

(** Eight turns shift a byte up. *)
Lemma crc_shifts_byte b : crc_shifts 8 (b2z b) = u16 (Z.shiftl (b2z b) 8).
Proof. destruct b; reflexivity. Qed.

Lemma crc_shifts_zero n : crc_shifts n 0 = 0.
Proof. induction n as [|n IH]; [reflexivity|]. exact IH. Qed.

#[local] Opaque crc_shift.

(** Bringing a bit down is a turn of the loop with the bit added. *)
Lemma divide_bit_eq r b : in_width 16 r → divide_bit r b = Z.lxor (crc_shift r) (Z.b2z b).
Proof.
  intros Hr. unfold divide_bit. rewrite crc_shift_eq.
  assert (Hb : ∀ n, 0 < n → Z.testbit (Z.b2z b) n = false).
  { intros n Hn. destruct b; [|apply Z.bits_0]. change (Z.b2z true) with (2 ^ 0). apply Z.pow2_bits_false. lia. }
  assert (H0 : Z.testbit (Z.shiftl r 1) 0 = false) by (apply Z.shiftl_spec_low; lia).
  assert (Hh : ∀ n, 16 < n → Z.testbit (Z.shiftl r 1) n = false).
  { intros n Hn. rewrite Z.shiftl_spec by lia. destruct (Z.eq_dec r 0) as [->|]; [apply Z.bits_0|].
    apply Z.bits_above_log2; [unfold in_width in Hr; lia|]. unfold in_width in Hr.
    assert (Z.log2 r < 16) by (apply Z.log2_lt_pow2; lia). lia. }
  rewrite Z.lor_spec, Hb, orb_false_r, Z.shiftl_spec by lia. change (16 - 1) with 15.
  destruct (Z.testbit r 15) eqn:E; apply Z.bits_inj'; intros n Hn;
    rewrite ?Z.lxor_spec, ?Z.lor_spec, ?u16_bits, ?Z.bits_0 by lia.
  - change 0x11021 with (Z.lxor (2 ^ 16) 0x1021). rewrite Z.lxor_spec, Z.pow2_bits_eqb by lia.
    destruct (Z.eq_dec n 0) as [->|]; [by rewrite H0; destruct b|]. rewrite Hb by lia.
    destruct (Z.ltb_spec n 16), (Z.eqb_spec 16 n); try lia; cbn [andb].
    + by rewrite orb_false_r, !xorb_false_r, xorb_false_l.
    + subst n. rewrite Z.shiftl_spec by lia. change (16 - 1) with 15. by rewrite E.
    + rewrite Hh by lia. by destruct (Z.testbit 4129 n).
  - destruct (Z.eq_dec n 0) as [->|]; [by rewrite H0; destruct b|]. rewrite Hb by lia.
    destruct (Z.ltb_spec n 16); cbn [andb].
    + by rewrite orb_false_r, !xorb_false_r.
    + destruct (Z.eq_dec n 16) as [->|].
      * rewrite Z.shiftl_spec by lia. change (16 - 1) with 15. by rewrite E.
      * by rewrite Hh by lia.
Qed.

Lemma divide_width r bits : in_width 16 r → in_width 16 (fold_left divide_bit bits r).
Proof.
  revert r. induction bits as [|b bits IH]; intros r Hr; [done|]. cbn. apply IH.
  rewrite divide_bit_eq by done. apply lxor_width; [apply crc_shift_width|by destruct b].
Qed.

Lemma divide_linear bits r :
  in_width 16 r →
  fold_left divide_bit bits r = Z.lxor (crc_shifts (length bits) r) (fold_left divide_bit bits 0).
Proof.
  revert r. induction bits as [|b bits IH]; intros r Hr; cbn [fold_left length crc_shifts].
  { by rewrite Z.lxor_0_r. }
  assert (Hb : in_width 16 (Z.b2z b)) by (by destruct b).
  rewrite !divide_bit_eq by done. rewrite (crc_shifts_zero 1 : crc_shift 0 = 0), Z.lxor_0_l.
  rewrite IH by (apply lxor_width; [apply crc_shift_width|done]). rewrite (IH (Z.b2z b)) by done.
  by rewrite crc_shifts_lxor, Z.lxor_assoc.
Qed.

(** A byte is its own remainder. *)
Lemma bits8_remainder b : fold_left divide_bit (bits8 (b2z b)) 0 = b2z b.
Proof. destruct b; reflexivity. Qed.

Lemma byte_width16 b : in_width 16 (b2z b).
Proof. pose proof (b2z_range b). unfold in_width. lia. Qed.

(** The register of the code is the remainder with sixteen zeros brought
    down. *)
Lemma crc_byte_step r b :
  in_width 16 r →
  crc_byte (crc_shifts 16 r) b = crc_shifts 16 (fold_left divide_bit (bits8 (b2z b)) r).
Proof.
  intros Hr. rewrite divide_linear, bits8_remainder, crc_shifts_lxor by done. unfold crc_byte.
  rewrite crc_shifts_lxor, <- crc_shifts_byte. change (length (bits8 (b2z b))) with 8%nat.
  rewrite <- !crc_shifts_add, (Nat.add_comm 16 8). change (8 + 8)%nat with 16%nat. reflexivity.
Qed.

Lemma fold_left_cons {A B} (f : A → B → A) x l a : fold_left f (x :: l) a = fold_left f l (f a x).
Proof. reflexivity. Qed.

Lemma flat_map_cons {A B} (f : A → list B) x l : flat_map f (x :: l) = f x ++ flat_map f l.
Proof. reflexivity. Qed.

Lemma crc16_loop data r :
  in_width 16 r →
  fold_left crc_byte data (crc_shifts 16 r) =
  crc_shifts 16 (fold_left divide_bit (flat_map (λ b, bits8 (b2z b)) data) r).
Proof.
  revert r. induction data as [|b data IH]; intros r Hr; [reflexivity|].
  rewrite flat_map_cons, fold_left_cons, fold_left_app, (crc_byte_step r b Hr).
  exact (IH _ (divide_width r _ Hr)).
Qed.

Lemma crc16_remainder data : crc16 data = crc_spec data.
Proof.
  unfold crc16, crc_spec, remainder. rewrite <- (crc_shifts_zero 16) at 1.
  assert (H0 : in_width 16 0) by (unfold in_width; lia).
  rewrite (crc16_loop data 0 H0), fold_left_app.
  pose proof (divide_width 0 (flat_map (λ b, bits8 (b2z b)) data) H0) as Hr.
  set (r := fold_left divide_bit (flat_map _ data) 0) in *.
  rewrite (divide_linear (repeat false 16) r Hr).
  assert (fold_left divide_bit (repeat false 16) 0 = 0) as -> by (vm_compute; reflexivity).
  change (length (repeat false 16)) with 16%nat. rewrite Z.lxor_0_r. reflexivity.
Qed.

Lemma crc16_width data : in_width 16 (crc16 data).
Proof. rewrite crc16_remainder. by apply divide_width. Qed.

(** ** Hash tags *)

Lemma position_app c a b : c ∉ a → position c (a ++ c :: b) = Some (length a).
Proof.
  induction a as [|x a IH]; intros Ha; cbn.
  - by rewrite (Byte.byte_dec_lb eq_refl).
  - apply not_elem_of_cons in Ha as [Hx Ha]. destruct (Byte.eqb x c) eqn:E.
    { apply Byte.byte_dec_bl in E. congruence. }
    by rewrite IH.
Qed.

Lemma hash_tag_found pre tag post :
  BRACE_OPEN ∉ pre → BRACE_CLOSE ∉ tag → tag ≠ [] →
  hash_tag (pre ++ BRACE_OPEN :: tag ++ BRACE_CLOSE :: post) = tag.
Proof.
  intros Hp Ht Hne. unfold hash_tag. rewrite position_app by done.
  assert (drop (S (length pre)) (pre ++ BRACE_OPEN :: tag ++ BRACE_CLOSE :: post) = tag ++ BRACE_CLOSE :: post) as Hd.
  { rewrite <- Nat.add_1_r, <- drop_drop, drop_app_length. done. }
  rewrite Hd, position_app by done. destruct tag as [|x tag]; [done|]. cbn [length].
  unfold sub. rewrite Hd. exact (take_app_length (x :: tag) _).
Qed.

(** ** Interval maps *)

Definition covers (slot : Z) (e : entry) : Prop := e.1.1 <= slot <= e.1.2.
#[global] Instance covers_dec slot e : Decision (covers slot e).
Proof. unfold covers. apply _. Defined.

Definition interval_ok (e : entry) : Prop := e.1.1 <= e.1.2 < SLOT_COUNT.

(** A map is one when its entries are intervals of the slot space and no slot
    is in two of them. *)
Definition valid_map (es : list entry) : Prop :=
  Forall interval_ok es ∧ ∀ slot, (length (filter (covers slot) es) ≤ 1)%nat.

(** The owner of a slot, if an entry covers it. *)
Fixpoint owner (slot : Z) (es : list entry) : option Z :=
  match es with
  | [] => None
  | e :: es' => if decide (covers slot e) then Some e.2 else owner slot es'
  end.

Definition ends_before (a b : entry) : Prop := a.1.2 < b.1.1.

#[global] Instance entry_le_total : Total entry_le.
Proof. intros [[a b] c] [[d e] f]. unfold entry_le. simpl. lia. Qed.
#[global] Instance entry_le_trans : Transitive entry_le.
Proof. intros [[a b] c] [[d e] f] [[g h] i]. unfold entry_le. simpl. lia. Qed.
#[global] Instance entry_le_antisym : AntiSymm (=) entry_le.
Proof.
  intros [[a b] c] [[d e] f]. unfold entry_le. simpl. intros H1 H2.
  assert (a = d ∧ b = e ∧ c = f) as (-> & -> & ->) by lia. done.
Qed.

Lemma ends_before_all e es :
  Forall interval_ok (e :: es) → Sorted ends_before (e :: es) → Forall (ends_before e) es.
Proof.
  revert e. induction es as [|f es IH]; intros e Ho Hs; [done|].
  apply Sorted_inv in Hs as [Hs He]. apply HdRel_inv in He.
  apply Forall_cons in Ho as [Hoe Ho]. constructor; [done|].
  eapply Forall_impl; [by apply IH|]. intros g Hg. apply Forall_cons in Ho as [Hof _].
  unfold ends_before, interval_ok in *. lia.
Qed.

Lemma entries_ok_spec es :
  entries_ok es = true ↔ Forall interval_ok es ∧ Sorted ends_before es.
Proof.
  induction es as [|[[lo hi] i] es IH]; [by split|]. cbn [entries_ok].
  destruct (Z.ltb_spec hi lo), (Z.leb_spec SLOT_COUNT hi); cbn [orb];
    try (split; [done|]; intros [Ho _]; apply Forall_cons in Ho as [Ho _]; unfold interval_ok in Ho; simpl in Ho; lia).
  assert (interval_ok (lo, hi, i)) by (unfold interval_ok; simpl; lia).
  destruct es as [|[[nlo nhi] ni] es].
  { split; [|done]. intros _. split; [by constructor|]. repeat constructor. }
  destruct (Z.leb_spec nlo hi).
  - split; [done|]. intros [_ Hs]. apply Sorted_inv in Hs as [_ Hs]. apply HdRel_inv in Hs.
    unfold ends_before in Hs. simpl in Hs. lia.
  - rewrite IH, (Forall_cons _ (lo, hi, i)). split.
    + intros [? ?]. split; [done|]. constructor; [done|]. constructor. unfold ends_before. simpl. lia.
    + intros [[_ ?] [? _]%Sorted_inv]. done.
Qed.

(** In order and apart, an entry that covers a slot is the only one. *)
Lemma covers_later slot e es :
  Forall (ends_before e) es → Forall interval_ok es → covers slot e → filter (covers slot) es = [].
Proof.
  intros Hb Ho Hc. induction Hb as [|f es Hf _ IH]; [done|]. apply Forall_cons in Ho as [Hof Ho].
  rewrite filter_cons_False; [by apply IH|]. unfold covers, ends_before in *. lia.
Qed.

Lemma sorted_valid es : Forall interval_ok es → Sorted ends_before es → valid_map es.
Proof.
  intros Ho Hs. split; [done|]. intros slot. induction es as [|e es IH]; [simpl; lia|].
  pose proof (ends_before_all _ _ Ho Hs) as Hb. apply Forall_cons in Ho as [Hoe Ho].
  apply Sorted_inv in Hs as [Hs _]. rewrite filter_cons. case_decide as Hc; [|by apply IH].
  rewrite (covers_later slot e) by done. simpl. lia.
Qed.

Lemma valid_sorted es : Sorted entry_le es → valid_map es → Sorted ends_before es.
Proof.
  intros Hs [Ho Hv]. induction es as [|e es IH]; [constructor|].
  apply Sorted_inv in Hs as [Hs He]. pose proof Ho as [Hoe Ho']%Forall_cons. constructor.
  - apply IH; [done|done|]. intros slot. specialize (Hv slot). rewrite filter_cons in Hv.
    case_decide; simpl in Hv; lia.
  - destruct es as [|f es]; [constructor|]. constructor. apply HdRel_inv in He.
    apply Forall_cons in Ho' as [Hof _]. destruct (Z.lt_ge_cases e.1.2 f.1.1) as [|Hn]; [done|]. exfalso.
    specialize (Hv f.1.1). rewrite !filter_cons_True in Hv; [simpl in Hv; lia|..];
      unfold covers, ends_before, entry_le, interval_ok in *; lia.
Qed.

Lemma valid_map_perm es es' : es ≡ₚ es' → valid_map es → valid_map es'.
Proof.
  intros Hp [Ho Hv]. split; [by rewrite <- Hp|]. intros slot. specialize (Hv slot). by rewrite Hp in Hv.
Qed.

Lemma from_entries_valid es :
  match from_entries es with
  | Some m => si_entries m ≡ₚ es ∧ valid_map es ∧ Forall interval_ok (si_entries m) ∧
              Sorted ends_before (si_entries m)
  | None => ¬ valid_map es
  end.
Proof.
  unfold from_entries. pose proof (merge_sort_Permutation entry_le es) as Hp.
  pose proof (Sorted_merge_sort entry_le es) as Hs. set (l := merge_sort entry_le es) in *.
  destruct (entries_ok l) eqn:E.
  - apply entries_ok_spec in E as [Ho Hb]. simpl. split_and!; try done.
    eapply valid_map_perm; [exact Hp|]. by apply sorted_valid.
  - intros Hv. apply (valid_map_perm _ l) in Hv; [|done].
    assert (entries_ok l = true); [|congruence]. apply entries_ok_spec. split; [apply Hv|by apply valid_sorted].
Qed.

Lemma from_entries_perm es es' : es ≡ₚ es' → from_entries es = from_entries es'.
Proof.
  intros Hp. unfold from_entries. assert (merge_sort entry_le es = merge_sort entry_le es') as ->; [|done].
  apply (StronglySorted_unique entry_le); try apply (StronglySorted_merge_sort entry_le).
  by rewrite !merge_sort_Permutation.
Qed.

(** ** Lookups *)

Lemma owner_beyond slot es : Forall (λ e, slot < e.1.1) es → owner slot es = None.
Proof.
  induction 1 as [|e es He _ IH]; [done|]. cbn [owner]. rewrite decide_False; [done|]. unfold covers. lia.
Qed.

Lemma owner_covered slot e es :
  Forall (ends_before e) es → Forall interval_ok es → covers slot e → owner slot es = None.
Proof.
  intros Hb Ho Hc. apply owner_beyond. eapply Forall_impl; [exact Hb|]. unfold ends_before, covers in *. simpl. lia.
Qed.

Lemma lookup_owner slot es :
  Forall interval_ok es → Sorted ends_before es → lookup slot (mkIntervals es) = owner slot es.
Proof.
  unfold lookup. cbn [si_entries].
  induction es as [|[[lo hi] i] es IH]; intros Ho Hs; [done|].
  pose proof (ends_before_all _ _ Ho Hs) as Hb. apply Forall_cons in Ho as [Hoe Ho].
  apply Sorted_inv in Hs as [Hs _]. specialize (IH Ho Hs). cbn [partition_point owner].
  destruct (Z.leb_spec lo slot).
  - destruct (partition_point slot es) as [|k] eqn:Ek.
    + cbn [list_lookup_total]. rewrite lookup_cons_0, <- IH.
      destruct (Z.leb_spec lo slot), (Z.leb_spec slot hi); try lia; cbn [andb];
        [rewrite decide_True|rewrite decide_False]; try done; unfold covers; simpl; lia.
    + etransitivity; [exact IH|]. case_decide as Hc; [|done].
      rewrite (owner_covered slot (lo, hi, i)) in IH by done. exfalso.
      destruct es as [|[[nlo nhi] ni] es]; [done|]. cbn [partition_point] in Ek.
      destruct (Z.leb_spec nlo slot); [|done]. apply Forall_cons in Hb as [Hb _].
      unfold ends_before, covers in *. simpl in *. lia.
  - rewrite decide_False by (unfold covers; simpl; lia). symmetry. apply owner_beyond.
    eapply Forall_impl; [exact Hb|]. unfold ends_before, interval_ok in *. simpl in *. lia.
Qed.

Lemma owner_Some slot es i :
  valid_map es → owner slot es = Some i ↔ ∃ lo hi, (lo, hi, i) ∈ es ∧ lo <= slot <= hi.
Proof.
  intros [_ Hv]. specialize (Hv slot). split.
  - intros H. induction es as [|[[lo hi] j] es IH]; [done|]. cbn [owner] in H.
    case_decide as Hc; [injection H as ->; exists lo, hi; split; [left|done]|].
    rewrite filter_cons_False in Hv by done.
    destruct (IH Hv H) as (lo' & hi' & ? & ?). exists lo', hi'. split; [by right|done].
  - intros (lo & hi & Hin & Hc). induction es as [|e es IH]; [inversion Hin|]. cbn [owner].
    rewrite filter_cons in Hv. apply elem_of_cons in Hin. case_decide as He.
    + destruct Hin as [E|Hin]; [by subst e|]. exfalso.
      assert ((lo, hi, i) ∈ filter (covers slot) es) as Hf by (apply list_elem_of_filter; done).
      destruct (filter (covers slot) es); [inversion Hf|simpl in Hv; lia].
    + destruct Hin as [E|Hin]; [by subst e|by apply IH].
Qed.

Lemma fill_lookup n from idx d s :
  (from + n ≤ length d)%nat →
  fill n from idx d !! s = if decide (from ≤ s < from + n)%nat then Some idx else d !! s.
Proof.
  revert from d. induction n as [|n IH]; intros from d Hl; cbn [fill].
  - by rewrite decide_False by lia.
  - rewrite IH by (rewrite length_insert; lia). destruct (decide (S from ≤ s < S from + n)%nat).
    + by rewrite decide_True by lia.
    + destruct (decide (s = from)) as [->|].
      * rewrite list_lookup_insert_eq, decide_True by lia. done.
      * rewrite list_lookup_insert_ne by done. by rewrite decide_False by lia.
Qed.

Lemma length_fill n from idx d : length (fill n from idx d) = length d.
Proof. revert from d. induction n as [|n IH]; intros from d; [done|]. cbn. by rewrite IH, length_insert. Qed.

Lemma dense_fold es d s :
  Forall interval_ok es → Forall (λ e, 0 <= e.1.1) es → Sorted ends_before es →
  length d = Z.to_nat SLOT_COUNT → (s < length d)%nat →
  fold_left (λ d '(lo, hi, idx), fill (Z.to_nat (hi - lo + 1)) (Z.to_nat lo) idx d) es d !! s =
  match owner (Z.of_nat s) es with Some i => Some i | None => d !! s end.
Proof.
  revert d. induction es as [|[[lo hi] i] es IH]; intros d Ho Hz Hs Hd Hl; [done|]. cbn [fold_left owner].
  pose proof (ends_before_all _ _ Ho Hs) as Hb. apply Forall_cons in Ho as [Hoe Ho].
  apply Forall_cons in Hz as [Hze Hz]. apply Sorted_inv in Hs as [Hs _].
  unfold interval_ok, SLOT_COUNT in Hoe. simpl in Hoe, Hze.
  rewrite IH; [|done|done|done|by rewrite length_fill|by rewrite length_fill].
  rewrite fill_lookup by (unfold SLOT_COUNT in Hd; lia).
  destruct (decide (covers (Z.of_nat s) (lo, hi, i))) as [Hc|Hc].
  - pose proof Hc as Hc'. unfold covers in Hc'. simpl in Hc'. rewrite (owner_covered (Z.of_nat s) (lo, hi, i) es Hb Ho Hc). by rewrite decide_True by lia.
  - unfold covers in Hc. simpl in Hc. destruct (owner (Z.of_nat s) es); [done|]. by rewrite decide_False by lia.
Qed.

(** ** Owners by default *)

Lemma position_of_Some {A} (p : A → bool) l i :
  position_of p l = Some i → ∃ x, l !! i = Some x ∧ p x = true.
Proof.
  revert i. induction l as [|y l IH]; intros i; [done|]. cbn. destruct (p y) eqn:E; [intros [= <-]; eauto|].
  destruct (position_of p l) as [j|]; [|done]. intros [= <-]. cbn. by apply IH.
Qed.

Lemma position_of_None {A} (p : A → bool) l i x :
  position_of p l = None → l !! i = Some x → p x = true → False.
Proof.
  revert i. induction l as [|y l IH]; intros i; [done|]. cbn. destruct (p y) eqn:E; [done|].
  destruct (position_of p l) as [j|]; [done|]. intros _. destruct i as [|i]; [by intros [= ->]; congruence|].
  by apply IH.
Qed.

(** The pairs with a range come first. *)
Lemma ranged_lookup slot (ranged : list (Z * Z)) k i x :
  (map Some ranged ++ repeat None k) !! i = Some x → in_slot_range slot x = true →
  (i < length ranged)%nat ∧ ∃ r, ranged !! i = Some r ∧ x = Some r.
Proof.
  intros Hi Hx. apply lookup_app_Some in Hi as [Hi|[_ Hi]].
  - change (map Some ranged) with (Some <$> ranged) in Hi. rewrite list_lookup_fmap in Hi.
    destruct (ranged !! i) as [r|] eqn:E; [|done]. injection Hi as <-.
    split; [by eapply lookup_lt_Some|by eexists].
  - apply list_elem_of_lookup_2, list_elem_of_In, repeat_spec in Hi. by subst x.
Qed.

Lemma count_ranged_prefix (ranged : list (Z * Z)) k :
  length (List.filter is_ranged (map Some ranged ++ repeat None k)) = length ranged.
Proof.
  induction ranged as [|r l IH]; cbn; [|by rewrite IH]. induction k; done.
Qed.

(** * Properties *)

(** The slot hash is the remainder of polynomial division: CRC16 of a
    message is what is left of it, with sixteen zeros appended, after long
    division by x^16 + x^12 + x^5 + 1. *)
Theorem crc16_is_polynomial_division data : crc16 data = crc_spec data.
Proof. apply crc16_remainder. Qed.

(** Keys with the same hash tag, the bytes between the first brace and the
    next closing one, share a slot, and every slot is below 16384. *)
Theorem tagged_keys_share_a_slot pre tag post pre' post' :
  BRACE_OPEN ∉ pre → BRACE_OPEN ∉ pre' → BRACE_CLOSE ∉ tag → tag ≠ [] →
  let key := pre ++ BRACE_OPEN :: tag ++ BRACE_CLOSE :: post in
  slot_for_key key = slot_for_key (pre' ++ BRACE_OPEN :: tag ++ BRACE_CLOSE :: post') ∧
  slot_for_key key = crc16 tag mod SLOT_COUNT ∧ 0 <= slot_for_key key < SLOT_COUNT.
Proof.
  intros Hp Hp' Ht Hne key. unfold slot_for_key, key. rewrite !hash_tag_found by done.
  split_and!; try done; apply Z.mod_pos_bound; done.
Qed.

Lemma tagged_keys_share_a_slot_witness :
  slot_for_key (bstr "{user1000}.following") = slot_for_key (bstr "{user1000}.followers").
Proof.
  apply (tagged_keys_share_a_slot [] (bstr "user1000") (bstr ".following") [] (bstr ".followers"));
    apply (bool_decide_unpack _); vm_compute; exact I.
Defined.

(** An interval map routes each slot to the one entry that covers it.
    [from_entries] accepts exactly the entries that are intervals of the slot
    space with no slot in two of them, whatever their order; then [lookup]
    answers the index of the entry a slot is in and nothing outside all of
    them, and the dense form agrees at every slot. *)
Theorem intervals_route_each_slot es m :
  Forall (λ e, 0 <= e.1.1) es → from_entries es = Some m →
  valid_map es ∧
  (∀ slot i, lookup slot m = Some i ↔ ∃ lo hi, (lo, hi, i) ∈ es ∧ lo <= slot <= hi) ∧
  (∀ s, (s < Z.to_nat SLOT_COUNT)%nat → dense m !! s = Some (default U16_MAX (lookup (Z.of_nat s) m))) ∧
  (∀ es', es' ≡ₚ es → from_entries es' = Some m).
Proof.
  intros Hz E. pose proof (from_entries_valid es) as H. rewrite E in H. destruct H as (Hp & Hv & Ho & Hs).
  destruct m as [l]. cbn [si_entries] in *. assert (Hvl : valid_map l) by (by eapply valid_map_perm; [symmetry|]).
  split_and!; [done| | |].
  - intros slot i. rewrite lookup_owner, owner_Some by done. by setoid_rewrite Hp.
  - intros s Hl. unfold dense. cbn [si_entries]. rewrite lookup_owner by done.
    rewrite dense_fold; [|done|by rewrite Hp|done|by rewrite length_replicate|by rewrite length_replicate].
    destruct (owner (Z.of_nat s) l); [done|]. by apply lookup_replicate_2.
  - intros es' Hp'. rewrite <- E. by apply from_entries_perm.
Qed.

(** Two pairs, and a slot in migration. *)
Lemma intervals_route_each_slot_witness :
  ∃ m, from_entries [(100, 100, 7); (0, 99, 1); (101, 16383, 2)] = Some m ∧ lookup 100 m = Some 7 ∧
       from_entries [(101, 16383, 2); (100, 100, 7); (0, 99, 1)] = Some m.
Proof.
  exists (mkIntervals [(0, 99, 1); (100, 100, 7); (101, 16383, 2)]).
  assert (E : from_entries [(100, 100, 7); (0, 99, 1); (101, 16383, 2)] =
    Some (mkIntervals [(0, 99, 1); (100, 100, 7); (101, 16383, 2)])) by (vm_compute; reflexivity).
  split; [exact E|]. destruct (intervals_route_each_slot [(100, 100, 7); (0, 99, 1); (101, 16383, 2)]
    (mkIntervals [(0, 99, 1); (100, 100, 7); (101, 16383, 2)])) as (_ & Hl & _ & Hp);
    [repeat constructor; vm_compute; discriminate|exact E|]. split.
  - apply Hl. exists 100, 100. split; [left|lia].
  - apply Hp. solve_Permutation.
Defined.

(** The default owner of a slot is a pair there is. With ranges on a prefix
    of the pairs it is one of those, the one whose range holds the slot if one
    does; with none, the slots are split over all pairs in order. *)
Theorem default_owner_is_a_pair slot (ranged : list (Z * Z)) expansion :
  0 <= slot < SLOT_COUNT →
  let ranges := map Some ranged ++ repeat None expansion in
  let n := length ranges in
  match default_pair slot ranges n with
  | None => n = 0%nat
  | Some i =>
      (i < (if (0 <? length ranged)%nat then length ranged else n))%nat ∧
      (∀ j r, ranged !! j = Some r → in_slot_range slot (Some r) = true →
         ∃ r', ranged !! i = Some r' ∧ in_slot_range slot (Some r') = true)
  end.
Proof.
  intros Hs ranges n. unfold default_pair. destruct n as [|n0] eqn:En; [done|]. rewrite <- En.
  assert (0 < n)%nat as Hn by lia. clear n0 En. clearbody n.
  assert (Hpos : ∀ i x, ranges !! i = Some x → in_slot_range slot x = true →
    (i < length ranged)%nat ∧ ∃ r, ranged !! i = Some r ∧ x = Some r).
  { intros i x. apply ranged_lookup. }
  destruct (position_of (in_slot_range slot) ranges) as [i|] eqn:Ei.
  - apply position_of_Some in Ei as (x & Hi & Hx). destruct (Hpos i x Hi Hx) as (Hl & r & Hr & ->).
    split; [destruct (Nat.ltb_spec 0 (length ranged)); lia|]. intros _ _ _ _. eauto.
  - rewrite (count_ranged_prefix ranged expansion : length (List.filter is_ranged ranges) = length ranged).
    set (k := if (0 <? length ranged)%nat then length ranged else n).
    assert (0 < k)%nat by (unfold k; destruct (Nat.ltb_spec 0 (length ranged)); lia).
    split.
    + rewrite <- (Nat2Z.id k) at 2. apply Z2Nat.inj_lt; [apply Z.div_pos; lia|lia|].
      apply Z.div_lt_upper_bound; unfold SLOT_COUNT in *; nia.
    + intros j r Hj Hx. exfalso. eapply (position_of_None _ ranges j (Some r)); [done| |done].
      unfold ranges. rewrite lookup_app_l by (rewrite length_map; by eapply lookup_lt_Some).
      change (map Some ranged) with (Some <$> ranged). by rewrite list_lookup_fmap, Hj.
Qed.

Lemma default_owner_is_a_pair_witness :
  default_pair 150 [Some (0, 99); Some (100, 199); None] 3 = Some 1%nat ∧ (1 < 2)%nat.
Proof.
  pose proof (default_owner_is_a_pair 150 [(0, 99); (100, 199)] 1 ltac:(vm_compute; split; [discriminate|reflexivity])) as H.
  change (map Some [(0, 99); (100, 199)] ++ repeat None 1) with [Some (0, 99); Some (100, 199); None] in H.
  change (default_pair 150 [Some (0, 99); Some (100, 199); None] (length [Some (0, 99); Some (100, 199); None]))
    with (Some 1%nat) in H. destruct H as [H _]. split; [reflexivity|exact H].
Defined.

End Slot.
