(* ===== verification/Sched.v ===== *)
(** * The scheduler (src/crates/flint-sched/src/lib.rs)

    Recurring jobs on one thread. The clock, the outcomes of the jobs and the
    wall clock are streams the environment supplies, each read in order; an
    [Instant] is a number of nanoseconds, a [Duration] too. [loop n] is the
    state after [n] turns of [run]'s loop, for every [n]: the theorems about
    it are about a loop nobody stops. *)

From stdpp Require Import base list.
From Stdlib Require Import ZArith Lia.
From S2P Require Import Prelude.

Module Sched.

(** ** Jobs *)

(** [Result<String, String>]. *)
Definition outcome : Type := bytes + bytes.

Record JobStats := mkStats {
  runs : Z;
  failures : Z;
  consecutive_failures : Z;
  last_outcome : option outcome;
  last_ok_wall_ms : option Z;
}.

Definition stats_default : JobStats := mkStats 0 0 0 None None.

(** The closure [run] is the environment's. *)
Record Job := mkJob { name : bytes; every : Z; retry_after : Z }.

Record Slot := mkSlot { job : Job; next : Z; stats : JobStats }.

(** What [Scheduler] and the streams have come to. [log] is which job ran, by
    its index, and when it was done: nothing reads it. *)
Record State := mkState {
  slots : list Slot;
  reads : nat;
  outcomes : nat;
  log : list (nat * Z);
}.

Definition U32_MAX : Z := 2 ^ 32 - 1.
Definition SECOND : Z := 1000000000.
Definition DURATION_MAX : Z := (2 ^ 64 - 1) * SECOND + 999999999.

(** [u32::saturating_add(1)] and [Duration::saturating_mul]. *)
Definition saturating_succ32 (x : Z) : Z := Z.min (x + 1) U32_MAX.
Definition duration_mul (d k : Z) : Z := Z.min (d * k) DURATION_MAX.

(** The delay after the [k]th failure in a row. *)
Definition backoff (j : Job) (k : Z) : Z :=
  Z.min (duration_mul (retry_after j) (Z.shiftl 1 (Z.min (k - 1) 16))) (every j).

Section sched.

(** [Instant::now()], the jobs' closures, and [wall_ms()], reading by reading. *)
Context (clock : nat → Z) (answer : nat → outcome) (wall : nat → Z).

(** The state of a job once it ran and answered [o], with the clock at
    [done]. *)
Definition after_run (s : Slot) (o : outcome) (finished wall_now : Z) : Slot :=
  let st := stats s in
  match o with
  | inl _ =>
      mkSlot (job s) (finished + every (job s))
        (mkStats (u64 (runs st + 1)) (failures st) 0 (Some o) (Some wall_now))
  | inr _ =>
      let k := saturating_succ32 (consecutive_failures st) in
      mkSlot (job s) (finished + backoff (job s) k)
        (mkStats (u64 (runs st + 1)) (u64 (failures st + 1)) k (Some o) (last_ok_wall_ms st))
  end.

(** The loop of [tick] over the slots from index [i] on. *)
Fixpoint tick_slots (now : Z) (i : nat) (l : list Slot) (st : State) : State :=
  match l with
  | [] => st
  | s :: l' =>
      let st' :=
        if now <? next s then mkState (slots st ++ [s]) (reads st) (outcomes st) (log st)
        else
          let finished := clock (reads st) in
          mkState (slots st ++ [after_run s (answer (outcomes st)) finished (wall (outcomes st))])
            (S (reads st)) (S (outcomes st)) (log st ++ [(i, finished)]) in
      tick_slots now (S i) l' st'
  end.

(** [iter().min()]. *)
Definition earliest (l : list Slot) : option Z :=
  foldr (λ s acc, Some (match acc with Some n => Z.min (next s) n | None => next s end)) None l.

Definition tick (now : Z) (st : State) : State * option Z :=
  let st' := tick_slots now 0 (slots st) (mkState [] (reads st) (outcomes st) (log st)) in
  (st', earliest (slots st')).

Definition add (j : Job) (initial_delay : Z) (st : State) : State :=
  mkState (slots st ++ [mkSlot j (clock (reads st) + initial_delay) stats_default])
    (S (reads st)) (outcomes st) (log st).

(** How long a turn sleeps. *)
Definition sleep_for (n : option Z) (now : Z) : Z :=
  Z.min (match n with Some n => saturating_sub n now | None => SECOND end) SECOND.

(** One turn of [run]: the clock is read, the due jobs run, the clock is read
    again if a job is scheduled, and the thread sleeps. *)
Definition turn (st : State) : State * Z :=
  let '(st1, n) := tick (clock (reads st)) (mkState (slots st) (S (reads st)) (outcomes st) (log st)) in
  match n with
  | Some _ => (mkState (slots st1) (S (reads st1)) (outcomes st1) (log st1), sleep_for n (clock (reads st1)))
  | None => (st1, sleep_for n 0)
  end.

Fixpoint loop (n : nat) (st : State) : State :=
  match n with O => st | S n' => loop n' (turn st).1 end.

(** [Scheduler::stats]. *)
Definition scheduler_stats (st : State) : list (bytes * JobStats) :=
  map (λ s, (name (job s), stats s)) (slots st).

(** [Scheduler::startup_jitter], with the hasher's value [h]; [None] is the
    panic of a remainder by zero, when the cast of a span past [u64]
    milliseconds leaves nothing. *)
Definition startup_jitter (h max : Z) : option Z :=
  if max =? 0 then Some 0
  else
    let ms := u64 (Z.max (max / 1000000) 1) in
    if ms =? 0 then None else Some ((h mod ms) * 1000000).

(** ** One turn *)

(** The runs of a turn. *)
Definition runs_of (st st' : State) (evs : list (nat * Z)) : Prop := log st' = log st ++ evs.

(** What became of the slot of index [i] in a tick at [now]: nothing when it was
    not due; else it ran, and [finished] is a reading taken in the tick. *)
Definition ticked (now : Z) (st st' : State) (evs : list (nat * Z)) (i : nat) (s : Slot) (o : option Slot) : Prop :=
  if now <? next s then o = Some s ∧ ∀ d, (i, d) ∉ evs
  else ∃ r a w, o = Some (after_run s a (clock r) w) ∧ (reads st ≤ r < reads st')%nat ∧
                ∀ d, (i, d) ∈ evs ↔ d = clock r.

Lemma tick_slots_spec now i l st :
  let st' := tick_slots now i l st in
  ∃ evs, runs_of st st' evs ∧ (reads st ≤ reads st')%nat ∧
    (∀ k d, (k, d) ∈ evs → (i ≤ k)%nat) ∧
    (∃ l', slots st' = slots st ++ l' ∧ length l' = length l ∧
       ∀ k s, l !! k = Some s → ticked now st st' evs (i + k) s (l' !! k)).
Proof.
  unfold runs_of. revert i st. induction l as [|s l IH]; intros i st; cbn [tick_slots].
  { exists []. split_and!; [by rewrite app_nil_r|lia|intros k d Hin; inversion Hin|].
    exists []. split_and!; [by rewrite app_nil_r|done|done]. }
  destruct (Z.ltb_spec now (next s)) as [Hn|Hn].
  - destruct (IH (S i) (mkState (slots st ++ [s]) (reads st) (outcomes st) (log st)))
      as (evs & Hlog & Hr & He & l' & Hs & Hl & Hk). set (st' := tick_slots now (S i) l _) in *.
    cbn [slots reads log] in *. exists evs. split_and!; [done|done|intros k d Hin; apply He in Hin; lia|].
    exists (s :: l'). split_and!; [by rewrite Hs, <- app_assoc|cbn; lia|].
    intros [|k] x Hx; [injection Hx as <-|].
    + unfold ticked. rewrite Nat.add_0_r, (proj2 (Z.ltb_lt _ _)) by done. split; [done|].
      intros d Hin. apply He in Hin. lia.
    + specialize (Hk k x Hx). unfold ticked in *. cbn [reads] in Hk.
      by replace (i + S k)%nat with (S i + k)%nat by lia.
  - set (s1 := after_run s _ _ _).
    destruct (IH (S i) (mkState (slots st ++ [s1]) (S (reads st)) (S (outcomes st)) (log st ++ [(i, clock (reads st))])))
      as (evs & Hlog & Hr & He & l' & Hs & Hl & Hk). set (st' := tick_slots now (S i) l _) in *.
    cbn [slots reads log] in *. exists ((i, clock (reads st)) :: evs).
    split_and!; [by rewrite Hlog, <- app_assoc|lia| |].
    { intros k d [[= -> ->]|Hin]%elem_of_cons; [lia|]. apply He in Hin. lia. }
    exists (s1 :: l'). split_and!; [by rewrite Hs, <- app_assoc|cbn; lia|].
    intros [|k] x Hx; [injection Hx as <-|].
    + unfold ticked. rewrite Nat.add_0_r, (proj2 (Z.ltb_ge _ _)) by done.
      exists (reads st), (answer (outcomes st)), (wall (outcomes st)). split_and!; [done|lia|lia|].
      intros d. rewrite elem_of_cons. split; [|by intros ->; left].
      intros [[= ->]|Hin]; [done|]. apply He in Hin. lia.
    + specialize (Hk k x Hx). unfold ticked in *. cbn [reads] in Hk.
      replace (i + S k)%nat with (S i + k)%nat by lia. destruct (now <? next x).
      * destruct Hk as [? Hk]. split; [done|]. intros d [[= Hi]|Hin]%elem_of_cons; [lia|]. by apply (Hk d).
      * destruct Hk as (r & a & w & ? & ? & Hk). exists r, a, w. split_and!; [done|lia|lia|].
        intros d. rewrite elem_of_cons, <- Hk. split; [|by right]. intros [[= Hi]|?]; [lia|done].
Qed.

(** A turn: the reading it starts with, its runs, and each slot after it. *)
Lemma turn_spec st :
  let st' := (turn st).1 in
  ∃ evs, runs_of st st' evs ∧ (reads st < reads st')%nat ∧ length (slots st') = length (slots st) ∧
    ∀ k s, slots st !! k = Some s →
      ticked (clock (reads st)) st st' evs k s (slots st' !! k).
Proof.
  unfold turn, tick.
  destruct (tick_slots_spec (clock (reads st)) 0 (slots st) (mkState [] (S (reads st)) (outcomes st) (log st)))
    as (evs & Hlog & Hr & _ & l' & Hs & Hl & Hk). cbn [slots reads outcomes log] in *.
  set (st1 := tick_slots _ _ _ _) in *. cbn [app] in Hs.
  assert (∀ st', slots st' = slots st1 → log st' = log st1 → (reads st1 ≤ reads st')%nat →
    runs_of st st' evs ∧ (reads st < reads st')%nat ∧ length (slots st') = length (slots st) ∧
    ∀ k s, slots st !! k = Some s → ticked (clock (reads st)) st st' evs k s (slots st' !! k)) as H.
  { intros st' E1 E2 E3. unfold runs_of in *. rewrite E2, E1, Hs. split_and!; [done|lia|done|].
    intros k s Hks. specialize (Hk k s Hks). cbn [Nat.add] in Hk. unfold ticked in *. cbn [reads] in Hk.
    destruct (_ <? _); [done|]. destruct Hk as (r & a & w & ? & ? & ?). exists r, a, w. split_and!; [done|lia|lia|done]. }
  exists evs. destruct (earliest (slots st1)); apply H; try done; cbn; lia.
Qed.

(** ** Every turn of the loop *)

(** The job of index [j] runs in the turn from [st], done at [d]. *)
Definition runs_in (j : nat) (d : Z) (st : State) : Prop :=
  ∃ evs, runs_of st (turn st).1 evs ∧ (j, d) ∈ evs.

Lemma turn_slot st j s :
  slots st !! j = Some s →
  if clock (reads st) <? next s then slots (turn st).1 !! j = Some s ∧ ∀ d, ¬ runs_in j d st
  else ∃ r a w, slots (turn st).1 !! j = Some (after_run s a (clock r) w) ∧
       (reads st ≤ r < reads (turn st).1)%nat ∧ ∀ d, runs_in j d st ↔ d = clock r.
Proof.
  intros Hs. destruct (turn_spec st) as (evs & Hlog & _ & _ & Hk). specialize (Hk j s Hs).
  assert (Hev : ∀ d, runs_in j d st ↔ (j, d) ∈ evs).
  { intros d. split; [|intros; by exists evs]. intros (evs' & Hlog' & Hin).
    unfold runs_of in *. rewrite Hlog in Hlog'. by apply app_inv_head in Hlog' as ->. }
  unfold ticked in Hk. destruct (_ <? _).
  - destruct Hk as [? Hk]. split; [done|]. intros d. rewrite Hev. apply Hk.
  - destruct Hk as (r & a & w & ? & ? & Hk). exists r, a, w. split; [done|]. split; [done|]. intros d. by rewrite Hev.
Qed.

Lemma loop_length n st : length (slots (loop n st)) = length (slots st).
Proof.
  revert st. induction n as [|n IH]; intros st; [done|]. cbn [loop]. rewrite IH.
  destruct (turn_spec st) as (_ & _ & _ & ? & _). done.
Qed.

Lemma loop_reads n st : (reads st + n ≤ reads (loop n st))%nat.
Proof.
  revert st. induction n as [|n IH]; intros st; cbn [loop]; [lia|].
  destruct (turn_spec st) as (_ & _ & ? & _). specialize (IH (turn st).1). lia.
Qed.

Lemma loop_add n m st : loop (n + m) st = loop m (loop n st).
Proof. revert st. induction n as [|n IH]; intros st; [done|]. cbn [loop Nat.add]. apply IH. Qed.

(** A job that does not run keeps its slot, so when it runs it was due. *)
Lemma runs_when_due j s d n st :
  slots st !! j = Some s → runs_in j d (loop n st) →
  (∀ m d', (m < n)%nat → ¬ runs_in j d' (loop m st)) → next s <= clock (reads (loop n st)).
Proof.
  revert st. induction n as [|n IH]; intros st Hs Hr Hno; cbn [loop] in *.
  - pose proof (turn_slot st j s Hs) as Ht. destruct (Z.ltb_spec (clock (reads st)) (next s)); [|done].
    destruct Ht as [_ Ht]. by destruct (Ht d).
  - refine (IH (turn st).1 _ Hr (λ m d' Hm, Hno (S m) d' ltac:(lia))).
    pose proof (turn_slot st j s Hs) as Ht. destruct (_ <? _); [by destruct Ht|].
    destruct Ht as (r & a & w & _ & _ & Ht). exfalso. apply (Hno 0%nat (clock r)); [lia|]. by apply Ht.
Qed.

(** Time does not go back, and goes on. *)
Definition clock_ok : Prop :=
  (∀ a b, (a ≤ b)%nat → clock a <= clock b) ∧ ∀ t, ∃ k, t <= clock k.

(** In the first turn that starts at or past its due time the job runs. *)
Lemma runs_once_due j s n st :
  slots st !! j = Some s → next s <= clock (reads (loop n st)) →
  ∃ k d, (k ≤ n)%nat ∧ runs_in j d (loop k st).
Proof.
  revert st. induction n as [|n IH]; intros st Hs Hd; cbn [loop] in Hd; pose proof (turn_slot st j s Hs) as Ht;
    destruct (Z.ltb_spec (clock (reads st)) (next s)).
  - lia.
  - destruct Ht as (r & _ & _ & _ & _ & Ht). exists 0%nat, (clock r). split; [lia|]. by apply Ht.
  - destruct Ht as [Ht _]. destruct (IH _ Ht Hd) as (k & d & ? & ?). exists (S k), d. split; [lia|done].
  - destruct Ht as (r & _ & _ & _ & _ & Ht). exists 0%nat, (clock r). split; [lia|]. by apply Ht.
Qed.

Lemma runs_again j m st :
  clock_ok → (j < length (slots st))%nat → ∃ n d, (m ≤ n)%nat ∧ runs_in j d (loop n st).
Proof.
  intros [Hm Hu] Hj. destruct (lookup_lt_is_Some_2 (slots (loop m st)) j) as [s Hs]; [by rewrite loop_length|].
  destruct (Hu (next s)) as [k Hk]. pose proof (loop_reads k (loop m st)) as Hr.
  destruct (runs_once_due j s k (loop m st) Hs) as (n & d & _ & Hn).
  { etransitivity; [exact Hk|]. apply Hm. lia. }
  exists (m + n)%nat, d. split; [lia|]. by rewrite loop_add.
Qed.

(** ** Delays *)

Lemma backoff_doubles j k :
  every j <= DURATION_MAX →
  backoff j k = Z.min (retry_after j * 2 ^ Z.min (k - 1) 16) (every j).
Proof. intros He. unfold backoff, duration_mul. rewrite Z.shiftl_1_l. lia. Qed.

(** The jitter stays below its bound. *)
Lemma startup_jitter_bounds h max :
  0 <= h → 0 < max < 2 ^ 64 * 1000000 → ∃ d, startup_jitter h max = Some d ∧ 0 <= d < max.
Proof.
  intros Hh Hm. unfold startup_jitter. rewrite (proj2 (Z.eqb_neq _ _)) by lia. cbv zeta.
  assert (0 <= max / 1000000 < 2 ^ 64) by (split; [apply Z.div_pos|apply Z.div_lt_upper_bound]; lia).
  unfold u64, wrap. rewrite Z.mod_small by lia. rewrite (proj2 (Z.eqb_neq _ _)) by lia.
  eexists. split; [done|]. pose proof (Z.mod_pos_bound h (Z.max (max / 1000000) 1)).
  pose proof (Z.mul_div_le max 1000000). destruct (Z.le_gt_cases 1 (max / 1000000)); [lia|].
  replace (Z.max (max / 1000000) 1) with 1 by lia. rewrite Z.mod_1_r. lia.
Qed.

(** How long a job waits after its run: its interval when it succeeded, the
    backoff of its failures in a row when not. *)
Definition delay (s : Slot) (a : outcome) : Z :=
  match a with
  | inl _ => every (job s)
  | inr _ => Z.min (retry_after (job s) * 2 ^ Z.min (saturating_succ32 (consecutive_failures (stats s)) - 1) 16)
               (every (job s))
  end.

Lemma after_run_next s a d w :
  every (job s) <= DURATION_MAX → next (after_run s a d w) = d + delay s a.
Proof. intros He. destruct a; cbn [after_run next delay]; [done|]. by rewrite backoff_doubles. Qed.

End sched.

Arguments turn : simpl never.

(** * Properties *)

Section witnesses.

(** A clock that ticks a second a reading, jobs that fail every other time. *)
Definition demo_clock (n : nat) : Z := Z.of_nat n * SECOND.
Definition demo_answer (n : nat) : outcome := if Nat.even n then inr [] else inl [].
Definition demo_wall (n : nat) : Z := Z.of_nat n.
Definition demo_state : State :=
  add demo_clock (mkJob [] (5 * SECOND) SECOND) 0
    (add demo_clock (mkJob [] (60 * SECOND) (10 * SECOND)) SECOND (mkState [] 0 0 [])).

Lemma demo_clock_ok : clock_ok demo_clock.
Proof.
  unfold clock_ok, demo_clock, SECOND. split; [lia|]. intros t. exists (Z.to_nat t). lia.
Qed.

End witnesses.

(** C23. No job is starved or forgotten: as long as time goes on, whatever the
    jobs answer and however long they take, every job runs again and again, and
    at the latest in the first turn that starts at or past its due time. *)
Theorem every_job_runs_forever clock answer wall st j :
  clock_ok clock → (j < length (slots st))%nat →
  (∀ m, ∃ n d, (m ≤ n)%nat ∧ runs_in clock answer wall j d (loop clock answer wall n st)) ∧
  (∀ s n, slots st !! j = Some s → next s <= clock (reads (loop clock answer wall n st)) →
     ∃ k d, (k ≤ n)%nat ∧ runs_in clock answer wall j d (loop clock answer wall k st)).
Proof.
  intros Hc Hj. split; [intros m; by apply runs_again|]. intros s n. apply runs_once_due.
Qed.

Lemma every_job_runs_forever_witness :
  ∃ n d, (100 ≤ n)%nat ∧
    runs_in demo_clock demo_answer demo_wall 1 d (loop demo_clock demo_answer demo_wall n demo_state).
Proof.
  destruct (every_job_runs_forever demo_clock demo_answer demo_wall demo_state 1) as [H _];
    [apply demo_clock_ok|vm_compute; lia|]. exact (H 100%nat).
Defined.

(** A job's next run is counted from the end of the last: after a run done at
    [d] the job does not run again before [d] and its delay, so a long run
    delays its successor and missed slots are dropped. The delay is the
    interval after a success; after failures it doubles from the first retry
    and never exceeds the interval. *)
Theorem runs_are_spaced clock answer wall st j s d n d' :
  slots st !! j = Some s → 0 <= every (job s) <= DURATION_MAX → 0 <= retry_after (job s) →
  runs_in clock answer wall j d st →
  runs_in clock answer wall j d' (loop clock answer wall (S n) st) →
  (∀ m d'', (0 < m ≤ n)%nat → ¬ runs_in clock answer wall j d'' (loop clock answer wall m st)) →
  ∃ s' a, slots (turn clock answer wall st).1 !! j = Some s' ∧ last_outcome (stats s') = Some a ∧
    d + delay s a <= clock (reads (loop clock answer wall (S n) st)) ∧ 0 <= delay s a <= every (job s).
Proof.
  intros Hs He Hy Hr Hr' Hno. pose proof (turn_slot clock answer wall st j s Hs) as Ht.
  destruct (_ <? _); [by destruct Ht as [_ Ht]; destruct (Ht d)|].
  destruct Ht as (r & a & w & Hs' & _ & Ht). apply Ht in Hr as ->.
  exists (after_run s a (clock r) w), a. split; [done|]. split; [by destruct a|]. split.
  - rewrite <- (after_run_next s a (clock r) w) by lia.
    refine (runs_when_due clock answer wall j _ d' n (turn clock answer wall st).1 Hs' Hr' _).
    intros m d'' Hm. apply (Hno (S m)). lia.
  - destruct a; cbn [delay]; [lia|].
    assert (0 <= 2 ^ Z.min (saturating_succ32 (consecutive_failures (stats s)) - 1) 16) by (apply Z.pow_nonneg; lia).
    nia.
Qed.

Lemma runs_are_spaced_witness :
  ∃ s' a, slots (turn demo_clock demo_answer demo_wall demo_state).1 !! 1%nat = Some s' ∧
    last_outcome (stats s') = Some a ∧
    4 * SECOND + delay (mkSlot (mkJob [] (5 * SECOND) SECOND) SECOND stats_default) a <= 10 * SECOND ∧
    0 <= delay (mkSlot (mkJob [] (5 * SECOND) SECOND) SECOND stats_default) a <= 5 * SECOND.
Proof.
  refine (runs_are_spaced demo_clock demo_answer demo_wall demo_state 1
            (mkSlot (mkJob [] (5 * SECOND) SECOND) SECOND stats_default) (4 * SECOND) 2 (11 * SECOND) _ _ _ _ _ _).
  - vm_compute. reflexivity.
  - vm_compute. split; discriminate.
  - vm_compute. discriminate.
  - exists [(0%nat, 3 * SECOND); (1%nat, 4 * SECOND)]. split; [vm_compute; reflexivity|]. right. left.
  - exists [(1%nat, 11 * SECOND)]. split; [vm_compute; reflexivity|]. left.
  - intros m d'' Hm (evs & Hlog & Hin). destruct m as [|[|[|]]]; [lia| | |lia]; vm_compute in Hlog;
      injection Hlog as <-; inversion Hin.
Defined.

End Sched.
