(* ===== verification/Cache.v ===== *)
(** * The proxy's read cache (src/crates/flint-proxy/src/cache.rs)

    GET replies of the tenants that asked for it, kept for a time to live under
    a byte budget all tenants share. The state is what the mutex guards and the
    atomics beside it; an operation is one step, and its reading of the clock
    an argument, in nanoseconds. What drives it in the proxy, the write-back of
    replies and the entries a write drops (src/crates/flint-proxy/src/main.rs),
    is here too, with two connections of one proxy interleaved. *)

From stdpp Require Import base list gmap strings sorting.
From Stdlib Require Import ZArith Lia.
From S2P Require Import Prelude Num F64 Resp Commands Replies Slot.

Module Cache.

(** ** State *)

Record Entry := mkEntry {
  val : bytes;
  expires_at : Z;
  generation : Z;
  cost : Z;
}.

Record Inner := mkInner {
  entries : gmap bytes Entry;
  fifo : list (bytes * Z);
  resident : Z;
  ns_bytes : gmap bytes Z;
  gen : Z;
  slot_floors : gmap bytes (gmap Z (Z * Z));
}.

Definition inner_default : Inner := mkInner ∅ [] 0 ∅ 0 ∅.

Record ProxyCache := mkCache {
  inner : Inner;
  ttl_ms : Z;
  ns_ttl_ms : gmap bytes Z;
  ttl_max_ms : Z;
  max_bytes : Z;
  hits : Z;
  misses : Z;
}.

Definition MILLI : Z := 1000000.

Definition DEFAULT_TTL_MAX_MS : Z := 30000.

Definition with_ceiling (ttl_ms max_bytes ttl_max_ms : Z) : ProxyCache :=
  mkCache inner_default ttl_ms ∅ ttl_max_ms max_bytes 0 0.

Definition with_inner (c : ProxyCache) (i : Inner) : ProxyCache :=
  mkCache i (ttl_ms c) (ns_ttl_ms c) (ttl_max_ms c) (max_bytes c) (hits c) (misses c).

Definition hit (c : ProxyCache) : ProxyCache :=
  mkCache (inner c) (ttl_ms c) (ns_ttl_ms c) (ttl_max_ms c) (max_bytes c) (u64 (hits c + 1)) (misses c).
Definition miss (c : ProxyCache) : ProxyCache :=
  mkCache (inner c) (ttl_ms c) (ns_ttl_ms c) (ttl_max_ms c) (max_bytes c) (hits c) (u64 (misses c + 1)).

(** The key of an entry: the namespace behind its length, then the key. *)
Definition composite (ns key : bytes) : bytes := be 4 (u32 (len ns)) ++ ns ++ key.

Definition ns_of (key : bytes) : bytes := take (Z.to_nat (of_be (take 4 key))) (drop 4 key).

(** ** The ledgers *)

(** [Inner::remove]. *)
Definition remove (key : bytes) (i : Inner) : Inner :=
  match entries i !! key with
  | None => i
  | Some e =>
      let ns := ns_of key in
      let ledger :=
        match ns_bytes i !! ns with
        | Some b =>
            let b' := u64 (b - cost e) in
            if b' =? 0 then delete ns (ns_bytes i) else <[ns := b']> (ns_bytes i)
        | None => ns_bytes i
        end in
      mkInner (delete key (entries i)) (fifo i) (u64 (resident i - cost e)) ledger (gen i) (slot_floors i)
  end.

(** A slot of the queue is live when its entry is still the one it was pushed
    for. *)
Definition live (i : Inner) (s : bytes * Z) : bool :=
  match entries i !! s.1 with Some e => generation e =? s.2 | None => false end.

(** The loop of [evict_to_budget], over what is left of the queue. *)
Fixpoint evict_loop (budget : Z) (queue : list (bytes * Z)) (i : Inner) : Inner :=
  let i := mkInner (entries i) queue (resident i) (ns_bytes i) (gen i) (slot_floors i) in
  if resident i <=? budget then i
  else
    match queue with
    | [] => i
    | s :: queue' => evict_loop budget queue' (if live i s then remove s.1 i else i)
    end.

Definition evict_to_budget (i : Inner) (budget : Z) : Inner := evict_loop budget (fifo i) i.

Definition ns_resident (ns : bytes) (i : Inner) : Z := default 0 (ns_bytes i !! ns).

(** The loop of [enforce_ns_share] over the entries it may drop. *)
Fixpoint share_loop (ns : bytes) (share : Z) (doomed : list bytes) (i : Inner) : Inner :=
  match doomed with
  | [] => i
  | k :: doomed' => if ns_resident ns i <=? share then i else share_loop ns share doomed' (remove k i)
  end.

Definition enforce_ns_share (i : Inner) (ns : bytes) (budget : Z) (newest : bytes) : Inner :=
  let residents := Z.max (Z.of_nat (size (ns_bytes i))) 1 in
  let share := budget / residents in
  if ns_resident ns i <=? share then i
  else
    let doomed := map fst (List.filter (λ s, negb (bool_decide (s.1 = newest)) && bool_decide (ns_of s.1 = ns) && live i s)
                             (fifo i)) in
    share_loop ns share doomed i.

(** ** Operations *)

Definition enabled (c : ProxyCache) : bool := 0 <? ttl_ms c.

Definition ttl_for (c : ProxyCache) (ns : bytes) : Z :=
  if ttl_ms c =? 0 then 0 else default (ttl_ms c) (ns_ttl_ms c !! ns).

Definition set_ns_ttl (c : ProxyCache) (ns : bytes) (want_ms : Z) : ProxyCache * Z :=
  let applied := Z.min want_ms (ttl_max_ms c) in
  (mkCache (inner c) (ttl_ms c) (<[ns := applied]> (ns_ttl_ms c)) (ttl_max_ms c) (max_bytes c) (hits c) (misses c),
   applied).

Definition configure (c : ProxyCache) (ttl max : Z) : ProxyCache :=
  mkCache (if ttl =? 0 then inner_default else evict_to_budget (inner c) max)
    ttl (ns_ttl_ms c) (ttl_max_ms c) max (hits c) (misses c).

Definition stats (c : ProxyCache) : Z * Z * Z * Z * nat * Z :=
  (ttl_ms c, max_bytes c, hits c, misses c, size (entries (inner c)), resident (inner c)).

(** The entry was cached no later than its slot was last invalidated. *)
Definition below_floor (i : Inner) (ns key : bytes) (e : Entry) : bool :=
  match slot_floors i !! ns ≫= (.!! Slot.slot_for_key key) with
  | Some (floor, _) => generation e <=? floor
  | None => false
  end.

Definition get (c : ProxyCache) (ns key : bytes) (now : Z) : ProxyCache * option bytes :=
  if negb (enabled c) then (c, None)
  else
    let k := composite ns key in
    let i := inner c in
    match entries i !! k with
    | Some e =>
        if (now <? expires_at e) && negb (below_floor i ns key e) then (hit c, Some (val e))
        else (miss (with_inner c (remove k i)), None)
    | None => (miss c, None)
    end.

(** The state once the entry is in: the old one's bytes taken off both
    ledgers, the new one's put on. *)
Definition insert_entry (i : Inner) (ns k : bytes) (v : bytes) (expires : Z) (c : Z) : Inner :=
  let generation := u64 (gen i + 1) in
  let '(total, ledger) :=
    match entries i !! k with
    | Some old =>
        (u64 (resident i - cost old),
         match ns_bytes i !! ns with
         | Some b => <[ns := u64 (b - cost old)]> (ns_bytes i)
         | None => ns_bytes i
         end)
    | None => (resident i, ns_bytes i)
    end in
  mkInner (<[k := mkEntry v expires generation c]> (entries i)) (fifo i ++ [(k, generation)])
    (u64 (total + c)) (<[ns := u64 (default 0 (ledger !! ns) + c)]> ledger) generation (slot_floors i).

Definition put (c : ProxyCache) (ns key v : bytes) (now : Z) : ProxyCache :=
  let ttl := ttl_for c ns in
  if ttl =? 0 then c
  else
    let budget := max_bytes c in
    let k := composite ns key in
    let cost := len k + len v in
    if budget <? cost then c
    else
      let i := insert_entry (inner c) ns k v (now + ttl * MILLI) cost in
      with_inner c (enforce_ns_share (evict_to_budget i budget) ns budget k).

Definition invalidate (c : ProxyCache) (ns key : bytes) : ProxyCache :=
  if enabled c then with_inner c (remove (composite ns key) (inner c)) else c.

Definition MAX_FLOORS : Z := 1024.

Definition invalidate_slot (c : ProxyCache) (ns : bytes) (slot now : Z) : ProxyCache :=
  if negb (enabled c) then c
  else
    let i := inner c in
    let floors := <[slot := (gen i, now)]> (default ∅ (slot_floors i !! ns)) in
    let floors :=
      if MAX_FLOORS <? Z.of_nat (size floors)
      then filter (λ p : Z * (Z * Z), now - p.2.2 <= ttl_max_ms c * MILLI) floors else floors in
    with_inner c (mkInner (entries i) (fifo i) (resident i) (ns_bytes i) (gen i) (<[ns := floors]> (slot_floors i))).

(** The keys of the map come in no particular order; the entries left do not
    depend on it. *)
Definition invalidate_ns (c : ProxyCache) (ns : bytes) : ProxyCache :=
  if negb (enabled c) then c
  else
    let i := inner c in
    let prefix := be 4 (u32 (len ns)) ++ ns in
    let doomed := List.filter (λ k, starts_with k prefix) (map fst (map_to_list (entries i))) in
    let i := fold_left (λ i k, remove k i) doomed i in
    with_inner c (mkInner (entries i) (fifo i) (resident i) (ns_bytes i) (gen i) (delete ns (slot_floors i))).

(** ** The books *)

(** The sum of [f] over the entries. *)
Definition total (f : bytes → Entry → Z) (m : gmap bytes Entry) : Z := map_fold (λ k e acc, f k e + acc) 0 m.

Definition cost_of (_ : bytes) (e : Entry) : Z := cost e.
Definition cost_in (ns : bytes) (k : bytes) (e : Entry) : Z := if bool_decide (ns_of k = ns) then cost e else 0.

(** What an entry's key, cost and generation are. *)
Definition entry_ok (g : Z) (k : bytes) (e : Entry) : Prop :=
  (∃ ns key, len ns < 2 ^ 32 ∧ k = composite ns key) ∧ cost e = len k + len (val e) ∧ 0 < generation e <= g.

(** The ledgers are the sums of the entries' costs, every entry has its slot in
    the queue, and no slot is newer than the newest entry. *)
Record wf (i : Inner) : Prop := {
  wf_entries : ∀ k e, entries i !! k = Some e → entry_ok (gen i) k e;
  wf_resident : resident i = total cost_of (entries i);
  wf_range : resident i < 2 ^ 64;
  wf_ledger : ∀ ns, ns_bytes i !! ns =
    let t := total (cost_in ns) (entries i) in if t =? 0 then None else Some t;
  wf_queued : ∀ k e, entries i !! k = Some e → (k, generation e) ∈ fifo i;
  wf_slots : Forall (λ s, s.2 <= gen i) (fifo i);
  wf_gen : 0 <= gen i;
}.

Section total.

Context (f : bytes → Entry → Z).

Lemma total_empty : total f ∅ = 0.
Proof. apply map_fold_empty. Qed.

Lemma total_insert m k e : m !! k = None → total f (<[k := e]> m) = f k e + total f m.
Proof.
  intros H. unfold total. rewrite map_fold_insert_L; [done| |done]. intros; lia.
Qed.

Lemma total_delete m k e : m !! k = Some e → total f (delete k m) = total f m - f k e.
Proof.
  intros H. rewrite <- (insert_delete_id m k e H) at 2. rewrite total_insert by apply lookup_delete_eq. lia.
Qed.

Lemma total_pos m : (∀ k e, m !! k = Some e → 0 <= f k e) → 0 <= total f m.
Proof.
  induction m as [|k e m H IH] using map_ind; intros Hf; [by rewrite total_empty|].
  rewrite total_insert by done. pose proof (Hf k e (lookup_insert_eq _ _ _)).
  enough (0 <= total f m) by lia. apply IH. intros k' e' H'. apply Hf.
  rewrite lookup_insert_ne; [done|]. intros ->. congruence.
Qed.

Lemma total_lookup m k e : (∀ k e, m !! k = Some e → 0 <= f k e) → m !! k = Some e → f k e <= total f m.
Proof.
  intros Hf H. enough (0 <= total f (delete k m)) by (rewrite (total_delete m k e) in * by done; lia).
  apply total_pos. intros k' e' [_ ?]%lookup_delete_Some. by apply Hf.
Qed.

End total.

Lemma total_le f g m : (∀ k e, m !! k = Some e → f k e <= g k e) → total f m <= total g m.
Proof.
  induction m as [|k e m H IH] using map_ind; intros Hf; [by rewrite !total_empty|].
  rewrite !total_insert by done. pose proof (Hf k e (lookup_insert_eq _ _ _)).
  enough (total f m <= total g m) by lia. apply IH. intros k' e' H'. apply Hf.
  rewrite lookup_insert_ne; [done|]. intros ->. congruence.
Qed.

(** ** Keys *)

Lemma ns_of_composite ns key : len ns < 2 ^ 32 → ns_of (composite ns key) = ns.
Proof.
  intros H. unfold ns_of, composite. rewrite take_app_length', drop_app_length' by (by rewrite length_be).
  rewrite of_be_id by (apply wrap_range; lia). rewrite wrap_id by (unfold in_width; lia).
  rewrite Nat2Z.id. apply take_app_length.
Qed.

Lemma composite_inj ns key ns' key' :
  len ns < 2 ^ 32 → len ns' < 2 ^ 32 → composite ns key = composite ns' key' → ns = ns' ∧ key = key'.
Proof.
  intros H H' E. assert (ns = ns') as ->.
  { by rewrite <- (ns_of_composite ns key H), E, ns_of_composite. }
  split; [done|]. by apply app_inj_1 in E as [_ [_ ?]%app_inj_1]; [..|].
Qed.

(** ** Removal *)

Lemma entry_cost g k e : entry_ok g k e → 0 < cost e.
Proof.
  intros ((ns & key & _ & ->) & -> & _). unfold composite. rewrite length_app, length_be. lia.
Qed.

Lemma cost_of_nonneg i : wf i → ∀ k e, entries i !! k = Some e → 0 <= cost_of k e.
Proof. intros H k e He. apply (wf_entries _ H), entry_cost in He. unfold cost_of. lia. Qed.

Lemma cost_in_nonneg i ns : wf i → ∀ k e, entries i !! k = Some e → 0 <= cost_in ns k e.
Proof. intros H k e He. apply (wf_entries _ H), entry_cost in He. unfold cost_in. case_bool_decide; lia. Qed.

Lemma cost_in_total i ns : wf i → 0 <= total (cost_in ns) (entries i) <= resident i.
Proof.
  intros H. split; [apply total_pos, cost_in_nonneg, H|]. rewrite (wf_resident _ H). apply total_le.
  intros k e He. apply (wf_entries _ H), entry_cost in He. unfold cost_in, cost_of. case_bool_decide; lia.
Qed.

Lemma remove_entries k i : entries (remove k i) = delete k (entries i).
Proof. unfold remove. destruct (entries i !! k) eqn:E; [done|]. by rewrite delete_id. Qed.

Lemma remove_rest k i : fifo (remove k i) = fifo i ∧ gen (remove k i) = gen i ∧ slot_floors (remove k i) = slot_floors i.
Proof. unfold remove. by destruct (entries i !! k). Qed.

Lemma remove_resident k i :
  wf i → resident (remove k i) = resident i - match entries i !! k with Some e => cost e | None => 0 end.
Proof.
  intros H. unfold remove. destruct (entries i !! k) as [e|] eqn:E; [|lia]. cbn [resident].
  pose proof (total_lookup cost_of _ _ _ (cost_of_nonneg i H) E) as Hl. rewrite <- (wf_resident _ H) in Hl.
  pose proof (entry_cost _ _ _ (wf_entries _ H _ _ E)). pose proof (wf_range _ H). unfold cost_of in Hl.
  apply wrap_id. unfold in_width. lia.
Qed.

(** The ledger of a namespace, the key's entry gone. *)
Lemma remove_ledger k i ns :
  wf i → ns_bytes (remove k i) !! ns =
    let t := total (cost_in ns) (delete k (entries i)) in if t =? 0 then None else Some t.
Proof.
  intros H. unfold remove. destruct (entries i !! k) as [e|] eqn:E.
  2:{ rewrite delete_id by done. apply (wf_ledger _ H). }
  cbn [ns_bytes]. rewrite (total_delete _ _ _ _ E). pose proof (entry_cost _ _ _ (wf_entries _ H _ _ E)) as Hc.
  pose proof (total_lookup (cost_in (ns_of k)) _ _ _ (cost_in_nonneg i _ H) E) as Hl.
  pose proof (cost_in_total i (ns_of k) H) as Ht. pose proof (wf_range _ H) as Hr.
  unfold cost_in in Hl at 1. rewrite bool_decide_eq_true_2 in Hl by done.
  rewrite (wf_ledger _ H (ns_of k)). cbv zeta. rewrite (proj2 (Z.eqb_neq _ _)) by lia.
  rewrite wrap_id by (unfold in_width; lia). 
  assert (cost_in ns k e = if bool_decide (ns_of k = ns) then cost e else 0) as -> by done.
  destruct (decide (ns_of k = ns)) as [<-|Hn].
  - rewrite bool_decide_eq_true_2 by done. destruct (_ =? 0); [by rewrite lookup_delete_eq|by rewrite lookup_insert_eq].
  - rewrite bool_decide_eq_false_2 by done. rewrite Z.sub_0_r.
    destruct (_ =? 0); [rewrite lookup_delete_ne by done|rewrite lookup_insert_ne by done]; apply (wf_ledger _ H).
Qed.

Lemma remove_wf k i : wf i → wf (remove k i).
Proof.
  intros H. destruct (remove_rest k i) as (Ef & Eg & _).
  constructor; rewrite ?remove_entries, ?Ef, ?Eg.
  - intros k' e [_ He]%lookup_delete_Some. by apply (wf_entries _ H).
  - rewrite remove_resident by done. rewrite (wf_resident _ H). destruct (entries i !! k) as [e|] eqn:E.
    + by rewrite (total_delete _ _ _ _ E).
    + rewrite delete_id by done. lia.
  - rewrite remove_resident by done. pose proof (wf_range _ H). destruct (entries i !! k) as [e|] eqn:E; [|lia].
    pose proof (entry_cost _ _ _ (wf_entries _ H _ _ E)). lia.
  - intros ns. by apply remove_ledger.
  - intros k' e [_ He]%lookup_delete_Some. by apply (wf_queued _ H).
  - apply (wf_slots _ H).
  - apply (wf_gen _ H).
Qed.

Lemma remove_le k i : wf i → resident (remove k i) <= resident i.
Proof.
  intros H. rewrite remove_resident by done. destruct (entries i !! k) eqn:E; [|lia].
  pose proof (entry_cost _ _ _ (wf_entries _ H _ _ E)). lia.
Qed.

(** ** Eviction *)

Definition with_fifo (q : list (bytes * Z)) (i : Inner) : Inner :=
  mkInner (entries i) q (resident i) (ns_bytes i) (gen i) (slot_floors i).

Lemma with_fifo_wf q i :
  wf i → (∀ k e, entries i !! k = Some e → (k, generation e) ∈ q) → Forall (λ s, s.2 <= gen i) q →
  wf (with_fifo q i).
Proof. intros [] Hq Hs. by constructor. Qed.

(** One slot popped: every entry left has a slot in the rest. *)
Lemma pop_wf s q i :
  wf (with_fifo (s :: q) i) →
  wf (with_fifo q (if live i s then remove s.1 i else i)).
Proof.
  intros H. pose proof (wf_slots _ H) as Hs. cbn in Hs. apply Forall_cons in Hs as [_ Hs].
  assert (Hin : ∀ k e, entries i !! k = Some e → (k, generation e) = s ∨ (k, generation e) ∈ q).
  { intros k e He. apply (wf_queued _ H) in He. by apply elem_of_cons in He. }
  destruct (live i s) eqn:El; unfold live in El.
  - assert (wf (with_fifo q (remove s.1 (with_fifo (s :: q) i)))) as H'.
    { apply with_fifo_wf; [by apply remove_wf| |by rewrite (proj1 (proj2 (remove_rest _ _)))].
      intros k e. rewrite remove_entries. intros [Hk He]%lookup_delete_Some. cbn in He.
      destruct (Hin k e He) as [<-|]; [done|done]. }
    enough (with_fifo q (remove s.1 (with_fifo (s :: q) i)) = with_fifo q (remove s.1 i)) as <- by done.
    unfold remove, with_fifo. cbn. by destruct (entries i !! s.1).
  - apply (with_fifo_wf q _ H); [|done]. intros k e He. destruct (Hin k e He) as [<-|]; [|done].
    cbn in El, He. rewrite He, Z.eqb_refl in El. done.
Qed.
(** What an eviction leaves: fewer entries, the same otherwise. *)
Record shrunk (i i' : Inner) : Prop := {
  shrunk_entries : entries i' ⊆ entries i;
  shrunk_gen : gen i' = gen i;
  shrunk_floors : slot_floors i' = slot_floors i;
}.

Lemma shrunk_refl i : shrunk i i.
Proof. by constructor. Qed.

Lemma shrunk_trans i j k : shrunk i j → shrunk j k → shrunk i k.
Proof. intros [] []. constructor; [by etransitivity|congruence|congruence]. Qed.

Lemma remove_shrunk k i : shrunk i (remove k i).
Proof. destruct (remove_rest k i) as (_ & ? & ?). constructor; [rewrite remove_entries; apply delete_subseteq|done|done]. Qed.

Lemma with_fifo_shrunk q i : shrunk i (with_fifo q i).
Proof. by constructor. Qed.

Lemma resident_empty i : wf i → (∀ k, entries i !! k = None) → resident i = 0.
Proof. intros H He. rewrite (wf_resident _ H), (proj2 (map_empty (entries i)) He). apply total_empty. Qed.

Lemma evict_loop_eq budget q i :
  evict_loop budget q i =
  if resident i <=? budget then with_fifo q i
  else match q with [] => with_fifo q i | s :: q' => evict_loop budget q' (if live i s then remove s.1 i else i) end.
Proof.
  destruct q as [|s q]; cbn [evict_loop resident]; [done|]. destruct (resident i <=? budget); [done|].
  unfold live. cbn [entries]. destruct (entries i !! s.1) as [e|] eqn:E; [|by destruct q].
  destruct (generation e =? s.2); [|by destruct q]. unfold remove. cbn [entries fifo resident ns_bytes gen slot_floors].
  rewrite E. by destruct q.
Qed.

Lemma evict_spec budget q i :
  0 <= budget → wf (with_fifo q i) →
  wf (evict_loop budget q i) ∧ resident (evict_loop budget q i) <= budget ∧ shrunk i (evict_loop budget q i).
Proof.
  intros Hb. revert i. induction q as [|s q IH]; intros i H; rewrite evict_loop_eq;
    destruct (Z.leb_spec (resident i) budget) as [Hr|Hr]; try (split_and!; [done|done|apply with_fifo_shrunk]).
  - exfalso. enough (resident i = 0) by lia. apply (resident_empty (with_fifo [] i) H).
    intros k. apply eq_None_not_Some. intros [e He]. apply (wf_queued _ H) in He. by apply elem_of_nil in He.
  - destruct (IH _ (pop_wf s q i H)) as (? & ? & Hs). split_and!; [done|done|]. eapply shrunk_trans; [|exact Hs].
    destruct (live i s); [apply remove_shrunk|apply shrunk_refl].
Qed.

(** The newest entry, whose slot is the last, stays when it fits the budget. *)
Lemma evict_keeps budget q k e i :
  wf (with_fifo (q ++ [(k, generation e)]) i) → entries i !! k = Some e → cost e <= budget →
  Forall (λ s, s.2 < generation e) q →
  entries (evict_loop budget (q ++ [(k, generation e)]) i) !! k = Some e.
Proof.
  intros H He Hc Hq. revert i H He. induction Hq as [|s q Hs Hq IH]; intros i H He; cbn [app]; rewrite evict_loop_eq.
  - enough (resident i = cost e) as -> by (by rewrite (proj2 (Z.leb_le _ _)) by done).
    pose proof (wf_resident _ H) as Hr. cbn in Hr. rewrite Hr, <- (insert_delete_id _ _ _ He).
    rewrite total_insert by apply lookup_delete_eq.
    assert (delete k (entries i) = ∅) as ->; [|rewrite total_empty; unfold cost_of; lia].
    apply map_empty. intros k'. apply eq_None_not_Some. intros [e' [Hk He']%lookup_delete_Some].
    apply (wf_queued _ H) in He'. apply list_elem_of_singleton in He'. congruence.
  - destruct (_ <=? _); [done|]. apply IH; [by apply pop_wf|]. destruct (live i s) eqn:El; [|done].
    rewrite remove_entries, lookup_delete_ne; [done|]. intros <-. unfold live in El. rewrite He in El. lia.
Qed.

(** ** Shares *)

Lemma share_spec ns share doomed i :
  wf i → Forall (λ k, ns_of k = ns) doomed →
  let i' := share_loop ns share doomed i in
  wf i' ∧ shrunk i i' ∧ fifo i' = fifo i ∧ resident i' <= resident i ∧
  (∀ k, k ∉ doomed → entries i' !! k = entries i !! k) ∧
  (share < ns_resident ns i' → ∀ k, k ∈ doomed → entries i' !! k = None).
Proof.
  intros H Hd. revert i H. induction Hd as [|k doomed Hk Hd IH]; intros i H; cbn [share_loop].
  { split_and!; try done. intros _ k Hin. by apply elem_of_nil in Hin. }
  destruct (Z.leb_spec (ns_resident ns i) share) as [Hs|Hs].
  { split_and!; try done; try apply shrunk_refl; intros; lia. }
  destruct (IH (remove k i)) as (? & Hs' & Hf & Hr & Hout & Hin); [by apply remove_wf|].
  pose proof (remove_le k i H). split_and!; [done| | |lia| |].
  - eapply shrunk_trans; [apply remove_shrunk|done].
  - by rewrite Hf, (proj1 (remove_rest k i)).
  - intros k' [Hne Hk']%not_elem_of_cons. rewrite Hout by done. by rewrite remove_entries, lookup_delete_ne.
  - intros Hlt k' [->|Hk']%elem_of_cons; [|by apply Hin].
    apply eq_None_not_Some. intros [e He]. pose proof (lookup_weaken _ _ _ _ He (shrunk_entries _ _ Hs')) as He'.
    by rewrite remove_entries, lookup_delete_eq in He'.
Qed.

(** ** Insertion *)

(** An entry put in where the key has none. *)
Definition add_entry (i : Inner) (ns k : bytes) (e : Entry) : Inner :=
  mkInner (<[k := e]> (entries i)) (fifo i ++ [(k, generation e)]) (u64 (resident i + cost e))
    (<[ns := u64 (ns_resident ns i + cost e)]> (ns_bytes i)) (generation e) (slot_floors i).

(** An insertion is the old entry's removal and the addition of the new one. *)
Lemma insert_as_add i ns k v expires c :
  ns_of k = ns →
  insert_entry i ns k v expires c = add_entry (remove k i) ns k (mkEntry v expires (u64 (gen i + 1)) c).
Proof.
  intros Hn. unfold insert_entry, add_entry, remove, ns_resident. rewrite Hn.
  destruct (entries i !! k) as [old|] eqn:E; [|done].
  cbn [entries fifo resident ns_bytes gen slot_floors generation cost].
  rewrite insert_delete_eq. destruct (ns_bytes i !! ns) as [b|] eqn:Eb; [|by rewrite Eb].
  rewrite lookup_insert_eq, insert_insert_eq.
  destruct (Z.eqb_spec (u64 (b - cost old)) 0) as [E0|E0].
  - by rewrite lookup_delete_eq, insert_delete_eq, E0.
  - by rewrite lookup_insert_eq, insert_insert_eq.
Qed.

Lemma add_wf i ns k e :
  wf i → entries i !! k = None → entry_ok (generation e) k e → gen i < generation e → ns_of k = ns →
  resident i + cost e < 2 ^ 64 → wf (add_entry i ns k e).
Proof.
  intros H Hk He Hg Hn Hr. pose proof (entry_cost _ _ _ He) as Hc. pose proof (cost_in_total i ns H) as Ht.
  assert (Hl : ns_resident ns i = total (cost_in ns) (entries i)).
  { unfold ns_resident. rewrite (wf_ledger _ H). cbv zeta. by destruct (Z.eqb_spec (total (cost_in ns) (entries i)) 0). }
  constructor; cbn [add_entry entries fifo resident ns_bytes gen slot_floors].
  - intros k' e' [[<- <-]|[_ He']]%lookup_insert_Some; [done|].
    apply (wf_entries _ H) in He' as (? & ? & ?). split_and!; [done|done|lia|lia].
  - rewrite total_insert by done. rewrite <- (wf_resident _ H). unfold cost_of.
    rewrite wrap_id; [lia|]. unfold in_width. lia.
  - apply wrap_range. lia.
  - intros ns'. rewrite total_insert by done.
    assert (cost_in ns' k e = if bool_decide (ns = ns') then cost e else 0) as -> by (unfold cost_in; by rewrite Hn).
    destruct (decide (ns = ns')) as [<-|Hne].
    + rewrite lookup_insert_eq, bool_decide_eq_true_2 by done. cbv zeta. rewrite (proj2 (Z.eqb_neq _ _)) by lia.
      rewrite Hl, wrap_id by (unfold in_width; lia). f_equal. lia.
    + rewrite lookup_insert_ne, bool_decide_eq_false_2 by done. rewrite Z.add_0_l. apply (wf_ledger _ H).
  - intros k' e' [[<- <-]|[_ He']]%lookup_insert_Some; apply elem_of_app; [right; by apply list_elem_of_singleton|].
    left. by apply (wf_queued _ H).
  - apply Forall_app. split; [|by constructor]. eapply Forall_impl; [apply (wf_slots _ H)|]. cbn. lia.
  - pose proof (wf_gen _ H). lia.
Qed.

(** ** A put *)

Lemma enforce_spec i ns budget newest :
  wf i →
  let i' := enforce_ns_share i ns budget newest in
  wf i' ∧ shrunk i i' ∧ resident i' <= resident i ∧
  (∀ k, k = newest ∨ ns_of k ≠ ns → entries i' !! k = entries i !! k) ∧
  (ns_resident ns i' <= budget / Z.max (Z.of_nat (size (ns_bytes i))) 1 ∨
   ∀ k e, entries i' !! k = Some e → ns_of k = ns → k = newest).
Proof.
  intros H i'. subst i'. unfold enforce_ns_share. set (share := budget / _).
  destruct (Z.leb_spec (ns_resident ns i) share) as [Hs|Hs].
  { split_and!; [done|apply shrunk_refl|lia|done|by left]. }
  set (doomed := map fst _).
  assert (Hd : ∀ k, k ∈ doomed ↔ k ≠ newest ∧ ns_of k = ns ∧ ∃ g, (k, g) ∈ fifo i ∧ live i (k, g) = true).
  { intros k. subst doomed. rewrite list_elem_of_fmap. split.
    - intros ([k' g] & -> & Hin). apply list_elem_of_In, filter_In in Hin as [Hin Hb].
      apply andb_true_iff in Hb as [[Hb%negb_true_iff%bool_decide_eq_false Hb2%bool_decide_eq_true]%andb_true_iff Hl].
      split_and!; [done|done|]. exists g. split; [by apply list_elem_of_In|done].
    - intros (Hne & Hn & g & Hin & Hl). exists (k, g). split; [done|]. apply list_elem_of_In, filter_In.
      split; [by apply list_elem_of_In|]. cbn. by rewrite bool_decide_eq_false_2, bool_decide_eq_true_2. }
  destruct (share_spec ns share doomed i H) as (? & ? & _ & ? & Hout & Hin).
  { apply Forall_forall. intros k Hk. by apply Hd in Hk as (_ & ? & _). }
  split_and!; try done.
  - intros k Hk. apply Hout. intros (? & ? & _)%Hd. by destruct Hk.
  - destruct (Z.le_gt_cases (ns_resident ns (share_loop ns share doomed i)) share) as [?|Hlt]; [by left|right].
    intros k e He Hn. destruct (decide (k = newest)) as [|Hne]; [done|]. exfalso.
    assert (entries i !! k = Some e) as Hi by (by apply (lookup_weaken _ _ _ _ He), shrunk_entries).
    enough (entries (share_loop ns share doomed i) !! k = None) by congruence.
    apply Hin; [lia|]. apply Hd. split_and!; [done|done|]. exists (generation e).
    split; [by apply (wf_queued _ H)|]. unfold live. cbn. by rewrite Hi, Z.eqb_refl.
Qed.

(** ** Histories *)

Inductive op :=
| Get (ns key : bytes) (now : Z)
| Put (ns key v : bytes) (now : Z)
| Invalidate (ns key : bytes)
| InvalidateSlot (ns : bytes) (slot now : Z)
| InvalidateNs (ns : bytes)
| Configure (ttl max : Z)
| SetNsTtl (ns : bytes) (want : Z).

Definition apply (c : ProxyCache) (o : op) : ProxyCache :=
  match o with
  | Get ns key now => (get c ns key now).1
  | Put ns key v now => put c ns key v now
  | Invalidate ns key => invalidate c ns key
  | InvalidateSlot ns slot now => invalidate_slot c ns slot now
  | InvalidateNs ns => invalidate_ns c ns
  | Configure ttl max => configure c ttl max
  | SetNsTtl ns want => (set_ns_ttl c ns want).1
  end.

Definition run (c : ProxyCache) (ops : list op) : ProxyCache := foldl apply c ops.

(** The latest reading of the clock. *)
Definition time_of (t : Z) (o : op) : Z :=
  match o with Get _ _ now | Put _ _ _ now | InvalidateSlot _ _ now => now | _ => t end.

(** Sizes a machine can hold. *)
Definition op_ok (c : ProxyCache) (o : op) : Prop :=
  match o with
  | Get ns _ _ | Invalidate ns _ | InvalidateSlot ns _ _ | InvalidateNs ns => len ns < 2 ^ 32
  | Put ns _ _ _ => len ns < 2 ^ 32 ∧ gen (inner c) < 2 ^ 64 - 1
  | Configure ttl max => 0 <= ttl ∧ 0 <= max < 2 ^ 63
  | SetNsTtl _ want => 0 <= want
  end.

(** The operations on a cache so far, with the latest reading of the clock,
    which does not go back. *)
Inductive history (c0 : ProxyCache) : list op → Z → Prop :=
| history_nil t : history c0 [] t
| history_snoc ops t o :
    history c0 ops t → op_ok (run c0 ops) o → t <= time_of t o → history c0 (ops ++ [o]) (time_of t o).

(** What the configuration keeps true of itself. *)
Record good (c : ProxyCache) : Prop := {
  good_wf : wf (inner c);
  good_budget : resident (inner c) <= max_bytes c < 2 ^ 63;
  good_max : 0 <= max_bytes c;
  good_ttl : 0 <= ttl_ms c ∧ 0 <= ttl_max_ms c;
  good_ns_ttl : ∀ ns t, ns_ttl_ms c !! ns = Some t → 0 <= t <= ttl_max_ms c;
  good_disabled : ttl_ms c = 0 → entries (inner c) = ∅;
}.

Lemma run_snoc c ops o : run c (ops ++ [o]) = apply (run c ops) o.
Proof. unfold run. by rewrite foldl_app. Qed.

Lemma ttl_for_bounds c ns : good c → 0 <= ttl_for c ns.
Proof.
  intros H. pose proof (good_ttl _ H). unfold ttl_for. destruct (_ =? 0); [lia|].
  destruct (ns_ttl_ms c !! ns) eqn:E; cbn; [by apply (good_ns_ttl _ H ns)|lia].
Qed.

(** A cache with its entries shrunk. *)
Lemma good_inner c i :
  good c → wf i → entries i ⊆ entries (inner c) → resident i <= resident (inner c) → good (with_inner c i).
Proof.
  intros H Hi Hs Hr. pose proof (good_budget _ H). constructor; cbn; [done|lia|apply H|apply H|apply H|].
  intros Ht. apply (good_disabled _ H) in Ht. rewrite Ht in Hs. apply map_empty. intros k. apply eq_None_not_Some. intros [e He]. by apply (lookup_weaken _ _ _ _ He) in Hs.
Qed.

Lemma good_hit c : good c → good (hit c).
Proof. intros []. by constructor. Qed.

Lemma good_miss c : good c → good (miss c).
Proof. intros []. by constructor. Qed.

Lemma wf_floors i floors :
  wf i → wf (mkInner (entries i) (fifo i) (resident i) (ns_bytes i) (gen i) floors).
Proof. intros []. by constructor. Qed.

Lemma get_good c ns key now : good c → good (get c ns key now).1.
Proof.
  intros H. unfold get. destruct (negb (enabled c)); [done|].
  destruct (entries (inner c) !! _); [|by apply good_miss]. destruct (_ && _); [by apply good_hit|].
  apply good_miss, good_inner; [done|by apply remove_wf, good_wf| |by apply remove_le, good_wf].
  rewrite remove_entries. apply delete_subseteq.
Qed.

Lemma invalidate_good c ns key : good c → good (invalidate c ns key).
Proof.
  intros H. unfold invalidate. destruct (enabled c); [|done].
  apply good_inner; [done|by apply remove_wf, good_wf| |by apply remove_le, good_wf].
  rewrite remove_entries. apply delete_subseteq.
Qed.

Lemma invalidate_slot_good c ns slot now : good c → good (invalidate_slot c ns slot now).
Proof.
  intros H. unfold invalidate_slot. destruct (negb _); [done|]. cbv zeta.
  apply good_inner; [done|apply wf_floors, H|done|done].
Qed.

Lemma removes_spec ks i :
  wf i → let j := fold_left (λ i k, remove k i) ks i in
  wf j ∧ shrunk i j ∧ resident j <= resident i ∧
  ∀ k, entries j !! k = if bool_decide (k ∈ ks) then None else entries i !! k.
Proof.
  revert i. induction ks as [|k ks IH]; intros i H; cbn [fold_left].
  { split_and!; [done|apply shrunk_refl|lia|]. intros k. by rewrite bool_decide_eq_false_2 by apply not_elem_of_nil. }
  destruct (IH (remove k i)) as (? & ? & ? & He); [by apply remove_wf|]. pose proof (remove_le k i H).
  split_and!; [done|eapply shrunk_trans; [apply remove_shrunk|done]|lia|].
  intros k'. rewrite He, remove_entries. destruct (decide (k' = k)) as [->|Hne].
  - rewrite lookup_delete_eq. rewrite (bool_decide_eq_true_2 (k ∈ k :: ks)) by left. by destruct (bool_decide _).
  - rewrite lookup_delete_ne by done. rewrite (bool_decide_ext (k' ∈ k :: ks) (k' ∈ ks)); [done|].
    rewrite elem_of_cons. naive_solver.
Qed.

Lemma invalidate_ns_good c ns : good c → good (invalidate_ns c ns).
Proof.
  intros H. unfold invalidate_ns. destruct (negb _); [done|]. cbv zeta.
  destruct (removes_spec (List.filter (λ k, starts_with k (be 4 (u32 (len ns)) ++ ns))
    (map fst (map_to_list (entries (inner c))))) (inner c)) as (Hw & Hs & Hr & _); [apply H|].
  apply good_inner; [done|by apply wf_floors|apply Hs|done].
Qed.

Lemma configure_good c ttl max :
  good c → 0 <= ttl → 0 <= max < 2 ^ 63 → good (configure c ttl max).
Proof.
  intros H Ht Hm. pose proof (good_ttl _ H). unfold configure. destruct (Z.eqb_spec ttl 0) as [->|Hne].
  - assert (wf inner_default); [|by constructor; cbn; [done|lia|lia|lia|apply H|done]].
    constructor; cbn; try done; intros; by rewrite ?total_empty.
  - destruct (evict_spec max (fifo (inner c)) (inner c)) as (? & ? & ?); [lia| |].
    { destruct (good_wf _ H). by constructor. }
    unfold evict_to_budget. constructor; cbn; [done|lia|lia|lia|apply H|done].
Qed.

Lemma set_ns_ttl_good c ns want : good c → 0 <= want → good (set_ns_ttl c ns want).1.
Proof.
  intros H Hw. pose proof (good_ttl _ H). constructor; cbn; try apply H.
  intros ns' t [[_ <-]|[_ ?]]%lookup_insert_Some; [lia|by apply (good_ns_ttl _ H ns')].
Qed.

(** *** A put *)

Definition accepted (c : ProxyCache) (ns key v : bytes) : bool :=
  negb (ttl_for c ns =? 0) && (len (composite ns key) + len v <=? max_bytes c).

(** The entry an accepted put leaves. *)
Definition put_entry (c : ProxyCache) (ns key v : bytes) (now : Z) : Entry :=
  mkEntry v (now + ttl_for c ns * MILLI) (gen (inner c) + 1) (len (composite ns key) + len v).

Record put_spec (c : ProxyCache) (ns key v : bytes) (now : Z) (c' : ProxyCache) : Prop := {
  put_good : good c';
  put_here : entries (inner c') !! composite ns key = Some (put_entry c ns key v now);
  put_there k e : k ≠ composite ns key → entries (inner c') !! k = Some e → entries (inner c) !! k = Some e;
  put_gen : gen (inner c') = gen (inner c) + 1;
  put_floors : slot_floors (inner c') = slot_floors (inner c);
  put_share : ns_resident ns (inner c') <= max_bytes c / Z.of_nat (size (ns_bytes (inner c'))) ∨
    ∀ k e, entries (inner c') !! k = Some e → ns_of k = ns → k = composite ns key;
  put_fair : resident (inner c) + cost (put_entry c ns key v now) <= max_bytes c →
    ∀ k, ns_of k ≠ ns → entries (inner c') !! k = entries (inner c) !! k;
}.

(** A tenant is in the ledger when it has an entry. *)
Lemma ledger_dom i ns : wf i → is_Some (ns_bytes i !! ns) ↔ ∃ k e, entries i !! k = Some e ∧ ns_of k = ns.
Proof.
  intros H. rewrite (wf_ledger _ H). cbv zeta. split.
  - intros Hs. destruct (Z.eqb_spec (total (cost_in ns) (entries i)) 0) as [|Hne]; [by destruct Hs|].
    revert Hne. clear Hs H. induction (entries i) as [|k e m Hk IH] using map_ind; [by rewrite total_empty|].
    rewrite total_insert by done. intros Hne. destruct (decide (ns_of k = ns)) as [Hn|Hn].
    { exists k, e. by rewrite lookup_insert_eq. }
    destruct IH as (k' & e' & He' & Hn').
    { unfold cost_in in Hne at 1. rewrite bool_decide_eq_false_2 in Hne by done. lia. }
    exists k', e'. rewrite lookup_insert_ne by congruence. done.
  - intros (k & e & He & Hn). pose proof (total_lookup (cost_in ns) _ _ _ (cost_in_nonneg i ns H) He) as Hl.
    pose proof (entry_cost _ _ _ (wf_entries _ H _ _ He)). unfold cost_in in Hl at 1.
    rewrite bool_decide_eq_true_2 in Hl by done. rewrite (proj2 (Z.eqb_neq _ _)) by lia. done.
Qed.

Lemma same_tenants i j :
  wf i → wf j → (∀ ns, (∃ k e, entries i !! k = Some e ∧ ns_of k = ns) ↔ ∃ k e, entries j !! k = Some e ∧ ns_of k = ns) →
  size (ns_bytes i) = size (ns_bytes j).
Proof.
  intros Hi Hj Hd. rewrite <- !size_dom. f_equal. apply set_eq. intros ns.
  rewrite !elem_of_dom. by rewrite !ledger_dom.
Qed.

Lemma with_fifo_id i : with_fifo (fifo i) i = i.
Proof. by destruct i. Qed.

(** The state between the insertion and the evictions. *)
Lemma inserted c ns key v now :
  good c → len ns < 2 ^ 32 → gen (inner c) < 2 ^ 64 - 1 → accepted c ns key v = true →
  let e := put_entry c ns key v now in
  ∃ i, put c ns key v now =
         with_inner c (enforce_ns_share (evict_to_budget i (max_bytes c)) ns (max_bytes c) (composite ns key)) ∧
    wf i ∧ entries i = <[composite ns key := e]> (entries (inner c)) ∧
    fifo i = fifo (inner c) ++ [(composite ns key, generation e)] ∧ gen i = gen (inner c) + 1 ∧
    slot_floors i = slot_floors (inner c) ∧ resident i <= resident (inner c) + cost e ∧ cost e <= max_bytes c.
Proof.
  intros H Hns Hg [Ht%negb_true_iff Hc%Z.leb_le]%andb_true_iff e. pose proof (good_wf _ H) as Hw.
  pose proof (good_budget _ H) as Hb. pose proof (wf_gen _ Hw) as Hg0.
  pose proof (ns_of_composite ns key Hns) as Hn. unfold put. rewrite Ht, (proj2 (Z.ltb_ge _ _)) by done.
  set (k := composite ns key) in *. eexists. split; [done|].
  rewrite insert_as_add by done. rewrite wrap_id by (unfold in_width; lia).
  change (mkEntry v _ _ _) with e. destruct (remove_rest k (inner c)) as (Ef & Eg & Es).
  pose proof (remove_le k _ Hw) as Hr. change (len k + len v) with (cost e) in *.
  split; [apply add_wf; try done|unfold add_entry; cbn [entries fifo resident gen slot_floors]].
  - by apply remove_wf.
  - by rewrite remove_entries, lookup_delete_eq.
  - split; [by exists ns, key|]. split; [done|]. cbn. lia.
  - rewrite Eg. cbn. lia.
  - lia.
  - rewrite remove_entries, insert_delete_eq, Ef, Es. split_and!; try done.
    assert (0 <= cost e) by (cbn; lia).
    assert (0 <= resident (remove k (inner c))).
    { rewrite (wf_resident _ (remove_wf k _ Hw)). apply total_pos, cost_of_nonneg. by apply remove_wf. }
    rewrite wrap_id by (unfold in_width; cbn in *; lia). cbn in *. lia.
Qed.

Lemma put_accepted c ns key v now :
  good c → len ns < 2 ^ 32 → gen (inner c) < 2 ^ 64 - 1 → accepted c ns key v = true →
  put_spec c ns key v now (put c ns key v now).
Proof.
  intros H Hns Hg Ha. destruct (inserted c ns key v now H Hns Hg Ha) as (i & -> & Hw & He & Hf & Hgi & Hs & Hr & Hc).
  set (k := composite ns key) in *. set (e := put_entry c ns key v now) in *. set (B := max_bytes c) in *.
  assert (HB : 0 <= B) by apply H. pose proof (good_budget _ H) as Hb. fold B in Hb.
  destruct (evict_spec B (fifo i) i) as (Hw2 & Hr2 & Hs2); [done|by rewrite with_fifo_id|].
  assert (Hk2 : entries (evict_to_budget i B) !! k = Some e).
  { unfold evict_to_budget. rewrite Hf. apply evict_keeps; [by rewrite <- Hf, with_fifo_id|by rewrite He, lookup_insert_eq|done|].
    eapply Forall_impl; [apply (wf_slots _ (good_wf _ H))|]. cbn. lia. }
  fold (evict_to_budget i B) in *. set (i2 := evict_to_budget i B) in *.
  destruct (enforce_spec i2 ns B k Hw2) as (Hw3 & Hs3 & Hr3 & Hk3 & Hsh). set (i3 := enforce_ns_share i2 ns B k) in *.
  assert (Hsub : entries i3 ⊆ <[k := e]> (entries (inner c))).
  { rewrite <- He. etransitivity; [apply Hs3|apply Hs2]. }
  assert (Hsz : size (ns_bytes i3) = size (ns_bytes i2)).
  { apply same_tenants; [done|done|]. intros ns'. split; intros (k' & e' & He' & Hn').
    - exists k', e'. split; [|done]. by apply (lookup_weaken _ _ _ _ He'), shrunk_entries.
    - destruct (decide (ns' = ns)) as [->|Hne]; [exists k, e|exists k', e'].
      + split; [|by apply ns_of_composite]. rewrite Hk3 by (by left). done.
      + split; [|done]. rewrite Hk3; [done|]. right. congruence. }
  constructor; cbn [inner with_inner].
  - constructor; cbn; [done|lia|done|apply H|apply H|]. intros Ht. exfalso.
    apply andb_true_iff in Ha as [Ha _]. unfold ttl_for in Ha. by rewrite Ht in Ha.
  - rewrite Hk3 by (by left). done.
  - intros k' e' Hne He'. apply (lookup_weaken _ _ _ _ He') in Hsub. by rewrite lookup_insert_ne in Hsub.
  - by rewrite (shrunk_gen _ _ Hs3), (shrunk_gen _ _ Hs2).
  - by rewrite (shrunk_floors _ _ Hs3), (shrunk_floors _ _ Hs2).
  - destruct Hsh as [Hsh|Hsh]; [left|by right]. rewrite Hsz. replace (Z.of_nat _) with (Z.max (Z.of_nat (size (ns_bytes i2))) 1); [done|].
    enough (size (ns_bytes i2) ≠ 0)%nat by lia. intros E%map_size_empty_inv.
    assert (is_Some (ns_bytes i2 !! ns)) as [? Hl]; [|by rewrite E in Hl].
    apply ledger_dom; [done|]. exists k, e. split; [done|by apply ns_of_composite].
  - intros Hfit k' Hn'. fold e in Hfit. rewrite Hk3 by (by right). unfold i2, evict_to_budget. rewrite evict_loop_eq.
    rewrite (proj2 (Z.leb_le _ _)) by lia. cbn. rewrite He, lookup_insert_ne; [done|]. intros <-.
    apply Hn'. by apply ns_of_composite.
Qed.

Lemma put_refused c ns key v now : accepted c ns key v = false → put c ns key v now = c.
Proof.
  unfold accepted, put. destruct (ttl_for c ns =? 0); [done|]. cbn. intros H%Z.leb_gt.
  by rewrite (proj2 (Z.ltb_lt _ _)).
Qed.

Lemma apply_good c o : good c → op_ok c o → good (apply c o).
Proof.
  intros H Ho. destruct o; cbn [apply op_ok] in *.
  - by apply get_good.
  - destruct (accepted c ns key v) eqn:Ha; [|by rewrite put_refused].
    destruct Ho. eapply put_good, put_accepted; done.
  - by apply invalidate_good.
  - by apply invalidate_slot_good.
  - by apply invalidate_ns_good.
  - destruct Ho. by apply configure_good.
  - by apply set_ns_ttl_good.
Qed.

(** ** Freshness *)

(** Whether an operation on the cache [c] takes what it holds for the key. *)
Definition drops (c : ProxyCache) (ns key : bytes) (o : op) : bool :=
  match o with
  | Put ns' key' v _ => bool_decide (ns' = ns) && bool_decide (key' = key) && accepted c ns' key' v
  | Invalidate ns' key' => bool_decide (ns' = ns) && bool_decide (key' = key)
  | InvalidateSlot ns' slot _ => bool_decide (ns' = ns) && (slot =? Slot.slot_for_key key)
  | InvalidateNs ns' => bool_decide (ns' = ns)
  | Configure ttl _ => ttl =? 0
  | _ => false
  end.

(** An entry's origin: a put of its value, which gave it its expiry, and
    nothing since that took it, but for invalidations of its slot up to the
    [horizon]. *)
Definition origin (c0 : ProxyCache) (ops : list op) (horizon : Z) (ns key : bytes) (v : bytes) (expires : Z) : Prop :=
  ∃ pre t post, ops = pre ++ Put ns key v t :: post ∧ expires = t + ttl_for (run c0 pre) ns * MILLI ∧
    ∀ a o b, post = a ++ o :: b → drops (run c0 (pre ++ Put ns key v t :: a)) ns key o = true →
      ∃ ti, o = InvalidateSlot ns (Slot.slot_for_key key) ti ∧ ti <= horizon.

Lemma origin_new c0 ops horizon ns key v t :
  origin c0 (ops ++ [Put ns key v t]) horizon ns key v (t + ttl_for (run c0 ops) ns * MILLI).
Proof. exists ops, t, []. split_and!; [done|done|]. by intros [] ? ?. Qed.

Lemma origin_snoc c0 ops h h' o ns key v expires :
  origin c0 ops h ns key v expires → h <= h' →
  (drops (run c0 ops) ns key o = true → ∃ ti, o = InvalidateSlot ns (Slot.slot_for_key key) ti ∧ ti <= h') →
  origin c0 (ops ++ [o]) h' ns key v expires.
Proof.
  intros (pre & t & post & -> & -> & Hp) Hh Ho. exists pre, t, (post ++ [o]).
  split; [by rewrite <- app_assoc|]. split; [done|]. intros a o' b E Hd.
  destruct b as [|x b' _] using rev_ind.
  - apply app_inj_tail in E as [-> ->]. by apply Ho.
  - rewrite app_comm_cons, app_assoc in E. apply app_inj_tail in E as [-> _].
    destruct (Hp a o' b' eq_refl Hd) as (ti & -> & ?). exists ti. split; [done|lia].
Qed.

(** What is true of the entries at the time [t]: each is what its last put
    left, but for the invalidations its slot's floor still records, and for
    those older than the ceiling, whose floor may be gone. *)
Record fresh (c0 : ProxyCache) (ops : list op) (t : Z) (c : ProxyCache) : Prop := {
  fresh_entry ns key e : len ns < 2 ^ 32 → entries (inner c) !! composite ns key = Some e →
    ∃ h, origin c0 ops h ns key (val e) (expires_at e) ∧
      (h + ttl_max_ms c * MILLI < t ∨
       ∃ f, slot_floors (inner c) !! ns ≫= (.!! Slot.slot_for_key key) = Some (f, h) ∧ generation e <= f);
  fresh_floor ns slot f at_ : slot_floors (inner c) !! ns ≫= (.!! slot) = Some (f, at_) → at_ <= t;
}.

(** An operation that keeps the floors and only drops entries, and not the key
    it does not say it drops. *)
Lemma fresh_shrunk c0 ops t o c c' :
  fresh c0 ops t c → c = run c0 ops → t <= time_of t o →
  entries (inner c') ⊆ entries (inner c) →
  slot_floors (inner c') = slot_floors (inner c) → ttl_max_ms c' = ttl_max_ms c →
  (∀ ns key, len ns < 2 ^ 32 → is_Some (entries (inner c') !! composite ns key) → drops c ns key o = false) →
  fresh c0 (ops ++ [o]) (time_of t o) c'.
Proof.
  intros H -> Ht Hs Hf Hm Hd. constructor.
  - intros ns key e Hn He. pose proof (Hd ns key Hn ltac:(by eexists)) as Hdo.
    apply (lookup_weaken _ _ _ _ He) in Hs. destruct (fresh_entry _ _ _ _ H ns key e Hn Hs) as (h & Ho & Hh).
    exists h. rewrite Hf, Hm. split; [by apply (origin_snoc _ _ h); [| |congruence]|]. destruct Hh; [left; lia|by right].
  - intros ns slot f at_. rewrite Hf. intros Hfl. apply (fresh_floor _ _ _ _ H) in Hfl. lia.
Qed.

Lemma fresh_put c0 ops t ns key v now :
  fresh c0 ops t (run c0 ops) → good (run c0 ops) → t <= now →
  len ns < 2 ^ 32 → gen (inner (run c0 ops)) < 2 ^ 64 - 1 → accepted (run c0 ops) ns key v = true →
  fresh c0 (ops ++ [Put ns key v now]) now (put (run c0 ops) ns key v now).
Proof.
  intros H Hg Ht Hn Hgen Ha. pose proof (put_accepted _ _ _ _ now Hg Hn Hgen Ha) as Hp.
  assert (Hm : ttl_max_ms (put (run c0 ops) ns key v now) = ttl_max_ms (run c0 ops)).
  { unfold put. destruct (_ =? 0); [done|]. by destruct (_ <? _). }
  set (c := run c0 ops) in *. set (c' := put c ns key v now) in *.
  constructor; rewrite (put_floors _ _ _ _ _ _ Hp), ?Hm.
  - intros ns' key' e Hn' He. destruct (decide (composite ns' key' = composite ns key)) as [E|E].
    + rewrite E, (put_here _ _ _ _ _ _ Hp) in He. injection He as <-. apply composite_inj in E as [-> ->]; [|done|done].
      exists (now - ttl_max_ms c * MILLI - 1). split; [apply origin_new|left; lia].
    + apply (put_there _ _ _ _ _ _ Hp) in He; [|done].
      destruct (fresh_entry _ _ _ _ H ns' key' e Hn' He) as (h & Ho & Hh). exists h.
      split; [|destruct Hh; [left; lia|by right]]. apply (origin_snoc _ _ h); [done|lia|]. cbn. intros Hd. exfalso.
      apply andb_true_iff in Hd as [[->%bool_decide_eq_true ->%bool_decide_eq_true]%andb_true_iff _]. done.
  - intros ns' slot f at_ Hfl. apply (fresh_floor _ _ _ _ H) in Hfl. lia.
Qed.

(** The floors a tenant has once a slot of its is invalidated. *)
Lemma new_floors c ns slot now ns' s f at_ :
  enabled c = true →
  slot_floors (inner (invalidate_slot c ns slot now)) !! ns' ≫= (.!! s) = Some (f, at_) →
  ns' = ns ∧ s = slot ∧ f = gen (inner c) ∧ at_ = now ∨ slot_floors (inner c) !! ns' ≫= (.!! s) = Some (f, at_).
Proof.
  intros He Hl. unfold invalidate_slot in Hl. rewrite He in Hl. cbn [negb inner with_inner slot_floors] in Hl.
  destruct (decide (ns' = ns)) as [->|Hne]; [|rewrite lookup_insert_ne in Hl by done; by right].
  rewrite lookup_insert_eq in Hl. cbn [mbind option_bind] in Hl.
  assert (<[slot := (gen (inner c), now)]> (default ∅ (slot_floors (inner c) !! ns)) !! s = Some (f, at_)) as Hin.
  { destruct (MAX_FLOORS <? _); [|done]. by apply map_lookup_filter_Some in Hl as [? _]. }
  apply lookup_insert_Some in Hin as [[<- [= <- <-]]|[Hne Hin]]; [by left|right].
  by destruct (slot_floors (inner c) !! ns).
Qed.

(** A floor is pruned only when it is older than the ceiling. *)
Lemma kept_floors c ns slot now ns' s f at_ :
  enabled c = true → 0 <= ttl_max_ms c →
  slot_floors (inner c) !! ns' ≫= (.!! s) = Some (f, at_) → ns' ≠ ns ∨ s ≠ slot →
  slot_floors (inner (invalidate_slot c ns slot now)) !! ns' ≫= (.!! s) = Some (f, at_) ∨
  at_ + ttl_max_ms c * MILLI < now.
Proof.
  intros He Hm Hl Hne. unfold invalidate_slot. rewrite He. cbn [negb inner with_inner slot_floors].
  destruct (decide (ns' = ns)) as [->|Hn]; [|rewrite lookup_insert_ne by done; by left].
  rewrite lookup_insert_eq. cbn [mbind option_bind].
  assert (<[slot := (gen (inner c), now)]> (default ∅ (slot_floors (inner c) !! ns)) !! s = Some (f, at_)) as Hin.
  { rewrite lookup_insert_ne by naive_solver. by destruct (slot_floors (inner c) !! ns). }
  destruct (MAX_FLOORS <? _); [|by left].
  destruct (decide (now - at_ <= ttl_max_ms c * MILLI)); [left|right; lia]. by apply map_lookup_filter_Some.
Qed.

Lemma set_floor c ns slot now :
  enabled c = true → 0 <= ttl_max_ms c →
  slot_floors (inner (invalidate_slot c ns slot now)) !! ns ≫= (.!! slot) = Some (gen (inner c), now).
Proof.
  intros He Hm. unfold invalidate_slot. rewrite He. cbn [negb inner with_inner slot_floors].
  rewrite lookup_insert_eq. cbn [mbind option_bind]. destruct (MAX_FLOORS <? _); [|by rewrite lookup_insert_eq].
  apply map_lookup_filter_Some. rewrite lookup_insert_eq. split; [done|]. cbn. unfold MILLI. lia.
Qed.

Lemma fresh_slot c0 ops t ns slot now :
  fresh c0 ops t (run c0 ops) → good (run c0 ops) → t <= now → len ns < 2 ^ 32 →
  fresh c0 (ops ++ [InvalidateSlot ns slot now]) now (invalidate_slot (run c0 ops) ns slot now).
Proof.
  intros H Hg Ht Hn. destruct (enabled (run c0 ops)) eqn:Hen.
  2:{ assert (invalidate_slot (run c0 ops) ns slot now = run c0 ops) as -> by (unfold invalidate_slot; by rewrite Hen).
      apply (fresh_shrunk c0 ops t (InvalidateSlot ns slot now) (run c0 ops)); try done.
      intros ns' key' _ [e He]. rewrite (good_disabled _ Hg) in He; [done|]. unfold enabled in Hen.
      pose proof (good_ttl _ Hg). lia. }
  set (c := run c0 ops) in *. assert (Hm : 0 <= ttl_max_ms c) by (pose proof (good_ttl _ Hg); lia).
  assert (He : entries (inner (invalidate_slot c ns slot now)) = entries (inner c) ∧
    ttl_max_ms (invalidate_slot c ns slot now) = ttl_max_ms c)
    by (unfold invalidate_slot; by rewrite Hen).
  destruct He as (He & Hmax). constructor; rewrite ?He, ?Hmax.
  - intros ns' key e Hn' Hk. destruct (fresh_entry _ _ _ _ H ns' key e Hn' Hk) as (h & Ho & Hh).
    assert (h <= now) as Hle.
    { destruct Hh as [|(f & Hf & _)]; [unfold MILLI in *; nia|]. apply (fresh_floor _ _ _ _ H) in Hf. lia. }
    destruct (decide (ns' = ns ∧ Slot.slot_for_key key = slot)) as [[-> Hsl]|Hne].
    + exists now. split; [apply (origin_snoc _ _ h); [done|done|]; intros _; exists now; split; [by rewrite Hsl|done]|].
      right. exists (gen (inner c)). rewrite Hsl, set_floor by done. split; [done|].
      apply (wf_entries _ (good_wf _ Hg)) in Hk as (_ & _ & ?). lia.
    + exists h. split.
      { apply (origin_snoc _ _ h); [done|done|]. cbn. intros [->%bool_decide_eq_true ->%Z.eqb_eq]%andb_true_iff. naive_solver. }
      destruct Hh as [|(f & Hf & Hgf)]; [left; lia|].
      destruct (kept_floors c ns slot now ns' (Slot.slot_for_key key) f h) as [->|Hold]; try done.
      * destruct (decide (ns' = ns)) as [->|]; [right|by left]. naive_solver.
      * right. by exists f.
      * by left.
  - intros ns' s f at_ [(-> & -> & -> & ->)|Hl]%new_floors; [done| |done]. apply (fresh_floor _ _ _ _ H) in Hl. lia.
Qed.

(** An entry of the tenant is one whose key starts with the tenant's prefix. *)
Lemma invalidated_ns c ns k e :
  good c → enabled c = true → len ns < 2 ^ 32 →
  entries (inner (invalidate_ns c ns)) !! k = Some e ↔ entries (inner c) !! k = Some e ∧ ns_of k ≠ ns.
Proof.
  intros Hg He Hn. unfold invalidate_ns. rewrite He. cbn [negb inner with_inner entries].
  set (doomed := List.filter _ _).
  destruct (removes_spec doomed (inner c)) as (_ & _ & _ & ->); [apply Hg|].
  assert (Hd : ∀ e, entries (inner c) !! k = Some e → k ∈ doomed ↔ ns_of k = ns).
  { intros e' Hk. unfold doomed. rewrite list_elem_of_In, filter_In, <- list_elem_of_In.
    destruct (wf_entries _ (good_wf _ Hg) _ _ Hk) as ((ns' & key' & Hn' & ->) & _).
    rewrite ns_of_composite, starts_with_true by done. split.
    - intros [_ [r E]]. rewrite <- app_assoc in E. by apply composite_inj in E as [-> _].
    - intros ->. split; [|by exists key'; rewrite <- app_assoc].
      apply list_elem_of_fmap. exists (composite ns key', e'). split; [done|]. by apply elem_of_map_to_list. }
  split.
  - intros Hk. case_bool_decide as Hin; [done|]. split; [done|]. intros Hns. by apply Hin, (Hd e).
  - intros [Hk Hns]. rewrite bool_decide_eq_false_2; [done|]. intros Hin. by apply Hns, (Hd e).
Qed.

Lemma fresh_ns c0 ops t ns :
  fresh c0 ops t (run c0 ops) → good (run c0 ops) → len ns < 2 ^ 32 →
  fresh c0 (ops ++ [InvalidateNs ns]) t (invalidate_ns (run c0 ops) ns).
Proof.
  intros H Hg Hn. destruct (enabled (run c0 ops)) eqn:Hen.
  2:{ assert (invalidate_ns (run c0 ops) ns = run c0 ops) as -> by (unfold invalidate_ns; by rewrite Hen).
      apply (fresh_shrunk c0 ops t (InvalidateNs ns) (run c0 ops)); try done.
      intros ns' key' _ [e He]. rewrite (good_disabled _ Hg) in He; [done|]. unfold enabled in Hen.
      pose proof (good_ttl _ Hg). lia. }
  pose proof (invalidated_ns (run c0 ops) ns) as Hi. set (c := run c0 ops) in *.
  assert (Hrest : slot_floors (inner (invalidate_ns c ns)) = delete ns (slot_floors (inner c)) ∧
    ttl_max_ms (invalidate_ns c ns) = ttl_max_ms c).
  { unfold invalidate_ns. rewrite Hen. cbn [negb inner with_inner slot_floors gen ttl_max_ms].
    destruct (removes_spec (List.filter (λ k, starts_with k (be 4 (u32 (len ns)) ++ ns))
      (map fst (map_to_list (entries (inner c))))) (inner c)) as (_ & Hs & _); [apply Hg|].
    by rewrite (shrunk_floors _ _ Hs). }
  destruct Hrest as (Hfl & Hmax). constructor; rewrite ?Hfl, ?Hmax.
  - intros ns' key e Hn' [Hk Hne]%Hi; [|done..]. rewrite ns_of_composite in Hne by done.
    destruct (fresh_entry _ _ _ _ H ns' key e Hn' Hk) as (h & Ho & Hh). exists h. rewrite lookup_delete_ne by done.
    split; [|done]. apply (origin_snoc _ _ h); [done|done|]. cbn. by intros ->%bool_decide_eq_true.
  - intros ns' s f at_ Hf. destruct (decide (ns' = ns)) as [->|]; [by rewrite lookup_delete_eq in Hf|].
    rewrite lookup_delete_ne in Hf by done. by apply (fresh_floor _ _ _ _ H) in Hf.
Qed.

(** ** Every history *)

Lemma get_inner c ns key now :
  entries (inner (get c ns key now).1) ⊆ entries (inner c) ∧
  slot_floors (inner (get c ns key now).1) = slot_floors (inner c) ∧ ttl_max_ms (get c ns key now).1 = ttl_max_ms c.
Proof.
  unfold get. destruct (negb (enabled c)); [done|]. destruct (entries (inner c) !! _); [|done].
  destruct (_ && _); [done|]. destruct (remove_shrunk (composite ns key) (inner c)). done.
Qed.

Lemma fresh_step c0 ops t o :
  fresh c0 ops t (run c0 ops) → good (run c0 ops) → op_ok (run c0 ops) o → t <= time_of t o →
  fresh c0 (ops ++ [o]) (time_of t o) (apply (run c0 ops) o).
Proof.
  intros H Hg Ho Ht. destruct o as [ns key now|ns key v now|ns key|ns slot now|ns|ttl max|ns want]; cbn [apply].
  - destruct (get_inner (run c0 ops) ns key now) as (? & ? & ?). by apply (fresh_shrunk c0 ops t _ (run c0 ops)).
  - destruct Ho as [Hn Hgen]. destruct (accepted (run c0 ops) ns key v) eqn:Ha; [by apply fresh_put with t|].
    rewrite put_refused by done. apply (fresh_shrunk c0 ops t (Put ns key v now) (run c0 ops)); try done.
    intros ns' key' _ _. cbn. destruct (bool_decide (ns = ns')) eqn:E1, (bool_decide (key = key')) eqn:E2; try done.
  - unfold invalidate. destruct (enabled (run c0 ops)) eqn:Hen.
    + destruct (remove_shrunk (composite ns key) (inner (run c0 ops))).
      apply (fresh_shrunk c0 ops t _ (run c0 ops)); try done. intros ns' key' Hn' [e He]. cbn in He.
      rewrite remove_entries in He. apply lookup_delete_Some in He as [Hne _]. cbn.
      destruct (decide (ns = ns')) as [->|]; [|by rewrite bool_decide_eq_false_2].
      rewrite (bool_decide_eq_false_2 (key = key')) by (by intros ->). by rewrite andb_false_r.
    + apply (fresh_shrunk c0 ops t (Invalidate ns key) (run c0 ops)); try done.
      intros ns' key' _ [e He]. rewrite (good_disabled _ Hg) in He; [done|]. unfold enabled in Hen.
      pose proof (good_ttl _ Hg). lia.
  - by apply fresh_slot with t.
  - by apply fresh_ns.
  - cbn [op_ok] in Ho. unfold configure. destruct (Z.eqb_spec ttl 0) as [->|Hne].
    + constructor; cbn; intros; exfalso; done.
    + destruct (evict_spec max (fifo (inner (run c0 ops))) (inner (run c0 ops))) as (_ & _ & []); [lia| |].
      { rewrite with_fifo_id. apply Hg. }
      apply (fresh_shrunk c0 ops t _ (run c0 ops)); try done. intros ns' key' _ _. cbn. by apply Z.eqb_neq.
  - by apply (fresh_shrunk c0 ops t _ (run c0 ops)).
Qed.

(** A cache as the proxy makes it. *)
Definition made (c0 : ProxyCache) : Prop :=
  ∃ ttl max ceiling, c0 = with_ceiling ttl max ceiling ∧ 0 <= ttl ∧ 0 <= ceiling ∧ 0 <= max < 2 ^ 63.

Lemma made_good c0 t : made c0 → good c0 ∧ fresh c0 [] t c0.
Proof.
  intros (ttl & max & ceiling & -> & Ht & Hc & Hm). split; [|by constructor].
  constructor; cbn; try done; try lia.
Qed.

Lemma history_spec c0 ops t : made c0 → history c0 ops t → good (run c0 ops) ∧ fresh c0 ops t (run c0 ops).
Proof.
  intros Hm. induction 1 as [t|ops t o _ [IHg IHf] Ho Ht]; [by apply made_good|].
  rewrite run_snoc. split; [by apply apply_good|by apply fresh_step].
Qed.

(** The ceiling is fixed when the cache is made. *)
Lemma run_ceiling c0 ops : ttl_max_ms (run c0 ops) = ttl_max_ms c0.
Proof.
  induction ops as [|o ops IH] using rev_ind; [done|]. rewrite run_snoc, <- IH. generalize (run c0 ops). intros c.
  destruct o as [ns key now| ns key v now|ns key|ns slot now|ns|ttl max|ns want]; cbn [apply]; [apply get_inner| | | | |done|done].
  - unfold put. destruct (_ =? 0); [done|]. by destruct (_ <? _).
  - unfold invalidate. by destruct (enabled c).
  - unfold invalidate_slot. by destruct (negb _).
  - unfold invalidate_ns. by destruct (negb _).
Qed.

(** What follows a put is not timed before it. *)
Lemma history_after c0 ops t :
  history c0 ops t → ∀ pre ns key v tp post, ops = pre ++ Put ns key v tp :: post →
  tp <= t ∧ ∀ ns' slot ti, InvalidateSlot ns' slot ti ∈ post → tp <= ti.
Proof.
  induction 1 as [t|ops t o _ IH _ Ht]; intros pre ns key v tp post E; [by destruct pre|].
  destruct post as [|x post' _] using rev_ind.
  - apply app_inj_tail in E as [-> ->]. split; [done|]. by intros ? ? ? ?%elem_of_nil.
  - rewrite app_comm_cons, app_assoc in E. apply app_inj_tail in E as [-> ->].
    destruct (IH pre ns key v tp post' eq_refl) as [H1 H2]. split; [lia|].
    intros ns' slot ti [Hin|Hin]%elem_of_app; [by apply (H2 ns' slot)|].
    apply list_elem_of_singleton in Hin as <-. cbn in Ht. lia.
Qed.

(** ** What a put leaves in the queue *)

(** A put that fits the budget pops nothing from the queue. *)
Lemma put_fifo c ns key v now :
  good c → len ns < 2 ^ 32 → gen (inner c) < 2 ^ 64 - 1 → accepted c ns key v = true →
  resident (inner c) + cost (put_entry c ns key v now) <= max_bytes c →
  fifo (inner (put c ns key v now)) = fifo (inner c) ++ [(composite ns key, gen (inner c) + 1)].
Proof.
  intros H Hns Hg Ha Hfit. destruct (inserted c ns key v now H Hns Hg Ha) as (i & -> & Hw & _ & Hf & _ & _ & Hr & _).
  cbn [inner with_inner]. change (gen (inner c) + 1) with (generation (put_entry c ns key v now)). rewrite <- Hf.
  unfold evict_to_budget. rewrite evict_loop_eq, (proj2 (Z.leb_le _ _)) by lia.
  rewrite with_fifo_id. unfold enforce_ns_share. destruct (_ <=? _); [done|]. set (doomed := map fst _).
  destruct (share_spec ns (max_bytes c / Z.max (Z.of_nat (size (ns_bytes i))) 1) doomed i Hw) as (_ & _ & ? & _); [|done].
  apply Forall_forall. intros k (s & -> & Hs)%list_elem_of_fmap. apply list_elem_of_In, filter_In in Hs as [_ Hs].
  by apply andb_true_iff in Hs as [[_ ?%bool_decide_eq_true]%andb_true_iff _].
Qed.

(** The same key put over and over. *)
Definition one_key : ProxyCache := with_ceiling 1 10 1.
Definition again : op := Put [] [] [] 0.

Lemma put_again n :
  Z.of_nat n < 2 ^ 64 - 1 →
  let c := run one_key (replicate n again) in
  history one_key (replicate n again) 0 ∧ good c ∧ gen (inner c) = Z.of_nat n ∧ length (fifo (inner c)) = n ∧
  max_bytes c = 10 ∧ ttl_for c [] = 1 ∧ (∀ k, k ≠ composite [] [] → entries (inner c) !! k = None) ∧
  resident (inner c) <= 4.
Proof.
  induction n as [|n IH]; intros Hn; cbv zeta.
  { split_and!; try done. apply history_nil. }
  destruct IH as (Hh & Hg & Hgen & Hl & Hb & Ht & Hk & Hr); [lia|].
  rewrite replicate_S_end, run_snoc. set (c := run one_key (replicate n again)) in *. cbn [apply again].
  assert (Ha : accepted c [] [] [] = true) by (unfold accepted; by rewrite Ht, Hb).
  pose proof (put_accepted c [] [] [] 0 Hg eq_refl ltac:(lia) Ha) as Hp.
  assert (Hk' : ∀ k, k ≠ composite [] [] → entries (inner (put c [] [] [] 0)) !! k = None).
  { intros k Hne. apply eq_None_not_Some. intros [e He]. apply (put_there _ _ _ _ _ _ Hp) in He; [|done].
    by rewrite Hk in He. }
  assert (max_bytes (put c [] [] [] 0) = max_bytes c ∧ ttl_for (put c [] [] [] 0) [] = ttl_for c []) as [Eb Et].
  { unfold put. destruct (ttl_for c [] =? 0); [done|]. by destruct (_ <? _). }
  split_and!; try done.
  - rewrite <- replicate_S_end. rewrite replicate_S_end. apply (history_snoc _ _ 0 again); [done| |done].
    split; [done|]. fold c. lia.
  - apply Hp.
  - rewrite (put_gen _ _ _ _ _ _ Hp). lia.
  - rewrite put_fifo; try done; [|lia|cbn; lia]. rewrite length_app, Hl. cbn. lia.
  - by rewrite Eb.
  - by rewrite Et.
  - rewrite (wf_resident _ (good_wf _ (put_good _ _ _ _ _ _ Hp))).
    rewrite <- (insert_delete_id _ _ _ (put_here _ _ _ _ _ _ Hp)), total_insert by apply lookup_delete_eq.
    assert (delete (composite [] []) (entries (inner (put c [] [] [] 0))) = ∅) as ->; [|by rewrite total_empty].
    apply map_empty. intros k. destruct (decide (k = composite [] [])) as [->|]; [by rewrite lookup_delete_eq|].
    rewrite lookup_delete_ne by done. by apply Hk'.
Qed.

(** ** A floor pruned too early *)

(** Scripts in 1025 slots, 31 seconds on. *)
Definition storm : list op := map (λ n, InvalidateSlot [] (Z.of_nat n) (31 * 1000 * MILLI)) (seq 0 1025).

Definition loose : ProxyCache := with_ceiling 60000 100 30000.
Definition loose_ops : list op :=
  [Put [] (bstr "k") (bstr "old") 0; InvalidateSlot [] (Slot.slot_for_key (bstr "k")) 0] ++ storm.

Lemma history_slots c0 ops now l :
  history c0 ops now → history c0 (ops ++ map (λ n, InvalidateSlot [] (Z.of_nat n) now) l) now.
Proof.
  intros H. induction l as [|n l IH] using rev_ind; [by rewrite app_nil_r|].
  rewrite map_app, app_assoc. by apply (history_snoc _ _ now (InvalidateSlot [] (Z.of_nat n) now)).
Qed.

(** With a fleet time to live over the ceiling, the invalidation is forgotten
    before the entry expires. *)
Lemma floor_pruned :
  made loose ∧ history loose loose_ops (31 * 1000 * MILLI) ∧
  (get (run loose loose_ops) [] (bstr "k") (32 * 1000 * MILLI)).2 = Some (bstr "old").
Proof.
  split; [by exists 60000, 100, 30000|]. split; [|vm_compute; reflexivity].
  unfold loose_ops, storm. change (seq 0 1025) with (0%nat :: seq 1 1024). rewrite map_cons.
  set (first := InvalidateSlot [] (Z.of_nat 0) (31 * 1000 * MILLI)).
  set (two := [Put [] (bstr "k") (bstr "old") 0; InvalidateSlot [] (Slot.slot_for_key (bstr "k")) 0]).
  change (two ++ first :: ?l) with (two ++ ([first] ++ l)). rewrite app_assoc. apply history_slots.
  apply (history_snoc loose two 0 first); [|done|done].
  apply (history_snoc loose (take 1 two) 0 (InvalidateSlot [] (Slot.slot_for_key (bstr "k")) 0)); [|done|done].
  by apply (history_snoc loose [] 0 (Put [] (bstr "k") (bstr "old") 0)); [constructor| |].
Qed.

(** ** What a write drops *)

(** No read is answered for the key. *)
Definition gone (c : ProxyCache) (ns key : bytes) : Prop :=
  ∀ now, (get c ns key now).2 = None.

(** The entry is not there, or behind its slot's floor. *)
Definition absent (c : ProxyCache) (ns key : bytes) : Prop :=
  enabled c = true →
  match entries (inner c) !! composite ns key with Some e => below_floor (inner c) ns key e = true | None => True end.

Lemma absent_gone c ns key : absent c ns key → gone c ns key.
Proof.
  intros H now. unfold get. destruct (enabled c) eqn:He; [|done]. cbn [negb]. specialize (H He).
  destruct (entries (inner c) !! _); [|done]. by rewrite H, andb_false_r.
Qed.

Lemma absent_invalidate c ns key key' : absent c ns key → absent (invalidate c ns key') ns key.
Proof.
  unfold invalidate. destruct (enabled c) eqn:He; [|done]. intros H _. specialize (H He). cbn [inner with_inner].
  rewrite remove_entries. destruct (decide (composite ns key' = composite ns key)) as [->|Hne]; [by rewrite lookup_delete_eq|].
  rewrite lookup_delete_ne by done. unfold below_floor in *.
  by rewrite (proj2 (proj2 (remove_rest (composite ns key') (inner c)))).
Qed.

Lemma invalidate_absent c ns key : absent (invalidate c ns key) ns key.
Proof.
  unfold invalidate, absent. destruct (enabled c) eqn:He; [|by rewrite He]. intros _. cbn [inner with_inner].
  by rewrite remove_entries, lookup_delete_eq.
Qed.

Definition invalidate_all (c : ProxyCache) (ns : bytes) (keys : list bytes) : ProxyCache :=
  foldl (λ c k, invalidate c ns k) c keys.

Lemma invalidate_all_absent c ns keys key : key ∈ keys → absent (invalidate_all c ns keys) ns key.
Proof.
  unfold invalidate_all. intros H.
  assert (∀ l c, absent c ns key → absent (foldl (λ c k, invalidate c ns k) c l) ns key) as Hkeep.
  { induction l as [|k l IH]; intros c' Hc; [done|]. by apply IH, absent_invalidate. }
  revert c H. induction keys as [|k keys IH]; intros c H; [by apply elem_of_nil in H|]. cbn [foldl].
  apply elem_of_cons in H as [<-|H]; [by apply Hkeep, invalidate_absent|by apply IH].
Qed.

(** [args.get(i)], as the keys it gives. *)
Definition arg (i : nat) (args : list bytes) : list bytes := match args !! i with Some k => [k] | None => [] end.

(** [cache_invalidate_written]; [placed] says whether the tenant is placed on
    one pair. *)
Definition cache_invalidate_written (placed : bool) (c : ProxyCache) (ns : bytes) (args : list bytes) (now : Z) :
    ProxyCache :=
  match args with
  | [] => c
  | name :: rest =>
      if named ["DEL"; "UNLINK"]%string name then invalidate_all c ns rest
      else if named ["EVAL"; "EVALSHA"]%string name then
        if placed then invalidate_ns c ns
        else match default [] (eval_keys args) with
             | first :: _ => invalidate_slot c ns (Slot.slot_for_key first) now
             | [] => c
             end
      else if named ["MSET"]%string name then invalidate_all c ns (every 1 2 args)
      else if named ["JSON.MSET"]%string name then invalidate_all c ns (every 1 3 args)
      else if named ["COPY"]%string name then invalidate_all c ns (arg 2 args)
      else if named ["BITOP"]%string name then invalidate_all c ns (arg 2 args)
      else if named ["RENAME"; "RENAMENX"; "LMOVE"; "RPOPLPUSH"; "BLMOVE"; "BRPOPLPUSH"; "SMOVE"]%string name
      then invalidate_all c ns (take 2 rest)
      else if named ["GEORADIUS"; "GEORADIUSBYMEMBER"]%string name then invalidate_all c ns (georadius_store_keys args)
      else if named ["FLUSHALL"; "FLUSHDB"]%string name then invalidate_ns c ns
      else invalidate_all c ns (arg 1 args)
  end.

Definition cache_writeback (placed : bool) (c : ProxyCache) (ns : bytes) (args : list bytes) (reply : Value)
    (local_cache cacheable : bool) (now : Z) : ProxyCache :=
  let c :=
    match reply with
    | Bulk (Some v) => if cacheable then put c ns (default [] (args !! 1%nat)) v now else c
    | _ => c
    end in
  if local_cache && enabled c && first_is is_write_command args then cache_invalidate_written placed c ns args now
  else c.

(** ** Every key a write may change *)

(** Writes of several keys, or of a key that does not come first, that have no
    arm of their own in [cache_invalidate_written]. *)
Definition ELEMENT_WRITES : list String.string :=
  ["BLPOP"; "BRPOP"; "BZPOPMIN"; "BZPOPMAX"; "LMPOP"; "ZMPOP"; "BLMPOP"; "BZMPOP";
   "XREADGROUP"; "FLINTXREADGROUP"; "XGROUP"]%string.

(** The keys the command may change: those the command table says it writes;
    any key of the first key's slot for a script, or of the tenant when it is
    placed; every key for a flush. *)
Definition may_change (placed : bool) (args : list bytes) (key : bytes) : Prop :=
  match written_keys args with
  | Some All => True
  | Some (Script ks) =>
      placed = true ∨ ∃ first, head ks = Some first ∧ Slot.slot_for_key key = Slot.slot_for_key first
  | Some (Keys ks) => key ∈ ks
  | None => False
  end.

(** Keys in the table that the cache is not told of: COPY's source and the keys
    of PFCOUNT after the first, whose strings stay as they were, and the keys of
    the writes above but for one that is their first argument. *)
Definition skipped (args : list bytes) (key : bytes) : bool :=
  first_is (named ["COPY"]%string) args && negb (bool_decide (args !! 2%nat = Some key)) ||
  first_is (named ("PFCOUNT" :: ELEMENT_WRITES)%string) args && negb (bool_decide (args !! 1%nat = Some key)).

Lemma named_outside l l' n : within l' l = true → named l n = false → named l' n = false.
Proof.
  intros Hw Hn. apply not_true_is_false. intros H. apply (named_within _ _ _ Hw) in H. congruence.
Qed.

Lemma named_either l l1 l2 n :
  within l (l1 ++ l2) = true → named l n = true → named l2 n = false → named l1 n = true.
Proof.
  intros Hw Hn H2. apply (named_within _ _ _ Hw) in Hn. unfold named in *. rewrite existsb_app in Hn.
  by rewrite H2, orb_false_r in Hn.
Qed.

(** With [H] the name's table, or a table it is not in, the other tests on the
    name compute. *)
Ltac by_table H :=
  repeat match type of H with
  | named ?l ?n = true =>
      match goal with
      | |- context [named ?l' n] =>
          let v := eval vm_compute in (apart l l') in
          let w := eval vm_compute in (within l l') in
          lazymatch v with
          | true => rewrite (named_apart l l' n) by (vm_compute; reflexivity || exact H)
          | false => lazymatch w with
                     | true => rewrite (named_within l l' n) by (vm_compute; reflexivity || exact H)
                     end
          end
      end
  | named ?l ?n = false =>
      match goal with
      | |- context [named ?l' n] =>
          let w := eval vm_compute in (within l' l) in
          lazymatch w with true => rewrite (named_outside l l' n) by (vm_compute; reflexivity || exact H) end
      end
  end.

Lemma arg_elem i args key : args !! i = Some key → key ∈ arg i args.
Proof. intros E. unfold arg. rewrite E. left. Qed.

Lemma take_one_arg i args (key : bytes) : key ∈ take 1 (drop i args) → key ∈ arg i args.
Proof.
  unfold arg. rewrite <- (Nat.add_0_r i), <- lookup_drop. rewrite (Nat.add_0_r i).
  by destruct (drop i args) as [|x l]; [intros ?%elem_of_nil|cbn; rewrite take_0].
Qed.

Lemma keys_inj a b : Some (Keys a) = Some (Keys b) → b = a.
Proof. by intros [= ->]. Qed.

Lemma skipped_false n rest key :
  skipped (n :: rest) key = false →
  (named ["COPY"]%string n = true → (n :: rest) !! 2%nat = Some key) ∧
  (named ("PFCOUNT" :: ELEMENT_WRITES)%string n = true → (n :: rest) !! 1%nat = Some key).
Proof.
  unfold skipped. cbn [first_is]. intros [Hc He]%orb_false_iff.
  split; intros Hn; [rewrite Hn in Hc|rewrite Hn in He]; by eapply bool_decide_eq_true_1, negb_false_iff.
Qed.

Lemma keys_absent placed c ns args now ks key :
  written_keys args = Some (Keys ks) → key ∈ ks → skipped args key = false →
  absent (cache_invalidate_written placed c ns args now) ns key.
Proof.
  intros Hw Hk Hs. destruct args as [|n rest]; [done|]. apply skipped_false in Hs as [Hcopy He]. unfold written_keys in Hw.
  unfold cache_invalidate_written. remember (n :: rest) as args eqn:Ea.
  destruct (negb (is_write_command n)); [done|].
  destruct (named ["FLUSHALL"; "FLUSHDB"]%string n) eqn:Hf; [done|].
  destruct (named ["EVAL"; "EVALSHA"]%string n) eqn:Hev; [done|]. apply keys_inj in Hw as ->.
  destruct (named ("PFCOUNT" :: ELEMENT_WRITES)%string n) eqn:Hel.
  { by_table Hel. by apply invalidate_all_absent, arg_elem, He. }
  destruct (named ["DEL"; "UNLINK"; "PFCOUNT"]%string n) eqn:H1.
  { assert (named ["DEL"; "UNLINK"]%string n = true) as Hd
      by (apply (named_either _ _ ["PFCOUNT"]%string n) with (2 := H1); [done|by_table Hel; done]).
    by_table Hd. apply invalidate_all_absent. by rewrite Ea in Hk. }
  destruct (named ["MSET"]%string n) eqn:H2; [by_table H2; by apply invalidate_all_absent|].
  destruct (named ["JSON.MSET"]%string n) eqn:H3; [by_table H3; by apply invalidate_all_absent|].
  destruct (named ["RENAME"; "RENAMENX"; "COPY"; "SMOVE"; "LMOVE"; "BLMOVE"; "RPOPLPUSH"; "BRPOPLPUSH"]%string n) eqn:H4.
  { destruct (named ["COPY"]%string n) eqn:Hc.
    - by_table Hc. by apply invalidate_all_absent, arg_elem, Hcopy.
    - assert (named ["RENAME"; "RENAMENX"; "LMOVE"; "RPOPLPUSH"; "BLMOVE"; "BRPOPLPUSH"; "SMOVE"]%string n = true) as Hd
        by (by apply (named_either _ _ ["COPY"]%string n) with (2 := H4)).
      by_table Hd. apply invalidate_all_absent. by rewrite Ea in Hk. }
  by_table H1. by_table H4. revert Hk. by_table Hel. intros Hk.
  destruct (named ["BITOP"]%string n); [by apply invalidate_all_absent, take_one_arg|].
  destruct (named ["GEORADIUS"; "GEORADIUSBYMEMBER"]%string n); [by apply invalidate_all_absent|].
  by apply invalidate_all_absent, take_one_arg.
Qed.

(** Dropping other keys does not change what is answered for this one. *)
Lemma get_others c ns keys key now :
  len ns < 2 ^ 32 → key ∉ keys → (get (invalidate_all c ns keys) ns key now).2 = (get c ns key now).2.
Proof.
  intros Hn. revert c. induction keys as [|k keys IH]; intros c Hk; [done|]. apply not_elem_of_cons in Hk as [Hne Hk].
  unfold invalidate_all in *. cbn [foldl]. rewrite IH by done. unfold invalidate. destruct (enabled c) eqn:He; [|done].
  unfold get. change (enabled (with_inner c (remove (composite ns k) (inner c)))) with (enabled c). rewrite He. cbn [negb inner with_inner].
  rewrite remove_entries, lookup_delete_ne by (intros E; apply composite_inj in E as [_ ?]; [congruence|done|done]).
  destruct (entries (inner c) !! composite ns key) as [e|]; [|done]. unfold below_floor.
  rewrite (proj2 (proj2 (remove_rest (composite ns k) (inner c)))). by destruct (_ && _).
Qed.

Lemma arg_other i args key : args !! i ≠ Some key → key ∉ arg i args.
Proof.
  unfold arg. destruct (args !! i) as [k|]; [|by intros _ ?%elem_of_nil].
  intros Hne Hin%list_elem_of_singleton. congruence.
Qed.

(** A skipped key is answered as before the write. *)
Lemma skipped_kept placed c ns args now key now' :
  len ns < 2 ^ 32 → skipped args key = true →
  (get (cache_invalidate_written placed c ns args now) ns key now').2 = (get c ns key now').2.
Proof.
  intros Hn Hs. destruct args as [|n rest]; [done|]. unfold skipped in Hs. cbn [first_is] in Hs.
  unfold cache_invalidate_written. apply orb_true_iff in Hs as [[Hc Hk]%andb_true_iff|[Hc Hk]%andb_true_iff];
    apply negb_true_iff, bool_decide_eq_false in Hk; by_table Hc; by apply get_others, arg_other.
Qed.

Lemma ns_absent c ns key : good c → len ns < 2 ^ 32 → absent (invalidate_ns c ns) ns key.
Proof.
  intros Hg Hn He'. destruct (enabled c) eqn:He.
  2:{ unfold invalidate_ns in He'. rewrite He in He'. cbn in He'. congruence. }
  destruct (entries (inner (invalidate_ns c ns)) !! composite ns key) as [e|] eqn:E; [|done]. exfalso.
  apply invalidated_ns in E as [_ Hne]; [|done..]. by apply Hne, ns_of_composite.
Qed.

Lemma slot_absent c ns slot now key :
  good c → Slot.slot_for_key key = slot → absent (invalidate_slot c ns slot now) ns key.
Proof.
  intros Hg Hs He'. destruct (enabled c) eqn:He.
  2:{ unfold invalidate_slot in He'. rewrite He in He'. cbn in He'. congruence. }
  assert (entries (inner (invalidate_slot c ns slot now)) = entries (inner c)) as -> by (unfold invalidate_slot; by rewrite He).
  destruct (entries (inner c) !! _) as [e|] eqn:E; [|done]. unfold below_floor. rewrite Hs.
  rewrite set_floor; [|done|pose proof (good_ttl _ Hg); lia].
  apply (wf_entries _ (good_wf _ Hg)) in E as (_ & _ & ?). apply Z.leb_le. lia.
Qed.

Lemma written_absent placed c ns args now key :
  good c → len ns < 2 ^ 32 → may_change placed args key → skipped args key = false →
  absent (cache_invalidate_written placed c ns args now) ns key.
Proof.
  intros Hg Hn Hm Hs. unfold may_change in Hm.
  destruct (written_keys args) as [[ks| |ks]|] eqn:Hw; [by eapply keys_absent| | |done]; clear Hs; destruct args as [|n rest]; try done;
    unfold written_keys in Hw; unfold cache_invalidate_written; destruct (negb (is_write_command n)); try done;
    destruct (named ["FLUSHALL"; "FLUSHDB"]%string n) eqn:Hf; try done.
  - by_table Hf. by apply ns_absent.
  - by destruct (named ["EVAL"; "EVALSHA"]%string n).
  - destruct (named ["EVAL"; "EVALSHA"]%string n) eqn:Hev; [|done]. by_table Hev.
    assert (ks = default [] (eval_keys (n :: rest))) as -> by (injection Hw; congruence).
    destruct placed; [by apply ns_absent|]. destruct Hm as [|(first & Hh & Hsl)]; [done|].
    destruct (default [] _); [done|]. injection Hh as ->. by apply slot_absent.
Qed.

Lemma put_get c ns key v now :
  good c → len ns < 2 ^ 32 → gen (inner c) < 2 ^ 64 - 1 → accepted c ns key v = true →
  (get (put c ns key v now) ns key now).2 =
    if below_floor (inner (put c ns key v now)) ns key (put_entry c ns key v now) then None else Some v.
Proof.
  intros Hg Hn Hgen Ha. pose proof (put_accepted c ns key v now Hg Hn Hgen Ha) as Hp.
  pose proof (put_good _ _ _ _ _ _ Hp) as Hg'. apply andb_true_iff in Ha as [Ht%negb_true_iff _].
  pose proof (ttl_for_bounds _ ns Hg) as Hb. unfold get. destruct (enabled (put c ns key v now)) eqn:He.
  - cbn [negb]. rewrite (put_here _ _ _ _ _ _ Hp). cbn [expires_at val put_entry].
    rewrite (proj2 (Z.ltb_lt _ _)) by (unfold MILLI; lia). by destruct (below_floor _ _ _ _).
  - exfalso. pose proof (put_here _ _ _ _ _ _ Hp) as Hh. rewrite (good_disabled _ Hg') in Hh; [done|].
    unfold enabled in He. pose proof (good_ttl _ Hg'). lia.
Qed.

(** ** Two connections of one proxy

    A data command outside a transaction is three steps, and other connections
    run between them: the cache is asked, the seat is asked, and the reply is
    written back ([data_command_inner] of src/crates/flint-proxy/src/main.rs). The seat is any
    machine that answers commands, for a tenant that has the cache on. *)
Section connections.

Context {S : Type} (exec : S → list bytes → S * Value) (placed : bool) (ns : bytes).

(** A connection: its command, and where it is with it. *)
Inductive conn :=
| Asking (args : list bytes)
| Missed (args : list bytes) (cacheable : bool)
| Replied (args : list bytes) (cacheable : bool) (reply : Value)
| Done (reply : Value).

Definition is_cacheable (c : ProxyCache) (args : list bytes) : bool :=
  enabled c && (length args =? 2)%nat && first_is (λ n, same_name n "GET") args.

(** One step of a connection at the time [now]. *)
Definition conn_step (now : Z) (st : ProxyCache * S) (k : conn) : ProxyCache * S * conn :=
  let '(c, s) := st in
  match k with
  | Asking args =>
      let cacheable := is_cacheable c args in
      if cacheable then
        let '(c', o) := get c ns (default [] (args !! 1%nat)) now in
        match o with
        | Some v => (c', s, Done (Bulk (Some v)))
        | None => (c', s, Missed args cacheable)
        end
      else (c, s, Missed args cacheable)
  | Missed args cacheable => let '(s', reply) := exec s args in (c, s', Replied args cacheable (null_as_array args reply))
  | Replied args cacheable reply => (cache_writeback placed c ns args reply true cacheable now, s, Done reply)
  | Done reply => (c, s, Done reply)
  end.

(** The schedule says which connection steps, and when. *)
Fixpoint schedule (steps : list (bool * Z)) (st : ProxyCache * S) (a b : conn) : ProxyCache * S * conn * conn :=
  match steps with
  | [] => (st.1, st.2, a, b)
  | (false, now) :: steps' => let '(c, s, a') := conn_step now st a in schedule steps' (c, s) a' b
  | (true, now) :: steps' => let '(c, s, b') := conn_step now st b in schedule steps' (c, s) a b'
  end.

Lemma run_get c s now key reply s' :
  is_cacheable c [bstr "GET"; key] = true → (get c ns key now).2 = None → exec s [bstr "GET"; key] = (s', reply) →
  ∀ steps st a b, st = (c, s) → a = Asking [bstr "GET"; key] →
  schedule ((false, now) :: (false, now) :: steps) st a b =
  schedule steps ((get c ns key now).1, s') (Replied [bstr "GET"; key] true (null_as_array [bstr "GET"; key] reply)) b.
Proof.
  intros Hc Hg He steps st a b -> ->. cbn [schedule conn_step]. rewrite Hc.
  change (default [] ([bstr "GET"; key] !! 1%nat)) with key.
  destruct (get c ns key now) as [c' [v|]]; [done|]. cbn [schedule conn_step]. by rewrite He.
Qed.

(** A SET of a key the cache does not hold leaves the cache as it was. *)
Lemma run_set c s s' now key v reply :
  entries (inner c) !! composite ns key = None → exec s [bstr "SET"; key; v] = (s', reply) →
  ∀ steps a, schedule ((true, now) :: (true, now) :: (true, now) :: steps) (c, s) a (Asking [bstr "SET"; key; v]) =
  schedule steps (c, s') a (Done reply).
Proof.
  intros He Hx steps a. cbn [schedule conn_step].
  assert (is_cacheable c [bstr "SET"; key; v] = false) as -> by (unfold is_cacheable; by rewrite andb_false_r).
  cbn [schedule conn_step]. rewrite Hx. cbn [schedule conn_step].
  assert (null_as_array [bstr "SET"; key; v] reply = reply) as -> by (by destruct reply).
  assert (cache_writeback placed c ns [bstr "SET"; key; v] reply true false now = c) as ->; [|done].
  transitivity (if enabled c then cache_invalidate_written placed c ns [bstr "SET"; key; v] now else c).
  { unfold cache_writeback. destruct reply as [| | | |[?|]| | | | | | | | | |]; by destruct (enabled c). }
  destruct (enabled c) eqn:Hen; [|done]. change (invalidate c ns key = c). unfold invalidate. rewrite Hen.
  unfold remove. rewrite He. by destruct c.
Qed.

End connections.

(** * Properties *)

Definition demo_cache : ProxyCache := with_ceiling 5000 100 30000.
Definition demo_ops : list op :=
  [Put (bstr "t") (bstr "k") (bstr "v1") 0; Put (bstr "t") (bstr "k") (bstr "v2") 10; Invalidate (bstr "t") (bstr "j")].

Lemma demo_made : made demo_cache.
Proof. exists 5000, 100, 30000. split; [done|]. lia. Qed.

Lemma demo_history : history demo_cache demo_ops 10.
Proof.
  apply (history_snoc demo_cache (take 2 demo_ops) 10 (Invalidate (bstr "t") (bstr "j"))); [|vm_compute; done..].
  apply (history_snoc demo_cache (take 1 demo_ops) 0 (Put (bstr "t") (bstr "k") (bstr "v2") 10)); [|vm_compute; done..].
  apply (history_snoc demo_cache [] 0 (Put (bstr "t") (bstr "k") (bstr "v1") 0)); [constructor|vm_compute; done..].
Qed.

(** C27. Whatever tenants and operators do with the cache, its books stay exact:
    the resident bytes are the sum of the entries' costs and never over the
    budget, each tenant's ledger is the sum of its own and is there only while
    it has an entry, every entry is in the queue under its generation, and a
    disabled cache is empty. *)
Theorem cache_books_stay_exact c0 ops t : made c0 → history c0 ops t → good (run c0 ops).
Proof. intros Hm Hh. by apply (history_spec c0 ops t). Qed.

Lemma cache_books_stay_exact_witness : good (run demo_cache demo_ops) ∧ resident (inner (run demo_cache demo_ops)) = 8.
Proof.
  split; [exact (cache_books_stay_exact demo_cache demo_ops 10 demo_made demo_history)|vm_compute; reflexivity].
Defined.



(** A put is kept and is fair. The value is there at once, under the newest
    generation; nothing else is added; the tenant is left within its share of
    the budget, counted over the tenants resident, or with this one entry; and
    while the budget is not exceeded no other tenant loses anything. *)
Theorem puts_are_kept_and_fair c ns key v now :
  good c → len ns < 2 ^ 32 → gen (inner c) < 2 ^ 64 - 1 → accepted c ns key v = true →
  put_spec c ns key v now (put c ns key v now) ∧
  (get (put c ns key v now) ns key now).2 =
    if below_floor (inner (put c ns key v now)) ns key (put_entry c ns key v now) then None else Some v.
Proof.
  intros Hg Hn Hgen Ha. pose proof (put_accepted c ns key v now Hg Hn Hgen Ha) as Hp. split; [done|]. by apply put_get.
Qed.

Lemma puts_are_kept_and_fair_witness :
  (get (put demo_cache (bstr "t") (bstr "k") (bstr "v") 0) (bstr "t") (bstr "k") 0).2 = Some (bstr "v").
Proof.
  assert (good demo_cache) as Hg by (apply (made_good _ 0), demo_made).
  refine (eq_trans (proj2 (puts_are_kept_and_fair demo_cache (bstr "t") (bstr "k") (bstr "v") 0 Hg _ _ _)) _);
    vm_compute; reflexivity.
Defined.



(** C29. XGROUP is a write of the key after its subcommand, and the proxy routes
    and orders it by that key, but the cache is told of the subcommand instead:
    once the seat has made the change, the client's next GET of the key is still
    answered with the string the proxy had cached for it. *)
Theorem xgroup_keeps_the_cached_value {S} (exec : S → list bytes → S * Value) placed ns sub key rest c s s' reply v now now' :
  let args := bstr "XGROUP" :: sub :: key :: rest in
  len ns < 2 ^ 32 → key ≠ sub → same_name sub "HELP" = false →
  (get c ns key now').2 = Some v → exec s args = (s', reply) →
  written_keys args = Some (Keys [key]) ∧
  let '(_, s2, a, b) :=
    schedule exec placed ns
      [(false, now); (false, now); (false, now); (* XGROUP: past the cache, the seat, the invalidation *)
       (true, now')]                             (* GET: a hit *)
      (c, s) (Asking args) (Asking [bstr "GET"; key]) in
  s2 = s' ∧ a = Done reply ∧ b = Done (Bulk (Some v)).
Proof.
  intros args Hn Hne Hsub Hget Hx.
  assert (written_keys args = Some (Keys [key])) as Hw.
  { change (written_keys args) with (Some (Keys (match (if same_name sub "HELP" then None else Some key) with Some k => [k] | None => [] end))).
    by rewrite Hsub. }
  split; [done|]. cbn [schedule conn_step].
  assert (is_cacheable c args = false) as -> by (unfold is_cacheable; by rewrite andb_false_r).
  cbn [schedule conn_step]. rewrite Hx. cbn [schedule conn_step].
  assert (null_as_array args reply = reply) as -> by (by destruct reply).
  set (c' := cache_writeback placed c ns args reply true false now).
  assert ((get c' ns key now').2 = Some v) as Hg.
  { unfold c', cache_writeback. change (first_is is_write_command args) with true. rewrite <- Hget.
    assert (skipped args key = true) as Hs.
    { unfold skipped. apply orb_true_iff. right. change (first_is (named ("PFCOUNT" :: ELEMENT_WRITES)%string) args) with true.
      apply negb_true_iff, bool_decide_eq_false. intros [= E]. congruence. }
    destruct reply as [| | | |[?|]| | | | | | | | | |]; destruct (enabled c); cbn [andb]; done || by apply skipped_kept. }
  assert (enabled c' = true) as Hen by (unfold get in Hg; by destruct (enabled c')).
  unfold is_cacheable. rewrite Hen. cbn [andb].
  change (first_is (λ n, same_name n "GET") [bstr "GET"; key]) with true.
  change (default [] ([bstr "GET"; key] !! 1%nat)) with key. destruct (get c' ns key now') as [c'' o]. cbn in Hg. by rewrite Hg.
Qed.

(** A seat with one key, gone from it and then made a stream. *)
Definition one_stream (s : bool) (args : list bytes) : bool * Value :=
  match args with
  | [_; _; _; _; _; _] => (true, Simple (bstr "OK"))
  | _ => (s, if s then Error (bstr "WRONGTYPE") else Bulk None)
  end.

Lemma xgroup_keeps_the_cached_value_witness :
  let args := [bstr "XGROUP"; bstr "CREATE"; bstr "k"; bstr "g"; bstr "$"; bstr "MKSTREAM"] in
  let '(_, s', _, b) :=
    schedule one_stream false (bstr "t") [(false, 20); (false, 20); (false, 20); (true, 30)]
      (run demo_cache demo_ops, false) (Asking args) (Asking [bstr "GET"; bstr "k"]) in
  s' = true ∧ one_stream s' [bstr "GET"; bstr "k"] = (true, Error (bstr "WRONGTYPE")) ∧ b = Done (Bulk (Some (bstr "v2"))).
Proof.
  pose proof (xgroup_keeps_the_cached_value one_stream false (bstr "t") (bstr "CREATE") (bstr "k")
    [bstr "g"; bstr "$"; bstr "MKSTREAM"] (run demo_cache demo_ops) false true (Simple (bstr "OK")) (bstr "v2") 20 30) as H.
  cbv zeta in H |- *. destruct H as [_ H]; [vm_compute; reflexivity|discriminate|vm_compute; reflexivity..|].
  destruct (schedule _ _ _ _ _ _ _) as [[[? s'] a] b]. destruct H as (-> & _ & ->). split; [|split]; reflexivity.
Defined.

(** C39. The budget bounds the entries but not the queue: one key, put again
    and again, leaves one slot behind per put, and no slot is ever
    dropped while the resident bytes fit the budget. *)
Theorem queue_outgrows_the_budget n :
  Z.of_nat n < 2 ^ 64 - 1 →
  ∃ c0 ops t, made c0 ∧ history c0 ops t ∧ length (fifo (inner (run c0 ops))) = n ∧
    resident (inner (run c0 ops)) <= 4 ∧ max_bytes (run c0 ops) = 10.
Proof.
  intros Hn. destruct (put_again n Hn) as (Hh & _ & _ & Hl & Hb & _ & _ & Hr).
  exists one_key, (replicate n again), 0. split; [|done]. exists 1, 10, 1. split; [done|]. lia.
Qed.

Lemma queue_outgrows_the_budget_witness :
  ∃ c0 ops t, made c0 ∧ history c0 ops t ∧ length (fifo (inner (run c0 ops))) = 1000%nat ∧
    resident (inner (run c0 ops)) <= 4 ∧ max_bytes (run c0 ops) = 10.
Proof. apply (queue_outgrows_the_budget 1000). vm_compute. reflexivity. Defined.

(** C40. Read-your-own-writes can fail between two connections of one proxy:
    a GET that was answered before a write, and writes its reply back after the
    write's invalidation, puts the old value into the cache, and the writer's
    next read is answered with it although the seat has the new one. *)
Theorem late_reply_hides_a_write {S} (exec : S → list bytes → S * Value) placed ns key c s s1 s2 v0 v1 ok now :
  good c → len ns < 2 ^ 32 → gen (inner c) < 2 ^ 64 - 1 → slot_floors (inner c) !! ns = None →
  enabled c = true → entries (inner c) !! composite ns key = None → accepted c ns key v0 = true →
  exec s [bstr "GET"; key] = (s1, Bulk (Some v0)) → exec s1 [bstr "SET"; key; v1] = (s2, ok) →
  let '(c', s', a, b) :=
    schedule exec placed ns
      [(false, now); (false, now);            (* GET: a miss, and the seat's answer *)
       (true, now); (true, now); (true, now); (* SET: past the cache, the seat, the invalidation *)
       (false, now)]                          (* GET: the reply is written back *)
      (c, s) (Asking [bstr "GET"; key]) (Asking [bstr "SET"; key; v1]) in
  s' = s2 ∧ b = Done ok ∧ a = Done (Bulk (Some v0)) ∧ (get c' ns key now).2 = Some v0.
Proof.
  intros Hg Hn Hgen Hfl Hen He Ha Hget Hset.
  assert (get c ns key now = (miss c, None)) as Hmiss by (unfold get; by rewrite Hen, He).
  rewrite (run_get exec placed ns c s now key (Bulk (Some v0)) s1);
    [|unfold is_cacheable; by rewrite Hen|by rewrite Hmiss|done..].
  rewrite Hmiss. cbn [fst]. change (null_as_array [bstr "GET"; key] (Bulk (Some v0))) with (Bulk (Some v0)).
  rewrite (run_set exec placed ns (miss c) s1 s2 now key v1 ok); [|done..].
  cbn [schedule conn_step fst snd]. split_and!; try done.
  change (cache_writeback placed (miss c) ns [bstr "GET"; key] (Bulk (Some v0)) true true now)
    with (if enabled (put (miss c) ns key v0 now) && false then
            cache_invalidate_written placed (put (miss c) ns key v0 now) ns [bstr "GET"; key] now
          else put (miss c) ns key v0 now).
  rewrite andb_false_r. rewrite put_get; [|by apply good_miss|done..].
  unfold below_floor. rewrite (put_floors _ _ _ _ _ _ (put_accepted (miss c) ns key v0 now (good_miss c Hg) Hn Hgen Ha)).
  change (slot_floors (inner (miss c))) with (slot_floors (inner c)). by rewrite Hfl.
Qed.

(** A seat that holds one string. *)
Definition one_string (s : bytes) (args : list bytes) : bytes * Value :=
  match args with
  | [_; _; v] => (v, Simple (bstr "OK"))
  | _ => (s, Bulk (Some s))
  end.

Lemma late_reply_hides_a_write_witness :
  let '(c', s', _, _) :=
    schedule one_string false (bstr "t") [(false, 0); (false, 0); (true, 0); (true, 0); (true, 0); (false, 0)]
      (demo_cache, bstr "old") (Asking [bstr "GET"; bstr "k"]) (Asking [bstr "SET"; bstr "k"; bstr "new"]) in
  s' = bstr "new" ∧ (get c' (bstr "t") (bstr "k") 0).2 = Some (bstr "old").
Proof.
  pose proof (late_reply_hides_a_write one_string false (bstr "t") (bstr "k") demo_cache (bstr "old") (bstr "old")
    (bstr "new") (bstr "old") (bstr "new") (Simple (bstr "OK")) 0) as H.
  assert (good demo_cache) as Hg by (apply (made_good _ 0), demo_made).
  specialize (H Hg eq_refl eq_refl eq_refl eq_refl eq_refl eq_refl eq_refl eq_refl).
  destruct (schedule _ _ _ _ _ _ _) as [[[c' s'] a] b]. destruct H as (? & _ & _ & ?). split; assumption.
Defined.

End Cache.
